(* ===== verification/_CoqProject ===== *)
-Q . S2P
Prelude.v
IR.v
DFG.v
DFGVerifier.v
TargetModel.v
CgraV2.v
TargetDFG.v
TargetDFGVerifier.v
TargetLegalizer.v
ModuloResources.v
OrderedMap.v
ModuloMapping.v
MappingVerifier.v
RouteSearch.v
BestFirst.v
RouteSearchExact.v
DiffConstraints.v
MIIAnalyzer.v
ModuloMapper.v
ModuloMapperCorrect.v
ModuloMapperSound.v
StageScheduler.v
StorageRequirements.v
PeriodicLifetime.v
RFAllocation.v
PortMatching.v
Coloring.v
RFAllocator.v
RFAllocatorExact.v
MaterializedSchedule.v
MaterializedVerifier.v
ScheduleMaterializer.v
MaterializeSpec.v
MaterializedVerifierSound.v
MaterializedExact.v
MaterializerSound.v
MaterializerGaps.v
ControlLayout.v
TargetLoader.v
CgraV2Json.v
TargetLoaded.v
ConstantAllocator.v
TargetLowering.v
ControlOverlay.v
TargetLoweringSpec.v
TargetLoweringExact.v
TargetLoweringSafe.v
TargetLoweringGaps.v
Pipeline.v
BackendFeasibility.v
PipelineCorrect.v
KernelABI.v
KernelABIVerified.v
KernelABIBinding.v
KernelExecution.v
KernelCompiled.v
