(* ===== verification/Prelude.v ===== *)
(** * A verified model of the predicated-mesh CGRA compiler

    The compiler under [src/compiler] turns the dataflow graph of a loop body into the
    control words of a coarse-grained reconfigurable array: a mesh of tiles, each with a
    functional unit, some with a load/store unit, with routed links, register files and
    a control memory.  Iterations of the loop overlap: a new one starts every II cycles
    (the initiation interval).  This library models the compiler from the generic graph
    to the program manifest, component by component, and proves what each component
    promises to the next.

    ** The parts and how they interact

    [compileGenericDFG] is a chain of phases, each followed by an independent verifier:

    - the generic graph ([DFG], made by [DFGBuilder], checked by [DFGVerifier]) is
      legalized for a machine description ([TargetModel]) into a target graph
      ([TargetDFG], checked by [TargetDFGVerifier]);
    - the MII analysis gives the least interval; the modulo mapper places the nodes on
      tiles and slots modulo II and routes the value edges with the route search, over a
      reservation table of the finite resource universe; every complete mapping goes
      through the mapping verifier and through the back end's feasibility check;
    - the stage scheduler turns slots into absolute times, the storage analysis finds
      where and how long values wait, and the register allocator gives each wait a
      register and ports;
    - the materializer unfolds a trip count into prologue, repeated kernel and epilogue;
    - the lowering assigns the fields of every tile's control setting in every cycle,
      encodes them into 128-bit words and describes them in a manifest.

    [compileKernel] puts the kernel ABI in front: the binder replaces the external values
    of a kernel by constants with the bits of an invocation and adds a store to a reserved
    word of the scratchpad for every live-out; the ABI verifier checks its work; and the
    pipeline compiles the bound graph.

    ** The files

    Code is named relative to [src/compiler]; [{include/cgra,lib}] stands for both
    directories.  A struct of the code is a [Record], an enumeration or variant an
    [Inductive], a function a [Definition] or [Fixpoint] of the same name where Rocq
    allows it.

    The library itself:
    - [Prelude]: exceptions and the error monad [result], machine words, list lemmas,
      tactics;
    - [OrderedMap]: [std::map]; [DiffConstraints]: relaxation of difference constraints;
      [BestFirst]: best-first search; each a theory that several components instantiate.

    The graphs ([IR/], [Target/]):
    - [IR]: [ValueType], [Opcode], [Node], [Edge]; [DFG]: [DFG], [DFGBuilder];
      [DFGVerifier]: [DFGVerifier.cpp];
    - [TargetModel]: [TargetOperation], the queries of [TargetModel.cpp]; [CgraV2]: the
      checked-in machine as data; [TargetDFG], [TargetDFGVerifier], [TargetLegalizer]:
      the files of those names; [ControlLayout]: [ControlLayout.cpp];
    - [TargetLoader]: [TargetModel::loadFromFile], over a class of JSON operations;
      [CgraV2Json]: the checked-in contract as a JSON value, which loads as [CgraV2];
      [TargetLoaded]: what the loader guarantees.

    Mapping ([Analysis/], [Mapping/]):
    - [MIIAnalyzer]; [ModuloResources]: [ModuloTime], [Network], [ModuloResource],
      [ModuloResourceModel], [ResourceReservation]; [ModuloMapping];
      [MappingVerifier]: [ModuloMappingVerifier.cpp];
    - [RouteSearch]: [ModuloRouteSearch.cpp], with its theorems in [RouteSearchExact];
    - [ModuloMapper], with the invariant of its search in [ModuloMapperCorrect] and the
      loop over the intervals in [ModuloMapperSound].

    Scheduling and registers ([Schedule/], [RegisterAllocation/]):
    - [StageScheduler]: [StageScheduler], [StagedMapping], [StageAssignmentVerifier];
    - [StorageRequirements], [PeriodicLifetime]; [RFAllocation]: [RFAllocatedMapping] and
      [RFAllocationVerifier]; [PortMatching], [Coloring], [RFAllocator]: the parts of
      [RFAllocator.cpp], with the theorems of the whole in [RFAllocatorExact];
    - [MaterializedSchedule]: events and schedules; [MaterializedVerifier]:
      [MaterializedScheduleVerifier.cpp]; [ScheduleMaterializer]; [MaterializeSpec]: the
      execution that a schedule has to contain; [MaterializedVerifierSound],
      [MaterializedExact], [MaterializerSound]: the theorems; [MaterializerGaps]:
      executions it refuses.

    Lowering ([Lowering/]) and the driver ([Pipeline/]):
    - [ConstantAllocator], [TargetLowering]; [ControlOverlay], [TargetLoweringSpec]: what
      an event needs of a control setting; [TargetLoweringExact], [TargetLoweringSafe]:
      the theorems; [TargetLoweringGaps]: where lowering goes wrong;
    - [Pipeline]: [BackendFeasibilityChecker.cpp] and [CompileDFG.cpp];
      [BackendFeasibility] and [PipelineCorrect]: their theorems.

    Kernel arguments ([ABI/]):
    - [KernelABI]: signatures, invocations, layouts, [KernelABIVerifier.cpp],
      [KernelABIBinder.cpp] and [CompileKernel.cpp];
    - [KernelABIVerified]: the rules of invocations and bound kernels and their deciders;
      [KernelABIBinding]: which kernels can be bound; [KernelExecution]: executions of
      generic graphs, and what binding keeps of them; [KernelCompiled]: the driver.

    ** What the theorems show

    - The machine: every contract the loader accepts satisfies what the components assume
      of a target ([TargetLoaded.loaded]); that [LOAD] and [STORE] have the operands the
      legalizer expects ([memory_contract]) and that the control fields are the members the
      codec knows ([drives_control]) are facts of the checked-in contract.
    - Graphs: the builders keep every index and cache consistent and a call that throws
      changes nothing; each verifier's report is empty exactly on the graphs its typing
      rules allow; legalization succeeds exactly when those rules and the machine's
      operations allow it, and its graph is the source renamed by position.
    - Intervals: the two bounds of the MII analysis are least; no accepted mapping and no
      schedulable one is below them.
    - Mapping: the mapping verifier is exact for a declarative notion of valid mapping,
      under which overlapped iterations never collide; the route search returns the best
      route or rightly none; the mapper returns only complete, verified, checked mappings
      within its window and budget, and rolls every rejected candidate back.
    - Stages and registers: the stages are the least ones or none exist; storage segments
      are exactly where values wait; the allocation verifier is exact, under it no value
      is ever lost in the endless loop; the allocator finds an allocation or none exists
      within its budget.
    - Schedules: a verified schedule, unrolled, is exactly the finite execution; the
      materializer always returns.
    - Control words: encoding and decoding are inverse; lowering a cycle is the overlay
      of what its events need; replaying the program is the execution for schedules of
      the shapes [lowerable] describes.
    - The whole: every compilation ends with a result whose status is explained
      ([PipelineCorrect.compile_outcome_exact]), and a successful one has produced a
      program that runs the source ([PipelineCorrect.compiled_program_runs_source]).
    - Kernels: the validator and the ABI verifier are exact for declarative rules; the
      binder succeeds exactly on the kernels that can be bound; the bound graph has the
      executions of the source under the invocation, with every live-out stored in every
      iteration; a kernel compilation ends in an explained status and its success is a
      program for that bound graph ([KernelCompiled]).

    Interfaces between components are predicates that one component's theorem provides
    and the next one's assumes: [TargetModel_wf] and [ControlLayout_wf] (of loaded
    contracts), [TargetDFG_inv], [valid_mapping], [completed_mapping], [checker_answers] (what
    the mapper asks of a completion checker, discharged for the back end's check),
    [least_stages], [requirements_exact], [valid_allocation], [schedule_exact],
    [lowering_input], [compile_input], [kernel_bound]; the ordered maps take their keys through the classes [KeyOrder] and
    [LawfulOrder].

    ** Conventions

    Integers are [Z] with the wrap-around of their width written out ([wrap32], [wrap64])
    where the code computes in it.  A call that may throw is a [result]; a phase that
    reports failures returns its result record.  Loops without a structural measure take
    fuel and return [None] when it runs out, and a theorem says that it never does:
    - the recurrence bound's binary search, 33 rounds for 32-bit intervals; relaxation,
      one round per node; the collection of a cycle, two steps more than nodes;
    - the route search, [5 * states + 2] rounds, as every state is expanded once and
      pushes at most five entries; the mapper, one level more than nodes;
    - an augmenting path, one step more than ports; a colouring, one level per segment;
    - trimming a kernel, one round more than one-shot events.
    The sizes under which nothing overflows are hypotheses with names: [legal_size],
    [window_fits], [stage_fits], [back_end_fits], [segments_fit], [bind_room].

    Left out of the definitions: the texts of messages, diagnostics and renderings; the
    statistics counters' width (they count in [Z]); running out of memory.  Simplified
    representations: the four routes of a tile are a record, a priority queue is a sorted
    list, the manifest is a record instead of its JSON text, artifacts are their names,
    and the file system is an environment whose operations may fail.  An index outside a
    vector is [LowUndefined] in the lowering, a null pointer followed by the ABI verifier
    is [Undefined]; the one such read of the storage analysis
    (the action before the first) is read as "not a link".  Cycle counters of 32 bits in
    the lowering are assumed not to wrap.

    ** Not modelled

    - [lib/Frontend/LLVM]: written against the LLVM API, which is third-party code.
    - [*Serialization.cpp] and the JSON functions of [lib/ABI]: readers and writers of a
      third-party JSON type, whose renderings no later component reads back.
    - [lib/Mapping/ExactModuloOracle.cpp]: an exhaustive search used by the tests.
    - [tools]: argument parsing and file access around the library calls.
    - The hardware, its simulation and the golden model, which are not C++. *)
From stdpp Require Import base numbers list gmap sorting strings.

Open Scope Z_scope.

(** ** Exceptions and the error monad

    The C++ code signals contract violations by throwing; the standard
    exception classes it uses are the constructors of [exn].  A call that may
    throw is a value of [result]. *)

Inductive exn :=
  | OutOfRange          (* std::out_of_range *)
  | InvalidArgument     (* std::invalid_argument *)
  | OverflowError       (* std::overflow_error *)
  | LengthError         (* std::length_error *)
  | RuntimeError        (* std::runtime_error *)
  | LogicError          (* std::logic_error *)
  | BadOptionalAccess   (* std::bad_optional_access *)
  | BadVariantAccess.   (* std::bad_variant_access *)

#[export] Instance exn_eq_dec : EqDecision exn.
Proof. solve_decision. Defined.

Inductive result (A : Type) :=
  | Ok (a : A)
  | Throw (e : exn).
Arguments Ok {A} a.
Arguments Throw {A} e.

#[export] Instance result_ret : MRet result := fun A a => Ok a.
#[export] Instance result_bind : MBind result :=
  fun A B f m => match m with Ok a => f a | Throw e => Throw e end.

(** A computation whose behaviour may also be undefined: a null pointer followed, a shift
    by too much. *)
Inductive outcome (A : Type) :=
  | Done (a : A)
  | Raise (e : exn)
  | Undefined.
Arguments Done {A} a.
Arguments Raise {A} e.
Arguments Undefined {A}.

#[export] Instance outcome_ret : MRet outcome := fun A a => Done a.
#[export] Instance outcome_bind : MBind outcome := fun A B f m =>
  match m with Done a => f a | Raise e => Raise e | Undefined => Undefined end.

Definition run_call {A} (r : result A) : outcome A :=
  match r with Ok a => Done a | Throw e => Raise e end.
Definition deref {A} (o : option A) : outcome A :=
  match o with Some a => Done a | None => Undefined end.

Lemma outcome_bind_Done {A B} (m : outcome A) (f : A -> outcome B) b :
  mbind f m = Done b <-> exists a, m = Done a /\ f a = Done b.
Proof. destruct m; simpl; split; naive_solver. Qed.

Lemma run_call_Done {A} (r : result A) a : run_call r = Done a <-> r = Ok a.
Proof. destruct r; simpl; naive_solver. Qed.

Definition of_option {A} (e : exn) (o : option A) : result A :=
  match o with Some a => Ok a | None => Throw e end.

Definition is_Ok {A} (r : result A) : bool :=
  match r with Ok _ => true | Throw _ => false end.

Lemma bind_Ok {A B} (m : result A) (f : A -> result B) b :
  mbind f m = Ok b <-> exists a, m = Ok a /\ f a = Ok b.
Proof.
  destruct m as [a|e]; simpl; split; intros H.
  - eauto.
  - by destruct H as (a0 & [= <-] & H).
  - discriminate.
  - by destruct H as (a' & [=] & _).
Qed.

Lemma of_option_Ok {A} e (o : option A) a :
  of_option e o = Ok a <-> o = Some a.
Proof. destruct o; simpl; naive_solver. Qed.

Lemma of_option_Throw {A} e e' (o : option A) :
  of_option e o = Throw e' <-> o = None /\ e = e'.
Proof. destruct o; simpl; naive_solver. Qed.

(** ** Machine integers

    Unsigned and signed values are [Z] numbers; every place where the source
    narrows or may wrap around says so with these functions. *)

Definition u32_max : Z := 4294967295.
Definition u64_max : Z := 18446744073709551615.
Definition i64_max : Z := 9223372036854775807.
Definition i64_min : Z := -9223372036854775808.
Definition wrap16 (x : Z) : Z := x mod 65536.
Definition wrap32 (x : Z) : Z := x mod 4294967296.
Definition wrap64 (x : Z) : Z := x mod 18446744073709551616.

Definition is_u32 (x : Z) : Prop := 0 <= x <= u32_max.
Definition is_u64 (x : Z) : Prop := 0 <= x <= u64_max.
Definition is_i64 (x : Z) : Prop := i64_min <= x <= i64_max.

Ltac unfold_words :=
  unfold is_u32, is_u64, is_i64, u32_max, u64_max, i64_max, i64_min,
    wrap16, wrap32, wrap64 in *.

(** [word_lia] closes goals about machine words, with [/] and [mod] expanded. *)
Ltac word_lia := unfold_words; Z.to_euclidean_division_equations; lia.

Lemma wrap32_id x : is_u32 x -> wrap32 x = x.
Proof. intros. unfold wrap32. apply Z.mod_small. word_lia. Qed.

Lemma wrap64_id x : is_u64 x -> wrap64 x = x.
Proof. intros. unfold wrap64. apply Z.mod_small. word_lia. Qed.

Lemma wrap32_range x : is_u32 (wrap32 x).
Proof. word_lia. Qed.

(** ** Lists *)

Section Lists.
Context {A B : Type}.

(** [std::find_if] over a vector. *)
Fixpoint find_if (p : A -> bool) (l : list A) : option A :=
  match l with
  | [] => None
  | x :: l => if p x then Some x else find_if p l
  end.

Lemma find_if_Some p l x :
  find_if p l = Some x -> x ∈ l /\ p x = true.
Proof.
  induction l as [|y l IH]; simpl; [done|].
  destruct (p y) eqn:E; intros H.
  - injection H as <-. split; [left|done].
  - destruct (IH H). split; [by right|done].
Qed.

Lemma find_if_None p l :
  find_if p l = None <-> forall x, x ∈ l -> p x = false.
Proof.
  induction l as [|y l IH]; simpl.
  - split; [intros _ x Hx; by apply not_elem_of_nil in Hx|done].
  - destruct (p y) eqn:E; split.
    + done.
    + intros H. specialize (H y ltac:(left)). congruence.
    + intros H x Hx. apply elem_of_cons in Hx as [->|Hx]; [done|].
      by apply IH.
    + intros H. apply IH. intros x Hx. apply H. by right.
Qed.

Lemma find_if_is_Some p l :
  (exists x, x ∈ l /\ p x = true) -> is_Some (find_if p l).
Proof.
  intros (x & Hx & Hp). destruct (find_if p l) eqn:E; [eauto|].
  rewrite find_if_None in E. specialize (E x Hx). congruence.
Qed.

(** Under a key that is unique in the list the lookup is exact. *)
Lemma find_if_unique (key : A -> Z) k l x :
  NoDup (key <$> l) -> x ∈ l -> key x = k ->
  find_if (fun y => key y =? k) l = Some x.
Proof.
  induction l as [|y l IH]; simpl; intros Hnd Hx Hk.
  - by apply not_elem_of_nil in Hx.
  - apply NoDup_cons in Hnd as [Hn Hnd].
    apply elem_of_cons in Hx as [->|Hx].
    + by rewrite (proj2 (Z.eqb_eq _ _) Hk).
    + destruct (Z.eqb_spec (key y) k) as [E|E]; [|by auto].
      exfalso. apply Hn. rewrite E, <- Hk. apply list_elem_of_fmap. eauto.
Qed.

Lemma concat_nil_iff (ls : list (list A)) :
  concat ls = [] <-> forall l, l ∈ ls -> l = [].
Proof.
  induction ls as [|l ls IH]; simpl.
  - split; [intros _ x Hx; by apply not_elem_of_nil in Hx|done].
  - rewrite app_nil, IH. split.
    + intros [-> H] x Hx. apply elem_of_cons in Hx as [->|Hx]; auto.
    + intros H. split; [apply H; left|]. intros x Hx. apply H. by right.
Qed.

Lemma flat_map_nil_iff (f : A -> list B) (l : list A) :
  flat_map f l = [] <-> forall x, x ∈ l -> f x = [].
Proof.
  induction l as [|y l IH]; simpl.
  - split; [intros _ x Hx; by apply not_elem_of_nil in Hx|done].
  - rewrite app_nil, IH. split.
    + intros [H1 H2] x Hx. apply elem_of_cons in Hx as [->|Hx]; auto.
    + intros H. split; [apply H; left|]. intros x Hx. apply H. by right.
Qed.

Lemma elem_of_flat_map (f : A -> list B) (l : list A) y :
  y ∈ flat_map f l <-> exists x, x ∈ l /\ y ∈ f x.
Proof.
  rewrite list_elem_of_In, in_flat_map.
  setoid_rewrite list_elem_of_In. naive_solver.
Qed.
End Lists.

Lemma list_filter_ext_in {A} (P Q : A -> Prop) `{!forall x, Decision (P x)}
    `{!forall x, Decision (Q x)} (l : list A) :
  (forall x, x ∈ l -> P x <-> Q x) -> filter P l = filter Q l.
Proof.
  induction l as [|x l IH]; intros Hpq; [done|].
  rewrite !filter_cons, IH by (intros y Hy; apply Hpq; by right).
  pose proof (Hpq x ltac:(left)) as Hx. clear Hpq. repeat case_decide; naive_solver.
Qed.

Lemma list_nil_filter_iff {A} (P : A -> Prop) `{!forall x, Decision (P x)} (l : list A) :
  filter P l = [] <-> forall x, x ∈ l -> ~ P x.
Proof.
  induction l as [|y l IH].
  { split; [intros _ x Hx; by apply not_elem_of_nil in Hx|done]. }
  rewrite filter_cons. split.
  - case_decide as Hy; [done|]. rewrite IH. intros Hl x Hx.
    apply elem_of_cons in Hx as [->|Hx]; auto.
  - intros Hl. rewrite decide_False by (apply Hl; left). apply IH. intros x Hx. apply Hl. by right.
Qed.

Lemma list_filter_all {A} (P : A -> Prop) `{!forall x, Decision (P x)} (l : list A) :
  (forall x, x ∈ l -> P x) -> filter P l = l.
Proof.
  induction l as [|y l IH]; intros Hl; [done|]. rewrite filter_cons_True by (apply Hl; left).
  f_equal. apply IH. intros x Hx. apply Hl. by right.
Qed.

Lemma filter_fmap {A B} (P : B -> Prop) `{!forall x, Decision (P x)} (f : A -> B) (l : list A) :
  filter P (f <$> l) = f <$> filter (fun x => P (f x)) l.
Proof.
  induction l as [|x l IH]; [done|]. rewrite fmap_cons, !filter_cons, IH. by case_decide.
Qed.

(** A [flat_map] whose pieces are disjoint and duplicate-free has no duplicates. *)
Lemma NoDup_flat_map {A B} (f : A -> list B) (tag : B -> A) (l : list A) :
  NoDup l -> (forall x, x ∈ l -> NoDup (f x)) ->
  (forall x y, y ∈ f x -> tag y = x) -> NoDup (flat_map f l).
Proof.
  intros Hl Hf Htag. induction Hl as [|x l Hx Hl IH]; simpl; [constructor|].
  apply NoDup_app. split; [apply Hf; left|]. split.
  - intros y H1 H2. apply elem_of_flat_map in H2 as (x' & Hx' & H2).
    apply Htag in H1 as E1. apply Htag in H2 as E2. congruence.
  - apply IH. intros z Hz. apply Hf. by right.
Qed.

(** The same, when distinct pieces are known to be disjoint. *)
Lemma NoDup_flat_map_disjoint {A B} (f : A -> list B) (l : list A) :
  NoDup l -> (forall x, x ∈ l -> NoDup (f x)) ->
  (forall x x' y, x ∈ l -> x' ∈ l -> y ∈ f x -> y ∈ f x' -> x = x') -> NoDup (flat_map f l).
Proof.
  intros Hl. induction Hl as [|x l Hx Hl IH]; simpl; intros Hf Hd; [apply NoDup_nil_2|].
  apply NoDup_app. split; [apply Hf; left|]. split.
  - intros y H1 H2. apply elem_of_flat_map in H2 as (x' & Hx' & H2).
    assert (x = x') as <- by (eapply Hd; [left|by right|done|done]). done.
  - apply IH; [intros z Hz; apply Hf; by right|]. intros z z' y Hz Hz'. apply Hd; by right.
Qed.

Lemma fmap_flat_map {A B C} (g : B -> C) (f : A -> list B) (l : list A) :
  g <$> flat_map f l = flat_map (fun x => g <$> f x) l.
Proof. induction l as [|x l IH]; simpl; [done|]. by rewrite fmap_app, IH. Qed.

Lemma flat_map_fmap {A B C} (f : B -> list C) (g : A -> B) (l : list A) :
  flat_map f (g <$> l) = flat_map (fun x => f (g x)) l.
Proof. induction l as [|x l IH]; [done|]. rewrite fmap_cons. simpl. by rewrite IH. Qed.

Lemma flat_map_flat_map {A B C} (f : B -> list C) (g : A -> list B) (l : list A) :
  flat_map f (flat_map g l) = flat_map (fun x => flat_map f (g x)) l.
Proof. induction l as [|x l IH]; simpl; [done|]. by rewrite flat_map_app, IH. Qed.

Lemma flat_map_ext_in {A B} (f g : A -> list B) (l : list A) :
  (forall x, x ∈ l -> f x = g x) -> flat_map f l = flat_map g l.
Proof.
  induction l as [|x l IH]; intros H; simpl; [done|]. rewrite H by left. f_equal.
  apply IH. intros y Hy. apply H. by right.
Qed.

(** Permutations of concatenations. *)
Lemma flat_map_perm {A B} (f g : A -> list B) (l k : list A) :
  (forall x, x ∈ l -> f x ≡ₚ g x) -> l ≡ₚ k -> flat_map f l ≡ₚ flat_map g k.
Proof.
  intros Hfg Hp. transitivity (flat_map g l).
  - clear Hp. induction l as [|x l IH]; simpl; [done|]. rewrite Hfg by left. f_equiv.
    apply IH. intros y Hy. apply Hfg. by right.
  - clear Hfg. induction Hp as [|x l k _ IH|x y l|l k k' _ IH _ IH']; simpl; [done| | |].
    + by rewrite IH.
    + rewrite !(assoc_L (++)). f_equiv. apply Permutation_app_comm.
    + by rewrite IH.
Qed.

Lemma flat_map_app_perm {A B} (f g : A -> list B) (l : list A) :
  flat_map (fun x => f x ++ g x) l ≡ₚ flat_map f l ++ flat_map g l.
Proof.
  induction l as [|x l IH]; simpl; [done|]. rewrite IH. rewrite <- !(assoc_L (++)). f_equiv.
  rewrite !(assoc_L (++)). f_equiv. apply Permutation_app_comm.
Qed.

Lemma flat_map_nil_fun {A B} (l : list A) : flat_map (fun _ => @nil B) l = [].
Proof. by induction l. Qed.

Lemma flat_map_swap {A B C} (f : A -> B -> list C) (l : list A) (k : list B) :
  flat_map (fun x => flat_map (f x) k) l ≡ₚ flat_map (fun y => flat_map (fun x => f x y) l) k.
Proof.
  induction l as [|x l IH]; simpl; [by rewrite flat_map_nil_fun|].
  rewrite IH. by rewrite <- flat_map_app_perm.
Qed.

Lemma flat_map_singleton {A B} (f : A -> B) (l : list A) : flat_map (fun x => [f x]) l = f <$> l.
Proof. induction l as [|x l IH]; [done|]. rewrite fmap_cons. simpl. by rewrite IH. Qed.

(** Splitting a list by a key: one group per key. *)
Lemma group_perm {A B K} `{EqDecision K} (key : A -> K) (tag : B -> K) (l : list A) (ts : list B) :
  NoDup (tag <$> ts) -> (forall x, x ∈ l -> key x ∈ tag <$> ts) ->
  flat_map (fun t => filter (fun x => key x = tag t) l) ts ≡ₚ l.
Proof.
  intros Hnd. induction l as [|x l IH]; intros Hin.
  { rewrite (flat_map_ext_in _ (fun _ => [])); [by rewrite flat_map_nil_fun|]. done. }
  transitivity (x :: flat_map (fun t => filter (fun y => key y = tag t) l) ts).
  2: { f_equiv. apply IH. intros y Hy. apply Hin. by right. }
  assert (Hx : key x ∈ tag <$> ts) by (apply Hin; left). clear IH Hin.
  induction ts as [|t ts IH]; simpl; [by apply not_elem_of_nil in Hx|].
  rewrite fmap_cons in Hnd, Hx. apply NoDup_cons in Hnd as [Ht Hnd]. rewrite filter_cons.
  destruct (decide (key x = tag t)) as [E|E].
  - simpl. f_equiv. f_equiv. apply flat_map_perm; [|done]. intros t' Ht'. rewrite filter_cons.
    rewrite decide_False; [done|]. intros E'. apply Ht. rewrite <- E, E'. by apply list_elem_of_fmap_2.
  - rewrite IH; [|done|by apply elem_of_cons in Hx as [?|?]]. symmetry. apply Permutation_middle.
Qed.

Lemma NoDup_key_eq {A K} (key : A -> K) (l : list A) x y :
  NoDup (key <$> l) -> x ∈ l -> y ∈ l -> key x = key y -> x = y.
Proof.
  intros Hnd [i Hi]%list_elem_of_lookup [j Hj]%list_elem_of_lookup E.
  assert (i = j) as ->; [|congruence]. apply (NoDup_lookup (key <$> l) i j (key x)); [done|..].
  - by rewrite list_lookup_fmap, Hi.
  - by rewrite list_lookup_fmap, Hj, E.
Qed.

Lemma NoDup_of_key {A} (key : A -> Z) (l : list A) : NoDup (key <$> l) -> NoDup l.
Proof. apply NoDup_fmap_1. Qed.

(** [if b then d else []]: emit the diagnostics [d] when [b] holds. *)
Definition when {A} (b : bool) (d : list A) : list A := if b then d else [].

Lemma when_nil {A} b (d : list A) : d <> [] -> when b d = [] <-> b = false.
Proof. destruct b; simpl; naive_solver. Qed.

Lemma when_false {A} (d : list A) : when false d = [].
Proof. done. Qed.

Lemma when_cons_nil {A} b (x : A) d : when b (x :: d) = [] <-> b = false.
Proof. by apply when_nil. Qed.

Lemma fmap_nil_iff {A B} (f : A -> B) (l : list A) : f <$> l = [] <-> l = [].
Proof. by destruct l. Qed.

Lemma app_nil_iff {A} (l k : list A) : l ++ k = [] <-> l = [] /\ k = [].
Proof. apply app_nil. Qed.

Lemma singleton_nil_iff {A} (x : A) : [x] = [] <-> False.
Proof. done. Qed.

Lemma bool_decide_false_iff (P : Prop) `{Decision P} : bool_decide P = false <-> ~ P.
Proof. apply bool_decide_eq_false. Qed.

(** [nat_of] turns a non-negative machine index into a list position. *)
Abbreviation nat_of := Z.to_nat.

(** The sequence [0 .. n-1] of loop counters [for (i = 0; i < n; ++i)]. *)
Definition range (n : Z) : list Z := seqZ 0 n.

Lemma elem_of_range n i : i ∈ range n <-> 0 <= i < n.
Proof. unfold range. rewrite elem_of_seqZ. lia. Qed.

Lemma NoDup_range n : NoDup (range n).
Proof. apply NoDup_seqZ. Qed.

(** The elements whose key an earlier element already has: those for which
    inserting the key into a set, or [emplace] into a map, fails. *)
Fixpoint duplicates {A} (key : A -> Z) (seen : list Z) (l : list A) : list A :=
  match l with
  | [] => []
  | x :: l =>
      if bool_decide (key x ∈ seen) then x :: duplicates key seen l
      else duplicates key (key x :: seen) l
  end.

Lemma duplicates_nil_seen {A} (key : A -> Z) seen l :
  duplicates key seen l = [] <->
  NoDup (key <$> l) /\ forall x, x ∈ l -> key x ∉ seen.
Proof.
  revert seen. induction l as [|x l IH]; intros seen; simpl.
  - split; [|done]. intros _. split; [apply NoDup_nil_2|]. intros x Hx.
    by apply not_elem_of_nil in Hx.
  - rewrite NoDup_cons. case_bool_decide as E.
    + split; [done|]. intros [_ H]. exfalso. by apply (H x ltac:(left)).
    + rewrite IH. split.
      * intros [Hnd H]. split_and!; [|done|].
        -- intros Hin. apply list_elem_of_fmap in Hin as (y & Ey & Hy).
           apply (H y Hy). rewrite Ey. left.
        -- intros y Hy. apply elem_of_cons in Hy as [->|Hy]; [done|].
           specialize (H y Hy). set_solver.
      * intros [[Hn Hnd] H]. split; [done|]. intros y Hy Hin.
        apply elem_of_cons in Hin as [E'|Hin].
        -- apply Hn. rewrite <- E'. by apply list_elem_of_fmap_2.
        -- by apply (H y (list_elem_of_further _ _ _ Hy)).
Qed.

Lemma duplicates_nil {A} (key : A -> Z) l :
  duplicates key [] l = [] <-> NoDup (key <$> l).
Proof.
  rewrite duplicates_nil_seen. split; [by intros []|]. intros H. split; [done|].
  intros x _. apply not_elem_of_nil.
Qed.

(** [x] occurs exactly once in [l]. *)
Definition exactly_once {A} (x : A) (l : list A) : Prop :=
  exists l1 l2, l = l1 ++ x :: l2 /\ x ∉ l1 /\ x ∉ l2.

Lemma exactly_once_filter `{EqDecision A} (x : A) l :
  exactly_once x l <-> length (filter (fun y => y = x) l) = 1%nat.
Proof.
  assert (Hnot : forall k : list A, x ∉ k <-> filter (fun y => y = x) k = []).
  { intros k. split; [|intros H; by eapply filter_nil_not_elem_of].
    induction k as [|y k IH]; [done|]. rewrite not_elem_of_cons. intros [Hy Hk].
    rewrite filter_cons_False by congruence. auto. }
  split.
  - intros (l1 & l2 & -> & H1%Hnot & H2%Hnot).
    by rewrite filter_app, H1, filter_cons_True, H2.
  - induction l as [|y l IH]; [done|]. rewrite filter_cons. case_decide as E.
    + subst y. simpl. intros [= Hlen]. exists [], l. split_and!; [done|set_solver|].
      by apply Hnot, nil_length_inv.
    + intros (l1 & l2 & -> & H1 & H2)%IH. exists (y :: l1), l2.
      split_and!; [done|set_solver|done].
Qed.

(** The elements of a vector with their index, as a counting loop sees them. *)
Definition enumerate {A} (l : list A) : list (Z * A) := imap (fun i x => (Z.of_nat i, x)) l.

Lemma enumerate_cons {A} (x : A) l :
  enumerate (x :: l) = (0, x) :: ((fun p => (p.1 + 1, p.2)) <$> enumerate l).
Proof.
  unfold enumerate. rewrite imap_cons. f_equal. rewrite fmap_imap. apply imap_ext.
  intros i y _. unfold compose. simpl. f_equal. lia.
Qed.

Lemma NoDup_enumerate {A} (l : list A) : NoDup (enumerate l).*1.
Proof.
  unfold enumerate. rewrite fmap_imap. apply NoDup_alt. intros i j x.
  rewrite !list_lookup_imap. intros Hi Hj.
  apply fmap_Some in Hi as (? & _ & ->), Hj as (? & _ & E). simpl in E. lia.
Qed.

Lemma elem_of_enumerate {A} (l : list A) i x :
  (i, x) ∈ enumerate l <-> 0 <= i /\ l !! nat_of i = Some x.
Proof.
  unfold enumerate. rewrite list_elem_of_lookup. setoid_rewrite list_lookup_imap_Some. split.
  - intros (j & y & Hy & [= -> ->]). rewrite Nat2Z.id. split; [lia|done].
  - intros [Hi Hx]. exists (nat_of i), x. split; [done|]. by rewrite Z2Nat.id.
Qed.

(** Sums of integer lists. *)
Definition sumZ (l : list Z) : Z := foldr Z.add 0 l.

Lemma sumZ_app l k : sumZ (l ++ k) = sumZ l + sumZ k.
Proof. induction l as [|x l IH]; simpl; lia. Qed.

Lemma sumZ_le l k : Forall2 Z.le l k -> sumZ l <= sumZ k.
Proof. induction 1; simpl; lia. Qed.

Lemma sumZ_lt l k : Forall2 Z.le l k -> l <> k -> sumZ l < sumZ k.
Proof.
  induction 1 as [|x y l k Hxy Hall IH]; simpl; intros Hne; [done|].
  pose proof (sumZ_le _ _ Hall). destruct (decide (x = y)) as [->|]; [|lia].
  assert (l <> k) by naive_solver. specialize (IH ltac:(done)). lia.
Qed.

Lemma sumZ_nonneg l : (forall x, x ∈ l -> 0 <= x) -> 0 <= sumZ l.
Proof.
  induction l as [|x l IH]; simpl; intros H; [lia|].
  pose proof (H x ltac:(left)). assert (0 <= sumZ l) by (apply IH; intros y Hy; apply H; by right).
  lia.
Qed.

Lemma sumZ_elem_le l x : (forall y, y ∈ l -> 0 <= y) -> x ∈ l -> x <= sumZ l.
Proof.
  induction l as [|y l IH]; simpl; intros Hl Hx; [by apply not_elem_of_nil in Hx|].
  assert (H0 : forall z, z ∈ l -> 0 <= z) by (intros z Hz; apply Hl; by right).
  pose proof (Hl y ltac:(left)). pose proof (sumZ_nonneg l H0).
  apply elem_of_cons in Hx as [->|Hx]; [lia|]. specialize (IH H0 Hx). lia.
Qed.

Lemma sumZ_perm l k : l ≡ₚ k -> sumZ l = sumZ k.
Proof. induction 1; simpl; lia. Qed.

(** ** Ordered iteration over maps and sorted vectors *)

Definition by_key {A} (key : A -> Z) : relation A := fun x y => key x <= key y.

#[export] Instance by_key_dec {A} (key : A -> Z) : RelDecision (by_key key).
Proof. intros x y. unfold by_key. apply _. Defined.

#[export] Instance by_key_total {A} (key : A -> Z) : Total (by_key key).
Proof. intros x y. unfold by_key. lia. Qed.

#[export] Instance by_key_trans {A} (key : A -> Z) : Transitive (by_key key).
Proof. intros x y z. unfold by_key. lia. Qed.

(** [std::sort] with a comparison of keys. *)
Definition sort_by {A} (key : A -> Z) (l : list A) : list A :=
  merge_sort (by_key key) l.

Lemma sort_by_perm {A} (key : A -> Z) l : sort_by key l ≡ₚ l.
Proof. apply merge_sort_Permutation. Qed.

Lemma elem_of_sort_by {A} (key : A -> Z) l x : x ∈ sort_by key l <-> x ∈ l.
Proof. by rewrite (sort_by_perm key l). Qed.

Lemma sort_by_sorted {A} (key : A -> Z) l :
  StronglySorted (by_key key) (sort_by key l).
Proof. apply StronglySorted_merge_sort; apply _. Qed.

Lemma sort_by_length {A} (key : A -> Z) l : length (sort_by key l) = length l.
Proof. apply Permutation_length, sort_by_perm. Qed.

Lemma sort_by_NoDup {A} (key : A -> Z) l :
  NoDup (key <$> sort_by key l) <-> NoDup (key <$> l).
Proof. by rewrite (sort_by_perm key l). Qed.

Lemma sorted_lookup {A} (R : relation A) l i j x y :
  StronglySorted R l -> (i < j)%nat -> l !! i = Some x -> l !! j = Some y -> R x y.
Proof.
  intros Hl Hij Hx Hy. rewrite <- (take_drop j l) in Hl.
  apply (StronglySorted_app_1_elem_of _ _ _ _ _ Hl).
  - apply list_elem_of_lookup. exists i. by rewrite lookup_take_lt.
  - apply list_elem_of_lookup. exists 0%nat. by rewrite lookup_drop, Nat.add_0_r.
Qed.

(** Iteration over a [std::map] with integer keys: ascending key order. *)
Definition map_items {A} (m : gmap Z A) : list (Z * A) :=
  sort_by fst (map_to_list m).

Lemma elem_of_map_items {A} (m : gmap Z A) k v :
  (k, v) ∈ map_items m <-> m !! k = Some v.
Proof.
  unfold map_items. rewrite elem_of_sort_by. apply elem_of_map_to_list.
Qed.

Lemma NoDup_map_items {A} (m : gmap Z A) : NoDup (map_items m).*1.
Proof. apply sort_by_NoDup, NoDup_fst_map_to_list. Qed.

(** [std::sort] of pairs in lexicographic order. *)
Definition by_pair {A} (key : A -> Z * Z) : relation A := fun x y =>
  (key x).1 < (key y).1 \/ ((key x).1 = (key y).1 /\ (key x).2 <= (key y).2).

#[export] Instance by_pair_dec {A} (key : A -> Z * Z) : RelDecision (by_pair key).
Proof. intros x y. unfold by_pair. apply _. Defined.

Definition sort_by_pair {A} (key : A -> Z * Z) (l : list A) : list A :=
  merge_sort (by_pair key) l.

Lemma sort_by_pair_perm {A} (key : A -> Z * Z) l : sort_by_pair key l ≡ₚ l.
Proof. apply merge_sort_Permutation. Qed.

(** ** Vectors with an identifier index

    Both DFG containers store elements in a vector and keep an unordered map
    from identifier to position.  [indexed] is the consistency of the two. *)

Section Indexed.
Context {A : Type} (key : A -> Z).

Definition indexed (l : list A) (m : gmap Z nat) : Prop :=
  forall k i, m !! k = Some i <-> exists x, l !! i = Some x /\ key x = k.

(** [find] in the map followed by [at] in the vector. *)
Definition index_find (l : list A) (m : gmap Z nat) (k : Z) : option A :=
  i ← m !! k; l !! i.

Lemma indexed_nil : indexed [] ∅.
Proof. intros k i. rewrite lookup_empty. split; [done|]. by intros (x & ? & _). Qed.

Lemma indexed_append l m x :
  indexed l m -> m !! key x = None ->
  indexed (l ++ [x]) (<[key x := length l]> m).
Proof.
  intros Hix Hnone k i. rewrite lookup_insert. case_decide as E.
  - subst k. split.
    + intros [= <-]. exists x. split; [|done].
      by rewrite lookup_app_r, Nat.sub_diag by done.
    + intros (y & Hy & Ek). f_equal.
      apply lookup_app_Some in Hy as [Hy|[Hlen Hy]].
      * assert (m !! key x = Some i) by (apply Hix; eauto). congruence.
      * apply list_lookup_singleton_Some in Hy as [Hi _]. lia.
  - rewrite (Hix k i). split; intros (y & Hy & Ek); exists y; split; [|done| |done].
    + by apply lookup_app_l_Some.
    + apply lookup_app_Some in Hy as [Hy|[Hlen Hy]]; [done|].
      apply list_lookup_singleton_Some in Hy as [_ <-]. done.
Qed.

Lemma indexed_NoDup l m : indexed l m -> NoDup (key <$> l).
Proof.
  intros Hix. apply NoDup_alt. intros i j k Hi Hj.
  rewrite list_lookup_fmap in Hi, Hj.
  apply fmap_Some in Hi as (x & Hx & ->). apply fmap_Some in Hj as (y & Hy & E).
  assert (m !! key x = Some i) by (apply Hix; eauto).
  assert (m !! key x = Some j) by (apply Hix; eauto). congruence.
Qed.

Lemma index_find_Some l m k x :
  indexed l m -> index_find l m k = Some x <-> x ∈ l /\ key x = k.
Proof.
  intros Hix. unfold index_find. rewrite bind_Some. split.
  - intros (i & Hi & Hx). apply Hix in Hi as (y & Hy & <-).
    simplify_eq. split; [|done]. by eapply list_elem_of_lookup_2.
  - intros [Hx <-]. apply list_elem_of_lookup in Hx as (i & Hi).
    exists i. split; [|done]. apply Hix. eauto.
Qed.

Lemma indexed_contains l m k :
  indexed l m -> is_Some (m !! k) <-> exists x, x ∈ l /\ key x = k.
Proof.
  intros Hix. split.
  - intros (i & Hi). apply Hix in Hi as (x & Hx & <-).
    exists x. split; [|done]. by eapply list_elem_of_lookup_2.
  - intros (x & Hx & <-). apply list_elem_of_lookup in Hx as (i & Hi).
    exists i. apply Hix. eauto.
Qed.
End Indexed.

(** ** Automation *)

Create HintDb cgra.
Create Rewrite HintDb cgra.
#[export] Hint Rewrite @bind_Ok @of_option_Ok : cgra.
#[export] Hint Rewrite @elem_of_sort_by @elem_of_range @elem_of_flat_map : cgra.
(** An empty report, read as the conjunction of its checks. *)
Create Rewrite HintDb report.
#[export] Hint Rewrite @app_nil_iff @when_cons_nil @fmap_nil_iff @flat_map_nil_iff
  @duplicates_nil @singleton_nil_iff negb_false_iff orb_false_iff Z.eqb_eq Z.ltb_ge Z.leb_gt
  : report.
#[export] Hint Resolve wrap32_range NoDup_range : cgra.

(** Break every [result] bind that succeeded in the hypotheses. *)
Ltac inv_ok :=
  repeat match goal with
  | H : mbind _ _ = Ok _ |- _ =>
      apply bind_Ok in H; let a := fresh "v" in let Ha := fresh "Hv" in
      destruct H as (a & Ha & H)
  | H : of_option _ _ = Ok _ |- _ => apply of_option_Ok in H
  | H : mret _ = Ok _ |- _ => injection H as H
  | H : Ok _ = Ok _ |- _ => injection H as H
  | H : Throw _ = Ok _ |- _ => discriminate H
  end.

(** Split boolean conjunctions and turn comparisons into propositions. *)
Ltac bool_hyps :=
  repeat match goal with
  | H : (_ && _)%bool = true |- _ => let H1 := fresh H in let H2 := fresh H in
      apply andb_true_iff in H as [H1 H2]
  | H : (_ || _)%bool = false |- _ => let H1 := fresh H in let H2 := fresh H in
      apply orb_false_iff in H as [H1 H2]
  | H : negb _ = true |- _ => apply negb_true_iff in H
  | H : negb _ = false |- _ => apply negb_false_iff in H
  | H : (_ =? _) = true |- _ => apply Z.eqb_eq in H
  | H : (_ =? _) = false |- _ => apply Z.eqb_neq in H
  | H : (_ <? _) = true |- _ => apply Z.ltb_lt in H
  | H : (_ <? _) = false |- _ => apply Z.ltb_ge in H
  | H : (_ <=? _) = true |- _ => apply Z.leb_le in H
  | H : (_ <=? _) = false |- _ => apply Z.leb_gt in H
  | H : (_ >=? _) = _ |- _ => rewrite Z.geb_leb in H
  | H : (_ >? _) = _ |- _ => rewrite Z.gtb_ltb in H
  | H : bool_decide _ = true |- _ => apply bool_decide_eq_true in H
  | H : bool_decide _ = false |- _ => apply bool_decide_eq_false in H
  end.

(** ** Cached adjacency

    Both DFG containers cache, per node position, the identifiers of the edges
    that end at (or leave) the node. *)

Section Adjacency.
Context {N E : Type} (nkey : N -> Z) (ekey : E -> Z) (endpoint : E -> Z).

(** The identifiers of the edges whose [endpoint] is [id], in edge order. *)
Definition edges_at (edges : list E) (id : Z) : list Z :=
  ekey <$> filter (fun edge => endpoint edge = id) edges.

(** [adjacency.at(index).push_back(id)]. *)
Definition adjacency_push (adjacency : list (list Z)) (index : nat) (id : Z)
  : result (list (list Z)) :=
  ids ← of_option OutOfRange (adjacency !! index);
  Ok (<[index := ids ++ [id]]> adjacency).

Lemma elem_of_edges_at edges id k :
  k ∈ edges_at edges id <-> exists edge, edge ∈ edges /\ ekey edge = k /\ endpoint edge = id.
Proof.
  unfold edges_at. rewrite list_elem_of_fmap. setoid_rewrite list_elem_of_filter. naive_solver.
Qed.

Lemma adjacency_push_spec nodes m edges edge i res :
  indexed nkey nodes m -> m !! endpoint edge = Some i ->
  adjacency_push ((fun node => edges_at edges (nkey node)) <$> nodes) i (ekey edge) = Ok res ->
  res = (fun node => edges_at (edges ++ [edge]) (nkey node)) <$> nodes.
Proof.
  intros Hix Hi H. unfold adjacency_push in H. inv_ok. subst res.
  apply Hix in Hi as (node & Hnode & Hid).
  rewrite list_lookup_fmap, Hnode in Hv. injection Hv as <-.
  apply list_eq. intros j. rewrite list_lookup_fmap.
  destruct (decide (i = j)) as [->|Hne].
  - rewrite list_lookup_insert_eq
      by (rewrite length_fmap; by eapply lookup_lt_Some).
    rewrite Hnode. simpl. unfold edges_at. rewrite filter_app, fmap_app. simpl.
    f_equal. rewrite filter_cons_True by done. done.
  - rewrite list_lookup_insert_ne, list_lookup_fmap by done.
    destruct (nodes !! j) as [node'|] eqn:Ej; [|done]. simpl. f_equal. unfold edges_at.
    rewrite filter_app, fmap_app.
    rewrite (filter_cons_False _ edge []), app_nil_r; [done|].
    intros Eid. assert (m !! endpoint edge = Some j) by (apply Hix; eauto).
    assert (m !! endpoint edge = Some i) by (apply Hix; eauto). congruence.
Qed.

Lemma adjacency_push_total nodes m edges edge i :
  indexed nkey nodes m -> m !! endpoint edge = Some i ->
  is_Ok (adjacency_push ((fun node => edges_at edges (nkey node)) <$> nodes) i (ekey edge)) = true.
Proof.
  intros Hix Hi. unfold adjacency_push. apply Hix in Hi as (node & Hnode & _).
  by rewrite list_lookup_fmap, Hnode.
Qed.

Lemma edges_at_unknown edges id :
  (forall edge, edge ∈ edges -> endpoint edge <> id) -> edges_at edges id = [].
Proof.
  intros H. unfold edges_at. induction edges as [|edge edges IH]; [done|].
  rewrite filter_cons_False by (apply H; left). apply IH.
  intros e He. apply H. by right.
Qed.
End Adjacency.
