(* ===== verification/IR.v ===== *)
(** * Generic loop DFG: value types, opcodes, nodes and edges

    Models [compiler/include/cgra/IR/{ValueType,Opcode,Node,Edge}.h] and
    [compiler/lib/IR/{ValueType,Opcode,Edge}.cpp].  Every enumeration is an
    inductive type, every [std::variant] a tagged union, every struct a record;
    [std::uint16_t]/[32_t]/[64_t] fields are [Z] numbers. *)
From stdpp Require Import base numbers list gmap strings.
From Stdlib Require Import Ascii.
From S2P Require Import Prelude.

(** ** Value types (ValueType.h, ValueType.cpp) *)

Inductive ValueKind := KInteger | KPredicate | KFloat | KVoid.

#[export] Instance ValueKind_eq_dec : EqDecision ValueKind.
Proof. solve_decision. Defined.

Record ValueType := mkValueType {
  vt_kind : ValueKind;
  vt_bitWidth : Z
}.

#[export] Instance ValueType_eq_dec : EqDecision ValueType.
Proof. solve_decision. Defined.

Definition vt_integer (bits : Z) : ValueType := mkValueType KInteger bits.
Definition vt_predicate : ValueType := mkValueType KPredicate 1.
Definition vt_floating (bits : Z) : ValueType := mkValueType KFloat bits.
Definition vt_i1 : ValueType := vt_predicate.
Definition vt_i8 : ValueType := vt_integer 8.
Definition vt_i16 : ValueType := vt_integer 16.
Definition vt_i32 : ValueType := vt_integer 32.
Definition vt_f32 : ValueType := vt_floating 32.
Definition voidTy : ValueType := mkValueType KVoid 0.

Definition ValueKind_toString (k : ValueKind) : string :=
  match k with
  | KInteger => "integer"
  | KPredicate => "predicate"
  | KFloat => "float"
  | KVoid => "void"
  end.

Definition valueKindFromString (value : string) : result ValueKind :=
  if String.eqb value "integer" then Ok KInteger
  else if String.eqb value "predicate" then Ok KPredicate
  else if String.eqb value "float" then Ok KFloat
  else if String.eqb value "void" then Ok KVoid
  else Throw InvalidArgument.

(** [std::to_string] of an unsigned value: decimal digits, most significant
    first.  Twenty digits cover every 64-bit value. *)
Definition digit_char (d : Z) : Ascii.ascii :=
  Ascii.ascii_of_N (48 + Z.to_N d).

Fixpoint decimal_digits (fuel : nat) (n : Z) (acc : string) : string :=
  match fuel with
  | O => acc
  | S fuel =>
      let acc := String (digit_char (n mod 10)) acc in
      if n <? 10 then acc else decimal_digits fuel (n / 10) acc
  end.

Definition to_string (n : Z) : string := decimal_digits 20 n "".

Definition ValueType_toString (t : ValueType) : string :=
  match vt_kind t with
  | KVoid => "void"
  | KPredicate => "predicate"
  | KInteger => String "i"%char (to_string (vt_bitWidth t))
  | KFloat => String "f"%char (to_string (vt_bitWidth t))
  end.

(** The digit loop of [parseWidth]: [unsigned] arithmetic wraps at 32 bits. *)
Fixpoint parse_digits (digits : string) (width : Z) : result Z :=
  match digits with
  | EmptyString => Ok width
  | String c rest =>
      let d := Z.of_N (Ascii.N_of_ascii c) - 48 in
      if (d <? 0) || (9 <? d) then Throw InvalidArgument
      else parse_digits rest (wrap32 (wrap32 (width * 10) + d))
  end.

Definition parseWidth (digits : string) (kind : ValueKind) : result ValueType :=
  match digits with
  | EmptyString => Throw InvalidArgument
  | _ =>
      width ← parse_digits digits 0;
      if (width =? 0) || (65535 <? width) then Throw InvalidArgument
      else Ok (mkValueType kind (wrap16 width))
  end.

Definition ValueType_fromString (value : string) : result ValueType :=
  if String.eqb value "void" then Ok voidTy
  else if (String.eqb value "predicate" || String.eqb value "predicate1"
           || String.eqb value "i1")%bool then Ok vt_predicate
  else match value with
       | String c digits =>
           if Ascii.eqb c "i"%char then parseWidth digits KInteger
           else if Ascii.eqb c "f"%char then parseWidth digits KFloat
           else Throw InvalidArgument
       | EmptyString => Throw InvalidArgument
       end.

(** ** Opcodes (Opcode.h, Opcode.cpp) *)

Inductive Opcode :=
  | OpAdd | OpSub | OpMul | OpAnd | OpOr | OpXor | OpShl | OpLShr | OpAShr
  | OpICmp | OpSelect | OpLoad | OpStore.

#[export] Instance Opcode_eq_dec : EqDecision Opcode.
Proof. solve_decision. Defined.

Inductive ICmpPredicate :=
  | CmpEQ | CmpNE | CmpULT | CmpULE | CmpUGT | CmpUGE
  | CmpSLT | CmpSLE | CmpSGT | CmpSGE.

#[export] Instance ICmpPredicate_eq_dec : EqDecision ICmpPredicate.
Proof. solve_decision. Defined.

Definition Opcode_toString (opcode : Opcode) : string :=
  match opcode with
  | OpAdd => "Add" | OpSub => "Sub" | OpMul => "Mul" | OpAnd => "And"
  | OpOr => "Or" | OpXor => "Xor" | OpShl => "Shl" | OpLShr => "LShr"
  | OpAShr => "AShr" | OpICmp => "ICmp" | OpSelect => "Select"
  | OpLoad => "Load" | OpStore => "Store"
  end.

(** The loop over the candidate enumerators: the first whose name matches. *)
Definition opcodeFromString (value : string) : result Opcode :=
  of_option InvalidArgument
    (find_if (fun opcode => String.eqb (Opcode_toString opcode) value)
       [OpAdd; OpSub; OpMul; OpAnd; OpOr; OpXor; OpShl; OpLShr; OpAShr;
        OpICmp; OpSelect; OpLoad; OpStore]).

Definition ICmpPredicate_toString (predicate : ICmpPredicate) : string :=
  match predicate with
  | CmpEQ => "EQ" | CmpNE => "NE" | CmpULT => "ULT" | CmpULE => "ULE"
  | CmpUGT => "UGT" | CmpUGE => "UGE" | CmpSLT => "SLT" | CmpSLE => "SLE"
  | CmpSGT => "SGT" | CmpSGE => "SGE"
  end.

Definition icmpPredicateFromString (value : string) : result ICmpPredicate :=
  of_option InvalidArgument
    (find_if (fun predicate => String.eqb (ICmpPredicate_toString predicate) value)
       [CmpEQ; CmpNE; CmpULT; CmpULE; CmpUGT; CmpUGE; CmpSLT; CmpSLE; CmpSGT;
        CmpSGE]).

(** ** Nodes and values (Node.h) *)

Record MemoryOpInfo := mkMemoryOpInfo {
  mi_accessWidthBits : Z;
  mi_isVolatile : bool
}.

#[export] Instance MemoryOpInfo_eq_dec : EqDecision MemoryOpInfo.
Proof. solve_decision. Defined.

(** [source] is the label of the optional [SourceInfo]. *)
Record Node := mkNode {
  node_id : Z;
  node_opcode : Opcode;
  node_resultType : ValueType;
  node_operandTypes : list ValueType;
  node_icmpPredicate : option ICmpPredicate;
  node_memoryInfo : option MemoryOpInfo;
  node_source : option string
}.

#[export] Instance Node_eq_dec : EqDecision Node.
Proof. solve_decision. Defined.

Record ExternalValue := mkExternalValue {
  ext_id : Z;
  ext_type : ValueType;
  ext_name : string
}.

Record ConstantValue := mkConstantValue {
  const_id : Z;
  const_type : ValueType;
  const_bits : Z
}.

Record LiveOut := mkLiveOut {
  lo_id : Z;
  lo_type : ValueType;
  lo_name : string;
  lo_source : Z
}.

(** [std::variant<ExternalValueRef, ConstantRef>]. *)
Inductive ExternalOperandBinding :=
  | ExternalValueRef (value : Z)
  | ConstantRef (value : Z).

#[export] Instance ExternalOperandBinding_eq_dec :
  EqDecision ExternalOperandBinding.
Proof. solve_decision. Defined.

Record OperandBinding := mkOperandBinding {
  ob_node : Z;
  ob_operand : Z;
  ob_source : ExternalOperandBinding
}.

(** ** Edges (Edge.h, Edge.cpp) *)

Record RecurrenceBoundaryValue := mkRecurrenceBoundaryValue {
  rbv_iterationOffset : Z;
  rbv_value : ExternalOperandBinding
}.

#[export] Instance RecurrenceBoundaryValue_eq_dec :
  EqDecision RecurrenceBoundaryValue.
Proof. solve_decision. Defined.

(** [RecurrenceBoundary]: the vector of boundary values. *)
Abbreviation RecurrenceBoundary := (list RecurrenceBoundaryValue).

Inductive MemoryDepKind := RAW | WAR | WAW.

#[export] Instance MemoryDepKind_eq_dec : EqDecision MemoryDepKind.
Proof. solve_decision. Defined.

Definition MemoryDepKind_toString (dependence : MemoryDepKind) : string :=
  match dependence with RAW => "RAW" | WAR => "WAR" | WAW => "WAW" end.

Definition memoryDepKindFromString (value : string) : result MemoryDepKind :=
  if String.eqb value "RAW" then Ok RAW
  else if String.eqb value "WAR" then Ok WAR
  else if String.eqb value "WAW" then Ok WAW
  else Throw InvalidArgument.

Inductive EdgeInfo :=
  | DataEdgeInfo (dstOperand : Z) (boundary : option RecurrenceBoundary)
  | PredicateEdgeInfo (dstOperand : Z) (boundary : option RecurrenceBoundary)
  | MemoryEdgeInfo (dependence : MemoryDepKind).

#[export] Instance EdgeInfo_eq_dec : EqDecision EdgeInfo.
Proof. solve_decision. Defined.

Inductive EdgeKind := EKData | EKPredicate | EKMemory.

#[export] Instance EdgeKind_eq_dec : EqDecision EdgeKind.
Proof. solve_decision. Defined.

Record Edge := mkEdge {
  edge_id : Z;
  edge_src : Z;
  edge_dst : Z;
  edge_distance : Z;
  edge_info : EdgeInfo
}.

#[export] Instance Edge_eq_dec : EqDecision Edge.
Proof. solve_decision. Defined.

(** [Edge::kind()] and [TargetEdge::kind()] switch on the variant's index. *)
Definition EdgeInfo_kind (info : EdgeInfo) : EdgeKind :=
  match info with
  | DataEdgeInfo _ _ => EKData
  | PredicateEdgeInfo _ _ => EKPredicate
  | MemoryEdgeInfo _ => EKMemory
  end.

Definition Edge_kind (edge : Edge) : EdgeKind := EdgeInfo_kind (edge_info edge).

(** The destination operand a value-carrying edge provides. *)
Definition EdgeInfo_operand (info : EdgeInfo) : option Z :=
  match info with
  | DataEdgeInfo operand _ | PredicateEdgeInfo operand _ => Some operand
  | MemoryEdgeInfo _ => None
  end.

(** ** Round trips of the textual forms *)

Section Digits.
Lemma digit_char_val d :
  0 <= d <= 9 -> Z.of_N (Ascii.N_of_ascii (digit_char d)) - 48 = d.
Proof.
  intros H. unfold digit_char. rewrite Ascii.N_ascii_embedding by lia. lia.
Qed.

Lemma parse_digit_char d rest w :
  0 <= d <= 9 ->
  parse_digits (String (digit_char d) rest) w
  = parse_digits rest (wrap32 (wrap32 (w * 10) + d)).
Proof.
  intros H. cbn [parse_digits]. rewrite digit_char_val by done.
  by replace ((d <? 0) || (9 <? d))%bool with false by lia.
Qed.

Lemma wrap32_shift_digit a d :
  wrap32 (wrap32 (wrap32 a * 10) + d) = wrap32 (a * 10 + d).
Proof.
  unfold wrap32. rewrite Zplus_mod_idemp_l.
  rewrite <- (Zplus_mod_idemp_l (a mod _ * 10)), Zmult_mod_idemp_l.
  by rewrite Zplus_mod_idemp_l.
Qed.

(** Reading back [n] after a prefix worth [w]: the digits of [n] shift [w]
    left by as many decimal places as [n] has. *)
Lemma parse_decimal_digits fuel n acc w :
  0 <= n < 10 ^ Z.of_nat fuel -> (0 < fuel)%nat ->
  exists k, 0 < k /\ n < 10 ^ k /\
    parse_digits (decimal_digits fuel n acc) w
    = parse_digits acc (wrap32 (w * 10 ^ k + n)).
Proof.
  revert n acc w. induction fuel as [|fuel IH]; intros n acc w Hn Hf; [lia|].
  cbn [decimal_digits]. destruct (Z.ltb_spec n 10) as [Hs|Hb].
  - exists 1. split; [lia|]. split; [lia|].
    rewrite parse_digit_char by (apply Z.mod_pos_bound || word_lia; lia).
    f_equal. rewrite (Z.mod_small n 10) by lia. rewrite Z.pow_1_r.
    unfold wrap32. by rewrite Zplus_mod_idemp_l.
  - rewrite Nat2Z.inj_succ, Z.pow_succ_r in Hn by lia.
    assert (fuel <> O) by (intros ->; simpl in Hn; lia).
    destruct (IH (n / 10) (String (digit_char (n mod 10)) acc) w)
      as (k & Hk & Hlt & E).
    { split; [apply Z.div_pos; lia|]. apply Z.div_lt_upper_bound; lia. }
    { lia. }
    exists (k + 1). rewrite Z.pow_add_r, Z.pow_1_r by lia.
    split; [lia|]. split.
    { pose proof (Z.div_mod n 10 ltac:(lia)).
      pose proof (Z.mod_pos_bound n 10 ltac:(lia)). nia. }
    rewrite E, parse_digit_char
      by (pose proof (Z.mod_pos_bound n 10 ltac:(lia)); lia).
    rewrite wrap32_shift_digit. do 2 f_equal.
    pose proof (Z.div_mod n 10 ltac:(lia)). nia.
Qed.

Lemma parse_to_string n :
  0 <= n <= u32_max -> parse_digits (to_string n) 0 = Ok n.
Proof.
  intros H. destruct (parse_decimal_digits 20 n "" 0) as (k & _ & _ & E).
  { change (10 ^ Z.of_nat 20) with 100000000000000000000.
    unfold u32_max in H. lia. }
  { lia. }
  unfold to_string. rewrite E. simpl. f_equal. by apply wrap32_id.
Qed.

Lemma decimal_digits_nonempty fuel n acc :
  acc <> "" -> decimal_digits fuel n acc <> "".
Proof.
  revert n acc. induction fuel as [|fuel IH]; intros n acc Hacc; [done|].
  cbn [decimal_digits]. destruct (n <? 10); [done|]. by apply IH.
Qed.

Lemma decimal_digits_S_nonempty fuel n acc :
  decimal_digits (S fuel) n acc <> "".
Proof.
  cbn [decimal_digits]. destruct (n <? 10); [done|].
  by apply decimal_digits_nonempty.
Qed.

Lemma to_string_nonempty n : to_string n <> "".
Proof. apply decimal_digits_S_nonempty. Qed.

Lemma to_string_1 n : 0 <= n <= u32_max -> to_string n = "1" -> n = 1.
Proof.
  intros H E. apply parse_to_string in H. rewrite E in H. by injection H.
Qed.
End Digits.

Lemma parseWidth_to_string n k :
  0 < n <= 65535 -> parseWidth (to_string n) k = Ok (mkValueType k n).
Proof.
  intros H. unfold parseWidth.
  destruct (to_string n) eqn:E; [by apply to_string_nonempty in E|].
  rewrite <- E, parse_to_string by (unfold u32_max; lia). simpl.
  replace ((n =? 0) || (65535 <? n))%bool with false by lia.
  f_equal. f_equal. unfold wrap16. apply Z.mod_small. lia.
Qed.

(** The types whose textual form is unambiguous. *)
Definition printable_type (t : ValueType) : Prop :=
  match vt_kind t with
  | KVoid => vt_bitWidth t = 0
  | KPredicate => vt_bitWidth t = 1
  | KInteger => 1 < vt_bitWidth t <= 65535
  | KFloat => 0 < vt_bitWidth t <= 65535
  end.

(** ** Properties *)

(** The type grammar round-trips.  Printing any representable type with a
    canonical spelling and parsing it back yields the same type. *)
Theorem ValueType_roundtrip (t : ValueType) :
  printable_type t -> ValueType_fromString (ValueType_toString t) = Ok t.
Proof.
  destruct t as [k w]. unfold printable_type, ValueType_toString. simpl.
  destruct k; intros H.
  - assert (Hi : String.eqb (String "i"%char (to_string w)) "i1" = false).
    { apply String.eqb_neq. intros [= E]. apply to_string_1 in E; word_lia. }
    unfold ValueType_fromString. rewrite Hi. simpl. apply parseWidth_to_string. lia.
  - by subst.
  - unfold ValueType_fromString. simpl. apply parseWidth_to_string. lia.
  - by subst.
Qed.

Lemma ValueType_roundtrip_witness :
  ValueType_fromString (ValueType_toString (vt_integer 65535))
  = Ok (vt_integer 65535).
Proof. apply (ValueType_roundtrip (vt_integer 65535)). vm_compute. split; congruence. Defined.

(** The width check of [fromString] is made after 32-bit arithmetic, so a
    width that wraps around is accepted: ["i4294967328"] names a 32-bit
    integer, although 4294967328 is far out of the 16-bit range that the next
    test rejects. *)
Theorem ValueType_fromString_wraps :
  ValueType_fromString "i4294967328" = Ok vt_i32 /\
  ValueType_fromString "i65536" = Throw InvalidArgument /\
  (forall w digits k, parse_digits digits 0 = Ok w -> digits <> "" ->
     0 < w <= 65535 -> parseWidth digits k = Ok (mkValueType k w)).
Proof.
  split; [vm_compute; reflexivity|]. split; [vm_compute; reflexivity|].
  intros w digits k Hw Hd Hr. unfold parseWidth.
  destruct digits eqn:E; [done|]. rewrite <- E in *. rewrite Hw. simpl.
  replace ((w =? 0) || (65535 <? w))%bool with false by lia.
  f_equal. f_equal. unfold wrap16. apply Z.mod_small. lia.
Qed.

(** The names of opcodes, compare predicates, memory-dependence kinds and
    value kinds are unambiguous: each parser inverts its printer, and accepts
    nothing but a printed name. *)
Theorem enum_names_roundtrip :
  (forall o, opcodeFromString (Opcode_toString o) = Ok o) /\
  (forall p, icmpPredicateFromString (ICmpPredicate_toString p) = Ok p) /\
  (forall d, memoryDepKindFromString (MemoryDepKind_toString d) = Ok d) /\
  (forall k, valueKindFromString (ValueKind_toString k) = Ok k) /\
  (forall s o, opcodeFromString s = Ok o <-> s = Opcode_toString o) /\
  (forall s p, icmpPredicateFromString s = Ok p <-> s = ICmpPredicate_toString p).
Proof.
  assert (Ho : forall o, opcodeFromString (Opcode_toString o) = Ok o) by (by intros []).
  assert (Hp : forall p, icmpPredicateFromString (ICmpPredicate_toString p) = Ok p)
    by (by intros []).
  do 2 (split; [done|]). do 2 (split; [by intros []|]). split.
  - intros s o. split; [|by intros ->]. unfold opcodeFromString.
    intros H. apply of_option_Ok, find_if_Some in H as [_ H].
    by apply String.eqb_eq in H.
  - intros s p. split; [|by intros ->]. unfold icmpPredicateFromString.
    intros H. apply of_option_Ok, find_if_Some in H as [_ H].
    by apply String.eqb_eq in H.
Qed.
