(* ===== verification/DFG.v ===== *)
(** * The generic DFG container and its builder

    Models [compiler/{include/cgra,lib}/IR/DFG.{h,cpp}] and
    [DFGBuilder.{h,cpp}].  Every builder method is a [BuilderRequest]; a call
    returns the new builder state together with its value or exception, so that
    the state a caller sees after catching an exception is part of the model.
    [DFG_inv] is the class invariant of the container. *)
From stdpp Require Import base numbers list gmap strings.
From S2P Require Import Prelude.
From S2P Require Import IR.

Record DFG := mkDFG {
  d_name : string;
  d_nodes : list Node;
  d_edges : list Edge;
  d_externalValues : list ExternalValue;
  d_constants : list ConstantValue;
  d_liveOuts : list LiveOut;
  d_bindings : list OperandBinding;
  d_incoming : list (list Z);
  d_outgoing : list (list Z);
  d_nodeIndices : gmap Z nat;
  d_edgeIndices : gmap Z nat;
  d_externalIndices : gmap Z nat;
  d_constantIndices : gmap Z nat;
  d_liveOutIndices : gmap Z nat
}.

Definition DFG_empty (name : string) : DFG :=
  mkDFG name [] [] [] [] [] [] [] [] ∅ ∅ ∅ ∅ ∅.

(** ** Readers *)

Section Readers.
Context (g : DFG).

Definition d_containsNode (id : Z) : bool := bool_decide (is_Some (d_nodeIndices g !! id)).
Definition d_containsEdge (id : Z) : bool := bool_decide (is_Some (d_edgeIndices g !! id)).
Definition d_containsExternal (id : Z) : bool :=
  bool_decide (is_Some (d_externalIndices g !! id)).
Definition d_containsConstant (id : Z) : bool :=
  bool_decide (is_Some (d_constantIndices g !! id)).
Definition d_containsLiveOut (id : Z) : bool :=
  bool_decide (is_Some (d_liveOutIndices g !! id)).

Definition d_node (id : Z) : result Node :=
  index ← of_option OutOfRange (d_nodeIndices g !! id);
  of_option OutOfRange (d_nodes g !! index).

Definition d_edge (id : Z) : result Edge :=
  index ← of_option OutOfRange (d_edgeIndices g !! id);
  of_option OutOfRange (d_edges g !! index).

Definition d_externalValue (id : Z) : result ExternalValue :=
  index ← of_option OutOfRange (d_externalIndices g !! id);
  of_option OutOfRange (d_externalValues g !! index).

Definition d_constant (id : Z) : result ConstantValue :=
  index ← of_option OutOfRange (d_constantIndices g !! id);
  of_option OutOfRange (d_constants g !! index).

Definition d_liveOut (id : Z) : result LiveOut :=
  index ← of_option OutOfRange (d_liveOutIndices g !! id);
  of_option OutOfRange (d_liveOuts g !! index).

(** The position is looked up again through the identifier of the node found. *)
Definition d_incomingOf (id : Z) : result (list Z) :=
  node ← d_node id;
  index ← of_option OutOfRange (d_nodeIndices g !! node_id node);
  of_option OutOfRange (d_incoming g !! index).

Definition d_outgoingOf (id : Z) : result (list Z) :=
  node ← d_node id;
  index ← of_option OutOfRange (d_nodeIndices g !! node_id node);
  of_option OutOfRange (d_outgoing g !! index).
End Readers.

(** ** Appends *)

Definition d_appendNode (g : DFG) (node : Node) : result DFG :=
  if d_containsNode g (node_id node) then Throw InvalidArgument
  else Ok (mkDFG (d_name g) (d_nodes g ++ [node]) (d_edges g) (d_externalValues g)
             (d_constants g) (d_liveOuts g) (d_bindings g)
             (d_incoming g ++ [[]]) (d_outgoing g ++ [[]])
             (<[node_id node := length (d_nodes g)]> (d_nodeIndices g)) (d_edgeIndices g)
             (d_externalIndices g) (d_constantIndices g) (d_liveOutIndices g)).

Definition d_appendExternal (g : DFG) (value : ExternalValue) : result DFG :=
  if d_containsExternal g (ext_id value) then Throw InvalidArgument
  else Ok (mkDFG (d_name g) (d_nodes g) (d_edges g) (d_externalValues g ++ [value])
             (d_constants g) (d_liveOuts g) (d_bindings g) (d_incoming g) (d_outgoing g)
             (d_nodeIndices g) (d_edgeIndices g)
             (<[ext_id value := length (d_externalValues g)]> (d_externalIndices g))
             (d_constantIndices g) (d_liveOutIndices g)).

Definition d_appendConstant (g : DFG) (value : ConstantValue) : result DFG :=
  if d_containsConstant g (const_id value) then Throw InvalidArgument
  else Ok (mkDFG (d_name g) (d_nodes g) (d_edges g) (d_externalValues g)
             (d_constants g ++ [value]) (d_liveOuts g) (d_bindings g)
             (d_incoming g) (d_outgoing g) (d_nodeIndices g) (d_edgeIndices g)
             (d_externalIndices g)
             (<[const_id value := length (d_constants g)]> (d_constantIndices g))
             (d_liveOutIndices g)).

Definition d_appendLiveOut (g : DFG) (value : LiveOut) : result DFG :=
  if d_containsLiveOut g (lo_id value) then Throw InvalidArgument
  else if negb (d_containsNode g (lo_source value)) then Throw InvalidArgument
  else Ok (mkDFG (d_name g) (d_nodes g) (d_edges g) (d_externalValues g)
             (d_constants g) (d_liveOuts g ++ [value]) (d_bindings g)
             (d_incoming g) (d_outgoing g) (d_nodeIndices g) (d_edgeIndices g)
             (d_externalIndices g) (d_constantIndices g)
             (<[lo_id value := length (d_liveOuts g)]> (d_liveOutIndices g))).

Definition d_appendEdge (g : DFG) (edge : Edge) : result DFG :=
  if d_containsEdge g (edge_id edge) then Throw InvalidArgument
  else if negb (d_containsNode g (edge_src edge)) || negb (d_containsNode g (edge_dst edge))
  then Throw InvalidArgument
  else
    dst ← of_option OutOfRange (d_nodeIndices g !! edge_dst edge);
    incoming ← adjacency_push (d_incoming g) dst (edge_id edge);
    src ← of_option OutOfRange (d_nodeIndices g !! edge_src edge);
    outgoing ← adjacency_push (d_outgoing g) src (edge_id edge);
    Ok (mkDFG (d_name g) (d_nodes g) (d_edges g ++ [edge]) (d_externalValues g)
          (d_constants g) (d_liveOuts g) (d_bindings g) incoming outgoing
          (d_nodeIndices g) (<[edge_id edge := length (d_edges g)]> (d_edgeIndices g))
          (d_externalIndices g) (d_constantIndices g) (d_liveOutIndices g)).

Definition binding_key (binding : OperandBinding) : Z * Z :=
  (ob_node binding, ob_operand binding).

Definition d_appendBinding (g : DFG) (binding : OperandBinding) : result DFG :=
  if negb (d_containsNode g (ob_node binding)) then Throw InvalidArgument
  else if existsb (fun item => (ob_node item =? ob_node binding) &&
                               (ob_operand item =? ob_operand binding)) (d_bindings g)
  then Throw InvalidArgument
  else Ok (mkDFG (d_name g) (d_nodes g) (d_edges g) (d_externalValues g)
             (d_constants g) (d_liveOuts g)
             (sort_by_pair binding_key (d_bindings g ++ [binding]))
             (d_incoming g) (d_outgoing g) (d_nodeIndices g) (d_edgeIndices g)
             (d_externalIndices g) (d_constantIndices g) (d_liveOutIndices g)).

(** ** The builder *)

Record DFGBuilder := mkDFGBuilder {
  b_dfg : DFG;
  b_nextNodeId : Z;
  b_nextEdgeId : Z;
  b_nextExternalId : Z;
  b_nextConstantId : Z;
  b_nextLiveOutId : Z
}.

Definition DFGBuilder_new (name : string) : DFGBuilder :=
  mkDFGBuilder (DFG_empty name) 0 0 0 0 0.

Definition checkNode (g : DFG) (id : Z) : result unit := _ ← d_node g id; Ok tt.

Definition checkOperand (g : DFG) (node operand : Z) : result unit :=
  _ ← checkNode g node;
  found ← d_node g node;
  if Z.of_nat (length (node_operandTypes found)) <=? operand then Throw OutOfRange else Ok tt.

(** The loop over the incoming edges of [checkProviderAvailable]. *)
Fixpoint check_incoming (g : DFG) (operand : Z) (edges : list Z) : result unit :=
  match edges with
  | [] => Ok tt
  | id :: edges =>
      edge ← d_edge g id;
      if bool_decide (EdgeInfo_operand (edge_info edge) = Some operand)
      then Throw InvalidArgument else check_incoming g operand edges
  end.

Definition checkProviderAvailable (g : DFG) (node operand : Z) : result unit :=
  _ ← checkOperand g node operand;
  edges ← d_incomingOf g node;
  _ ← check_incoming g operand edges;
  if existsb (fun binding => (ob_node binding =? node) && (ob_operand binding =? operand))
       (d_bindings g)
  then Throw InvalidArgument else Ok tt.

(** [std::max(next, id + 1)] on 32-bit identifiers. *)
Definition bump_next (next id : Z) : Z := Z.max next (wrap32 (id + 1)).

Section BuilderState.
Context (b : DFGBuilder).

Definition with_dfg (g : DFG) : DFGBuilder :=
  mkDFGBuilder g (b_nextNodeId b) (b_nextEdgeId b) (b_nextExternalId b)
    (b_nextConstantId b) (b_nextLiveOutId b).
Definition with_nextNode (next : Z) : DFGBuilder :=
  mkDFGBuilder (b_dfg b) next (b_nextEdgeId b) (b_nextExternalId b)
    (b_nextConstantId b) (b_nextLiveOutId b).
Definition with_nextEdge (next : Z) : DFGBuilder :=
  mkDFGBuilder (b_dfg b) (b_nextNodeId b) next (b_nextExternalId b)
    (b_nextConstantId b) (b_nextLiveOutId b).
Definition with_nextExternal (next : Z) : DFGBuilder :=
  mkDFGBuilder (b_dfg b) (b_nextNodeId b) (b_nextEdgeId b) next
    (b_nextConstantId b) (b_nextLiveOutId b).
Definition with_nextConstant (next : Z) : DFGBuilder :=
  mkDFGBuilder (b_dfg b) (b_nextNodeId b) (b_nextEdgeId b) (b_nextExternalId b)
    next (b_nextLiveOutId b).
Definition with_nextLiveOut (next : Z) : DFGBuilder :=
  mkDFGBuilder (b_dfg b) (b_nextNodeId b) (b_nextEdgeId b) (b_nextExternalId b)
    (b_nextConstantId b) next.

(** Run a container append: the identifier is returned, or the builder is left
    as it was when the append threw. *)
Definition commit (id : Z) (r : result DFG) : DFGBuilder * result Z :=
  match r with
  | Ok g => (with_dfg g, Ok id)
  | Throw e => (b, Throw e)
  end.
End BuilderState.

Definition importNode (b : DFGBuilder) (node : Node) : DFGBuilder * result Z :=
  let b := with_nextNode b (bump_next (b_nextNodeId b) (node_id node)) in
  commit b (node_id node) (d_appendNode (b_dfg b) node).

Definition importExternal (b : DFGBuilder) (value : ExternalValue) : DFGBuilder * result Z :=
  let b := with_nextExternal b (bump_next (b_nextExternalId b) (ext_id value)) in
  commit b (ext_id value) (d_appendExternal (b_dfg b) value).

Definition importConstant (b : DFGBuilder) (value : ConstantValue) : DFGBuilder * result Z :=
  let b := with_nextConstant b (bump_next (b_nextConstantId b) (const_id value)) in
  commit b (const_id value) (d_appendConstant (b_dfg b) value).

Definition importLiveOut (b : DFGBuilder) (value : LiveOut) : DFGBuilder * result Z :=
  let b := with_nextLiveOut b (bump_next (b_nextLiveOutId b) (lo_id value)) in
  commit b (lo_id value) (d_appendLiveOut (b_dfg b) value).

Definition importEdge (b : DFGBuilder) (edge : Edge) : DFGBuilder * result Z :=
  let b := with_nextEdge b (bump_next (b_nextEdgeId b) (edge_id edge)) in
  commit b (edge_id edge) (d_appendEdge (b_dfg b) edge).

Definition addExternal (b : DFGBuilder) (name : string) (type : ValueType)
  : DFGBuilder * result Z :=
  if String.eqb name "" then (b, Throw InvalidArgument)
  else let id := b_nextExternalId b in
       importExternal (with_nextExternal b (wrap32 (id + 1))) (mkExternalValue id type name).

Definition addConstant (b : DFGBuilder) (type : ValueType) (bits : Z) : DFGBuilder * result Z :=
  let id := b_nextConstantId b in
  importConstant (with_nextConstant b (wrap32 (id + 1))) (mkConstantValue id type bits).

Definition addLiveOut (b : DFGBuilder) (name : string) (type : ValueType) (source : Z)
  : DFGBuilder * result Z :=
  if String.eqb name "" then (b, Throw InvalidArgument)
  else match checkNode (b_dfg b) source with
       | Throw e => (b, Throw e)
       | Ok _ =>
           let id := b_nextLiveOutId b in
           importLiveOut (with_nextLiveOut b (wrap32 (id + 1))) (mkLiveOut id type name source)
       end.

Definition addNode (b : DFGBuilder) (opcode : Opcode) (operandTypes : list ValueType)
    (resultType : ValueType) (predicate : option ICmpPredicate)
    (memoryInfo : option MemoryOpInfo) (source : option string) : DFGBuilder * result Z :=
  let id := b_nextNodeId b in
  let b := with_nextNode b (wrap32 (id + 1)) in
  commit b id (d_appendNode (b_dfg b)
    (mkNode id opcode resultType operandTypes predicate memoryInfo source)).

Definition bindExternal (b : DFGBuilder) (node operand value : Z) : DFGBuilder * result Z :=
  commit b 0
    (_ ← checkProviderAvailable (b_dfg b) node operand;
     if negb (d_containsExternal (b_dfg b) value) then Throw OutOfRange
     else d_appendBinding (b_dfg b) (mkOperandBinding node operand (ExternalValueRef value))).

Definition bindConstant (b : DFGBuilder) (node operand value : Z) : DFGBuilder * result Z :=
  commit b 0
    (_ ← checkProviderAvailable (b_dfg b) node operand;
     if negb (d_containsConstant (b_dfg b) value) then Throw OutOfRange
     else d_appendBinding (b_dfg b) (mkOperandBinding node operand (ConstantRef value))).

(** The two value-edge methods differ in the [EdgeInfo] alternative they build. *)
Definition addValueEdge (b : DFGBuilder) (src dst operand distance : Z) (info : EdgeInfo)
  : DFGBuilder * result Z :=
  match checkProviderAvailable (b_dfg b) dst operand with
  | Throw e => (b, Throw e)
  | Ok _ =>
      let id := b_nextEdgeId b in
      importEdge (with_nextEdge b (wrap32 (id + 1))) (mkEdge id src dst distance info)
  end.

Definition addDataEdge (b : DFGBuilder) (src dst dstOperand distance : Z)
    (boundary : option RecurrenceBoundary) : DFGBuilder * result Z :=
  addValueEdge b src dst dstOperand distance (DataEdgeInfo dstOperand boundary).

Definition addPredicateEdge (b : DFGBuilder) (src dst dstOperand distance : Z)
    (boundary : option RecurrenceBoundary) : DFGBuilder * result Z :=
  addValueEdge b src dst dstOperand distance (PredicateEdgeInfo dstOperand boundary).

Definition addMemoryEdge (b : DFGBuilder) (src dst : Z) (dependence : MemoryDepKind)
    (distance : Z) : DFGBuilder * result Z :=
  match (_ ← checkNode (b_dfg b) src; checkNode (b_dfg b) dst) with
  | Throw e => (b, Throw e)
  | Ok _ =>
      let id := b_nextEdgeId b in
      importEdge (with_nextEdge b (wrap32 (id + 1)))
        (mkEdge id src dst distance (MemoryEdgeInfo dependence))
  end.

(** One public method call. *)
Inductive BuilderRequest :=
  | ReqAddExternal (name : string) (type : ValueType)
  | ReqAddConstant (type : ValueType) (bits : Z)
  | ReqAddLiveOut (name : string) (type : ValueType) (source : Z)
  | ReqAddNode (opcode : Opcode) (operandTypes : list ValueType) (resultType : ValueType)
      (predicate : option ICmpPredicate) (memoryInfo : option MemoryOpInfo)
      (source : option string)
  | ReqBindExternal (node operand value : Z)
  | ReqBindConstant (node operand value : Z)
  | ReqAddDataEdge (src dst dstOperand distance : Z) (boundary : option RecurrenceBoundary)
  | ReqAddPredicateEdge (src dst dstOperand distance : Z) (boundary : option RecurrenceBoundary)
  | ReqAddMemoryEdge (src dst : Z) (dependence : MemoryDepKind) (distance : Z)
  | ReqImportNode (node : Node)
  | ReqImportExternal (value : ExternalValue)
  | ReqImportConstant (value : ConstantValue)
  | ReqImportLiveOut (value : LiveOut)
  | ReqImportEdge (edge : Edge).

Definition request (b : DFGBuilder) (r : BuilderRequest) : DFGBuilder * result Z :=
  match r with
  | ReqAddExternal name type => addExternal b name type
  | ReqAddConstant type bits => addConstant b type bits
  | ReqAddLiveOut name type source => addLiveOut b name type source
  | ReqAddNode opcode operands res predicate memory source =>
      addNode b opcode operands res predicate memory source
  | ReqBindExternal node operand value => bindExternal b node operand value
  | ReqBindConstant node operand value => bindConstant b node operand value
  | ReqAddDataEdge src dst operand distance boundary =>
      addDataEdge b src dst operand distance boundary
  | ReqAddPredicateEdge src dst operand distance boundary =>
      addPredicateEdge b src dst operand distance boundary
  | ReqAddMemoryEdge src dst dependence distance => addMemoryEdge b src dst dependence distance
  | ReqImportNode node => importNode b node
  | ReqImportExternal value => importExternal b value
  | ReqImportConstant value => importConstant b value
  | ReqImportLiveOut value => importLiveOut b value
  | ReqImportEdge edge => importEdge b edge
  end.

(** A client that catches every exception and goes on. *)
Definition requests (b : DFGBuilder) (rs : list BuilderRequest) : DFGBuilder :=
  foldl (fun b r => (request b r).1) b rs.

(** ** The class invariant *)

Abbreviation d_in_edges := (edges_at edge_id edge_dst).
Abbreviation d_out_edges := (edges_at edge_id edge_src).

Record DFG_inv (g : DFG) : Prop := {
  dinv_nodes : indexed node_id (d_nodes g) (d_nodeIndices g);
  dinv_edges : indexed edge_id (d_edges g) (d_edgeIndices g);
  dinv_externals : indexed ext_id (d_externalValues g) (d_externalIndices g);
  dinv_constants : indexed const_id (d_constants g) (d_constantIndices g);
  dinv_liveOuts : indexed lo_id (d_liveOuts g) (d_liveOutIndices g);
  dinv_endpoints : forall edge, edge ∈ d_edges g ->
    is_Some (d_nodeIndices g !! edge_src edge) /\ is_Some (d_nodeIndices g !! edge_dst edge);
  dinv_sources : forall liveOut, liveOut ∈ d_liveOuts g ->
    is_Some (d_nodeIndices g !! lo_source liveOut);
  dinv_bound : forall binding, binding ∈ d_bindings g ->
    is_Some (d_nodeIndices g !! ob_node binding);
  dinv_bindings : NoDup (binding_key <$> d_bindings g);
  dinv_incoming :
    d_incoming g = (fun node => d_in_edges (d_edges g) (node_id node)) <$> d_nodes g;
  dinv_outgoing :
    d_outgoing g = (fun node => d_out_edges (d_edges g) (node_id node)) <$> d_nodes g
}.

Lemma DFG_empty_inv name : DFG_inv (DFG_empty name).
Proof.
  split; simpl; try done; try apply indexed_nil; try apply NoDup_nil_2;
    intros x H; by apply not_elem_of_nil in H.
Qed.

(** An element of a vector extended by one is old or the new one. *)
Ltac split_snoc H :=
  apply elem_of_app in H as [H|H]; [|apply list_elem_of_singleton in H as ->].

Section AppendInvariants.
Context (g : DFG) (Hinv : DFG_inv g).

Lemma d_appendNode_inv node g' : d_appendNode g node = Ok g' -> DFG_inv g'.
Proof.
  destruct Hinv as [Hn He Hx Hc Hl Hends Hsrc Hb Hbs Hin Hout].
  unfold d_appendNode, d_containsNode. case_bool_decide as Hfresh; [done|]. intros [= <-].
  apply eq_None_not_Some in Hfresh.
  split; simpl; try done; [by apply indexed_append| | | | |].
  - intros edge Hedge. rewrite !lookup_insert_is_Some'. destruct (Hends _ Hedge). auto.
  - intros lo Hlo. rewrite lookup_insert_is_Some'. auto.
  - intros binding Hbi. rewrite lookup_insert_is_Some'. auto.
  - rewrite fmap_app, Hin. simpl. do 2 f_equal. symmetry. apply edges_at_unknown.
    intros edge Hedge E. destruct (Hends _ Hedge) as [_ [i Hi]]. congruence.
  - rewrite fmap_app, Hout. simpl. do 2 f_equal. symmetry. apply edges_at_unknown.
    intros edge Hedge E. destruct (Hends _ Hedge) as [[i Hi] _]. congruence.
Qed.

Lemma d_appendExternal_inv value g' : d_appendExternal g value = Ok g' -> DFG_inv g'.
Proof.
  destruct Hinv. unfold d_appendExternal, d_containsExternal.
  case_bool_decide as Hfresh; [done|]. intros [= <-]. apply eq_None_not_Some in Hfresh.
  split; simpl; try done. by apply indexed_append.
Qed.

Lemma d_appendConstant_inv value g' : d_appendConstant g value = Ok g' -> DFG_inv g'.
Proof.
  destruct Hinv. unfold d_appendConstant, d_containsConstant.
  case_bool_decide as Hfresh; [done|]. intros [= <-]. apply eq_None_not_Some in Hfresh.
  split; simpl; try done. by apply indexed_append.
Qed.

Lemma d_appendLiveOut_inv value g' : d_appendLiveOut g value = Ok g' -> DFG_inv g'.
Proof.
  destruct Hinv. unfold d_appendLiveOut, d_containsLiveOut.
  case_bool_decide as Hfresh; [done|]. destruct (d_containsNode g (lo_source value)) eqn:Hsrc;
    [|done]. intros [= <-]. apply eq_None_not_Some in Hfresh. apply bool_decide_eq_true in Hsrc.
  split; simpl; try done; [by apply indexed_append|]. intros lo Hlo. split_snoc Hlo; auto.
Qed.

Lemma d_appendEdge_inv edge g' : d_appendEdge g edge = Ok g' -> DFG_inv g'.
Proof.
  destruct Hinv as [Hn He Hx Hc Hl Hends Hsrc Hb Hbs Hin Hout].
  unfold d_appendEdge, d_containsEdge. case_bool_decide as Hfresh; [done|].
  destruct (_ || _)%bool eqn:Hnodes; [done|]. unfold d_containsNode in Hnodes.
  intros H. inv_ok. subst g'. bool_hyps. apply eq_None_not_Some in Hfresh.
  rewrite Hin in Hv0. rewrite Hout in Hv2.
  apply (adjacency_push_spec node_id edge_id edge_dst _ _ _ _ _ _ Hn) in Hv0; [|done].
  apply (adjacency_push_spec node_id edge_id edge_src _ _ _ _ _ _ Hn) in Hv2; [|done].
  split; simpl; try done; [by apply indexed_append|].
  intros e Hedge. split_snoc Hedge; eauto.
Qed.

(** The [at] calls of [appendEdge] never throw: the append is refused exactly
    for a duplicate identifier or an unknown end point. *)
Lemma d_appendEdge_total edge :
  is_Ok (d_appendEdge g edge) = true <->
  d_containsEdge g (edge_id edge) = false /\
  d_containsNode g (edge_src edge) = true /\ d_containsNode g (edge_dst edge) = true.
Proof.
  destruct Hinv as [Hn He Hx Hc Hl Hends Hsrc Hb Hbs Hin Hout]. unfold d_appendEdge.
  destruct (d_containsEdge g (edge_id edge)); [naive_solver|].
  destruct (d_containsNode g (edge_src edge)) eqn:Es; [|naive_solver].
  destruct (d_containsNode g (edge_dst edge)) eqn:Ed; [|naive_solver]. simpl.
  apply bool_decide_eq_true in Es as (i & Hi). apply bool_decide_eq_true in Ed as (j & Hj).
  rewrite Hi, Hj, Hin, Hout. simpl.
  pose proof (adjacency_push_total node_id edge_id edge_dst _ _ (d_edges g) edge j Hn Hj) as T1.
  pose proof (adjacency_push_total node_id edge_id edge_src _ _ (d_edges g) edge i Hn Hi) as T2.
  destruct (adjacency_push _ j _); [simpl|done].
  destruct (adjacency_push _ i _); [naive_solver|done].
Qed.

Lemma d_appendBinding_Ok binding g' :
  d_appendBinding g binding = Ok g' ->
  is_Some (d_nodeIndices g !! ob_node binding) /\
  binding_key binding ∉ (binding_key <$> d_bindings g) /\
  d_nodes g' = d_nodes g /\ d_edges g' = d_edges g /\
  d_externalValues g' = d_externalValues g /\ d_constants g' = d_constants g /\
  d_bindings g' ≡ₚ d_bindings g ++ [binding].
Proof.
  unfold d_appendBinding. destruct (d_containsNode g (ob_node binding)) eqn:En; [|done].
  simpl. destruct (existsb _ _) eqn:Ex; [done|]. intros [= <-]. simpl.
  apply bool_decide_eq_true in En. split; [done|]. split_and!; try done.
  - intros H. apply list_elem_of_fmap in H as (item & E & Hi).
    assert (existsb (fun item => (ob_node item =? ob_node binding) &&
      (ob_operand item =? ob_operand binding)) (d_bindings g) = true); [|congruence].
    apply existsb_exists. exists item. split; [by apply list_elem_of_In|].
    unfold binding_key in E. injection E as E1 E2. lia.
  - apply sort_by_pair_perm.
Qed.

Lemma d_appendBinding_inv binding g' : d_appendBinding g binding = Ok g' -> DFG_inv g'.
Proof.
  intros H. pose proof (d_appendBinding_Ok _ _ H) as (Hn & Hk & _ & _ & _ & _ & Hp).
  destruct Hinv. unfold d_appendBinding in H.
  destruct (d_containsNode g (ob_node binding)); [|done]. simpl in H.
  destruct (existsb _ _); [done|]. injection H as <-. simpl in Hp.
  split; simpl; try done.
  - intros b Hb. rewrite Hp in Hb. split_snoc Hb; auto.
  - rewrite Hp, fmap_app, NoDup_app. simpl. split; [done|]. split; [|repeat constructor; set_solver].
    intros x Hx Hx'. by apply list_elem_of_singleton in Hx' as ->.
Qed.
End AppendInvariants.

Lemma commit_inv b id r :
  DFG_inv (b_dfg b) -> (forall g, r = Ok g -> DFG_inv g) -> DFG_inv (b_dfg (commit b id r).1).
Proof. intros Hb Hr. destruct r; simpl; auto. Qed.

Lemma importEdge_inv b edge :
  DFG_inv (b_dfg b) -> DFG_inv (b_dfg (importEdge b edge).1).
Proof. intros H. apply commit_inv; [done|]. intros g. by apply d_appendEdge_inv. Qed.

Lemma addValueEdge_inv b src dst operand distance info :
  DFG_inv (b_dfg b) -> DFG_inv (b_dfg (addValueEdge b src dst operand distance info).1).
Proof.
  intros H. unfold addValueEdge. destruct (checkProviderAvailable _ _ _); [|done].
  by apply importEdge_inv.
Qed.

Lemma request_inv b r : DFG_inv (b_dfg b) -> DFG_inv (b_dfg (request b r).1).
Proof.
  intros H. destruct r; simpl.
  - unfold addExternal. destruct (String.eqb _ _); [done|]. apply commit_inv; [done|].
    intros g. by apply d_appendExternal_inv.
  - apply commit_inv; [done|]. intros g. by apply d_appendConstant_inv.
  - unfold addLiveOut. destruct (String.eqb _ _); [done|]. destruct (checkNode _ _); [|done].
    apply commit_inv; [done|]. intros g. by apply d_appendLiveOut_inv.
  - apply commit_inv; [done|]. intros g. by apply d_appendNode_inv.
  - apply commit_inv; [done|]. intros g Hg. inv_ok. destruct (negb _); [done|].
    by eapply d_appendBinding_inv.
  - apply commit_inv; [done|]. intros g Hg. inv_ok. destruct (negb _); [done|].
    by eapply d_appendBinding_inv.
  - by apply addValueEdge_inv.
  - by apply addValueEdge_inv.
  - unfold addMemoryEdge. destruct (_ ← checkNode _ _; _); [|done]. by apply importEdge_inv.
  - apply commit_inv; [done|]. intros g. by apply d_appendNode_inv.
  - apply commit_inv; [done|]. intros g. by apply d_appendExternal_inv.
  - apply commit_inv; [done|]. intros g. by apply d_appendConstant_inv.
  - apply commit_inv; [done|]. intros g. by apply d_appendLiveOut_inv.
  - by apply importEdge_inv.
Qed.

(** ** Providers

    An operand is provided by a value edge or by a binding.  [providers] lists
    the operands provided, once per provider. *)

Definition edge_provider (edge : Edge) : option (Z * Z) :=
  operand ← EdgeInfo_operand (edge_info edge); Some (edge_dst edge, operand).

Definition providers (edges : list Edge) (bindings : list OperandBinding) : list (Z * Z) :=
  omap edge_provider edges ++ (binding_key <$> bindings).

(** What a graph built without [importEdge] satisfies beyond the invariant: no
    operand has two providers, every provided operand exists, and every binding
    names a declared value. *)
Record DFG_built (g : DFG) : Prop := {
  built_inv : DFG_inv g;
  built_unique : NoDup (providers (d_edges g) (d_bindings g));
  built_operand : forall node operand,
    (node, operand) ∈ providers (d_edges g) (d_bindings g) ->
    exists n, n ∈ d_nodes g /\ node_id n = node /\
              operand < Z.of_nat (length (node_operandTypes n));
  built_refs : forall binding, binding ∈ d_bindings g ->
    match ob_source binding with
    | ExternalValueRef value => exists x, x ∈ d_externalValues g /\ ext_id x = value
    | ConstantRef value => exists c, c ∈ d_constants g /\ const_id c = value
    end
}.

Section ProviderChecks.
Context (g : DFG) (Hinv : DFG_inv g).

Lemma d_node_Ok id node : d_node g id = Ok node <-> node ∈ d_nodes g /\ node_id node = id.
Proof.
  unfold d_node. rewrite <- (index_find_Some node_id _ _ _ _ (dinv_nodes g Hinv)).
  unfold index_find. destruct (d_nodeIndices g !! id); simpl; [apply of_option_Ok|done].
Qed.

Lemma d_edge_Ok id edge : d_edge g id = Ok edge <-> edge ∈ d_edges g /\ edge_id edge = id.
Proof.
  unfold d_edge. rewrite <- (index_find_Some edge_id _ _ _ _ (dinv_edges g Hinv)).
  unfold index_find. destruct (d_edgeIndices g !! id); simpl; [apply of_option_Ok|done].
Qed.

Lemma d_incomingOf_Ok id ids :
  d_incomingOf g id = Ok ids -> ids = d_in_edges (d_edges g) id.
Proof.
  unfold d_incomingOf. intros H. inv_ok. apply d_node_Ok in Hv as [Hnode <-].
  apply (dinv_nodes g Hinv) in Hv0 as (node & Hi & Hid).
  rewrite (dinv_incoming g Hinv), list_lookup_fmap, Hi in H. injection H as <-. by rewrite Hid.
Qed.

Lemma check_incoming_Ok operand ids :
  check_incoming g operand ids = Ok tt ->
  forall id edge, id ∈ ids -> edge ∈ d_edges g -> edge_id edge = id ->
    EdgeInfo_operand (edge_info edge) <> Some operand.
Proof.
  induction ids as [|i ids IH]; simpl; intros H id edge Hid Hedge E.
  - by apply not_elem_of_nil in Hid.
  - inv_ok. case_bool_decide as Ho; [done|]. apply elem_of_cons in Hid as [->|Hid]; [|by eauto].
    assert (d_edge g i = Ok edge) by (apply d_edge_Ok; auto). congruence.
Qed.

Lemma checkProviderAvailable_Ok node operand :
  checkProviderAvailable g node operand = Ok tt ->
  (node, operand) ∉ providers (d_edges g) (d_bindings g) /\
  exists n, n ∈ d_nodes g /\ node_id n = node /\
            operand < Z.of_nat (length (node_operandTypes n)).
Proof.
  unfold checkProviderAvailable. intros H. inv_ok. destruct v, v1.
  destruct (existsb _ _) eqn:Ex; [done|]. split.
  - unfold providers. rewrite elem_of_app. intros [Hp|Hp].
    + apply list_elem_of_omap in Hp as (edge & Hedge & Hp). unfold edge_provider in Hp.
      destruct (EdgeInfo_operand (edge_info edge)) as [o|] eqn:Eo; [|done].
      injection Hp as <- <-. apply d_incomingOf_Ok in Hv0 as ->.
      eapply check_incoming_Ok; [exact Hv1| |exact Hedge|done|exact Eo].
      apply elem_of_edges_at. eauto.
    + apply list_elem_of_fmap in Hp as (b & E & Hb). injection E as -> ->.
      enough (existsb (fun binding => (ob_node binding =? ob_node b) &&
        (ob_operand binding =? ob_operand b)) (d_bindings g) = true) by congruence.
      apply existsb_exists. exists b. rewrite !Z.eqb_refl. by rewrite <- list_elem_of_In.
  - unfold checkOperand in Hv. inv_ok. apply d_node_Ok in Hv3 as [? ?].
    destruct (Z.leb_spec (Z.of_nat (length (node_operandTypes v1))) operand); [done|eauto].
Qed.

Lemma d_containsExternal_true id :
  d_containsExternal g id = true <-> exists x, x ∈ d_externalValues g /\ ext_id x = id.
Proof.
  unfold d_containsExternal. rewrite bool_decide_eq_true.
  apply indexed_contains, dinv_externals, Hinv.
Qed.

Lemma d_containsConstant_true id :
  d_containsConstant g id = true <-> exists x, x ∈ d_constants g /\ const_id x = id.
Proof.
  unfold d_containsConstant. rewrite bool_decide_eq_true.
  apply indexed_contains, dinv_constants, Hinv.
Qed.
End ProviderChecks.

(** Growing the vectors other than edges and bindings keeps a graph built. *)
Lemma DFG_built_grow g g' :
  DFG_built g -> DFG_inv g' ->
  d_edges g' = d_edges g -> d_bindings g' = d_bindings g ->
  d_nodes g ⊆ d_nodes g' -> d_externalValues g ⊆ d_externalValues g' ->
  d_constants g ⊆ d_constants g' -> DFG_built g'.
Proof.
  intros [Hinv Hu Ho Hr] Hinv' He Hb Hn Hx Hc.
  split; [done|by rewrite He, Hb|rewrite He, Hb|rewrite Hb].
  - intros node operand H. destruct (Ho _ _ H) as (n & ? & ? & ?). eauto.
  - intros binding Hbi. specialize (Hr _ Hbi). destruct (ob_source binding); naive_solver.
Qed.

Lemma DFG_built_edge g edge g' :
  DFG_built g -> d_appendEdge g edge = Ok g' ->
  (forall operand, EdgeInfo_operand (edge_info edge) = Some operand ->
     checkProviderAvailable g (edge_dst edge) operand = Ok tt) ->
  DFG_built g'.
Proof.
  intros [Hinv Hu Ho Hr] H Hcheck. pose proof (d_appendEdge_inv g Hinv _ _ H) as Hinv'.
  assert (d_edges g' = d_edges g ++ [edge] /\ d_bindings g' = d_bindings g /\
          d_nodes g' = d_nodes g /\ d_externalValues g' = d_externalValues g /\
          d_constants g' = d_constants g) as (Ee & Eb & En & Ex & Ec).
  { unfold d_appendEdge in H. destruct (d_containsEdge _ _); [done|].
    destruct (_ || _)%bool; [done|]. inv_ok. by subst g'. }
  assert (Hp : providers (d_edges g ++ [edge]) (d_bindings g) ≡ₚ
                 option_list (edge_provider edge) ++ providers (d_edges g) (d_bindings g)).
  { unfold providers. rewrite omap_app. simpl.
    destruct (edge_provider edge); simpl; [|by rewrite app_nil_r].
    rewrite <- app_assoc. simpl. by rewrite Permutation_middle. }
  assert (Hnew : forall p, p ∈ option_list (edge_provider edge) ->
    p ∉ providers (d_edges g) (d_bindings g) /\ exists n, n ∈ d_nodes g /\ node_id n = p.1 /\
      p.2 < Z.of_nat (length (node_operandTypes n))).
  { intros p Hin. unfold edge_provider in Hin.
    destruct (EdgeInfo_operand (edge_info edge)) as [o|] eqn:Eo; simpl in Hin;
      [|by apply not_elem_of_nil in Hin].
    apply list_elem_of_singleton in Hin as ->. by apply checkProviderAvailable_Ok, Hcheck. }
  split; [done|rewrite Ee, Eb, Hp|rewrite Ee, Eb, En|rewrite Eb, Ex, Ec; done].
  - apply NoDup_app. split; [destruct (edge_provider edge); simpl; [apply NoDup_singleton|constructor]|].
    split; [|done]. intros p Hin. by apply Hnew.
  - intros node operand Hin. rewrite Hp in Hin. apply elem_of_app in Hin as [Hin|Hin]; [|by eauto].
    by apply Hnew in Hin as [_ ?].
Qed.

Lemma DFG_built_binding g binding g' :
  DFG_built g -> d_appendBinding g binding = Ok g' ->
  checkProviderAvailable g (ob_node binding) (ob_operand binding) = Ok tt ->
  match ob_source binding with
  | ExternalValueRef value => d_containsExternal g value
  | ConstantRef value => d_containsConstant g value
  end = true -> DFG_built g'.
Proof.
  intros [Hinv Hu Ho Hr] H Hcheck Href.
  pose proof (d_appendBinding_inv g Hinv _ _ H) as Hinv'.
  apply d_appendBinding_Ok in H as (_ & _ & En & Ee & Ex & Ec & Hp).
  apply checkProviderAvailable_Ok in Hcheck as [Hfresh Hop]; [|done].
  assert (Hpr : providers (d_edges g) (d_bindings g') ≡ₚ
                  binding_key binding :: providers (d_edges g) (d_bindings g)).
  { unfold providers. rewrite Hp, fmap_app. simpl. rewrite (app_assoc _ _ [_]).
    by rewrite <- Permutation_cons_append. }
  split; [done|rewrite Ee, Hpr|rewrite Ee, En|rewrite Ex, Ec].
  - by apply NoDup_cons.
  - intros node operand Hin. rewrite Hpr in Hin.
    apply elem_of_cons in Hin as [[= -> ->]|Hin]; eauto.
  - intros b Hb. rewrite Hp in Hb. split_snoc Hb; [by apply Hr|].
    destruct (ob_source binding); [by apply d_containsExternal_true|by apply d_containsConstant_true].
Qed.

Definition is_import_edge (r : BuilderRequest) : bool :=
  match r with ReqImportEdge _ => true | _ => false end.

Lemma commit_built b id r :
  DFG_built (b_dfg b) -> (forall g, r = Ok g -> DFG_built g) ->
  DFG_built (b_dfg (commit b id r).1).
Proof. intros Hb Hr. destruct r; simpl; auto. Qed.

Lemma addValueEdge_built b src dst operand distance info :
  EdgeInfo_operand info = Some operand -> DFG_built (b_dfg b) ->
  DFG_built (b_dfg (addValueEdge b src dst operand distance info).1).
Proof.
  intros Hinfo H. unfold addValueEdge. destruct (checkProviderAvailable _ _ _) as [[]|] eqn:E;
    [|done].
  apply commit_built; [done|]. intros g Hg. eapply DFG_built_edge; [exact H|exact Hg|].
  intros o Ho. simpl in *. congruence.
Qed.

(** Appends to the other vectors keep edges and bindings. *)
Lemma d_append_built g g' :
  DFG_built g ->
  (exists node, d_appendNode g node = Ok g') \/ (exists value, d_appendExternal g value = Ok g') \/
  (exists value, d_appendConstant g value = Ok g') \/
  (exists value, d_appendLiveOut g value = Ok g') ->
  DFG_built g'.
Proof.
  intros Hb H. pose proof (built_inv g Hb) as Hinv. eapply DFG_built_grow; [exact Hb|..].
  { destruct H as [[]|[[]|[[]|[]]]];
      [eapply d_appendNode_inv|eapply d_appendExternal_inv|eapply d_appendConstant_inv|
       eapply d_appendLiveOut_inv]; eauto. }
  all: destruct H as [[? H]|[[? H]|[[? H]|[? H]]]];
    unfold d_appendNode, d_appendExternal, d_appendConstant, d_appendLiveOut in H;
    repeat (case_match; try done); injection H as <-; simpl; set_solver.
Qed.

Lemma request_built b r :
  is_import_edge r = false -> DFG_built (b_dfg b) -> DFG_built (b_dfg (request b r).1).
Proof.
  intros Hr H. destruct r; simpl; try done.
  - unfold addExternal. destruct (String.eqb _ _); [done|]. apply commit_built; [done|].
    intros g Hg. eapply d_append_built; eauto.
  - apply commit_built; [done|]. intros g Hg. eapply d_append_built; eauto 6.
  - unfold addLiveOut. destruct (String.eqb _ _); [done|]. destruct (checkNode _ _); [|done].
    apply commit_built; [done|]. intros g Hg. eapply d_append_built; eauto 6.
  - apply commit_built; [done|]. intros g Hg. eapply d_append_built; eauto 6.
  - apply commit_built; [done|]. intros g Hg. inv_ok. destruct v.
    destruct (negb _) eqn:Hx; [done|]. bool_hyps. by eapply DFG_built_binding.
  - apply commit_built; [done|]. intros g Hg. inv_ok. destruct v.
    destruct (negb _) eqn:Hx; [done|]. bool_hyps. by eapply DFG_built_binding.
  - by apply addValueEdge_built.
  - by apply addValueEdge_built.
  - unfold addMemoryEdge. destruct (_ ← checkNode _ _; _); [|done]. apply commit_built; [done|].
    intros g Hg. by eapply DFG_built_edge.
  - apply commit_built; [done|]. intros g Hg. eapply d_append_built; eauto 6.
  - apply commit_built; [done|]. intros g Hg. eapply d_append_built; eauto 6.
  - apply commit_built; [done|]. intros g Hg. eapply d_append_built; eauto 6.
  - apply commit_built; [done|]. intros g Hg. eapply d_append_built; eauto 6.
Qed.

Lemma requests_built b rs :
  (forall r, r ∈ rs -> is_import_edge r = false) -> DFG_built (b_dfg b) ->
  DFG_built (b_dfg (requests b rs)).
Proof.
  revert b. induction rs as [|r rs IH]; simpl; intros b Hrs Hb; [done|].
  apply IH; [intros r' Hr'; apply Hrs; by right|]. apply request_built; [|done].
  apply Hrs. left.
Qed.

Lemma DFG_empty_built name : DFG_built (DFG_empty name).
Proof.
  split; simpl; [apply DFG_empty_inv|apply NoDup_nil_2| |].
  - intros node operand H. by apply not_elem_of_nil in H.
  - intros binding H. by apply not_elem_of_nil in H.
Qed.

Lemma commit_throw b b' id r e :
  b_dfg b' = b_dfg b -> (commit b' id r).2 = Throw e -> b_dfg (commit b' id r).1 = b_dfg b.
Proof. by destruct r. Qed.

(** ** Properties *)



(** A builder call that throws leaves the graph untouched. *)
Theorem request_exception_safe (b : DFGBuilder) (r : BuilderRequest) (e : exn) :
  (request b r).2 = Throw e -> b_dfg (request b r).1 = b_dfg b.
Proof.
  intros H. destruct r; simpl in *;
    unfold addExternal, addLiveOut, addDataEdge, addPredicateEdge, addValueEdge, addMemoryEdge in *;
    repeat case_match; simpl in *; try done;
    by eapply commit_throw.
Qed.

Lemma request_exception_safe_witness :
  b_dfg (request (DFGBuilder_new "g") (ReqAddDataEdge 0 1 0 0 None)).1 = DFG_empty "g".
Proof. apply (request_exception_safe (DFGBuilder_new "g") _ OutOfRange). reflexivity. Defined.
