(* ===== verification/DFGVerifier.v ===== *)
(** * The generic DFG verifier

    Models [compiler/{include/cgra,lib}/IR/DFGVerifier.{h,cpp}].  [dfg_verify]
    returns the diagnostics in the order the code adds them (the message texts
    are left out).  [node_typed] is the typing judgement of the generic
    operations; [DFG_coherent] and [DFG_typed] are what an empty report promises. *)
From stdpp Require Import base numbers list gmap strings.
From S2P Require Import Prelude.
From S2P Require Import IR.
From S2P Require Import DFG.

(** ** Diagnostics and the report *)

Inductive DiagnosticSeverity := SevError | SevWarning.

#[export] Instance DiagnosticSeverity_eq_dec : EqDecision DiagnosticSeverity.
Proof. solve_decision. Defined.

Definition DiagnosticSeverity_toString (severity : DiagnosticSeverity) : string :=
  match severity with SevError => "error" | SevWarning => "warning" end.

Inductive DFGDiagnosticCode :=
  | DFG_ID_DUPLICATE_NODE
  | DFG_ID_DUPLICATE_EDGE
  | DFG_ID_DUPLICATE_EXTERNAL
  | DFG_ID_DUPLICATE_CONSTANT
  | DFG_ID_DUPLICATE_LIVEOUT
  | DFG_EDGE_UNKNOWN_SOURCE
  | DFG_EDGE_UNKNOWN_DESTINATION
  | DFG_BINDING_UNKNOWN_NODE
  | DFG_BINDING_UNKNOWN_EXTERNAL
  | DFG_BINDING_UNKNOWN_CONSTANT
  | DFG_ADJACENCY_INCONSISTENT
  | DFG_OPERAND_INDEX_OUT_OF_RANGE
  | DFG_OPERAND_MISSING_PROVIDER
  | DFG_OPERAND_DUPLICATE_PROVIDER
  | DFG_OPERAND_TYPE_MISMATCH
  | DFG_OPERAND_INVALID_EDGE_KIND
  | DFG_TYPE_INVALID
  | DFG_RESULT_TYPE_INVALID
  | DFG_EDGE_VALUE_TYPE_MISMATCH
  | DFG_PREDICATE_EXPECTED
  | DFG_DATA_VALUE_EXPECTED
  | DFG_VOID_VALUE_USED
  | DFG_OPCODE_ARITY_MISMATCH
  | DFG_OPCODE_RESULT_TYPE_MISMATCH
  | DFG_OPCODE_OPERAND_TYPE_MISMATCH
  | DFG_OPCODE_UNEXPECTED_METADATA
  | DFG_OPCODE_MISSING_METADATA
  | DFG_OPCODE_METADATA_INVALID
  | DFG_ICMP_MISSING_PREDICATE
  | DFG_ICMP_INVALID_RESULT_TYPE
  | DFG_ICMP_OPERAND_TYPE_MISMATCH
  | DFG_SELECT_INVALID_PREDICATE
  | DFG_SELECT_VALUE_TYPE_MISMATCH
  | DFG_SELECT_RESULT_TYPE_MISMATCH
  | DFG_LOAD_INVALID_RESULT_TYPE
  | DFG_LOAD_INVALID_ADDRESS_TYPE
  | DFG_STORE_INVALID_RESULT_TYPE
  | DFG_STORE_INVALID_ADDRESS_TYPE
  | DFG_STORE_INVALID_VALUE_TYPE
  | DFG_STORE_INVALID_PREDICATE
  | DFG_DATA_EDGE_INVALID_SOURCE_TYPE
  | DFG_DATA_EDGE_INVALID_DEST_OPERAND
  | DFG_PRED_EDGE_INVALID_SOURCE_TYPE
  | DFG_PRED_EDGE_INVALID_DEST_OPERAND
  | DFG_MEMORY_EDGE_INVALID_SOURCE
  | DFG_MEMORY_EDGE_INVALID_DESTINATION
  | DFG_MEMORY_EDGE_INVALID_DEPENDENCE
  | DFG_MEMORY_EDGE_UNEXPECTED_OPERAND
  | DFG_RECURRENCE_BOUNDARY_MISSING
  | DFG_RECURRENCE_BOUNDARY_OFFSET_OUT_OF_RANGE
  | DFG_RECURRENCE_BOUNDARY_DUPLICATE_OFFSET
  | DFG_RECURRENCE_BOUNDARY_SOURCE_UNKNOWN
  | DFG_RECURRENCE_BOUNDARY_TYPE_MISMATCH
  | DFG_LIVEOUT_UNKNOWN_SOURCE
  | DFG_LIVEOUT_TYPE_MISMATCH
  | DFG_LIVEOUT_VOID_SOURCE.

#[export] Instance DFGDiagnosticCode_eq_dec : EqDecision DFGDiagnosticCode.
Proof. solve_decision. Defined.

Definition DFGDiagnosticCode_toString (code : DFGDiagnosticCode) : string :=
  match code with
  | DFG_ID_DUPLICATE_NODE => "DFG_ID_DUPLICATE_NODE"
  | DFG_ID_DUPLICATE_EDGE => "DFG_ID_DUPLICATE_EDGE"
  | DFG_ID_DUPLICATE_EXTERNAL => "DFG_ID_DUPLICATE_EXTERNAL"
  | DFG_ID_DUPLICATE_CONSTANT => "DFG_ID_DUPLICATE_CONSTANT"
  | DFG_ID_DUPLICATE_LIVEOUT => "DFG_ID_DUPLICATE_LIVEOUT"
  | DFG_EDGE_UNKNOWN_SOURCE => "DFG_EDGE_UNKNOWN_SOURCE"
  | DFG_EDGE_UNKNOWN_DESTINATION => "DFG_EDGE_UNKNOWN_DESTINATION"
  | DFG_BINDING_UNKNOWN_NODE => "DFG_BINDING_UNKNOWN_NODE"
  | DFG_BINDING_UNKNOWN_EXTERNAL => "DFG_BINDING_UNKNOWN_EXTERNAL"
  | DFG_BINDING_UNKNOWN_CONSTANT => "DFG_BINDING_UNKNOWN_CONSTANT"
  | DFG_ADJACENCY_INCONSISTENT => "DFG_ADJACENCY_INCONSISTENT"
  | DFG_OPERAND_INDEX_OUT_OF_RANGE => "DFG_OPERAND_INDEX_OUT_OF_RANGE"
  | DFG_OPERAND_MISSING_PROVIDER => "DFG_OPERAND_MISSING_PROVIDER"
  | DFG_OPERAND_DUPLICATE_PROVIDER => "DFG_OPERAND_DUPLICATE_PROVIDER"
  | DFG_OPERAND_TYPE_MISMATCH => "DFG_OPERAND_TYPE_MISMATCH"
  | DFG_OPERAND_INVALID_EDGE_KIND => "DFG_OPERAND_INVALID_EDGE_KIND"
  | DFG_TYPE_INVALID => "DFG_TYPE_INVALID"
  | DFG_RESULT_TYPE_INVALID => "DFG_RESULT_TYPE_INVALID"
  | DFG_EDGE_VALUE_TYPE_MISMATCH => "DFG_EDGE_VALUE_TYPE_MISMATCH"
  | DFG_PREDICATE_EXPECTED => "DFG_PREDICATE_EXPECTED"
  | DFG_DATA_VALUE_EXPECTED => "DFG_DATA_VALUE_EXPECTED"
  | DFG_VOID_VALUE_USED => "DFG_VOID_VALUE_USED"
  | DFG_OPCODE_ARITY_MISMATCH => "DFG_OPCODE_ARITY_MISMATCH"
  | DFG_OPCODE_RESULT_TYPE_MISMATCH => "DFG_OPCODE_RESULT_TYPE_MISMATCH"
  | DFG_OPCODE_OPERAND_TYPE_MISMATCH => "DFG_OPCODE_OPERAND_TYPE_MISMATCH"
  | DFG_OPCODE_UNEXPECTED_METADATA => "DFG_OPCODE_UNEXPECTED_METADATA"
  | DFG_OPCODE_MISSING_METADATA => "DFG_OPCODE_MISSING_METADATA"
  | DFG_OPCODE_METADATA_INVALID => "DFG_OPCODE_METADATA_INVALID"
  | DFG_ICMP_MISSING_PREDICATE => "DFG_ICMP_MISSING_PREDICATE"
  | DFG_ICMP_INVALID_RESULT_TYPE => "DFG_ICMP_INVALID_RESULT_TYPE"
  | DFG_ICMP_OPERAND_TYPE_MISMATCH => "DFG_ICMP_OPERAND_TYPE_MISMATCH"
  | DFG_SELECT_INVALID_PREDICATE => "DFG_SELECT_INVALID_PREDICATE"
  | DFG_SELECT_VALUE_TYPE_MISMATCH => "DFG_SELECT_VALUE_TYPE_MISMATCH"
  | DFG_SELECT_RESULT_TYPE_MISMATCH => "DFG_SELECT_RESULT_TYPE_MISMATCH"
  | DFG_LOAD_INVALID_RESULT_TYPE => "DFG_LOAD_INVALID_RESULT_TYPE"
  | DFG_LOAD_INVALID_ADDRESS_TYPE => "DFG_LOAD_INVALID_ADDRESS_TYPE"
  | DFG_STORE_INVALID_RESULT_TYPE => "DFG_STORE_INVALID_RESULT_TYPE"
  | DFG_STORE_INVALID_ADDRESS_TYPE => "DFG_STORE_INVALID_ADDRESS_TYPE"
  | DFG_STORE_INVALID_VALUE_TYPE => "DFG_STORE_INVALID_VALUE_TYPE"
  | DFG_STORE_INVALID_PREDICATE => "DFG_STORE_INVALID_PREDICATE"
  | DFG_DATA_EDGE_INVALID_SOURCE_TYPE => "DFG_DATA_EDGE_INVALID_SOURCE_TYPE"
  | DFG_DATA_EDGE_INVALID_DEST_OPERAND => "DFG_DATA_EDGE_INVALID_DEST_OPERAND"
  | DFG_PRED_EDGE_INVALID_SOURCE_TYPE => "DFG_PRED_EDGE_INVALID_SOURCE_TYPE"
  | DFG_PRED_EDGE_INVALID_DEST_OPERAND => "DFG_PRED_EDGE_INVALID_DEST_OPERAND"
  | DFG_MEMORY_EDGE_INVALID_SOURCE => "DFG_MEMORY_EDGE_INVALID_SOURCE"
  | DFG_MEMORY_EDGE_INVALID_DESTINATION => "DFG_MEMORY_EDGE_INVALID_DESTINATION"
  | DFG_MEMORY_EDGE_INVALID_DEPENDENCE => "DFG_MEMORY_EDGE_INVALID_DEPENDENCE"
  | DFG_MEMORY_EDGE_UNEXPECTED_OPERAND => "DFG_MEMORY_EDGE_UNEXPECTED_OPERAND"
  | DFG_RECURRENCE_BOUNDARY_MISSING => "DFG_RECURRENCE_BOUNDARY_MISSING"
  | DFG_RECURRENCE_BOUNDARY_OFFSET_OUT_OF_RANGE => "DFG_RECURRENCE_BOUNDARY_OFFSET_OUT_OF_RANGE"
  | DFG_RECURRENCE_BOUNDARY_DUPLICATE_OFFSET => "DFG_RECURRENCE_BOUNDARY_DUPLICATE_OFFSET"
  | DFG_RECURRENCE_BOUNDARY_SOURCE_UNKNOWN => "DFG_RECURRENCE_BOUNDARY_SOURCE_UNKNOWN"
  | DFG_RECURRENCE_BOUNDARY_TYPE_MISMATCH => "DFG_RECURRENCE_BOUNDARY_TYPE_MISMATCH"
  | DFG_LIVEOUT_UNKNOWN_SOURCE => "DFG_LIVEOUT_UNKNOWN_SOURCE"
  | DFG_LIVEOUT_TYPE_MISMATCH => "DFG_LIVEOUT_TYPE_MISMATCH"
  | DFG_LIVEOUT_VOID_SOURCE => "DFG_LIVEOUT_VOID_SOURCE"
  end.

Record DFGDiagnostic := mkDD {
  dd_severity : DiagnosticSeverity;
  dd_code : DFGDiagnosticCode;
  dd_node : option Z;
  dd_edge : option Z;
  dd_operand : option Z;
  dd_external : option Z;
  dd_constant : option Z;
  dd_liveOut : option Z
}.

#[export] Instance DFGDiagnostic_eq_dec : EqDecision DFGDiagnostic.
Proof. solve_decision. Defined.

Record DFGVerificationReport := mkDFGReport {
  rep_diagnostics : list DFGDiagnostic;
  rep_errorCount : Z;
  rep_warningCount : Z
}.

Definition report_empty : DFGVerificationReport := mkDFGReport [] 0 0.

Definition report_add (report : DFGVerificationReport) (diagnostic : DFGDiagnostic)
  : DFGVerificationReport :=
  let diagnostics := rep_diagnostics report ++ [diagnostic] in
  match dd_severity diagnostic with
  | SevError => mkDFGReport diagnostics (rep_errorCount report + 1) (rep_warningCount report)
  | SevWarning => mkDFGReport diagnostics (rep_errorCount report) (rep_warningCount report + 1)
  end.

Definition report_ok (report : DFGVerificationReport) : bool := rep_errorCount report =? 0.

Definition report_contains (report : DFGVerificationReport) (code : DFGDiagnosticCode) : bool :=
  existsb (fun diagnostic => bool_decide (dd_code diagnostic = code)) (rep_diagnostics report).

(** [DFGVerifierImpl::add]: the severity is always [Error]. *)
Definition dd_add (code : DFGDiagnosticCode) (node edge operand external constant liveOut : option Z)
  : DFGDiagnostic :=
  mkDD SevError code node edge operand external constant liveOut.

(** The combinations of optional arguments the calls use. *)
Definition at_nothing (code : DFGDiagnosticCode) : DFGDiagnostic :=
  dd_add code None None None None None None.
Definition at_node (code : DFGDiagnosticCode) (node : Z) : DFGDiagnostic :=
  dd_add code (Some node) None None None None None.
Definition at_operand (code : DFGDiagnosticCode) (node operand : Z) : DFGDiagnostic :=
  dd_add code (Some node) None (Some operand) None None None.
Definition at_edge (code : DFGDiagnosticCode) (edge : Z) : DFGDiagnostic :=
  dd_add code None (Some edge) None None None None.
Definition at_edge_operand (code : DFGDiagnosticCode) (node edge operand : Z) : DFGDiagnostic :=
  dd_add code (Some node) (Some edge) (Some operand) None None None.

(** ** Types *)

Definition isValidType (type : ValueType) : bool :=
  match vt_kind type with
  | KInteger | KFloat => negb (vt_bitWidth type =? 0)
  | KPredicate => vt_bitWidth type =? 1
  | KVoid => vt_bitWidth type =? 0
  end.

Definition isDataType (type : ValueType) : bool :=
  isValidType type &&
  (bool_decide (vt_kind type = KInteger) || bool_decide (vt_kind type = KFloat)).

Definition isIntegerType (type : ValueType) : bool :=
  isValidType type && bool_decide (vt_kind type = KInteger).

Definition isPredicateType (type : ValueType) : bool :=
  isValidType type && bool_decide (vt_kind type = KPredicate).

Definition isNonVoidType (type : ValueType) : bool :=
  isValidType type && bool_decide (vt_kind type <> KVoid).

Definition isMemoryOpcode (opcode : Opcode) : bool :=
  bool_decide (opcode = OpLoad) || bool_decide (opcode = OpStore).

(** ** Nodes *)

(** [hasArity] of [verifyBinary] and the like: on a mismatch the diagnostic is
    added and the caller returns. *)
Definition arity_diag (node : Node) : list DFGDiagnostic :=
  [at_node DFG_OPCODE_ARITY_MISMATCH (node_id node)].

Definition verifyBinary (node : Node) (integerOnly : bool) : list DFGDiagnostic :=
  match node_operandTypes node with
  | [lhs; rhs] =>
      when (negb (isDataType lhs) || negb (isDataType rhs) ||
            (integerOnly && negb (isIntegerType lhs)) ||
            bool_decide (lhs <> rhs) || bool_decide (node_resultType node <> lhs))
        [at_node DFG_OPCODE_OPERAND_TYPE_MISMATCH (node_id node)]
  | _ => arity_diag node
  end.

Definition verifyShift (node : Node) : list DFGDiagnostic :=
  match node_operandTypes node with
  | [value; amount] =>
      when (negb (isIntegerType value) || negb (isIntegerType amount) ||
            bool_decide (node_resultType node <> value))
        [at_node DFG_OPCODE_OPERAND_TYPE_MISMATCH (node_id node)]
  | _ => arity_diag node
  end.

Definition verifyICmp (node : Node) : list DFGDiagnostic :=
  match node_operandTypes node with
  | [lhs; rhs] =>
      when (negb (isPredicateType (node_resultType node)))
        [at_node DFG_ICMP_INVALID_RESULT_TYPE (node_id node)] ++
      when (negb (isIntegerType lhs) || negb (isIntegerType rhs) || bool_decide (lhs <> rhs))
        [at_node DFG_ICMP_OPERAND_TYPE_MISMATCH (node_id node)]
  | _ => arity_diag node
  end.

Definition verifySelect (node : Node) : list DFGDiagnostic :=
  match node_operandTypes node with
  | [condition; whenTrue; whenFalse] =>
      when (negb (isPredicateType condition))
        [at_operand DFG_SELECT_INVALID_PREDICATE (node_id node) 0] ++
      when (negb (isNonVoidType whenTrue) || negb (isNonVoidType whenFalse) ||
            bool_decide (whenTrue <> whenFalse))
        [at_node DFG_SELECT_VALUE_TYPE_MISMATCH (node_id node)] ++
      when (negb (isNonVoidType (node_resultType node)) ||
            bool_decide (node_resultType node <> whenTrue))
        [at_node DFG_SELECT_RESULT_TYPE_MISMATCH (node_id node)]
  | _ => arity_diag node
  end.

Definition verifyLoad (node : Node) : list DFGDiagnostic :=
  match node_operandTypes node with
  | [address] =>
      when (negb (isIntegerType address))
        [at_operand DFG_LOAD_INVALID_ADDRESS_TYPE (node_id node) 0] ++
      when (negb (isNonVoidType (node_resultType node)))
        [at_node DFG_LOAD_INVALID_RESULT_TYPE (node_id node)]
  | _ => arity_diag node
  end.

(** The third operand of a store, the commit predicate, is optional. *)
Definition verifyStore (node : Node) : list DFGDiagnostic :=
  when (bool_decide (node_resultType node <> voidTy))
    [at_node DFG_STORE_INVALID_RESULT_TYPE (node_id node)] ++
  match node_operandTypes node with
  | address :: value :: commit =>
      match commit with
      | _ :: _ :: _ => arity_diag node
      | _ =>
          when (negb (isIntegerType address))
            [at_operand DFG_STORE_INVALID_ADDRESS_TYPE (node_id node) 0] ++
          when (negb (isNonVoidType value))
            [at_operand DFG_STORE_INVALID_VALUE_TYPE (node_id node) 1] ++
          match commit with
          | predicate :: _ =>
              when (negb (isPredicateType predicate))
                [at_operand DFG_STORE_INVALID_PREDICATE (node_id node) 2]
          | [] => []
          end
      end
  | _ => arity_diag node
  end.

Definition verifyMetadata (node : Node) : list DFGDiagnostic :=
  (if bool_decide (node_opcode node = OpICmp) then
     when (bool_decide (node_icmpPredicate node = None))
       [at_node DFG_ICMP_MISSING_PREDICATE (node_id node)]
   else when (bool_decide (node_icmpPredicate node <> None))
          [at_node DFG_OPCODE_UNEXPECTED_METADATA (node_id node)]) ++
  (if isMemoryOpcode (node_opcode node) then
     match node_memoryInfo node with
     | None => [at_node DFG_OPCODE_MISSING_METADATA (node_id node)]
     | Some info =>
         when ((mi_accessWidthBits info =? 0) || negb (mi_accessWidthBits info mod 8 =? 0))
           [at_node DFG_OPCODE_METADATA_INVALID (node_id node)]
     end
   else when (bool_decide (node_memoryInfo node <> None))
          [at_node DFG_OPCODE_UNEXPECTED_METADATA (node_id node)]).

Definition verifyNode (node : Node) : list DFGDiagnostic :=
  match node_opcode node with
  | OpAdd | OpSub | OpMul => verifyBinary node false
  | OpAnd | OpOr | OpXor => verifyBinary node true
  | OpShl | OpLShr | OpAShr => verifyShift node
  | OpICmp => verifyICmp node
  | OpSelect => verifySelect node
  | OpLoad => verifyLoad node
  | OpStore => verifyStore node
  end ++ verifyMetadata node.

(** ** The graph *)

Section Verify.
Context (g : DFG).

(** The [IdIndex] maps: [emplace] keeps the first element with an identifier. *)
Definition d_find_node (id : Z) : option Node :=
  find_if (fun node => node_id node =? id) (d_nodes g).
Definition d_find_external (id : Z) : option ExternalValue :=
  find_if (fun value => ext_id value =? id) (d_externalValues g).
Definition d_find_constant (id : Z) : option ConstantValue :=
  find_if (fun value => const_id value =? id) (d_constants g).

Definition indexValues : list DFGDiagnostic :=
  ((fun _ => at_nothing DFG_ID_DUPLICATE_NODE) <$> duplicates node_id [] (d_nodes g)) ++
  ((fun _ => at_nothing DFG_ID_DUPLICATE_EDGE) <$> duplicates edge_id [] (d_edges g)) ++
  ((fun _ => at_nothing DFG_ID_DUPLICATE_EXTERNAL) <$>
     duplicates ext_id [] (d_externalValues g)) ++
  ((fun _ => at_nothing DFG_ID_DUPLICATE_CONSTANT) <$>
     duplicates const_id [] (d_constants g)) ++
  ((fun _ => at_nothing DFG_ID_DUPLICATE_LIVEOUT) <$> duplicates lo_id [] (d_liveOuts g)).

Definition known (id : Z) : bool := bool_decide (is_Some (d_find_node id)).

Definition structure_edge_diags (edge : Edge) : list DFGDiagnostic :=
  when (negb (known (edge_src edge))) [at_edge DFG_EDGE_UNKNOWN_SOURCE (edge_id edge)] ++
  when (negb (known (edge_dst edge))) [at_edge DFG_EDGE_UNKNOWN_DESTINATION (edge_id edge)].

Definition structure_binding_diags (binding : OperandBinding) : list DFGDiagnostic :=
  when (negb (known (ob_node binding)))
    [at_operand DFG_BINDING_UNKNOWN_NODE (ob_node binding) (ob_operand binding)] ++
  match ob_source binding with
  | ExternalValueRef value =>
      when (bool_decide (d_find_external value = None))
        [dd_add DFG_BINDING_UNKNOWN_EXTERNAL (Some (ob_node binding)) None
           (Some (ob_operand binding)) (Some value) None None]
  | ConstantRef value =>
      when (bool_decide (d_find_constant value = None))
        [dd_add DFG_BINDING_UNKNOWN_CONSTANT (Some (ob_node binding)) None
           (Some (ob_operand binding)) None (Some value) None]
  end.

Definition verifyStructure : list DFGDiagnostic :=
  flat_map structure_edge_diags (d_edges g) ++ flat_map structure_binding_diags (d_bindings g).

Definition node_type_diags (node : Node) : list DFGDiagnostic :=
  when (negb (isValidType (node_resultType node)))
    [at_node DFG_RESULT_TYPE_INVALID (node_id node)] ++
  flat_map (fun '(index, type) =>
    when (negb (isValidType type)) [at_operand DFG_TYPE_INVALID (node_id node) index])
    (enumerate (node_operandTypes node)).

Definition verifyValueTypes : list DFGDiagnostic :=
  flat_map (fun value => when (negb (isValidType (ext_type value)))
    [dd_add DFG_TYPE_INVALID None None None (Some (ext_id value)) None None])
    (d_externalValues g) ++
  flat_map (fun value => when (negb (isValidType (const_type value)))
    [dd_add DFG_TYPE_INVALID None None None None (Some (const_id value)) None])
    (d_constants g) ++
  flat_map node_type_diags (d_nodes g).

(** [indexProviders]: one key per value edge and per binding whose node is known
    and has the operand. *)
Definition has_operand (node operand : Z) : bool :=
  match d_find_node node with
  | Some found => operand <? Z.of_nat (length (node_operandTypes found))
  | None => false
  end.

Definition indexProviders : list (Z * Z) :=
  filter (fun key => has_operand key.1 key.2 = true) (omap edge_provider (d_edges g)) ++
  filter (fun key => has_operand key.1 key.2 = true) (binding_key <$> d_bindings g).

Definition d_provider_count (node operand : Z) : Z :=
  Z.of_nat (length (filter (fun key => key = (node, operand)) indexProviders)).

Definition binding_type_diags (binding : OperandBinding) : list DFGDiagnostic :=
  match d_find_node (ob_node binding) with
  | None => []
  | Some node =>
      match node_operandTypes node !! nat_of (ob_operand binding) with
      | None => [at_operand DFG_OPERAND_INDEX_OUT_OF_RANGE (ob_node binding) (ob_operand binding)]
      | Some expected =>
          match ob_source binding with
          | ExternalValueRef value =>
              match d_find_external value with
              | Some found => when (bool_decide (ext_type found <> expected))
                  [dd_add DFG_OPERAND_TYPE_MISMATCH (Some (ob_node binding)) None
                     (Some (ob_operand binding)) (Some value) None None]
              | None => []
              end
          | ConstantRef value =>
              match d_find_constant value with
              | Some found => when (bool_decide (const_type found <> expected))
                  [dd_add DFG_OPERAND_TYPE_MISMATCH (Some (ob_node binding)) None
                     (Some (ob_operand binding)) None (Some value) None]
              | None => []
              end
          end
      end
  end.

Definition provider_diags (node : Node) : list DFGDiagnostic :=
  flat_map (fun '(operand, _) =>
    if d_provider_count (node_id node) operand =? 0
    then [at_operand DFG_OPERAND_MISSING_PROVIDER (node_id node) operand]
    else when (1 <? d_provider_count (node_id node) operand)
           [at_operand DFG_OPERAND_DUPLICATE_PROVIDER (node_id node) operand])
    (enumerate (node_operandTypes node)).

Definition verifyBindingsAndProviders : list DFGDiagnostic :=
  flat_map binding_type_diags (d_bindings g) ++ flat_map provider_diags (d_nodes g).

(** The value a boundary entry names: its type, or the diagnostic. *)
Definition boundary_source (edge : Edge) (value : ExternalOperandBinding)
  : DFGDiagnostic + ValueType :=
  match value with
  | ExternalValueRef id =>
      match d_find_external id with
      | None => inl (dd_add DFG_RECURRENCE_BOUNDARY_SOURCE_UNKNOWN None (Some (edge_id edge))
                       None (Some id) None None)
      | Some found => inr (ext_type found)
      end
  | ConstantRef id =>
      match d_find_constant id with
      | None => inl (dd_add DFG_RECURRENCE_BOUNDARY_SOURCE_UNKNOWN None (Some (edge_id edge))
                       None None (Some id) None)
      | Some found => inr (const_type found)
      end
  end.

(** The loop over the boundary values; [offsets] is the set of those seen. *)
Fixpoint boundary_loop (edge : Edge) (expectedType : ValueType) (offsets : list Z)
    (values : list RecurrenceBoundaryValue) : list DFGDiagnostic :=
  match values with
  | [] => []
  | value :: values =>
      if edge_distance edge <=? rbv_iterationOffset value then
        at_edge DFG_RECURRENCE_BOUNDARY_OFFSET_OUT_OF_RANGE (edge_id edge) ::
        boundary_loop edge expectedType offsets values
      else
        when (bool_decide (rbv_iterationOffset value ∈ offsets))
          [at_edge DFG_RECURRENCE_BOUNDARY_DUPLICATE_OFFSET (edge_id edge)] ++
        match boundary_source edge (rbv_value value) with
        | inl diagnostic => [diagnostic]
        | inr provided =>
            when (bool_decide (provided <> expectedType))
              [at_edge DFG_RECURRENCE_BOUNDARY_TYPE_MISMATCH (edge_id edge)]
        end ++ boundary_loop edge expectedType (rbv_iterationOffset value :: offsets) values
  end.

Definition verifyBoundary (edge : Edge) (boundary : option RecurrenceBoundary)
    (expectedType : ValueType) : list DFGDiagnostic :=
  if edge_distance edge =? 0 then
    when (bool_decide (boundary <> None))
      [at_edge DFG_RECURRENCE_BOUNDARY_OFFSET_OUT_OF_RANGE (edge_id edge)]
  else match boundary with
       | None => [at_edge DFG_RECURRENCE_BOUNDARY_MISSING (edge_id edge)]
       | Some values =>
           if negb (Z.of_nat (length values) =? edge_distance edge)
           then [at_edge DFG_RECURRENCE_BOUNDARY_MISSING (edge_id edge)]
           else boundary_loop edge expectedType [] values
       end.

Definition verifyDataEdge (edge : Edge) (operand : Z) (boundary : option RecurrenceBoundary)
    (source destination : Node) : list DFGDiagnostic :=
  match node_operandTypes destination !! nat_of operand with
  | None =>
      [at_edge_operand DFG_OPERAND_INDEX_OUT_OF_RANGE (node_id destination) (edge_id edge) operand;
       at_edge_operand DFG_DATA_EDGE_INVALID_DEST_OPERAND (node_id destination) (edge_id edge)
         operand]
  | Some type =>
      match vt_kind (node_resultType source) with
      | KVoid => [at_edge_operand DFG_VOID_VALUE_USED (node_id source) (edge_id edge) operand]
      | KPredicate => [at_edge_operand DFG_DATA_EDGE_INVALID_SOURCE_TYPE (node_id source)
                         (edge_id edge) operand]
      | _ => []
      end ++
      when (bool_decide (vt_kind type = KPredicate))
        [at_edge_operand DFG_OPERAND_INVALID_EDGE_KIND (node_id destination) (edge_id edge)
           operand] ++
      when (isValidType (node_resultType source) && isValidType type &&
            bool_decide (node_resultType source <> type))
        [at_edge_operand DFG_EDGE_VALUE_TYPE_MISMATCH (node_id destination) (edge_id edge)
           operand] ++
      verifyBoundary edge boundary type
  end.

Definition verifyPredicateEdge (edge : Edge) (operand : Z) (boundary : option RecurrenceBoundary)
    (source destination : Node) : list DFGDiagnostic :=
  match node_operandTypes destination !! nat_of operand with
  | None =>
      [at_edge_operand DFG_OPERAND_INDEX_OUT_OF_RANGE (node_id destination) (edge_id edge) operand;
       at_edge_operand DFG_PRED_EDGE_INVALID_DEST_OPERAND (node_id destination) (edge_id edge)
         operand]
  | Some type =>
      when (negb (isPredicateType (node_resultType source)))
        [at_edge_operand DFG_PRED_EDGE_INVALID_SOURCE_TYPE (node_id source) (edge_id edge)
           operand] ++
      when (negb (isPredicateType type))
        [at_edge_operand DFG_OPERAND_INVALID_EDGE_KIND (node_id destination) (edge_id edge)
           operand] ++
      when (isValidType (node_resultType source) && isValidType type &&
            bool_decide (node_resultType source <> type))
        [at_edge_operand DFG_EDGE_VALUE_TYPE_MISMATCH (node_id destination) (edge_id edge)
           operand] ++
      verifyBoundary edge boundary type
  end.

Definition memory_end (edge : Edge) (code : DFGDiagnosticCode) (node : Node) (opcode : Opcode)
  : list DFGDiagnostic :=
  when (bool_decide (node_opcode node <> opcode))
    [dd_add code (Some (node_id node)) (Some (edge_id edge)) None None None None].

Definition verifyMemoryEdge (edge : Edge) (dependence : MemoryDepKind) (source destination : Node)
  : list DFGDiagnostic :=
  let ends from to :=
    memory_end edge DFG_MEMORY_EDGE_INVALID_SOURCE source from ++
    memory_end edge DFG_MEMORY_EDGE_INVALID_DESTINATION destination to in
  match dependence with
  | RAW => ends OpStore OpLoad
  | WAR => ends OpLoad OpStore
  | WAW => ends OpStore OpStore
  end.

Definition verifyEdge (edge : Edge) : list DFGDiagnostic :=
  match d_find_node (edge_src edge), d_find_node (edge_dst edge) with
  | Some source, Some destination =>
      match edge_info edge with
      | DataEdgeInfo operand boundary => verifyDataEdge edge operand boundary source destination
      | PredicateEdgeInfo operand boundary =>
          verifyPredicateEdge edge operand boundary source destination
      | MemoryEdgeInfo dependence => verifyMemoryEdge edge dependence source destination
      end
  | _, _ => []
  end.

Definition verifyLiveOut (liveOut : LiveOut) : list DFGDiagnostic :=
  when (negb (isValidType (lo_type liveOut)))
    [dd_add DFG_TYPE_INVALID None None None None None (Some (lo_id liveOut))] ++
  match d_find_node (lo_source liveOut) with
  | None => [dd_add DFG_LIVEOUT_UNKNOWN_SOURCE None None None None None (Some (lo_id liveOut))]
  | Some node =>
      when (bool_decide (vt_kind (node_resultType node) = KVoid))
        [dd_add DFG_LIVEOUT_VOID_SOURCE (Some (lo_source liveOut)) None None None None
           (Some (lo_id liveOut))] ++
      when (isValidType (node_resultType node) && isValidType (lo_type liveOut) &&
            bool_decide (node_resultType node <> lo_type liveOut))
        [dd_add DFG_LIVEOUT_TYPE_MISMATCH (Some (lo_source liveOut)) None None None None
           (Some (lo_id liveOut))]
  end.

(** The keys of [expectedIncoming] and [expectedOutgoing], in map order. *)
Definition adjacency_keys : list Z := sort_by id (remove_dups (node_id <$> d_nodes g)).

(** A reader that throws and one that returns something else are both reported. *)
Definition readable {A} `{EqDecision A} (actual : result A) (expected : A)
    (diagnostic : DFGDiagnostic) : list DFGDiagnostic :=
  match actual with
  | Ok value => when (bool_decide (value <> expected)) [diagnostic]
  | Throw _ => [diagnostic]
  end.

Definition verifyAdjacency : list DFGDiagnostic :=
  flat_map (fun node => readable (d_node g (node_id node)) node
    (at_node DFG_ADJACENCY_INCONSISTENT (node_id node))) (d_nodes g) ++
  flat_map (fun edge => readable (d_edge g (edge_id edge)) edge
    (at_edge DFG_ADJACENCY_INCONSISTENT (edge_id edge))) (d_edges g) ++
  flat_map (fun node => readable (d_incomingOf g node) (d_in_edges (d_edges g) node)
    (at_node DFG_ADJACENCY_INCONSISTENT node)) adjacency_keys ++
  flat_map (fun node => readable (d_outgoingOf g node) (d_out_edges (d_edges g) node)
    (at_node DFG_ADJACENCY_INCONSISTENT node)) adjacency_keys.

Definition dfg_diagnostics : list DFGDiagnostic :=
  indexValues ++ verifyStructure ++ verifyValueTypes ++ flat_map verifyNode (d_nodes g) ++
  verifyBindingsAndProviders ++ flat_map verifyEdge (d_edges g) ++
  flat_map verifyLiveOut (d_liveOuts g) ++ verifyAdjacency.

Definition dfg_verify : DFGVerificationReport := foldl report_add report_empty dfg_diagnostics.
End Verify.

(** ** The typing judgement *)

(** A type of the language: integers and floats have a width, a predicate has
    one bit, and [void] none. *)
Inductive valid_type : ValueType -> Prop :=
  | valid_integer w : w <> 0 -> valid_type (vt_integer w)
  | valid_float w : w <> 0 -> valid_type (vt_floating w)
  | valid_predicate : valid_type vt_predicate
  | valid_void : valid_type voidTy.

Definition integer_type (type : ValueType) : Prop := exists w, w <> 0 /\ type = vt_integer w.

Definition data_type (type : ValueType) : Prop :=
  exists w, w <> 0 /\ (type = vt_integer w \/ type = vt_floating w).

Definition value_type (type : ValueType) : Prop := valid_type type /\ type <> voidTy.

(** [op_typed op operands result]: an operation of opcode [op] takes operands of
    these types to a result of this type. *)
Inductive op_typed : Opcode -> list ValueType -> ValueType -> Prop :=
  | typed_arithmetic op t :
      op ∈ [OpAdd; OpSub; OpMul] -> data_type t -> op_typed op [t; t] t
  | typed_logic op t : op ∈ [OpAnd; OpOr; OpXor] -> integer_type t -> op_typed op [t; t] t
  | typed_shift op t amount :
      op ∈ [OpShl; OpLShr; OpAShr] -> integer_type t -> integer_type amount ->
      op_typed op [t; amount] t
  | typed_icmp t : integer_type t -> op_typed OpICmp [t; t] vt_predicate
  | typed_select t : value_type t -> op_typed OpSelect [vt_predicate; t; t] t
  | typed_load address t : integer_type address -> value_type t -> op_typed OpLoad [address] t
  | typed_store address t :
      integer_type address -> value_type t -> op_typed OpStore [address; t] voidTy
  | typed_guarded_store address t :
      integer_type address -> value_type t ->
      op_typed OpStore [address; t; vt_predicate] voidTy.

(** The attributes an operation carries. *)
Definition attributes_ok (node : Node) : Prop :=
  (node_opcode node = OpICmp <-> node_icmpPredicate node <> None) /\
  match node_memoryInfo node with
  | None => node_opcode node <> OpLoad /\ node_opcode node <> OpStore
  | Some info =>
      (node_opcode node = OpLoad \/ node_opcode node = OpStore) /\
      mi_accessWidthBits info <> 0 /\ (8 | mi_accessWidthBits info)
  end.

Definition node_typed (node : Node) : Prop :=
  op_typed (node_opcode node) (node_operandTypes node) (node_resultType node) /\
  attributes_ok node.

Lemma isValidType_spec type : isValidType type = true <-> valid_type type.
Proof.
  destruct type as [[] w]; unfold isValidType; simpl; split; intros H.
  all: try (inversion H; subst; try done; apply negb_true_iff; lia).
  - apply valid_integer. lia.
  - apply Z.eqb_eq in H as ->. apply valid_predicate.
  - apply valid_float. lia.
  - apply Z.eqb_eq in H as ->. apply valid_void.
Qed.

Lemma isIntegerType_spec type : isIntegerType type = true <-> integer_type type.
Proof.
  unfold isIntegerType. rewrite andb_true_iff, isValidType_spec, bool_decide_eq_true. split.
  - intros [[] Hk]; try done. eexists; eauto.
  - intros (w & Hw & ->). split; [by apply valid_integer|done].
Qed.

Lemma isDataType_spec type : isDataType type = true <-> data_type type.
Proof.
  unfold isDataType.
  rewrite andb_true_iff, orb_true_iff, isValidType_spec, !bool_decide_eq_true. split.
  - intros [[w Hw|w Hw| |] Hk]; try (exists w; eauto); naive_solver.
  - intros (w & Hw & [->| ->]); (split; [by constructor|]); simpl; auto.
Qed.

Lemma isPredicateType_spec type : isPredicateType type = true <-> type = vt_predicate.
Proof.
  unfold isPredicateType. rewrite andb_true_iff, isValidType_spec, bool_decide_eq_true. split.
  - by intros [[] Hk].
  - intros ->. split; [apply valid_predicate|done].
Qed.

Lemma isNonVoidType_spec type : isNonVoidType type = true <-> value_type type.
Proof.
  unfold isNonVoidType, value_type.
  rewrite andb_true_iff, isValidType_spec, bool_decide_eq_true. split.
  - intros [H Hk]. split; [done|]. by intros ->.
  - intros [H Hk]. split; [done|]. by destruct H.
Qed.

Lemma integer_data type : integer_type type -> data_type type.
Proof. intros (w & Hw & ->). exists w. auto. Qed.

Lemma data_value type : data_type type -> value_type type.
Proof. intros (w & Hw & [->| ->]); split; by try constructor. Qed.

Lemma neq_false_iff `{EqDecision A} (x y : A) : bool_decide (x <> y) = false <-> x = y.
Proof. rewrite bool_decide_eq_false. destruct (decide (x = y)); naive_solver. Qed.

Local Hint Rewrite @neq_false_iff isIntegerType_spec isDataType_spec isPredicateType_spec
  isNonVoidType_spec isValidType_spec : report.

(** ** Nodes: no diagnostics exactly on typed nodes *)

Section Nodes.
Context (node : Node).

Lemma verifyBinary_nil integerOnly :
  verifyBinary node integerOnly = [] <->
  exists t, node_operandTypes node = [t; t] /\ node_resultType node = t /\
            if integerOnly then integer_type t else data_type t.
Proof.
  unfold verifyBinary, arity_diag.
  destruct (node_operandTypes node) as [|lhs [|rhs [|? ?]]]; try naive_solver.
  autorewrite with report. rewrite andb_false_iff. autorewrite with report. split.
  - intros ([[[Hl Hr] Hi] <-] & <-). exists (node_resultType node).
    split_and!; try done. destruct integerOnly; [by destruct Hi|done].
  - intros (t & [= -> ->] & -> & Ht).
    assert (data_type t) by (destruct integerOnly; auto using integer_data).
    destruct integerOnly; naive_solver.
Qed.

Lemma verifyShift_nil :
  verifyShift node = [] <->
  exists t amount, node_operandTypes node = [t; amount] /\ node_resultType node = t /\
                   integer_type t /\ integer_type amount.
Proof.
  unfold verifyShift, arity_diag.
  destruct (node_operandTypes node) as [|lhs [|rhs [|? ?]]]; try naive_solver.
  autorewrite with report. naive_solver.
Qed.

Lemma verifyICmp_nil :
  verifyICmp node = [] <->
  exists t, node_operandTypes node = [t; t] /\ node_resultType node = vt_predicate /\
            integer_type t.
Proof.
  unfold verifyICmp, arity_diag.
  destruct (node_operandTypes node) as [|lhs [|rhs [|? ?]]]; try naive_solver.
  autorewrite with report. naive_solver.
Qed.

Lemma verifySelect_nil :
  verifySelect node = [] <->
  exists t, node_operandTypes node = [vt_predicate; t; t] /\ node_resultType node = t /\
            value_type t.
Proof.
  unfold verifySelect, arity_diag.
  destruct (node_operandTypes node) as [|c [|t [|e [|? ?]]]]; try naive_solver.
  autorewrite with report. naive_solver.
Qed.

Lemma verifyLoad_nil :
  verifyLoad node = [] <->
  exists address, node_operandTypes node = [address] /\ integer_type address /\
                  value_type (node_resultType node).
Proof.
  unfold verifyLoad, arity_diag.
  destruct (node_operandTypes node) as [|a [|? ?]]; try naive_solver.
  autorewrite with report. naive_solver.
Qed.

Lemma verifyStore_nil :
  verifyStore node = [] <->
  node_resultType node = voidTy /\
  exists address t, integer_type address /\ value_type t /\
    (node_operandTypes node = [address; t] \/
     node_operandTypes node = [address; t; vt_predicate]).
Proof.
  unfold verifyStore, arity_diag. autorewrite with report.
  destruct (node_operandTypes node) as [|a [|t [|p [|? ?]]]]; autorewrite with report;
    naive_solver.
Qed.

Lemma verifyMetadata_nil : verifyMetadata node = [] <-> attributes_ok node.
Proof.
  unfold verifyMetadata, attributes_ok, isMemoryOpcode. rewrite app_nil_iff. f_equiv.
  - case_bool_decide; autorewrite with report; rewrite bool_decide_eq_false; [naive_solver|].
    destruct (node_icmpPredicate node); naive_solver.
  - rewrite <- bool_decide_or. case_bool_decide as Hm.
    + destruct (node_memoryInfo node) as [info|]; autorewrite with report; [|naive_solver].
      rewrite Z.eqb_neq, <- Z.mod_divide by done. naive_solver.
    + autorewrite with report. destruct (node_memoryInfo node); naive_solver.
Qed.

Local Ltac split_typed :=
  repeat match goal with
  | H : exists _, _ |- _ => destruct H
  | H : _ /\ _ |- _ => destruct H
  | H : _ \/ _ |- _ => destruct H
  end;
  repeat match goal with
  | H : node_operandTypes _ = _ |- _ => rewrite H; clear H
  | H : node_resultType _ = _ |- _ => rewrite H; clear H
  end.

(** A node is reported unless it is typed. *)
Lemma verifyNode_nil : verifyNode node = [] <-> node_typed node.
Proof.
  unfold verifyNode, node_typed. rewrite app_nil_iff, verifyMetadata_nil. f_equiv.
  destruct (node_opcode node) eqn:Eop;
    rewrite ?verifyBinary_nil, ?verifyShift_nil, ?verifyICmp_nil, ?verifySelect_nil,
      ?verifyLoad_nil, ?verifyStore_nil.
  all: split; [intros H; split_typed; subst; econstructor; eauto; set_solver
              |intros H; inversion H; subst; try set_solver; eauto 10].
Qed.
End Nodes.
(** ** Well-formed graphs *)

Section Valid.
Context (g : DFG).

(** The type of a named value. *)
Definition source_type (source : ExternalOperandBinding) : option ValueType :=
  match source with
  | ExternalValueRef id => ext_type <$> d_find_external g id
  | ConstantRef id => const_type <$> d_find_constant g id
  end.

Definition operand_type (node operand : Z) (type : ValueType) : Prop :=
  exists found, d_find_node g node = Some found /\
                node_operandTypes found !! nat_of operand = Some type.

(** One initial value, of the operand's type, for every iteration that reads the
    edge before its source has run. *)
Definition boundary_typed (distance : Z) (boundary : option RecurrenceBoundary)
    (type : ValueType) : Prop :=
  match boundary with
  | None => distance = 0
  | Some values =>
      distance <> 0 /\ Z.of_nat (length values) = distance /\
      NoDup (rbv_iterationOffset <$> values) /\
      forall value, value ∈ values -> rbv_iterationOffset value < distance /\
        source_type (rbv_value value) = Some type
  end.

Definition memory_ends (dependence : MemoryDepKind) : Opcode * Opcode :=
  match dependence with
  | RAW => (OpStore, OpLoad)
  | WAR => (OpLoad, OpStore)
  | WAW => (OpStore, OpStore)
  end.

(** An edge carries the value its source produces to an operand of that type, or
    orders two memory accesses. *)
Definition edge_typed (edge : Edge) : Prop :=
  exists source destination,
    d_find_node g (edge_src edge) = Some source /\
    d_find_node g (edge_dst edge) = Some destination /\
    match edge_info edge with
    | DataEdgeInfo operand boundary =>
        data_type (node_resultType source) /\
        node_operandTypes destination !! nat_of operand = Some (node_resultType source) /\
        boundary_typed (edge_distance edge) boundary (node_resultType source)
    | PredicateEdgeInfo operand boundary =>
        node_resultType source = vt_predicate /\
        node_operandTypes destination !! nat_of operand = Some vt_predicate /\
        boundary_typed (edge_distance edge) boundary vt_predicate
    | MemoryEdgeInfo dependence =>
        (node_opcode source, node_opcode destination) = memory_ends dependence
    end.

Definition binding_typed (binding : OperandBinding) : Prop :=
  exists type, operand_type (ob_node binding) (ob_operand binding) type /\
               source_type (ob_source binding) = Some type.

Definition liveOut_typed (liveOut : LiveOut) : Prop :=
  value_type (lo_type liveOut) /\
  exists node, d_find_node g (lo_source liveOut) = Some node /\
               node_resultType node = lo_type liveOut.

(** The graph part of the judgement: names, types, providers. *)
Record DFG_typed : Prop := {
  dt_externals : forall value, value ∈ d_externalValues g -> valid_type (ext_type value);
  dt_constants : forall value, value ∈ d_constants g -> valid_type (const_type value);
  dt_nodes : forall node, node ∈ d_nodes g -> node_typed node;
  dt_bindings : forall binding, binding ∈ d_bindings g -> binding_typed binding;
  dt_edges : forall edge, edge ∈ d_edges g -> edge_typed edge;
  dt_liveOuts : forall liveOut, liveOut ∈ d_liveOuts g -> liveOut_typed liveOut;
  dt_providers : forall node operand, node ∈ d_nodes g ->
    0 <= operand < Z.of_nat (length (node_operandTypes node)) ->
    exactly_once (node_id node, operand) (providers (d_edges g) (d_bindings g))
}.

(** The container part: distinct identifiers, and accessors that agree with the
    stored vectors. *)
Record DFG_coherent : Prop := {
  dc_nodes : NoDup (node_id <$> d_nodes g);
  dc_edges : NoDup (edge_id <$> d_edges g);
  dc_externals : NoDup (ext_id <$> d_externalValues g);
  dc_constants : NoDup (const_id <$> d_constants g);
  dc_liveOuts : NoDup (lo_id <$> d_liveOuts g);
  dc_node : forall node, node ∈ d_nodes g -> d_node g (node_id node) = Ok node;
  dc_edge : forall edge, edge ∈ d_edges g -> d_edge g (edge_id edge) = Ok edge;
  dc_incoming : forall node, node ∈ d_nodes g ->
    d_incomingOf g (node_id node) = Ok (d_in_edges (d_edges g) (node_id node));
  dc_outgoing : forall node, node ∈ d_nodes g ->
    d_outgoingOf g (node_id node) = Ok (d_out_edges (d_edges g) (node_id node))
}.

(** *** Values *)

Lemma verifyValueTypes_nil :
  verifyValueTypes g = [] <->
  (forall value, value ∈ d_externalValues g -> valid_type (ext_type value)) /\
  (forall value, value ∈ d_constants g -> valid_type (const_type value)) /\
  (forall node, node ∈ d_nodes g -> node_type_diags node = []).
Proof.
  unfold verifyValueTypes. autorewrite with report.
  setoid_rewrite when_cons_nil. setoid_rewrite negb_false_iff.
  by setoid_rewrite isValidType_spec.
Qed.

Lemma node_type_diags_nil node :
  node_type_diags node = [] <->
  valid_type (node_resultType node) /\ Forall valid_type (node_operandTypes node).
Proof.
  unfold node_type_diags. autorewrite with report. f_equiv. rewrite Forall_lookup. split.
  - intros H i type Hi. specialize (H (Z.of_nat i, type)).
    rewrite elem_of_enumerate, Nat2Z.id in H. specialize (H (conj (Nat2Z.is_nonneg i) Hi)).
    by autorewrite with report in H.
  - intros H [i type] Hi. apply elem_of_enumerate in Hi as [_ Hi]. autorewrite with report.
    by eapply H.
Qed.

Lemma node_typed_types node : node_typed node -> node_type_diags node = [].
Proof.
  intros [H _]. apply node_type_diags_nil.
  assert (Hd : forall t, data_type t -> valid_type t) by (intros t Ht; by apply data_value in Ht as []).
  assert (Hi : forall t, integer_type t -> valid_type t) by auto using integer_data.
  assert (Hv : forall t, value_type t -> valid_type t) by (by intros t []).
  destruct H; split; repeat constructor; auto.
Qed.

(** *** Recurrence boundaries *)

Lemma boundary_loop_nil edge type offsets values :
  boundary_loop g edge type offsets values = [] <->
  NoDup (rbv_iterationOffset <$> values) /\
  forall value, value ∈ values ->
    rbv_iterationOffset value < edge_distance edge /\
    rbv_iterationOffset value ∉ offsets /\ source_type (rbv_value value) = Some type.
Proof.
  revert offsets. induction values as [|value values IH]; intros offsets; simpl.
  { split; [|done]. intros _. split; [apply NoDup_nil_2|]. intros v Hv.
    by apply not_elem_of_nil in Hv. }
  rewrite NoDup_cons. destruct (Z.leb_spec (edge_distance edge) (rbv_iterationOffset value)).
  { split; [done|]. intros [_ Hv]. specialize (Hv value ltac:(left)). lia. }
  rewrite !app_nil_iff, when_cons_nil, bool_decide_eq_false, IH.
  assert (Hs : match boundary_source g edge (rbv_value value) with
               | inl diagnostic => [diagnostic]
               | inr provided => when (bool_decide (provided <> type))
                   [at_edge DFG_RECURRENCE_BOUNDARY_TYPE_MISMATCH (edge_id edge)]
               end = [] <-> source_type (rbv_value value) = Some type).
  { unfold boundary_source, source_type. destruct (rbv_value value) as [id|id].
    - destruct (d_find_external g id); simpl; autorewrite with report; naive_solver.
    - destruct (d_find_constant g id); simpl; autorewrite with report; naive_solver. }
  rewrite Hs. clear Hs IH. split.
  - intros (Hnew & Hty & Hnd & Hall). split_and!; [|done|].
    + intros Hin. apply list_elem_of_fmap in Hin as (v & Ev & Hin).
      apply Hall in Hin as (_ & Hn & _). apply Hn. rewrite <- Ev. left.
    + intros v Hin. apply elem_of_cons in Hin as [->|Hin]; [done|].
      apply Hall in Hin as (Hlt & Hn & Ht). split_and!; [done| |done]. set_solver.
  - intros ((Hnew & Hnd) & Hall).
    destruct (Hall value ltac:(left)) as (Hlt & Hn & Ht). split_and!; [done..|].
    intros v Hin. destruct (Hall v ltac:(by right)) as (Hlt' & Hn' & Ht').
    split_and!; [done| |done]. rewrite not_elem_of_cons. split; [|done].
    intros Ev. apply Hnew. rewrite <- Ev. by apply list_elem_of_fmap_2.
Qed.

Lemma verifyBoundary_nil edge boundary type :
  verifyBoundary g edge boundary type = [] <->
  boundary_typed (edge_distance edge) boundary type.
Proof.
  unfold verifyBoundary, boundary_typed. destruct (Z.eqb_spec (edge_distance edge) 0) as [E|E].
  - autorewrite with report. rewrite bool_decide_eq_false. destruct boundary; naive_solver.
  - destruct boundary as [values|]; [|done].
    destruct (Z.eqb_spec (Z.of_nat (length values)) (edge_distance edge)); simpl; [|naive_solver].
    rewrite boundary_loop_nil. setoid_rewrite elem_of_nil. naive_solver.
Qed.

(** *** Edges, bindings and live-outs *)

(** The three checks of a data edge leave exactly a data type. *)
Lemma data_edge_types (source type : ValueType) (D1 D2 D3 D4 : DFGDiagnostic) :
  valid_type source -> valid_type type ->
  match vt_kind source with KVoid => [D1] | KPredicate => [D2] | _ => [] end ++
  when (bool_decide (vt_kind type = KPredicate)) [D3] ++
  when (isValidType source && isValidType type && bool_decide (source <> type)) [D4] = [] <->
  data_type source /\ type = source.
Proof.
  intros Hs%isValidType_spec Ht%isValidType_spec.
  rewrite Hs, Ht. simpl. autorewrite with report. rewrite bool_decide_eq_false. split.
  - intros (Hk & Hp & ->). split; [|done]. apply isDataType_spec. unfold isDataType. rewrite Ht.
    by destruct (vt_kind type).
  - intros ((w & Hw & Hd) & ->). destruct Hd as [-> | ->]; done.
Qed.

Lemma verifyDataEdge_nil edge operand boundary source destination :
  valid_type (node_resultType source) -> Forall valid_type (node_operandTypes destination) ->
  verifyDataEdge g edge operand boundary source destination = [] <->
  data_type (node_resultType source) /\
  node_operandTypes destination !! nat_of operand = Some (node_resultType source) /\
  boundary_typed (edge_distance edge) boundary (node_resultType source).
Proof.
  intros Hs Hd. unfold verifyDataEdge.
  destruct (node_operandTypes destination !! nat_of operand) as [type|] eqn:Et; [|naive_solver].
  assert (valid_type type) by (eapply Forall_lookup; eauto).
  rewrite !app_assoc, <- !app_assoc, (app_assoc _ _ (verifyBoundary _ _ _ _)), (app_assoc _ (_ ++ _)).
  rewrite app_nil_iff, data_edge_types by done. rewrite verifyBoundary_nil. naive_solver.
Qed.

Lemma verifyPredicateEdge_nil edge operand boundary source destination :
  verifyPredicateEdge g edge operand boundary source destination = [] <->
  node_resultType source = vt_predicate /\
  node_operandTypes destination !! nat_of operand = Some vt_predicate /\
  boundary_typed (edge_distance edge) boundary vt_predicate.
Proof.
  unfold verifyPredicateEdge.
  destruct (node_operandTypes destination !! nat_of operand) as [type|] eqn:Et; [|naive_solver].
  autorewrite with report. rewrite verifyBoundary_nil, andb_false_iff. autorewrite with report.
  naive_solver.
Qed.

Lemma verifyMemoryEdge_nil edge dependence source destination :
  verifyMemoryEdge edge dependence source destination = [] <->
  (node_opcode source, node_opcode destination) = memory_ends dependence.
Proof.
  unfold verifyMemoryEdge, memory_end, memory_ends.
  destruct dependence; autorewrite with report; (split; [by intros [-> ->]|by intros [= -> ->]]).
Qed.

Lemma known_true id : known g id = true <-> is_Some (d_find_node g id).
Proof. apply bool_decide_eq_true. Qed.

Lemma d_find_node_elem id node : d_find_node g id = Some node -> node ∈ d_nodes g.
Proof. intros H. by apply find_if_Some in H as [? ?]. Qed.

Lemma edge_diags_typed edge :
  (forall node, node ∈ d_nodes g -> node_typed node) ->
  structure_edge_diags g edge = [] /\ verifyEdge g edge = [] <-> edge_typed edge.
Proof.
  intros Hnodes. unfold structure_edge_diags, verifyEdge, edge_typed.
  autorewrite with report. rewrite !known_true.
  destruct (d_find_node g (edge_src edge)) as [source|] eqn:Es; [|naive_solver].
  destruct (d_find_node g (edge_dst edge)) as [destination|] eqn:Ed; [|naive_solver].
  apply d_find_node_elem, Hnodes, node_typed_types, node_type_diags_nil in Es as [Hs _].
  apply d_find_node_elem, Hnodes, node_typed_types, node_type_diags_nil in Ed as [_ Hd].
  destruct (edge_info edge) as [operand boundary|operand boundary|dependence];
    rewrite ?verifyDataEdge_nil, ?verifyPredicateEdge_nil, ?verifyMemoryEdge_nil by done;
    naive_solver.
Qed.

Lemma binding_diags_typed binding :
  structure_binding_diags g binding = [] /\ binding_type_diags g binding = [] <->
  binding_typed binding.
Proof.
  unfold structure_binding_diags, binding_type_diags, binding_typed, operand_type, source_type.
  autorewrite with report. rewrite known_true.
  destruct (d_find_node g (ob_node binding)) as [node|]; [|naive_solver].
  destruct (node_operandTypes node !! nat_of (ob_operand binding)) as [type|] eqn:Et;
    [|naive_solver].
  destruct (ob_source binding) as [id|id].
  - destruct (d_find_external g id); simpl; autorewrite with report; naive_solver.
  - destruct (d_find_constant g id); simpl; autorewrite with report; naive_solver.
Qed.

Lemma verifyLiveOut_nil liveOut :
  (forall node, node ∈ d_nodes g -> node_typed node) ->
  verifyLiveOut g liveOut = [] <-> liveOut_typed liveOut.
Proof.
  intros Hnodes. unfold verifyLiveOut, liveOut_typed, value_type. autorewrite with report.
  destruct (d_find_node g (lo_source liveOut)) as [node|] eqn:En; [|naive_solver].
  apply d_find_node_elem, Hnodes, node_typed_types, node_type_diags_nil in En as [Hv _].
  apply isValidType_spec in Hv. rewrite Hv. autorewrite with report.
  rewrite bool_decide_eq_false, !andb_false_iff. autorewrite with report.
  rewrite <- isValidType_spec. split.
  - intros (Hl & Hk & [[[=]|?]|Ht]); [congruence|]. rewrite <- Ht. split_and!; try done; [|eauto].
    intros E. by rewrite E in Hk.
  - intros ((Hl & Hne) & node' & [= <-] & Et). split_and!; [done| |by right].
    rewrite Et. intros Hk. apply Hne. apply isValidType_spec in Hl. by destruct Hl.
Qed.
End Valid.
(** *** Providers and adjacency *)

Section Whole.
Context (g : DFG).

Lemma indexValues_nil :
  indexValues g = [] <->
  NoDup (node_id <$> d_nodes g) /\ NoDup (edge_id <$> d_edges g) /\
  NoDup (ext_id <$> d_externalValues g) /\ NoDup (const_id <$> d_constants g) /\
  NoDup (lo_id <$> d_liveOuts g).
Proof. unfold indexValues. by autorewrite with report. Qed.

(** With distinct identifiers, looking a stored node up finds it. *)
Lemma d_find_node_stored node :
  NoDup (node_id <$> d_nodes g) -> node ∈ d_nodes g ->
  d_find_node g (node_id node) = Some node.
Proof.
  intros Hnd Hn. by apply (find_if_unique node_id).
Qed.

(** The guards of [indexProviders] drop no provider of an operand that exists. *)
Lemma provider_count_exact node operand :
  NoDup (node_id <$> d_nodes g) -> node ∈ d_nodes g ->
  0 <= operand < Z.of_nat (length (node_operandTypes node)) ->
  d_provider_count g (node_id node) operand = 1 <->
  exactly_once (node_id node, operand) (providers (d_edges g) (d_bindings g)).
Proof.
  intros Hnd Hn Ho. rewrite exactly_once_filter. unfold d_provider_count, indexProviders, providers.
  assert (Hhas : has_operand g (node_id node) operand = true).
  { unfold has_operand. rewrite d_find_node_stored by done. lia. }
  assert (Hfilter : forall l : list (Z * Z), filter (fun key => key = (node_id node, operand))
            (filter (fun key => has_operand g key.1 key.2 = true) l) =
          filter (fun key => key = (node_id node, operand)) l).
  { intros l. rewrite list_filter_filter. apply list_filter_ext_in. intros key _.
    split; [by intros []|]. by intros ->. }
  rewrite !filter_app, !Hfilter. lia.
Qed.

Lemma provider_diags_nil_iff node :
  provider_diags g node = [] <->
  forall operand, 0 <= operand < Z.of_nat (length (node_operandTypes node)) ->
    d_provider_count g (node_id node) operand = 1.
Proof.
  unfold provider_diags. autorewrite with report. split.
  - intros H operand Ho.
    destruct (lookup_lt_is_Some_2 (node_operandTypes node) (nat_of operand)) as [type Ht]; [lia|].
    specialize (H (operand, type)). rewrite elem_of_enumerate in H.
    specialize (H ltac:(split; [lia|done])). cbn beta match in H.
    destruct (Z.eqb_spec (d_provider_count g (node_id node) operand) 0); [done|].
    autorewrite with report in H. unfold d_provider_count in *. lia.
  - intros H [operand type] Ho. apply elem_of_enumerate in Ho as [H0 Ho].
    apply lookup_lt_Some in Ho. rewrite H by lia. done.
Qed.

Lemma readable_nil `{EqDecision A} (actual : result A) expected D :
  readable actual expected D = [] <-> actual = Ok expected.
Proof.
  unfold readable. destruct actual; autorewrite with report; rewrite ?neq_false_iff; naive_solver.
Qed.

Lemma elem_of_adjacency_keys k :
  k ∈ adjacency_keys g <-> exists node, node ∈ d_nodes g /\ node_id node = k.
Proof.
  unfold adjacency_keys. rewrite elem_of_sort_by, elem_of_remove_dups, list_elem_of_fmap.
  naive_solver.
Qed.

Lemma verifyAdjacency_nil :
  verifyAdjacency g = [] <->
  (forall node, node ∈ d_nodes g -> d_node g (node_id node) = Ok node) /\
  (forall edge, edge ∈ d_edges g -> d_edge g (edge_id edge) = Ok edge) /\
  (forall node, node ∈ d_nodes g ->
     d_incomingOf g (node_id node) = Ok (d_in_edges (d_edges g) (node_id node))) /\
  (forall node, node ∈ d_nodes g ->
     d_outgoingOf g (node_id node) = Ok (d_out_edges (d_edges g) (node_id node))).
Proof.
  unfold verifyAdjacency. autorewrite with report.
  setoid_rewrite readable_nil. setoid_rewrite elem_of_adjacency_keys.
  do 2 apply and_iff_compat_l. apply Morphisms_Prop.and_iff_morphism; naive_solver.
Qed.

(** No diagnostics: the graph is coherent and typed. *)
Lemma dfg_diagnostics_nil : dfg_diagnostics g = [] <-> DFG_coherent g /\ DFG_typed g.
Proof.
  unfold dfg_diagnostics, verifyStructure, verifyBindingsAndProviders.
  rewrite !app_nil_iff, indexValues_nil, verifyValueTypes_nil, verifyAdjacency_nil,
    !flat_map_nil_iff.
  setoid_rewrite verifyNode_nil. setoid_rewrite provider_diags_nil_iff. split.
  - intros H. destruct_and?. split; split; try done.
    + intros b Hb. apply binding_diags_typed. auto.
    + intros e He. apply edge_diags_typed; auto.
    + intros l Hl. apply verifyLiveOut_nil; auto.
    + intros n o Hn Ho. apply provider_count_exact; auto.
  - intros [[] []]. split_and!; try done.
    + intros e He. by apply edge_diags_typed; auto.
    + intros b Hb. by apply binding_diags_typed; auto.
    + auto using node_typed_types.
    + intros b Hb. by apply binding_diags_typed; auto.
    + intros n Hn o Ho. apply provider_count_exact; auto.
    + intros e He. by apply edge_diags_typed; auto.
    + intros l Hl. apply verifyLiveOut_nil; auto.
Qed.
End Whole.

(** Every diagnostic of a report is an error, and they are counted. *)
Lemma reports_errors report diagnostics :
  (forall d, d ∈ diagnostics -> dd_severity d = SevError) ->
  foldl report_add report diagnostics =
  mkDFGReport (rep_diagnostics report ++ diagnostics)
    (rep_errorCount report + Z.of_nat (length diagnostics)) (rep_warningCount report).
Proof.
  revert report. induction diagnostics as [|d l IH]; intros report Hd; simpl.
  - rewrite app_nil_r, Z.add_0_r. by destruct report.
  - rewrite IH by (intros; apply Hd; by right). unfold report_add.
    rewrite (Hd d ltac:(left)). simpl. rewrite <- app_assoc. f_equal. lia.
Qed.
(** ** What no report says

    [Forall P] over a list of diagnostics, by the shape of the code that emits
    it. *)

Lemma Forall_when {A} (P : A -> Prop) b l : (b = true -> Forall P l) -> Forall P (when b l).
Proof. destruct b; simpl; auto. Qed.

Lemma Forall_flat_map_in {A B} (P : B -> Prop) (f : A -> list B) l :
  (forall x, x ∈ l -> Forall P (f x)) -> Forall P (flat_map f l).
Proof.
  intros H. apply Forall_forall. intros y Hy. apply elem_of_flat_map in Hy as (x & Hx & Hy).
  by eapply (proj1 (Forall_forall P _)); [apply H|].
Qed.

Lemma Forall_fmap_in {A B} (P : B -> Prop) (f : A -> B) l :
  (forall x, x ∈ l -> P (f x)) -> Forall P (f <$> l).
Proof. intros H. by apply Forall_fmap, Forall_forall. Qed.

Ltac all_diags :=
  repeat first
    [ apply Forall_nil_2 | apply Forall_app_2 | apply Forall_when; intros ?
    | apply Forall_flat_map_in; intros [? ?] ? | apply Forall_flat_map_in; intros ? ?
    | apply Forall_fmap_in; intros ? ?
    | progress case_match | apply Forall_cons_2 ].

Definition is_error (diagnostic : DFGDiagnostic) : Prop := dd_severity diagnostic = SevError.

Lemma boundary_loop_Forall (P : DFGDiagnostic -> Prop) g edge type :
  (forall code external constant,
     code ∈ [DFG_RECURRENCE_BOUNDARY_OFFSET_OUT_OF_RANGE;
             DFG_RECURRENCE_BOUNDARY_DUPLICATE_OFFSET; DFG_RECURRENCE_BOUNDARY_SOURCE_UNKNOWN;
             DFG_RECURRENCE_BOUNDARY_TYPE_MISMATCH] ->
     P (dd_add code None (Some (edge_id edge)) None external constant None)) ->
  forall values offsets, Forall P (boundary_loop g edge type offsets values).
Proof.
  intros HP. induction values as [|value values IH]; intros offsets; simpl; [done|].
  unfold boundary_source. all_diags; try done; try apply IH; simplify_eq; apply HP; set_solver.
Qed.

Section Reports.
Context (g : DFG).

Lemma dfg_diagnostics_errors : Forall is_error (dfg_diagnostics g).
Proof.
  assert (Hb : forall edge boundary type, Forall is_error (verifyBoundary g edge boundary type)).
  { intros edge boundary type. unfold verifyBoundary.
    all_diags; try done. by apply boundary_loop_Forall. }
  unfold dfg_diagnostics, indexValues, verifyStructure, structure_edge_diags,
    structure_binding_diags, verifyValueTypes, node_type_diags, verifyBindingsAndProviders,
    binding_type_diags, provider_diags, verifyAdjacency, readable, verifyEdge, verifyDataEdge,
    verifyPredicateEdge, verifyMemoryEdge, memory_end, verifyLiveOut.
  all_diags; try done; try apply Hb.
  all: unfold verifyBinary, verifyShift, verifyICmp, verifySelect, verifyLoad, verifyStore,
    verifyMetadata, arity_diag; all_diags; done.
Qed.

Lemma dfg_verify_report :
  dfg_verify g = mkDFGReport (dfg_diagnostics g) (Z.of_nat (length (dfg_diagnostics g))) 0.
Proof.
  unfold dfg_verify. rewrite reports_errors; [done|].
  by apply Forall_forall, dfg_diagnostics_errors.
Qed.

Lemma dfg_verify_ok : report_ok (dfg_verify g) = true <-> dfg_diagnostics g = [].
Proof.
  rewrite dfg_verify_report. unfold report_ok. simpl. rewrite Z.eqb_eq. split.
  - intros H. apply nil_length_inv. lia.
  - by intros ->.
Qed.

Lemma dfg_verify_contains code :
  report_contains (dfg_verify g) code = false <->
  Forall (fun d => dd_code d <> code) (dfg_diagnostics g).
Proof.
  rewrite dfg_verify_report. unfold report_contains. simpl.
  induction (dfg_diagnostics g) as [|d l IH]; simpl; [by split|].
  rewrite orb_false_iff, bool_decide_eq_false, IH, Forall_cons. done.
Qed.
End Reports.
(** ** Graphs made by the builder *)

Lemma DFG_inv_coherent g : DFG_inv g -> DFG_coherent g.
Proof.
  intros Hinv.
  assert (Hpos : forall node, node ∈ d_nodes g -> exists i,
    d_nodeIndices g !! node_id node = Some i /\ d_nodes g !! i = Some node).
  { intros node Hn. apply list_elem_of_lookup in Hn as [i Hi]. exists i. split; [|done].
    apply (dinv_nodes g Hinv). eauto. }
  split.
  - eapply indexed_NoDup, (dinv_nodes g Hinv).
  - eapply indexed_NoDup, (dinv_edges g Hinv).
  - eapply indexed_NoDup, (dinv_externals g Hinv).
  - eapply indexed_NoDup, (dinv_constants g Hinv).
  - eapply indexed_NoDup, (dinv_liveOuts g Hinv).
  - intros node Hn. by apply d_node_Ok.
  - intros edge He. by apply d_edge_Ok.
  - intros node Hn. destruct (Hpos _ Hn) as (i & Hi & Hl). unfold d_incomingOf.
    rewrite (proj2 (d_node_Ok g Hinv _ node)) by done. simpl. rewrite Hi. simpl.
    by rewrite (dinv_incoming g Hinv), list_lookup_fmap, Hl.
  - intros node Hn. destruct (Hpos _ Hn) as (i & Hi & Hl). unfold d_outgoingOf.
    rewrite (proj2 (d_node_Ok g Hinv _ node)) by done. simpl. rewrite Hi. simpl.
    by rewrite (dinv_outgoing g Hinv), list_lookup_fmap, Hl.
Qed.

(** Operand indices are unsigned. *)
Definition unsigned_operands (g : DFG) : Prop :=
  forall key, key ∈ providers (d_edges g) (d_bindings g) -> 0 <= key.2.

(** The codes that speak of names, accessors and slots, which the builder keeps
    right, and not of types. *)
Definition construction_codes : list DFGDiagnosticCode :=
  [DFG_ID_DUPLICATE_NODE; DFG_ID_DUPLICATE_EDGE; DFG_ID_DUPLICATE_EXTERNAL;
   DFG_ID_DUPLICATE_CONSTANT; DFG_ID_DUPLICATE_LIVEOUT; DFG_EDGE_UNKNOWN_SOURCE;
   DFG_EDGE_UNKNOWN_DESTINATION; DFG_BINDING_UNKNOWN_NODE; DFG_BINDING_UNKNOWN_EXTERNAL;
   DFG_BINDING_UNKNOWN_CONSTANT; DFG_ADJACENCY_INCONSISTENT; DFG_LIVEOUT_UNKNOWN_SOURCE;
   DFG_OPERAND_INDEX_OUT_OF_RANGE; DFG_OPERAND_DUPLICATE_PROVIDER;
   DFG_DATA_EDGE_INVALID_DEST_OPERAND; DFG_PRED_EDGE_INVALID_DEST_OPERAND].

Definition not_construction (d : DFGDiagnostic) : Prop := dd_code d ∉ construction_codes.

Section Built.
Context (g : DFG) (Hbuilt : DFG_built g) (Hunsigned : unsigned_operands g).

Lemma known_of_index id : is_Some (d_nodeIndices g !! id) -> is_Some (d_find_node g id).
Proof using Hbuilt.
  intros H. apply (indexed_contains node_id _ _ _ (dinv_nodes g (built_inv g Hbuilt))) in H
    as (node & Hn & Eid). apply find_if_is_Some. exists node. split; [done|lia].
Qed.

Lemma provided_operand node operand :
  (node, operand) ∈ providers (d_edges g) (d_bindings g) ->
  exists found, d_find_node g node = Some found /\
    is_Some (node_operandTypes found !! nat_of operand).
Proof using Hbuilt Hunsigned.
  intros Hin. pose proof (Hunsigned _ Hin) as H0. simpl in H0.
  apply (built_operand g Hbuilt) in Hin as (found & Hf & <- & Hlt).
  exists found. split.
  - apply d_find_node_stored; [|done]. apply (DFG_inv_coherent g (built_inv g Hbuilt)).
  - apply lookup_lt_is_Some_2. clear - Hlt H0. lia.
Qed.

Lemma edge_provided edge operand :
  edge ∈ d_edges g -> EdgeInfo_operand (edge_info edge) = Some operand ->
  (edge_dst edge, operand) ∈ providers (d_edges g) (d_bindings g).
Proof using Type.
  intros He Ho. apply elem_of_app. left. apply list_elem_of_omap. exists edge. split; [done|].
  unfold edge_provider. by rewrite Ho.
Qed.

Lemma built_edge_codes edge :
  edge ∈ d_edges g -> Forall not_construction (structure_edge_diags g edge ++ verifyEdge g edge).
Proof using Hbuilt Hunsigned.
  intros He. destruct (dinv_endpoints g (built_inv g Hbuilt) _ He) as [Hs Hd].
  apply known_of_index in Hs as [source Hs], Hd as [destination Hd].
  unfold structure_edge_diags, known, verifyEdge. rewrite Hs, Hd.
  rewrite !bool_decide_eq_true_2 by done. simpl.
  assert (Hop : forall operand, EdgeInfo_operand (edge_info edge) = Some operand ->
            is_Some (node_operandTypes destination !! nat_of operand)).
  { intros operand Ho. destruct (provided_operand _ _ (edge_provided _ _ He Ho))
      as (found & Hf & H). congruence. }
  assert (Hb : forall boundary type, Forall not_construction (verifyBoundary g edge boundary type)).
  { intros boundary type. unfold verifyBoundary. all_diags; try done; try apply Forall_nil_2;
      try (vm_compute; set_solver).
    apply boundary_loop_Forall. intros code x c Hc. unfold not_construction. simpl.
    set_unfold in Hc. destruct_or! Hc; subst; vm_compute; set_solver. }
  destruct (edge_info edge) as [operand boundary|operand boundary|dependence].
  - destruct (Hop operand eq_refl) as [type Ht]. unfold verifyDataEdge. rewrite Ht.
    all_diags; try apply Hb; vm_compute; set_solver.
  - destruct (Hop operand eq_refl) as [type Ht]. unfold verifyPredicateEdge. rewrite Ht.
    all_diags; try apply Hb; vm_compute; set_solver.
  - unfold verifyMemoryEdge, memory_end. all_diags; vm_compute; set_solver.
Qed.

Lemma built_binding_codes binding :
  binding ∈ d_bindings g ->
  Forall not_construction (structure_binding_diags g binding ++ binding_type_diags g binding).
Proof using Hbuilt Hunsigned.
  intros Hb. assert (Hkey : binding_key binding ∈ providers (d_edges g) (d_bindings g)).
  { apply elem_of_app. right. by apply list_elem_of_fmap_2. }
  destruct (provided_operand _ _ Hkey) as (found & Hf & [type Ht]).
  pose proof (built_refs g Hbuilt _ Hb) as Hr.
  unfold structure_binding_diags, binding_type_diags, known. rewrite Hf, Ht.
  rewrite bool_decide_eq_true_2 by done. simpl. destruct (ob_source binding) as [id|id].
  - assert (is_Some (d_find_external g id)) as [v Hv].
    { destruct Hr as (x & Hx & Ex). apply find_if_is_Some. exists x. split; [done|lia]. }
    rewrite Hv. all_diags; vm_compute; set_solver.
  - assert (is_Some (d_find_constant g id)) as [v Hv].
    { destruct Hr as (x & Hx & Ex). apply find_if_is_Some. exists x. split; [done|lia]. }
    rewrite Hv. all_diags; vm_compute; set_solver.
Qed.

Lemma built_provider_count node operand : d_provider_count g node operand <= 1.
Proof using Hbuilt.
  unfold d_provider_count, indexProviders. rewrite <- filter_app. fold (providers (d_edges g) (d_bindings g)).
  assert (Hnd : NoDup (filter (fun key => key = (node, operand))
    (filter (fun key => has_operand g key.1 key.2 = true) (providers (d_edges g) (d_bindings g)))))
    by apply NoDup_filter, NoDup_filter, (built_unique g Hbuilt).
  assert (Hall : forall key, key ∈ filter (fun key => key = (node, operand))
    (filter (fun key => has_operand g key.1 key.2 = true) (providers (d_edges g) (d_bindings g))) ->
    key = (node, operand)) by (intros key Hkey; by apply list_elem_of_filter in Hkey as [? _]).
  destruct (filter _ (filter _ _)) as [|k1 [|k2 l]]; simpl; [clear; lia..|].
  exfalso. apply NoDup_cons in Hnd as [Hn _]. apply Hn.
  rewrite (Hall k1), (Hall k2) by (clear; set_solver). left.
Qed.

Lemma built_codes : Forall not_construction (dfg_diagnostics g).
Proof using Hbuilt Hunsigned.
  pose proof (built_inv g Hbuilt) as Hinv. pose proof (DFG_inv_coherent g Hinv) as Hc.
  unfold dfg_diagnostics, verifyStructure, verifyBindingsAndProviders, verifyValueTypes.
  rewrite (proj2 (indexValues_nil g)) by (destruct Hc; done).
  rewrite (proj2 (verifyAdjacency_nil g)) by (destruct Hc; done).
  repeat apply Forall_app_2; try apply Forall_nil_2; try apply Forall_flat_map_in; intros.
  - by destruct (proj1 (Forall_app _ _ _) (built_edge_codes _ ltac:(eassumption))).
  - by destruct (proj1 (Forall_app _ _ _) (built_binding_codes _ ltac:(eassumption))).
  - all_diags; vm_compute; set_solver.
  - all_diags; vm_compute; set_solver.
  - unfold node_type_diags. all_diags; vm_compute; set_solver.
  - unfold verifyNode, verifyBinary, verifyShift, verifyICmp, verifySelect, verifyLoad,
      verifyStore, verifyMetadata, arity_diag. all_diags; vm_compute; set_solver.
  - by destruct (proj1 (Forall_app _ _ _) (built_binding_codes _ ltac:(eassumption))).
  - unfold provider_diags. pose proof built_provider_count as Hcount.
    all_diags; [vm_compute; set_solver|]. exfalso.
    match goal with H : (1 <? ?n) = true |- _ => assert (n <= 1) by apply Hcount;
      apply Z.ltb_lt in H end. clear Hunsigned Hbuilt. lia.
  - by destruct (proj1 (Forall_app _ _ _) (built_edge_codes _ ltac:(eassumption))).
  - unfold verifyLiveOut.
    match goal with H : ?lo ∈ d_liveOuts g |- _ =>
      apply (dinv_sources g Hinv), known_of_index in H as [node Hn] end.
    rewrite Hn. all_diags; vm_compute; set_solver.
Qed.
End Built.

(** A guarded accumulation: load, compare, select, add to the value of the
    previous iteration (zero in the first), store under the comparison. *)
Definition guarded_sum_requests : list BuilderRequest := [
  ReqAddExternal "source" vt_i32;
  ReqAddExternal "destination" vt_i32;
  ReqAddConstant vt_i32 0;
  ReqAddNode OpLoad [vt_i32] vt_i32 None (Some (mkMemoryOpInfo 32 false)) None;
  ReqAddNode OpICmp [vt_i32; vt_i32] vt_predicate (Some CmpNE) None None;
  ReqAddNode OpSelect [vt_predicate; vt_i32; vt_i32] vt_i32 None None None;
  ReqAddNode OpAdd [vt_i32; vt_i32] vt_i32 None None None;
  ReqAddNode OpStore [vt_i32; vt_i32; vt_predicate] voidTy None
    (Some (mkMemoryOpInfo 32 false)) None;
  ReqBindExternal 0 0 0;
  ReqAddDataEdge 0 1 0 0 None;
  ReqBindConstant 1 1 0;
  ReqAddPredicateEdge 1 2 0 0 None;
  ReqAddDataEdge 0 2 1 0 None;
  ReqBindConstant 2 2 0;
  ReqAddDataEdge 2 3 0 0 None;
  ReqAddDataEdge 3 3 1 1 (Some [mkRecurrenceBoundaryValue 0 (ConstantRef 0)]);
  ReqBindExternal 4 0 1;
  ReqAddDataEdge 3 4 1 0 None;
  ReqAddPredicateEdge 1 4 2 0 None;
  ReqAddMemoryEdge 0 4 WAR 0;
  ReqAddMemoryEdge 4 0 RAW 1;
  ReqAddLiveOut "sum" vt_i32 3].

Definition guarded_sum : DFG := b_dfg (requests (DFGBuilder_new "sum") guarded_sum_requests).

Example guarded_sum_verified : dfg_verify guarded_sum = report_empty.
Proof. vm_compute. reflexivity. Qed.

(** Leaving the initial value of the accumulator out is reported. *)
Example missing_boundary_reported :
  dd_code <$> rep_diagnostics (dfg_verify (b_dfg (requests (DFGBuilder_new "sum")
    [ReqAddNode OpAdd [vt_i32; vt_i32] vt_i32 None None None; ReqAddConstant vt_i32 7;
     ReqBindConstant 0 0 0; ReqAddDataEdge 0 0 1 1 None]))) =
  [DFG_RECURRENCE_BOUNDARY_MISSING].
Proof. vm_compute. reflexivity. Qed.

(** ** Properties *)

(** C36: the generic verifier decides the type system.  For every graph, however
    it was made, verification terminates with a report; the report is clean
    exactly when the container is coherent (distinct identifiers, accessors and
    adjacency caches that agree with the vectors) and the graph is typed: every
    node obeys the typing rule of its opcode, every edge carries its source's
    type to an operand of that type (with one well-typed initial value per
    iteration it crosses), every operand has exactly one provider, and every
    live-out exposes a value of its declared type. *)
Theorem dfg_verify_decides_typing (g : DFG) :
  report_ok (dfg_verify g) = true <-> DFG_coherent g /\ DFG_typed g.
Proof. by rewrite dfg_verify_ok, dfg_diagnostics_nil. Qed.


