(* ===== verification/TargetModel.v ===== *)
(** * The target model: operation descriptors, machine description, queries

    Models [compiler/include/cgra/Target/{TargetOperation,TargetModel}.h],
    [compiler/lib/Target/TargetOperation.cpp] and the query functions of
    [compiler/lib/Target/TargetModel.cpp].  A [TargetModel] value is what
    [TargetModel::loadFromFile], in [TargetLoader], builds from the contract. *)
From stdpp Require Import base numbers list gmap strings.
From S2P Require Import Prelude.
From S2P Require Import IR.

(** ** Operation descriptors (TargetOperation.h) *)

Inductive TargetExecutionClass := FU | LSU.
Inductive TargetOperandRole := RoleData | RolePredicate | RoleAddress.
Inductive TargetResultRole := ResData | ResPredicate | ResVoid.
Inductive TargetControlSink :=
  | FuDataA | FuDataB | FuPredicate0 | FuPredicate1
  | LsuAddress | LsuStoreData | LsuCommitPredicate.
Inductive TargetResultSource :=
  | SrcNone | FuDataResult | FuPredicateResult | LsuLoadData.

#[export] Instance TargetExecutionClass_eq_dec : EqDecision TargetExecutionClass.
Proof. solve_decision. Defined.
#[export] Instance TargetOperandRole_eq_dec : EqDecision TargetOperandRole.
Proof. solve_decision. Defined.
#[export] Instance TargetResultRole_eq_dec : EqDecision TargetResultRole.
Proof. solve_decision. Defined.
#[export] Instance TargetControlSink_eq_dec : EqDecision TargetControlSink.
Proof. solve_decision. Defined.
#[export] Instance TargetResultSource_eq_dec : EqDecision TargetResultSource.
Proof. solve_decision. Defined.

Record TargetOperandDesc := mkTargetOperandDesc {
  od_role : TargetOperandRole;
  od_optional : bool
}.
#[export] Instance TargetOperandDesc_eq_dec : EqDecision TargetOperandDesc.
Proof. solve_decision. Defined.

Record TargetEncodingRef := mkTargetEncodingRef {
  enc_domain : string;
  enc_symbol : string
}.
#[export] Instance TargetEncodingRef_eq_dec : EqDecision TargetEncodingRef.
Proof. solve_decision. Defined.

Record TargetOperationDesc := mkTargetOperationDesc {
  op_id : string;
  op_executionClass : TargetExecutionClass;
  op_operands : list TargetOperandDesc;
  op_resultRole : TargetResultRole;
  op_resultType : ValueType;
  op_issueOccupancy : Z;
  op_resultLatency : option Z;
  op_producerOutputReadyOffset : option Z;
  op_accessWidthBits : option Z;
  op_encoding : option TargetEncodingRef;
  op_operandSinks : list (Z * TargetControlSink);
  op_resultSource : TargetResultSource
}.
#[export] Instance TargetOperationDesc_eq_dec : EqDecision TargetOperationDesc.
Proof. solve_decision. Defined.

(** Textual forms (TargetOperation.cpp). *)

Definition TargetExecutionClass_toString (c : TargetExecutionClass) : string :=
  match c with FU => "FU" | LSU => "LSU" end.

Definition targetExecutionClassFromString (value : string)
  : result TargetExecutionClass :=
  if String.eqb value "FU" then Ok FU
  else if String.eqb value "LSU" then Ok LSU
  else Throw InvalidArgument.

Definition TargetOperandRole_toString (r : TargetOperandRole) : string :=
  match r with
  | RoleData => "data" | RolePredicate => "predicate" | RoleAddress => "address"
  end.

Definition targetOperandRoleFromString (value : string)
  : result TargetOperandRole :=
  if String.eqb value "data" then Ok RoleData
  else if String.eqb value "predicate" then Ok RolePredicate
  else if String.eqb value "address" then Ok RoleAddress
  else Throw InvalidArgument.

Definition TargetResultRole_toString (r : TargetResultRole) : string :=
  match r with
  | ResData => "data" | ResPredicate => "predicate" | ResVoid => "void"
  end.

Definition targetResultRoleFromString (value : string)
  : result TargetResultRole :=
  if String.eqb value "data" then Ok ResData
  else if String.eqb value "predicate" then Ok ResPredicate
  else if String.eqb value "void" then Ok ResVoid
  else Throw InvalidArgument.

Definition TargetControlSink_toString (s : TargetControlSink) : string :=
  match s with
  | FuDataA => "FU_SRC_A" | FuDataB => "FU_SRC_B"
  | FuPredicate0 => "FU_PRED_0" | FuPredicate1 => "FU_PRED_1"
  | LsuAddress => "LSU_ADDR" | LsuStoreData => "LSU_STORE_DATA"
  | LsuCommitPredicate => "LSU_COMMIT_PRED"
  end.

Definition targetControlSinkFromString (value : string)
  : result TargetControlSink :=
  let named s := String.eqb value s in
  if named "FU_SRC_A" || named "fu_data_a" then Ok FuDataA
  else if named "FU_SRC_B" || named "fu_data_b" then Ok FuDataB
  else if named "FU_PRED_0" || named "fu_pred_0" then Ok FuPredicate0
  else if named "FU_PRED_1" || named "fu_pred_1" then Ok FuPredicate1
  else if named "LSU_ADDR" || named "lsu_address" then Ok LsuAddress
  else if named "LSU_STORE_DATA" || named "lsu_store_data" then Ok LsuStoreData
  else if named "LSU_COMMIT_PRED" || named "lsu_commit_predicate" then Ok LsuCommitPredicate
  else Throw InvalidArgument.

Definition TargetResultSource_toString (s : TargetResultSource) : string :=
  match s with
  | SrcNone => "NONE" | FuDataResult => "FU_DATA_RESULT"
  | FuPredicateResult => "FU_PRED_RESULT" | LsuLoadData => "LSU_LOAD_DATA"
  end.

Definition targetResultSourceFromString (value : string)
  : result TargetResultSource :=
  let named s := String.eqb value s in
  if named "NONE" || named "none" then Ok SrcNone
  else if named "FU_DATA_RESULT" || named "fu_data_result" then Ok FuDataResult
  else if named "FU_PRED_RESULT" || named "fu_pred_result" then Ok FuPredicateResult
  else if named "LSU_LOAD_DATA" || named "lsu_load_data" then Ok LsuLoadData
  else Throw InvalidArgument.

(** ** Machine description (TargetModel.h) *)

Record ArrayDesc := mkArrayDesc {
  arr_rows : Z;
  arr_cols : Z;
  arr_dataWidth : Z;
  arr_predicateWidth : Z;
  arr_hardwareBranch : bool
}.

Inductive RegisterBankDomain := BankData | BankPredicate.
#[export] Instance RegisterBankDomain_eq_dec : EqDecision RegisterBankDomain.
Proof. solve_decision. Defined.

Inductive SameAddressReadWritePolicy :=
  | Forbidden | ReadOldThenWriteNew | WriteNewThenRead.
#[export] Instance SameAddressReadWritePolicy_eq_dec :
  EqDecision SameAddressReadWritePolicy.
Proof. solve_decision. Defined.

Record RegisterFileDesc := mkRegisterFileDesc {
  rf_id : string;
  rf_domain : RegisterBankDomain;
  rf_depth : Z;
  rf_readPorts : Z;
  rf_writePorts : Z;
  rf_sameCycleReadWriteSameAddress : string;
  rf_sameCycleMultiwriteSameAddress : string;
  rf_sameAddressReadWritePolicy : SameAddressReadWritePolicy;
  rf_allocatableIndices : list Z;
  rf_applicableTiles : list (Z * Z);
  rf_writePortSources : gmap string (list string)
}.

Record InterconnectDesc := mkInterconnectDesc {
  net_topology : string;
  net_registeredLinks : bool;
  net_hopLatency : Z;
  net_inputBuffering : bool;
  net_runtimeArbitration : bool;
  net_compilerRouted : bool;
  net_separateResourceDomain : bool;
  net_channelsPerDirectionPerLink : Z
}.

Record MemoryDesc := mkMemoryDesc {
  mem_model : string;
  mem_addressUnit : string;
  mem_depth : Z;
  mem_widthBits : Z;
  mem_ports : Z;
  mem_loadLatency : Z;
  mem_maxIssuePerLsuPerCycle : Z;
  mem_maxIssuePerPortPerCycle : Z;
  mem_rawDependenceSeparation : Z;
  mem_warDependenceSeparation : Z;
  mem_wawDependenceSeparation : Z;
  mem_sameAddressPolicy : string;
  mem_runtimeStall : bool;
  mem_runtimeArbitration : bool
}.

Record LoopExecutionDesc := mkLoopExecutionDesc {
  le_supported : bool;
  le_model : string;
  le_controlPhases : list string;
  le_rotatingRegisters : bool;
  le_loopCounterOperand : bool;
  le_sameAddressRfReadWriteRecurrence : bool
}.

Record LsuTileDesc := mkLsuTileDesc {
  lsu_row : Z;
  lsu_col : Z;
  lsu_portId : Z
}.

(** Control layout data (ControlLayout.h); its operations are in
    [ControlLayout.v]. *)
Record ControlField := mkControlField {
  cf_name : string;
  cf_lsb : Z;
  cf_width : Z;
  cf_encoding : option string
}.

Record ControlLayout := mkControlLayout {
  cl_rawWidth : Z;
  cl_physicalWidth : Z;
  cl_chunks : Z;
  cl_chunkBits : Z;
  cl_chunkOrder : string;
  cl_paddingLsb : Z;
  cl_paddingWidth : Z;
  cl_paddingValue : Z;
  cl_fields : list ControlField;
  cl_fieldIndices : gmap string nat
}.

Record TargetModel := mkTargetModel {
  tm_name : string;
  tm_contractVersion : Z;
  tm_array : ArrayDesc;
  tm_dataRF : RegisterFileDesc;
  tm_predicateRF : RegisterFileDesc;
  tm_interconnect : InterconnectDesc;
  tm_memory : MemoryDesc;
  tm_loopExecution : LoopExecutionDesc;
  tm_controlLayout : ControlLayout;
  tm_constantMemoryDepth : Z;
  tm_lsuTiles : list LsuTileDesc;
  tm_encodings : gmap string (gmap string Z);
  tm_reverseEncodings : gmap string (gmap Z string);
  tm_operations : list TargetOperationDesc;
  tm_operationIndices : gmap string nat;
  tm_defaultFuOperations : gset string;
  tm_tileOperationOverrides : gmap Z (gset string)
}.

(** Both networks share one description. *)
Definition dataNetwork (t : TargetModel) : InterconnectDesc := tm_interconnect t.
Definition predicateNetwork (t : TargetModel) : InterconnectDesc := tm_interconnect t.

(** ** Queries (TargetModel.cpp) *)

Section Queries.
Context (target : TargetModel).

Definition tileHasLSU (row col : Z) : bool :=
  existsb (fun tile => (lsu_row tile =? row) && (lsu_col tile =? col))
    (tm_lsuTiles target).

Definition findOperation (name : string) : option TargetOperationDesc :=
  index ← tm_operationIndices target !! name;
  tm_operations target !! index.

Definition operation (name : string) : result TargetOperationDesc :=
  of_option OutOfRange (findOperation name).

Definition tileKey (row col : Z) : Z := Z.lor (Z.shiftl row 32) col.

Definition tileSupportsOperation (row col : Z) (operationName : string) : bool :=
  if (arr_rows (tm_array target) <=? row) || (arr_cols (tm_array target) <=? col)
  then false
  else match findOperation operationName with
       | None => false
       | Some op =>
           match op_executionClass op with
           | LSU => tileHasLSU row col
           | FU =>
               let supported :=
                 match tm_tileOperationOverrides target !! tileKey row col with
                 | None => tm_defaultFuOperations target
                 | Some overrides => overrides
                 end in
               bool_decide (op_id op ∈ supported)
           end
       end.

(** The row-major tile loop shared by the per-tile queries. *)
Definition tiles : list (Z * Z) :=
  flat_map (fun row => (fun col => (row, col)) <$> range (arr_cols (tm_array target)))
    (range (arr_rows (tm_array target))).

Definition compatibleTiles (operationName : string) : list (Z * Z) :=
  filter (fun tile => tileSupportsOperation tile.1 tile.2 operationName = true) tiles.

Definition memoryDependenceSeparation (kind : MemoryDepKind) : Z :=
  match kind with
  | RAW => mem_rawDependenceSeparation (tm_memory target)
  | WAR => mem_warDependenceSeparation (tm_memory target)
  | WAW => mem_wawDependenceSeparation (tm_memory target)
  end.

Definition supportsValueType (type : ValueType) : bool :=
  match vt_kind type with
  | KVoid => vt_bitWidth type =? 0
  | KPredicate => vt_bitWidth type =? arr_predicateWidth (tm_array target)
  | KInteger => vt_bitWidth type =? arr_dataWidth (tm_array target)
  | KFloat => false
  end.

Definition executionResourceCount (executionClass : TargetExecutionClass) : Z :=
  match executionClass with
  | LSU => Z.of_nat (length (tm_lsuTiles target))
  | FU => wrap64 (arr_rows (tm_array target) * arr_cols (tm_array target))
  end.

Definition hasExecutionClass (executionClass : TargetExecutionClass) : bool :=
  negb (executionResourceCount executionClass =? 0).

Definition hasValidEncoding (op : TargetOperationDesc) : bool :=
  match findOperation (op_id op), op_encoding op with
  | Some registered, Some encoding =>
      bool_decide (registered = op) &&
      match tm_encodings target !! enc_domain encoding with
      | Some symbols => bool_decide (is_Some (symbols !! enc_symbol encoding))
      | None => false
      end
  | _, _ => false
  end.

Definition compatibleResourceCount (op : TargetOperationDesc) : Z :=
  if negb (hasValidEncoding op) then 0
  else match op_executionClass op with
       | LSU => Z.of_nat (length (tm_lsuTiles target))
       | FU =>
           Z.of_nat (length (filter
             (fun tile => tileSupportsOperation tile.1 tile.2 (op_id op) = true) tiles))
       end.

Definition isOperationExecutable (op : TargetOperationDesc) : bool :=
  negb (compatibleResourceCount op =? 0).

Definition encodingValue (domain name : string) : result Z :=
  values ← of_option RuntimeError (tm_encodings target !! domain);
  of_option RuntimeError (values !! name).

Definition encodingName (domain : string) (value : Z) : result string :=
  names ← of_option RuntimeError (tm_reverseEncodings target !! domain);
  of_option RuntimeError (names !! value).

Definition appliesToTile (bank : RegisterFileDesc) (row col : Z) : bool :=
  match rf_applicableTiles bank with
  | [] => true
  | applicable => bool_decide ((row, col) ∈ applicable)
  end.

Definition allocates (bank : RegisterFileDesc) (index : Z) : bool :=
  bool_decide (index ∈ rf_allocatableIndices bank).

Definition registerBank (domain : RegisterBankDomain) (row col : Z)
  : option RegisterFileDesc :=
  let bank := match domain with
              | BankData => tm_dataRF target
              | BankPredicate => tm_predicateRF target
              end in
  if appliesToTile bank row col then Some bank else None.
End Queries.

(** ** What the loader guarantees

    [TargetModel_wf] collects the facts about a loaded contract that the
    mapping components rely on: [loadFromFile] rejects a contract without
    them ([TargetLoaded.loaded_contract]). *)

Record TargetModel_wf (target : TargetModel) : Prop := {
  wf_rows : 0 < arr_rows (tm_array target) <= u32_max;
  wf_cols : 0 < arr_cols (tm_array target) <= u32_max;
  wf_lsu_in_array : forall tile, tile ∈ tm_lsuTiles target ->
    0 <= lsu_row tile < arr_rows (tm_array target) /\
    0 <= lsu_col tile < arr_cols (tm_array target);
  wf_lsu_distinct :
    NoDup ((fun tile => (lsu_row tile, lsu_col tile)) <$> tm_lsuTiles target);
  wf_operationIndices : forall name index,
    tm_operationIndices target !! name = Some index <->
    exists op, tm_operations target !! index = Some op /\ op_id op = name;
  wf_occupancy : forall op, op ∈ tm_operations target ->
    0 < op_issueOccupancy op <= u32_max;
  wf_timing : forall op, op ∈ tm_operations target ->
    match op_resultRole op with
    | ResVoid => op_resultLatency op = None /\ op_producerOutputReadyOffset op = None
    | _ => (exists l, op_resultLatency op = Some l /\ 0 < l <= u32_max) /\
           (exists r, op_producerOutputReadyOffset op = Some r /\ 0 <= r <= u32_max)
    end;
  wf_hopLatency : 0 < net_hopLatency (tm_interconnect target) <= u32_max;
  wf_separation : forall kind,
    0 < memoryDependenceSeparation target kind <= u32_max
}.

Section QueryLemmas.
Context (target : TargetModel).

Lemma elem_of_tiles row col :
  (row, col) ∈ tiles target <->
  0 <= row < arr_rows (tm_array target) /\ 0 <= col < arr_cols (tm_array target).
Proof.
  unfold tiles. rewrite elem_of_flat_map. setoid_rewrite elem_of_range.
  setoid_rewrite list_elem_of_fmap. setoid_rewrite elem_of_range. split.
  - by intros (r & Hr & c & [= -> ->] & Hc).
  - intros [Hr Hc]. exists row. split; [done|]. by exists col.
Qed.

Lemma NoDup_tiles : NoDup (tiles target).
Proof.
  apply (NoDup_flat_map _ fst); [apply NoDup_range| |].
  - intros row _. apply NoDup_fmap_2; [by intros ?? [= ->]|apply NoDup_range].
  - intros row [r c] H. by apply list_elem_of_fmap in H as (? & [= -> _] & _).
Qed.

Lemma tileHasLSU_true row col :
  tileHasLSU target row col = true <->
  (row, col) ∈ (fun tile => (lsu_row tile, lsu_col tile)) <$> tm_lsuTiles target.
Proof.
  unfold tileHasLSU. rewrite existsb_exists, list_elem_of_fmap.
  setoid_rewrite <- list_elem_of_In. split.
  - intros (tile & Hin & H). bool_hyps. exists tile. by subst.
  - intros (tile & [= -> ->] & Hin). exists tile. rewrite !Z.eqb_refl. done.
Qed.

Lemma tileSupportsOperation_inside row col name :
  tileSupportsOperation target row col name = true ->
  row < arr_rows (tm_array target) /\ col < arr_cols (tm_array target) /\
  exists op, findOperation target name = Some op /\
    (op_executionClass op = LSU -> tileHasLSU target row col = true).
Proof.
  unfold tileSupportsOperation. destruct (_ || _)%bool eqn:E; [done|]. bool_hyps.
  destruct (findOperation target name) as [op|] eqn:Eop; [|done].
  intros H1. split; [lia|]. split; [lia|]. exists op. split; [done|].
  intros Hc. by rewrite Hc in H1.
Qed.

Lemma findOperation_elem name op :
  findOperation target name = Some op -> op ∈ tm_operations target.
Proof.
  unfold findOperation. intros H. apply bind_Some in H as (index & _ & Hop).
  by eapply list_elem_of_lookup_2.
Qed.

Lemma findOperation_id name op :
  TargetModel_wf target -> findOperation target name = Some op -> op_id op = name.
Proof.
  intros Hwf. unfold findOperation. intros H.
  apply bind_Some in H as (index & Hi & Hop).
  apply wf_operationIndices in Hi as (op' & Hop' & <-); [|done]. congruence.
Qed.
End QueryLemmas.
