(* ===== verification/CgraV2.v ===== *)
(** * The canonical machine contract [target/cgra_v2.json]

    The [TargetModel] that [TargetModel::loadFromFile] builds from the checked-in
    4x4 contract, written out as data (operations in key order, as the JSON object
    iterates).  It is the concrete machine of the witnesses. *)
From stdpp Require Import base numbers list gmap strings.
From S2P Require Import Prelude.
From S2P Require Import IR.
From S2P Require Import TargetModel.

Definition v2_operations : list TargetOperationDesc := [
  mkTargetOperationDesc "ADD" FU
    [mkTargetOperandDesc RoleData false; mkTargetOperandDesc RoleData false]
    ResData (vt_integer 32) 1 (Some 1) (Some 0) None
    (Some (mkTargetEncodingRef "op" "ADD")) [(0, FuDataA); (1, FuDataB)] FuDataResult;
  mkTargetOperationDesc "AND" FU
    [mkTargetOperandDesc RoleData false; mkTargetOperandDesc RoleData false]
    ResData (vt_integer 32) 1 (Some 1) (Some 0) None
    (Some (mkTargetEncodingRef "op" "AND")) [(0, FuDataA); (1, FuDataB)] FuDataResult;
  mkTargetOperationDesc "CMP_EQ" FU
    [mkTargetOperandDesc RoleData false; mkTargetOperandDesc RoleData false]
    ResPredicate vt_predicate 1 (Some 1) (Some 0) None
    (Some (mkTargetEncodingRef "op" "CMP_EQ")) [(0, FuDataA); (1, FuDataB)] FuPredicateResult;
  mkTargetOperationDesc "CMP_NE" FU
    [mkTargetOperandDesc RoleData false; mkTargetOperandDesc RoleData false]
    ResPredicate vt_predicate 1 (Some 1) (Some 0) None
    (Some (mkTargetEncodingRef "op" "CMP_NE")) [(0, FuDataA); (1, FuDataB)] FuPredicateResult;
  mkTargetOperationDesc "CMP_ULE" FU
    [mkTargetOperandDesc RoleData false; mkTargetOperandDesc RoleData false]
    ResPredicate vt_predicate 1 (Some 1) (Some 0) None
    (Some (mkTargetEncodingRef "op" "CMP_ULE")) [(0, FuDataA); (1, FuDataB)] FuPredicateResult;
  mkTargetOperationDesc "CMP_ULT" FU
    [mkTargetOperandDesc RoleData false; mkTargetOperandDesc RoleData false]
    ResPredicate vt_predicate 1 (Some 1) (Some 0) None
    (Some (mkTargetEncodingRef "op" "CMP_ULT")) [(0, FuDataA); (1, FuDataB)] FuPredicateResult;
  mkTargetOperationDesc "LOAD" LSU
    [mkTargetOperandDesc RoleAddress false]
    ResData (vt_integer 32) 1 (Some 2) (Some 2) (Some 32)
    (Some (mkTargetEncodingRef "lsu_op" "LOAD")) [(0, LsuAddress)] LsuLoadData;
  mkTargetOperationDesc "LSHR" FU
    [mkTargetOperandDesc RoleData false; mkTargetOperandDesc RoleData false]
    ResData (vt_integer 32) 1 (Some 1) (Some 0) None
    (Some (mkTargetEncodingRef "op" "LSHR")) [(0, FuDataA); (1, FuDataB)] FuDataResult;
  mkTargetOperationDesc "MUL" FU
    [mkTargetOperandDesc RoleData false; mkTargetOperandDesc RoleData false]
    ResData (vt_integer 32) 1 (Some 1) (Some 0) None
    (Some (mkTargetEncodingRef "op" "MUL")) [(0, FuDataA); (1, FuDataB)] FuDataResult;
  mkTargetOperationDesc "NOP" FU
    []
    ResData (vt_integer 32) 1 (Some 1) (Some 0) None
    (Some (mkTargetEncodingRef "op" "NOP")) [] FuDataResult;
  mkTargetOperationDesc "OR" FU
    [mkTargetOperandDesc RoleData false; mkTargetOperandDesc RoleData false]
    ResData (vt_integer 32) 1 (Some 1) (Some 0) None
    (Some (mkTargetEncodingRef "op" "OR")) [(0, FuDataA); (1, FuDataB)] FuDataResult;
  mkTargetOperationDesc "PAND" FU
    [mkTargetOperandDesc RolePredicate false; mkTargetOperandDesc RolePredicate false]
    ResPredicate vt_predicate 1 (Some 1) (Some 0) None
    (Some (mkTargetEncodingRef "op" "PAND")) [(0, FuPredicate0); (1, FuPredicate1)] FuPredicateResult;
  mkTargetOperationDesc "PASS" FU
    [mkTargetOperandDesc RoleData false]
    ResData (vt_integer 32) 1 (Some 1) (Some 0) None
    (Some (mkTargetEncodingRef "op" "PASS")) [(0, FuDataA)] FuDataResult;
  mkTargetOperationDesc "PNOT" FU
    [mkTargetOperandDesc RolePredicate false]
    ResPredicate vt_predicate 1 (Some 1) (Some 0) None
    (Some (mkTargetEncodingRef "op" "PNOT")) [(0, FuPredicate0)] FuPredicateResult;
  mkTargetOperationDesc "POR" FU
    [mkTargetOperandDesc RolePredicate false; mkTargetOperandDesc RolePredicate false]
    ResPredicate vt_predicate 1 (Some 1) (Some 0) None
    (Some (mkTargetEncodingRef "op" "POR")) [(0, FuPredicate0); (1, FuPredicate1)] FuPredicateResult;
  mkTargetOperationDesc "PPASS" FU
    [mkTargetOperandDesc RolePredicate false]
    ResPredicate vt_predicate 1 (Some 1) (Some 0) None
    (Some (mkTargetEncodingRef "op" "PPASS")) [(0, FuPredicate0)] FuPredicateResult;
  mkTargetOperationDesc "SELECT" FU
    [mkTargetOperandDesc RolePredicate false; mkTargetOperandDesc RoleData false; mkTargetOperandDesc RoleData false]
    ResData (vt_integer 32) 1 (Some 1) (Some 0) None
    (Some (mkTargetEncodingRef "op" "SELECT")) [(0, FuPredicate0); (1, FuDataA); (2, FuDataB)] FuDataResult;
  mkTargetOperationDesc "SHL" FU
    [mkTargetOperandDesc RoleData false; mkTargetOperandDesc RoleData false]
    ResData (vt_integer 32) 1 (Some 1) (Some 0) None
    (Some (mkTargetEncodingRef "op" "SHL")) [(0, FuDataA); (1, FuDataB)] FuDataResult;
  mkTargetOperationDesc "STORE" LSU
    [mkTargetOperandDesc RoleAddress false; mkTargetOperandDesc RoleData false; mkTargetOperandDesc RolePredicate true]
    ResVoid voidTy 1 None None (Some 32)
    (Some (mkTargetEncodingRef "lsu_op" "STORE")) [(0, LsuAddress); (1, LsuStoreData); (2, LsuCommitPredicate)] SrcNone;
  mkTargetOperationDesc "SUB" FU
    [mkTargetOperandDesc RoleData false; mkTargetOperandDesc RoleData false]
    ResData (vt_integer 32) 1 (Some 1) (Some 0) None
    (Some (mkTargetEncodingRef "op" "SUB")) [(0, FuDataA); (1, FuDataB)] FuDataResult;
  mkTargetOperationDesc "XOR" FU
    [mkTargetOperandDesc RoleData false; mkTargetOperandDesc RoleData false]
    ResData (vt_integer 32) 1 (Some 1) (Some 0) None
    (Some (mkTargetEncodingRef "op" "XOR")) [(0, FuDataA); (1, FuDataB)] FuDataResult
].

Definition v2_dataRF : RegisterFileDesc :=
  mkRegisterFileDesc "data_rf" BankData 16 2 2 "illegal" "illegal"
    Forbidden (range 16) []
    (list_to_map [("W0", ["FU_DATA_RESULT"]); ("W1", ["RF_A"; "RF_B"; "NORTH_DATA_IN"; "SOUTH_DATA_IN"; "EAST_DATA_IN"; "WEST_DATA_IN"; "CONST_DATA"; "LSU_LOAD_DATA"; "ZERO"])]).

Definition v2_predicateRF : RegisterFileDesc :=
  mkRegisterFileDesc "predicate_rf" BankPredicate 16 2 2 "illegal" "illegal"
    Forbidden (range 16) []
    (list_to_map [("W0", ["FU_PRED_RESULT"]); ("W1", ["RF_A"; "RF_B"; "NORTH_PRED_IN"; "SOUTH_PRED_IN"; "EAST_PRED_IN"; "WEST_PRED_IN"; "CONST_TRUE"; "CONST_FALSE"])]).

Definition v2_encoding_table : list (string * list (string * Z)) := [
  ("data_source", [("CONST_DATA", 6); ("EAST_DATA_IN", 4); ("LSU_LOAD_DATA", 7); ("NORTH_DATA_IN", 2); ("RF_A", 0); ("RF_B", 1); ("SOUTH_DATA_IN", 3); ("WEST_DATA_IN", 5); ("ZERO", 8)]);
  ("lsu_op", [("LOAD", 1); ("NONE", 0); ("RESERVED", 3); ("STORE", 2)]);
  ("op", [("ADD", 2); ("AND", 5); ("CMP_EQ", 16); ("CMP_NE", 17); ("CMP_ULE", 19); ("CMP_ULT", 18); ("LSHR", 9); ("MUL", 4); ("NOP", 0); ("OR", 6); ("PAND", 34); ("PASS", 1); ("PNOT", 33); ("POR", 35); ("PPASS", 32); ("SELECT", 10); ("SHL", 8); ("SUB", 3); ("XOR", 7)]);
  ("predicate_source", [("CONST_FALSE", 7); ("CONST_TRUE", 6); ("EAST_PRED_IN", 4); ("NORTH_PRED_IN", 2); ("RF_A", 0); ("RF_B", 1); ("SOUTH_PRED_IN", 3); ("WEST_PRED_IN", 5)]);
  ("route_data_source", [("CONST_DATA", 8); ("EAST_DATA_IN", 3); ("FU_DATA_RESULT", 5); ("LSU_LOAD_DATA", 9); ("NONE", 0); ("NORTH_DATA_IN", 1); ("RF_A", 6); ("RF_B", 7); ("SOUTH_DATA_IN", 2); ("WEST_DATA_IN", 4); ("ZERO", 10)]);
  ("route_predicate_source", [("CONST_FALSE", 9); ("CONST_TRUE", 8); ("EAST_PRED_IN", 3); ("FU_PRED_RESULT", 5); ("NONE", 0); ("NORTH_PRED_IN", 1); ("RF_A", 6); ("RF_B", 7); ("SOUTH_PRED_IN", 2); ("WEST_PRED_IN", 4)])].

Definition v2_fields : list ControlField := [
  mkControlField "op" 0 6 (Some "op");
  mkControlField "src_a" 6 4 (Some "data_source");
  mkControlField "src_b" 10 4 (Some "data_source");
  mkControlField "src_p0" 14 4 (Some "predicate_source");
  mkControlField "src_p1" 18 4 (Some "predicate_source");
  mkControlField "data_rf_raddr_a" 22 4 None;
  mkControlField "data_rf_raddr_b" 26 4 None;
  mkControlField "pred_rf_raddr_a" 30 4 None;
  mkControlField "pred_rf_raddr_b" 34 4 None;
  mkControlField "data_w0_we" 38 1 None;
  mkControlField "data_w0_addr" 39 4 None;
  mkControlField "data_w1_we" 43 1 None;
  mkControlField "data_w1_addr" 44 4 None;
  mkControlField "data_w1_src" 48 4 (Some "data_source");
  mkControlField "pred_w0_we" 52 1 None;
  mkControlField "pred_w0_addr" 53 4 None;
  mkControlField "pred_w1_we" 57 1 None;
  mkControlField "pred_w1_addr" 58 4 None;
  mkControlField "pred_w1_src" 62 4 (Some "predicate_source");
  mkControlField "data_route_north_we" 66 1 None;
  mkControlField "data_route_north_src" 67 4 (Some "route_data_source");
  mkControlField "data_route_south_we" 71 1 None;
  mkControlField "data_route_south_src" 72 4 (Some "route_data_source");
  mkControlField "data_route_east_we" 76 1 None;
  mkControlField "data_route_east_src" 77 4 (Some "route_data_source");
  mkControlField "data_route_west_we" 81 1 None;
  mkControlField "data_route_west_src" 82 4 (Some "route_data_source");
  mkControlField "pred_route_north_we" 86 1 None;
  mkControlField "pred_route_north_src" 87 4 (Some "route_predicate_source");
  mkControlField "pred_route_south_we" 91 1 None;
  mkControlField "pred_route_south_src" 92 4 (Some "route_predicate_source");
  mkControlField "pred_route_east_we" 96 1 None;
  mkControlField "pred_route_east_src" 97 4 (Some "route_predicate_source");
  mkControlField "pred_route_west_we" 101 1 None;
  mkControlField "pred_route_west_src" 102 4 (Some "route_predicate_source");
  mkControlField "const_addr" 106 4 None;
  mkControlField "lsu_op" 110 2 (Some "lsu_op");
  mkControlField "lsu_addr_src" 112 4 (Some "data_source");
  mkControlField "lsu_store_data_src" 116 4 (Some "data_source");
  mkControlField "lsu_commit_pred_enable" 120 1 None;
  mkControlField "lsu_commit_pred_invert" 121 1 None;
  mkControlField "lsu_commit_pred_src" 122 4 (Some "predicate_source")].

Definition v2_controlLayout : ControlLayout :=
  mkControlLayout 126 128 4 32 "little_word" 126 2 0 v2_fields
    (list_to_map (imap (fun i f => (cf_name f, i)) v2_fields)).

Definition cgra_v2 : TargetModel :=
  mkTargetModel "cgra_v2_shared4p" 2
    (mkArrayDesc 4 4 32 1 false)
    v2_dataRF v2_predicateRF
    (mkInterconnectDesc "mesh_2d" true 1 false false true true 1)
    (mkMemoryDesc "shared_multiport_scratchpad" "word" 4096 32 4 2 1 1 1 1 1 "multi_load_only" false false)
    (mkLoopExecutionDesc true "finite_modulo_replay" ["prologue"; "kernel"; "epilogue"] false false false)
    v2_controlLayout 16
    [mkLsuTileDesc 0 0 0; mkLsuTileDesc 1 0 1; mkLsuTileDesc 2 0 2; mkLsuTileDesc 3 0 3]
    (list_to_map (prod_map id list_to_map <$> v2_encoding_table))
    (list_to_map (prod_map id (fun t => list_to_map ((fun e => (e.2, e.1)) <$> t))
                    <$> v2_encoding_table))
    v2_operations
    (list_to_map (imap (fun i op => (op_id op, i)) v2_operations))
    (list_to_set ["NOP"; "PASS"; "ADD"; "SUB"; "MUL"; "AND"; "OR"; "XOR"; "SHL"; "LSHR"; "SELECT"; "CMP_EQ"; "CMP_NE"; "CMP_ULT"; "CMP_ULE"; "PPASS"; "PNOT"; "PAND"; "POR"])
    ∅.

(** The contract satisfies everything the components rely on. *)

Lemma position_map_spec (ops : list TargetOperationDesc) (k : nat) name index :
  NoDup (op_id <$> ops) ->
  (list_to_map (imap (fun i op => (op_id op, (k + i)%nat)) ops) : gmap string nat) !! name
    = Some index <->
  exists op, (k <= index)%nat /\ ops !! (index - k)%nat = Some op /\ op_id op = name.
Proof.
  revert k. induction ops as [|op ops IH]; intros k Hnd.
  { simpl. rewrite lookup_empty. split; [done|]. by intros (op & _ & H & _). }
  rewrite fmap_cons in Hnd. apply NoDup_cons in Hnd as [Hn Hnd].
  rewrite imap_cons. cbn [list_to_map foldr]. rewrite Nat.add_0_r.
  assert (imap ((fun i op => (op_id op, (k + i)%nat)) ∘ S) ops
          = imap (fun i op => (op_id op, (S k + i)%nat)) ops) as ->.
  { apply imap_ext. intros i x _. simpl. f_equal. lia. }
  rewrite lookup_insert. case_decide as E.
  - subst name. split.
    + intros [= <-]. exists op. rewrite Nat.sub_diag. auto.
    + intros (op' & Hk & Hl & Hid). destruct (index - k)%nat as [|j] eqn:Ej.
      * simpl. f_equal. lia.
      * simpl in Hl, Hid |- *. exfalso. apply Hn. rewrite <- Hid. apply list_elem_of_fmap.
        exists op'. split; [done|]. by eapply list_elem_of_lookup_2.
  - fold (list_to_map (M := gmap string nat)
            (imap (fun i op => (op_id op, (S k + i)%nat)) ops)).
    etransitivity; [apply (IH (S k) Hnd)|]. split; intros (op' & Hk & Hl & Hid); exists op'.
    + split; [lia|]. split; [|done]. replace (index - k)%nat with (S (index - S k)) by lia. done.
    + destruct (index - k)%nat as [|j] eqn:Ej; [simpl in Hl, E; exfalso; apply E; congruence|].
      split; [lia|]. split; [|done]. by replace (index - S k)%nat with j by lia.
Qed.

Lemma cgra_v2_wf : TargetModel_wf cgra_v2.
Proof.
  split.
  - vm_compute. split; congruence.
  - vm_compute. split; congruence.
  - apply Forall_forall. repeat constructor; vm_compute; congruence.
  - apply (bool_decide_unpack _). vm_compute. done.
  - intros name index. etransitivity; [apply (position_map_spec v2_operations 0)|].
    + apply (bool_decide_unpack _). vm_compute. done.
    + setoid_rewrite Nat.sub_0_r. split.
      * intros (op & _ & H). by exists op.
      * intros (op & H). exists op. split; [lia|done].
  - apply Forall_forall. repeat constructor; vm_compute; congruence.
  - apply Forall_forall. repeat constructor; simpl; try done;
      (eexists; split; [reflexivity|vm_compute; split; congruence]).
  - vm_compute. split; congruence.
  - intros []; vm_compute; split; congruence.
Qed.
