(* ===== verification/TargetDFG.v ===== *)
(** * The target DFG container and its builder

    Models [compiler/include/cgra/Target/TargetDFG.h] and
    [compiler/lib/Target/TargetDFG.cpp]: the vectors of nodes and edges, the
    identifier indices, the cached adjacency lists, and every append operation.
    [TargetDFG_inv] is the class invariant; every builder step preserves it. *)
From stdpp Require Import base numbers list gmap strings.
From S2P Require Import Prelude.
From S2P Require Import IR.
From S2P Require Import TargetModel.

Record TargetNode := mkTargetNode {
  tn_id : Z;
  tn_operation : string;
  tn_executionClass : TargetExecutionClass;
  tn_resultType : ValueType;
  tn_operandTypes : list ValueType;
  tn_issueOccupancy : Z;
  tn_resultLatency : option Z;
  tn_genericOrigins : list Z;
  tn_producerOutputReadyOffset : option Z;
  tn_accessWidthBits : option Z
}.

#[export] Instance TargetNode_eq_dec : EqDecision TargetNode.
Proof. solve_decision. Defined.

Record TargetLiveOut := mkTargetLiveOut {
  tlo_id : Z;
  tlo_type : ValueType;
  tlo_name : string;
  tlo_source : Z
}.

Record TargetOperandBinding := mkTargetOperandBinding {
  tb_node : Z;
  tb_operand : Z;
  tb_source : ExternalOperandBinding
}.

Record TargetEdge := mkTargetEdge {
  te_id : Z;
  te_src : Z;
  te_dst : Z;
  te_distance : Z;
  te_info : EdgeInfo
}.

#[export] Instance TargetEdge_eq_dec : EqDecision TargetEdge.
Proof. solve_decision. Defined.

Definition TargetEdge_kind (edge : TargetEdge) : EdgeKind := EdgeInfo_kind (te_info edge).

Record TargetDFG := mkTargetDFG {
  td_name : string;
  td_targetName : string;
  td_nodes : list TargetNode;
  td_edges : list TargetEdge;
  td_externalValues : list ExternalValue;
  td_constants : list ConstantValue;
  td_liveOuts : list TargetLiveOut;
  td_bindings : list TargetOperandBinding;
  td_incoming : list (list Z);
  td_outgoing : list (list Z);
  td_nodeIndices : gmap Z nat;
  td_edgeIndices : gmap Z nat
}.

Definition TargetDFG_empty (name targetName : string) : TargetDFG :=
  mkTargetDFG name targetName [] [] [] [] [] [] [] [] ∅ ∅.

(** ** Readers *)

Section Readers.
Context (g : TargetDFG).

Definition containsNode (id : Z) : bool := bool_decide (is_Some (td_nodeIndices g !! id)).
Definition containsEdge (id : Z) : bool := bool_decide (is_Some (td_edgeIndices g !! id)).

Definition td_node (id : Z) : result TargetNode :=
  index ← of_option OutOfRange (td_nodeIndices g !! id);
  of_option OutOfRange (td_nodes g !! index).

Definition td_edge (id : Z) : result TargetEdge :=
  index ← of_option OutOfRange (td_edgeIndices g !! id);
  of_option OutOfRange (td_edges g !! index).

Definition incoming (id : Z) : result (list Z) :=
  index ← of_option OutOfRange (td_nodeIndices g !! id);
  of_option OutOfRange (td_incoming g !! index).

Definition outgoing (id : Z) : result (list Z) :=
  index ← of_option OutOfRange (td_nodeIndices g !! id);
  of_option OutOfRange (td_outgoing g !! index).
End Readers.

(** ** Appends *)

Definition appendNode (g : TargetDFG) (node : TargetNode) : result TargetDFG :=
  if bool_decide (is_Some (td_nodeIndices g !! tn_id node)) then Throw InvalidArgument
  else Ok (mkTargetDFG (td_name g) (td_targetName g)
             (td_nodes g ++ [node]) (td_edges g)
             (td_externalValues g) (td_constants g) (td_liveOuts g) (td_bindings g)
             (td_incoming g ++ [[]]) (td_outgoing g ++ [[]])
             (<[tn_id node := length (td_nodes g)]> (td_nodeIndices g))
             (td_edgeIndices g)).

Definition appendEdge (g : TargetDFG) (edge : TargetEdge) : result TargetDFG :=
  if bool_decide (is_Some (td_edgeIndices g !! te_id edge)) then Throw InvalidArgument
  else if negb (containsNode g (te_src edge)) || negb (containsNode g (te_dst edge))
  then Throw InvalidArgument
  else
    dst ← of_option OutOfRange (td_nodeIndices g !! te_dst edge);
    incoming' ← adjacency_push (td_incoming g) dst (te_id edge);
    src ← of_option OutOfRange (td_nodeIndices g !! te_src edge);
    outgoing' ← adjacency_push (td_outgoing g) src (te_id edge);
    Ok (mkTargetDFG (td_name g) (td_targetName g)
          (td_nodes g) (td_edges g ++ [edge])
          (td_externalValues g) (td_constants g) (td_liveOuts g) (td_bindings g)
          incoming' outgoing'
          (td_nodeIndices g)
          (<[te_id edge := length (td_edges g)]> (td_edgeIndices g))).

Definition appendExternal (g : TargetDFG) (value : ExternalValue) : TargetDFG :=
  mkTargetDFG (td_name g) (td_targetName g) (td_nodes g) (td_edges g)
    (td_externalValues g ++ [value]) (td_constants g) (td_liveOuts g) (td_bindings g)
    (td_incoming g) (td_outgoing g) (td_nodeIndices g) (td_edgeIndices g).

Definition appendConstant (g : TargetDFG) (value : ConstantValue) : TargetDFG :=
  mkTargetDFG (td_name g) (td_targetName g) (td_nodes g) (td_edges g)
    (td_externalValues g) (td_constants g ++ [value]) (td_liveOuts g) (td_bindings g)
    (td_incoming g) (td_outgoing g) (td_nodeIndices g) (td_edgeIndices g).

Definition appendLiveOut (g : TargetDFG) (liveOut : TargetLiveOut) : TargetDFG :=
  mkTargetDFG (td_name g) (td_targetName g) (td_nodes g) (td_edges g)
    (td_externalValues g) (td_constants g) (td_liveOuts g ++ [liveOut]) (td_bindings g)
    (td_incoming g) (td_outgoing g) (td_nodeIndices g) (td_edgeIndices g).

Definition appendBinding (g : TargetDFG) (binding : TargetOperandBinding) : TargetDFG :=
  mkTargetDFG (td_name g) (td_targetName g) (td_nodes g) (td_edges g)
    (td_externalValues g) (td_constants g) (td_liveOuts g)
    (sort_by_pair (fun b => (tb_node b, tb_operand b)) (td_bindings g ++ [binding]))
    (td_incoming g) (td_outgoing g) (td_nodeIndices g) (td_edgeIndices g).

(** [TargetDFGBuilder]: each call forwards to one append; [finish] yields the
    graph.  A command is one builder call. *)
Inductive BuilderCall :=
  | AddNode (node : TargetNode)
  | AddEdge (edge : TargetEdge)
  | AddExternal (value : ExternalValue)
  | AddConstant (value : ConstantValue)
  | AddLiveOut (liveOut : TargetLiveOut)
  | AddBinding (binding : TargetOperandBinding).

Definition builder_step (g : TargetDFG) (call : BuilderCall) : result TargetDFG :=
  match call with
  | AddNode node => appendNode g node
  | AddEdge edge => appendEdge g edge
  | AddExternal value => Ok (appendExternal g value)
  | AddConstant value => Ok (appendConstant g value)
  | AddLiveOut liveOut => Ok (appendLiveOut g liveOut)
  | AddBinding binding => Ok (appendBinding g binding)
  end.

Fixpoint builder_run (g : TargetDFG) (calls : list BuilderCall) : result TargetDFG :=
  match calls with
  | [] => Ok g
  | call :: calls => g' ← builder_step g call; builder_run g' calls
  end.

(** ** The class invariant *)

(** The cached lists: the edges ending at, or leaving, a node, in edge order. *)
Abbreviation in_edges := (edges_at te_id te_dst).
Abbreviation out_edges := (edges_at te_id te_src).

Record TargetDFG_inv (g : TargetDFG) : Prop := {
  inv_nodes : indexed tn_id (td_nodes g) (td_nodeIndices g);
  inv_edges : indexed te_id (td_edges g) (td_edgeIndices g);
  inv_endpoints : forall edge, edge ∈ td_edges g ->
    is_Some (td_nodeIndices g !! te_src edge) /\
    is_Some (td_nodeIndices g !! te_dst edge);
  inv_incoming :
    td_incoming g = (fun node => in_edges (td_edges g) (tn_id node)) <$> td_nodes g;
  inv_outgoing :
    td_outgoing g = (fun node => out_edges (td_edges g) (tn_id node)) <$> td_nodes g
}.

Lemma TargetDFG_empty_inv name targetName : TargetDFG_inv (TargetDFG_empty name targetName).
Proof.
  split; simpl; try done; try apply indexed_nil.
  intros edge H. by apply not_elem_of_nil in H.
Qed.

Lemma appendNode_inv g node g' :
  TargetDFG_inv g -> appendNode g node = Ok g' -> TargetDFG_inv g'.
Proof.
  intros [Hn He Hends Hin Hout]. unfold appendNode.
  case_bool_decide as Hfresh; [done|]. intros [= <-].
  apply eq_None_not_Some in Hfresh.
  split; simpl; [by apply indexed_append|done| | |].
  - intros edge Hedge. destruct (Hends _ Hedge). rewrite !lookup_insert_is_Some'. auto.
  - rewrite fmap_app, Hin. simpl. do 2 f_equal. symmetry. apply edges_at_unknown.
    intros edge Hedge E. destruct (Hends _ Hedge) as [_ [i Hi]]. congruence.
  - rewrite fmap_app, Hout. simpl. do 2 f_equal. symmetry.
    apply (edges_at_unknown te_id te_src).
    intros edge Hedge E. destruct (Hends _ Hedge) as [[i Hi] _]. congruence.
Qed.

Lemma appendEdge_inv g edge g' :
  TargetDFG_inv g -> appendEdge g edge = Ok g' -> TargetDFG_inv g'.
Proof.
  intros [Hn He Hends Hin Hout]. unfold appendEdge.
  case_bool_decide as Hfresh; [done|].
  destruct (_ || _)%bool eqn:Hnodes; [done|]. unfold containsNode in Hnodes.
  intros H. inv_ok. subst g'. bool_hyps. apply eq_None_not_Some in Hfresh.
  rewrite Hin in Hv0. rewrite Hout in Hv2.
  apply (adjacency_push_spec tn_id te_id te_dst _ _ _ _ _ _ Hn) in Hv0; [|done].
  apply (adjacency_push_spec tn_id te_id te_src _ _ _ _ _ _ Hn) in Hv2; [|done].
  split; simpl; [done|by apply indexed_append| |done|done].
  intros e Hedge. apply elem_of_app in Hedge as [Hedge|Hedge]; [by apply Hends|].
  apply list_elem_of_singleton in Hedge as ->. eauto.
Qed.

Lemma builder_step_inv g call g' :
  TargetDFG_inv g -> builder_step g call = Ok g' -> TargetDFG_inv g'.
Proof.
  intros Hinv. destruct call; simpl; intros H.
  - by eapply appendNode_inv.
  - by eapply appendEdge_inv.
  - injection H as <-. by destruct Hinv; split.
  - injection H as <-. by destruct Hinv; split.
  - injection H as <-. by destruct Hinv; split.
  - injection H as <-. by destruct Hinv; split.
Qed.

Lemma builder_run_inv g calls g' :
  TargetDFG_inv g -> builder_run g calls = Ok g' -> TargetDFG_inv g'.
Proof.
  revert g. induction calls as [|call calls IH]; simpl; intros g Hinv H.
  - by injection H as <-.
  - inv_ok. eapply IH; [|done]. by eapply builder_step_inv.
Qed.

(** ** Exactness of the readers under the invariant *)

Section ReaderLemmas.
Context (g : TargetDFG) (Hinv : TargetDFG_inv g).

Lemma td_node_Ok id node : td_node g id = Ok node <-> node ∈ td_nodes g /\ tn_id node = id.
Proof.
  unfold td_node. rewrite <- (index_find_Some tn_id _ _ _ _ (inv_nodes g Hinv)).
  unfold index_find. destruct (td_nodeIndices g !! id); simpl; [|done].
  apply of_option_Ok.
Qed.

Lemma td_edge_Ok id edge : td_edge g id = Ok edge <-> edge ∈ td_edges g /\ te_id edge = id.
Proof.
  unfold td_edge. rewrite <- (index_find_Some te_id _ _ _ _ (inv_edges g Hinv)).
  unfold index_find. destruct (td_edgeIndices g !! id); simpl; [|done].
  apply of_option_Ok.
Qed.

Lemma containsNode_true id :
  containsNode g id = true <-> exists node, node ∈ td_nodes g /\ tn_id node = id.
Proof.
  unfold containsNode. rewrite bool_decide_eq_true.
  apply indexed_contains, inv_nodes, Hinv.
Qed.

Lemma td_nodes_NoDup : NoDup (tn_id <$> td_nodes g).
Proof. eapply indexed_NoDup, inv_nodes, Hinv. Qed.

Lemma td_edges_NoDup : NoDup (te_id <$> td_edges g).
Proof. eapply indexed_NoDup, inv_edges, Hinv. Qed.

Lemma incoming_Ok node :
  node ∈ td_nodes g -> incoming g (tn_id node) = Ok (in_edges (td_edges g) (tn_id node)).
Proof.
  intros Hnode. apply list_elem_of_lookup in Hnode as (i & Hi). unfold incoming.
  assert (td_nodeIndices g !! tn_id node = Some i) as -> by (apply (inv_nodes g Hinv); eauto).
  simpl. rewrite (inv_incoming g Hinv), list_lookup_fmap, Hi. done.
Qed.

Lemma outgoing_Ok node :
  node ∈ td_nodes g -> outgoing g (tn_id node) = Ok (out_edges (td_edges g) (tn_id node)).
Proof.
  intros Hnode. apply list_elem_of_lookup in Hnode as (i & Hi). unfold outgoing.
  assert (td_nodeIndices g !! tn_id node = Some i) as -> by (apply (inv_nodes g Hinv); eauto).
  simpl. rewrite (inv_outgoing g Hinv), list_lookup_fmap, Hi. done.
Qed.

Lemma node_unique n n' :
  n ∈ td_nodes g -> n' ∈ td_nodes g -> tn_id n = tn_id n' -> n = n'.
Proof.
  intros H1 H2 E.
  assert (td_node g (tn_id n) = Ok n) by (apply td_node_Ok; auto).
  assert (td_node g (tn_id n) = Ok n') by (apply td_node_Ok; auto). congruence.
Qed.

Lemma edge_unique e e' :
  e ∈ td_edges g -> e' ∈ td_edges g -> te_id e = te_id e' -> e = e'.
Proof.
  intros H1 H2 E.
  assert (td_edge g (te_id e) = Ok e) by (apply td_edge_Ok; auto).
  assert (td_edge g (te_id e) = Ok e') by (apply td_edge_Ok; auto). congruence.
Qed.
End ReaderLemmas.
