(* ===== verification/TargetDFGVerifier.v ===== *)
(** * The target DFG verifier

    Models [compiler/{include/cgra,lib}/Target/TargetDFGVerifier.{h,cpp}].
    [tdfg_verify] returns the diagnostics in the order the code adds them (the
    message texts are left out); [TargetDFG_valid] is what an empty report
    promises. *)
From stdpp Require Import base numbers list gmap strings.
From S2P Require Import Prelude.
From S2P Require Import IR.
From S2P Require Import DFG.
From S2P Require Import TargetModel.
From S2P Require Import CgraV2.
From S2P Require Import TargetDFG.

Inductive TargetDFGDiagnosticCode :=
  | TDFG_UNKNOWN_NODE
  | TDFG_DUPLICATE_NODE
  | TDFG_DUPLICATE_EDGE
  | TDFG_DUPLICATE_EXTERNAL
  | TDFG_DUPLICATE_CONSTANT
  | TDFG_DUPLICATE_LIVEOUT
  | TDFG_ADJACENCY_INCONSISTENT
  | TDFG_UNKNOWN_EDGE_SOURCE
  | TDFG_UNKNOWN_EDGE_DESTINATION
  | TDFG_UNKNOWN_OPERATION
  | TDFG_NO_COMPATIBLE_EXECUTION_RESOURCE
  | TDFG_EXECUTION_CLASS_MISMATCH
  | TDFG_ISSUE_OCCUPANCY_MISMATCH
  | TDFG_RESULT_LATENCY_MISMATCH
  | TDFG_PRODUCER_OUTPUT_READY_MISMATCH
  | TDFG_MEMORY_ACCESS_WIDTH_MISMATCH
  | TDFG_RESULT_TYPE_MISMATCH
  | TDFG_UNSUPPORTED_TYPE
  | TDFG_OPERAND_INDEX_OUT_OF_RANGE
  | TDFG_MISSING_PROVIDER
  | TDFG_DUPLICATE_PROVIDER
  | TDFG_DATA_EDGE_INVALID
  | TDFG_PREDICATE_EDGE_INVALID
  | TDFG_MEMORY_EDGE_INVALID
  | TDFG_STORE_RESULT_INVALID
  | TDFG_LOAD_RESULT_INVALID
  | TDFG_OPERATION_ARITY_INVALID
  | TDFG_OPERATION_OPERAND_INVALID
  | TDFG_BINDING_UNKNOWN_NODE
  | TDFG_BINDING_UNKNOWN_EXTERNAL
  | TDFG_BINDING_UNKNOWN_CONSTANT
  | TDFG_BINDING_TYPE_MISMATCH
  | TDFG_PROVENANCE_EMPTY
  | TDFG_PROVENANCE_UNKNOWN_GENERIC_NODE
  | TDFG_LIVEOUT_UNKNOWN_NODE
  | TDFG_LIVEOUT_TYPE_MISMATCH.

#[export] Instance TargetDFGDiagnosticCode_eq_dec : EqDecision TargetDFGDiagnosticCode.
Proof. solve_decision. Defined.

Record TargetDFGDiagnostic := mkTD {
  tdg_code : TargetDFGDiagnosticCode;
  tdg_node : option Z;
  tdg_edge : option Z;
  tdg_operand : option Z
}.

#[export] Instance TargetDFGDiagnostic_eq_dec : EqDecision TargetDFGDiagnostic.
Proof. solve_decision. Defined.

(** ** Type and operation predicates *)

Definition isPredicate (type : ValueType) : bool :=
  bool_decide (vt_kind type = KPredicate) && (vt_bitWidth type =? 1).

Definition isData (type : ValueType) : bool :=
  match vt_kind type with KInteger | KFloat => true | _ => false end.

Definition roleMatches (role : TargetOperandRole) (type : ValueType) : bool :=
  match role with
  | RoleData => isData type
  | RolePredicate => isPredicate type
  | RoleAddress => bool_decide (vt_kind type = KInteger)
  end.

Definition resultRoleMatches (role : TargetResultRole) (type : ValueType) : bool :=
  match role with
  | ResData => isData type
  | ResPredicate => isPredicate type
  | ResVoid => bool_decide (type = voidTy)
  end.

Definition isLoadLike (op : TargetOperationDesc) : bool :=
  match op_executionClass op, op_resultRole op, op_operands op with
  | LSU, ResData, [operand] => bool_decide (od_role operand = RoleAddress)
  | _, _, _ => false
  end.

Definition isStoreLike (op : TargetOperationDesc) : bool :=
  match op_executionClass op, op_resultRole op, op_operands op with
  | LSU, ResVoid, address :: data :: _ =>
      bool_decide (od_role address = RoleAddress) &&
      bool_decide (od_role data = RoleData)
  | _, _, _ => false
  end.

(** ** The report *)

Section Verify.
Context (dfg : TargetDFG) (target : TargetModel) (generic : option DFG).

(** The local map from identifiers to nodes: [emplace] keeps the first. *)
Definition find_node (id : Z) : option TargetNode :=
  find_if (fun node => tn_id node =? id) (td_nodes dfg).

Definition find_external (id : Z) : option ExternalValue :=
  find_if (fun value => ext_id value =? id) (td_externalValues dfg).

Definition find_constant (id : Z) : option ConstantValue :=
  find_if (fun value => const_id value =? id) (td_constants dfg).

Definition id_diags : list TargetDFGDiagnostic :=
  ((fun node => mkTD TDFG_DUPLICATE_NODE (Some (tn_id node)) None None) <$>
     duplicates tn_id [] (td_nodes dfg)) ++
  ((fun edge => mkTD TDFG_DUPLICATE_EDGE None (Some (te_id edge)) None) <$>
     duplicates te_id [] (td_edges dfg)) ++
  ((fun _ => mkTD TDFG_DUPLICATE_EXTERNAL None None None) <$>
     duplicates ext_id [] (td_externalValues dfg)) ++
  ((fun _ => mkTD TDFG_DUPLICATE_CONSTANT None None None) <$>
     duplicates const_id [] (td_constants dfg)) ++
  ((fun _ => mkTD TDFG_DUPLICATE_LIVEOUT None None None) <$>
     duplicates tlo_id [] (td_liveOuts dfg)).

Definition binding_diags (binding : TargetOperandBinding) : list TargetDFGDiagnostic :=
  match find_node (tb_node binding) with
  | None => [mkTD TDFG_BINDING_UNKNOWN_NODE (Some (tb_node binding)) None None]
  | Some node =>
      match tn_operandTypes node !! nat_of (tb_operand binding) with
      | None => [mkTD TDFG_OPERAND_INDEX_OUT_OF_RANGE (Some (tb_node binding)) None
                   (Some (tb_operand binding))]
      | Some expected =>
          let mismatch := mkTD TDFG_BINDING_TYPE_MISMATCH (Some (tb_node binding)) None
                            (Some (tb_operand binding)) in
          match tb_source binding with
          | ExternalValueRef id =>
              match find_external id with
              | None => [mkTD TDFG_BINDING_UNKNOWN_EXTERNAL (Some (tb_node binding)) None None]
              | Some value => when (bool_decide (ext_type value <> expected)) [mismatch]
              end
          | ConstantRef id =>
              match find_constant id with
              | None => [mkTD TDFG_BINDING_UNKNOWN_CONSTANT (Some (tb_node binding)) None None]
              | Some value => when (bool_decide (const_type value <> expected)) [mismatch]
              end
          end
      end
  end.

(** The increments of the [providers] counters, in order. *)
Definition binding_provider (binding : TargetOperandBinding) : option (Z * Z) :=
  node ← find_node (tb_node binding);
  _ ← tn_operandTypes node !! nat_of (tb_operand binding);
  Some (tb_node binding, tb_operand binding).

Definition tedge_provider (edge : TargetEdge) : option (Z * Z) :=
  operand ← EdgeInfo_operand (te_info edge); Some (te_dst edge, operand).

Definition provider_keys : list (Z * Z) :=
  omap binding_provider (td_bindings dfg) ++ omap tedge_provider (td_edges dfg).

Definition provider_count (node operand : Z) : Z :=
  Z.of_nat (length (filter (fun key => key = (node, operand)) provider_keys)).

Definition value_type_diags : list TargetDFGDiagnostic :=
  flat_map (fun value => when (negb (supportsValueType target (ext_type value)))
                           [mkTD TDFG_UNSUPPORTED_TYPE None None None]) (td_externalValues dfg) ++
  flat_map (fun value => when (negb (supportsValueType target (const_type value)))
                           [mkTD TDFG_UNSUPPORTED_TYPE None None None]) (td_constants dfg).

Definition requiredOperands (op : TargetOperationDesc) : Z :=
  Z.of_nat (length (filter (fun operand => od_optional operand = false) (op_operands op))).

Definition node_diags (node : TargetNode) : list TargetDFGDiagnostic :=
  let diag code := mkTD code (Some (tn_id node)) None None in
  let diag_at code operand := mkTD code (Some (tn_id node)) None (Some operand) in
  let arity := Z.of_nat (length (tn_operandTypes node)) in
  match findOperation target (tn_operation node) with
  | None => [diag TDFG_UNKNOWN_OPERATION]
  | Some op =>
      when (negb (isOperationExecutable target op))
        [diag TDFG_NO_COMPATIBLE_EXECUTION_RESOURCE] ++
      when (bool_decide (op_executionClass op <> tn_executionClass node))
        [diag TDFG_EXECUTION_CLASS_MISMATCH] ++
      when (negb (op_issueOccupancy op =? tn_issueOccupancy node))
        [diag TDFG_ISSUE_OCCUPANCY_MISMATCH] ++
      when (bool_decide (op_resultLatency op <> tn_resultLatency node))
        [diag TDFG_RESULT_LATENCY_MISMATCH] ++
      when (bool_decide (op_producerOutputReadyOffset op <> tn_producerOutputReadyOffset node))
        [diag TDFG_PRODUCER_OUTPUT_READY_MISMATCH] ++
      when (bool_decide (op_accessWidthBits op <> tn_accessWidthBits node))
        [diag TDFG_MEMORY_ACCESS_WIDTH_MISMATCH] ++
      when (bool_decide (op_resultType op <> tn_resultType node))
        [diag TDFG_RESULT_TYPE_MISMATCH] ++
      when (negb (resultRoleMatches (op_resultRole op) (tn_resultType node)))
        [diag TDFG_RESULT_TYPE_MISMATCH] ++
      when (isStoreLike op && bool_decide (tn_resultType node <> voidTy))
        [diag TDFG_STORE_RESULT_INVALID] ++
      when (isLoadLike op && (bool_decide (tn_resultType node = voidTy) ||
                              bool_decide (tn_resultLatency node = None)))
        [diag TDFG_LOAD_RESULT_INVALID] ++
      when ((arity <? requiredOperands op) || (Z.of_nat (length (op_operands op)) <? arity))
        [diag TDFG_OPERATION_ARITY_INVALID] ++
      when (negb (supportsValueType target (tn_resultType node)))
        [diag TDFG_UNSUPPORTED_TYPE] ++
      flat_map (fun '(operand, type) =>
        when (negb (supportsValueType target type)) [diag_at TDFG_UNSUPPORTED_TYPE operand] ++
        when (match op_operands op !! nat_of operand with
              | None => true
              | Some desc => negb (roleMatches (od_role desc) type)
              end) [diag_at TDFG_OPERATION_OPERAND_INVALID operand])
        (enumerate (tn_operandTypes node)) ++
      when (bool_decide (tn_genericOrigins node = [])) [diag TDFG_PROVENANCE_EMPTY] ++
      match generic with
      | None => []
      | Some generic =>
          flat_map (fun origin => when (negb (d_containsNode generic origin))
                                    [diag TDFG_PROVENANCE_UNKNOWN_GENERIC_NODE])
            (tn_genericOrigins node)
      end ++
      flat_map (fun '(operand, _) =>
        if provider_count (tn_id node) operand =? 0
        then [diag_at TDFG_MISSING_PROVIDER operand]
        else when (1 <? provider_count (tn_id node) operand)
               [diag_at TDFG_DUPLICATE_PROVIDER operand])
        (enumerate (tn_operandTypes node))
  end.

(** [operand < operands.size() && role is none of these] makes an edge invalid. *)
Definition operand_role_in (op : TargetOperationDesc) (operand : Z)
  (roles : list TargetOperandRole) : bool :=
  match op_operands op !! nat_of operand with
  | None => true
  | Some desc => bool_decide (od_role desc ∈ roles)
  end.

Definition data_edge_ok (src dst : TargetNode) (operand : Z) : bool :=
  match tn_operandTypes dst !! nat_of operand,
        findOperation target (tn_operation dst), findOperation target (tn_operation src) with
  | Some type, Some dstOperation, Some srcOperation =>
      operand_role_in dstOperation operand [RoleData; RoleAddress] &&
      bool_decide (op_resultRole srcOperation = ResData) &&
      bool_decide (tn_resultType src = type)
  | _, _, _ => false
  end.

Definition predicate_edge_ok (src dst : TargetNode) (operand : Z) : bool :=
  match tn_operandTypes dst !! nat_of operand,
        findOperation target (tn_operation dst), findOperation target (tn_operation src) with
  | Some type, Some dstOperation, Some srcOperation =>
      operand_role_in dstOperation operand [RolePredicate] &&
      bool_decide (op_resultRole srcOperation = ResPredicate) && isPredicate type
  | _, _, _ => false
  end.

Definition memory_edge_ok (src dst : TargetNode) (dependence : MemoryDepKind) : bool :=
  let holds p node :=
    match findOperation target (tn_operation node) with Some op => p op | None => false end in
  match dependence with
  | RAW => holds isStoreLike src && holds isLoadLike dst
  | WAR => holds isLoadLike src && holds isStoreLike dst
  | WAW => holds isStoreLike src && holds isStoreLike dst
  end.

Definition edge_diags (edge : TargetEdge) : list TargetDFGDiagnostic :=
  match find_node (te_src edge), find_node (te_dst edge) with
  | None, _ => [mkTD TDFG_UNKNOWN_EDGE_SOURCE None (Some (te_id edge)) None]
  | Some _, None => [mkTD TDFG_UNKNOWN_EDGE_DESTINATION None (Some (te_id edge)) None]
  | Some src, Some dst =>
      let diag code operand := mkTD code (Some (tn_id dst)) (Some (te_id edge)) operand in
      match te_info edge with
      | DataEdgeInfo operand _ =>
          when (negb (data_edge_ok src dst operand)) [diag TDFG_DATA_EDGE_INVALID (Some operand)]
      | PredicateEdgeInfo operand _ =>
          when (negb (predicate_edge_ok src dst operand))
            [diag TDFG_PREDICATE_EDGE_INVALID (Some operand)]
      | MemoryEdgeInfo dependence =>
          when (negb (memory_edge_ok src dst dependence)) [diag TDFG_MEMORY_EDGE_INVALID None]
      end
  end.

Definition liveOut_diags (liveOut : TargetLiveOut) : list TargetDFGDiagnostic :=
  match find_node (tlo_source liveOut) with
  | None => [mkTD TDFG_LIVEOUT_UNKNOWN_NODE None None None]
  | Some node =>
      when (bool_decide (tn_resultType node <> tlo_type liveOut))
        [mkTD TDFG_LIVEOUT_TYPE_MISMATCH (Some (tlo_source liveOut)) None None]
  end ++
  when (negb (supportsValueType target (tlo_type liveOut)))
    [mkTD TDFG_UNSUPPORTED_TYPE (Some (tlo_source liveOut)) None None].

(** The edges whose two end points are known and whose [endpoint] is [id]. *)
Definition expected_edges (endpoint : TargetEdge -> Z) (id : Z) : list Z :=
  te_id <$> filter (fun edge => endpoint edge = id /\ is_Some (find_node (te_src edge)) /\
                                is_Some (find_node (te_dst edge))) (td_edges dfg).

Definition adjacency_diags (node : TargetNode) : result (list TargetDFGDiagnostic) :=
  actualIncoming ← incoming dfg (tn_id node);
  actualOutgoing ← outgoing dfg (tn_id node);
  Ok (when (bool_decide (actualIncoming <> expected_edges te_dst (tn_id node)) ||
            bool_decide (actualOutgoing <> expected_edges te_src (tn_id node)))
        [mkTD TDFG_ADJACENCY_INCONSISTENT (Some (tn_id node)) None None]).

Fixpoint all_adjacency_diags (nodes : list TargetNode) : result (list TargetDFGDiagnostic) :=
  match nodes with
  | [] => Ok []
  | node :: nodes =>
      diags ← adjacency_diags node;
      rest ← all_adjacency_diags nodes;
      Ok (diags ++ rest)
  end.

Definition tdfg_verify : result (list TargetDFGDiagnostic) :=
  adjacency ← all_adjacency_diags (td_nodes dfg);
  Ok (id_diags ++ flat_map binding_diags (td_bindings dfg) ++ value_type_diags ++
      flat_map node_diags (td_nodes dfg) ++ flat_map edge_diags (td_edges dfg) ++
      flat_map liveOut_diags (td_liveOuts dfg) ++ adjacency).
End Verify.

(** ** What a clean report promises *)

Section Valid.
Context (dfg : TargetDFG) (target : TargetModel) (generic : option DFG).

(** A node is an instance of its descriptor. *)
Definition node_valid (node : TargetNode) : Prop :=
  exists op, findOperation target (tn_operation node) = Some op /\
    isOperationExecutable target op = true /\
    op_executionClass op = tn_executionClass node /\
    op_issueOccupancy op = tn_issueOccupancy node /\
    op_resultLatency op = tn_resultLatency node /\
    op_producerOutputReadyOffset op = tn_producerOutputReadyOffset node /\
    op_accessWidthBits op = tn_accessWidthBits node /\
    op_resultType op = tn_resultType node /\
    resultRoleMatches (op_resultRole op) (tn_resultType node) = true /\
    (isLoadLike op = true -> tn_resultLatency node <> None) /\
    requiredOperands op <= Z.of_nat (length (tn_operandTypes node)) <=
      Z.of_nat (length (op_operands op)) /\
    supportsValueType target (tn_resultType node) = true /\
    (forall i type, tn_operandTypes node !! i = Some type ->
       supportsValueType target type = true /\
       exists desc, op_operands op !! i = Some desc /\ roleMatches (od_role desc) type = true) /\
    tn_genericOrigins node <> [] /\
    (forall g origin, generic = Some g -> origin ∈ tn_genericOrigins node ->
       d_containsNode g origin = true).

Definition binding_valid (binding : TargetOperandBinding) : Prop :=
  exists node type, find_node dfg (tb_node binding) = Some node /\
    tn_operandTypes node !! nat_of (tb_operand binding) = Some type /\
    match tb_source binding with
    | ExternalValueRef id => exists value, find_external dfg id = Some value /\ ext_type value = type
    | ConstantRef id => exists value, find_constant dfg id = Some value /\ const_type value = type
    end.

(** An edge joins two nodes of the graph, and its kind fits what the source
    produces and what the destination operand expects. *)
Definition edge_valid (edge : TargetEdge) : Prop :=
  exists src dst, find_node dfg (te_src edge) = Some src /\
    find_node dfg (te_dst edge) = Some dst /\
    match te_info edge with
    | DataEdgeInfo operand _ => data_edge_ok target src dst operand = true
    | PredicateEdgeInfo operand _ => predicate_edge_ok target src dst operand = true
    | MemoryEdgeInfo dependence => memory_edge_ok target src dst dependence = true
    end.

Definition liveOut_valid (liveOut : TargetLiveOut) : Prop :=
  supportsValueType target (tlo_type liveOut) = true /\
  exists node, find_node dfg (tlo_source liveOut) = Some node /\
    tn_resultType node = tlo_type liveOut.

Record TargetDFG_valid : Prop := {
  tv_nodes_distinct : NoDup (tn_id <$> td_nodes dfg);
  tv_edges_distinct : NoDup (te_id <$> td_edges dfg);
  tv_externals_distinct : NoDup (ext_id <$> td_externalValues dfg);
  tv_constants_distinct : NoDup (const_id <$> td_constants dfg);
  tv_liveOuts_distinct : NoDup (tlo_id <$> td_liveOuts dfg);
  tv_externals : forall value, value ∈ td_externalValues dfg ->
    supportsValueType target (ext_type value) = true;
  tv_constants : forall value, value ∈ td_constants dfg ->
    supportsValueType target (const_type value) = true;
  tv_bindings : forall binding, binding ∈ td_bindings dfg -> binding_valid binding;
  tv_nodes : forall node, node ∈ td_nodes dfg -> node_valid node;
  tv_providers : forall node, node ∈ td_nodes dfg -> forall operand,
    0 <= operand < Z.of_nat (length (tn_operandTypes node)) ->
    provider_count dfg (tn_id node) operand = 1;
  tv_edges : forall edge, edge ∈ td_edges dfg -> edge_valid edge;
  tv_liveOuts : forall liveOut, liveOut ∈ td_liveOuts dfg -> liveOut_valid liveOut
}.

Lemma id_diags_nil :
  id_diags dfg = [] <->
  NoDup (tn_id <$> td_nodes dfg) /\ NoDup (te_id <$> td_edges dfg) /\
  NoDup (ext_id <$> td_externalValues dfg) /\ NoDup (const_id <$> td_constants dfg) /\
  NoDup (tlo_id <$> td_liveOuts dfg).
Proof. unfold id_diags. autorewrite with report. done. Qed.

Lemma binding_diags_nil binding :
  binding_diags dfg binding = [] <-> binding_valid binding.
Proof.
  unfold binding_diags, binding_valid.
  destruct (find_node dfg (tb_node binding)) as [node|]; [|naive_solver].
  destruct (tn_operandTypes node !! nat_of (tb_operand binding)) as [type|] eqn:Et;
    [|naive_solver].
  destruct (tb_source binding) as [id|id].
  - destruct (find_external dfg id) as [value|]; [|naive_solver].
    autorewrite with report. rewrite bool_decide_eq_false. split.
    + intros H. exists node, type. split_and!; [done..|]. exists value. split; [done|].
      by destruct (decide (ext_type value = type)).
    + naive_solver.
  - destruct (find_constant dfg id) as [value|]; [|naive_solver].
    autorewrite with report. rewrite bool_decide_eq_false. split.
    + intros H. exists node, type. split_and!; [done..|]. exists value. split; [done|].
      by destruct (decide (const_type value = type)).
    + naive_solver.
Qed.

Lemma edge_diags_nil edge : edge_diags dfg target edge = [] <-> edge_valid edge.
Proof.
  unfold edge_diags, edge_valid.
  destruct (find_node dfg (te_src edge)) as [src|]; [|naive_solver].
  destruct (find_node dfg (te_dst edge)) as [dst|]; [|naive_solver].
  destruct (te_info edge); autorewrite with report; naive_solver.
Qed.

Lemma liveOut_diags_nil liveOut : liveOut_diags dfg target liveOut = [] <-> liveOut_valid liveOut.
Proof.
  unfold liveOut_diags, liveOut_valid. autorewrite with report.
  destruct (find_node dfg (tlo_source liveOut)) as [node|]; [|naive_solver].
  autorewrite with report. rewrite bool_decide_eq_false.
  destruct (decide (tn_resultType node = tlo_type liveOut)); naive_solver.
Qed.
End Valid.

Section ExactReport.
Context (dfg : TargetDFG) (target : TargetModel) (generic : option DFG).

Lemma storeLike_void op node :
  resultRoleMatches (op_resultRole op) (tn_resultType node) = true ->
  (isStoreLike op && bool_decide (tn_resultType node <> voidTy))%bool = false.
Proof.
  intros H. unfold isStoreLike. destruct (op_executionClass op); [done|].
  destruct (op_resultRole op); simpl in *; try done. apply bool_decide_eq_true in H as ->.
  by rewrite bool_decide_eq_false_2, andb_false_r by naive_solver.
Qed.

Lemma loadLike_latency op node :
  resultRoleMatches (op_resultRole op) (tn_resultType node) = true ->
  (isLoadLike op && (bool_decide (tn_resultType node = voidTy) ||
                     bool_decide (tn_resultLatency node = None)))%bool = false <->
  (isLoadLike op = true -> tn_resultLatency node <> None).
Proof.
  intros H. destruct (isLoadLike op) eqn:E; simpl; [|naive_solver].
  rewrite orb_false_iff, !bool_decide_eq_false. split; [naive_solver|]. intros Hl.
  split; [|auto]. intros Ev. rewrite Ev in H. unfold isLoadLike in E.
  destruct (op_executionClass op), (op_resultRole op); done.
Qed.

Lemma operand_diags_nil op types (D1 D2 : Z -> TargetDFGDiagnostic) :
  flat_map (fun '(operand, type) =>
    when (negb (supportsValueType target type)) [D1 operand] ++
    when (match op_operands op !! nat_of operand with
          | None => true
          | Some desc => negb (roleMatches (od_role desc) type)
          end) [D2 operand]) (enumerate types) = [] <->
  (forall i type, types !! i = Some type -> supportsValueType target type = true /\
     exists desc, op_operands op !! i = Some desc /\ roleMatches (od_role desc) type = true).
Proof.
  autorewrite with report. split.
  - intros H i type Hi. specialize (H (Z.of_nat i, type)).
    rewrite elem_of_enumerate, Nat2Z.id in H. specialize (H (conj (Nat2Z.is_nonneg i) Hi)).
    autorewrite with report in H. destruct H as [H1 H2].
    split; [done|]. destruct (op_operands op !! i) as [desc|]; [|done].
    exists desc. split; [done|]. by apply negb_false_iff.
  - intros H [i type] Hi. apply elem_of_enumerate in Hi as [_ Hi].
    apply H in Hi as (Hs & desc & Hd & Hr). rewrite Hd, Hs, Hr. done.
Qed.

Lemma origin_diags_nil origins (D : TargetDFGDiagnostic) :
  match generic with
  | None => []
  | Some generic =>
      flat_map (fun origin => when (negb (d_containsNode generic origin)) [D]) origins
  end = [] <->
  (forall g origin, generic = Some g -> origin ∈ origins -> d_containsNode g origin = true).
Proof.
  destruct generic as [g|]; [|naive_solver]. autorewrite with report. split.
  - intros H g' origin [= <-] Ho. specialize (H _ Ho). by autorewrite with report in H.
  - intros H origin Ho. autorewrite with report. by apply (H g).
Qed.

Lemma provider_diags_nil id (types : list ValueType) (D1 D2 : Z -> TargetDFGDiagnostic) :
  flat_map (fun '(operand, _) =>
    if provider_count dfg id operand =? 0 then [D1 operand]
    else when (1 <? provider_count dfg id operand) [D2 operand]) (enumerate types) = [] <->
  (forall operand, 0 <= operand < Z.of_nat (length types) -> provider_count dfg id operand = 1).
Proof.
  autorewrite with report. split.
  - intros H operand Ho. destruct (lookup_lt_is_Some_2 types (nat_of operand)) as [type Ht]; [lia|].
    specialize (H (operand, type)). rewrite elem_of_enumerate in H.
    specialize (H ltac:(split; [lia|done])). cbn beta match in H.
    destruct (Z.eqb_spec (provider_count dfg id operand) 0); [done|].
    autorewrite with report in H. unfold provider_count in *. lia.
  - intros H [operand type] Ho. apply elem_of_enumerate in Ho as [H0 Ho].
    apply lookup_lt_Some in Ho. rewrite H by lia. done.
Qed.

Lemma node_diags_nil node :
  node_diags dfg target generic node = [] <->
  node_valid target generic node /\
  forall operand, 0 <= operand < Z.of_nat (length (tn_operandTypes node)) ->
    provider_count dfg (tn_id node) operand = 1.
Proof.
  unfold node_diags, node_valid.
  destruct (findOperation target (tn_operation node)) as [op|]; [|naive_solver].
  rewrite !app_nil_iff, origin_diags_nil, operand_diags_nil, provider_diags_nil.
  autorewrite with report. rewrite !bool_decide_eq_false.
  assert (forall (A : Type) (d : EqDecision A) (x y : A), ~ x <> y <-> x = y) as Hdec.
  { intros A d x y. destruct (decide (x = y)); naive_solver. }
  rewrite !Hdec by apply _.
  split.
  - intros H. destruct_and?. split; [|done]. exists op. split_and!; try done.
    by apply loadLike_latency.
  - intros [(op' & [= <-] & H) Hp]. destruct_and?. split_and!; try done.
    + by apply storeLike_void.
    + by apply loadLike_latency.
Qed.

Lemma value_type_diags_nil :
  value_type_diags dfg target = [] <->
  (forall value, value ∈ td_externalValues dfg -> supportsValueType target (ext_type value) = true) /\
  (forall value, value ∈ td_constants dfg -> supportsValueType target (const_type value) = true).
Proof.
  unfold value_type_diags. autorewrite with report.
  setoid_rewrite when_cons_nil. setoid_rewrite negb_false_iff. done.
Qed.

Lemma find_node_of_index (Hinv : TargetDFG_inv dfg) id :
  is_Some (find_node dfg id) <-> is_Some (td_nodeIndices dfg !! id).
Proof.
  rewrite (indexed_contains tn_id _ _ _ (inv_nodes dfg Hinv)). unfold find_node. split.
  - intros [node H]. apply find_if_Some in H as [? ?]. exists node. split; [done|lia].
  - intros (node & Hn & Hid). apply find_if_is_Some. exists node. split; [done|lia].
Qed.

Lemma expected_edges_all (Hinv : TargetDFG_inv dfg) endpoint id :
  expected_edges dfg endpoint id = edges_at te_id endpoint (td_edges dfg) id.
Proof.
  unfold expected_edges, edges_at. f_equal. apply list_filter_ext_in. intros edge Hedge.
  rewrite !(find_node_of_index Hinv). pose proof (inv_endpoints dfg Hinv _ Hedge). tauto.
Qed.

(** The cached adjacency of a graph made by the builder is never reported. *)
Lemma all_adjacency_diags_nil (Hinv : TargetDFG_inv dfg) nodes :
  nodes ⊆ td_nodes dfg -> all_adjacency_diags dfg nodes = Ok [].
Proof.
  induction nodes as [|node nodes IH]; intros Hsub; simpl; [done|].
  unfold adjacency_diags. rewrite incoming_Ok, outgoing_Ok by (try done; apply Hsub; left).
  simpl. rewrite !(expected_edges_all Hinv), !bool_decide_eq_false_2 by naive_solver.
  simpl. by rewrite IH by set_solver.
Qed.
End ExactReport.

(** The report of a graph with the class invariant, as one list. *)
Lemma tdfg_verify_eq dfg target generic :
  TargetDFG_inv dfg ->
  tdfg_verify dfg target generic =
    Ok (id_diags dfg ++ flat_map (binding_diags dfg) (td_bindings dfg) ++
        value_type_diags dfg target ++ flat_map (node_diags dfg target generic) (td_nodes dfg) ++
        flat_map (edge_diags dfg target) (td_edges dfg) ++
        flat_map (liveOut_diags dfg target) (td_liveOuts dfg)).
Proof.
  intros Hinv. unfold tdfg_verify.
  rewrite (all_adjacency_diags_nil _ Hinv) by done. simpl. by rewrite app_nil_r.
Qed.

Lemma tdfg_verify_clean dfg target generic :
  TargetDFG_inv dfg ->
  tdfg_verify dfg target generic = Ok [] <-> TargetDFG_valid dfg target generic.
Proof.
  intros Hinv. rewrite tdfg_verify_eq by done.
  assert (forall d : list TargetDFGDiagnostic, Ok d = Ok [] <-> d = []) as ->
    by (split; congruence).
  rewrite !app_nil_iff, id_diags_nil, value_type_diags_nil, !flat_map_nil_iff.
  setoid_rewrite binding_diags_nil. setoid_rewrite node_diags_nil.
  setoid_rewrite edge_diags_nil. setoid_rewrite liveOut_diags_nil. split.
  - intros H. destruct_and?. split; try done; naive_solver.
  - intros []. split_and!; naive_solver.
Qed.

(** Codes that no diagnostic of a builder-made graph carries. *)
Lemma report_codes dfg target generic d :
  TargetDFG_inv dfg ->
  d ∈ id_diags dfg ++ flat_map (binding_diags dfg) (td_bindings dfg) ++
      value_type_diags dfg target ++ flat_map (node_diags dfg target generic) (td_nodes dfg) ++
      flat_map (edge_diags dfg target) (td_edges dfg) ++
      flat_map (liveOut_diags dfg target) (td_liveOuts dfg) ->
  tdg_code d ∉ [TDFG_DUPLICATE_NODE; TDFG_DUPLICATE_EDGE;
    TDFG_UNKNOWN_EDGE_SOURCE; TDFG_UNKNOWN_EDGE_DESTINATION; TDFG_ADJACENCY_INCONSISTENT].
Proof.
  intros Hinv. rewrite !elem_of_app.
  assert (Hwhen : forall b (x : TargetDFGDiagnostic), d ∈ when b [x] -> d = x).
  { intros [] x H; [by apply list_elem_of_singleton in H|by apply not_elem_of_nil in H]. }
  intros [H|[H|[H|[H|[H|H]]]]].
  - unfold id_diags in H.
    rewrite (proj2 (duplicates_nil tn_id _)) in H by (by apply td_nodes_NoDup).
    rewrite (proj2 (duplicates_nil te_id _)) in H by (by apply td_edges_NoDup). simpl in H.
    repeat (apply elem_of_app in H as [H|H]);
      apply list_elem_of_fmap in H as (? & -> & _); vm_compute; set_solver.
  - apply elem_of_flat_map in H as (b & _ & H). unfold binding_diags in H.
    repeat case_match; try (apply list_elem_of_singleton in H); try (apply Hwhen in H);
      subst d; simpl; set_solver.
  - unfold value_type_diags in H. apply elem_of_app in H as [H|H];
      apply elem_of_flat_map in H as (v & _ & H); apply Hwhen in H as ->; simpl; set_solver.
  - apply elem_of_flat_map in H as (node & _ & H). unfold node_diags in H.
    destruct (findOperation _ _); [|apply list_elem_of_singleton in H as ->; simpl; set_solver].
    rewrite !elem_of_app in H.
    repeat (destruct H as [H|H]; [apply Hwhen in H as ->; simpl; set_solver|]).
    repeat match type of H with _ \/ _ => destruct H as [H|H] end; try (by apply Hwhen in H as ->; simpl; set_solver).
    + apply elem_of_flat_map in H as ([o ty] & _ & H). apply elem_of_app in H as [H|H];
        apply Hwhen in H as ->; simpl; set_solver.
    + destruct generic; [|by apply not_elem_of_nil in H].
      apply elem_of_flat_map in H as (o & _ & H). apply Hwhen in H as ->; simpl; set_solver.
    + apply elem_of_flat_map in H as ([o ty] & _ & H).
      destruct (_ =? _); [apply list_elem_of_singleton in H as ->|apply Hwhen in H as ->];
        simpl; set_solver.
  - apply elem_of_flat_map in H as (edge & He & H). unfold edge_diags in H.
    apply (inv_endpoints dfg Hinv) in He as [Hs Hd].
    apply (find_node_of_index dfg Hinv) in Hs as [src Hs].
    apply (find_node_of_index dfg Hinv) in Hd as [dst Hd]. rewrite Hs, Hd in H.
    destruct (te_info edge); apply Hwhen in H as ->; simpl; set_solver.
  - apply elem_of_flat_map in H as (lo & _ & H). unfold liveOut_diags in H.
    apply elem_of_app in H as [H|H]; [|apply Hwhen in H as ->; simpl; set_solver].
    destruct (find_node _ _); [apply Hwhen in H as ->|apply list_elem_of_singleton in H as ->];
      simpl; set_solver.
Qed.

(** An accumulating kernel for the shipped contract: load, add to the running
    sum of the previous iteration, store, with both memory orderings. *)
Definition v2_accumulate_calls : list BuilderCall := [
  AddExternal (mkExternalValue 0 vt_i32 "source");
  AddExternal (mkExternalValue 1 vt_i32 "destination");
  AddConstant (mkConstantValue 0 vt_i32 0);
  AddNode (mkTargetNode 0 "LOAD" LSU vt_i32 [vt_i32] 1 (Some 2) [10] (Some 2) (Some 32));
  AddNode (mkTargetNode 1 "ADD" FU vt_i32 [vt_i32; vt_i32] 1 (Some 1) [11] (Some 0) None);
  AddNode (mkTargetNode 2 "STORE" LSU voidTy [vt_i32; vt_i32] 1 None [12] None (Some 32));
  AddBinding (mkTargetOperandBinding 0 0 (ExternalValueRef 0));
  AddBinding (mkTargetOperandBinding 2 0 (ExternalValueRef 1));
  AddEdge (mkTargetEdge 0 0 1 0 (DataEdgeInfo 0 None));
  AddEdge (mkTargetEdge 1 1 1 1
    (DataEdgeInfo 1 (Some [mkRecurrenceBoundaryValue 0 (ConstantRef 0)])));
  AddEdge (mkTargetEdge 2 1 2 0 (DataEdgeInfo 1 None));
  AddEdge (mkTargetEdge 3 0 2 0 (MemoryEdgeInfo WAR));
  AddEdge (mkTargetEdge 4 2 0 1 (MemoryEdgeInfo RAW));
  AddLiveOut (mkTargetLiveOut 0 vt_i32 "sum" 1)].

Definition v2_accumulate : TargetDFG :=
  match builder_run (TargetDFG_empty "accumulate" "cgra_v2_shared4p") v2_accumulate_calls with
  | Ok g => g
  | Throw _ => TargetDFG_empty "accumulate" "cgra_v2_shared4p"
  end.

Lemma v2_accumulate_inv : TargetDFG_inv v2_accumulate.
Proof.
  unfold v2_accumulate. destruct (builder_run _ _) eqn:E; [|apply TargetDFG_empty_inv].
  eapply builder_run_inv; [apply TargetDFG_empty_inv|exact E].
Qed.

Lemma v2_accumulate_verified : tdfg_verify v2_accumulate cgra_v2 None = Ok [].
Proof. vm_compute. reflexivity. Qed.

(** ** Properties *)

(** C38: the target verifier is exact.  On any graph made by the builder the
    verification returns a report (it never throws); the report is empty exactly
    when the graph satisfies the typing, arity, timing, provider, provenance and
    edge rules of [TargetDFG_valid]; and identifiers, end points and adjacency
    caches of such a graph are never the subject of a diagnostic. *)
Theorem tdfg_verify_exact (dfg : TargetDFG) (target : TargetModel) (generic : option DFG) :
  TargetDFG_inv dfg ->
  exists report, tdfg_verify dfg target generic = Ok report /\
    (report = [] <-> TargetDFG_valid dfg target generic) /\
    (forall diagnostic, diagnostic ∈ report ->
       tdg_code diagnostic ∉ [TDFG_DUPLICATE_NODE; TDFG_DUPLICATE_EDGE;
         TDFG_UNKNOWN_EDGE_SOURCE; TDFG_UNKNOWN_EDGE_DESTINATION; TDFG_ADJACENCY_INCONSISTENT]).
Proof.
  intros Hinv. pose proof (tdfg_verify_clean dfg target generic Hinv) as Hclean.
  rewrite tdfg_verify_eq in * by done. eexists. split; [reflexivity|]. split.
  { rewrite <- Hclean. split; congruence. }
  intros d Hd. by apply (report_codes dfg target generic).
Qed.

Lemma tdfg_verify_exact_witness :
  exists report, tdfg_verify v2_accumulate cgra_v2 None = Ok report /\
    (report = [] <-> TargetDFG_valid v2_accumulate cgra_v2 None) /\
    (forall diagnostic, diagnostic ∈ report ->
       tdg_code diagnostic ∉ [TDFG_DUPLICATE_NODE; TDFG_DUPLICATE_EDGE;
         TDFG_UNKNOWN_EDGE_SOURCE; TDFG_UNKNOWN_EDGE_DESTINATION; TDFG_ADJACENCY_INCONSISTENT]).
Proof. apply (tdfg_verify_exact v2_accumulate cgra_v2 None v2_accumulate_inv). Defined.
