(* ===== verification/TargetLegalizer.v ===== *)
(** * Legalization: from the generic graph to the target graph

    Models [compiler/{include/cgra,lib}/Target/TargetLegalizer.{h,cpp}].  A
    verified generic graph is checked against the machine (the preflight) and
    then rebuilt, node by node and edge by edge, through the target builder.  The
    role tests the source repeats in its own anonymous namespace are those of
    [TargetDFGVerifier]; message texts are left out. *)
From stdpp Require Import base numbers list gmap strings.
From S2P Require Import Prelude.
From S2P Require Import IR.
From S2P Require Import DFG.
From S2P Require Import DFGVerifier.
From S2P Require Import TargetModel.
From S2P Require Import CgraV2.
From S2P Require Import TargetDFG.
From S2P Require Import TargetDFGVerifier.

Inductive LegalizationStatus :=
  | LegalSuccess
  | InvalidGenericDFG
  | UnsupportedType
  | UnsupportedOperation
  | UnsupportedComparePredicate
  | UnsupportedMemoryAccessWidth
  | NoCompatibleExecutionResource
  | TargetContractError
  | LegalInternalError.

#[export] Instance LegalizationStatus_eq_dec : EqDecision LegalizationStatus.
Proof. solve_decision. Defined.

Definition LegalizationStatus_toString (status : LegalizationStatus) : string :=
  match status with
  | LegalSuccess => "success"
  | InvalidGenericDFG => "invalid_generic_dfg"
  | UnsupportedType => "unsupported_type"
  | UnsupportedOperation => "unsupported_operation"
  | UnsupportedComparePredicate => "unsupported_compare_predicate"
  | UnsupportedMemoryAccessWidth => "unsupported_memory_access_width"
  | NoCompatibleExecutionResource => "no_compatible_execution_resource"
  | TargetContractError => "target_contract_error"
  | LegalInternalError => "internal_error"
  end.

Record LegalizationDiagnostic := mkTL {
  tld_status : LegalizationStatus;
  tld_code : string;
  tld_genericNode : option Z
}.

(** [LegalizationMap::genericToTarget] is [tlr_map]. *)
Record TargetLegalizationResult := mkTLR {
  tlr_dfg : option TargetDFG;
  tlr_map : gmap Z (list Z);
  tlr_diagnostics : list LegalizationDiagnostic
}.

Definition tlr_ok (res : TargetLegalizationResult) : bool :=
  bool_decide (is_Some (tlr_dfg res)) && bool_decide (tlr_diagnostics res = []).

(** ** The operation of a node; empty when there is none *)

Definition operationFor (node : Node) : string :=
  match node_opcode node with
  | OpAdd => "ADD" | OpSub => "SUB" | OpMul => "MUL"
  | OpAnd => "AND" | OpOr => "OR" | OpXor => "XOR"
  | OpShl => "SHL" | OpLShr => "LSHR" | OpAShr => "ASHR"
  | OpSelect => "SELECT" | OpLoad => "LOAD" | OpStore => "STORE"
  | OpICmp =>
      match node_icmpPredicate node with
      | None => ""
      | Some predicate =>
          match predicate with
          | CmpEQ => "CMP_EQ" | CmpNE => "CMP_NE"
          | CmpULT => "CMP_ULT" | CmpULE => "CMP_ULE" | CmpUGT => "CMP_UGT" | CmpUGE => "CMP_UGE"
          | CmpSLT => "CMP_SLT" | CmpSLE => "CMP_SLE" | CmpSGT => "CMP_SGT" | CmpSGE => "CMP_SGE"
          end
      end
  end.

Section Legalize.
Context (generic : DFG) (target : TargetModel).

(** ** The preflight *)

Definition unsupported_type (node : option Z) : LegalizationDiagnostic :=
  mkTL UnsupportedType "TLEG_UNSUPPORTED_TYPE" node.

Definition preflight_values : list LegalizationDiagnostic :=
  flat_map (fun value => when (negb (supportsValueType target (ext_type value)))
                           [unsupported_type None]) (d_externalValues generic) ++
  flat_map (fun value => when (negb (supportsValueType target (const_type value)))
                           [unsupported_type None]) (d_constants generic).

Definition memory_width_ok (node : Node) (op : TargetOperationDesc) : bool :=
  match node_memoryInfo node, op_accessWidthBits op with
  | Some info, Some width => mi_accessWidthBits info =? width
  | _, _ => false
  end.

(** The loop body over the nodes: a diagnostic, or the planned operation. *)
Definition preflight_node (node : Node) : LegalizationDiagnostic + TargetOperationDesc :=
  let diag status code := inl (mkTL status code (Some (node_id node))) in
  let compare := bool_decide (node_opcode node = OpICmp) in
  let supportedType :=
    foldl (fun supported operand => supportsValueType target operand && supported)
      (supportsValueType target (node_resultType node)) (node_operandTypes node) in
  if negb supportedType then inl (unsupported_type (Some (node_id node)))
  else if String.eqb (operationFor node) "" then
    diag (if compare then UnsupportedComparePredicate else UnsupportedOperation)
      (if compare then "TLEG_UNSUPPORTED_ICMP_PREDICATE" else "TLEG_UNSUPPORTED_OPCODE")%string
  else match findOperation target (operationFor node) with
  | None =>
      diag (if compare then UnsupportedComparePredicate else UnsupportedOperation)
        (if compare then "TLEG_UNSUPPORTED_ICMP_PREDICATE"
         else "TLEG_MISSING_TARGET_OPERATION")%string
  | Some op =>
      if negb (isOperationExecutable target op)
      then diag NoCompatibleExecutionResource "TLEG_NO_COMPATIBLE_EXECUTION_RESOURCE"
      else if (bool_decide (node_opcode node = OpLoad) || bool_decide (node_opcode node = OpStore))
              && negb (memory_width_ok node op)
      then diag UnsupportedMemoryAccessWidth "TLEG_UNSUPPORTED_MEMORY_ACCESS_WIDTH"
      else if (Z.of_nat (length (node_operandTypes node)) <? requiredOperands op) ||
              (Z.of_nat (length (op_operands op)) <? Z.of_nat (length (node_operandTypes node)))
      then diag TargetContractError "TLEG_INVALID_TARGET_OPERATION_DESC"
      else if negb (forallb (fun '(desc, type) => roleMatches (od_role desc) type)
                      (zip (op_operands op) (node_operandTypes node))) ||
              negb (resultRoleMatches (op_resultRole op) (node_resultType node))
      then diag TargetContractError "TLEG_INVALID_TARGET_OPERATION_DESC"
      else if bool_decide (op_resultType op <> node_resultType node)
      then diag TargetContractError "TLEG_INVALID_TARGET_OPERATION_DESC"
      else inr op
  end.

(** The plan and the diagnostics of the loop over the nodes. *)
Fixpoint preflight_nodes (nodes : list Node)
  : list (Z * TargetOperationDesc) * list LegalizationDiagnostic :=
  match nodes with
  | [] => ([], [])
  | node :: nodes =>
      let '(plan, diagnostics) := preflight_nodes nodes in
      match preflight_node node with
      | inl diagnostic => (plan, diagnostic :: diagnostics)
      | inr op => ((node_id node, op) :: plan, diagnostics)
      end
  end.

Definition preflight_liveOuts : list LegalizationDiagnostic :=
  flat_map (fun value => when (negb (supportsValueType target (lo_type value)))
                           [unsupported_type (Some (lo_source value))]) (d_liveOuts generic).

(** ** Materialization *)

Abbreviation NodeMap := (gmap Z (list Z)).

(** [genericToTarget.at(id).front()]; the vectors of the map are never empty. *)
Definition mapped_node (m : NodeMap) (id : Z) : result Z :=
  targets ← of_option OutOfRange (m !! id);
  of_option LogicError (head targets).

Definition legal_node (id : Z) (op : TargetOperationDesc) (source : Node) : TargetNode :=
  mkTargetNode id (op_id op) (op_executionClass op) (node_resultType source)
    (node_operandTypes source) (op_issueOccupancy op) (op_resultLatency op) [node_id source]
    (op_producerOutputReadyOffset op) (op_accessWidthBits op).

Fixpoint place_nodes (plan : list (Z * TargetOperationDesc)) (nextNode : Z) (t : TargetDFG)
    (m : NodeMap) : result (TargetDFG * NodeMap) :=
  match plan with
  | [] => Ok (t, m)
  | (genericNode, op) :: plan =>
      source ← d_node generic genericNode;
      t' ← builder_step t (AddNode (legal_node nextNode op source));
      place_nodes plan (wrap32 (nextNode + 1)) t'
        (<[genericNode := default [] (m !! genericNode) ++ [nextNode]]> m)
  end.

Fixpoint place_edges (edges : list Edge) (nextEdge : Z) (t : TargetDFG) (m : NodeMap)
  : result TargetDFG :=
  match edges with
  | [] => Ok t
  | edge :: edges =>
      src ← mapped_node m (edge_src edge);
      dst ← mapped_node m (edge_dst edge);
      t' ← builder_step t
             (AddEdge (mkTargetEdge nextEdge src dst (edge_distance edge) (edge_info edge)));
      place_edges edges (wrap32 (nextEdge + 1)) t' m
  end.

Fixpoint place_bindings (bindings : list OperandBinding) (t : TargetDFG) (m : NodeMap)
  : result TargetDFG :=
  match bindings with
  | [] => Ok t
  | binding :: bindings =>
      node ← mapped_node m (ob_node binding);
      t' ← builder_step t
             (AddBinding (mkTargetOperandBinding node (ob_operand binding) (ob_source binding)));
      place_bindings bindings t' m
  end.

Fixpoint place_liveOuts (liveOuts : list LiveOut) (t : TargetDFG) (m : NodeMap)
  : result TargetDFG :=
  match liveOuts with
  | [] => Ok t
  | liveOut :: liveOuts =>
      source ← mapped_node m (lo_source liveOut);
      t' ← builder_step t
             (AddLiveOut (mkTargetLiveOut (lo_id liveOut) (lo_type liveOut) (lo_name liveOut)
                            source));
      place_liveOuts liveOuts t' m
  end.

Definition materialize (plan : list (Z * TargetOperationDesc))
  : result (TargetDFG * NodeMap) :=
  t ← builder_run (TargetDFG_empty (d_name generic) (tm_name target))
        ((AddExternal <$> d_externalValues generic) ++ (AddConstant <$> d_constants generic));
  placed ← place_nodes plan 0 t ∅;
  let '(t, m) := placed in
  t ← place_edges (d_edges generic) 0 t m;
  t ← place_bindings (d_bindings generic) t m;
  t ← place_liveOuts (d_liveOuts generic) t m;
  Ok (t, m).

Definition legalize : result TargetLegalizationResult :=
  if negb (report_ok (dfg_verify generic))
  then Ok (mkTLR None ∅ [mkTL InvalidGenericDFG "TLEG_INVALID_GENERIC_DFG" None])
  else
    let '(plan, nodeDiagnostics) := preflight_nodes (d_nodes generic) in
    let diagnostics := preflight_values ++ nodeDiagnostics ++ preflight_liveOuts in
    if bool_decide (diagnostics <> []) then Ok (mkTLR None ∅ diagnostics)
    else
      materialized ← materialize plan;
      let '(t, m) := materialized in
      Ok (mkTLR (Some t) m []).
End Legalize.

(** ** The preflight decides mappability *)

Section Preflight.
Context (target : TargetModel).

(** [op] implements [node] on the machine. *)
Record legal_op (node : Node) (op : TargetOperationDesc) : Prop := {
  lo_found : findOperation target (operationFor node) = Some op;
  lo_named : operationFor node <> "";
  lo_result_supported : supportsValueType target (node_resultType node) = true;
  lo_operands_supported : Forall (fun type => supportsValueType target type = true)
    (node_operandTypes node);
  lo_executable : isOperationExecutable target op = true;
  lo_width : node_opcode node = OpLoad \/ node_opcode node = OpStore ->
    exists info, node_memoryInfo node = Some info /\
                 op_accessWidthBits op = Some (mi_accessWidthBits info);
  lo_required : requiredOperands op <= Z.of_nat (length (node_operandTypes node));
  lo_arity : (length (node_operandTypes node) <= length (op_operands op))%nat;
  lo_roles : forall i type, node_operandTypes node !! i = Some type ->
    exists desc, op_operands op !! i = Some desc /\ roleMatches (od_role desc) type = true;
  lo_result_role : resultRoleMatches (op_resultRole op) (node_resultType node) = true;
  lo_result : op_resultType op = node_resultType node
}.

Lemma supported_fold types acc :
  foldl (fun supported operand => supportsValueType target operand && supported) acc types = true <->
  acc = true /\ Forall (fun type => supportsValueType target type = true) types.
Proof.
  revert acc. induction types as [|type types IH]; intros acc; simpl; [naive_solver|].
  rewrite IH, andb_true_iff, Forall_cons. naive_solver.
Qed.

Lemma zip_roles (descs : list TargetOperandDesc) types :
  (length types <= length descs)%nat ->
  forallb (fun '(desc, type) => roleMatches (od_role desc) type) (zip descs types) = true <->
  forall i type, types !! i = Some type ->
    exists desc, descs !! i = Some desc /\ roleMatches (od_role desc) type = true.
Proof.
  revert descs. induction types as [|type types IH]; intros [|desc descs] Hlen; simpl in *;
    [done..|lia|].
  rewrite andb_true_iff, IH by lia. split.
  - intros [H1 H2] [|i] t Hi; simpl in *; [|auto]. injection Hi as <-. eauto.
  - intros H. split.
    + destruct (H 0%nat type eq_refl) as (d & [= <-] & Hd). done.
    + intros i t Hi. by apply (H (S i)).
Qed.

Lemma memory_width_spec node op :
  memory_width_ok node op = true <->
  exists info, node_memoryInfo node = Some info /\
               op_accessWidthBits op = Some (mi_accessWidthBits info).
Proof.
  unfold memory_width_ok.
  destruct (node_memoryInfo node) as [info|], (op_accessWidthBits op) as [width|];
    rewrite ?Z.eqb_eq; naive_solver.
Qed.

Lemma preflight_node_inr node op : preflight_node target node = inr op <-> legal_op node op.
Proof.
  unfold preflight_node. split.
  - intros H. destruct (foldl _ _ _) eqn:Es; simpl in H; [|done].
    apply supported_fold in Es as [Hr Ho]. destruct (String.eqb_spec (operationFor node) "");
      [done|]. destruct (findOperation target (operationFor node)) as [found|] eqn:Ef; [|done].
    destruct (isOperationExecutable target found) eqn:Ex; simpl in H; [|done].
    destruct (_ && negb (memory_width_ok node found)) eqn:Ew; [done|].
    destruct (_ || _) eqn:Ea in H; [done|]. destruct (_ || _) eqn:Er in H; [done|].
    case_bool_decide as Et; [done|]. injection H as <-. bool_hyps.
    split; try done; try lia.
    + intros Hop. apply memory_width_spec. apply andb_false_iff in Ew as [Ew|Ew].
      * apply orb_false_iff in Ew. rewrite !bool_decide_eq_false in Ew. naive_solver.
      * by apply negb_false_iff.
    + apply zip_roles; [lia|done].
  - intros []. rewrite (proj2 (supported_fold _ _)) by done. simpl.
    destruct (String.eqb_spec (operationFor node) ""); [done|].
    rewrite lo_found0, lo_executable0. simpl.
    assert ((bool_decide (node_opcode node = OpLoad) || bool_decide (node_opcode node = OpStore))
              && negb (memory_width_ok node op) = false) as ->.
    { destruct (bool_decide (node_opcode node = OpLoad) || bool_decide (node_opcode node = OpStore))
        eqn:E; [|done]. simpl. apply negb_false_iff, memory_width_spec, lo_width0.
      apply orb_true_iff in E. rewrite !bool_decide_eq_true in E. done. }
    assert ((Z.of_nat (length (node_operandTypes node)) <? requiredOperands op) ||
            (Z.of_nat (length (op_operands op)) <? Z.of_nat (length (node_operandTypes node)))
            = false) as ->.
    { rewrite orb_false_iff, !Z.ltb_ge. lia. }
    rewrite (proj2 (zip_roles _ _ lo_arity0) lo_roles0), lo_result_role0, lo_result0. simpl.
    by rewrite bool_decide_eq_false_2 by naive_solver.
Qed.

(** The plan, when no node is reported: one legal operation per node. *)
Lemma preflight_nodes_spec nodes plan :
  preflight_nodes target nodes = (plan, []) <->
  Forall2 (fun node item => item.1 = node_id node /\ legal_op node item.2) nodes plan.
Proof.
  revert plan. induction nodes as [|node nodes IH]; intros plan; simpl.
  { split; [by intros [= <-]|by inversion 1]. }
  destruct (preflight_nodes target nodes) as [plan' diags'].
  destruct (preflight_node target node) as [d|op] eqn:E.
  - split; [done|]. intros H. inversion H as [|? item ? ? [_ Hop]]; subst.
    apply preflight_node_inr in Hop. congruence.
  - apply preflight_node_inr in E. split.
    + intros [= <- ->]. constructor; [done|]. by apply IH.
    + intros H. inversion H as [|? [id op'] ? plan'' [Eid Hop] Hrest]; subst. simpl in *. subst id.
      apply IH in Hrest. injection Hrest as -> ->.
      apply preflight_node_inr in E, Hop. congruence.
Qed.

Lemma preflight_nodes_diags nodes :
  (preflight_nodes target nodes).2 = [] <->
  forall node, node ∈ nodes -> exists op, legal_op node op.
Proof.
  split.
  - destruct (preflight_nodes target nodes) as [plan diags] eqn:E. simpl. intros ->.
    apply preflight_nodes_spec in E. intros node Hn.
    apply list_elem_of_lookup in Hn as [i Hi].
    destruct (Forall2_lookup_l _ _ _ _ _ E Hi) as ([id op] & _ & _ & Hop). eauto.
  - intros H. assert (exists plan, Forall2 (fun node item =>
      item.1 = node_id node /\ legal_op node item.2) nodes plan) as [plan Hplan].
    { induction nodes as [|node nodes IH]; [by exists []|].
      destruct (H node ltac:(left)) as [op Hop].
      destruct IH as [plan Hplan]; [intros n Hn; apply H; by right|].
      exists ((node_id node, op) :: plan). by constructor. }
    apply preflight_nodes_spec in Hplan. by rewrite Hplan.
Qed.
End Preflight.

(** ** What materialization builds *)

(** The appends of one kind leave the other parts of the graph alone. *)
Definition same_values (t t' : TargetDFG) : Prop :=
  td_name t' = td_name t /\ td_targetName t' = td_targetName t /\
  td_externalValues t' = td_externalValues t /\ td_constants t' = td_constants t.

Lemma place_values_spec t externals constants :
  exists t', builder_run t ((AddExternal <$> externals) ++ (AddConstant <$> constants)) = Ok t' /\
    td_name t' = td_name t /\ td_targetName t' = td_targetName t /\
    td_externalValues t' = td_externalValues t ++ externals /\
    td_constants t' = td_constants t ++ constants /\
    td_nodes t' = td_nodes t /\ td_edges t' = td_edges t /\
    td_liveOuts t' = td_liveOuts t /\ td_bindings t' = td_bindings t.
Proof.
  revert t. induction externals as [|x xs IH]; intros t; simpl.
  - revert t. induction constants as [|c cs IHc]; intros t; simpl.
    + exists t. by rewrite !app_nil_r.
    + destruct (IHc (appendConstant t c)) as (t' & Hrun & Hrest). exists t'. split; [done|].
      simpl in Hrest. rewrite <- app_assoc in Hrest. naive_solver.
  - destruct (IH (appendExternal t x)) as (t' & Hrun & Hrest). exists t'. split; [done|].
    simpl in Hrest. rewrite <- app_assoc in Hrest. naive_solver.
Qed.

Lemma appendEdge_total t edge :
  TargetDFG_inv t -> containsNode t (te_src edge) = true -> containsNode t (te_dst edge) = true ->
  td_edgeIndices t !! te_id edge = None ->
  exists t', appendEdge t edge = Ok t' /\ same_values t t' /\ td_nodes t' = td_nodes t /\
    td_edges t' = td_edges t ++ [edge] /\
    td_liveOuts t' = td_liveOuts t /\ td_bindings t' = td_bindings t.
Proof.
  intros Hinv Hs Hd Hfresh. unfold appendEdge. rewrite Hfresh, Hs, Hd. simpl.
  unfold containsNode in Hs, Hd. apply bool_decide_eq_true in Hs as [i Hi], Hd as [j Hj].
  rewrite Hi, Hj. simpl.
  pose proof (adjacency_push_total tn_id te_id te_dst _ _ (td_edges t) edge j
    (inv_nodes t Hinv) Hj) as Hin. rewrite <- (inv_incoming t Hinv) in Hin.
  pose proof (adjacency_push_total tn_id te_id te_src _ _ (td_edges t) edge i
    (inv_nodes t Hinv) Hi) as Hout. rewrite <- (inv_outgoing t Hinv) in Hout.
  destruct (adjacency_push (td_incoming t) j (te_id edge)); [|done].
  destruct (adjacency_push (td_outgoing t) i (te_id edge)); [|done].
  eexists. split; [reflexivity|]. done.
Qed.

Lemma wrap32_next k : wrap32 (wrap32 k + 1) = wrap32 (k + 1).
Proof. unfold wrap32. by rewrite Z.add_mod_idemp_l. Qed.

Section Materialize.
Context (generic : DFG) (target : TargetModel).

(** Nodes and edges are renumbered by their positions. *)
Definition position (id : Z) : Z := Z.of_nat (default 0%nat (d_nodeIndices generic !! id)).

Definition target_node (i : nat) (item : Node * TargetOperationDesc) : TargetNode :=
  legal_node (Z.of_nat i) item.2 item.1.

Definition target_edge (i : nat) (edge : Edge) : TargetEdge :=
  mkTargetEdge (Z.of_nat i) (position (edge_src edge)) (position (edge_dst edge))
    (edge_distance edge) (edge_info edge).

Definition target_binding (binding : OperandBinding) : TargetOperandBinding :=
  mkTargetOperandBinding (position (ob_node binding)) (ob_operand binding) (ob_source binding).

Definition target_liveOut (liveOut : LiveOut) : TargetLiveOut :=
  mkTargetLiveOut (lo_id liveOut) (lo_type liveOut) (lo_name liveOut)
    (position (lo_source liveOut)).

(** The renamed graph: the abstract specification of legalization. *)
Record renamed (ops : list TargetOperationDesc) (t : TargetDFG) : Prop := {
  rn_name : td_name t = d_name generic;
  rn_target : td_targetName t = tm_name target;
  rn_externals : td_externalValues t = d_externalValues generic;
  rn_constants : td_constants t = d_constants generic;
  rn_nodes : td_nodes t = imap target_node (zip (d_nodes generic) ops);
  rn_edges : td_edges t = imap target_edge (d_edges generic);
  rn_bindings : td_bindings t ≡ₚ target_binding <$> d_bindings generic;
  rn_liveOuts : td_liveOuts t = target_liveOut <$> d_liveOuts generic
}.

Context (Hcoh : DFG_coherent generic).

Lemma index_of_node i node :
  d_nodes generic !! i = Some node -> d_nodeIndices generic !! node_id node = Some i.
Proof using Hcoh.
  intros Hi. assert (Hn : node ∈ d_nodes generic) by (by eapply list_elem_of_lookup_2).
  pose proof (dc_node generic Hcoh node Hn) as H. unfold d_node in H. inv_ok.
  rewrite Hv. f_equal. eapply NoDup_lookup; [exact (dc_nodes generic Hcoh)| |];
    rewrite list_lookup_fmap; [by rewrite H|by rewrite Hi].
Qed.

Lemma position_of_node i node :
  d_nodes generic !! i = Some node -> position (node_id node) = Z.of_nat i.
Proof using Hcoh. intros Hi. unfold position. by rewrite (index_of_node i node Hi). Qed.

(** The map once the first [n] nodes are placed. *)
Definition maps_first (n : nat) (m : gmap Z (list Z)) : Prop :=
  (forall i node, (i < n)%nat -> d_nodes generic !! i = Some node ->
     m !! node_id node = Some [Z.of_nat i]) /\
  (forall i node, (n <= i)%nat -> d_nodes generic !! i = Some node -> m !! node_id node = None).

Lemma maps_first_insert n m node :
  maps_first n m -> d_nodes generic !! n = Some node ->
  maps_first (S n) (<[node_id node := default [] (m !! node_id node) ++ [Z.of_nat n]]> m).
Proof using Hcoh.
  intros [Hlo Hhi] Hn. rewrite (Hhi n node) by done. simpl.
  assert (Hinj : forall i node', d_nodes generic !! i = Some node' ->
            node_id node' = node_id node -> i = n).
  { intros i node' Hi E. apply index_of_node in Hi, Hn. rewrite E in Hi. congruence. }
  split; intros i node' Hin Hi.
  - destruct (decide (i = n)) as [->|Hne].
    + assert (node' = node) as -> by congruence. by rewrite lookup_insert_eq.
    + rewrite lookup_insert_ne by (intros E; apply Hne; by eapply Hinj). apply Hlo; [lia|done].
  - rewrite lookup_insert_ne by (intros E; assert (i = n) by (by eapply Hinj); lia).
    apply (Hhi i); [lia|done].
Qed.

Lemma mapped_node_spec m node :
  maps_first (length (d_nodes generic)) m -> node ∈ d_nodes generic ->
  mapped_node m (node_id node) = Ok (position (node_id node)).
Proof using Hcoh.
  intros [Hlo _] Hn. apply list_elem_of_lookup in Hn as [i Hi]. unfold mapped_node.
  rewrite (Hlo i node) by (done || by eapply lookup_lt_Some). simpl.
  by rewrite (position_of_node i node Hi).
Qed.

Lemma place_nodes_spec rest ops n t m :
  drop n (d_nodes generic) = rest -> length ops = length rest ->
  Z.of_nat (length (d_nodes generic)) <= u32_max + 1 -> maps_first n m ->
  TargetDFG_inv t -> tn_id <$> td_nodes t = Z.of_nat <$> seq 0 n ->
  exists t' m',
    place_nodes generic (zip (node_id <$> rest) ops) (wrap32 (Z.of_nat n)) t m = Ok (t', m') /\
    TargetDFG_inv t' /\ maps_first (length (d_nodes generic)) m' /\ same_values t t' /\
    td_nodes t' = td_nodes t ++ imap (fun i => target_node (n + i)) (zip rest ops) /\
    td_edges t' = td_edges t /\ td_liveOuts t' = td_liveOuts t /\ td_bindings t' = td_bindings t.
Proof using Hcoh.
  revert ops n t m. induction rest as [|node rest IH]; intros ops n t m Hrest Hlen Hmax Hm Hinv Hids.
  - exists t, m. simpl. rewrite app_nil_r. split_and!; try done.
    assert (length (d_nodes generic) <= n)%nat.
    { apply (f_equal length) in Hrest. rewrite length_drop in Hrest. simpl in Hrest. clear -Hrest. lia. }
    destruct Hm as [Hlo Hhi]. split; intros i nd Hi Hnd; [apply Hlo|apply (Hhi i)]; try done.
    all: apply lookup_lt_Some in Hnd; clear -H Hi Hnd; lia.
  - destruct ops as [|op ops]; [done|]. simpl.
    assert (Hn : d_nodes generic !! n = Some node).
    { rewrite <- (Nat.add_0_r n), <- lookup_drop, Hrest. done. }
    assert (Hlt : (n < length (d_nodes generic))%nat) by (by eapply lookup_lt_Some).
    assert (Hw : wrap32 (Z.of_nat n) = Z.of_nat n).
    { apply wrap32_id. clear - Hlt Hmax. unfold is_u32. lia. }
    rewrite (dc_node generic Hcoh node) by (by eapply list_elem_of_lookup_2). simpl.
    rewrite wrap32_next, Hw. unfold appendNode at 1. simpl.
    assert (Hfresh : td_nodeIndices t !! Z.of_nat n = None).
    { apply eq_None_not_Some. intros Hs.
      apply (indexed_contains tn_id _ _ _ (inv_nodes t Hinv)) in Hs as (x & Hx & Ex).
      apply (list_elem_of_fmap_2 tn_id) in Hx. rewrite Hids, Ex in Hx.
      apply list_elem_of_fmap in Hx as (k & Ek & Hk). apply elem_of_seq in Hk.
      clear - Ek Hk. lia. }
    rewrite bool_decide_eq_false_2 by (rewrite Hfresh; by intros []). simpl.
    match goal with |- context [place_nodes _ _ _ ?t1 _] => set (t1' := t1) end.
    assert (Hinv1 : TargetDFG_inv t1').
    { apply (appendNode_inv t (legal_node (Z.of_nat n) op node)); [done|]. unfold appendNode. simpl.
      by rewrite bool_decide_eq_false_2 by (rewrite Hfresh; by intros []). }
    destruct (IH ops (S n) t1' _ ltac:(by erewrite drop_S in Hrest by done; injection Hrest)
      ltac:(simpl in Hlen; clear -Hlen; lia) Hmax (maps_first_insert _ _ _ Hm Hn) Hinv1)
      as (t' & m' & Hrun & Hinv' & Hm' & Hsame & Hnodes & Hrest').
    { rewrite seq_S. unfold t1'. simpl. by rewrite !fmap_app, Hids. }
    exists t', m'. rewrite Nat2Z.inj_succ, <- Z.add_1_r in Hrun.
    split_and!; try done; try apply Hrest'.
    rewrite Hnodes. unfold t1'. simpl. rewrite <- app_assoc. simpl. do 2 f_equal.
    + unfold target_node. simpl. by rewrite Nat.add_0_r.
    + apply imap_ext. intros i x _. simpl. by rewrite Nat.add_succ_r.
Qed.

(** A target graph that holds the renamed nodes. *)
Definition holds_nodes (t : TargetDFG) : Prop :=
  tn_id <$> td_nodes t = Z.of_nat <$> seq 0 (length (d_nodes generic)).

Lemma contains_position t node :
  TargetDFG_inv t -> holds_nodes t -> node ∈ d_nodes generic ->
  containsNode t (position (node_id node)) = true.
Proof using Hcoh.
  intros Hinv Hids Hn. apply (containsNode_true t Hinv).
  apply list_elem_of_lookup in Hn as [i Hi]. rewrite (position_of_node i node Hi).
  assert (Hin : Z.of_nat i ∈ tn_id <$> td_nodes t).
  { rewrite Hids. apply list_elem_of_fmap_2, elem_of_seq. apply lookup_lt_Some in Hi.
    clear - Hi. lia. }
  apply list_elem_of_fmap in Hin as (x & Ex & Hx). by exists x.
Qed.

Lemma place_edges_spec rest n t m :
  drop n (d_edges generic) = rest ->
  Z.of_nat (length (d_edges generic)) <= u32_max + 1 ->
  maps_first (length (d_nodes generic)) m ->
  (forall edge, edge ∈ rest -> exists src dst, src ∈ d_nodes generic /\ dst ∈ d_nodes generic /\
     node_id src = edge_src edge /\ node_id dst = edge_dst edge) ->
  TargetDFG_inv t -> holds_nodes t -> te_id <$> td_edges t = Z.of_nat <$> seq 0 n ->
  exists t', place_edges rest (wrap32 (Z.of_nat n)) t m = Ok t' /\
    TargetDFG_inv t' /\ same_values t t' /\ td_nodes t' = td_nodes t /\
    td_edges t' = td_edges t ++ imap (fun i => target_edge (n + i)) rest /\
    td_liveOuts t' = td_liveOuts t /\ td_bindings t' = td_bindings t.
Proof using Hcoh.
  revert n t. induction rest as [|edge rest IH]; intros n t Hrest Hmax Hm Hends Hinv Hnodes Hids.
  { exists t. rewrite app_nil_r. done. }
  simpl. destruct (Hends edge ltac:(left)) as (src & dst & Hsrc & Hdst & Esrc & Edst).
  rewrite <- Esrc, <- Edst, !(mapped_node_spec m) by done. cbn [mbind result_bind].
  assert (Hn : d_edges generic !! n = Some edge).
  { rewrite <- (Nat.add_0_r n), <- lookup_drop, Hrest. done. }
  assert (Hw : wrap32 (Z.of_nat n) = Z.of_nat n).
  { apply wrap32_id. apply lookup_lt_Some in Hn. clear - Hn Hmax. unfold is_u32. lia. }
  rewrite wrap32_next, Hw.
  set (new := mkTargetEdge (Z.of_nat n) (position (node_id src)) (position (node_id dst))
    (edge_distance edge) (edge_info edge)).
  destruct (appendEdge_total t new) as (t1 & Happ & Hsame & Hnodes1 & Hedges1 & Hlo1 & Hb1);
    [done|by apply contains_position|by apply contains_position| |].
  { apply eq_None_not_Some. intros Hs.
    apply (indexed_contains te_id _ _ _ (inv_edges t Hinv)) in Hs as (x & Hx & Ex).
    apply (list_elem_of_fmap_2 te_id) in Hx. rewrite Hids, Ex in Hx. simpl in Hx.
    apply list_elem_of_fmap in Hx as (k & Ek & Hk). apply elem_of_seq in Hk. clear - Ek Hk. lia. }
  simpl. rewrite Happ. cbn [mbind result_bind].
  destruct (IH (S n) t1) as (t' & Hrun & Hinv' & Hsame' & Hnodes' & Hedges' & Hlo' & Hb'); try done.
  - by erewrite drop_S in Hrest by done; injection Hrest.
  - intros e He. apply Hends. by right.
  - by eapply appendEdge_inv.
  - unfold holds_nodes. by rewrite Hnodes1.
  - rewrite Hedges1, seq_S, !fmap_app, Hids. done.
  - exists t'. rewrite Nat2Z.inj_succ, <- Z.add_1_r in Hrun. split_and!; try done; try congruence.
    + destruct Hsame as (? & ? & ? & ?), Hsame' as (? & ? & ? & ?). split_and!; congruence.
    + rewrite Hedges', Hedges1, <- app_assoc. simpl. f_equal. f_equal.
      * unfold target_edge, new. by rewrite Nat.add_0_r, Esrc, Edst.
      * apply imap_ext. intros i x _. simpl. by rewrite Nat.add_succ_r.
Qed.

Lemma place_bindings_spec bindings t m :
  maps_first (length (d_nodes generic)) m ->
  (forall binding, binding ∈ bindings -> exists node, node ∈ d_nodes generic /\
     node_id node = ob_node binding) ->
  TargetDFG_inv t ->
  exists t', place_bindings bindings t m = Ok t' /\
    TargetDFG_inv t' /\ same_values t t' /\ td_nodes t' = td_nodes t /\
    td_edges t' = td_edges t /\ td_liveOuts t' = td_liveOuts t /\
    td_bindings t' ≡ₚ td_bindings t ++ (target_binding <$> bindings).
Proof using Hcoh.
  intros Hm. revert t. induction bindings as [|b bs IH]; intros t Hends Hinv; simpl.
  { exists t. by rewrite app_nil_r. }
  destruct (Hends b ltac:(left)) as (node & Hn & En).
  rewrite <- En, (mapped_node_spec m) by done. cbn [mbind result_bind].
  match goal with |- context [place_bindings _ ?t1 _] => set (t1' := t1) end.
  destruct (IH t1') as (t' & Hrun & Hinv' & Hsame & Hnodes & Hedges & Hlo & Hb).
  { intros x Hx. apply Hends. by right. }
  { destruct Hinv; by split. }
  exists t'. split_and!; try done. rewrite Hb. unfold t1'. simpl. rewrite sort_by_pair_perm.
  unfold target_binding at 2. by rewrite <- app_assoc, <- En.
Qed.

Lemma place_liveOuts_spec liveOuts t m :
  maps_first (length (d_nodes generic)) m ->
  (forall liveOut, liveOut ∈ liveOuts -> exists node, node ∈ d_nodes generic /\
     node_id node = lo_source liveOut) ->
  TargetDFG_inv t ->
  exists t', place_liveOuts liveOuts t m = Ok t' /\
    TargetDFG_inv t' /\ same_values t t' /\ td_nodes t' = td_nodes t /\
    td_edges t' = td_edges t /\ td_bindings t' = td_bindings t /\
    td_liveOuts t' = td_liveOuts t ++ (target_liveOut <$> liveOuts).
Proof using Hcoh.
  intros Hm. revert t. induction liveOuts as [|lo los IH]; intros t Hends Hinv; simpl.
  { exists t. by rewrite app_nil_r. }
  destruct (Hends lo ltac:(left)) as (node & Hn & En).
  rewrite <- En, (mapped_node_spec m) by done. cbn [mbind result_bind].
  match goal with |- context [place_liveOuts _ ?t1 _] => set (t1' := t1) end.
  destruct (IH t1') as (t' & Hrun & Hinv' & Hsame & Hnodes & Hedges & Hb & Hlo).
  { intros x Hx. apply Hends. by right. }
  { destruct Hinv; by split. }
  exists t'. split_and!; try done. rewrite Hlo. unfold t1', target_liveOut at 2. simpl.
  by rewrite <- app_assoc, <- En.
Qed.

Lemma elem_of_node_find id node :
  d_find_node generic id = Some node -> node ∈ d_nodes generic /\ node_id node = id.
Proof using Type. intros H. apply find_if_Some in H as [? ?]. split; [done|lia]. Qed.

(** Materialization never throws on a well-typed graph, and builds the renaming. *)
Lemma materialize_spec ops :
  DFG_typed generic -> length ops = length (d_nodes generic) ->
  Z.of_nat (length (d_nodes generic)) <= u32_max + 1 ->
  Z.of_nat (length (d_edges generic)) <= u32_max + 1 ->
  exists t m, materialize generic target (zip (node_id <$> d_nodes generic) ops) = Ok (t, m) /\
    TargetDFG_inv t /\ renamed ops t /\ maps_first (length (d_nodes generic)) m.
Proof using Hcoh.
  intros Hty Hlen Hmaxn Hmaxe. unfold materialize.
  destruct (place_values_spec (TargetDFG_empty (d_name generic) (tm_name target))
    (d_externalValues generic) (d_constants generic))
    as (t0 & Hrun & Hname & Htn & Hx & Hc & Hn & He & Hl & Hb).
  rewrite Hrun. cbn [mbind result_bind].
  assert (Hinv0 : TargetDFG_inv t0) by (eapply builder_run_inv; [apply TargetDFG_empty_inv|done]).
  destruct (place_nodes_spec (d_nodes generic) ops 0 t0 ∅) as
    (t1 & m & Hrun1 & Hinv1 & Hm & (Hname1 & Htn1 & Hx1 & Hc1) & Hn1 & He1 & Hl1 & Hb1); try done.
  { split; [clear; lia|done]. }
  { by rewrite Hn. }
  change (wrap32 (Z.of_nat 0)) with 0 in Hrun1. rewrite Hrun1. cbn [mbind result_bind].
  simpl in Hx, Hc, Hn, He, Hl, Hb. rewrite Hn in Hn1.
  change (imap (fun i => target_node (0 + i)) (zip (d_nodes generic) ops))
    with (imap target_node (zip (d_nodes generic) ops)) in Hn1. simpl in Hn1.
  assert (Hholds : holds_nodes t1).
  { unfold holds_nodes. rewrite Hn1, fmap_imap. apply list_eq. intros i.
    rewrite list_lookup_imap, list_lookup_fmap.
    destruct (decide (i < length (d_nodes generic))%nat) as [Hi|Hi].
    - rewrite lookup_seq_lt by done. destruct (zip _ _ !! i) as [[n o]|] eqn:E; [done|].
      apply lookup_ge_None in E. rewrite length_zip_with, Hlen, Nat.min_id in E. clear -E Hi. lia.
    - rewrite lookup_seq_ge by (clear -Hi; lia). rewrite lookup_ge_None_2; [done|].
      rewrite length_zip_with. clear -Hi. lia. }
  destruct (place_edges_spec (d_edges generic) 0 t1 m) as
    (t2 & Hrun2 & Hinv2 & (Hname2 & Htn2 & Hx2 & Hc2) & Hn2 & He2 & Hl2 & Hb2); try done.
  { intros e Hedge. destruct (dt_edges generic Hty e Hedge) as (s & d & Hs & Hd & _).
    apply elem_of_node_find in Hs as [? ?], Hd as [? ?]. by exists s, d. }
  { by rewrite He1, He. }
  change (wrap32 (Z.of_nat 0)) with 0 in Hrun2. rewrite Hrun2. cbn [mbind result_bind].
  destruct (place_bindings_spec (d_bindings generic) t2 m Hm) as
    (t3 & Hrun3 & Hinv3 & (Hname3 & Htn3 & Hx3 & Hc3) & Hn3 & He3 & Hl3 & Hb3); [|done|].
  { intros b Hbi. destruct (dt_bindings generic Hty b Hbi) as (ty & (n & Hf & _) & _).
    apply elem_of_node_find in Hf as [? ?]. by exists n. }
  rewrite Hrun3. cbn [mbind result_bind].
  destruct (place_liveOuts_spec (d_liveOuts generic) t3 m Hm) as
    (t4 & Hrun4 & Hinv4 & (Hname4 & Htn4 & Hx4 & Hc4) & Hn4 & He4 & Hb4 & Hl4); [|done|].
  { intros l Hlo. destruct (dt_liveOuts generic Hty l Hlo) as (_ & n & Hf & _).
    apply elem_of_node_find in Hf as [? ?]. by exists n. }
  rewrite Hrun4. cbn [mbind result_bind]. exists t4, m. split_and!; try done.
  simpl in Hx, Hc, He2.
  split; try congruence.
  - by rewrite Hname4, Hname3, Hname2, Hname1, Hname.
  - by rewrite Htn4, Htn3, Htn2, Htn1, Htn.
  - rewrite He4, He3, He2, He1, He. done.
  - rewrite Hb4, Hb3, Hb2, Hb1, Hb. done.
  - rewrite Hl4, Hl3, Hl2, Hl1, Hl. done.
Qed.
End Materialize.

(** ** The renamed graph is a valid target graph *)

(** The contract's loads and stores have the shape the verifier expects: a load
    takes an address, a store an address and data. *)
Definition memory_contract (target : TargetModel) : bool :=
  match findOperation target "LOAD", findOperation target "STORE" with
  | Some load, Some store => isLoadLike load && isStoreLike store
  | _, _ => false
  end.

(** Counting is invariant under a renaming that is injective on the list. *)
Lemma filter_renamed `{EqDecision A, EqDecision B} (rho : A -> B) (k : A) (l : list A) :
  (forall y, y ∈ l -> rho y = rho k -> y = k) ->
  length (filter (fun y => y = rho k) (rho <$> l)) = length (filter (fun y => y = k) l).
Proof.
  induction l as [|y l IH]; intros Hinj; [done|]. rewrite fmap_cons, !filter_cons.
  assert (IH' : length (filter (fun y => y = rho k) (rho <$> l)) =
                length (filter (fun y => y = k) l)).
  { apply IH. intros z Hz. apply Hinj. by right. }
  destruct (decide (rho y = rho k)) as [E|E].
  - rewrite (Hinj y (list_elem_of_here _ _) E). rewrite decide_True by done. simpl. by f_equal.
  - rewrite decide_False by congruence. done.
Qed.

Lemma omap_all {A B} (f : A -> option B) (h : A -> B) (l : list A) :
  (forall x, x ∈ l -> f x = Some (h x)) -> omap f l = h <$> l.
Proof.
  induction l as [|x l IH]; intros Hl; [done|]. csimpl. rewrite (Hl x) by left. f_equal.
  apply IH. intros y Hy. apply Hl. by right.
Qed.

Section Valid.
Context (generic : DFG) (target : TargetModel) (t : TargetDFG) (ops : list TargetOperationDesc).
Context (Hwf : TargetModel_wf target) (Hmem : memory_contract target = true).
Context (Hcoh : DFG_coherent generic) (Hty : DFG_typed generic).
Context (Hops : Forall2 (legal_op target) (d_nodes generic) ops).
Context (Hinv : TargetDFG_inv t) (Hren : renamed generic target ops t).

Lemma target_node_lookup i node op :
  d_nodes generic !! i = Some node -> ops !! i = Some op ->
  target_node i (node, op) ∈ td_nodes t.
Proof using Hren.
  intros Hn Ho. rewrite (rn_nodes _ _ _ _ Hren). apply list_elem_of_lookup. exists i.
  rewrite list_lookup_imap. assert (zip (d_nodes generic) ops !! i = Some (node, op)) as ->; [|done].
  apply lookup_zip_with_Some. eauto.
Qed.

Lemma target_node_inv n :
  n ∈ td_nodes t -> exists i node op, d_nodes generic !! i = Some node /\ ops !! i = Some op /\
    legal_op target node op /\ n = target_node i (node, op).
Proof using Hren Hops.
  rewrite (rn_nodes _ _ _ _ Hren). intros Hn. apply list_elem_of_lookup in Hn as [i Hi].
  apply list_lookup_imap_Some in Hi as ([node op] & Hz & ->).
  apply lookup_zip_with_Some in Hz as (x & y & [= -> ->] & Hx & Hy).
  exists i, x, y. split_and!; try done. by eapply Forall2_lookup_lr.
Qed.

Lemma legal_op_known node op :
  legal_op target node op -> findOperation target (op_id op) = Some op.
Proof using Hwf.
  intros Hl. pose proof (lo_found _ _ _ Hl) as Hf.
  by rewrite (findOperation_id target _ _ Hwf Hf).
Qed.

(** The target image of a stored generic node. *)
Lemma find_target_node id node :
  d_find_node generic id = Some node ->
  exists i op, legal_op target node op /\
    find_node t (position generic id) = Some (target_node i (node, op)).
Proof using Hren Hops Hinv Hcoh.
  intros Hf. apply find_if_Some in Hf as [Hn Eid]. apply Z.eqb_eq in Eid. subst id.
  apply list_elem_of_lookup in Hn as [i Hi].
  destruct (Forall2_lookup_l _ _ _ _ _ Hops Hi) as (op & Ho & Hl).
  exists i, op. split; [done|]. unfold find_node.
  apply find_if_unique; [by apply td_nodes_NoDup|by apply target_node_lookup|].
  simpl. by rewrite (position_of_node generic Hcoh i node Hi).
Qed.

Lemma legal_node_valid i node op :
  d_nodes generic !! i = Some node -> legal_op target node op ->
  node_valid target (Some generic) (target_node i (node, op)).
Proof using Hwf Hcoh.
  intros Hi Hl. exists op. simpl. split; [by eapply legal_op_known|].
  pose proof (legal_op_known _ _ Hl) as Hfo. destruct Hl. split_and!; try done.
  - intros Hload Hnone. apply findOperation_elem, (wf_timing target Hwf) in Hfo.
    unfold isLoadLike in Hload. destruct (op_executionClass op), (op_resultRole op); try done.
    destruct Hfo as [(l & Hsome & _) _]. congruence.
  - clear - lo_arity0. lia.
  - intros j type Hj. split; [|by apply lo_roles0].
    exact (Forall_lookup_1 _ _ _ _ lo_operands_supported0 Hj).
  - intros g origin [= <-] Ho. apply list_elem_of_singleton in Ho as ->.
    unfold d_containsNode. rewrite (index_of_node generic Hcoh i node Hi).
    by apply bool_decide_eq_true_2.
Qed.

Lemma data_result_role node op :
  legal_op target node op -> data_type (node_resultType node) -> op_resultRole op = ResData.
Proof using Type.
  intros [] (w & Hw & Hd). destruct (op_resultRole op); [done| |].
  - by destruct Hd as [E|E]; rewrite E in lo_result_role0.
  - by destruct Hd as [E|E]; rewrite E in lo_result_role0.
Qed.

Lemma predicate_result_role node op :
  legal_op target node op -> node_resultType node = vt_predicate ->
  op_resultRole op = ResPredicate.
Proof using Type.
  intros [] E. rewrite E in lo_result_role0.
  by destruct (op_resultRole op).
Qed.

Lemma operand_role node op operand type roles :
  legal_op target node op -> node_operandTypes node !! nat_of operand = Some type ->
  (forall role, roleMatches role type = true -> role ∈ roles) ->
  operand_role_in op operand roles = true.
Proof using Type.
  intros Hl Ht Hr. destruct (lo_roles _ _ _ Hl _ _ Ht) as (desc & Hd & Hm).
  unfold operand_role_in. rewrite Hd. by apply bool_decide_eq_true_2, Hr.
Qed.

Lemma memory_op_shape node op :
  legal_op target node op ->
  (node_opcode node = OpLoad -> isLoadLike op = true) /\
  (node_opcode node = OpStore -> isStoreLike op = true).
Proof using Hmem.
  intros Hl. pose proof (lo_found _ _ _ Hl) as Hf. unfold memory_contract in Hmem.
  split; intros E; unfold operationFor in Hf; rewrite E in Hf; rewrite Hf in Hmem;
    repeat case_match; try done; bool_hyps; done.
Qed.

Lemma renamed_edge_valid i edge :
  edge ∈ d_edges generic -> edge_valid t target (target_edge generic i edge).
Proof using All.
  intros He. destruct (dt_edges generic Hty edge He) as (source & destination & Hs & Hd & Hedge).
  destruct (find_target_node _ _ Hs) as (si & sop & Hsl & Hfs).
  destruct (find_target_node _ _ Hd) as (di & dop & Hdl & Hfd).
  exists (target_node si (source, sop)), (target_node di (destination, dop)).
  split; [exact Hfs|]. split; [exact Hfd|]. simpl.
  pose proof (legal_op_known _ _ Hsl) as Hks. pose proof (legal_op_known _ _ Hdl) as Hkd.
  destruct (edge_info edge) as [operand boundary|operand boundary|dependence].
  - destruct Hedge as (Hdata & Hop & _). unfold data_edge_ok. simpl.
    rewrite Hop, Hkd, Hks, (data_result_role _ _ Hsl Hdata).
    rewrite (operand_role _ _ _ _ _ Hdl Hop).
    + by rewrite !bool_decide_eq_true_2.
    + destruct Hdata as (w & Hw & Hdt). intros role Hr.
      destruct Hdt as [E|E]; rewrite E in Hr; destruct role; try done; clear; set_solver.
  - destruct Hedge as (Hpred & Hop & _). unfold predicate_edge_ok. simpl.
    rewrite Hop, Hkd, Hks, (predicate_result_role _ _ Hsl Hpred).
    rewrite (operand_role _ _ _ _ _ Hdl Hop); [done|].
    intros role Hr. destruct role; try done. clear; set_solver.
  - pose proof (memory_op_shape _ _ Hsl) as [Hls Hss].
    pose proof (memory_op_shape _ _ Hdl) as [Hld Hsd].
    unfold memory_edge_ok. simpl. rewrite Hks, Hkd.
    destruct dependence; injection Hedge as Es Ed; by rewrite ?Hls, ?Hss, ?Hld, ?Hsd.
Qed.

Lemma renamed_source_type source type :
  source_type generic source = Some type ->
  match source with
  | ExternalValueRef id => exists value, find_external t id = Some value /\ ext_type value = type
  | ConstantRef id => exists value, find_constant t id = Some value /\ const_type value = type
  end.
Proof using Hren.
  unfold source_type, find_external, find_constant, d_find_external, d_find_constant.
  rewrite (rn_externals _ _ _ _ Hren), (rn_constants _ _ _ _ Hren).
  destruct source as [id|id]; intros H; apply fmap_Some in H as (value & -> & ->); eauto.
Qed.

Lemma renamed_binding_valid binding :
  binding ∈ d_bindings generic -> binding_valid t (target_binding generic binding).
Proof using Hren Hops Hinv Hcoh Hty.
  intros Hb. destruct (dt_bindings generic Hty binding Hb) as (type & (node & Hf & Ht) & Hs).
  destruct (find_target_node _ _ Hf) as (i & op & _ & Hft).
  exists (target_node i (node, op)), type. split; [exact Hft|]. split; [exact Ht|].
  by apply renamed_source_type.
Qed.

Definition renamed_key (key : Z * Z) : Z * Z := (position generic key.1, key.2).

Lemma renamed_edge_providers :
  omap tedge_provider (td_edges t) = renamed_key <$> omap edge_provider (d_edges generic).
Proof using Hren.
  rewrite (rn_edges _ _ _ _ Hren).
  assert (Hgen : forall n edges, omap tedge_provider (imap (fun i => target_edge generic (n + i)) edges) =
    renamed_key <$> omap edge_provider edges).
  { clear. intros n edges. revert n. induction edges as [|e edges IH]; intros n; [done|].
    csimpl. rewrite (imap_ext _ (fun i => target_edge generic (S n + i)));
      [|intros i x _; simpl; by rewrite Nat.add_succ_r].
    rewrite IH. unfold tedge_provider at 1. simpl.
    replace (edge_provider e) with
      ((fun operand => (edge_dst e, operand)) <$> EdgeInfo_operand (edge_info e)) by done.
    by destruct (EdgeInfo_operand (edge_info e)). }
  apply (Hgen 0%nat).
Qed.

Lemma renamed_binding_providers :
  omap (binding_provider t) (td_bindings t) ≡ₚ renamed_key <$> (binding_key <$> d_bindings generic).
Proof using Hren Hops Hinv Hcoh Hty.
  rewrite (rn_bindings _ _ _ _ Hren). rewrite (omap_all _ (fun b => (tb_node b, tb_operand b))).
  - by rewrite <- !list_fmap_compose.
  - intros b Hb. apply list_elem_of_fmap in Hb as (gb & -> & Hgb).
    destruct (renamed_binding_valid gb Hgb) as (node & type & Hf & Ht & _).
    unfold binding_provider. rewrite Hf. simpl. simpl in Ht. by rewrite Ht.
Qed.

(** Every provider's node is stored. *)
Lemma provider_known key :
  key ∈ providers (d_edges generic) (d_bindings generic) ->
  exists node, node ∈ d_nodes generic /\ node_id node = key.1.
Proof using Hty.
  intros Hk. apply elem_of_app in Hk as [Hk|Hk].
  - apply list_elem_of_omap in Hk as (e & He & Hp). unfold edge_provider in Hp.
    destruct (EdgeInfo_operand (edge_info e)); [|done]. injection Hp as <-.
    destruct (dt_edges generic Hty e He) as (s & d & _ & Hd & _).
    apply elem_of_node_find in Hd. by exists d.
  - apply list_elem_of_fmap in Hk as (b & -> & Hb).
    destruct (dt_bindings generic Hty b Hb) as (ty & (n & Hf & _) & _).
    apply elem_of_node_find in Hf. by exists n.
Qed.

Lemma position_inj n n' :
  n ∈ d_nodes generic -> n' ∈ d_nodes generic ->
  position generic (node_id n) = position generic (node_id n') -> node_id n = node_id n'.
Proof using Hcoh.
  intros Hn Hn'. apply list_elem_of_lookup in Hn as [i Hi], Hn' as [j Hj].
  rewrite (position_of_node generic Hcoh i n Hi), (position_of_node generic Hcoh j n' Hj).
  intros E%Nat2Z.inj. congruence.
Qed.

Lemma renamed_provider_count i node operand :
  d_nodes generic !! i = Some node ->
  0 <= operand < Z.of_nat (length (node_operandTypes node)) ->
  provider_count t (Z.of_nat i) operand = 1.
Proof using All.
  intros Hi Ho. assert (Hn : node ∈ d_nodes generic) by (by eapply list_elem_of_lookup_2).
  pose proof (dt_providers generic Hty node operand Hn Ho) as Hone.
  apply exactly_once_filter in Hone.
  unfold provider_count, provider_keys.
  rewrite renamed_binding_providers, renamed_edge_providers, <- fmap_app.
  assert (Hk : (Z.of_nat i, operand) = renamed_key (node_id node, operand)).
  { unfold renamed_key. simpl. by rewrite (position_of_node generic Hcoh i node Hi). }
  rewrite Hk.
  rewrite (Permutation_app_comm (binding_key <$> _)), filter_renamed.
  - fold (providers (d_edges generic) (d_bindings generic)). rewrite Hone. done.
  - intros [id o] Hkey E. injection E as Ep <-.
    destruct (provider_known _ Hkey) as (n' & Hn' & En'). simpl in En'. subst id.
    by rewrite (position_inj _ _ Hn' Hn Ep).
Qed.

(** Legalization preserves well-typedness: the result satisfies the target's
    rules. *)
Lemma renamed_valid :
  (forall value, value ∈ d_externalValues generic ->
     supportsValueType target (ext_type value) = true) ->
  (forall value, value ∈ d_constants generic ->
     supportsValueType target (const_type value) = true) ->
  (forall liveOut, liveOut ∈ d_liveOuts generic ->
     supportsValueType target (lo_type liveOut) = true) ->
  TargetDFG_valid t target (Some generic).
Proof using All.
  intros Hx Hc Hl. split.
  - by apply td_nodes_NoDup.
  - by apply td_edges_NoDup.
  - rewrite (rn_externals _ _ _ _ Hren). apply (dc_externals _ Hcoh).
  - rewrite (rn_constants _ _ _ _ Hren). apply (dc_constants _ Hcoh).
  - rewrite (rn_liveOuts _ _ _ _ Hren), <- list_fmap_compose. apply (dc_liveOuts _ Hcoh).
  - by rewrite (rn_externals _ _ _ _ Hren).
  - by rewrite (rn_constants _ _ _ _ Hren).
  - intros b Hb. rewrite (rn_bindings _ _ _ _ Hren) in Hb.
    apply list_elem_of_fmap in Hb as (gb & -> & Hgb). by apply renamed_binding_valid.
  - intros n Hn. destruct (target_node_inv n Hn) as (i & node & op & Hi & Ho & Hlo & ->).
    by apply legal_node_valid.
  - intros n Hn operand Hop. destruct (target_node_inv n Hn) as (i & node & op & Hi & Ho & Hlo & ->).
    by apply (renamed_provider_count i node).
  - intros e He. rewrite (rn_edges _ _ _ _ Hren) in He. apply list_elem_of_lookup in He as [i Hi].
    apply list_lookup_imap_Some in Hi as (ge & Hge & ->). apply renamed_edge_valid.
    by eapply list_elem_of_lookup_2.
  - intros l Hlo. rewrite (rn_liveOuts _ _ _ _ Hren) in Hlo.
    apply list_elem_of_fmap in Hlo as (gl & -> & Hgl). split; [by apply Hl|].
    destruct (dt_liveOuts generic Hty gl Hgl) as (_ & node & Hf & Ety).
    destruct (find_target_node _ _ Hf) as (i & op & _ & Hft).
    exists (target_node i (node, op)). by split.
Qed.
End Valid.

(** ** Properties *)

(** What the preflight asks of a graph: supported types and a legal operation for
    every node. *)
Record mappable (generic : DFG) (target : TargetModel) : Prop := {
  mp_externals : forall value, value ∈ d_externalValues generic ->
    supportsValueType target (ext_type value) = true;
  mp_constants : forall value, value ∈ d_constants generic ->
    supportsValueType target (const_type value) = true;
  mp_nodes : forall node, node ∈ d_nodes generic -> exists op, legal_op target node op;
  mp_liveOuts : forall liveOut, liveOut ∈ d_liveOuts generic ->
    supportsValueType target (lo_type liveOut) = true
}.

Lemma preflight_nil generic target :
  preflight_values generic target ++ (preflight_nodes target (d_nodes generic)).2 ++
    preflight_liveOuts generic target = [] <-> mappable generic target.
Proof.
  rewrite !app_nil_iff, preflight_nodes_diags. unfold preflight_values, preflight_liveOuts.
  autorewrite with report. setoid_rewrite when_cons_nil. setoid_rewrite negb_false_iff. split.
  - intros H. destruct_and?. by split.
  - intros []. done.
Qed.

(** At most [2^32] nodes and edges: identifiers are 32 bits wide. *)
Definition legal_size (generic : DFG) : Prop :=
  Z.of_nat (length (d_nodes generic)) <= u32_max + 1 /\
  Z.of_nat (length (d_edges generic)) <= u32_max + 1.

Lemma legalize_spec (generic : DFG) (target : TargetModel) :
  TargetModel_wf target -> memory_contract target = true -> legal_size generic ->
  exists res, legalize generic target = Ok res /\
    (tlr_ok res = true <-> (DFG_coherent generic /\ DFG_typed generic) /\ mappable generic target) /\
    (tlr_ok res = false -> tlr_dfg res = None /\ tlr_diagnostics res <> []) /\
    (forall t, tlr_dfg res = Some t ->
       TargetDFG_inv t /\
       tdfg_verify t target (Some generic) = Ok [] /\
       maps_first generic (length (d_nodes generic)) (tlr_map res) /\
       exists ops, Forall2 (legal_op target) (d_nodes generic) ops /\ renamed generic target ops t).
Proof.
  intros Hwf Hmem [Hmaxn Hmaxe]. unfold legalize.
  destruct (report_ok (dfg_verify generic)) eqn:Eok; simpl.
  2:{ eexists. split; [reflexivity|]. split_and!; try done. split; [done|].
      intros [H _]. apply dfg_diagnostics_nil, dfg_verify_ok in H. congruence. }
  apply dfg_verify_ok, dfg_diagnostics_nil in Eok as [Hcoh Hty].
  pose proof (preflight_nil generic target) as Hpre.
  destruct (preflight_nodes target (d_nodes generic)) as [plan diags] eqn:Eplan. simpl in Hpre.
  case_bool_decide as Hd.
  - eexists. split; [reflexivity|]. split_and!; try done. split; [done|]. naive_solver.
  - assert (Hnil : preflight_values generic target ++ diags ++ preflight_liveOuts generic target = []).
    { by destruct (preflight_values generic target ++ diags ++ _). }
    pose proof (proj1 Hpre Hnil) as Hmap. apply app_nil_iff in Hnil as [_ [-> _]%app_nil_iff].
    apply preflight_nodes_spec in Eplan.
    assert (Hplan : plan = zip (node_id <$> d_nodes generic) (plan.*2)).
    { clear -Eplan. induction Eplan as [|n [id op] ns p [E _] _ IH]; [done|]. simpl in *. by f_equal; subst. }
    assert (Hops : Forall2 (legal_op target) (d_nodes generic) (plan.*2)).
    { clear -Eplan. induction Eplan as [|n [id op] ns p [_ Hl] _ IH]; constructor; done. }
    rewrite Hplan.
    destruct (materialize_spec generic target Hcoh (plan.*2) Hty) as (t & m & -> & Hinv & Hren & Hm);
      [by erewrite <- Forall2_length by exact Hops|done..|].
    eexists. split; [reflexivity|]. split_and!; try done.
    intros t' [= <-]. split_and!; [done| |done|by exists (plan.*2)].
    apply tdfg_verify_clean; [done|]. destruct Hmap.
    by apply (renamed_valid generic target t (plan.*2)).
Qed.

(** C32: legalization is exact and preserves well-typedness.  On any graph that
    fits 32-bit identifiers, against any loaded machine whose loads and stores
    have the memory shape, the legalizer returns (no lookup or builder call
    throws); it yields a graph, with no diagnostics, exactly when the generic
    graph is coherent and typed and every node has an operation of the machine
    that implements it; and the graph is the generic one renamed by position,
    node for node and edge for edge, which the target verifier accepts, with a
    map that sends each generic node to its image. *)
Theorem legalize_exact (generic : DFG) (target : TargetModel) :
  TargetModel_wf target -> memory_contract target = true -> legal_size generic ->
  exists res, legalize generic target = Ok res /\
    (tlr_ok res = true <-> (DFG_coherent generic /\ DFG_typed generic) /\ mappable generic target) /\
    (tlr_ok res = false -> tlr_dfg res = None /\ tlr_diagnostics res <> []) /\
    (forall t, tlr_dfg res = Some t ->
       tdfg_verify t target (Some generic) = Ok [] /\
       maps_first generic (length (d_nodes generic)) (tlr_map res) /\
       exists ops, Forall2 (legal_op target) (d_nodes generic) ops /\ renamed generic target ops t).
Proof.
  intros Hwf Hmem Hsize. destruct (legalize_spec generic target Hwf Hmem Hsize) as (res & Hres & Hok & Hbad & Hall).
  exists res. split_and!; try done. intros t Ht. by destruct (Hall t Ht) as [_ ?].
Qed.

Lemma legalize_exact_witness :
  exists res, legalize guarded_sum cgra_v2 = Ok res /\
    (tlr_ok res = true <->
       (DFG_coherent guarded_sum /\ DFG_typed guarded_sum) /\ mappable guarded_sum cgra_v2) /\
    (tlr_ok res = false -> tlr_dfg res = None /\ tlr_diagnostics res <> []) /\
    (forall t, tlr_dfg res = Some t ->
       tdfg_verify t cgra_v2 (Some guarded_sum) = Ok [] /\
       maps_first guarded_sum (length (d_nodes guarded_sum)) (tlr_map res) /\
       exists ops, Forall2 (legal_op cgra_v2) (d_nodes guarded_sum) ops /\
         renamed guarded_sum cgra_v2 ops t).
Proof.
  apply (legalize_exact guarded_sum cgra_v2); [exact cgra_v2_wf|reflexivity|].
  split; vm_compute; discriminate.
Defined.

(** The kernel of the generic verifier's example is legal for the shipped machine. *)
Example legalize_guarded_sum :
  match legalize guarded_sum cgra_v2 with Ok res => tlr_ok res | Throw _ => false end = true.
Proof. vm_compute. reflexivity. Qed.
