(* ===== verification/ModuloResources.v ===== *)
(** * Modulo time, mesh network and the finite resource universe

    Models [ModuloTime.h], [Network.h], [TileCoord.h], [ModuloResource.h],
    [ModuloResourceModel.{h,cpp}] and [ResourceReservation.{h,cpp}] of
    [compiler/{include/cgra,lib}/Mapping]. *)
From stdpp Require Import base numbers list gmap strings.
From S2P Require Import Prelude.
From S2P Require Import IR.
From S2P Require Import TargetModel.
From S2P Require Import CgraV2.
From S2P Require Import TargetDFG.

(** ** Modulo time (ModuloTime.h) *)

Section ModuloTime.
(** [ModuloSlot] is its [std::uint32_t] value; a [ModuloTimeDomain] is its II. *)
Definition ModuloTimeDomain (ii : Z) : result Z :=
  if ii =? 0 then Throw InvalidArgument else Ok ii.

Definition normalize (ii logicalCycle : Z) : Z := wrap32 (logicalCycle mod ii).

Definition validate (ii slot : Z) : result unit :=
  if ii <=? slot then Throw InvalidArgument else Ok tt.

Definition advance (ii slot deltaCycles : Z) : result Z :=
  _ ← validate ii slot;
  let reducedDelta := deltaCycles mod ii in
  Ok (normalize ii (wrap64 (slot + reducedDelta))).

Lemma normalize_spec ii c : 0 < ii <= u32_max -> normalize ii c = c mod ii.
Proof. intros H. unfold normalize. apply wrap32_id. word_lia. Qed.

Lemma advance_spec ii slot delta :
  0 < ii <= u32_max -> 0 <= slot < ii ->
  advance ii slot delta = Ok ((slot + delta) mod ii).
Proof.
  intros Hii Hs. unfold advance, validate.
  replace (ii <=? slot) with false by lia. simpl. f_equal.
  assert (0 <= delta mod ii < ii) by (apply Z.mod_pos_bound; lia).
  rewrite wrap64_id by (unfold_words; lia).
  rewrite normalize_spec by done. apply Zplus_mod_idemp_r.
Qed.

Lemma advance_Ok ii slot delta s :
  0 < ii <= u32_max -> 0 <= slot ->
  advance ii slot delta = Ok s -> slot < ii /\ s = (slot + delta) mod ii.
Proof.
  intros Hii Hs H. assert (slot < ii).
  { unfold advance, validate in H. destruct (Z.leb_spec ii slot); [done|lia]. }
  rewrite advance_spec in H by lia. injection H as <-. done.
Qed.
End ModuloTime.

(** ** The mesh (TileCoord.h, Network.h) *)

Record TileCoord := mkTile { tile_row : Z; tile_col : Z }.

#[export] Instance TileCoord_eq_dec : EqDecision TileCoord.
Proof. solve_decision. Defined.

#[export] Instance TileCoord_countable : Countable TileCoord.
Proof.
  apply (inj_countable' (fun t => (tile_row t, tile_col t)) (fun p => mkTile p.1 p.2)).
  by intros [].
Defined.

Inductive Direction := North | South | East | West.

#[export] Instance Direction_eq_dec : EqDecision Direction.
Proof. solve_decision. Defined.

#[export] Instance Direction_countable : Countable Direction.
Proof.
  refine (inj_countable'
    (fun d => match d with North => 0 | South => 1 | East => 2 | West => 3 end)
    (fun n => match n with 0 => North | 1 => South | 2 => East | _ => West end) _).
  by intros [].
Defined.

Inductive NetworkDomain := NetData | NetPredicate.

#[export] Instance NetworkDomain_eq_dec : EqDecision NetworkDomain.
Proof. solve_decision. Defined.

#[export] Instance NetworkDomain_countable : Countable NetworkDomain.
Proof.
  refine (inj_countable' (fun d => match d with NetData => true | _ => false end)
    (fun b : bool => if b then NetData else NetPredicate) _).
  by intros [].
Defined.

Definition opposite (direction : Direction) : Direction :=
  match direction with
  | North => South | South => North | East => West | West => East
  end.

Definition neighbor (tile : TileCoord) (direction : Direction) (rows cols : Z)
  : option TileCoord :=
  if (rows <=? tile_row tile) || (cols <=? tile_col tile) then None
  else match direction with
       | North =>
           if tile_row tile =? 0 then None
           else Some (mkTile (tile_row tile - 1) (tile_col tile))
       | South =>
           if rows <=? wrap32 (tile_row tile + 1) then None
           else Some (mkTile (wrap32 (tile_row tile + 1)) (tile_col tile))
       | East =>
           if cols <=? wrap32 (tile_col tile + 1) then None
           else Some (mkTile (tile_row tile) (wrap32 (tile_col tile + 1)))
       | West =>
           if tile_col tile =? 0 then None
           else Some (mkTile (tile_row tile) (tile_col tile - 1))
       end.

Definition neighbor_in (target : TargetModel) (tile : TileCoord) (direction : Direction)
  : option TileCoord :=
  neighbor tile direction (arr_rows (tm_array target)) (arr_cols (tm_array target)).

(** A tile coordinate inside a [rows] x [cols] array. *)
Definition tile_inside (rows cols : Z) (t : TileCoord) : Prop :=
  0 <= tile_row t < rows /\ 0 <= tile_col t < cols.

(** The displacement of one hop. *)
Definition hop (d : Direction) (t : TileCoord) : TileCoord :=
  match d with
  | North => mkTile (tile_row t - 1) (tile_col t)
  | South => mkTile (tile_row t + 1) (tile_col t)
  | East => mkTile (tile_row t) (tile_col t + 1)
  | West => mkTile (tile_row t) (tile_col t - 1)
  end.

Lemma neighbor_Some t d rows cols t' :
  0 < rows <= u32_max -> 0 < cols <= u32_max -> tile_inside rows cols t ->
  neighbor t d rows cols = Some t' <-> t' = hop d t /\ tile_inside rows cols (hop d t).
Proof.
  intros Hr Hc [Htr Htc]. unfold neighbor, tile_inside.
  replace ((rows <=? tile_row t) || (cols <=? tile_col t))%bool with false by lia.
  rewrite !wrap32_id by (unfold_words; lia).
  destruct d; simpl; repeat case_match; bool_hyps; split;
    try (intros [= <-]; split; [done|lia]); try done; try (intros [-> ?]; lia);
    try (by intros [-> _]).
Qed.

Lemma neighbor_inside t d rows cols t' :
  0 <= tile_row t -> 0 <= tile_col t ->
  neighbor t d rows cols = Some t' -> tile_row t < rows /\ tile_col t < cols.
Proof.
  unfold neighbor. destruct (_ || _)%bool eqn:E; [done|]. bool_hyps. lia.
Qed.

(** ** Resources (ModuloResource.h) *)

Inductive ResourceKind := RKFU | RKLSU | RKDataLink | RKPredicateLink.

#[export] Instance ResourceKind_eq_dec : EqDecision ResourceKind.
Proof. solve_decision. Defined.

#[export] Instance ResourceKind_countable : Countable ResourceKind.
Proof.
  refine (inj_countable'
    (fun d => match d with RKFU => 0 | RKLSU => 1 | RKDataLink => 2 | RKPredicateLink => 3 end)
    (fun n => match n with 0 => RKFU | 1 => RKLSU | 2 => RKDataLink | _ => RKPredicateLink end) _).
  by intros [].
Defined.

Inductive ModuloResource :=
  | FUResource (tile : TileCoord) (slot : Z)
  | LSUResource (tile : TileCoord) (slot : Z)
  | LinkResource (domain : NetworkDomain) (source : TileCoord) (direction : Direction) (slot : Z).

#[export] Instance ModuloResource_eq_dec : EqDecision ModuloResource.
Proof. solve_decision. Defined.

Definition kindOf (resource : ModuloResource) : ResourceKind :=
  match resource with
  | FUResource _ _ => RKFU
  | LSUResource _ _ => RKLSU
  | LinkResource NetData _ _ _ => RKDataLink
  | LinkResource NetPredicate _ _ _ => RKPredicateLink
  end.

(** [ResourceKey]: the lookup key of the identifier map. *)
Record ResourceKey := mkResourceKey {
  rk_kind : ResourceKind;
  rk_domain : NetworkDomain;
  rk_tile : TileCoord;
  rk_direction : Direction;
  rk_slot : Z
}.

#[export] Instance ResourceKey_eq_dec : EqDecision ResourceKey.
Proof. solve_decision. Defined.

#[export] Instance ResourceKey_countable : Countable ResourceKey.
Proof.
  apply (inj_countable'
    (fun k => (rk_kind k, rk_domain k, rk_tile k, rk_direction k, rk_slot k))
    (fun p => let '(k, d, t, dir, s) := p in mkResourceKey k d t dir s)).
  by intros [].
Defined.

Definition keyFor (resource : ModuloResource) : ResourceKey :=
  match resource with
  | FUResource tile slot => mkResourceKey RKFU NetData tile North slot
  | LSUResource tile slot => mkResourceKey RKLSU NetData tile North slot
  | LinkResource domain source direction slot =>
      mkResourceKey (kindOf resource) domain source direction slot
  end.

#[export] Instance keyFor_inj : Inj (=) (=) keyFor.
Proof. intros [] []; simpl; repeat case_match; congruence. Qed.

(** ** The resource model (ModuloResourceModel.h, .cpp) *)

Record ModuloResourceStats := mkStats {
  st_ii : Z;
  st_fuResources : Z;
  st_lsuResources : Z;
  st_dataLinkResources : Z;
  st_predicateLinkResources : Z;
  st_totalResources : Z
}.

Record ModuloResourceModel := mkResourceModel {
  rm_target : TargetModel;
  rm_ii : Z;
  rm_resources : list ModuloResource;
  rm_resourceIds : gmap ResourceKey Z;
  rm_stats : ModuloResourceStats
}.

Definition bump (stats : ModuloResourceStats) (kind : ResourceKind) : ModuloResourceStats :=
  let 'mkStats ii fu lsu dl pl total := stats in
  match kind with
  | RKFU => mkStats ii (fu + 1) lsu dl pl total
  | RKLSU => mkStats ii fu (lsu + 1) dl pl total
  | RKDataLink => mkStats ii fu lsu (dl + 1) pl total
  | RKPredicateLink => mkStats ii fu lsu dl (pl + 1) total
  end.

(** [emplace] keeps the first binding of a key; the identifier is the position
    narrowed to 32 bits. *)
Definition addResource (m : ModuloResourceModel) (resource : ModuloResource)
  : ModuloResourceModel :=
  let id := wrap32 (Z.of_nat (length (rm_resources m))) in
  mkResourceModel (rm_target m) (rm_ii m) (rm_resources m ++ [resource])
    (match rm_resourceIds m !! keyFor resource with
     | Some _ => rm_resourceIds m
     | None => <[keyFor resource := id]> (rm_resourceIds m)
     end)
    (bump (rm_stats m) (kindOf resource)).

Definition all_directions : list Direction := [North; South; East; West].

(** The [addResource] calls of the constructor's innermost body, in order. *)
Definition tileResources (target : TargetModel) (slot : Z) (tile : TileCoord)
  : list ModuloResource :=
  let links domain :=
    (fun direction => LinkResource domain tile direction slot) <$>
      filter (fun direction => is_Some (neighbor_in target tile direction)) all_directions in
  FUResource tile slot ::
  (if tileHasLSU target (tile_row tile) (tile_col tile) then [LSUResource tile slot] else []) ++
  (if String.eqb (net_topology (dataNetwork target)) "mesh_2d"
   then links NetData ++ links NetPredicate else []).

(** The three nested loops: slot, row, column. *)
Definition resourceSequence (target : TargetModel) (ii : Z) : list ModuloResource :=
  flat_map (fun slot =>
    flat_map (fun row =>
      flat_map (fun col => tileResources target slot (mkTile row col))
        (range (arr_cols (tm_array target))))
      (range (arr_rows (tm_array target))))
    (range ii).

Definition makeResourceModel (target : TargetModel) (ii : Z) : result ModuloResourceModel :=
  ii ← ModuloTimeDomain ii;
  let m := foldl addResource
             (mkResourceModel target ii [] ∅ (mkStats ii 0 0 0 0 0))
             (resourceSequence target ii) in
  let 'mkStats sii fu lsu dl pl _ := rm_stats m in
  Ok (mkResourceModel (rm_target m) (rm_ii m) (rm_resources m) (rm_resourceIds m)
        (mkStats sii fu lsu dl pl (Z.of_nat (length (rm_resources m))))).

Section ResourceQueries.
Context (m : ModuloResourceModel).

Definition resource (id : Z) : result ModuloResource :=
  if Z.of_nat (length (rm_resources m)) <=? id then Throw OutOfRange
  else of_option OutOfRange (rm_resources m !! nat_of id).

Definition findResource (requested : ModuloResource) : result Z :=
  of_option OutOfRange (rm_resourceIds m !! keyFor requested).

Definition hasFU (tile : TileCoord) : bool :=
  (tile_row tile <? arr_rows (tm_array (rm_target m))) &&
  (tile_col tile <? arr_cols (tm_array (rm_target m))).

Definition hasLSU (tile : TileCoord) : bool :=
  tileHasLSU (rm_target m) (tile_row tile) (tile_col tile).

Definition supportsOperation (tile : TileCoord) (node : TargetNode) : bool :=
  if (arr_rows (tm_array (rm_target m)) <=? tile_row tile) ||
     (arr_cols (tm_array (rm_target m)) <=? tile_col tile) then false
  else match findOperation (rm_target m) (tn_operation node) with
       | None => false
       | Some op => tileSupportsOperation (rm_target m) (tile_row tile) (tile_col tile) (op_id op)
       end.

Definition fuResource (tile : TileCoord) (slot : Z) : result Z :=
  _ ← validate (rm_ii m) slot;
  if negb (hasFU tile) then Throw InvalidArgument
  else findResource (FUResource tile slot).

Definition lsuResource (tile : TileCoord) (slot : Z) : result (option Z) :=
  _ ← validate (rm_ii m) slot;
  if negb (hasLSU tile) then Ok None
  else id ← findResource (LSUResource tile slot); Ok (Some id).

(** The [out_of_range] of [findResource] is caught: no such link. *)
Definition linkResource (domain : NetworkDomain) (source : TileCoord)
  (direction : Direction) (slot : Z) : result (option Z) :=
  _ ← validate (rm_ii m) slot;
  match neighbor_in (rm_target m) source direction with
  | None => Ok None
  | Some _ =>
      match findResource (LinkResource domain source direction slot) with
      | Ok id => Ok (Some id)
      | Throw OutOfRange => Ok None
      | Throw e => Throw e
      end
  end.

(** The footprint loop: one more consecutive slot per iteration. *)
Fixpoint footprint_loop (executionClass : TargetExecutionClass) (tile : TileCoord)
  (issueSlot : Z) (offsets : list Z) (footprint : list Z) : result (list Z) :=
  match offsets with
  | [] => Ok footprint
  | offset :: offsets =>
      slot ← advance (rm_ii m) issueSlot offset;
      res ← match executionClass with
            | FU => fuResource tile slot
            | LSU => found ← lsuResource tile slot;
                     of_option BadOptionalAccess found
            end;
      if bool_decide (res ∈ footprint) then Throw InvalidArgument
      else footprint_loop executionClass tile issueSlot offsets (footprint ++ [res])
  end.

Definition operationFootprint (node : TargetNode) (tile : TileCoord) (issueSlot : Z)
  : result (list Z) :=
  match findOperation (rm_target m) (tn_operation node) with
  | None => Throw InvalidArgument
  | Some op =>
      if negb (supportsOperation tile node) then Throw InvalidArgument
      else if op_issueOccupancy op =? 0 then Throw InvalidArgument
      else footprint_loop (op_executionClass op) tile issueSlot
             (range (op_issueOccupancy op)) []
  end.
End ResourceQueries.

(** ** The enumeration *)

(** When a resource exists: the declarative reading of the constructor. *)
Definition resource_exists (target : TargetModel) (ii : Z) (r : ModuloResource) : Prop :=
  let inside t := tile_inside (arr_rows (tm_array target)) (arr_cols (tm_array target)) t in
  match r with
  | FUResource tile slot => inside tile /\ 0 <= slot < ii
  | LSUResource tile slot =>
      inside tile /\ 0 <= slot < ii /\
      tileHasLSU target (tile_row tile) (tile_col tile) = true
  | LinkResource _ tile direction slot =>
      inside tile /\ 0 <= slot < ii /\
      net_topology (dataNetwork target) = "mesh_2d"%string /\
      is_Some (neighbor_in target tile direction)
  end.

Definition resource_tile (r : ModuloResource) : TileCoord :=
  match r with
  | FUResource t _ | LSUResource t _ => t
  | LinkResource _ t _ _ => t
  end.

Definition resource_slot (r : ModuloResource) : Z :=
  match r with
  | FUResource _ s | LSUResource _ s => s
  | LinkResource _ _ _ s => s
  end.

Section Enumeration.
Context (target : TargetModel).

Lemma elem_of_all_directions d : d ∈ all_directions.
Proof. destruct d; unfold all_directions; set_solver. Qed.

Lemma NoDup_all_directions : NoDup all_directions.
Proof. apply (bool_decide_unpack _). vm_compute. done. Qed.

Lemma tileResources_tile slot tile r :
  r ∈ tileResources target slot tile -> resource_tile r = tile /\ resource_slot r = slot.
Proof.
  unfold tileResources. rewrite elem_of_cons, elem_of_app. intros [->|[H|H]]; [done| |].
  - destruct (tileHasLSU _ _ _); [|by apply not_elem_of_nil in H].
    by apply list_elem_of_singleton in H as ->.
  - destruct (String.eqb _ _); [|by apply not_elem_of_nil in H].
    apply elem_of_app in H as [H|H]; apply list_elem_of_fmap in H as (d & -> & _); done.
Qed.

Lemma elem_of_tileResources slot tile r :
  r ∈ tileResources target slot tile <->
  match r with
  | FUResource t s => t = tile /\ s = slot
  | LSUResource t s =>
      t = tile /\ s = slot /\ tileHasLSU target (tile_row tile) (tile_col tile) = true
  | LinkResource _ t d s =>
      t = tile /\ s = slot /\ net_topology (dataNetwork target) = "mesh_2d"%string /\
      is_Some (neighbor_in target tile d)
  end.
Proof.
  unfold tileResources. rewrite elem_of_cons, elem_of_app.
  assert (Hlsu : forall b (x : ModuloResource),
    x ∈ (if b : bool then [LSUResource tile slot] else []) <->
    b = true /\ x = LSUResource tile slot).
  { intros [] x; [rewrite list_elem_of_singleton|rewrite elem_of_nil]; naive_solver. }
  assert (Hlink : forall dom x,
    x ∈ (fun direction => LinkResource dom tile direction slot) <$>
      filter (fun direction => is_Some (neighbor_in target tile direction)) all_directions <->
    exists d, x = LinkResource dom tile d slot /\ is_Some (neighbor_in target tile d)).
  { intros dom x. rewrite list_elem_of_fmap. setoid_rewrite list_elem_of_filter.
    pose proof elem_of_all_directions. naive_solver. }
  rewrite Hlsu.
  destruct (String.eqb_spec (net_topology (dataNetwork target)) "mesh_2d") as [E|E];
    [rewrite elem_of_app, !Hlink|rewrite elem_of_nil];
    destruct r as [t s|t s|[] t d s]; naive_solver.
Qed.

Lemma elem_of_resourceSequence ii r :
  r ∈ resourceSequence target ii <-> resource_exists target ii r.
Proof.
  unfold resourceSequence. rewrite elem_of_flat_map.
  setoid_rewrite elem_of_flat_map. setoid_rewrite elem_of_flat_map.
  setoid_rewrite elem_of_range. split.
  - intros (s & Hs & row & Hrow & col & Hcol & Hr).
    apply elem_of_tileResources in Hr.
    destruct r; simpl; unfold tile_inside; destruct_and?; subst; simpl in *; auto.
  - intros Hr.
    assert (tile_inside (arr_rows (tm_array target)) (arr_cols (tm_array target))
              (resource_tile r) /\ 0 <= resource_slot r < ii) as [[Hrow Hcol] Hs].
    { destruct r; simpl in Hr; destruct_and?; auto. }
    exists (resource_slot r); split; [done|].
    exists (tile_row (resource_tile r)); split; [done|].
    exists (tile_col (resource_tile r)); split; [done|].
    apply elem_of_tileResources. destruct r as [[] s|[] s|dom [] d s]; simpl in *; naive_solver.
Qed.

Lemma NoDup_tileResources slot tile : NoDup (tileResources target slot tile).
Proof.
  assert (Hlink : forall dom, NoDup ((fun direction => LinkResource dom tile direction slot) <$>
      filter (fun direction => is_Some (neighbor_in target tile direction)) all_directions)).
  { intros dom. apply NoDup_fmap_2; [by intros ?? [= ->]|].
    apply NoDup_filter, NoDup_all_directions. }
  unfold tileResources. apply NoDup_cons. split.
  - rewrite elem_of_app. intros [H|H].
    + destruct (tileHasLSU _ _ _); [by apply list_elem_of_singleton in H|].
      by apply not_elem_of_nil in H.
    + destruct (String.eqb _ _); [|by apply not_elem_of_nil in H].
      apply elem_of_app in H as [H|H]; by apply list_elem_of_fmap in H as (? & [=] & _).
  - apply NoDup_app. split; [destruct (tileHasLSU _ _ _); repeat constructor; set_solver|].
    split; [|destruct (String.eqb _ _); [|constructor]; apply NoDup_app; split_and!;
             [done| |done]].
    + intros x Hx H. destruct (tileHasLSU _ _ _); [|by apply not_elem_of_nil in Hx].
      apply list_elem_of_singleton in Hx as ->.
      destruct (String.eqb _ _); [|by apply not_elem_of_nil in H].
      apply elem_of_app in H as [H|H]; by apply list_elem_of_fmap in H as (? & [=] & _).
    + intros x H1 H2. apply list_elem_of_fmap in H1 as (? & -> & _).
      by apply list_elem_of_fmap in H2 as (? & [=] & _).
Qed.

Lemma NoDup_resourceSequence ii : NoDup (resourceSequence target ii).
Proof.
  apply (NoDup_flat_map _ resource_slot); [apply NoDup_range| |].
  - intros s _. apply (NoDup_flat_map _ (fun r => tile_row (resource_tile r)));
      [apply NoDup_range| |].
    + intros row _. apply (NoDup_flat_map _ (fun r => tile_col (resource_tile r)));
        [apply NoDup_range| |].
      * intros col _. apply NoDup_tileResources.
      * intros col r Hr. by apply tileResources_tile in Hr as [-> _].
    + intros row r Hr. apply elem_of_flat_map in Hr as (col & _ & Hr).
      by apply tileResources_tile in Hr as [-> _].
  - intros s r Hr. apply elem_of_flat_map in Hr as (row & _ & Hr).
    apply elem_of_flat_map in Hr as (col & _ & Hr).
    by apply tileResources_tile in Hr as [_ ->].
Qed.
End Enumeration.

(** ** Correctness of the constructed model *)

(** What [makeResourceModel] guarantees: identifiers and resources are in
    bijection, and the resources are those that exist. *)
Record ResourceModel_wf (m : ModuloResourceModel) : Prop := {
  rmwf_target : TargetModel_wf (rm_target m);
  rmwf_ii : 0 < rm_ii m <= u32_max;
  rmwf_resources : rm_resources m = resourceSequence (rm_target m) (rm_ii m);
  rmwf_ids : forall r id, rm_resourceIds m !! keyFor r = Some id <->
    0 <= id /\ rm_resources m !! nat_of id = Some r
}.

Section Construction.
Lemma foldl_addResource_frame l m :
  rm_target (foldl addResource m l) = rm_target m /\
  rm_ii (foldl addResource m l) = rm_ii m /\
  rm_resources (foldl addResource m l) = rm_resources m ++ l.
Proof.
  revert m. induction l as [|r l IH]; intros m; simpl; [by rewrite app_nil_r|].
  destruct (IH (addResource m r)) as (-> & -> & ->). simpl.
  by rewrite <- app_assoc.
Qed.

(** While the vector has no duplicates and stays below 2^32 entries, the
    identifier map is exact. *)
Lemma addResource_ids m r :
  (forall r' id, rm_resourceIds m !! keyFor r' = Some id <->
     0 <= id /\ rm_resources m !! nat_of id = Some r') ->
  r ∉ rm_resources m -> Z.of_nat (length (rm_resources m)) <= u32_max ->
  forall r' id, rm_resourceIds (addResource m r) !! keyFor r' = Some id <->
     0 <= id /\ rm_resources (addResource m r) !! nat_of id = Some r'.
Proof.
  intros Hids Hfresh Hlen r' id. simpl. rewrite wrap32_id by (unfold_words; lia).
  assert (rm_resourceIds m !! keyFor r = None) as ->.
  { apply eq_None_not_Some. intros (i & Hi). apply Hids in Hi as [_ Hi].
    by apply list_elem_of_lookup_2, Hfresh in Hi. }
  rewrite lookup_insert. case_decide as E.
  - apply (inj keyFor) in E as ->. split.
    + intros [= <-]. split; [lia|]. rewrite Nat2Z.id.
      by rewrite lookup_app_r, Nat.sub_diag by lia.
    + intros [H0 H]. apply lookup_app_Some in H as [H|[Hl H]].
      * exfalso. by apply list_elem_of_lookup_2, Hfresh in H.
      * apply list_lookup_singleton_Some in H as [H _]. f_equal. lia.
  - rewrite Hids. split; intros [H0 H]; (split; [done|]).
    + by apply lookup_app_l_Some.
    + apply lookup_app_Some in H as [H|[Hl H]]; [done|].
      apply list_lookup_singleton_Some in H as [_ ->]. done.
Qed.

Lemma foldl_addResource_ids l m :
  (forall r id, rm_resourceIds m !! keyFor r = Some id <->
     0 <= id /\ rm_resources m !! nat_of id = Some r) ->
  NoDup (rm_resources m ++ l) ->
  Z.of_nat (length (rm_resources m ++ l)) <= u32_max + 1 ->
  forall r id, rm_resourceIds (foldl addResource m l) !! keyFor r = Some id <->
     0 <= id /\ (rm_resources m ++ l) !! nat_of id = Some r.
Proof.
  revert m. induction l as [|r l IH]; intros m Hids Hnd Hlen.
  - by rewrite app_nil_r.
  - simpl. replace (rm_resources m ++ r :: l) with (rm_resources (addResource m r) ++ l)
      in * by (simpl; by rewrite <- app_assoc).
    apply IH; [|done|done]. apply addResource_ids; [done| |].
    + simpl in Hnd. rewrite <- app_assoc in Hnd. apply NoDup_app in Hnd as (_ & Hd & _).
      intros Hr. apply (Hd r Hr). left.
    + simpl in Hlen. rewrite !length_app in Hlen. simpl in Hlen. unfold_words. lia.
Qed.

Lemma makeResourceModel_spec target ii :
  TargetModel_wf target -> 0 < ii <= u32_max ->
  Z.of_nat (length (resourceSequence target ii)) <= u32_max + 1 ->
  exists m, makeResourceModel target ii = Ok m /\ ResourceModel_wf m /\
    rm_target m = target /\ rm_ii m = ii.
Proof.
  intros Hwf Hii Hlen. unfold makeResourceModel, ModuloTimeDomain.
  replace (ii =? 0) with false by lia. simpl.
  set (m0 := mkResourceModel target ii [] ∅ (mkStats ii 0 0 0 0 0)).
  pose proof (foldl_addResource_frame (resourceSequence target ii) m0) as (Ht & Hi & Hr).
  assert (Hids : forall r id,
    rm_resourceIds (foldl addResource m0 (resourceSequence target ii)) !! keyFor r = Some id <->
     0 <= id /\ (rm_resources m0 ++ resourceSequence target ii) !! nat_of id = Some r).
  { apply foldl_addResource_ids; [|apply NoDup_resourceSequence|done].
    intros r id. simpl. rewrite lookup_empty, lookup_nil. naive_solver. }
  destruct (rm_stats _) as [sii fu lsu dl pl tot] eqn:E.
  eexists. split; [done|]. simpl. split; [|done].
  split; simpl; rewrite ?Ht, ?Hi, ?Hr; simpl; done.
Qed.
End Construction.

Section ModelLemmas.
Context (m : ModuloResourceModel) (Hwf : ResourceModel_wf m).
Let rows := arr_rows (tm_array (rm_target m)).
Let cols := arr_cols (tm_array (rm_target m)).

Lemma findResource_Ok r id :
  findResource m r = Ok id <-> 0 <= id /\ rm_resources m !! nat_of id = Some r.
Proof. unfold findResource. rewrite of_option_Ok. apply rmwf_ids, Hwf. Qed.

Lemma findResource_exists r :
  resource_exists (rm_target m) (rm_ii m) r <-> exists id, findResource m r = Ok id.
Proof.
  rewrite <- elem_of_resourceSequence, <- (rmwf_resources m Hwf), list_elem_of_lookup.
  setoid_rewrite findResource_Ok. split.
  - intros (i & Hi). exists (Z.of_nat i). rewrite Nat2Z.id. split; [lia|done].
  - intros (id & _ & H). eauto.
Qed.

Lemma findResource_inj r r' id :
  findResource m r = Ok id -> findResource m r' = Ok id -> r = r'.
Proof. rewrite !findResource_Ok. intros [_ H] [_ H']. congruence. Qed.

Lemma findResource_Throw r e :
  findResource m r = Throw e -> e = OutOfRange /\ ~ resource_exists (rm_target m) (rm_ii m) r.
Proof.
  intros H. split.
  - unfold findResource in H. by apply of_option_Throw in H as [_ ->].
  - intros Hex. apply findResource_exists in Hex as (id & Hid). congruence.
Qed.

Lemma resource_Ok id r :
  0 <= id -> resource m id = Ok r <-> findResource m r = Ok id.
Proof.
  intros H0. rewrite findResource_Ok. unfold resource. case_match; bool_hyps.
  - split; [done|]. intros [_ Hr]. apply lookup_lt_Some in Hr. lia.
  - rewrite of_option_Ok. naive_solver.
Qed.

Lemma validate_Ok slot u : validate (rm_ii m) slot = Ok u <-> slot < rm_ii m.
Proof. unfold validate. destruct u. case_match; bool_hyps; split; try done; lia. Qed.

Lemma fuResource_Ok tile slot id :
  fuResource m tile slot = Ok id <->
  slot < rm_ii m /\ hasFU m tile = true /\ findResource m (FUResource tile slot) = Ok id.
Proof.
  unfold fuResource. rewrite bind_Ok. setoid_rewrite validate_Ok.
  destruct (hasFU m tile); simpl; naive_solver.
Qed.

Lemma lsuResource_Ok tile slot id :
  lsuResource m tile slot = Ok (Some id) <->
  slot < rm_ii m /\ hasLSU m tile = true /\ findResource m (LSUResource tile slot) = Ok id.
Proof.
  unfold lsuResource. rewrite bind_Ok. setoid_rewrite validate_Ok.
  destruct (hasLSU m tile); simpl; [|naive_solver].
  setoid_rewrite bind_Ok. naive_solver.
Qed.

Lemma linkResource_Ok domain source direction slot id :
  linkResource m domain source direction slot = Ok (Some id) <->
  slot < rm_ii m /\ is_Some (neighbor_in (rm_target m) source direction) /\
  findResource m (LinkResource domain source direction slot) = Ok id.
Proof.
  unfold linkResource. rewrite bind_Ok. setoid_rewrite validate_Ok.
  destruct (neighbor_in _ _ _) as [t|]; [|naive_solver].
  destruct (findResource _ _) as [i|[]]; naive_solver.
Qed.

(** With a legal slot the link query never throws. *)
Lemma linkResource_total domain source direction slot :
  slot < rm_ii m -> exists o, linkResource m domain source direction slot = Ok o.
Proof.
  intros Hs. unfold linkResource. unfold validate.
  replace (rm_ii m <=? slot) with false by lia. simpl.
  destruct (neighbor_in _ _ _); [|eauto].
  destruct (findResource _ _) as [i|e] eqn:E; [eauto|].
  apply findResource_Throw in E as [-> _]. eauto.
Qed.
End ModelLemmas.

(** ** Operation footprints *)

Definition exec_resource (c : TargetExecutionClass) (tile : TileCoord) (slot : Z)
  : ModuloResource :=
  match c with FU => FUResource tile slot | LSU => LSUResource tile slot end.

Lemma mod_window_inj ii a o1 o2 :
  0 < ii -> 0 <= o1 < ii -> 0 <= o2 < ii -> (a + o1) mod ii = (a + o2) mod ii -> o1 = o2.
Proof.
  intros Hii H1 H2 E.
  pose proof (Z.div_mod (a + o1) ii ltac:(lia)) as D1.
  pose proof (Z.div_mod (a + o2) ii ltac:(lia)) as D2. rewrite E in D1.
  set (q1 := (a + o1) / ii) in *. set (q2 := (a + o2) / ii) in *.
  assert (o1 - o2 = ii * (q1 - q2)) by lia.
  assert (q1 - q2 = 0) by nia. nia.
Qed.

Section Footprints.
Context (m : ModuloResourceModel) (Hwf : ResourceModel_wf m).

(** One iteration of the footprint loop resolves one resource. *)
Lemma footprint_step_Ok c tile slot id :
  (match c with
   | FU => fuResource m tile slot
   | LSU => found ← lsuResource m tile slot; of_option BadOptionalAccess found
   end = Ok id) <->
  slot < rm_ii m /\ (match c with FU => hasFU m tile | LSU => hasLSU m tile end) = true /\
  findResource m (exec_resource c tile slot) = Ok id.
Proof.
  destruct c; cbn [exec_resource]; [apply fuResource_Ok|].
  rewrite bind_Ok. split.
  - intros (o & Ho & E). apply of_option_Ok in E as ->. by apply lsuResource_Ok in Ho.
  - intros H. exists (Some id). split; [by apply lsuResource_Ok|done].
Qed.

Lemma footprint_loop_Ok c tile issue offsets fp fp' :
  0 <= issue -> footprint_loop m c tile issue offsets fp = Ok fp' ->
  exists new, fp' = fp ++ new /\
    Forall2 (fun o id =>
      findResource m (exec_resource c tile ((issue + o) mod rm_ii m)) = Ok id) offsets new /\
    (NoDup fp -> NoDup fp').
Proof.
  intros Hi. revert fp. induction offsets as [|o offsets IH]; intros fp H; simpl in H.
  - injection H as <-. exists []. rewrite app_nil_r. auto.
  - inv_ok. apply advance_Ok in Hv as [_ ->]; [|apply Hwf|done].
    case_bool_decide as Hin; [done|].
    apply footprint_step_Ok in Hv0 as (_ & _ & Hf).
    apply IH in H as (new & -> & Hall & Hnd). exists (v0 :: new).
    split; [by rewrite <- app_assoc|]. split; [by constructor|].
    intros Hfp. apply Hnd. apply NoDup_app. split; [done|]. split.
    + intros x Hx Hs. apply list_elem_of_singleton in Hs as ->. done.
    + repeat constructor. set_solver.
Qed.

(** What a footprint is: one execution resource per occupied slot. *)
Definition footprint_of (op : TargetOperationDesc) (tile : TileCoord) (issue : Z)
  (fp : list Z) : Prop :=
  Forall2 (fun o id =>
      findResource m (exec_resource (op_executionClass op) tile ((issue + o) mod rm_ii m)) = Ok id)
    (range (op_issueOccupancy op)) fp /\ NoDup fp.

Lemma operationFootprint_Ok node tile issue fp :
  0 <= issue -> operationFootprint m node tile issue = Ok fp ->
  exists op, findOperation (rm_target m) (tn_operation node) = Some op /\
    supportsOperation m tile node = true /\ op_issueOccupancy op <> 0 /\
    footprint_of op tile issue fp.
Proof.
  intros Hi H. unfold operationFootprint in H.
  destruct (findOperation _ _) as [op|] eqn:Eop; [|done].
  destruct (negb _) eqn:Hs; [done|]. destruct (_ =? 0) eqn:E0; [done|]. bool_hyps.
  exists op. do 3 (split; [done|]).
  apply footprint_loop_Ok in H as (new & -> & Hall & Hnd); [|done].
  split; [done|]. apply Hnd. constructor.
Qed.

Lemma supportsOperation_resource tile node op slot :
  0 <= tile_row tile -> 0 <= tile_col tile -> 0 <= slot < rm_ii m ->
  findOperation (rm_target m) (tn_operation node) = Some op ->
  supportsOperation m tile node = true ->
  (match op_executionClass op with FU => hasFU m tile | LSU => hasLSU m tile end) = true /\
  resource_exists (rm_target m) (rm_ii m) (exec_resource (op_executionClass op) tile slot).
Proof.
  intros Hr Hc Hslot Hop Hs. unfold supportsOperation in Hs.
  destruct (_ || _)%bool eqn:E; [done|]. bool_hyps. rewrite Hop in Hs.
  assert (Hid : findOperation (rm_target m) (op_id op) = Some op).
  { apply findOperation_id in Hop as E'; [by rewrite E'|apply Hwf]. }
  apply tileSupportsOperation_inside in Hs as (_ & _ & op' & Hop' & Hlsu).
  replace op' with op in * by congruence.
  destruct (op_executionClass op); simpl; unfold hasFU, hasLSU, tile_inside.
  - split; [lia|]. split; lia.
  - split; [by apply Hlsu|]. split; [lia|]. split; [lia|]. by apply Hlsu.
Qed.

Lemma footprint_loop_complete c tile issue base offsets fp :
  0 <= issue < rm_ii m ->
  (forall slot, 0 <= slot < rm_ii m ->
     (match c with FU => hasFU m tile | LSU => hasLSU m tile end) = true /\
     resource_exists (rm_target m) (rm_ii m) (exec_resource c tile slot)) ->
  NoDup (base ++ offsets) -> (forall o, o ∈ base ++ offsets -> 0 <= o < rm_ii m) ->
  Forall2 (fun o id =>
    findResource m (exec_resource c tile ((issue + o) mod rm_ii m)) = Ok id) base fp ->
  exists fp', footprint_loop m c tile issue offsets fp = Ok fp'.
Proof.
  intros Hi Hex. revert base fp.
  induction offsets as [|o offsets IH]; intros base fp Hnd Hrange Hbase; [simpl; eauto|].
  simpl. rewrite advance_spec; [|apply Hwf|done]. simpl.
  set (slot := (issue + o) mod rm_ii m).
  assert (Hslot : 0 <= slot < rm_ii m) by (apply Z.mod_pos_bound; lia).
  destruct (Hex slot Hslot) as [Hhas Hres].
  apply (findResource_exists m Hwf) in Hres as (id & Hid).
  assert (Hstep := proj2 (footprint_step_Ok c tile slot id)
                     (conj (proj2 Hslot) (conj Hhas Hid))).
  rewrite Hstep. simpl. case_bool_decide as Hin.
  - exfalso. apply list_elem_of_lookup in Hin as (k & Hk).
    destruct (Forall2_lookup_r _ _ _ _ _ Hbase Hk) as (o' & Ho' & Hid').
    pose proof (findResource_inj m Hwf _ _ _ Hid Hid') as E.
    assert (slot = (issue + o') mod rm_ii m) as E' by (destruct c; by injection E).
    apply list_elem_of_lookup_2 in Ho'.
    apply mod_window_inj in E'; [|lia|apply Hrange; set_solver|apply Hrange; set_solver].
    subst o'. apply NoDup_app in Hnd as (_ & Hd & _). apply (Hd o Ho'). left.
  - apply (IH (base ++ [o])).
    + by rewrite <- app_assoc.
    + intros o'. rewrite <- app_assoc. apply Hrange.
    + apply Forall2_app; [done|]. by repeat constructor.
Qed.

Lemma operationFootprint_complete node tile issue op :
  0 <= tile_row tile -> 0 <= tile_col tile -> 0 <= issue < rm_ii m ->
  findOperation (rm_target m) (tn_operation node) = Some op ->
  supportsOperation m tile node = true ->
  0 < op_issueOccupancy op <= rm_ii m ->
  exists fp, operationFootprint m node tile issue = Ok fp.
Proof.
  intros Hr Hc Hi Hop Hs Hocc. unfold operationFootprint. rewrite Hop, Hs. simpl.
  replace (op_issueOccupancy op =? 0) with false by lia.
  apply (footprint_loop_complete _ _ _ []); [done| |apply NoDup_range| |constructor].
  - intros slot Hslot. by apply (supportsOperation_resource _ node).
  - intros o Ho. apply elem_of_range in Ho. lia.
Qed.

(** A footprint never exceeds the II: the occupied slots are distinct. *)
Lemma footprint_of_occupancy op tile issue fp :
  footprint_of op tile issue fp ->
  Z.of_nat (length fp) = Z.max 0 (op_issueOccupancy op) /\ op_issueOccupancy op <= rm_ii m.
Proof.
  intros [Hall Hnd]. pose proof (rmwf_ii m Hwf) as Hii.
  assert (Hlen := Forall2_length _ _ _ Hall). unfold range in Hlen.
  rewrite length_seqZ in Hlen. split; [lia|].
  destruct (Z.le_gt_cases (op_issueOccupancy op) (rm_ii m)) as [|Hgt]; [done|]. exfalso.
  assert (H0 : range (op_issueOccupancy op) !! 0%nat = Some 0).
  { unfold range. rewrite lookup_seqZ. lia. }
  assert (H1 : range (op_issueOccupancy op) !! nat_of (rm_ii m) = Some (rm_ii m)).
  { unfold range. rewrite lookup_seqZ. lia. }
  destruct (Forall2_lookup_l _ _ _ _ _ Hall H0) as (i0 & L0 & F0).
  destruct (Forall2_lookup_l _ _ _ _ _ Hall H1) as (i1 & L1 & F1).
  rewrite Z.add_0_r in F0. rewrite <- Z.add_mod_idemp_r, Z_mod_same_full, Z.add_0_r in F1 by lia.
  assert (i0 = i1) by congruence. subst i1.
  pose proof (NoDup_lookup _ _ _ _ Hnd L0 L1). lia.
Qed.
End Footprints.

(** ** Reservations (ResourceReservation.h, .cpp) *)

Inductive ReservationOwner := OwnerNode (id : Z) | OwnerEdge (id : Z).

#[export] Instance ReservationOwner_eq_dec : EqDecision ReservationOwner.
Proof. solve_decision. Defined.

Record ReservationDelta := mkDelta {
  delta_owner : ReservationOwner;
  delta_resources : list Z
}.

(** The table is its vector of owners. *)
Abbreviation ReservationTable := (list (option ReservationOwner)).

Definition makeReservationTable (m : ModuloResourceModel) : ReservationTable :=
  replicate (length (rm_resources m)) None.

Section Reservation.
Implicit Types (t : ReservationTable) (ids : list Z).

Definition in_table t (id : Z) : bool := id <? Z.of_nat (length t).

(** [owners_[id]], guarded by the range check that precedes it. *)
Definition slot_of t (id : Z) : option ReservationOwner :=
  default None (t !! nat_of id).

Definition isFree t (id : Z) : result bool :=
  if negb (in_table t id) then Throw OutOfRange
  else Ok (bool_decide (slot_of t id = None)).

Definition owner t (id : Z) : result (option ReservationOwner) :=
  if negb (in_table t id) then Throw OutOfRange else Ok (slot_of t id).

Fixpoint canReserve_loop t ids (unique : list Z) : bool :=
  match ids with
  | [] => true
  | id :: ids =>
      if negb (in_table t id) || bool_decide (id ∈ unique)
         || bool_decide (is_Some (slot_of t id)) then false
      else canReserve_loop t ids (unique ++ [id])
  end.

Definition canReserve t ids : bool := canReserve_loop t ids [].

(** [owners_[id] = value]. *)
Definition set_owner (value : option ReservationOwner) t (id : Z) : ReservationTable :=
  <[nat_of id := value]> t.

Definition reserve t ids (who : ReservationOwner) : bool * ReservationTable :=
  if negb (canReserve t ids) then (false, t)
  else (true, foldl (set_owner (Some who)) t ids).

Definition tryReserve t ids (who : ReservationOwner)
  : option ReservationDelta * ReservationTable :=
  let '(ok, t') := reserve t ids who in
  if negb ok then (None, t') else (Some (mkDelta who ids), t').

Definition release t ids (who : ReservationOwner) : result ReservationTable :=
  if forallb (fun id => in_table t id && bool_decide (slot_of t id = Some who)) ids
  then Ok (foldl (set_owner None) t ids)
  else Throw InvalidArgument.

Definition undo t (delta : ReservationDelta) : result ReservationTable :=
  release t (delta_resources delta) (delta_owner delta).

Definition clear t : ReservationTable := (fun _ => None) <$> t.

(** Lemmas. *)

Lemma canReserve_loop_true t ids unique :
  canReserve_loop t ids unique = true <->
  NoDup ids /\ forall id, id ∈ ids ->
    id < Z.of_nat (length t) /\ slot_of t id = None /\ id ∉ unique.
Proof.
  revert unique. induction ids as [|id ids IH]; intros unique; simpl.
  - split; [|done]. intros _. split; [constructor|]. intros i Hi. by apply not_elem_of_nil in Hi.
  - unfold in_table. rewrite NoDup_cons.
    destruct (_ || _ || _)%bool eqn:E.
    + split; [done|]. intros [_ H]. destruct (H id ltac:(left)) as (H1 & H2 & H3).
      rewrite !orb_true_iff in E. destruct E as [[E|E]|E].
      * lia.
      * by apply bool_decide_eq_true in E.
      * apply bool_decide_eq_true in E. rewrite H2 in E. by destruct E.
    + bool_hyps. apply eq_None_not_Some in E1. rewrite IH. split.
      * intros [Hnd H]. split.
        { split; [|done]. intros Hin. destruct (H id Hin) as (_ & _ & Hn). set_solver. }
        intros i Hi. apply elem_of_cons in Hi as [->|Hi]; [split_and!; [lia|done|done]|].
        destruct (H i Hi) as (? & ? & ?). set_solver.
      * intros [[Hn Hnd] H]. split; [done|]. intros i Hi.
        destruct (H i ltac:(by right)) as (? & ? & ?). split_and!; [done|done|].
        rewrite elem_of_app, list_elem_of_singleton. intros [?| ->]; done.
Qed.

Lemma canReserve_true t ids :
  canReserve t ids = true <->
  NoDup ids /\ forall id, id ∈ ids -> id < Z.of_nat (length t) /\ slot_of t id = None.
Proof.
  unfold canReserve. rewrite canReserve_loop_true.
  split; intros [Hnd H]; (split; [done|]); intros id Hid; destruct (H id Hid); set_solver.
Qed.

Lemma foldl_set_owner_length v t ids : length (foldl (set_owner v) t ids) = length t.
Proof.
  revert t. induction ids as [|id ids IH]; intros t; simpl; [done|].
  rewrite IH. unfold set_owner. apply length_insert.
Qed.

Lemma foldl_set_owner_slot v t ids id :
  0 <= id -> (forall i, i ∈ ids -> 0 <= i < Z.of_nat (length t)) ->
  slot_of (foldl (set_owner v) t ids) id = if decide (id ∈ ids) then v else slot_of t id.
Proof.
  intros Hid. revert t. induction ids as [|i ids IH]; intros t Hr; cbn [foldl].
  - by rewrite decide_False by (apply not_elem_of_nil).
  - rewrite IH; [|intros j Hj; unfold set_owner; rewrite length_insert; apply Hr; by right].
    destruct (decide (id ∈ ids)) as [Hin|Hin].
    + rewrite decide_True by (by right). done.
    + unfold slot_of, set_owner. destruct (decide (id = i)) as [->|Hne].
      * rewrite decide_True by left.
        rewrite list_lookup_insert_eq by (specialize (Hr i ltac:(left)); lia). done.
      * rewrite decide_False by (rewrite elem_of_cons; tauto).
        rewrite list_lookup_insert_ne; [done|].
        specialize (Hr i ltac:(left)). lia.
Qed.
End Reservation.

Section ReservationLemmas.
Implicit Types (t : ReservationTable) (ids : list Z).

Lemma slot_of_ext t t' :
  length t = length t' -> (forall id, 0 <= id -> slot_of t id = slot_of t' id) -> t = t'.
Proof.
  intros Hlen H. apply list_eq_same_length with (length t); [done|done|].
  intros i x y Hi Hx Hy. specialize (H (Z.of_nat i) ltac:(lia)).
  unfold slot_of in H. rewrite Nat2Z.id, Hx, Hy in H. done.
Qed.

Lemma reserve_true t ids who t' :
  (forall id, id ∈ ids -> 0 <= id) -> reserve t ids who = (true, t') ->
  NoDup ids /\ length t' = length t /\
  (forall id, id ∈ ids -> id < Z.of_nat (length t) /\ slot_of t id = None) /\
  (forall id, 0 <= id -> slot_of t' id = if decide (id ∈ ids) then Some who else slot_of t id).
Proof.
  intros Hpos. unfold reserve. destruct (canReserve t ids) eqn:E; simpl; [|done].
  intros [= <-]. apply canReserve_true in E as [Hnd Hfree].
  split; [done|]. split; [apply foldl_set_owner_length|]. split; [done|].
  intros id Hid. apply foldl_set_owner_slot; [done|].
  intros i Hi. split; [by apply Hpos|]. by apply Hfree.
Qed.

Lemma release_Ok t ids who t' :
  (forall id, id ∈ ids -> 0 <= id) -> release t ids who = Ok t' ->
  length t' = length t /\
  (forall id, id ∈ ids -> id < Z.of_nat (length t) /\ slot_of t id = Some who) /\
  (forall id, 0 <= id -> slot_of t' id = if decide (id ∈ ids) then None else slot_of t id).
Proof.
  intros Hpos. unfold release. destruct (forallb _ _) eqn:E; [|done]. intros [= <-].
  assert (Hown : forall id, id ∈ ids -> id < Z.of_nat (length t) /\ slot_of t id = Some who).
  { intros id Hid. rewrite forallb_forall in E.
    specialize (E id (proj1 (list_elem_of_In _ _) Hid)). unfold in_table in E.
    bool_hyps. done. }
  split; [apply foldl_set_owner_length|]. split; [done|].
  intros id Hid. apply foldl_set_owner_slot; [done|].
  intros i Hi. split; [by apply Hpos|]. by apply Hown.
Qed.

Lemma release_owned t ids who :
  (forall id, id ∈ ids -> id < Z.of_nat (length t) /\ slot_of t id = Some who) ->
  release t ids who = Ok (foldl (set_owner None) t ids).
Proof.
  intros H. unfold release.
  destruct (forallb _ _) eqn:E; [done|]. exfalso.
  apply not_true_iff_false in E. apply E. apply forallb_forall.
  intros id Hid%list_elem_of_In. destruct (H id Hid). unfold in_table.
  rewrite bool_decide_eq_true_2 by done. lia.
Qed.

(** A transaction that succeeds can be undone exactly. *)
Lemma tryReserve_Some t ids who delta t' :
  (forall id, id ∈ ids -> 0 <= id) -> tryReserve t ids who = (Some delta, t') ->
  delta = mkDelta who ids /\ NoDup ids /\ length t' = length t /\
  (forall id, id ∈ ids -> id < Z.of_nat (length t) /\ slot_of t id = None) /\
  (forall id, 0 <= id -> slot_of t' id = if decide (id ∈ ids) then Some who else slot_of t id) /\
  undo t' delta = Ok t.
Proof.
  intros Hpos. unfold tryReserve. destruct (reserve t ids who) as [ok t1] eqn:E.
  destruct ok; simpl; [|done]. intros [= <- ->].
  apply reserve_true in E as (Hnd & Hlen & Hfree & Hslot); [|done].
  do 5 (split; [done|]). unfold undo. simpl. rewrite release_owned.
  2:{ intros id Hid. rewrite Hlen, Hslot by auto. rewrite decide_True by done.
      split; [by apply Hfree|done]. }
  f_equal. apply slot_of_ext; [by rewrite foldl_set_owner_length|].
  intros id Hid. rewrite foldl_set_owner_slot; [|done|].
  - case_decide as Hin; [symmetry; by apply Hfree|]. rewrite Hslot by done.
    by rewrite decide_False.
  - intros i Hi. rewrite Hlen. split; [by apply Hpos|]. by apply Hfree.
Qed.
End ReservationLemmas.

(** The resource model of the shipped contract. *)
Definition v2_model (ii : Z) : ModuloResourceModel :=
  match makeResourceModel cgra_v2 ii with
  | Ok m => m
  | Throw _ => mkResourceModel cgra_v2 ii [] ∅ (mkStats ii 0 0 0 0 0)
  end.

Lemma v2_model_wf ii :
  0 < ii <= u32_max -> Z.of_nat (length (resourceSequence cgra_v2 ii)) <= u32_max + 1 ->
  ResourceModel_wf (v2_model ii) /\ rm_target (v2_model ii) = cgra_v2 /\ rm_ii (v2_model ii) = ii.
Proof.
  intros Hii Hlen. unfold v2_model.
  destruct (makeResourceModel_spec cgra_v2 ii cgra_v2_wf Hii Hlen) as (m & -> & Hm). tauto.
Qed.

(** ** Properties *)

(** Modulo time is a faithful image of absolute time.  Advancing a valid
    slot always yields a valid slot, advances compose as the sum of the delays,
    and whole periods are invisible. *)
Theorem advance_is_modular_time (ii slot a b : Z) :
  0 < ii <= u32_max -> 0 <= slot < ii ->
  exists s1 s2, advance ii slot a = Ok s1 /\ 0 <= s1 < ii /\
    advance ii s1 b = Ok s2 /\ advance ii slot (a + b) = Ok s2 /\
    advance ii slot (a + ii) = Ok s1.
Proof.
  intros Hii Hs. pose proof (Z.mod_pos_bound (slot + a) ii ltac:(lia)) as Hb.
  exists ((slot + a) mod ii), ((slot + (a + b)) mod ii).
  rewrite !advance_spec by lia. split_and!; try done; try lia.
  - by rewrite Z.add_mod_idemp_l, Z.add_assoc by lia.
  - f_equal. rewrite Z.add_assoc. rewrite <- Z.add_mod_idemp_r by lia.
    by rewrite Z_mod_same_full, Z.add_0_r.
Qed.

Lemma advance_is_modular_time_witness :
  exists s1 s2, advance 7 5 9 = Ok s1 /\ 0 <= s1 < 7 /\
    advance 7 s1 4 = Ok s2 /\ advance 7 5 (9 + 4) = Ok s2 /\ advance 7 5 (9 + 7) = Ok s1.
Proof. apply (advance_is_modular_time 7 5 9 4); unfold u32_max; lia. Defined.

(** the mesh is symmetric.  A hop never leaves the array, and the opposite
    direction leads back, so every link has a reverse link. *)
Theorem neighbor_symmetric (rows cols : Z) (t t' : TileCoord) (d : Direction) :
  0 < rows <= u32_max -> 0 < cols <= u32_max -> tile_inside rows cols t ->
  neighbor t d rows cols = Some t' ->
  tile_inside rows cols t' /\ t' <> t /\ neighbor t' (opposite d) rows cols = Some t.
Proof.
  intros Hr Hc Ht H. apply neighbor_Some in H as [-> Hin]; [|done..].
  split; [done|]. split.
  - intros E. destruct t, d; simpl in E; injection E; lia.
  - apply neighbor_Some; [done..|].
    assert (hop (opposite d) (hop d t) = t) as -> by (destruct t, d; simpl; f_equal; lia).
    done.
Qed.

Lemma neighbor_symmetric_witness :
  tile_inside 4 4 (mkTile 2 1) /\ mkTile 2 1 <> mkTile 1 1 /\
  neighbor (mkTile 2 1) (opposite South) 4 4 = Some (mkTile 1 1).
Proof.
  apply (neighbor_symmetric 4 4 (mkTile 1 1) (mkTile 2 1) South);
    unfold u32_max, tile_inside; simpl; try lia. reflexivity.
Defined.

(** The constructed resource universe is exact.  Whenever it has at most
    2^32 entries, every existing resource has exactly one identifier, the
    identifier resolves back to it, and no identifier names anything else. *)
Theorem resource_model_bijective (target : TargetModel) (ii : Z) :
  TargetModel_wf target -> 0 < ii <= u32_max ->
  Z.of_nat (length (resourceSequence target ii)) <= u32_max + 1 ->
  exists m, makeResourceModel target ii = Ok m /\
    (forall r, resource_exists target ii r <-> exists id, findResource m r = Ok id) /\
    (forall r id, 0 <= id -> resource m id = Ok r <-> findResource m r = Ok id) /\
    (forall r r' id, findResource m r = Ok id -> findResource m r' = Ok id -> r = r').
Proof.
  intros Hwf Hii Hlen.
  destruct (makeResourceModel_spec target ii Hwf Hii Hlen) as (m & Hm & Hmwf & Ht & Hi).
  exists m. split; [done|]. split.
  - intros r. rewrite <- Ht, <- Hi. by apply findResource_exists.
  - split; [intros r id; by apply resource_Ok|intros r r' id; by apply findResource_inj].
Qed.

Lemma resource_model_bijective_witness :
  exists m, makeResourceModel cgra_v2 3 = Ok m /\
    (forall r, resource_exists cgra_v2 3 r <-> exists id, findResource m r = Ok id) /\
    (forall r id, 0 <= id -> resource m id = Ok r <-> findResource m r = Ok id) /\
    (forall r r' id, findResource m r = Ok id -> findResource m r' = Ok id -> r = r').
Proof.
  apply (resource_model_bijective cgra_v2 3 cgra_v2_wf); [unfold u32_max; lia|].
  vm_compute. congruence.
Defined.

(** An operation's footprint is the execution resource of its tile at each
    of its [issueOccupancy] consecutive modulo slots, wrapping around; it exists
    exactly when those slots are distinct, that is when the occupancy is at most
    the II. *)
Theorem operation_footprint_exact (m : ModuloResourceModel) (node : TargetNode)
    (tile : TileCoord) (slot : Z) (op : TargetOperationDesc) :
  ResourceModel_wf m -> 0 <= tile_row tile -> 0 <= tile_col tile -> 0 <= slot < rm_ii m ->
  findOperation (rm_target m) (tn_operation node) = Some op -> 0 <= op_issueOccupancy op ->
  supportsOperation m tile node = true ->
  (is_Ok (operationFootprint m node tile slot) = true <-> 0 < op_issueOccupancy op <= rm_ii m) /\
  forall fp, operationFootprint m node tile slot = Ok fp ->
    NoDup fp /\ Z.of_nat (length fp) = op_issueOccupancy op /\
    forall o id, fp !! nat_of o = Some id -> 0 <= o ->
      resource m id = Ok (exec_resource (op_executionClass op) tile ((slot + o) mod rm_ii m)).
Proof.
  intros Hwf Hr Hc Hs Hop Hocc Hsup.
  assert (Hok : forall fp, operationFootprint m node tile slot = Ok fp ->
    op_issueOccupancy op <> 0 /\ footprint_of m op tile slot fp).
  { intros fp H. apply operationFootprint_Ok in H as (op' & Hop' & _ & H0 & Hfp); [|done|lia].
    replace op' with op in * by congruence. done. }
  split; [split|].
  - destruct (operationFootprint _ _ _ _) as [fp|] eqn:E; [|done]. intros _.
    destruct (Hok fp eq_refl) as [H0 Hfp].
    apply footprint_of_occupancy in Hfp; [|done]. lia.
  - intros H. destruct (operationFootprint_complete m Hwf node tile slot op) as [fp ->]; done.
  - intros fp H. destruct (Hok fp H) as [H0 Hfp].
    pose proof (footprint_of_occupancy m Hwf op tile slot fp Hfp) as [Hlen _].
    destruct Hfp as [Hall Hnd]. split; [done|]. split; [lia|].
    intros o id Hid Ho.
    destruct (Forall2_lookup_r _ _ _ _ _ Hall Hid) as (o' & Ho' & Hf).
    unfold range in Ho'. apply lookup_seqZ in Ho' as [-> _].
    rewrite Z.add_0_l, Z2Nat.id in Hf by done.
    apply (resource_Ok m Hwf); [|done]. by apply (findResource_Ok m Hwf) in Hf as [? _].
Qed.

Lemma operation_footprint_exact_witness :
  let m := v2_model 4 in
  let node := mkTargetNode 0 "ADD" FU vt_i32 [vt_i32; vt_i32] 1 (Some 1) [] (Some 1) None in
  let op := nth 0 v2_operations
              (mkTargetOperationDesc "" FU [] ResVoid voidTy 0 None None None None [] FuDataResult) in
  (is_Ok (operationFootprint m node (mkTile 1 2) 3) = true <-> 0 < op_issueOccupancy op <= rm_ii m) /\
  forall fp, operationFootprint m node (mkTile 1 2) 3 = Ok fp ->
    NoDup fp /\ Z.of_nat (length fp) = op_issueOccupancy op /\
    forall o id, fp !! nat_of o = Some id -> 0 <= o ->
      resource m id = Ok (exec_resource (op_executionClass op) (mkTile 1 2) ((3 + o) mod rm_ii m)).
Proof.
  intros m node op. apply (operation_footprint_exact m node (mkTile 1 2) 3 op).
  - apply v2_model_wf; [unfold u32_max; lia|]. vm_compute. congruence.
  - simpl; lia.
  - simpl; lia.
  - vm_compute. split; congruence.
  - vm_compute. reflexivity.
  - vm_compute. congruence.
  - vm_compute. reflexivity.
Defined.

(** C35: reservation is atomic and transactional.  A request either takes every
    requested resource for its owner and nothing else, all of them having been
    free and distinct, or it changes nothing; undoing a granted request restores
    the table exactly. *)
Theorem reservation_transaction (t : ReservationTable) (ids : list Z) (who : ReservationOwner) :
  (forall id, id ∈ ids -> 0 <= id) ->
  match tryReserve t ids who with
  | (None, t') => t' = t /\ canReserve t ids = false
  | (Some delta, t') =>
      (forall id, id ∈ ids -> isFree t id = Ok true) /\ NoDup ids /\
      (forall id, 0 <= id < Z.of_nat (length t) ->
         owner t' id = if decide (id ∈ ids) then Ok (Some who) else owner t id) /\
      undo t' delta = Ok t
  end.
Proof.
  intros Hpos. destruct (tryReserve t ids who) as [[delta|] t'] eqn:E.
  - apply tryReserve_Some in E as (_ & Hnd & Hlen & Hfree & Hslot & Hundo); [|done].
    split; [|split; [done|split; [|done]]].
    + intros id Hid. destruct (Hfree id Hid). unfold isFree, in_table.
      replace (id <? _) with true by lia. simpl. by rewrite bool_decide_eq_true_2.
    + intros id Hid. unfold owner, in_table. rewrite Hlen, Hslot by lia.
      replace (id <? _) with true by lia. simpl. by case_decide.
  - unfold tryReserve, reserve in E. destruct (canReserve t ids); simpl in E; [done|].
    by injection E as ->.
Qed.

Lemma reservation_transaction_witness :
  match tryReserve [None; Some (OwnerNode 3); None] [2; 0] (OwnerEdge 5) with
  | (None, t') => t' = [None; Some (OwnerNode 3); None] /\
      canReserve [None; Some (OwnerNode 3); None] [2; 0] = false
  | (Some delta, t') =>
      (forall id, id ∈ [2; 0] -> isFree [None; Some (OwnerNode 3); None] id = Ok true) /\
      NoDup [2; 0] /\
      (forall id, 0 <= id < 3 -> owner t' id =
         if decide (id ∈ [2; 0]) then Ok (Some (OwnerEdge 5))
         else owner [None; Some (OwnerNode 3); None] id) /\
      undo t' delta = Ok [None; Some (OwnerNode 3); None]
  end.
Proof.
  apply (reservation_transaction [None; Some (OwnerNode 3); None] [2; 0] (OwnerEdge 5)).
  intros id Hid. apply elem_of_cons in Hid as [->|Hid]; [lia|].
  apply list_elem_of_singleton in Hid as ->. lia.
Defined.
