(* ===== verification/OrderedMap.v ===== *)
(** * Ordered maps

    [std::map] as the allocator uses it: an association list sorted by key, with
    [operator[]] as [om_update].  Iterating the list is iterating the map.  A key
    type promises the order of its [operator<] through [KeyOrder] and
    [LawfulOrder]. *)
From stdpp Require Import base numbers list strings sorting.
From S2P Require Import Prelude.
From S2P Require Import ModuloResources.

(** ** Keys *)

Class KeyOrder (K : Type) := key_ltb : K -> K -> bool.

Class LawfulOrder (K : Type) `{KeyOrder K} := {
  key_irrefl : forall a, key_ltb a a = false;
  key_trans : forall a b c, key_ltb a b = true -> key_ltb b c = true -> key_ltb a c = true;
  key_connected : forall a b, key_ltb a b = false -> key_ltb b a = false -> a = b
}.

#[export] Instance Z_key : KeyOrder Z := Z.ltb.
#[export] Instance Z_lawful : LawfulOrder Z.
Proof. split; unfold key_ltb, Z_key; intros; lia. Qed.

#[export] Instance string_key : KeyOrder string := String.ltb.
#[export] Instance string_lawful : LawfulOrder string.
Proof.
  assert (Hle : forall a b, String.ltb a b = true <-> String.leb a b = true /\ a <> b).
  { intros a b. unfold String.ltb, String.leb. pose proof (String.compare_antisym b a) as Ha.
    destruct (String.compare a b) eqn:E.
    - apply String.compare_eq_iff in E. split; [done|]. by intros [_ ?].
    - split; [|done]. intros _. split; [done|]. intros ->. by rewrite E in Ha.
    - split; [done|]. by intros []. }
  split; unfold key_ltb, string_key.
  - intros a. apply not_true_iff_false. rewrite Hle. by intros [_ ?].
  - intros a b c Hab Hbc. apply Hle in Hab as [Hab Hne], Hbc as [Hbc Hne']. apply Hle.
    assert (Hac : String.leb a c = true).
    { apply Is_true_true. apply (transitivity (R := String.le) (y := b)); by apply Is_true_true. }
    split; [done|]. intros <-. apply Hne. by apply String.leb_antisym.
  - intros a b. unfold String.ltb. rewrite (String.compare_antisym b a).
    destruct (String.compare a b) eqn:E; try done.
    intros _ _. by apply String.compare_eq_iff.
Qed.

(** [std::tuple] and [std::tie]: lexicographic. *)
#[export] Instance prod_key {A B} `{KeyOrder A, KeyOrder B} : KeyOrder (A * B) := fun x y =>
  key_ltb x.1 y.1 || (negb (key_ltb y.1 x.1) && key_ltb x.2 y.2).

#[export] Instance prod_lawful {A B} `{LawfulOrder A, LawfulOrder B} : LawfulOrder (A * B).
Proof.
  assert (Hlt : forall x y : A * B, key_ltb x y = true <->
    key_ltb x.1 y.1 = true \/ (x.1 = y.1 /\ key_ltb x.2 y.2 = true)).
  { intros [a b] [a' b'].
    change (key_ltb (a, b) (a', b'))
      with (key_ltb a a' || (negb (key_ltb a' a) && key_ltb b b')). simpl fst. simpl snd.
    rewrite orb_true_iff, andb_true_iff, negb_true_iff. split.
    - intros [?|[? ?]]; [by left|]. destruct (key_ltb a a') eqn:E; [by left|]. right.
      split; [by apply key_connected|done].
    - intros [?|[-> ?]]; [by left|]. right. split; [apply key_irrefl|done]. }
  split.
  - intros x. apply not_true_iff_false. rewrite Hlt, !key_irrefl. naive_solver.
  - intros x y z Hxy Hyz. apply Hlt in Hxy, Hyz. apply Hlt.
    destruct Hxy as [Hx|[E1 Hx]], Hyz as [Hy|[E2 Hy]].
    + left. by apply (key_trans _ y.1).
    + left. by rewrite <- E2.
    + left. by rewrite E1.
    + right. split; [congruence|]. by apply (key_trans _ y.2).
  - intros [a b] [a' b'] Hx Hy. apply not_true_iff_false in Hx, Hy. rewrite Hlt in Hx, Hy.
    simpl in *. assert (a = a') as ->.
    { apply key_connected; apply not_true_iff_false; tauto. }
    f_equal. apply key_connected; apply not_true_iff_false; tauto.
Qed.

#[export] Instance TileCoord_key : KeyOrder TileCoord := fun x y =>
  key_ltb (tile_row x, tile_col x) (tile_row y, tile_col y).

#[export] Instance TileCoord_lawful : LawfulOrder TileCoord.
Proof.
  split; unfold key_ltb, TileCoord_key.
  - intros a. apply key_irrefl.
  - intros a b c. apply key_trans.
  - intros [r c] [r' c'] H1 H2. pose proof (key_connected _ _ H1 H2) as [= -> ->]. done.
Qed.

(** ** The map *)

Section OrderedMap.
Context {K V : Type} `{LawfulOrder K, EqDecision K}.

(** [m[key] = f(m[key])], from [empty] where the key is new. *)
Fixpoint om_update (key : K) (empty : V) (f : V -> V) (m : list (K * V)) : list (K * V) :=
  match m with
  | [] => [(key, f empty)]
  | (k, v) :: m' =>
      if key_ltb key k then (key, f empty) :: m
      else if key_ltb k key then (k, v) :: om_update key empty f m'
      else (k, f v) :: m'
  end.

Definition om_lookup (key : K) (m : list (K * V)) : option V :=
  snd <$> find_if (fun kv => bool_decide (kv.1 = key)) m.

Definition om_before (x y : K * V) : Prop := key_ltb x.1 y.1 = true.
Abbreviation om_sorted := (StronglySorted om_before).

Lemma om_lookup_Some key v m : om_sorted m -> om_lookup key m = Some v <-> (key, v) ∈ m.
Proof.
  intros Hs. unfold om_lookup. induction Hs as [|[k w] m Hs IH Hall]; simpl.
  { split; [done|]. intros Hin. by apply not_elem_of_nil in Hin. }
  case_bool_decide as E.
  - subst k. simpl. split.
    + intros [= ->]. left.
    + intros Hin. apply elem_of_cons in Hin as [[= ->]|Hin]; [done|].
      rewrite Forall_forall in Hall. specialize (Hall _ Hin). unfold om_before in Hall.
      simpl in Hall. by rewrite key_irrefl in Hall.
  - rewrite IH, elem_of_cons. naive_solver.
Qed.

Lemma om_update_elem key empty f m : om_sorted m ->
  om_sorted (om_update key empty f m) /\
  forall k v, (k, v) ∈ om_update key empty f m <->
    (k <> key /\ (k, v) ∈ m) \/ (k = key /\ v = f (default empty (om_lookup key m))).
Proof.
  intros Hs. induction Hs as [|[k0 v0] m Hs IH Hall]; simpl.
  { split; [repeat constructor|]. intros k v. rewrite list_elem_of_singleton.
    setoid_rewrite elem_of_nil. unfold om_lookup. simpl. naive_solver. }
  assert (Hne : forall k v, (k, v) ∈ m -> key_ltb k0 k = true).
  { rewrite Forall_forall in Hall. intros k v Hin. by apply (Hall _ Hin). }
  unfold om_lookup. simpl. destruct (key_ltb key k0) eqn:E1; [|destruct (key_ltb k0 key) eqn:E2].
  - assert (Hfresh : forall k v, (k, v) ∈ (k0, v0) :: m -> key_ltb key k = true).
    { intros k v Hin. apply elem_of_cons in Hin as [[= -> ->]|Hin]; [done|].
      apply (key_trans _ k0); [done|]. by apply (Hne k v). }
    assert (Hn : find_if (fun kv => bool_decide (kv.1 = key)) ((k0, v0) :: m) = None).
    { apply find_if_None. intros [k v] Hin. apply bool_decide_eq_false. simpl. intros ->.
      pose proof (Hfresh _ _ Hin) as Hc. by rewrite key_irrefl in Hc. }
    simpl in Hn. rewrite Hn. simpl. split.
    + constructor; [by constructor|]. apply Forall_forall. intros [k v] Hin. by apply (Hfresh k v).
    + intros k v. rewrite elem_of_cons. split.
      * intros [[= -> ->]|Hin]; [by right|]. left. split; [|done]. intros ->.
        pose proof (Hfresh _ _ Hin) as Hc. by rewrite key_irrefl in Hc.
      * intros [[_ Hin]|[-> ->]]; [by right|by left].
  - destruct IH as [IH1 IH2]. rewrite bool_decide_eq_false_2 by (intros ->; by rewrite key_irrefl in E2).
    unfold om_lookup in IH2. split.
    + constructor; [done|]. apply Forall_forall. intros [k v] Hin. unfold om_before. simpl.
      apply IH2 in Hin as [[_ Hin]|[-> _]]; [by apply (Hne k v)|done].
    + intros k v. rewrite !elem_of_cons, IH2. split.
      * intros [[= -> ->]|[[? ?]|?]]; [|by left; split; [|right]|by right]. left.
        split; [|by left]. intros ->. by rewrite key_irrefl in E2.
      * intros [[? [?|?]]|?]; tauto.
  - assert (k0 = key) as -> by (by apply key_connected). rewrite bool_decide_eq_true_2 by done.
    simpl. split; [by constructor|]. intros k v. rewrite !elem_of_cons. split.
    + intros [[= -> ->]|Hin]; [by right|]. left. split; [|by right]. intros ->.
      pose proof (Hne _ _ Hin) as Hc. by rewrite key_irrefl in Hc.
    + intros [[Hk [[= ? ?]|Hin]]|[-> ->]]; [done|by right|by left].
Qed.
End OrderedMap.

(** ** Grouping

    The common use: [groups[key(x)].push_back(value(x))] over a vector. *)
Section Grouping.
Context {A K V : Type} `{LawfulOrder K, EqDecision K} (key : A -> K) (value : A -> V).

Definition om_push (x : A) (groups : list (K * list V)) : list (K * list V) :=
  om_update (key x) [] (fun vs => vs ++ [value x]) groups.

(** A group per occurring key, with the values in order. *)
Definition grouped (l : list A) (groups : list (K * list V)) : Prop :=
  StronglySorted om_before groups /\
  forall k vs, (k, vs) ∈ groups <->
    vs = value <$> filter (fun x => key x = k) l /\ vs <> [].

Lemma grouped_nil : grouped [] [].
Proof. split; [constructor|]. intros k vs. rewrite elem_of_nil. split; [done|by intros [-> ?]]. Qed.

Lemma grouped_push l groups x : grouped l groups -> grouped (l ++ [x]) (om_push x groups).
Proof.
  intros [Hs Hg]. unfold om_push.
  destruct (om_update_elem (key x) [] (fun vs => vs ++ [value x]) groups Hs) as [Hs' He].
  split; [done|]. intros k vs. rewrite He. rewrite filter_app, fmap_app, filter_cons, filter_nil.
  destruct (decide (key x = k)) as [<-|Hk].
  - simpl. assert (Hd : default [] (om_lookup (key x) groups) =
      value <$> filter (fun y => key y = key x) l).
    { destruct (om_lookup (key x) groups) as [ws|] eqn:E.
      - apply om_lookup_Some in E; [|done]. by apply Hg in E as [-> _].
      - simpl. destruct (value <$> filter (fun y => key y = key x) l) as [|w ws] eqn:El; [done|].
        assert (Hin : (key x, w :: ws) ∈ groups) by (by apply Hg).
        apply om_lookup_Some in Hin; [|done]. congruence. }
    rewrite Hd. split.
    + intros [[? _]|[_ ->]]; [done|]. split; [done|]. by intros [_ ?]%app_nil.
    + intros [-> _]. by right.
  - simpl. rewrite app_nil_r, Hg. naive_solver.
Qed.

Lemma grouped_keys l groups : grouped l groups -> NoDup groups.*1.
Proof.
  intros [Hs _]. clear -Hs H0. induction Hs as [|[k v] m Hs IH Hall]; [apply NoDup_nil_2|].
  rewrite fmap_cons. apply NoDup_cons. split; [|done]. intros Hin.
  apply list_elem_of_fmap in Hin as ([k' v'] & E & Hin). simpl in E. subst k'.
  rewrite Forall_forall in Hall. specialize (Hall _ Hin). unfold om_before in Hall.
  simpl in Hall. by rewrite key_irrefl in Hall.
Qed.

Lemma grouped_key l groups x : grouped l groups -> x ∈ l -> key x ∈ groups.*1.
Proof.
  intros [_ Hg] Hx. apply list_elem_of_fmap.
  exists (key x, value <$> filter (fun y => key y = key x) l). split; [done|]. apply Hg.
  split; [done|]. intros E. apply fmap_nil_iff in E.
  assert (Hin : x ∈ filter (fun y => key y = key x) l) by (by apply list_elem_of_filter).
  rewrite E in Hin. by apply not_elem_of_nil in Hin.
Qed.

End Grouping.
