(* ===== verification/ModuloMapping.v ===== *)
(** * Modulo mappings and their builders

    Models [compiler/{include/cgra,lib}/Mapping/ModuloMapping.{h,cpp}]: where
    each node of a target DFG is placed, how each dependence is realised, and
    the builder that refuses partial or contradictory mappings.  The unchecked
    builder is the same builder without an expected graph. *)
From stdpp Require Import base numbers list gmap sorting strings.
From S2P Require Import Prelude.
From S2P Require Import IR.
From S2P Require Import TargetModel.
From S2P Require Import CgraV2.
From S2P Require Import TargetDFG.
From S2P Require Import TargetDFGVerifier.
From S2P Require Import ModuloResources.

Record NodePlacement := mkPlacement {
  np_node : Z;
  np_tile : TileCoord;
  np_issueSlot : Z
}.

#[export] Instance NodePlacement_eq_dec : EqDecision NodePlacement.
Proof. solve_decision. Defined.

(** [std::variant<LinkStep, VirtualHold>]. *)
Inductive TransportAction :=
  | LinkStep (domain : NetworkDomain) (source : TileCoord) (direction : Direction)
      (elapsedFromProducerIssue : Z)
  | VirtualHold (domain : NetworkDomain) (tile : TileCoord)
      (captureElapsed releaseElapsed : Z).

#[export] Instance TransportAction_eq_dec : EqDecision TransportAction.
Proof. solve_decision. Defined.

Definition action_domain (action : TransportAction) : NetworkDomain :=
  match action with
  | LinkStep domain _ _ _ => domain
  | VirtualHold domain _ _ _ => domain
  end.

Record TransportPlan := mkPlan {
  tp_edge : Z;
  tp_domain : NetworkDomain;
  tp_actions : list TransportAction;
  tp_requiredSeparationCycles : Z
}.

#[export] Instance TransportPlan_eq_dec : EqDecision TransportPlan.
Proof. solve_decision. Defined.

Record MappedDependence := mkDependence {
  md_edge : Z;
  md_kind : EdgeKind;
  md_requiredSeparationCycles : Z;
  md_transport : option TransportPlan
}.

#[export] Instance MappedDependence_eq_dec : EqDecision MappedDependence.
Proof. solve_decision. Defined.

Record ModuloMapping := mkMapping {
  mm_targetName : string;
  mm_ii : Z;
  mm_placements : list NodePlacement;
  mm_dependences : list MappedDependence
}.

#[export] Instance ModuloMapping_eq_dec : EqDecision ModuloMapping.
Proof. solve_decision. Defined.

Definition placement (m : ModuloMapping) (node : Z) : result NodePlacement :=
  of_option OutOfRange (find_if (fun p => np_node p =? node) (mm_placements m)).

Definition dependence (m : ModuloMapping) (edge : Z) : result MappedDependence :=
  of_option OutOfRange (find_if (fun d => md_edge d =? edge) (mm_dependences m)).

(** ** The builder *)

Record ModuloMappingBuilder := mkMappingBuilder {
  mb_targetName : string;
  mb_ii : Z;
  mb_expectedNodes : list Z;
  mb_expectedEdges : list TargetEdge;
  mb_placements : list NodePlacement;
  mb_dependences : list MappedDependence;
  mb_hasExpectedGraph : bool
}.

Definition ModuloMappingBuilder_new (dfg : TargetDFG) (ii : Z) : result ModuloMappingBuilder :=
  ii ← ModuloTimeDomain ii;
  Ok (mkMappingBuilder (td_targetName dfg) ii (sort_by id (tn_id <$> td_nodes dfg))
        (sort_by te_id (td_edges dfg)) [] [] true).

Definition UncheckedModuloMappingBuilder_new (targetName : string) (ii : Z)
  : result ModuloMappingBuilder :=
  ii ← ModuloTimeDomain ii;
  Ok (mkMappingBuilder targetName ii [] [] [] [] false).

Definition with_placement (b : ModuloMappingBuilder) (p : NodePlacement)
  : ModuloMappingBuilder :=
  mkMappingBuilder (mb_targetName b) (mb_ii b) (mb_expectedNodes b) (mb_expectedEdges b)
    (mb_placements b ++ [p]) (mb_dependences b) (mb_hasExpectedGraph b).

Definition with_dependence (b : ModuloMappingBuilder) (d : MappedDependence)
  : ModuloMappingBuilder :=
  mkMappingBuilder (mb_targetName b) (mb_ii b) (mb_expectedNodes b) (mb_expectedEdges b)
    (mb_placements b) (mb_dependences b ++ [d]) (mb_hasExpectedGraph b).

Definition place (b : ModuloMappingBuilder) (node : Z) (tile : TileCoord) (issueSlot : Z)
  : result ModuloMappingBuilder :=
  _ ← validate (mb_ii b) issueSlot;
  if mb_hasExpectedGraph b && negb (bool_decide (node ∈ mb_expectedNodes b))
  then Throw InvalidArgument
  else if existsb (fun p => np_node p =? node) (mb_placements b) then Throw InvalidArgument
  else Ok (with_placement b (mkPlacement node tile issueSlot)).

Definition expected_edge (b : ModuloMappingBuilder) (edge : Z) : option TargetEdge :=
  find_if (fun e => te_id e =? edge) (mb_expectedEdges b).

(** The network domain that carries an edge of the given kind. *)
Definition expectedDomain (kind : EdgeKind) : NetworkDomain :=
  match kind with EKPredicate => NetPredicate | _ => NetData end.

Definition has_dependence (b : ModuloMappingBuilder) (edge : Z) : bool :=
  existsb (fun d => md_edge d =? edge) (mb_dependences b).

(** The loop over the actions: every action is on the plan's network and every
    hold lasts. *)
Definition action_accepted (domain : NetworkDomain) (action : TransportAction) : bool :=
  bool_decide (action_domain action = domain) &&
  match action with
  | LinkStep _ _ _ _ => true
  | VirtualHold _ _ capture release => capture <? release
  end.

Definition setTransport (b : ModuloMappingBuilder) (edge : Z) (transport : TransportPlan)
  : result ModuloMappingBuilder :=
  kind ← (if mb_hasExpectedGraph b then
            match expected_edge b edge with
            | None => Throw InvalidArgument
            | Some found =>
                match TargetEdge_kind found with
                | EKMemory => Throw InvalidArgument
                | kind =>
                    if bool_decide (tp_domain transport = expectedDomain kind)
                    then Ok kind else Throw InvalidArgument
                end
            end
          else Ok (match tp_domain transport with
                   | NetPredicate => EKPredicate | NetData => EKData end));
  if negb (tp_edge transport =? edge) then Throw InvalidArgument
  else if has_dependence b edge then Throw InvalidArgument
  else if negb (forallb (action_accepted (tp_domain transport)) (tp_actions transport))
  then Throw InvalidArgument
  else Ok (with_dependence b
             (mkDependence edge kind (tp_requiredSeparationCycles transport) (Some transport))).

Definition setMemorySeparation (b : ModuloMappingBuilder) (edge cycles : Z)
  : result ModuloMappingBuilder :=
  _ ← (if mb_hasExpectedGraph b then
         match expected_edge b edge with
         | None => Throw InvalidArgument
         | Some found =>
             if bool_decide (TargetEdge_kind found = EKMemory) then Ok tt
             else Throw InvalidArgument
         end
       else Ok tt);
  if has_dependence b edge then Throw InvalidArgument
  else Ok (with_dependence b (mkDependence edge EKMemory cycles None)).

Definition mapping_finish (b : ModuloMappingBuilder) : result ModuloMapping :=
  if mb_hasExpectedGraph b &&
     (bool_decide (length (mb_placements b) <> length (mb_expectedNodes b)) ||
      bool_decide (length (mb_dependences b) <> length (mb_expectedEdges b)))
  then Throw InvalidArgument
  else Ok (mkMapping (mb_targetName b) (mb_ii b)
             (sort_by np_node (mb_placements b)) (sort_by md_edge (mb_dependences b))).

Inductive MappingCall :=
  | Place (node : Z) (tile : TileCoord) (issueSlot : Z)
  | SetTransport (edge : Z) (transport : TransportPlan)
  | SetMemorySeparation (edge cycles : Z).

Definition mapping_step (b : ModuloMappingBuilder) (call : MappingCall)
  : result ModuloMappingBuilder :=
  match call with
  | Place node tile slot => place b node tile slot
  | SetTransport edge transport => setTransport b edge transport
  | SetMemorySeparation edge cycles => setMemorySeparation b edge cycles
  end.

Fixpoint mapping_run (b : ModuloMappingBuilder) (calls : list MappingCall)
  : result ModuloMappingBuilder :=
  match calls with
  | [] => Ok b
  | call :: calls => b' ← mapping_step b call; mapping_run b' calls
  end.

(** A whole session: create, call, finish. *)
Definition build_mapping (dfg : TargetDFG) (ii : Z) (calls : list MappingCall)
  : result ModuloMapping :=
  b ← ModuloMappingBuilder_new dfg ii;
  b' ← mapping_run b calls;
  mapping_finish b'.

(** ** What the checked builder guarantees *)

(** A dependence realises an edge: memory edges carry no transport, value edges
    carry a plan on the network of their kind. *)
Definition dependence_shape (edge : TargetEdge) (d : MappedDependence) : Prop :=
  te_id edge = md_edge d /\ md_kind d = TargetEdge_kind edge /\
  match md_transport d with
  | None => TargetEdge_kind edge = EKMemory
  | Some plan =>
      TargetEdge_kind edge <> EKMemory /\ tp_edge plan = te_id edge /\
      tp_domain plan = expectedDomain (TargetEdge_kind edge) /\
      tp_requiredSeparationCycles plan = md_requiredSeparationCycles d /\
      forall action, action ∈ tp_actions plan -> action_accepted (tp_domain plan) action = true
  end.

(** A complete mapping of a graph. *)
Record mapping_of (dfg : TargetDFG) (m : ModuloMapping) : Prop := {
  mo_target : mm_targetName m = td_targetName dfg;
  mo_placements : np_node <$> mm_placements m ≡ₚ tn_id <$> td_nodes dfg;
  mo_placements_sorted : StronglySorted (by_key np_node) (mm_placements m);
  mo_slots : forall p, p ∈ mm_placements m -> np_issueSlot p < mm_ii m;
  mo_dependences : md_edge <$> mm_dependences m ≡ₚ te_id <$> td_edges dfg;
  mo_dependences_sorted : StronglySorted (by_key md_edge) (mm_dependences m);
  mo_shapes : forall d, d ∈ mm_dependences m ->
    exists edge, edge ∈ td_edges dfg /\ dependence_shape edge d
}.

Section BuilderInvariant.
Context (dfg : TargetDFG) (ii : Z).

(** The invariant of the builder between calls. *)
Record mapping_builder_inv (b : ModuloMappingBuilder) : Prop := {
  mbi_target : mb_targetName b = td_targetName dfg;
  mbi_ii : mb_ii b = ii;
  mbi_expected : mb_hasExpectedGraph b = true;
  mbi_nodes : mb_expectedNodes b ≡ₚ tn_id <$> td_nodes dfg;
  mbi_edges : mb_expectedEdges b ≡ₚ td_edges dfg;
  mbi_placements_distinct : NoDup (np_node <$> mb_placements b);
  mbi_placements : forall p, p ∈ mb_placements b ->
    np_node p ∈ tn_id <$> td_nodes dfg /\ np_issueSlot p < ii;
  mbi_dependences_distinct : NoDup (md_edge <$> mb_dependences b);
  mbi_dependences : forall d, d ∈ mb_dependences b ->
    exists edge, edge ∈ td_edges dfg /\ dependence_shape edge d
}.

Lemma mapping_builder_new_inv b :
  ModuloMappingBuilder_new dfg ii = Ok b -> mapping_builder_inv b.
Proof.
  unfold ModuloMappingBuilder_new. intros H. inv_ok. unfold ModuloTimeDomain in Hv.
  destruct (ii =? 0); [done|]. injection Hv as <-. subst b.
  split; simpl; try done; try apply sort_by_perm; try apply NoDup_nil_2;
    intros x Hx; by apply not_elem_of_nil in Hx.
Qed.

Lemma NoDup_fmap_snoc {A} (key : A -> Z) (l : list A) x :
  NoDup (key <$> l) -> existsb (fun y => key y =? key x) l = false -> NoDup (key <$> l ++ [x]).
Proof.
  intros Hl Hx. rewrite fmap_app, NoDup_app. split; [done|]. split; [|apply NoDup_singleton].
  intros k Hk Hk'. apply list_elem_of_singleton in Hk' as ->.
  apply list_elem_of_fmap in Hk as (y & E & Hy).
  enough (existsb (fun y => key y =? key x) l = true) by congruence.
  apply existsb_exists. exists y. split; [by apply list_elem_of_In|lia].
Qed.

Lemma place_inv b node tile slot b' :
  mapping_builder_inv b -> place b node tile slot = Ok b' -> mapping_builder_inv b'.
Proof.
  intros [] H. unfold place in H. inv_ok. rewrite mbi_expected0, mbi_ii0 in *. simpl in H.
  case_bool_decide as Hn; [|done]. simpl in H.
  destruct (existsb _ _) eqn:Ex; [done|]. injection H as <-.
  unfold validate in Hv. destruct (Z.leb_spec ii slot); [done|].
  split; simpl; try done; [by apply NoDup_fmap_snoc|].
  intros p Hp. apply elem_of_app in Hp as [Hp|Hp]; [by auto|].
  apply list_elem_of_singleton in Hp as ->. simpl. by rewrite <- mbi_nodes0.
Qed.

Lemma with_dependence_inv b edge d :
  mapping_builder_inv b -> edge ∈ td_edges dfg -> dependence_shape edge d ->
  has_dependence b (md_edge d) = false -> mapping_builder_inv (with_dependence b d).
Proof.
  intros [] He Hd Hx. split; simpl; try done; [by apply NoDup_fmap_snoc|].
  intros d' Hd'. apply elem_of_app in Hd' as [Hd'|Hd']; [by auto|].
  apply list_elem_of_singleton in Hd' as ->. eauto.
Qed.

Lemma expected_edge_Some b id edge :
  mapping_builder_inv b -> expected_edge b id = Some edge ->
  edge ∈ td_edges dfg /\ te_id edge = id.
Proof.
  intros Hb H. apply find_if_Some in H as [H ?]. rewrite (mbi_edges b Hb) in H.
  split; [done|lia].
Qed.

Lemma setTransport_inv b edge plan b' :
  mapping_builder_inv b -> setTransport b edge plan = Ok b' -> mapping_builder_inv b'.
Proof.
  intros Hb H. unfold setTransport in H. rewrite (mbi_expected b Hb) in H. inv_ok.
  destruct (expected_edge b edge) as [e|] eqn:Ee; [|done].
  apply expected_edge_Some in Ee as [He Hid]; [|done].
  destruct (Z.eqb_spec (tp_edge plan) edge) as [Hp|]; [|done]. simpl in H.
  destruct (has_dependence b edge) eqn:Hx; [done|].
  destruct (forallb _ _) eqn:Ha; [|done]. injection H as <-.
  assert (v = TargetEdge_kind e /\ TargetEdge_kind e <> EKMemory /\
          tp_domain plan = expectedDomain (TargetEdge_kind e)) as (-> & Hm & Hdom).
  { destruct (TargetEdge_kind e); try done; case_bool_decide; try done; by injection Hv as <-. }
  eapply with_dependence_inv; [done|exact He| |done].
  unfold dependence_shape. simpl. split_and!; try done; [congruence|].
  intros a Hin. rewrite forallb_forall in Ha. apply Ha. by apply list_elem_of_In.
Qed.

Lemma setMemorySeparation_inv b edge cycles b' :
  mapping_builder_inv b -> setMemorySeparation b edge cycles = Ok b' -> mapping_builder_inv b'.
Proof.
  intros Hb H. unfold setMemorySeparation in H. rewrite (mbi_expected b Hb) in H. inv_ok.
  destruct (expected_edge b edge) as [e|] eqn:Ee; [|done].
  apply expected_edge_Some in Ee as [He Hid]; [|done].
  case_bool_decide as Hk; [|done]. destruct (has_dependence b edge) eqn:Hx; [done|].
  injection H as <-. eapply with_dependence_inv; [done|exact He| |done].
  unfold dependence_shape. simpl. done.
Qed.

Lemma mapping_run_inv b calls b' :
  mapping_builder_inv b -> mapping_run b calls = Ok b' -> mapping_builder_inv b'.
Proof.
  revert b. induction calls as [|call calls IH]; simpl; intros b Hb H; [by injection H as <-|].
  inv_ok. eapply IH; [|exact H]. destruct call; simpl in Hv.
  - by eapply place_inv.
  - by eapply setTransport_inv.
  - by eapply setMemorySeparation_inv.
Qed.

(** Distinct elements of a list, as many as it has, are all of it. *)
Lemma Permutation_of_subset (l k : list Z) :
  NoDup l -> (forall x, x ∈ l -> x ∈ k) -> length l = length k -> l ≡ₚ k.
Proof.
  intros Hl Hsub Hlen. apply submseteq_length_Permutation; [|lia].
  by apply NoDup_submseteq.
Qed.

Lemma mapping_finish_spec b m :
  mapping_builder_inv b -> mapping_finish b = Ok m -> mapping_of dfg m /\ mm_ii m = ii.
Proof.
  intros [] H. unfold mapping_finish in H. rewrite mbi_expected0 in H. simpl in H.
  destruct (_ || _)%bool eqn:E; [done|]. injection H as <-.
  apply orb_false_iff in E as [E1 E2]. apply bool_decide_eq_false in E1, E2.
  assert (length (mb_placements b) = length (td_nodes dfg)) as Hn.
  { apply dec_stable. rewrite <- (length_fmap tn_id (td_nodes dfg)). by rewrite <- mbi_nodes0. }
  assert (length (mb_dependences b) = length (td_edges dfg)) as He.
  { apply dec_stable. by rewrite <- mbi_edges0. }
  split; [|done]. split; simpl; try done; try apply sort_by_sorted.
  - rewrite sort_by_perm. apply Permutation_of_subset; [done| |by rewrite !length_fmap].
    intros x Hx. apply list_elem_of_fmap in Hx as (p & -> & Hp). by apply mbi_placements0.
  - intros p Hp. apply elem_of_sort_by in Hp. rewrite mbi_ii0. by apply mbi_placements0.
  - rewrite sort_by_perm. apply Permutation_of_subset; [done| |by rewrite !length_fmap].
    intros x Hx. apply list_elem_of_fmap in Hx as (d & -> & Hd).
    destruct (mbi_dependences0 _ Hd) as (edge & Hedge & <- & _). by apply list_elem_of_fmap_2.
  - intros d Hd. apply elem_of_sort_by in Hd. by apply mbi_dependences0.
Qed.

Lemma build_mapping_spec calls m :
  build_mapping dfg ii calls = Ok m -> mapping_of dfg m /\ mm_ii m = ii /\ ii <> 0.
Proof.
  unfold build_mapping. intros H. inv_ok. pose proof (mapping_builder_new_inv _ Hv) as Hb.
  pose proof (mapping_run_inv _ _ _ Hb Hv0) as Hb'.
  destruct (mapping_finish_spec _ _ Hb' H). split_and!; try done.
  unfold ModuloMappingBuilder_new in Hv. inv_ok. unfold ModuloTimeDomain in Hv1.
  destruct (Z.eqb_spec ii 0); done.
Qed.
End BuilderInvariant.

(** ** Lookups in a complete mapping *)

Section Lookups.
Context (dfg : TargetDFG) (Hinv : TargetDFG_inv dfg) (m : ModuloMapping) (Hm : mapping_of dfg m).

Lemma mapping_placements_NoDup : NoDup (np_node <$> mm_placements m).
Proof. rewrite (mo_placements dfg m Hm). by apply td_nodes_NoDup. Qed.

Lemma mapping_dependences_NoDup : NoDup (md_edge <$> mm_dependences m).
Proof. rewrite (mo_dependences dfg m Hm). by apply td_edges_NoDup. Qed.

Lemma placement_Ok node p :
  placement m node = Ok p <-> p ∈ mm_placements m /\ np_node p = node.
Proof.
  unfold placement. rewrite of_option_Ok. split.
  - intros H. apply find_if_Some in H as [? ?]. split; [done|lia].
  - intros [Hp E]. by apply (find_if_unique np_node); [apply mapping_placements_NoDup| |].
Qed.

Lemma dependence_Ok edge d :
  dependence m edge = Ok d <-> d ∈ mm_dependences m /\ md_edge d = edge.
Proof.
  unfold dependence. rewrite of_option_Ok. split.
  - intros H. apply find_if_Some in H as [? ?]. split; [done|lia].
  - intros [Hp E]. by apply (find_if_unique md_edge); [apply mapping_dependences_NoDup| |].
Qed.

Lemma placement_exists node :
  node ∈ td_nodes dfg -> exists p, placement m (tn_id node) = Ok p.
Proof.
  intros Hn. assert (tn_id node ∈ np_node <$> mm_placements m) as Hin.
  { rewrite (mo_placements dfg m Hm). by apply list_elem_of_fmap_2. }
  apply list_elem_of_fmap in Hin as (p & E & Hp). exists p. by apply placement_Ok.
Qed.

Lemma dependence_exists edge :
  edge ∈ td_edges dfg -> exists d, dependence m (te_id edge) = Ok d /\ dependence_shape edge d.
Proof.
  intros He. assert (te_id edge ∈ md_edge <$> mm_dependences m) as Hin.
  { rewrite (mo_dependences dfg m Hm). by apply list_elem_of_fmap_2. }
  apply list_elem_of_fmap in Hin as (d & E & Hd). exists d. split; [by apply dependence_Ok|].
  destruct (mo_shapes dfg m Hm d Hd) as (edge' & He' & Hs).
  replace edge with edge'; [done|]. apply (edge_unique dfg Hinv); [done..|].
  destruct Hs as [-> _]. done.
Qed.
End Lookups.

(** A mapping of the example kernel at II 2: the load and the store share the
    LSU of tile (0, 0) in the two slots, the sum is next to it. *)
Definition v2_accumulate_mapping_calls : list MappingCall := [
  Place 0 (mkTile 0 0) 0; Place 1 (mkTile 0 1) 1; Place 2 (mkTile 0 0) 1;
  SetTransport 0 (mkPlan 0 NetData [LinkStep NetData (mkTile 0 0) East 2] 3);
  SetTransport 1 (mkPlan 1 NetData [VirtualHold NetData (mkTile 0 1) 0 1] 1);
  SetTransport 2 (mkPlan 2 NetData [LinkStep NetData (mkTile 0 1) West 0] 1);
  SetMemorySeparation 3 1; SetMemorySeparation 4 1].

Definition v2_accumulate_mapping : ModuloMapping :=
  match build_mapping v2_accumulate 2 v2_accumulate_mapping_calls with
  | Ok m => m
  | Throw _ => mkMapping "" 1 [] []
  end.

Lemma v2_accumulate_mapping_built :
  build_mapping v2_accumulate 2 v2_accumulate_mapping_calls = Ok v2_accumulate_mapping.
Proof. vm_compute. reflexivity. Qed.

(** ** Properties *)

(** The builder only releases complete mappings.  A mapping finished
    against a graph places every node exactly once in a slot below the II,
    realises every edge exactly once and nothing else, in identifier order; each
    realisation has the kind of its edge, with a transport plan on the network
    of that kind exactly for value edges. *)
Theorem build_mapping_complete (dfg : TargetDFG) (ii : Z) (calls : list MappingCall)
    (m : ModuloMapping) :
  TargetDFG_inv dfg -> build_mapping dfg ii calls = Ok m ->
  mm_ii m = ii /\ mapping_of dfg m /\
  (forall node, node ∈ td_nodes dfg -> exists p, placement m (tn_id node) = Ok p /\
     np_issueSlot p < ii) /\
  (forall edge, edge ∈ td_edges dfg ->
     exists d, dependence m (te_id edge) = Ok d /\ dependence_shape edge d).
Proof.
  intros Hinv H. apply build_mapping_spec in H as (Hm & Hii & _). split; [done|]. split; [done|].
  split; [|by apply dependence_exists]. intros node Hn.
  destruct (placement_exists dfg Hinv m Hm node Hn) as [p Hp]. exists p. split; [done|].
  apply (placement_Ok dfg Hinv m Hm) in Hp as [Hp _]. rewrite <- Hii. by apply (mo_slots dfg m).
Qed.

Lemma build_mapping_complete_witness :
  let m := v2_accumulate_mapping in
  mm_ii m = 2 /\ mapping_of v2_accumulate m /\
  (forall node, node ∈ td_nodes v2_accumulate -> exists p, placement m (tn_id node) = Ok p /\
     np_issueSlot p < 2) /\
  (forall edge, edge ∈ td_edges v2_accumulate ->
     exists d, dependence m (te_id edge) = Ok d /\ dependence_shape edge d).
Proof.
  apply (build_mapping_complete v2_accumulate 2 v2_accumulate_mapping_calls);
    [apply v2_accumulate_inv|apply v2_accumulate_mapping_built].
Defined.
