(* ===== verification/MappingVerifier.v ===== *)
(** * The independent modulo-mapping verifier

    Models [compiler/{include/cgra,lib}/Mapping/ModuloMappingVerifier.{h,cpp}]
    with the diagnostic codes of [ModuloMappingDiagnostic.h].  [mmv_verify]
    re-derives every resource use of a mapping on a fresh reservation table and
    returns the diagnostics in the order the code adds them; [valid_mapping] is
    what an empty report promises about the steady state. *)
From stdpp Require Import base numbers list gmap sorting strings.
From S2P Require Import Prelude.
From S2P Require Import IR.
From S2P Require Import DFG.
From S2P Require Import TargetModel.
From S2P Require Import CgraV2.
From S2P Require Import TargetDFG.
From S2P Require Import TargetDFGVerifier.
From S2P Require Import ModuloResources.
From S2P Require Import ModuloMapping.

Inductive MappingDiagnosticCode :=
  | MMAP_INVALID_TARGET_DFG
  | MMAP_INVALID_II
  | MMAP_TARGET_NAME_MISMATCH
  | MMAP_UNKNOWN_NODE
  | MMAP_UNKNOWN_EDGE
  | MMAP_NODE_MISSING_PLACEMENT
  | MMAP_NODE_DUPLICATE_PLACEMENT
  | MMAP_EDGE_MISSING_REALIZATION
  | MMAP_EDGE_DUPLICATE_REALIZATION
  | MMAP_TILE_OUT_OF_RANGE
  | MMAP_SLOT_OUT_OF_RANGE
  | MMAP_OPERATION_UNSUPPORTED_ON_TILE
  | MMAP_EXECUTION_RESOURCE_MISSING
  | MMAP_FU_RESOURCE_CONFLICT
  | MMAP_LSU_RESOURCE_CONFLICT
  | MMAP_DATA_LINK_CONFLICT
  | MMAP_PRED_LINK_CONFLICT
  | MMAP_OPERATION_SELF_OVERLAP
  | MMAP_ROUTE_SELF_RESOURCE_CONFLICT
  | MMAP_TRANSPORT_MISSING_FOR_VALUE_EDGE
  | MMAP_TRANSPORT_DOMAIN_MISMATCH
  | MMAP_TRANSPORT_BAD_START
  | MMAP_TRANSPORT_BAD_END
  | MMAP_TRANSPORT_DISCONTINUITY
  | MMAP_LINK_INVALID_TOPOLOGY
  | MMAP_LINK_TIME_BEFORE_VALUE_READY
  | MMAP_LINK_TIME_REGRESSION
  | MMAP_LINK_TIME_GAP_WITHOUT_STORAGE
  | MMAP_HOLD_INVALID_INTERVAL
  | MMAP_HOLD_WRONG_TILE
  | MMAP_HOLD_BEFORE_VALUE_READY
  | MMAP_HOLD_DISCONTINUITY
  | MMAP_REQUIRED_SEPARATION_MISMATCH
  | MMAP_MEMORY_TRANSPORT_PRESENT
  | MMAP_MEMORY_SEPARATION_TOO_SMALL
  | MMAP_MEMORY_SEPARATION_MISMATCH
  | MMAP_TARGET_TIMING_MISSING
  | MMAP_INTERNAL_ERROR.

#[export] Instance MappingDiagnosticCode_eq_dec : EqDecision MappingDiagnosticCode.
Proof. solve_decision. Defined.

(** [MappingOwner] has the two cases of [ReservationOwner]. *)
Record MappingDiagnostic := mkMD {
  mdg_code : MappingDiagnosticCode;
  mdg_node : option Z;
  mdg_edge : option Z;
  mdg_resource : option Z;
  mdg_tile : option TileCoord;
  mdg_slot : option Z;
  mdg_actionIndex : option Z;
  mdg_conflictingOwner : option ReservationOwner
}.

Definition diag_edge (code : MappingDiagnosticCode) (edge : Z) : MappingDiagnostic :=
  mkMD code None (Some edge) None None None None None.

Definition diag_node (code : MappingDiagnosticCode) (node : Z) : MappingDiagnostic :=
  mkMD code (Some node) None None None None None None.

Definition conflictCode (resource : ModuloResource) : MappingDiagnosticCode :=
  match kindOf resource with
  | RKFU => MMAP_FU_RESOURCE_CONFLICT
  | RKLSU => MMAP_LSU_RESOURCE_CONFLICT
  | RKDataLink => MMAP_DATA_LINK_CONFLICT
  | RKPredicateLink => MMAP_PRED_LINK_CONFLICT
  end.

(** [resourceTile] and [resourceSlot] are those of [ModuloResources]. *)

(** ** Walking one transport plan *)

(** The locals of the action loop: the current availability, the links taken so
    far (set and list), the validity flag and the diagnostics added. *)
Record RouteState := mkRouteState {
  rs_tile : TileCoord;
  rs_elapsed : Z;
  rs_resources : gset Z;
  rs_list : list Z;
  rs_valid : bool;
  rs_diags : list MappingDiagnostic
}.

Section Transport.
Context (target : TargetModel) (resources : ModuloResourceModel)
  (reservations : ReservationTable).
Context (edge : TargetEdge) (plan : TransportPlan) (issueSlot producerReady hopLatency : Z).

(** [add(...); routeValid = false; continue;] *)
Definition reject (st : RouteState) (d : MappingDiagnostic) : RouteState :=
  mkRouteState (rs_tile st) (rs_elapsed st) (rs_resources st) (rs_list st) false
    (rs_diags st ++ [d]).

Definition action_diag (code : MappingDiagnosticCode) (tile : option TileCoord) (index : Z)
  : MappingDiagnostic :=
  mkMD code None (Some (te_id edge)) None tile None (Some (wrap32 index)) None.

Definition link_action (st : RouteState) (index : Z) (source : TileCoord)
    (direction : Direction) (elapsed : Z) : result RouteState :=
  let diag code := action_diag code (Some source) index in
  if (index =? 0) && (elapsed <? producerReady)
  then Ok (reject st (diag MMAP_LINK_TIME_BEFORE_VALUE_READY))
  else if elapsed <? rs_elapsed st then Ok (reject st (diag MMAP_LINK_TIME_REGRESSION))
  else if rs_elapsed st <? elapsed
  then Ok (reject st (diag MMAP_LINK_TIME_GAP_WITHOUT_STORAGE))
  else if bool_decide (source <> rs_tile st)
  then Ok (reject st (diag MMAP_TRANSPORT_DISCONTINUITY))
  else
    slot ← advance (rm_ii resources) issueSlot elapsed;
    found ← linkResource resources (tp_domain plan) source direction slot;
    let diag_at code owner :=
      mkMD code None (Some (te_id edge)) found (Some source) (Some slot)
        (Some (wrap32 index)) owner in
    match neighbor_in target source direction, found with
    | Some nextTile, Some res =>
        if bool_decide (res ∈ rs_resources st)
        then Ok (reject st (diag_at MMAP_ROUTE_SELF_RESOURCE_CONFLICT None))
        else
          let st := mkRouteState (rs_tile st) (rs_elapsed st) ({[res]} ∪ rs_resources st)
                      (rs_list st ++ [res]) (rs_valid st) (rs_diags st) in
          free ← isFree reservations res;
          if negb free then
            who ← owner reservations res;
            semantic ← resource resources res;
            Ok (reject st (diag_at (conflictCode semantic) who))
          else Ok (mkRouteState nextTile (elapsed + hopLatency) (rs_resources st) (rs_list st)
                     (rs_valid st) (rs_diags st))
    | _, _ => Ok (reject st (diag_at MMAP_LINK_INVALID_TOPOLOGY None))
    end.

Definition hold_action (st : RouteState) (index : Z) (tile : TileCoord) (capture release : Z)
  : RouteState :=
  let diag code := action_diag code (Some tile) index in
  if bool_decide (tile <> rs_tile st) then reject st (diag MMAP_HOLD_WRONG_TILE)
  else if capture <? rs_elapsed st then reject st (diag MMAP_HOLD_BEFORE_VALUE_READY)
  else if rs_elapsed st <? capture then reject st (diag MMAP_HOLD_DISCONTINUITY)
  else if release <=? capture then reject st (diag MMAP_HOLD_INVALID_INTERVAL)
  else mkRouteState (rs_tile st) release (rs_resources st) (rs_list st) (rs_valid st) (rs_diags st).

Definition route_action (st : RouteState) (index : Z) (action : TransportAction)
  : result RouteState :=
  if bool_decide (action_domain action <> tp_domain plan)
  then Ok (reject st (action_diag MMAP_TRANSPORT_DOMAIN_MISMATCH None index))
  else match action with
       | LinkStep _ source direction elapsed => link_action st index source direction elapsed
       | VirtualHold _ tile capture release => Ok (hold_action st index tile capture release)
       end.

Fixpoint route_loop (st : RouteState) (actions : list (Z * TransportAction))
  : result RouteState :=
  match actions with
  | [] => Ok st
  | (index, action) :: actions =>
      st' ← route_action st index action;
      route_loop st' actions
  end.
End Transport.

(** [verifyValueTransport]: the updated reservations and the diagnostics added. *)
Definition verifyValueTransport (dfg : TargetDFG) (target : TargetModel) (edge : TargetEdge)
    (d : MappedDependence) (placements : Z -> option NodePlacement)
    (reservations : ReservationTable) (resources : ModuloResourceModel)
  : result (ReservationTable * list MappingDiagnostic) :=
  let fail code := Ok (reservations, [diag_edge code (te_id edge)]) in
  match md_transport d with
  | None => fail MMAP_TRANSPORT_MISSING_FOR_VALUE_EDGE
  | Some plan =>
      if negb (tp_edge plan =? te_id edge) then fail MMAP_TRANSPORT_BAD_START
      else if bool_decide (tp_domain plan <> expectedDomain (TargetEdge_kind edge))
      then fail MMAP_TRANSPORT_DOMAIN_MISMATCH
      else
      match placements (te_src edge), placements (te_dst edge) with
      | Some srcPlacement, Some dstPlacement =>
          producer ← td_node dfg (te_src edge);
          match tn_producerOutputReadyOffset producer with
          | None =>
              Ok (reservations, [mkMD MMAP_TARGET_TIMING_MISSING (Some (te_src edge))
                                   (Some (te_id edge)) None None None None None])
          | Some producerReady =>
              let network := match tp_domain plan with
                             | NetPredicate => predicateNetwork target
                             | NetData => dataNetwork target
                             end in
              let hopLatency := net_hopLatency network in
              if hopLatency =? 0 then fail MMAP_TARGET_TIMING_MISSING
              else
                st ← route_loop target resources reservations edge plan
                       (np_issueSlot srcPlacement) producerReady hopLatency
                       (mkRouteState (np_tile srcPlacement) producerReady ∅ [] true [])
                       (enumerate (tp_actions plan));
                let finish diags := Ok (reservations, rs_diags st ++ diags) in
                if negb (rs_valid st) then finish []
                else if bool_decide (tp_actions plan = []) &&
                        bool_decide (np_tile srcPlacement = np_tile dstPlacement)
                then finish [diag_edge MMAP_TRANSPORT_BAD_END (te_id edge)]
                else if bool_decide (rs_tile st <> np_tile dstPlacement)
                then finish [mkMD MMAP_TRANSPORT_BAD_END (Some (te_dst edge)) (Some (te_id edge))
                               None (Some (rs_tile st)) None None None]
                else if negb (rs_elapsed st =? tp_requiredSeparationCycles plan) ||
                        negb (md_requiredSeparationCycles d =? tp_requiredSeparationCycles plan)
                then finish [diag_edge MMAP_REQUIRED_SEPARATION_MISMATCH (te_id edge)]
                else match rs_list st with
                     | [] => finish []
                     | links =>
                         let '(ok, reservations') :=
                           reserve reservations links (OwnerEdge (te_id edge)) in
                         Ok (reservations', rs_diags st ++
                             when (negb ok) [diag_edge MMAP_INTERNAL_ERROR (te_id edge)])
                     end
          end
      | _, _ => Ok (reservations, [])
      end
  end.

(** ** The whole verification *)

(** The keys of a [std::map], in iteration order. *)
Definition map_keys (keys : list Z) : list Z := sort_by id (remove_dups keys).

Section Verify.
Context (dfg : TargetDFG) (target : TargetModel) (mapping : ModuloMapping).

Definition placementEntries (node : Z) : list NodePlacement :=
  filter (fun p => np_node p = node) (mm_placements mapping).

Definition dependenceEntries (edge : Z) : list MappedDependence :=
  filter (fun d => md_edge d = edge) (mm_dependences mapping).

Definition find_edge (edge : Z) : option TargetEdge :=
  find_if (fun e => te_id e =? edge) (td_edges dfg).

(** [nodes] and [edges] as ordered maps: the first element of each identifier. *)
Definition node_entries : list TargetNode :=
  omap (find_node dfg) (map_keys (tn_id <$> td_nodes dfg)).

Definition edge_entries : list TargetEdge :=
  omap find_edge (map_keys (te_id <$> td_edges dfg)).

Definition hasUniquePlacement (node : Z) : bool :=
  bool_decide (length (placementEntries node) = 1%nat).

Definition hasUniqueDependence (edge : Z) : bool :=
  bool_decide (length (dependenceEntries edge) = 1%nat).

(** [placements]: nodes of the graph placed exactly once. *)
Definition unique_placement (node : Z) : option NodePlacement :=
  if bool_decide (is_Some (find_node dfg node)) && hasUniquePlacement node
  then head (placementEntries node) else None.

Definition coverage_diags : list MappingDiagnostic :=
  flat_map (fun node =>
    when (negb (bool_decide (is_Some (find_node dfg node)))) [diag_node MMAP_UNKNOWN_NODE node] ++
    when (bool_decide (1 < length (placementEntries node))%nat)
      [diag_node MMAP_NODE_DUPLICATE_PLACEMENT node])
    (map_keys (np_node <$> mm_placements mapping)) ++
  flat_map (fun edge =>
    when (negb (bool_decide (is_Some (find_edge edge)))) [diag_edge MMAP_UNKNOWN_EDGE edge] ++
    when (bool_decide (1 < length (dependenceEntries edge))%nat)
      [diag_edge MMAP_EDGE_DUPLICATE_REALIZATION edge])
    (map_keys (md_edge <$> mm_dependences mapping)) ++
  flat_map (fun node => when (negb (hasUniquePlacement (tn_id node)))
    [diag_node MMAP_NODE_MISSING_PLACEMENT (tn_id node)]) node_entries ++
  flat_map (fun edge => when (negb (hasUniqueDependence (te_id edge)))
    [diag_edge MMAP_EDGE_MISSING_REALIZATION (te_id edge)]) edge_entries.

(** The first footprint resource that has an owner is reported. *)
Fixpoint first_conflict (resources : ModuloResourceModel) (reservations : ReservationTable)
  (node : Z) (footprint : list Z) : result (list MappingDiagnostic) :=
  match footprint with
  | [] => Ok []
  | id :: footprint =>
      who ← owner reservations id;
      match who with
      | None => first_conflict resources reservations node footprint
      | Some who =>
          semantic ← resource resources id;
          Ok [mkMD (conflictCode semantic) (Some node) None (Some id)
                (Some (resource_tile semantic)) (Some (resource_slot semantic)) None (Some who)]
      end
  end.

Definition reserve_node (resources : ModuloResourceModel) (reservations : ReservationTable)
    (node : TargetNode) (p : NodePlacement)
  : result (ReservationTable * list MappingDiagnostic) :=
  footprint ← operationFootprint resources node (np_tile p) (np_issueSlot p);
  if negb (canReserve reservations footprint) then
    diags ← first_conflict resources reservations (tn_id node) footprint;
    Ok (reservations, diags)
  else
    let '(ok, reservations') := reserve reservations footprint (OwnerNode (tn_id node)) in
    Ok (reservations', when (negb ok) [diag_node MMAP_INTERNAL_ERROR (tn_id node)]).

Definition verify_node (resources : ModuloResourceModel) (reservations : ReservationTable)
    (node : TargetNode) : result (ReservationTable * list MappingDiagnostic) :=
  match unique_placement (tn_id node) with
  | None => Ok (reservations, [])
  | Some p =>
      let fail code :=
        Ok (reservations, [mkMD code (Some (tn_id node)) None None (Some (np_tile p))
                             (Some (np_issueSlot p)) None None]) in
      if (arr_rows (tm_array target) <=? tile_row (np_tile p)) ||
         (arr_cols (tm_array target) <=? tile_col (np_tile p))
      then fail MMAP_TILE_OUT_OF_RANGE
      else if mm_ii mapping <=? np_issueSlot p then fail MMAP_SLOT_OUT_OF_RANGE
      else if negb (supportsOperation resources (np_tile p) node) then
        match findOperation target (tn_operation node) with
        | Some op =>
            match op_executionClass op with
            | LSU => fail MMAP_OPERATION_UNSUPPORTED_ON_TILE
            | FU => fail MMAP_EXECUTION_RESOURCE_MISSING
            end
        | None => fail MMAP_EXECUTION_RESOURCE_MISSING
        end
      else match reserve_node resources reservations node p with
           | Throw InvalidArgument =>
               match findOperation target (tn_operation node) with
               | Some op =>
                   if mm_ii mapping <? op_issueOccupancy op
                   then fail MMAP_OPERATION_SELF_OVERLAP
                   else fail MMAP_EXECUTION_RESOURCE_MISSING
               | None => fail MMAP_EXECUTION_RESOURCE_MISSING
               end
           | r => r
           end
  end.

Definition verify_edge (resources : ModuloResourceModel) (reservations : ReservationTable)
    (edge : TargetEdge) : result (ReservationTable * list MappingDiagnostic) :=
  let fail code := Ok (reservations, [diag_edge code (te_id edge)]) in
  match dependenceEntries (te_id edge) with
  | [d] =>
      if bool_decide (md_kind d <> TargetEdge_kind edge) then fail MMAP_TRANSPORT_DOMAIN_MISMATCH
      else match te_info edge with
           | MemoryEdgeInfo dependence =>
               if bool_decide (is_Some (md_transport d)) then fail MMAP_MEMORY_TRANSPORT_PRESENT
               else
                 let expected := memoryDependenceSeparation target dependence in
                 if md_requiredSeparationCycles d <? expected
                 then fail MMAP_MEMORY_SEPARATION_TOO_SMALL
                 else if negb (md_requiredSeparationCycles d =? expected)
                 then fail MMAP_MEMORY_SEPARATION_MISMATCH
                 else Ok (reservations, [])
           | _ =>
               if hasUniquePlacement (te_src edge) && hasUniquePlacement (te_dst edge)
               then verifyValueTransport dfg target edge d unique_placement reservations resources
               else Ok (reservations, [])
           end
  | _ => Ok (reservations, [])
  end.

(** A loop over graph elements that threads the reservation table. *)
Fixpoint verify_all {A} (step : ReservationTable -> A -> result (ReservationTable * list MappingDiagnostic))
  (reservations : ReservationTable) (elements : list A)
  : result (ReservationTable * list MappingDiagnostic) :=
  match elements with
  | [] => Ok (reservations, [])
  | element :: elements =>
      '(reservations', diags) ← step reservations element;
      '(reservations'', rest) ← verify_all step reservations' elements;
      Ok (reservations'', diags ++ rest)
  end.

Definition mmv_verify : result (list MappingDiagnostic) :=
  let fail code := Ok [mkMD code None None None None None None None] in
  targetReport ← tdfg_verify dfg target None;
  if bool_decide (targetReport <> []) then fail MMAP_INVALID_TARGET_DFG
  else if negb (String.eqb (td_targetName dfg) (tm_name target)) then fail MMAP_INVALID_TARGET_DFG
  else if mm_ii mapping =? 0 then fail MMAP_INVALID_II
  else if negb (String.eqb (mm_targetName mapping) (tm_name target))
  then fail MMAP_TARGET_NAME_MISMATCH
  else
    resources ← makeResourceModel target (mm_ii mapping);
    '(reservations, node_report) ←
      verify_all (verify_node resources) (makeReservationTable resources) node_entries;
    '(_, edge_report) ← verify_all (verify_edge resources) reservations edge_entries;
    Ok (coverage_diags ++ node_report ++ edge_report).
End Verify.

(** ** What a clean report promises *)

(** A link of the mesh leads from a tile to its neighbour. *)
Definition link_exists (target : TargetModel) (tile : TileCoord) (direction : Direction)
  (next : TileCoord) : Prop :=
  net_topology (dataNetwork target) = "mesh_2d"%string /\
  neighbor_in target tile direction = Some next.

(** A transport plan carries a value from [(tile, elapsed)] to [(tile', elapsed')]:
    each link leaves the current tile at the current time towards an existing
    neighbour, and every wait is an explicit hold of positive length. *)
Inductive route (target : TargetModel) (hop : Z) (domain : NetworkDomain) :
    TileCoord -> Z -> list TransportAction -> TileCoord -> Z -> Prop :=
  | route_done tile elapsed : route target hop domain tile elapsed [] tile elapsed
  | route_link tile elapsed direction next actions tile' elapsed' :
      link_exists target tile direction next ->
      route target hop domain next (elapsed + hop) actions tile' elapsed' ->
      route target hop domain tile elapsed
        (LinkStep domain tile direction elapsed :: actions) tile' elapsed'
  | route_hold tile elapsed release actions tile' elapsed' :
      elapsed < release ->
      route target hop domain tile release actions tile' elapsed' ->
      route target hop domain tile elapsed
        (VirtualHold domain tile elapsed release :: actions) tile' elapsed'.

(** A resource with its slot replaced: by an absolute cycle, or back to a slot. *)
Definition map_slot (f : Z -> Z) (r : ModuloResource) : ModuloResource :=
  match r with
  | FUResource tile slot => FUResource tile (f slot)
  | LSUResource tile slot => LSUResource tile (f slot)
  | LinkResource domain source direction slot => LinkResource domain source direction (f slot)
  end.

Section ValidMapping.
Context (dfg : TargetDFG) (target : TargetModel) (m : ModuloMapping).

(** Node [id] is placed by [p] and nothing else; likewise for edges. *)
Definition placed (id : Z) (p : NodePlacement) : Prop := placementEntries m id = [p].
Definition realised (id : Z) (d : MappedDependence) : Prop := dependenceEntries m id = [d].

(** The units one iteration occupies when each node issues at cycle [time]: the
    execution unit for every cycle of its occupancy, and one link per hop. *)
Definition node_occurrences (time : Z -> Z) (node : TargetNode) : list ModuloResource :=
  match placementEntries m (tn_id node), findOperation target (tn_operation node) with
  | [p], Some op =>
      (fun offset => exec_resource (op_executionClass op) (np_tile p)
                       (time (tn_id node) + offset)) <$> range (op_issueOccupancy op)
  | _, _ => []
  end.

Definition link_occurrences (base : Z) (actions : list TransportAction) : list ModuloResource :=
  omap (fun action => match action with
                      | LinkStep domain source direction elapsed =>
                          Some (LinkResource domain source direction (base + elapsed))
                      | VirtualHold _ _ _ _ => None
                      end) actions.

Definition edge_occurrences (time : Z -> Z) (edge : TargetEdge) : list ModuloResource :=
  match dependenceEntries m (te_id edge) with
  | [d] => match md_transport d with
           | Some plan => link_occurrences (time (te_src edge)) (tp_actions plan)
           | None => []
           end
  | _ => []
  end.

Definition occurrences (time : Z -> Z) : list ModuloResource :=
  flat_map (node_occurrences time) (td_nodes dfg) ++
  flat_map (edge_occurrences time) (td_edges dfg).

Definition issue_slot (id : Z) : Z :=
  match placementEntries m id with [p] => np_issueSlot p | _ => 0 end.

Definition placement_valid (node : TargetNode) (p : NodePlacement) : Prop :=
  tile_inside (arr_rows (tm_array target)) (arr_cols (tm_array target)) (np_tile p) /\
  np_issueSlot p < mm_ii m /\
  exists op, findOperation target (tn_operation node) = Some op /\
    tileSupportsOperation target (tile_row (np_tile p)) (tile_col (np_tile p)) (op_id op) = true /\
    0 < op_issueOccupancy op <= mm_ii m.

(** The value leaves its producer when it is ready and reaches the consumer's
    tile after exactly the separation the mapping claims. *)
Definition transport_valid (edge : TargetEdge) (d : MappedDependence) : Prop :=
  exists plan src dst producer ready,
    md_transport d = Some plan /\ tp_edge plan = te_id edge /\
    tp_domain plan = expectedDomain (TargetEdge_kind edge) /\
    md_requiredSeparationCycles d = tp_requiredSeparationCycles plan /\
    placed (te_src edge) src /\ placed (te_dst edge) dst /\
    td_node dfg (te_src edge) = Ok producer /\
    tn_producerOutputReadyOffset producer = Some ready /\ tp_actions plan <> [] /\
    route target (net_hopLatency (tm_interconnect target)) (tp_domain plan)
      (np_tile src) ready (tp_actions plan) (np_tile dst) (tp_requiredSeparationCycles plan).

Definition dependence_valid (edge : TargetEdge) (d : MappedDependence) : Prop :=
  md_kind d = TargetEdge_kind edge /\
  match te_info edge with
  | MemoryEdgeInfo kind =>
      md_transport d = None /\
      md_requiredSeparationCycles d = memoryDependenceSeparation target kind
  | _ => transport_valid edge d
  end.

Record valid_mapping : Prop := {
  vm_target : mm_targetName m = tm_name target /\ td_targetName dfg = tm_name target;
  vm_ii : mm_ii m <> 0;
  vm_graph : TargetDFG_valid dfg target None;
  vm_placements : forall p, p ∈ mm_placements m -> exists node, node ∈ td_nodes dfg /\
    tn_id node = np_node p;
  vm_dependences : forall d, d ∈ mm_dependences m -> exists edge, edge ∈ td_edges dfg /\
    te_id edge = md_edge d;
  vm_nodes : forall node, node ∈ td_nodes dfg -> exists p, placed (tn_id node) p /\
    placement_valid node p;
  vm_edges : forall edge, edge ∈ td_edges dfg -> exists d, realised (te_id edge) d /\
    dependence_valid edge d;
  vm_exclusive : NoDup (map_slot (fun cycle => cycle mod mm_ii m) <$> occurrences issue_slot)
}.
End ValidMapping.

(** ** Ordered-map iteration *)

Lemma elem_of_map_keys l x : x ∈ map_keys l <-> x ∈ l.
Proof. unfold map_keys. rewrite elem_of_sort_by. apply elem_of_remove_dups. Qed.

Lemma NoDup_map_keys l : NoDup (map_keys l).
Proof. unfold map_keys. rewrite sort_by_perm. apply NoDup_remove_dups. Qed.

Section Entries.
Context {A : Type} (key : A -> Z) (l : list A) (Hl : NoDup (key <$> l)).

Lemma find_if_key k x : find_if (fun y => key y =? k) l = Some x <-> x ∈ l /\ key x = k.
Proof.
  split.
  - intros H. apply find_if_Some in H as [? ?]. split; [done|lia].
  - intros [Hx E]. by apply (find_if_unique key).
Qed.

Lemma elem_of_entries x :
  x ∈ omap (fun k => find_if (fun y => key y =? k) l) (map_keys (key <$> l)) <-> x ∈ l.
Proof.
  rewrite list_elem_of_omap. setoid_rewrite elem_of_map_keys. setoid_rewrite find_if_key.
  split; [naive_solver|]. intros Hx. exists (key x). split; [by apply list_elem_of_fmap_2|done].
Qed.

Lemma entries_NoDup :
  NoDup (key <$> omap (fun k => find_if (fun y => key y =? k) l) (map_keys (key <$> l))).
Proof.
  assert (forall ks, NoDup ks ->
    NoDup (key <$> omap (fun k => find_if (fun y => key y =? k) l) ks)) as H;
    [|apply H, NoDup_map_keys].
  induction ks as [|k ks IH]; intros Hks; [apply NoDup_nil_2|].
  apply NoDup_cons in Hks as [Hk Hks]. cbn [omap list_omap].
  destruct (find_if _ l) as [x|] eqn:E; [|by apply IH].
  rewrite fmap_cons. apply NoDup_cons. split; [|by apply IH].
  apply find_if_key in E as [_ E]. rewrite E. intros Hin.
  apply list_elem_of_fmap in Hin as (y & Ey & Hy).
  apply list_elem_of_omap in Hy as (k' & Hk' & Hy). apply find_if_key in Hy as [_ Hy]. congruence.
Qed.
End Entries.

(** ** Reservations only grow *)

Definition extends (t t' : ReservationTable) : Prop :=
  length t' = length t /\
  forall id who, 0 <= id -> slot_of t id = Some who -> slot_of t' id = Some who.

#[export] Instance extends_preorder : PreOrder extends.
Proof.
  split; [by intros t; split|]. intros t1 t2 t3 [L1 H1] [L2 H2]. split; [congruence|eauto].
Qed.

Lemma reserve_extends t ids who ok t' :
  (forall id, id ∈ ids -> 0 <= id) -> reserve t ids who = (ok, t') ->
  extends t t' /\ (ok = true -> forall id, id ∈ ids -> slot_of t' id = Some who).
Proof.
  intros Hpos H. destruct ok.
  - apply reserve_true in H as (_ & Hlen & Hfree & Hslot); [|done]. split.
    + split; [done|]. intros id w H0 Hw. rewrite Hslot by done.
      destruct (decide (id ∈ ids)) as [Hin|]; [|done].
      destruct (Hfree _ Hin) as [_ E]. congruence.
    + intros _ id Hin. rewrite Hslot by auto. by rewrite decide_True.
  - unfold reserve in H. destruct (negb (canReserve t ids)); simplify_eq. done.
Qed.

(** A step that only extends the table, repeated over a list. *)
Section VerifyAll.
Context {A : Type} (P : A -> Prop).
Context (step : ReservationTable -> A -> result (ReservationTable * list MappingDiagnostic)).
Context (Hstep : forall t x t' ds, P x -> step t x = Ok (t', ds) -> extends t t').

Lemma verify_all_extends t l t' ds :
  (forall x, x ∈ l -> P x) -> verify_all step t l = Ok (t', ds) -> extends t t'.
Proof.
  revert t t' ds. induction l as [|x l IH]; simpl; intros t t' ds Hl H; [by simplify_eq|].
  inv_ok. destruct v as [t1 d1]. inv_ok. destruct v as [t2 d2]. simplify_eq.
  etransitivity; [eapply Hstep; [apply Hl; left|done]|eapply IH; [|done]].
  intros y Hy. apply Hl. by right.
Qed.

(** Every element passed its step, and what the step established still holds. *)
Lemma verify_all_clean (Post : A -> ReservationTable -> Prop) t l t' :
  (forall x t1 t2, extends t1 t2 -> Post x t1 -> Post x t2) ->
  (forall x t1 t2, P x -> step t1 x = Ok (t2, []) -> Post x t2) ->
  (forall x, x ∈ l -> P x) ->
  verify_all step t l = Ok (t', []) ->
  forall x, x ∈ l -> Post x t'.
Proof.
  intros Hmono Hpost. revert t t'. induction l as [|y l IH]; simpl; intros t t' Hl H x Hx.
  { by apply not_elem_of_nil in Hx. }
  inv_ok. destruct v as [t1 d1]. inv_ok. destruct v as [t2 d2]. simplify_eq.
  match goal with E : _ ++ _ = [] |- _ => apply app_nil in E as [-> ->] end.
  assert (Hl' : forall z, z ∈ l -> P z) by (intros z Hz; apply Hl; by right).
  apply elem_of_cons in Hx as [->|Hx]; [|by eapply IH].
  eapply Hmono; [by eapply verify_all_extends|]. eapply Hpost; [apply Hl; left|done].
Qed.
End VerifyAll.

(** ** Soundness of one verification step *)

(** The fields the code keeps in unsigned integers. *)
Definition typed_mapping (m : ModuloMapping) : Prop :=
  is_u32 (mm_ii m) /\
  forall p, p ∈ mm_placements m ->
    0 <= tile_row (np_tile p) /\ 0 <= tile_col (np_tile p) /\ 0 <= np_issueSlot p.

(** The separations of a mapping are unsigned in the code. *)
Definition typed_dependences (m : ModuloMapping) : Prop :=
  forall d, d ∈ mm_dependences m -> is_u32 (md_requiredSeparationCycles d).

Section Soundness.
Context (dfg : TargetDFG) (m : ModuloMapping).
Context (resources : ModuloResourceModel) (Hres : ResourceModel_wf resources)
  (Hii : rm_ii resources = mm_ii m) (Htyped : typed_mapping m).
Local Abbreviation target := (rm_target resources).

Lemma placed_elem id p : placed m id p -> p ∈ mm_placements m /\ np_node p = id.
Proof.
  unfold placed, placementEntries. intros H.
  assert (p ∈ filter (fun q => np_node q = id) (mm_placements m)) as Hp
    by (rewrite H; by apply list_elem_of_singleton).
  by apply list_elem_of_filter in Hp as [? ?].
Qed.

Lemma unique_placement_Some id p :
  unique_placement dfg m id = Some p -> placed m id p /\ is_Some (find_node dfg id).
Proof.
  unfold unique_placement, hasUniquePlacement, placed.
  case_bool_decide as Hn; [|done]. case_bool_decide as Hl; [|done]. simpl.
  destruct (placementEntries m id) as [|q [|]]; simpl in *; try done. intros [= ->]. done.
Qed.

Lemma unique_placement_placed id p :
  placed m id p -> is_Some (find_node dfg id) -> unique_placement dfg m id = Some p.
Proof.
  unfold unique_placement, hasUniquePlacement, placed. intros -> H.
  by rewrite bool_decide_eq_true_2.
Qed.

Lemma footprint_ids_pos op tile issue fp id :
  footprint_of resources op tile issue fp -> id ∈ fp -> 0 <= id.
Proof.
  intros [Hall _] Hid. apply list_elem_of_lookup in Hid as (i & Hi).
  destruct (Forall2_lookup_r _ _ _ _ _ Hall Hi) as (o & _ & Hf).
  by apply (findResource_Ok _ Hres) in Hf as [? _].
Qed.

Lemma operationFootprint_pos node tile issue fp id :
  0 <= issue -> operationFootprint resources node tile issue = Ok fp -> id ∈ fp -> 0 <= id.
Proof.
  intros Hi H. apply operationFootprint_Ok in H as (op & _ & _ & _ & Hfp); [|done|done].
  by eapply footprint_ids_pos.
Qed.

(** When nothing in a well-formed footprint is owned, it can be reserved; so a
    refused footprint is always reported. *)
Lemma first_conflict_clean t node fp :
  NoDup fp -> first_conflict resources t node fp = Ok [] -> canReserve t fp = true.
Proof.
  intros Hnd H. apply canReserve_true. split; [done|]. clear Hnd.
  induction fp as [|id fp IH]; simpl in H; intros i Hi; [by apply not_elem_of_nil in Hi|].
  inv_ok. unfold owner, in_table in Hv. destruct (id <? Z.of_nat (length t)) eqn:El; [|done].
  simpl in Hv. injection Hv as Hv. destruct v as [who|].
  - inv_ok. by simplify_eq.
  - apply elem_of_cons in Hi as [->|Hi]; [split; [lia|done]|by apply IH].
Qed.

Lemma reserve_node_spec t node p t' ds :
  0 <= np_issueSlot p -> reserve_node resources t node p = Ok (t', ds) ->
  extends t t' /\
  (ds = [] -> exists fp, operationFootprint resources node (np_tile p) (np_issueSlot p) = Ok fp /\
     forall id, id ∈ fp -> slot_of t' id = Some (OwnerNode (tn_id node))).
Proof.
  intros Hs H. unfold reserve_node in H. apply bind_Ok in H as (fp & Hfp & H).
  assert (Hpos : forall id, id ∈ fp -> 0 <= id) by (intros id; by eapply operationFootprint_pos).
  destruct (canReserve t fp) eqn:Ec; simpl in H.
  - destruct (reserve t fp _) as [ok t1] eqn:Er. simplify_eq.
    destruct (reserve_extends _ _ _ _ _ Hpos Er) as [Hext Hown]. split; [done|].
    intros Hd. apply when_cons_nil, negb_false_iff in Hd as ->. exists fp. auto.
  - apply bind_Ok in H as (diags & Hd & H). simplify_eq. split; [done|]. intros ->.
    apply first_conflict_clean in Hd; [congruence|].
    apply operationFootprint_Ok in Hfp as (op & _ & _ & _ & [_ Hnd]); [done|done|done].
Qed.

(** What a passed node step leaves in the table. *)
Definition node_reserved (node : TargetNode) (t : ReservationTable) : Prop :=
  forall p, placed m (tn_id node) p -> exists fp,
    operationFootprint resources node (np_tile p) (np_issueSlot p) = Ok fp /\
    forall id, id ∈ fp -> slot_of t id = Some (OwnerNode (tn_id node)).

Lemma node_reserved_mono node t1 t2 :
  extends t1 t2 -> node_reserved node t1 -> node_reserved node t2.
Proof.
  intros [_ Hext] H p Hp. destruct (H p Hp) as (fp & Hfp & Hown). exists fp. split; [done|].
  intros id Hid. apply Hext; [|auto]. eapply operationFootprint_pos; [|done|done].
  destruct Htyped as [_ Ht]. apply placed_elem in Hp as [Hp _]. by apply Ht.
Qed.

Lemma verify_node_spec t node t' ds :
  node ∈ td_nodes dfg -> verify_node dfg target m resources t node = Ok (t', ds) ->
  extends t t' /\
  (ds = [] -> node_reserved node t' /\
     forall p, placed m (tn_id node) p -> placement_valid target m node p).
Proof.
  intros Hnode H. unfold verify_node in H.
  destruct (unique_placement dfg m (tn_id node)) as [p|] eqn:Eu.
  2:{ simplify_eq. split; [done|]. intros _.
      assert (Hno : forall p, ~ placed m (tn_id node) p).
      { intros p Hp. rewrite (unique_placement_placed _ p) in Eu; [done|done|].
        apply find_if_is_Some. exists node. split; [done|lia]. }
      split; intros p Hp; by apply Hno in Hp. }
  apply unique_placement_Some in Eu as [Hp _]. pose proof (placed_elem _ _ Hp) as [Hin _].
  destruct Htyped as [Hii32 Ht]. destruct (Ht p Hin) as (Hr & Hc & Hs).
  assert (Hone : forall q, placed m (tn_id node) q -> q = p).
  { unfold placed in *. intros q Hq. congruence. }
  destruct (_ || _)%bool eqn:Etile; [by simplify_eq|]. bool_hyps.
  destruct (Z.leb_spec (mm_ii m) (np_issueSlot p)) as [Hslot|Hslot]; [by simplify_eq|].
  destruct (supportsOperation resources (np_tile p) node) eqn:Esup; simpl in H.
  2:{ split; [|intros ->]; repeat case_match; by simplify_eq. }
  destruct (reserve_node resources t node p) as [[t1 d1]|e] eqn:Er.
  2:{ split; [|intros ->]; repeat case_match; by simplify_eq. }
  simplify_eq. apply reserve_node_spec in Er as [Hext Hr']; [|done]. split; [done|].
  intros Hd. destruct (Hr' Hd) as (fp & Hfp & Hown). split.
  - intros q Hq. rewrite (Hone q Hq). eauto.
  - intros q Hq. rewrite (Hone q Hq).
    apply operationFootprint_Ok in Hfp as (op & Hop & _ & H0 & Hfp); [|done|done].
    split; [unfold tile_inside; lia|]. split; [done|]. exists op.
    pose proof (footprint_of_occupancy _ Hres _ _ _ _ Hfp) as [_ Hocc].
    rewrite <- Hii. split; [done|].
    unfold supportsOperation in Esup. destruct (_ || _)%bool; [done|]. rewrite Hop in Esup.
    split; [done|]. split; [|done].
    apply findOperation_elem in Hop. pose proof (wf_occupancy _ (rmwf_target _ Hres) _ Hop). lia.
Qed.
End Soundness.

(** ** Soundness of a transport walk *)

Section RouteSoundness.
Context (resources : ModuloResourceModel) (Hres : ResourceModel_wf resources).
Context (t : ReservationTable) (edge : TargetEdge) (plan : TransportPlan)
  (issue ready hop : Z) (Hissue : 0 <= issue).
Local Abbreviation target := (rm_target resources).
Local Abbreviation ii := (rm_ii resources).
Local Abbreviation action_step := (route_action target resources t edge plan issue ready hop).
Local Abbreviation walk := (route_loop target resources t edge plan issue ready hop).

(** The resource set always holds exactly the listed links. *)
Definition links_agree (st : RouteState) : Prop :=
  NoDup (rs_list st) /\ forall id, id ∈ rs_resources st <-> id ∈ rs_list st.

(** A link of the plan, as the resource it uses. *)
Definition link_found (source : TileCoord) (direction : Direction) (elapsed id : Z) : Prop :=
  findResource resources
    (LinkResource (tp_domain plan) source direction ((issue + elapsed) mod ii)) = Ok id.

(** What an accepted action does to the walk. *)
Definition action_taken (st : RouteState) (action : TransportAction) (st' : RouteState) : Prop :=
  rs_valid st' = rs_valid st /\ rs_diags st' = rs_diags st /\
  action_domain action = tp_domain plan /\
  match action with
  | LinkStep _ source direction elapsed =>
      elapsed = rs_elapsed st /\ source = rs_tile st /\
      neighbor_in target source direction = Some (rs_tile st') /\
      rs_elapsed st' = elapsed + hop /\
      exists id, link_found source direction elapsed id /\
        slot_of t id = None /\ rs_list st' = rs_list st ++ [id] /\
        id ∉ rs_resources st /\ rs_resources st' = {[id]} ∪ rs_resources st
  | VirtualHold _ tile capture release =>
      tile = rs_tile st /\ capture = rs_elapsed st /\ capture < release /\
      rs_tile st' = rs_tile st /\ rs_elapsed st' = release /\
      rs_list st' = rs_list st /\ rs_resources st' = rs_resources st
  end.

Lemma reject_invalid st d : rs_valid (reject st d) = false.
Proof. done. Qed.

Lemma link_action_valid st index source direction elapsed st' :
  link_action target resources t edge plan issue ready hop st index source direction elapsed
    = Ok st' -> rs_valid st' = true ->
  action_taken st (LinkStep (tp_domain plan) source direction elapsed) st'.
Proof.
  intros H Hv. unfold link_action in H.
  destruct (_ && _)%bool; [by simplify_eq|].
  destruct (Z.ltb_spec elapsed (rs_elapsed st)); [by simplify_eq|].
  destruct (Z.ltb_spec (rs_elapsed st) elapsed); [by simplify_eq|].
  case_bool_decide as Htile; [by simplify_eq|].
  apply bind_Ok in H as (slot & Hslot & H). apply bind_Ok in H as (found & Hfound & H).
  apply advance_Ok in Hslot as [_ ->]; [|apply Hres|done].
  destruct (neighbor_in target source direction) as [next|] eqn:En; [|by simplify_eq].
  destruct found as [id|]; [|by simplify_eq].
  apply linkResource_Ok in Hfound as (_ & _ & Hid).
  case_bool_decide as Hself; [by simplify_eq|].
  apply bind_Ok in H as (free & Hfree & H). destruct free; simpl in H.
  - simplify_eq. split; [done|]. split; [done|]. split; [done|]. simpl.
    split_and!; [lia|done|done|done|]. exists id. split; [done|].
    unfold isFree in Hfree. destruct (in_table t id); [|done]. simpl in Hfree.
    injection Hfree as Hfree. apply bool_decide_eq_true in Hfree. done.
  - apply bind_Ok in H as (who & _ & H). apply bind_Ok in H as (sem & _ & H). by simplify_eq.
Qed.

Lemma route_action_valid st index action st' :
  action_step st index action = Ok st' -> rs_valid st' = true -> action_taken st action st'.
Proof.
  intros H Hv. unfold route_action in H. case_bool_decide as Hd; [by simplify_eq|].
  destruct action as [dom source direction elapsed|dom tile cap rel];
    simpl in Hd; subst dom.
  - by eapply link_action_valid.
  - injection H as <-. unfold hold_action in *. case_bool_decide as Htile; [done|].
    destruct (Z.ltb_spec cap (rs_elapsed st)); [done|].
    destruct (Z.ltb_spec (rs_elapsed st) cap); [done|].
    destruct (Z.leb_spec rel cap); [done|].
    unfold action_taken. simpl. split_and!; try done; lia.
Qed.

(** An invalid walk stays invalid. *)
Lemma route_action_invalid st index action st' :
  action_step st index action = Ok st' -> rs_valid st = false -> rs_valid st' = false.
Proof.
  intros H Hv. destruct (rs_valid st') eqn:E; [|done].
  apply route_action_valid in H as [Hs _]; [|done]. congruence.
Qed.

Lemma action_taken_agree st action st' :
  action_taken st action st' -> links_agree st -> links_agree st'.
Proof.
  intros (_ & _ & _ & H) [Hnd Hag]. unfold links_agree. destruct action.
  - destruct H as (_ & _ & _ & _ & id & _ & _ & -> & Hnew & ->). split.
    + apply NoDup_app. split; [done|]. split; [|apply NoDup_singleton].
      intros x Hx Hx'. apply list_elem_of_singleton in Hx' as ->. by apply Hnew, Hag.
    + intros x. rewrite elem_of_union, elem_of_singleton, elem_of_app, list_elem_of_singleton, Hag.
      tauto.
  - destruct H as (_ & _ & _ & _ & _ & -> & ->). done.
Qed.

Lemma route_loop_valid st actions st' :
  walk st actions = Ok st' -> rs_valid st' = true ->
  rs_valid st = true /\ rs_diags st' = rs_diags st /\
  route target hop (tp_domain plan) (rs_tile st) (rs_elapsed st) actions.*2
    (rs_tile st') (rs_elapsed st') /\
  (links_agree st -> links_agree st') /\
  exists new, rs_list st' = rs_list st ++ new /\
    Forall2 (fun r id => findResource resources r = Ok id)
      (map_slot (fun cycle => cycle mod ii) <$> link_occurrences issue actions.*2) new /\
    (forall id, id ∈ new -> slot_of t id = None).
Proof.
  revert st. induction actions as [|[index action] actions IH]; simpl; intros st H Hv.
  - simplify_eq. split_and!; try done; [constructor|]. exists []. rewrite app_nil_r.
    split_and!; [done|constructor|]. intros id Hid. by apply not_elem_of_nil in Hid.
  - apply bind_Ok in H as (st1 & H1 & H).
    destruct (IH _ H Hv) as (Hv1 & Hd1 & Hroute & Hag & new & Hlist & Hall & Hfree).
    pose proof (route_action_valid _ _ _ _ H1 Hv1) as Htaken.
    pose proof (action_taken_agree _ _ _ Htaken) as Hag1.
    destruct Htaken as (Hv0 & Hd0 & Hdom & Hact).
    split; [congruence|]. split; [congruence|].
    destruct action as [dom source direction elapsed|dom tile cap rel]; simpl in Hdom; subst dom.
    + destruct Hact as (-> & -> & Hn & He & id & Hid & Hnone & Hl & _ & _).
      assert (Htop : resource_exists target ii
        (LinkResource (tp_domain plan) (rs_tile st) direction ((issue + rs_elapsed st) mod ii)))
        by (apply findResource_exists; eauto).
      split; [econstructor; [split; [apply Htop|done]|]; by rewrite He in Hroute|]. split; [by auto|].
      exists (id :: new). rewrite Hlist, Hl, <- app_assoc. split; [done|]. split.
      * by constructor.
      * intros x Hx. apply elem_of_cons in Hx as [->|Hx]; auto.
    + destruct Hact as (-> & -> & Hlt & Ht & He & Hl & _). rewrite Ht, He in Hroute.
      split; [by constructor|]. split; [by auto|]. exists new. rewrite Hlist, Hl. auto.
Qed.
(** A walk that turned invalid left a diagnostic. *)
Lemma route_action_or_reject st index action st' :
  action_step st index action = Ok st' ->
  (rs_valid st' = rs_valid st /\ rs_diags st' = rs_diags st) \/ exists s d, st' = reject s d.
Proof.
  intros H. destruct (rs_valid st') eqn:E.
  - apply route_action_valid in H as (? & ? & _); [|done]. left. split; congruence.
  - unfold route_action, link_action, hold_action in H.
    repeat (case_match; simplify_eq; eauto).
    all: inv_ok; repeat (case_match; simplify_eq; inv_ok; eauto); simplify_eq; eauto.
Qed.

Lemma route_loop_not_clean st actions st' :
  walk st actions = Ok st' -> (rs_valid st = false -> rs_diags st <> []) ->
  rs_valid st' = false -> rs_diags st' <> [].
Proof.
  revert st. induction actions as [|[index action] actions IH]; simpl; intros st H Hst Hv.
  - simplify_eq. auto.
  - apply bind_Ok in H as (st1 & H1 & H). eapply IH; [done| |done].
    destruct (route_action_or_reject _ _ _ _ H1) as [[-> ->]|(s & d & ->)]; [done|].
    intros _. simpl. by destruct (rs_diags s).
Qed.
End RouteSoundness.

Lemma enumerate_snd {A} (l : list A) : (enumerate l).*2 = l.
Proof.
  unfold enumerate. apply list_eq. intros i. rewrite list_lookup_fmap, list_lookup_imap.
  by destruct (l !! i).
Qed.

(** ** Soundness of an edge step *)

Section EdgeSoundness.
Context (dfg : TargetDFG) (Hinv : TargetDFG_inv dfg) (m : ModuloMapping).
Context (resources : ModuloResourceModel) (Hres : ResourceModel_wf resources)
  (Hii : rm_ii resources = mm_ii m) (Htyped : typed_mapping m).
Local Abbreviation target := (rm_target resources).

(** The link resources of a plan leaving a producer that issues in [slot]. *)
Definition plan_links (slot : Z) (plan : TransportPlan) (links : list Z) : Prop :=
  Forall2 (fun r id => findResource resources r = Ok id)
    (map_slot (fun cycle => cycle mod rm_ii resources) <$>
       link_occurrences slot (tp_actions plan)) links /\ NoDup links.

(** What a passed edge step leaves in the table. *)
Definition edge_reserved (edge : TargetEdge) (t : ReservationTable) : Prop :=
  forall d plan src, realised m (te_id edge) d -> md_transport d = Some plan ->
    placed m (te_src edge) src ->
    exists links, plan_links (np_issueSlot src) plan links /\
      forall id, id ∈ links -> slot_of t id = Some (OwnerEdge (te_id edge)).

Lemma plan_links_pos slot plan links id : plan_links slot plan links -> id ∈ links -> 0 <= id.
Proof.
  intros [Hall _] Hid. apply list_elem_of_lookup in Hid as (i & Hi).
  destruct (Forall2_lookup_r _ _ _ _ _ Hall Hi) as (o & _ & Hf).
  by apply (findResource_Ok _ Hres) in Hf as [? _].
Qed.

Lemma edge_reserved_mono edge t1 t2 :
  extends t1 t2 -> edge_reserved edge t1 -> edge_reserved edge t2.
Proof.
  intros [_ Hext] H d plan src Hd Hp Hs. destruct (H d plan src Hd Hp Hs) as (links & Hl & Hown).
  exists links. split; [done|]. intros id Hid. apply Hext; [by eapply plan_links_pos|auto].
Qed.

(** A diagnostic was reported and the table returned unchanged. *)
Ltac reported :=
  simplify_eq; split; [done|]; let E := fresh in
  intros E; exfalso; revert E; try done; apply app_cons_not_nil || (rewrite app_nil; by intros []).

(** The last step of a valid walk books its links. *)
Lemma book_links_spec t (st : RouteState) edge slot plan t' ds :
  rs_diags st = [] -> plan_links slot plan (rs_list st) ->
  match rs_list st with
  | [] => Ok (t, rs_diags st ++ [])
  | links =>
      let '(ok, t1) := reserve t links (OwnerEdge (te_id edge)) in
      Ok (t1, rs_diags st ++ when (negb ok) [diag_edge MMAP_INTERNAL_ERROR (te_id edge)])
  end = Ok (t', ds) ->
  extends t t' /\
  (ds = [] -> forall id, id ∈ rs_list st -> slot_of t' id = Some (OwnerEdge (te_id edge))).
Proof.
  intros Hd Hl H.
  assert (Hpos : forall id, id ∈ rs_list st -> 0 <= id) by (intros id; by eapply plan_links_pos).
  rewrite Hd in H. simpl in H. destruct (rs_list st) as [|id ids].
  - simplify_eq. split; [done|]. intros _ id Hid. by apply not_elem_of_nil in Hid.
  - destruct (reserve t (id :: ids) _) as [ok t1] eqn:Er. simplify_eq.
    destruct (reserve_extends _ _ _ _ _ Hpos Er) as [Hext Hown]. split; [done|].
    intros Hok. apply when_cons_nil, negb_false_iff in Hok. auto.
Qed.

Lemma initial_links_agree tile elapsed : links_agree (mkRouteState tile elapsed ∅ [] true []).
Proof.
  split; simpl; [apply NoDup_nil_2|]. intros id. rewrite elem_of_nil. set_solver.
Qed.

Lemma verifyValueTransport_spec t edge d src dst t' ds :
  placed m (te_src edge) src -> placed m (te_dst edge) dst ->
  is_Some (find_node dfg (te_src edge)) -> is_Some (find_node dfg (te_dst edge)) ->
  verifyValueTransport dfg target edge d (unique_placement dfg m) t resources = Ok (t', ds) ->
  extends t t' /\
  (ds = [] -> transport_valid dfg target m edge d /\
     forall plan, md_transport d = Some plan -> exists links,
       plan_links (np_issueSlot src) plan links /\
       forall id, id ∈ links -> slot_of t' id = Some (OwnerEdge (te_id edge))).
Proof.
  intros Hsrc Hdst Hks Hkd H. unfold verifyValueTransport in H.
  assert (Hissue : 0 <= np_issueSlot src).
  { apply placed_elem in Hsrc as [Hin _]. by apply Htyped. }
  rewrite (unique_placement_placed _ _ _ src), (unique_placement_placed _ _ _ dst) in H by done.
  destruct (md_transport d) as [plan|] eqn:Ep; [|by simplify_eq].
  destruct (Z.eqb_spec (tp_edge plan) (te_id edge)) as [Hid|]; simpl in H; [|by simplify_eq].
  case_bool_decide as Hdom; [by simplify_eq|].
  apply bind_Ok in H as (producer & Hprod & H).
  destruct (tn_producerOutputReadyOffset producer) as [ready|] eqn:Eready; [|by simplify_eq].
  assert (Hhop : net_hopLatency (match tp_domain plan with
            | NetPredicate => predicateNetwork target | NetData => dataNetwork target end)
          = net_hopLatency (tm_interconnect target)) by (by destruct (tp_domain plan)).
  rewrite Hhop in H.
  destruct (Z.eqb_spec (net_hopLatency (tm_interconnect target)) 0); [by simplify_eq|].
  apply bind_Ok in H as (st & Hwalk & H).
  destruct (rs_valid st) eqn:Ev; simpl in H.
  2:{ apply route_loop_not_clean in Hwalk; [|done|exact Hissue|done|done].
      simplify_eq. split; [done|]. intros E. by apply app_nil in E as [? _]. }
  apply route_loop_valid in Hwalk as (_ & Hdiag & Hroute & Hag & new & Hlist & Hall & _);
    [|done|exact Hissue|done].
  simpl in *. rewrite enumerate_snd in *. subst new.
  assert (Hlinks : plan_links (np_issueSlot src) plan (rs_list st)).
  { split; [done|]. by apply Hag, initial_links_agree. }
  destruct (_ && _)%bool eqn:Eempty; [reported|].
  case_bool_decide as Hend; [reported|].
  destruct (_ || _)%bool eqn:Esep; [reported|]. bool_hyps.
  apply (book_links_spec t st edge (np_issueSlot src) plan) in H as [Hext Hown]; [|done|done].
  split; [done|]. intros Hds. split; [|intros plan' [= <-]; eauto].
  exists plan, src, dst, producer, ready. split_and!; try done; [|by rewrite <- Hend, <- Esep0].
  intros Hnil. rewrite Hnil in Hroute. inversion Hroute; subst.
  rewrite bool_decide_eq_true_2 in Eempty by done. simpl in Eempty.
  apply bool_decide_eq_false in Eempty. congruence.
Qed.
Lemma verify_edge_spec t edge d src dst t' ds :
  placed m (te_src edge) src -> placed m (te_dst edge) dst ->
  is_Some (find_node dfg (te_src edge)) -> is_Some (find_node dfg (te_dst edge)) ->
  realised m (te_id edge) d ->
  verify_edge dfg target m resources t edge = Ok (t', ds) ->
  extends t t' /\
  (ds = [] -> dependence_valid dfg target m edge d /\ edge_reserved edge t').
Proof.
  intros Hsrc Hdst Hks Hkd Hreal H. unfold verify_edge in H. unfold realised in Hreal.
  rewrite Hreal in H.
  assert (Hu : forall id p, placed m id p -> hasUniquePlacement m id = true).
  { intros id p Hp. unfold hasUniquePlacement. by rewrite Hp. }
  rewrite (Hu _ _ Hsrc), (Hu _ _ Hdst) in H. simpl in H.
  case_bool_decide as Hkind; [reported|]. unfold edge_reserved, realised, placed, dependence_valid.
  rewrite Hreal, Hsrc.
  destruct (te_info edge) eqn:Einfo;
    [| |case_bool_decide as Hnone; [reported|];
        destruct (Z.ltb_spec (md_requiredSeparationCycles d)
                    (memoryDependenceSeparation target dependence)); [reported|];
        destruct (Z.eqb_spec (md_requiredSeparationCycles d)
                    (memoryDependenceSeparation target dependence)); simpl in H; [|reported];
        simplify_eq; apply eq_None_not_Some in Hnone; split; [done|]; intros _;
        split; [done|]; intros d' plan src' [= <-] Hp; congruence].
  all: apply (verifyValueTransport_spec t edge d src dst) in H as [Hext H]; [|done..];
    split; [done|]; intros Hds; destruct (H Hds) as [Hv Hl]; split; [done|];
    intros d' plan src' [= <-] Hp [= <-]; auto.
Qed.
End EdgeSoundness.

(** ** Coverage *)

Section Coverage.
Context (dfg : TargetDFG) (Hinv : TargetDFG_inv dfg) (m : ModuloMapping).

Lemma find_node_known id :
  is_Some (find_node dfg id) <-> exists node, node ∈ td_nodes dfg /\ tn_id node = id.
Proof.
  split.
  - intros [node H]. apply find_if_Some in H as [? ?]. exists node. split; [done|lia].
  - intros (node & Hn & Hid). apply find_if_is_Some. exists node. split; [done|lia].
Qed.

Lemma find_edge_known id :
  is_Some (find_edge dfg id) <-> exists edge, edge ∈ td_edges dfg /\ te_id edge = id.
Proof.
  split.
  - intros [edge H]. apply find_if_Some in H as [? ?]. exists edge. split; [done|lia].
  - intros (edge & He & Hid). apply find_if_is_Some. exists edge. split; [done|lia].
Qed.

Lemma elem_of_node_entries node : node ∈ node_entries dfg <-> node ∈ td_nodes dfg.
Proof. apply elem_of_entries, td_nodes_NoDup, Hinv. Qed.

Lemma elem_of_edge_entries edge : edge ∈ edge_entries dfg <-> edge ∈ td_edges dfg.
Proof. apply elem_of_entries, td_edges_NoDup, Hinv. Qed.

Lemma placed_length id :
  length (placementEntries m id) = 1%nat <-> exists p, placed m id p.
Proof.
  unfold placed.
  destruct (placementEntries m id) as [|p [|]]; simpl; split; try done; try lia; eauto;
    by intros [? ?].
Qed.

Lemma realised_length id :
  length (dependenceEntries m id) = 1%nat <-> exists d, realised m id d.
Proof.
  unfold realised.
  destruct (dependenceEntries m id) as [|d [|]]; simpl; split; try done; try lia; eauto;
    by intros [? ?].
Qed.

(** Every node and edge is covered exactly once, and nothing else is. *)
Definition covered : Prop :=
  (forall p, p ∈ mm_placements m -> exists node, node ∈ td_nodes dfg /\ tn_id node = np_node p) /\
  (forall d, d ∈ mm_dependences m -> exists edge, edge ∈ td_edges dfg /\ te_id edge = md_edge d) /\
  (forall node, node ∈ td_nodes dfg -> exists p, placed m (tn_id node) p) /\
  (forall edge, edge ∈ td_edges dfg -> exists d, realised m (te_id edge) d).

Lemma coverage_diags_nil : coverage_diags dfg m = [] <-> covered.
Proof.
  unfold coverage_diags, covered. rewrite !app_nil_iff, !flat_map_nil_iff.
  setoid_rewrite app_nil_iff. setoid_rewrite when_cons_nil. setoid_rewrite negb_false_iff.
  setoid_rewrite bool_decide_eq_true. setoid_rewrite bool_decide_eq_false.
  setoid_rewrite elem_of_map_keys. setoid_rewrite find_node_known. setoid_rewrite find_edge_known.
  setoid_rewrite elem_of_node_entries. setoid_rewrite elem_of_edge_entries.
  setoid_rewrite placed_length. setoid_rewrite realised_length. split.
  - intros (Hp & Hd & Hn & He). split_and!; [| |done|done].
    + intros p Hin. by apply Hp, list_elem_of_fmap_2.
    + intros d Hin. by apply Hd, list_elem_of_fmap_2.
  - intros (Hp & Hd & Hn & He). split_and!; [| |done|done].
    + intros id Hid. apply list_elem_of_fmap in Hid as (p & -> & Hin).
      destruct (Hp p Hin) as (node & Hnode & <-). split; [eauto|].
      destruct (Hn _ Hnode) as [q Hq]. unfold placed in Hq. rewrite Hq. simpl. lia.
    + intros id Hid. apply list_elem_of_fmap in Hid as (d & -> & Hin).
      destruct (Hd d Hin) as (edge & Hedge & <-). split; [eauto|].
      destruct (He _ Hedge) as [q Hq]. unfold realised in Hq. rewrite Hq. simpl. lia.
Qed.
End Coverage.

(** ** Exclusive ownership *)

Section Exclusive.
Context (resources : ModuloResourceModel) (t : ReservationTable).

(** The table records [who] as the owner of a resource. *)
Definition owned (r : ModuloResource) (who : ReservationOwner) : Prop :=
  exists id, findResource resources r = Ok id /\ slot_of t id = Some who.

Lemma owned_unique r w w' : owned r w -> owned r w' -> w = w'.
Proof. intros (id & H & O) (id' & H' & O'). congruence. Qed.

Lemma found_owned uses ids who r :
  Forall2 (fun r id => findResource resources r = Ok id) uses ids ->
  (forall id, id ∈ ids -> slot_of t id = Some who) -> r ∈ uses -> owned r who.
Proof.
  intros Hall Hown Hr. apply list_elem_of_lookup in Hr as (i & Hi).
  destruct (Forall2_lookup_l _ _ _ _ _ Hall Hi) as (id & Hid & Hf).
  exists id. split; [done|]. apply Hown. by eapply list_elem_of_lookup_2.
Qed.

Lemma found_NoDup uses ids :
  Forall2 (fun r id => findResource resources r = Ok id) uses ids -> NoDup ids -> NoDup uses.
Proof.
  intros Hall Hnd. apply NoDup_alt. intros i j r Hi Hj.
  destruct (Forall2_lookup_l _ _ _ _ _ Hall Hi) as (id & Hid & Hf).
  destruct (Forall2_lookup_l _ _ _ _ _ Hall Hj) as (id' & Hid' & Hf').
  assert (id = id') as <- by congruence. by eapply NoDup_lookup.
Qed.

(** Uses whose identifiers are distinct and belong to their user are distinct
    across users. *)
Lemma owned_uses_NoDup {A} (f : A -> list ModuloResource) (who : A -> ReservationOwner) l :
  NoDup l -> (forall x y, x ∈ l -> y ∈ l -> who x = who y -> x = y) ->
  (forall x, x ∈ l -> exists ids,
     Forall2 (fun r id => findResource resources r = Ok id) (f x) ids /\ NoDup ids /\
     forall id, id ∈ ids -> slot_of t id = Some (who x)) ->
  NoDup (flat_map f l) /\ forall r, r ∈ flat_map f l -> exists x, x ∈ l /\ owned r (who x).
Proof.
  intros Hl Hinj H.
  assert (Hown : forall x r, x ∈ l -> r ∈ f x -> owned r (who x)).
  { intros x r Hx Hr. destruct (H x Hx) as (ids & Hall & _ & Ho). by eapply found_owned. }
  split.
  - apply NoDup_flat_map_disjoint; [done| |].
    + intros x Hx. destruct (H x Hx) as (ids & Hall & Hnd & _). by eapply found_NoDup.
    + intros x x' r Hx Hx' Hr Hr'. apply Hinj; [done..|]. by eapply owned_unique; apply Hown.
  - intros r Hr. apply elem_of_flat_map in Hr as (x & Hx & Hr). eauto.
Qed.
End Exclusive.

Section VerifierSound.
Context (dfg : TargetDFG) (Hinv : TargetDFG_inv dfg) (m : ModuloMapping).
Context (resources : ModuloResourceModel) (Hres : ResourceModel_wf resources)
  (Hii : rm_ii resources = mm_ii m) (Htyped : typed_mapping m).
Local Abbreviation target := (rm_target resources).
Local Abbreviation slot_of_cycle := (fun cycle => cycle mod mm_ii m).

Lemma node_uses_found node p fp :
  placed m (tn_id node) p -> 0 <= np_issueSlot p ->
  operationFootprint resources node (np_tile p) (np_issueSlot p) = Ok fp ->
  Forall2 (fun r id => findResource resources r = Ok id)
    (map_slot slot_of_cycle <$> node_occurrences target m (issue_slot m) node) fp /\ NoDup fp.
Proof.
  intros Hp Hs H. apply operationFootprint_Ok in H as (op & Hop & _ & _ & [Hall Hnd]); [|done|done].
  split; [|done]. unfold node_occurrences, issue_slot. rewrite Hp, Hop.
  rewrite <- list_fmap_compose, Forall2_fmap_l. eapply Forall2_impl; [exact Hall|].
  intros o id. simpl. rewrite Hp, <- Hii. by destruct (op_executionClass op).
Qed.

Lemma edge_uses_found edge d plan src links :
  realised m (te_id edge) d -> md_transport d = Some plan -> placed m (te_src edge) src ->
  plan_links resources (np_issueSlot src) plan links ->
  Forall2 (fun r id => findResource resources r = Ok id)
    (map_slot slot_of_cycle <$> edge_occurrences m (issue_slot m) edge) links /\ NoDup links.
Proof.
  intros Hd Hp Hsrc [Hall Hnd]. split; [|done]. unfold edge_occurrences, issue_slot.
  rewrite Hd, Hp, Hsrc. by rewrite Hii in Hall.
Qed.

Lemma exclusive_uses (t : ReservationTable) :
  (forall node, node ∈ td_nodes dfg -> (exists p, placed m (tn_id node) p) /\
     node_reserved m resources node t) ->
  (forall edge, edge ∈ td_edges dfg -> (exists d, realised m (te_id edge) d) /\
     (exists p, placed m (te_src edge) p) /\ edge_reserved m resources edge t) ->
  NoDup (map_slot slot_of_cycle <$> occurrences dfg target m (issue_slot m)).
Proof.
  intros Hnodes Hedges. unfold occurrences. rewrite fmap_app, !fmap_flat_map.
  destruct (owned_uses_NoDup resources t
    (fun node => map_slot slot_of_cycle <$> node_occurrences target m (issue_slot m) node)
    (fun node => OwnerNode (tn_id node)) (td_nodes dfg)) as [Hn Hno].
  { eapply NoDup_of_key, td_nodes_NoDup, Hinv. }
  { intros x y Hx Hy [= E]. by apply (node_unique dfg Hinv). }
  { intros node Hnode. destruct (Hnodes node Hnode) as [[p Hp] Hr].
    destruct (Hr p Hp) as (fp & Hfp & Hown). exists fp.
    apply (node_uses_found node p) in Hfp as [? ?]; [auto|done|].
    apply placed_elem in Hp as [Hp _]. by apply Htyped. }
  destruct (owned_uses_NoDup resources t
    (fun edge => map_slot slot_of_cycle <$> edge_occurrences m (issue_slot m) edge)
    (fun edge => OwnerEdge (te_id edge)) (td_edges dfg)) as [He Heo].
  { eapply NoDup_of_key, td_edges_NoDup, Hinv. }
  { intros x y Hx Hy [= E]. by apply (edge_unique dfg Hinv). }
  { intros edge Hedge. destruct (Hedges edge Hedge) as ([d Hd] & [p Hp] & Hr).
    destruct (md_transport d) as [plan|] eqn:Ep.
    - destruct (Hr d plan p Hd Ep Hp) as (links & Hl & Hown). exists links.
      destruct (edge_uses_found edge d plan p links Hd Ep Hp Hl). auto.
    - exists []. unfold edge_occurrences. rewrite Hd, Ep. simpl.
      split; [constructor|]. split; [apply NoDup_nil_2|]. intros id Hid.
      by apply not_elem_of_nil in Hid. }
  apply NoDup_app. split; [done|]. split; [|done].
  intros r H1 H2. apply Hno in H1 as (node & _ & O1). apply Heo in H2 as (edge & _ & O2).
  by pose proof (owned_unique _ _ _ _ _ O1 O2).
Qed.
Lemma endpoints_placed edge :
  covered dfg m -> edge ∈ td_edges dfg ->
  exists src dst, placed m (te_src edge) src /\ placed m (te_dst edge) dst /\
    is_Some (find_node dfg (te_src edge)) /\ is_Some (find_node dfg (te_dst edge)).
Proof.
  intros (_ & _ & Hcn & _) Hedge. destruct (inv_endpoints dfg Hinv edge Hedge) as [Hs Hd].
  apply (find_node_of_index dfg Hinv) in Hs, Hd.
  pose proof Hs as (ns & Hns & Es)%find_node_known. pose proof Hd as (nd & Hnd & Ed)%find_node_known.
  destruct (Hcn ns Hns) as [ps Hps]. destruct (Hcn nd Hnd) as [pd Hpd].
  rewrite Es in Hps. rewrite Ed in Hpd. eauto 10.
Qed.

Lemma verified_nodes t t' :
  verify_all (verify_node dfg target m resources) t (node_entries dfg) = Ok (t', []) ->
  forall node, node ∈ td_nodes dfg ->
    node_reserved m resources node t' /\
    forall p, placed m (tn_id node) p -> placement_valid target m node p.
Proof.
  intros H node Hnode.
  eapply (verify_all_clean (fun node => node ∈ td_nodes dfg)
    (verify_node dfg target m resources)) with (x := node)
    (Post := fun node t => node_reserved m resources node t /\
      forall p, placed m (tn_id node) p -> placement_valid target m node p) in H; [done| | | | |].
  - intros t1 x t2 ds Hx Hv. by eapply verify_node_spec in Hv as [? _].
  - intros x t1 t2 Hext [Hr Hv]. split; [|done]. by eapply node_reserved_mono.
  - intros x t1 t2 Hx Hv. eapply verify_node_spec in Hv as [_ Hv]; [by apply Hv|done..].
  - intros x. by apply elem_of_node_entries.
  - by apply elem_of_node_entries.
Qed.

Lemma verified_edges t t' :
  covered dfg m ->
  verify_all (verify_edge dfg target m resources) t (edge_entries dfg) = Ok (t', []) ->
  extends t t' /\ forall edge, edge ∈ td_edges dfg ->
    edge_reserved m resources edge t' /\
    forall d, realised m (te_id edge) d -> dependence_valid dfg target m edge d.
Proof.
  intros Hcov H.
  assert (Hspec : forall t1 x t2 ds, x ∈ td_edges dfg ->
    verify_edge dfg target m resources t1 x = Ok (t2, ds) -> extends t1 t2 /\
    (ds = [] -> edge_reserved m resources x t2 /\
       forall d, realised m (te_id x) d -> dependence_valid dfg target m x d)).
  { intros t1 x t2 ds Hx Hv. destruct (endpoints_placed x Hcov Hx) as (src & dst & ? & ? & ? & ?).
    destruct Hcov as (_ & _ & _ & Hce). destruct (Hce x Hx) as [d Hreal].
    eapply verify_edge_spec in Hv as [Hext Hv]; [|done..]. split; [done|].
    intros Hds. destruct (Hv Hds) as [Hdv Her]. split; [done|]. intros d' Hd'.
    unfold realised in *. rewrite Hreal in Hd'. by injection Hd' as <-. }
  assert (Hmem : forall x, x ∈ edge_entries dfg -> x ∈ td_edges dfg)
    by (intros x; by apply elem_of_edge_entries).
  split.
  - eapply (verify_all_extends (fun x => x ∈ td_edges dfg)); [|done|done].
    intros. by eapply Hspec.
  - intros edge Hedge.
    eapply (verify_all_clean (fun x => x ∈ td_edges dfg)
      (verify_edge dfg target m resources)) with (x := edge)
      (Post := fun x t => edge_reserved m resources x t /\
        forall d, realised m (te_id x) d -> dependence_valid dfg target m x d) in H; [done| | | | |].
    + intros. by eapply Hspec.
    + intros x t1 t2 Hext [Hr Hv]. split; [|done]. by eapply edge_reserved_mono.
    + intros x t1 t2 Hx Hv. by apply Hspec in Hv as [_ Hv]; [apply Hv|].
    + done.
    + by apply elem_of_edge_entries.
Qed.
End VerifierSound.

(** A contract whose resource universe fits 32-bit identifiers at this II. *)
Definition universe_fits (target : TargetModel) (ii : Z) : Prop :=
  Z.of_nat (length (resourceSequence target ii)) <= u32_max + 1.

Lemma mmv_verify_sound dfg target m :
  TargetModel_wf target -> TargetDFG_inv dfg -> typed_mapping m ->
  universe_fits target (mm_ii m) ->
  mmv_verify dfg target m = Ok [] -> valid_mapping dfg target m.
Proof.
  intros Htwf Hinv Htyped Hfits H. unfold mmv_verify in H.
  apply bind_Ok in H as (report & Hreport & H).
  destruct (decide (report = [])) as [->|Hne]; [|by rewrite bool_decide_eq_true_2 in H].
  simpl in H. destruct (String.eqb_spec (td_targetName dfg) (tm_name target)); [|done].
  simpl in H. destruct (Z.eqb_spec (mm_ii m) 0); [done|].
  destruct (String.eqb_spec (mm_targetName m) (tm_name target)); [|done]. simpl in H.
  pose proof (proj1 Htyped) as Hu32.
  destruct (makeResourceModel_spec target (mm_ii m) Htwf) as (resources & Hm & Hres & Ht & Hii);
    [unfold is_u32 in Hu32; lia|exact Hfits|].
  rewrite Hm in H. simpl in H. subst target.
  apply bind_Ok in H as ([t1 nd] & Hn & H). apply bind_Ok in H as ([t2 ed] & He & H).
  injection H as H. apply app_nil in H as [Hcov H]. apply app_nil in H as [-> ->].
  apply coverage_diags_nil in Hcov as (Hp & Hd & Hcn & Hce); [|done].
  apply tdfg_verify_clean in Hreport; [|done].
  destruct (verified_edges dfg Hinv m resources Hres Hii Htyped t1 t2) as [Hext Hedges]; [by split_and!|done|].
  pose proof (verified_nodes dfg Hinv m resources Hres Hii Htyped _ _ Hn) as Hnodes.
  split; try done.
  - intros node Hnode. destruct (Hcn node Hnode) as [p Hpl]. exists p. split; [done|].
    by apply Hnodes.
  - intros edge Hedge. destruct (Hce edge Hedge) as [d Hreal]. exists d. split; [done|].
    by apply Hedges.
  - apply (exclusive_uses dfg Hinv m resources Hres Hii Htyped t2).
    + intros node Hnode. split; [by apply Hcn|]. eapply node_reserved_mono; [done..|].
      by apply Hnodes.
    + intros edge Hedge. split; [by apply Hce|]. split; [|by apply Hedges].
      destruct (endpoints_placed dfg Hinv m edge) as (src & dst & ? & _); [by split_and!|done|].
      by exists src.
Qed.

(** ** Completeness: every valid mapping passes *)

Section UsedOnly.
Context (resources : ModuloResourceModel) (Hres : ResourceModel_wf resources).

(** The table owns nothing but the given uses. *)
Definition only_uses (t : ReservationTable) (used : list ModuloResource) : Prop :=
  length t = length (rm_resources resources) /\
  forall id, 0 <= id -> slot_of t id <> None ->
    exists r, r ∈ used /\ findResource resources r = Ok id.

Lemma only_uses_free t used new ids :
  only_uses t used -> NoDup (used ++ new) ->
  Forall2 (fun r id => findResource resources r = Ok id) new ids ->
  NoDup ids /\ forall id, id ∈ ids ->
    0 <= id < Z.of_nat (length t) /\ slot_of t id = None.
Proof.
  intros [Hlen Ht] Hnd Hall. apply NoDup_app in Hnd as (_ & Hdisj & Hnew). split.
  - apply NoDup_alt. intros i j id Hi Hj.
    destruct (Forall2_lookup_r _ _ _ _ _ Hall Hi) as (r & Hr & Hf).
    destruct (Forall2_lookup_r _ _ _ _ _ Hall Hj) as (r' & Hr' & Hf').
    assert (r = r') as <- by (by eapply findResource_inj). by eapply NoDup_lookup.
  - intros id Hid. apply list_elem_of_lookup in Hid as (i & Hi).
    destruct (Forall2_lookup_r _ _ _ _ _ Hall Hi) as (r & Hr & Hf).
    pose proof Hf as [H0 Hl]%(findResource_Ok _ Hres). apply lookup_lt_Some in Hl.
    split; [lia|]. destruct (slot_of t id) eqn:E; [exfalso|done].
    destruct (Ht id H0) as (r' & Hr' & Hf'); [congruence|].
    assert (r = r') as <- by (by eapply findResource_inj).
    eapply Hdisj; [exact Hr'|by eapply list_elem_of_lookup_2].
Qed.

Lemma only_uses_reserve t used new ids who :
  only_uses t used -> NoDup (used ++ new) ->
  Forall2 (fun r id => findResource resources r = Ok id) new ids ->
  canReserve t ids = true /\
  exists t', reserve t ids who = (true, t') /\ only_uses t' (used ++ new).
Proof.
  intros Hu Hnd Hall. destruct (only_uses_free _ _ _ _ Hu Hnd Hall) as [Hids Hfree].
  assert (Hcan : canReserve t ids = true).
  { apply canReserve_true. split; [done|]. intros id Hid. destruct (Hfree id Hid). lia || auto.
    split; [lia|done]. }
  split; [done|]. unfold reserve. rewrite Hcan. simpl. eexists. split; [done|].
  destruct Hu as [Hlen Ht]. split; [by rewrite foldl_set_owner_length|].
  intros id H0 Hs. rewrite foldl_set_owner_slot in Hs; [|done|intros i Hi; by apply Hfree].
  case_decide as Hin.
  - apply list_elem_of_lookup in Hin as (i & Hi).
    destruct (Forall2_lookup_r _ _ _ _ _ Hall Hi) as (r & Hr & Hf).
    exists r. split; [|done]. apply elem_of_app. right. by eapply list_elem_of_lookup_2.
  - destruct (Ht id H0 Hs) as (r & Hr & Hf). exists r. split; [|done]. apply elem_of_app. auto.
Qed.

Lemma verify_all_complete {A} (P : A -> Prop) (uses : A -> list ModuloResource)
    (step : ReservationTable -> A -> result (ReservationTable * list MappingDiagnostic)) :
  (forall t x used, P x -> only_uses t used -> NoDup (used ++ uses x) ->
     exists t', step t x = Ok (t', []) /\ only_uses t' (used ++ uses x)) ->
  forall l t used, (forall x, x ∈ l -> P x) -> only_uses t used ->
    NoDup (used ++ flat_map uses l) ->
    exists t', verify_all step t l = Ok (t', []) /\ only_uses t' (used ++ flat_map uses l).
Proof.
  intros Hstep l. induction l as [|x l IH]; simpl; intros t used Hl Hu Hnd.
  { rewrite app_nil_r. eauto. }
  rewrite app_assoc in Hnd |- *.
  destruct (Hstep t x used) as (t1 & H1 & Hu1); [apply Hl; left|done|by apply NoDup_app in Hnd as [? _]|].
  rewrite H1. simpl.
  destruct (IH t1 (used ++ uses x)) as (t2 & H2 & Hu2); [intros y Hy; apply Hl; by right|done|done|].
  rewrite H2. simpl. eauto.
Qed.

Lemma only_uses_empty : only_uses (makeReservationTable resources) [].
Proof.
  unfold makeReservationTable. split; [by rewrite length_replicate|].
  intros id _ H. exfalso. apply H. unfold slot_of.
  destruct (replicate _ _ !! nat_of id) as [o|] eqn:E; [|done].
  by apply lookup_replicate in E as [-> _].
Qed.
End UsedOnly.

(** A walk along a route whose links are free completes without a diagnostic. *)
Section RouteCompleteness.
Context (resources : ModuloResourceModel) (Hres : ResourceModel_wf resources).
Context (t : ReservationTable) (edge : TargetEdge) (plan : TransportPlan)
  (issue ready : Z) (Hissue : 0 <= issue < rm_ii resources).
Local Abbreviation target := (rm_target resources).
Local Abbreviation ii := (rm_ii resources).
Local Abbreviation hop := (net_hopLatency (tm_interconnect target)).
Local Abbreviation inside := (tile_inside (arr_rows (tm_array target)) (arr_cols (tm_array target))).
Local Abbreviation link_ids actions ids :=
  (Forall2 (fun r id => findResource resources r = Ok id)
     (map_slot (fun cycle => cycle mod ii) <$> link_occurrences issue actions) ids).

Lemma link_action_accepts st index direction next id :
  ready <= rs_elapsed st -> link_exists target (rs_tile st) direction next ->
  findResource resources
    (LinkResource (tp_domain plan) (rs_tile st) direction ((issue + rs_elapsed st) mod ii)) = Ok id ->
  id ∉ rs_resources st -> id < Z.of_nat (length t) -> slot_of t id = None ->
  link_action target resources t edge plan issue ready hop st index (rs_tile st) direction
    (rs_elapsed st) =
  Ok (mkRouteState next (rs_elapsed st + hop) ({[id]} ∪ rs_resources st) (rs_list st ++ [id])
        (rs_valid st) (rs_diags st)).
Proof.
  intros Hready [_ Hn] Hid Hnew Hlt Hfree. unfold link_action.
  replace (rs_elapsed st <? ready) with false by lia. rewrite andb_false_r.
  replace (rs_elapsed st <? rs_elapsed st) with false by lia.
  rewrite bool_decide_eq_false_2 by naive_solver.
  rewrite advance_spec by (try apply Hres; done). simpl.
  assert (Hl : linkResource resources (tp_domain plan) (rs_tile st) direction
                 ((issue + rs_elapsed st) mod ii) = Ok (Some id)).
  { apply linkResource_Ok. split; [apply Z.mod_pos_bound; lia|]. split; [|done].
    by rewrite Hn. }
  rewrite Hl. simpl. rewrite Hn. rewrite bool_decide_eq_false_2 by done.
  unfold isFree, in_table. replace (id <? _) with true by lia. simpl.
  by rewrite bool_decide_eq_true_2.
Qed.

Lemma route_walks tile elapsed actions tile' elapsed' :
  route target hop (tp_domain plan) tile elapsed actions tile' elapsed' ->
  forall st k ids, rs_tile st = tile -> rs_elapsed st = elapsed -> inside tile ->
  ready <= elapsed -> rs_valid st = true -> rs_diags st = [] ->
  link_ids actions ids -> NoDup ids ->
  (forall id, id ∈ ids -> id ∉ rs_resources st /\ id < Z.of_nat (length t) /\ slot_of t id = None) ->
  exists st', route_loop target resources t edge plan issue ready hop st
                (imap (fun i x => (k + Z.of_nat i, x)) actions) = Ok st' /\
    rs_valid st' = true /\ rs_diags st' = [] /\ rs_tile st' = tile' /\ rs_elapsed st' = elapsed' /\
    rs_list st' = rs_list st ++ ids.
Proof.
  assert (Hshift : forall k (l : list TransportAction),
    imap ((fun i x => (k + Z.of_nat i, x)) ∘ S) l = imap (fun i x => (k + 1 + Z.of_nat i, x)) l).
  { intros k l. apply imap_ext. intros i x _. simpl. f_equal. lia. }
  induction 1 as [tile elapsed|tile elapsed direction next actions tile' elapsed' Hlink Hroute IH
                 |tile elapsed release actions tile' elapsed' Hlt Hroute IH];
    intros st k ids Ht He Hin Hready Hv Hd Hids Hnd Hfree.
  - simpl in Hids. inversion Hids; subst. exists st. rewrite app_nil_r. done.
  - simpl in Hids. apply Forall2_cons_inv_l in Hids as (id & ids' & Hid & Hids & ->).
    apply NoDup_cons in Hnd as [Hnotin Hnd]. subst tile elapsed.
    destruct (Hfree id ltac:(left)) as (Hf1 & Hf2 & Hf3).
    rewrite imap_cons, Hshift. cbn [route_loop]. unfold route_action.
    cbn [action_domain]. rewrite bool_decide_eq_false_2 by naive_solver.
    rewrite (link_action_accepts st _ _ next id) by done. simpl.
    pose proof (wf_hopLatency _ (rmwf_target _ Hres)) as Hhop.
    destruct (IH (mkRouteState next (rs_elapsed st + hop) ({[id]} ∪ rs_resources st)
      (rs_list st ++ [id]) (rs_valid st) (rs_diags st)) (k + 1) ids') as (st' & Hst' & Hr);
      try done; simpl; try lia.
    + destruct Hlink as [_ Hn]. pose proof (rmwf_target _ Hres) as Hw.
      apply neighbor_Some in Hn as [-> ?]; [done|apply Hw|apply Hw|done].
    + intros i Hi. destruct (Hfree i ltac:(by right)) as (? & ? & ?). split_and!; try done.
      set_solver.
    + exists st'. split; [done|]. simpl in Hr. rewrite <- app_assoc in Hr. done.
  - subst tile elapsed. rewrite imap_cons, Hshift. cbn [route_loop]. unfold route_action.
    cbn [action_domain]. rewrite bool_decide_eq_false_2 by naive_solver. simpl.
    unfold hold_action. rewrite bool_decide_eq_false_2 by naive_solver.
    replace (rs_elapsed st <? rs_elapsed st) with false by lia.
    replace (release <=? rs_elapsed st) with false by lia.
    by apply (IH (mkRouteState _ _ _ _ _ _)); simpl; try done; lia.
Qed.
Lemma transport_accepted dfg d placements src dst producer ids :
  md_transport d = Some plan -> tp_edge plan = te_id edge ->
  tp_domain plan = expectedDomain (TargetEdge_kind edge) ->
  md_requiredSeparationCycles d = tp_requiredSeparationCycles plan ->
  placements (te_src edge) = Some src -> placements (te_dst edge) = Some dst ->
  td_node dfg (te_src edge) = Ok producer -> tn_producerOutputReadyOffset producer = Some ready ->
  np_issueSlot src = issue -> inside (np_tile src) -> tp_actions plan <> [] ->
  route target hop (tp_domain plan) (np_tile src) ready (tp_actions plan) (np_tile dst)
    (tp_requiredSeparationCycles plan) ->
  link_ids (tp_actions plan) ids -> NoDup ids ->
  (forall id, id ∈ ids -> id < Z.of_nat (length t) /\ slot_of t id = None) ->
  verifyValueTransport dfg target edge d placements t resources =
    Ok ((reserve t ids (OwnerEdge (te_id edge))).2, []).
Proof.
  intros Hp Hid Hdom Hsep Hsrc Hdst Hprod Hready Eissue Hinside Hne Hroute Hids Hnd Hfree.
  unfold verifyValueTransport. rewrite Hp, Hid, Z.eqb_refl. simpl.
  rewrite bool_decide_eq_false_2 by naive_solver. rewrite Hsrc, Hdst, Hprod. simpl. rewrite Hready, Eissue.
  assert (net_hopLatency (match tp_domain plan with
            | NetPredicate => predicateNetwork target | NetData => dataNetwork target end)
          = net_hopLatency (tm_interconnect target)) as -> by (by destruct (tp_domain plan)).
  pose proof (wf_hopLatency _ (rmwf_target _ Hres)) as Hhop.
  replace (net_hopLatency (tm_interconnect target) =? 0) with false by lia.
  destruct (route_walks _ _ _ _ _ Hroute (mkRouteState (np_tile src) ready ∅ [] true []) 0 ids)
    as (st & Hst & Hv & Hd & Ht & He & Hl); try done; [|].
  { intros i Hi. destruct (Hfree i Hi) as [? ?]. split_and!; [set_solver|lia|done]. }
  change (enumerate (tp_actions plan))
    with (imap (fun i x => (0 + Z.of_nat i, x)) (tp_actions plan)).
  rewrite Hst. simpl. rewrite Hv, Hd, Ht, He, Hl. simpl.
  rewrite (bool_decide_eq_false_2 (tp_actions plan = [])) by done. simpl.
  rewrite bool_decide_eq_false_2 by naive_solver. rewrite Hsep, !Z.eqb_refl. simpl.
  unfold reserve. pose proof (proj2 (canReserve_true t ids) (conj Hnd Hfree)) as Hcan. rewrite Hcan.
  destruct ids; [done|]. by rewrite Hcan.
Qed.
End RouteCompleteness.

(** Every link of a route inside the mesh is a resource of the universe. *)
Lemma route_uses_exist resources domain issue tile elapsed actions tile' elapsed' :
  ResourceModel_wf resources ->
  route (rm_target resources) (net_hopLatency (tm_interconnect (rm_target resources))) domain
    tile elapsed actions tile' elapsed' ->
  tile_inside (arr_rows (tm_array (rm_target resources)))
    (arr_cols (tm_array (rm_target resources))) tile ->
  exists ids, Forall2 (fun r id => findResource resources r = Ok id)
    (map_slot (fun cycle => cycle mod rm_ii resources) <$> link_occurrences issue actions) ids.
Proof.
  intros Hres. induction 1 as [|tile elapsed direction next actions tile' elapsed' [Htop Hn] _ IH
                              |tile elapsed release actions tile' elapsed' _ _ IH]; intros Hin.
  - by exists [].
  - pose proof (rmwf_target _ Hres) as Hw. pose proof (rmwf_ii _ Hres) as Hi.
    destruct IH as [ids Hids].
    { pose proof Hn as Hn'. apply neighbor_Some in Hn' as [-> ?]; [done|apply Hw|apply Hw|done]. }
    assert (resource_exists (rm_target resources) (rm_ii resources)
      (LinkResource domain tile direction ((issue + elapsed) mod rm_ii resources))) as Hex.
    { split; [done|]. split; [apply Z.mod_pos_bound; lia|]. split; [done|]. by rewrite Hn. }
    apply (findResource_exists _ Hres) in Hex as [id Hid]. exists (id :: ids). by constructor.
  - by apply IH.
Qed.

Section VerifierComplete.
Context (dfg : TargetDFG) (Hinv : TargetDFG_inv dfg) (m : ModuloMapping).
Context (resources : ModuloResourceModel) (Hres : ResourceModel_wf resources)
  (Hii : rm_ii resources = mm_ii m) (Htyped : typed_mapping m).
Local Abbreviation target := (rm_target resources).
Local Abbreviation slot_of_cycle := (fun cycle => cycle mod mm_ii m).
Context (Hvalid : valid_mapping dfg target m).

Definition node_uses (node : TargetNode) : list ModuloResource :=
  map_slot slot_of_cycle <$> node_occurrences target m (issue_slot m) node.

Definition edge_uses (edge : TargetEdge) : list ModuloResource :=
  map_slot slot_of_cycle <$> edge_occurrences m (issue_slot m) edge.

Lemma verify_node_complete t node used :
  node ∈ td_nodes dfg -> only_uses resources t used -> NoDup (used ++ node_uses node) ->
  exists t', verify_node dfg target m resources t node = Ok (t', []) /\
    only_uses resources t' (used ++ node_uses node).
Proof.
  intros Hnode Hu Hnd. destruct (vm_nodes _ _ _ Hvalid node Hnode) as (p & Hp & Hpv).
  destruct Hpv as ([Hrow Hcol] & Hslot & op & Hop & Hsup & Hocc).
  pose proof (placed_elem _ _ _ Hp) as [Hin _]. destruct (proj2 Htyped p Hin) as (_ & _ & Hs).
  assert (Hsupp : supportsOperation resources (np_tile p) node = true).
  { unfold supportsOperation. replace (_ || _)%bool with false by lia. by rewrite Hop. }
  destruct (operationFootprint_complete _ Hres node (np_tile p) (np_issueSlot p) op)
    as [fp Hfp]; [lia|lia|lia|done|done|lia|].
  destruct (node_uses_found m resources Hres Hii node p fp Hp Hs Hfp) as [Hall _].
  destruct (only_uses_reserve resources Hres t used (node_uses node) fp
              (OwnerNode (tn_id node)) Hu Hnd Hall) as (Hcan & t' & Hr & Hu').
  exists t'. split; [|done]. unfold verify_node.
  rewrite (unique_placement_placed _ _ _ p) by (try done; apply find_node_known; eauto).
  replace (_ || _)%bool with false by lia.
  replace (mm_ii m <=? np_issueSlot p) with false by lia. rewrite Hsupp. simpl.
  unfold reserve_node. rewrite Hfp. simpl. rewrite Hcan. simpl. by rewrite Hr.
Qed.

Lemma verifyValueTransport_complete t edge d used :
  edge ∈ td_edges dfg -> realised m (te_id edge) d -> transport_valid dfg target m edge d ->
  only_uses resources t used -> NoDup (used ++ edge_uses edge) ->
  exists t', verifyValueTransport dfg target edge d (unique_placement dfg m) t resources
               = Ok (t', []) /\ only_uses resources t' (used ++ edge_uses edge).
Proof.
  intros Hedge Hreal Htv Hu Hnd.
  destruct Htv as (plan & src & dst & producer & ready & Hp & Hid & Hdom & Hsep & Hsrc & Hdst &
                   Hprod & Hready & Hne & Hroute).
  destruct (inv_endpoints dfg Hinv edge Hedge) as [Hks Hkd].
  apply (find_node_of_index dfg Hinv) in Hks, Hkd.
  pose proof Hks as (sn & Hsn & Esn)%find_node_known.
  destruct (vm_nodes _ _ _ Hvalid sn Hsn) as (src' & Hsrc' & Hinside & Hslot & _).
  assert (src' = src) as -> by (unfold placed in *; rewrite Esn in Hsrc'; congruence).
  pose proof (placed_elem _ _ _ Hsrc) as [Hin _]. destruct (proj2 Htyped src Hin) as (_ & _ & Hs).
  assert (Huses : edge_uses edge = map_slot slot_of_cycle <$>
                    link_occurrences (np_issueSlot src) (tp_actions plan)).
  { unfold edge_uses, edge_occurrences, issue_slot. by rewrite Hreal, Hp, Hsrc. }
  destruct (route_uses_exist resources (tp_domain plan) (np_issueSlot src) _ _ _ _ _ Hres Hroute
    Hinside) as [ids Hids].
  rewrite Huses, <- Hii in *.
  destruct (only_uses_free resources Hres _ _ _ _ Hu Hnd Hids) as [Hnd' Hfree].
  destruct (only_uses_reserve resources Hres t used _ ids (OwnerEdge (te_id edge)) Hu Hnd Hids)
    as (_ & t' & Hr & Hu').
  exists t'. split; [|done].
  rewrite (transport_accepted resources Hres t edge plan (np_issueSlot src) ready ltac:(lia)
    dfg d _ src dst producer ids); try done; [by rewrite Hr|..].
  - by apply unique_placement_placed.
  - by apply unique_placement_placed.
  - intros id Hi. destruct (Hfree id Hi) as [? ?]. split; [lia|done].
Qed.

Lemma verify_edge_complete t edge used :
  edge ∈ td_edges dfg -> only_uses resources t used -> NoDup (used ++ edge_uses edge) ->
  exists t', verify_edge dfg target m resources t edge = Ok (t', []) /\
    only_uses resources t' (used ++ edge_uses edge).
Proof.
  intros Hedge Hu Hnd. destruct (vm_edges _ _ _ Hvalid edge Hedge) as (d & Hreal & Hkind & Hdv).
  assert (Hends : forall id, is_Some (find_node dfg id) -> hasUniquePlacement m id = true).
  { intros id (node & Hnode & <-)%find_node_known.
    destruct (vm_nodes _ _ _ Hvalid node Hnode) as (p & Hp & _).
    unfold hasUniquePlacement. by rewrite Hp. }
  destruct (inv_endpoints dfg Hinv edge Hedge) as [Hks Hkd].
  apply (find_node_of_index dfg Hinv) in Hks, Hkd. unfold verify_edge. rewrite Hreal.
  rewrite bool_decide_eq_false_2 by naive_solver. rewrite (Hends _ Hks), (Hends _ Hkd). simpl.
  destruct (te_info edge); [by apply verifyValueTransport_complete|
                            by apply verifyValueTransport_complete|].
  destruct Hdv as [Hnone Hsep]. rewrite Hnone, Hsep, Z.ltb_irrefl, Z.eqb_refl. simpl.
  exists t. split; [done|]. unfold edge_uses, edge_occurrences. by rewrite Hreal, Hnone, app_nil_r.
Qed.
End VerifierComplete.

Lemma node_entries_perm dfg : TargetDFG_inv dfg -> node_entries dfg ≡ₚ td_nodes dfg.
Proof.
  intros Hinv. apply NoDup_Permutation.
  - eapply NoDup_of_key, (entries_NoDup tn_id), td_nodes_NoDup, Hinv.
  - eapply NoDup_of_key, td_nodes_NoDup, Hinv.
  - intros x. by apply elem_of_node_entries.
Qed.

Lemma edge_entries_perm dfg : TargetDFG_inv dfg -> edge_entries dfg ≡ₚ td_edges dfg.
Proof.
  intros Hinv. apply NoDup_Permutation.
  - eapply NoDup_of_key, (entries_NoDup te_id), td_edges_NoDup, Hinv.
  - eapply NoDup_of_key, td_edges_NoDup, Hinv.
  - intros x. by apply elem_of_edge_entries.
Qed.

Lemma mmv_verify_complete dfg target m :
  TargetModel_wf target -> TargetDFG_inv dfg -> typed_mapping m ->
  universe_fits target (mm_ii m) ->
  valid_mapping dfg target m -> mmv_verify dfg target m = Ok [].
Proof.
  intros Htwf Hinv Htyped Hfits Hvalid. unfold mmv_verify.
  rewrite (proj2 (tdfg_verify_clean dfg target None Hinv)) by apply Hvalid. simpl.
  destruct (vm_target _ _ _ Hvalid) as [-> ->]. rewrite String.eqb_refl. simpl.
  pose proof (vm_ii _ _ _ Hvalid) as Hii0. pose proof (proj1 Htyped) as Hu32.
  replace (mm_ii m =? 0) with false by lia.
  destruct (makeResourceModel_spec target (mm_ii m) Htwf) as (resources & Hm & Hres & Ht & Hii);
    [unfold is_u32 in Hu32; lia|exact Hfits|].
  rewrite Hm. simpl. subst target.
  pose proof (vm_exclusive _ _ _ Hvalid) as Hnd. unfold occurrences in Hnd.
  rewrite fmap_app, !fmap_flat_map in Hnd.
  rewrite <- (node_entries_perm dfg Hinv), <- (edge_entries_perm dfg Hinv) in Hnd.
  destruct (verify_all_complete resources (fun node => node ∈ td_nodes dfg)
    (node_uses m resources) (verify_node dfg (rm_target resources) m resources))
    with (l := node_entries dfg) (t := makeReservationTable resources)
      (used := @nil ModuloResource) as (t1 & Hn & Hu1).
  { intros. by apply verify_node_complete. }
  { intros x. by apply elem_of_node_entries. }
  { apply only_uses_empty. }
  { by apply NoDup_app in Hnd as [? _]. }
  destruct (verify_all_complete resources (fun edge => edge ∈ td_edges dfg)
    (edge_uses m) (verify_edge dfg (rm_target resources) m resources))
    with (l := edge_entries dfg) (t := t1)
      (used := [] ++ flat_map (node_uses m resources) (node_entries dfg)) as (t2 & He & _);
    [intros; by apply verify_edge_complete|intros x; by apply elem_of_edge_entries|done|done|].
  rewrite Hn. simpl. rewrite He. simpl. rewrite app_nil_r. f_equal.
  apply (coverage_diags_nil dfg Hinv m). split_and!; try apply Hvalid.
  - intros node Hnode. destruct (vm_nodes _ _ _ Hvalid node Hnode) as (p & ? & _). eauto.
  - intros edge Hedge. destruct (vm_edges _ _ _ Hvalid edge Hedge) as (d & ? & _). eauto.
Qed.

(** ** The steady state *)

Section SteadyState.
Context (dfg : TargetDFG) (target : TargetModel) (m : ModuloMapping).

Lemma map_slot_exec f c tile s : map_slot f (exec_resource c tile s) = exec_resource c tile (f s).
Proof. by destruct c. Qed.

Lemma fmap_flat_map_ext {A B} (h h' : B -> B) (f f' : A -> list B) l :
  (forall x, x ∈ l -> h <$> f x = h' <$> f' x) -> h <$> flat_map f l = h' <$> flat_map f' l.
Proof.
  induction l as [|x l IH]; simpl; intros H; [done|].
  rewrite !fmap_app. f_equal; [apply H; left|]. apply IH. intros y Hy. apply H. by right.
Qed.

(** Occurrences depend on the issue times alone, and pointwise. *)
Lemma occurrences_map f g time time' :
  (forall id o, f (time id + o) = g (time' id + o)) ->
  map_slot f <$> occurrences dfg target m time = map_slot g <$> occurrences dfg target m time'.
Proof.
  intros H. unfold occurrences. rewrite !fmap_app. f_equal; apply fmap_flat_map_ext.
  - intros node _. unfold node_occurrences.
    destruct (placementEntries m (tn_id node)) as [|p [|]]; try done.
    destruct (findOperation target (tn_operation node)) as [op|]; [|done].
    rewrite <- !list_fmap_compose. apply list_fmap_ext. intros _ o _. simpl.
    by rewrite !map_slot_exec, H.
  - intros edge _. unfold edge_occurrences.
    destruct (dependenceEntries m (te_id edge)) as [|d [|]]; try done.
    destruct (md_transport d) as [plan|]; [|done]. unfold link_occurrences.
    induction (tp_actions plan) as [|[dom source dir el|] acts IH]; [done| |exact IH].
    cbn. rewrite H. f_equal. exact IH.
Qed.

Lemma map_slot_id (l : list ModuloResource) : map_slot (fun s => s) <$> l = l.
Proof.
  induction l as [|r l IH]; [done|]. rewrite fmap_cons, IH. by destruct r.
Qed.

(** The absolute cycle at which iteration [k] of a node issues, when the node
    is assigned to pipeline stage [stage]. *)
Definition issue_cycle (stage : Z -> Z) (k id : Z) : Z :=
  issue_slot m id + mm_ii m * (stage id + k).

Lemma occurrences_shift stage k k' :
  occurrences dfg target m (issue_cycle stage k') =
  map_slot (fun s => s + mm_ii m * (k' - k)) <$> occurrences dfg target m (issue_cycle stage k).
Proof.
  rewrite <- (map_slot_id (occurrences dfg target m (issue_cycle stage k'))).
  apply occurrences_map. intros id o. unfold issue_cycle. lia.
Qed.

Lemma occurrences_slots stage k :
  mm_ii m <> 0 ->
  map_slot (fun cycle => cycle mod mm_ii m) <$> occurrences dfg target m (issue_cycle stage k) =
  map_slot (fun cycle => cycle mod mm_ii m) <$> occurrences dfg target m (issue_slot m).
Proof.
  intros Hii. apply occurrences_map. intros id o. unfold issue_cycle.
  replace (issue_slot m id + mm_ii m * (stage id + k) + o)
    with (issue_slot m id + o + (stage id + k) * mm_ii m) by lia.
  by rewrite Z.mod_add.
Qed.

Lemma steady_state_NoDup stage iterations :
  mm_ii m <> 0 ->
  NoDup (map_slot (fun cycle => cycle mod mm_ii m) <$> occurrences dfg target m (issue_slot m)) ->
  NoDup (flat_map (fun k => occurrences dfg target m (issue_cycle stage k)) (range iterations)).
Proof.
  intros Hii Hnd. apply NoDup_flat_map_disjoint; [apply NoDup_range| |].
  - intros k _. rewrite <- (occurrences_slots stage k) in Hnd by done. by apply NoDup_fmap_1 in Hnd.
  - intros k k' r _ _ Hr Hr'. apply list_elem_of_lookup in Hr as (i & Hi).
    apply list_elem_of_lookup in Hr' as (j & Hj).
    assert (i = j) as <-.
    { eapply (NoDup_lookup _ _ _ (map_slot (fun cycle => cycle mod mm_ii m) r)); [exact Hnd| |].
      - rewrite <- (occurrences_slots stage k) by done. by rewrite list_lookup_fmap, Hi.
      - rewrite <- (occurrences_slots stage k') by done. by rewrite list_lookup_fmap, Hj. }
    rewrite (occurrences_shift stage k k'), list_lookup_fmap, Hi in Hj. injection Hj as Hj.
    assert (resource_slot r = resource_slot r + mm_ii m * (k' - k))
      by (rewrite <- Hj at 1; by destruct r). nia.
Qed.
End SteadyState.

Lemma v2_accumulate_mapping_typed : typed_mapping v2_accumulate_mapping.
Proof.
  split; [vm_compute; split; congruence|]. apply Forall_forall.
  vm_compute. repeat constructor; congruence.
Qed.

(** ** Properties *)

(** C9: the mapping verifier is exact.  Given a well-formed contract, a graph
    from the builder and the machine ranges of the fields, verification reports
    nothing exactly when the mapping is valid: the graph is well-typed, every
    node is placed once on a tile and slot that can execute it, every value edge
    is carried by a gap-free timed route from its producer's ready time to the
    consumer's tile with the claimed separation, memory edges have the
    contract's separation, and no modulo resource is used twice. *)
Theorem mmv_verify_exact (dfg : TargetDFG) (target : TargetModel) (m : ModuloMapping) :
  TargetModel_wf target -> TargetDFG_inv dfg -> typed_mapping m ->
  universe_fits target (mm_ii m) ->
  mmv_verify dfg target m = Ok [] <-> valid_mapping dfg target m.
Proof.
  intros Hw Hinv Ht Hf. split; [by apply mmv_verify_sound|by apply mmv_verify_complete].
Qed.

Lemma mmv_verify_exact_witness :
  mmv_verify v2_accumulate cgra_v2 v2_accumulate_mapping = Ok [] <->
  valid_mapping v2_accumulate cgra_v2 v2_accumulate_mapping.
Proof.
  apply (mmv_verify_exact v2_accumulate cgra_v2 v2_accumulate_mapping);
    [apply cgra_v2_wf|apply v2_accumulate_inv|apply v2_accumulate_mapping_typed|].
  vm_compute. congruence.
Defined.

(** C10: a verified mapping never collides when it runs.  Whatever stage each
    node is given and however many iterations overlap, with iterations started
    one II apart no functional unit, load-store unit or directed link is used
    twice in the same absolute cycle. *)
Theorem verified_mapping_never_collides (dfg : TargetDFG) (target : TargetModel)
    (m : ModuloMapping) (stage : Z -> Z) (iterations : Z) :
  TargetModel_wf target -> TargetDFG_inv dfg -> typed_mapping m ->
  universe_fits target (mm_ii m) -> mmv_verify dfg target m = Ok [] ->
  NoDup (flat_map (fun k => occurrences dfg target m (issue_cycle m stage k)) (range iterations)).
Proof.
  intros Hw Hinv Ht Hf H. apply mmv_verify_sound in H; [|done..].
  apply steady_state_NoDup; apply H.
Qed.

Lemma verified_mapping_never_collides_witness :
  NoDup (flat_map (fun k => occurrences v2_accumulate cgra_v2 v2_accumulate_mapping
           (issue_cycle v2_accumulate_mapping (fun id => if id =? 0 then 0 else 1) k)) (range 100)).
Proof.
  apply (verified_mapping_never_collides v2_accumulate cgra_v2 v2_accumulate_mapping);
    [apply cgra_v2_wf|apply v2_accumulate_inv|apply v2_accumulate_mapping_typed| |];
    [vm_compute; congruence|vm_compute; reflexivity].
Defined.
