(* ===== verification/RouteSearch.v ===== *)
(** * The route search

    Models [compiler/{include/cgra,lib}/Mapping/ModuloRouteSearch.{h,cpp}] with
    [RouteSearchResult.h], [RouteSearchBudget.h] and [RouteSearchStats.h]: a
    best-first search over pairs of a tile and a modulo slot, ordered by elapsed
    time, then waiting, then hops, for the transport plan of one value edge.
    [route_search] returns [None] if its fuel ran out; [RouteSearchExact] shows that it
    never does.  Message texts and renderings are left out. *)
From stdpp Require Import base numbers list gmap strings.
From S2P Require Import Prelude.
From S2P Require Import IR.
From S2P Require Import TargetModel.
From S2P Require Import TargetDFG.
From S2P Require Import TargetDFGVerifier.
From S2P Require Import ModuloResources.
From S2P Require Import ModuloMapping.
From S2P Require Import MappingVerifier.

Inductive RouteSearchStatus :=
  | RouteSuccess
  | RouteNoPath
  | RouteBudgetExceeded
  | RouteInvalidInput
  | RouteUnsupportedEdge
  | RouteTargetContractError
  | RouteInternalError.

#[export] Instance RouteSearchStatus_eq_dec : EqDecision RouteSearchStatus.
Proof. solve_decision. Defined.

Definition RouteSearchStatus_toString (status : RouteSearchStatus) : string :=
  match status with
  | RouteSuccess => "success"
  | RouteNoPath => "no_path"
  | RouteBudgetExceeded => "budget_exceeded"
  | RouteInvalidInput => "invalid_input"
  | RouteUnsupportedEdge => "unsupported_edge"
  | RouteTargetContractError => "target_contract_error"
  | RouteInternalError => "internal_error"
  end.

Inductive RouteSearchDiagnosticCode :=
  | ROUTE_INVALID_TARGET_DFG
  | ROUTE_INVALID_EDGE
  | ROUTE_EDGE_NOT_VALUE_CARRYING
  | ROUTE_PRODUCER_PLACEMENT_MISMATCH
  | ROUTE_CONSUMER_PLACEMENT_MISMATCH
  | ROUTE_SLOT_OUT_OF_RANGE
  | ROUTE_TILE_OUT_OF_RANGE
  | ROUTE_OPERATION_UNSUPPORTED_ON_TILE
  | ROUTE_TARGET_TIMING_MISSING
  | ROUTE_NO_PATH
  | ROUTE_BUDGET_EXCEEDED
  | ROUTE_INTERNAL_SELF_CONFLICT
  | ROUTE_INTERNAL_RECONSTRUCTION_ERROR
  | ROUTE_INTERNAL_VERIFIER_REJECTED.

#[export] Instance RouteSearchDiagnosticCode_eq_dec : EqDecision RouteSearchDiagnosticCode.
Proof. solve_decision. Defined.

Definition RouteSearchDiagnosticCode_toString (code : RouteSearchDiagnosticCode) : string :=
  match code with
  | ROUTE_INVALID_TARGET_DFG => "ROUTE_INVALID_TARGET_DFG"
  | ROUTE_INVALID_EDGE => "ROUTE_INVALID_EDGE"
  | ROUTE_EDGE_NOT_VALUE_CARRYING => "ROUTE_EDGE_NOT_VALUE_CARRYING"
  | ROUTE_PRODUCER_PLACEMENT_MISMATCH => "ROUTE_PRODUCER_PLACEMENT_MISMATCH"
  | ROUTE_CONSUMER_PLACEMENT_MISMATCH => "ROUTE_CONSUMER_PLACEMENT_MISMATCH"
  | ROUTE_SLOT_OUT_OF_RANGE => "ROUTE_SLOT_OUT_OF_RANGE"
  | ROUTE_TILE_OUT_OF_RANGE => "ROUTE_TILE_OUT_OF_RANGE"
  | ROUTE_OPERATION_UNSUPPORTED_ON_TILE => "ROUTE_OPERATION_UNSUPPORTED_ON_TILE"
  | ROUTE_TARGET_TIMING_MISSING => "ROUTE_TARGET_TIMING_MISSING"
  | ROUTE_NO_PATH => "ROUTE_NO_PATH"
  | ROUTE_BUDGET_EXCEEDED => "ROUTE_BUDGET_EXCEEDED"
  | ROUTE_INTERNAL_SELF_CONFLICT => "ROUTE_INTERNAL_SELF_CONFLICT"
  | ROUTE_INTERNAL_RECONSTRUCTION_ERROR => "ROUTE_INTERNAL_RECONSTRUCTION_ERROR"
  | ROUTE_INTERNAL_VERIFIER_REJECTED => "ROUTE_INTERNAL_VERIFIER_REJECTED"
  end.

Record RouteSearchDiagnostic := mkRD {
  rd_code : RouteSearchDiagnosticCode;
  rd_edge : option Z
}.

Record RouteSearchBudget := mkRouteBudget {
  rb_maxStateExpansions : Z;
  rb_maxQueuePushes : Z
}.

(** The default member initializers of [RouteSearchBudget]. *)
Definition default_route_budget : RouteSearchBudget := mkRouteBudget 100000 200000.

Record RouteSearchRequest := mkRouteRequest {
  rq_edge : Z;
  rq_producer : NodePlacement;
  rq_consumer : NodePlacement
}.

(** [RouteTieBreakPolicy] has one enumerator, and nothing reads it. *)
Record RouteSearchOptions := mkRouteOptions {
  ro_budget : RouteSearchBudget;
  ro_allowVirtualHold : bool
}.

Record RouteSearchStats := mkRouteStats {
  rst_stateExpansions : Z;
  rst_queuePushes : Z;
  rst_linkTransitionsConsidered : Z;
  rst_holdTransitionsConsidered : Z;
  rst_blockedLinks : Z;
  rst_invalidBorderLinks : Z;
  rst_maxQueueSize : Z;
  rst_resultSeparation : option Z;
  rst_resultHopCount : Z;
  rst_resultHoldCycles : Z
}.

Definition no_route_stats : RouteSearchStats := mkRouteStats 0 0 0 0 0 0 0 None 0 0.

Record RouteSearchResult := mkRouteResult {
  rr_status : RouteSearchStatus;
  rr_plan : option TransportPlan;
  rr_stats : RouteSearchStats;
  rr_diagnostics : list RouteSearchDiagnostic
}.

Definition route_ok (res : RouteSearchResult) : bool :=
  bool_decide (rr_status res = RouteSuccess) && bool_decide (is_Some (rr_plan res)).

(** ** Costs, predecessors and the queue *)

Record Cost := mkCost { co_elapsed : Z; co_holds : Z; co_hops : Z }.

#[export] Instance Cost_eq_dec : EqDecision Cost.
Proof. solve_decision. Defined.

(** The default member initializers: no cost yet. *)
Definition cost_infinite : Cost := mkCost u64_max u32_max u32_max.

Definition cost_ltb (lhs rhs : Cost) : bool :=
  if negb (co_elapsed lhs =? co_elapsed rhs) then co_elapsed lhs <? co_elapsed rhs
  else if negb (co_holds lhs =? co_holds rhs) then co_holds lhs <? co_holds rhs
  else co_hops lhs <? co_hops rhs.

Inductive PredecessorKind := PredNone | PredLink | PredHold.

#[export] Instance PredecessorKind_eq_dec : EqDecision PredecessorKind.
Proof. solve_decision. Defined.

Record Predecessor := mkPred {
  pd_previous : Z;
  pd_kind : PredecessorKind;
  pd_direction : Direction
}.

Definition no_predecessor : Predecessor := mkPred 0 PredNone North.

Record QueueEntry := mkEntry { qe_cost : Cost; qe_state : Z; qe_sequence : Z }.

(** [QueueEntryCompare]: [lhs] has the lower priority. *)
Definition entry_after (lhs rhs : QueueEntry) : bool :=
  if bool_decide (qe_cost lhs <> qe_cost rhs) then cost_ltb (qe_cost rhs) (qe_cost lhs)
  else if negb (qe_state lhs =? qe_state rhs) then qe_state rhs <? qe_state lhs
  else qe_sequence rhs <? qe_sequence lhs.

(** [std::priority_queue] as the list of its entries in the order they pop. *)
Fixpoint queue_push (entry : QueueEntry) (queue : list QueueEntry) : list QueueEntry :=
  match queue with
  | [] => [entry]
  | first :: rest =>
      if entry_after entry first then first :: queue_push entry rest else entry :: queue
  end.

(** ** The search *)

(** The mutable members of [RouteSearchImpl]; the status and diagnostics of
    [result_] are those of the last failure. *)
Record Search := mkSearch {
  se_status : RouteSearchStatus;
  se_diagnostics : list RouteSearchDiagnostic;
  se_stats : RouteSearchStats;
  se_best : list Cost;
  se_predecessors : list Predecessor;
  se_finalized : list bool;
  se_queue : list QueueEntry;
  se_sequence : Z
}.

Definition with_stats (st : Search) (stats : RouteSearchStats) : Search :=
  mkSearch (se_status st) (se_diagnostics st) stats (se_best st) (se_predecessors st)
    (se_finalized st) (se_queue st) (se_sequence st).

Definition with_status (st : Search) (status : RouteSearchStatus)
    (diagnostics : list RouteSearchDiagnostic) : Search :=
  mkSearch status (se_diagnostics st ++ diagnostics) (se_stats st) (se_best st)
    (se_predecessors st) (se_finalized st) (se_queue st) (se_sequence st).

Definition count_link (s : RouteSearchStats) : RouteSearchStats :=
  mkRouteStats (rst_stateExpansions s) (rst_queuePushes s) (rst_linkTransitionsConsidered s + 1)
    (rst_holdTransitionsConsidered s) (rst_blockedLinks s) (rst_invalidBorderLinks s)
    (rst_maxQueueSize s) (rst_resultSeparation s) (rst_resultHopCount s) (rst_resultHoldCycles s).
Definition count_hold (s : RouteSearchStats) : RouteSearchStats :=
  mkRouteStats (rst_stateExpansions s) (rst_queuePushes s) (rst_linkTransitionsConsidered s)
    (rst_holdTransitionsConsidered s + 1) (rst_blockedLinks s) (rst_invalidBorderLinks s)
    (rst_maxQueueSize s) (rst_resultSeparation s) (rst_resultHopCount s) (rst_resultHoldCycles s).
Definition count_blocked (s : RouteSearchStats) : RouteSearchStats :=
  mkRouteStats (rst_stateExpansions s) (rst_queuePushes s) (rst_linkTransitionsConsidered s)
    (rst_holdTransitionsConsidered s) (rst_blockedLinks s + 1) (rst_invalidBorderLinks s)
    (rst_maxQueueSize s) (rst_resultSeparation s) (rst_resultHopCount s) (rst_resultHoldCycles s).
Definition count_border (s : RouteSearchStats) : RouteSearchStats :=
  mkRouteStats (rst_stateExpansions s) (rst_queuePushes s) (rst_linkTransitionsConsidered s)
    (rst_holdTransitionsConsidered s) (rst_blockedLinks s) (rst_invalidBorderLinks s + 1)
    (rst_maxQueueSize s) (rst_resultSeparation s) (rst_resultHopCount s) (rst_resultHoldCycles s).
Definition count_expansion (s : RouteSearchStats) : RouteSearchStats :=
  mkRouteStats (rst_stateExpansions s + 1) (rst_queuePushes s) (rst_linkTransitionsConsidered s)
    (rst_holdTransitionsConsidered s) (rst_blockedLinks s) (rst_invalidBorderLinks s)
    (rst_maxQueueSize s) (rst_resultSeparation s) (rst_resultHopCount s) (rst_resultHoldCycles s).
Definition count_push (size : Z) (s : RouteSearchStats) : RouteSearchStats :=
  mkRouteStats (rst_stateExpansions s) (rst_queuePushes s + 1) (rst_linkTransitionsConsidered s)
    (rst_holdTransitionsConsidered s) (rst_blockedLinks s) (rst_invalidBorderLinks s)
    (Z.max (rst_maxQueueSize s) (wrap32 size)) (rst_resultSeparation s) (rst_resultHopCount s)
    (rst_resultHoldCycles s).
Definition count_result (separation hops holds : Z) (s : RouteSearchStats) : RouteSearchStats :=
  mkRouteStats (rst_stateExpansions s) (rst_queuePushes s) (rst_linkTransitionsConsidered s)
    (rst_holdTransitionsConsidered s) (rst_blockedLinks s) (rst_invalidBorderLinks s)
    (rst_maxQueueSize s) (Some separation) hops holds.

Section Search.
Context (dfg : TargetDFG) (target : TargetModel) (resources : ModuloResourceModel)
  (reservations : ReservationTable) (request : RouteSearchRequest) (options : RouteSearchOptions).
Local Abbreviation rows := (arr_rows (tm_array target)).
Local Abbreviation cols := (arr_cols (tm_array target)).
Local Abbreviation ii := (rm_ii resources).
Local Abbreviation issueSlot := (np_issueSlot (rq_producer request)).
Local Abbreviation budget := (ro_budget options).

(** *** Validation *)

Definition route_fail (status : RouteSearchStatus) (code : RouteSearchDiagnosticCode)
    (edge : Z) : RouteSearchResult :=
  mkRouteResult status None no_route_stats [mkRD code (Some edge)].

(** [validPlacement]: the failure, or [None]. *)
Definition validPlacement (p : NodePlacement) (expected : Z) (is_producer : bool)
  : result (option RouteSearchResult) :=
  let invalid code := Ok (Some (route_fail RouteInvalidInput code (rq_edge request))) in
  if negb (np_node p =? expected) then
    invalid (if is_producer then ROUTE_PRODUCER_PLACEMENT_MISMATCH
             else ROUTE_CONSUMER_PLACEMENT_MISMATCH)
  else if (rows <=? tile_row (np_tile p)) || (cols <=? tile_col (np_tile p))
  then invalid ROUTE_TILE_OUT_OF_RANGE
  else if ii <=? np_issueSlot p then invalid ROUTE_SLOT_OUT_OF_RANGE
  else
    node ← td_node dfg expected;
    if negb (supportsOperation resources (np_tile p) node)
    then invalid ROUTE_OPERATION_UNSUPPORTED_ON_TILE
    else Ok None.

Definition network_of (domain : NetworkDomain) : InterconnectDesc :=
  match domain with
  | NetPredicate => predicateNetwork target
  | NetData => dataNetwork target
  end.

(** [validateInput]: the failure, or the network domain of the edge. *)
Definition validateInput : result (RouteSearchResult + NetworkDomain) :=
  let fail status code edge := Ok (inl (route_fail status code edge)) in
  report ← tdfg_verify dfg target None;
  if bool_decide (report <> [])
  then fail RouteInvalidInput ROUTE_INVALID_TARGET_DFG (rq_edge request)
  else if negb (String.eqb (td_targetName dfg) (tm_name target)) ||
          negb (String.eqb (tm_name (rm_target resources)) (tm_name target))
  then fail RouteInvalidInput ROUTE_INVALID_TARGET_DFG (rq_edge request)
  else if ii =? 0 then fail RouteInvalidInput ROUTE_SLOT_OUT_OF_RANGE (rq_edge request)
  else if negb (containsEdge dfg (rq_edge request))
  then fail RouteInvalidInput ROUTE_INVALID_EDGE (rq_edge request)
  else
    edge ← td_edge dfg (rq_edge request);
    if bool_decide (TargetEdge_kind edge = EKMemory)
    then fail RouteUnsupportedEdge ROUTE_EDGE_NOT_VALUE_CARRYING (te_id edge)
    else if negb (np_node (rq_producer request) =? te_src edge)
    then fail RouteInvalidInput ROUTE_PRODUCER_PLACEMENT_MISMATCH (te_id edge)
    else if negb (np_node (rq_consumer request) =? te_dst edge)
    then fail RouteInvalidInput ROUTE_CONSUMER_PLACEMENT_MISMATCH (te_id edge)
    else
      bad ← validPlacement (rq_producer request) (te_src edge) true;
      match bad with
      | Some failure => Ok (inl failure)
      | None =>
          bad ← validPlacement (rq_consumer request) (te_dst edge) false;
          match bad with
          | Some failure => Ok (inl failure)
          | None =>
              producer ← td_node dfg (te_src edge);
              match tn_producerOutputReadyOffset producer with
              | None => fail RouteTargetContractError ROUTE_TARGET_TIMING_MISSING (te_id edge)
              | Some _ =>
                  let domain := match TargetEdge_kind edge with
                                | EKPredicate => NetPredicate
                                | _ => NetData
                                end in
                  if net_hopLatency (network_of domain) =? 0
                  then fail RouteTargetContractError ROUTE_TARGET_TIMING_MISSING (te_id edge)
                  else Ok (inr domain)
              end
          end
      end.

(** *** States *)

Definition stateId (tile : TileCoord) (slot : Z) : Z :=
  wrap64 ((slot * rows + tile_row tile) * cols + tile_col tile).

Definition stateFor (id : Z) : TileCoord * Z :=
  let rowCount := wrap64 (rows * cols) in
  let within := id mod rowCount in
  (mkTile (wrap32 (within / cols)) (wrap32 (within mod cols)), wrap32 (id / rowCount)).

(** Unchecked vector reads; the identifiers are in range. *)
Definition best_of (st : Search) (id : Z) : Cost :=
  default cost_infinite (se_best st !! nat_of id).
Definition recorded_predecessor (st : Search) (id : Z) : Predecessor :=
  default no_predecessor (se_predecessors st !! nat_of id).
Definition is_finalized (st : Search) (id : Z) : bool :=
  default false (se_finalized st !! nat_of id).

(** *** Transitions; [false] stops the search with the recorded status *)

(** [push({cost, state, sequence_++})]. *)
Definition push (st : Search) (cost : Cost) (state : Z) : bool * Search :=
  let entry := mkEntry cost state (se_sequence st) in
  let next := se_sequence st + 1 in
  if rb_maxQueuePushes budget <=? rst_queuePushes (se_stats st)
  then (false, mkSearch (se_status st) (se_diagnostics st) (se_stats st) (se_best st)
                 (se_predecessors st) (se_finalized st) (se_queue st) next)
  else
    let queue := queue_push entry (se_queue st) in
    (true, mkSearch (se_status st) (se_diagnostics st)
             (count_push (Z.of_nat (length queue)) (se_stats st)) (se_best st)
             (se_predecessors st) (se_finalized st) queue next).

Definition relaxTo (st : Search) (destination : Z) (cost : Cost) (predecessor : Predecessor)
  : bool * Search :=
  if is_finalized st destination || negb (cost_ltb cost (best_of st destination))
  then (true, st)
  else
    let st := mkSearch (se_status st) (se_diagnostics st) (se_stats st)
                (<[nat_of destination := cost]> (se_best st))
                (<[nat_of destination := predecessor]> (se_predecessors st))
                (se_finalized st) (se_queue st) (se_sequence st) in
    let '(pushed, st) := push st cost destination in
    if pushed then (true, st) else (false, with_status st RouteBudgetExceeded []).

Definition internal_error (st : Search) : Search :=
  with_status st RouteInternalError
    [mkRD ROUTE_INTERNAL_RECONSTRUCTION_ERROR (Some (rq_edge request))].

Definition expandLink (domain : NetworkDomain) (st : Search) (currentId : Z) (current : Cost)
    (direction : Direction) : result (bool * Search) :=
  let '(tile, slot) := stateFor currentId in
  let st := with_stats st (count_link (se_stats st)) in
  match neighbor_in target tile direction with
  | None => Ok (true, with_stats st (count_border (se_stats st)))
  | Some nextTile =>
      launchSlot ← advance ii issueSlot (co_elapsed current);
      found ← linkResource resources domain tile direction launchSlot;
      match found with
      | None => Ok (true, with_stats st (count_border (se_stats st)))
      | Some res =>
          free ← isFree reservations res;
          if negb free then Ok (true, with_stats st (count_blocked (se_stats st)))
          else
            let hopLatency := net_hopLatency (network_of domain) in
            if (u64_max - hopLatency <? co_elapsed current) || (co_hops current =? u32_max)
            then Ok (false, internal_error st)
            else
              nextSlot ← advance ii slot hopLatency;
              Ok (relaxTo st (stateId nextTile nextSlot)
                    (mkCost (co_elapsed current + hopLatency) (co_holds current)
                       (co_hops current + 1))
                    (mkPred currentId PredLink direction))
      end
  end.

Definition expandHold (st : Search) (currentId : Z) (current : Cost) : result (bool * Search) :=
  let st := with_stats st (count_hold (se_stats st)) in
  if (co_elapsed current =? u64_max) || (co_holds current =? u32_max)
  then Ok (false, internal_error st)
  else
    let '(tile, slot) := stateFor currentId in
    nextSlot ← advance ii slot 1;
    Ok (relaxTo st (stateId tile nextSlot)
          (mkCost (co_elapsed current + 1) (co_holds current + 1) (co_hops current))
          (mkPred currentId PredHold North)).

(** The order in which the links of a state are tried. *)
Definition expansion_order : list Direction := [North; East; South; West].

Fixpoint expandLinks (domain : NetworkDomain) (st : Search) (currentId : Z) (current : Cost)
    (directions : list Direction) : result (bool * Search) :=
  match directions with
  | [] => Ok (true, st)
  | direction :: directions =>
      '(continues, st) ← expandLink domain st currentId current direction;
      if (continues : bool) then expandLinks domain st currentId current directions
      else Ok (false, st)
  end.

Definition expand (domain : NetworkDomain) (st : Search) (currentId : Z) (current : Cost)
  : result (bool * Search) :=
  '(continues, st) ← expandLinks domain st currentId current expansion_order;
  if negb continues then Ok (false, st)
  else if ro_allowVirtualHold options then expandHold st currentId current
  else Ok (true, st).

(** *** Reconstruction *)

(** The walk back along the predecessors: the steps from the start, in order. *)
Fixpoint chain (fuel : nat) (st : Search) (start current : Z) (steps : list (Z * Predecessor))
  : option (list (Z * Predecessor)) :=
  match fuel with
  | O => None
  | S fuel =>
      if current =? start then Some steps
      else
        let predecessor := recorded_predecessor st current in
        if (Z.of_nat (length (se_predecessors st)) <=? current) ||
           bool_decide (pd_kind predecessor = PredNone) ||
           (Z.of_nat (length (se_predecessors st)) <? Z.of_nat (length steps))
        then None
        else chain fuel st start (pd_previous predecessor) ((current, predecessor) :: steps)
  end.

(** The loop body of [reconstruct]: a hold that continues the last action is
    merged into it. *)
Definition append_step (domain : NetworkDomain) (st : Search)
    (actions : list TransportAction) (step : Z * Predecessor) : option (list TransportAction) :=
  let '(child, predecessor) := step in
  let tile := (stateFor (pd_previous predecessor)).1 in
  let parentElapsed := co_elapsed (best_of st (pd_previous predecessor)) in
  let childElapsed := co_elapsed (best_of st child) in
  match pd_kind predecessor with
  | PredLink =>
      if u32_max <? parentElapsed then None
      else Some (actions ++ [LinkStep domain tile (pd_direction predecessor) parentElapsed])
  | _ =>
      if (u32_max <? parentElapsed) || (u32_max <? childElapsed) then None
      else match last actions with
           | Some (VirtualHold previousDomain previousTile capture release) =>
               if bool_decide (previousDomain = domain) && bool_decide (previousTile = tile) &&
                  (release =? parentElapsed)
               then Some (removelast actions ++
                            [VirtualHold previousDomain previousTile capture childElapsed])
               else Some (actions ++ [VirtualHold domain tile parentElapsed childElapsed])
           | _ => Some (actions ++ [VirtualHold domain tile parentElapsed childElapsed])
           end
  end.

Fixpoint append_steps (domain : NetworkDomain) (st : Search) (actions : list TransportAction)
    (steps : list (Z * Predecessor)) : option (list TransportAction) :=
  match steps with
  | [] => Some actions
  | step :: steps =>
      actions ← append_step domain st actions step;
      append_steps domain st actions steps
  end.

(** The final pass over the links: [false] when a modulo link is missing or
    repeated. *)
Fixpoint links_distinct (domain : NetworkDomain) (actions : list TransportAction)
    (seen : list Z) : result bool :=
  match actions with
  | [] => Ok true
  | LinkStep _ source direction elapsed :: actions =>
      slot ← advance ii issueSlot elapsed;
      found ← linkResource resources domain source direction slot;
      match found with
      | None => Ok false
      | Some res =>
          if bool_decide (res ∈ seen) then Ok false
          else links_distinct domain actions (seen ++ [res])
      end
  | VirtualHold _ _ _ _ :: actions => links_distinct domain actions seen
  end.

(** The plan, or nothing with the diagnostics added. *)
Definition reconstruct (domain : NetworkDomain) (st : Search) (start goal : Z)
  : result (option TransportPlan * Search) :=
  match (steps ← chain (length (se_predecessors st) + 2) st start goal [];
         append_steps domain st [] steps) with
  | None => Ok (None, st)
  | Some actions =>
      if u32_max <? co_elapsed (best_of st goal) then Ok (None, st)
      else
        distinct ← links_distinct domain actions [];
        if negb distinct
        then Ok (None, with_status st (se_status st)
                         [mkRD ROUTE_INTERNAL_SELF_CONFLICT (Some (rq_edge request))])
        else Ok (Some (mkPlan (rq_edge request) domain actions (co_elapsed (best_of st goal))), st)
  end.

Definition hop_count (actions : list TransportAction) : Z :=
  foldl (fun n action => match action with LinkStep _ _ _ _ => wrap32 (n + 1) | _ => n end)
    0 actions.

Definition hold_cycles (actions : list TransportAction) : Z :=
  foldl (fun n action => match action with
                         | VirtualHold _ _ capture release => wrap32 (n + wrap32 (release - capture))
                         | _ => n
                         end) 0 actions.

(** The result the search returns without a plan. *)
Definition conclude (st : Search) : RouteSearchResult :=
  mkRouteResult (se_status st) None (se_stats st) (se_diagnostics st).

Definition noPath (st : Search) : RouteSearchResult :=
  conclude (with_status st RouteNoPath [mkRD ROUTE_NO_PATH (Some (rq_edge request))]).

Definition budget_exceeded (st : Search) : RouteSearchResult :=
  conclude (with_status st RouteBudgetExceeded [mkRD ROUTE_BUDGET_EXCEEDED (Some (rq_edge request))]).

Definition success (domain : NetworkDomain) (st : Search) (start goal : Z)
  : result RouteSearchResult :=
  '(plan, st) ← reconstruct domain st start goal;
  match plan with
  | None => Ok (conclude (internal_error st))
  | Some plan =>
      Ok (mkRouteResult RouteSuccess (Some plan)
            (count_result (tp_requiredSeparationCycles plan) (hop_count (tp_actions plan))
               (hold_cycles (tp_actions plan)) (se_stats st)) (se_diagnostics st))
  end.

(** The loop over the queue. *)
Fixpoint search_loop (fuel : nat) (domain : NetworkDomain) (start : Z) (st : Search)
  : result (option RouteSearchResult) :=
  match fuel with
  | O => Ok None
  | S fuel =>
      match se_queue st with
      | [] => Ok (Some (noPath st))
      | current :: queue =>
          let st := mkSearch (se_status st) (se_diagnostics st) (se_stats st) (se_best st)
                      (se_predecessors st) (se_finalized st) queue (se_sequence st) in
          if is_finalized st (qe_state current) ||
             bool_decide (qe_cost current <> best_of st (qe_state current))
          then search_loop fuel domain start st
          else
            let st := mkSearch (se_status st) (se_diagnostics st) (se_stats st) (se_best st)
                        (se_predecessors st)
                        (<[nat_of (qe_state current) := true]> (se_finalized st))
                        (se_queue st) (se_sequence st) in
            if bool_decide ((stateFor (qe_state current)).1 = np_tile (rq_consumer request))
            then res ← success domain st start (qe_state current); Ok (Some res)
            else if rb_maxStateExpansions budget <=? rst_stateExpansions (se_stats st)
            then Ok (Some (budget_exceeded st))
            else
              let st := with_stats st (count_expansion (se_stats st)) in
              '(continues, st) ← expand domain st (qe_state current) (qe_cost current);
              if (continues : bool) then search_loop fuel domain start st
              else if bool_decide (se_status st = RouteBudgetExceeded)
              then Ok (Some (conclude st))
              else Ok (Some (conclude (internal_error st)))
      end
  end.

(** The same-tile case: the value waits one cycle in local storage. *)
Definition same_tile (domain : NetworkDomain) (producerReady : Z) (st : Search)
  : RouteSearchResult :=
  if negb (ro_allowVirtualHold options) then noPath st
  else if producerReady =? u32_max then conclude (internal_error st)
  else
    let plan := mkPlan (rq_edge request) domain
                  [VirtualHold domain (np_tile (rq_producer request)) producerReady
                     (producerReady + 1)] (producerReady + 1) in
    mkRouteResult RouteSuccess (Some plan)
      (count_result (producerReady + 1) 0 1 (se_stats st)) (se_diagnostics st).

(** [run] after validation.  Every state is expanded at most once and pushes at
    most five entries, so [5 * stateCount + 2] iterations are enough. *)
Definition run (domain : NetworkDomain) : result (option RouteSearchResult) :=
  let stateCount := wrap64 (wrap64 (rows * cols) * ii) in
  if stateCount =? 0
  then Ok (Some (route_fail RouteInternalError ROUTE_INTERNAL_RECONSTRUCTION_ERROR
                   (rq_edge request)))
  else
    producer ← td_node dfg (np_node (rq_producer request));
    producerReady ← of_option BadOptionalAccess (tn_producerOutputReadyOffset producer);
    startSlot ← advance ii issueSlot producerReady;
    let start := stateId (np_tile (rq_producer request)) startSlot in
    let cost := mkCost producerReady 0 0 in
    let count := nat_of stateCount in
    let st := mkSearch RouteInternalError [] no_route_stats
                (<[nat_of start := cost]> (replicate count cost_infinite))
                (replicate count no_predecessor) (replicate count false) [] 0 in
    let '(pushed, st) := push st cost start in
    if negb pushed then Ok (Some (budget_exceeded st))
    else if bool_decide (np_tile (rq_producer request) = np_tile (rq_consumer request))
    then Ok (Some (same_tile domain producerReady st))
    else search_loop (5 * count + 2) domain start st.

(** [ModuloRouteSearch::search]; the constructor rejects a zero interval. *)
Definition route_search : result (option RouteSearchResult) :=
  _ ← ModuloTimeDomain ii;
  valid ← validateInput;
  match valid with
  | inl failure => Ok (Some failure)
  | inr domain => run domain
  end.
End Search.
