(* ===== verification/BestFirst.v ===== *)
(** * Best-first search over a weighted graph

    The theory of the loop in [RouteSearch.search_loop] over an abstract graph of
    states: the finalized states carry their least cost in the order they were
    finalized, and every labelled state waits in the queue.  [RouteSearchExact]
    instantiates it with the mesh. *)
From stdpp Require Import base numbers list gmap sorting strings.
From S2P Require Import Prelude.
From S2P Require Import IR.
From S2P Require Import TargetModel.
From S2P Require Import CgraV2.
From S2P Require Import TargetDFG.
From S2P Require Import TargetDFGVerifier.
From S2P Require Import ModuloResources.
From S2P Require Import ModuloMapping.
From S2P Require Import MappingVerifier.
From S2P Require Import RouteSearch.

(** ** Costs in lexicographic order *)

Definition cost_lt (a b : Cost) : Prop :=
  co_elapsed a < co_elapsed b \/
  (co_elapsed a = co_elapsed b /\
   (co_holds a < co_holds b \/ (co_holds a = co_holds b /\ co_hops a < co_hops b))).

Definition cost_le (a b : Cost) : Prop :=
  co_elapsed a < co_elapsed b \/
  (co_elapsed a = co_elapsed b /\
   (co_holds a < co_holds b \/ (co_holds a = co_holds b /\ co_hops a <= co_hops b))).

Definition cost_add (a w : Cost) : Cost :=
  mkCost (co_elapsed a + co_elapsed w) (co_holds a + co_holds w) (co_hops a + co_hops w).

(** Goals about the order are linear arithmetic on the three components. *)
Ltac cost_lia := unfold cost_le, cost_lt, cost_add in *; simpl in *; lia.

Lemma cost_ltb_true a b : cost_ltb a b = true <-> cost_lt a b.
Proof.
  unfold cost_ltb, cost_lt. destruct (Z.eqb_spec (co_elapsed a) (co_elapsed b)); simpl;
    [destruct (Z.eqb_spec (co_holds a) (co_holds b)); simpl|]; rewrite Z.ltb_lt; lia.
Qed.

Lemma cost_ltb_false a b : cost_ltb a b = false <-> cost_le b a.
Proof.
  rewrite <- not_true_iff_false, cost_ltb_true. unfold cost_le, cost_lt. lia.
Qed.

Lemma cost_eq a b : cost_le a b -> cost_le b a -> a = b.
Proof. destruct a, b. intros. f_equal; cost_lia. Qed.

(** A weight moves forward. *)
Definition positive (M : Z) (w : Cost) : Prop :=
  0 < co_elapsed w <= M /\ 0 <= co_holds w <= 1 /\ 0 <= co_hops w <= 1.

(** ** The queue *)

Definition queue_sorted (q : list QueueEntry) : Prop :=
  StronglySorted (fun a b => cost_le (qe_cost a) (qe_cost b)) q.

Lemma elem_of_queue_push e x q : e ∈ queue_push x q <-> e = x \/ e ∈ q.
Proof.
  induction q as [|y q IH]; simpl; [set_solver|]. destruct (entry_after x y); set_solver.
Qed.

Lemma queue_push_length x q : length (queue_push x q) = S (length q).
Proof. induction q as [|y q IH]; simpl; [done|]. destruct (entry_after x y); simpl; lia. Qed.

Lemma entry_after_le x y :
  if entry_after x y then cost_le (qe_cost y) (qe_cost x) else cost_le (qe_cost x) (qe_cost y).
Proof.
  unfold entry_after. case_bool_decide as E.
  - destruct (cost_ltb (qe_cost y) (qe_cost x)) eqn:El.
    + apply cost_ltb_true in El. cost_lia.
    + by apply cost_ltb_false.
  - assert (qe_cost x = qe_cost y) as -> by (destruct (decide (qe_cost x = qe_cost y)); tauto).
    destruct (if negb _ then _ else _); cost_lia.
Qed.

Lemma queue_push_sorted x q : queue_sorted q -> queue_sorted (queue_push x q).
Proof.
  induction q as [|y q IH]; simpl; intros Hq; [by repeat constructor|].
  apply StronglySorted_inv in Hq as [Hq Hy]. pose proof (entry_after_le x y) as Hxy.
  destruct (entry_after x y).
  - constructor; [by apply IH|]. apply Forall_forall. intros e He.
    apply elem_of_queue_push in He as [->|He]; [done|]. by apply (proj1 (Forall_forall _ _) Hy).
  - constructor; [by constructor|]. constructor; [done|].
    eapply Forall_impl; [exact Hy|]. intros e He. cbv beta in *. cost_lia.
Qed.

(** ** The best-first loop over an abstract graph *)

Section BestFirst.
Context (request : RouteSearchRequest) (options : RouteSearchOptions).
(** States are [0 .. count - 1]; a step of kind [k] and direction [d] from [p] to
    [s] has weight [w]. *)
Context (count start M : Z) (cost0 : Cost).
Context (step : Z -> Z -> Cost -> PredecessorKind * Direction -> Prop).
Context (Hstep : forall p s w kd, step p s w kd -> 0 <= s < count /\ positive M w).
Context (Hfun : forall p s s' w w' kd, step p s w kd -> step p s' w' kd -> s = s' /\ w = w').
Context (Hstart : 0 <= start < count).
Context (Hcost0 : 0 <= co_elapsed cost0 /\ co_holds cost0 = 0 /\ co_hops cost0 = 0).
Context (Hfits : co_elapsed cost0 + (count + 1) * M <= u32_max) (HM : 0 < M).

(** The cost of a walk from the start. *)
Inductive walk : Z -> Cost -> Prop :=
  | walk_start : walk start cost0
  | walk_step p s c w kd : walk p c -> step p s w kd -> walk s (cost_add c w).

(** Costs reached after at most [n] steps. *)
Definition within (n : nat) (c : Cost) : Prop :=
  co_elapsed cost0 <= co_elapsed c <= co_elapsed cost0 + Z.of_nat n * M /\
  0 <= co_holds c <= Z.of_nat n /\ 0 <= co_hops c <= Z.of_nat n.

(** State [s] carries a label. *)
Definition labelled (st : Search) (s : Z) : Prop :=
  0 <= s < count /\ best_of st s <> cost_infinite.

(** The label of [s] comes from one of [parents]. *)
Definition justified (st : Search) (parents : list Z) (s : Z) : Prop :=
  (s = start /\ best_of st s = cost0) \/
  exists p w k d, recorded_predecessor st s = mkPred p k d /\ p ∈ parents /\
    step p s w (k, d) /\ best_of st s = cost_add (best_of st p) w.

(** The invariant of the loop: [order] is the list of finalized states, the last
    one first.  The steps out of the last one are relaxed as far as [relaxed]
    says. *)
Record search_inv (order : list Z) (relaxed : PredecessorKind * Direction -> Prop)
    (st : Search) : Prop := {
  si_best : Z.of_nat (length (se_best st)) = count;
  si_predecessors : Z.of_nat (length (se_predecessors st)) = count;
  si_flags : Z.of_nat (length (se_finalized st)) = count;
  si_order : NoDup order;
  si_order_range : forall s, s ∈ order -> 0 <= s < count;
  si_finalized : forall s, 0 <= s < count -> is_finalized st s = true <-> s ∈ order;
  si_start : best_of st start = cost0;
  si_labels : forall s, labelled st s -> s ∉ order ->
    justified st order s /\ within (length order) (best_of st s);
  si_chain : forall l1 s l2, order = l1 ++ s :: l2 ->
    justified st l2 s /\ within (length l2) (best_of st s);
  si_costs : forall l1 s l2 f, order = l1 ++ s :: l2 -> f ∈ l2 ->
    cost_le (best_of st f) (best_of st s);
  si_monotone : forall f u, f ∈ order -> labelled st u -> u ∉ order ->
    cost_le (best_of st f) (best_of st u);
  si_waiting : forall u, labelled st u -> u ∉ order ->
    exists e, e ∈ se_queue st /\ qe_state e = u /\ qe_cost e = best_of st u;
  si_entries : forall e, e ∈ se_queue st -> labelled st (qe_state e) /\
    cost_le (best_of st (qe_state e)) (qe_cost e);
  si_queue : queue_sorted (se_queue st);
  si_closed : forall f s w kd, f ∈ order -> step f s w kd ->
    (head order = Some f -> relaxed kd) ->
    labelled st s /\ cost_le (best_of st s) (cost_add (best_of st f) w)
}.

Lemma within_infinite n c : Z.of_nat n <= count -> within n c -> c <> cost_infinite.
Proof using Hfits Hcost0 HM Hstart.
  intros Hn (He & Hh & Hk) ->. unfold cost_infinite, u64_max, u32_max in *. simpl in *. nia.
Qed.

Lemma within_mono n m c : (n <= m)%nat -> within n c -> within m c.
Proof using HM. unfold within. nia. Qed.

Lemma within_step n c w : within n c -> positive M w -> within (S n) (cost_add c w).
Proof using HM. unfold within, positive, cost_add. simpl. nia. Qed.

Lemma order_length order relaxed st :
  search_inv order relaxed st -> Z.of_nat (length order) <= count.
Proof using Hstart.
  intros Hinv. pose proof (NoDup_submseteq order (seqZ 0 count) (si_order _ _ _ Hinv)) as Hs.
  assert (Hsub : order ⊆+ seqZ 0 count).
  { apply Hs. intros x Hx. apply elem_of_seqZ.
    pose proof (si_order_range _ _ _ Hinv x Hx). clear - H. lia. }
  apply submseteq_length in Hsub. rewrite length_seqZ in Hsub. clear - Hsub Hstart. lia.
Qed.

Lemma start_labelled order relaxed st : search_inv order relaxed st -> labelled st start.
Proof using Hstart Hcost0 Hfits HM.
  intros Hinv. split; [done|]. rewrite (si_start _ _ _ Hinv).
  apply (within_infinite 0); [clear - Hstart; lia|]. unfold within. clear - Hcost0. lia.
Qed.

(** Finalized states are labelled, and no dearer than the last one. *)
Lemma finalized_spec order relaxed st s :
  search_inv order relaxed st -> s ∈ order ->
  labelled st s /\ exists l1 l2, order = l1 ++ s :: l2 /\ justified st l2 s /\
    within (length l2) (best_of st s).
Proof using Hstart Hcost0 Hfits HM.
  intros Hinv Hs. pose proof (si_order_range _ _ _ Hinv s Hs) as Hr.
  apply list_elem_of_split in Hs as (l1 & l2 & E).
  destruct (si_chain _ _ _ Hinv l1 s l2 E) as [Hj Hw]. split; [|by exists l1, l2].
  split; [done|]. apply (within_infinite (length l2)); [|done].
  pose proof (order_length _ _ _ Hinv) as Hlen. rewrite E, length_app in Hlen. simpl in Hlen.
  clear - Hlen. lia.
Qed.

Lemma last_dearest c order relaxed st f :
  search_inv (c :: order) relaxed st -> f ∈ c :: order ->
  cost_le (best_of st f) (best_of st c).
Proof using Type.
  intros Hinv Hf. apply elem_of_cons in Hf as [->|Hf]; [clear; cost_lia|].
  by apply (si_costs _ _ _ Hinv [] c order f).
Qed.

(** *** Relaxing one step *)

Definition updated (st : Search) (s : Z) (cost : Cost) (pred : Predecessor)
    (queue : list QueueEntry) (stats : RouteSearchStats) (sequence : Z) : Search :=
  mkSearch (se_status st) (se_diagnostics st) stats (<[nat_of s := cost]> (se_best st))
    (<[nat_of s := pred]> (se_predecessors st)) (se_finalized st) queue sequence.

Lemma best_updated order relaxed st s cost pred queue stats sequence u :
  search_inv order relaxed st -> 0 <= s < count -> 0 <= u ->
  best_of (updated st s cost pred queue stats sequence) u =
    if decide (u = s) then cost else best_of st u.
Proof using Type.
  intros Hinv Hs Hu. pose proof (si_best _ _ _ Hinv) as Hlen. unfold best_of, updated. simpl.
  case_decide as E.
  - subst u. rewrite list_lookup_insert_eq; [done|]. clear - Hs Hlen. lia.
  - rewrite list_lookup_insert_ne; [done|]. clear - E Hs Hu. lia.
Qed.

Lemma predecessor_updated order relaxed st s cost pred queue stats sequence u :
  search_inv order relaxed st -> 0 <= s < count -> 0 <= u ->
  recorded_predecessor (updated st s cost pred queue stats sequence) u =
    if decide (u = s) then pred else recorded_predecessor st u.
Proof using Type.
  intros Hinv Hs Hu. pose proof (si_predecessors _ _ _ Hinv) as Hlen.
  unfold recorded_predecessor, updated. simpl. case_decide as E.
  - subst u. rewrite list_lookup_insert_eq; [done|]. clear - Hs Hlen. lia.
  - rewrite list_lookup_insert_ne; [done|]. clear - E Hs Hu. lia.
Qed.

Lemma justified_updated order relaxed st s cost pred queue stats sequence parents u :
  search_inv order relaxed st -> 0 <= s < count -> 0 <= u -> u <> s -> s ∉ parents ->
  (forall p, p ∈ parents -> 0 <= p) ->
  justified st parents u -> justified (updated st s cost pred queue stats sequence) parents u.
Proof using Type.
  intros Hinv Hs Hu Hne Hnot Hpos Hj. unfold justified.
  erewrite best_updated, predecessor_updated by done. rewrite !decide_False by done.
  destruct Hj as [Hj|(p & w & k & d & Hp & Hin & Hst & Hb)]; [by left|right].
  exists p, w, k, d. split_and!; [done..|]. erewrite best_updated by (done || by apply Hpos).
  rewrite decide_False; [done|]. intros ->. done.
Qed.

(** A strictly better label for an unfinalized state keeps the invariant. *)
Lemma update_inv c order relaxed st s w k d stats sequence :
  search_inv (c :: order) relaxed st -> step c s w (k, d) -> s ∉ c :: order ->
  cost_lt (cost_add (best_of st c) w) (best_of st s) ->
  search_inv (c :: order) (fun kd => relaxed kd \/ kd = (k, d))
    (updated st s (cost_add (best_of st c) w) (mkPred c k d)
       (queue_push (mkEntry (cost_add (best_of st c) w) s (se_sequence st)) (se_queue st))
       stats sequence).
Proof using Hstep Hfun Hstart Hcost0 Hfits HM.
  intros Hinv Hst Hnot Hlt. destruct (Hstep _ _ _ _ Hst) as [Hs Hw].
  set (cost := cost_add (best_of st c) w) in *.
  set (st' := updated _ _ _ _ _ _ _).
  assert (Hin : c ∈ c :: order) by left.
  destruct (si_chain _ _ _ Hinv [] c order eq_refl) as [_ Hwc].
  assert (Hcost : within (length (c :: order)) cost) by (by apply within_step).
  assert (Hfinite : cost <> cost_infinite).
  { apply (within_infinite (length (c :: order))); [|done]. by apply (order_length _ _ _ Hinv). }
  assert (Hpos : forall p, p ∈ c :: order -> 0 <= p) by (intros p Hp; by apply (si_order_range _ _ _ Hinv)).
  assert (Hbest : forall u, 0 <= u -> best_of st' u = if decide (u = s) then cost else best_of st u)
    by (intros u Hu; by eapply best_updated).
  assert (Hlab : forall u, labelled st' u <-> u = s \/ labelled st u).
  { intros u. unfold labelled. split.
    - intros [Hu Hb]. rewrite Hbest in Hb by apply Hu. case_decide; [by left|by right].
    - intros Hu. assert (0 <= u < count) as Hr by (destruct Hu as [->|[Hu _]]; done).
      split; [done|]. rewrite Hbest by apply Hr. case_decide; [done|].
      by destruct Hu as [->|[_ Hu]]. }
  assert (Hold : forall f, f ∈ c :: order -> best_of st' f = best_of st f).
  { intros f Hf. rewrite Hbest by auto. rewrite decide_False; [done|]. by intros ->. }
  split; unfold st'; simpl.
  - rewrite length_insert. apply (si_best _ _ _ Hinv).
  - rewrite length_insert. apply (si_predecessors _ _ _ Hinv).
  - apply (si_flags _ _ _ Hinv).
  - apply (si_order _ _ _ Hinv).
  - apply (si_order_range _ _ _ Hinv).
  - apply (si_finalized _ _ _ Hinv).
  - fold st'. rewrite Hbest by apply Hstart. case_decide as E; [exfalso|apply (si_start _ _ _ Hinv)].
    rewrite <- E, (si_start _ _ _ Hinv) in Hlt. revert Hlt. unfold cost. clear - Hwc Hw.
    unfold within, positive in *. cost_lia.
  - fold st'. intros u Hu Hnu. destruct (decide (u = s)) as [->|Hne].
    + rewrite Hbest by apply Hs. rewrite decide_True by done. split; [|done]. right.
      exists c, w, k, d. unfold st'. erewrite predecessor_updated by (done || apply Hs).
      rewrite decide_True by done. split_and!; try done. fold st'.
      rewrite Hbest by apply Hs. rewrite decide_True by done. by rewrite Hold.
    + apply Hlab in Hu as [->|Hu]; [done|]. rewrite Hbest by apply Hu. rewrite decide_False by done.
      destruct (si_labels _ _ _ Hinv u Hu Hnu) as [Hj Hwu]. split; [|done].
      by eapply justified_updated; [done|done|apply Hu|..].
  - fold st'. intros l1 u l2 E. assert (Hu : u ∈ c :: order) by (rewrite E; set_solver).
    rewrite Hold by done. destruct (si_chain _ _ _ Hinv l1 u l2 E) as [Hj Hwu]. split; [|done].
    eapply justified_updated; try done; [by apply Hpos|by intros ->| |];
      [intros Hin'; apply Hnot; rewrite E; set_solver|intros p Hp; apply Hpos; rewrite E; set_solver].
  - fold st'. intros l1 u l2 f E Hf. rewrite !Hold by (rewrite E; set_solver).
    by eapply (si_costs _ _ _ Hinv).
  - fold st'. intros f u Hf Hu Hnu. rewrite Hold by done. destruct (decide (u = s)) as [->|Hne].
    + rewrite Hbest by apply Hs. rewrite decide_True by done.
      pose proof (last_dearest _ _ _ _ _ Hinv Hf) as Hle. unfold cost.
      clear - Hle Hw. unfold positive in *. cost_lia.
    + apply Hlab in Hu as [->|Hu]; [done|]. rewrite Hbest by apply Hu. rewrite decide_False by done.
      by apply (si_monotone _ _ _ Hinv).
  - fold st'. intros u Hu Hnu. destruct (decide (u = s)) as [->|Hne].
    + eexists. split; [apply elem_of_queue_push; by left|]. simpl. split; [done|].
      rewrite Hbest by apply Hs. by rewrite decide_True by done.
    + apply Hlab in Hu as [->|Hu]; [done|]. rewrite Hbest by apply Hu. rewrite decide_False by done.
      destruct (si_waiting _ _ _ Hinv u Hu Hnu) as (e & He & Hes). exists e. split; [|done].
      apply elem_of_queue_push. by right.
  - fold st'. intros e He. apply elem_of_queue_push in He as [->|He]; simpl.
    + rewrite Hbest by apply Hs. rewrite decide_True by done. split; [apply Hlab; by left|].
      clear. cost_lia.
    + destruct (si_entries _ _ _ Hinv e He) as [Hl Hle]. split; [apply Hlab; by right|].
      rewrite Hbest by apply Hl. case_decide as E; [|done]. rewrite E in Hle. clear - Hle Hlt.
      cost_lia.
  - apply queue_push_sorted, (si_queue _ _ _ Hinv).
  - fold st'. intros f s' w' kd Hf Hst' Hrel. rewrite (Hold f Hf).
    destruct (Hstep _ _ _ _ Hst') as [Hs' _]. rewrite Hbest by apply Hs'.
    destruct (decide (kd = (k, d) /\ f = c)) as [[-> ->]|Hdiff].
    + destruct (Hfun _ _ _ _ _ _ Hst Hst') as [<- <-]. rewrite decide_True by done.
      split; [apply Hlab; by left|]. clear. cost_lia.
    + assert (Hr : head (c :: order) = Some f -> relaxed kd).
      { intros Hh. injection Hh as ->. destruct (Hrel eq_refl) as [?| ->]; [done|]. tauto. }
      destruct (si_closed _ _ _ Hinv f s' w' kd Hf Hst' Hr) as [Hl Hle].
      split; [apply Hlab; by right|]. case_decide as E; [|done]. subst s'. clear - Hle Hlt. cost_lia.
Qed.

(** What one relaxation does to the counters and the queue. *)
Definition counted (st st' : Search) : Prop :=
  rst_stateExpansions (se_stats st') = rst_stateExpansions (se_stats st) /\
  rst_queuePushes (se_stats st) <= rst_queuePushes (se_stats st') <=
    rst_queuePushes (se_stats st) + 1 /\
  Z.of_nat (length (se_queue st')) <= Z.of_nat (length (se_queue st)) + 1.

Lemma counted_refl st : counted st st.
Proof using Type. unfold counted. clear. lia. Qed.

Definition out_of_pushes (st : Search) : Prop :=
  rb_maxQueuePushes (ro_budget options) <= rst_queuePushes (se_stats st).

(** Only kinds with a step out of the last state matter. *)
Lemma relaxed_change order (r r' : PredecessorKind * Direction -> Prop) st :
  (forall c s w kd, head order = Some c -> step c s w kd -> r' kd -> r kd) ->
  search_inv order r st -> search_inv order r' st.
Proof using Type.
  intros Hr Hinv. destruct Hinv. split; try done. intros f s w kd Hf Hst Hrel.
  apply (si_closed0 f s w kd); eauto.
Qed.

Lemma stats_inv order relaxed st stats :
  search_inv order relaxed st -> search_inv order relaxed (with_stats st stats).
Proof using Type. intros []. by split. Qed.

Lemma relaxTo_spec c order relaxed st s w k d :
  search_inv (c :: order) relaxed st -> step c s w (k, d) ->
  exists b st', relaxTo options st s (cost_add (best_of st c) w) (mkPred c k d) = (b, st') /\
    if (b : bool)
    then search_inv (c :: order) (fun kd => relaxed kd \/ kd = (k, d)) st' /\
         best_of st' c = best_of st c /\ counted st st'
    else se_status st' = RouteBudgetExceeded /\ out_of_pushes st' /\
         rst_stateExpansions (se_stats st') = rst_stateExpansions (se_stats st) /\
         rst_queuePushes (se_stats st') = rst_queuePushes (se_stats st).
Proof using Hstep Hfun Hstart Hcost0 Hfits HM.
  intros Hinv Hst. destruct (Hstep _ _ _ _ Hst) as [Hs Hw].
  assert (Hc : 0 <= c < count) by (apply (si_order_range _ _ _ Hinv); left).
  assert (Hkeep : labelled st s -> cost_le (best_of st s) (cost_add (best_of st c) w) ->
    search_inv (c :: order) (fun kd => relaxed kd \/ kd = (k, d)) st).
  { intros Hl Hle. pose proof Hinv as []. split; try done. intros f s' w' kd Hf Hst' Hrel.
    destruct (decide (kd = (k, d) /\ f = c)) as [[-> ->]|Hdiff].
    - destruct (Hfun _ _ _ _ _ _ Hst Hst') as [<- <-]. done.
    - apply (si_closed0 f s' w' kd Hf Hst'). intros Hh. injection Hh as ->.
      destruct (Hrel eq_refl) as [?| ->]; [done|]. tauto. }
  unfold relaxTo. destruct (is_finalized st s) eqn:Ef.
  { apply (si_finalized _ _ _ Hinv s Hs) in Ef. exists true, st. split; [done|].
    split_and!; [|done|apply counted_refl]. apply Hkeep.
    - by apply (finalized_spec _ _ _ s Hinv).
    - pose proof (last_dearest _ _ _ _ _ Hinv Ef) as Hle. clear - Hle Hw.
      unfold positive in *. cost_lia. }
  destruct (cost_ltb (cost_add (best_of st c) w) (best_of st s)) eqn:El; simpl.
  2:{ apply cost_ltb_false in El. exists true, st. split; [done|].
      split_and!; [|done|apply counted_refl]. apply Hkeep; [|done]. split; [done|]. intros Einf.
      destruct (si_chain _ _ _ Hinv [] c order eq_refl) as [_ Hwc].
      pose proof (within_step _ _ _ Hwc Hw) as Hwi. pose proof (order_length _ _ _ Hinv) as Hlen.
      rewrite Einf in El. revert El Hwi Hlen. clear - Hfits HM Hcost0 Hstart.
      unfold within, cost_infinite, u64_max, u32_max in *. cbn [length]. intros.
      unfold cost_le, cost_add in *. simpl in *. nia. }
  apply cost_ltb_true in El.
  assert (Hnot : s ∉ c :: order).
  { intros Hin. apply (si_finalized _ _ _ Hinv s Hs) in Hin. congruence. }
  unfold push. simpl. destruct (Z.leb_spec (rb_maxQueuePushes (ro_budget options))
    (rst_queuePushes (se_stats st))) as [Hb|Hb].
  - exists false. eexists. split; [reflexivity|]. simpl. done.
  - exists true. eexists. split; [reflexivity|]. split; [|split].
    + by apply update_inv.
    + unfold best_of. simpl. rewrite list_lookup_insert_ne; [done|].
      assert (c <> s) by (intros ->; apply Hnot; left). clear - H Hc Hs. lia.
    + unfold counted. simpl. rewrite queue_push_length. clear. lia.
Qed.

(** *** Popping an entry *)

Definition settled : PredecessorKind * Direction -> Prop := fun _ => True.

Definition with_queue (st : Search) (queue : list QueueEntry) : Search :=
  mkSearch (se_status st) (se_diagnostics st) (se_stats st) (se_best st)
    (se_predecessors st) (se_finalized st) queue (se_sequence st).

Definition finalize (st : Search) (s : Z) : Search :=
  mkSearch (se_status st) (se_diagnostics st) (se_stats st) (se_best st) (se_predecessors st)
    (<[nat_of s := true]> (se_finalized st)) (se_queue st) (se_sequence st).

Lemma stale_inv order st e q :
  search_inv order settled st -> se_queue st = e :: q ->
  is_finalized st (qe_state e) = true \/ qe_cost e <> best_of st (qe_state e) ->
  search_inv order settled (with_queue st q).
Proof using Type.
  intros Hinv Hq Hstale. pose proof Hinv as []. split; try done; simpl.
  - intros u Hu Hnu. destruct (si_waiting0 u Hu Hnu) as (e' & He' & Es & Ec).
    rewrite Hq in He'. apply elem_of_cons in He' as [->|He']; [|by exists e'].
    exfalso. destruct Hstale as [Hf|Hne]; [|by rewrite Es, Ec in Hne].
    rewrite Es in Hf. apply si_finalized0 in Hf; [done|apply Hu].
  - intros e' He'. apply si_entries0. rewrite Hq. by right.
  - rewrite Hq in si_queue0. by apply StronglySorted_inv in si_queue0 as [? _].
Qed.

Lemma head_least order st e q u :
  search_inv order settled st -> se_queue st = e :: q -> labelled st u -> u ∉ order ->
  cost_le (qe_cost e) (best_of st u).
Proof using Type.
  intros Hinv Hq Hu Hnu. destruct (si_waiting _ _ _ Hinv u Hu Hnu) as (e' & He' & _ & <-).
  pose proof (si_queue _ _ _ Hinv) as Hs. rewrite Hq in Hs, He'.
  apply StronglySorted_inv in Hs as [_ Hs]. apply elem_of_cons in He' as [->|He'].
  - clear. cost_lia.
  - by apply (proj1 (Forall_forall _ _) Hs).
Qed.

Lemma finalize_inv order st e q :
  search_inv order settled st -> se_queue st = e :: q ->
  is_finalized st (qe_state e) = false -> qe_cost e = best_of st (qe_state e) ->
  search_inv (qe_state e :: order) (fun _ => False) (finalize (with_queue st q) (qe_state e)).
Proof using Hstep Hfun Hstart Hcost0 HM.
  intros Hinv Hq Hf Hc. pose proof Hinv as [].
  set (s := qe_state e) in *. set (st' := finalize _ _).
  assert (Hs : labelled st s) by (apply si_entries0; rewrite Hq; left).
  assert (Hnot : s ∉ order) by (intros Hin; apply si_finalized0 in Hin; [congruence|apply Hs]).
  destruct (si_labels0 s Hs Hnot) as [Hj Hw].
  assert (Hjust : forall parents u, justified st' parents u <-> justified st parents u) by done.
  assert (Hlab : forall u, labelled st' u <-> labelled st u) by done.
  split; unfold st'; simpl; try done.
  - by rewrite length_insert.
  - by constructor.
  - intros u Hu. apply elem_of_cons in Hu as [->|Hu]; [apply Hs|auto].
  - intros u Hu. unfold is_finalized. simpl. rewrite elem_of_cons.
    destruct (decide (u = s)) as [->|Hne].
    + rewrite list_lookup_insert_eq; [naive_solver|]. destruct Hs as [Hr _].
      clear - Hr si_flags0. lia.
    + rewrite list_lookup_insert_ne by (destruct Hs as [Hr _]; clear - Hne Hr Hu; lia).
      rewrite (si_finalized0 u Hu). naive_solver.
  - intros u Hu Hnu. apply not_elem_of_cons in Hnu as [Hne Hnu].
    destruct (si_labels0 u Hu Hnu) as [Hju Hwu]. split.
    + destruct Hju as [Hju|(p & w & k & d & Hp & Hin & Hst & Hb)]; [by left|right].
      exists p, w, k, d. split_and!; try done. by right.
    + eapply within_mono; [|exact Hwu]. clear. lia.
  - intros l1 u l2 E. destruct l1 as [|x l1]; simpl in E; injection E as -> E.
    + subst. done.
    + by eapply si_chain0.
  - intros l1 u l2 f E Hfin. destruct l1 as [|x l1]; simpl in E; injection E as -> E.
    + subst. by apply si_monotone0.
    + by eapply si_costs0.
  - intros f u Hfin Hu Hnu. apply not_elem_of_cons in Hnu as [Hne Hnu].
    apply elem_of_cons in Hfin as [->|Hfin]; [|by apply si_monotone0].
    change (cost_le (best_of st s) (best_of st u)). rewrite <- Hc. by eapply head_least.
  - intros u Hu Hnu. apply not_elem_of_cons in Hnu as [Hne Hnu].
    destruct (si_waiting0 u Hu Hnu) as (e' & He' & Es & Ec). exists e'. split; [|done].
    rewrite Hq in He'. apply elem_of_cons in He' as [->|He']; [by rewrite <- Es in Hne|done].
  - intros e' He'. apply si_entries0. rewrite Hq. by right.
  - rewrite Hq in si_queue0. by apply StronglySorted_inv in si_queue0 as [? _].
  - intros f s' w kd Hfin Hst Hrel. apply elem_of_cons in Hfin as [->|Hfin]; [by destruct Hrel|].
    by apply (si_closed0 f s' w kd).
Qed.

(** *** What the invariant says about walks *)

(** A walk ends in a finalized state it reaches no cheaper, or is at least as dear
    as some state still waiting. *)
Lemma frontier order st s c :
  search_inv order settled st -> walk s c ->
  (s ∈ order /\ cost_le (best_of st s) c) \/
  exists u, labelled st u /\ u ∉ order /\ cost_le (best_of st u) c.
Proof using Hstep Hstart Hcost0 Hfits HM.
  intros Hinv. induction 1 as [|p s c w kd Hwalk IH Hst].
  - pose proof (start_labelled _ _ _ Hinv) as Hl. pose proof (si_start _ _ _ Hinv) as Hb.
    destruct (decide (start ∈ order)).
    + left. split; [done|]. rewrite Hb. clear. cost_lia.
    + right. exists start. rewrite Hb. split_and!; [done|done|]. clear. cost_lia.
  - destruct (Hstep _ _ _ _ Hst) as [_ Hw]. destruct IH as [[Hp Hle]|(u & Hu & Hnu & Hle)].
    + destruct (si_closed _ _ _ Hinv p s w kd Hp Hst ltac:(done)) as [Hl Hls].
      assert (cost_le (best_of st s) (cost_add c w)) by (clear - Hls Hle; cost_lia).
      destruct (decide (s ∈ order)); [by left|right; by exists s].
    + right. exists u. split_and!; [done..|]. clear - Hle Hw. unfold positive in *. cost_lia.
Qed.

(** The labels are costs of walks. *)
Lemma label_walk order relaxed st s :
  search_inv order relaxed st -> s ∈ order -> walk s (best_of st s).
Proof using Type.
  intros Hinv Hs. apply list_elem_of_split in Hs as (l1 & l2 & E).
  remember (length l2) as n eqn:Hn. revert l1 s l2 E Hn.
  induction n as [n IH] using lt_wf_ind. intros l1 s l2 E ->.
  destruct (si_chain _ _ _ Hinv l1 s l2 E) as [Hj _].
  destruct Hj as [[-> ->]|(p & w & k & d & _ & Hp & Hst & ->)]; [constructor|].
  apply list_elem_of_split in Hp as (k1 & k2 & ->).
  apply (walk_step p s _ w (k, d)); [|done].
  apply (IH (length k2) ltac:(rewrite length_app; simpl; lia) (l1 ++ s :: k1) p k2); [|done].
  rewrite E, <- app_assoc. done.
Qed.

(** *** The way back *)

(** [trail st s0 steps s]: the recorded steps lead from [s0] to [s], each one
    accounting for the label of the state it reaches. *)
Inductive trail (st : Search) (s0 : Z) : list (Z * Predecessor) -> Z -> Prop :=
  | trail_start : trail st s0 [] s0
  | trail_step steps p s k d w :
      trail st s0 steps p -> step p s w (k, d) ->
      best_of st s = cost_add (best_of st p) w ->
      trail st s0 (steps ++ [(s, mkPred p k d)]) s.

Definition parents (steps : list (Z * Predecessor)) : list Z :=
  (fun x => pd_previous x.2) <$> steps.

Lemma chain_spec order relaxed st :
  search_inv order relaxed st -> (forall p s w d, ~ step p s w (PredNone, d)) ->
  forall l1 s l2, order = l1 ++ s :: l2 ->
  forall fuel acc, (length l2 < fuel)%nat -> (length acc + length l2 < length order)%nat ->
  exists steps, chain fuel st start s acc = Some (steps ++ acc) /\
    trail st start steps s /\ NoDup (parents steps) /\ (forall p, p ∈ parents steps -> p ∈ l2).
Proof using Hstep Hfun Hstart Hcost0 Hfits HM.
  intros Hinv Hnone l1 s l2. remember (length l2) as n eqn:Hn. revert l1 s l2 Hn.
  induction n as [n IH] using lt_wf_ind. intros l1 s l2 Hn E fuel acc Hfuel Hacc.
  destruct fuel as [|fuel]; [lia|]. cbn [chain]. destruct (Z.eqb_spec s start) as [->|Hne].
  { exists []. split; [done|]. split; [constructor|]. split; [apply NoDup_nil_2|].
    intros p Hp. by apply not_elem_of_nil in Hp. }
  destruct (si_chain _ _ _ Hinv l1 s l2 E) as [Hj _].
  destruct Hj as [[? _]|(p & w & k & d & Hp & Hin & Hst & Hb)]; [done|]. rewrite Hp.
  destruct (Hstep _ _ _ _ Hst) as [Hs _]. pose proof (si_predecessors _ _ _ Hinv) as Hlen.
  pose proof (order_length _ _ _ Hinv) as Hol. cbn [pd_kind pd_previous].
  assert ((Z.of_nat (length (se_predecessors st)) <=? s) || bool_decide (k = PredNone) ||
    (Z.of_nat (length (se_predecessors st)) <? Z.of_nat (length acc)) = false) as ->.
  { rewrite Hlen. rewrite bool_decide_eq_false_2 by (intros ->; by apply Hnone in Hst).
    rewrite orb_false_r. apply orb_false_iff. rewrite Z.leb_gt, Z.ltb_ge.
    clear - Hs Hol Hacc. lia. }
  apply list_elem_of_split in Hin as (k1 & k2 & El).
  assert (Hl2 : (length k2 < n)%nat) by (rewrite Hn, El, length_app; simpl; clear; lia).
  destruct (IH (length k2) Hl2 (l1 ++ s :: k1) p k2 eq_refl) with (fuel := fuel)
    (acc := (s, mkPred p k d) :: acc) as (steps & Hc & Ht & Hnd & Hsub).
  { rewrite E, El, <- app_assoc. done. }
  { clear - Hl2 Hfuel. lia. }
  { simpl. clear - Hl2 Hacc. lia. }
  exists (steps ++ [(s, mkPred p k d)]). rewrite Hc, <- app_assoc. split; [done|].
  split; [by econstructor|]. unfold parents in *. rewrite fmap_app. cbn [fmap list_fmap pd_previous snd].
  assert (Hnd2 : NoDup (p :: k2)).
  { pose proof (si_order _ _ _ Hinv) as Ho. rewrite E, El in Ho.
    apply NoDup_app in Ho as (_ & _ & Ho). apply NoDup_cons in Ho as [_ Ho].
    by apply NoDup_app in Ho as (_ & _ & Ho). }
  apply NoDup_cons in Hnd2 as [Hp2 _]. split.
  - apply NoDup_app. split; [done|]. split; [|apply NoDup_singleton].
    intros x Hx Hx1. apply list_elem_of_singleton in Hx1 as ->. by apply Hp2, Hsub.
  - intros x Hx. rewrite El. apply elem_of_app in Hx as [Hx|Hx].
    + apply Hsub in Hx. set_solver.
    + apply list_elem_of_singleton in Hx as ->. set_solver.
Qed.

(** *** The initial state *)

Lemma initial_inv st :
  st = mkSearch RouteInternalError [] no_route_stats
         (<[nat_of start := cost0]> (replicate (nat_of count) cost_infinite))
         (replicate (nat_of count) no_predecessor) (replicate (nat_of count) false) [] 0 ->
  forall stats sequence,
  search_inv [] settled
    (mkSearch (se_status st) (se_diagnostics st) stats (se_best st) (se_predecessors st)
       (se_finalized st) [mkEntry cost0 start 0] sequence).
Proof using Hstart Hcost0 Hfits HM.
  intros -> stats sequence. simpl.
  set (st' := mkSearch _ _ _ _ _ _ _ _).
  assert (Hbs : best_of st' start = cost0).
  { unfold best_of, st'. simpl. rewrite list_lookup_insert_eq; [done|].
    rewrite length_replicate. clear - Hstart. lia. }
  assert (Hlab : forall u, labelled st' u -> u = start).
  { intros u [Hu Hb]. destruct (decide (u = start)) as [|Hne]; [done|]. exfalso. apply Hb.
    unfold best_of, st'. simpl. rewrite list_lookup_insert_ne by (clear - Hne Hu Hstart; lia).
    destruct (replicate _ _ !! _) eqn:E; [|done]. by apply lookup_replicate in E as [-> _]. }
  assert (Hsl : labelled st' start).
  { split; [done|]. rewrite Hbs. apply (within_infinite 0); [clear - Hstart; lia|].
    unfold within. clear - Hcost0. lia. }
  split; unfold st'; simpl.
  - rewrite length_insert, length_replicate. clear - Hstart. lia.
  - rewrite length_replicate. clear - Hstart. lia.
  - rewrite length_replicate. clear - Hstart. lia.
  - apply NoDup_nil_2.
  - intros s Hs. by apply not_elem_of_nil in Hs.
  - intros s Hs. unfold is_finalized. simpl. rewrite elem_of_nil.
    destruct (replicate _ _ !! _) eqn:E; [|done]. by apply lookup_replicate in E as [-> _].
  - done.
  - fold st'. intros s Hl _. apply Hlab in Hl as ->. rewrite Hbs. split; [by left|].
    unfold within. clear - Hcost0. simpl. lia.
  - intros l1 s l2 E. by destruct l1.
  - intros l1 s l2 f E. by destruct l1.
  - intros f u Hf. by apply not_elem_of_nil in Hf.
  - fold st'. intros u Hl _. apply Hlab in Hl as ->. eexists. split; [left|]. by rewrite Hbs.
  - fold st'. intros e He. apply list_elem_of_singleton in He as ->. simpl. rewrite Hbs.
    split; [done|]. clear. cost_lia.
  - repeat constructor.
  - intros f s w kd Hf. by apply not_elem_of_nil in Hf.
Qed.
End BestFirst.
