(* ===== verification/RouteSearchExact.v ===== *)
(** * The route search is exact

    Why [RouteSearch.route_search] returns the best route or rightly none: the theory of
    [BestFirst] applied to the mesh, whose states are pairs of a tile and a modulo
    slot and whose steps are free links and one-cycle waits. *)
From stdpp Require Import base numbers list gmap sorting strings.
From S2P Require Import Prelude.
From S2P Require Import IR.
From S2P Require Import TargetModel.
From S2P Require Import CgraV2.
From S2P Require Import TargetDFG.
From S2P Require Import TargetDFGVerifier.
From S2P Require Import ModuloResources.
From S2P Require Import ModuloMapping.
From S2P Require Import MappingVerifier.
From S2P Require Import RouteSearch.
From S2P Require Import BestFirst.

(** ** The routes a request may have *)

Definition is_hold (action : TransportAction) : bool :=
  match action with VirtualHold _ _ _ _ => true | LinkStep _ _ _ _ => false end.
Definition hold_span (action : TransportAction) : Z :=
  match action with VirtualHold _ _ capture release => release - capture | _ => 0 end.
Definition link_hops (action : TransportAction) : Z :=
  match action with LinkStep _ _ _ _ => 1 | _ => 0 end.

(** The cost of a plan: its separation, its waiting cycles, its hops. *)
Definition plan_cost (plan : TransportPlan) : Cost :=
  mkCost (tp_requiredSeparationCycles plan) (sumZ (hold_span <$> tp_actions plan))
    (sumZ (link_hops <$> tp_actions plan)).

Section Deliverable.
Context (resources : ModuloResourceModel) (reservations : ReservationTable)
  (request : RouteSearchRequest) (options : RouteSearchOptions) (domain : NetworkDomain) (ready : Z).
Local Abbreviation hop := (net_hopLatency (tm_interconnect (rm_target resources))).

(** A resource of the universe that nobody holds. *)
Definition available (r : ModuloResource) : Prop :=
  exists id, findResource resources r = Ok id /\ slot_of reservations id = None.

(** The modulo resources the links of a plan occupy. *)
Definition link_uses (actions : list TransportAction) : list ModuloResource :=
  map_slot (fun cycle => cycle mod rm_ii resources) <$>
    link_occurrences (np_issueSlot (rq_producer request)) actions.

(** A plan that carries the value from the producer's tile, when it is ready, to
    the consumer's tile, over free links used once each. *)
Record deliverable (plan : TransportPlan) : Prop := {
  dl_edge : tp_edge plan = rq_edge request;
  dl_domain : tp_domain plan = domain;
  dl_actions : tp_actions plan <> [];
  dl_route : route (rm_target resources) hop domain (np_tile (rq_producer request)) ready
    (tp_actions plan) (np_tile (rq_consumer request)) (tp_requiredSeparationCycles plan);
  dl_holds : ro_allowVirtualHold options = false ->
    Forall (fun action => is_hold action = false) (tp_actions plan);
  dl_free : Forall available (link_uses (tp_actions plan));
  dl_exclusive : NoDup (link_uses (tp_actions plan))
}.
End Deliverable.

Lemma route_app target hop domain l1 l2 tile elapsed tile' elapsed' :
  route target hop domain tile elapsed (l1 ++ l2) tile' elapsed' <->
  exists t e, route target hop domain tile elapsed l1 t e /\ route target hop domain t e l2 tile' elapsed'.
Proof.
  split.
  - revert tile elapsed. induction l1 as [|a l1 IH]; simpl; intros tile elapsed H.
    + exists tile, elapsed. by split; [constructor|].
    + inversion H; subst;
        match goal with H' : route _ _ _ _ _ (l1 ++ l2) _ _ |- _ =>
          destruct (IH _ _ H') as (t & e & ? & ?) end;
        exists t, e; split; [by econstructor|done|by econstructor|done].
  - intros (t & e & H1 & H2). induction H1; simpl; [done|econstructor; eauto..].
Qed.

Lemma route_nil target hop domain tile elapsed tile' elapsed' :
  route target hop domain tile elapsed [] tile' elapsed' -> tile = tile' /\ elapsed = elapsed'.
Proof. by inversion 1. Qed.

Lemma link_uses_app resources request l1 l2 :
  link_uses resources request (l1 ++ l2) = link_uses resources request l1 ++ link_uses resources request l2.
Proof. unfold link_uses, link_occurrences. by rewrite omap_app, fmap_app. Qed.

(** [hop_count] and [hold_cycles] are the counts at their width. *)
Lemma hop_count_spec actions :
  sumZ (link_hops <$> actions) <= u32_max -> hop_count actions = sumZ (link_hops <$> actions).
Proof.
  unfold hop_count. assert (H : forall l n, 0 <= n -> n + sumZ (link_hops <$> l) <= u32_max ->
    foldl (fun n action => match action with LinkStep _ _ _ _ => wrap32 (n + 1) | _ => n end) n l
      = n + sumZ (link_hops <$> l)); [|intros Hs; by rewrite H].
  induction l as [|a l IH]; intros n Hn Hs; [simpl; lia|].
  rewrite fmap_cons in *. cbn [sumZ foldr foldl] in *. fold (sumZ (link_hops <$> l)) in *.
  assert (0 <= sumZ (link_hops <$> l)).
  { apply sumZ_nonneg. intros x Hx. apply list_elem_of_fmap in Hx as ([] & -> & _); simpl; lia. }
  destruct a; cbn [link_hops] in *; [|rewrite IH; lia].
  rewrite wrap32_id by (unfold is_u32; lia). rewrite IH; lia.
Qed.

Lemma hold_cycles_spec actions :
  Forall (fun action => 0 <= hold_span action) actions ->
  sumZ (hold_span <$> actions) <= u32_max -> hold_cycles actions = sumZ (hold_span <$> actions).
Proof.
  unfold hold_cycles. assert (H : forall l, Forall (fun action => 0 <= hold_span action) l ->
    forall n, 0 <= n -> n + sumZ (hold_span <$> l) <= u32_max ->
    foldl (fun n action => match action with
                           | VirtualHold _ _ capture release => wrap32 (n + wrap32 (release - capture))
                           | _ => n
                           end) n l
      = n + sumZ (hold_span <$> l)); [|intros Hl Hs; by rewrite H].
  induction 1 as [|a l Ha Hl IH]; intros n Hn Hs; [simpl; lia|].
  rewrite fmap_cons in *. cbn [sumZ foldr foldl] in *. fold (sumZ (hold_span <$> l)) in *.
  assert (0 <= sumZ (hold_span <$> l)).
  { apply sumZ_nonneg. intros x Hx. apply list_elem_of_fmap in Hx as (a' & -> & Hin).
    by apply (proj1 (Forall_forall _ _) Hl). }
  destruct a; cbn [hold_span] in *; [rewrite IH; lia|].
  rewrite (wrap32_id (_ - _)) by (unfold is_u32; lia).
  rewrite wrap32_id by (unfold is_u32; lia). rewrite IH; lia.
Qed.

(** ** The mesh as a graph of states *)

#[local] Arguments stateFor : simpl never.
#[local] Arguments stateId : simpl never.

Section Mesh.
Context (resources : ModuloResourceModel) (Hres : ResourceModel_wf resources).
Context (reservations : ReservationTable)
  (Htable : length reservations = length (rm_resources resources)).
Context (request : RouteSearchRequest) (options : RouteSearchOptions) (domain : NetworkDomain).
Local Abbreviation target := (rm_target resources).
Local Abbreviation ii := (rm_ii resources).
Local Abbreviation rows := (arr_rows (tm_array target)).
Local Abbreviation cols := (arr_cols (tm_array target)).
Local Abbreviation hop := (net_hopLatency (tm_interconnect target)).
Local Abbreviation inside := (tile_inside rows cols).
Local Abbreviation issue := (np_issueSlot (rq_producer request)).
Local Abbreviation source := (np_tile (rq_producer request)).
Context (ready : Z) (Hready : 0 <= ready).
Context (Hissue : 0 <= issue < ii) (Hsource : inside source).

Definition state_count : Z := rows * cols * ii.
Context (Hfits : ready + (state_count + 1) * hop <= u32_max).

Local Abbreviation tile_of s := (stateFor target s).1.
Local Abbreviation slot_at s := (stateFor target s).2.

Lemma dims : 0 < rows /\ 0 < cols /\ 0 < ii /\ 0 < hop /\ 0 < rows * cols /\ 0 < state_count.
Proof using Hres.
  clear Htable Hready Hissue Hsource Hfits.
  pose proof (wf_rows _ (rmwf_target _ Hres)). pose proof (wf_cols _ (rmwf_target _ Hres)).
  pose proof (rmwf_ii _ Hres). pose proof (wf_hopLatency _ (rmwf_target _ Hres)).
  unfold state_count. assert (0 < rows * cols) by nia. split_and!; nia.
Qed.

Lemma count_small : state_count <= u32_max /\ rows * cols <= u32_max /\ rows <= u32_max /\
  cols <= u32_max /\ ii <= u32_max.
Proof using Hres Hfits Hready.
  clear Htable Hissue Hsource.
  pose proof dims as (Hr & Hc & Hi & Hh & Hrc & Hn).
  assert (state_count <= u32_max) by nia. unfold state_count in *. split_and!; nia.
Qed.

Lemma network_hop : net_hopLatency (network_of target domain) = hop.
Proof using Type. by destruct domain. Qed.

(** A state's coordinates and its number determine each other. *)
Lemma stateId_spec tile slot :
  inside tile -> 0 <= slot < ii ->
  0 <= stateId target tile slot < state_count /\
  stateFor target (stateId target tile slot) = (tile, slot).
Proof using Hres Hfits Hready.
  clear Htable Hissue Hsource. intros [Hr Hc] Hs. pose proof dims as (Hrows & Hcols & Hii & Hh & Hrc & Hn).
  pose proof count_small as (Hsmall & Hrcs & Hrs & Hcs & His). destruct tile as [r c]. simpl in *.
  assert (Hin : 0 <= slot * rows + r < rows * ii) by nia.
  assert (Hid : 0 <= (slot * rows + r) * cols + c < state_count).
  { unfold state_count. clear - Hin Hc Hcols. nia. }
  unfold stateId, stateFor. simpl. unfold u32_max in *.
  rewrite (wrap64_id ((slot * rows + r) * cols + c)) by (clear - Hid Hsmall; unfold is_u64, u64_max; lia).
  split; [done|]. rewrite (wrap64_id (rows * cols)) by (clear - Hrc Hrcs; unfold is_u64, u64_max; lia).
  replace ((slot * rows + r) * cols + c) with ((r * cols + c) + slot * (rows * cols)) by (clear; ring).
  assert (Hw : 0 <= r * cols + c < rows * cols) by (clear - Hr Hc Hcols; nia).
  rewrite Z.mod_add, Z.div_add by (clear - Hrc; lia).
  rewrite (Z.mod_small _ _ Hw), (Z.div_small _ _ Hw), Z.add_0_l.
  rewrite (Z.add_comm (r * cols) c), Z.div_add, Z.mod_add by (clear - Hcols; lia).
  rewrite (Z.mod_small _ _ Hc), (Z.div_small _ _ Hc), Z.add_0_l.
  rewrite !wrap32_id; [done|..]; unfold is_u32, u32_max; clear - Hr Hc Hs Hrs Hcs His; lia.
Qed.

Lemma stateFor_spec s :
  0 <= s < state_count -> inside (tile_of s) /\ 0 <= slot_at s < ii /\
  stateId target (tile_of s) (slot_at s) = s.
Proof using Hres Hfits Hready.
  clear Htable Hissue Hsource. intros Hs. pose proof dims as (Hrows & Hcols & Hii & Hh & Hrc & Hn).
  pose proof count_small as (Hsmall & Hrcs & Hrs & Hcs & His).
  unfold stateFor. unfold u32_max in *.
  rewrite (wrap64_id (rows * cols)) by (clear - Hrc Hrcs; unfold is_u64, u64_max; lia). simpl.
  assert (Hq : 0 <= s / (rows * cols) < ii).
  { split; [apply Z.div_pos; lia|]. apply Z.div_lt_upper_bound; [done|]. unfold state_count in Hs. clear - Hs. lia. }
  pose proof (Z.mod_pos_bound s (rows * cols) Hrc) as Hm.
  assert (Hd : 0 <= s mod (rows * cols) / cols < rows).
  { split; [apply Z.div_pos; lia|]. apply Z.div_lt_upper_bound; [done|]. clear - Hm. lia. }
  pose proof (Z.mod_pos_bound (s mod (rows * cols)) cols Hcols) as Hc.
  rewrite !wrap32_id by (unfold is_u32, u32_max; clear - Hq Hd Hc His Hrs Hcs; lia).
  split; [done|]. split; [done|]. unfold stateId. simpl.
  pose proof (Z.div_mod s (rows * cols) ltac:(clear - Hrc; lia)) as E1.
  pose proof (Z.div_mod (s mod (rows * cols)) cols ltac:(clear - Hcols; lia)) as E2.
  assert (E : (s / (rows * cols) * rows + s mod (rows * cols) / cols) * cols +
              s mod (rows * cols) mod cols = s) by (clear - E1 E2; nia).
  rewrite E. apply wrap64_id. clear - Hs Hsmall. unfold is_u64, u64_max. lia.
Qed.

(** Two states with the same coordinates are the same. *)
Lemma stateFor_inj s s' :
  0 <= s < state_count -> 0 <= s' < state_count -> stateFor target s = stateFor target s' -> s = s'.
Proof using Hres Hfits Hready.
  intros Hs Hs' E. destruct (stateFor_spec s Hs) as (_ & _ & <-).
  destruct (stateFor_spec s' Hs') as (_ & _ & <-). by rewrite E.
Qed.

Lemma next_slot slot delta : 0 <= slot < ii -> 0 <= (slot + delta) mod ii < ii.
Proof using Type. intros H. apply Z.mod_pos_bound. clear - H. lia. Qed.

(** A link that exists and that nobody holds. *)
Definition free_link (tile : TileCoord) (direction : Direction) (slot : Z) : Prop :=
  exists res, findResource resources (LinkResource domain tile direction slot) = Ok res /\
    slot_of reservations res = None.

Definition mesh_step (p s : Z) (w : Cost) (kd : PredecessorKind * Direction) : Prop :=
  0 <= p < state_count /\
  match kd.1 with
  | PredLink => exists next, neighbor_in target (tile_of p) kd.2 = Some next /\
      free_link (tile_of p) kd.2 (slot_at p) /\
      s = stateId target next ((slot_at p + hop) mod ii) /\ w = mkCost hop 0 1
  | PredHold => ro_allowVirtualHold options = true /\ kd.2 = North /\
      s = stateId target (tile_of p) ((slot_at p + 1) mod ii) /\ w = mkCost 1 1 0
  | PredNone => False
  end.

Lemma neighbor_stays tile direction next :
  inside tile -> neighbor_in target tile direction = Some next -> inside next.
Proof using Hres.
  intros Ht Hn. pose proof (rmwf_target _ Hres) as Hw.
  apply neighbor_Some in Hn as [-> ?]; [done|apply Hw|apply Hw|done].
Qed.

Lemma mesh_step_range p s w kd :
  mesh_step p s w kd -> 0 <= s < state_count /\ positive hop w.
Proof using Hres Hfits Hready.
  intros [Hp H]. destruct (stateFor_spec p Hp) as (Ht & Hs & _).
  pose proof dims as (_ & _ & _ & Hh & _). destruct kd as [[] d]; cbn [fst snd] in H; [done| |].
  - destruct H as (next & Hn & _ & -> & ->). split.
    + apply stateId_spec; [by eapply neighbor_stays|by apply next_slot].
    + unfold positive. simpl. clear - Hh. lia.
  - destruct H as (_ & _ & -> & ->). split.
    + apply stateId_spec; [done|by apply next_slot].
    + unfold positive. simpl. clear - Hh. lia.
Qed.

Lemma mesh_step_fun p s s' w w' kd :
  mesh_step p s w kd -> mesh_step p s' w' kd -> s = s' /\ w = w'.
Proof using Type.
  intros [_ H] [_ H']. destruct kd as [[] d]; cbn [fst snd] in *; [done| |].
  - destruct H as (n & Hn & _ & -> & ->), H' as (n' & Hn' & _ & -> & ->).
    assert (n = n') as -> by congruence. done.
  - destruct H as (_ & _ & -> & ->), H' as (_ & _ & -> & ->). done.
Qed.

Definition start_state : Z := stateId target source ((issue + ready) mod ii).
Definition start_cost : Cost := mkCost ready 0 0.

Lemma start_range : 0 <= start_state < state_count /\
  stateFor target start_state = (source, (issue + ready) mod ii).
Proof using Hres Hfits Hready Hissue Hsource.
  apply stateId_spec; [done|]. apply Z.mod_pos_bound. clear - Hissue. lia.
Qed.

Local Abbreviation mesh_walk := (walk start_state start_cost mesh_step).

(** The slot of a state is the producer's issue slot plus the time elapsed. *)
Lemma walk_slot s c :
  mesh_walk s c -> 0 <= s < state_count /\ ready <= co_elapsed c /\
    slot_at s = (issue + co_elapsed c) mod ii.
Proof using Hres Hfits Hready Hissue Hsource.
  induction 1 as [|p s c w kd Hwalk (Hp & He & IH) Hst].
  - destruct start_range as [Hr Hf]. rewrite Hf. split; [done|]. split; [simpl; clear; lia|done].
  - pose proof (mesh_step_range _ _ _ _ Hst) as [Hs Hw]. split; [done|]. destruct Hst as [_ Hst].
    pose proof dims as (_ & _ & Hii & Hh & _). destruct (stateFor_spec p Hp) as (Ht & Hsl & _).
    assert (Hmod : forall delta, ((issue + co_elapsed c) mod ii + delta) mod ii =
              (issue + (co_elapsed c + delta)) mod ii).
    { intros delta. rewrite Z.add_mod_idemp_l by (clear - Hii; lia). f_equal. clear. lia. }
    destruct kd as [[] d]; cbn [fst snd] in Hst; [done| |].
    + destruct Hst as (next & Hn & _ & -> & ->).
      destruct (stateId_spec next ((slot_at p + hop) mod ii)) as [_ ->];
        [by eapply neighbor_stays|by apply next_slot|].
      cbn [snd cost_add co_elapsed]. split; [clear - He Hh; lia|]. by rewrite IH, Hmod.
    + destruct Hst as (_ & _ & -> & ->).
      destruct (stateId_spec (tile_of p) ((slot_at p + 1) mod ii)) as [_ ->]; [done|by apply next_slot|].
      cbn [snd cost_add co_elapsed]. split; [clear - He; lia|]. by rewrite IH, Hmod.
Qed.

(** *** Expanding a state *)

Local Abbreviation inv := (search_inv state_count start_state hop start_cost mesh_step).
Local Abbreviation after_push c order relaxed kd st r :=
  (exists b st', r = (b, st') /\
     if (b : bool)
     then inv (c :: order) (fun kd' => relaxed kd' \/ kd' = kd) st' /\
          best_of st' c = best_of st c /\ counted st st'
     else se_status st' = RouteBudgetExceeded /\ out_of_pushes options st' /\
          rst_stateExpansions (se_stats st') = rst_stateExpansions (se_stats st) /\
          rst_queuePushes (se_stats st') = rst_queuePushes (se_stats st)).

Lemma start_cost_zero :
  0 <= co_elapsed start_cost /\ co_holds start_cost = 0 /\ co_hops start_cost = 0.
Proof using Hready. done. Qed.

Lemma hop_positive : 0 < hop.
Proof using Hres. apply dims. Qed.

Lemma mesh_relax c order relaxed st s w k d :
  inv (c :: order) relaxed st -> mesh_step c s w (k, d) ->
  after_push c order relaxed (k, d) st
    (relaxTo options st s (cost_add (best_of st c) w) (mkPred c k d)).
Proof using Hres Hfits Hready Hissue Hsource.
  apply (relaxTo_spec options state_count start_state hop start_cost mesh_step mesh_step_range
    mesh_step_fun (proj1 start_range) start_cost_zero Hfits hop_positive).
Qed.

(** The label of a finalized state is the cost of a walk, and moderate. *)
Lemma current_spec c order relaxed st :
  inv order relaxed st -> c ∈ order ->
  0 <= c < state_count /\ mesh_walk c (best_of st c) /\
  0 <= co_elapsed (best_of st c) <= u32_max - hop /\
  0 <= co_holds (best_of st c) < u32_max /\ 0 <= co_hops (best_of st c) < u32_max /\
  co_elapsed (best_of st c) <= ready + state_count * hop.
Proof using Hres Hfits Hready Hissue Hsource.
  intros Hinv Hc. pose proof (order_length _ _ _ _ _ (proj1 start_range) _ _ _ Hinv) as Hlen.
  split; [by apply (si_order_range _ _ _ _ _ _ _ _ Hinv)|].
  split; [by eapply label_walk|]. apply list_elem_of_split in Hc as (l1 & l2 & E).
  destruct (si_chain _ _ _ _ _ _ _ _ Hinv l1 c l2 E) as [_ (He & Hh & Hk)].
  pose proof hop_positive as Hhop. rewrite E, length_app in Hlen. cbn [length] in Hlen.
  revert He Hh Hk Hlen Hhop.
  pose proof count_small as [Hsmall _]. revert Hsmall.
  unfold start_cost. cbn [co_elapsed co_holds co_hops]. clear - Hfits Hready. unfold u32_max in *.
  intros. nia.
Qed.

(** A link query at the current state finds exactly the free links. *)
Lemma link_query c elapsed direction next :
  0 <= c < state_count -> slot_at c = (issue + elapsed) mod ii ->
  neighbor_in target (tile_of c) direction = Some next ->
  exists launch found, advance ii issue elapsed = Ok launch /\
    linkResource resources domain (tile_of c) direction launch = Ok found /\
    match found with
    | None => ~ free_link (tile_of c) direction (slot_at c)
    | Some res => exists free, isFree reservations res = Ok free /\
        (free = true <-> free_link (tile_of c) direction (slot_at c))
    end.
Proof using Hres Htable Hfits Hready Hissue Hsource.
  intros Hc Hslot Hn. destruct (stateFor_spec c Hc) as (_ & Hs & _).
  exists (slot_at c). pose proof (rmwf_ii _ Hres) as Hii.
  destruct (linkResource_total resources Hres domain (tile_of c) direction (slot_at c)) as [found Hf];
    [apply Hs|].
  exists found. split; [|split; [done|]].
  { rewrite advance_spec by (apply Hii || apply Hissue). by rewrite Hslot. }
  destruct found as [res|].
  - apply linkResource_Ok in Hf as (_ & _ & Hid).
    pose proof Hid as [H0 Hl]%(findResource_Ok _ Hres). apply lookup_lt_Some in Hl.
    exists (bool_decide (slot_of reservations res = None)). unfold isFree, in_table.
    replace (res <? Z.of_nat (length reservations)) with true
      by (symmetry; apply Z.ltb_lt; rewrite Htable; clear - H0 Hl; lia).
    split; [done|]. rewrite bool_decide_eq_true. split.
    + intros Hnone. by exists res.
    + intros (res' & Hid' & Hnone). congruence.
  - intros (res & Hid & _). assert (linkResource resources domain (tile_of c) direction (slot_at c)
      = Ok (Some res)) by (apply linkResource_Ok; split_and!; [apply Hs|by rewrite Hn|done]).
    congruence.
Qed.

Lemma counted_stats st stats st' :
  rst_stateExpansions stats = rst_stateExpansions (se_stats st) ->
  rst_queuePushes stats = rst_queuePushes (se_stats st) ->
  counted (with_stats st stats) st' -> counted st st'.
Proof using Type. unfold counted. simpl. intros -> ->. done. Qed.

Lemma expandLink_spec c order relaxed st direction :
  inv (c :: order) relaxed st ->
  exists r, expandLink target resources reservations request options domain st c (best_of st c)
              direction = Ok r /\
    after_push c order relaxed (PredLink, direction) st r.
Proof using Hres Htable Hfits Hready Hissue Hsource.
  intros Hinv. destruct (current_spec c _ _ _ Hinv ltac:(left)) as (Hc & Hwalk & He & Hh & Hk).
  apply walk_slot in Hwalk as (_ & _ & Hslot).
  assert (Hskip : forall stats, rst_stateExpansions stats = rst_stateExpansions (se_stats st) ->
    rst_queuePushes stats = rst_queuePushes (se_stats st) ->
    (forall s w, ~ mesh_step c s w (PredLink, direction)) ->
    after_push c order relaxed (PredLink, direction) st (true, with_stats st stats)).
  { intros stats E1 E2 Hno. exists true. eexists. split; [reflexivity|]. split_and!; [|done|].
    - eapply relaxed_change; [|by apply stats_inv].
      intros c' s w kd Hhd Hst [?| ->]; [done|]. injection Hhd as ->. by apply Hno in Hst.
    - eapply counted_stats; [exact E1|exact E2|apply counted_refl]. }
  unfold expandLink. rewrite (surjective_pairing (stateFor target c)).
  destruct (neighbor_in target (tile_of c) direction) as [next|] eqn:En.
  2:{ eexists. split; [reflexivity|]. apply Hskip; [done|done|]. intros s w [_ H]. cbn [fst snd] in H.
      destruct H as (n & Hn & _). congruence. }
  destruct (link_query c (co_elapsed (best_of st c)) direction next Hc Hslot En)
    as (launch & found & -> & Hf & Hfound). cbn [mbind result_bind]. rewrite Hf. cbn [mbind result_bind].
  destruct found as [res|].
  2:{ eexists. split; [reflexivity|]. apply Hskip; [done|done|]. intros s w [_ H]. cbn [fst snd] in H.
      destruct H as (n & _ & Hfree & _). done. }
  destruct Hfound as (free & -> & Hfree). cbn [mbind result_bind]. destruct free; simpl negb; cbv iota.
  2:{ eexists. split; [reflexivity|]. apply Hskip; [done|done|]. intros s w [_ H]. cbn [fst snd] in H.
      destruct H as (n & _ & Hfree' & _). by apply Hfree in Hfree'. }
  rewrite network_hop.
  assert ((u64_max - hop <? co_elapsed (best_of st c)) || (co_hops (best_of st c) =? u32_max) = false)
    as ->.
  { apply orb_false_iff. rewrite Z.ltb_ge, Z.eqb_neq. clear - He Hk.
    unfold u64_max, u32_max in *. lia. }
  destruct (stateFor_spec c Hc) as (_ & Hs & _).
  rewrite advance_spec by (apply (rmwf_ii _ Hres) || done). cbn [mbind result_bind].
  eexists. split; [reflexivity|].
  destruct (mesh_relax c order relaxed (with_stats st (count_link (se_stats st)))
    (stateId target next ((slot_at c + hop) mod ii)) (mkCost hop 0 1) PredLink direction) as
    (b & st' & Hr & Hb).
  { by apply stats_inv. }
  { split; [done|]. cbn [fst snd]. exists next. split_and!; try done. by apply Hfree. }
  exists b, st'. split.
  - rewrite <- Hr. unfold cost_add. simpl. by rewrite Z.add_0_r.
  - destruct b; [|done]. destruct Hb as (H1 & H2 & H3). split_and!; [done|done|].
    by eapply counted_stats; [..|exact H3].
Qed.

Lemma expandHold_spec c order relaxed st :
  inv (c :: order) relaxed st -> ro_allowVirtualHold options = true ->
  exists r, expandHold target resources request options st c (best_of st c) = Ok r /\
    after_push c order relaxed (PredHold, North) st r.
Proof using Hres Hfits Hready Hissue Hsource.
  intros Hinv Hallow. destruct (current_spec c _ _ _ Hinv ltac:(left)) as (Hc & Hwalk & He & Hh & Hk).
  unfold expandHold.
  assert ((co_elapsed (best_of st c) =? u64_max) || (co_holds (best_of st c) =? u32_max) = false)
    as ->.
  { apply orb_false_iff. rewrite !Z.eqb_neq. pose proof hop_positive as Hhop. clear - He Hh Hhop.
    unfold u64_max, u32_max in *. lia. }
  destruct (stateFor_spec c Hc) as (_ & Hs & _).
  rewrite (surjective_pairing (stateFor target c)).
  rewrite advance_spec by (apply (rmwf_ii _ Hres) || done). cbn [mbind result_bind].
  eexists. split; [reflexivity|].
  destruct (mesh_relax c order relaxed (with_stats st (count_hold (se_stats st)))
    (stateId target (tile_of c) ((slot_at c + 1) mod ii)) (mkCost 1 1 0) PredHold North) as
    (b & st' & Hr & Hb).
  { by apply stats_inv. }
  { by split. }
  exists b, st'. split.
  - rewrite <- Hr. unfold cost_add. simpl. by rewrite Z.add_0_r.
  - destruct b; [|done]. destruct Hb as (H1 & H2 & H3). split_and!; [done|done|].
    by eapply counted_stats; [..|exact H3].
Qed.
(** [spent n st st']: at most [n] pushes later. *)
Definition spent (n : Z) (st st' : Search) : Prop :=
  rst_stateExpansions (se_stats st') = rst_stateExpansions (se_stats st) /\
  rst_queuePushes (se_stats st) <= rst_queuePushes (se_stats st') <=
    rst_queuePushes (se_stats st) + n /\
  Z.of_nat (length (se_queue st')) <= Z.of_nat (length (se_queue st)) + n.

(** The search stops because the pushes are used up. *)
Definition stopped (n : Z) (st st' : Search) : Prop :=
  se_status st' = RouteBudgetExceeded /\ out_of_pushes options st' /\
  rst_queuePushes (se_stats st') <= rst_queuePushes (se_stats st) + n.

Lemma expandLinks_spec c order directions : forall relaxed st,
  inv (c :: order) relaxed st ->
  exists b st', expandLinks target resources reservations request options domain st c (best_of st c)
                  directions = Ok (b, st') /\
    if (b : bool)
    then inv (c :: order) (fun kd => relaxed kd \/ kd.1 = PredLink /\ kd.2 ∈ directions) st' /\
         best_of st' c = best_of st c /\ spent (Z.of_nat (length directions)) st st'
    else stopped (Z.of_nat (length directions)) st st'.
Proof using Hres Htable Hfits Hready Hissue Hsource.
  induction directions as [|direction directions IH]; intros relaxed st Hinv.
  { exists true, st. split; [done|]. split_and!; [|done|unfold spent; simpl; clear; lia].
    eapply relaxed_change; [|exact Hinv]. intros c' s w kd _ _ [?|[_ H]]; [done|].
    by apply not_elem_of_nil in H. }
  cbn [expandLinks]. destruct (expandLink_spec _ _ _ _ direction Hinv) as (r & -> & b & st1 & -> & H1).
  cbn [mbind result_bind]. destruct b.
  - destruct H1 as (Hinv1 & Hbest1 & Hc1). rewrite <- Hbest1.
    destruct (IH _ _ Hinv1) as (b & st2 & -> & H2). exists b, st2. split; [done|].
    unfold counted, spent, stopped in *. cbn [length]. destruct b.
    + destruct H2 as (Hinv2 & -> & Hs). split_and!; [|done|clear - Hs Hc1; lia..].
      eapply relaxed_change; [|exact Hinv2]. intros c' s w [k d] _ _ [?|[Hk Hd]]; [by do 2 left|].
      cbn [fst snd] in *. subst k. apply elem_of_cons in Hd as [->|Hd]; [by left; right|by right].
    + split_and!; [apply H2..|]. clear - H2 Hc1. lia.
  - exists false, st1. split; [done|]. destruct H1 as (? & ? & _ & Hp). unfold stopped.
    split_and!; [done|done|]. rewrite Hp. clear. lia.
Qed.

Lemma expand_spec c order st :
  inv (c :: order) (fun _ => False) st ->
  exists b st', expand target resources reservations request options domain st c (best_of st c)
                  = Ok (b, st') /\
    if (b : bool) then inv (c :: order) settled st' /\ spent 5 st st' else stopped 5 st st'.
Proof using Hres Htable Hfits Hready Hissue Hsource.
  intros Hinv. unfold expand.
  destruct (expandLinks_spec c order expansion_order _ _ Hinv) as (b & st1 & -> & H1).
  cbn [mbind result_bind]. unfold spent, stopped, counted in *. destruct b; cbn [negb].
  2:{ exists false, st1. split; [done|]. split_and!; [apply H1..|]. clear - H1. simpl in H1. lia. }
  destruct H1 as (Hinv1 & Hbest & Hs). simpl in Hs.
  assert (Hall : forall d, d ∈ expansion_order) by (intros []; set_solver).
  destruct (ro_allowVirtualHold options) eqn:Ea.
  - rewrite <- Hbest. destruct (expandHold_spec _ _ _ _ Hinv1 Ea) as (r & -> & b & st2 & -> & H2).
    exists b, st2. split; [done|]. unfold counted in *. destruct b.
    + split; [|clear - H2 Hs; lia]. eapply relaxed_change; [|apply H2].
      intros c' s w [k d] _ Hst _. destruct k.
      * by destruct Hst as [_ Hst].
      * left. by right.
      * destruct Hst as [_ (_ & Hd & _)]. cbn [fst snd] in Hd. subst d. by right.
    + split_and!; [apply H2..|]. clear - H2 Hs. lia.
  - exists true, st1. split; [done|]. split; [|clear - Hs; lia].
    eapply relaxed_change; [|exact Hinv1]. intros c' s w [k d] _ Hst _. destruct k.
    + by destruct Hst as [_ Hst].
    + by right.
    + destruct Hst as [_ (Ha & _)]. congruence.
Qed.
(** *** Reconstruction *)

Local Abbreviation reach := (route target hop domain source ready).
Local Abbreviation uses := (link_uses resources request).
Local Abbreviation free := (available resources reservations).
Local Abbreviation mesh_trail st := (trail mesh_step st start_state).

(** The resource of a step that crosses a link. *)
Definition step_use (x : Z * Predecessor) : option ModuloResource :=
  match pd_kind x.2 with
  | PredLink => Some (LinkResource domain (tile_of (pd_previous x.2)) (pd_direction x.2)
                        (slot_at (pd_previous x.2)))
  | _ => None
  end.

(** What the actions built for the steps up to [s] amount to. *)
Record actions_of (st : Search) (steps : list (Z * Predecessor)) (s : Z)
    (actions : list TransportAction) : Prop := {
  ao_route : reach actions (tile_of s) (co_elapsed (best_of st s));
  ao_uses : uses actions = omap step_use steps;
  ao_free : Forall free (uses actions);
  ao_spans : Forall (fun action => 0 <= hold_span action) actions;
  ao_holds : sumZ (hold_span <$> actions) = co_holds (best_of st s);
  ao_hops : sumZ (link_hops <$> actions) = co_hops (best_of st s);
  ao_allowed : ro_allowVirtualHold options = false ->
    Forall (fun action => is_hold action = false) actions
}.

Lemma link_exists_free tile direction slot next :
  free_link tile direction slot -> neighbor_in target tile direction = Some next ->
  link_exists target tile direction next.
Proof using Hres.
  intros (res & Hid & _) Hn. split; [|done].
  assert (resource_exists target ii (LinkResource domain tile direction slot)) as Hex
    by (apply (findResource_exists _ Hres); by exists res).
  by destruct Hex as (_ & _ & Htop & _).
Qed.

Lemma append_link st steps p s d w actions :
  actions_of st steps p actions -> 0 <= p < state_count ->
  slot_at p = (issue + co_elapsed (best_of st p)) mod ii ->
  co_elapsed (best_of st p) <= u32_max -> mesh_step p s w (PredLink, d) ->
  best_of st s = cost_add (best_of st p) w ->
  exists actions', append_step target domain st actions (s, mkPred p PredLink d) = Some actions' /\
    actions_of st (steps ++ [(s, mkPred p PredLink d)]) s actions'.
Proof using Hres Hfits Hready.
  intros [] Hp Hslot Hsmall [_ Hst] Hb. cbn [fst snd] in Hst.
  destruct Hst as (next & Hn & Hfree & Hs & ->). destruct (stateFor_spec p Hp) as (Ht & Hsl & _).
  destruct (stateId_spec next ((slot_at p + hop) mod ii)) as [_ Htile];
    [by eapply neighbor_stays|by apply next_slot|].
  unfold append_step. cbn [pd_kind pd_previous pd_direction].
  replace (u32_max <? co_elapsed (best_of st p)) with false by (symmetry; apply Z.ltb_ge; exact Hsmall).
  eexists. split; [reflexivity|]. set (action := LinkStep _ _ _ _).
  assert (Hu : uses [action] = omap step_use [(s, mkPred p PredLink d)]).
  { unfold uses, link_occurrences. cbn. by rewrite <- Hslot. }
  split.
  - apply route_app. exists (tile_of p), (co_elapsed (best_of st p)). split; [done|].
    rewrite Hb, Hs, Htile. cbn [fst cost_add co_elapsed].
    eapply route_link; [by eapply link_exists_free|constructor].
  - by rewrite link_uses_app, ao_uses0, omap_app, Hu.
  - rewrite link_uses_app, Hu. apply Forall_app. split; [done|]. cbn. by constructor.
  - apply Forall_app. split; [done|]. constructor; [simpl; clear; lia|constructor].
  - rewrite fmap_app, sumZ_app, ao_holds0, Hb. simpl. clear. lia.
  - rewrite fmap_app, sumZ_app, ao_hops0, Hb. simpl. clear. lia.
  - intros Ha. apply Forall_app. split; [by apply ao_allowed0|]. by repeat constructor.
Qed.

Lemma append_hold st steps p s d w actions :
  actions_of st steps p actions -> 0 <= p < state_count ->
  co_elapsed (best_of st s) <= u32_max -> mesh_step p s w (PredHold, d) ->
  best_of st s = cost_add (best_of st p) w ->
  exists actions', append_step target domain st actions (s, mkPred p PredHold d) = Some actions' /\
    actions_of st (steps ++ [(s, mkPred p PredHold d)]) s actions'.
Proof using Hres Hfits Hready.
  intros [] Hp Hsmall [_ Hst] Hb. cbn [fst snd] in Hst.
  destruct Hst as (Hallow & -> & Hs & ->). destruct (stateFor_spec p Hp) as (Ht & Hsl & _).
  destruct (stateId_spec (tile_of p) ((slot_at p + 1) mod ii)) as [_ Htile]; [done|by apply next_slot|].
  assert (Hel : co_elapsed (best_of st s) = co_elapsed (best_of st p) + 1) by (by rewrite Hb).
  assert (Hts : tile_of s = tile_of p) by (by rewrite Hs, Htile).
  unfold append_step. cbn [pd_kind pd_previous pd_direction].
  replace (u32_max <? co_elapsed (best_of st p)) with false
    by (symmetry; apply Z.ltb_ge; clear - Hel Hsmall; lia).
  replace (u32_max <? co_elapsed (best_of st s)) with false by (symmetry; apply Z.ltb_ge; exact Hsmall).
  cbn [orb].
  assert (Happend : actions_of st (steps ++ [(s, mkPred p PredHold North)]) s
    (actions ++ [VirtualHold domain (tile_of p) (co_elapsed (best_of st p))
                   (co_elapsed (best_of st s))])).
  { assert (Hu : uses [VirtualHold domain (tile_of p) (co_elapsed (best_of st p))
                   (co_elapsed (best_of st s))] = []) by done.
    split.
    - apply route_app. exists (tile_of p), (co_elapsed (best_of st p)). split; [done|].
      rewrite Hts. apply route_hold; [clear - Hel; lia|constructor].
    - rewrite link_uses_app, ao_uses0, omap_app, Hu. done.
    - by rewrite link_uses_app, Hu, app_nil_r.
    - apply Forall_app. split; [done|]. constructor; [simpl; clear - Hel; lia|constructor].
    - rewrite fmap_app, sumZ_app, ao_holds0, Hb. simpl. clear. lia.
    - rewrite fmap_app, sumZ_app, ao_hops0, Hb. simpl. clear. lia.
    - intros Ha. congruence. }
  destruct (last actions) as [[|d' t' capture release]|] eqn:El; [by eauto| |by eauto].
  destruct (bool_decide (d' = domain) && bool_decide (t' = tile_of p) &&
    (release =? co_elapsed (best_of st p))) eqn:Em; [|by eauto].
  apply andb_true_iff in Em as [[->%bool_decide_eq_true ->%bool_decide_eq_true]%andb_true_iff
    ->%Z.eqb_eq].
  apply last_Some in El as [init ->]. eexists. split; [reflexivity|]. rewrite removelast_last.
  set (old := VirtualHold _ _ _ _) in *. set (new := VirtualHold _ _ _ _).
  assert (Hu : uses (init ++ [new]) = uses (init ++ [old])) by (by rewrite !link_uses_app).
  rewrite !fmap_app, !sumZ_app in *.
  apply route_app in ao_route0 as (t & e & Hinit & Hold).
  assert (Hold' : t = tile_of p /\ e = capture /\ capture < co_elapsed (best_of st p)).
  { inversion Hold; subst. done. }
  destruct Hold' as (-> & -> & Hlt). apply Forall_app in ao_spans0 as [Hspans _].
  split.
  - apply route_app. exists (tile_of p), capture. split; [done|]. rewrite Hts.
    apply route_hold; [clear - Hel Hlt; lia|constructor].
  - rewrite Hu, ao_uses0, omap_app. cbn. by rewrite app_nil_r.
  - by rewrite Hu.
  - apply Forall_app. split; [done|]. constructor; [simpl; clear - Hel Hlt; lia|constructor].
  - rewrite fmap_app, sumZ_app, Hb. cbn [cost_add co_holds]. rewrite <- ao_holds0. simpl.
    clear - Hel. lia.
  - rewrite fmap_app, sumZ_app, Hb. cbn [cost_add co_hops]. rewrite <- ao_hops0. simpl. clear. lia.
  - intros Ha. congruence.
Qed.
Lemma append_steps_app st steps x actions :
  append_steps target domain st actions (steps ++ [x]) =
  (actions ← append_steps target domain st actions steps; append_step target domain st actions x).
Proof using Type.
  revert actions. induction steps as [|y steps IH]; intros actions.
  - cbn [app append_steps mbind option_bind]. by destruct (append_step _ _ _ _ _).
  - cbn [app append_steps mbind option_bind]. destruct (append_step _ _ _ _ y); [apply IH|done].
Qed.

Lemma trail_actions order relaxed st steps s :
  inv order relaxed st -> mesh_trail st steps s -> s ∈ order ->
  (forall p, p ∈ parents steps -> p ∈ order) ->
  exists actions, append_steps target domain st [] steps = Some actions /\
    actions_of st steps s actions.
Proof using Hres Htable Hfits Hready Hissue Hsource.
  intros Hinv. induction 1 as [|steps p s k d w Htrail IH Hst Hb]; intros Hs Hsub.
  { exists []. split; [done|]. pose proof (si_start _ _ _ _ _ _ _ _ Hinv) as Hbest.
    destruct start_range as [_ Hf].
    split; try done; rewrite ?Hbest; [|by constructor..]. rewrite Hf. constructor. }
  unfold parents in Hsub. rewrite fmap_app in Hsub. cbn [fmap list_fmap snd pd_previous] in Hsub.
  assert (Hp : p ∈ order) by (apply Hsub; set_solver).
  destruct IH as (actions & Ha & Hof); [done|intros; apply Hsub; set_solver|].
  rewrite append_steps_app, Ha. cbn [mbind option_bind].
  destruct (current_spec p _ _ _ Hinv Hp) as (Hpr & Hwalk & He & _).
  destruct (current_spec s _ _ _ Hinv Hs) as (_ & _ & Hes & _).
  apply walk_slot in Hwalk as (_ & _ & Hslot). pose proof hop_positive as Hhop.
  destruct k; [by destruct Hst as [_ Hst]| |].
  - eapply append_link; try done. clear - He Hhop. lia.
  - eapply append_hold; try done. clear - Hes Hhop. lia.
Qed.

(** Steps out of different states cross different links. *)
Lemma step_uses_NoDup steps :
  NoDup (parents steps) -> (forall p, p ∈ parents steps -> 0 <= p < state_count) ->
  NoDup (omap step_use steps).
Proof using Hres Hfits Hready.
  induction steps as [|x steps IH]; intros Hnd Hr; [apply NoDup_nil_2|].
  unfold parents in *. rewrite fmap_cons in *. apply NoDup_cons in Hnd as [Hx Hnd].
  assert (Hrest : NoDup (omap step_use steps)) by (apply IH; [done|intros; apply Hr; by right]).
  cbn [omap list_omap]. destruct (step_use x) as [r|] eqn:E; [|done].
  apply NoDup_cons. split; [|done]. intros Hin.
  apply list_elem_of_omap in Hin as (y & Hy & Ey). apply Hx. apply list_elem_of_fmap.
  exists y. split; [|done]. clear IH Hrest Hx. unfold step_use in E, Ey.
  destruct (pd_kind x.2), (pd_kind y.2); try done. rewrite <- Ey in E.
  assert (Hxy : forall t d s t' d' s', Some (LinkResource domain t d s) =
    Some (LinkResource domain t' d' s') -> t = t' /\ s = s') by (intros; by simplify_eq).
  apply Hxy in E as [E1 E2].
  apply stateFor_inj; [apply Hr; left|apply Hr; right; by apply list_elem_of_fmap_2 with (f := fun x => pd_previous x.2)|].
  by apply injective_projections.
Qed.

Lemma links_distinct_spec tile elapsed actions tile' elapsed' :
  route target hop domain tile elapsed actions tile' elapsed' ->
  forall seen ids, Forall2 (fun r id => findResource resources r = Ok id) (uses actions) ids ->
  NoDup ids -> (forall id, id ∈ ids -> id ∉ seen) ->
  links_distinct resources request domain actions seen = Ok true.
Proof using Hres Hissue.
  induction 1 as [|tile elapsed direction next actions tile' elapsed' [Htop Hn] _ IH
                 |tile elapsed release actions tile' elapsed' _ _ IH];
    intros seen ids Hids Hnd Hseen; cbn [links_distinct]; [done| |by eapply IH].
  apply Forall2_cons_inv_l in Hids as (id & ids' & Hid & Hids & ->).
  apply NoDup_cons in Hnd as [Hid' Hnd].
  rewrite advance_spec by (apply (rmwf_ii _ Hres) || done). cbn [mbind result_bind].
  assert (linkResource resources domain tile direction ((issue + elapsed) mod ii) = Ok (Some id)) as ->.
  { apply linkResource_Ok. split; [apply Z.mod_pos_bound; clear - Hissue; lia|].
    split; [by rewrite Hn|done]. }
  cbn [mbind result_bind]. rewrite bool_decide_eq_false_2 by (apply Hseen; left).
  eapply IH; [done|done|]. intros i Hi Hin. apply elem_of_app in Hin as [Hin|Hin].
  - eapply Hseen; [right; exact Hi|done].
  - by apply list_elem_of_singleton in Hin as ->.
Qed.

(** Available resources have identifiers, different ones for different resources. *)
Lemma available_ids l :
  Forall free l -> NoDup l ->
  exists ids, Forall2 (fun r id => findResource resources r = Ok id) l ids /\ NoDup ids /\
    (forall id, id ∈ ids -> 0 <= id < Z.of_nat (length reservations) /\ slot_of reservations id = None).
Proof using Hres Htable.
  induction 1 as [|r l (id & Hid & Hfree) Hl IH]; intros Hnd.
  { exists []. split; [done|]. split; [apply NoDup_nil_2|]. intros id Hin.
    by apply not_elem_of_nil in Hin. }
  apply NoDup_cons in Hnd as [Hr Hnd]. destruct (IH Hnd) as (ids & Hids & Hnd' & Hall).
  exists (id :: ids). pose proof Hid as [H0 Hlook]%(findResource_Ok _ Hres).
  split; [by constructor|]. split.
  - apply NoDup_cons. split; [|done]. intros Hin. apply Hr.
    apply list_elem_of_lookup in Hin as [i Hi].
    destruct (Forall2_lookup_r _ _ _ _ _ Hids Hi) as (r' & Hr' & Hf).
    apply (findResource_Ok _ Hres) in Hf as [_ Hf]. assert (r' = r) as -> by congruence.
    by eapply list_elem_of_lookup_2.
  - intros i Hi. apply elem_of_cons in Hi as [->|Hi]; [|by apply Hall].
    split; [|done]. apply lookup_lt_Some in Hlook. rewrite Htable. clear - H0 Hlook. lia.
Qed.

Lemma reconstruct_spec c order relaxed st :
  inv (c :: order) relaxed st -> tile_of c = np_tile (rq_consumer request) ->
  source <> np_tile (rq_consumer request) ->
  exists plan, reconstruct target resources request domain st start_state c = Ok (Some plan, st) /\
    deliverable resources reservations request options domain ready plan /\
    plan_cost plan = best_of st c /\
    Forall (fun action => 0 <= hold_span action) (tp_actions plan).
Proof using Hres Htable Hfits Hready Hissue Hsource.
  intros Hinv Hgoal Hsrc. unfold reconstruct.
  pose proof (order_length _ _ _ _ _ (proj1 start_range) _ _ _ Hinv) as Hol.
  pose proof (si_predecessors _ _ _ _ _ _ _ _ Hinv) as Hlen. cbn [length] in Hol.
  destruct (chain_spec state_count start_state hop start_cost mesh_step mesh_step_range mesh_step_fun
    (proj1 start_range) start_cost_zero Hfits hop_positive _ _ _ Hinv) with (l1 := @nil Z) (s := c)
    (l2 := order) (fuel := (length (se_predecessors st) + 2)%nat) (acc := @nil (Z * Predecessor))
    as (steps & -> & Htrail & Hnd & Hsub).
  { intros p s w d [_ H]. done. }
  { done. }
  { clear - Hol Hlen. lia. }
  { simpl. clear. lia. }
  rewrite app_nil_r. cbn [mbind option_bind].
  destruct (trail_actions _ _ _ _ _ Hinv Htrail ltac:(left)) as (actions & -> & Hof).
  { intros p Hp. right. by apply Hsub. }
  destruct (current_spec c _ _ _ Hinv ltac:(left)) as (_ & _ & He & _). pose proof hop_positive as Hhop.
  replace (u32_max <? co_elapsed (best_of st c)) with false
    by (symmetry; apply Z.ltb_ge; clear - He Hhop; lia).
  destruct Hof.
  assert (Hndu : NoDup (uses actions)).
  { rewrite ao_uses0. apply step_uses_NoDup; [done|]. intros p Hp.
    apply (si_order_range _ _ _ _ _ _ _ _ Hinv). right. by apply Hsub. }
  destruct (available_ids _ ao_free0 Hndu) as (ids & Hids & Hndi & _).
  erewrite links_distinct_spec; [|exact ao_route0|exact Hids|exact Hndi|
    intros i _ Hi; by apply not_elem_of_nil in Hi].
  cbn [mbind result_bind negb]. eexists. split; [reflexivity|]. split; [|split; [|done]].
  - split; try done; cbn [tp_actions tp_requiredSeparationCycles].
    + intros ->. apply route_nil in ao_route0 as [E _]. apply Hsrc. by rewrite E.
    + by rewrite <- Hgoal.
  - unfold plan_cost. cbn [tp_actions tp_requiredSeparationCycles]. rewrite ao_holds0, ao_hops0.
    by destruct (best_of st c).
Qed.
(** *** Plans are walks *)

Lemma hold_walk s c n :
  mesh_walk s c -> ro_allowVirtualHold options = true ->
  exists s', mesh_walk s' (mkCost (co_elapsed c + Z.of_nat n) (co_holds c + Z.of_nat n) (co_hops c)) /\
    tile_of s' = tile_of s.
Proof using Hres Hfits Hready Hissue Hsource.
  intros Hwalk Hallow. induction n as [|n (s' & Hs & Ht)].
  { exists s. split; [|done]. cbn. rewrite !Z.add_0_r. by destruct c. }
  pose proof (walk_slot _ _ Hs) as (Hr & _ & _). destruct (stateFor_spec s' Hr) as (Hin & Hsl & _).
  destruct (stateId_spec (tile_of s') ((slot_at s' + 1) mod ii)) as [_ Htile]; [done|by apply next_slot|].
  exists (stateId target (tile_of s') ((slot_at s' + 1) mod ii)). split; [|by rewrite Htile].
  assert (Hw : mesh_step s' (stateId target (tile_of s') ((slot_at s' + 1) mod ii)) (mkCost 1 1 0)
                 (PredHold, North)) by (by split).
  pose proof (walk_step _ _ _ _ _ _ _ _ Hs Hw) as Hnext. revert Hnext. unfold cost_add. cbn.
  replace (co_elapsed c + Z.of_nat n + 1) with (co_elapsed c + Z.of_nat (S n)) by (clear; lia).
  replace (co_holds c + Z.of_nat n + 1) with (co_holds c + Z.of_nat (S n)) by (clear; lia).
  by rewrite Z.add_0_r.
Qed.

Lemma route_walk tile elapsed actions tile' elapsed' :
  route target hop domain tile elapsed actions tile' elapsed' ->
  forall s c, mesh_walk s c -> tile_of s = tile -> co_elapsed c = elapsed ->
  Forall free (uses actions) ->
  (ro_allowVirtualHold options = false -> Forall (fun action => is_hold action = false) actions) ->
  exists s', mesh_walk s' (mkCost elapsed' (co_holds c + sumZ (hold_span <$> actions))
                             (co_hops c + sumZ (link_hops <$> actions))) /\ tile_of s' = tile'.
Proof using Hres Hfits Hready Hissue Hsource.
  induction 1 as [tile elapsed|tile elapsed direction next actions tile' elapsed' [Htop Hn] _ IH
                 |tile elapsed release actions tile' elapsed' Hlt _ IH];
    intros s c Hwalk Ht He Hfree Hholds.
  - exists s. split; [|done]. cbn. rewrite !Z.add_0_r. destruct c. cbn in He. by subst.
  - apply Forall_cons in Hfree as [Hlink Hfree].
    pose proof (walk_slot _ _ Hwalk) as (Hr & _ & Hslot).
    destruct (stateFor_spec s Hr) as (Hin & Hsl & _). subst tile elapsed.
    destruct (stateId_spec next ((slot_at s + hop) mod ii)) as [_ Htile];
      [by eapply neighbor_stays|by apply next_slot|].
    assert (Hw : mesh_step s (stateId target next ((slot_at s + hop) mod ii)) (mkCost hop 0 1)
                   (PredLink, direction)).
    { split; [done|]. cbn [fst snd]. exists next. split_and!; try done. by rewrite Hslot. }
    pose proof (walk_step _ _ _ _ _ _ _ _ Hwalk Hw) as Hnext.
    destruct (IH _ _ Hnext) as (s' & Hs' & Htl); [by rewrite Htile|done|done|..].
    { intros Ha. apply Hholds in Ha. by apply Forall_cons in Ha as [_ Ha]. }
    exists s'. split; [|done]. revert Hs'. rewrite !fmap_cons. unfold cost_add.
    cbn [co_holds co_hops hold_span link_hops sumZ foldr]. rewrite Z.add_0_r, Z.add_0_l, Z.add_assoc. done.
  - assert (Ha : ro_allowVirtualHold options = true).
    { destruct (ro_allowVirtualHold options) eqn:E; [done|]. specialize (Hholds eq_refl).
      by apply Forall_cons in Hholds as [? _]. }
    destruct (hold_walk s c (nat_of (release - elapsed)) Hwalk Ha) as (s1 & Hs1 & Ht1).
    rewrite Z2Nat.id in Hs1 by (clear - Hlt; lia).
    destruct (IH _ _ Hs1) as (s' & Hs' & Htl); [by rewrite Ht1|cbn; clear - He; lia|done|..].
    { intros Hf. congruence. }
    exists s'. split; [|done]. revert Hs'. rewrite !fmap_cons.
    cbn [co_holds co_hops hold_span link_hops sumZ foldr]. by rewrite Z.add_0_l, Z.add_assoc.
Qed.

Lemma start_walk : mesh_walk start_state start_cost /\ tile_of start_state = source.
Proof using Hres Hfits Hready Hissue Hsource.
  split; [constructor|]. destruct start_range as [_ ->]. done.
Qed.

(** Every deliverable plan is a walk to the consumer's tile, of the plan's cost. *)
Lemma deliverable_walk plan :
  deliverable resources reservations request options domain ready plan ->
  exists s, mesh_walk s (plan_cost plan) /\ tile_of s = np_tile (rq_consumer request).
Proof using Hres Hfits Hready Hissue Hsource.
  intros []. destruct start_walk as [Hw Ht].
  destruct (route_walk _ _ _ _ _ dl_route0 _ _ Hw Ht eq_refl dl_free0 dl_holds0) as (s & Hs & Hts).
  exists s. split; [|done]. revert Hs. unfold start_cost. cbn [co_holds co_hops].
  by rewrite !Z.add_0_l.
Qed.
(** *** The loop *)

Local Abbreviation sink := (np_tile (rq_consumer request)).
Local Abbreviation budget := (ro_budget options).
Local Abbreviation carries := (deliverable resources reservations request options domain ready).

(** The counters of a successful result are those of its plan, whose separation
    fits a machine word and stays below a walk through every state. *)
Definition counts_of (plan : TransportPlan) (stats : RouteSearchStats) : Prop :=
  (is_u32 (tp_requiredSeparationCycles plan) /\
   tp_requiredSeparationCycles plan <= ready + (state_count + 1) * hop) /\
  rst_resultSeparation stats = Some (co_elapsed (plan_cost plan)) /\
  rst_resultHoldCycles stats = co_holds (plan_cost plan) /\
  rst_resultHopCount stats = co_hops (plan_cost plan).

Definition loop_outcome (res : RouteSearchResult) : Prop :=
  match rr_status res with
  | RouteSuccess => exists plan, rr_plan res = Some plan /\ carries plan /\
      counts_of plan (rr_stats res) /\
      forall s c, mesh_walk s c -> tile_of s = sink -> cost_le (plan_cost plan) c
  | RouteNoPath => rr_plan res = None /\ forall s c, mesh_walk s c -> tile_of s <> sink
  | RouteBudgetExceeded => rr_plan res = None /\
      (rb_maxStateExpansions budget < state_count \/ rb_maxQueuePushes budget <= 5 * state_count + 1)
  | _ => False
  end.

Lemma success_spec c order relaxed st :
  inv (c :: order) relaxed st -> tile_of c = sink -> source <> sink ->
  exists plan res, success target resources request domain st start_state c = Ok res /\
    rr_status res = RouteSuccess /\ rr_plan res = Some plan /\ carries plan /\
    counts_of plan (rr_stats res) /\ plan_cost plan = best_of st c.
Proof using Hres Htable Hfits Hready Hissue Hsource.
  intros Hinv Hgoal Hne. unfold success.
  destruct (reconstruct_spec _ _ _ _ Hinv Hgoal Hne) as (plan & -> & Hdel & Hcost & Hspans).
  cbn [mbind result_bind]. exists plan. eexists. split; [reflexivity|]. cbn [rr_status rr_plan rr_stats].
  split_and!; try done. destruct (current_spec c _ _ _ Hinv ltac:(left)) as (_ & _ & He & Hh & Hk).
  pose proof hop_positive as Hhop.
  rewrite <- Hcost in He, Hh, Hk. unfold counts_of, count_result, plan_cost in *.
  cbn [co_elapsed co_holds co_hops] in He, Hh, Hk.
  cbn [rst_resultSeparation rst_resultHoldCycles rst_resultHopCount co_elapsed co_holds co_hops].
  split_and!; [unfold is_u32; clear - He Hk Hhop; lia|clear - Hk Hhop; lia|done|apply hold_cycles_spec; [done|clear - Hh; lia]|apply hop_count_spec; clear - Hk; lia].
Qed.

(** No entry is left: every walk stays among the expanded states. *)
Lemma exhausted order st s c :
  inv order settled st -> se_queue st = [] -> mesh_walk s c -> s ∈ order.
Proof using Hres Hfits Hready Hissue Hsource.
  intros Hinv Hq Hwalk.
  destruct (frontier _ _ _ _ _ mesh_step_range (proj1 start_range) start_cost_zero Hfits
    hop_positive _ _ _ _ Hinv Hwalk) as [[? _]|(u & Hu & Hnu & _)]; [done|].
  destruct (si_waiting _ _ _ _ _ _ _ _ Hinv u Hu Hnu) as (e & He & _). rewrite Hq in He.
  by apply not_elem_of_nil in He.
Qed.

(** The head of the queue is as cheap as any walk that leaves the expanded states. *)
Lemma head_optimal order st e q s c :
  inv order settled st -> se_queue st = e :: q -> mesh_walk s c -> s ∉ order ->
  cost_le (qe_cost e) c.
Proof using Hres Hfits Hready Hissue Hsource.
  intros Hinv Hq Hwalk Hs.
  destruct (frontier _ _ _ _ _ mesh_step_range (proj1 start_range) start_cost_zero Hfits
    hop_positive _ _ _ _ Hinv Hwalk) as [[? _]|(u & Hu & Hnu & Hle)]; [done|].
  pose proof (head_least _ _ _ _ _ _ _ _ _ _ Hinv Hq Hu Hnu) as Hl. clear - Hle Hl. cost_lia.
Qed.

Lemma search_loop_spec fuel : source <> sink -> forall order st,
  inv order settled st -> (forall s, s ∈ order -> tile_of s <> sink) ->
  rst_stateExpansions (se_stats st) = Z.of_nat (length order) ->
  rst_queuePushes (se_stats st) <= 1 + 5 * Z.of_nat (length order) ->
  Z.of_nat (length (se_queue st)) + 5 * (state_count - Z.of_nat (length order)) < Z.of_nat fuel ->
  exists res, search_loop target resources reservations request options fuel domain start_state st
                = Ok (Some res) /\ loop_outcome res.
Proof using Hres Htable Hfits Hready Hissue Hsource.
  intros Hne. induction fuel as [|fuel IH]; intros order st Hinv Hgoal Hexp Hpush Hfuel.
  { pose proof (order_length _ _ _ _ _ (proj1 start_range) _ _ _ Hinv) as Hol. clear - Hfuel Hol. lia. }
  cbn [search_loop]. destruct (se_queue st) as [|e q] eqn:Hq.
  { eexists. split; [reflexivity|]. split; [done|]. intros s c Hw.
    by eapply Hgoal, exhausted. }
  cbn [length] in Hfuel. set (st1 := mkSearch _ _ _ _ _ _ q _).
  assert (Eb : best_of st1 = best_of st) by done.
  destruct (is_finalized st1 (qe_state e) || bool_decide (qe_cost e <> best_of st1 (qe_state e)))
    eqn:Estale.
  { apply (IH order st1); [|done|done|done|simpl; clear - Hfuel; lia].
    apply (stale_inv _ _ _ _ _ order st e q Hinv Hq).
    apply orb_true_iff in Estale as [H|H]; [by left|right; by apply bool_decide_eq_true in H]. }
  apply orb_false_iff in Estale as [Hnf Hcost]. apply bool_decide_eq_false in Hcost.
  assert (Hbest : qe_cost e = best_of st (qe_state e))
    by (destruct (decide (qe_cost e = best_of st (qe_state e))); [done|tauto]).
  pose proof (finalize_inv _ _ _ _ _ mesh_step_range mesh_step_fun (proj1 start_range)
    start_cost_zero hop_positive order st e q Hinv Hq Hnf Hbest) as Hinv2.
  set (st2 := finalize (with_queue st q) (qe_state e)) in Hinv2.
  change (mkSearch _ _ _ _ _ (<[nat_of (qe_state e):=true]> _) _ _) with st2.
  case_bool_decide as Hg.
  { destruct (success_spec _ _ _ _ Hinv2 Hg Hne) as (plan & res & -> & Hs & Hp & Hd & Hc & Hpc).
    cbn [mbind result_bind]. exists res. split; [done|]. unfold loop_outcome. rewrite Hs.
    exists plan. split_and!; try done. intros s c Hw Ht. rewrite Hpc.
    change (best_of st2 (qe_state e)) with (best_of st (qe_state e)). rewrite <- Hbest.
    eapply head_optimal; [done|done|done|]. intros Hin. by apply (Hgoal s). }
  pose proof (order_length _ _ _ _ _ (proj1 start_range) _ _ _ Hinv2) as Hol. cbn [length] in Hol.
  change (se_stats st2) with (se_stats st).
  destruct (Z.leb_spec (rb_maxStateExpansions budget) (rst_stateExpansions (se_stats st))) as [Hb|Hb].
  { eexists. split; [reflexivity|]. split; [done|]. left. clear - Hb Hexp Hol. lia. }
  assert (Hinv3 : inv (qe_state e :: order) (fun _ => False)
    (with_stats st2 (count_expansion (se_stats st)))) by (by apply stats_inv).
  destruct (expand_spec _ _ _ Hinv3) as (b & st3 & He & H3).
  change (best_of (with_stats st2 (count_expansion (se_stats st))) (qe_state e))
    with (best_of st (qe_state e)) in He. rewrite <- Hbest in He. rewrite He.
  cbn [mbind result_bind]. destruct b.
  - destruct H3 as (Hinv4 & Hexp4 & Hpush4 & Hlen4). cbn [with_stats se_stats count_expansion
      rst_stateExpansions rst_queuePushes se_queue] in Hexp4, Hpush4, Hlen4.
    apply (IH (qe_state e :: order) st3 Hinv4).
    + intros s Hs. apply elem_of_cons in Hs as [->|Hs]; [done|by apply Hgoal].
    + rewrite Hexp4, Hexp. cbn [length]. clear. lia.
    + cbn [length]. clear - Hpush Hpush4. lia.
    + change (se_queue st2) with q in Hlen4. cbn [length]. clear - Hlen4 Hfuel. lia.
  - destruct H3 as (Hst & Hout & Hpush4). cbn [with_stats se_stats count_expansion
      rst_queuePushes] in Hpush4. rewrite Hst, bool_decide_eq_true_2 by done.
    eexists. split; [reflexivity|]. unfold loop_outcome, conclude. cbn [rr_status rr_plan]. rewrite Hst.
    split; [done|]. right. unfold out_of_pushes in Hout. clear - Hout Hpush Hpush4 Hol. lia.
Qed.
End Mesh.

(** ** Staying on one tile *)

Lemma neighbor_elsewhere resources tile direction :
  ResourceModel_wf resources ->
  tile_inside (arr_rows (tm_array (rm_target resources))) (arr_cols (tm_array (rm_target resources))) tile ->
  neighbor_in (rm_target resources) tile direction <> Some tile.
Proof.
  intros Hres Hin Hn. pose proof (rmwf_target _ Hres) as Hw.
  apply neighbor_Some in Hn as [E _]; [|apply Hw|apply Hw|done].
  destruct tile as [r c], direction; simpl in E; injection E; lia.
Qed.

Lemma route_progress target hop domain tile elapsed actions tile' elapsed' :
  0 < hop -> route target hop domain tile elapsed actions tile' elapsed' ->
  elapsed + Z.of_nat (length actions) <= elapsed'.
Proof. intros Hhop. induction 1; cbn [length]; lia. Qed.

Section Requests.
Context (dfg : TargetDFG) (Hdfg : TargetDFG_inv dfg).
Context (resources : ModuloResourceModel) (Hres : ResourceModel_wf resources).
Context (request : RouteSearchRequest).
Local Abbreviation target := (rm_target resources).
Local Abbreviation ii := (rm_ii resources).
Local Abbreviation rows := (arr_rows (tm_array target)).
Local Abbreviation cols := (arr_cols (tm_array target)).
Local Abbreviation hop := (net_hopLatency (tm_interconnect target)).
Local Abbreviation source := (np_tile (rq_producer request)).
Local Abbreviation sink := (np_tile (rq_consumer request)).

(** A placement inside the array and the II, on a tile that can run the node. *)
Definition placement_ok (p : NodePlacement) : Prop :=
  tile_inside rows cols (np_tile p) /\ 0 <= np_issueSlot p < ii /\
  exists node, td_node dfg (np_node p) = Ok node /\ supportsOperation resources (np_tile p) node = true.

(** The request asks for the transport of a value edge of a valid graph between
    proper placements of its end points; the value is ready [ready] cycles after
    its producer issues and travels in [domain]. *)
Record routable (ready : Z) (domain : NetworkDomain) : Prop := {
  rt_graph : TargetDFG_valid dfg target None;
  rt_target : td_targetName dfg = tm_name target;
  rt_edge : exists edge, td_edge dfg (rq_edge request) = Ok edge /\
    TargetEdge_kind edge <> EKMemory /\ domain = expectedDomain (TargetEdge_kind edge) /\
    np_node (rq_producer request) = te_src edge /\ np_node (rq_consumer request) = te_dst edge;
  rt_producer : placement_ok (rq_producer request);
  rt_consumer : placement_ok (rq_consumer request);
  rt_ready : exists node, td_node dfg (np_node (rq_producer request)) = Ok node /\
    tn_producerOutputReadyOffset node = Some ready
}.

(** Fields the code keeps in unsigned integers. *)
Definition typed_request : Prop :=
  (0 <= tile_row source /\ 0 <= tile_col source /\ 0 <= np_issueSlot (rq_producer request)) /\
  (0 <= tile_row sink /\ 0 <= tile_col sink /\ 0 <= np_issueSlot (rq_consumer request)).

Lemma validPlacement_spec p expected is_producer :
  0 <= tile_row (np_tile p) /\ 0 <= tile_col (np_tile p) /\ 0 <= np_issueSlot p ->
  (exists node, td_node dfg expected = Ok node) ->
  exists bad, validPlacement dfg target resources request p expected is_producer = Ok bad /\
    match bad with
    | None => np_node p = expected /\ placement_ok p
    | Some failure => rr_status failure = RouteInvalidInput /\ rr_plan failure = None /\
        ~ (np_node p = expected /\ placement_ok p)
    end.
Proof using Type.
  intros (Hr & Hc & Hs) [node Hnode]. unfold validPlacement, placement_ok, tile_inside.
  destruct (Z.eqb_spec (np_node p) expected) as [<-|Hne]; cbn [negb].
  2:{ eexists. split; [reflexivity|]. split_and!; [done|done|]. intros [? _]. done. }
  destruct ((rows <=? tile_row (np_tile p)) || (cols <=? tile_col (np_tile p))) eqn:Et.
  { eexists. split; [reflexivity|]. split_and!; [done|done|]. intros (_ & [? ?] & _).
    apply orb_true_iff in Et as [Et|Et]; apply Z.leb_le in Et; lia. }
  apply orb_false_iff in Et as [Er Ec]. apply Z.leb_gt in Er, Ec.
  destruct (Z.leb_spec ii (np_issueSlot p)) as [Hi|Hi].
  { eexists. split; [reflexivity|]. split_and!; [done|done|]. intros (_ & _ & ? & _). lia. }
  rewrite Hnode. cbn [mbind result_bind].
  destruct (supportsOperation resources (np_tile p) node) eqn:Esup; cbn [negb].
  - eexists. split; [reflexivity|]. split_and!; try done. by exists node.
  - eexists. split; [reflexivity|]. split_and!; [done|done|]. intros (_ & _ & _ & n & Hn & Hsup).
    congruence.
Qed.

Lemma validateInput_spec :
  typed_request ->
  exists r, validateInput dfg target resources request = Ok r /\
    match r with
    | inr domain => exists ready, routable ready domain
    | inl failure => rr_plan failure = None /\
        rr_status failure ∈ [RouteInvalidInput; RouteUnsupportedEdge; RouteTargetContractError] /\
        forall ready domain, ~ routable ready domain
    end.
Proof using Hdfg Hres.
  intros [Htp Htc]. unfold validateInput.
  assert (Hfail : forall status code e, status ∈ [RouteInvalidInput; RouteUnsupportedEdge; RouteTargetContractError] ->
    (forall ready domain, ~ routable ready domain) ->
    exists r : RouteSearchResult + NetworkDomain, Ok (inl (route_fail status code e)) = Ok r /\
      match r with
      | inr domain => exists ready, routable ready domain
      | inl failure => rr_plan failure = None /\
          rr_status failure ∈ [RouteInvalidInput; RouteUnsupportedEdge; RouteTargetContractError] /\
          forall ready domain, ~ routable ready domain
      end) by (intros; eexists; split; [reflexivity|done]).
  assert (Hinvalid : RouteInvalidInput ∈ [RouteInvalidInput; RouteUnsupportedEdge; RouteTargetContractError])
    by set_solver.
  destruct (tdfg_verify dfg target None) as [report|e] eqn:Ev.
  2:{ rewrite tdfg_verify_eq in Ev by done. done. }
  cbn [mbind result_bind]. case_bool_decide as Hrep.
  { apply Hfail; [done|]. intros ready domain [Hg]. apply (tdfg_verify_clean _ _ _ Hdfg) in Hg.
    rewrite Hg in Ev. by injection Ev as <-. }
  destruct (decide (report = [])) as [->|]; [|done].
  apply (tdfg_verify_clean _ _ _ Hdfg) in Ev.
  rewrite String.eqb_refl, orb_false_r. destruct (String.eqb_spec (td_targetName dfg) (tm_name target))
    as [Hname|Hname]; cbn [negb].
  2:{ apply Hfail; [done|]. intros ready domain [_ Ht]. done. }
  pose proof (rmwf_ii _ Hres) as Hii. replace (ii =? 0) with false by (symmetry; apply Z.eqb_neq; lia).
  destruct (containsEdge dfg (rq_edge request)) eqn:Ec; cbn [negb].
  2:{ apply Hfail; [done|]. intros ready domain [_ _ (edge & He & _)].
      apply (td_edge_Ok dfg Hdfg) in He as [Hin Hid]. unfold containsEdge in Ec.
      apply bool_decide_eq_false in Ec. apply Ec.
      apply (indexed_contains te_id _ _ _ (inv_edges dfg Hdfg)). by exists edge. }
  unfold containsEdge in Ec. apply bool_decide_eq_true in Ec.
  apply (indexed_contains te_id _ _ _ (inv_edges dfg Hdfg)) in Ec as (edge & Hin & Hid).
  assert (Hedge : td_edge dfg (rq_edge request) = Ok edge) by (by apply (td_edge_Ok dfg Hdfg)).
  rewrite Hedge. cbn [mbind result_bind]. case_bool_decide as Hkind.
  { apply Hfail; [set_solver|]. intros ready domain [_ _ (edge' & He & Hk & _)].
    rewrite Hedge in He. by injection He as <-. }
  destruct (Z.eqb_spec (np_node (rq_producer request)) (te_src edge)) as [Hp|Hp]; cbn [negb].
  2:{ apply Hfail; [done|]. intros ready domain [_ _ (edge' & He & _ & _ & Hpr & _)].
      rewrite Hedge in He. by injection He as <-. }
  destruct (Z.eqb_spec (np_node (rq_consumer request)) (te_dst edge)) as [Hc|Hc]; cbn [negb].
  2:{ apply Hfail; [done|]. intros ready domain [_ _ (edge' & He & _ & _ & _ & Hcr)].
      rewrite Hedge in He. by injection He as <-. }
  destruct (inv_endpoints dfg Hdfg edge Hin) as [Hsrc Hdst].
  apply (indexed_contains tn_id _ _ _ (inv_nodes dfg Hdfg)) in Hsrc as (src & Hsin & Hsid),
    Hdst as (dst & Hdin & Hdid).
  assert (Hsrc : td_node dfg (te_src edge) = Ok src) by (by apply (td_node_Ok dfg Hdfg)).
  assert (Hdst : td_node dfg (te_dst edge) = Ok dst) by (by apply (td_node_Ok dfg Hdfg)).
  destruct (validPlacement_spec (rq_producer request) (te_src edge) true Htp) as (bad & -> & Hbad);
    [by exists src|]. cbn [mbind result_bind]. destruct bad as [failure|].
  { destruct Hbad as (Hst & Hpl & Hno). exists (inl failure). split; [done|]. rewrite Hst.
    split_and!; [done|done|]. intros ready domain [_ _ _ Hok]. by apply Hno. }
  destruct Hbad as [_ Hprod].
  destruct (validPlacement_spec (rq_consumer request) (te_dst edge) false Htc) as (bad & -> & Hbad);
    [by exists dst|]. cbn [mbind result_bind]. destruct bad as [failure|].
  { destruct Hbad as (Hst & Hpl & Hno). exists (inl failure). split; [done|]. rewrite Hst.
    split_and!; [done|done|]. intros ready domain [_ _ _ _ Hok]. by apply Hno. }
  destruct Hbad as [_ Hcons]. rewrite Hsrc. cbn [mbind result_bind].
  destruct (tn_producerOutputReadyOffset src) as [ready|] eqn:Er.
  2:{ apply Hfail; [set_solver|]. intros ready domain [_ _ _ _ _ (n & Hn & Hr)].
      rewrite Hp, Hsrc in Hn. congruence. }
  set (domain := match TargetEdge_kind edge with EKPredicate => NetPredicate | _ => NetData end).
  assert (net_hopLatency (network_of target domain) = hop) as -> by (by destruct domain).
  pose proof (wf_hopLatency _ (rmwf_target _ Hres)) as Hhop.
  replace (hop =? 0) with false by (symmetry; apply Z.eqb_neq; lia).
  exists (inr domain). split; [done|]. exists ready. split; try done.
  - exists edge. split; [done|]. split; [done|]. split; [|done].
    unfold domain. by destruct (TargetEdge_kind edge).
  - exists src. by rewrite Hp.
Qed.

(** *** The whole search *)

Context (reservations : ReservationTable) (options : RouteSearchOptions).
Local Abbreviation budget := (ro_budget options).

(** Elapsed times stay below 2^32 over every simple path of the state graph. *)
Definition times_fit : Prop :=
  forall node ready, node ∈ td_nodes dfg -> tn_producerOutputReadyOffset node = Some ready ->
    0 <= ready /\ ready + (state_count resources + 1) * hop <= u32_max.

Local Abbreviation carries ready domain :=
  (deliverable resources reservations request options domain ready).

(** What the search promises. *)
Definition search_outcome (res : RouteSearchResult) : Prop :=
  match rr_status res with
  | RouteSuccess => exists ready domain plan, routable ready domain /\ rr_plan res = Some plan /\
      carries ready domain plan /\ counts_of resources ready plan (rr_stats res) /\
      forall plan', carries ready domain plan' -> cost_le (plan_cost plan) (plan_cost plan')
  | RouteNoPath => rr_plan res = None /\ exists ready domain, routable ready domain /\
      (source = sink /\ ro_allowVirtualHold options = false \/
       forall plan, ~ carries ready domain plan)
  | RouteBudgetExceeded => rr_plan res = None /\
      (rb_maxStateExpansions budget < state_count resources \/
       rb_maxQueuePushes budget <= 5 * state_count resources + 1)
  | RouteInvalidInput | RouteUnsupportedEdge | RouteTargetContractError =>
      rr_plan res = None /\ forall ready domain, ~ routable ready domain
  | RouteInternalError => False
  end.

Lemma same_tile_spec domain ready st :
  source = sink -> tile_inside rows cols source -> 0 <= ready < u32_max ->
  routable ready domain -> search_outcome (same_tile request options domain ready st).
Proof using Hres.
  intros Heq Hin Hready Hrt. unfold same_tile.
  destruct (ro_allowVirtualHold options) eqn:Ea; cbn [negb].
  2:{ unfold search_outcome, noPath, conclude. cbn [rr_status rr_plan]. split; [done|].
      exists ready, domain. split; [done|]. by left. }
  replace (ready =? u32_max) with false by (symmetry; apply Z.eqb_neq; lia).
  unfold search_outcome. cbn [rr_status rr_plan rr_stats].
  exists ready, domain. eexists. split; [done|]. split; [reflexivity|].
  assert (Hcost : forall e, plan_cost (mkPlan (rq_edge request) domain
    [VirtualHold domain source ready e] e) = mkCost e (e - ready) 0).
  { intros e. unfold plan_cost. simpl. f_equal. lia. }
  rewrite !Hcost. split; [|split].
  - split; simpl; try done.
    + rewrite Heq. apply route_hold; [lia|constructor].
    + intros Hf. congruence.
    + constructor.
  - unfold counts_of. rewrite Hcost. simpl. split_and!; [unfold is_u32; lia| |done|lia|done].
    destruct (dims resources Hres) as (_ & _ & _ & ? & _ & ?). nia.
  - intros plan' []. pose proof (rmwf_target _ Hres) as Hw.
    pose proof (wf_hopLatency _ Hw) as Hhop.
    assert (Hspans : forall tile e actions tile' e',
      route target hop domain tile e actions tile' e' -> 0 <= sumZ (hold_span <$> actions) /\
        0 <= sumZ (link_hops <$> actions)).
    { induction 1; rewrite ?fmap_cons; cbn [sumZ foldr fmap list_fmap hold_span link_hops];
        [split; reflexivity|unfold sumZ in *; lia..]. }
    unfold plan_cost. inversion dl_route0 as [|? ? direction next actions ? ? [_ Hn] Hr Ea' Eb' Ec' Ed' Ee'
      |? ? release actions ? ? Hlt Hr Ea' Eb' Ec' Ed' Ee'].
    + congruence.
    + pose proof (route_progress _ _ _ _ _ _ _ _ (proj1 Hhop) Hr) as Hp. destruct actions as [|a actions].
      * apply route_nil in Hr as [Hnext _]. exfalso.
        apply (neighbor_elsewhere resources source direction Hres Hin).
        by rewrite Hn, Hnext, Heq.
      * simpl length in Hp. cost_lia.
    + pose proof (route_progress _ _ _ _ _ _ _ _ (proj1 Hhop) Hr) as Hp.
      destruct (Hspans _ _ _ _ _ Hr) as [Hs1 Hs2]. rewrite !fmap_cons.
      unfold sumZ in *. cost_lia.
Qed.

Context (Htable : length reservations = length (rm_resources resources)).

Lemma run_spec ready domain :
  routable ready domain -> times_fit ->
  exists res, run dfg target resources reservations request options domain = Ok (Some res) /\
    search_outcome res.
Proof using Hdfg Hres Htable.
  intros Hrt Hfit. pose proof (rt_ready _ _ Hrt) as (node & Hnode & Hoff).
  pose proof Hnode as [Hin _]%(td_node_Ok dfg Hdfg). destruct (Hfit _ _ Hin Hoff) as [Hready Hfits].
  pose proof (rt_producer _ _ Hrt) as (Hsource & Hissue & _).
  pose proof (dims resources Hres) as (_ & _ & _ & Hhop & Hrc & Hn).
  pose proof (count_small resources Hres ready Hready Hfits) as (Hsmall & Hrcs & _).
  unfold run. rewrite (wrap64_id (rows * cols)) by (unfold is_u64, u64_max, u32_max in *; lia).
  fold (state_count resources).
  rewrite (wrap64_id (state_count resources)) by (unfold is_u64, u64_max, u32_max in *; lia).
  replace (state_count resources =? 0) with false by (symmetry; apply Z.eqb_neq; lia).
  rewrite Hnode. cbn [mbind result_bind]. rewrite Hoff. cbn [of_option mbind result_bind].
  rewrite advance_spec by (apply (rmwf_ii _ Hres) || done). cbn [mbind result_bind].
  change (stateId target source ((np_issueSlot (rq_producer request) + ready) mod ii))
    with (start_state resources request ready).
  set (start := start_state resources request ready). unfold push. cbn [se_stats rst_queuePushes no_route_stats].
  destruct (Z.leb_spec (rb_maxQueuePushes budget) 0) as [Hb|Hb]; cbn [negb].
  { eexists. split; [reflexivity|]. split; [done|]. right. lia. }
  case_bool_decide as Hsame.
  { eexists. split; [reflexivity|]. apply same_tile_spec; [done|done| |done]. split; [done|]. nia. }
  set (st := mkSearch _ _ _ _ _ _ _ _).
  destruct (search_loop_spec resources Hres reservations Htable request options domain ready Hready
    Hissue Hsource Hfits (5 * nat_of (state_count resources) + 2) Hsame [] st) as (res & Hrun & Hout).
  { pose proof (start_range resources Hres request ready Hready Hissue Hsource Hfits) as [Hr _].
    pose proof (initial_inv (state_count resources) start hop (start_cost ready)
      (mesh_step resources reservations options domain) Hr (start_cost_zero ready Hready) Hfits Hhop
      _ eq_refl) as Hinit. apply Hinit. }
  { intros s Hs. by apply not_elem_of_nil in Hs. }
  { done. }
  { simpl. lia. }
  { simpl. lia. }
  exists res. split; [exact Hrun|]. unfold loop_outcome, search_outcome in *.
  assert (Hwalks : forall plan, deliverable resources reservations request options domain ready plan ->
    exists s, walk start (start_cost ready) (mesh_step resources reservations options domain) s
      (plan_cost plan) /\ (stateFor target s).1 = sink)
    by (by apply deliverable_walk).
  destruct (rr_status res); try done.
  - destruct Hout as (plan & Hp & Hd & Hc & Hbest). exists ready, domain, plan. split_and!; try done.
    intros plan' Hd'. destruct (Hwalks _ Hd') as (s & Hw & Ht). by eapply Hbest.
  - destruct Hout as [Hp Hno]. split; [done|]. exists ready, domain. split; [done|]. right.
    intros plan Hd. destruct (Hwalks _ Hd) as (s & Hw & Ht). by eapply Hno.
Qed.

Lemma route_search_spec :
  typed_request -> times_fit ->
  exists res, route_search dfg target resources reservations request options = Ok (Some res) /\
    search_outcome res.
Proof using Hdfg Hres Htable.
  intros Htyped Hfit. unfold route_search, ModuloTimeDomain. pose proof (rmwf_ii _ Hres) as Hii.
  replace (ii =? 0) with false by (symmetry; apply Z.eqb_neq; lia). cbn [mbind result_bind].
  destruct (validateInput_spec Htyped) as (r & -> & Hr). cbn [mbind result_bind].
  destruct r as [failure|domain].
  - destruct Hr as (Hp & Hs & Hno). exists failure. split; [done|]. unfold search_outcome.
    rewrite !elem_of_cons in Hs. destruct Hs as [->|[->|[->|Hs]]]; [done..|].
    by apply not_elem_of_nil in Hs.
  - destruct Hr as [ready Hrt]. by apply (run_spec ready domain).
Qed.
End Requests.

(** The edge and its producer fix the readiness and the network. *)
Lemma routable_unique dfg resources request ready domain ready' domain' :
  routable dfg resources request ready domain -> routable dfg resources request ready' domain' ->
  ready = ready' /\ domain = domain'.
Proof.
  intros [_ _ (e & He & _ & -> & _) _ _ (n & Hn & Hr)] [_ _ (e' & He' & _ & -> & _) _ _ (n' & Hn' & Hr')].
  assert (e = e') as <- by congruence. assert (n = n') as <- by congruence. split; congruence.
Qed.

(** A deliverable plan is one the mapping verifier accepts. *)
Lemma deliverable_verified dfg resources reservations request options ready domain plan edge d
    placements :
  TargetDFG_inv dfg -> ResourceModel_wf resources ->
  length reservations = length (rm_resources resources) ->
  routable dfg resources request ready domain ->
  deliverable resources reservations request options domain ready plan ->
  td_edge dfg (rq_edge request) = Ok edge ->
  placements (te_src edge) = Some (rq_producer request) ->
  placements (te_dst edge) = Some (rq_consumer request) ->
  md_transport d = Some plan ->
  md_requiredSeparationCycles d = tp_requiredSeparationCycles plan ->
  exists t', verifyValueTransport dfg (rm_target resources) edge d placements reservations resources
               = Ok (t', []).
Proof.
  intros Hdfg Hres Htable [] [] Hedge Hsrc Hdst Htr Hsep.
  destruct rt_edge0 as (edge' & Hedge' & Hkind & Hdom & Hp & Hc). rewrite Hedge in Hedge'.
  injection Hedge' as <-. destruct rt_producer0 as (Hin & Hissue & _).
  destruct rt_ready0 as (node & Hnode & Hready). rewrite Hp in Hnode.
  pose proof Hedge as [_ Hid]%(td_edge_Ok dfg Hdfg).
  destruct (available_ids resources Hres reservations Htable _ dl_free0 dl_exclusive0)
    as (ids & Hids & Hnd & Hfree).
  eexists. subst domain.
  apply (transport_accepted resources Hres reservations edge plan
    (np_issueSlot (rq_producer request)) ready Hissue dfg d placements (rq_producer request)
    (rq_consumer request) node ids); try done.
  - congruence.
  - by rewrite dl_domain0.
  - intros id Hi. destruct (Hfree id Hi) as [? ?]. split; [lia|done].
Qed.

(** ** An example *)

(** The accumulate kernel at II 2 on an empty table: the route of the edge from
    the load on tile (0, 0) to the sum on tile (2, 1). *)
Definition v2_route_request : RouteSearchRequest :=
  mkRouteRequest 0 (mkPlacement 0 (mkTile 0 0) 0) (mkPlacement 1 (mkTile 2 1) 1).
Definition v2_empty_table : ReservationTable :=
  replicate (length (rm_resources (v2_model 2))) None.
Definition v2_route_options : RouteSearchOptions := mkRouteOptions default_route_budget true.

Lemma v2_route_typed : typed_request v2_route_request.
Proof. unfold typed_request. simpl. lia. Qed.

Lemma v2_route_fits : times_fit v2_accumulate (v2_model 2).
Proof.
  intros node ready Hnode Hr. assert (forallb (fun node => match tn_producerOutputReadyOffset node with
    Some r => (0 <=? r) && (r <=? 10) | None => true end) (td_nodes v2_accumulate) = true) as H
    by (vm_compute; reflexivity).
  apply list_elem_of_In in Hnode. apply (proj1 (forallb_forall _ _) H) in Hnode. rewrite Hr in Hnode.
  assert (E : (state_count (v2_model 2) + 1) *
    net_hopLatency (tm_interconnect (rm_target (v2_model 2))) = 33) by (vm_compute; reflexivity).
  rewrite E. unfold u32_max. lia.
Qed.

Lemma v2_route_model : ResourceModel_wf (v2_model 2) /\ rm_target (v2_model 2) = cgra_v2 /\
  length v2_empty_table = length (rm_resources (v2_model 2)).
Proof.
  destruct (v2_model_wf 2) as (Hw & Ht & _); [unfold u32_max; lia|vm_compute; congruence|].
  split; [done|]. split; [done|]. apply length_replicate.
Qed.

Definition v2_route_plan : TransportPlan :=
  mkPlan 0 NetData
    [LinkStep NetData (mkTile 0 0) East 2; LinkStep NetData (mkTile 0 1) South 3;
     LinkStep NetData (mkTile 1 1) South 4] 5.

Definition v2_route_stats : RouteSearchStats := mkRouteStats 11 20 44 11 0 12 9 (Some 5) 3 0.

Example v2_route_search :
  route_search v2_accumulate (rm_target (v2_model 2)) (v2_model 2) v2_empty_table v2_route_request
    v2_route_options = Ok (Some (mkRouteResult RouteSuccess (Some v2_route_plan) v2_route_stats [])).
Proof. vm_compute. reflexivity. Qed.

Lemma v2_route_deliverable :
  routable v2_accumulate (v2_model 2) v2_route_request 2 NetData /\
  deliverable (v2_model 2) v2_empty_table v2_route_request v2_route_options NetData 2 v2_route_plan.
Proof.
  destruct v2_route_model as (Hw & _ & Hl).
  destruct (route_search_spec v2_accumulate v2_accumulate_inv (v2_model 2) Hw v2_route_request
    v2_empty_table v2_route_options Hl v2_route_typed v2_route_fits) as (res & Hrun & Hout).
  rewrite v2_route_search in Hrun. injection Hrun as <-.
  destruct Hout as (ready & domain & plan & Hrt & [= <-] & Hd & _).
  destruct (rt_ready _ _ _ _ _ Hrt) as (node & Hnode & Hready).
  pose proof (dl_domain _ _ _ _ _ _ _ Hd) as E. simpl in E. subst domain.
  assert (ready = 2) as ->; [|exact (conj Hrt Hd)]. revert Hnode Hready. clear.
  intros Hnode Hready.
  assert (E : match td_node v2_accumulate (np_node (rq_producer v2_route_request)) with
              | Ok n => tn_producerOutputReadyOffset n | Throw _ => None end = Some 2)
    by (vm_compute; reflexivity).
  rewrite Hnode, Hready in E. by injection E.
Qed.

(** ** Properties *)

(** C22: the route search is exact.  On any graph made by the builder and any
    request it terminates with a result.  A found plan carries the value from the
    producer to the consumer over free links, each used once, and no other such
    plan separates them by fewer cycles, or by as many with less waiting, or with
    as much waiting over fewer hops; the reported counters are the plan's and fit their words.
    No path is reported only when no such plan exists (or the end points share a
    tile and waiting is forbidden), the budget only when it is below the bound
    that always suffices, a rejected request only when it is malformed, and an
    internal error never. *)
Theorem search_exact (dfg : TargetDFG) (resources : ModuloResourceModel)
    (reservations : ReservationTable) (request : RouteSearchRequest) (options : RouteSearchOptions) :
  TargetDFG_inv dfg -> ResourceModel_wf resources ->
  length reservations = length (rm_resources resources) ->
  typed_request request -> times_fit dfg resources ->
  exists res, route_search dfg (rm_target resources) resources reservations request options = Ok (Some res) /\
    search_outcome dfg resources request reservations options res.
Proof. intros Hdfg Hres Htable Ht Hf. by apply route_search_spec. Qed.

Lemma search_exact_witness :
  exists res, route_search v2_accumulate (rm_target (v2_model 2)) (v2_model 2) v2_empty_table
                v2_route_request v2_route_options = Ok (Some res) /\
    search_outcome v2_accumulate (v2_model 2) v2_route_request v2_empty_table v2_route_options res.
Proof.
  apply (search_exact v2_accumulate (v2_model 2) v2_empty_table v2_route_request v2_route_options);
    [apply v2_accumulate_inv|apply v2_route_model|apply v2_route_model|apply v2_route_typed|
     apply v2_route_fits].
Defined.

(** C23: what the router finds, the verifier accepts.  A plan returned by the
    search, entered as the dependence of its edge, passes the independent
    transport check of the mapping verifier against the same reservations and
    placements without a diagnostic. *)
Theorem found_route_verifies (dfg : TargetDFG) (resources : ModuloResourceModel)
    (reservations : ReservationTable) (request : RouteSearchRequest) (options : RouteSearchOptions)
    (res : RouteSearchResult) (plan : TransportPlan) (edge : TargetEdge)
    (placements : Z -> option NodePlacement) :
  TargetDFG_inv dfg -> ResourceModel_wf resources ->
  length reservations = length (rm_resources resources) ->
  typed_request request -> times_fit dfg resources ->
  route_search dfg (rm_target resources) resources reservations request options = Ok (Some res) ->
  rr_plan res = Some plan -> td_edge dfg (rq_edge request) = Ok edge ->
  placements (te_src edge) = Some (rq_producer request) ->
  placements (te_dst edge) = Some (rq_consumer request) ->
  exists reservations', verifyValueTransport dfg (rm_target resources) edge
    (mkDependence (te_id edge) (TargetEdge_kind edge) (tp_requiredSeparationCycles plan) (Some plan))
    placements reservations resources = Ok (reservations', []).
Proof.
  intros Hdfg Hres Htable Ht Hf Hrun Hplan Hedge Hsrc Hdst.
  destruct (route_search_spec dfg Hdfg resources Hres request reservations options Htable Ht Hf)
    as (res' & Hrun' & Hout). rewrite Hrun in Hrun'. injection Hrun' as <-.
  unfold search_outcome in Hout. rewrite Hplan in Hout. destruct (rr_status res); try (by destruct Hout).
  destruct Hout as (ready & domain & plan' & Hrt & Hp & Hd & _). injection Hp as <-.
  by eapply deliverable_verified.
Qed.

Lemma found_route_verifies_witness :
  let edge := default (mkTargetEdge 0 0 0 0 (MemoryEdgeInfo RAW)) (td_edges v2_accumulate !! 0%nat) in
  let placements id := if id =? 0 then Some (rq_producer v2_route_request)
                       else Some (rq_consumer v2_route_request) in
  exists reservations', verifyValueTransport v2_accumulate (rm_target (v2_model 2)) edge
    (mkDependence (te_id edge) (TargetEdge_kind edge) (tp_requiredSeparationCycles v2_route_plan) (Some v2_route_plan))
    placements v2_empty_table (v2_model 2) = Ok (reservations', []).
Proof.
  intros edge placements.
  apply (found_route_verifies v2_accumulate (v2_model 2) v2_empty_table v2_route_request
    v2_route_options
    (mkRouteResult RouteSuccess (Some v2_route_plan) v2_route_stats [])
    v2_route_plan edge placements);
    [apply v2_accumulate_inv|apply v2_route_model|apply v2_route_model|apply v2_route_typed|
     apply v2_route_fits|vm_compute; reflexivity..].
Defined.


