(* ===== verification/DiffConstraints.v ===== *)
(** * Systems of difference constraints

    The recurrence analysis and the stage scheduler both solve systems
    [x(dst) >= x(src) + weight] by repeated relaxation of a label vector from
    zero, in a fixed order, for at most as many rounds as there are nodes.  This
    file holds the theory they share: the labels stay below every non-negative
    solution, a round without change is the least one, and a system with any
    solution is stable after [n - 1] rounds.  The last fact is proved by
    counting nodes that carry their final label: a stuck set of nodes could be
    lowered together, against leastness. *)
From stdpp Require Import base numbers list gmap.
From S2P Require Import Prelude.

Section DiffConstraints.
Context {C : Type} (src dst : C -> nat) (weight : C -> Z).
Implicit Types (l : list Z) (p : nat -> Z) (c : C).

(** Relax one constraint. *)
Definition relax l c : list Z :=
  if l !!! dst c <? l !!! src c + weight c
  then <[dst c := l !!! src c + weight c]> l else l.

(** One round over the constraints in order. *)
Definition pass (cs : list C) l : list Z := foldl relax l cs.

Fixpoint passes (cs : list C) (k : nat) l : list Z :=
  match k with O => l | S k => passes cs k (pass cs l) end.

Definition solution (cs : list C) p : Prop :=
  forall c, c ∈ cs -> p (src c) + weight c <= p (dst c).

Definition nonneg_solution (n : nat) (cs : list C) p : Prop :=
  solution cs p /\ forall i, (i < n)%nat -> 0 <= p i.

(** Some assignment satisfies every constraint. *)
Definition satisfiable (cs : list C) : Prop := exists p, solution cs p.

Context (n : nat) (cs : list C).
Context (Hix : forall c, c ∈ cs -> (src c < n)%nat /\ (dst c < n)%nat).

Lemma length_relax l c : length (relax l c) = length l.
Proof. unfold relax. case_match; [apply length_insert|done]. Qed.

Lemma length_pass ds l : length (pass ds l) = length l.
Proof.
  unfold pass. revert l. induction ds as [|c ds IH]; intros l; simpl; [done|].
  rewrite IH. apply length_relax.
Qed.

Lemma length_passes k l : length (passes cs k l) = length l.
Proof. revert l. induction k as [|k IH]; intros l; simpl; [done|]. by rewrite IH, length_pass. Qed.

Lemma relax_lookup l c i :
  (dst c < length l)%nat ->
  relax l c !!! i = if decide (i = dst c) then Z.max (l !!! i) (l !!! src c + weight c)
                    else l !!! i.
Proof.
  intros Hd. unfold relax. destruct (Z.ltb_spec (l !!! dst c) (l !!! src c + weight c)).
  - case_decide as E; [subst i; rewrite list_lookup_total_insert_eq by done; lia|].
    by rewrite list_lookup_total_insert_ne.
  - case_decide as E; [subst i; lia|done].
Qed.

Lemma relax_ge l c i : (dst c < length l)%nat -> l !!! i <= relax l c !!! i.
Proof. intros Hd. rewrite relax_lookup by done. case_decide; lia. Qed.

Lemma pass_ge ds l i :
  (forall c, c ∈ ds -> (dst c < length l)%nat) -> l !!! i <= pass ds l !!! i.
Proof.
  unfold pass. revert l. induction ds as [|c ds IH]; intros l Hd; simpl; [done|].
  etransitivity; [apply (relax_ge l c i), Hd; left|]. apply IH.
  intros d Hin. rewrite length_relax. apply Hd. by right.
Qed.

(** Labels never exceed a solution they start below. *)
Lemma pass_le_solution ds l p :
  (forall c, c ∈ ds -> (src c < n)%nat /\ (dst c < n)%nat) -> length l = n ->
  solution ds p -> (forall i, (i < n)%nat -> l !!! i <= p i) ->
  forall i, (i < n)%nat -> pass ds l !!! i <= p i.
Proof.
  unfold pass. revert l. induction ds as [|c ds IH]; intros l Hd Hlen Hp Hl; simpl; [done|].
  destruct (Hd c ltac:(left)) as [Hs Hdst]. apply IH.
  - intros d Hin. apply Hd. by right.
  - by rewrite length_relax.
  - intros d Hin. apply Hp. by right.
  - intros i Hi. rewrite relax_lookup by lia. pose proof (Hp c ltac:(left)).
    pose proof (Hl i Hi). pose proof (Hl (src c) Hs). case_decide; [subst i|]; lia.
Qed.

(** After a round every constraint holds against the labels before it. *)
Lemma pass_applies ds l c :
  (forall d, d ∈ ds -> (dst d < length l)%nat) -> c ∈ ds ->
  l !!! src c + weight c <= pass ds l !!! dst c.
Proof.
  unfold pass. revert l. induction ds as [|d ds IH]; intros l Hd Hc; simpl.
  { by apply not_elem_of_nil in Hc. }
  pose proof (Hd d ltac:(left)) as Hdd.
  assert (Hrest : forall e, e ∈ ds -> (dst e < length (relax l d))%nat).
  { intros e He. rewrite length_relax. apply Hd. by right. }
  apply elem_of_cons in Hc as [->|Hc].
  - etransitivity; [|by apply pass_ge]. rewrite relax_lookup by done.
    rewrite decide_True by done. lia.
  - etransitivity; [|by apply IH]. pose proof (relax_ge l d (src c) Hdd). lia.
Qed.

Lemma relax_stable l c :
  l !!! src c + weight c <= l !!! dst c -> relax l c = l.
Proof. intros H. unfold relax. by replace (_ <? _) with false by lia. Qed.

(** A round changes nothing exactly when the labels are a solution. *)
Lemma pass_fixed l :
  length l = n -> pass cs l = l <-> solution cs (fun i => l !!! i).
Proof.
  intros Hlen. split.
  - intros E c Hc. pose proof (pass_applies cs l c) as H. rewrite E in H. apply H; [|done].
    intros d Hd. rewrite Hlen. by apply Hix.
  - intros Hs. unfold pass. clear Hix. induction cs as [|c ds IH]; simpl; [done|].
    rewrite relax_stable by (apply Hs; left). apply IH. intros d Hd. apply Hs. by right.
Qed.

(** ** The least solution *)

(** The label vector before the first round. *)
Definition zeros : list Z := replicate n 0.

Definition least p : Prop :=
  nonneg_solution n cs p /\
  forall q, nonneg_solution n cs q -> forall i, (i < n)%nat -> p i <= q i.

(** Labels between zero and the least solution. *)
Definition below l p : Prop :=
  length l = n /\ forall i, (i < n)%nat -> 0 <= l !!! i <= p i.

Lemma below_pass l p : solution cs p -> below l p -> below (pass cs l) p.
Proof.
  intros Hp [Hlen Hl]. split; [by rewrite length_pass|]. intros i Hi. split.
  - etransitivity; [apply Hl; exact Hi|]. apply pass_ge. intros c Hc. rewrite Hlen. by apply Hix.
  - apply pass_le_solution; [exact Hix|done|done| |done]. intros j Hj. by apply Hl.
Qed.

Lemma below_passes k l p : solution cs p -> below l p -> below (passes cs k l) p.
Proof.
  intros Hp. revert l. induction k as [|k IH]; intros l Hl; simpl; [done|].
  by apply IH, below_pass.
Qed.

Lemma below_zeros p : nonneg_solution n cs p -> below zeros p.
Proof.
  intros [_ Hp]. split; [apply length_replicate|]. intros i Hi.
  unfold zeros. rewrite lookup_total_replicate_2 by done. split; [lia|auto].
Qed.

(** Lowering a set of nodes below the least solution must break a constraint, so
    a round gives some unfinished node its final label. *)
Lemma least_progress l p v :
  least p -> below l p -> (v < n)%nat -> l !!! v <> p v ->
  exists u, (u < n)%nat /\ l !!! u <> p u /\ pass cs l !!! u = p u.
Proof.
  intros [[Hsol Hnn] Hleast] Hl Hv Hne. pose proof (below_pass l p Hsol Hl) as [Hlen' Hl'].
  destruct Hl as [Hlen Hl].
  set (Q u := l !!! u <> p u /\ pass cs l !!! u = p u).
  destruct (decide (Exists Q (seq 0 n))) as [He|He].
  { apply Exists_exists in He as (u & Hu & HQ). apply elem_of_seq in Hu. exists u.
    split; [lia|exact HQ]. }
  exfalso. rewrite Exists_exists in He.
  set (q i := if decide (l !!! i = p i) then p i else p i - 1).
  assert (Hq : nonneg_solution n cs q).
  { split.
    - intros c Hc. destruct (Hix c Hc) as [Hs Hd]. pose proof (Hsol c Hc).
      unfold q. destruct (decide (l !!! dst c = p (dst c))); [repeat case_decide; lia|].
      destruct (decide (l !!! src c = p (src c))) as [E|]; [|lia].
      assert (pass cs l !!! dst c <> p (dst c)).
      { intros E'. apply He. exists (dst c). split; [apply elem_of_seq; lia|done]. }
      pose proof (pass_applies cs l c) as Ha. rewrite E in Ha.
      assert (p (src c) + weight c <= pass cs l !!! dst c).
      { apply Ha; [|done]. intros d Hd'. rewrite Hlen. by apply Hix. }
      pose proof (Hl' (dst c) Hd). lia.
    - intros i Hi. unfold q. pose proof (Hl i Hi). pose proof (Hnn i Hi). case_decide; lia. }
  specialize (Hleast q Hq v Hv). unfold q in Hleast. rewrite decide_False in Hleast by done. lia.
Qed.

(** The number of nodes that carry their final label. *)
Definition finished l p : nat := length (filter (fun i => l !!! i = p i) (seq 0 n)).

Lemma finished_all l p i : finished l p = n -> (i < n)%nat -> l !!! i = p i.
Proof.
  intros H Hi. unfold finished in H.
  assert (filter (fun i => l !!! i = p i) (seq 0 n) ≡ₚ seq 0 n) as E.
  { apply submseteq_length_Permutation; [apply sublist_submseteq, sublist_filter|].
    rewrite H, length_seq. lia. }
  assert (i ∈ filter (fun i => l !!! i = p i) (seq 0 n)) as Hin
    by (rewrite E; apply elem_of_seq; lia).
  by apply list_elem_of_filter in Hin as [? _].
Qed.

Lemma list_filter_True {A} (k : list A) : filter (fun _ => True) k = k.
Proof. induction k as [|x k IH]; [done|]. rewrite filter_cons_True by done. by f_equal. Qed.

Lemma finished_le l p : (finished l p <= n)%nat.
Proof.
  unfold finished. rewrite <- (length_seq n 0) at 2. apply sublist_length, sublist_filter.
Qed.

Lemma finished_grows l p :
  least p -> below l p -> (finished l p < n)%nat ->
  (S (finished l p) <= finished (pass cs l) p)%nat.
Proof.
  intros Hp Hl Hlt. pose proof Hp as [[Hsol _] _].
  pose proof (below_pass l p Hsol Hl) as [_ Hl']. pose proof Hl as [Hlen Hl0].
  destruct (decide (Exists (fun i => l !!! i <> p i) (seq 0 n))) as [He|He].
  - apply Exists_exists in He as (v & Hv & Hne). apply elem_of_seq in Hv.
    destruct (least_progress l p v Hp Hl) as (u & Hu & Hnu & Hfin); [lia|done|].
    unfold finished. change (length (u :: filter (fun i => l !!! i = p i) (seq 0 n)) <=
      length (filter (fun i => pass cs l !!! i = p i) (seq 0 n)))%nat.
    apply submseteq_length, NoDup_submseteq.
    + apply NoDup_cons. split; [|apply NoDup_filter, NoDup_seq].
      intros Hin. by apply list_elem_of_filter in Hin as [? _].
    + intros i Hi. apply list_elem_of_filter. apply elem_of_cons in Hi as [->|Hi].
      * split; [done|]. apply elem_of_seq. lia.
      * apply list_elem_of_filter in Hi as [E Hi]. split; [|done]. apply elem_of_seq in Hi.
        pose proof (Hl' i ltac:(lia)).
        assert (l !!! i <= pass cs l !!! i).
        { apply pass_ge. intros c Hc. rewrite Hlen. by apply Hix. }
        lia.
  - exfalso. assert (finished l p = n); [|lia]. unfold finished.
    rewrite (list_filter_ext_in _ (fun _ => True)).
    + rewrite list_filter_True; apply length_seq.
    + intros i Hi. split; [done|]. intros _. apply dec_stable. intros Hne.
      apply He, Exists_exists. eauto.
Qed.

Lemma pass_fixed_final l p :
  least p -> length l = n -> (forall i, (i < n)%nat -> l !!! i = p i) -> pass cs l = l.
Proof.
  intros [[Hsol _] _] Hlen Hl. apply pass_fixed; [done|]. intros c Hc.
  destruct (Hix c Hc). rewrite !Hl by done. by apply Hsol.
Qed.

Lemma finished_zeros p : least p -> (0 < n)%nat -> (1 <= finished zeros p)%nat.
Proof.
  intros [[Hsol Hnn] Hleast] Hn.
  destruct (decide (Exists (fun i => p i = 0) (seq 0 n))) as [He|He].
  - apply Exists_exists in He as (v & Hv & H0). unfold finished.
    assert (v ∈ filter (fun i => zeros !!! i = p i) (seq 0 n)) as Hin.
    { apply list_elem_of_filter. split; [|done]. apply elem_of_seq in Hv.
      unfold zeros. rewrite lookup_total_replicate_2 by lia. done. }
    destruct (filter _ _); [by apply not_elem_of_nil in Hin|simpl; lia].
  - exfalso. rewrite Exists_exists in He.
    assert (Hq : nonneg_solution n cs (fun i => p i - 1)).
    { split; [intros c Hc; specialize (Hsol c Hc); lia|]. intros i Hi.
      assert (p i <> 0); [|specialize (Hnn i Hi); lia].
      intros E. apply He. exists i. split; [apply elem_of_seq; lia|done]. }
    specialize (Hleast _ Hq 0%nat Hn). simpl in Hleast. lia.
Qed.

Lemma finished_passes k p :
  least p -> (0 < n)%nat -> (k < n)%nat -> (S k <= finished (passes cs k zeros) p)%nat.
Proof.
  intros Hp Hn. pose proof Hp as [Hs _]. pose proof (finished_zeros p Hp Hn) as H0.
  pose proof (below_zeros p Hs) as Hb. revert H0 Hb.
  generalize zeros. intros l H0 Hb.
  cut (forall j l, below l p -> (min n (j + finished l p) <= finished (passes cs j l) p)%nat).
  { intros H Hk. specialize (H k l Hb). lia. }
  clear l H0 Hb. induction j as [|j IH]; intros l Hb; simpl; [lia|].
  pose proof (finished_le l p). pose proof (finished_le (pass cs l) p).
  specialize (IH (pass cs l) (below_pass l p (proj1 Hs) Hb)).
  destruct (decide (finished l p < n)%nat); [pose proof (finished_grows l p Hp Hb ltac:(done)); lia|].
  assert (finished l p <= finished (pass cs l) p)%nat; [|lia].
  rewrite (pass_fixed_final l p Hp (proj1 Hb)); [done|].
  intros i Hi. apply finished_all; [lia|done].
Qed.

(** Stable labels reached from zero are the least solution. *)
Lemma fixed_least k :
  pass cs (passes cs k zeros) = passes cs k zeros -> least (fun i => passes cs k zeros !!! i).
Proof.
  intros Hfix. assert (Hlen : length (passes cs k zeros) = n)
    by (rewrite length_passes; apply length_replicate).
  split; [split; [by apply pass_fixed|]|].
  - intros i Hi. assert (forall j l, length l = n -> (forall i, (i < n)%nat -> 0 <= l !!! i) ->
      0 <= passes cs j l !!! i) as Hpos.
    { induction j as [|j IH]; intros l Hl H0; simpl; [auto|]. apply IH; [by rewrite length_pass|].
      intros i' Hi'. etransitivity; [apply H0; exact Hi'|]. apply pass_ge.
      intros c Hc. rewrite Hl. by apply Hix. }
    apply Hpos; [apply length_replicate|]. intros j Hj. unfold zeros.
    rewrite lookup_total_replicate_2 by done. lia.
  - intros q Hq i Hi. pose proof (below_passes k zeros q (proj1 Hq) (below_zeros q Hq)) as [_ H].
    by apply H.
Qed.

(** Under a solution the labels cannot grow for ever. *)
Lemma eventually_fixed p l :
  solution cs p -> below l p -> exists k, pass cs (passes cs k l) = passes cs k l.
Proof.
  intros Hp Hl.
  remember (nat_of (sumZ (p <$> seq 0 n) - sumZ l)) as fuel eqn:Ef.
  revert l Hl Ef. induction fuel as [fuel IH] using lt_wf_ind. intros l Hl Ef.
  destruct (decide (pass cs l = l)) as [E|Hne]; [by exists 0%nat|].
  pose proof (below_pass l p Hp Hl) as Hl'.
  assert (Hbound : forall k, below k p -> Forall2 Z.le k (p <$> seq 0 n)).
  { intros k [Hk H]. apply Forall2_lookup. intros i. rewrite list_lookup_fmap.
    destruct (decide (i < n)%nat) as [Hi|Hi].
    - rewrite lookup_seq_lt by done. simpl.
      destruct (lookup_lt_is_Some_2 k i ltac:(lia)) as [x Hx]. rewrite Hx. constructor.
      specialize (H i Hi). rewrite (list_lookup_total_correct _ _ _ Hx) in H. lia.
    - rewrite lookup_ge_None_2 by lia. rewrite lookup_seq_ge by lia. constructor. }
  assert (sumZ l < sumZ (pass cs l)).
  { apply sumZ_lt; [|done]. apply Forall2_same_length_lookup. split; [by rewrite length_pass|].
    intros i x y Hx Hy. rewrite <- (list_lookup_total_correct _ _ _ Hx),
      <- (list_lookup_total_correct _ _ _ Hy). apply pass_ge.
    intros c Hc. rewrite (proj1 Hl). by apply Hix. }
  pose proof (sumZ_le _ _ (Hbound _ Hl')).
  destruct (IH (nat_of (sumZ (p <$> seq 0 n) - sumZ (pass cs l)))) with (l := pass cs l) as [k Hk];
    [lia|done|done|]. by exists (S k).
Qed.

(** Any solution can be shifted to a non-negative one. *)
Lemma satisfiable_nonneg : satisfiable cs -> exists p, nonneg_solution n cs p.
Proof.
  intros [p Hp]. set (M := sumZ ((fun i => Z.abs (p i)) <$> seq 0 n)).
  exists (fun i => p i + M). split.
  - intros c Hc. specialize (Hp c Hc). lia.
  - intros i Hi. assert (Z.abs (p i) <= M); [|lia]. apply sumZ_elem_le.
    + intros y Hy. apply list_elem_of_fmap in Hy as (j & -> & _). lia.
    + apply list_elem_of_fmap. exists i. split; [done|]. apply elem_of_seq. lia.
Qed.

Lemma satisfiable_least : satisfiable cs -> exists p, least p.
Proof.
  intros Hs. destruct (satisfiable_nonneg Hs) as [p Hp].
  destruct (eventually_fixed p zeros (proj1 Hp) (below_zeros p Hp)) as [k Hk].
  eexists. by apply (fixed_least k).
Qed.

(** The round bound of both solvers. *)
Lemma satisfiable_stable : satisfiable cs ->
  pass cs (passes cs (n - 1) zeros) = passes cs (n - 1) zeros.
Proof.
  intros Hs. destruct (satisfiable_least Hs) as [p Hp].
  pose proof (below_passes (n - 1) zeros p (proj1 (proj1 Hp)) (below_zeros p (proj1 Hp))) as [Hlen _].
  apply (pass_fixed_final _ p Hp Hlen). intros i Hi. apply finished_all; [|done].
  pose proof (finished_passes (n - 1) p Hp ltac:(lia) ltac:(lia)).
  pose proof (finished_le (passes cs (n - 1) zeros) p). lia.
Qed.

(** The least solution stays below the sum of the positive weights: below its
    maximum, every unit step is crossed by some constraint. *)
Lemma least_bound p i :
  least p -> (i < n)%nat -> p i <= sumZ ((fun c => Z.max 0 (weight c)) <$> cs).
Proof.
  intros [[Hsol Hnn] Hleast] Hi.
  assert (Hcover : forall t, t ∈ range (p i) ->
    t ∈ flat_map (fun c => seqZ (p (src c)) (weight c)) cs).
  { intros t Ht. apply elem_of_range in Ht.
    destruct (decide (Exists (fun c => p (src c) <= t < p (src c) + weight c) cs)) as [He|He].
    { apply Exists_exists in He as (c & Hc & Hct). apply elem_of_flat_map. exists c.
      split; [done|]. apply elem_of_seqZ. lia. }
    exfalso. rewrite Exists_exists in He.
    set (q j := if decide (t < p j) then p j - 1 else p j).
    assert (nonneg_solution n cs q) as Hq.
    { split.
      - intros c Hc. specialize (Hsol c Hc). unfold q.
        destruct (decide (t < p (dst c))), (decide (t < p (src c))); try lia.
        destruct (decide (p (src c) + weight c = p (dst c))); [|lia].
        exfalso. apply He. exists c. split; [done|lia].
      - intros j Hj. specialize (Hnn j Hj). unfold q. case_decide; lia. }
    specialize (Hleast q Hq i Hi). unfold q in Hleast. rewrite decide_True in Hleast by lia. lia. }
  assert (Hlen : (length (range (p i)) <=
    length (flat_map (fun c => seqZ (p (src c)) (weight c)) cs))%nat).
  { apply submseteq_length, NoDup_submseteq; [apply NoDup_range|exact Hcover]. }
  unfold range in Hlen. rewrite length_seqZ in Hlen.
  enough (Z.of_nat (length (flat_map (fun c => seqZ (p (src c)) (weight c)) cs))
          = sumZ ((fun c => Z.max 0 (weight c)) <$> cs)) by lia.
  clear. induction cs as [|c ds IH]; csimpl; [done|].
  rewrite length_app, length_seqZ. rewrite Nat2Z.inj_add, IH. lia.
Qed.
End DiffConstraints.
