(* ===== verification/MIIAnalyzer.v ===== *)
(** * The minimum initiation interval

    Models [compiler/{include/cgra,lib}/Analysis/MIIAnalyzer.{h,cpp}] with
    [MIIResult.h] and [RecurrenceConstraint.h]: the resource bound, the
    longest-path feasibility test, the extraction of a witness cycle and the
    binary search for the recurrence bound. *)
From stdpp Require Import base numbers list gmap sorting strings.
From S2P Require Import Prelude.
From S2P Require Import IR.
From S2P Require Import DFG.
From S2P Require Import TargetModel.
From S2P Require Import CgraV2.
From S2P Require Import TargetDFG.
From S2P Require Import TargetDFGVerifier.
From S2P Require Import ModuloResources.
From S2P Require Import ModuloMapping.
From S2P Require Import MappingVerifier.
From S2P Require Import DiffConstraints.

Inductive MIIStatus :=
  | MIISuccess
  | MIIInvalidTargetDFG
  | MIINoCompatibleResource
  | MIIUnschedulableZeroDistanceCycle
  | MIITargetContractError
  | MIIInternalError.

#[export] Instance MIIStatus_eq_dec : EqDecision MIIStatus.
Proof. solve_decision. Defined.

Inductive MIIAnalysisDiagnosticCode :=
  | MII_INVALID_TARGET_DFG
  | MII_NO_COMPATIBLE_RESOURCE
  | MII_ZERO_DISTANCE_CYCLE
  | MII_TARGET_LATENCY_MISSING
  | MII_TARGET_OCCUPANCY_INVALID
  | MII_TARGET_MEMORY_TIMING_MISSING
  | MII_ARITHMETIC_OVERFLOW
  | MII_INTERNAL_ERROR.

Record MIIAnalysisDiagnostic := mkMIIDiag {
  mid_code : MIIAnalysisDiagnosticCode;
  mid_node : option Z;
  mid_edge : option Z
}.

Record ResourceMIIBreakdown := mkBreakdown {
  rb_selfOccupancyMII : Z;
  rb_fuMII : Z;
  rb_lsuMII : Z;
  rb_perOperationMII : Z
}.

Record RecurrenceWitness := mkWitness {
  rw_edges : list Z;
  rw_totalSeparation : Z;
  rw_totalDistance : Z
}.

Record MIIResult := mkMIIResult {
  mr_status : MIIStatus;
  mr_resourceMII : Z;
  mr_recurrenceMII : Z;
  mr_mii : Z;
  mr_resourceBreakdown : ResourceMIIBreakdown;
  mr_recurrenceWitness : option RecurrenceWitness;
  mr_diagnostics : list MIIAnalysisDiagnostic
}.

Record RecurrenceConstraint := mkConstraint {
  rc_edge : Z;
  rc_src : Z;
  rc_dst : Z;
  rc_distance : Z;
  rc_intrinsicSeparation : Z
}.

Record IndexedConstraint := mkIndexed {
  ic_constraint : RecurrenceConstraint;
  ic_srcIndex : nat;
  ic_dstIndex : nat
}.

#[export] Instance IndexedConstraint_inhabited : Inhabited IndexedConstraint :=
  populate (mkIndexed (mkConstraint 0 0 0 0 0) 0 0).

(** ** Checked arithmetic *)

Definition checkedAdd (lhs rhs : Z) : option Z :=
  if u64_max - lhs <? rhs then None else Some (lhs + rhs).

Definition ceilDivToMII (numerator denominator : Z) : option Z :=
  if numerator =? 0 then Some 1
  else if denominator =? 0 then None
  else
    let quotient := numerator / denominator in
    let rounded := wrap64 (quotient + (if numerator mod denominator =? 0 then 0 else 1)) in
    if u32_max <? rounded then None else Some rounded.

(** ** Longest-path feasibility

    The labels are 128-bit in the code, wide enough for every sum the rounds can
    build; they are unbounded here.  [None] in a predecessor vector is the
    sentinel [invalid]. *)

Record EvalState := mkEvalState {
  ev_longest : list Z;
  ev_predecessorNode : list (option nat);
  ev_predecessorConstraint : list (option nat);
  ev_lastUpdated : option nat
}.

Record FeasibilityResult := mkFeasibility {
  fr_feasible : bool;
  fr_witness : option RecurrenceWitness
}.

Section Evaluate.
Context (constraints : list IndexedConstraint) (nodeCount : nat).

Definition constraint_weight (ii : Z) (c : IndexedConstraint) : Z :=
  rc_intrinsicSeparation (ic_constraint c) - rc_distance (ic_constraint c) * ii.

Definition eval_relax (ii : Z) (st : EvalState) (entry : Z * IndexedConstraint) : EvalState :=
  let '(index, c) := entry in
  let candidate := ev_longest st !!! ic_srcIndex c + constraint_weight ii c in
  if ev_longest st !!! ic_dstIndex c <? candidate then
    mkEvalState (<[ic_dstIndex c := candidate]> (ev_longest st))
      (<[ic_dstIndex c := Some (ic_srcIndex c)]> (ev_predecessorNode st))
      (<[ic_dstIndex c := Some (nat_of index)]> (ev_predecessorConstraint st))
      (Some (ic_dstIndex c))
  else st.

Definition eval_round (ii : Z) (st : EvalState) : EvalState :=
  foldl (eval_relax ii)
    (mkEvalState (ev_longest st) (ev_predecessorNode st) (ev_predecessorConstraint st) None)
    (enumerate constraints).

(** The walk back from the last updated node, [nodeCount] steps. *)
Fixpoint walk_back (st : EvalState) (count : nat) (node : nat) : option nat :=
  match count with
  | O => Some node
  | S count =>
      next ← mjoin (ev_predecessorNode st !! node);
      walk_back st count next
  end.

(** The [do ... while (current != cycleNode)] loop, which gives up once it has
    collected more than [nodeCount + 1] constraints. *)
Fixpoint collect_cycle (st : EvalState) (fuel : nat) (cycleNode current : nat)
  (collected : list nat) : option (list nat) :=
  match fuel with
  | O => None
  | S fuel =>
      index ← mjoin (ev_predecessorConstraint st !! current);
      next ← mjoin (ev_predecessorNode st !! current);
      let collected := collected ++ [index] in
      if (nodeCount + 1 <? length collected)%nat then None
      else if (next =? cycleNode)%nat then Some collected
      else collect_cycle st fuel cycleNode next collected
  end.

Definition accumulate_witness (indices : list nat) : option RecurrenceWitness :=
  foldl (fun acc index =>
    w ← acc;
    let c := ic_constraint (constraints !!! index) in
    separation ← checkedAdd (rw_totalSeparation w) (rc_intrinsicSeparation c);
    distance ← checkedAdd (rw_totalDistance w) (rc_distance c);
    Some (mkWitness (rw_edges w ++ [rc_edge c]) separation distance))
    (Some (mkWitness [] 0 0)) indices.

Definition buildWitness (st : EvalState) : option RecurrenceWitness :=
  last ← ev_lastUpdated st;
  cycleNode ← walk_back st nodeCount last;
  cycle ← collect_cycle st (nodeCount + 2) cycleNode cycleNode [];
  accumulate_witness
    (sort_by (fun index => rc_edge (ic_constraint (constraints !!! index))) cycle).

Fixpoint eval_rounds (ii : Z) (rounds : nat) (st : EvalState) : FeasibilityResult :=
  match rounds with
  | O => mkFeasibility false (buildWitness st)
  | S rounds =>
      let st := eval_round ii st in
      match ev_lastUpdated st with
      | None => mkFeasibility true None
      | Some _ => eval_rounds ii rounds st
      end
  end.

Definition evaluate (ii : Z) : FeasibilityResult :=
  eval_rounds ii nodeCount
    (mkEvalState (replicate nodeCount 0) (replicate nodeCount None)
       (replicate nodeCount None) None).
End Evaluate.

(** ** The search for the recurrence bound *)

(** [while (low < high)]; the interval halves, so 33 iterations are enough for
    32-bit bounds. *)
Fixpoint search (feasible : Z -> bool) (fuel : nat) (low high : Z) : Z :=
  match fuel with
  | O => low
  | S fuel =>
      if low <? high then
        let mid := low + (high - low) / 2 in
        if feasible mid then search feasible fuel low mid
        else search feasible fuel (mid + 1) high
      else low
  end.

(** ** Resource demand *)

(** Iteration over a [std::map] keyed by strings: byte-wise key order. *)
Definition key_le (x y : string * Z) : Prop := String.leb x.1 y.1 = true.

#[export] Instance key_le_dec : RelDecision key_le.
Proof. intros x y. apply bool_eq_dec. Defined.

Definition string_items (m : gmap string Z) : list (string * Z) :=
  merge_sort key_le (map_to_list m).

Record DemandState := mkDemand {
  ds_status : MIIStatus;
  ds_diagnostics : list MIIAnalysisDiagnostic;
  ds_fuDemand : Z;
  ds_lsuDemand : Z;
  ds_selfOccupancy : Z;
  ds_operationDemand : gmap string Z
}.

Section Analyze.
Context (dfg : TargetDFG) (target : TargetModel).

Definition demand_fail (st : DemandState) (status : MIIStatus)
    (code : MIIAnalysisDiagnosticCode) (node : Z) : DemandState :=
  mkDemand status (ds_diagnostics st ++ [mkMIIDiag code (Some node) None])
    (ds_fuDemand st) (ds_lsuDemand st) (ds_selfOccupancy st) (ds_operationDemand st).

Definition demand_step (st : DemandState) (node : TargetNode) : DemandState :=
  if tn_issueOccupancy node =? 0
  then demand_fail st MIITargetContractError MII_TARGET_OCCUPANCY_INVALID (tn_id node)
  else match findOperation target (tn_operation node) with
  | None => demand_fail st MIIInvalidTargetDFG MII_INVALID_TARGET_DFG (tn_id node)
  | Some _ =>
      let demand := tn_issueOccupancy node in
      let previous := default 0 (ds_operationDemand st !! tn_operation node) in
      match checkedAdd previous demand with
      | None =>
          demand_fail (mkDemand (ds_status st) (ds_diagnostics st) (ds_fuDemand st)
            (ds_lsuDemand st) (ds_selfOccupancy st)
            (<[tn_operation node := previous]> (ds_operationDemand st)))
            MIIInternalError MII_ARITHMETIC_OVERFLOW (tn_id node)
      | Some total =>
          let st := mkDemand (ds_status st) (ds_diagnostics st) (ds_fuDemand st)
                      (ds_lsuDemand st) (ds_selfOccupancy st)
                      (<[tn_operation node := total]> (ds_operationDemand st)) in
          let st :=
            match tn_executionClass node with
            | FU =>
                match checkedAdd (ds_fuDemand st) demand with
                | Some fu => mkDemand (ds_status st) (ds_diagnostics st) fu (ds_lsuDemand st)
                               (ds_selfOccupancy st) (ds_operationDemand st)
                | None => demand_fail st MIIInternalError MII_ARITHMETIC_OVERFLOW (tn_id node)
                end
            | LSU =>
                match checkedAdd (ds_lsuDemand st) demand with
                | Some lsu => mkDemand (ds_status st) (ds_diagnostics st) (ds_fuDemand st) lsu
                                (ds_selfOccupancy st) (ds_operationDemand st)
                | None => demand_fail st MIIInternalError MII_ARITHMETIC_OVERFLOW (tn_id node)
                end
            end in
          mkDemand (ds_status st) (ds_diagnostics st) (ds_fuDemand st) (ds_lsuDemand st)
            (Z.max (ds_selfOccupancy st) demand) (ds_operationDemand st)
      end
  end.

Definition demands : DemandState :=
  foldl demand_step (mkDemand MIISuccess [] 0 0 1 ∅) (td_nodes dfg).


(** The per-operation loop: status, diagnostics and bound, or an early return. *)
Fixpoint per_operation (items : list (string * Z)) (status : MIIStatus)
    (diags : list MIIAnalysisDiagnostic) (bound : Z)
  : result (bool * MIIStatus * list MIIAnalysisDiagnostic * Z) :=
  match items with
  | [] => Ok (false, status, diags, bound)
  | (name, demand) :: items =>
      op ← operation target name;
      let capacity := compatibleResourceCount target op in
      if capacity =? 0 then
        per_operation items MIINoCompatibleResource
          (diags ++ [mkMIIDiag MII_NO_COMPATIBLE_RESOURCE None None]) bound
      else match ceilDivToMII demand capacity with
           | None => Ok (true, MIIInternalError,
                         diags ++ [mkMIIDiag MII_ARITHMETIC_OVERFLOW None None], bound)
           | Some b => per_operation items status diags (Z.max bound b)
           end
  end.

(** The intrinsic separation of an edge: the contract's memory separation, or
    the producer's result latency. *)
Definition node_indices : list Z := sort_by id (tn_id <$> td_nodes dfg).

Definition node_index (id : Z) : option nat :=
  fst <$> list_find (fun x => x = id) node_indices.

Record ConstraintState := mkConstraintState {
  cst_status : MIIStatus;
  cst_diagnostics : list MIIAnalysisDiagnostic;
  cst_constraints : list IndexedConstraint;
  cst_total : Z
}.

Definition constraint_fail (st : ConstraintState) (status : MIIStatus)
    (code : MIIAnalysisDiagnosticCode) (node edge : option Z) : ConstraintState :=
  mkConstraintState status (cst_diagnostics st ++ [mkMIIDiag code node edge])
    (cst_constraints st) (cst_total st).

Definition add_constraint (st : ConstraintState) (edge : TargetEdge) (separation : Z)
  : ConstraintState :=
  match node_index (te_src edge), node_index (te_dst edge) with
  | Some src, Some dst =>
      let c := mkIndexed (mkConstraint (te_id edge) (te_src edge) (te_dst edge)
                 (te_distance edge) (wrap32 separation)) src dst in
      let st := mkConstraintState (cst_status st) (cst_diagnostics st)
                  (cst_constraints st ++ [c]) (cst_total st) in
      match checkedAdd (cst_total st) separation with
      | Some total => mkConstraintState (cst_status st) (cst_diagnostics st)
                        (cst_constraints st) total
      | None => constraint_fail st MIIInternalError MII_ARITHMETIC_OVERFLOW None
                  (Some (te_id edge))
      end
  | _, _ => constraint_fail st MIIInvalidTargetDFG MII_INVALID_TARGET_DFG None
              (Some (te_id edge))
  end.

Definition constraint_step (st : ConstraintState) (edge : TargetEdge) : result ConstraintState :=
  match te_info edge with
  | MemoryEdgeInfo dependence =>
      let separation := memoryDependenceSeparation target dependence in
      if separation =? 0
      then Ok (constraint_fail st MIITargetContractError MII_TARGET_MEMORY_TIMING_MISSING None
                 (Some (te_id edge)))
      else Ok (add_constraint st edge separation)
  | _ =>
      producer ← td_node dfg (te_src edge);
      match tn_resultLatency producer with
      | None => Ok (constraint_fail st MIITargetContractError MII_TARGET_LATENCY_MISSING
                      (Some (te_src edge)) (Some (te_id edge)))
      | Some separation =>
          if separation =? 0
          then Ok (constraint_fail st MIITargetContractError MII_TARGET_LATENCY_MISSING
                     (Some (te_src edge)) (Some (te_id edge)))
          else Ok (add_constraint st edge separation)
      end
  end.

Fixpoint constraint_loop (st : ConstraintState) (edges : list TargetEdge)
  : result ConstraintState :=
  match edges with
  | [] => Ok st
  | edge :: edges => st' ← constraint_step st edge; constraint_loop st' edges
  end.
End Analyze.

(** ** The analysis *)

Definition allDiagnosticsAreNoResource (report : list TargetDFGDiagnostic) : bool :=
  negb (bool_decide (report = [])) &&
  forallb (fun d => bool_decide (tdg_code d = TDFG_NO_COMPATIBLE_EXECUTION_RESOURCE)) report.

(** The recurrence part: the status, the bound, the witness and the diagnostics. *)
Definition recurrence_analysis (constraints : list IndexedConstraint) (nodeCount : nat)
    (total : Z) : MIIStatus * Z * option RecurrenceWitness * list MIIAnalysisDiagnostic :=
  if (length constraints =? 0)%nat then (MIISuccess, 1, None, [])
  else
      let zeroDistance :=
        filter (fun c => rc_distance (ic_constraint c) = 0) constraints in
      let zeroFeasibility := evaluate zeroDistance nodeCount 0 in
      if negb (fr_feasible zeroFeasibility) then
        (MIIUnschedulableZeroDistanceCycle, 0, fr_witness zeroFeasibility,
         [mkMIIDiag MII_ZERO_DISTANCE_CYCLE None (w ← fr_witness zeroFeasibility; head (rw_edges w))])
      else if total =? 0 then
        (MIIInternalError, 0, None, [mkMIIDiag MII_INTERNAL_ERROR None None])
      else if u32_max <? total then
        (MIIInternalError, 0, None, [mkMIIDiag MII_ARITHMETIC_OVERFLOW None None])
      else
        let feasible ii := fr_feasible (evaluate constraints nodeCount ii) in
        let high := Z.max 1 total in
        if negb (feasible high) then
          (MIIInternalError, 0, None, [mkMIIDiag MII_INTERNAL_ERROR None None])
        else
          let low := search feasible 33 1 high in
          let recurrenceMII := wrap32 low in
          (MIISuccess, recurrenceMII,
           if 1 <? recurrenceMII
           then fr_witness (evaluate constraints nodeCount (wrap32 (recurrenceMII - 1)))
           else None, []).

Definition initial_breakdown : ResourceMIIBreakdown := mkBreakdown 1 1 1 1.

Definition fail_result (status : MIIStatus) (breakdown : ResourceMIIBreakdown)
    (resourceMII : Z) (diags : list MIIAnalysisDiagnostic) : MIIResult :=
  mkMIIResult status resourceMII 0 0 breakdown None diags.

Definition is_fatal (status : MIIStatus) : bool :=
  match status with
  | MIIInvalidTargetDFG | MIITargetContractError | MIIInternalError => true
  | _ => false
  end.

(** The recurrence phase, run once the resource bound is known. *)
Definition analyze_recurrence (dfg : TargetDFG) (target : TargetModel)
    (breakdown : ResourceMIIBreakdown) (resourceMII : Z) (diags : list MIIAnalysisDiagnostic)
  : result MIIResult :=
  cst ← constraint_loop dfg target (mkConstraintState MIISuccess diags [] 0)
          (sort_by te_id (td_edges dfg));
  if is_fatal (cst_status cst)
  then Ok (fail_result (cst_status cst) breakdown resourceMII (cst_diagnostics cst))
  else
    let '(status, recurrenceMII, witness, rec_diags) :=
      recurrence_analysis (cst_constraints cst) (length (td_nodes dfg)) (cst_total cst) in
    let diags := cst_diagnostics cst ++ rec_diags in
    match status with
    | MIISuccess =>
        let mii := Z.max resourceMII recurrenceMII in
        Ok (mkMIIResult MIISuccess resourceMII recurrenceMII (if mii =? 0 then 1 else mii)
              breakdown witness diags)
    | _ => Ok (mkMIIResult status resourceMII 0 0 breakdown witness diags)
    end.

Definition analyze (dfg : TargetDFG) (target : TargetModel) : result MIIResult :=
  targetReport ← tdfg_verify dfg target None;
  let fail status code :=
    Ok (fail_result status initial_breakdown 0 [mkMIIDiag code None None]) in
  if negb (bool_decide (targetReport = [])) then
    if allDiagnosticsAreNoResource targetReport
    then fail MIINoCompatibleResource MII_NO_COMPATIBLE_RESOURCE
    else fail MIIInvalidTargetDFG MII_INVALID_TARGET_DFG
  else if negb (String.eqb (td_targetName dfg) (tm_name target))
  then fail MIIInvalidTargetDFG MII_INVALID_TARGET_DFG
  else
    let fuCapacity := executionResourceCount target FU in
    let lsuCapacity := executionResourceCount target LSU in
    let d := demands dfg target in
    if negb (bool_decide (ds_diagnostics d = [] )) && is_fatal (ds_status d)
    then Ok (fail_result (ds_status d) initial_breakdown 0 (ds_diagnostics d))
    else if ((0 <? ds_fuDemand d) && (fuCapacity =? 0)) ||
            ((0 <? ds_lsuDemand d) && (lsuCapacity =? 0))
    then Ok (fail_result MIINoCompatibleResource initial_breakdown 0
               (ds_diagnostics d ++ [mkMIIDiag MII_NO_COMPATIBLE_RESOURCE None None]))
    else match ceilDivToMII (ds_selfOccupancy d) 1, ceilDivToMII (ds_fuDemand d) fuCapacity,
               ceilDivToMII (ds_lsuDemand d) lsuCapacity with
         | Some selfBound, Some fuBound, Some lsuBound =>
             '(returned, status, diags, perOperation) ←
               per_operation target (string_items (ds_operationDemand d)) (ds_status d)
                 (ds_diagnostics d) 1;
             let breakdown := mkBreakdown (Z.max 1 selfBound) (Z.max 1 fuBound)
                                (Z.max 1 lsuBound) perOperation in
             if (returned : bool) || bool_decide (status = MIINoCompatibleResource)
             then Ok (fail_result status breakdown 0 diags)
             else
               let resourceMII :=
                 Z.max 1 (Z.max (rb_selfOccupancyMII breakdown)
                   (Z.max (rb_fuMII breakdown)
                     (Z.max (rb_lsuMII breakdown) (rb_perOperationMII breakdown)))) in
               analyze_recurrence dfg target breakdown resourceMII diags
         | _, _, _ =>
             Ok (fail_result MIIInternalError initial_breakdown 0
                   (ds_diagnostics d ++ [mkMIIDiag MII_ARITHMETIC_OVERFLOW None None]))
         end.

(** ** The feasibility test decides the system of difference constraints *)

Section EvaluateSpec.
Context (constraints : list IndexedConstraint) (nodeCount : nat).
Context (Hix : forall c, c ∈ constraints ->
  (ic_srcIndex c < nodeCount)%nat /\ (ic_dstIndex c < nodeCount)%nat).

Abbreviation round_pass ii := (pass ic_srcIndex ic_dstIndex (constraint_weight ii)).
Abbreviation rounds_pass ii := (passes ic_srcIndex ic_dstIndex (constraint_weight ii)).

(** A run of relaxations computes the labels of [pass]; with no update recorded
    it left them alone, otherwise some label grew. *)
Lemma eval_relax_fold ii entries st :
  (forall e, e ∈ entries -> (ic_dstIndex e.2 < length (ev_longest st))%nat) ->
  let st' := foldl (eval_relax ii) st entries in
  ev_longest st' = round_pass ii (snd <$> entries) (ev_longest st) /\
  (ev_lastUpdated st' = ev_lastUpdated st /\ ev_longest st' = ev_longest st \/
   is_Some (ev_lastUpdated st') /\ ev_longest st' <> ev_longest st).
Proof.
  simpl. revert st. induction entries as [|[i c] entries IH]; intros st Hd; simpl; [auto|].
  unfold pass. simpl. unfold relax at 2.
  pose proof (Hd (i, c) ltac:(left)) as Hc. simpl in Hc.
  assert (Hrest : forall e, e ∈ entries -> (ic_dstIndex e.2 < length (ev_longest st))%nat)
    by (intros e He; apply Hd; by right).
  destruct (Z.ltb_spec (ev_longest st !!! ic_dstIndex c)
    (ev_longest st !!! ic_srcIndex c + constraint_weight ii c)) as [Hlt|Hge].
  - edestruct IH as [E Hcase]; [|split; [exact E|]]; [intros e He; simpl; rewrite length_insert; auto|].
    right. simpl in *. split; [destruct Hcase as [[-> _]|[? _]]; [eauto|done]|].
    intros Heq. rewrite Heq in E.
    pose proof (pass_ge ic_srcIndex ic_dstIndex (constraint_weight ii) (snd <$> entries)
      (<[ic_dstIndex c := ev_longest st !!! ic_srcIndex c + constraint_weight ii c]>
         (ev_longest st)) (ic_dstIndex c)) as Hm.
    rewrite <- E, list_lookup_total_insert_eq in Hm by done.
    enough (ev_longest st !!! ic_srcIndex c + constraint_weight ii c <=
            ev_longest st !!! ic_dstIndex c) by lia.
    apply Hm. intros d Hdd. rewrite length_insert.
    apply list_elem_of_fmap in Hdd as (e & -> & He). by apply Hrest.
  - by apply IH.
Qed.

Lemma snd_enumerate {A} (l : list A) : snd <$> enumerate l = l.
Proof. unfold enumerate. rewrite fmap_imap. by apply list_eq; intros i; rewrite list_lookup_imap; destruct (l !! i). Qed.

Lemma eval_round_spec ii st :
  length (ev_longest st) = nodeCount ->
  ev_longest (eval_round constraints ii st) = round_pass ii constraints (ev_longest st) /\
  (ev_lastUpdated (eval_round constraints ii st) = None <->
   round_pass ii constraints (ev_longest st) = ev_longest st).
Proof.
  intros Hlen. unfold eval_round.
  destruct (eval_relax_fold ii (enumerate constraints)
    (mkEvalState (ev_longest st) (ev_predecessorNode st) (ev_predecessorConstraint st) None))
    as [E Hcase].
  - intros [i c] He. simpl. rewrite Hlen. apply elem_of_enumerate in He as [_ He].
    apply Hix. by eapply list_elem_of_lookup_2.
  - rewrite snd_enumerate in E. simpl in *. split; [exact E|]. rewrite <- E.
    destruct Hcase as [[-> ->]|[[x ->] Hne]]; [done|]. naive_solver.
Qed.

(** Enough rounds reach stable labels, when there are any. *)
Lemma eval_rounds_feasible ii k st :
  length (ev_longest st) = nodeCount ->
  fr_feasible (eval_rounds constraints nodeCount ii k st) = true <->
  exists j, (j < k)%nat /\
    round_pass ii constraints (rounds_pass ii constraints j (ev_longest st)) =
    rounds_pass ii constraints j (ev_longest st).
Proof.
  revert st. induction k as [|k IH]; intros st Hlen; simpl.
  { split; [done|]. intros (j & Hj & _). lia. }
  destruct (eval_round_spec ii st Hlen) as [E Hnone].
  destruct (ev_lastUpdated (eval_round constraints ii st)) eqn:Elast.
  - rewrite IH by (rewrite E, length_pass; done). rewrite E. split.
    + intros (j & Hj & H). exists (S j). split; [lia|exact H].
    + intros ([|j] & Hj & H); [apply Hnone in H; done|]. exists j. split; [lia|exact H].
  - split; [|done]. intros _. exists 0%nat. split; [lia|]. by apply Hnone.
Qed.

(** The rounds decide satisfiability exactly: [nodeCount] rounds are enough. *)
Lemma evaluate_satisfiable ii : (0 < nodeCount)%nat ->
  fr_feasible (evaluate constraints nodeCount ii) = true <->
  satisfiable ic_srcIndex ic_dstIndex (constraint_weight ii) constraints.
Proof.
  intros Hn. unfold evaluate. rewrite eval_rounds_feasible by apply length_replicate. simpl. split.
  - intros (j & _ & H). eexists. eapply (pass_fixed _ _ _ nodeCount); [exact Hix| |exact H].
    rewrite length_passes. apply length_replicate.
  - intros Hs. exists (nodeCount - 1)%nat. split; [lia|].
    by apply (satisfiable_stable _ _ _ nodeCount).
Qed.
End EvaluateSpec.

(** ** The binary search *)

Lemma search_spec feasible fuel low high :
  (forall x y, low <= x <= y -> feasible x = true -> feasible y = true) ->
  low <= high -> high - low < 2 ^ Z.of_nat fuel -> feasible high = true ->
  let r := search feasible fuel low high in
  low <= r <= high /\ feasible r = true /\
  forall x, low <= x < r -> feasible x = false.
Proof.
  simpl. revert low high. induction fuel as [|fuel IH]; intros low high Hmono Hle Hfuel Hhigh.
  { simpl in *. assert (high = low) by lia. subst. split_and!; [lia|lia|done|lia]. }
  rewrite Nat2Z.inj_succ, Z.pow_succ_r in Hfuel by lia. simpl.
  destruct (Z.ltb_spec low high); [|assert (high = low) by lia; subst; split_and!; [lia|lia|done|lia]].
  pose proof (Z.div_lt (high - low) 2 ltac:(lia) ltac:(lia)).
  pose proof (Z.div_mod (high - low) 2 ltac:(lia)). pose proof (Z.mod_pos_bound (high - low) 2 ltac:(lia)).
  set (mid := low + (high - low) / 2) in *.
  destruct (feasible mid) eqn:Hmid.
  - destruct (IH low mid) as (Hr & Hfr & Hbelow); [done|lia|lia|done|]. split_and!; [lia|lia|done|done].
  - destruct (IH (mid + 1) high) as (Hr & Hfr & Hbelow);
      [intros x y Hxy; apply Hmono; lia|lia|lia|done|].
    split_and!; [lia|lia|done|]. intros x Hx. destruct (decide (mid < x)); [apply Hbelow; lia|].
    destruct (feasible x) eqn:Ex; [|done]. rewrite (Hmono x mid) in Hmid; [done|lia|done].
Qed.

#[local] Arguments search : simpl never.

(** ** The recurrence bound *)

Lemma zero_weight c ii : rc_distance (ic_constraint c) = 0 ->
  constraint_weight ii c = rc_intrinsicSeparation (ic_constraint c).
Proof. unfold constraint_weight. lia. Qed.

Lemma zero_sum_le cs :
  (forall c, c ∈ cs -> 0 < rc_intrinsicSeparation (ic_constraint c)) ->
  sumZ ((fun c => Z.max 0 (constraint_weight 0 c)) <$>
    filter (fun c => rc_distance (ic_constraint c) = 0) cs) <=
  sumZ ((fun c => rc_intrinsicSeparation (ic_constraint c)) <$> cs).
Proof.
  induction cs as [|d cs IH]; intros Hsep; [done|]. rewrite filter_cons.
  specialize (IH ltac:(intros; apply Hsep; by right)). pose proof (Hsep d ltac:(left)).
  destruct (decide _) as [E|]; rewrite !fmap_cons; simpl; [rewrite zero_weight by done|]; lia.
Qed.

Lemma zero_sum cs c :
  (forall c, c ∈ cs -> 0 < rc_intrinsicSeparation (ic_constraint c)) ->
  c ∈ cs -> rc_distance (ic_constraint c) <> 0 ->
  sumZ ((fun c => Z.max 0 (constraint_weight 0 c)) <$>
    filter (fun c => rc_distance (ic_constraint c) = 0) cs) +
  rc_intrinsicSeparation (ic_constraint c) <=
  sumZ ((fun c => rc_intrinsicSeparation (ic_constraint c)) <$> cs).
Proof.
  induction cs as [|d cs IH]; intros Hsep Hc Hne; [by apply not_elem_of_nil in Hc|].
  assert (Hsep' : forall c, c ∈ cs -> 0 < rc_intrinsicSeparation (ic_constraint c))
    by (intros; apply Hsep; by right).
  pose proof (Hsep d ltac:(left)). pose proof (zero_sum_le cs Hsep'). rewrite filter_cons.
  apply elem_of_cons in Hc as [->|Hc].
  - rewrite decide_False by done. rewrite !fmap_cons. simpl. lia.
  - specialize (IH Hsep' Hc Hne). destruct (decide _); rewrite !fmap_cons; simpl;
      [rewrite zero_weight by done|]; lia.
Qed.

Abbreviation schedulable constraints ii :=
  (satisfiable ic_srcIndex ic_dstIndex (constraint_weight ii) constraints).

Section RecurrenceBound.
Context (constraints : list IndexedConstraint) (nodeCount : nat).
Context (Hix : forall c, c ∈ constraints ->
  (ic_srcIndex c < nodeCount)%nat /\ (ic_dstIndex c < nodeCount)%nat).
Context (Hsep : forall c, c ∈ constraints -> 0 < rc_intrinsicSeparation (ic_constraint c)).
Context (Hdist : forall c, c ∈ constraints -> 0 <= rc_distance (ic_constraint c)).

Abbreviation zero_distance :=
  (filter (fun c => rc_distance (ic_constraint c) = 0) constraints).
Abbreviation total_separation :=
  (sumZ ((fun c => rc_intrinsicSeparation (ic_constraint c)) <$> constraints)).

(** A larger interval only weakens the constraints. *)
Lemma schedulable_mono ii ii' : ii <= ii' -> schedulable constraints ii -> schedulable constraints ii'.
Proof using Hdist.
  intros Hle [p Hp]. exists p. intros c Hc. specialize (Hp c Hc). specialize (Hdist c Hc).
  unfold constraint_weight in *. nia.
Qed.

Lemma schedulable_zero ii : schedulable constraints ii -> schedulable zero_distance 0.
Proof.
  intros [p Hp]. exists p. intros c Hc. apply list_elem_of_filter in Hc as [E Hc].
  specialize (Hp c Hc). unfold constraint_weight in *. lia.
Qed.

(** With an acyclic zero-distance part, the sum of all separations is a safe
    interval: one iteration then finishes before the next starts. *)
Lemma schedulable_total ii :
  schedulable zero_distance 0 -> total_separation <= ii -> schedulable constraints ii.
Proof using Hix Hsep Hdist.
  intros Hz Hle. assert (Hixz : forall c, c ∈ zero_distance ->
    (ic_srcIndex c < nodeCount)%nat /\ (ic_dstIndex c < nodeCount)%nat)
    by (intros c Hc; apply Hix; by apply list_elem_of_filter in Hc as [_ ?]).
  destruct (satisfiable_least _ _ _ nodeCount _ Hixz Hz) as [p Hp].
  exists p. intros c Hc. unfold constraint_weight.
  destruct (decide (rc_distance (ic_constraint c) = 0)) as [E|Hne].
  - destruct Hp as [[Hsol _] _].
    specialize (Hsol c ltac:(by apply list_elem_of_filter)). unfold constraint_weight in Hsol. lia.
  - pose proof (least_bound _ _ _ nodeCount _ p (ic_srcIndex c) Hp (proj1 (Hix c Hc))) as Hb.
    destruct Hp as [[_ Hnn] _]. pose proof (Hnn _ (proj2 (Hix c Hc))). specialize (Hdist c Hc).
    pose proof (zero_sum constraints c Hsep Hc Hne).
    pose proof (Hnn _ (proj1 (Hix c Hc))). pose proof (Hsep c Hc).
    assert (ii <= rc_distance (ic_constraint c) * ii) by nia. lia.
Qed.

(** The three outcomes of the recurrence phase. *)
Lemma recurrence_analysis_spec total status bound witness diags :
  total = total_separation ->
  recurrence_analysis constraints nodeCount total = (status, bound, witness, diags) ->
  (status = MIISuccess /\ 1 <= bound <= u32_max /\ schedulable constraints bound /\
   forall ii, 1 <= ii < bound -> ~ schedulable constraints ii) \/
  (status = MIIUnschedulableZeroDistanceCycle /\ forall ii, ~ schedulable constraints ii) \/
  (status = MIIInternalError /\ u32_max < total).
Proof using Hix Hsep Hdist.
  intros -> Hrun. unfold recurrence_analysis in Hrun.
  destruct (decide (constraints = [])) as [E|Hne].
  { rewrite E in Hrun. simpl in Hrun. injection Hrun as <- <- <- <-. left. split_and!; [done|lia|done| |lia].
    exists (fun _ => 0). intros c Hc. rewrite E in Hc. by apply not_elem_of_nil in Hc. }
  destruct (proj2 (head_is_Some _) Hne) as [c0 Hc0%head_Some_elem_of].
  destruct (Hix c0 Hc0) as [Hn _].
  assert (Hev : forall ii, fr_feasible (evaluate constraints nodeCount ii) = true <->
    schedulable constraints ii) by (intros; apply evaluate_satisfiable; [done|lia]).
  assert (Hevz : fr_feasible (evaluate zero_distance nodeCount 0) = true <->
    schedulable zero_distance 0).
  { apply evaluate_satisfiable; [|lia]. intros c Hc. apply Hix.
    by apply list_elem_of_filter in Hc as [_ ?]. }
  assert (Htotal : 0 < total_separation).
  { pose proof (Hsep c0 Hc0). enough (rc_intrinsicSeparation (ic_constraint c0) <= total_separation)
      by lia. apply sumZ_elem_le.
    - intros y (c & -> & Hc)%list_elem_of_fmap. specialize (Hsep c Hc). lia.
    - apply list_elem_of_fmap. by exists c0. }
  assert (Hempty : (length constraints =? 0)%nat = false)
    by (apply Nat.eqb_neq; intros E%nil_length_inv; done).
  rewrite Hempty in Hrun.
  destruct (fr_feasible (evaluate zero_distance nodeCount 0)) eqn:Ez; simpl in Hrun.
  2: { injection Hrun as <- <- <- <-. right. left. split; [done|]. intros ii Hii.
       enough (false = true) by done. by apply Hevz, (schedulable_zero ii). }
  assert (Hpos : (total_separation =? 0) = false) by lia. rewrite Hpos in Hrun.
  destruct (Z.ltb_spec u32_max total_separation);
    [injection Hrun as <- <- <- <-; by right; right|].
  rewrite Z.max_r in Hrun by lia.
  assert (Hhigh : fr_feasible (evaluate constraints nodeCount total_separation) = true)
    by (apply Hev, schedulable_total; [by apply Hevz|lia]).
  rewrite Hhigh in Hrun. simpl in Hrun. injection Hrun as <- <- <- <-. left.
  destruct (search_spec (fun ii => fr_feasible (evaluate constraints nodeCount ii)) 33 1
    total_separation) as (Hr & Hfr & Hbelow); [|lia|unfold u32_max in *; simpl; lia|done|].
  { intros x y Hxy. rewrite !Hev. apply schedulable_mono. lia. }
  unfold wrap32. rewrite Z.mod_small by (unfold u32_max in *; lia).
  split_and!; [done|lia|lia|by apply Hev|]. intros ii Hii Hs.
  apply Hev in Hs. rewrite Hbelow in Hs; [done|lia].
Qed.
End RecurrenceBound.

(** ** The constraints are the edges *)

Section ConstraintPhase.
Context (dfg : TargetDFG) (target : TargetModel).
Context (Hinv : TargetDFG_inv dfg) (Htwf : TargetModel_wf target).
Context (Hvalid : TargetDFG_valid dfg target None).

(** The cycles an edge keeps its end points apart, whatever the mapping. *)
Definition edge_separation (edge : TargetEdge) : Z :=
  match te_info edge with
  | MemoryEdgeInfo dependence => memoryDependenceSeparation target dependence
  | _ => default 0 (producer ← find_node dfg (te_src edge); tn_resultLatency producer)
  end.

Definition edge_constraint (edge : TargetEdge) : IndexedConstraint :=
  mkIndexed (mkConstraint (te_id edge) (te_src edge) (te_dst edge) (te_distance edge)
    (edge_separation edge))
    (default 0%nat (node_index dfg (te_src edge))) (default 0%nat (node_index dfg (te_dst edge))).

Lemma node_index_lookup id i : node_index dfg id = Some i -> node_indices dfg !! i = Some id.
Proof.
  unfold node_index. intros H. apply fmap_Some in H as ([j x] & H & ->).
  by apply list_find_Some in H as (H & -> & _).
Qed.

Lemma node_index_inverse id i : node_indices dfg !! i = Some id -> node_index dfg id = Some i.
Proof using Hinv.
  intros H. assert (Hnd : NoDup (node_indices dfg)).
  { unfold node_indices. rewrite sort_by_perm. by apply td_nodes_NoDup. }
  unfold node_index. apply fmap_Some. exists (i, id). split; [|done].
  apply list_find_Some. split_and!; [done|done|]. intros j y Hj Hlt ->.
  pose proof (NoDup_lookup _ _ _ _ Hnd H Hj). lia.
Qed.

Lemma node_index_known id : is_Some (find_node dfg id) -> exists i, node_index dfg id = Some i.
Proof using Hinv.
  intros [node H]. apply find_if_Some in H as [Hin Hid].
  assert (id ∈ node_indices dfg) as Hx.
  { unfold node_indices. rewrite sort_by_perm. apply list_elem_of_fmap. exists node. split; [lia|done]. }
  apply list_elem_of_lookup in Hx as [i Hi]. exists i. by apply node_index_inverse.
Qed.

Lemma node_index_bound id i : node_index dfg id = Some i -> (i < length (td_nodes dfg))%nat.
Proof.
  intros H%node_index_lookup%lookup_lt_Some. revert H.
  unfold node_indices. rewrite sort_by_length. by rewrite length_fmap.
Qed.

Lemma value_edge_latency edge : edge ∈ td_edges dfg -> TargetEdge_kind edge <> EKMemory ->
  exists producer latency, td_node dfg (te_src edge) = Ok producer /\
    tn_resultLatency producer = Some latency /\ 0 < latency <= u32_max /\
    edge_separation edge = latency.
Proof using Hinv Htwf Hvalid.
  intros Hedge Hkind. destruct (tv_edges _ _ _ Hvalid edge Hedge) as (src & dst & Hs & Hd & Hok).
  pose proof Hs as Hs'. apply find_if_Some in Hs' as [Hin Hid]. 
  destruct (tv_nodes _ _ _ Hvalid src Hin) as (op & Hop & _ & _ & _ & Hlat & _).
  assert (op_resultRole op <> ResVoid) as Hrole.
  { unfold TargetEdge_kind, EdgeInfo_kind in Hkind.
    destruct (te_info edge); [| |done]; unfold data_edge_ok, predicate_edge_ok in Hok;
      rewrite Hop in Hok; repeat case_match; bool_hyps; congruence. }
  pose proof (findOperation_elem target _ _ Hop) as Hopin.
  pose proof (wf_timing target Htwf op Hopin) as Ht.
  destruct (op_resultRole op) eqn:Er; [| |done].
  all: destruct Ht as [(l & Hl & Hl0) _]; exists src, l.
  all: split_and!; [apply td_node_Ok; [done|]; split; [done|lia]|congruence|lia|lia|].
  all: unfold edge_separation; rewrite Hs; simpl; rewrite <- Hlat, Hl; simpl.
  all: unfold TargetEdge_kind, EdgeInfo_kind in Hkind; by destruct (te_info edge).
Qed.

Lemma edge_separation_bound edge : edge ∈ td_edges dfg -> 0 < edge_separation edge <= u32_max.
Proof using Hinv Htwf Hvalid.
  intros Hedge. destruct (te_info edge) eqn:E.
  3: { unfold edge_separation. rewrite E. apply (wf_separation target Htwf). }
  all: destruct (value_edge_latency edge Hedge) as (p & l & _ & _ & Hl & ->); [|done];
    unfold TargetEdge_kind; by rewrite E.
Qed.

Lemma edge_indices edge : edge ∈ td_edges dfg -> exists i j,
  node_index dfg (te_src edge) = Some i /\ node_index dfg (te_dst edge) = Some j.
Proof using Hinv Hvalid.
  intros Hedge. destruct (tv_edges _ _ _ Hvalid edge Hedge) as (src & dst & Hs & Hd & _).
  destruct (node_index_known (te_src edge)) as [i Hi]; [eauto|].
  destruct (node_index_known (te_dst edge)) as [j Hj]; [eauto|]. eauto.
Qed.

(** One edge adds its constraint, or the total overflows. *)
Lemma constraint_step_eq st edge : edge ∈ td_edges dfg ->
  constraint_step dfg target st edge = Ok (add_constraint dfg st edge (edge_separation edge)).
Proof using Hinv Htwf Hvalid.
  intros Hedge. pose proof (edge_separation_bound edge Hedge) as Hb. unfold constraint_step.
  destruct (te_info edge) eqn:E.
  3: { unfold edge_separation in *. rewrite E in *.
       by rewrite (proj2 (Z.eqb_neq _ 0)) by lia. }
  all: destruct (value_edge_latency edge Hedge) as (p & l & -> & Hl & Hl' & ->);
    [unfold TargetEdge_kind; by rewrite E|].
  all: simpl; rewrite Hl; by rewrite (proj2 (Z.eqb_neq l 0)) by lia.
Qed.

Lemma add_constraint_eq st edge : edge ∈ td_edges dfg ->
  add_constraint dfg st edge (edge_separation edge) =
  let st' := mkConstraintState (cst_status st) (cst_diagnostics st)
               (cst_constraints st ++ [edge_constraint edge]) (cst_total st) in
  match checkedAdd (cst_total st) (edge_separation edge) with
  | Some total => mkConstraintState (cst_status st) (cst_diagnostics st)
                    (cst_constraints st ++ [edge_constraint edge]) total
  | None => constraint_fail st' MIIInternalError MII_ARITHMETIC_OVERFLOW None (Some (te_id edge))
  end.
Proof using Hinv Htwf Hvalid.
  intros Hedge. destruct (edge_indices edge Hedge) as (i & j & Hi & Hj).
  pose proof (edge_separation_bound edge Hedge). unfold add_constraint, edge_constraint.
  rewrite Hi, Hj. simpl. by rewrite wrap32_id by word_lia.
Qed.

Lemma constraint_loop_total edges st :
  edges ⊆ td_edges dfg -> cst_status st = MIIInternalError ->
  exists st', constraint_loop dfg target st edges = Ok st' /\ cst_status st' = MIIInternalError.
Proof using Hinv Htwf Hvalid.
  revert st. induction edges as [|edge edges IH]; simpl; intros st Hin Hf; [eauto|].
  rewrite constraint_step_eq by (apply Hin; left). simpl. apply IH; [set_solver|].
  rewrite add_constraint_eq by (apply Hin; left). by case_match.
Qed.

Lemma constraint_loop_spec edges st :
  edges ⊆ td_edges dfg -> 0 <= cst_total st <= u64_max ->
  exists st', constraint_loop dfg target st edges = Ok st' /\
  (st' = mkConstraintState (cst_status st) (cst_diagnostics st)
     (cst_constraints st ++ (edge_constraint <$> edges))
     (cst_total st + sumZ (edge_separation <$> edges)) \/
   cst_status st' = MIIInternalError /\
   u64_max < cst_total st + sumZ (edge_separation <$> edges)).
Proof using Hinv Htwf Hvalid.
  revert st. induction edges as [|edge edges IH]; csimpl; intros st Hin Htot.
  { exists st. split; [done|]. left. destruct st; simpl. by rewrite app_nil_r, Z.add_0_r. }
  assert (Hedge : edge ∈ td_edges dfg) by (apply Hin; left).
  assert (Hrest : edges ⊆ td_edges dfg) by (intros e He; apply Hin; by right).
  pose proof (edge_separation_bound edge Hedge).
  assert (0 <= sumZ (edge_separation <$> edges)).
  { apply sumZ_nonneg. intros y (e & -> & He)%list_elem_of_fmap.
    pose proof (edge_separation_bound e (Hrest e He)). lia. }
  rewrite constraint_step_eq by done. simpl. rewrite add_constraint_eq by done. simpl.
  unfold checkedAdd.
  destruct (Z.ltb_spec (u64_max - cst_total st) (edge_separation edge)).
  - destruct (constraint_loop_total edges (constraint_fail (mkConstraintState (cst_status st)
      (cst_diagnostics st) (cst_constraints st ++ [edge_constraint edge]) (cst_total st))
      MIIInternalError MII_ARITHMETIC_OVERFLOW None (Some (te_id edge))) Hrest) as (st' & Hst' & Hf);
      [done|]. exists st'. split; [exact Hst'|]. right. split; [done|].
    lia.
  - edestruct IH as (st' & Hst' & Hcase); [exact Hrest| |].
    2: { exists st'. split; [exact Hst'|]. simpl in Hcase.
         rewrite <- Z.add_assoc, <- app_assoc in Hcase. exact Hcase. }
    simpl. lia.
Qed.
End ConstraintPhase.

(** A schedule of one iteration with interval [ii]: an edge of distance [d] ties
    an operation to the one issued [d] iterations, that is [d * ii] cycles,
    earlier. *)
Definition modulo_schedule (dfg : TargetDFG) (target : TargetModel) (ii : Z) (time : Z -> Z)
  : Prop :=
  forall edge, edge ∈ td_edges dfg ->
    time (te_src edge) + edge_separation dfg target edge <=
    time (te_dst edge) + te_distance edge * ii.

(** The interval admits a schedule, resources aside. *)
Definition recurrence_feasible (dfg : TargetDFG) (target : TargetModel) (ii : Z) : Prop :=
  exists time, modulo_schedule dfg target ii time.

Section RecurrencePhase.
Context (dfg : TargetDFG) (target : TargetModel).
Context (Hinv : TargetDFG_inv dfg) (Htwf : TargetModel_wf target).
Context (Hvalid : TargetDFG_valid dfg target None).
Context (Hdistance : forall edge, edge ∈ td_edges dfg -> 0 <= te_distance edge).

Abbreviation edge_constraints :=
  (edge_constraint dfg target <$> sort_by te_id (td_edges dfg)).

Lemma elem_of_edge_constraints c :
  c ∈ edge_constraints <-> exists edge, edge ∈ td_edges dfg /\ c = edge_constraint dfg target edge.
Proof.
  rewrite list_elem_of_fmap. setoid_rewrite elem_of_sort_by. naive_solver.
Qed.

Lemma schedulable_edges ii :
  schedulable edge_constraints ii <-> recurrence_feasible dfg target ii.
Proof using Hinv Hvalid.
  split.
  - intros [p Hp]. exists (fun id => p (default 0%nat (node_index dfg id))). intros edge Hedge.
    specialize (Hp (edge_constraint dfg target edge)). unfold constraint_weight in Hp. simpl in Hp.
    assert (edge_constraint dfg target edge ∈ edge_constraints)
      by (apply elem_of_edge_constraints; eauto). specialize (Hp ltac:(done)). lia.
  - intros [time Ht]. exists (fun i => time (node_indices dfg !!! i)).
    intros c Hc. apply elem_of_edge_constraints in Hc as (edge & Hedge & ->).
    destruct (edge_indices dfg target Hinv Hvalid edge Hedge) as (i & j & Hi & Hj).
    unfold constraint_weight, edge_constraint. simpl. rewrite Hi, Hj. simpl.
    rewrite (list_lookup_total_correct _ _ _ (node_index_lookup _ _ _ Hi)).
    rewrite (list_lookup_total_correct _ _ _ (node_index_lookup _ _ _ Hj)).
    specialize (Ht edge Hedge). lia.
Qed.

(** The recurrence phase returns: the least interval with a schedule, or a proof
    that no interval has one, or an overflow of the separation sum. *)
Lemma analyze_recurrence_spec breakdown resourceMII diags :
  exists r, analyze_recurrence dfg target breakdown resourceMII diags = Ok r /\
  mr_resourceMII r = resourceMII /\
  (mr_status r = MIISuccess /\ mr_mii r = Z.max 1 (Z.max resourceMII (mr_recurrenceMII r)) /\
     1 <= mr_recurrenceMII r <= u32_max /\ recurrence_feasible dfg target (mr_recurrenceMII r) /\
     (forall ii, 1 <= ii < mr_recurrenceMII r -> ~ recurrence_feasible dfg target ii) \/
   mr_status r = MIIUnschedulableZeroDistanceCycle /\
     (forall ii, ~ recurrence_feasible dfg target ii) \/
   mr_status r = MIIInternalError /\
     u32_max < sumZ (edge_separation dfg target <$> td_edges dfg)).
Proof using Hinv Htwf Hvalid Hdistance.
  unfold analyze_recurrence.
  assert (Esum : sumZ (edge_separation dfg target <$> sort_by te_id (td_edges dfg)) =
    sumZ (edge_separation dfg target <$> td_edges dfg)).
  { apply sumZ_perm. by rewrite sort_by_perm. }
  destruct (constraint_loop_spec dfg target Hinv Htwf Hvalid (sort_by te_id (td_edges dfg))
    (mkConstraintState MIISuccess diags [] 0)) as (cst & Hcst & Hcase).
  { intros edge. by rewrite elem_of_sort_by. }
  { simpl. unfold u64_max. lia. }
  rewrite Hcst. simpl. destruct Hcase as [->|[Hf Hover]].
  2: { rewrite Hf. simpl. eexists. split; [done|]. split; [done|]. right. right. split; [done|].
       simpl in Hover. unfold u32_max, u64_max in *. lia. }
  simpl. destruct (recurrence_analysis edge_constraints (length (td_nodes dfg)) _)
    as [[[status bound] witness] rec_diags] eqn:Hrec.
  apply (recurrence_analysis_spec edge_constraints (length (td_nodes dfg))) in Hrec.
  - simpl. setoid_rewrite schedulable_edges in Hrec.
    destruct Hrec as [(-> & Hb & Hs & Hleast)|[[-> Hno]|[-> Hover]]].
    + eexists. split; [done|]. split; [done|]. left. simpl. split_and!; try done; [|lia|lia].
      destruct (Z.eqb_spec (Z.max resourceMII bound) 0); lia.
    + eexists. split; [done|]. split; [done|]. right. left. done.
    + eexists. split; [done|]. split; [done|]. right. right. split; [done|]. lia.
  - intros c (edge & Hedge & ->)%elem_of_edge_constraints.
    destruct (edge_indices dfg target Hinv Hvalid edge Hedge) as (i & j & Hi & Hj).
    unfold edge_constraint. simpl. rewrite Hi, Hj. simpl.
    split; by eapply node_index_bound.
  - intros c (edge & Hedge & ->)%elem_of_edge_constraints. simpl.
    by apply (edge_separation_bound dfg target Hinv Htwf Hvalid).
  - intros c (edge & Hedge & ->)%elem_of_edge_constraints. by apply Hdistance.
  - simpl. by rewrite <- list_fmap_compose.
Qed.
End RecurrencePhase.

(** ** The resource bound *)

(** The units of work the nodes satisfying [P] ask for in one iteration. *)
Definition occupancy (P : TargetNode -> Prop) `{!forall n, Decision (P n)} (nodes : list TargetNode)
  : Z := sumZ (tn_issueOccupancy <$> filter P nodes).

Abbreviation of_class c := (fun node => tn_executionClass node = c).
Abbreviation of_operation name := (fun node => tn_operation node = name).

Lemma occupancy_snoc P `{!forall n, Decision (P n)} nodes node :
  occupancy P (nodes ++ [node]) =
  occupancy P nodes + (if decide (P node) then tn_issueOccupancy node else 0).
Proof.
  unfold occupancy. rewrite filter_app, fmap_app, sumZ_app. f_equal.
  rewrite filter_cons, filter_nil. by destruct (decide (P node)); simpl; [lia|].
Qed.

Section DemandPhase.
Context (dfg : TargetDFG) (target : TargetModel).

Abbreviation total_occupancy nodes := (sumZ (tn_issueOccupancy <$> nodes)).

(** A node the demand loop can count. *)
Definition countable (node : TargetNode) : Prop :=
  0 < tn_issueOccupancy node /\ is_Some (findOperation target (tn_operation node)).

(** The counters are exact until the first diagnostic, which means overflow. *)
Definition demand_exact (nodes : list TargetNode) (st : DemandState) : Prop :=
  ds_status st = MIIInternalError /\ u64_max < total_occupancy nodes /\
  ds_diagnostics st <> [] /\ MII_INTERNAL_ERROR ∉ mid_code <$> ds_diagnostics st \/
  ds_status st = MIISuccess /\ ds_diagnostics st = [] /\
  ds_fuDemand st = occupancy (of_class FU) nodes /\
  ds_lsuDemand st = occupancy (of_class LSU) nodes /\
  1 <= ds_selfOccupancy st /\
  (forall node, node ∈ nodes -> 0 < tn_issueOccupancy node <= ds_selfOccupancy st) /\
  (ds_selfOccupancy st = 1 \/ ds_selfOccupancy st ∈ tn_issueOccupancy <$> nodes) /\
  (forall name, is_Some (ds_operationDemand st !! name) <-> name ∈ tn_operation <$> nodes) /\
  (forall name, default 0 (ds_operationDemand st !! name) = occupancy (of_operation name) nodes) /\
  0 <= ds_fuDemand st <= u64_max /\ 0 <= ds_lsuDemand st <= u64_max /\
  (forall name, 0 <= default 0 (ds_operationDemand st !! name) <= u64_max).

Lemma occupancy_le P `{!forall n, Decision (P n)} nodes :
  (forall node, node ∈ nodes -> 0 <= tn_issueOccupancy node) ->
  occupancy P nodes <= total_occupancy nodes.
Proof.
  unfold occupancy. induction nodes as [|node nodes IH]; intros Hall; [done|].
  specialize (IH ltac:(intros n Hn; apply Hall; by right)). pose proof (Hall node ltac:(left)).
  rewrite filter_cons. destruct (decide _); rewrite !fmap_cons; simpl; lia.
Qed.

Lemma total_occupancy_snoc nodes node :
  total_occupancy (nodes ++ [node]) = total_occupancy nodes + tn_issueOccupancy node.
Proof. rewrite fmap_app, sumZ_app. simpl. lia. Qed.

Lemma overflow_exact nodes node diags code id fu lsu self ops :
  u64_max < total_occupancy (nodes ++ [node]) -> code <> MII_INTERNAL_ERROR ->
  MII_INTERNAL_ERROR ∉ mid_code <$> diags ->
  demand_exact (nodes ++ [node]) (mkDemand MIIInternalError
    (diags ++ [mkMIIDiag code (Some id) None]) fu lsu self ops).
Proof.
  intros Hover Hcode Hd. left. simpl. split_and!; [done|done|by intros [_ [=]]%app_nil|].
  rewrite fmap_app, not_elem_of_app. split; [done|]. simpl. set_solver.
Qed.

Lemma demand_step_overflow st node nodes :
  countable node -> ds_status st = MIIInternalError -> u64_max < total_occupancy nodes ->
  ds_diagnostics st <> [] -> MII_INTERNAL_ERROR ∉ mid_code <$> ds_diagnostics st ->
  demand_exact (nodes ++ [node]) (demand_step target st node).
Proof.
  intros [Hocc [op Hop]] Hs Hover Hne Hcode.
  assert (Hover' : u64_max < total_occupancy (nodes ++ [node]))
    by (rewrite total_occupancy_snoc; lia).
  unfold demand_step. rewrite (proj2 (Z.eqb_neq _ 0)) by lia. rewrite Hop.
  destruct (checkedAdd _ _); [|by apply overflow_exact]. simpl.
  destruct (tn_executionClass node); simpl;
    (destruct (checkedAdd _ _); simpl; [by left|by apply overflow_exact]).
Qed.

Lemma demand_step_exact nodes st node :
  (forall node, node ∈ nodes -> 0 <= tn_issueOccupancy node) ->
  countable node -> demand_exact nodes st ->
  demand_exact (nodes ++ [node]) (demand_step target st node).
Proof.
  intros Hnodes Hnode [(Hs & Hover & Hd & Hc)|(Hs & Hd & Hfu & Hlsu & Hself & Hmax & Hreach & Hdom & Hop &
    Hfu64 & Hlsu64 & Hop64)];
    [by apply demand_step_overflow|].
  destruct Hnode as [Hocc [op Hopn]].
  assert (Hover : forall x, x = ds_fuDemand st \/ x = ds_lsuDemand st \/
    x = default 0 (ds_operationDemand st !! tn_operation node) ->
    u64_max - x < tn_issueOccupancy node -> u64_max < total_occupancy (nodes ++ [node])).
  { intros x Hx Hlt. rewrite total_occupancy_snoc.
    destruct Hx as [-> |[-> | ->]]; [rewrite Hfu in Hlt|rewrite Hlsu in Hlt|rewrite Hop in Hlt];
      match type of Hlt with _ - occupancy ?P _ < _ => pose proof (occupancy_le P nodes Hnodes) end;
      lia. }
  assert (Hnil : MII_INTERNAL_ERROR ∉ mid_code <$> ds_diagnostics st)
    by (rewrite Hd; apply not_elem_of_nil).
  unfold demand_step. rewrite (proj2 (Z.eqb_neq _ 0)) by lia. rewrite Hopn. unfold checkedAdd.
  destruct (Z.ltb_spec (u64_max - default 0 (ds_operationDemand st !! tn_operation node))
    (tn_issueOccupancy node)) as [Hlt|Hroom].
  { apply overflow_exact; [|done|done]. eapply Hover; [|exact Hlt]. auto. }
  assert (Hmap : forall f, (f = occupancy (of_class FU) (nodes ++ [node])) -> forall l,
    l = occupancy (of_class LSU) (nodes ++ [node]) ->
    0 <= f <= u64_max -> 0 <= l <= u64_max ->
    demand_exact (nodes ++ [node]) (mkDemand (ds_status st) (ds_diagnostics st) f l
      (Z.max (ds_selfOccupancy st) (tn_issueOccupancy node))
      (<[tn_operation node := default 0 (ds_operationDemand st !! tn_operation node) +
         tn_issueOccupancy node]> (ds_operationDemand st)))).
  { intros f -> l -> Hf Hl. right. simpl. split_and!; try done; try lia.
    - intros node' [Hin| ->%list_elem_of_singleton]%elem_of_app; [specialize (Hmax _ Hin)|]; lia.
    - rewrite fmap_app, elem_of_app. simpl. destruct (Z.max_spec (ds_selfOccupancy st)
        (tn_issueOccupancy node)) as [[_ ->]|[_ ->]]; [right; right; by left|naive_solver].
    - intros name. rewrite lookup_insert_is_Some', fmap_app, elem_of_app, Hdom. simpl. set_solver.
    - intros name. rewrite occupancy_snoc. destruct (decide (tn_operation node = name)) as [<-|Hne].
      + by rewrite lookup_insert_eq, <- Hop.
      + rewrite lookup_insert_ne, Hop by done. lia.
    - intros name. specialize (Hop64 name).
      destruct (decide (tn_operation node = name)) as [<-|Hne].
      + rewrite lookup_insert_eq. simpl. lia.
      + by rewrite lookup_insert_ne. }
  rewrite !occupancy_snoc, <- Hfu, <- Hlsu in Hmap.
  destruct (tn_executionClass node) eqn:Eclass; simpl;
    match goal with |- context [?x <? ?y] => destruct (Z.ltb_spec x y) end; simpl.
  all: try (apply Hmap; repeat case_decide; try congruence; lia).
  all: apply overflow_exact; [|done|done]; eapply Hover; [|done]; auto.
Qed.

Lemma demands_exact :
  (forall node, node ∈ td_nodes dfg -> countable node) ->
  demand_exact (td_nodes dfg) (demands dfg target).
Proof.
  unfold demands. intros Hocc. 
  cut (forall rest fin st, (forall node, node ∈ rest -> countable node) ->
    (forall node, node ∈ fin -> 0 <= tn_issueOccupancy node) ->
    demand_exact fin st -> demand_exact (fin ++ rest) (foldl (demand_step target) st rest)).
  { intros H. apply (H (td_nodes dfg) []);
      [done|by intros node Hn%not_elem_of_nil|]. right. simpl.
    split_and!; try done; try (unfold u64_max; lia).
    - intros node H'. by apply not_elem_of_nil in H'.
    - intros name. rewrite lookup_empty. split; [by intros [? ?]|by intros ?%not_elem_of_nil]. }
  clear Hocc. induction rest as [|node rest IH]; intros fin st Hocc Hfin Hex; simpl;
    [by rewrite app_nil_r|].
  replace (fin ++ node :: rest) with ((fin ++ [node]) ++ rest) by by rewrite <- app_assoc.
  pose proof (Hocc node ltac:(left)) as Hn.
  apply IH; [intros n Hin; apply Hocc; by right| |by apply demand_step_exact].
  intros n [Hin| ->%list_elem_of_singleton]%elem_of_app; [by apply Hfin|destruct Hn; lia].
Qed.
End DemandPhase.

(** [ceilDivToMII] is the least positive interval that covers the demand. *)
Lemma ceilDivToMII_least demand capacity r ii :
  0 <= demand <= u64_max -> 0 <= capacity -> ceilDivToMII demand capacity = Some r -> 1 <= ii ->
  1 <= r /\ (demand <= ii * capacity <-> r <= ii).
Proof.
  intros Hd Hc. unfold ceilDivToMII. destruct (Z.eqb_spec demand 0) as [->|Hd0].
  { intros [= <-] Hii. split; [lia|]. split; [lia|nia]. }
  destruct (Z.eqb_spec capacity 0); [done|].
  pose proof (Z.div_mod demand capacity ltac:(lia)) as Hdm.
  pose proof (Z.mod_pos_bound demand capacity ltac:(lia)).
  pose proof (Z.div_pos demand capacity ltac:(lia) ltac:(lia)).
  assert (demand / capacity <= demand) by (apply Z.div_le_upper_bound; nia).
  case_match; [done|]. intros [= <-] Hii.
  destruct (Z.eqb_spec (demand mod capacity) 0) as [E|Hne].
  - rewrite wrap64_id by (unfold is_u64; lia). split; [nia|]. split; nia.
  - assert (demand / capacity < u64_max \/ demand / capacity = demand) as [Hlt|Heq]
      by (destruct (decide (demand / capacity = demand)); [by right|left; lia]); [|nia].
    rewrite wrap64_id by (unfold is_u64; lia). split; [lia|]. split; nia.
Qed.

Lemma ceilDivToMII_overflow demand capacity :
  0 <= demand <= u64_max -> 0 < capacity -> ceilDivToMII demand capacity = None ->
  u32_max < demand.
Proof.
  intros Hd Hc. unfold ceilDivToMII.
  destruct (Z.eqb_spec demand 0); [done|]. destruct (Z.eqb_spec capacity 0); [lia|].
  destruct (Z.ltb_spec u32_max (wrap64 (demand / capacity +
    (if demand mod capacity =? 0 then 0 else 1)))) as [Hlt|]; [|done]. intros _.
  assert (Hq : demand / capacity + (if demand mod capacity =? 0 then 0 else 1) <= demand).
  { pose proof (Z.div_mod demand capacity ltac:(lia)).
    pose proof (Z.mod_pos_bound demand capacity ltac:(lia)).
    pose proof (Z.div_pos demand capacity ltac:(lia) ltac:(lia)).
    destruct (Z.eqb_spec (demand mod capacity) 0); nia. }
  assert (0 <= demand / capacity) by (apply Z.div_pos; lia).
  rewrite wrap64_id in Hlt; [lia|]. unfold is_u64.
  destruct (demand mod capacity =? 0); lia.
Qed.

Section ResourcePhase.
Context (dfg : TargetDFG) (target : TargetModel).
Context (Hinv : TargetDFG_inv dfg) (Htwf : TargetModel_wf target).
Context (Hvalid : TargetDFG_valid dfg target None).

(** Every unit can serve its share of one iteration within [ii] cycles. *)
Record resource_feasible (ii : Z) : Prop := {
  rfe_self : forall node, node ∈ td_nodes dfg -> tn_issueOccupancy node <= ii;
  rfe_fu : occupancy (of_class FU) (td_nodes dfg) <= ii * executionResourceCount target FU;
  rfe_lsu : occupancy (of_class LSU) (td_nodes dfg) <= ii * executionResourceCount target LSU;
  rfe_operation : forall name op, name ∈ tn_operation <$> td_nodes dfg ->
    findOperation target name = Some op ->
    occupancy (of_operation name) (td_nodes dfg) <= ii * compatibleResourceCount target op
}.

Lemma executionResourceCount_nonneg c : 0 <= executionResourceCount target c.
Proof. destruct c; simpl; [unfold wrap64; apply Z.mod_pos_bound; lia|lia]. Qed.

Lemma compatibleResourceCount_nonneg op : 0 <= compatibleResourceCount target op.
Proof. unfold compatibleResourceCount. repeat case_match; lia. Qed.

(** One bound of the per-operation loop. *)
Definition operation_bound (bound : Z) (item : string * Z) : Prop :=
  exists op b, findOperation target item.1 = Some op /\
    ceilDivToMII item.2 (compatibleResourceCount target op) = Some b /\ b <= bound.

Lemma per_operation_spec items status diags bound :
  (forall item, item ∈ items -> 0 <= item.2 <= u64_max /\
     exists op, findOperation target item.1 = Some op /\ isOperationExecutable target op = true) ->
  (exists bound', per_operation target items status diags bound = Ok (false, status, diags, bound') /\
     bound <= bound' /\ (forall item, item ∈ items -> operation_bound bound' item) /\
     (bound' = bound \/ exists item op, item ∈ items /\ findOperation target item.1 = Some op /\
        ceilDivToMII item.2 (compatibleResourceCount target op) = Some bound')) \/
  (exists bound' item, item ∈ items /\ u32_max < item.2 /\
     per_operation target items status diags bound =
     Ok (true, MIIInternalError, diags ++ [mkMIIDiag MII_ARITHMETIC_OVERFLOW None None], bound')).
Proof.
  revert bound. induction items as [|[name demand] items IH]; intros bound Hfound; simpl.
  { left. exists bound. split_and!; [done|lia| |by left].
    intros item Hitem. by apply not_elem_of_nil in Hitem. }
  destruct (Hfound (name, demand) ltac:(left)) as (Hdemand & op & Hop & Hexec).
  simpl in Hop, Hdemand. unfold operation. rewrite Hop. simpl.
  assert (compatibleResourceCount target op <> 0) as Hcap.
  { unfold isOperationExecutable in Hexec. by destruct (Z.eqb_spec (compatibleResourceCount target op) 0). }
  rewrite (proj2 (Z.eqb_neq _ 0) Hcap).
  pose proof (compatibleResourceCount_nonneg op) as Hnn.
  destruct (ceilDivToMII _ _) as [b0|] eqn:Eceil.
  2: { apply ceilDivToMII_overflow in Eceil; [|done|lia]. right.
       exists bound, (name, demand). split_and!; [left|done..]. }
  destruct (IH (Z.max bound b0)) as [(b & Hrun & Hb & Hall & Hreach)|(b & item & Hin & Hover & Hrun)];
    [intros item Hitem; apply Hfound; by right| |].
  2: { right. exists b, item. split_and!; [by right|done..]. }
  left. exists b. split_and!; [exact Hrun|lia| |].
  - intros item [->|Hitem]%elem_of_cons; [|by apply Hall]. exists op, b0. split_and!; [done..|lia].
  - destruct Hreach as [->|(item & op' & Hitem & Hop' & Hb')].
    + destruct (Z.max_spec bound b0) as [[_ ->]|[_ ->]]; [right|by left].
      exists (name, demand), op. split_and!; [left|done..].
    + right. exists item, op'. split_and!; [by right|done..].
Qed.

Lemma elem_of_string_items (m : gmap string Z) name demand :
  (name, demand) ∈ string_items m <-> m !! name = Some demand.
Proof. unfold string_items. by rewrite merge_sort_Permutation, elem_of_map_to_list. Qed.

Lemma resource_bound_exact d selfBound fuBound lsuBound perOperation ii :
  demand_exact (td_nodes dfg) d -> ds_status d = MIISuccess -> 1 <= ii ->
  (forall node, node ∈ td_nodes dfg -> tn_issueOccupancy node <= u32_max) ->
  ceilDivToMII (ds_selfOccupancy d) 1 = Some selfBound ->
  ceilDivToMII (ds_fuDemand d) (executionResourceCount target FU) = Some fuBound ->
  ceilDivToMII (ds_lsuDemand d) (executionResourceCount target LSU) = Some lsuBound ->
  (forall item, item ∈ string_items (ds_operationDemand d) -> operation_bound perOperation item) ->
  (perOperation = 1 \/ exists item op, item ∈ string_items (ds_operationDemand d) /\
     findOperation target item.1 = Some op /\
     ceilDivToMII item.2 (compatibleResourceCount target op) = Some perOperation) ->
  resource_feasible ii <->
  Z.max 1 (Z.max (Z.max 1 selfBound) (Z.max (Z.max 1 fuBound)
    (Z.max (Z.max 1 lsuBound) perOperation))) <= ii.
Proof.
  intros [[Hf _]|(_ & _ & Hfu & Hlsu & Hself & Hmax & Hreach & Hdom & Hop & Hfu64 & Hlsu64 & Hop64)]
    Hs Hii H32 Esb Efb Elb Hall Hpo; [by rewrite Hs in Hf|].
  assert (ds_selfOccupancy d <= u64_max) as Hself64.
  { destruct Hreach as [->|(node & -> & Hn)%list_elem_of_fmap]; [unfold u64_max; lia|].
    specialize (H32 node Hn). unfold u32_max, u64_max in *. lia. }
  destruct (ceilDivToMII_least (ds_selfOccupancy d) 1 _ ii ltac:(lia) ltac:(lia) Esb Hii) as [_ Hsb].
  destruct (ceilDivToMII_least _ _ _ ii Hfu64 (executionResourceCount_nonneg FU) Efb Hii) as [_ Hfb].
  destruct (ceilDivToMII_least _ _ _ ii Hlsu64 (executionResourceCount_nonneg LSU) Elb Hii) as [_ Hlb].
  assert (Hitem : forall name demand op b, (name, demand) ∈ string_items (ds_operationDemand d) ->
    findOperation target name = Some op ->
    ceilDivToMII demand (compatibleResourceCount target op) = Some b ->
    occupancy (of_operation name) (td_nodes dfg) <= ii * compatibleResourceCount target op <->
    b <= ii).
  { intros name demand op b Hin%elem_of_string_items Ho Hb. rewrite <- Hop.
    specialize (Hop64 name). rewrite Hin in *. simpl in *.
    by eapply (ceilDivToMII_least demand _ b ii); [|apply compatibleResourceCount_nonneg|..]. }
  assert (Hin : forall name, name ∈ tn_operation <$> td_nodes dfg -> exists demand,
    (name, demand) ∈ string_items (ds_operationDemand d)).
  { intros name [demand Hd]%Hdom. exists demand. by apply elem_of_string_items. }
  split.
  - intros [H1 H2 H3 H4]. assert (ds_selfOccupancy d <= ii * 1).
    { destruct Hreach as [->|(node & -> & Hn)%list_elem_of_fmap]; [lia|]. specialize (H1 node Hn). lia. }
    assert (perOperation <= ii); [|lia].
    destruct Hpo as [->|([name demand] & op & Hi & Ho & Hb)]; [done|]. simpl in *.
    apply (Hitem name demand op); try done. apply H4; [|done].
    apply Hdom. apply elem_of_string_items in Hi. eauto.
  - intros Hle. split; [|lia|lia|].
    + intros node Hn. specialize (Hmax node Hn). lia.
    + intros name op Hn Ho. destruct (Hin name Hn) as [demand Hi].
      destruct (Hall _ Hi) as (op' & b & Ho' & Hb & Hle'). simpl in *.
      assert (op' = op) as -> by congruence. apply (Hitem name demand op b); try done. lia.
Qed.
End ResourcePhase.

(** ** The analysis *)

(** The distances of a graph are unsigned in the code. *)
Definition typed_graph (dfg : TargetDFG) : Prop :=
  forall edge, edge ∈ td_edges dfg -> is_u32 (te_distance edge).

Lemma valid_node_operation dfg target node :
  TargetModel_wf target -> TargetDFG_valid dfg target None -> node ∈ td_nodes dfg ->
  exists op, findOperation target (tn_operation node) = Some op /\ op ∈ tm_operations target /\
    op_issueOccupancy op = tn_issueOccupancy node /\
    op_executionClass op = tn_executionClass node /\ 0 < tn_issueOccupancy node <= u32_max.
Proof.
  intros Htwf Hvalid Hn. destruct (tv_nodes _ _ _ Hvalid node Hn)
    as (op & Hop & _ & Hclass & Hocc & _).
  pose proof (findOperation_elem target _ _ Hop) as Hin. exists op. pose proof (wf_occupancy target Htwf op Hin). rewrite Hocc in *. done.
Qed.

(** Sums that leave 32 bits; the analysis then gives up with an internal error. *)
Definition analysis_overflow (dfg : TargetDFG) (target : TargetModel) : Prop :=
  u32_max < sumZ (tn_issueOccupancy <$> td_nodes dfg) \/
  u32_max < sumZ (edge_separation dfg target <$> td_edges dfg).

(** What each status of a result means. *)
Definition analysis_exact (dfg : TargetDFG) (target : TargetModel) (r : MIIResult) : Prop :=
  match mr_status r with
  | MIISuccess =>
      TargetDFG_valid dfg target None /\ td_targetName dfg = tm_name target /\ 1 <= mr_mii r /\
      forall ii, 1 <= ii ->
      (resource_feasible dfg target ii <-> mr_resourceMII r <= ii) /\
      (recurrence_feasible dfg target ii <-> mr_recurrenceMII r <= ii) /\
      (resource_feasible dfg target ii /\ recurrence_feasible dfg target ii <-> mr_mii r <= ii)
  | MIIUnschedulableZeroDistanceCycle => forall ii, ~ recurrence_feasible dfg target ii
  | MIIInvalidTargetDFG | MIINoCompatibleResource =>
      ~ (TargetDFG_valid dfg target None /\ td_targetName dfg = tm_name target)
  | MIITargetContractError => False
  | MIIInternalError => analysis_overflow dfg target
  end.

Lemma recurrence_feasible_mono dfg target ii ii' :
  typed_graph dfg -> ii <= ii' ->
  recurrence_feasible dfg target ii -> recurrence_feasible dfg target ii'.
Proof.
  intros Ht Hle [time H]. exists time. intros edge Hedge. specialize (H edge Hedge).
  pose proof (Ht edge Hedge) as [Hd _]. nia.
Qed.

Section AnalyzeSpec.
Context (dfg : TargetDFG) (target : TargetModel).
Context (Hinv : TargetDFG_inv dfg) (Htwf : TargetModel_wf target) (Htyped : typed_graph dfg).

Lemma recurrence_phase_sound breakdown resourceMII diags :
  TargetDFG_valid dfg target None -> td_targetName dfg = tm_name target -> 1 <= resourceMII ->
  (forall ii, 1 <= ii -> resource_feasible dfg target ii <-> resourceMII <= ii) ->
  exists r, analyze_recurrence dfg target breakdown resourceMII diags = Ok r /\
    analysis_exact dfg target r.
Proof using Hinv Htwf Htyped.
  intros Hvalid Hname Hres Hfeas.
  destruct (analyze_recurrence_spec dfg target Hinv Htwf Hvalid
    (fun e He => proj1 (Htyped e He)) breakdown resourceMII diags)
    as (r & -> & Hr & Hcase).
  exists r. split; [done|]. unfold analysis_exact.
  destruct Hcase as [(-> & -> & Hb & Hok & Hleast)|[[-> Hno]|[-> Hover]]]; [|done|by right].
  assert (Hrec : forall ii, 1 <= ii ->
    recurrence_feasible dfg target ii <-> mr_recurrenceMII r <= ii).
  { intros ii Hii. split.
    - intros Hs. destruct (decide (mr_recurrenceMII r <= ii)); [done|].
      exfalso. apply (Hleast ii); [lia|done].
    - intros Hle. by apply (recurrence_feasible_mono _ _ (mr_recurrenceMII r)). }
  split; [done|]. split; [done|]. split; [lia|]. intros ii Hii. rewrite Hrec, (Hfeas ii), Hr by done.
  split_and!; [done|done|lia].
Qed.

Lemma valid_node_countable node :
  TargetDFG_valid dfg target None -> node ∈ td_nodes dfg -> countable target node.
Proof using Htwf.
  intros Hvalid Hn. destruct (valid_node_operation dfg target node Htwf Hvalid Hn)
    as (op & Hop & _ & _ & _ & Hocc). split; [lia|eauto].
Qed.

Lemma valid_node_executable node :
  TargetDFG_valid dfg target None -> node ∈ td_nodes dfg ->
  exists op, findOperation target (tn_operation node) = Some op /\
    isOperationExecutable target op = true /\ op_executionClass op = tn_executionClass node.
Proof.
  intros Hvalid Hn. destruct (tv_nodes _ _ _ Hvalid node Hn) as (op & H1 & H2 & H3 & _). eauto.
Qed.

(** A class with demand has units: its nodes are executable. *)
Lemma class_capacity c :
  TargetDFG_valid dfg target None -> 0 < occupancy (of_class c) (td_nodes dfg) ->
  0 < executionResourceCount target c.
Proof using Htwf.
  intros Hvalid Hpos. destruct c; simpl.
  - pose proof (wf_rows target Htwf). pose proof (wf_cols target Htwf).
    rewrite wrap64_id; [nia|]. unfold is_u64, u32_max, u64_max in *. nia.
  - unfold occupancy in Hpos.
    destruct (filter (of_class LSU) (td_nodes dfg)) as [|node rest] eqn:Ef; [done|].
    assert (node ∈ filter (of_class LSU) (td_nodes dfg)) as [Hc Hn]%list_elem_of_filter
      by (rewrite Ef; left).
    destruct (valid_node_executable node Hvalid Hn) as (op & _ & Hex & Hclass).
    unfold isOperationExecutable, compatibleResourceCount in Hex. rewrite Hclass, Hc in Hex.
    destruct (hasValidEncoding target op); simpl in Hex; lia.
Qed.

Lemma ceil_class_overflow c :
  TargetDFG_valid dfg target None ->
  0 <= occupancy (of_class c) (td_nodes dfg) <= u64_max ->
  ceilDivToMII (occupancy (of_class c) (td_nodes dfg)) (executionResourceCount target c) = None ->
  u32_max < sumZ (tn_issueOccupancy <$> td_nodes dfg).
Proof using Htwf.
  intros Hvalid Hb H. eapply Z.lt_le_trans; [|apply (occupancy_le (of_class c))].
  - eapply ceilDivToMII_overflow; [done| |done]. apply class_capacity; [done|].
    destruct (decide (occupancy (of_class c) (td_nodes dfg) = 0)) as [E|]; [|lia].
    by rewrite E in H.
  - intros n Hn. destruct (valid_node_countable n Hvalid Hn). lia.
Qed.

Lemma self_bound_Some :
  TargetDFG_valid dfg target None -> ds_status (demands dfg target) = MIISuccess ->
  is_Some (ceilDivToMII (ds_selfOccupancy (demands dfg target)) 1).
Proof using Htwf.
  intros Hvalid Hs. destruct (ceilDivToMII _ 1) eqn:E; [eauto|].
  destruct (demands_exact dfg target (fun n Hn => valid_node_countable n Hvalid Hn))
    as [(Hs' & _)|(_ & _ & _ & _ & Hself & _ & Hreach & _)]; [congruence|].
  assert (ds_selfOccupancy (demands dfg target) <= u32_max) as Hle.
  { destruct Hreach as [->|(n & -> & Hn)%list_elem_of_fmap]; [unfold u32_max; lia|].
    by destruct (valid_node_operation dfg target n Htwf Hvalid Hn) as (? & _ & _ & _ & _ & ? & ?). }
  apply ceilDivToMII_overflow in E; [lia| |lia]. unfold u32_max, u64_max in *. lia.
Qed.

Lemma operation_items_executable item :
  TargetDFG_valid dfg target None -> ds_status (demands dfg target) = MIISuccess ->
  item ∈ string_items (ds_operationDemand (demands dfg target)) ->
  (0 <= item.2 <= u64_max /\ item.2 = occupancy (of_operation item.1) (td_nodes dfg)) /\
  exists op, findOperation target item.1 = Some op /\ isOperationExecutable target op = true.
Proof using Htwf.
  intros Hvalid Hs. destruct item as [name demand]. rewrite elem_of_string_items. intros Hi.
  destruct (demands_exact dfg target (fun n Hn => valid_node_countable n Hvalid Hn))
    as [(Hs' & _)|(_ & _ & _ & _ & _ & _ & _ & Hdom & Hop & _ & _ & Hop64)]; [congruence|].
  specialize (Hop name). specialize (Hop64 name). rewrite Hi in Hop, Hop64. simpl in *.
  split; [done|]. assert (name ∈ tn_operation <$> td_nodes dfg) as (n & -> & Hn)%list_elem_of_fmap
    by (apply Hdom; eauto).
  destruct (valid_node_executable n Hvalid Hn) as (op & ? & ? & _). eauto.
Qed.

Lemma resource_phase_sound :
  TargetDFG_valid dfg target None -> td_targetName dfg = tm_name target ->
  exists r, analyze dfg target = Ok r /\ analysis_exact dfg target r.
Proof using Hinv Htwf Htyped.
  intros Hvalid Hname. unfold analyze.
  rewrite (proj2 (tdfg_verify_clean dfg target None Hinv) Hvalid). simpl.
  rewrite Hname, String.eqb_refl. simpl.
  pose proof (demands_exact dfg target (fun n Hn => valid_node_countable n Hvalid Hn)) as Hex.
  pose proof Hex as [(Hs & Hover & Hd & _)|(Hs & Hd & Hfu & Hlsu & _ & _ & _ & _ & _ & Hfu64 & Hlsu64 & _)].
  { rewrite bool_decide_eq_false_2 by done. rewrite Hs. simpl.
    eexists. split; [done|]. left. unfold u32_max, u64_max in *. lia. }
  rewrite Hd, bool_decide_eq_true_2 by done. simpl.
  pose proof (class_capacity FU Hvalid) as HcapF. pose proof (class_capacity LSU Hvalid) as HcapL.
  simpl in HcapF, HcapL. rewrite <- Hfu in HcapF. rewrite <- Hlsu in HcapL.
  destruct (_ || _)%bool eqn:Hcap; [exfalso; lia|].
  destruct (self_bound_Some Hvalid Hs) as [sb Esb]. rewrite Esb.
  destruct (ceilDivToMII (ds_fuDemand _) _) as [fb|] eqn:Efb.
  2: { eexists. split; [done|]. left. apply (ceil_class_overflow FU Hvalid); by rewrite <- Hfu. }
  destruct (ceilDivToMII (ds_lsuDemand _) _) as [lb|] eqn:Elb.
  2: { eexists. split; [done|]. left. apply (ceil_class_overflow LSU Hvalid); by rewrite <- Hlsu. }
  destruct (per_operation_spec target (string_items (ds_operationDemand (demands dfg target)))
    (ds_status (demands dfg target)) [] 1) as [(po & -> & Hpo & Hall & Hreach)|
      (po & item & Hin & Hover & ->)].
  { intros item Hi. destruct (operation_items_executable item Hvalid Hs Hi) as [[? _] ?]. done. }
  - rewrite Hs. simpl. apply recurrence_phase_sound; [done|done|lia|].
    intros ii Hii. eapply resource_bound_exact; try done.
    intros n Hn. by destruct (valid_node_operation dfg target n Htwf Hvalid Hn) as (? & _ & _ & _ & _ & ? & ?).
  - eexists. split; [done|]. left.
    destruct (operation_items_executable item Hvalid Hs Hin) as [[_ E] _]. rewrite E in Hover.
    eapply Z.lt_le_trans; [exact Hover|]. apply occupancy_le.
    intros n Hn. destruct (valid_node_countable n Hvalid Hn). lia.
Qed.
End AnalyzeSpec.

Lemma analyze_spec dfg target :
  TargetDFG_inv dfg -> TargetModel_wf target -> typed_graph dfg ->
  exists r, analyze dfg target = Ok r /\ analysis_exact dfg target r.
Proof.
  intros Hinv Htwf Htyped.
  pose proof (tdfg_verify_clean dfg target None Hinv) as Hclean.
  pose proof (tdfg_verify_eq dfg target None Hinv) as Hreport.
  match type of Hreport with _ = Ok ?r => set (report := r) in Hreport end.
  rewrite Hreport in Hclean. clearbody report.
  destruct (decide (report = [])) as [->|Hne].
  - destruct (decide (td_targetName dfg = tm_name target));
      [apply resource_phase_sound; try done; by apply Hclean|].
    unfold analyze. rewrite Hreport. simpl.
    destruct (String.eqb_spec (td_targetName dfg) (tm_name target)); [done|]. simpl.
    eexists. split; [done|]. by intros [_ ?].
  - assert (~ TargetDFG_valid dfg target None) by (intros H%Hclean; by injection H).
    unfold analyze. rewrite Hreport. simpl. rewrite bool_decide_eq_false_2 by done. simpl.
    destruct (allDiagnosticsAreNoResource report); (eexists; split; [done|]; by intros [? _]).
Qed.

(** C21: The MII analysis always returns a result, and the result is exact.  On
    success the resource bound is the least interval at which every tile,
    load/store unit and operation can serve its demand, the recurrence bound is
    the least interval for which the dependences of the graph have a modulo
    schedule, and an interval meets both exactly when it is at least the reported
    MII.  An unschedulable zero-distance cycle means that no interval has a
    schedule; an invalid-graph or no-resource status that the graph breaks the
    rules of the target; the target-contract error never arises from a loaded
    contract; and an internal error means that a sum left 32 bits, so the
    "safe upper bound" of the search is indeed safe. *)
Theorem analyze_is_exact dfg target :
  TargetDFG_inv dfg -> TargetModel_wf target -> typed_graph dfg ->
  exists r, analyze dfg target = Ok r /\ analysis_exact dfg target r.
Proof. apply analyze_spec. Qed.

Lemma v2_accumulate_typed : typed_graph v2_accumulate.
Proof.
  intros edge Hedge. vm_compute in Hedge.
  repeat (apply elem_of_cons in Hedge as [->|Hedge]; [vm_compute; split; discriminate|]).
  by apply not_elem_of_nil in Hedge.
Qed.

(** The accumulation kernel: its four-cycle recurrence makes the MII four. *)
Lemma analyze_is_exact_witness :
  exists r, analyze v2_accumulate cgra_v2 = Ok r /\ analysis_exact v2_accumulate cgra_v2 r.
Proof.
  apply (analyze_is_exact v2_accumulate cgra_v2).
  - exact v2_accumulate_inv.
  - exact cgra_v2_wf.
  - exact v2_accumulate_typed.
Defined.

Example v2_accumulate_mii :
  (r ← analyze v2_accumulate cgra_v2; Ok (mr_mii r)) = Ok 4.
Proof. vm_compute. reflexivity. Qed.

(** ** The resource bound limits every valid mapping *)

Lemma flat_map_sublist {A B} (f : A -> list B) l k :
  l `sublist_of` k -> flat_map f l `sublist_of` flat_map f k.
Proof.
  induction 1; simpl; [done|by apply sublist_app|by apply sublist_inserts_l].
Qed.

Section Pigeonhole.
Context (dfg : TargetDFG) (target : TargetModel) (m : ModuloMapping).
Context (Htwf : TargetModel_wf target) (Hvm : valid_mapping dfg target m).
Context (Hii : 0 < mm_ii m).

Lemma placed_occurrences node : node ∈ td_nodes dfg ->
  exists p op, placed m (tn_id node) p /\ placement_valid target m node p /\
    findOperation target (tn_operation node) = Some op /\
    tileSupportsOperation target (tile_row (np_tile p)) (tile_col (np_tile p)) (op_id op) = true /\
    0 < tn_issueOccupancy node <= mm_ii m /\
    node_occurrences target m (issue_slot m) node =
    (fun offset => exec_resource (tn_executionClass node) (np_tile p)
       (issue_slot m (tn_id node) + offset)) <$> range (tn_issueOccupancy node).
Proof using Htwf Hvm.
  intros Hn. destruct (vm_nodes _ _ _ Hvm node Hn) as (p & Hpl & Hvalid).
  pose proof Hvalid as (_ & _ & op & Hop & Hsup & Hocc).
  destruct (valid_node_operation dfg target node Htwf (vm_graph _ _ _ Hvm) Hn)
    as (op' & Hop' & _ & Eocc & Ec & _).
  assert (op' = op) as -> by congruence. exists p, op. rewrite <- Eocc.
  split_and!; try done; try lia. unfold node_occurrences. unfold placed in Hpl.
  by rewrite Hpl, Hop, Ec.
Qed.

Lemma sumZ_length_flat_map {A B} (f : A -> list B) (g : A -> Z) l :
  (forall x, x ∈ l -> Z.of_nat (length (f x)) = g x) ->
  Z.of_nat (length (flat_map f l)) = sumZ (g <$> l).
Proof.
  induction l as [|x l IH]; intros H; csimpl; [done|].
  rewrite length_app, Nat2Z.inj_add, H by left. by rewrite IH by (intros; apply H; by right).
Qed.

(** Counting units: nodes of one class placed on the tiles [ts] use each unit of
    those tiles at most once per slot. *)
Lemma occupancy_pigeonhole c (P : TargetNode -> Prop) `{!forall n, Decision (P n)} ts :
  (forall node p, node ∈ td_nodes dfg -> P node -> placed m (tn_id node) p ->
     tn_executionClass node = c /\ np_tile p ∈ ts) ->
  occupancy P (td_nodes dfg) <= mm_ii m * Z.of_nat (length ts).
Proof using Htwf Hvm Hii.
  intros HP.
  set (raw := flat_map (node_occurrences target m (issue_slot m)) (filter P (td_nodes dfg))).
  set (units := flat_map (fun t => exec_resource c t <$> range (mm_ii m)) ts).
  assert (Hlen : (length raw <= length units)%nat).
  { rewrite <- (length_fmap (map_slot (fun cycle => cycle mod mm_ii m)) raw).
    apply submseteq_length, NoDup_submseteq.
    - eapply sublist_NoDup; [exact (vm_exclusive _ _ _ Hvm)|].
      unfold raw, occurrences. apply fmap_sublist, sublist_inserts_r, flat_map_sublist, sublist_filter.
    - intros r (r0 & -> & (node & [Hp Hn]%list_elem_of_filter & Hr0)%elem_of_flat_map)%list_elem_of_fmap.
      destruct (placed_occurrences node Hn) as (p & op & Hpl & _ & _ & _ & Hocc & E).
      destruct (HP node p Hn Hp Hpl) as [Hc Hts]. rewrite E in Hr0.
      apply list_elem_of_fmap in Hr0 as (o & -> & Ho). rewrite map_slot_exec, Hc.
      apply elem_of_flat_map. exists (np_tile p). split; [done|]. apply list_elem_of_fmap.
      eexists. split; [done|]. apply elem_of_range, Z.mod_pos_bound. lia. }
  assert (Hraw : Z.of_nat (length raw) = occupancy P (td_nodes dfg)).
  { apply sumZ_length_flat_map. intros node [_ Hn]%list_elem_of_filter.
    destruct (placed_occurrences node Hn) as (p & op & _ & _ & _ & _ & Hocc & ->).
    rewrite length_fmap. unfold range. rewrite length_seqZ. lia. }
  assert (Hunits : Z.of_nat (length units) = sumZ ((fun _ => mm_ii m) <$> ts)).
  { apply sumZ_length_flat_map. intros t _. rewrite length_fmap. unfold range.
    rewrite length_seqZ. lia. }
  assert (Hconst : sumZ ((fun _ => mm_ii m) <$> ts) = mm_ii m * Z.of_nat (length ts))
    by (clear; induction ts as [|t ts IH]; csimpl; lia).
  lia.
Qed.
End Pigeonhole.

Section MappingBound.
Context (dfg : TargetDFG) (target : TargetModel) (m : ModuloMapping).
Context (Htwf : TargetModel_wf target) (Hvm : valid_mapping dfg target m).
Context (Hii : 0 < mm_ii m).

Lemma placed_class_tile node p :
  node ∈ td_nodes dfg -> placed m (tn_id node) p ->
  let tile := np_tile p in
  (tile_row tile, tile_col tile) ∈ tiles target /\
  (tn_executionClass node = LSU -> tileHasLSU target (tile_row tile) (tile_col tile) = true) /\
  exists op, findOperation target (tn_operation node) = Some op /\
    op_executionClass op = tn_executionClass node /\
    tileSupportsOperation target (tile_row tile) (tile_col tile) (op_id op) = true.
Proof using Htwf Hvm.
  intros Hn Hpl. destruct (placed_occurrences dfg target m Htwf Hvm node Hn)
    as (p' & op & Hpl' & (Hin & _) & Hop & Hsup & _). simpl.
  assert (p' = p) as -> by (unfold placed in *; congruence).
  destruct (valid_node_operation dfg target node Htwf (vm_graph _ _ _ Hvm) Hn)
    as (op' & Hop' & _ & _ & Ec & _). assert (op' = op) as -> by congruence.
  split; [apply elem_of_tiles; unfold tile_inside in Hin; lia|]. split; [|by exists op].
  intros E. rewrite E in Ec. revert Hsup. unfold tileSupportsOperation.
  rewrite (findOperation_id target _ _ Htwf Hop) , Hop, Ec. by destruct (_ || _)%bool.
Qed.

Abbreviation tile_of := (fun t : Z * Z => mkTile t.1 t.2).

Lemma in_tiles t (ts : list (Z * Z)) : (tile_row t, tile_col t) ∈ ts -> t ∈ tile_of <$> ts.
Proof. intros H. apply list_elem_of_fmap. eexists. split; [|exact H]. by destruct t. Qed.

Lemma tiles_length : Z.of_nat (length (tiles target)) =
  arr_rows (tm_array target) * arr_cols (tm_array target).
Proof using Htwf.
  pose proof (wf_rows target Htwf). pose proof (wf_cols target Htwf). unfold tiles.
  rewrite (sumZ_length_flat_map _ (fun _ => arr_cols (tm_array target))).
  - generalize (arr_cols (tm_array target)). intros w.
    assert (H2 : forall l : list Z, sumZ ((fun _ => w) <$> l) = Z.of_nat (length l) * w)
      by (induction l; csimpl; lia).
    rewrite H2. unfold range. rewrite length_seqZ. lia.
  - intros x _. rewrite length_fmap. unfold range. rewrite length_seqZ. lia.
Qed.

Lemma valid_mapping_resource_feasible : resource_feasible dfg target (mm_ii m).
Proof using Htwf Hvm Hii.
  split.
  - intros node Hn. destruct (placed_occurrences dfg target m Htwf Hvm node Hn)
      as (_ & _ & _ & _ & _ & _ & Hocc & _). lia.
  - simpl. pose proof (wf_rows target Htwf). pose proof (wf_cols target Htwf).
    rewrite wrap64_id by (unfold is_u64, u32_max, u64_max in *; nia). rewrite <- tiles_length.
    rewrite <- (length_fmap tile_of). eapply occupancy_pigeonhole; [done..|].
    intros node p Hn Hc Hpl. split; [exact Hc|]. apply in_tiles.
    by destruct (placed_class_tile node p Hn Hpl).
  - simpl. rewrite <- (length_fmap (fun l => (lsu_row l, lsu_col l))), <- (length_fmap tile_of).
    eapply occupancy_pigeonhole; [done..|]. intros node p Hn Hc Hpl. split; [exact Hc|].
    destruct (placed_class_tile node p Hn Hpl) as (_ & Hlsu & _).
    by apply in_tiles, tileHasLSU_true, Hlsu.
  - intros name op Hname Hop.
    apply list_elem_of_fmap in Hname as (node0 & -> & Hn0).
    destruct (valid_node_executable dfg target node0 (vm_graph _ _ _ Hvm) Hn0)
      as (op0 & Hop0 & Hex & _). assert (op0 = op) as -> by congruence.
    assert (Hnode : forall node p, node ∈ td_nodes dfg ->
      tn_operation node = tn_operation node0 -> placed m (tn_id node) p ->
      tn_executionClass node = op_executionClass op /\
      (tile_row (np_tile p), tile_col (np_tile p)) ∈ tiles target /\
      (op_executionClass op = LSU ->
         tileHasLSU target (tile_row (np_tile p)) (tile_col (np_tile p)) = true) /\
      tileSupportsOperation target (tile_row (np_tile p)) (tile_col (np_tile p)) (op_id op) = true).
    { intros node p Hn E Hpl.
      destruct (placed_class_tile node p Hn Hpl) as (Ht & Hl & op1 & Hop1 & Hc & Hs).
      rewrite E in Hop1. assert (op1 = op) as -> by congruence. rewrite Hc. done. }
    unfold isOperationExecutable, compatibleResourceCount in *.
    destruct (hasValidEncoding target op); simpl in *; [|done].
    destruct (op_executionClass op) eqn:Ec.
    + rewrite <- (length_fmap tile_of). eapply occupancy_pigeonhole; [done..|].
      intros node p Hn E Hpl. destruct (Hnode node p Hn E Hpl) as (Hc & Ht & _ & Hs).
      split; [exact Hc|]. by apply in_tiles, list_elem_of_filter.
    + rewrite <- (length_fmap (fun l => (lsu_row l, lsu_col l))), <- (length_fmap tile_of).
      eapply occupancy_pigeonhole; [done..|].
      intros node p Hn E Hpl. destruct (Hnode node p Hn E Hpl) as (Hc & _ & Hl & _).
      split; [exact Hc|]. by apply in_tiles, tileHasLSU_true, Hl.
Qed.
End MappingBound.

(** No accepted mapping beats the resource bound: if the mapping verifier
    reports nothing, the initiation interval of the mapping is at least the
    resource MII the analysis computes for the graph.  Every tile, load/store
    unit and compatible tile serves at most one cycle of work per slot, so the
    demand of an iteration fits in [ii] slots of the units that can serve it. *)
Theorem verified_mapping_respects_resourceMII dfg target m r :
  TargetDFG_inv dfg -> TargetModel_wf target -> typed_graph dfg ->
  typed_mapping m -> universe_fits target (mm_ii m) ->
  mmv_verify dfg target m = Ok [] ->
  analyze dfg target = Ok r -> mr_status r = MIISuccess -> mr_resourceMII r <= mm_ii m.
Proof.
  intros Hinv Htwf Htyped Hm Hfits Hv Hr Hs.
  pose proof (mmv_verify_sound dfg target m Htwf Hinv Hm Hfits Hv) as Hvm.
  assert (0 < mm_ii m).
  { pose proof (vm_ii _ _ _ Hvm). destruct Hm as [[? _] _]. lia. }
  destruct (resource_phase_sound dfg target Hinv Htwf Htyped (vm_graph _ _ _ Hvm)
    (proj2 (vm_target _ _ _ Hvm))) as (r' & Hr' & Hex).
  assert (r' = r) as -> by congruence. unfold analysis_exact in Hex. rewrite Hs in Hex.
  destruct Hex as (_ & _ & _ & Hex). apply (Hex (mm_ii m)); [lia|].
  by apply valid_mapping_resource_feasible.
Qed.

Lemma verified_mapping_respects_resourceMII_witness :
  exists r, analyze v2_accumulate cgra_v2 = Ok r /\ mr_resourceMII r <= mm_ii v2_accumulate_mapping.
Proof.
  eexists. split; [vm_compute; reflexivity|].
  eapply (verified_mapping_respects_resourceMII v2_accumulate cgra_v2 v2_accumulate_mapping).
  - exact v2_accumulate_inv.
  - exact cgra_v2_wf.
  - exact v2_accumulate_typed.
  - exact v2_accumulate_mapping_typed.
  - vm_compute. congruence.
  - vm_compute. reflexivity.
  - vm_compute. reflexivity.
  - vm_compute. reflexivity.
Defined.
