(* ===== verification/ModuloMapper.v ===== *)
(** * The modulo mapper

    Models [compiler/{include/cgra,lib}/Mapping/ModuloMapper.{h,cpp}] with
    [ModuloMapperResult.h], [ModuloMapperBudget.h], [ModuloMapperStats.h] and
    [CompleteMappingChecker.h]: for every II from the MII up, a backtracking search
    places one node after the other, routes the edges whose end points are placed,
    and hands the completed mapping to the verifier and to an optional checker.
    [ModuloMapperCorrect] holds the theorems.  The recursion of [search] runs on
    fuel, [None] says it ran out; message texts and renderings are left out. *)
From stdpp Require Import base numbers list gmap sorting strings.
From S2P Require Import Prelude.
From S2P Require Import IR.
From S2P Require Import TargetModel.
From S2P Require Import TargetDFG.
From S2P Require Import ModuloResources.
From S2P Require Import ModuloMapping.
From S2P Require Import MappingVerifier.
From S2P Require Import RouteSearch.
From S2P Require Import MIIAnalyzer.
From S2P Require Import OrderedMap.

Inductive ModuloMapperStatus :=
  | MapSuccess
  | MapInvalidTargetDFG
  | MapMIIAnalysisFailure
  | MapNoMappingWithinIILimit
  | MapBudgetExceeded
  | MapRouteBudgetExceeded
  | MapVerificationFailure
  | MapTargetContractError
  | MapInternalError.

#[export] Instance ModuloMapperStatus_eq_dec : EqDecision ModuloMapperStatus.
Proof. solve_decision. Defined.

Definition ModuloMapperStatus_toString (status : ModuloMapperStatus) : string :=
  match status with
  | MapSuccess => "success"
  | MapInvalidTargetDFG => "invalid_target_dfg"
  | MapMIIAnalysisFailure => "mii_analysis_failure"
  | MapNoMappingWithinIILimit => "no_mapping_within_ii_limit"
  | MapBudgetExceeded => "budget_exceeded"
  | MapRouteBudgetExceeded => "route_budget_exceeded"
  | MapVerificationFailure => "verification_failure"
  | MapTargetContractError => "target_contract_error"
  | MapInternalError => "internal_error"
  end.

Inductive ModuloMapperDiagnosticCode :=
  | MAP_INVALID_TARGET_DFG
  | MAP_MII_ANALYSIS_FAILED
  | MAP_NO_COMPATIBLE_CANDIDATE
  | MAP_NODE_RESOURCE_CONFLICT
  | MAP_ROUTE_NO_PATH
  | MAP_ROUTE_BUDGET_EXCEEDED
  | MAP_POST_MAPPING_REJECTED
  | MAP_II_BUDGET_SHARE_EXHAUSTED
  | MAP_GLOBAL_BUDGET_EXCEEDED
  | MAP_NO_MAPPING_WITHIN_II_LIMIT
  | MAP_FINAL_VERIFICATION_FAILED
  | MAP_TARGET_CONTRACT_ERROR
  | MAP_INTERNAL_ERROR.

#[export] Instance ModuloMapperDiagnosticCode_eq_dec : EqDecision ModuloMapperDiagnosticCode.
Proof. solve_decision. Defined.

Definition ModuloMapperDiagnosticCode_toString (code : ModuloMapperDiagnosticCode) : string :=
  match code with
  | MAP_INVALID_TARGET_DFG => "MAP_INVALID_TARGET_DFG"
  | MAP_MII_ANALYSIS_FAILED => "MAP_MII_ANALYSIS_FAILED"
  | MAP_NO_COMPATIBLE_CANDIDATE => "MAP_NO_COMPATIBLE_CANDIDATE"
  | MAP_NODE_RESOURCE_CONFLICT => "MAP_NODE_RESOURCE_CONFLICT"
  | MAP_ROUTE_NO_PATH => "MAP_ROUTE_NO_PATH"
  | MAP_ROUTE_BUDGET_EXCEEDED => "MAP_ROUTE_BUDGET_EXCEEDED"
  | MAP_POST_MAPPING_REJECTED => "MAP_POST_MAPPING_REJECTED"
  | MAP_II_BUDGET_SHARE_EXHAUSTED => "MAP_II_BUDGET_SHARE_EXHAUSTED"
  | MAP_GLOBAL_BUDGET_EXCEEDED => "MAP_GLOBAL_BUDGET_EXCEEDED"
  | MAP_NO_MAPPING_WITHIN_II_LIMIT => "MAP_NO_MAPPING_WITHIN_II_LIMIT"
  | MAP_FINAL_VERIFICATION_FAILED => "MAP_FINAL_VERIFICATION_FAILED"
  | MAP_TARGET_CONTRACT_ERROR => "MAP_TARGET_CONTRACT_ERROR"
  | MAP_INTERNAL_ERROR => "MAP_INTERNAL_ERROR"
  end.

Record ModuloMapperDiagnostic := mkMapperDiag {
  mpd_code : ModuloMapperDiagnosticCode;
  mpd_ii : option Z;
  mpd_node : option Z;
  mpd_edge : option Z
}.

Record ModuloMapperBudget := mkMapperBudget {
  mbu_maxNodeCandidateAttempts : Z;
  mbu_maxBacktracks : Z;
  mbu_maxRouteSearchCalls : Z;
  mbu_perRouteBudget : RouteSearchBudget
}.

(** The default member initializers. *)
Definition default_mapper_budget : ModuloMapperBudget :=
  mkMapperBudget 100000 50000 100000 default_route_budget.

Record ModuloMapperStats := mkMapperStats {
  ms_startingMII : Z;
  ms_finalII : Z;
  ms_iiAttempts : Z;
  ms_nodeCandidateAttempts : Z;
  ms_successfulPlacements : Z;
  ms_rejectedPlacements : Z;
  ms_routeSearchCalls : Z;
  ms_routeSuccesses : Z;
  ms_routeNoPaths : Z;
  ms_routeBudgetExceeded : Z;
  ms_backtracks : Z;
  ms_maxSearchDepth : Z;
  ms_totalRouteStateExpansions : Z;
  ms_completedModuloMappings : Z;
  ms_postMappingRejected : Z;
  ms_stageRejected : Z;
  ms_rfRejected : Z;
  ms_postMappingAbort : Z
}.

Definition no_mapper_stats : ModuloMapperStats :=
  mkMapperStats 0 0 0 0 0 0 0 0 0 0 0 0 0 0 0 0 0 0.

(** *** Counters *)

Definition starting_at (mii : Z) (s : ModuloMapperStats) : ModuloMapperStats :=
  mkMapperStats (mii) (ms_finalII s) (ms_iiAttempts s) (ms_nodeCandidateAttempts s)
    (ms_successfulPlacements s) (ms_rejectedPlacements s) (ms_routeSearchCalls s)
    (ms_routeSuccesses s) (ms_routeNoPaths s) (ms_routeBudgetExceeded s) (ms_backtracks s)
    (ms_maxSearchDepth s) (ms_totalRouteStateExpansions s) (ms_completedModuloMappings s)
    (ms_postMappingRejected s) (ms_stageRejected s) (ms_rfRejected s) (ms_postMappingAbort s).

Definition finishing_at (ii : Z) (s : ModuloMapperStats) : ModuloMapperStats :=
  mkMapperStats (ms_startingMII s) (ii) (ms_iiAttempts s) (ms_nodeCandidateAttempts s)
    (ms_successfulPlacements s) (ms_rejectedPlacements s) (ms_routeSearchCalls s)
    (ms_routeSuccesses s) (ms_routeNoPaths s) (ms_routeBudgetExceeded s) (ms_backtracks s)
    (ms_maxSearchDepth s) (ms_totalRouteStateExpansions s) (ms_completedModuloMappings s)
    (ms_postMappingRejected s) (ms_stageRejected s) (ms_rfRejected s) (ms_postMappingAbort s).

Definition add_iiAttempt (s : ModuloMapperStats) : ModuloMapperStats :=
  mkMapperStats (ms_startingMII s) (ms_finalII s) (ms_iiAttempts s + 1)
    (ms_nodeCandidateAttempts s) (ms_successfulPlacements s) (ms_rejectedPlacements s)
    (ms_routeSearchCalls s) (ms_routeSuccesses s) (ms_routeNoPaths s) (ms_routeBudgetExceeded s)
    (ms_backtracks s) (ms_maxSearchDepth s) (ms_totalRouteStateExpansions s)
    (ms_completedModuloMappings s) (ms_postMappingRejected s) (ms_stageRejected s)
    (ms_rfRejected s) (ms_postMappingAbort s).

Definition add_candidateAttempt (s : ModuloMapperStats) : ModuloMapperStats :=
  mkMapperStats (ms_startingMII s) (ms_finalII s) (ms_iiAttempts s)
    (ms_nodeCandidateAttempts s + 1) (ms_successfulPlacements s) (ms_rejectedPlacements s)
    (ms_routeSearchCalls s) (ms_routeSuccesses s) (ms_routeNoPaths s) (ms_routeBudgetExceeded s)
    (ms_backtracks s) (ms_maxSearchDepth s) (ms_totalRouteStateExpansions s)
    (ms_completedModuloMappings s) (ms_postMappingRejected s) (ms_stageRejected s)
    (ms_rfRejected s) (ms_postMappingAbort s).

Definition add_successfulPlacement (s : ModuloMapperStats) : ModuloMapperStats :=
  mkMapperStats (ms_startingMII s) (ms_finalII s) (ms_iiAttempts s) (ms_nodeCandidateAttempts s)
    (ms_successfulPlacements s + 1) (ms_rejectedPlacements s) (ms_routeSearchCalls s)
    (ms_routeSuccesses s) (ms_routeNoPaths s) (ms_routeBudgetExceeded s) (ms_backtracks s)
    (ms_maxSearchDepth s) (ms_totalRouteStateExpansions s) (ms_completedModuloMappings s)
    (ms_postMappingRejected s) (ms_stageRejected s) (ms_rfRejected s) (ms_postMappingAbort s).

Definition add_rejectedPlacement (s : ModuloMapperStats) : ModuloMapperStats :=
  mkMapperStats (ms_startingMII s) (ms_finalII s) (ms_iiAttempts s) (ms_nodeCandidateAttempts s)
    (ms_successfulPlacements s) (ms_rejectedPlacements s + 1) (ms_routeSearchCalls s)
    (ms_routeSuccesses s) (ms_routeNoPaths s) (ms_routeBudgetExceeded s) (ms_backtracks s)
    (ms_maxSearchDepth s) (ms_totalRouteStateExpansions s) (ms_completedModuloMappings s)
    (ms_postMappingRejected s) (ms_stageRejected s) (ms_rfRejected s) (ms_postMappingAbort s).

Definition add_routeSearchCall (s : ModuloMapperStats) : ModuloMapperStats :=
  mkMapperStats (ms_startingMII s) (ms_finalII s) (ms_iiAttempts s) (ms_nodeCandidateAttempts s)
    (ms_successfulPlacements s) (ms_rejectedPlacements s) (ms_routeSearchCalls s + 1)
    (ms_routeSuccesses s) (ms_routeNoPaths s) (ms_routeBudgetExceeded s) (ms_backtracks s)
    (ms_maxSearchDepth s) (ms_totalRouteStateExpansions s) (ms_completedModuloMappings s)
    (ms_postMappingRejected s) (ms_stageRejected s) (ms_rfRejected s) (ms_postMappingAbort s).

Definition add_routeSuccess (s : ModuloMapperStats) : ModuloMapperStats :=
  mkMapperStats (ms_startingMII s) (ms_finalII s) (ms_iiAttempts s) (ms_nodeCandidateAttempts s)
    (ms_successfulPlacements s) (ms_rejectedPlacements s) (ms_routeSearchCalls s)
    (ms_routeSuccesses s + 1) (ms_routeNoPaths s) (ms_routeBudgetExceeded s) (ms_backtracks s)
    (ms_maxSearchDepth s) (ms_totalRouteStateExpansions s) (ms_completedModuloMappings s)
    (ms_postMappingRejected s) (ms_stageRejected s) (ms_rfRejected s) (ms_postMappingAbort s).

Definition add_routeNoPath (s : ModuloMapperStats) : ModuloMapperStats :=
  mkMapperStats (ms_startingMII s) (ms_finalII s) (ms_iiAttempts s) (ms_nodeCandidateAttempts s)
    (ms_successfulPlacements s) (ms_rejectedPlacements s) (ms_routeSearchCalls s)
    (ms_routeSuccesses s) (ms_routeNoPaths s + 1) (ms_routeBudgetExceeded s) (ms_backtracks s)
    (ms_maxSearchDepth s) (ms_totalRouteStateExpansions s) (ms_completedModuloMappings s)
    (ms_postMappingRejected s) (ms_stageRejected s) (ms_rfRejected s) (ms_postMappingAbort s).

Definition add_routeBudgetExceeded (s : ModuloMapperStats) : ModuloMapperStats :=
  mkMapperStats (ms_startingMII s) (ms_finalII s) (ms_iiAttempts s) (ms_nodeCandidateAttempts s)
    (ms_successfulPlacements s) (ms_rejectedPlacements s) (ms_routeSearchCalls s)
    (ms_routeSuccesses s) (ms_routeNoPaths s) (ms_routeBudgetExceeded s + 1) (ms_backtracks s)
    (ms_maxSearchDepth s) (ms_totalRouteStateExpansions s) (ms_completedModuloMappings s)
    (ms_postMappingRejected s) (ms_stageRejected s) (ms_rfRejected s) (ms_postMappingAbort s).

Definition add_backtrack (s : ModuloMapperStats) : ModuloMapperStats :=
  mkMapperStats (ms_startingMII s) (ms_finalII s) (ms_iiAttempts s) (ms_nodeCandidateAttempts s)
    (ms_successfulPlacements s) (ms_rejectedPlacements s) (ms_routeSearchCalls s)
    (ms_routeSuccesses s) (ms_routeNoPaths s) (ms_routeBudgetExceeded s) (ms_backtracks s + 1)
    (ms_maxSearchDepth s) (ms_totalRouteStateExpansions s) (ms_completedModuloMappings s)
    (ms_postMappingRejected s) (ms_stageRejected s) (ms_rfRejected s) (ms_postMappingAbort s).

Definition reach_depth (depth : Z) (s : ModuloMapperStats) : ModuloMapperStats :=
  mkMapperStats (ms_startingMII s) (ms_finalII s) (ms_iiAttempts s) (ms_nodeCandidateAttempts s)
    (ms_successfulPlacements s) (ms_rejectedPlacements s) (ms_routeSearchCalls s)
    (ms_routeSuccesses s) (ms_routeNoPaths s) (ms_routeBudgetExceeded s) (ms_backtracks s)
    (Z.max (ms_maxSearchDepth s) depth) (ms_totalRouteStateExpansions s)
    (ms_completedModuloMappings s) (ms_postMappingRejected s) (ms_stageRejected s)
    (ms_rfRejected s) (ms_postMappingAbort s).

Definition add_expansions (n : Z) (s : ModuloMapperStats) : ModuloMapperStats :=
  mkMapperStats (ms_startingMII s) (ms_finalII s) (ms_iiAttempts s) (ms_nodeCandidateAttempts s)
    (ms_successfulPlacements s) (ms_rejectedPlacements s) (ms_routeSearchCalls s)
    (ms_routeSuccesses s) (ms_routeNoPaths s) (ms_routeBudgetExceeded s) (ms_backtracks s)
    (ms_maxSearchDepth s) (wrap64 (ms_totalRouteStateExpansions s + n))
    (ms_completedModuloMappings s) (ms_postMappingRejected s) (ms_stageRejected s)
    (ms_rfRejected s) (ms_postMappingAbort s).

Definition add_completed (s : ModuloMapperStats) : ModuloMapperStats :=
  mkMapperStats (ms_startingMII s) (ms_finalII s) (ms_iiAttempts s) (ms_nodeCandidateAttempts s)
    (ms_successfulPlacements s) (ms_rejectedPlacements s) (ms_routeSearchCalls s)
    (ms_routeSuccesses s) (ms_routeNoPaths s) (ms_routeBudgetExceeded s) (ms_backtracks s)
    (ms_maxSearchDepth s) (ms_totalRouteStateExpansions s) (ms_completedModuloMappings s + 1)
    (ms_postMappingRejected s) (ms_stageRejected s) (ms_rfRejected s) (ms_postMappingAbort s).

Definition add_rejected (stage rf : bool) (s : ModuloMapperStats) : ModuloMapperStats :=
  mkMapperStats (ms_startingMII s) (ms_finalII s) (ms_iiAttempts s) (ms_nodeCandidateAttempts s)
    (ms_successfulPlacements s) (ms_rejectedPlacements s) (ms_routeSearchCalls s)
    (ms_routeSuccesses s) (ms_routeNoPaths s) (ms_routeBudgetExceeded s) (ms_backtracks s)
    (ms_maxSearchDepth s) (ms_totalRouteStateExpansions s) (ms_completedModuloMappings s)
    (ms_postMappingRejected s + 1) (if stage then ms_stageRejected s + 1 else ms_stageRejected s)
    (if rf then ms_rfRejected s + 1 else ms_rfRejected s) (ms_postMappingAbort s).

Definition add_abort (s : ModuloMapperStats) : ModuloMapperStats :=
  mkMapperStats (ms_startingMII s) (ms_finalII s) (ms_iiAttempts s) (ms_nodeCandidateAttempts s)
    (ms_successfulPlacements s) (ms_rejectedPlacements s) (ms_routeSearchCalls s)
    (ms_routeSuccesses s) (ms_routeNoPaths s) (ms_routeBudgetExceeded s) (ms_backtracks s)
    (ms_maxSearchDepth s) (ms_totalRouteStateExpansions s) (ms_completedModuloMappings s)
    (ms_postMappingRejected s) (ms_stageRejected s) (ms_rfRejected s) (ms_postMappingAbort s + 1).

Record ModuloMapperResult := mkMapperResult {
  mpr_status : ModuloMapperStatus;
  mpr_mapping : option ModuloMapping;
  mpr_stats : ModuloMapperStats;
  mpr_diagnostics : list ModuloMapperDiagnostic
}.

Definition mapper_ok (res : ModuloMapperResult) : bool :=
  bool_decide (mpr_status res = MapSuccess) && bool_decide (is_Some (mpr_mapping res)).

(** ** The completion check *)

Inductive CompleteMappingDecision := Accept | Reject | Abort.

#[export] Instance CompleteMappingDecision_eq_dec : EqDecision CompleteMappingDecision.
Proof. solve_decision. Defined.

Record CompleteMappingCheckResult := mkCheckResult {
  cc_decision : CompleteMappingDecision;
  cc_reasonCode : string
}.

(** [std::function]: a pure function here, since every checker the compiler
    installs is one; it may throw. *)
Definition CompleteMappingChecker : Type :=
  TargetDFG -> TargetModel -> ModuloMapping -> result CompleteMappingCheckResult.

Record ModuloMapperOptions := mkMapperOptions {
  mo_maxII : Z;
  mo_minII : Z;
  mo_budget : ModuloMapperBudget;
  mo_routeOptions : RouteSearchOptions;
  mo_completeMappingChecker : option CompleteMappingChecker
}.

(** ** The search state *)

Inductive SearchOutcome :=
  | OutSuccess
  | OutExhausted
  | OutPerIIBudgetExceeded
  | OutBudgetExceeded
  | OutRouteBudgetExceeded
  | OutVerificationFailure
  | OutInternalError
  | OutPostMappingAbort.

#[export] Instance SearchOutcome_eq_dec : EqDecision SearchOutcome.
Proof. solve_decision. Defined.

Record SearchLimits := mkLimits {
  sl_nodeCandidateAttempts : Z;
  sl_backtracks : Z;
  sl_routeSearchCalls : Z
}.

Record Candidate := mkCandidate {
  ca_tile : TileCoord;
  ca_slot : Z;
  ca_stageWraps : Z;
  ca_locality : Z;
  ca_slotAffinity : Z
}.

Record CandidateDelta := mkCandidateDelta {
  cd_node : Z;
  cd_nodeReservation : ReservationDelta;
  cd_edges : list Z;
  cd_edgeReservations : list ReservationDelta
}.

Definition no_candidate_delta : CandidateDelta :=
  mkCandidateDelta 0 (mkDelta (OwnerNode 0) []) [] [].

(** The members that backtracking restores; the maps are ordered by key. *)
Record PartialMapping := mkPartial {
  pm_placements : gmap Z NodePlacement;
  pm_dependences : gmap Z MappedDependence;
  pm_reservations : ReservationTable
}.

(** The other mutable members of [MappingSearchState], and its [result_]. *)
Record MapperState := mkMapperState {
  mst_partial : PartialMapping;
  mst_mapping : option ModuloMapping;
  mst_verificationFailureReported : bool;
  mst_stats : ModuloMapperStats;
  mst_diagnostics : list ModuloMapperDiagnostic
}.

Definition set_partial (st : MapperState) (partial : PartialMapping) : MapperState :=
  mkMapperState partial (mst_mapping st) (mst_verificationFailureReported st) (mst_stats st)
    (mst_diagnostics st).
Definition set_mapping (st : MapperState) (mapping : option ModuloMapping) : MapperState :=
  mkMapperState (mst_partial st) mapping (mst_verificationFailureReported st) (mst_stats st)
    (mst_diagnostics st).
Definition count (f : ModuloMapperStats -> ModuloMapperStats) (st : MapperState) : MapperState :=
  mkMapperState (mst_partial st) (mst_mapping st) (mst_verificationFailureReported st)
    (f (mst_stats st)) (mst_diagnostics st).
Definition add_diagnostic (code : ModuloMapperDiagnosticCode) (ii node edge : option Z)
    (st : MapperState) : MapperState :=
  mkMapperState (mst_partial st) (mst_mapping st) (mst_verificationFailureReported st)
    (mst_stats st) (mst_diagnostics st ++ [mkMapperDiag code ii node edge]).

(** [std::map::emplace] keeps an existing entry. *)
Definition emplace {A} (key : Z) (value : A) (m : gmap Z A) : gmap Z A :=
  match m !! key with Some _ => m | None => <[key := value]> m end.

(** A step of a computation that may throw or run out of fuel. *)
Definition running {A B} (r : result (option A)) (f : A -> result (option B)) : result (option B) :=
  r ≫= fun o => match o with None => Ok None | Some a => f a end.
Notation "' p ⇐ e ; rest" := (running e (fun p => rest))
  (at level 20, p strict pattern, e at level 100, rest at level 200, only parsing) : stdpp_scope.

(** [static_cast<int>] of an unsigned value. *)
Definition as_int (x : Z) : Z := (x + 2147483648) mod 4294967296 - 2147483648.

Section Mapper.
Context (dfg : TargetDFG) (target : TargetModel) (options : ModuloMapperOptions)
  (limits : SearchLimits) (ii : Z) (resources : ModuloResourceModel).

Definition hasPlacement (pm : PartialMapping) (id : Z) : bool :=
  bool_decide (is_Some (pm_placements pm !! id)).

Definition allNodesMapped (pm : PartialMapping) : bool :=
  bool_decide (size (pm_placements pm) = length (td_nodes dfg)).

Definition touches (edge : TargetEdge) (node : Z) : bool :=
  (te_src edge =? node) || (te_dst edge =? node).

Definition other_end (edge : TargetEdge) (node : Z) : Z :=
  if te_src edge =? node then te_dst edge else te_src edge.

(** *** Choosing a node and its candidates *)

Definition locality (pm : PartialMapping) (node : Z) (tile : TileCoord) : Z :=
  foldl (fun score edge =>
    if negb (touches edge node) then score
    else match pm_placements pm !! other_end edge node with
         | None => score
         | Some found =>
             wrap64 (score +
               wrap64 (Z.abs (as_int (tile_row tile) - as_int (tile_row (np_tile found))) +
                       Z.abs (as_int (tile_col tile) - as_int (tile_col (np_tile found)))))
         end) 0 (td_edges dfg).

(** What [selectNode] counts about a node: unmapped inputs, mapped neighbours,
    degree, and loop-carried edges. *)
Definition node_counts (pm : PartialMapping) (node : Z) : Z * Z * Z * Z :=
  foldl (fun '(unmappedInputs, mapped, degree, loop) edge =>
    if negb (touches edge node) then (unmappedInputs, mapped, degree, loop)
    else
      let loop := if negb (te_distance edge =? 0) then loop + 1 else loop in
      let mapped := if hasPlacement pm (other_end edge node) then mapped + 1 else mapped in
      let unmappedInputs :=
        if (te_dst edge =? node) && negb (te_src edge =? node) && (te_distance edge =? 0) &&
           negb (bool_decide (TargetEdge_kind edge = EKMemory)) && negb (hasPlacement pm (te_src edge))
        then unmappedInputs + 1 else unmappedInputs in
      (unmappedInputs, mapped, degree + 1, loop)) (0, 0, 0, 0) (td_edges dfg).

Definition node_rank (counts : Z * Z * Z * Z) (id : Z) : Z * Z * Z * Z * Z :=
  let '(unmappedInputs, mapped, degree, loop) := counts in
  (u64_max - unmappedInputs, mapped, degree, loop, u32_max - id).

Definition selectNode (pm : PartialMapping) : result Z :=
  let selected :=
    foldl (fun selected node =>
      if hasPlacement pm (tn_id node) then selected
      else
        let rank := node_rank (node_counts pm (tn_id node)) (tn_id node) in
        match selected with
        | None => Some (tn_id node, rank)
        | Some (_, best) =>
            if key_ltb best rank then Some (tn_id node, rank) else selected
        end) None (td_nodes dfg) in
  match selected with
  | None => Throw LogicError
  | Some (id, _) => Ok id
  end.

(** The slot an edge would like for [node], in the arithmetic of [uint32]. *)
Definition before_consumer (ready : Z) : Z := wrap32 (ii - ready mod ii) mod ii.

(** The penalties one edge adds: stage wraps and slot affinity. *)
Definition edge_penalty (pm : PartialMapping) (node slot : Z) (edge : TargetEdge)
  : result (Z * Z) :=
  if negb (touches edge node) then Ok (0, 0)
  else if bool_decide (TargetEdge_kind edge = EKMemory) then Ok (0, 0)
  else
    sourceNode ← td_node dfg (te_src edge);
    let ready := wrap32 (default 0 (tn_producerOutputReadyOffset sourceNode) + 1) in
    match pm_placements pm !! other_end edge node with
    | None =>
        if (te_distance edge =? 0) || (te_src edge =? te_dst edge) then Ok (0, 0)
        else
          let preferred := if te_src edge =? node then before_consumer ready else 0 in
          Ok (0, if negb (slot =? preferred) then 1 else 0)
    | Some found =>
        let wraps :=
          if te_distance edge =? 0 then
            let separation := if te_dst edge =? node then slot - np_issueSlot found
                              else np_issueSlot found - slot in
            if separation <? ready then 1 else 0
          else 0 in
        let preferred :=
          if te_dst edge =? node then wrap32 (np_issueSlot found + ready) mod ii
          else wrap32 (wrap32 (np_issueSlot found + ii) - ready mod ii) mod ii in
        Ok (wraps, if negb (slot =? preferred) then 1 else 0)
    end.

Fixpoint slot_penalties (pm : PartialMapping) (node slot : Z) (edges : list TargetEdge)
    (total : Z * Z) : result (Z * Z) :=
  match edges with
  | [] => Ok total
  | edge :: edges =>
      penalty ← edge_penalty pm node slot edge;
      slot_penalties pm node slot edges (total.1 + penalty.1, total.2 + penalty.2)
  end.

Fixpoint candidate_values (pm : PartialMapping) (node : Z) (positions : list (TileCoord * Z))
    (values : list Candidate) : result (list Candidate) :=
  match positions with
  | [] => Ok values
  | (tile, slot) :: positions =>
      total ← slot_penalties pm node slot (td_edges dfg) (0, 0);
      candidate_values pm node positions
        (values ++ [mkCandidate tile slot total.1 (locality pm node tile) total.2])
  end.

Definition candidate_key (c : Candidate) : Z * Z * Z * Z * Z * Z :=
  (ca_stageWraps c, ca_locality c, ca_slotAffinity c, tile_row (ca_tile c), tile_col (ca_tile c),
   ca_slot c).

Definition candidate_le (lhs rhs : Candidate) : Prop :=
  key_ltb (candidate_key rhs) (candidate_key lhs) = false.

#[local] Instance candidate_le_dec : RelDecision candidate_le.
Proof. intros lhs rhs. unfold candidate_le. apply _. Defined.

Definition candidates (pm : PartialMapping) (node : Z) : result (list Candidate) :=
  targetNode ← td_node dfg node;
  let positions :=
    flat_map (fun '(row, col) => (fun slot => (mkTile row col, slot)) <$> range ii)
      (compatibleTiles target (tn_operation targetNode)) in
  values ← candidate_values pm node positions [];
  Ok (merge_sort candidate_le values).

Definition closedEdges (pm : PartialMapping) (node : Z) : list Z :=
  sort_by id (te_id <$> filter (fun edge =>
    touches edge node && hasPlacement pm (te_src edge) && hasPlacement pm (te_dst edge) &&
    negb (bool_decide (is_Some (pm_dependences pm !! te_id edge))) = true) (td_edges dfg)).

(** *** Realising edges *)

(** The loop of [routeResources]. *)
Fixpoint routeResources (domain : NetworkDomain) (actions : list TransportAction)
    (producer : NodePlacement) (found : list Z) : result (list Z) :=
  match actions with
  | [] => Ok found
  | VirtualHold _ _ _ _ :: actions => routeResources domain actions producer found
  | LinkStep _ source direction elapsed :: actions =>
      slot ← advance ii (np_issueSlot producer) elapsed;
      resource ← linkResource resources domain source direction slot;
      match resource with
      | None => Throw LogicError
      | Some id =>
          if bool_decide (id ∈ found) then Throw LogicError
          else routeResources domain actions producer (found ++ [id])
      end
  end.

Definition add_dependence (st : MapperState) (id : Z) (d : MappedDependence)
    (reservations : ReservationTable) : MapperState :=
  set_partial st (mkPartial (pm_placements (mst_partial st))
                    (emplace id d (pm_dependences (mst_partial st))) reservations).

(** The reaction to a finished route search. *)
Definition book_route (edge : TargetEdge) (producer : NodePlacement) (route : RouteSearchResult)
    (delta : CandidateDelta) (st : MapperState)
  : result (SearchOutcome * CandidateDelta * MapperState) :=
  let report code st := add_diagnostic code (Some ii) None (Some (te_id edge)) st in
  let st := count (add_expansions (rst_stateExpansions (rr_stats route))) st in
  match rr_status route with
  | RouteNoPath =>
      Ok (OutExhausted, delta, report MAP_ROUTE_NO_PATH (count add_routeNoPath st))
  | RouteBudgetExceeded =>
      Ok (OutRouteBudgetExceeded, delta,
          report MAP_ROUTE_BUDGET_EXCEEDED (count add_routeBudgetExceeded st))
  | _ =>
      match rr_status route, rr_plan route with
      | RouteSuccess, Some plan =>
          let st := count add_routeSuccess st in
          routeIds ← routeResources (tp_domain plan) (tp_actions plan) producer [];
          match tryReserve (pm_reservations (mst_partial st)) routeIds (OwnerEdge (te_id edge)) with
          | (None, _) => Ok (OutInternalError, delta, report MAP_INTERNAL_ERROR st)
          | (Some reservation, table) =>
              Ok (OutSuccess,
                  mkCandidateDelta (cd_node delta) (cd_nodeReservation delta)
                    (cd_edges delta ++ [te_id edge]) (cd_edgeReservations delta ++ [reservation]),
                  add_dependence st (te_id edge)
                    (mkDependence (te_id edge) (TargetEdge_kind edge)
                       (tp_requiredSeparationCycles plan) (Some plan)) table)
          end
      | RouteTargetContractError, _ =>
          Ok (OutInternalError, delta, report MAP_TARGET_CONTRACT_ERROR st)
      | _, _ => Ok (OutInternalError, delta, report MAP_INTERNAL_ERROR st)
      end
  end.

Definition realizeEdge (edgeId : Z) (delta : CandidateDelta) (st : MapperState)
  : result (option (SearchOutcome * CandidateDelta * MapperState)) :=
  edge ← td_edge dfg edgeId;
  producer ← of_option OutOfRange (pm_placements (mst_partial st) !! te_src edge);
  consumer ← of_option OutOfRange (pm_placements (mst_partial st) !! te_dst edge);
  match te_info edge with
  | MemoryEdgeInfo kind =>
      Ok (Some (OutSuccess,
        mkCandidateDelta (cd_node delta) (cd_nodeReservation delta)
          (cd_edges delta ++ [te_id edge]) (cd_edgeReservations delta),
        add_dependence st (te_id edge)
          (mkDependence (te_id edge) EKMemory (memoryDependenceSeparation target kind) None)
          (pm_reservations (mst_partial st))))
  | _ =>
      if sl_routeSearchCalls limits <=? ms_routeSearchCalls (mst_stats st)
      then Ok (Some (OutPerIIBudgetExceeded, delta,
             add_diagnostic MAP_II_BUDGET_SHARE_EXHAUSTED (Some ii) None (Some (te_id edge)) st))
      else
        let st := count add_routeSearchCall st in
        let routeOptions :=
          mkRouteOptions (mbu_perRouteBudget (mo_budget options))
            (ro_allowVirtualHold (mo_routeOptions options)) in
        'route ⇐ route_search dfg target resources (pm_reservations (mst_partial st))
          (mkRouteRequest (te_id edge) producer consumer) routeOptions;
        outcome ← book_route edge producer route delta st;
        Ok (Some outcome)
  end.

Fixpoint realizeEdges (edges : list Z) (delta : CandidateDelta) (st : MapperState)
  : result (option (SearchOutcome * CandidateDelta * MapperState)) :=
  match edges with
  | [] => Ok (Some (OutSuccess, delta, st))
  | edge :: edges =>
      '(outcome, delta, st) ⇐ realizeEdge edge delta st;
      if bool_decide (outcome = OutSuccess) then realizeEdges edges delta st
      else Ok (Some (outcome, delta, st))
  end.

(** *** Trying a candidate *)

Definition tryCandidate (node : Z) (candidate : Candidate) (st : MapperState)
  : result (option (SearchOutcome * CandidateDelta * MapperState)) :=
  targetNode ← td_node dfg node;
  match operationFootprint resources targetNode (ca_tile candidate) (ca_slot candidate) with
  | Throw _ =>
      Ok (Some (OutExhausted, no_candidate_delta, count add_rejectedPlacement st))
  | Ok footprint =>
      let pm := mst_partial st in
      match tryReserve (pm_reservations pm) footprint (OwnerNode node) with
      | (None, _) =>
          Ok (Some (OutExhausted, no_candidate_delta,
            add_diagnostic MAP_NODE_RESOURCE_CONFLICT (Some ii) (Some node) None
              (count add_rejectedPlacement st)))
      | (Some nodeReservation, table) =>
          let delta := mkCandidateDelta node nodeReservation [] [] in
          let pm := mkPartial (emplace node (mkPlacement node (ca_tile candidate) (ca_slot candidate))
                                 (pm_placements pm)) (pm_dependences pm) table in
          let st := count add_successfulPlacement (set_partial st pm) in
          realizeEdges (closedEdges pm node) delta st
      end
  end.

Fixpoint undo_all (reservations : ReservationTable) (deltas : list ReservationDelta)
  : result ReservationTable :=
  match deltas with
  | [] => Ok reservations
  | delta :: deltas => reservations ← undo reservations delta; undo_all reservations deltas
  end.

Definition rollback (delta : CandidateDelta) (pm : PartialMapping) : result PartialMapping :=
  let dependences := foldl (fun m edge => delete edge m) (pm_dependences pm) (cd_edges delta) in
  table ← undo_all (pm_reservations pm) (reverse (cd_edgeReservations delta));
  table ← (match delta_resources (cd_nodeReservation delta) with
           | [] => Ok table
           | _ => undo table (cd_nodeReservation delta)
           end);
  Ok (mkPartial (delete (cd_node delta) (pm_placements pm)) dependences table).

Definition rolled_back (delta : CandidateDelta) (st : MapperState) : result MapperState :=
  pm ← rollback delta (mst_partial st);
  Ok (set_partial st pm).

(** *** Completion *)

Definition materialize_calls (pm : PartialMapping) : list MappingCall :=
  ((fun kv => Place kv.1 (np_tile kv.2) (np_issueSlot kv.2)) <$> map_items (pm_placements pm)) ++
  ((fun kv => match md_transport kv.2 with
              | Some plan => SetTransport kv.1 plan
              | None => SetMemorySeparation kv.1 (md_requiredSeparationCycles kv.2)
              end) <$> map_items (pm_dependences pm)).

(** The mapping, or the state with the failure reported. *)
Definition mapper_materialize (st : MapperState) : option ModuloMapping * MapperState :=
  match build_mapping dfg ii (materialize_calls (mst_partial st)) with
  | Ok m => (Some m, st)
  | Throw _ => (None, add_diagnostic MAP_INTERNAL_ERROR (Some ii) None None st)
  end.

Definition starts_with (p s : string) : bool := String.prefix p s.

(** The checker's decision on a verified mapping. *)
Definition check_complete (m : ModuloMapping) (st : MapperState)
  : result (SearchOutcome * MapperState) :=
  match mo_completeMappingChecker options with
  | None => Ok (OutSuccess, st)
  | Some checker =>
      check ← checker dfg target m;
      let reason := cc_reasonCode check in
      match cc_decision check with
      | Accept => Ok (OutSuccess, st)
      | Reject =>
          let st := count (add_rejected (starts_with "stage" reason) (starts_with "rf" reason)) st in
          let st := add_diagnostic MAP_POST_MAPPING_REJECTED (Some ii) None None st in
          Ok (OutExhausted, set_mapping st None)
      | Abort =>
          let st := add_diagnostic MAP_INTERNAL_ERROR (Some ii) None None (count add_abort st) in
          Ok (if starts_with "budget" reason then OutBudgetExceeded
              else if starts_with "verification" reason then OutVerificationFailure
              else OutInternalError, set_mapping st None)
      end
  end.

Definition complete (st : MapperState) : result (SearchOutcome * MapperState) :=
  let '(mapping, st) := mapper_materialize st in
  let st := set_mapping st mapping in
  match mapping with
  | None => Ok (OutInternalError, st)
  | Some m =>
      report ← mmv_verify dfg target m;
      if bool_decide (report <> []) then
        Ok (OutVerificationFailure,
            if mst_verificationFailureReported st then st
            else
              let st := add_diagnostic MAP_FINAL_VERIFICATION_FAILED (Some ii) None None st in
              mkMapperState (mst_partial st) (mst_mapping st) true (mst_stats st)
                (mst_diagnostics st))
      else check_complete m (count add_completed st)
  end.

(** *** The search *)

(** The loop over the candidates of [node]; [recurse] is [search(depth + 1)]. *)
Fixpoint try_candidates (recurse : MapperState -> result (option (SearchOutcome * MapperState)))
    (node : Z) (values : list Candidate) (st : MapperState)
  : result (option (SearchOutcome * MapperState)) :=
  match values with
  | [] => Ok (Some (OutExhausted, st))
  | candidate :: values =>
      if sl_nodeCandidateAttempts limits <=? ms_nodeCandidateAttempts (mst_stats st)
      then Ok (Some (OutPerIIBudgetExceeded,
             add_diagnostic MAP_II_BUDGET_SHARE_EXHAUSTED (Some ii) (Some node) None st))
      else
        let st := count add_candidateAttempt st in
        '(outcome, delta, st) ⇐ tryCandidate node candidate st;
        match outcome with
        | OutExhausted =>
            match delta_resources (cd_nodeReservation delta) with
            | [] => try_candidates recurse node values st
            | _ => st ← rolled_back delta st; try_candidates recurse node values st
            end
        | OutSuccess =>
            '(child, st) ⇐ recurse st;
            if bool_decide (child = OutSuccess) then Ok (Some (child, st))
            else
              st ← rolled_back delta st;
              if negb (bool_decide (child = OutExhausted)) then Ok (Some (child, st))
              else if sl_backtracks limits <=? ms_backtracks (mst_stats st)
              then Ok (Some (OutPerIIBudgetExceeded,
                     add_diagnostic MAP_II_BUDGET_SHARE_EXHAUSTED (Some ii) (Some node) None st))
              else try_candidates recurse node values (count add_backtrack st)
        | _ => st ← rolled_back delta st; Ok (Some (outcome, st))
        end
  end.

Fixpoint mapper_search (fuel : nat) (depth : Z) (st : MapperState)
  : result (option (SearchOutcome * MapperState)) :=
  match fuel with
  | O => Ok None
  | S fuel =>
      let st := count (reach_depth depth) st in
      if allNodesMapped (mst_partial st)
      then outcome ← complete st; Ok (Some outcome)
      else
        node ← selectNode (mst_partial st);
        nodeCandidates ← candidates (mst_partial st) node;
        match nodeCandidates with
        | [] => Ok (Some (OutExhausted,
                  add_diagnostic MAP_NO_COMPATIBLE_CANDIDATE (Some ii) (Some node) None st))
        | _ => try_candidates (mapper_search fuel (depth + 1)) node nodeCandidates st
        end
  end.
End Mapper.

(** ** The loop over the interval *)

Definition fairShareLimit (maximum used attemptsRemaining : Z) : Z :=
  if maximum <=? used then used
  else
    let remaining := maximum - used in
    let share := if attemptsRemaining =? 1 then remaining else remaining / 2 + remaining mod 2 in
    used + share.

(** One attempt; a search places a node per level, so one more level than there
    are nodes is enough. *)
Definition attempt_ii (dfg : TargetDFG) (target : TargetModel) (options : ModuloMapperOptions)
    (limits : SearchLimits) (ii : Z) (stats : ModuloMapperStats)
    (diagnostics : list ModuloMapperDiagnostic)
  : result (option (SearchOutcome * MapperState)) :=
  resources ← makeResourceModel target ii;
  mapper_search dfg target options limits ii resources (length (td_nodes dfg) + 1) 0
    (mkMapperState (mkPartial ∅ ∅ (makeReservationTable resources)) None false stats diagnostics).

Fixpoint map_loop (dfg : TargetDFG) (target : TargetModel) (options : ModuloMapperOptions)
    (maxII : Z) (iis : list Z) (perIIBudgetExceeded : bool) (stats : ModuloMapperStats)
    (diagnostics : list ModuloMapperDiagnostic) : result (option ModuloMapperResult) :=
  match iis with
  | [] =>
      if perIIBudgetExceeded
      then Ok (Some (mkMapperResult MapBudgetExceeded None stats diagnostics))
      else Ok (Some (mkMapperResult MapNoMappingWithinIILimit None stats
             (diagnostics ++ [mkMapperDiag MAP_NO_MAPPING_WITHIN_II_LIMIT None None None])))
  | ii :: iis =>
      let stats := add_iiAttempt stats in
      let attemptsRemaining := maxII - ii + 1 in
      let budget := mo_budget options in
      let limits :=
        mkLimits
          (fairShareLimit (mbu_maxNodeCandidateAttempts budget) (ms_nodeCandidateAttempts stats)
             attemptsRemaining)
          (fairShareLimit (mbu_maxBacktracks budget) (ms_backtracks stats) attemptsRemaining)
          (fairShareLimit (mbu_maxRouteSearchCalls budget) (ms_routeSearchCalls stats)
             attemptsRemaining) in
      '(outcome, st) ⇐ attempt_ii dfg target options limits (wrap32 ii) stats diagnostics;
      let stats := finishing_at (wrap32 ii) (mst_stats st) in
      let diagnostics := mst_diagnostics st in
      let fail status := Ok (Some (mkMapperResult status None stats diagnostics)) in
      match outcome with
      | OutSuccess =>
          Ok (Some (mkMapperResult MapSuccess (mst_mapping st) stats diagnostics))
      | OutPerIIBudgetExceeded => map_loop dfg target options maxII iis true stats diagnostics
      | OutBudgetExceeded => fail MapBudgetExceeded
      | OutRouteBudgetExceeded => fail MapRouteBudgetExceeded
      | OutVerificationFailure => fail MapVerificationFailure
      | OutInternalError => fail MapInternalError
      | OutExhausted | OutPostMappingAbort =>
          map_loop dfg target options maxII iis perIIBudgetExceeded stats diagnostics
      end
  end.

(** [ModuloMapper::map]. *)
Definition map (dfg : TargetDFG) (target : TargetModel) (options : ModuloMapperOptions)
  : result (option ModuloMapperResult) :=
  mii ← analyze dfg target;
  let fail status code stats :=
    Ok (Some (mkMapperResult status None stats [mkMapperDiag code None None None])) in
  match mr_status mii with
  | MIISuccess =>
      if (mr_mii mii =? 0) || (mr_mii mii =? u32_max)
      then fail MapMIIAnalysisFailure MAP_MII_ANALYSIS_FAILED no_mapper_stats
      else
        let stats := starting_at (mr_mii mii) no_mapper_stats in
        let startII :=
          Z.max (mr_mii mii) (if mo_minII options =? 0 then mr_mii mii else mo_minII options) in
        let maxII := if mo_maxII options =? 0 then startII else mo_maxII options in
        if maxII <? startII
        then Ok (Some (mkMapperResult MapNoMappingWithinIILimit None stats
               [mkMapperDiag MAP_NO_MAPPING_WITHIN_II_LIMIT (Some (mr_mii mii)) None None]))
        else map_loop dfg target options maxII (seqZ startII (maxII - startII + 1)) false stats []
  | MIIInvalidTargetDFG => fail MapInvalidTargetDFG MAP_INVALID_TARGET_DFG no_mapper_stats
  | MIITargetContractError => fail MapTargetContractError MAP_TARGET_CONTRACT_ERROR no_mapper_stats
  | _ => fail MapMIIAnalysisFailure MAP_MII_ANALYSIS_FAILED no_mapper_stats
  end.
