(* ===== verification/ModuloMapperCorrect.v ===== *)
(** * The modulo mapper is correct

    Why [ModuloMapper.map] only ever returns verified mappings and never fails
    internally: the partial mapping is consistent at every point of the search,
    a rejected candidate is rolled back to exactly the state before it, and a
    complete consistent mapping passes the mapping verifier. *)
From stdpp Require Import base numbers list gmap sorting strings.
From S2P Require Import Prelude.
From S2P Require Import IR.
From S2P Require Import TargetModel.
From S2P Require Import CgraV2.
From S2P Require Import TargetDFG.
From S2P Require Import TargetDFGVerifier.
From S2P Require Import ModuloResources.
From S2P Require Import ModuloMapping.
From S2P Require Import MappingVerifier.
From S2P Require Import RouteSearch.
From S2P Require Import RouteSearchExact.
From S2P Require Import MIIAnalyzer.
From S2P Require Import OrderedMap.
From S2P Require Import ModuloMapper.

(** ** Lists that change at one place *)

Lemma flat_map_update {A B} (f g : A -> list B) (l : list A) a :
  NoDup l -> a ∈ l -> f a = [] -> (forall x, x ∈ l -> x <> a -> g x = f x) ->
  flat_map g l ≡ₚ flat_map f l ++ g a.
Proof.
  intros Hnd Ha Hfa Hsame. apply list_elem_of_split in Ha as (l1 & l2 & ->).
  apply NoDup_app in Hnd as (_ & Hdis & Hnd). apply NoDup_cons in Hnd as [Ha2 _].
  assert (H : forall k, (forall x, x ∈ k -> x ∈ l1 ++ a :: l2 /\ x <> a) -> flat_map g k = flat_map f k).
  { induction k as [|y k IH]; intros Hk; [done|]. simpl.
    rewrite IH by (intros; apply Hk; by right). f_equal. apply Hsame; apply Hk; left. }
  rewrite !flat_map_app. simpl. rewrite Hfa. simpl.
  rewrite (H l1), (H l2).
  - rewrite <- app_assoc. apply Permutation_app_head, Permutation_app_comm.
  - intros x Hx. split; [set_solver|]. by intros ->.
  - intros x Hx. split; [set_solver|]. intros ->. apply (Hdis a); [done|left].
Qed.

Lemma flat_map_same {A B} (f g : A -> list B) (l : list A) :
  (forall x, x ∈ l -> g x = f x) -> flat_map g l = flat_map f l.
Proof.
  induction l as [|y l IH]; intros H; [done|]. simpl. rewrite IH by (intros; apply H; by right).
  f_equal. apply H. left.
Qed.

(** ** Deleting what was added *)

Lemma emplace_new {A} key (v : A) m : m !! key = None -> emplace key v m = <[key := v]> m.
Proof. unfold emplace. by intros ->. Qed.

Lemma lookup_foldl_delete {A} (m : gmap Z A) keys i :
  foldl (fun m key => delete key m) m keys !! i = if decide (i ∈ keys) then None else m !! i.
Proof.
  revert m. induction keys as [|k keys IH]; intros m; cbn [foldl].
  - by rewrite decide_False by apply not_elem_of_nil.
  - rewrite IH, lookup_delete. repeat case_decide; try done; set_solver.
Qed.

Lemma foldl_delete_snoc {A} (m : gmap Z A) keys key v :
  m !! key = None ->
  foldl (fun m key => delete key m) (emplace key v m) (keys ++ [key]) =
    foldl (fun m key => delete key m) m keys.
Proof.
  intros Hnone. rewrite emplace_new by done. apply map_eq. intros i.
  rewrite !lookup_foldl_delete. destruct (decide (i ∈ keys)) as [Hi|Hi].
  - by rewrite decide_True by set_solver.
  - destruct (decide (i = key)) as [->|Hne].
    + by rewrite decide_True by set_solver.
    + rewrite decide_False by set_solver. by rewrite lookup_insert_ne.
Qed.

Lemma rollback_dependence delta pm id d reservation table :
  pm_dependences pm !! id = None -> undo table reservation = Ok (pm_reservations pm) ->
  rollback (mkCandidateDelta (cd_node delta) (cd_nodeReservation delta) (cd_edges delta ++ [id])
              (cd_edgeReservations delta ++ [reservation]))
    (mkPartial (pm_placements pm) (emplace id d (pm_dependences pm)) table) = rollback delta pm.
Proof.
  intros Hnone Hundo. unfold rollback.
  cbn [cd_node cd_nodeReservation cd_edges cd_edgeReservations pm_placements pm_dependences pm_reservations].
  rewrite foldl_delete_snoc by done. rewrite reverse_app, reverse_singleton.
  cbn [app undo_all]. by rewrite Hundo.
Qed.

Lemma rollback_ordering delta pm id d :
  pm_dependences pm !! id = None ->
  rollback (mkCandidateDelta (cd_node delta) (cd_nodeReservation delta) (cd_edges delta ++ [id])
              (cd_edgeReservations delta))
    (mkPartial (pm_placements pm) (emplace id d (pm_dependences pm)) (pm_reservations pm))
  = rollback delta pm.
Proof.
  intros Hnone. unfold rollback.
  cbn [cd_node cd_nodeReservation cd_edges cd_edgeReservations pm_placements pm_dependences pm_reservations].
  by rewrite foldl_delete_snoc by done.
Qed.

Section Books.
Context (resources : ModuloResourceModel) (Hres : ResourceModel_wf resources).

(** The table owns exactly the given uses. *)
Definition books (t : ReservationTable) (used : list ModuloResource) : Prop :=
  length t = length (rm_resources resources) /\ NoDup used /\
  forall id, 0 <= id ->
    slot_of t id <> None <-> exists r, r ∈ used /\ findResource resources r = Ok id.

Lemma books_perm t used used' : used ≡ₚ used' -> books t used -> books t used'.
Proof.
  intros Hp (Hlen & Hnd & Hiff). split; [done|]. split; [by rewrite <- Hp|].
  intros id Hid. rewrite Hiff by done. by setoid_rewrite Hp.
Qed.

Lemma books_reserve t used new ids who delta t' :
  books t used -> Forall2 (fun r id => findResource resources r = Ok id) new ids ->
  tryReserve t ids who = (Some delta, t') ->
  delta = mkDelta who ids /\ books t' (used ++ new) /\ undo t' delta = Ok t.
Proof using Hres.
  intros (Hlen & Hnd & Hiff) Hall Htry.
  assert (Hpos : forall id, id ∈ ids -> 0 <= id).
  { intros id Hin. apply list_elem_of_lookup in Hin as [i Hi].
    destruct (Forall2_lookup_r _ _ _ _ _ Hall Hi) as (r & _ & Hf).
    by apply (findResource_Ok _ Hres) in Hf as [? _]. }
  apply tryReserve_Some in Htry as (-> & Hndi & Hlen' & Hfree & Hslot & Hundo); [|done].
  split; [done|]. split; [|done]. split; [by rewrite Hlen'|]. split.
  - apply NoDup_app. split; [done|]. split.
    + intros r Hr Hrn. apply list_elem_of_lookup in Hrn as [i Hi].
      destruct (Forall2_lookup_l _ _ _ _ _ Hall Hi) as (id & Hid & Hf).
      apply list_elem_of_lookup_2 in Hid. destruct (Hfree id Hid) as [_ Hnone].
      apply (proj2 (Hiff id (Hpos id Hid))); [by exists r|done].
    + apply NoDup_alt. intros i j r Hi Hj.
      destruct (Forall2_lookup_l _ _ _ _ _ Hall Hi) as (id & Hid & Hf).
      destruct (Forall2_lookup_l _ _ _ _ _ Hall Hj) as (id' & Hid' & Hf').
      assert (id = id') as <- by congruence. by eapply NoDup_lookup.
  - intros id Hid. rewrite Hslot by done. case_decide as Hin.
    + split; [|done]. intros _. apply list_elem_of_lookup in Hin as [i Hi].
      destruct (Forall2_lookup_r _ _ _ _ _ Hall Hi) as (r & Hr & Hf). exists r.
      split; [|done]. apply elem_of_app. right. by eapply list_elem_of_lookup_2.
    + rewrite Hiff by done. split.
      * intros (r & Hr & Hf). exists r. split; [set_solver|done].
      * intros (r & Hr & Hf). exists r. split; [|done].
        apply elem_of_app in Hr as [Hr|Hr]; [done|]. exfalso. apply Hin.
        apply list_elem_of_lookup in Hr as [i Hi].
        destruct (Forall2_lookup_l _ _ _ _ _ Hall Hi) as (id' & Hid' & Hf').
        assert (id = id') as <- by congruence. by eapply list_elem_of_lookup_2.
Qed.

Lemma books_only_uses t used : books t used -> only_uses resources t used.
Proof using Type. intros (Hlen & _ & Hiff). split; [done|]. intros id Hid. by apply Hiff. Qed.

(** Free resources can be reserved. *)
Lemma books_available t used new ids who :
  books t used -> Forall2 (fun r id => findResource resources r = Ok id) new ids ->
  NoDup new -> Forall (available resources t) new ->
  exists delta t', tryReserve t ids who = (Some delta, t').
Proof using Hres.
  intros Hb Hall Hnd Hav. unfold tryReserve, reserve.
  assert (canReserve t ids = true) as ->.
  { apply canReserve_true. split.
    - apply NoDup_alt. intros i j id Hi Hj.
      destruct (Forall2_lookup_r _ _ _ _ _ Hall Hi) as (r & Hr & Hf).
      destruct (Forall2_lookup_r _ _ _ _ _ Hall Hj) as (r' & Hr' & Hf').
      assert (r = r') as <- by (by eapply findResource_inj). by eapply NoDup_lookup.
    - intros id Hin. apply list_elem_of_lookup in Hin as [i Hi].
      destruct (Forall2_lookup_r _ _ _ _ _ Hall Hi) as (r & Hr & Hf).
      destruct (Forall_lookup_1 _ _ _ _ Hav Hr) as (id' & Hf' & Hnone).
      assert (id = id') as <- by congruence. split; [|done].
      apply (findResource_Ok _ Hres) in Hf as [H0 Hl]. apply lookup_lt_Some in Hl.
      destruct Hb as [Hlen _]. lia. }
  simpl. by do 2 eexists.
Qed.

Lemma books_empty : books (makeReservationTable resources) [].
Proof using Type.
  split; [by unfold makeReservationTable; rewrite length_replicate|]. split; [apply NoDup_nil_2|].
  intros id _. split.
  - intros H. exfalso. apply H. unfold slot_of, makeReservationTable.
    destruct (replicate _ _ !! nat_of id) as [o|] eqn:E; [|done].
    by apply lookup_replicate in E as [-> _].
  - intros (r & Hr & _). by apply not_elem_of_nil in Hr.
Qed.
End Books.

Lemma filter_key_unique {A} (key : A -> Z) (l : list A) x k :
  NoDup (key <$> l) -> x ∈ l -> key x = k -> filter (fun y => key y = k) l = [x].
Proof.
  intros Hnd Hx <-. induction l as [|y l IH]; [by apply not_elem_of_nil in Hx|].
  rewrite fmap_cons in Hnd. apply NoDup_cons in Hnd as [Hy Hnd].
  apply elem_of_cons in Hx as [->|Hx].
  - rewrite filter_cons_True by done. f_equal. apply list_nil_filter_iff.
    intros z Hz E. apply Hy. rewrite <- E. by apply list_elem_of_fmap_2.
  - rewrite filter_cons_False; [by apply IH|]. intros E. apply Hy. rewrite E.
    by apply list_elem_of_fmap_2.
Qed.

(** ** Handing the maps to the builder *)

Lemma mapping_run_app b calls calls' :
  mapping_run b (calls ++ calls') = (b' ← mapping_run b calls; mapping_run b' calls').
Proof.
  revert b. induction calls as [|call calls IH]; intros b; [done|]. cbn [app mapping_run].
  destruct (mapping_step b call); [apply IH|done].
Qed.

Definition extended (b : ModuloMappingBuilder) (ps : list NodePlacement)
    (ds : list MappedDependence) : ModuloMappingBuilder :=
  mkMappingBuilder (mb_targetName b) (mb_ii b) (mb_expectedNodes b) (mb_expectedEdges b)
    (mb_placements b ++ ps) (mb_dependences b ++ ds) (mb_hasExpectedGraph b).

Lemma extended_nil b : extended b [] [] = b.
Proof. unfold extended. rewrite !app_nil_r. by destruct b. Qed.

Lemma existsb_key {A} (key : A -> Z) l k :
  k ∉ key <$> l -> existsb (fun x => key x =? k) l = false.
Proof.
  intros Hk. apply not_true_iff_false. intros H. apply existsb_exists in H as (x & Hx & E).
  apply Hk. apply Z.eqb_eq in E as <-. apply list_elem_of_fmap_2. by apply list_elem_of_In.
Qed.

Lemma run_places (items : list (Z * NodePlacement)) : forall b,
  mb_hasExpectedGraph b = true -> NoDup (np_node <$> mb_placements b ++ items.*2) ->
  (forall kv, kv ∈ items -> np_node kv.2 = kv.1 /\ kv.1 ∈ mb_expectedNodes b /\
     np_issueSlot kv.2 < mb_ii b) ->
  mapping_run b ((fun kv => Place kv.1 (np_tile kv.2) (np_issueSlot kv.2)) <$> items) =
    Ok (extended b items.*2 []).
Proof.
  induction items as [|[k p] items IH]; intros b Hexp Hnd Hall; [by rewrite extended_nil|].
  rewrite fmap_cons. cbn [mapping_run mapping_step].
  destruct (Hall (k, p) ltac:(left)) as (Ek & Hin & Hslot). cbn [fst snd] in *. subst k.
  unfold place, validate. replace (mb_ii b <=? np_issueSlot p) with false by lia.
  cbn [mbind result_bind]. rewrite Hexp, bool_decide_eq_true_2 by done. cbn [negb andb].
  rewrite fmap_cons in Hnd. cbn [snd] in Hnd. rewrite (cons_middle p), app_assoc in Hnd.
  rewrite (existsb_key np_node).
  2:{ rewrite !fmap_app in Hnd. apply NoDup_app in Hnd as [Hnd _].
      apply NoDup_app in Hnd as (_ & Hdis & _). intros Hp. apply (Hdis _ Hp). left. }
  replace (mkPlacement (np_node p) (np_tile p) (np_issueSlot p)) with p by (by destruct p).
  cbn [mbind result_bind]. rewrite IH; [|done|done|].
  - unfold extended, with_placement. cbn [mb_placements mb_dependences mb_targetName mb_ii
      mb_expectedNodes mb_expectedEdges mb_hasExpectedGraph]. by rewrite <- app_assoc.
  - intros kv Hkv. apply Hall. by right.
Qed.

Lemma expected_edge_known b edge :
  NoDup (te_id <$> mb_expectedEdges b) -> edge ∈ mb_expectedEdges b ->
  expected_edge b (te_id edge) = Some edge.
Proof. intros Hnd He. by apply (find_if_unique te_id). Qed.

(** A dependence the builder accepts for [edge]. *)
Definition acceptable (edge : TargetEdge) (d : MappedDependence) : Prop :=
  md_edge d = te_id edge /\ md_kind d = TargetEdge_kind edge /\
  match md_transport d with
  | None => TargetEdge_kind edge = EKMemory
  | Some plan => TargetEdge_kind edge <> EKMemory /\ tp_edge plan = te_id edge /\
      tp_domain plan = expectedDomain (TargetEdge_kind edge) /\
      md_requiredSeparationCycles d = tp_requiredSeparationCycles plan /\
      forallb (action_accepted (tp_domain plan)) (tp_actions plan) = true
  end.

Lemma run_dependences (items : list (Z * MappedDependence)) : forall b,
  mb_hasExpectedGraph b = true -> NoDup (te_id <$> mb_expectedEdges b) ->
  NoDup (md_edge <$> mb_dependences b ++ items.*2) ->
  (forall kv, kv ∈ items -> exists edge, edge ∈ mb_expectedEdges b /\ te_id edge = kv.1 /\
     acceptable edge kv.2) ->
  mapping_run b ((fun kv => match md_transport kv.2 with
                            | Some plan => SetTransport kv.1 plan
                            | None => SetMemorySeparation kv.1 (md_requiredSeparationCycles kv.2)
                            end) <$> items) = Ok (extended b [] items.*2).
Proof.
  induction items as [|[k d] items IH]; intros b Hexp Hedges Hnd Hall; [by rewrite extended_nil|].
  rewrite fmap_cons. cbn [mapping_run].
  destruct (Hall (k, d) ltac:(left)) as (edge & He & Ek & Hacc). cbn [fst snd] in *. subst k.
  destruct Hacc as (Eid & Ekind & Hacc).
  rewrite fmap_cons in Hnd. cbn [snd] in Hnd. rewrite (cons_middle d), app_assoc in Hnd.
  assert (Hfresh : has_dependence b (te_id edge) = false).
  { apply (existsb_key md_edge). rewrite !fmap_app in Hnd. apply NoDup_app in Hnd as [Hnd _].
    apply NoDup_app in Hnd as (_ & Hdis & _). intros Hp. apply (Hdis _ Hp). rewrite <- Eid. left. }
  assert (Hstep : mapping_step b (match md_transport d with
      | Some plan => SetTransport (te_id edge) plan
      | None => SetMemorySeparation (te_id edge) (md_requiredSeparationCycles d) end) =
    Ok (with_dependence b d)).
  { destruct d as [de dk ds [plan|]]; cbn [md_edge md_kind md_requiredSeparationCycles md_transport] in *;
      subst de dk; cbn [mapping_step].
    - destruct Hacc as (Hk & Etp & Edom & -> & Hact). unfold setTransport.
      rewrite Hexp, expected_edge_known by done. rewrite Etp, Z.eqb_refl, Hfresh, Hact.
      by destruct (TargetEdge_kind edge); try done; rewrite bool_decide_eq_true_2 by done.
    - unfold setMemorySeparation. rewrite Hexp, expected_edge_known by done.
      rewrite bool_decide_eq_true_2 by done. cbn [mbind result_bind]. by rewrite Hfresh, Hacc. }
  rewrite Hstep. cbn [mbind result_bind]. rewrite IH; [|done|done|done|].
  - unfold extended, with_dependence. cbn [mb_placements mb_dependences mb_targetName mb_ii
      mb_expectedNodes mb_expectedEdges mb_hasExpectedGraph]. by rewrite <- app_assoc.
  - intros kv Hkv. apply Hall. by right.
Qed.

(** The keys of a map of [n] entries among [n] distinct identifiers are all of
    them. *)
Lemma map_keys_complete {A} (m : gmap Z A) ids :
  NoDup ids -> size m = length ids -> (forall k, is_Some (m !! k) -> k ∈ ids) ->
  forall k, k ∈ ids -> is_Some (m !! k).
Proof.
  intros Hnd Hsize Hsub k Hk.
  assert (Hp : (map_items m).*1 ≡ₚ ids).
  { apply Permutation_of_subset; [apply NoDup_map_items| |].
    - intros x Hx. apply list_elem_of_fmap in Hx as ([k' v] & -> & Hin).
      apply elem_of_map_items in Hin. apply Hsub. by exists v.
    - rewrite length_fmap. unfold map_items. by rewrite sort_by_length, length_map_to_list. }
  rewrite <- Hp in Hk. apply list_elem_of_fmap in Hk as ([k' v] & -> & Hin).
  apply elem_of_map_items in Hin. by exists v.
Qed.

Lemma map_items_length {A} (m : gmap Z A) ids :
  NoDup ids -> (forall k, is_Some (m !! k) <-> k ∈ ids) -> length (map_items m) = length ids.
Proof.
  intros Hnd Hiff. rewrite <- (length_fmap fst). apply Permutation_length.
  apply NoDup_Permutation; [apply NoDup_map_items|done|]. intros x. rewrite <- Hiff, list_elem_of_fmap.
  split.
  - intros ([k v] & -> & Hin). apply elem_of_map_items in Hin. by exists v.
  - intros [v Hv]. exists (x, v). split; [done|]. by apply elem_of_map_items.
Qed.

Lemma route_accepted target hop domain tile elapsed actions tile' elapsed' :
  route target hop domain tile elapsed actions tile' elapsed' ->
  forallb (action_accepted domain) actions = true.
Proof.
  induction 1; simpl; [done|..]; unfold action_accepted at 1; simpl;
    rewrite bool_decide_eq_true_2 by done; [done|].
  by replace (elapsed <? release) with true by lia.
Qed.

(** ** Consistent partial mappings *)

(** ** The completion checker *)

Section Checker.
Context (dfg : TargetDFG) (target : TargetModel) (options : ModuloMapperOptions).

(** A mapping of the graph that the verifier accepts and whose numbers fit their
    words: what the mapper hands to the checker. *)
(** A transport takes no longer than a walk through every tile in every slot. *)
Definition longest_transport (target : TargetModel) (ii : Z) : Z :=
  (arr_rows (tm_array target) * arr_cols (tm_array target) * ii + 1) *
  net_hopLatency (tm_interconnect target).

Definition short_transports (m : ModuloMapping) : Prop :=
  forall edge d producer ready, edge ∈ td_edges dfg -> TargetEdge_kind edge <> EKMemory ->
    dependence m (te_id edge) = Ok d -> td_node dfg (te_src edge) = Ok producer ->
    tn_producerOutputReadyOffset producer = Some ready ->
    md_requiredSeparationCycles d <= ready + longest_transport target (mm_ii m).

Record completed_mapping (m : ModuloMapping) : Prop := {
  cm_typed : typed_mapping m;
  cm_dependences : typed_dependences m;
  cm_short : short_transports m;
  cm_of : mapping_of dfg m;
  cm_universe : universe_fits target (mm_ii m);
  cm_verified : mmv_verify dfg target m = Ok []
}.

(** It answers for every completed mapping of an interval. *)
Definition checker_answers (ii : Z) : Prop := forall checker m,
  mo_completeMappingChecker options = Some checker -> mm_ii m = ii -> completed_mapping m ->
  exists r, checker dfg target m = Ok r.

Definition accepted_by_checker (m : ModuloMapping) : Prop :=
  match mo_completeMappingChecker options with
  | None => True
  | Some checker => exists r, checker dfg target m = Ok r /\ cc_decision r = Accept
  end.

(** How the search ends when the checker gives up for a reason. *)
Definition abort_outcome (reason : string) : SearchOutcome :=
  if starts_with "budget" reason then OutBudgetExceeded
  else if starts_with "verification" reason then OutVerificationFailure
  else OutInternalError.

(** Some completed mapping of the interval makes it give up with that outcome. *)
Definition checker_aborts (ii : Z) (outcome : SearchOutcome) : Prop := exists checker m r,
  mo_completeMappingChecker options = Some checker /\ mm_ii m = ii /\ completed_mapping m /\
  checker dfg target m = Ok r /\ cc_decision r = Abort /\ abort_outcome (cc_reasonCode r) = outcome.

(** A mapping the mapper may return for an interval. *)
Definition verified_at (ii : Z) (m : ModuloMapping) : Prop :=
  mm_ii m = ii /\ completed_mapping m /\ accepted_by_checker m.
End Checker.

Section Search.
Context (dfg : TargetDFG) (Hdfg : TargetDFG_inv dfg).
Context (resources : ModuloResourceModel) (Hres : ResourceModel_wf resources).
Local Abbreviation target := (rm_target resources).
Local Abbreviation ii := (rm_ii resources).
Local Abbreviation hop := (net_hopLatency (tm_interconnect target)).
Context (Hvalid : TargetDFG_valid dfg target None) (Hname : td_targetName dfg = tm_name target).

(** The resources a placed node and a routed edge occupy. *)
Definition node_use (pm : PartialMapping) (node : TargetNode) : list ModuloResource :=
  match pm_placements pm !! tn_id node, findOperation target (tn_operation node) with
  | Some p, Some op =>
      (fun offset => exec_resource (op_executionClass op) (np_tile p)
                       ((np_issueSlot p + offset) mod ii)) <$> range (op_issueOccupancy op)
  | _, _ => []
  end.

Definition plan_use (src : NodePlacement) (plan : TransportPlan) : list ModuloResource :=
  map_slot (fun cycle => cycle mod ii) <$> link_occurrences (np_issueSlot src) (tp_actions plan).

Definition edge_use (pm : PartialMapping) (edge : TargetEdge) : list ModuloResource :=
  match pm_dependences pm !! te_id edge, pm_placements pm !! te_src edge with
  | Some d, Some src => match md_transport d with Some plan => plan_use src plan | None => [] end
  | _, _ => []
  end.

Definition pm_uses (pm : PartialMapping) : list ModuloResource :=
  flat_map (node_use pm) (td_nodes dfg) ++ flat_map (edge_use pm) (td_edges dfg).

(** A dependence that realises its edge between two placements. *)
Definition realises (edge : TargetEdge) (src dst : NodePlacement) (d : MappedDependence) : Prop :=
  md_edge d = te_id edge /\ md_kind d = TargetEdge_kind edge /\
  is_u32 (md_requiredSeparationCycles d) /\
  match te_info edge with
  | MemoryEdgeInfo kind =>
      md_transport d = None /\ md_requiredSeparationCycles d = memoryDependenceSeparation target kind
  | _ => exists plan producer ready,
      md_transport d = Some plan /\ tp_edge plan = te_id edge /\
      tp_domain plan = expectedDomain (TargetEdge_kind edge) /\
      md_requiredSeparationCycles d = tp_requiredSeparationCycles plan /\
      td_node dfg (te_src edge) = Ok producer /\
      tn_producerOutputReadyOffset producer = Some ready /\ tp_actions plan <> [] /\
      route target hop (tp_domain plan) (np_tile src) ready (tp_actions plan) (np_tile dst)
        (tp_requiredSeparationCycles plan) /\
      tp_requiredSeparationCycles plan <= ready + longest_transport target ii
  end.

Definition placement_for (node : TargetNode) (p : NodePlacement) : Prop :=
  np_node p = tn_id node /\ placement_ok dfg resources p /\
  exists op, findOperation target (tn_operation node) = Some op /\
    0 < op_issueOccupancy op <= ii.

Record consistent (pm : PartialMapping) : Prop := {
  cs_placements : forall id p, pm_placements pm !! id = Some p ->
    exists node, node ∈ td_nodes dfg /\ tn_id node = id /\ placement_for node p;
  cs_dependences : forall id d, pm_dependences pm !! id = Some d ->
    exists edge src dst, edge ∈ td_edges dfg /\ te_id edge = id /\
      pm_placements pm !! te_src edge = Some src /\ pm_placements pm !! te_dst edge = Some dst /\
      realises edge src dst d;
  cs_books : books resources (pm_reservations pm) (pm_uses pm)
}.

(** Every edge between placed nodes is realised. *)
Definition closed (pm : PartialMapping) : Prop :=
  forall edge, edge ∈ td_edges dfg -> is_Some (pm_placements pm !! te_src edge) ->
    is_Some (pm_placements pm !! te_dst edge) -> is_Some (pm_dependences pm !! te_id edge).

Lemma same_node n n' : n ∈ td_nodes dfg -> n' ∈ td_nodes dfg -> tn_id n = tn_id n' -> n = n'.
Proof using Hdfg. intros. by apply (node_unique dfg Hdfg). Qed.

Lemma same_edge e e' : e ∈ td_edges dfg -> e' ∈ td_edges dfg -> te_id e = te_id e' -> e = e'.
Proof using Hdfg. intros. by apply (edge_unique dfg Hdfg). Qed.

Lemma nodes_NoDup : NoDup (td_nodes dfg).
Proof using Hdfg. eapply NoDup_of_key, td_nodes_NoDup, Hdfg. Qed.

Lemma edges_NoDup : NoDup (td_edges dfg).
Proof using Hdfg. eapply NoDup_of_key, td_edges_NoDup, Hdfg. Qed.

Lemma empty_consistent : consistent (mkPartial ∅ ∅ (makeReservationTable resources)) /\
  closed (mkPartial ∅ ∅ (makeReservationTable resources)).
Proof using Type.
  split; [split; cbn [pm_placements pm_dependences pm_reservations]|].
  - intros id p H. by rewrite lookup_empty in H.
  - intros id d H. by rewrite lookup_empty in H.
  - unfold pm_uses. rewrite (flat_map_same (fun _ => []) (node_use _)),
      (flat_map_same (fun _ => []) (edge_use _)).
    + rewrite !(proj2 (flat_map_nil_iff _ _)) by done. apply books_empty.
    + intros e _. unfold edge_use. cbn [pm_dependences]. by rewrite lookup_empty.
    + intros n _. unfold node_use. cbn [pm_placements]. by rewrite lookup_empty.
  - intros edge _ [p Hp]. cbn [pm_placements] in Hp. by rewrite lookup_empty in Hp.
Qed.

(** Placing a node adds its uses and nothing else. *)
Lemma uses_place pm node p table :
  consistent pm -> node ∈ td_nodes dfg -> pm_placements pm !! tn_id node = None ->
  let pm' := mkPartial (emplace (tn_id node) p (pm_placements pm)) (pm_dependences pm) table in
  pm_uses pm' ≡ₚ pm_uses pm ++ node_use pm' node.
Proof using Hdfg.
  intros Hc Hn Hnone pm'. unfold pm_uses.
  assert (Hlook : forall id, pm_placements pm' !! id =
    if decide (id = tn_id node) then Some p else pm_placements pm !! id).
  { intros id. unfold pm'. cbn [pm_placements]. rewrite emplace_new by done.
    rewrite lookup_insert. repeat case_decide; congruence. }
  rewrite (flat_map_update (node_use pm) (node_use pm') _ node nodes_NoDup Hn).
  - rewrite (flat_map_same (edge_use pm) (edge_use pm')).
    + rewrite <- !app_assoc. apply Permutation_app_head, Permutation_app_comm.
    + intros e He. unfold edge_use. change (pm_dependences pm') with (pm_dependences pm).
      destruct (pm_dependences pm !! te_id e) as [d|] eqn:Ed; [|done].
      destruct (cs_dependences _ Hc _ _ Ed) as (e' & src & dst & He' & Eid & Hsrc & _).
      rewrite (same_edge e' e He' He Eid) in Hsrc. rewrite Hlook. case_decide as E; [|done].
      rewrite E in Hsrc. congruence.
  - unfold node_use. by rewrite Hnone.
  - intros x Hx Hne. unfold node_use. rewrite Hlook. case_decide as E; [|done].
    exfalso. by apply Hne, same_node.
Qed.

(** Realising an edge adds the links of its plan and nothing else. *)
Lemma uses_realise pm edge d src table :
  edge ∈ td_edges dfg -> pm_dependences pm !! te_id edge = None ->
  pm_placements pm !! te_src edge = Some src ->
  pm_uses (mkPartial (pm_placements pm) (emplace (te_id edge) d (pm_dependences pm)) table) ≡ₚ
    pm_uses pm ++ match md_transport d with Some plan => plan_use src plan | None => [] end.
Proof using Hdfg.
  intros He Hnone Hsrc. set (pm' := mkPartial _ _ _). unfold pm_uses.
  assert (Hlook : forall id, pm_dependences pm' !! id =
    if decide (id = te_id edge) then Some d else pm_dependences pm !! id).
  { intros id. unfold pm'. cbn [pm_dependences]. rewrite emplace_new by done.
    rewrite lookup_insert. repeat case_decide; congruence. }
  rewrite (flat_map_update (edge_use pm) (edge_use pm') _ edge edges_NoDup He).
  - rewrite <- app_assoc. change (node_use pm') with (node_use pm).
    do 2 apply Permutation_app_head. unfold edge_use. rewrite Hlook, decide_True by done.
    change (pm_placements pm') with (pm_placements pm). by rewrite Hsrc.
  - unfold edge_use. by rewrite Hnone.
  - intros x Hx Hne. unfold edge_use. rewrite Hlook. case_decide as E; [|done].
    exfalso. by apply Hne, same_edge.
Qed.
(** *** Choosing *)

Lemma td_node_source edge : edge ∈ td_edges dfg -> exists node, td_node dfg (te_src edge) = Ok node.
Proof using Hdfg.
  intros He. destruct (inv_endpoints dfg Hdfg edge He) as [Hs _].
  apply (indexed_contains tn_id _ _ _ (inv_nodes dfg Hdfg)) in Hs as (n & Hn & Hid).
  exists n. by apply (td_node_Ok dfg Hdfg).
Qed.

Definition unplaced (pm : PartialMapping) (id : Z) : Prop :=
  pm_placements pm !! id = None /\ exists node, node ∈ td_nodes dfg /\ tn_id node = id.

Lemma hasPlacement_false pm id : hasPlacement pm id = false <-> pm_placements pm !! id = None.
Proof using Type.
  unfold hasPlacement. rewrite bool_decide_eq_false. by rewrite eq_None_not_Some.
Qed.

Lemma hasPlacement_true pm id : hasPlacement pm id = true <-> is_Some (pm_placements pm !! id).
Proof using Type. unfold hasPlacement. by rewrite bool_decide_eq_true. Qed.

Lemma selectNode_spec pm node :
  node ∈ td_nodes dfg -> pm_placements pm !! tn_id node = None ->
  exists id, selectNode dfg pm = Ok id /\ unplaced pm id.
Proof using Type.
  intros Hn Hnone. unfold selectNode.
  match goal with |- context [foldl ?f None _] => set (step := f) end.
  assert (H : forall l acc, (forall x, x ∈ l -> x ∈ td_nodes dfg) ->
    (forall id rank, acc = Some (id, rank) -> unplaced pm id) ->
    (acc = None -> node ∈ l) ->
    exists id rank, foldl step acc l = Some (id, rank) /\ unplaced pm id).
  { induction l as [|x l IH]; intros acc Hsub Hacc Hin.
    - destruct acc as [[id rank]|]; [by exists id, rank; split; [|eapply Hacc]|].
      specialize (Hin eq_refl). by apply not_elem_of_nil in Hin.
    - cbn [foldl]. apply IH; [intros y Hy; apply Hsub; by right| |].
      + intros id rank. unfold step. destruct (hasPlacement pm (tn_id x)) eqn:Ep; [by apply Hacc|].
        apply hasPlacement_false in Ep.
        assert (Hx : unplaced pm (tn_id x)) by (split; [done|]; exists x; split; [apply Hsub; left|done]).
        destruct acc as [[id' best]|]; [case_match|]; intros [= <- _]; try done. by eapply Hacc.
      + unfold step. destruct (hasPlacement pm (tn_id x)) eqn:Ep.
        * intros ->. specialize (Hin eq_refl). apply elem_of_cons in Hin as [->|Hin]; [|done].
          apply hasPlacement_true in Ep as [p Hp]. congruence.
        * destruct acc as [[id' best]|]; [case_match|]; done. }
  destruct (H (td_nodes dfg) None) as (id & rank & -> & Hid); [done..|]. by exists id.
Qed.

Lemma slot_penalties_total pm node slot edges total :
  edges ⊆ td_edges dfg -> exists t, slot_penalties dfg ii pm node slot edges total = Ok t.
Proof using Hdfg.
  revert total. induction edges as [|e edges IH]; intros total Hsub; [by eexists|].
  cbn [slot_penalties].
  assert (exists p, edge_penalty dfg ii pm node slot e = Ok p) as [p ->].
  { destruct (td_node_source e) as [n Hn]; [apply Hsub; left|]. unfold edge_penalty. rewrite Hn.
    repeat case_match; cbn [mbind result_bind]; eauto; repeat case_match; eauto. }
  cbn [mbind result_bind]. apply IH. intros x Hx. apply Hsub. by right.
Qed.

Lemma candidate_values_spec pm node positions : forall values,
  exists vs, candidate_values dfg ii pm node positions values = Ok (values ++ vs) /\
    (fun c => (ca_tile c, ca_slot c)) <$> vs = positions.
Proof using Hdfg.
  induction positions as [|[tile slot] positions IH]; intros values.
  - exists []. by rewrite app_nil_r.
  - cbn [candidate_values]. destruct (slot_penalties_total pm node slot (td_edges dfg) (0, 0))
      as [t ->]; [done|]. cbn [mbind result_bind].
    destruct (IH (values ++ [mkCandidate tile slot t.1 (locality dfg pm node tile) t.2]))
      as (vs & -> & <-). rewrite <- app_assoc. by eexists.
Qed.

(** A candidate lies on a compatible tile, in a slot of the II. *)
Definition candidate_ok (node : TargetNode) (c : Candidate) : Prop :=
  (tile_row (ca_tile c), tile_col (ca_tile c)) ∈ compatibleTiles target (tn_operation node) /\
  0 <= ca_slot c < ii.

Lemma candidates_spec pm node :
  node ∈ td_nodes dfg ->
  exists values, candidates dfg target ii pm (tn_id node) = Ok values /\
    forall c, c ∈ values -> candidate_ok node c.
Proof using Hdfg.
  intros Hn. unfold candidates.
  assert (td_node dfg (tn_id node) = Ok node) as -> by (by apply (td_node_Ok dfg Hdfg)).
  cbn [mbind result_bind].
  match goal with |- context [candidate_values _ _ _ _ ?l _] =>
    destruct (candidate_values_spec pm (tn_id node) l []) as (vs & -> & Hvs) end.
  cbn [mbind result_bind]. eexists. split; [reflexivity|]. intros c Hc.
  rewrite merge_sort_Permutation in Hc. cbn [app] in Hc.
  assert (Hpos : (ca_tile c, ca_slot c) ∈ (fun c => (ca_tile c, ca_slot c)) <$> vs)
    by (by apply (list_elem_of_fmap_2 (fun c => (ca_tile c, ca_slot c)))).
  rewrite Hvs in Hpos. apply elem_of_flat_map in Hpos as ([row col] & Htile & Hpos).
  apply list_elem_of_fmap in Hpos as (slot & [= Et Es] & Hslot). apply elem_of_range in Hslot.
  unfold candidate_ok. rewrite Et, Es. done.
Qed.

Lemma touches_true edge node :
  touches edge node = true <-> te_src edge = node \/ te_dst edge = node.
Proof using Type. unfold touches. rewrite orb_true_iff, !Z.eqb_eq. done. Qed.

Lemma elem_of_closedEdges pm node id :
  id ∈ closedEdges dfg pm node <-> exists edge, edge ∈ td_edges dfg /\ te_id edge = id /\
    (te_src edge = node \/ te_dst edge = node) /\ is_Some (pm_placements pm !! te_src edge) /\
    is_Some (pm_placements pm !! te_dst edge) /\ pm_dependences pm !! id = None.
Proof using Type.
  unfold closedEdges. rewrite elem_of_sort_by, list_elem_of_fmap.
  setoid_rewrite list_elem_of_filter. setoid_rewrite andb_true_iff.
  setoid_rewrite andb_true_iff. setoid_rewrite andb_true_iff. setoid_rewrite touches_true.
  setoid_rewrite hasPlacement_true. setoid_rewrite negb_true_iff. setoid_rewrite bool_decide_eq_false.
  setoid_rewrite <- eq_None_not_Some. split.
  - intros (edge & -> & (((Ht & Hs) & Hd) & Hn) & He). by exists edge.
  - intros (edge & He & <- & Ht & Hs & Hd & Hn). by exists edge.
Qed.

Lemma closedEdges_NoDup pm node : NoDup (closedEdges dfg pm node).
Proof using Hdfg.
  unfold closedEdges. apply (NoDup_fmap_1 id), sort_by_NoDup. rewrite list_fmap_id.
  eapply (sublist_NoDup _ (te_id <$> td_edges dfg)); [by apply td_edges_NoDup|].
  apply fmap_sublist, sublist_filter.
Qed.
(** *** Realising an edge *)

Context (options : ModuloMapperOptions) (limits : SearchLimits) (Hfit : times_fit dfg resources).

(** The budgets of the attempt are respected. *)
Definition bounded (st : MapperState) : Prop :=
  ms_nodeCandidateAttempts (mst_stats st) <= sl_nodeCandidateAttempts limits /\
  ms_backtracks (mst_stats st) <= sl_backtracks limits /\
  ms_routeSearchCalls (mst_stats st) <= sl_routeSearchCalls limits.

(** A valid value edge leaves a node whose result has a known time. *)
Lemma value_source_ready edge node :
  edge ∈ td_edges dfg -> TargetEdge_kind edge <> EKMemory -> td_node dfg (te_src edge) = Ok node ->
  exists ready, tn_producerOutputReadyOffset node = Some ready.
Proof using Hdfg Hvalid Hres.
  intros He Hkind Hnode. apply (td_node_Ok dfg Hdfg) in Hnode as [Hn Hid].
  destruct (tv_edges _ _ _ Hvalid edge He) as (src & dst & Hsrc & Hdst & Hok).
  assert (src = node) as ->.
  { unfold find_node in Hsrc. apply find_if_Some in Hsrc as [Hin E]. apply Z.eqb_eq in E.
    apply same_node; congruence. }
  destruct (tv_nodes _ _ _ Hvalid node Hn) as (op & Hop & _ & _ & _ & _ & <- & _).
  pose proof (wf_timing _ (rmwf_target _ Hres) op (findOperation_elem _ _ _ Hop)) as Ht.
  assert (Hrole : op_resultRole op <> ResVoid).
  { unfold TargetEdge_kind, data_edge_ok, predicate_edge_ok in *. destruct (te_info edge); [| |done];
      repeat case_match; try done; simplify_eq; bool_hyps; congruence. }
  destruct (op_resultRole op); try done; destruct Ht as [_ (r & Hr & _)]; eauto.
Qed.

Lemma routeResources_spec domain producer tile elapsed actions tile' elapsed' :
  0 <= np_issueSlot producer < ii ->
  route target hop domain tile elapsed actions tile' elapsed' ->
  forall found ids, Forall2 (fun r id => findResource resources r = Ok id)
    (map_slot (fun cycle => cycle mod ii) <$> link_occurrences (np_issueSlot producer) actions) ids ->
  NoDup (found ++ ids) -> routeResources ii resources domain actions producer found = Ok (found ++ ids).
Proof using Hres.
  intros Hissue. induction 1 as [|tile elapsed direction next actions tile' elapsed' [_ Hn] _ IH
    |tile elapsed release actions tile' elapsed' _ _ IH]; intros found ids Hids Hnd;
    cbn [routeResources].
  - apply Forall2_nil_inv_l in Hids as ->. by rewrite app_nil_r.
  - cbn in Hids. apply Forall2_cons_inv_l in Hids as (id & ids' & Hid & Hids & ->).
    rewrite advance_spec by (apply (rmwf_ii _ Hres) || done). cbn [mbind result_bind].
    assert (linkResource resources domain tile direction
      ((np_issueSlot producer + elapsed) mod ii) = Ok (Some id)) as ->.
    { apply linkResource_Ok. split; [apply Z.mod_pos_bound; lia|]. split; [by rewrite Hn|done]. }
    cbn [mbind result_bind]. rewrite bool_decide_eq_false_2.
    2:{ intros Hin. apply NoDup_app in Hnd as (_ & Hdis & _). apply (Hdis id Hin). left. }
    rewrite (cons_middle id found ids'), app_assoc in Hnd |- *. by apply IH.
  - by apply IH.
Qed.

(** What realising one edge, or several, does besides its outcome. *)
Record realised_step (delta : CandidateDelta) (st : MapperState) (delta' : CandidateDelta)
    (st' : MapperState) : Prop := {
  rl_node : cd_nodeReservation delta' = cd_nodeReservation delta;
  rl_rollback : rollback delta' (mst_partial st') = rollback delta (mst_partial st);
  rl_placements : pm_placements (mst_partial st') = pm_placements (mst_partial st);
  rl_bounded : bounded st'
}.

Definition interrupted (outcome : SearchOutcome) : Prop :=
  match outcome with
  | OutExhausted | OutPerIIBudgetExceeded | OutRouteBudgetExceeded => True
  | _ => False
  end.

Lemma add_dependence_consistent st edge src dst d table :
  consistent (mst_partial st) -> edge ∈ td_edges dfg ->
  pm_placements (mst_partial st) !! te_src edge = Some src ->
  pm_placements (mst_partial st) !! te_dst edge = Some dst ->
  pm_dependences (mst_partial st) !! te_id edge = None -> realises edge src dst d ->
  books resources table (pm_uses (mst_partial st) ++
    match md_transport d with Some plan => plan_use src plan | None => [] end) ->
  consistent (mst_partial (add_dependence st (te_id edge) d table)) /\
  forall id, is_Some (pm_dependences (mst_partial (add_dependence st (te_id edge) d table)) !! id) <->
    id = te_id edge \/ is_Some (pm_dependences (mst_partial st) !! id).
Proof using Hdfg.
  intros Hc He Hsrc Hdst Hnone Hr Hb.
  unfold add_dependence. cbn [mst_partial set_partial]. set (pm := mst_partial st) in *. split.
  - split; cbn [pm_placements pm_dependences pm_reservations].
    + apply (cs_placements _ Hc).
    + intros id d'. rewrite emplace_new, lookup_insert by done. case_decide as E.
      * intros [= <-]. exists edge, src, dst. done.
      * apply (cs_dependences _ Hc).
    + eapply books_perm; [|exact Hb]. symmetry. by apply uses_realise.
  - intros id. cbn [pm_dependences]. rewrite emplace_new, lookup_insert by done.
    case_decide as E; [|naive_solver]. subst. split; [by left|]. intros _. by eexists.
Qed.

Lemma placement_of pm id p :
  consistent pm -> pm_placements pm !! id = Some p -> np_node p = id /\ placement_ok dfg resources p.
Proof using Type.
  intros Hc Hp. destruct (cs_placements _ Hc _ _ Hp) as (n & _ & <- & Hn & Hok & _). done.
Qed.

(** The route search is asked a proper question. *)
Lemma edge_routable pm edge src dst :
  consistent pm -> edge ∈ td_edges dfg -> TargetEdge_kind edge <> EKMemory ->
  pm_placements pm !! te_src edge = Some src -> pm_placements pm !! te_dst edge = Some dst ->
  typed_request (mkRouteRequest (te_id edge) src dst) /\
  exists ready, routable dfg resources (mkRouteRequest (te_id edge) src dst) ready
    (expectedDomain (TargetEdge_kind edge)).
Proof using Hdfg Hvalid Hres Hname.
  intros Hc He Hkind Hsrc Hdst.
  destruct (placement_of _ _ _ Hc Hsrc) as [Es Hs]. destruct (placement_of _ _ _ Hc Hdst) as [Ed Hd].
  split.
  - unfold typed_request. cbn [rq_producer rq_consumer].
    destruct Hs as ([? ?] & [? _] & _), Hd as ([? ?] & [? _] & _). lia.
  - destruct (td_node_source edge He) as [node Hnode].
    destruct (value_source_ready edge node He Hkind Hnode) as [ready Hready].
    exists ready. split; cbn [rq_edge rq_producer rq_consumer]; try done.
    + exists edge. split; [by apply (td_edge_Ok dfg Hdfg)|]. done.
    + exists node. by rewrite Es.
Qed.
(** [edge_done id st outcome st']: on success the edge is realised. *)
Definition edges_done (ids : list Z) (st st' : MapperState) : Prop :=
  consistent (mst_partial st') /\
  forall id, is_Some (pm_dependences (mst_partial st') !! id) <->
    id ∈ ids \/ is_Some (pm_dependences (mst_partial st) !! id).

Local Abbreviation route_options :=
  (mkRouteOptions (mbu_perRouteBudget (mo_budget options))
     (ro_allowVirtualHold (mo_routeOptions options))).

Lemma book_route_spec edge src dst found delta st :
  consistent (mst_partial st) -> bounded st -> edge ∈ td_edges dfg ->
  TargetEdge_kind edge <> EKMemory ->
  pm_placements (mst_partial st) !! te_src edge = Some src ->
  pm_placements (mst_partial st) !! te_dst edge = Some dst ->
  pm_dependences (mst_partial st) !! te_id edge = None ->
  search_outcome dfg resources (mkRouteRequest (te_id edge) src dst)
    (pm_reservations (mst_partial st)) route_options found ->
  exists outcome delta' st', book_route ii resources edge src found delta st =
      Ok (outcome, delta', st') /\ realised_step delta st delta' st' /\
    (outcome = OutSuccess /\ edges_done [te_id edge] st st' \/ interrupted outcome).
Proof using Hdfg Hvalid Hres Hname.
  intros Hc Hb He Hkind Hsrc Hdst Hnone Hout.
  destruct (edge_routable _ _ _ _ Hc He Hkind Hsrc Hdst) as [_ (ready & Hrt)].
  unfold book_route, search_outcome in *. destruct (rr_status found) eqn:Est.
  - destruct Hout as (ready' & domain & plan & Hrt' & Hp & Hd & ((Hsep & Hshort) & _) & _). rewrite Hp.
    destruct (routable_unique _ _ _ _ _ _ _ Hrt Hrt') as [<- <-]. destruct Hd.
    cbn [rq_edge rq_producer rq_consumer] in *.
    pose proof (cs_books _ Hc) as Hbooks. pose proof Hbooks as [Htable _].
    destruct (placement_of _ _ _ Hc Hsrc) as [_ (_ & Hissue & _)].
    destruct (available_ids resources Hres _ Htable _ dl_free dl_exclusive) as (ids & Hids & Hnd & _).
    assert (routeResources ii resources (tp_domain plan) (tp_actions plan) src [] = Ok ids) as ->.
    { rewrite dl_domain. by apply (routeResources_spec _ src _ _ _ _ _ Hissue dl_route [] ids). }
    cbn [mbind result_bind app].
    destruct (books_available resources Hres _ _ _ ids (OwnerEdge (te_id edge)) Hbooks Hids
      dl_exclusive dl_free) as (reservation & table & Htry).
    cbn [count add_routeSuccess mst_partial]. rewrite Htry.
    destruct (books_reserve resources Hres _ _ _ _ _ _ _ Hbooks Hids Htry) as (_ & Hbooks' & Hundo).
    destruct (add_dependence_consistent
      (count add_routeSuccess (count (add_expansions (rst_stateExpansions (rr_stats found))) st)) edge src dst
      (mkDependence (te_id edge) (TargetEdge_kind edge) (tp_requiredSeparationCycles plan) (Some plan))
      table) as [Hcons Hdom]; try done.
    { destruct (rt_ready _ _ _ _ _ Hrt) as (producer & Hprod & Hoff).
      destruct (placement_of _ _ _ Hc Hsrc) as [Es _].
      cbn [rq_producer] in Hprod. rewrite Es in Hprod.
      assert (Hval : exists plan0 producer ready,
        md_transport (mkDependence (te_id edge) (TargetEdge_kind edge)
          (tp_requiredSeparationCycles plan) (Some plan)) = Some plan0 /\
        tp_edge plan0 = te_id edge /\ tp_domain plan0 = expectedDomain (TargetEdge_kind edge) /\
        tp_requiredSeparationCycles plan = tp_requiredSeparationCycles plan0 /\
        td_node dfg (te_src edge) = Ok producer /\
        tn_producerOutputReadyOffset producer = Some ready /\ tp_actions plan0 <> [] /\
        route target hop (tp_domain plan0) (np_tile src) ready (tp_actions plan0) (np_tile dst)
          (tp_requiredSeparationCycles plan0) /\
        tp_requiredSeparationCycles plan0 <= ready + longest_transport target ii).
      { exists plan, producer, ready. split_and!; try done. by rewrite dl_domain. }
      split; [done|]. split; [done|]. split; [exact Hsep|]. unfold TargetEdge_kind in Hkind. by destruct (te_info edge). }
    eexists _, _, _. split; [reflexivity|]. split; [|left; split; [done|]].
    + split; try done. by apply rollback_dependence.
    + split; [done|]. intros id. rewrite list_elem_of_singleton. apply Hdom.
  - eexists _, _, _. split; [reflexivity|]. split; [by split|by right].
  - eexists _, _, _. split; [reflexivity|]. split; [by split|by right].
  - by destruct (proj2 Hout _ _ Hrt).
  - by destruct (proj2 Hout _ _ Hrt).
  - by destruct (proj2 Hout _ _ Hrt).
  - done.
Qed.

Lemma realizeEdge_spec edge delta st :
  consistent (mst_partial st) -> bounded st -> edge ∈ td_edges dfg ->
  is_Some (pm_placements (mst_partial st) !! te_src edge) ->
  is_Some (pm_placements (mst_partial st) !! te_dst edge) ->
  pm_dependences (mst_partial st) !! te_id edge = None ->
  exists outcome delta' st', realizeEdge dfg target options limits ii resources (te_id edge) delta st =
      Ok (Some (outcome, delta', st')) /\ realised_step delta st delta' st' /\
    (outcome = OutSuccess /\ edges_done [te_id edge] st st' \/ interrupted outcome).
Proof using Hdfg Hvalid Hres Hname Hfit.
  intros Hc Hb He [src Hsrc] [dst Hdst] Hnone. unfold realizeEdge.
  assert (td_edge dfg (te_id edge) = Ok edge) as -> by (by apply (td_edge_Ok dfg Hdfg)).
  cbn [mbind result_bind]. rewrite Hsrc, Hdst. cbn [of_option mbind result_bind].
  assert (Hvalue : TargetEdge_kind edge <> EKMemory -> exists outcome delta' st',
    (if sl_routeSearchCalls limits <=? ms_routeSearchCalls (mst_stats st)
     then Ok (Some (OutPerIIBudgetExceeded, delta,
            add_diagnostic MAP_II_BUDGET_SHARE_EXHAUSTED (Some ii) None (Some (te_id edge)) st))
     else
       let st := count add_routeSearchCall st in
       running (route_search dfg target resources (pm_reservations (mst_partial st))
         (mkRouteRequest (te_id edge) src dst) route_options) (fun route =>
       outcome ← book_route ii resources edge src route delta st; Ok (Some outcome))) =
      Ok (Some (outcome, delta', st')) /\ realised_step delta st delta' st' /\
    (outcome = OutSuccess /\ edges_done [te_id edge] st st' \/ interrupted outcome)).
  { intros Hkind. destruct (Z.leb_spec (sl_routeSearchCalls limits) (ms_routeSearchCalls (mst_stats st))).
    { eexists _, _, _. split; [reflexivity|]. split; [by split|by right]. }
    cbv zeta. destruct (edge_routable _ _ _ _ Hc He Hkind Hsrc Hdst) as [Htyped _].
    pose proof (cs_books _ Hc) as [Htable _].
    destruct (route_search_spec dfg Hdfg resources Hres (mkRouteRequest (te_id edge) src dst)
      (pm_reservations (mst_partial st)) route_options Htable Htyped Hfit) as (route & Hroute & Hout).
    change (pm_reservations (mst_partial (count add_routeSearchCall st)))
      with (pm_reservations (mst_partial st)).
    rewrite Hroute. cbn [running mbind result_bind].
    destruct (book_route_spec edge src dst route delta (count add_routeSearchCall st))
      as (outcome & delta' & st' & -> & [] & Hcase); try done.
    { destruct Hb as (? & ? & ?). split_and!; [done|done|]. cbn. lia. }
    exists outcome, delta', st'. split; [done|]. split; [by split|exact Hcase]. }
  destruct (te_info edge) as [operand dist|operand dist|kind] eqn:Einfo;
    [apply Hvalue; unfold TargetEdge_kind; by rewrite Einfo..|].
  destruct (add_dependence_consistent st edge src dst
    (mkDependence (te_id edge) EKMemory (memoryDependenceSeparation target kind) None)
    (pm_reservations (mst_partial st))) as [Hcons Hdom]; try done.
  { split; [done|]. unfold TargetEdge_kind. rewrite Einfo. split_and!; try done.
    pose proof (wf_separation _ (rmwf_target _ Hres) kind). cbn [md_requiredSeparationCycles].
    unfold is_u32. lia. }
  { cbn [md_transport]. rewrite app_nil_r. apply (cs_books _ Hc). }
  eexists _, _, _. split; [reflexivity|]. split; [|left; split; [done|]].
  - split; try done. by apply rollback_ordering.
  - split; [done|]. intros id. rewrite list_elem_of_singleton. apply Hdom.
Qed.

Lemma realizeEdges_spec ids : forall delta st,
  consistent (mst_partial st) -> bounded st -> NoDup ids ->
  (forall id, id ∈ ids -> exists edge, edge ∈ td_edges dfg /\ te_id edge = id /\
     is_Some (pm_placements (mst_partial st) !! te_src edge) /\
     is_Some (pm_placements (mst_partial st) !! te_dst edge) /\
     pm_dependences (mst_partial st) !! id = None) ->
  exists outcome delta' st', realizeEdges dfg target options limits ii resources ids delta st =
      Ok (Some (outcome, delta', st')) /\ realised_step delta st delta' st' /\
    (outcome = OutSuccess /\ edges_done ids st st' \/ interrupted outcome).
Proof using Hdfg Hvalid Hres Hname Hfit.
  induction ids as [|id ids IH]; intros delta st Hc Hb Hnd Hids.
  { exists OutSuccess, delta, st. split; [done|]. split; [by split|]. left. split; [done|].
    split; [done|]. intros id. rewrite elem_of_nil. naive_solver. }
  apply NoDup_cons in Hnd as [Hid Hnd]. cbn [realizeEdges].
  destruct (Hids id ltac:(left)) as (edge & He & <- & Hs & Hd & Hnone).
  destruct (realizeEdge_spec edge delta st Hc Hb He Hs Hd Hnone)
    as (outcome & delta1 & st1 & -> & [] & [[-> [Hc1 Hdom1]]|Hint]); cbn [running mbind result_bind].
  2:{ rewrite bool_decide_eq_false_2 by (intros ->; done).
      exists outcome, delta1, st1. split; [done|]. split; [by split|by right]. }
  rewrite bool_decide_eq_true_2 by done.
  destruct (IH delta1 st1 Hc1) as (outcome & delta2 & st2 & -> & [] & Hcase); [done|done| |].
  { intros id' Hin. destruct (Hids id' ltac:(by right)) as (e & ? & ? & ? & ? & Hn).
    exists e. rewrite rl_placements0. split_and!; try done.
    apply eq_None_not_Some. rewrite Hdom1, list_elem_of_singleton. intros [->|[d Hd']]; [done|congruence]. }
  exists outcome, delta2, st2. split; [done|]. split; [split; congruence|].
  destruct Hcase as [[-> [Hc2 Hdom2]]|Hint]; [left|by right]. split; [done|]. split; [done|].
  intros i. rewrite Hdom2, Hdom1, list_elem_of_singleton, elem_of_cons. tauto.
Qed.
(** *** Trying a candidate *)

Lemma compatible_supports node c :
  candidate_ok node c ->
  tile_inside (arr_rows (tm_array target)) (arr_cols (tm_array target)) (ca_tile c) /\
  (forall op, findOperation target (tn_operation node) = Some op ->
     supportsOperation resources (ca_tile c) node = true).
Proof using Hres.
  intros [Htile _]. unfold compatibleTiles in Htile.
  apply list_elem_of_filter in Htile as [Hsup Htile]. apply elem_of_tiles in Htile as [Hr Hc].
  split; [done|]. intros op Hop. unfold supportsOperation. rewrite Hop.
  replace (_ || _)%bool with false by (symmetry; apply orb_false_iff; rewrite !Z.leb_gt; lia).
  by rewrite (findOperation_id _ _ _ (rmwf_target _ Hres) Hop).
Qed.

(** Booking a footprint for a node keeps the partial mapping consistent. *)
Lemma place_consistent pm node c fp delta table :
  consistent pm -> node ∈ td_nodes dfg -> pm_placements pm !! tn_id node = None ->
  candidate_ok node c -> operationFootprint resources node (ca_tile c) (ca_slot c) = Ok fp ->
  tryReserve (pm_reservations pm) fp (OwnerNode (tn_id node)) = (Some delta, table) ->
  let p := mkPlacement (tn_id node) (ca_tile c) (ca_slot c) in
  let pm' := mkPartial (emplace (tn_id node) p (pm_placements pm)) (pm_dependences pm) table in
  consistent pm' /\ delta_resources delta <> [] /\
  rollback (mkCandidateDelta (tn_id node) delta [] []) pm' = Ok pm.
Proof using Hdfg Hres.
  intros Hc Hn Hnone Hok Hfp Htry p pm'. pose proof Hok as [_ Hslot].
  destruct (compatible_supports node c Hok) as [Hinside _].
  pose proof Hfp as (op & Hop & Hsup & Hocc & Hfoot)%(operationFootprint_Ok _ Hres); [|lia].
  pose proof (footprint_of_occupancy _ Hres _ _ _ _ Hfoot) as [Hlen Hle].
  pose proof (wf_occupancy _ (rmwf_target _ Hres) op (findOperation_elem _ _ _ Hop)) as Hpos.
  assert (Hall : Forall2 (fun r id => findResource resources r = Ok id) (node_use pm' node) fp).
  { unfold node_use, pm'. cbn [pm_placements].
    rewrite emplace_new, lookup_insert_eq, Hop by done. rewrite Forall2_fmap_l.
    destruct Hfoot as [Hall _]. eapply Forall2_impl; [exact Hall|]. intros o id. done. }
  destruct (books_reserve resources Hres _ _ _ _ _ _ _ (cs_books _ Hc) Hall Htry)
    as (-> & Hbooks & Hundo).
  assert (Hne : fp <> []) by (intros ->; simpl in Hlen; lia). split; [|split; [done|]].
  - split.
    + intros id q Hq. unfold pm' in Hq. cbn [pm_placements] in Hq.
      rewrite emplace_new, lookup_insert in Hq by done. case_decide as E.
      * injection Hq as <-. exists node. split; [done|]. split; [done|]. split; [done|].
        split; [|exists op; split; [done|lia]].
        split; [done|]. split; [done|]. exists node. split; [|done]. by apply (td_node_Ok dfg Hdfg).
      * by apply (cs_placements _ Hc).
    + intros id d Hd. destruct (cs_dependences _ Hc id d Hd) as (e & src & dst & He & Eid & Hs & Hd' & Hr).
      exists e, src, dst. unfold pm'. cbn [pm_placements]. rewrite emplace_new by done.
      rewrite !lookup_insert_ne by congruence. done.
    + eapply books_perm; [|exact Hbooks]. symmetry. by apply uses_place.
  - unfold rollback. cbn [cd_node cd_nodeReservation cd_edges cd_edgeReservations reverse rev_append
      undo_all foldl mbind result_bind delta_resources]. destruct fp as [|i fp]; [done|].
    unfold pm'. cbn [pm_reservations pm_placements pm_dependences]. rewrite Hundo.
    cbn [mbind result_bind]. rewrite emplace_new, delete_insert_id by done. by destruct pm.
Qed.

Lemma tryCandidate_spec node c st :
  consistent (mst_partial st) -> closed (mst_partial st) -> bounded st ->
  node ∈ td_nodes dfg -> pm_placements (mst_partial st) !! tn_id node = None -> candidate_ok node c ->
  exists outcome delta st',
    tryCandidate dfg target options limits ii resources (tn_id node) c st = Ok (Some (outcome, delta, st')) /\
    bounded st' /\
    (outcome = OutSuccess /\ consistent (mst_partial st') /\ closed (mst_partial st') /\
       (exists p, pm_placements (mst_partial st') = <[tn_id node := p]> (pm_placements (mst_partial st))) /\
       rollback delta (mst_partial st') = Ok (mst_partial st) \/
     outcome = OutExhausted /\ delta_resources (cd_nodeReservation delta) = [] /\
       mst_partial st' = mst_partial st \/
     interrupted outcome /\ delta_resources (cd_nodeReservation delta) <> [] /\
       rollback delta (mst_partial st') = Ok (mst_partial st)).
Proof using Hdfg Hres Hvalid Hname Hfit.
  intros Hc Hclosed Hb Hn Hnone Hok. unfold tryCandidate.
  assert (td_node dfg (tn_id node) = Ok node) as -> by (by apply (td_node_Ok dfg Hdfg)).
  cbn [mbind result_bind].
  destruct (operationFootprint resources node (ca_tile c) (ca_slot c)) as [fp|e] eqn:Efp.
  2:{ eexists _, _, _. split; [reflexivity|]. split; [done|]. right. left. done. }
  destruct (tryReserve (pm_reservations (mst_partial st)) fp (OwnerNode (tn_id node)))
    as [[delta|] table] eqn:Etry.
  2:{ eexists _, _, _. split; [reflexivity|]. split; [done|]. right. left. done. }
  destruct (place_consistent _ node c fp delta table Hc Hn Hnone Hok Efp Etry) as (Hc' & Hne & Hroll).
  set (p := mkPlacement _ _ _) in *. set (pm' := mkPartial _ _ table) in *.
  set (st1 := count add_successfulPlacement (set_partial st pm')).
  destruct (realizeEdges_spec (closedEdges dfg pm' (tn_id node))
    (mkCandidateDelta (tn_id node) delta [] []) st1 Hc' Hb (closedEdges_NoDup pm' (tn_id node)))
    as (outcome & delta' & st' & -> & [] & Hcase).
  { intros id Hid. apply elem_of_closedEdges in Hid as (e & ? & ? & _ & ? & ? & ?). by exists e. }
  exists outcome, delta', st'. split; [done|]. split; [done|].
  change (mst_partial st1) with pm' in *. rewrite Hroll in rl_rollback0.
  destruct Hcase as [[-> [Hcons Hdom]]|Hint].
  - left. split_and!; try done.
    + intros e He Hs Hd. rewrite rl_placements0 in Hs, Hd. apply Hdom.
      destruct (pm_dependences pm' !! te_id e) as [d|] eqn:Ed; [right; change (mst_partial st1) with pm'; by rewrite Ed|].
      destruct (decide (te_src e = tn_id node \/ te_dst e = tn_id node)) as [Ht|Ht].
      * left. apply elem_of_closedEdges. by exists e.
      * exfalso. change (pm_dependences pm') with (pm_dependences (mst_partial st)) in Ed.
        unfold pm' in Hs, Hd. cbn [pm_placements] in Hs, Hd. rewrite emplace_new in Hs, Hd by done.
        rewrite lookup_insert_ne in Hs, Hd by naive_solver.
        destruct (Hclosed e He Hs Hd) as [d Hd']. congruence.
    + exists p. rewrite rl_placements0. unfold pm'. cbn [pm_placements]. by rewrite emplace_new.
  - right. right. rewrite rl_node0. done.
Qed.
(** *** Completion *)

(** The mapping a complete partial mapping stands for. *)
Definition mapping_from (pm : PartialMapping) : ModuloMapping :=
  mkMapping (td_targetName dfg) ii (sort_by np_node (map_items (pm_placements pm)).*2)
    (sort_by md_edge (map_items (pm_dependences pm)).*2).

Definition all_placed (pm : PartialMapping) : Prop :=
  forall node, node ∈ td_nodes dfg -> is_Some (pm_placements pm !! tn_id node).

Section Complete.
Context (pm : PartialMapping) (Hc : consistent pm) (Hclosed : closed pm) (Hall : all_placed pm).

Lemma placement_keys id : is_Some (pm_placements pm !! id) <-> id ∈ tn_id <$> td_nodes dfg.
Proof using Hc Hall.
  rewrite list_elem_of_fmap. split.
  - intros [p Hp]. destruct (cs_placements _ Hc _ _ Hp) as (n & Hn & <- & _). by exists n.
  - intros (n & -> & Hn). by apply Hall.
Qed.

Lemma dependence_keys id : is_Some (pm_dependences pm !! id) <-> id ∈ te_id <$> td_edges dfg.
Proof using Hc Hall Hclosed Hdfg.
  rewrite list_elem_of_fmap. split.
  - intros [d Hd]. destruct (cs_dependences _ Hc _ _ Hd) as (e & src & dst & He & <- & _). by exists e.
  - intros (e & -> & He). destruct (inv_endpoints dfg Hdfg e He) as [Hs Hd].
    apply (indexed_contains tn_id _ _ _ (inv_nodes dfg Hdfg)) in Hs as (n & Hn & En),
      Hd as (n' & Hn' & En'). apply Hclosed; [done|rewrite <- En; by apply Hall|rewrite <- En'; by apply Hall].
Qed.

Lemma placed_key kv : kv ∈ map_items (pm_placements pm) -> np_node kv.2 = kv.1.
Proof using Hc.
  destruct kv as [id p]. intros Hin. apply elem_of_map_items in Hin.
  by destruct (placement_of _ _ _ Hc Hin).
Qed.

Lemma realised_key kv : kv ∈ map_items (pm_dependences pm) -> md_edge kv.2 = kv.1.
Proof using Hc.
  destruct kv as [id d]. intros Hin. apply elem_of_map_items in Hin.
  by destruct (cs_dependences _ Hc _ _ Hin) as (e & src & dst & He & <- & _ & _ & ? & _).
Qed.

Lemma value_keys {A} (key : A -> Z) (items : list (Z * A)) :
  (forall kv, kv ∈ items -> key kv.2 = kv.1) -> key <$> items.*2 = items.*1.
Proof using Type.
  intros H. rewrite <- list_fmap_compose. apply list_fmap_ext. intros i kv Hkv. simpl.
  apply H. by eapply list_elem_of_lookup_2.
Qed.

Lemma completed_builds : build_mapping dfg ii (materialize_calls pm) = Ok (mapping_from pm).
Proof using Hc Hall Hclosed Hdfg Hres.
  unfold build_mapping, ModuloMappingBuilder_new, ModuloTimeDomain. pose proof (rmwf_ii _ Hres) as Hii.
  replace (ii =? 0) with false by lia. cbn [mbind result_bind]. unfold materialize_calls.
  rewrite mapping_run_app, run_places; cbn [mb_hasExpectedGraph mb_placements mb_dependences
    mb_expectedNodes mb_expectedEdges mb_ii app]; [|done| |].
  2:{ rewrite (value_keys np_node) by apply placed_key. apply NoDup_map_items. }
  2:{ intros [id p] Hin. split; [by apply placed_key|]. cbn [fst snd].
      apply elem_of_map_items in Hin. rewrite elem_of_sort_by, <- placement_keys.
      split; [by exists p|]. destruct (placement_of _ _ _ Hc Hin) as [_ (_ & Hs & _)]. lia. }
  cbn [mbind result_bind]. rewrite run_dependences; cbn [extended mb_hasExpectedGraph mb_placements
    mb_dependences mb_expectedNodes mb_expectedEdges mb_ii app]; [|done| | |].
  - cbn [mbind result_bind]. unfold mapping_finish, extended, mapping_from. cbn [mb_hasExpectedGraph
      mb_placements mb_dependences mb_expectedNodes mb_expectedEdges mb_ii mb_targetName app andb].
    rewrite app_nil_r, !sort_by_length, !length_fmap.
    rewrite (map_items_length _ (tn_id <$> td_nodes dfg)) by (apply td_nodes_NoDup, Hdfg || apply placement_keys).
    rewrite (map_items_length _ (te_id <$> td_edges dfg)) by (apply td_edges_NoDup, Hdfg || apply dependence_keys).
    rewrite !length_fmap, !bool_decide_eq_false_2 by (intros H; by apply H). done.
  - apply sort_by_NoDup, td_edges_NoDup, Hdfg.
  - rewrite (value_keys md_edge) by apply realised_key. apply NoDup_map_items.
  - intros [id d] Hin. cbn [fst snd]. apply elem_of_map_items in Hin.
    destruct (cs_dependences _ Hc _ _ Hin) as (e & src & dst & He & <- & _ & _ & Hid & Hk & _ & Hr).
    exists e. rewrite elem_of_sort_by. split; [done|]. split; [done|]. split; [done|]. split; [done|].
    unfold TargetEdge_kind in *. destruct (te_info e).
    1,2: destruct Hr as (plan & prod & ready & -> & ? & ? & ? & _ & _ & _ & Hroute & _);
      split_and!; try done; by eapply route_accepted.
    by destruct Hr as [-> _].
Qed.

Lemma elem_of_built_placements p :
  p ∈ mm_placements (mapping_from pm) <-> pm_placements pm !! np_node p = Some p.
Proof using Hc.
  unfold mapping_from. cbn [mm_placements]. rewrite elem_of_sort_by, list_elem_of_fmap. split.
  - intros ([id q] & -> & Hin). pose proof (placed_key _ Hin) as E. cbn [fst snd] in *. subst id.
    by apply elem_of_map_items.
  - intros Hp. exists (np_node p, p). split; [done|]. by apply elem_of_map_items.
Qed.

Lemma elem_of_built_dependences d :
  d ∈ mm_dependences (mapping_from pm) <-> pm_dependences pm !! md_edge d = Some d.
Proof using Hc.
  unfold mapping_from. cbn [mm_dependences]. rewrite elem_of_sort_by, list_elem_of_fmap. split.
  - intros ([id q] & -> & Hin). pose proof (realised_key _ Hin) as E. cbn [fst snd] in *. subst id.
    by apply elem_of_map_items.
  - intros Hp. exists (md_edge d, d). split; [done|]. by apply elem_of_map_items.
Qed.

Lemma built_placed id p : pm_placements pm !! id = Some p -> placed (mapping_from pm) id p.
Proof using Hc.
  intros Hp. destruct (placement_of _ _ _ Hc Hp) as [E _]. unfold placed, placementEntries.
  apply (filter_key_unique np_node); [|apply elem_of_built_placements; congruence|done].
  cbn [mapping_from mm_placements]. apply sort_by_NoDup.
  rewrite (value_keys np_node) by apply placed_key. apply NoDup_map_items.
Qed.

Lemma built_realised id d : pm_dependences pm !! id = Some d -> realised (mapping_from pm) id d.
Proof using Hc.
  intros Hd. destruct (cs_dependences _ Hc _ _ Hd) as (e & src & dst & He & E & _ & _ & Hid & _).
  unfold realised, dependenceEntries.
  apply (filter_key_unique md_edge); [|apply elem_of_built_dependences; congruence|congruence].
  cbn [mapping_from mm_dependences]. apply sort_by_NoDup.
  rewrite (value_keys md_edge) by apply realised_key. apply NoDup_map_items.
Qed.

Lemma built_uses :
  map_slot (fun cycle => cycle mod mm_ii (mapping_from pm)) <$>
    occurrences dfg target (mapping_from pm) (issue_slot (mapping_from pm)) = pm_uses pm.
Proof using Hc Hall Hclosed Hdfg.
  unfold occurrences, pm_uses. rewrite fmap_app, !fmap_flat_map. f_equal; apply flat_map_same.
  - intros n Hn. destruct (Hall n Hn) as [p Hp]. unfold node_occurrences, node_use, issue_slot.
    rewrite (built_placed _ _ Hp), Hp. destruct (findOperation target (tn_operation n)) as [op|]; [|done].
    rewrite <- list_fmap_compose. apply list_fmap_ext. intros i o _. simpl.
    by rewrite (built_placed _ _ Hp), map_slot_exec.
  - intros e He. unfold edge_occurrences, edge_use, issue_slot.
    destruct (proj2 (dependence_keys (te_id e))) as [d Hd]; [by apply list_elem_of_fmap_2|].
    rewrite (built_realised _ _ Hd), Hd.
    destruct (cs_dependences _ Hc _ _ Hd) as (e' & src & dst & He' & E & Hs & _ & _).
    rewrite (same_edge e' e He' He E) in Hs. rewrite (built_placed _ _ Hs), Hs.
    destruct (md_transport d); done.
Qed.
Lemma completed_valid : valid_mapping dfg target (mapping_from pm).
Proof using Hc Hall Hclosed Hdfg Hres Hvalid Hname.
  pose proof (rmwf_ii _ Hres) as Hii. split.
  - done.
  - cbn [mapping_from mm_ii]. lia.
  - done.
  - intros p Hp. apply elem_of_built_placements in Hp.
    destruct (cs_placements _ Hc _ _ Hp) as (n & Hn & E & _). by exists n.
  - intros d Hd. apply elem_of_built_dependences in Hd.
    destruct (cs_dependences _ Hc _ _ Hd) as (e & _ & _ & He & E & _). by exists e.
  - intros n Hn. destruct (Hall n Hn) as [p Hp]. exists p. split; [by apply built_placed|].
    destruct (cs_placements _ Hc _ _ Hp) as (n' & Hn' & E & _ & (Hin & Hslot & m & Hm & Hsup) & op & Hop & Hocc).
    rewrite (same_node n' n Hn' Hn E) in *.
    destruct (placement_of _ _ _ Hc Hp) as [Eid _].
    assert (m = n) as -> by (apply (td_node_Ok dfg Hdfg) in Hm as [? ?]; apply same_node; congruence).
    split; [done|]. split; [cbn [mapping_from mm_ii]; lia|]. exists op. split; [done|].
    split; [|done]. unfold supportsOperation in Hsup. rewrite Hop in Hsup. by destruct (_ || _)%bool.
  - intros e He. destruct (proj2 (dependence_keys (te_id e))) as [d Hd]; [by apply list_elem_of_fmap_2|].
    exists d. split; [by apply built_realised|].
    destruct (cs_dependences _ Hc _ _ Hd) as (e' & src & dst & He' & E & Hs & Hd' & _ & Hk & _ & Hr).
    rewrite (same_edge e' e He' He E) in *. split; [done|].
    assert (Htv : (exists plan producer ready,
        md_transport d = Some plan /\ tp_edge plan = te_id e /\
        tp_domain plan = expectedDomain (TargetEdge_kind e) /\
        md_requiredSeparationCycles d = tp_requiredSeparationCycles plan /\
        td_node dfg (te_src e) = Ok producer /\
        tn_producerOutputReadyOffset producer = Some ready /\ tp_actions plan <> [] /\
        route target hop (tp_domain plan) (np_tile src) ready (tp_actions plan) (np_tile dst)
          (tp_requiredSeparationCycles plan) /\
        tp_requiredSeparationCycles plan <= ready + longest_transport target ii) -> transport_valid dfg target (mapping_from pm) e d).
    { intros (plan & producer & ready & ? & ? & ? & ? & ? & ? & ? & ? & _).
      exists plan, src, dst, producer, ready. split_and!; try done; by apply built_placed. }
    destruct (te_info e); [by apply Htv|by apply Htv|done].
  - rewrite built_uses. by destruct (cs_books _ Hc) as (_ & ? & _).
Qed.

Lemma completed_verified :
  universe_fits target ii -> completed_mapping dfg target (mapping_from pm).
Proof using Hc Hall Hclosed Hdfg Hres Hvalid Hname.
  intros Hu. pose proof (rmwf_ii _ Hres) as Hii.
  assert (Hty : typed_mapping (mapping_from pm)).
  { split; [cbn [mapping_from mm_ii]; unfold is_u32; lia|]. intros p Hp.
    apply elem_of_built_placements in Hp.
    destruct (placement_of _ _ _ Hc Hp) as [_ ([? ?] & [? _] & _)]. lia. }
  split; [done| | | |done|].
  - intros d Hd%elem_of_built_dependences.
    by destruct (cs_dependences _ Hc _ _ Hd) as (? & ? & ? & _ & _ & _ & _ & _ & _ & ? & _).
  - intros edge d producer ready He Hk Hd Hprod Hready.
    apply of_option_Ok, find_if_Some in Hd as [Hd Eid%Z.eqb_eq].
    apply elem_of_built_dependences in Hd.
    destruct (cs_dependences _ Hc _ _ Hd) as (e & src & dst & He' & Ee & _ & _ & _ & _ & _ & Hreal).
    assert (e = edge) as -> by (apply same_edge; [done..|congruence]).
    unfold TargetEdge_kind in Hk.
    assert (Hs : exists plan producer ready, md_requiredSeparationCycles d = tp_requiredSeparationCycles plan /\
      td_node dfg (te_src edge) = Ok producer /\ tn_producerOutputReadyOffset producer = Some ready /\
      tp_requiredSeparationCycles plan <= ready + longest_transport target ii).
    { destruct (te_info edge); [| |done];
        destruct Hreal as (plan & p' & r' & _ & _ & _ & ? & ? & ? & _ & _ & ?); by exists plan, p', r'. }
    destruct Hs as (plan & p' & r' & -> & Hp' & Hr' & Hle).
    rewrite Hprod in Hp'. injection Hp' as <-. rewrite Hready in Hr'. by injection Hr' as <-.
  - by apply (build_mapping_spec dfg ii _ _ completed_builds).
  - apply mmv_verify_complete; [by apply (rmwf_target _ Hres)|done|done|done|apply completed_valid].
Qed.
End Complete.

(** *** The search *)

Context (Huniverse : universe_fits target ii).
Context (Hchecker : checker_answers dfg target options ii).

(** Why a search may end without a mapping. *)
Definition gave_up (outcome : SearchOutcome) : Prop :=
  interrupted outcome \/ checker_aborts dfg target options ii outcome.

Lemma abort_outcome_failure reason : abort_outcome reason <> OutSuccess.
Proof using Type. unfold abort_outcome. by repeat case_match. Qed.

Lemma success_not_given_up : ~ gave_up OutSuccess.
Proof using Type. intros [[]|(? & ? & ? & _ & _ & _ & _ & _ & E)]. by apply abort_outcome_failure in E. Qed.

Lemma check_complete_spec m st :
  mst_mapping st = Some m -> mm_ii m = ii -> completed_mapping dfg target m ->
  exists outcome st', check_complete dfg target options ii m st = Ok (outcome, st') /\
    mst_partial st' = mst_partial st /\ (bounded st -> bounded st') /\
    (outcome = OutSuccess /\ (exists m, mst_mapping st' = Some m /\ verified_at dfg target options ii m) \/
     gave_up outcome).
Proof using Hchecker.
  intros Hm Hii Hdone. clear - Hchecker Hm Hii Hdone.
  unfold check_complete, gave_up, verified_at, accepted_by_checker, checker_aborts, checker_answers in *.
  destruct (mo_completeMappingChecker options) as [checker|].
  2:{ eexists _, _. split; [reflexivity|]. split_and!; try done. left. by eauto 10. }
  destruct (Hchecker checker m eq_refl Hii Hdone) as [r Hr]. rewrite Hr. cbn [mbind result_bind].
  destruct (cc_decision r) eqn:Ed; eexists _, _; (split; [reflexivity|]).
  - split_and!; try done. left. split; [done|]. exists m. split_and!; try done. by exists r.
  - split_and!; try done. right. by left.
  - split_and!; try done. right. right. by exists checker, m, r.
Qed.

Lemma complete_spec st :
  consistent (mst_partial st) -> closed (mst_partial st) -> all_placed (mst_partial st) ->
  exists outcome st', complete dfg target options ii st = Ok (outcome, st') /\
    mst_partial st' = mst_partial st /\ (bounded st -> bounded st') /\
    (outcome = OutSuccess /\ (exists m, mst_mapping st' = Some m /\ verified_at dfg target options ii m) \/
     gave_up outcome).
Proof using Hdfg Hres Hvalid Hname Huniverse Hchecker.
  intros Hc Hclosed Hall. unfold complete, mapper_materialize.
  rewrite (completed_builds _ Hc Hclosed Hall). cbv beta iota zeta.
  pose proof (completed_verified _ Hc Hclosed Hall Huniverse) as Hdone.
  rewrite (cm_verified _ _ _ Hdone).
  cbn [mbind result_bind]. rewrite bool_decide_eq_false_2 by (intros H; by apply H).
  set (m := mapping_from (mst_partial st)) in *.
  destruct (check_complete_spec m (count add_completed (set_mapping st (Some m))))
    as (outcome & st' & Hcheck & ? & ? & ?); try done. by exists outcome, st'.
Qed.

(** What a search from a consistent state comes to. *)
Definition search_result (st : MapperState) (r : result (option (SearchOutcome * MapperState))) : Prop :=
  exists outcome st', r = Ok (Some (outcome, st')) /\ bounded st' /\
    (outcome = OutSuccess /\ (exists m, mst_mapping st' = Some m /\ verified_at dfg target options ii m) \/
     gave_up outcome /\ mst_partial st' = mst_partial st).

Definition searchable (st : MapperState) : Prop :=
  consistent (mst_partial st) /\ closed (mst_partial st) /\ bounded st.

Lemma search_result_eq st st' r :
  mst_partial st' = mst_partial st -> search_result st' r -> search_result st r.
Proof using Type. unfold search_result. by intros ->. Qed.

Lemma rolled_back_ok delta st pm :
  rollback delta (mst_partial st) = Ok pm -> rolled_back delta st = Ok (set_partial st pm).
Proof using Type. unfold rolled_back. by intros ->. Qed.

Lemma bounded_eq st st' : mst_stats st' = mst_stats st -> bounded st -> bounded st'.
Proof using Type. unfold bounded. by intros ->. Qed.

Lemma try_candidates_spec recurse node values : forall st,
  searchable st -> node ∈ td_nodes dfg -> pm_placements (mst_partial st) !! tn_id node = None ->
  Forall (candidate_ok node) values ->
  (forall st' p, searchable st' ->
     pm_placements (mst_partial st') = <[tn_id node := p]> (pm_placements (mst_partial st)) ->
     search_result st' (recurse st')) ->
  search_result st (try_candidates dfg target options limits ii resources recurse (tn_id node) values st).
Proof using Hdfg Hres Hvalid Hname Hfit.
  clear Huniverse. clear Hchecker. induction values as [|c values IH]; intros st Hst Hn Hnone Hall Hrec; cbn [try_candidates].
  { eexists _, _. split; [reflexivity|]. split; [apply Hst|]. right. split; [by left|done]. }
  apply Forall_cons in Hall as [Hok Hall]. destruct Hst as (Hc & Hclosed & Hb).
  assert (Hnext : forall st', mst_partial st' = mst_partial st -> bounded st' ->
    search_result st (try_candidates dfg target options limits ii resources recurse (tn_id node) values st')).
  { intros st' E Hb'. eapply search_result_eq; [exact E|].
    apply IH; rewrite ?E; try done. split_and!; rewrite ?E; done. }
  assert (Hstop : forall outcome st', mst_partial st' = mst_partial st -> bounded st' -> gave_up outcome ->
    search_result st (Ok (Some (outcome, st')))).
  { intros outcome st' ???. exists outcome, st'. split; [done|]. split; [done|]. by right. }
  destruct (sl_nodeCandidateAttempts limits <=? _) eqn:Elim; [apply Hstop; [done|done|by left]|].
  apply Z.leb_gt in Elim. set (st1 := count add_candidateAttempt st).
  assert (bounded st1) as Hb1 by (unfold bounded in *; cbn; lia).
  destruct (tryCandidate_spec node c st1 Hc Hclosed Hb1 Hn Hnone Hok)
    as (outcome & delta & st2 & -> & Hb2 & Hcase); cbn [running mbind result_bind].
  change (mst_partial st1) with (mst_partial st) in *.
  destruct Hcase as [(-> & Hc2 & Hclosed2 & [p Hp] & Hroll)|[(-> & Hnil & E)|(Hint & Hne & Hroll)]].
  - destruct (Hrec st2 p) as (child & st3 & -> & Hb3 & Hchild); [by split|done|].
    cbn [running mbind result_bind].
    destruct Hchild as [[-> Hm]|[Hgave E3]].
    { rewrite bool_decide_eq_true_2 by done. exists OutSuccess, st3. split; [done|]. split; [done|]. by left. }
    rewrite bool_decide_eq_false_2 by (intros ->; by apply success_not_given_up).
    rewrite (rolled_back_ok _ _ (mst_partial st)) by (by rewrite E3). cbn [mbind result_bind].
    destruct (bool_decide_reflect (child = OutExhausted)) as [->|Hch]; cbn [negb].
    2:{ by apply Hstop. }
    destruct (sl_backtracks limits <=? _) eqn:Eb; [apply Hstop; [done|done|by left]|].
    apply Hnext; [done|]. apply Z.leb_gt in Eb. unfold bounded in *. cbn in *. lia.
  - rewrite Hnil. by apply Hnext.
  - assert (Hback : rolled_back delta st2 = Ok (set_partial st2 (mst_partial st))) by by apply rolled_back_ok.
    destruct outcome; try done; rewrite Hback; cbn [mbind result_bind].
    + destruct (delta_resources _) as [|i l]; [done|]. by apply Hnext.
    + by apply Hstop; [..|left].
    + by apply Hstop; [..|left].
Qed.

Lemma placements_known pm id :
  consistent pm -> is_Some (pm_placements pm !! id) -> id ∈ tn_id <$> td_nodes dfg.
Proof using Type.
  intros Hc [p Hp]. destruct (cs_placements _ Hc _ _ Hp) as (n & Hn & <- & _).
  by apply list_elem_of_fmap_2.
Qed.

Lemma placed_complete pm :
  consistent pm -> allNodesMapped dfg pm = true <-> all_placed pm.
Proof using Hdfg.
  intros Hc. unfold allNodesMapped. rewrite bool_decide_eq_true. split.
  - intros Hsize node Hn. eapply (map_keys_complete _ (tn_id <$> td_nodes dfg)).
    + apply td_nodes_NoDup, Hdfg.
    + by rewrite length_fmap.
    + intros k. by apply placements_known.
    + by apply list_elem_of_fmap_2.
  - intros Hall. rewrite <- (length_fmap tn_id), <- length_map_to_list.
    rewrite <- (map_items_length (pm_placements pm) (tn_id <$> td_nodes dfg)).
    + unfold map_items. by rewrite sort_by_length.
    + apply td_nodes_NoDup, Hdfg.
    + intros k. split; [by apply placements_known|].
      intros (n & -> & Hn)%list_elem_of_fmap. by apply Hall.
Qed.

(** Somewhere to go on, when the mapping is incomplete. *)
Lemma some_unplaced pm :
  consistent pm -> allNodesMapped dfg pm = false ->
  exists node, node ∈ td_nodes dfg /\ pm_placements pm !! tn_id node = None.
Proof using Hdfg.
  intros Hc Hnot.
  destruct (decide (Exists (fun node => pm_placements pm !! tn_id node = None) (td_nodes dfg)))
    as [(node & ? & ?)%Exists_exists|Hno]; [by exists node|].
  apply not_Exists_Forall in Hno; [|intros x; apply _].
  rewrite (proj2 (placed_complete pm Hc)) in Hnot; [done|].
  intros node Hn. rewrite Forall_forall in Hno. specialize (Hno _ Hn). simpl in Hno.
  by destruct (pm_placements pm !! tn_id node); [eexists|].
Qed.

Lemma mapper_search_spec fuel : forall depth st,
  searchable st -> (length (td_nodes dfg) < fuel + size (pm_placements (mst_partial st)))%nat ->
  search_result st (mapper_search dfg target options limits ii resources fuel depth st).
Proof using Hdfg Hres Hvalid Hname Hfit Huniverse Hchecker.
  induction fuel as [|fuel IH]; intros depth st Hst Hfuel.
  { exfalso. destruct Hst as (Hc & _). simpl in Hfuel.
    rewrite <- (length_fmap tn_id) in Hfuel. apply (Nat.lt_irrefl (size (pm_placements (mst_partial st)))).
    eapply Nat.le_lt_trans; [|exact Hfuel]. rewrite <- length_map_to_list, <- (length_fmap fst).
    apply submseteq_length, NoDup_submseteq; [apply NoDup_fst_map_to_list|].
    intros k ([k' p] & -> & Hin%elem_of_map_to_list)%list_elem_of_fmap.
    apply (placements_known _ _ Hc). by exists p. }
  cbn [mapper_search]. set (st1 := count (reach_depth depth) st).
  assert (searchable st1) as (Hc & Hclosed & Hb) by done.
  apply (search_result_eq st st1); [done|].
  change (mst_partial st) with (mst_partial st1) in Hfuel. clearbody st1. clear st Hst.
  destruct (allNodesMapped dfg (mst_partial st1)) eqn:Eall.
  { apply placed_complete in Eall; [|done].
    destruct (complete_spec st1 Hc Hclosed Eall) as (outcome & st' & -> & E & Hb' & Hcase).
    exists outcome, st'. cbn [mbind result_bind]. tauto. }
  destruct (some_unplaced _ Hc Eall) as (n & Hn & Hnone).
  destruct (selectNode_spec _ _ Hn Hnone) as (id & -> & Hid & node & Hnode & <-).
  cbn [mbind result_bind].
  destruct (candidates_spec (mst_partial st1) node Hnode) as (values & -> & Hvalues).
  cbn [mbind result_bind].
  destruct values as [|c values].
  { eexists _, _. split; [reflexivity|]. split; [done|]. right. split; [by left|done]. }
  apply try_candidates_spec; [done|done|done|by apply Forall_forall|].
  intros st' p Hst' Hp. apply IH; [done|]. rewrite Hp, map_size_insert_None by done. lia.
Qed.
End Search.
