(* ===== verification/ModuloMapperSound.v ===== *)
(** * What the modulo mapper promises

    The loop over the initiation intervals on top of [ModuloMapperCorrect]: the
    mapper always returns, a mapping it returns is verified, checked and no
    shorter than the MII, only the completion checker can make it fail
    internally, and it never spends more than its budget. *)
From stdpp Require Import base numbers list gmap strings.
From S2P Require Import Prelude.
From S2P Require Import TargetModel.
From S2P Require Import CgraV2.
From S2P Require Import TargetDFG.
From S2P Require Import TargetDFGVerifier.
From S2P Require Import ModuloResources.
From S2P Require Import ModuloMapping.
From S2P Require Import MappingVerifier.
From S2P Require Import RouteSearch.
From S2P Require Import RouteSearchExact.
From S2P Require Import MIIAnalyzer.
From S2P Require Import ModuloMapper.
From S2P Require Import ModuloMapperCorrect.

(** The first and the last interval a call tries. *)
Definition first_ii (options : ModuloMapperOptions) (mii : Z) : Z :=
  Z.max mii (if mo_minII options =? 0 then mii else mo_minII options).
Definition last_ii (options : ModuloMapperOptions) (mii : Z) : Z :=
  if mo_maxII options =? 0 then first_ii options mii else mo_maxII options.

(** The resources and the times of an interval stay below 2^32. *)
Definition interval_fits (dfg : TargetDFG) (target : TargetModel) (ii : Z) : Prop :=
  ii <= u32_max /\ universe_fits target ii /\
  forall node ready, node ∈ td_nodes dfg -> tn_producerOutputReadyOffset node = Some ready ->
    0 <= ready /\
    ready + (arr_rows (tm_array target) * arr_cols (tm_array target) * ii + 1) *
      net_hopLatency (tm_interconnect target) <= u32_max.

(** The statistics are within the budget. *)
Definition within_budget (budget : ModuloMapperBudget) (s : ModuloMapperStats) : Prop :=
  ms_nodeCandidateAttempts s <= mbu_maxNodeCandidateAttempts budget /\
  ms_backtracks s <= mbu_maxBacktracks budget /\
  ms_routeSearchCalls s <= mbu_maxRouteSearchCalls budget.

(** The share of an attempt covers what is spent and never exceeds the budget;
    the last attempt may spend everything. *)
Lemma fairShareLimit_bounds maximum used remaining :
  used <= maximum ->
  used <= fairShareLimit maximum used remaining <= maximum /\
  (remaining = 1 -> fairShareLimit maximum used remaining = maximum) /\
  (used < maximum -> used < fairShareLimit maximum used remaining).
Proof.
  intros Hle. unfold fairShareLimit. destruct (Z.leb_spec maximum used); [lia|].
  pose proof (Z.div_mod (maximum - used) 2). pose proof (Z.mod_pos_bound (maximum - used) 2).
  destruct (Z.eqb_spec remaining 1); lia.
Qed.

Section Loop.
Context (dfg : TargetDFG) (target : TargetModel) (options : ModuloMapperOptions).
Context (Hdfg : TargetDFG_inv dfg) (Htarget : TargetModel_wf target).

Context (Hvalid : TargetDFG_valid dfg target None) (Hname : td_targetName dfg = tm_name target).

Lemma attempt_spec limits ii stats diagnostics :
  0 < ii -> interval_fits dfg target ii -> checker_answers dfg target options ii ->
  (ms_nodeCandidateAttempts stats <= sl_nodeCandidateAttempts limits /\
   ms_backtracks stats <= sl_backtracks limits /\
   ms_routeSearchCalls stats <= sl_routeSearchCalls limits) ->
  exists outcome st, attempt_ii dfg target options limits ii stats diagnostics = Ok (Some (outcome, st)) /\
    (ms_nodeCandidateAttempts (mst_stats st) <= sl_nodeCandidateAttempts limits /\
     ms_backtracks (mst_stats st) <= sl_backtracks limits /\
     ms_routeSearchCalls (mst_stats st) <= sl_routeSearchCalls limits) /\
    match outcome with
    | OutSuccess => exists m, mst_mapping st = Some m /\ verified_at dfg target options ii m
    | OutExhausted | OutPerIIBudgetExceeded | OutRouteBudgetExceeded => True
    | OutBudgetExceeded | OutVerificationFailure | OutInternalError =>
        checker_aborts dfg target options ii outcome
    | OutPostMappingAbort => False
    end.
Proof using Hdfg Htarget Hvalid Hname.
  intros Hii (Hmax & Huniverse & Htimes) Hchecker Hb. unfold attempt_ii.
  destruct (makeResourceModel_spec target ii Htarget ltac:(lia) Huniverse)
    as (resources & -> & Hres & <- & <-). cbn [mbind result_bind].
  destruct (empty_consistent dfg resources) as [Hc Hclosed].
  destruct (mapper_search_spec dfg Hdfg resources Hres Hvalid Hname options limits Htimes Huniverse
    Hchecker (length (td_nodes dfg) + 1) 0
    (mkMapperState (mkPartial ∅ ∅ (makeReservationTable resources)) None false stats diagnostics))
    as (outcome & st & Hrun & Hb' & Hcase); [by split|lia|].
  exists outcome, st. split; [exact Hrun|]. split; [exact Hb'|].
  destruct Hcase as [[-> Hm]|[[Hint|Habort] _]]; [exact Hm|by destruct outcome|].
  destruct outcome; try exact Habort; destruct Habort as (? & ? & ? & _ & _ & _ & _ & _ & E);
    unfold abort_outcome in E; by repeat case_match.
Qed.

(** How a loop over the intervals [lo] to [hi] may end. *)
Definition loop_outcome (lo hi : Z) (res : ModuloMapperResult) : Prop :=
  match mpr_status res with
  | MapSuccess => exists m, mpr_mapping res = Some m /\ lo <= mm_ii m <= hi /\
      ms_finalII (mpr_stats res) = mm_ii m /\ verified_at dfg target options (mm_ii m) m
  | MapNoMappingWithinIILimit | MapRouteBudgetExceeded | MapBudgetExceeded => mpr_mapping res = None
  | MapVerificationFailure => mpr_mapping res = None /\
      exists ii, lo <= ii <= hi /\ checker_aborts dfg target options ii OutVerificationFailure
  | MapInternalError => mpr_mapping res = None /\
      exists ii, lo <= ii <= hi /\ checker_aborts dfg target options ii OutInternalError
  | MapInvalidTargetDFG | MapMIIAnalysisFailure | MapTargetContractError => False
  end.

Lemma loop_outcome_mono lo lo' hi res : lo' <= lo -> loop_outcome lo hi res -> loop_outcome lo' hi res.
Proof using Type.
  intros Hle. unfold loop_outcome. destruct (mpr_status res); try done.
  - intros (m & ? & ? & ? & ?). exists m. split_and!; try done; lia.
  - intros (? & i & ? & ?). split; [done|]. exists i. split; [lia|done].
  - intros (? & i & ? & ?). split; [done|]. exists i. split; [lia|done].
Qed.

Lemma map_loop_spec n : forall ii exceeded stats diagnostics hi,
  hi = ii + Z.of_nat n - 1 -> 0 < ii -> (forall i, ii <= i <= hi -> interval_fits dfg target i) ->
  (forall i, ii <= i <= hi -> checker_answers dfg target options i) ->
  within_budget (mo_budget options) stats ->
  exists res, map_loop dfg target options hi (seqZ ii (Z.of_nat n)) exceeded stats diagnostics =
      Ok (Some res) /\
    within_budget (mo_budget options) (mpr_stats res) /\ loop_outcome ii hi res.
Proof using Hdfg Htarget Hvalid Hname.
  induction n as [|n IH]; intros ii exceeded stats diagnostics hi Hhi Hii Hfits Hchecker Hb.
  { rewrite seqZ_nil by lia. cbn [map_loop]. destruct exceeded; eexists; by split_and!. }
  rewrite seqZ_cons by lia. replace (Z.pred (Z.of_nat (S n))) with (Z.of_nat n) by lia.
  change (Z.succ ii) with (ii + 1). cbn [map_loop].
  assert (wrap32 ii = ii) as ->.
  { apply wrap32_id. destruct (Hfits ii ltac:(lia)) as [? _]. split; lia. }
  set (limits := mkLimits _ _ _).
  assert (Hlim : forall s, within_budget (mkMapperBudget (sl_nodeCandidateAttempts limits)
      (sl_backtracks limits) (sl_routeSearchCalls limits) default_route_budget) s ->
    within_budget (mo_budget options) s).
  { unfold within_budget in *. cbn. intros s (H1 & H2 & H3). destruct Hb as (B1 & B2 & B3).
    apply (fairShareLimit_bounds _ _ (hi - ii + 1)) in B1, B2, B3.
    unfold limits in H1, H2, H3. cbn in *. lia. }
  destruct (attempt_spec limits ii (add_iiAttempt stats) diagnostics)
    as (outcome & st & -> & Hb' & Hout); [done|apply Hfits; lia|apply Hchecker; lia| |].
  { unfold limits. cbn. destruct Hb as (B1 & B2 & B3).
    split_and!; by apply fairShareLimit_bounds. }
  cbn [running mbind result_bind]. assert (Hb2 : within_budget (mo_budget options)
    (finishing_at ii (mst_stats st))) by by apply Hlim.
  destruct outcome.
  - destruct Hout as (m & -> & Hm). eexists. split; [reflexivity|]. split; [done|].
    exists m. destruct Hm as [<- Hm]. split_and!; try done; lia.
  - destruct (IH (ii + 1) exceeded (finishing_at ii (mst_stats st)) (mst_diagnostics st) hi)
      as (res & -> & ? & Hres); try done; try lia; [intros; apply Hfits; lia|intros; apply Hchecker; lia|].
    exists res. split_and!; try done. eapply loop_outcome_mono; [|exact Hres]. lia.
  - destruct (IH (ii + 1) true (finishing_at ii (mst_stats st)) (mst_diagnostics st) hi)
      as (res & -> & ? & Hres); try done; try lia; [intros; apply Hfits; lia|intros; apply Hchecker; lia|].
    exists res. split_and!; try done. eapply loop_outcome_mono; [|exact Hres]. lia.
  - eexists. split; [reflexivity|]. done.
  - eexists. split; [reflexivity|]. done.
  - eexists. split; [reflexivity|]. split; [done|]. split; [done|]. exists ii. split; [lia|done].
  - eexists. split; [reflexivity|]. split; [done|]. split; [done|]. exists ii. split; [lia|done].
  - done.
Qed.
End Loop.

(** The options are unsigned in the code. *)
Definition typed_options (options : ModuloMapperOptions) : Prop :=
  0 <= mo_minII options /\ 0 <= mo_maxII options /\
  within_budget (mo_budget options) no_mapper_stats.

Definition window_fits (dfg : TargetDFG) (target : TargetModel) (options : ModuloMapperOptions) : Prop :=
  forall r ii, analyze dfg target = Ok r ->
    first_ii options (mr_mii r) <= ii <= last_ii options (mr_mii r) -> interval_fits dfg target ii.

(** The completion checker answers for every completed mapping of the window. *)
Definition checker_total (dfg : TargetDFG) (target : TargetModel) (options : ModuloMapperOptions) : Prop :=
  forall r ii, analyze dfg target = Ok r ->
    first_ii options (mr_mii r) <= ii <= last_ii options (mr_mii r) -> checker_answers dfg target options ii.

(** What the mapper answers after the analysis [r]. *)
Definition mapper_outcome (dfg : TargetDFG) (target : TargetModel) (options : ModuloMapperOptions)
    (r : MIIResult) (res : ModuloMapperResult) : Prop :=
  match mpr_status res with
  | MapInvalidTargetDFG => mr_status r = MIIInvalidTargetDFG /\ mpr_mapping res = None
  | MapMIIAnalysisFailure => mpr_mapping res = None /\
      (mr_status r ∈ [MIIUnschedulableZeroDistanceCycle; MIINoCompatibleResource; MIIInternalError] \/
       mr_mii r = u32_max)
  | MapTargetContractError => False
  | _ => mr_status r = MIISuccess /\
      loop_outcome dfg target options (first_ii options (mr_mii r)) (last_ii options (mr_mii r)) res
  end.

Lemma map_spec dfg target options :
  TargetDFG_inv dfg -> TargetModel_wf target -> typed_graph dfg -> typed_options options ->
  checker_total dfg target options -> window_fits dfg target options ->
  exists r res, analyze dfg target = Ok r /\ map dfg target options = Ok (Some res) /\
    mapper_outcome dfg target options r res /\ within_budget (mo_budget options) (mpr_stats res).
Proof.
  intros Hdfg Htarget Htyped (Hmin & Hmax & Hb) Hchecker Hwindow.
  destruct (analyze_spec dfg target Hdfg Htarget Htyped) as (r & Hr & Hexact).
  specialize (Hwindow r). specialize (Hchecker r). exists r. unfold map. rewrite Hr. cbn [mbind result_bind].
  unfold analysis_exact in Hexact. unfold mapper_outcome.
  destruct (mr_status r) eqn:Est; try (eexists; split; [done|]; split; [reflexivity|]; split; [|done];
    cbn; split; [done|]; try done; left; set_solver); [|done].
  destruct Hexact as (Hvalid & Hname & Hone & _).
  destruct (Z.eqb_spec (mr_mii r) u32_max) as [Eu|Hu].
  { rewrite orb_true_r. eexists. split; [done|]. split; [reflexivity|]. split; [|done].
    cbn. split; [done|by right]. }
  replace (mr_mii r =? 0) with false by lia. cbn [orb].
  fold (first_ii options (mr_mii r)). fold (last_ii options (mr_mii r)).
  set (lo := first_ii options (mr_mii r)) in *. set (hi := last_ii options (mr_mii r)) in *.
  assert (mr_mii r <= lo) by (unfold lo, first_ii; lia).
  destruct (Z.ltb_spec hi lo).
  { eexists. split; [done|]. split; [reflexivity|]. done. }
  destruct (map_loop_spec dfg target options Hdfg Htarget Hvalid Hname
    (Z.to_nat (hi - lo + 1)) lo false (starting_at (mr_mii r) no_mapper_stats) [] hi)
    as (res & Hrun & Hb' & Hout); [lia|lia| | |done|].
  { intros i Hi. by apply Hwindow. }
  { intros i Hi. by apply Hchecker. }
  rewrite Z2Nat.id in Hrun by lia. exists res. split_and!; try done.
  unfold loop_outcome in Hout. unfold loop_outcome. destruct (mpr_status res); done.
Qed.


(** C27: The global budgets bound the whole run over all intervals: the candidate
    attempts, the backtracks and the route searches counted in the statistics of
    a result never exceed the budget of the options, whatever share each interval
    was granted. *)
Theorem map_respects_budget dfg target options res :
  TargetDFG_inv dfg -> TargetModel_wf target -> typed_graph dfg -> typed_options options ->
  checker_total dfg target options -> window_fits dfg target options ->
  map dfg target options = Ok (Some res) ->
  within_budget (mo_budget options) (mpr_stats res).
Proof.
  intros H1 H2 H3 H4 H5 H6 Hres.
  destruct (map_spec dfg target options H1 H2 H3 H4 H5 H6) as (r & res' & _ & Hmap & _ & Hb).
  congruence.
Qed.

(** *** The accumulation kernel on [cgra_v2], with a checker that accepts *)

Definition v2_mapper_options : ModuloMapperOptions :=
  mkMapperOptions 4 0 default_mapper_budget (mkRouteOptions default_route_budget true)
    (Some (fun _ _ _ => Ok (mkCheckResult Accept ""))).

Lemma v2_options_typed : typed_options v2_mapper_options.
Proof. vm_compute. by repeat split. Qed.

Lemma v2_checker_total : checker_total v2_accumulate cgra_v2 v2_mapper_options.
Proof. intros r ii _ _ checker m [= <-] _ _. by eexists. Qed.

Lemma v2_interval_fits : interval_fits v2_accumulate cgra_v2 4.
Proof.
  split; [by vm_compute|]. split; [by vm_compute|]. intros node ready Hnode Hr.
  assert (forallb (fun node => match tn_producerOutputReadyOffset node with
    Some r => (0 <=? r) && (r <=? 10) | None => true end) (td_nodes v2_accumulate) = true) as H
    by (vm_compute; reflexivity).
  apply list_elem_of_In in Hnode. apply (proj1 (forallb_forall _ _) H) in Hnode. rewrite Hr in Hnode.
  assert (E : (arr_rows (tm_array cgra_v2) * arr_cols (tm_array cgra_v2) * 4 + 1) *
    net_hopLatency (tm_interconnect cgra_v2) = 65) by (vm_compute; reflexivity).
  rewrite E. unfold u32_max. lia.
Qed.

Lemma v2_window_fits : window_fits v2_accumulate cgra_v2 v2_mapper_options.
Proof.
  intros r ii Hr Hii.
  assert (E : match analyze v2_accumulate cgra_v2 with
    Ok r => (first_ii v2_mapper_options (mr_mii r), last_ii v2_mapper_options (mr_mii r))
    | Throw _ => (0, 0) end = (4, 4)) by (vm_compute; reflexivity).
  rewrite Hr in E. pose proof (f_equal fst E) as E1. pose proof (f_equal snd E) as E2.
  cbn [fst snd] in E1, E2. rewrite E1, E2 in Hii.
  assert (ii = 4) as -> by lia. exact v2_interval_fits.
Qed.


Lemma map_respects_budget_witness :
  exists res, map v2_accumulate cgra_v2 v2_mapper_options = Ok (Some res) /\
    within_budget (mo_budget v2_mapper_options) (mpr_stats res).
Proof.
  eexists. split; [vm_compute; reflexivity|].
  eapply (map_respects_budget v2_accumulate cgra_v2 v2_mapper_options).
  - exact v2_accumulate_inv.
  - exact cgra_v2_wf.
  - exact v2_accumulate_typed.
  - exact v2_options_typed.
  - exact v2_checker_total.
  - exact v2_window_fits.
  - vm_compute. reflexivity.
Defined.

Definition result_summary (r : result (option ModuloMapperResult)) : option (ModuloMapperStatus * Z * Z) :=
  match r with
  | Ok (Some res) => Some (mpr_status res, ms_finalII (mpr_stats res), ms_nodeCandidateAttempts (mpr_stats res))
  | _ => None
  end.

(** The mapper succeeds at the MII with its fourth candidate. *)
Example v2_accumulate_mapped :
  result_summary (map v2_accumulate cgra_v2 v2_mapper_options) = Some (MapSuccess, 4, 4).
Proof. vm_compute. reflexivity. Qed.

(** With two candidate attempts it runs out of budget. *)
Example v2_accumulate_out_of_budget :
  result_summary (map v2_accumulate cgra_v2
     (mkMapperOptions 4 0 (mkMapperBudget 2 3 100 default_route_budget)
        (mkRouteOptions default_route_budget true) None)) = Some (MapBudgetExceeded, 4, 2).
Proof. vm_compute. reflexivity. Qed.
