(* ===== verification/StageScheduler.v ===== *)
(** * Pipeline stages

    Models [compiler/{include/cgra,lib}/Schedule/]: [StageConstraint.h],
    [StagedMapping.{h,cpp}], [StageScheduler.{h,cpp}] with its result type and
    [StageAssignmentVerifier.{h,cpp}].  The scheduler turns the slots of a modulo
    mapping into stage constraints, relaxes them to the least stages, and checks
    the outcome with the independent verifier. *)
From stdpp Require Import base numbers list gmap sorting strings.
From S2P Require Import Prelude.
From S2P Require Import IR.
From S2P Require Import DFG.
From S2P Require Import TargetModel.
From S2P Require Import CgraV2.
From S2P Require Import TargetDFG.
From S2P Require Import TargetDFGVerifier.
From S2P Require Import ModuloResources.
From S2P Require Import ModuloMapping.
From S2P Require Import MappingVerifier.
From S2P Require Import DiffConstraints.
From S2P Require Import MIIAnalyzer.

Record NodeStage := mkNodeStage {
  ns_node : Z;
  ns_stage : Z
}.

Record StageConstraint := mkStageConstraint {
  sc_edge : Z;
  sc_src : Z;
  sc_dst : Z;
  sc_minimumStageDelta : Z;
  sc_distance : Z;
  sc_requiredSeparationCycles : Z
}.

(** ** Staged mappings *)

Record StagedMapping := mkStagedMapping {
  sm_modulo : ModuloMapping;
  sm_stages : list NodeStage;
  sm_maxStage : Z
}.

(** Neighbours in the sorted vector with equal nodes. *)
Fixpoint adjacent_duplicate (stages : list NodeStage) : bool :=
  match stages with
  | previous :: ((current :: _) as rest) =>
      (ns_node previous =? ns_node current) || adjacent_duplicate rest
  | _ => false
  end.

Definition StagedMapping_new (modulo : ModuloMapping) (stages : list NodeStage)
  : result StagedMapping :=
  let stages := sort_by ns_node stages in
  if adjacent_duplicate stages then Throw InvalidArgument
  else Ok (mkStagedMapping modulo stages (foldl Z.max 0 (ns_stage <$> stages))).

Section StagedReaders.
Context (m : StagedMapping).

(** [std::lower_bound] on the sorted vector. *)
Definition stage (node : Z) : result Z :=
  match find_if (fun entry => node <=? ns_node entry) (sm_stages m) with
  | Some found => if ns_node found =? node then Ok (ns_stage found) else Throw OutOfRange
  | None => Throw OutOfRange
  end.

Definition logicalIssueTime (node : Z) : result Z :=
  p ← placement (sm_modulo m) node;
  stageValue ← stage node;
  let ii := mm_ii (sm_modulo m) in
  if negb (ii =? 0) && ((u64_max - np_issueSlot p) / ii <? stageValue) then Throw OverflowError
  else
    let wave := wrap64 (stageValue * ii) in
    if u64_max - np_issueSlot p <? wave then Throw OverflowError
    else Ok (wave + np_issueSlot p).
End StagedReaders.

(** ** Stage constraints *)

Definition ceilDivSigned (numerator positiveDenominator : Z) : result Z :=
  if positiveDenominator <=? 0 then Throw InvalidArgument
  else
    let quotient := Z.quot numerator positiveDenominator in
    let remainder := Z.rem numerator positiveDenominator in
    if negb (remainder =? 0) && (0 <? numerator) then
      if quotient =? i64_max then Throw OverflowError else Ok (quotient + 1)
    else Ok quotient.

Definition checkedSignedAdd (lhs rhs : Z) : option Z :=
  if ((0 <? rhs) && (i64_max - rhs <? lhs)) || ((rhs <? 0) && (lhs <? i64_min - rhs))
  then None else Some (lhs + rhs).

(** The constraint of one edge; [None] is the overflow of the distance
    subtraction. *)
Definition stage_constraint (m : ModuloMapping) (edge : TargetEdge)
  : result (option StageConstraint) :=
  source ← placement m (te_src edge);
  destination ← placement m (te_dst edge);
  dep ← dependence m (te_id edge);
  let slotDifference := np_issueSlot destination - np_issueSlot source in
  let numerator := md_requiredSeparationCycles dep - slotDifference in
  delta ← ceilDivSigned numerator (mm_ii m);
  if (delta <? te_distance edge) && (delta <? i64_min + te_distance edge) then Ok None
  else Ok (Some (mkStageConstraint (te_id edge) (te_src edge) (te_dst edge)
                   (delta - te_distance edge) (te_distance edge)
                   (md_requiredSeparationCycles dep))).

(** The constraints in edge order, or the edge whose distance overflowed. *)
Fixpoint stage_constraints (m : ModuloMapping) (edges : list TargetEdge)
  : result (Z + list StageConstraint) :=
  match edges with
  | [] => Ok (inr [])
  | edge :: edges =>
      constraint ← stage_constraint m edge;
      match constraint with
      | None => Ok (inl (te_id edge))
      | Some c =>
          rest ← stage_constraints m edges;
          match rest with
          | inl failed => Ok (inl failed)
          | inr cs => Ok (inr (c :: cs))
          end
      end
  end.

(** ** Relaxation *)

Record RelaxState := mkRelaxState {
  rx_stages : list Z;
  rx_predecessor : list (option nat);
  rx_predecessorEdge : list (option Z);
  rx_lastUpdated : option nat;
  rx_relaxations : Z
}.

(** One constraint; [inl] gives the node and edge of an overflow and the
    relaxations counted so far.  [changed] of
    the code is [lastUpdated.has_value()]: both are reset per round and set
    together. *)
Definition stage_relax (dfg : TargetDFG) (st : RelaxState) (c : StageConstraint)
  : result ((Z * Z * Z) + RelaxState) :=
  source ← of_option OutOfRange (node_index dfg (sc_src c));
  destination ← of_option OutOfRange (node_index dfg (sc_dst c));
  if i64_max <? rx_stages st !!! source then Ok (inl (sc_dst c, sc_edge c, rx_relaxations st))
  else match checkedSignedAdd (rx_stages st !!! source) (sc_minimumStageDelta c) with
  | None => Ok (inl (sc_dst c, sc_edge c, rx_relaxations st))
  | Some candidate =>
      if (0 <? candidate) && (rx_stages st !!! destination <? candidate) then
        Ok (inr (mkRelaxState (<[destination := candidate]> (rx_stages st))
                   (<[destination := Some source]> (rx_predecessor st))
                   (<[destination := Some (sc_edge c)]> (rx_predecessorEdge st))
                   (Some destination) (rx_relaxations st + 1)))
      else Ok (inr st)
  end.

Fixpoint relax_all (dfg : TargetDFG) (st : RelaxState) (cs : list StageConstraint)
  : result ((Z * Z * Z) + RelaxState) :=
  match cs with
  | [] => Ok (inr st)
  | c :: cs =>
      next ← stage_relax dfg st c;
      match next with
      | inl failed => Ok (inl failed)
      | inr st => relax_all dfg st cs
      end
  end.

Inductive RelaxOutcome :=
  | RelaxStable (st : RelaxState) (rounds : Z)
  | RelaxInfeasible (st : RelaxState) (last : nat) (rounds : Z)
  | RelaxOverflow (node edge : Z) (relaxations rounds : Z).

(** The rounds: [remaining] counts down from the number of nodes. *)
Fixpoint relax_rounds (dfg : TargetDFG) (cs : list StageConstraint) (remaining : nat)
    (done_rounds : Z) (st : RelaxState) : result RelaxOutcome :=
  match remaining with
  | O => Ok (RelaxStable st done_rounds)
  | S remaining =>
      next ← relax_all dfg (mkRelaxState (rx_stages st) (rx_predecessor st)
               (rx_predecessorEdge st) None (rx_relaxations st)) cs;
      match next with
      | inl (node, edge, relaxations) => Ok (RelaxOverflow node edge relaxations done_rounds)
      | inr st' =>
          match rx_lastUpdated st' with
          | None => Ok (RelaxStable st' (done_rounds + 1))
          | Some last =>
              if (remaining =? 0)%nat then Ok (RelaxInfeasible st' last (done_rounds + 1))
              else relax_rounds dfg cs remaining (done_rounds + 1) st'
          end
      end
  end.

(** ** The witness of an infeasible system *)

Record StageConstraintCycleWitness := mkCycleWitness {
  cw_nodes : list Z;
  cw_edges : list Z;
  cw_totalMinimumStageDelta : Z
}.

(** [predecessor] and [predecessorEdge] of a node, when both are set. *)
Definition predecessor_of (st : RelaxState) (node : nat) : option (nat * Z) :=
  previous ← mjoin (rx_predecessor st !! node);
  edge ← mjoin (rx_predecessorEdge st !! node);
  Some (previous, edge).

Fixpoint stage_walk_back (st : RelaxState) (count : nat) (node : nat) : option nat :=
  match count with
  | O => Some node
  | S count => previous ← predecessor_of st node; stage_walk_back st count previous.1
  end.

(** The [do ... while] loop; the number of nodes bounds it. *)
Fixpoint stage_collect (nodes : list Z) (st : RelaxState) (fuel : nat) (start current : nat)
    (cycleNodes cycleEdges : list Z) : option (list Z * list Z) :=
  match fuel with
  | O => None
  | S fuel =>
      previous ← predecessor_of st current;
      let cycleNodes := cycleNodes ++ [nodes !!! current] in
      let cycleEdges := cycleEdges ++ [previous.2] in
      if negb (previous.1 =? start)%nat && (length cycleNodes <=? length nodes)%nat
      then stage_collect nodes st fuel start previous.1 cycleNodes cycleEdges
      else if (previous.1 =? start)%nat then Some (cycleNodes, cycleEdges) else None
  end.

(** [std::min_element]: the position of the first least element. *)
Definition min_position (l : list Z) : nat :=
  default 0%nat (fst <$> list_find (fun x => Forall (fun y => x <= y) l) l).

Definition rotate {A} (k : nat) (l : list A) : list A := drop k l ++ take k l.

Definition total_delta (cs : list StageConstraint) (edges : list Z) : option Z :=
  foldl (fun total edge =>
    total ← total;
    c ← find_if (fun c => sc_edge c =? edge) cs;
    checkedSignedAdd total (sc_minimumStageDelta c)) (Some 0) edges.

Definition witnessFor (nodes : list Z) (st : RelaxState) (updated : nat)
    (byEdge : list StageConstraint) : option StageConstraintCycleWitness :=
  if (length nodes =? 0)%nat then None
  else
    _ ← predecessor_of st updated;
    start ← stage_walk_back st (length nodes) updated;
    cycle ← stage_collect nodes st (length nodes + 2) start start [] [];
    let rotateBy := min_position cycle.1 in
    let cycleEdges := rotate rotateBy cycle.2 in
    total ← total_delta byEdge cycleEdges;
    Some (mkCycleWitness (rotate rotateBy cycle.1) cycleEdges total).

(** ** The assignment verifier *)

Inductive StageAssignmentDiagnosticCode :=
  | SA_INVALID_TARGET_DFG
  | SA_INVALID_MODULO_MAPPING
  | SA_UNKNOWN_NODE
  | SA_MISSING_STAGE
  | SA_DUPLICATE_STAGE
  | SA_OUTPUT_ARITHMETIC_OVERFLOW
  | SA_CONSTRAINT_VIOLATION.

Record StageAssignmentDiagnostic := mkSA {
  sa_code : StageAssignmentDiagnosticCode;
  sa_node : option Z;
  sa_edge : option Z
}.

(** [None] is the overflow the code reports. *)
Definition checkedMultiplyAdd (lhs multiplier addend : Z) : option Z :=
  if negb (multiplier =? 0) && ((u64_max - addend) / multiplier <? lhs) then None
  else Some (wrap64 (lhs * multiplier + addend)).

Section VerifyAssignment.
Context (dfg : TargetDFG) (target : TargetModel) (staged : StagedMapping).

Definition stage_coverage_diags : list StageAssignmentDiagnostic :=
  when (negb (length (sm_stages staged) =? length (td_nodes dfg))%nat)
    [mkSA SA_MISSING_STAGE None None] ++
  flat_map (fun entry => when (negb (containsNode dfg (ns_node entry)))
    [mkSA SA_UNKNOWN_NODE (Some (ns_node entry)) None]) (sm_stages staged) ++
  flat_map (fun node =>
    match find_if (fun entry => ns_node entry =? tn_id node) (sm_stages staged) with
    | Some _ => []
    | None => [mkSA SA_MISSING_STAGE (Some (tn_id node)) None]
    end) (td_nodes dfg).

(** The logical times by node, with the diagnostics of the failing ones. *)
Fixpoint logical_times (nodes : list TargetNode) (times : gmap Z Z)
    (diags : list StageAssignmentDiagnostic)
  : result (gmap Z Z * list StageAssignmentDiagnostic) :=
  match nodes with
  | [] => Ok (times, diags)
  | node :: nodes =>
      match logicalIssueTime staged (tn_id node) with
      | Ok time =>
          logical_times nodes
            (match times !! tn_id node with Some _ => times | None => <[tn_id node := time]> times end)
            diags
      | Throw OverflowError =>
          logical_times nodes times
            (diags ++ [mkSA SA_OUTPUT_ARITHMETIC_OVERFLOW (Some (tn_id node)) None])
      | Throw OutOfRange =>
          logical_times nodes times (diags ++ [mkSA SA_MISSING_STAGE (Some (tn_id node)) None])
      | Throw e => Throw e
      end
  end.

Definition edge_time_diags (times : gmap Z Z) (edge : TargetEdge)
  : result (list StageAssignmentDiagnostic) :=
  src ← of_option OutOfRange (times !! te_src edge);
  dst ← of_option OutOfRange (times !! te_dst edge);
  match checkedMultiplyAdd (te_distance edge) (mm_ii (sm_modulo staged)) dst with
  | None => Ok [mkSA SA_OUTPUT_ARITHMETIC_OVERFLOW None (Some (te_id edge))]
  | Some lhs =>
      dep ← dependence (sm_modulo staged) (te_id edge);
      let separation := md_requiredSeparationCycles dep in
      if u64_max - separation <? src
      then Ok [mkSA SA_OUTPUT_ARITHMETIC_OVERFLOW None (Some (te_id edge))]
      else Ok (when (lhs <? src + separation)
                 [mkSA SA_CONSTRAINT_VIOLATION None (Some (te_id edge))])
  end.

Fixpoint all_edge_time_diags (times : gmap Z Z) (edges : list TargetEdge)
  : result (list StageAssignmentDiagnostic) :=
  match edges with
  | [] => Ok []
  | edge :: edges =>
      diags ← edge_time_diags times edge;
      rest ← all_edge_time_diags times edges;
      Ok (diags ++ rest)
  end.

Definition sav_verify : result (list StageAssignmentDiagnostic) :=
  targetReport ← tdfg_verify dfg target None;
  if negb (bool_decide (targetReport = [])) then Ok [mkSA SA_INVALID_TARGET_DFG None None]
  else if negb (String.eqb (td_targetName dfg) (tm_name target))
  then Ok [mkSA SA_INVALID_TARGET_DFG None None]
  else
    moduloReport ← mmv_verify dfg target (sm_modulo staged);
    if negb (bool_decide (moduloReport = [])) then Ok [mkSA SA_INVALID_MODULO_MAPPING None None]
    else match stage_coverage_diags with
    | (_ :: _) as diags => Ok diags
    | [] =>
        '(times, diags) ← logical_times (td_nodes dfg) ∅ [];
        match diags with
        | _ :: _ => Ok diags
        | [] =>
            if mm_ii (sm_modulo staged) =? 0
            then Ok [mkSA SA_INVALID_MODULO_MAPPING None None]
            else all_edge_time_diags times (td_edges dfg)
        end
    end.
End VerifyAssignment.

(** ** The scheduler *)

Inductive StageSchedulingStatus :=
  | StageSuccess
  | StageInvalidTargetDFG
  | StageInvalidModuloMapping
  | StageInfeasibleStageConstraints
  | StageArithmeticOverflow
  | StageVerificationFailure
  | StageInternalError.

Inductive StageSchedulingDiagnosticCode :=
  | STAGE_INVALID_TARGET_DFG
  | STAGE_INVALID_MODULO_MAPPING
  | STAGE_UNKNOWN_NODE
  | STAGE_UNKNOWN_EDGE
  | STAGE_MISSING_STAGE
  | STAGE_DUPLICATE_STAGE
  | STAGE_CONSTRAINT_ARITHMETIC_OVERFLOW
  | STAGE_INFEASIBLE_POSITIVE_CYCLE
  | STAGE_OUTPUT_ARITHMETIC_OVERFLOW
  | STAGE_FINAL_VERIFICATION_FAILED
  | STAGE_INTERNAL_ERROR.

Record StageSchedulingDiagnostic := mkStageDiag {
  sd_code : StageSchedulingDiagnosticCode;
  sd_node : option Z;
  sd_edge : option Z
}.

Record StageSchedulingStats := mkStageStats {
  st_constraints : Z;
  st_relaxationRounds : Z;
  st_successfulRelaxations : Z;
  st_maxStage : Z;
  st_maxLogicalIssueTime : Z
}.

Record StageSchedulingResult := mkStageResult {
  sr_status : StageSchedulingStatus;
  sr_mapping : option StagedMapping;
  sr_stats : StageSchedulingStats;
  sr_witness : option StageConstraintCycleWitness;
  sr_diagnostics : list StageSchedulingDiagnostic
}.

Definition no_stats : StageSchedulingStats := mkStageStats 0 0 0 0 0.

Definition stage_failure (status : StageSchedulingStatus) (stats : StageSchedulingStats)
    (code : StageSchedulingDiagnosticCode) (node edge : option Z) : StageSchedulingResult :=
  mkStageResult status None stats None [mkStageDiag code node edge].

(** The largest logical issue time seen, and the exception that cut the loop
    short, if any. *)
Fixpoint max_issue_time (staged : StagedMapping) (nodes : list TargetNode) (acc : Z)
  : Z * option exn :=
  match nodes with
  | [] => (acc, None)
  | node :: nodes =>
      match logicalIssueTime staged (tn_id node) with
      | Ok time => max_issue_time staged nodes (Z.max acc time)
      | Throw e => (acc, Some e)
      end
  end.

(** What the handlers of the last block make of an exception. *)
Definition stage_exception (stats : StageSchedulingStats) (e : exn) : StageSchedulingResult :=
  match e with
  | OverflowError =>
      stage_failure StageArithmeticOverflow stats STAGE_OUTPUT_ARITHMETIC_OVERFLOW None None
  | _ => stage_failure StageInternalError stats STAGE_INTERNAL_ERROR None None
  end.

(** From the final stages to the result: assignments, times, verification. *)
Definition finish_stages (dfg : TargetDFG) (target : TargetModel) (mapping : ModuloMapping)
    (stats : StageSchedulingStats) (stages : list Z) : StageSchedulingResult :=
  match StagedMapping_new mapping (zip_with mkNodeStage (node_indices dfg) stages) with
  | Throw e => stage_exception stats e
  | Ok staged =>
      let '(maxTime, failed) := max_issue_time staged (td_nodes dfg) 0 in
      let stats := mkStageStats (st_constraints stats) (st_relaxationRounds stats)
                     (st_successfulRelaxations stats) (sm_maxStage staged) maxTime in
      match failed with
      | Some e => stage_exception stats e
      | None =>
          match sav_verify dfg target staged with
          | Throw e => stage_exception stats e
          | Ok [] => mkStageResult StageSuccess (Some staged) stats None []
          | Ok _ => stage_failure StageVerificationFailure stats
                      STAGE_FINAL_VERIFICATION_FAILED None None
          end
      end
  end.

Definition schedule (dfg : TargetDFG) (target : TargetModel) (mapping : ModuloMapping)
  : result StageSchedulingResult :=
  targetReport ← tdfg_verify dfg target None;
  if negb (bool_decide (targetReport = []))
  then Ok (stage_failure StageInvalidTargetDFG no_stats STAGE_INVALID_TARGET_DFG None None)
  else if negb (String.eqb (td_targetName dfg) (tm_name target))
  then Ok (stage_failure StageInvalidTargetDFG no_stats STAGE_INVALID_TARGET_DFG None None)
  else if mm_ii mapping =? 0
  then Ok (stage_failure StageInvalidModuloMapping no_stats STAGE_INVALID_MODULO_MAPPING None None)
  else
    moduloReport ← mmv_verify dfg target mapping;
    if negb (bool_decide (moduloReport = []))
    then Ok (stage_failure StageInvalidModuloMapping no_stats STAGE_INVALID_MODULO_MAPPING None None)
    else match stage_constraints mapping (td_edges dfg) with
    | Throw OverflowError =>
        Ok (stage_failure StageArithmeticOverflow no_stats
              STAGE_CONSTRAINT_ARITHMETIC_OVERFLOW None None)
    | Throw OutOfRange =>
        Ok (stage_failure StageInvalidModuloMapping no_stats STAGE_INVALID_MODULO_MAPPING None None)
    | Throw e => Throw e
    | Ok (inl edge) =>
        Ok (stage_failure StageArithmeticOverflow no_stats
              STAGE_CONSTRAINT_ARITHMETIC_OVERFLOW None (Some edge))
    | Ok (inr built) =>
        let constraints := sort_by sc_edge built in
        let count := Z.of_nat (length constraints) in
        let n := length (td_nodes dfg) in
        outcome ← relax_rounds dfg constraints n 0
          (mkRelaxState (replicate n 0) (replicate n None) (replicate n None) None 0);
        match outcome with
        | RelaxOverflow node edge relaxations rounds =>
            Ok (stage_failure StageArithmeticOverflow (mkStageStats count rounds relaxations 0 0)
                  STAGE_CONSTRAINT_ARITHMETIC_OVERFLOW (Some node) (Some edge))
        | RelaxInfeasible st last rounds =>
            Ok (mkStageResult StageInfeasibleStageConstraints None
                  (mkStageStats count rounds (rx_relaxations st) 0 0)
                  (witnessFor (node_indices dfg) st last built)
                  [mkStageDiag STAGE_INFEASIBLE_POSITIVE_CYCLE None None])
        | RelaxStable st rounds =>
            Ok (finish_stages dfg target mapping
                  (mkStageStats count rounds (rx_relaxations st) 0 0) (rx_stages st))
        end
    end.

(** ** Arithmetic *)

Lemma ceilDivSigned_least numerator denominator :
  is_i64 numerator -> 0 < denominator ->
  exists q, ceilDivSigned numerator denominator = Ok q /\
    forall x, numerator <= x * denominator <-> q <= x.
Proof.
  intros Hn Hd. unfold ceilDivSigned. rewrite (proj2 (Z.leb_gt _ _)) by done.
  pose proof (Z.quot_rem numerator denominator ltac:(lia)) as Hqr.
  pose proof (Z.rem_bound_abs numerator denominator ltac:(lia)) as Hr.
  assert (Hsign : 0 <= numerator -> 0 <= Z.rem numerator denominator)
    by (intros; by apply Z.rem_nonneg; lia).
  assert (Hneg : numerator <= 0 -> Z.rem numerator denominator <= 0)
    by (intros; by apply Z.rem_nonpos; lia).
  set (q := Z.quot numerator denominator) in *. set (r := Z.rem numerator denominator) in *.
  destruct (Z.eqb_spec r 0) as [E|Hne]; simpl.
  { exists q. split; [done|]. intros x. split; nia. }
  destruct (Z.ltb_spec 0 numerator) as [Hpos|Hle].
  - assert (2 <= denominator) by lia. assert (0 <= q) by nia.
    assert (q <> i64_max) by (unfold is_i64, i64_max, i64_min in *; nia).
    rewrite (proj2 (Z.eqb_neq _ _)) by done. exists (q + 1). split; [done|]. intros x.
    specialize (Hsign ltac:(lia)). split; nia.
  - exists q. split; [done|]. intros x. specialize (Hneg Hle). split; nia.
Qed.

(** ** Sorted lookup *)

Lemma find_if_sorted {A} (key : A -> Z) (l : list A) x :
  StronglySorted (by_key key) l -> NoDup (key <$> l) -> x ∈ l ->
  find_if (fun y => key x <=? key y) l = Some x.
Proof.
  induction 1 as [|y l Hl IH Hall]; intros Hnd Hx; [by apply not_elem_of_nil in Hx|].
  rewrite fmap_cons in Hnd. apply NoDup_cons in Hnd as [Hy Hnd]. simpl.
  apply elem_of_cons in Hx as [->|Hx]; [by rewrite Z.leb_refl|].
  rewrite Forall_forall in Hall. specialize (Hall x Hx). unfold by_key in Hall.
  assert (key x <> key y) by (intros E; apply Hy; rewrite <- E; by apply list_elem_of_fmap_2).
  rewrite (proj2 (Z.leb_gt _ _)) by lia. by apply IH.
Qed.

Lemma adjacent_duplicate_sorted l :
  NoDup (ns_node <$> l) -> adjacent_duplicate l = false.
Proof.
  induction l as [|x [|y l] IH]; intros Hnd; [done..|].
  rewrite fmap_cons in Hnd. apply NoDup_cons in Hnd as [Hx Hnd].
  change (((ns_node x =? ns_node y) || adjacent_duplicate (y :: l))%bool = false).
  rewrite IH by done. rewrite orb_false_r. apply Z.eqb_neq. intros E. apply Hx.
  rewrite E. rewrite fmap_cons. left.
Qed.

(** ** Relaxation without overflow *)

Section Relaxation.
Context (dfg : TargetDFG) (cs : list StageConstraint) (bound : Z).

Abbreviation n := (length (td_nodes dfg)).
Abbreviation index_of id := (default 0%nat (node_index dfg id)).
Abbreviation src_of := (fun c => index_of (sc_src c)).
Abbreviation dst_of := (fun c => index_of (sc_dst c)).
Abbreviation stage_pass := (pass src_of dst_of sc_minimumStageDelta).
Abbreviation stage_passes := (passes src_of dst_of sc_minimumStageDelta).

Context (Hix : forall c, c ∈ cs -> exists i j, node_index dfg (sc_src c) = Some i /\
  node_index dfg (sc_dst c) = Some j /\ (i < n)%nat /\ (j < n)%nat).
Context (Hbound : 0 <= bound) (Hdelta : forall c, c ∈ cs -> - bound <= sc_minimumStageDelta c <= bound).

(** Every label is a stage between zero and [top]. *)
Definition labels_within (top : Z) (l : list Z) : Prop :=
  length l = n /\ forall i, (i < n)%nat -> 0 <= l !!! i <= top.

Lemma stage_relax_eq top st c :
  c ∈ cs -> labels_within top (rx_stages st) -> top + bound <= i64_max ->
  exists st', stage_relax dfg st c = Ok (inr st') /\
    rx_stages st' = relax src_of dst_of sc_minimumStageDelta (rx_stages st) c /\
    labels_within (top + bound) (rx_stages st') /\
    (rx_stages st' = rx_stages st /\ rx_lastUpdated st' = rx_lastUpdated st \/
     rx_stages st !!! dst_of c < rx_stages st' !!! dst_of c /\ is_Some (rx_lastUpdated st')).
Proof.
  intros Hc [Hlen Hl] Htop. destruct (Hix c Hc) as (i & j & Hi & Hj & Hin & Hjn).
  pose proof (Hdelta c Hc) as Hd. pose proof (Hl i Hin) as Hli. pose proof (Hl j Hjn) as Hlj.
  unfold stage_relax. rewrite Hi, Hj. simpl. unfold relax. rewrite Hi, Hj. simpl.
  rewrite (proj2 (Z.ltb_ge i64_max _)) by lia. unfold checkedSignedAdd.
  replace (_ || _)%bool with false by (unfold i64_max, i64_min in *; lia).
  destruct (Z.ltb_spec (rx_stages st !!! j) (rx_stages st !!! i + sc_minimumStageDelta c))
    as [Hlt|Hge].
  - rewrite (proj2 (Z.ltb_lt 0 _)) by lia. simpl. eexists. split; [done|]. simpl.
    split; [done|]. split.
    + split; [by rewrite length_insert|]. intros k Hk.
      destruct (decide (k = j)) as [->|Hne];
        [rewrite list_lookup_total_insert_eq by lia; lia|].
      rewrite list_lookup_total_insert_ne by done. specialize (Hl k Hk). lia.
    + right. rewrite list_lookup_total_insert_eq by lia. split; [done|eauto].
  - rewrite andb_false_r. exists st. split_and!; [done..| |by left].
    split; [done|]. intros k Hk. specialize (Hl k Hk). lia.
Qed.

Lemma stage_relax_all top ds st :
  ds ⊆ cs -> labels_within top (rx_stages st) ->
  top + Z.of_nat (length ds) * bound <= i64_max ->
  exists st', relax_all dfg st ds = Ok (inr st') /\
    rx_stages st' = stage_pass ds (rx_stages st) /\
    labels_within (top + Z.of_nat (length ds) * bound) (rx_stages st') /\
    (rx_stages st' = rx_stages st /\ rx_lastUpdated st' = rx_lastUpdated st \/
     rx_stages st' <> rx_stages st /\ is_Some (rx_lastUpdated st')).
Proof.
  revert top st. induction ds as [|c ds IH]; intros top st Hsub Hl Htop.
  { exists st. rewrite Z.mul_0_l, Z.add_0_r. split_and!; [done..|by left]. }
  cbn [length] in Htop. rewrite Nat2Z.inj_succ in Htop.
  assert (Hc : c ∈ cs) by (apply Hsub; left).
  assert (Hds : ds ⊆ cs) by (intros d Hd; apply Hsub; by right).
  destruct (stage_relax_eq top st c Hc Hl) as (st1 & Hst1 & E1 & Hl1 & Hcase1); [nia|].
  destruct (IH (top + bound) st1 Hds Hl1) as (st' & Hst' & E' & Hl' & Hcase'); [lia|].
  exists st'. cbn [relax_all length]. rewrite Hst1. simpl. split; [exact Hst'|].
  split; [by rewrite E', E1|]. split.
  { rewrite Nat2Z.inj_succ. replace (top + Z.succ (Z.of_nat (length ds)) * bound)
      with (top + bound + Z.of_nat (length ds) * bound) by lia. exact Hl'. }
  destruct Hcase1 as [[Eq1 El1]|[Hgrow Hsome]]; [rewrite <- Eq1, <- El1; exact Hcase'|].
  right. assert (Hge : rx_stages st1 !!! dst_of c <= rx_stages st' !!! dst_of c).
  { rewrite E'. apply pass_ge. intros d Hd. destruct (Hix d (Hds d Hd)) as (i & j & _ & -> & _ & Hj).
    simpl. by rewrite (proj1 Hl1). }
  split; [intros Heq; rewrite Heq in Hge; lia|].
  destruct Hcase' as [[_ ->]|[_ ?]]; done.
Qed.

Abbreviation zero_stages := (zeros n).
Abbreviation increment := (Z.of_nat (length cs) * bound).

Lemma zero_stages_within : labels_within 0 zero_stages.
Proof.
  split; [apply length_replicate|]. intros i Hi. unfold zeros.
  rewrite lookup_total_replicate_2 by done. lia.
Qed.

(** The rounds end in a fixed point reached from zero, or report a system that
    was still growing in the last round. *)
Lemma relax_rounds_spec remaining k rounds st :
  (remaining + k)%nat = n -> (0 < remaining)%nat ->
  rx_stages st = stage_passes cs k zero_stages ->
  labels_within (Z.of_nat k * increment) (rx_stages st) ->
  Z.of_nat n * increment <= i64_max ->
  exists outcome, relax_rounds dfg cs remaining rounds st = Ok outcome /\
  match outcome with
  | RelaxStable st' _ => (exists j, rx_stages st' = stage_passes cs j zero_stages) /\
      stage_pass cs (rx_stages st') = rx_stages st'
  | RelaxInfeasible _ _ _ =>
      stage_pass cs (stage_passes cs (n - 1) zero_stages) <> stage_passes cs (n - 1) zero_stages
  | RelaxOverflow _ _ _ _ => False
  end.
Proof.
  revert k rounds st. induction remaining as [|remaining IH];
    intros k rounds st Hk Hpos Hst Hl Htop; [lia|].
  cbn [relax_rounds].
  destruct (stage_relax_all (Z.of_nat k * increment) cs
    (mkRelaxState (rx_stages st) (rx_predecessor st) (rx_predecessorEdge st) None
       (rx_relaxations st))) as (st' & Hrun & Est & Hl' & Hcase); [done|done|nia|].
  rewrite Hrun. simpl in *. assert (Epass : rx_stages st' = stage_passes cs (S k) zero_stages).
  { rewrite Est, Hst. clear. revert k. generalize zero_stages.
    intros l k. revert l. induction k as [|k IH]; intros l; [done|]. simpl. apply IH. }
  destruct (rx_lastUpdated st') as [last|] eqn:Elast.
  - destruct Hcase as [[_ E]|[Hne _]]; [congruence|].
    destruct (Nat.eqb_spec remaining 0) as [->|Hrem].
    + eexists. split; [done|]. simpl. replace (n - 1)%nat with k by lia.
      rewrite <- Hst, <- Est. done.
    + apply (IH (S k)); [lia|lia|done| |done].
      rewrite Nat2Z.inj_succ. by replace (Z.succ (Z.of_nat k) * increment)
        with (Z.of_nat k * increment + increment) by lia.
  - destruct Hcase as [[E _]|[_ [? ?]]]; [|congruence].
    eexists. split; [done|]. simpl. split; [by exists (S k)|]. rewrite E at 1. by rewrite <- Est.
Qed.

Lemma constraint_indices c :
  c ∈ cs -> (src_of c < n)%nat /\ (dst_of c < n)%nat.
Proof using Hix.
  intros Hc. destruct (Hix c Hc) as (i & j & -> & -> & ? & ?). done.
Qed.

(** The scheduler's relaxation decides the system and finds its least solution. *)
Lemma relaxation_exact :
  Z.of_nat n * increment <= i64_max ->
  exists outcome, relax_rounds dfg cs n 0
    (mkRelaxState (replicate n 0) (replicate n None) (replicate n None) None 0) = Ok outcome /\
  match outcome with
  | RelaxStable st _ => length (rx_stages st) = n /\
      least src_of dst_of sc_minimumStageDelta n cs (fun i => rx_stages st !!! i)
  | RelaxInfeasible _ _ _ => ~ satisfiable src_of dst_of sc_minimumStageDelta cs
  | RelaxOverflow _ _ _ _ => False
  end.
Proof using Hix Hbound Hdelta.
  intros Htop. destruct (decide (n = 0%nat)) as [E0|Hn].
  { rewrite E0. simpl. eexists. split; [done|]. simpl. split; [done|].
    split; [split|]; [|lia|lia]. intros c Hc. destruct (constraint_indices c Hc). lia. }
  destruct (relax_rounds_spec n 0 0 (mkRelaxState (replicate n 0) (replicate n None)
    (replicate n None) None 0)) as (outcome & -> & Hout); [lia|lia|done| |done|].
  { apply zero_stages_within. }
  exists outcome. split; [done|]. destruct outcome as [st rounds|st last rounds|]; [|..|done].
  - destruct Hout as [[j Ej] Hfix]. split.
    + rewrite Ej, length_passes. apply length_replicate.
    + rewrite Ej in Hfix |- *. apply fixed_least; [exact constraint_indices|done].
  - intros Hs. apply Hout. apply satisfiable_stable; [exact constraint_indices|done].
Qed.
End Relaxation.

(** ** The staged mapping of a stage vector *)

Section Staged.
Context (dfg : TargetDFG) (Hinv : TargetDFG_inv dfg) (m : ModuloMapping) (stages : list Z).
Context (Hlen : length stages = length (td_nodes dfg)) (Hnn : forall s, s ∈ stages -> 0 <= s).

Abbreviation index_of id := (default 0%nat (node_index dfg id)).
Abbreviation entries := (zip_with mkNodeStage (node_indices dfg) stages).

Lemma length_node_indices : length (node_indices dfg) = length (td_nodes dfg).
Proof. unfold node_indices. rewrite sort_by_length. apply length_fmap. Qed.

Lemma entries_nodes : ns_node <$> entries = node_indices dfg.
Proof using Hlen.
  pose proof length_node_indices as Hl. rewrite <- Hlen in Hl. revert Hl. clear. revert stages.
  induction (node_indices dfg) as [|x l IH]; intros [|y k] Hl; try done.
  simpl in *. f_equal. apply IH. lia.
Qed.

Lemma node_indices_NoDup : NoDup (node_indices dfg).
Proof using Hinv. unfold node_indices. rewrite sort_by_perm. by apply td_nodes_NoDup. Qed.

Lemma elem_of_entries_stage entry :
  entry ∈ entries <-> exists i, node_index dfg (ns_node entry) = Some i /\
    stages !! i = Some (ns_stage entry).
Proof using Hinv.
  rewrite list_elem_of_lookup. split.
  - intros [i Hi]. rewrite lookup_zip_with in Hi.
    apply bind_Some in Hi as (x & Hx & Hi). apply bind_Some in Hi as (y & Hy & [= <-]).
    exists i. split; [by apply node_index_inverse|done].
  - intros (i & Hi%node_index_lookup & Hs). exists i. rewrite lookup_zip_with, Hi. simpl.
    rewrite Hs. simpl. by destruct entry.
Qed.

Lemma StagedMapping_new_eq : exists staged, StagedMapping_new m entries = Ok staged /\
  sm_modulo staged = m /\ sm_stages staged ≡ₚ entries /\
  StronglySorted (by_key ns_node) (sm_stages staged).
Proof using Hinv Hlen.
  unfold StagedMapping_new. rewrite adjacent_duplicate_sorted.
  - eexists. split; [done|]. split; [done|]. split; [apply sort_by_perm|apply sort_by_sorted].
  - apply sort_by_NoDup. rewrite entries_nodes. apply node_indices_NoDup.
Qed.

Lemma staged_stage staged node : StagedMapping_new m entries = Ok staged ->
  node ∈ td_nodes dfg -> stage staged (tn_id node) = Ok (stages !!! index_of (tn_id node)).
Proof using Hinv Hlen.
  intros Hst Hn. destruct StagedMapping_new_eq as (staged' & Hst' & _ & Hperm & Hsorted).
  assert (staged' = staged) as -> by congruence.
  assert (is_Some (find_node dfg (tn_id node))) as Hf.
  { apply find_if_is_Some. exists node. split; [done|lia]. }
  destruct (node_index_known dfg Hinv _ Hf) as [i Hi].
  pose proof (node_index_bound _ _ _ Hi) as Hib. rewrite <- Hlen in Hib.
  destruct (lookup_lt_is_Some_2 stages i Hib) as [s Hs]. rewrite Hi. simpl.
  rewrite (list_lookup_total_correct _ _ _ Hs).
  set (entry := mkNodeStage (tn_id node) s).
  assert (entry ∈ sm_stages staged) as Hin.
  { rewrite Hperm. apply elem_of_entries_stage. by exists i. }
  assert (NoDup (ns_node <$> sm_stages staged)) as Hnd.
  { rewrite Hperm, entries_nodes. apply node_indices_NoDup. }
  unfold stage. change (tn_id node) with (ns_node entry).
  rewrite (find_if_sorted ns_node _ entry Hsorted Hnd Hin). by rewrite Z.eqb_refl.
Qed.

Lemma stage_coverage_clean staged :
  StagedMapping_new m entries = Ok staged -> stage_coverage_diags dfg staged = [].
Proof using Hinv Hlen.
  intros Hst. destruct StagedMapping_new_eq as (staged' & Hst' & _ & Hperm & _).
  assert (staged' = staged) as -> by congruence. unfold stage_coverage_diags.
  assert (length entries = length (td_nodes dfg)) as Hel.
  { rewrite <- (length_fmap ns_node), entries_nodes. apply length_node_indices. }
  rewrite (Permutation_length Hperm), Hel, Nat.eqb_refl. simpl.
  apply app_nil. split; apply flat_map_nil_iff.
  - intros entry Hentry. rewrite Hperm in Hentry.
    assert (ns_node entry ∈ node_indices dfg) as Hx
      by (rewrite <- entries_nodes; by apply list_elem_of_fmap_2).
    unfold node_indices in Hx. rewrite sort_by_perm in Hx.
    apply list_elem_of_fmap in Hx as (node & E & Hn).
    assert (is_Some (find_node dfg (ns_node entry))) as Hf.
    { apply find_if_is_Some. exists node. split; [done|lia]. }
    apply (find_node_of_index dfg Hinv) in Hf. unfold containsNode.
    by rewrite bool_decide_eq_true_2.
  - intros node Hn. case_match eqn:E; [done|].
    assert (is_Some (find_if (fun entry => ns_node entry =? tn_id node) (sm_stages staged)))
      as [? ?]; [|congruence].
    apply find_if_is_Some. assert (tn_id node ∈ ns_node <$> sm_stages staged) as Hx.
    { rewrite Hperm, entries_nodes. unfold node_indices. rewrite sort_by_perm.
      by apply list_elem_of_fmap_2. }
    apply list_elem_of_fmap in Hx as (entry & Hid & Hentry). exists entry. split; [done|lia].
Qed.
End Staged.

(** ** Stages and dependences *)

(** A stage assignment meets the dependences when, in absolute time, the
    consumer of iteration [distance] issues at least the required separation
    after the producer of iteration zero. *)
Definition stages_meet (dfg : TargetDFG) (m : ModuloMapping) (stage_of : Z -> Z) : Prop :=
  forall edge d, edge ∈ td_edges dfg -> realised m (te_id edge) d ->
    issue_cycle m stage_of 0 (te_src edge) + md_requiredSeparationCycles d <=
    issue_cycle m stage_of (te_distance edge) (te_dst edge).

(** The least assignment with no negative stage. *)
Definition least_stages (dfg : TargetDFG) (m : ModuloMapping) (stage_of : Z -> Z) : Prop :=
  stages_meet dfg m stage_of /\
  (forall node, node ∈ td_nodes dfg -> 0 <= stage_of (tn_id node)) /\
  forall other, stages_meet dfg m other ->
    (forall node, node ∈ td_nodes dfg -> 0 <= other (tn_id node)) ->
    forall node, node ∈ td_nodes dfg -> stage_of (tn_id node) <= other (tn_id node).

(** Problem sizes for which no 64-bit sum of the scheduler can overflow. *)
Definition stage_fits (dfg : TargetDFG) (m : ModuloMapping) : Prop :=
  mm_ii m <= 2147483648 /\
  Z.of_nat (1 + length (td_nodes dfg)) * Z.of_nat (length (td_edges dfg)) <= 268435456.

Lemma find_if_filter {A} (P : A -> Prop) `{!forall x, Decision (P x)} (p : A -> bool) l x :
  (forall y, p y = true <-> P y) -> filter P l = [x] -> find_if p l = Some x.
Proof.
  intros Hp. induction l as [|y l IH]; [done|]. rewrite filter_cons. simpl.
  destruct (decide (P y)) as [Hy|Hy].
  - intros [= -> _]. by rewrite (proj2 (Hp x) Hy).
  - destruct (p y) eqn:E; [by apply Hp in E|exact IH].
Qed.

Lemma placed_placement m id p : placed m id p -> placement m id = Ok p.
Proof.
  unfold placed, placementEntries, placement. intros H.
  erewrite find_if_filter; [done| |exact H]. intros q. apply Z.eqb_eq.
Qed.

Lemma realised_dependence m id d : realised m id d -> dependence m id = Ok d.
Proof.
  unfold realised, dependenceEntries, dependence. intros H.
  erewrite find_if_filter; [done| |exact H]. intros q. apply Z.eqb_eq.
Qed.

Lemma placed_issue_slot m id p : placed m id p -> issue_slot m id = np_issueSlot p.
Proof. unfold placed, issue_slot. by intros ->. Qed.

Section ValidStages.
Context (dfg : TargetDFG) (target : TargetModel) (m : ModuloMapping).
Context (Hinv : TargetDFG_inv dfg) (Htwf : TargetModel_wf target) (Htyped : typed_graph dfg).
Context (Hm : typed_mapping m) (Hdeps : typed_dependences m) (Hfits : stage_fits dfg m).
Context (Hvm : valid_mapping dfg target m).

Lemma ii_range : 0 < mm_ii m <= 2147483648.
Proof using Hm Hfits Hvm.
  destruct Hm as [[? _] _], Hfits as [? _]. pose proof (vm_ii _ _ _ Hvm). lia.
Qed.

Lemma node_placed id : is_Some (find_node dfg id) -> exists p, placed m id p /\
  placement m id = Ok p /\ 0 <= np_issueSlot p < mm_ii m /\ issue_slot m id = np_issueSlot p.
Proof using Hm Hvm.
  intros [node H]. apply find_if_Some in H as [Hn E].
  destruct (vm_nodes _ _ _ Hvm node Hn) as (p & Hp & _ & Hslot & _).
  assert (tn_id node = id) as Eid by lia. rewrite Eid in Hp. exists p.
  split; [done|]. split; [by apply placed_placement|]. split; [|by apply placed_issue_slot].
  apply placed_elem in Hp as [Hin _]. destruct Hm as [_ Hp']. specialize (Hp' p Hin). lia.
Qed.

Lemma edge_placed edge : edge ∈ td_edges dfg ->
  exists s d dep i j, placement m (te_src edge) = Ok s /\ placement m (te_dst edge) = Ok d /\
    realised m (te_id edge) dep /\ dependence m (te_id edge) = Ok dep /\
    is_u32 (md_requiredSeparationCycles dep) /\
    issue_slot m (te_src edge) = np_issueSlot s /\ issue_slot m (te_dst edge) = np_issueSlot d /\
    0 <= np_issueSlot s < mm_ii m /\ 0 <= np_issueSlot d < mm_ii m /\
    node_index dfg (te_src edge) = Some i /\ node_index dfg (te_dst edge) = Some j.
Proof using Hinv Hm Hdeps Hvm.
  intros Hedge.
  destruct (tv_edges _ _ _ (vm_graph _ _ _ Hvm) edge Hedge) as (sn & dn & Hs & Hd & _).
  destruct (node_placed (te_src edge)) as (s & _ & Es & Hs' & Eis); [eauto|].
  destruct (node_placed (te_dst edge)) as (d & _ & Ed & Hd' & Eid); [eauto|].
  destruct (node_index_known dfg Hinv (te_src edge)) as [i Hi]; [eauto|].
  destruct (node_index_known dfg Hinv (te_dst edge)) as [j Hj]; [eauto|].
  destruct (vm_edges _ _ _ Hvm edge Hedge) as (dep & Hdep & _).
  exists s, d, dep, i, j. split_and!; try done; try lia; [by apply realised_dependence|apply Hdeps..].
  all: unfold realised, dependenceEntries in Hdep.
  all: assert (dep ∈ filter (fun d => md_edge d = te_id edge) (mm_dependences m)) as Hin
         by (rewrite Hdep; by apply list_elem_of_singleton).
  all: by apply list_elem_of_filter in Hin as [_ ?].
Qed.

(** What the constraint of an edge says about stages. *)
Definition constraint_for (edge : TargetEdge) (c : StageConstraint) : Prop :=
  sc_edge c = te_id edge /\ sc_src c = te_src edge /\ sc_dst c = te_dst edge /\
  - 17179869184 <= sc_minimumStageDelta c <= 17179869184 /\
  Z.max 0 (sc_minimumStageDelta c) * mm_ii m <= 12884901888 /\
  exists d, realised m (te_id edge) d /\ dependence m (te_id edge) = Ok d /\
    is_u32 (md_requiredSeparationCycles d) /\
    forall x, sc_minimumStageDelta c <= x <->
      issue_slot m (te_src edge) + md_requiredSeparationCycles d <=
      issue_slot m (te_dst edge) + mm_ii m * (x + te_distance edge).

Lemma stage_constraint_spec edge : edge ∈ td_edges dfg ->
  exists c, stage_constraint m edge = Ok (Some c) /\ constraint_for edge c.
Proof using Hinv Htyped Hm Hdeps Hfits Hvm.
  intros Hedge.
  destruct (edge_placed edge Hedge) as (s & d & dep & i & j & Es & Ed & Hreal & Edep & Hsep &
    Eis & Eid & Hs & Hd & _ & _).
  pose proof (Htyped edge Hedge) as Hdist. pose proof ii_range as Hii.
  unfold stage_constraint. rewrite Es. simpl. rewrite Ed. simpl. rewrite Edep. simpl.
  set (num := md_requiredSeparationCycles dep - (np_issueSlot d - np_issueSlot s)).
  assert (-4294967296 <= num <= 8589934592) as Hnum by (unfold num, is_u32, u32_max in *; lia).
  destruct (ceilDivSigned_least num (mm_ii m)) as (q & Hq & Hleast);
    [unfold is_i64, i64_min, i64_max; lia|lia|]. rewrite Hq. simpl.
  pose proof (proj2 (Hleast q) ltac:(lia)) as Hq0.
  assert (Hq1 : ~ num <= (q - 1) * mm_ii m) by (rewrite Hleast; lia).
  assert (-4294967296 <= q <= 8589934593) as Hqr by nia.
  unfold is_u32, u32_max in *.
  replace (_ && _)%bool with false by (unfold i64_min; lia).
  eexists. split; [done|]. unfold constraint_for. simpl. split_and!; try done; try lia.
  exists dep. split_and!; try done; try (unfold u32_max; lia). intros x. rewrite Eis, Eid.
  specialize (Hleast (x + te_distance edge)). unfold num in Hleast.
  split; intros H; [assert (q <= x + te_distance edge) as H2 by lia|].
  - apply Hleast in H2. lia.
  - assert (q <= x + te_distance edge); [|lia]. apply Hleast. lia.
Qed.

Lemma stage_constraints_spec edges : edges ⊆ td_edges dfg ->
  exists cs, stage_constraints m edges = Ok (inr cs) /\ Forall2 constraint_for edges cs.
Proof using Hinv Htyped Hm Hdeps Hfits Hvm.
  induction edges as [|edge edges IH]; intros Hsub; [by exists []|].
  destruct (stage_constraint_spec edge ltac:(apply Hsub; left)) as (c & Hc & Hfor).
  destruct IH as (cs & Hcs & Hall); [intros e He; apply Hsub; by right|].
  exists (c :: cs). cbn [stage_constraints]. rewrite Hc. simpl. rewrite Hcs. simpl.
  split; [done|by constructor].
Qed.

(** The sorted constraints are exactly the edges. *)
Lemma sorted_constraints cs : Forall2 constraint_for (td_edges dfg) cs ->
  length (sort_by sc_edge cs) = length (td_edges dfg) /\
  (forall c, c ∈ sort_by sc_edge cs -> exists edge, edge ∈ td_edges dfg /\ constraint_for edge c) /\
  (forall edge, edge ∈ td_edges dfg -> exists c, c ∈ sort_by sc_edge cs /\ constraint_for edge c).
Proof.
  intros Hall. split; [by rewrite sort_by_length, (Forall2_length _ _ _ Hall)|].
  split; [intros c Hc|intros edge Hedge]; setoid_rewrite elem_of_sort_by || rewrite elem_of_sort_by in Hc.
  - apply list_elem_of_lookup in Hc as [i Hi].
    destruct (Forall2_lookup_r _ _ _ _ _ Hall Hi) as (edge & He & Hfor). exists edge.
    split; [by eapply list_elem_of_lookup_2|done].
  - apply list_elem_of_lookup in Hedge as [i Hi].
    destruct (Forall2_lookup_l _ _ _ _ _ Hall Hi) as (c & Hc & Hfor). exists c.
    split; [by eapply list_elem_of_lookup_2|done].
Qed.

Section Solve.
Context (cs : list StageConstraint).
Context (Hfrom : forall c, c ∈ cs -> exists edge, edge ∈ td_edges dfg /\ constraint_for edge c).
Context (Hto : forall edge, edge ∈ td_edges dfg -> exists c, c ∈ cs /\ constraint_for edge c).

Abbreviation n := (length (td_nodes dfg)).
Abbreviation index_of id := (default 0%nat (node_index dfg id)).
Abbreviation src_of := (fun c => index_of (sc_src c)).
Abbreviation dst_of := (fun c => index_of (sc_dst c)).
Abbreviation stage_solution := (solution src_of dst_of sc_minimumStageDelta cs).

Lemma solve_indices c : c ∈ cs -> exists i j, node_index dfg (sc_src c) = Some i /\
  node_index dfg (sc_dst c) = Some j /\ (i < n)%nat /\ (j < n)%nat.
Proof using Hinv Hm Hdeps Hvm Hfrom.
  intros Hc. destruct (Hfrom c Hc) as (edge & Hedge & _ & -> & -> & _).
  destruct (edge_placed edge Hedge) as (_ & _ & _ & i & j & _ & _ & _ & _ & _ & _ & _ & _ & _ & Hi & Hj).
  exists i, j. split_and!; try done; by eapply node_index_bound.
Qed.

(** Solutions of the constraints are assignments that meet the dependences. *)
Lemma solution_meets p : stage_solution p -> stages_meet dfg m (fun id => p (index_of id)).
Proof using Hto.
  intros Hp edge d Hedge Hreal.
  destruct (Hto edge Hedge) as (c & Hc & _ & Es & Ed & _ & _ & d' & Hreal' & _ & _ & Hiff).
  assert (d' = d) as -> by (unfold realised in *; congruence).
  specialize (Hp c Hc). cbv beta in Hp. rewrite Es, Ed in Hp.
  specialize (Hiff (p (index_of (te_dst edge)) - p (index_of (te_src edge)))).
  unfold issue_cycle. pose proof (proj1 Hiff ltac:(lia)). lia.
Qed.

Lemma meets_solution stage_of :
  stages_meet dfg m stage_of -> stage_solution (fun i => stage_of (node_indices dfg !!! i)).
Proof using Hinv Hm Hdeps Hvm Hfrom.
  intros Hs c Hc. destruct (Hfrom c Hc) as (edge & Hedge & Hfor).
  destruct (solve_indices c Hc) as (i & j & Hi & Hj & _).
  destruct Hfor as (_ & Es & Ed & _ & _ & d & Hreal & _ & _ & Hiff).
  specialize (Hs edge d Hedge Hreal). unfold issue_cycle in Hs. cbv beta. rewrite Hi, Hj. simpl.
  rewrite (list_lookup_total_correct _ _ _ (node_index_lookup _ _ _ Hi)).
  rewrite (list_lookup_total_correct _ _ _ (node_index_lookup _ _ _ Hj)). rewrite Es, Ed.
  specialize (Hiff (stage_of (te_dst edge) - stage_of (te_src edge))).
  enough (sc_minimumStageDelta c <= stage_of (te_dst edge) - stage_of (te_src edge)) by lia.
  apply Hiff. lia.
Qed.

Lemma node_position node : node ∈ td_nodes dfg ->
  exists i, node_index dfg (tn_id node) = Some i /\ (i < n)%nat /\ node_indices dfg !!! i = tn_id node.
Proof using Hinv.
  intros Hn. destruct (node_index_known dfg Hinv (tn_id node)) as [i Hi].
  { apply find_if_is_Some. exists node. split; [done|lia]. }
  exists i. split; [done|]. split; [by eapply node_index_bound|].
  by apply list_lookup_total_correct, node_index_lookup.
Qed.

Lemma position_node i : (i < n)%nat ->
  exists node, node ∈ td_nodes dfg /\ node_indices dfg !!! i = tn_id node.
Proof.
  intros Hi. destruct (lookup_lt_is_Some_2 (node_indices dfg) i) as [id Hid];
    [by rewrite length_node_indices|].
  rewrite (list_lookup_total_correct _ _ _ Hid).
  assert (id ∈ node_indices dfg) as Hx by (by eapply list_elem_of_lookup_2).
  unfold node_indices in Hx. rewrite sort_by_perm in Hx.
  apply list_elem_of_fmap in Hx as (node & -> & Hn). by exists node.
Qed.

Lemma least_is_least_stages p :
  least src_of dst_of sc_minimumStageDelta n cs p ->
  least_stages dfg m (fun id => p (index_of id)).
Proof using Hinv Hm Hdeps Hvm Hfrom Hto.
  intros [[Hsol Hnn] Hleast]. split; [by apply solution_meets|]. split.
  - intros node Hn. destruct (node_position node Hn) as (i & -> & Hi & _). by apply Hnn.
  - intros other Ho Hnno node Hn. destruct (node_position node Hn) as (i & -> & Hi & <-). simpl.
    apply (Hleast (fun i => other (node_indices dfg !!! i))); [|done].
    split; [by apply meets_solution|]. intros k Hk.
    destruct (position_node k Hk) as (node' & Hn' & ->). by apply Hnno.
Qed.

Lemma sumZ_scaled {A} (f : A -> Z) (k K : Z) l :
  (forall x, x ∈ l -> f x * k <= K) -> sumZ (f <$> l) * k <= Z.of_nat (length l) * K.
Proof.
  induction l as [|x l IH]; intros H; csimpl; [lia|].
  pose proof (H x ltac:(left)). specialize (IH ltac:(intros; apply H; by right)). lia.
Qed.

(** The least stages keep every logical time far below 64 bits. *)
Lemma least_time_bound p i :
  length cs = length (td_edges dfg) ->
  least src_of dst_of sc_minimumStageDelta n cs p -> (i < n)%nat ->
  0 <= p i * mm_ii m <= 3458764513820540928.
Proof using Hinv Hm Hdeps Hvm Hfrom Hfits.
  intros Hcount Hp Hi. pose proof ii_range as Hii. pose proof Hp as [[_ Hnn] _]. specialize (Hnn i Hi).
  pose proof (least_bound _ _ _ n cs p i Hp Hi) as Hb.
  clear Hto. pose proof (sumZ_scaled (fun c => Z.max 0 (sc_minimumStageDelta c)) (mm_ii m) 12884901888 cs) as Hs.
  assert (sumZ ((fun c => Z.max 0 (sc_minimumStageDelta c)) <$> cs) * mm_ii m <=
    Z.of_nat (length cs) * 12884901888).
  { apply Hs. intros c Hc. destruct (Hfrom c Hc) as (edge & _ & _ & _ & _ & _ & Hmax & _). done. }
  assert (Z.of_nat (length cs) <= 268435456).
  { rewrite Hcount. destruct Hfits as [_ Hf]. nia. }
  split; [nia|]. nia.
Qed.
End Solve.

(** *** The final check cannot fail *)

Section Finish.
Context (stages : list Z) (staged : StagedMapping).
Abbreviation n := (length (td_nodes dfg)).
Abbreviation stage_at id := (stages !!! default 0%nat (node_index dfg id)).
Context (Hlen : length stages = n) (Hmeet : stages_meet dfg m (fun id => stage_at id)).
Context (Hwithin : forall i, (i < n)%nat -> 0 <= (stages !!! i) * mm_ii m <= 3458764513820540928).
Context (Hstaged : StagedMapping_new m (zip_with mkNodeStage (node_indices dfg) stages) = Ok staged).

Lemma staged_modulo : sm_modulo staged = m.
Proof using Hstaged. unfold StagedMapping_new in Hstaged. case_match; [done|]. by injection Hstaged as <-. Qed.

Lemma logical_time_eq node : node ∈ td_nodes dfg ->
  logicalIssueTime staged (tn_id node) = Ok (issue_cycle m (fun id => stage_at id) 0 (tn_id node)) /\
  0 <= issue_cycle m (fun id => stage_at id) 0 (tn_id node) <= 3458764515968024576.
Proof using Hinv Hm Hfits Hvm Hlen Hwithin Hstaged.
  intros Hn. pose proof ii_range as Hii. destruct (node_position node Hn) as (i & Hi & Hib & _).
  destruct (node_placed (tn_id node)) as (p & _ & Hp & Hslot & Eslot).
  { apply find_if_is_Some. exists node. split; [done|lia]. }
  unfold logicalIssueTime. rewrite staged_modulo, Hp. simpl.
  rewrite (staged_stage dfg Hinv m stages Hlen staged node Hstaged Hn). simpl.
  unfold issue_cycle. rewrite Eslot, Hi. simpl. specialize (Hwithin i Hib).
  rewrite (proj2 (Z.eqb_neq _ 0)) by lia. simpl.
  rewrite (proj2 (Z.ltb_ge _ _)).
  2: { apply Z.div_le_lower_bound; [lia|]. unfold u64_max. lia. }
  rewrite wrap64_id by (unfold is_u64, u64_max; lia).
  rewrite (proj2 (Z.ltb_ge _ _)) by (unfold u64_max; lia).
  split; [f_equal; lia|lia].
Qed.

Lemma logical_times_eq nodes times diags : nodes ⊆ td_nodes dfg ->
  exists times', logical_times staged nodes times diags = Ok (times', diags) /\
    (forall id t, times !! id = Some t -> times' !! id = Some t) /\
    forall node, node ∈ nodes -> times !! tn_id node = None \/
        times !! tn_id node = Some (issue_cycle m (fun id => stage_at id) 0 (tn_id node)) ->
      times' !! tn_id node = Some (issue_cycle m (fun id => stage_at id) 0 (tn_id node)).
Proof using Hinv Hm Hfits Hvm Hlen Hwithin Hstaged.
  revert times. induction nodes as [|node nodes IH]; intros times Hsub.
  { exists times. split_and!; [done..|]. intros node H. by apply not_elem_of_nil in H. }
  destruct (logical_time_eq node (Hsub node ltac:(left))) as [Hl _].
  cbn [logical_times]. rewrite Hl. set (t0 := issue_cycle m _ 0 (tn_id node)).
  destruct (IH (match times !! tn_id node with Some _ => times | None => <[tn_id node:=t0]> times end))
    as (times' & Hrun & Hkeep & Hall); [intros x Hx; apply Hsub; by right|].
  exists times'. split; [exact Hrun|]. split.
  - intros id t Ht. apply Hkeep. case_match eqn:E; [done|].
    rewrite lookup_insert_ne; [done|]. congruence.
  - intros x Hx Hnone. apply elem_of_cons in Hx as [->|Hx].
    + destruct Hnone as [Hnone|Hsome]; [|rewrite Hsome in Hkeep; by apply Hkeep].
      rewrite Hnone in Hkeep. apply Hkeep. by rewrite lookup_insert_eq.
    + apply Hall; [done|]. destruct (times !! tn_id node) eqn:E; [done|].
      destruct (decide (tn_id node = tn_id x)) as [Ex|Hne].
      * right. rewrite <- Ex. by rewrite lookup_insert_eq.
      * by rewrite lookup_insert_ne.
Qed.

Lemma edge_times_clean times edge : edge ∈ td_edges dfg ->
  (forall node, node ∈ td_nodes dfg ->
     times !! tn_id node = Some (issue_cycle m (fun id => stage_at id) 0 (tn_id node))) ->
  edge_time_diags staged times edge = Ok [].
Proof using Hinv Htyped Hm Hdeps Hfits Hvm Hlen Hmeet Hwithin Hstaged.
  intros Hedge Htimes. pose proof ii_range as Hii. pose proof (Htyped edge Hedge) as Hdist.
  destruct (tv_edges _ _ _ (vm_graph _ _ _ Hvm) edge Hedge) as (sn & dn & Hs & Hd & _).
  apply find_if_Some in Hs as [Hs Es]. apply find_if_Some in Hd as [Hd Ed].
  assert (tn_id sn = te_src edge) as Es' by lia. assert (tn_id dn = te_dst edge) as Ed' by lia.
  destruct (logical_time_eq sn Hs) as [_ Hts]. destruct (logical_time_eq dn Hd) as [_ Htd].
  destruct (edge_placed edge Hedge) as (_ & _ & dep & _ & _ & _ & _ & Hreal & Edep & Hsep & _).
  specialize (Hmeet edge dep Hedge Hreal).
  unfold edge_time_diags. rewrite <- Es', <- Ed', !Htimes by done. simpl.
  rewrite staged_modulo, Edep. rewrite Es', Ed' in *. unfold is_u32, u32_max in *.
  set (ts := issue_cycle m _ 0 (te_src edge)) in *. set (td := issue_cycle m _ 0 (te_dst edge)) in *.
  assert (Htd' : issue_cycle m (fun id => stage_at id) (te_distance edge) (te_dst edge) =
    te_distance edge * mm_ii m + td) by (unfold td, issue_cycle; lia).
  assert (te_distance edge * mm_ii m + td <= u64_max) as Hfit64 by (unfold u64_max; nia).
  unfold checkedMultiplyAdd. rewrite (proj2 (Z.eqb_neq _ 0)) by lia. simpl.
  rewrite (proj2 (Z.ltb_ge _ _)).
  2: { apply Z.div_le_lower_bound; [lia|]. lia. }
  rewrite (proj2 (Z.ltb_ge _ _)) by (unfold u64_max; lia).
  rewrite wrap64_id by (unfold is_u64; nia).
  rewrite (proj2 (Z.ltb_ge _ _)) by lia. done.
Qed.

Lemma all_edge_times_clean times edges : edges ⊆ td_edges dfg ->
  (forall node, node ∈ td_nodes dfg ->
     times !! tn_id node = Some (issue_cycle m (fun id => stage_at id) 0 (tn_id node))) ->
  all_edge_time_diags staged times edges = Ok [].
Proof using Hinv Htyped Hm Hdeps Hfits Hvm Hlen Hmeet Hwithin Hstaged.
  intros Hsub Htimes. induction edges as [|edge edges IH]; [done|]. cbn [all_edge_time_diags].
  rewrite edge_times_clean by (try done; apply Hsub; left). simpl.
  rewrite IH; [done|]. intros e He. apply Hsub. by right.
Qed.

Lemma staged_verifies :
  mmv_verify dfg target m = Ok [] -> sav_verify dfg target staged = Ok [].
Proof using Hinv Htyped Hm Hdeps Hfits Hvm Hlen Hmeet Hwithin Hstaged.
  intros Hmmv. unfold sav_verify.
  rewrite (proj2 (tdfg_verify_clean dfg target None Hinv) (vm_graph _ _ _ Hvm)). simpl.
  rewrite (proj2 (vm_target _ _ _ Hvm)), String.eqb_refl. simpl.
  rewrite staged_modulo, Hmmv. simpl.
  rewrite (stage_coverage_clean dfg Hinv m stages Hlen staged Hstaged).
  destruct (logical_times_eq (td_nodes dfg) ∅ []) as (times & -> & _ & Htimes); [done|]. simpl.
  rewrite (proj2 (Z.eqb_neq _ 0)) by (by apply vm_ii in Hvm).
  apply all_edge_times_clean; [done|]. intros node Hn. apply Htimes; [done|].
  left. apply lookup_empty.
Qed.

Lemma max_issue_time_total nodes acc : nodes ⊆ td_nodes dfg ->
  exists t, max_issue_time staged nodes acc = (t, None).
Proof using Hinv Hm Hfits Hvm Hlen Hwithin Hstaged.
  revert acc. induction nodes as [|node nodes IH]; intros acc Hsub; [by exists acc|].
  cbn [max_issue_time]. destruct (logical_time_eq node (Hsub node ltac:(left))) as [-> _].
  apply IH. intros x Hx. apply Hsub. by right.
Qed.
End Finish.
End ValidStages.

(** ** Properties *)

(** What each status of the scheduler means. *)
Definition scheduling_exact (dfg : TargetDFG) (target : TargetModel) (m : ModuloMapping)
    (r : StageSchedulingResult) : Prop :=
  match sr_status r with
  | StageSuccess => valid_mapping dfg target m /\
      exists staged stage_of, sr_mapping r = Some staged /\ sm_modulo staged = m /\
        least_stages dfg m stage_of /\
        (forall node, node ∈ td_nodes dfg ->
          stage staged (tn_id node) = Ok (stage_of (tn_id node)) /\
          logicalIssueTime staged (tn_id node) = Ok (issue_cycle m stage_of 0 (tn_id node))) /\
        sav_verify dfg target staged = Ok [] /\
        forall entry, entry ∈ sm_stages staged -> 0 <= ns_stage entry
  | StageInfeasibleStageConstraints => valid_mapping dfg target m /\
      forall stage_of, ~ stages_meet dfg m stage_of
  | StageInvalidTargetDFG =>
      ~ (TargetDFG_valid dfg target None /\ td_targetName dfg = tm_name target)
  | StageInvalidModuloMapping => ~ valid_mapping dfg target m
  | StageArithmeticOverflow | StageVerificationFailure | StageInternalError => False
  end.

Section ScheduleSpec.
Context (dfg : TargetDFG) (target : TargetModel) (m : ModuloMapping).
Context (Hinv : TargetDFG_inv dfg) (Htwf : TargetModel_wf target) (Htyped : typed_graph dfg).
Context (Hm : typed_mapping m) (Hdeps : typed_dependences m) (Hfits : stage_fits dfg m).

Lemma finish_stages_exact stats stages cs :
  valid_mapping dfg target m -> mmv_verify dfg target m = Ok [] ->
  (forall c, c ∈ cs -> exists edge, edge ∈ td_edges dfg /\ constraint_for m edge c) ->
  (forall edge, edge ∈ td_edges dfg -> exists c, c ∈ cs /\ constraint_for m edge c) ->
  length cs = length (td_edges dfg) -> length stages = length (td_nodes dfg) ->
  least (fun c => default 0%nat (node_index dfg (sc_src c)))
    (fun c => default 0%nat (node_index dfg (sc_dst c))) sc_minimumStageDelta
    (length (td_nodes dfg)) cs (fun i => stages !!! i) ->
  scheduling_exact dfg target m (finish_stages dfg target m stats stages).
Proof using Hinv Htyped Hm Hdeps Hfits.
  intros Hvm Hmmv Hfrom Hto Hcount Hlen Hleast.
  destruct (StagedMapping_new_eq dfg Hinv m stages Hlen) as (staged & Hst & Hmod & Hperm & _).
  pose proof (least_is_least_stages dfg target m Hinv Hm Hdeps Hvm cs Hfrom Hto _ Hleast) as Hls.
  assert (Hwithin : forall i, (i < length (td_nodes dfg))%nat ->
    0 <= (stages !!! i) * mm_ii m <= 3458764513820540928).
  { intros i Hi. by apply (least_time_bound dfg target m Hinv Hm Hdeps Hfits Hvm cs Hfrom
      (fun i => stages !!! i) i Hcount Hleast). }
  unfold finish_stages. rewrite Hst.
  destruct (max_issue_time_total dfg target m Hinv Hm Hfits Hvm stages staged Hlen Hwithin Hst
    (td_nodes dfg) 0) as [t ->]; [done|].
  pose proof (staged_verifies dfg target m Hinv Htyped Hm Hdeps Hfits Hvm stages staged Hlen
    (proj1 Hls) Hwithin Hst Hmmv) as Hsav. rewrite Hsav.
  unfold scheduling_exact. simpl. split; [done|]. do 2 eexists. split; [done|]. split; [done|].
  split; [exact Hls|]. split; [|split; [exact Hsav|]].
  - intros node Hn.
    split; [by apply (staged_stage dfg Hinv m stages Hlen staged node Hst Hn)|].
    by apply (logical_time_eq dfg target m Hinv Hm Hfits Hvm stages staged Hlen Hwithin Hst node Hn).
  - intros entry Hentry. rewrite Hperm in Hentry.
    apply (elem_of_entries_stage dfg Hinv) in Hentry as (i & Hi & Hs).
    pose proof (node_index_bound _ _ _ Hi) as Hb. specialize (Hwithin i Hb).
    rewrite (list_lookup_total_correct _ _ _ Hs) in Hwithin.
    pose proof (ii_range dfg target m Hm Hfits Hvm). nia.
Qed.

Lemma schedule_valid_exact :
  valid_mapping dfg target m -> mmv_verify dfg target m = Ok [] ->
  exists r, schedule dfg target m = Ok r /\ scheduling_exact dfg target m r.
Proof using Hinv Htyped Hm Hdeps Hfits.
  intros Hvm Hmmv. unfold schedule.
  rewrite (proj2 (tdfg_verify_clean dfg target None Hinv) (vm_graph _ _ _ Hvm)). simpl.
  rewrite (proj2 (vm_target _ _ _ Hvm)), String.eqb_refl. simpl.
  rewrite (proj2 (Z.eqb_neq _ 0)) by (by apply vm_ii in Hvm). rewrite Hmmv. simpl.
  destruct (stage_constraints_spec dfg target m Hinv Htyped Hm Hdeps Hfits Hvm (td_edges dfg))
    as (built & -> & Hall); [done|].
  destruct (sorted_constraints dfg m built Hall) as (Hcount & Hfrom & Hto).
  set (cs := sort_by sc_edge built) in *.
  assert (Hdelta : forall c, c ∈ cs -> - 17179869184 <= sc_minimumStageDelta c <= 17179869184).
  { intros c Hc. by destruct (Hfrom c Hc) as (edge & _ & _ & _ & _ & Hd & _). }
  destruct (relaxation_exact dfg cs 17179869184
    (solve_indices dfg target m Hinv Hm Hdeps Hvm cs Hfrom) ltac:(lia) Hdelta)
    as (outcome & Hrun & Hout).
  { rewrite Hcount. destruct Hfits as [_ Hf]. unfold i64_max. lia. }
  rewrite Hrun. simpl. destruct outcome as [st rounds|st last rounds|]; [|..|done].
  - eexists. split; [done|]. destruct Hout as [Hlen Hleast].
    by apply (finish_stages_exact _ _ cs).
  - eexists. split; [done|]. unfold scheduling_exact. simpl. split; [done|].
    intros stage_of Hs. apply Hout. eexists.
    by apply (meets_solution dfg target m Hinv Hm Hdeps Hvm cs Hfrom stage_of).
Qed.
End ScheduleSpec.


(** The example kernel at II 5, with the load late in the interval: the sum and
    the store of an iteration run in the next pipeline stage. *)
Definition v2_staged_mapping_calls : list MappingCall := [
  Place 0 (mkTile 0 0) 3; Place 1 (mkTile 0 1) 1; Place 2 (mkTile 0 0) 2;
  SetTransport 0 (mkPlan 0 NetData [LinkStep NetData (mkTile 0 0) East 2] 3);
  SetTransport 1 (mkPlan 1 NetData [VirtualHold NetData (mkTile 0 1) 0 1] 1);
  SetTransport 2 (mkPlan 2 NetData [LinkStep NetData (mkTile 0 1) West 0] 1);
  SetMemorySeparation 3 1; SetMemorySeparation 4 1].

Definition v2_staged_mapping : ModuloMapping :=
  match build_mapping v2_accumulate 5 v2_staged_mapping_calls with
  | Ok m => m
  | Throw _ => mkMapping "" 1 [] []
  end.

Example v2_staged_stages :
  (r ← schedule v2_accumulate cgra_v2 v2_staged_mapping;
   Ok (sr_status r, sm_stages <$> sr_mapping r, st_maxLogicalIssueTime (sr_stats r))) =
  Ok (StageSuccess, Some [mkNodeStage 0 0; mkNodeStage 1 1; mkNodeStage 2 1], 7).
Proof. vm_compute. reflexivity. Qed.

Lemma v2_staged_mapping_typed : typed_mapping v2_staged_mapping.
Proof.
  split; [vm_compute; split; congruence|]. apply Forall_forall.
  vm_compute. repeat constructor; congruence.
Qed.

Lemma v2_staged_mapping_dependences : typed_dependences v2_staged_mapping.
Proof.
  assert (H : forallb (fun d => (0 <=? md_requiredSeparationCycles d) &&
    (md_requiredSeparationCycles d <=? u32_max)) (mm_dependences v2_staged_mapping) = true)
    by (vm_compute; reflexivity).
  intros d Hd. rewrite forallb_forall in H. specialize (H d (proj1 (list_elem_of_In _ _) Hd)).
  unfold is_u32. lia.
Qed.


(** At II 2 the recurrence of the kernel cannot be met: the scheduler says so. *)
Example v2_accumulate_infeasible :
  (r ← schedule v2_accumulate cgra_v2 v2_accumulate_mapping; Ok (sr_status r, sr_witness r)) =
  Ok (StageInfeasibleStageConstraints, Some (mkCycleWitness [0; 2; 1] [4; 2; 0] 2)).
Proof. vm_compute. reflexivity. Qed.

(** signed ceiling division never overflows on its domain and is the least
    upper quotient; a non-positive denominator is rejected. *)
Theorem ceilDivSigned_exact numerator denominator :
  is_i64 numerator -> is_i64 denominator ->
  (denominator <= 0 -> ceilDivSigned numerator denominator = Throw InvalidArgument) /\
  (0 < denominator -> exists q, ceilDivSigned numerator denominator = Ok q /\ is_i64 q /\
     forall x, numerator <= x * denominator <-> q <= x).
Proof.
  intros Hn Hd. split; intros Hpos.
  - unfold ceilDivSigned. by rewrite (proj2 (Z.leb_le _ _)).
  - destruct (ceilDivSigned_least numerator denominator Hn Hpos) as (q & -> & Hq).
    exists q. split; [done|]. split; [|done].
    pose proof (proj2 (Hq q) ltac:(lia)). pose proof (Hq (q - 1)).
    unfold is_i64, i64_min, i64_max in *. nia.
Qed.

Lemma ceilDivSigned_exact_witness :
  (4 <= 0 -> ceilDivSigned (-7) 4 = Throw InvalidArgument) /\
  (0 < 4 -> exists q, ceilDivSigned (-7) 4 = Ok q /\ is_i64 q /\
     forall x, -7 <= x * 4 <-> q <= x).
Proof.
  apply (ceilDivSigned_exact (-7) 4); unfold is_i64, i64_min, i64_max; lia.
Defined.

(** ** The MII bounds every schedule *)

(** The contract publishes no result later than one hop, or one held cycle,
    after the producer's output is ready. *)
Definition latencies_consistent (target : TargetModel) : Prop :=
  forall op latency ready, op ∈ tm_operations target -> op_resultLatency op = Some latency ->
    op_producerOutputReadyOffset op = Some ready -> latency <= ready + 1.

Lemma route_elapsed target hop domain tile elapsed actions tile' elapsed' :
  0 < hop -> route target hop domain tile elapsed actions tile' elapsed' ->
  elapsed + Z.of_nat (length actions) <= elapsed'.
Proof. intros Hhop. induction 1; simpl; lia. Qed.

Lemma separation_covers_latency dfg target m edge d :
  TargetDFG_inv dfg -> TargetModel_wf target -> latencies_consistent target ->
  valid_mapping dfg target m -> edge ∈ td_edges dfg -> realised m (te_id edge) d ->
  edge_separation dfg target edge <= md_requiredSeparationCycles d.
Proof.
  intros Hinv Htwf Hlat Hvm Hedge Hreal.
  destruct (vm_edges _ _ _ Hvm edge Hedge) as (d' & Hreal' & _ & Hshape).
  assert (d' = d) as -> by (unfold realised in *; congruence).
  destruct (te_info edge) as [| |kind] eqn:Einfo.
  3: { destruct Hshape as [_ ->]. unfold edge_separation. rewrite Einfo. lia. }
  all: destruct (value_edge_latency dfg target Hinv Htwf (vm_graph _ _ _ Hvm) edge Hedge)
    as (producer & latency & Hp & Hl & _ & ->); [unfold TargetEdge_kind; by rewrite Einfo|].
  all: destruct Hshape as (plan & src & dst & producer' & ready & _ & _ & _ & -> & _ & _ & Hp' &
    Hready & Hne & Hroute).
  all: assert (producer' = producer) as -> by congruence.
  all: apply route_elapsed in Hroute; [|apply (wf_hopLatency target Htwf)].
  all: apply td_node_Ok in Hp as [Hn _]; [|done].
  all: destruct (tv_nodes _ _ _ (vm_graph _ _ _ Hvm) producer Hn)
    as (op & Hop & _ & _ & _ & Eop & Er & _).
  all: specialize (Hlat op latency ready (findOperation_elem target _ _ Hop)).
  all: assert (latency <= ready + 1) by (apply Hlat; congruence).
  all: destruct (tp_actions plan); [done|]; simpl in Hroute; lia.
Qed.


Lemma cgra_v2_latencies : latencies_consistent cgra_v2.
Proof.
  assert (H : forallb (fun op => match op_resultLatency op, op_producerOutputReadyOffset op with
    | Some latency, Some ready => latency <=? ready + 1 | _, _ => true end)
    (tm_operations cgra_v2) = true) by (vm_compute; reflexivity).
  intros op latency ready Hop El Er. rewrite forallb_forall in H.
  specialize (H op (proj1 (list_elem_of_In _ _) Hop)). rewrite El, Er in H. lia.
Qed.

