(* ===== verification/StorageRequirements.v ===== *)
(** * Storage requirements: where and how long a value waits

    Models [compiler/include/cgra/RegisterAllocation/StorageRequirement.h] and
    [compiler/{include/cgra,lib}/RegisterAllocation/StorageRequirementAnalysis.{h,cpp}].
    The analysis turns the holds of the transport plans and the slack before each
    consumer into storage segments: a tile, a bank domain and an absolute
    interval from the write to the read. *)
From stdpp Require Import base numbers list gmap sorting strings.
From S2P Require Import Prelude.
From S2P Require Import IR.
From S2P Require Import TargetModel.
From S2P Require Import CgraV2.
From S2P Require Import TargetDFG.
From S2P Require Import TargetDFGVerifier.
From S2P Require Import ModuloResources.
From S2P Require Import ModuloMapping.
From S2P Require Import MappingVerifier.
From S2P Require Import DiffConstraints.
From S2P Require Import MIIAnalyzer.
From S2P Require Import StageScheduler.

(** ** Segments (StorageRequirement.h) *)

Inductive StorageOriginKind := ExplicitVirtualHold | TerminalSlack.

#[export] Instance StorageOriginKind_eq_dec : EqDecision StorageOriginKind.
Proof. solve_decision. Defined.

Record StorageOrigin := mkOrigin {
  so_kind : StorageOriginKind;
  so_edge : Z;
  so_transportActionIndex : option Z
}.

#[export] Instance StorageOrigin_eq_dec : EqDecision StorageOrigin.
Proof. solve_decision. Defined.

Record StorageSegment := mkSegment {
  sg_id : Z;
  sg_edge : Z;
  sg_tile : TileCoord;
  sg_domain : RegisterBankDomain;
  sg_writeTime : Z;
  sg_readTime : Z;
  sg_origins : list StorageOrigin
}.

#[export] Instance StorageSegment_eq_dec : EqDecision StorageSegment.
Proof. solve_decision. Defined.

Record StorageRequirements := mkRequirements {
  rq_ii : Z;
  rq_segments : list StorageSegment
}.

#[export] Instance StorageRequirements_eq_dec : EqDecision StorageRequirements.
Proof. solve_decision. Defined.

Definition rq_segment (q : StorageRequirements) (id : Z) : result StorageSegment :=
  of_option OutOfRange (find_if (fun segment => sg_id segment =? id) (rq_segments q)).

(** ** Results (StorageRequirementAnalysis.h) *)

Inductive StorageRequirementStatus :=
  | StorageSuccess
  | StorageInvalidTargetDFG
  | StorageInvalidStagedMapping
  | StorageTargetRFContractError
  | StorageArithmeticOverflow
  | StorageInternalError.

#[export] Instance StorageRequirementStatus_eq_dec : EqDecision StorageRequirementStatus.
Proof. solve_decision. Defined.

Inductive StorageRequirementDiagnosticCode :=
  | SRA_INVALID_TARGET_DFG
  | SRA_INVALID_STAGED_MAPPING
  | SRA_TARGET_BANK_MISSING
  | SRA_TARGET_RF_CONTRACT_INVALID
  | SRA_STORAGE_TIMING_INVALID
  | SRA_STORAGE_ARITHMETIC_OVERFLOW
  | SRA_INTERNAL_ERROR.

Record StorageRequirementDiagnostic := mkStorageDiag {
  sq_code : StorageRequirementDiagnosticCode;
  sq_edge : option Z;
  sq_segment : option Z
}.

Record StorageRequirementStats := mkStorageStats {
  ss_storageSegments : Z;
  ss_dataSegments : Z;
  ss_predicateSegments : Z;
  ss_explicitHoldSegments : Z;
  ss_terminalSlackSegments : Z;
  ss_coalescedOrigins : Z
}.

Record StorageRequirementResult := mkStorageResult {
  rr_status : StorageRequirementStatus;
  rr_requirements : option StorageRequirements;
  rr_stats : StorageRequirementStats;
  rr_diagnostics : list StorageRequirementDiagnostic
}.

(** [StorageRequirementResult::ok] together with the value it guards. *)
Definition rr_ok (r : StorageRequirementResult) : option StorageRequirements :=
  match rr_status r with StorageSuccess => rr_requirements r | _ => None end.

(** ** Checked arithmetic *)

Definition checkedAdd (lhs rhs : Z) : option Z :=
  if u64_max - rhs <? lhs then None else Some (lhs + rhs).

Definition checkedMul (lhs rhs : Z) : option Z :=
  if negb (lhs =? 0) && (u64_max / lhs <? rhs) then None else Some (wrap64 (lhs * rhs)).

Definition bankDomain (domain : NetworkDomain) : RegisterBankDomain :=
  match domain with NetData => BankData | NetPredicate => BankPredicate end.

(** ** Building the segments *)

(** The vector under construction and the counter of merged origins. *)
Record SegmentState := mkSegments {
  ss_segments : list StorageSegment;
  ss_merged : Z
}.

Definition extends_segment (previous : StorageSegment) (edge : Z) (tile : TileCoord)
    (domain : RegisterBankDomain) (writeTime : Z) : bool :=
  (sg_edge previous =? edge) && bool_decide (sg_tile previous = tile) &&
  bool_decide (sg_domain previous = domain) && (sg_readTime previous =? writeTime).

Definition appendSegment (st : SegmentState) (edge : Z) (tile : TileCoord)
    (networkDomain : NetworkDomain) (writeTime readTime : Z) (origin : StorageOrigin)
    (allowCoalesce : bool) : SegmentState :=
  let domain := bankDomain networkDomain in
  let fresh := mkSegments (ss_segments st ++
    [mkSegment (wrap32 (Z.of_nat (length (ss_segments st)))) edge tile domain writeTime readTime
       [origin]]) (ss_merged st) in
  match (if allowCoalesce then last (ss_segments st) else None) with
  | Some previous =>
      if extends_segment previous edge tile domain writeTime then
        mkSegments (<[(length (ss_segments st) - 1)%nat :=
                       mkSegment (sg_id previous) (sg_edge previous) (sg_tile previous)
                         (sg_domain previous) (sg_writeTime previous) readTime
                         (sg_origins previous ++ [origin])]> (ss_segments st)) (ss_merged st + 1)
      else fresh
  | None => fresh
  end.

(** Why the loop over the edges stopped: with a status and a diagnostic, or with
    an exception that no handler of the analysis catches. *)
Inductive storage_stop :=
  | Stopped (status : StorageRequirementStatus) (code : StorageRequirementDiagnosticCode)
      (edge : option Z)
  | Escaped (e : exn).

(** The handlers around the loop. *)
Definition caught (e : exn) : storage_stop :=
  match e with
  | OverflowError => Stopped StorageArithmeticOverflow SRA_STORAGE_ARITHMETIC_OVERFLOW None
  | OutOfRange => Stopped StorageInvalidStagedMapping SRA_INVALID_STAGED_MAPPING None
  | e => Escaped e
  end.

Section Analysis.
Context (dfg : TargetDFG) (target : TargetModel) (mapping : StagedMapping).

(** The transport actions of one edge; the flag is [previousWasHold]. *)
Fixpoint hold_loop (edge producerTime : Z) (domain : NetworkDomain)
    (actions : list (Z * TransportAction)) (previousWasHold : bool) (st : SegmentState)
  : SegmentState * (bool + storage_stop) :=
  match actions with
  | [] => (st, inl previousWasHold)
  | (_, LinkStep _ _ _ _) :: actions => hold_loop edge producerTime domain actions false st
  | (index, VirtualHold _ tile captureElapsed releaseElapsed) :: actions =>
      match checkedAdd producerTime captureElapsed, checkedAdd producerTime releaseElapsed with
      | Some writeTime, Some readTime =>
          if readTime <=? writeTime
          then (st, inr (Stopped StorageInvalidStagedMapping SRA_STORAGE_TIMING_INVALID (Some edge)))
          else hold_loop edge producerTime domain actions true
                 (appendSegment st edge tile domain writeTime readTime
                    (mkOrigin ExplicitVirtualHold edge (Some (wrap32 index))) previousWasHold)
      | _, _ =>
          (st, inr (Stopped StorageArithmeticOverflow SRA_STORAGE_ARITHMETIC_OVERFLOW (Some edge)))
      end
  end.

(** From the last transport action to the consumer. *)
Definition terminal_segment (edge : TargetEdge) (d : MappedDependence) (domain : NetworkDomain)
    (producerTime destinationTime : Z) (previousWasHold : bool) (st : SegmentState)
  : SegmentState * option storage_stop :=
  let overflow := Some (Stopped StorageArithmeticOverflow SRA_STORAGE_ARITHMETIC_OVERFLOW
                          (Some (te_id edge))) in
  match checkedAdd producerTime (md_requiredSeparationCycles d),
        checkedMul (te_distance edge) (mm_ii (sm_modulo mapping)) with
  | Some arrivalTime, Some distanceCycles =>
      match checkedAdd destinationTime distanceCycles with
      | None => (st, overflow)
      | Some consumerUseTime =>
          if consumerUseTime <? arrivalTime
          then (st, Some (Stopped StorageInvalidStagedMapping SRA_STORAGE_TIMING_INVALID
                            (Some (te_id edge))))
          else if arrivalTime <? consumerUseTime then
            match placement (sm_modulo mapping) (te_dst edge) with
            | Throw e => (st, Some (caught e))
            | Ok p =>
                (appendSegment st (te_id edge) (np_tile p) domain arrivalTime consumerUseTime
                   (mkOrigin TerminalSlack (te_id edge) None) previousWasHold, None)
            end
          else (st, None)
      end
  | _, _ => (st, overflow)
  end.

Definition edge_segments (edge : TargetEdge) (st : SegmentState)
  : SegmentState * option storage_stop :=
  match TargetEdge_kind edge with
  | EKMemory => (st, None)
  | _ =>
      match dependence (sm_modulo mapping) (te_id edge) with
      | Throw e => (st, Some (caught e))
      | Ok d =>
          match md_transport d with
          | None => (st, Some (Stopped StorageInvalidStagedMapping SRA_INVALID_STAGED_MAPPING
                                 (Some (te_id edge))))
          | Some transport =>
              match logicalIssueTime mapping (te_src edge),
                    logicalIssueTime mapping (te_dst edge) with
              | Ok producerTime, Ok destinationTime =>
                  match hold_loop (te_id edge) producerTime (tp_domain transport)
                          (enumerate (tp_actions transport)) false st with
                  | (st, inr stop) => (st, Some stop)
                  | (st, inl previousWasHold) =>
                      terminal_segment edge d (tp_domain transport) producerTime destinationTime
                        previousWasHold st
                  end
              | Throw e, _ => (st, Some (caught e))
              | Ok _, Throw e => (st, Some (caught e))
              end
          end
      end
  end.

Fixpoint all_edge_segments (edges : list TargetEdge) (st : SegmentState)
  : SegmentState * option storage_stop :=
  match edges with
  | [] => (st, None)
  | edge :: edges =>
      match edge_segments edge st with
      | (st, None) => all_edge_segments edges st
      | failed => failed
      end
  end.

(** The first segment without a usable bank. *)
Fixpoint bank_failure (segments : list StorageSegment)
  : option (StorageRequirementDiagnosticCode * StorageSegment) :=
  match segments with
  | [] => None
  | segment :: segments =>
      match registerBank target (sg_domain segment) (tile_row (sg_tile segment))
              (tile_col (sg_tile segment)) with
      | None => Some (SRA_TARGET_BANK_MISSING, segment)
      | Some bank =>
          if bool_decide (rf_allocatableIndices bank = []) || (rf_depth bank =? 0) ||
             (rf_readPorts bank =? 0) || (rf_writePorts bank =? 0)
          then Some (SRA_TARGET_RF_CONTRACT_INVALID, segment)
          else bank_failure segments
      end
  end.

Definition storage_failure (merged : Z) (status : StorageRequirementStatus)
    (code : StorageRequirementDiagnosticCode) (edge segment : option Z)
  : StorageRequirementResult :=
  mkStorageResult status None (mkStorageStats 0 0 0 0 0 merged) [mkStorageDiag code edge segment].

Definition count {A} (p : A -> bool) (l : list A) : Z := Z.of_nat (length (List.filter p l)).

Definition is_hold (origin : StorageOrigin) : bool :=
  bool_decide (so_kind origin = ExplicitVirtualHold).

Definition segment_stats (segments : list StorageSegment) (merged : Z) : StorageRequirementStats :=
  let origins := flat_map sg_origins segments in
  let data := fun segment => bool_decide (sg_domain segment = BankData) in
  mkStorageStats (Z.of_nat (length segments)) (count data segments)
    (count (negb ∘ data) segments) (count is_hold origins) (count (negb ∘ is_hold) origins) merged.

(** [StorageRequirementAnalysis::analyze]. *)
Definition storage_analyze : result StorageRequirementResult :=
  targetReport ← tdfg_verify dfg target None;
  if negb (bool_decide (targetReport = []))
  then Ok (storage_failure 0 StorageInvalidTargetDFG SRA_INVALID_TARGET_DFG None None)
  else
    stageReport ← sav_verify dfg target mapping;
    if negb (bool_decide (stageReport = []))
    then Ok (storage_failure 0 StorageInvalidStagedMapping SRA_INVALID_STAGED_MAPPING None None)
    else
      let ii := mm_ii (sm_modulo mapping) in
      if ii =? 0
      then Ok (storage_failure 0 StorageInvalidStagedMapping SRA_INVALID_STAGED_MAPPING None None)
      else match all_edge_segments (sort_by te_id (td_edges dfg)) (mkSegments [] 0) with
      | (_, Some (Escaped e)) => Throw e
      | (st, Some (Stopped status code edge)) =>
          Ok (storage_failure (ss_merged st) status code edge None)
      | (st, None) =>
          match bank_failure (ss_segments st) with
          | Some (code, segment) =>
              Ok (storage_failure (ss_merged st) StorageTargetRFContractError code
                    (Some (sg_edge segment)) (Some (sg_id segment)))
          | None =>
              Ok (mkStorageResult StorageSuccess (Some (mkRequirements ii (ss_segments st)))
                    (segment_stats (ss_segments st) (ss_merged st)) [])
          end
      end.
End Analysis.

(** ** What the segments stand for

    The life of the value of one edge, in absolute cycles of one iteration. *)
Record EdgeTiming := mkTiming {
  et_plan : TransportPlan;
  et_issue : Z;           (* the producer issues *)
  et_ready : Z;           (* the value leaves the producer *)
  et_arrival : Z;         (* the transport ends at the consumer's tile *)
  et_use : Z;             (* the consumer issues *)
  et_destination : TileCoord
}.

Definition edge_timing (dfg : TargetDFG) (staged : StagedMapping) (edge : TargetEdge)
  : result EdgeTiming :=
  d ← dependence (sm_modulo staged) (te_id edge);
  plan ← of_option LogicError (md_transport d);
  issue ← logicalIssueTime staged (te_src edge);
  consumer ← logicalIssueTime staged (te_dst edge);
  p ← placement (sm_modulo staged) (te_dst edge);
  producer ← td_node dfg (te_src edge);
  offset ← of_option LogicError (tn_producerOutputReadyOffset producer);
  Ok (mkTiming plan issue (issue + offset) (issue + md_requiredSeparationCycles d)
        (consumer + te_distance edge * mm_ii (sm_modulo staged)) (np_tile p)).

(** A hold of the plan keeps the value at [tile] during cycle [t]. *)
Definition held (issue : Z) (actions : list TransportAction) (tile : TileCoord) (t : Z) : Prop :=
  exists domain capture release,
    VirtualHold domain tile capture release ∈ actions /\ issue + capture <= t < issue + release.

(** A link of the plan carries the value during cycle [t]. *)
Definition flown (hop issue : Z) (actions : list TransportAction) (t : Z) : Prop :=
  exists domain source direction elapsed,
    LinkStep domain source direction elapsed ∈ actions /\
    issue + elapsed <= t < issue + elapsed + hop.

(** The value sits at [tile] during cycle [t]: in a hold, or at its consumer. *)
Definition waits (T : EdgeTiming) (tile : TileCoord) (t : Z) : Prop :=
  held (et_issue T) (tp_actions (et_plan T)) tile t \/
  (tile = et_destination T /\ et_arrival T <= t < et_use T).

Definition flies (hop : Z) (T : EdgeTiming) (t : Z) : Prop :=
  flown hop (et_issue T) (tp_actions (et_plan T)) t.

(** Some segment keeps the value at [tile] during cycle [t]. *)
Definition stored (segments : list StorageSegment) (tile : TileCoord) (t : Z) : Prop :=
  exists s, s ∈ segments /\ sg_tile s = tile /\ sg_writeTime s <= t < sg_readTime s.

Definition before (a b : StorageSegment) : Prop := sg_readTime a < sg_writeTime b.

(** The segments of one edge account for its value exactly. *)
Record edge_storage (hop : Z) (edge : Z) (T : EdgeTiming) (segments : list StorageSegment)
  : Prop := {
  es_attributes : forall s, s ∈ segments -> sg_edge s = edge /\
    sg_domain s = bankDomain (tp_domain (et_plan T)) /\
    et_ready T <= sg_writeTime s < sg_readTime s /\ sg_readTime s <= et_use T;
  (* maximal stays: two of them are separated by at least one cycle *)
  es_sorted : StronglySorted before segments;
  es_stored : forall tile t, stored segments tile t <-> waits T tile t;
  (* at every cycle of its life the value is in exactly one place *)
  es_located : forall t, et_ready T <= t < et_use T ->
    (flies hop T t /\ forall tile, ~ stored segments tile t) \/
    (~ flies hop T t /\ exists tile, stored segments tile t /\
       forall tile', stored segments tile' t -> tile' = tile)
}.

Definition bank_usable (target : TargetModel) (domain : RegisterBankDomain) (tile : TileCoord)
  : Prop :=
  exists bank, registerBank target domain (tile_row tile) (tile_col tile) = Some bank /\
    rf_allocatableIndices bank <> [] /\ rf_depth bank <> 0 /\ rf_readPorts bank <> 0 /\
    rf_writePorts bank <> 0.

(** The example kernel at II 5 with the running sum sent around the neighbour
    tile: it is held there for a cycle and waits for the next sum at home. *)
Definition v2_routed_mapping_calls : list MappingCall := [
  Place 0 (mkTile 0 0) 3; Place 1 (mkTile 0 1) 1; Place 2 (mkTile 0 0) 2;
  SetTransport 0 (mkPlan 0 NetData [LinkStep NetData (mkTile 0 0) East 2] 3);
  SetTransport 1 (mkPlan 1 NetData [LinkStep NetData (mkTile 0 1) East 0;
    VirtualHold NetData (mkTile 0 2) 1 2; LinkStep NetData (mkTile 0 2) West 2] 3);
  SetTransport 2 (mkPlan 2 NetData [LinkStep NetData (mkTile 0 1) West 0] 1);
  SetMemorySeparation 3 1; SetMemorySeparation 4 1].

Definition v2_routed_mapping : ModuloMapping :=
  match build_mapping v2_accumulate 5 v2_routed_mapping_calls with
  | Ok m => m
  | Throw _ => mkMapping "" 1 [] []
  end.

Definition v2_staged : StagedMapping :=
  match schedule v2_accumulate cgra_v2 v2_routed_mapping with
  | Ok r => default (mkStagedMapping v2_routed_mapping [] 0) (sr_mapping r)
  | Throw _ => mkStagedMapping v2_routed_mapping [] 0
  end.

Example v2_storage :
  (r ← storage_analyze v2_accumulate cgra_v2 v2_staged; Ok (rr_status r,
     (fun s => (sg_edge s, sg_tile s, sg_writeTime s, sg_readTime s))
       <$> rq_segments (default (mkRequirements 0 []) (rr_requirements r)))) =
  Ok (StorageSuccess, [(1, mkTile 0 2, 7, 8); (1, mkTile 0 1, 9, 11)]).
Proof. vm_compute. reflexivity. Qed.

(** At its own tile the sum would wait a whole interval, hold and slack merged. *)
Example v2_storage_merged :
  (r ← schedule v2_accumulate cgra_v2 v2_staged_mapping;
   staged ← of_option LogicError (sr_mapping r);
   r ← storage_analyze v2_accumulate cgra_v2 staged; Ok (rr_stats r,
     (fun s => (sg_edge s, sg_tile s, sg_writeTime s, sg_readTime s))
       <$> rq_segments (default (mkRequirements 0 []) (rr_requirements r)))) =
  Ok (mkStorageStats 1 1 0 1 1 1, [(1, mkTile 0 1, 6, 11)]).
Proof. vm_compute. reflexivity. Qed.

(** ** A clean stage assignment *)

(** The stages are unsigned in the code. *)
Definition typed_staged (staged : StagedMapping) : Prop :=
  typed_mapping (sm_modulo staged) /\ typed_dependences (sm_modulo staged) /\
  forall entry, entry ∈ sm_stages staged -> 0 <= ns_stage entry.

Lemma find_if_elem {A} (p : A -> bool) l x : find_if p l = Some x -> x ∈ l.
Proof. intros H. by apply find_if_Some in H as [? _]. Qed.

Lemma logicalIssueTime_range staged node t :
  typed_staged staged -> logicalIssueTime staged node = Ok t -> 0 <= t <= u64_max.
Proof.
  intros [[_ Hp] _] H. unfold logicalIssueTime in H. inv_ok.
  unfold placement in Hv. inv_ok. specialize (Hp _ (find_if_elem _ _ _ Hv)).
  destruct (_ && _)%bool; [done|]. destruct (Z.ltb_spec (u64_max - np_issueSlot v)
    (wrap64 (v0 * mm_ii (sm_modulo staged)))); [done|]. injection H as <-.
  assert (0 <= wrap64 (v0 * mm_ii (sm_modulo staged))) by (apply Z.mod_pos_bound; lia). lia.
Qed.

Lemma logical_times_clean staged nodes times times' diags :
  (forall id t, times !! id = Some t -> logicalIssueTime staged id = Ok t) ->
  logical_times staged nodes times diags = Ok (times', []) ->
  forall id t, times' !! id = Some t -> logicalIssueTime staged id = Ok t.
Proof.
  revert times diags. induction nodes as [|node nodes IH]; intros times diags Ht; simpl.
  { intros [= -> ->]. done. }
  destruct (logicalIssueTime staged (tn_id node)) as [time|[]] eqn:E; try done; intros H;
    eapply IH; [|exact H| |exact H| |exact H]; try done.
  intros id t. destruct (times !! tn_id node) eqn:En; [apply Ht|].
  rewrite lookup_insert. case_decide as Eid; [|apply Ht]. intros [= <-]. by subst.
Qed.

Lemma all_edge_times_each staged times edges edge :
  all_edge_time_diags staged times edges = Ok [] -> edge ∈ edges ->
  edge_time_diags staged times edge = Ok [].
Proof.
  induction edges as [|e edges IH]; simpl; intros H Hin; [by apply not_elem_of_nil in Hin|].
  inv_ok. apply app_nil in H as [-> ->]. apply elem_of_cons in Hin as [->|Hin]; auto.
Qed.

(** What the assignment verifier guarantees for the edges: the times exist, no
    sum overflows, and the consumer issues late enough. *)
Definition timed_edge (staged : StagedMapping) (edge : TargetEdge) (issue consumer : Z)
    (d : MappedDependence) : Prop :=
  logicalIssueTime staged (te_src edge) = Ok issue /\
  logicalIssueTime staged (te_dst edge) = Ok consumer /\
  dependence (sm_modulo staged) (te_id edge) = Ok d /\
  0 <= issue /\ 0 <= consumer /\
  issue + md_requiredSeparationCycles d <=
    consumer + te_distance edge * mm_ii (sm_modulo staged) <= u64_max.

Lemma edge_time_diags_clean staged times edge :
  typed_staged staged -> is_u32 (te_distance edge) -> mm_ii (sm_modulo staged) <> 0 ->
  (forall id t, times !! id = Some t -> logicalIssueTime staged id = Ok t) ->
  edge_time_diags staged times edge = Ok [] -> exists issue consumer d, timed_edge staged edge issue consumer d.
Proof.
  intros Hty Hd Hii Ht H. unfold edge_time_diags in H. inv_ok.
  apply Ht in Hv as Hi. apply Ht in Hv0 as Hc.
  pose proof (logicalIssueTime_range _ _ _ Hty Hi). pose proof (logicalIssueTime_range _ _ _ Hty Hc).
  destruct (checkedMultiplyAdd _ _ _) as [lhs|] eqn:El; [|done]. inv_ok. rename v1 into d.
  destruct (Z.ltb_spec (u64_max - md_requiredSeparationCycles d) v); [done|].
  injection H as H. apply when_nil in H; [|done]. bool_hyps.
  exists v, v0, d. split_and!; try done; try lia.
  all: unfold checkedMultiplyAdd in El; destruct (_ && _)%bool eqn:Eb; [done|]; injection El as <-.
  all: destruct Hty as [[[? ?] _] _]; unfold is_u32, u32_max in *.
  all: replace (negb (mm_ii (sm_modulo staged) =? 0)) with true in Eb by lia; simpl in Eb.
  all: apply Z.ltb_ge in Eb.
  all: assert (te_distance edge * mm_ii (sm_modulo staged) <= u64_max - v0)
    by (pose proof (Z.mul_div_le (u64_max - v0) (mm_ii (sm_modulo staged))); nia).
  - rewrite wrap64_id in H by (unfold is_u64; nia). lia.
  - lia.
Qed.

Lemma sav_verify_clean dfg target staged :
  TargetDFG_inv dfg -> TargetModel_wf target -> typed_graph dfg -> typed_staged staged ->
  universe_fits target (mm_ii (sm_modulo staged)) -> sav_verify dfg target staged = Ok [] ->
  valid_mapping dfg target (sm_modulo staged) /\
  forall edge, edge ∈ td_edges dfg -> exists issue consumer d, timed_edge staged edge issue consumer d.
Proof.
  intros Hinv Htwf Htyped Hty Hu H. unfold sav_verify in H. inv_ok.
  case_bool_decide; [|done]. simpl in H. destruct (negb _); [done|]. inv_ok.
  case_bool_decide; [|done]. simpl in H. subst.
  assert (Hvm : valid_mapping dfg target (sm_modulo staged))
    by (apply mmv_verify_sound; [done|done|apply Hty|done|done]).
  split; [done|]. intros edge Hedge.
  destruct (stage_coverage_diags dfg staged); [|done]. inv_ok. destruct v as [times [|]]; [|done].
  destruct (mm_ii (sm_modulo staged) =? 0) eqn:Eii; [done|].
  apply edge_time_diags_clean with times; [done|by apply Htyped|lia| |].
  - apply (logical_times_clean staged (td_nodes dfg) ∅ times []); [|done].
    intros id t. by rewrite lookup_empty.
  - by eapply all_edge_times_each.
Qed.

(** ** One edge *)

(** Identifiers are positions in the vector. *)
Definition dense_ids (segments : list StorageSegment) : Prop :=
  forall i s, segments !! i = Some s -> sg_id s = wrap32 (Z.of_nat i).

Lemma stored_app l k tile t : stored (l ++ k) tile t <-> stored l tile t \/ stored k tile t.
Proof. unfold stored. setoid_rewrite elem_of_app. naive_solver. Qed.

Lemma stored_singleton s tile t :
  stored [s] tile t <-> sg_tile s = tile /\ sg_writeTime s <= t < sg_readTime s.
Proof. unfold stored. setoid_rewrite list_elem_of_singleton. naive_solver. Qed.

Section OneEdge.
Context (edge : Z) (domain : NetworkDomain) (start : Z).

(** The segments built so far for the edge, with the value at [tile] at [time];
    the flag says that the last action was a hold. *)
Record building (previousWasHold : bool) (tile : TileCoord) (time : Z)
    (segments : list StorageSegment) : Prop := {
  bd_start : start <= time;
  bd_attributes : forall s, s ∈ segments -> sg_edge s = edge /\ sg_domain s = bankDomain domain /\
    start <= sg_writeTime s < sg_readTime s /\ sg_readTime s <= time;
  bd_sorted : StronglySorted before segments;
  bd_last : if previousWasHold
    then exists init s, segments = init ++ [s] /\ sg_tile s = tile /\ sg_readTime s = time
    else forall s, s ∈ segments -> sg_readTime s < time
}.

Lemma building_past previousWasHold tile time segments time' tile' :
  building previousWasHold tile time segments -> time < time' ->
  building false tile' time' segments.
Proof.
  intros [Hs Ha Hsort _] Ht. split; [lia| |done|].
  - intros s Hs'. destruct (Ha s Hs') as (? & ? & ? & ?). split_and!; try done; lia.
  - intros s Hs'. destruct (Ha s Hs') as (? & ? & ? & ?). lia.
Qed.

Lemma sorted_snoc segments s :
  StronglySorted before segments -> (forall a, a ∈ segments -> before a s) ->
  StronglySorted before (segments ++ [s]).
Proof.
  intros Hsort Hs. apply StronglySorted_app_2; [|done|repeat constructor].
  intros a b Ha Hb. apply list_elem_of_singleton in Hb as ->. by apply Hs.
Qed.

Lemma building_fresh tile time segments release id origins :
  building false tile time segments -> time < release ->
  building true tile release
    (segments ++ [mkSegment id edge tile (bankDomain domain) time release origins]).
Proof.
  intros [Hs Ha Hsort Hl] Ht. split; [lia| | |].
  - intros s Hin. apply elem_of_app in Hin as [Hin|Hin].
    + destruct (Ha s Hin) as (? & ? & ? & ?). split_and!; try done; lia.
    + apply list_elem_of_singleton in Hin as ->. simpl. split_and!; try done; lia.
  - apply sorted_snoc; [done|]. intros a Hin. apply Hl in Hin. done.
  - by eexists _, _.
Qed.

Lemma building_merge init s origins release :
  building true (sg_tile s) (sg_readTime s) (init ++ [s]) -> sg_readTime s < release ->
  building true (sg_tile s) release
    (init ++ [mkSegment (sg_id s) (sg_edge s) (sg_tile s) (sg_domain s) (sg_writeTime s) release
                origins]).
Proof.
  intros [Hs Ha Hsort _] Ht. split; [lia| | |].
  - intros a Hin. apply elem_of_app in Hin as [Hin|Hin].
    + destruct (Ha a ltac:(set_solver)) as (? & ? & ? & ?). split_and!; try done; lia.
    + apply list_elem_of_singleton in Hin as ->. simpl.
      destruct (Ha s ltac:(set_solver)) as (? & ? & ? & ?). split_and!; try done; lia.
  - apply StronglySorted_app in Hsort as (Hi & Hx & _). apply sorted_snoc; [done|].
    intros a Hin. apply (Hi a s Hin). by left.
  - by eexists _, _.
Qed.

(** Appending keeps the list in shape, merges exactly when it may, and adds the
    interval to what is stored. *)
Lemma appendSegment_spec old segments previousWasHold tile time release origin merged :
  building previousWasHold tile time segments -> time < release ->
  exists segments' merged',
    appendSegment (mkSegments (old ++ segments) merged) edge tile domain time release origin
      previousWasHold = mkSegments (old ++ segments') merged' /\
    building true tile release segments' /\
    (dense_ids (old ++ segments) -> dense_ids (old ++ segments')) /\
    forall x t, stored segments' x t <-> stored segments x t \/ (x = tile /\ time <= t < release).
Proof.
  intros Hb Ht. destruct previousWasHold.
  - destruct (bd_last _ _ _ _ Hb) as (init & s & -> & <- & <-).
    destruct (bd_attributes _ _ _ _ Hb s ltac:(set_solver)) as (He & Hd & Hw & _).
    unfold appendSegment. cbn [ss_segments ss_merged]. rewrite app_assoc, last_snoc.
    unfold extends_segment. rewrite He, Hd, !Z.eqb_refl, !bool_decide_eq_true_2 by done. simpl.
    eexists (init ++ [_]), _. split_and!.
    + rewrite length_app. simpl. rewrite Nat.add_sub.
      replace (length (old ++ init)) with (length (old ++ init) + 0)%nat by lia.
      rewrite insert_app_r. simpl. by rewrite <- app_assoc.
    + rewrite <- He, <- Hd. by apply building_merge.
    + rewrite app_assoc. intros Hids i a Hi. apply lookup_app_Some in Hi as [Hi|[Hlen Hi]].
      * apply Hids. by apply lookup_app_l_Some.
      * apply list_lookup_singleton_Some in Hi as [Hi <-]. simpl. apply Hids.
        rewrite lookup_app_r by done. by rewrite Hi.
    + intros x t. rewrite !stored_app, !stored_singleton. simpl.
      split; [intros [Hi|[<- Hr]]|intros [[Hi|[<- Hr]]|[-> Hr]]].
      * by left; left.
      * destruct (decide (t < sg_readTime s)); [left; right|right]; (split; [done|lia]).
      * by left.
      * right. split; [done|lia].
      * right. split; [done|lia].
  - unfold appendSegment. cbn [ss_segments ss_merged].
    eexists (segments ++ [_]), _. rewrite app_assoc. split_and!; [done| | |].
    + by apply building_fresh.
    + intros Hids i a Hi. apply lookup_app_Some in Hi as [Hi|[Hlen Hi]]; [by apply Hids|].
      apply list_lookup_singleton_Some in Hi as [Hi <-]. simpl. f_equal. lia.
    + intros x t. rewrite stored_app, stored_singleton. simpl. naive_solver.
Qed.
End OneEdge.

(** ** Routes leave no gap *)

Section Routes.
Context (target : TargetModel) (hop : Z) (Hhop : 0 < hop) (issue : Z).

Lemma held_cons_link d src dir e actions tile t :
  held issue (LinkStep d src dir e :: actions) tile t <-> held issue actions tile t.
Proof. unfold held. setoid_rewrite elem_of_cons. naive_solver. Qed.

Lemma held_cons_hold d x c r actions tile t :
  held issue (VirtualHold d x c r :: actions) tile t <->
  (tile = x /\ issue + c <= t < issue + r) \/ held issue actions tile t.
Proof. unfold held. setoid_rewrite elem_of_cons. naive_solver. Qed.

Lemma flown_cons_link d src dir e actions t :
  flown hop issue (LinkStep d src dir e :: actions) t <->
  issue + e <= t < issue + e + hop \/ flown hop issue actions t.
Proof. unfold flown. setoid_rewrite elem_of_cons. naive_solver. Qed.

Lemma flown_cons_hold d x c r actions t :
  flown hop issue (VirtualHold d x c r :: actions) t <-> flown hop issue actions t.
Proof. unfold flown. setoid_rewrite elem_of_cons. naive_solver. Qed.

Lemma route_time domain tile e actions tile' e' :
  route target hop domain tile e actions tile' e' -> e <= e'.
Proof using Hhop. intros H. apply route_elapsed in H; [|done]. lia. Qed.

Lemma route_window domain tile e actions tile' e' :
  route target hop domain tile e actions tile' e' ->
  (forall x t, held issue actions x t -> issue + e <= t < issue + e') /\
  (forall t, flown hop issue actions t -> issue + e <= t < issue + e').
Proof using Hhop.
  induction 1 as [tile e|tile e dir next actions tile' e' _ Hr [IHh IHf]
    |tile e release actions tile' e' Hlt Hr [IHh IHf]].
  - unfold held, flown. setoid_rewrite elem_of_nil. naive_solver.
  - apply route_time in Hr. split; intros *.
    + rewrite held_cons_link. intros Hh. apply IHh in Hh. lia.
    + rewrite flown_cons_link. intros [|Hf]; [lia|]. apply IHf in Hf. lia.
  - apply route_time in Hr. split; intros *.
    + rewrite held_cons_hold. intros [[_ ?]|Hh]; [lia|]. apply IHh in Hh. lia.
    + rewrite flown_cons_hold. intros Hf. apply IHf in Hf. lia.
Qed.

(** Between its departure and its arrival the value is on one link or held at one
    tile, never both and never neither. *)
Lemma route_located domain tile e actions tile' e' :
  route target hop domain tile e actions tile' e' ->
  forall t, issue + e <= t < issue + e' ->
  (flown hop issue actions t /\ forall x, ~ held issue actions x t) \/
  (~ flown hop issue actions t /\ exists x, held issue actions x t /\
     forall y, held issue actions y t -> y = x).
Proof using Hhop.
  induction 1 as [tile e|tile e dir next actions tile' e' _ Hr IH
    |tile e release actions tile' e' Hlt Hr IH]; intros t Ht; [lia| |].
  - setoid_rewrite held_cons_link. setoid_rewrite flown_cons_link.
    apply route_window in Hr as [Hh Hf]. destruct (decide (t < issue + e + hop)).
    + left. split; [left; lia|]. intros x Hx. apply Hh in Hx. lia.
    + destruct (IH t ltac:(lia)) as [[? ?]|[Hn Hx]]; [left; auto|right]. split; [|done].
      intros [|]; [lia|done].
  - setoid_rewrite held_cons_hold. setoid_rewrite flown_cons_hold.
    apply route_window in Hr as [Hh Hf]. destruct (decide (t < issue + release)).
    + right. split; [intros Hx; apply Hf in Hx; lia|]. exists tile.
      split; [left; split; [done|lia]|]. intros y [[-> _]|Hy]; [done|]. apply Hh in Hy. lia.
    + destruct (IH t ltac:(lia)) as [[? Hn]|[Hn (x & Hx & Hu)]]; [left|right].
      * split; [done|]. intros x [[_ ?]|Hx]; [lia|]. by apply (Hn x).
      * split; [done|]. exists x. split; [by right|]. intros y [[_ ?]|Hy]; [lia|auto].
Qed.

Lemma hold_loop_spec edge start old domain tile e actions tile' e' :
  route target hop domain tile e actions tile' e' ->
  0 <= issue -> 0 <= e -> issue + e' <= u64_max ->
  forall pairs previousWasHold segments merged, pairs.*2 = actions ->
  building edge domain start previousWasHold tile (issue + e) segments ->
  exists segments' merged' previousWasHold',
    hold_loop edge issue domain pairs previousWasHold (mkSegments (old ++ segments) merged) =
      (mkSegments (old ++ segments') merged', inl previousWasHold') /\
    building edge domain start previousWasHold' tile' (issue + e') segments' /\
    (dense_ids (old ++ segments) -> dense_ids (old ++ segments')) /\
    forall x t, stored segments' x t <-> stored segments x t \/ held issue actions x t.
Proof using Hhop.
  intros Hr Hi. induction Hr as [tile e|tile e dir next actions tile' e' _ Hr IH
    |tile e release actions tile' e' Hlt Hr IH]; intros He Hmax pairs prev segments merged Hp Hb.
  - apply fmap_nil_inv in Hp as ->. exists segments, merged, prev. split_and!; try done.
    intros x t. unfold held. setoid_rewrite elem_of_nil. naive_solver.
  - destruct pairs as [|[i action] pairs]; [done|]. injection Hp as -> Hp. simpl.
    destruct (IH ltac:(lia) Hmax pairs false segments merged Hp) as (s' & m' & p' & -> & H1 & H2 & H3).
    { apply building_past with prev tile (issue + e); [done|lia]. }
    exists s', m', p'. split_and!; try done. intros x t. by rewrite held_cons_link.
  - destruct pairs as [|[i action] pairs]; [done|]. injection Hp as -> Hp. simpl.
    pose proof (route_time _ _ _ _ _ _ Hr). unfold checkedAdd.
    rewrite !(proj2 (Z.ltb_ge _ _)) by lia. rewrite (proj2 (Z.leb_gt _ _)) by lia.
    destruct (appendSegment_spec edge domain start old segments prev tile (issue + e)
      (issue + release) (mkOrigin ExplicitVirtualHold edge (Some (wrap32 i))) merged Hb ltac:(lia))
      as (s1 & m1 & -> & Hb1 & Hd1 & Hs1).
    destruct (IH ltac:(lia) Hmax pairs true s1 m1 Hp Hb1) as (s' & m' & p' & -> & H1 & H2 & H3).
    exists s', m', p'. split_and!; try done; [auto|]. intros x t.
    rewrite H3, Hs1, held_cons_hold. naive_solver.
Qed.
End Routes.

(** ** Every edge *)

Section Verified.
Context (dfg : TargetDFG) (target : TargetModel) (staged : StagedMapping).
Context (Hinv : TargetDFG_inv dfg) (Htwf : TargetModel_wf target).
Context (Hvm : valid_mapping dfg target (sm_modulo staged)).
Context (Htimes : forall edge, edge ∈ td_edges dfg ->
  exists issue consumer d, timed_edge staged edge issue consumer d).
Context (Hii : 0 <= mm_ii (sm_modulo staged)) (Htyped : typed_graph dfg).

Let hop := net_hopLatency (tm_interconnect target).

Lemma ready_offset_nonneg id producer ready :
  td_node dfg id = Ok producer -> tn_producerOutputReadyOffset producer = Some ready -> 0 <= ready.
Proof using Hinv Htwf Hvm.
  intros Hp Hr. apply td_node_Ok in Hp as [Hn _]; [|done].
  destruct (tv_nodes _ _ _ (vm_graph _ _ _ Hvm) producer Hn)
    as (op & Hop & _ & _ & _ & _ & Er & _).
  pose proof (wf_timing target Htwf op (findOperation_elem target _ _ Hop)) as Ht.
  rewrite Er, Hr in Ht.
  destruct (op_resultRole op); [| |by destruct Ht]; destruct Ht as [_ (r & [= ->] & ?)]; lia.
Qed.

(** The facts about a value edge that the analysis uses. *)
Lemma value_edge_timing edge : edge ∈ td_edges dfg -> TargetEdge_kind edge <> EKMemory ->
  exists issue consumer d plan p ready src,
    timed_edge staged edge issue consumer d /\ md_transport d = Some plan /\
    placement (sm_modulo staged) (te_src edge) = Ok src /\
    placement (sm_modulo staged) (te_dst edge) = Ok p /\ 0 <= ready /\
    edge_timing dfg staged edge = Ok (mkTiming plan issue (issue + ready)
      (issue + md_requiredSeparationCycles d)
      (consumer + te_distance edge * mm_ii (sm_modulo staged)) (np_tile p)) /\
    route target hop (tp_domain plan) (np_tile src) ready (tp_actions plan) (np_tile p)
      (md_requiredSeparationCycles d).
Proof using Hinv Htwf Hvm Htimes.
  intros Hedge Hk. destruct (Htimes edge Hedge) as (issue & consumer & d & Htd).
  destruct (vm_edges _ _ _ Hvm edge Hedge) as (d' & Hreal & _ & Hshape).
  apply realised_dependence in Hreal. pose proof Htd as (Hi & Hc & Hd & _).
  assert (d' = d) as -> by congruence.
  assert (Htv : transport_valid dfg target (sm_modulo staged) edge d).
  { unfold TargetEdge_kind in Hk. by destruct (te_info edge). }
  destruct Htv as (plan & src & p & producer & ready & Et & _ & _ & Esep & Hsrc & Hpl & Hp & Er & _ & Hroute).
  apply placed_placement in Hsrc, Hpl.
  exists issue, consumer, d, plan, p, ready, src. split_and!; try done.
  - by eapply ready_offset_nonneg.
  - unfold edge_timing. rewrite Hd. simpl. rewrite Et. simpl. rewrite Hi. simpl. rewrite Hc. simpl.
    rewrite Hpl. simpl. rewrite Hp. simpl. by rewrite Er.
  - by rewrite Esep.
Qed.

Lemma terminal_segment_spec edge issue consumer d plan p old segments merged prev start :
  edge ∈ td_edges dfg -> timed_edge staged edge issue consumer d ->
  placement (sm_modulo staged) (te_dst edge) = Ok p -> 0 <= md_requiredSeparationCycles d ->
  building (te_id edge) (tp_domain plan) start prev (np_tile p)
    (issue + md_requiredSeparationCycles d) segments ->
  let use := consumer + te_distance edge * mm_ii (sm_modulo staged) in
  exists segments' merged',
    terminal_segment staged edge d (tp_domain plan) issue consumer prev
      (mkSegments (old ++ segments) merged) = (mkSegments (old ++ segments') merged', None) /\
    (exists prev', building (te_id edge) (tp_domain plan) start prev' (np_tile p) use segments') /\
    (dense_ids (old ++ segments) -> dense_ids (old ++ segments')) /\
    forall x t, stored segments' x t <-> stored segments x t \/
      (x = np_tile p /\ issue + md_requiredSeparationCycles d <= t < use).
Proof using Hii Htyped.
  clear hop. intros Hedge (_ & _ & _ & Hi & Hc & Hle & Hmax) Hp Hsep Hb use. unfold terminal_segment.
  assert (0 <= te_distance edge) by apply (Htyped edge Hedge).
  assert (0 <= te_distance edge * mm_ii (sm_modulo staged)) by nia.
  assert (checkedAdd issue (md_requiredSeparationCycles d) =
    Some (issue + md_requiredSeparationCycles d)) as ->
    by (unfold checkedAdd; by rewrite (proj2 (Z.ltb_ge _ _)) by lia).
  assert (checkedMul (te_distance edge) (mm_ii (sm_modulo staged)) =
    Some (te_distance edge * mm_ii (sm_modulo staged))) as ->.
  { unfold checkedMul. rewrite wrap64_id by (unfold is_u64; lia).
    destruct (Z.eqb_spec (te_distance edge) 0); simpl; [done|].
    rewrite (proj2 (Z.ltb_ge _ _)); [done|]. apply Z.div_le_lower_bound; lia. }
  assert (checkedAdd consumer (te_distance edge * mm_ii (sm_modulo staged)) = Some use) as ->
    by (unfold checkedAdd; by rewrite (proj2 (Z.ltb_ge _ _)) by lia).
  rewrite (proj2 (Z.ltb_ge use _)) by (unfold use; lia).
  destruct (Z.ltb_spec (issue + md_requiredSeparationCycles d) use) as [Hlt|Hge].
  - rewrite Hp.
    destruct (appendSegment_spec (te_id edge) (tp_domain plan) start old segments prev (np_tile p)
      (issue + md_requiredSeparationCycles d) use (mkOrigin TerminalSlack (te_id edge) None) merged
      Hb Hlt) as (s' & m' & -> & Hb' & Hd & Hs).
    exists s', m'. split_and!; try done. by exists true.
  - assert (use = issue + md_requiredSeparationCycles d) as -> by (unfold use in *; lia).
    exists segments, merged. split_and!; try done; [by exists prev|]. intros x t.
    split; [by left|]. intros [?|[_ ?]]; [done|lia].
Qed.

Lemma edge_segments_spec edge old merged :
  edge ∈ td_edges dfg -> TargetEdge_kind edge <> EKMemory ->
  exists T segments merged',
    edge_timing dfg staged edge = Ok T /\
    edge_segments staged edge (mkSegments old merged) = (mkSegments (old ++ segments) merged', None) /\
    edge_storage hop (te_id edge) T segments /\
    (dense_ids old -> dense_ids (old ++ segments)).
Proof using All.
  intros Hedge Hk.
  destruct (value_edge_timing edge Hedge Hk)
    as (issue & consumer & d & plan & p & ready & src & Htd & Et & _ & Hp & Hready & ET & Hroute).
  pose proof Htd as (Hi & Hc & Hd & Hi0 & Hc0 & Hle & Hmax).
  pose proof (wf_hopLatency target Htwf) as Hhop.
  pose proof (route_time target hop ltac:(unfold hop; lia) _ _ _ _ _ _ Hroute) as Hrt.
  assert (Hb : building (te_id edge) (tp_domain plan) (issue + ready) false (np_tile src)
    (issue + ready) []).
  { split; [lia|by intros s ?%not_elem_of_nil|constructor|by intros s ?%not_elem_of_nil]. }
  destruct (hold_loop_spec target hop ltac:(unfold hop; lia) issue (te_id edge) (issue + ready) old
    _ _ _ _ _ _ Hroute Hi0 Hready ltac:(lia) (enumerate (tp_actions plan)) false [] merged
    (enumerate_snd _) Hb) as (s1 & m1 & prev & Hloop & Hb1 & Hd1 & Hs1).
  destruct (terminal_segment_spec edge issue consumer d plan p old s1 m1 prev (issue + ready)
    Hedge Htd Hp ltac:(lia) Hb1) as (s2 & m2 & Hterm & (prev' & Hb2) & Hd2 & Hs2).
  rewrite app_nil_r in Hloop, Hd1.
  eexists _, s2, m2. split; [exact ET|]. split.
  { unfold edge_segments. rewrite Hd, Et, Hi, Hc, Hloop, Hterm. by destruct (TargetEdge_kind edge). }
  split; [|auto].
  assert (Hstored : forall x t, stored s2 x t <-> held issue (tp_actions plan) x t \/
    (x = np_tile p /\ issue + md_requiredSeparationCycles d <= t <
       consumer + te_distance edge * mm_ii (sm_modulo staged))).
  { intros x t. rewrite Hs2, Hs1. unfold stored at 1. setoid_rewrite elem_of_nil. naive_solver. }
  destruct (route_window target hop ltac:(unfold hop; lia) issue _ _ _ _ _ _ Hroute) as [Hwh Hwf].
  split; unfold waits, flies; simpl.
  - apply Hb2.
  - apply Hb2.
  - exact Hstored.
  - intros t Ht. setoid_rewrite Hstored.
    destruct (decide (t < issue + md_requiredSeparationCycles d)) as [Hlt|Hge].
    + destruct (route_located target hop ltac:(unfold hop; lia) issue _ _ _ _ _ _ Hroute t ltac:(lia))
        as [[Hf Hn]|[Hn (x & Hx & Hu)]]; [left|right].
      * split; [done|]. intros x [Hx|[_ ?]]; [by apply (Hn x)|lia].
      * split; [done|]. exists x. split; [by left|]. intros y [Hy|[_ ?]]; [by apply Hu|lia].
    + right. split; [intros Hf; apply Hwf in Hf; lia|]. exists (np_tile p).
      split; [right; split; [done|lia]|]. intros y [Hy|[-> _]]; [|done]. apply Hwh in Hy. lia.
Qed.

Definition edge_part (edge : TargetEdge) (part : list StorageSegment) : Prop :=
  match TargetEdge_kind edge with
  | EKMemory => part = []
  | _ => exists T, edge_timing dfg staged edge = Ok T /\ edge_storage hop (te_id edge) T part
  end.

Lemma all_edge_segments_spec edges old merged : edges ⊆ td_edges dfg ->
  exists parts merged',
    all_edge_segments staged edges (mkSegments old merged) =
      (mkSegments (old ++ concat parts) merged', None) /\
    Forall2 edge_part edges parts /\ (dense_ids old -> dense_ids (old ++ concat parts)).
Proof using All.
  revert old merged. induction edges as [|edge edges IH]; intros old merged Hsub; simpl.
  { exists [], merged. simpl. by rewrite app_nil_r. }
  assert (Hrest : edges ⊆ td_edges dfg) by (intros x Hx; apply Hsub; by right).
  assert (Hpart : exists part merged', edge_segments staged edge (mkSegments old merged) =
      (mkSegments (old ++ part) merged', None) /\ edge_part edge part /\
      (dense_ids old -> dense_ids (old ++ part))).
  { unfold edge_part. destruct (decide (TargetEdge_kind edge = EKMemory)) as [E|E].
    - exists [], merged. unfold edge_segments. rewrite E, app_nil_r. done.
    - destruct (edge_segments_spec edge old merged (Hsub edge ltac:(left)) E)
        as (T & part & m' & HT & Heq & Hst & Hd).
      exists part, m'. split; [done|]. split; [|done]. destruct (TargetEdge_kind edge); eauto. done. }
  destruct Hpart as (part & m1 & -> & Hpart & Hd1).
  destruct (IH (old ++ part) m1 Hrest) as (parts & m2 & -> & Hparts & Hd2).
  exists (part :: parts), m2. simpl. rewrite app_assoc. split_and!; [done|by constructor|auto].
Qed.

Lemma edge_part_id edge part s : edge_part edge part -> s ∈ part ->
  TargetEdge_kind edge <> EKMemory /\ sg_edge s = te_id edge.
Proof.
  unfold edge_part. destruct (TargetEdge_kind edge); intros H Hs.
  1, 2: destruct H as (T & _ & H); split; [done|by apply (es_attributes _ _ _ _ H)].
  subst. by apply not_elem_of_nil in Hs.
Qed.

Lemma edge_parts_elem edges parts s : Forall2 edge_part edges parts -> s ∈ concat parts ->
  exists edge part, edge ∈ edges /\ edge_part edge part /\ s ∈ part.
Proof.
  induction 1 as [|edge part edges parts Hp Hps IH]; simpl; intros Hs;
    [by apply not_elem_of_nil in Hs|].
  apply elem_of_app in Hs as [Hs|Hs]; [exists edge, part; split; [left|done]|].
  destruct (IH Hs) as (e & p & He & ? & ?). exists e, p. split; [by right|done].
Qed.

(** The segments of an edge are the ones its part of the loop produced. *)
Lemma edge_parts_filter edges parts edge :
  NoDup (te_id <$> edges) -> Forall2 edge_part edges parts -> edge ∈ edges ->
  edge_part edge (filter (fun s => sg_edge s = te_id edge) (concat parts)).
Proof.
  assert (Hnone : forall edges parts id, Forall2 edge_part edges parts ->
    (forall e, e ∈ edges -> te_id e <> id) -> filter (fun s => sg_edge s = id) (concat parts) = []).
  { intros es ps id Hps Hid. apply list_nil_filter_iff. intros s Hs Hsid.
    destruct (edge_parts_elem es ps s Hps Hs) as (e & p & He & Hp & Hin).
    apply (edge_part_id _ _ _ Hp) in Hin as [_ Hin]. apply (Hid e He). congruence. }
  intros Hnd Hps. revert Hnd. induction Hps as [|e part edges parts Hp Hps IH]; intros Hnd Hin;
    [by apply not_elem_of_nil in Hin|].
  rewrite fmap_cons in Hnd. apply NoDup_cons in Hnd as [Hn Hnd]. simpl. rewrite filter_app.
  assert (Hne : forall e', e' ∈ edges -> te_id e' <> te_id e).
  { intros e' He' E. apply Hn. rewrite <- E. by apply list_elem_of_fmap_2. }
  apply elem_of_cons in Hin as [->|Hin].
  - rewrite (Hnone edges parts) by done. rewrite app_nil_r.
    rewrite (list_filter_all _ part); [done|].
    intros s Hs. by apply (edge_part_id _ _ _ Hp) in Hs as [_ ?].
  - assert (filter (fun s => sg_edge s = te_id edge) part = []) as ->.
    { apply list_nil_filter_iff. intros s Hs Hsid. apply (edge_part_id _ _ _ Hp) in Hs as [_ ?].
      apply (Hne edge Hin). congruence. }
    by apply IH.
Qed.
End Verified.

Lemma bank_failure_None target segments :
  bank_failure target segments = None <->
  forall s, s ∈ segments -> bank_usable target (sg_domain s) (sg_tile s).
Proof.
  unfold bank_usable. induction segments as [|s segments IH]; simpl.
  { split; [intros _ s Hs; by apply not_elem_of_nil in Hs|done]. }
  assert (Hall : forall Q : StorageSegment -> Prop, (forall x, x ∈ s :: segments -> Q x) <->
    Q s /\ forall x, x ∈ segments -> Q x) by (intros Q; setoid_rewrite elem_of_cons; naive_solver).
  rewrite Hall. destruct (registerBank _ _ _ _) as [bank|] eqn:E.
  - destruct (_ || _)%bool eqn:Eb.
    + split; [done|]. intros [(bank' & [= <-] & ? & ? & ? & ?) _].
      rewrite bool_decide_eq_false_2 in Eb by done. lia.
    + rewrite IH. bool_hyps. split; [intros H|intros [_ H]]; [split; [|exact H]|exact H].
      exists bank. split_and!; [done|done|lia..].
  - split; [done|]. by intros [(bank' & [=] & _) _].
Qed.

Lemma bank_failure_Some target segments code s :
  bank_failure target segments = Some (code, s) ->
  s ∈ segments /\ ~ bank_usable target (sg_domain s) (sg_tile s).
Proof.
  induction segments as [|s' segments IH]; simpl; [done|].
  destruct (registerBank _ _ _ _) as [bank|] eqn:E; [destruct (_ || _)%bool eqn:Eb|]; intros H.
  - injection H as _ ->. split; [left|]. intros (bank' & E' & ? & ? & ? & ?).
    rewrite E in E'. injection E' as <-. rewrite bool_decide_eq_false_2 in Eb by done. lia.
  - destruct (IH H). split; [by right|done].
  - injection H as _ ->. split; [left|]. intros (bank' & E' & _). congruence.
Qed.

(** ** Properties *)

(** The requirements account for the value of every edge, and nothing else. *)
Definition requirements_exact (dfg : TargetDFG) (target : TargetModel) (staged : StagedMapping)
    (q : StorageRequirements) : Prop :=
  rq_ii q = mm_ii (sm_modulo staged) /\ dense_ids (rq_segments q) /\
  (forall s, s ∈ rq_segments q -> exists edge, edge ∈ td_edges dfg /\
     TargetEdge_kind edge <> EKMemory /\ sg_edge s = te_id edge) /\
  (forall edge, edge ∈ td_edges dfg -> TargetEdge_kind edge <> EKMemory ->
     exists T, edge_timing dfg staged edge = Ok T /\
       edge_storage (net_hopLatency (tm_interconnect target)) (te_id edge) T
         (filter (fun s => sg_edge s = te_id edge) (rq_segments q))) /\
  (forall s, s ∈ rq_segments q -> bank_usable target (sg_domain s) (sg_tile s)).

(** Some value waits at a tile where no register file can take it. *)
Definition value_without_bank (dfg : TargetDFG) (target : TargetModel) (staged : StagedMapping)
  : Prop :=
  exists edge T tile t, edge ∈ td_edges dfg /\ TargetEdge_kind edge <> EKMemory /\
    edge_timing dfg staged edge = Ok T /\ waits T tile t /\
    ~ bank_usable target (bankDomain (tp_domain (et_plan T))) tile.

(** What each status of the analysis means. *)
Definition storage_exact (dfg : TargetDFG) (target : TargetModel) (staged : StagedMapping)
    (r : StorageRequirementResult) : Prop :=
  match rr_status r with
  | StorageSuccess => sav_verify dfg target staged = Ok [] /\
      exists q, rr_requirements r = Some q /\ requirements_exact dfg target staged q
  | StorageInvalidTargetDFG => ~ TargetDFG_valid dfg target None
  | StorageInvalidStagedMapping => sav_verify dfg target staged <> Ok []
  | StorageTargetRFContractError => sav_verify dfg target staged = Ok [] /\
      value_without_bank dfg target staged
  | StorageArithmeticOverflow | StorageInternalError => False
  end.

(** The analysis of a mapping that the assignment verifier accepts. *)
Lemma storage_analyze_clean (dfg : TargetDFG) (target : TargetModel) (staged : StagedMapping) :
  TargetDFG_inv dfg -> TargetModel_wf target -> typed_graph dfg -> typed_staged staged ->
  universe_fits target (mm_ii (sm_modulo staged)) -> sav_verify dfg target staged = Ok [] ->
  exists r, storage_analyze dfg target staged = Ok r /\ storage_exact dfg target staged r.
Proof.
  intros Hinv Htwf Htyped Hty Hu Hsav.
  destruct (sav_verify_clean dfg target staged Hinv Htwf Htyped Hty Hu Hsav) as [Hvm Htimes].
  pose proof (vm_ii _ _ _ Hvm) as Hii0. assert (0 <= mm_ii (sm_modulo staged)) by apply Hty.
  assert (Htdfg : tdfg_verify dfg target None = Ok []).
  { pose proof Hsav as H'. unfold sav_verify in H'. inv_ok. case_bool_decide; [by subst|done]. }
  unfold storage_analyze. rewrite Htdfg. simpl. rewrite Hsav. simpl.
  rewrite (proj2 (Z.eqb_neq _ _) Hii0).
  destruct (all_edge_segments_spec dfg target staged Hinv Htwf Hvm Htimes ltac:(done) Htyped
    (sort_by te_id (td_edges dfg)) [] 0) as (parts & merged & Heq & Hparts & Hd).
  { intros x Hx. by apply elem_of_sort_by in Hx. }
  rewrite Heq. clear Heq. simpl in *.
  destruct (bank_failure target (concat parts)) as [[code s]|] eqn:Eb.
  - eexists. split; [done|]. split; [done|]. apply bank_failure_Some in Eb as [Hs Hbad].
    destruct (edge_parts_elem _ _ _ _ _ s Hparts Hs) as (edge & part & He & Hp & Hin).
    apply elem_of_sort_by in He. pose proof (edge_part_id _ _ _ _ _ s Hp Hin) as [Hk Eid].
    assert (exists T, edge_timing dfg staged edge = Ok T /\
      edge_storage (net_hopLatency (tm_interconnect target)) (te_id edge) T part)
      as (T & HT & Hst) by (unfold edge_part in Hp; by destruct (TargetEdge_kind edge)).
    destruct (es_attributes _ _ _ _ Hst s Hin) as (_ & Edom & Hw & _).
    exists edge, T, (sg_tile s), (sg_writeTime s). rewrite <- Edom. split_and!; try done.
    apply (es_stored _ _ _ _ Hst). exists s. split_and!; try done; lia.
  - eexists. split; [done|]. split; [done|]. eexists. split; [done|].
    split_and!; simpl; [done| | | |by apply bank_failure_None].
    + apply Hd. intros i s. by rewrite lookup_nil.
    + intros s Hs. destruct (edge_parts_elem _ _ _ _ _ s Hparts Hs) as (edge & part & He & Hp & Hin).
      apply elem_of_sort_by in He. exists edge. split; [done|]. by eapply edge_part_id.
    + intros edge He Hk.
      assert (Hp : edge_part dfg target staged edge
        (filter (fun s => sg_edge s = te_id edge) (concat parts))).
      { eapply edge_parts_filter; [|done|by apply elem_of_sort_by].
        apply sort_by_NoDup. by eapply indexed_NoDup, (inv_edges dfg Hinv). }
      unfold edge_part in Hp. by destruct (TargetEdge_kind edge).
Qed.

(** The analysis under any report of the assignment verifier. *)
Lemma storage_analyze_report (dfg : TargetDFG) (target : TargetModel) (staged : StagedMapping)
    report :
  TargetDFG_inv dfg -> TargetModel_wf target -> typed_graph dfg -> typed_staged staged ->
  universe_fits target (mm_ii (sm_modulo staged)) -> sav_verify dfg target staged = Ok report ->
  exists r, storage_analyze dfg target staged = Ok r /\ storage_exact dfg target staged r.
Proof.
  intros Hinv Htwf Htyped Hty Hu Hsav.
  destruct (decide (report = [])) as [->|Hne]; [by apply storage_analyze_clean|].
  pose proof (tdfg_verify_clean dfg target None Hinv) as Hclean.
  pose proof (tdfg_verify_eq dfg target None Hinv) as Ht.
  match type of Ht with _ = Ok ?r => set (treport := r) in Ht end.
  rewrite Ht in Hclean. clearbody treport. unfold storage_analyze. rewrite Ht. simpl.
  destruct (decide (treport = [])) as [->|Htne]; simpl.
  - rewrite Hsav. simpl. rewrite bool_decide_eq_false_2 by done. simpl. eexists. split; [done|].
    unfold storage_exact. simpl. congruence.
  - rewrite bool_decide_eq_false_2 by done. eexists. split; [done|].
    unfold storage_exact. simpl. intros Hv. apply Hclean in Hv. by injection Hv.
Qed.

(** C29: the storage analysis accounts for every value at every cycle.  Whenever
    the assignment verifier returns a report, the analysis returns a result, and
    on success, for each value edge, the segments are maximal stays, kept at
    exactly the tiles and cycles where the value waits in a hold or for its
    consumer, so that from its ready time to its use the value is at each cycle
    either on one link or in one segment; identifiers are positions and every
    segment has a usable bank.  The statuses for an invalid graph, an invalid
    mapping and a missing bank mean what they say, and no overflow or internal
    error can happen. *)
Theorem storage_analyze_exact (dfg : TargetDFG) (target : TargetModel) (staged : StagedMapping)
    report :
  TargetDFG_inv dfg -> TargetModel_wf target -> typed_graph dfg -> typed_staged staged ->
  universe_fits target (mm_ii (sm_modulo staged)) -> sav_verify dfg target staged = Ok report ->
  exists r, storage_analyze dfg target staged = Ok r /\ storage_exact dfg target staged r.
Proof. apply storage_analyze_report. Qed.

Lemma v2_staged_typed : typed_staged v2_staged.
Proof.
  assert (H : forallb (fun p => (0 <=? tile_row (np_tile p)) && (0 <=? tile_col (np_tile p)) &&
        (0 <=? np_issueSlot p)) (mm_placements (sm_modulo v2_staged)) &&
      forallb (fun d => (0 <=? md_requiredSeparationCycles d) &&
        (md_requiredSeparationCycles d <=? u32_max)) (mm_dependences (sm_modulo v2_staged)) &&
      forallb (fun e => 0 <=? ns_stage e) (sm_stages v2_staged) = true) by (vm_compute; reflexivity).
  apply andb_prop in H as [H Hs]. apply andb_prop in H as [Hp Hd]. rewrite forallb_forall in Hp, Hd, Hs.
  split; [split; [vm_compute; split; congruence|]|split].
  - intros p Hin. apply list_elem_of_In in Hin. specialize (Hp p Hin). lia.
  - intros d Hin. apply list_elem_of_In in Hin. specialize (Hd d Hin). unfold is_u32. lia.
  - intros e Hin. apply list_elem_of_In in Hin. specialize (Hs e Hin). lia.
Qed.

Lemma storage_analyze_exact_witness :
  exists r, storage_analyze v2_accumulate cgra_v2 v2_staged = Ok r /\
    storage_exact v2_accumulate cgra_v2 v2_staged r.
Proof.
  eapply (storage_analyze_exact v2_accumulate cgra_v2 v2_staged).
  - exact v2_accumulate_inv.
  - exact cgra_v2_wf.
  - exact v2_accumulate_typed.
  - exact v2_staged_typed.
  - vm_compute. congruence.
  - vm_compute. reflexivity.
Defined.
