(* ===== verification/PeriodicLifetime.v ===== *)
(** * Periodic lifetimes in a fixed register

    Models [compiler/{include/cgra,lib}/RegisterAllocation/PeriodicLifetime.{h,cpp}].
    A segment recurs every II cycles in every iteration; the two tests decide
    whether two copies, of one segment or of two, ever meet in one register. *)
From stdpp Require Import base numbers list gmap strings.
From S2P Require Import Prelude.
From S2P Require Import TargetModel.
From S2P Require Import ModuloResources.
From S2P Require Import StorageRequirements.

Definition boundaryReuseAllowed (policy : SameAddressReadWritePolicy) : bool :=
  bool_decide (policy = ReadOldThenWriteNew).

Definition intervalsConflict (lhsWrite lhsRead rhsWrite rhsRead : Z)
    (policy : SameAddressReadWritePolicy) : bool :=
  let overlapStart := Z.max lhsWrite rhsWrite in
  let overlapEnd := Z.min lhsRead rhsRead in
  if overlapStart <? overlapEnd then true
  else (overlapStart =? overlapEnd) && negb (boundaryReuseAllowed policy).

Definition fixedRegisterSelfOverlaps (segment : StorageSegment) (ii : Z)
    (policy : SameAddressReadWritePolicy) : bool :=
  if (ii =? 0) || (sg_readTime segment <=? sg_writeTime segment) then true
  else
    let duration := sg_readTime segment - sg_writeTime segment in
    if ii <? duration then true
    else if duration <? ii then false
    else negb (boundaryReuseAllowed policy).

Definition periodicLifetimesConflict (lhs rhs : StorageSegment) (ii : Z)
    (policy : SameAddressReadWritePolicy) : bool :=
  if (ii =? 0) || (sg_readTime lhs <=? sg_writeTime lhs) ||
     (sg_readTime rhs <=? sg_writeTime rhs) then true
  else
    let lhsDuration := sg_readTime lhs - sg_writeTime lhs in
    let rhsDuration := sg_readTime rhs - sg_writeTime rhs in
    if (ii <? lhsDuration) || (ii <? rhsDuration) then true
    else
      let lhsWrite := sg_writeTime lhs mod ii in
      let rhsWrite := sg_writeTime rhs mod ii in
      let lhsRead := lhsWrite + lhsDuration in
      let rhsRead := rhsWrite + rhsDuration in
      existsb (fun shift => intervalsConflict lhsWrite lhsRead (rhsWrite + shift)
                              (rhsRead + shift) policy) [- ii; 0; ii].

(** ** Absolute lifetimes *)

(** Two lives, each from the cycle of its write to the cycle of its read, meet in
    a register: both are needed at the end of a cycle, or, where the policy does
    not order a read before a write of the same cycle, one's boundary cycle lies
    in the other. *)
Definition lives_meet (policy : SameAddressReadWritePolicy) (w r w' r' : Z) : Prop :=
  exists t, w <= t /\ w' <= t /\
    if boundaryReuseAllowed policy then t < r /\ t < r' else t <= r /\ t <= r'.

(** The copies of iterations [k] and [k'] meet. *)
Definition copies_meet (policy : SameAddressReadWritePolicy) (ii : Z) (s s' : StorageSegment)
    (k k' : Z) : Prop :=
  lives_meet policy (sg_writeTime s + k * ii) (sg_readTime s + k * ii)
    (sg_writeTime s' + k' * ii) (sg_readTime s' + k' * ii).

Lemma intervalsConflict_spec policy w r w' r' : w < r -> w' < r' ->
  intervalsConflict w r w' r' policy = true <-> lives_meet policy w r w' r'.
Proof.
  intros Hr Hr'. unfold intervalsConflict, lives_meet. split.
  - intros H. exists (Z.max w w'). split; [lia|]. split; [lia|].
    destruct (boundaryReuseAllowed policy); simpl in H;
      destruct (Z.ltb_spec (Z.max w w') (Z.min r r')); simpl in H; try lia.
  - intros (t & H1 & H2 & Ht). destruct (boundaryReuseAllowed policy);
      destruct (Z.ltb_spec (Z.max w w') (Z.min r r')); simpl; try lia.
Qed.

Lemma lives_meet_shift policy w r w' r' d :
  lives_meet policy (w + d) (r + d) (w' + d) (r' + d) <-> lives_meet policy w r w' r'.
Proof.
  unfold lives_meet. split; intros (t & H1 & H2 & H);
    [exists (t - d)|exists (t + d)]; (split; [lia|split; [lia|]]);
    destruct (boundaryReuseAllowed policy); lia.
Qed.

Lemma lives_meet_near policy ii w r w' r' m :
  0 < ii -> 0 <= w < ii -> 0 <= w' < ii -> r - w <= ii -> r' - w' <= ii ->
  lives_meet policy w r (w' + m * ii) (r' + m * ii) -> -1 <= m <= 1.
Proof.
  intros Hii Hw Hw' Hr Hr' (t & H1 & H2 & H). destruct (boundaryReuseAllowed policy); nia.
Qed.

Section Exact.
Context (ii : Z) (Hii : 0 < ii).

(** Any relative shift of two copies is reached by non-negative iterations. *)
Lemma copies_meet_relative policy s s' m :
  (exists k k', 0 <= k /\ 0 <= k' /\ k' - k = m /\ copies_meet policy ii s s' k k') <->
  lives_meet policy (sg_writeTime s) (sg_readTime s)
    (sg_writeTime s' + m * ii) (sg_readTime s' + m * ii).
Proof using Type.
  split.
  - intros (k & k' & _ & _ & <- & H). unfold copies_meet in H.
    apply (lives_meet_shift _ _ _ _ _ (- (k * ii))) in H. revert H.
    by replace (sg_writeTime s + k * ii + - (k * ii)) with (sg_writeTime s) by lia;
    replace (sg_readTime s + k * ii + - (k * ii)) with (sg_readTime s) by lia;
    replace (sg_writeTime s' + k' * ii + - (k * ii)) with (sg_writeTime s' + (k' - k) * ii) by lia;
    replace (sg_readTime s' + k' * ii + - (k * ii)) with (sg_readTime s' + (k' - k) * ii) by lia.
  - intros H. exists (Z.max 0 (- m)), (Z.max 0 (- m) + m). split_and!; [lia..|].
    unfold copies_meet. apply (lives_meet_shift _ _ _ _ _ (Z.max 0 (- m) * ii)) in H. revert H.
    by rewrite !Z.mul_add_distr_r, !(Z.add_comm (Z.max 0 (- m) * ii)), !Z.add_assoc.
Qed.

(** A life longer than an interval meets every other life. *)
Lemma long_life_meets policy s s' :
  sg_writeTime s < sg_readTime s -> sg_writeTime s' < sg_readTime s' ->
  ii < sg_readTime s - sg_writeTime s \/ ii < sg_readTime s' - sg_writeTime s' ->
  exists m, lives_meet policy (sg_writeTime s) (sg_readTime s)
    (sg_writeTime s' + m * ii) (sg_readTime s' + m * ii).
Proof using Hii.
  intros Hs Hs'. unfold lives_meet.
  set (w := sg_writeTime s) in *. set (r := sg_readTime s) in *.
  set (w' := sg_writeTime s') in *. set (r' := sg_readTime s') in *.
  pose proof (Z.div_mod (w - w') ii ltac:(lia)). pose proof (Z.mod_pos_bound (w - w') ii Hii).
  intros [Hl|Hl].
  - exists ((w - w') / ii + 1). exists (w' + ((w - w') / ii + 1) * ii).
    split_and!; [lia..|]. destruct (boundaryReuseAllowed policy); lia.
  - exists ((w - w') / ii). exists w.
    split_and!; [lia..|]. destruct (boundaryReuseAllowed policy); lia.
Qed.

Lemma periodic_conflict_relative policy s s' :
  sg_writeTime s < sg_readTime s -> sg_writeTime s' < sg_readTime s' ->
  periodicLifetimesConflict s s' ii policy = true <->
  exists m, lives_meet policy (sg_writeTime s) (sg_readTime s)
    (sg_writeTime s' + m * ii) (sg_readTime s' + m * ii).
Proof using Hii.
  intros Hs Hs'. unfold periodicLifetimesConflict.
  replace (_ || _ || _)%bool with false by lia.
  destruct (_ || _)%bool eqn:Elong.
  { split; [|done]. intros _. apply long_life_meets; [done..|lia]. }
  bool_hyps. rewrite existsb_exists. setoid_rewrite <- list_elem_of_In.
  set (w := sg_writeTime s) in *. set (r := sg_readTime s) in *.
  set (w' := sg_writeTime s') in *. set (r' := sg_readTime s') in *.
  pose proof (Z.div_mod w ii ltac:(lia)) as Dw. pose proof (Z.mod_pos_bound w ii Hii) as Bw.
  pose proof (Z.div_mod w' ii ltac:(lia)) as Dw'. pose proof (Z.mod_pos_bound w' ii Hii) as Bw'.
  assert (Hrel : forall m, lives_meet policy w r (w' + m * ii) (r' + m * ii) <->
    lives_meet policy (w mod ii) (w mod ii + (r - w)) (w' mod ii + (m + w' / ii - w / ii) * ii)
      (w' mod ii + (r' - w') + (m + w' / ii - w / ii) * ii)).
  { intros m. rewrite <- (lives_meet_shift _ (w mod ii) _ _ _ (w / ii * ii)).
    replace (w mod ii + w / ii * ii) with w by lia.
    replace (w mod ii + (r - w) + w / ii * ii) with r by lia.
    replace (w' mod ii + (m + w' / ii - w / ii) * ii + w / ii * ii) with (w' + m * ii) by lia.
    by replace (w' mod ii + (r' - w') + (m + w' / ii - w / ii) * ii + w / ii * ii)
      with (r' + m * ii) by lia. }
  split.
  - intros (shift & Hin & H). apply intervalsConflict_spec in H; [|lia..].
    assert (exists m, shift = m * ii) as (m & ->).
    { repeat (apply elem_of_cons in Hin as [->|Hin]); [by exists (-1); lia|by exists 0|by exists 1; lia|].
      by apply not_elem_of_nil in Hin. }
    exists (m - w' / ii + w / ii). apply Hrel.
    by replace (m - w' / ii + w / ii + w' / ii - w / ii) with m by lia.
  - intros (m & H). apply Hrel in H. set (m' := m + w' / ii - w / ii) in *.
    assert (Hm : -1 <= m' <= 1) by (eapply lives_meet_near; [exact Hii|..|exact H]; lia).
    exists (m' * ii). split.
    + rewrite !elem_of_cons. clearbody m'.
      assert (m' = -1 \/ m' = 0 \/ m' = 1) as [ -> | [ -> | -> ] ] by lia;
        [left|right; left|right; right; left]; lia.
    + by apply intervalsConflict_spec; [lia..|].
Qed.

Lemma periodic_conflict_exact policy s s' :
  periodicLifetimesConflict s s' ii policy = true <->
  sg_readTime s <= sg_writeTime s \/ sg_readTime s' <= sg_writeTime s' \/
  exists k k', 0 <= k /\ 0 <= k' /\ copies_meet policy ii s s' k k'.
Proof using Hii.
  destruct (decide (sg_readTime s <= sg_writeTime s \/ sg_readTime s' <= sg_writeTime s')) as [He|He].
  { unfold periodicLifetimesConflict.
    replace (_ || _ || _)%bool with true by (destruct (ii =? 0); lia). tauto. }
  rewrite periodic_conflict_relative by lia. setoid_rewrite <- copies_meet_relative. split.
  - intros (m & k & k' & ? & ? & _ & ?). right. right. by exists k, k'.
  - intros [?|[?|(k & k' & ? & ? & ?)]]; [lia|lia|]. by exists (k' - k), k, k'.
Qed.

Lemma copies_meet_comm policy s s' k k' :
  copies_meet policy ii s s' k k' <-> copies_meet policy ii s' s k' k.
Proof using Type.
  clear. unfold copies_meet, lives_meet. split; intros (t & H1 & H2 & H); exists t;
    destruct (boundaryReuseAllowed policy); tauto.
Qed.

Lemma periodic_conflict_comm policy s s' :
  periodicLifetimesConflict s s' ii policy = periodicLifetimesConflict s' s ii policy.
Proof using Hii.
  apply eq_true_iff_eq. rewrite !periodic_conflict_exact.
  setoid_rewrite (copies_meet_comm policy s' s). naive_solver.
Qed.

Lemma self_overlap_exact policy s :
  fixedRegisterSelfOverlaps s ii policy = true <->
  sg_readTime s <= sg_writeTime s \/
  exists k k', 0 <= k /\ 0 <= k' /\ k <> k' /\ copies_meet policy ii s s k k'.
Proof using Hii.
  unfold fixedRegisterSelfOverlaps.
  destruct (Z.leb_spec (sg_readTime s) (sg_writeTime s)) as [He|He].
  { rewrite orb_true_r. split; [by left|done]. }
  replace (ii =? 0) with false by lia. cbn [orb].
  transitivity (exists m, m <> 0 /\ lives_meet policy (sg_writeTime s) (sg_readTime s)
    (sg_writeTime s + m * ii) (sg_readTime s + m * ii)).
  2: { setoid_rewrite <- copies_meet_relative. split.
       - intros (m & Hm & k & k' & ? & ? & <- & ?). right. exists k, k'. split_and!; try done. lia.
       - intros [?|(k & k' & ? & ? & ? & ?)]; [lia|]. exists (k' - k). split; [lia|].
         by exists k, k'. }
  unfold lives_meet.
  destruct (Z.ltb_spec ii (sg_readTime s - sg_writeTime s)) as [Hl|Hl].
  { split; [intros _|done]. exists 1. split; [lia|]. exists (sg_writeTime s + ii).
    destruct (boundaryReuseAllowed policy); lia. }
  destruct (Z.ltb_spec (sg_readTime s - sg_writeTime s) ii) as [Hs|Hs].
  { split; [done|]. intros (m & Hm & t & H1 & H2 & Ht).
    destruct (boundaryReuseAllowed policy); nia. }
  destruct (boundaryReuseAllowed policy); simpl.
  - split; [done|]. intros (m & Hm & t & H1 & H2 & Ht). nia.
  - split; [intros _|done]. exists 1. split; [lia|]. exists (sg_writeTime s + ii). lia.
Qed.
End Exact.

(** ** Properties *)

(** C30: the lifetime tests are exact over the whole unbounded execution.  For a
    positive II, a segment is reported to overlap itself exactly when it is empty
    or the copies of two different iterations meet, and two segments are reported
    to conflict exactly when one is empty or some copy of the one meets some copy
    of the other. *)
Theorem periodic_lifetimes_exact (s s' : StorageSegment) ii policy :
  0 < ii ->
  (fixedRegisterSelfOverlaps s ii policy = true <->
     sg_readTime s <= sg_writeTime s \/
     exists k k', 0 <= k /\ 0 <= k' /\ k <> k' /\ copies_meet policy ii s s k k') /\
  (periodicLifetimesConflict s s' ii policy = true <->
     sg_readTime s <= sg_writeTime s \/ sg_readTime s' <= sg_writeTime s' \/
     exists k k', 0 <= k /\ 0 <= k' /\ copies_meet policy ii s s' k k').
Proof.
  intros Hii. split; [by apply self_overlap_exact|by apply periodic_conflict_exact].
Qed.

Lemma periodic_lifetimes_exact_witness :
  let s := mkSegment 0 0 (mkTile 0 0) BankData 7 10 [] in
  let s' := mkSegment 1 1 (mkTile 0 0) BankData 16 18 [] in
  (fixedRegisterSelfOverlaps s 5 ReadOldThenWriteNew = true <->
     sg_readTime s <= sg_writeTime s \/
     exists k k', 0 <= k /\ 0 <= k' /\ k <> k' /\ copies_meet ReadOldThenWriteNew 5 s s k k') /\
  (periodicLifetimesConflict s s' 5 ReadOldThenWriteNew = true <->
     sg_readTime s <= sg_writeTime s \/ sg_readTime s' <= sg_writeTime s' \/
     exists k k', 0 <= k /\ 0 <= k' /\ copies_meet ReadOldThenWriteNew 5 s s' k k').
Proof. apply periodic_lifetimes_exact. lia. Defined.
