(* ===== verification/RFAllocation.v ===== *)
(** * Register allocations and their verifier

    Models [compiler/{include/cgra,lib}/RegisterAllocation/]:
    [RFAllocatedMapping.{h,cpp}] and [RFAllocationVerifier.{h,cpp}].  The verifier
    rebuilds the storage requirements and checks that each segment has one
    register, one read port and one write port that can serve it for ever. *)
From stdpp Require Import base numbers list gmap sorting strings.
From S2P Require Import Prelude.
From S2P Require Import IR.
From S2P Require Import TargetModel.
From S2P Require Import CgraV2.
From S2P Require Import TargetDFG.
From S2P Require Import TargetDFGVerifier.
From S2P Require Import ModuloResources.
From S2P Require Import ModuloMapping.
From S2P Require Import MappingVerifier.
From S2P Require Import MIIAnalyzer.
From S2P Require Import StageScheduler.
From S2P Require Import StorageRequirements.
From S2P Require Import PeriodicLifetime.

(** ** Allocations (RFAllocatedMapping.h) *)

Record PhysicalRegister := mkRegister {
  pr_tile : TileCoord;
  pr_bank : string;
  pr_index : Z
}.

#[export] Instance PhysicalRegister_eq_dec : EqDecision PhysicalRegister.
Proof. solve_decision. Defined.

#[export] Instance PhysicalRegister_countable : Countable PhysicalRegister.
Proof.
  apply (inj_countable' (fun r => (pr_tile r, pr_bank r, pr_index r))
    (fun p => mkRegister p.1.1 p.1.2 p.2)).
  by intros [].
Defined.

Record StorageAllocation := mkAllocation {
  sl_segment : Z;
  sl_reg : PhysicalRegister;
  sl_readPort : Z;
  sl_writePort : Z;
  sl_boundaryWritePort : option Z
}.

#[export] Instance StorageAllocation_eq_dec : EqDecision StorageAllocation.
Proof. solve_decision. Defined.

Record RFAllocatedMapping := mkAllocated {
  ra_staged : StagedMapping;
  ra_requirements : StorageRequirements;
  ra_allocations : list StorageAllocation
}.

(** Neighbours in the sorted vector with equal segments. *)
Fixpoint adjacent_segments (allocations : list StorageAllocation) : bool :=
  match allocations with
  | previous :: ((current :: _) as rest) =>
      (sl_segment previous =? sl_segment current) || adjacent_segments rest
  | _ => false
  end.

Definition RFAllocatedMapping_new (staged : StagedMapping) (requirements : StorageRequirements)
    (allocations : list StorageAllocation) : result RFAllocatedMapping :=
  let allocations := sort_by sl_segment allocations in
  if adjacent_segments allocations then Throw InvalidArgument
  else Ok (mkAllocated staged requirements allocations).

Section Readers.
Context (m : RFAllocatedMapping).

(** [std::lower_bound] on the sorted vector. *)
Definition allocationFor (segment : Z) : result StorageAllocation :=
  match find_if (fun a => segment <=? sl_segment a) (ra_allocations m) with
  | Some found => if sl_segment found =? segment then Ok found else Throw OutOfRange
  | None => Throw OutOfRange
  end.

Definition registerFor (segment : Z) : result PhysicalRegister :=
  a ← allocationFor segment; Ok (sl_reg a).

(** The first segment with a matching origin. *)
Definition segment_with_origin (matches : StorageOrigin -> bool) : option StorageSegment :=
  find_if (fun s => existsb matches (sg_origins s)) (rq_segments (ra_requirements m)).

Definition registerForVirtualHold (edge transportActionIndex : Z)
  : result (option PhysicalRegister) :=
  match segment_with_origin (fun origin =>
          bool_decide (so_kind origin = ExplicitVirtualHold) && (so_edge origin =? edge) &&
          bool_decide (so_transportActionIndex origin = Some transportActionIndex)) with
  | Some s => reg ← registerFor (sg_id s); Ok (Some reg)
  | None => Ok None
  end.

Definition registerForTerminalSlack (edge : Z) : result (option PhysicalRegister) :=
  match segment_with_origin (fun origin =>
          bool_decide (so_kind origin = TerminalSlack) && (so_edge origin =? edge)) with
  | Some s => reg ← registerFor (sg_id s); Ok (Some reg)
  | None => Ok None
  end.
End Readers.

(** ** What feeds a register *)

Definition incomingSource (direction : Direction) (domain : RegisterBankDomain) : string :=
  let name := match opposite direction with
              | North => "NORTH" | South => "SOUTH" | East => "EAST" | West => "WEST"
              end in
  String.append name match domain with BankData => "_DATA_IN" | BankPredicate => "_PRED_IN" end.

Definition resultSource (source : TargetResultSource) : string :=
  match source with
  | FuDataResult => "FU_DATA_RESULT"
  | FuPredicateResult => "FU_PRED_RESULT"
  | LsuLoadData => "LSU_LOAD_DATA"
  | SrcNone => ""
  end.

(** The action before position [index], when it is a link. *)
Definition link_before (actions : list TransportAction) (index : Z) : option Direction :=
  if 0 <? index then
    match actions !! nat_of (index - 1) with
    | Some (LinkStep _ _ direction _) => Some direction
    | _ => None
    end
  else None.

(** The port source that writes the segment: the link before its first hold, the
    producer's result when the hold comes first, or the last link before pure
    terminal slack. *)
Definition storageWriteSource (dfg : TargetDFG) (target : TargetModel) (mapping : StagedMapping)
    (segment : StorageSegment) : result string :=
  edge ← td_edge dfg (sg_edge segment);
  d ← dependence (sm_modulo mapping) (te_id edge);
  match md_transport d with
  | None => Ok ""%string
  | Some transport =>
      let hold := find_if (fun origin => bool_decide (so_kind origin = ExplicitVirtualHold) &&
                    bool_decide (is_Some (so_transportActionIndex origin))) (sg_origins segment) in
      match hold ≫= so_transportActionIndex with
      | Some index =>
          match link_before (tp_actions transport) index with
          | Some direction => Ok (incomingSource direction (sg_domain segment))
          | None =>
              node ← td_node dfg (te_src edge);
              op ← operation target (tn_operation node);
              Ok (resultSource (op_resultSource op))
          end
      | None =>
          match last (tp_actions transport) with
          | Some (LinkStep _ _ direction _) => Ok (incomingSource direction (sg_domain segment))
          | _ => Ok ""%string
          end
      end
  end.

(** The constant that seeds the register of a recurrence; empty when there is none. *)
Definition boundaryWriteSource (dfg : TargetDFG) (segment : StorageSegment) : result string :=
  edge ← td_edge dfg (sg_edge segment);
  if te_distance edge =? 0 then Ok ""%string
  else
    match te_info edge with
    | DataEdgeInfo _ (Some (value :: _)) =>
        match rbv_value value with
        | ConstantRef _ => Ok "CONST_DATA"%string
        | _ => Ok ""%string
        end
    | PredicateEdgeInfo _ (Some (value :: _)) =>
        match rbv_value value with
        | ConstantRef id =>
            match find_if (fun c => const_id c =? id) (td_constants dfg) with
            | None => Ok ""%string
            | Some c => Ok (if (const_bits c =? 0)%Z then "CONST_FALSE" else "CONST_TRUE")%string
            end
        | _ => Ok ""%string
        end
    | DataEdgeInfo _ _ | PredicateEdgeInfo _ _ => Ok ""%string
    | MemoryEdgeInfo _ => Throw BadVariantAccess
    end.

(** ** The verifier (RFAllocationVerifier.cpp) *)

Inductive RFAllocationVerificationCode :=
  | RFV_INVALID_TARGET_DFG
  | RFV_INVALID_STAGED_MAPPING
  | RFV_UNKNOWN_STORAGE_SEGMENT
  | RFV_DUPLICATE_STORAGE_ALLOCATION
  | RFV_UNALLOCATED_STORAGE_SEGMENT
  | RFV_INVALID_REGISTER_INDEX
  | RFV_BANK_DOMAIN_MISMATCH
  | RFV_FIXED_REGISTER_SELF_OVERLAP
  | RFV_READ_PORT_CONFLICT
  | RFV_WRITE_PORT_CONFLICT
  | RFV_SAME_ADDRESS_RW_CONFLICT
  | RFV_PERIODIC_REGISTER_CONFLICT
  | RFV_STORAGE_TIMING_INVALID.

Record RFAllocationVerificationDiagnostic := mkRFV {
  rv_code : RFAllocationVerificationCode;
  rv_segment : option Z;
  rv_conflicting : option Z
}.

Definition rfv_segment (code : RFAllocationVerificationCode) (segment : Z)
  : RFAllocationVerificationDiagnostic := mkRFV code (Some segment) None.

Definition portName (port : Z) : string := String.append "W" (to_string port).

(** The port exists in the bank's table and takes the source. *)
Definition port_accepts (bank : RegisterFileDesc) (port : Z) (source : string) : bool :=
  match rf_writePortSources bank !! portName port with
  | Some sources => bool_decide (source ∈ sources)
  | None => false
  end.

(** Tile, bank and modulo slot of an access. *)
Abbreviation PortKey := (TileCoord * string * Z)%type.

Record PortState := mkPorts {
  po_writes : gmap PortKey Z;
  po_reads : gmap PortKey Z;
  po_readAssignments : gset (PortKey * Z);
  po_writeAssignments : gset (PortKey * Z)
}.

Definition no_ports : PortState := mkPorts ∅ ∅ ∅ ∅.

Definition counted {K} `{Countable K} (key : K) (counts : gmap K Z) : Z := default 0 (counts !! key).

Section VerifyAllocation.
Context (dfg : TargetDFG) (target : TargetModel) (mapping : RFAllocatedMapping).

Let segments := rq_segments (ra_requirements mapping).
Let ii := rq_ii (ra_requirements mapping).

(** The first allocation of each known segment, by segment. *)
Fixpoint collect_allocations (allocations : list StorageAllocation)
    (seen : gmap Z StorageAllocation) (diags : list RFAllocationVerificationDiagnostic)
  : gmap Z StorageAllocation * list RFAllocationVerificationDiagnostic :=
  match allocations with
  | [] => (seen, diags)
  | a :: allocations =>
      if negb (existsb (fun s => sg_id s =? sl_segment a) segments)
      then collect_allocations allocations seen
             (diags ++ [rfv_segment RFV_UNKNOWN_STORAGE_SEGMENT (sl_segment a)])
      else match seen !! sl_segment a with
      | Some _ => collect_allocations allocations seen
                    (diags ++ [rfv_segment RFV_DUPLICATE_STORAGE_ALLOCATION (sl_segment a)])
      | None => collect_allocations allocations (<[sl_segment a := a]> seen) diags
      end
  end.

Definition unallocated_diags (allocations : gmap Z StorageAllocation)
  : list RFAllocationVerificationDiagnostic :=
  flat_map (fun s => when (bool_decide (allocations !! sg_id s = None))
    [rfv_segment RFV_UNALLOCATED_STORAGE_SEGMENT (sg_id s)]) segments.

Definition segment_bank (s : StorageSegment) : option RegisterFileDesc :=
  registerBank target (sg_domain s) (tile_row (sg_tile s)) (tile_col (sg_tile s)).

(** Bank, index and self-overlap of one segment. *)
Definition register_diags (s : StorageSegment) (a : StorageAllocation)
  : list RFAllocationVerificationDiagnostic :=
  match segment_bank s with
  | None => [rfv_segment RFV_BANK_DOMAIN_MISMATCH (sg_id s)]
  | Some bank =>
      when (negb (bool_decide (pr_tile (sl_reg a) = sg_tile s)) ||
            negb (String.eqb (pr_bank (sl_reg a)) (rf_id bank)) ||
            negb (bool_decide (rf_domain bank = sg_domain s)))
        [rfv_segment RFV_BANK_DOMAIN_MISMATCH (sg_id s)] ++
      when (negb (allocates bank (pr_index (sl_reg a))))
        [rfv_segment RFV_INVALID_REGISTER_INDEX (sg_id s)] ++
      when (fixedRegisterSelfOverlaps s ii (rf_sameAddressReadWritePolicy bank))
        [rfv_segment RFV_FIXED_REGISTER_SELF_OVERLAP (sg_id s)]
  end.

Definition access_key (s : StorageSegment) (a : StorageAllocation) (time : Z) : PortKey :=
  (sg_tile s, pr_bank (sl_reg a), wrap32 (time mod ii)).

Definition boundary_diags (s : StorageSegment) (a : StorageAllocation) (bank : RegisterFileDesc)
    (source : string) : list RFAllocationVerificationDiagnostic :=
  let conflict := [rfv_segment RFV_WRITE_PORT_CONFLICT (sg_id s)] in
  if negb (String.eqb source "") then
    match sl_boundaryWritePort a with
    | None => conflict
    | Some port =>
        if rf_writePorts bank <=? port then conflict
        else when (negb (port_accepts bank port source)) conflict
    end
  else when (bool_decide (is_Some (sl_boundaryWritePort a))) conflict.

(** The ports of one segment: counters, exclusive assignments, sources. *)
Definition port_step (st : PortState) (s : StorageSegment) (a : StorageAllocation)
    (bank : RegisterFileDesc) : result (PortState * list RFAllocationVerificationDiagnostic) :=
  let write := access_key s a (sg_writeTime s) in
  let read := access_key s a (sg_readTime s) in
  let writes := <[write := counted write (po_writes st) + 1]> (po_writes st) in
  let reads := <[read := counted read (po_reads st) + 1]> (po_reads st) in
  let read_taken := bool_decide ((read, sl_readPort a) ∈ po_readAssignments st) in
  let write_taken := bool_decide ((write, sl_writePort a) ∈ po_writeAssignments st) in
  let read_outside := rf_readPorts bank <=? sl_readPort a in
  let write_outside := rf_writePorts bank <=? sl_writePort a in
  let st' := mkPorts writes reads
    (if read_outside then po_readAssignments st
     else {[ (read, sl_readPort a) ]} ∪ po_readAssignments st)
    (if write_outside then po_writeAssignments st
     else {[ (write, sl_writePort a) ]} ∪ po_writeAssignments st) in
  source ← storageWriteSource dfg target (ra_staged mapping) s;
  boundarySource ← boundaryWriteSource dfg s;
  Ok (st',
    when (rf_writePorts bank <? counted write writes)
      [rfv_segment RFV_WRITE_PORT_CONFLICT (sg_id s)] ++
    when (rf_readPorts bank <? counted read reads)
      [rfv_segment RFV_READ_PORT_CONFLICT (sg_id s)] ++
    when (read_outside || read_taken) [rfv_segment RFV_READ_PORT_CONFLICT (sg_id s)] ++
    when (write_outside || write_taken) [rfv_segment RFV_WRITE_PORT_CONFLICT (sg_id s)] ++
    when (negb (port_accepts bank (sl_writePort a) source))
      [rfv_segment RFV_WRITE_PORT_CONFLICT (sg_id s)] ++
    boundary_diags s a bank boundarySource).

(** [allocations.at(segment.id)] paired with the segment's bank. *)
Definition segment_context (allocations : gmap Z StorageAllocation) (s : StorageSegment)
  : result (StorageAllocation * RegisterFileDesc) :=
  a ← of_option OutOfRange (allocations !! sg_id s);
  bank ← of_option LogicError (segment_bank s);
  Ok (a, bank).

Fixpoint port_loop (allocations : gmap Z StorageAllocation) (st : PortState)
    (todo : list StorageSegment) : result (list RFAllocationVerificationDiagnostic) :=
  match todo with
  | [] => Ok []
  | s :: todo =>
      '(a, bank) ← segment_context allocations s;
      '(st, diags) ← port_step st s a bank;
      rest ← port_loop allocations st todo;
      Ok (diags ++ rest)
  end.

(** Periodic accesses of each register: reads and writes by register and slot. *)
Fixpoint register_events (allocations : gmap Z StorageAllocation) (todo : list StorageSegment)
    (reads writes : gmap (PhysicalRegister * Z) Z)
  : result (gmap (PhysicalRegister * Z) Z * gmap (PhysicalRegister * Z) Z) :=
  match todo with
  | [] => Ok (reads, writes)
  | s :: todo =>
      a ← of_option OutOfRange (allocations !! sg_id s);
      let write := (sl_reg a, wrap32 (sg_writeTime s mod ii)) in
      let read := (sl_reg a, wrap32 (sg_readTime s mod ii)) in
      register_events allocations todo
        (<[read := counted read reads + 1]> reads) (<[write := counted write writes + 1]> writes)
  end.

(** The bank of a register is recovered from its identifier. *)
Definition register_bank (reg : PhysicalRegister) : option RegisterFileDesc :=
  registerBank target
    (if String.eqb (pr_bank reg) (rf_id (tm_predicateRF target)) then BankPredicate else BankData)
    (tile_row (pr_tile reg)) (tile_col (pr_tile reg)).

Definition event_diags (reads writes : gmap (PhysicalRegister * Z) Z)
  : list RFAllocationVerificationDiagnostic :=
  flat_map (fun key =>
    let conflict := [mkRFV RFV_SAME_ADDRESS_RW_CONFLICT None None] in
    when (1 <? counted key writes) conflict ++
    when (negb (counted key reads =? 0) && negb (counted key writes =? 0) &&
          match register_bank key.1 with
          | Some bank => negb (boundaryReuseAllowed (rf_sameAddressReadWritePolicy bank))
          | None => false
          end) conflict)
    (elements (dom reads ∪ dom writes)).

(** One segment against every later one in the same register. *)
Fixpoint pair_row (allocations : gmap Z StorageAllocation) (lhs : StorageSegment)
    (a : StorageAllocation) (todo : list StorageSegment)
  : result (list RFAllocationVerificationDiagnostic) :=
  match todo with
  | [] => Ok []
  | rhs :: todo =>
      b ← of_option OutOfRange (allocations !! sg_id rhs);
      diags ← (if bool_decide (sl_reg a = sl_reg b) then
        bank ← of_option LogicError (segment_bank lhs);
        Ok (when (periodicLifetimesConflict lhs rhs ii (rf_sameAddressReadWritePolicy bank))
              [mkRFV RFV_PERIODIC_REGISTER_CONFLICT (Some (sg_id lhs)) (Some (sg_id rhs))])
        else Ok []);
      rest ← pair_row allocations lhs a todo;
      Ok (diags ++ rest)
  end.

Fixpoint pair_diags (allocations : gmap Z StorageAllocation) (todo : list StorageSegment)
  : result (list RFAllocationVerificationDiagnostic) :=
  match todo with
  | [] => Ok []
  | lhs :: todo =>
      a ← of_option OutOfRange (allocations !! sg_id lhs);
      here ← pair_row allocations lhs a todo;
      rest ← pair_diags allocations todo;
      Ok (here ++ rest)
  end.

Definition rfv_fail (code : RFAllocationVerificationCode)
  : result (list RFAllocationVerificationDiagnostic) := Ok [mkRFV code None None].

(** [RFAllocationVerifier::verify]. *)
Definition rf_verify : result (list RFAllocationVerificationDiagnostic) :=
  targetReport ← tdfg_verify dfg target None;
  if negb (bool_decide (targetReport = [])) then rfv_fail RFV_INVALID_TARGET_DFG
  else
    stageReport ← sav_verify dfg target (ra_staged mapping);
    if negb (bool_decide (stageReport = [])) then rfv_fail RFV_INVALID_STAGED_MAPPING
    else
      requirementsResult ← storage_analyze dfg target (ra_staged mapping);
      match rr_ok requirementsResult with
      | None => rfv_fail RFV_STORAGE_TIMING_INVALID
      | Some requirements =>
          if negb (bool_decide (requirements = ra_requirements mapping))
          then rfv_fail RFV_STORAGE_TIMING_INVALID
          else
            let '(allocations, diags) := collect_allocations (ra_allocations mapping) ∅ [] in
            match diags ++ unallocated_diags allocations with
            | (_ :: _) as diags => Ok diags
            | [] =>
                let register_report := flat_map (fun s =>
                  match allocations !! sg_id s with
                  | Some a => register_diags s a
                  | None => []
                  end) segments in
                match register_report with
                | _ :: _ => Ok register_report
                | [] =>
                    ports ← port_loop allocations no_ports segments;
                    '(reads, writes) ← register_events allocations segments ∅ ∅;
                    pairs ← pair_diags allocations segments;
                    Ok (ports ++ event_diags reads writes ++ pairs)
                end
            end
      end.
End VerifyAllocation.

(** The routed example: the held sum takes register 0 of tile (0,2), the waiting
    sum register 3 of tile (0,1); the seed enters there through W1. *)
Definition v2_requirements : StorageRequirements :=
  match storage_analyze v2_accumulate cgra_v2 v2_staged with
  | Ok r => default (mkRequirements 0 []) (rr_requirements r)
  | Throw _ => mkRequirements 0 []
  end.

Definition v2_allocation : RFAllocatedMapping := mkAllocated v2_staged v2_requirements [
  mkAllocation 0 (mkRegister (mkTile 0 2) "data_rf" 0) 0 1 (Some 1);
  mkAllocation 1 (mkRegister (mkTile 0 1) "data_rf" 3) 1 1 (Some 1)].

Example v2_allocation_verified : rf_verify v2_accumulate cgra_v2 v2_allocation = Ok [].
Proof. vm_compute. reflexivity. Qed.

(** ** What an allocation promises *)

(** The loader names the two register files apart and sets their domains. *)
Definition register_files_wf (target : TargetModel) : Prop :=
  rf_id (tm_dataRF target) <> rf_id (tm_predicateRF target) /\
  rf_domain (tm_dataRF target) = BankData /\ rf_domain (tm_predicateRF target) = BankPredicate.

Definition typed_allocations (mapping : RFAllocatedMapping) : Prop :=
  forall a, a ∈ ra_allocations mapping -> 0 <= sl_readPort a /\ 0 <= sl_writePort a.

(** As many segments as 32-bit identifiers. *)
Definition segments_fit (mapping : RFAllocatedMapping) : Prop :=
  Z.of_nat (length (rq_segments (ra_requirements mapping))) <= u32_max + 1.

Section ValidAllocation.
Context (dfg : TargetDFG) (target : TargetModel) (mapping : RFAllocatedMapping).

Let segments := rq_segments (ra_requirements mapping).
Let ii := rq_ii (ra_requirements mapping).

Definition allocation_of (s : StorageSegment) : option StorageAllocation :=
  find_if (fun a => sl_segment a =? sg_id s) (ra_allocations mapping).

(** Segment [s] lives in the register and ports of [a], in bank [bank]. *)
Definition serves (s : StorageSegment) (a : StorageAllocation) (bank : RegisterFileDesc) : Prop :=
  s ∈ segments /\ allocation_of s = Some a /\ segment_bank target s = Some bank.

(** The register exists at the segment's tile, in the right bank. *)
Definition register_valid (s : StorageSegment) (a : StorageAllocation) (bank : RegisterFileDesc)
  : Prop :=
  pr_tile (sl_reg a) = sg_tile s /\ pr_bank (sl_reg a) = rf_id bank /\
  pr_index (sl_reg a) ∈ rf_allocatableIndices bank.

(** The ports exist, and the write ports can take what is written through them. *)
Definition ports_valid (s : StorageSegment) (a : StorageAllocation) (bank : RegisterFileDesc)
  : Prop :=
  sl_readPort a < rf_readPorts bank /\ sl_writePort a < rf_writePorts bank /\
  (exists source, storageWriteSource dfg target (ra_staged mapping) s = Ok source /\
     port_accepts bank (sl_writePort a) source = true) /\
  (exists seed, boundaryWriteSource dfg s = Ok seed /\
     (seed = ""%string -> sl_boundaryWritePort a = None) /\
     (seed <> ""%string -> exists port, sl_boundaryWritePort a = Some port /\
        port < rf_writePorts bank /\ port_accepts bank port seed = true)).

(** The access points of a segment: tile, bank, modulo slot, port. *)
Definition write_access (s : StorageSegment) (a : StorageAllocation) : PortKey * Z :=
  (access_key mapping s a (sg_writeTime s), sl_writePort a).
Definition read_access (s : StorageSegment) (a : StorageAllocation) : PortKey * Z :=
  (access_key mapping s a (sg_readTime s), sl_readPort a).

Record valid_allocation : Prop := {
  va_staged : sav_verify dfg target (ra_staged mapping) = Ok [];
  va_requirements : exists r, storage_analyze dfg target (ra_staged mapping) = Ok r /\
    rr_ok r = Some (ra_requirements mapping);
  va_known : forall a, a ∈ ra_allocations mapping -> sl_segment a ∈ sg_id <$> segments;
  va_unique : NoDup (sl_segment <$> ra_allocations mapping);
  va_each : forall s, s ∈ segments -> exists a bank, serves s a bank /\
    register_valid s a bank /\ ports_valid s a bank;
  (* no port is used twice in a cycle *)
  va_write_ports : forall s s' a a' bank bank', serves s a bank -> serves s' a' bank' ->
    write_access s a = write_access s' a' -> s = s';
  va_read_ports : forall s s' a a' bank bank', serves s a bank -> serves s' a' bank' ->
    read_access s a = read_access s' a' -> s = s';
  (* no register is needed twice in a cycle, over all iterations *)
  va_lives : forall s s' a a' bank bank' k k', serves s a bank -> serves s' a' bank' ->
    sl_reg a = sl_reg a' -> 0 <= k -> 0 <= k' -> (s, k) <> (s', k') ->
    ~ copies_meet (rf_sameAddressReadWritePolicy bank) ii s s' k k'
}.

(** ** The register file at run time

    Iterations start II cycles apart and never stop.  [writers reg t] are the
    segment copies written to a register in cycle [t], and [contents reg t] is
    what the register holds at the start of cycle [t]. *)
Definition write_at (reg : PhysicalRegister) (t : Z) (s : StorageSegment) : option (Z * Z) :=
  match allocation_of s with
  | Some a => if bool_decide (sl_reg a = reg) && (sg_writeTime s <=? t) &&
                 ((t - sg_writeTime s) mod ii =? 0)
              then Some (sg_id s, (t - sg_writeTime s) / ii) else None
  | None => None
  end.

Definition writers (reg : PhysicalRegister) (t : Z) : list (Z * Z) :=
  omap (write_at reg t) segments.

Fixpoint contents (reg : PhysicalRegister) (t : nat) : option (Z * Z) :=
  match t with
  | O => None
  | S t => match writers reg (Z.of_nat t) with
           | [] => contents reg t
           | copy :: _ => Some copy
           end
  end.

(** The value a read in cycle [t] returns: the old value when reads precede
    writes, the new one when writes precede reads; where the contract forbids
    the combination a read in the cycle of a write returns nothing. *)
Definition value_read (policy : SameAddressReadWritePolicy) (reg : PhysicalRegister) (t : nat)
  : option (Z * Z) :=
  match policy with
  | ReadOldThenWriteNew => contents reg t
  | WriteNewThenRead => contents reg (S t)
  | Forbidden => match writers reg (Z.of_nat t) with [] => contents reg t | _ => None end
  end.
End ValidAllocation.

Example v2_value_read :
  value_read v2_allocation Forbidden (mkRegister (mkTile 0 1) "data_rf" 3) 26 = Some (1, 3).
Proof. vm_compute. reflexivity. Qed.

(** ** Collecting the allocations *)

Section Collect.
Context (mapping : RFAllocatedMapping).

Let segments := rq_segments (ra_requirements mapping).

Lemma collect_grows allocations seen diags m diags' :
  collect_allocations mapping allocations seen diags = (m, diags') ->
  exists more, diags' = diags ++ more.
Proof using Type.
  revert seen diags. induction allocations as [|a allocations IH]; intros seen diags; simpl.
  { intros [= _ <-]. exists []. by rewrite app_nil_r. }
  destruct (negb _); [|destruct (seen !! _)]; intros H; apply IH in H as (more & ->);
    rewrite <- ?app_assoc; by eexists.
Qed.

Lemma segment_known id :
  existsb (fun s => sg_id s =? id) (rq_segments (ra_requirements mapping)) = true <->
  id ∈ sg_id <$> rq_segments (ra_requirements mapping).
Proof using Type.
  rewrite existsb_exists, list_elem_of_fmap. setoid_rewrite <- list_elem_of_In.
  split; intros (s & H1 & H2); exists s; [split; [lia|done]|split; [done|lia]].
Qed.

Lemma collect_clean allocations seen m :
  collect_allocations mapping allocations seen [] = (m, []) ->
  (forall a, a ∈ allocations -> sl_segment a ∈ sg_id <$> segments /\ seen !! sl_segment a = None) /\
  NoDup (sl_segment <$> allocations) /\
  forall id, m !! id = match find_if (fun a => sl_segment a =? id) allocations with
                       | Some a => Some a | None => seen !! id end.
Proof using Type.
  revert seen. induction allocations as [|a allocations IH]; intros seen; simpl.
  { intros [= <-]. split; [intros a Ha; by apply not_elem_of_nil in Ha|]. split; [apply NoDup_nil_2|done]. }
  destruct (existsb _ _) eqn:Ek; simpl.
  2: { intros H. apply collect_grows in H as (more & H). done. }
  destruct (seen !! sl_segment a) eqn:Es.
  { intros H. apply collect_grows in H as (more & H). done. }
  intros H. apply IH in H as (Hall & Hnd & Hm). apply segment_known in Ek. split_and!.
  - intros b Hb. apply elem_of_cons in Hb as [->|Hb]; [done|].
    destruct (Hall b Hb) as [? Hnone]. split; [done|].
    apply lookup_insert_None in Hnone as [? _]. done.
  - apply NoDup_cons. split; [|done]. intros Hin.
    apply list_elem_of_fmap in Hin as (b & Eb & Hb). destruct (Hall b Hb) as [_ Hnone].
    rewrite <- Eb, lookup_insert_eq in Hnone. done.
  - intros id. rewrite Hm. destruct (Z.eqb_spec (sl_segment a) id) as [<-|Hne].
    + rewrite lookup_insert_eq. destruct (find_if _ allocations) as [b|] eqn:Ef; [|done].
      apply find_if_Some in Ef as [Hb Eb]. destruct (Hall b Hb) as [_ Hnone].
      apply Z.eqb_eq in Eb. rewrite Eb, lookup_insert_eq in Hnone. done.
    + by rewrite lookup_insert_ne.
Qed.

Lemma collect_complete allocations seen :
  (forall a, a ∈ allocations -> sl_segment a ∈ sg_id <$> segments /\ seen !! sl_segment a = None) ->
  NoDup (sl_segment <$> allocations) ->
  exists m, collect_allocations mapping allocations seen [] = (m, []).
Proof using Type.
  revert seen. induction allocations as [|a allocations IH]; intros seen Hall Hnd; simpl; [by eexists|].
  destruct (Hall a ltac:(left)) as [Hk Hs]. apply segment_known in Hk.
  rewrite Hk, Hs. simpl. rewrite fmap_cons in Hnd. apply NoDup_cons in Hnd as [Hn Hnd].
  apply IH; [|done]. intros b Hb. destruct (Hall b (list_elem_of_further _ _ _ Hb)) as [? Hnone].
  split; [done|]. rewrite lookup_insert_ne; [done|]. intros E. apply Hn. rewrite E.
  by apply list_elem_of_fmap_2.
Qed.

Lemma unallocated_nil m :
  unallocated_diags mapping m = [] <-> forall s, s ∈ segments -> is_Some (m !! sg_id s).
Proof using Type.
  unfold unallocated_diags. rewrite flat_map_nil_iff. setoid_rewrite when_cons_nil.
  setoid_rewrite bool_decide_false_iff. unfold is_Some, segments.
  split; intros H s Hs; specialize (H s Hs); destruct (m !! sg_id s); [by eexists|done|done|by destruct H].
Qed.
End Collect.

(** ** Ports *)

Lemma pigeonhole_range (l : list Z) n :
  NoDup l -> (forall x, x ∈ l -> 0 <= x < n) -> Z.of_nat (length l) <= Z.max 0 n.
Proof.
  intros Hnd Hl. assert (l ⊆+ range n).
  { apply NoDup_submseteq; [done|]. intros x Hx. apply elem_of_range. auto. }
  apply submseteq_length in H. unfold range in H. rewrite length_seqZ in H. lia.
Qed.

(** Elements with distinct tagged keys and bounded tags under one key are few. *)
Lemma keyed_count {A K} `{EqDecision K} (f : A -> K * Z) (l : list A) key n :
  NoDup (f <$> l) -> (forall x, x ∈ l -> (f x).1 = key -> 0 <= (f x).2 < n) ->
  Z.of_nat (length (filter (fun x => (f x).1 = key) l)) <= Z.max 0 n.
Proof.
  intros Hnd Hn. rewrite <- (length_fmap (fun x => (f x).2)). apply pigeonhole_range.
  - induction l as [|x l IH]; [apply NoDup_nil_2|].
    rewrite fmap_cons in Hnd. apply NoDup_cons in Hnd as [Hx Hnd].
    assert (Hl : NoDup ((fun x => (f x).2) <$> filter (fun x => (f x).1 = key) l)).
    { apply IH; [done|]. intros y Hy. apply Hn. by right. }
    rewrite filter_cons. case_decide as Ek; [|done]. rewrite fmap_cons. apply NoDup_cons.
    split; [|done]. intros Hin. apply list_elem_of_fmap in Hin as (y & Ey & Hy).
    apply list_elem_of_filter in Hy as [Eky Hy]. apply Hx. apply list_elem_of_fmap.
    exists y. split; [|done]. destruct (f x), (f y). simpl in *. congruence.
  - intros z Hz. apply list_elem_of_fmap in Hz as (x & -> & Hx).
    apply list_elem_of_filter in Hx as [Ek Hx]. auto.
Qed.

Lemma boundary_diags_nil s a b seed :
  boundary_diags s a b seed = [] <->
  (seed = ""%string -> sl_boundaryWritePort a = None) /\
  (seed <> ""%string -> exists port, sl_boundaryWritePort a = Some port /\
     port < rf_writePorts b /\ port_accepts b port seed = true).
Proof.
  unfold boundary_diags. destruct (String.eqb_spec seed "") as [E|E]; simpl.
  - rewrite when_cons_nil, bool_decide_false_iff. rewrite <- eq_None_not_Some. naive_solver.
  - destruct (sl_boundaryWritePort a) as [port|]; [|naive_solver].
    destruct (Z.leb_spec (rf_writePorts b) port).
    + split; [done|]. intros [_ H']. destruct (H' E) as (p & [= <-] & ? & _). lia.
    + rewrite when_cons_nil, negb_false_iff. naive_solver.
Qed.

Section Ports.
Context (dfg : TargetDFG) (target : TargetModel) (mapping : RFAllocatedMapping).
Context (m : gmap Z StorageAllocation).
Context (alloc : StorageSegment -> StorageAllocation) (bank : StorageSegment -> RegisterFileDesc).

Let segments := rq_segments (ra_requirements mapping).

Context (Hctx : forall s, s ∈ segments -> segment_context target m s = Ok (alloc s, bank s)).

Definition wa (s : StorageSegment) : PortKey * Z := write_access mapping s (alloc s).
Definition ra (s : StorageSegment) : PortKey * Z := read_access mapping s (alloc s).

(** The port state after the segments of [past]. *)
Record ports_of (st : PortState) (past : list StorageSegment) : Prop := {
  pof_writes : forall key, counted key (po_writes st) =
    Z.of_nat (length (filter (fun s => (wa s).1 = key) past));
  pof_reads : forall key, counted key (po_reads st) =
    Z.of_nat (length (filter (fun s => (ra s).1 = key) past));
  pof_writeAssignments : forall x, x ∈ po_writeAssignments st <-> x ∈ wa <$> past;
  pof_readAssignments : forall x, x ∈ po_readAssignments st <-> x ∈ ra <$> past
}.

Lemma ports_of_nil : ports_of no_ports [].
Proof using Type.
  clear Hctx.
  split; unfold counted, no_ports; simpl; intros; rewrite ?lookup_empty; try done; set_solver.
Qed.

Lemma counted_step (f : StorageSegment -> PortKey * Z) (counts : gmap PortKey Z) past s :
  (forall key, counted key counts = Z.of_nat (length (filter (fun s => (f s).1 = key) past))) ->
  forall key, counted key (<[(f s).1 := counted (f s).1 counts + 1]> counts) =
    Z.of_nat (length (filter (fun s => (f s).1 = key) (s :: past))).
Proof using Type.
  clear Hctx.
  intros Hc key. unfold counted at 1. rewrite filter_cons. case_decide as Ek.
  - rewrite Ek, lookup_insert_eq. simpl. rewrite Hc. lia.
  - rewrite lookup_insert_ne by done. apply Hc.
Qed.

(** The step does what it says, when the ports exist. *)
Lemma port_step_state st past s st' ds :
  ports_of st past -> sl_readPort (alloc s) < rf_readPorts (bank s) ->
  sl_writePort (alloc s) < rf_writePorts (bank s) ->
  port_step dfg target mapping st s (alloc s) (bank s) = Ok (st', ds) -> ports_of st' (s :: past).
Proof using Type.
  clear Hctx.
  intros [Hw Hr Hwa Hra] Hrp Hwp H. unfold port_step in H. inv_ok. simplify_eq.
  rewrite (proj2 (Z.leb_gt _ _) Hrp), (proj2 (Z.leb_gt _ _) Hwp).
  split; simpl.
  - exact (counted_step wa _ past s Hw).
  - exact (counted_step ra _ past s Hr).
  - intros x. rewrite elem_of_union, elem_of_singleton, elem_of_cons, Hwa. done.
  - intros x. rewrite elem_of_union, elem_of_singleton, elem_of_cons, Hra. done.
Qed.

Lemma port_step_clean st past s st' :
  ports_of st past ->
  port_step dfg target mapping st s (alloc s) (bank s) = Ok (st', []) ->
  ports_valid dfg target mapping s (alloc s) (bank s) /\ wa s ∉ wa <$> past /\ ra s ∉ ra <$> past /\
  ports_of st' (s :: past).
Proof using Type.
  clear Hctx.
  intros Hst H. pose proof H as Hstep. unfold port_step in H. inv_ok.
  clear H. rename H0 into H.
  rewrite !app_nil, !when_cons_nil in H.
  rewrite boundary_diags_nil, !orb_false_iff, negb_false_iff, !bool_decide_false_iff in H.
  destruct H as (_ & _ & [Hr1 Hr2] & [Hw1 Hw2] & Hsrc & Hb).
  apply Z.leb_gt in Hr1, Hw1. split_and!.
  - split_and!; [done|done|by eexists|]. eexists. split; [done|]. exact Hb.
  - intros Hin. apply (pof_writeAssignments _ _ Hst) in Hin. done.
  - intros Hin. apply (pof_readAssignments _ _ Hst) in Hin. done.
  - by eapply port_step_state.
Qed.

Lemma port_step_accepts st past s :
  ports_of st past -> ports_valid dfg target mapping s (alloc s) (bank s) ->
  wa s ∉ wa <$> past -> ra s ∉ ra <$> past ->
  Z.of_nat (length (filter (fun x => (wa x).1 = (wa s).1) (s :: past))) <= rf_writePorts (bank s) ->
  Z.of_nat (length (filter (fun x => (ra x).1 = (ra s).1) (s :: past))) <= rf_readPorts (bank s) ->
  exists st', port_step dfg target mapping st s (alloc s) (bank s) = Ok (st', []) /\
    ports_of st' (s :: past).
Proof using Type.
  clear Hctx.
  intros Hst (Hr & Hw & (source & Es & Hs) & (seed & Eb & Hb)) Hnw Hnr Hcw Hcr.
  assert (exists st', port_step dfg target mapping st s (alloc s) (bank s) = Ok (st', [])) as [st' H].
  { unfold port_step. rewrite Es. simpl. rewrite Eb. simpl. eexists. f_equal. f_equal.
    rewrite !app_nil, !when_cons_nil, boundary_diags_nil.
    rewrite !orb_false_iff, negb_false_iff, !bool_decide_false_iff.
    rewrite <- (counted_step wa _ past s (pof_writes _ _ Hst) (wa s).1) in Hcw.
    rewrite <- (counted_step ra _ past s (pof_reads _ _ Hst) (ra s).1) in Hcr.
    apply Z.ltb_ge in Hcw, Hcr. apply Z.leb_gt in Hr, Hw.
    split_and!; [exact Hcw|exact Hcr|done| |done| |done|apply Hb|apply Hb].
    - intros Hin. by apply (pof_readAssignments _ _ Hst) in Hin.
    - intros Hin. by apply (pof_writeAssignments _ _ Hst) in Hin. }
  exists st'. split; [done|]. by eapply port_step_state.
Qed.

Lemma port_loop_sound st past todo : ports_of st past -> todo ⊆ segments ->
  port_loop dfg target mapping m st todo = Ok [] ->
  NoDup (wa <$> past) -> NoDup (ra <$> past) ->
  (forall s, s ∈ todo -> ports_valid dfg target mapping s (alloc s) (bank s)) /\
  NoDup (wa <$> (reverse todo ++ past)) /\ NoDup (ra <$> (reverse todo ++ past)).
Proof using Hctx.
  revert st past. induction todo as [|s todo IH]; intros st past Hst Hsub; simpl.
  { intros _ Hw Hr. split_and!; try done.
    intros s Hs. by apply not_elem_of_nil in Hs. }
  rewrite Hctx by (apply Hsub; left). simpl. intros H Hw Hr.
  destruct (port_step _ _ _ _ _ _ _) as [[st' ds]|] eqn:E; [|done]. simpl in H. inv_ok.
  apply app_nil in H as [-> ->].
  destruct (port_step_clean st past s st' Hst E) as (Hpv & Hnw & Hnr & Hst').
  destruct (IH st' (s :: past) Hst') as (Hall & Hwl & Hrl).
  - intros x Hx. apply Hsub. by right.
  - done.
  - rewrite fmap_cons. by apply NoDup_cons.
  - rewrite fmap_cons. by apply NoDup_cons.
  - rewrite reverse_cons, <- app_assoc. split_and!; [|done|done].
    intros x Hx. apply elem_of_cons in Hx as [->|Hx]; auto.
Qed.
(** Accesses under one key go through one bank. *)
Context (Hreg : forall s, s ∈ segments -> register_valid s (alloc s) (bank s)).
Context (Hrf : register_files_wf target).
Context (Htyped : forall s, s ∈ segments -> 0 <= sl_readPort (alloc s) /\ 0 <= sl_writePort (alloc s)).

Lemma context_bank s : s ∈ segments -> segment_bank target s = Some (bank s).
Proof using Hctx.
  intros Hs. specialize (Hctx s Hs). unfold segment_context in Hctx. inv_ok.
  congruence.
Qed.

Lemma same_bank s s' : s ∈ segments -> s' ∈ segments -> sg_tile s = sg_tile s' ->
  pr_bank (sl_reg (alloc s)) = pr_bank (sl_reg (alloc s')) -> bank s = bank s'.
Proof using Hctx Hreg Hrf.
  intros Hs Hs' Et Eb. pose proof (context_bank s Hs) as B. pose proof (context_bank s' Hs') as B'.
  destruct (Hreg s Hs) as (_ & E & _). destruct (Hreg s' Hs') as (_ & E' & _).
  destruct Hrf as [Hne _]. unfold segment_bank, registerBank in B, B'. rewrite Et in B.
  destruct (sg_domain s), (sg_domain s'); repeat case_match; simplify_eq; congruence.
Qed.

Lemma port_loop_complete st past todo : ports_of st past -> todo ⊆ segments -> past ⊆ segments ->
  (forall s, s ∈ segments -> ports_valid dfg target mapping s (alloc s) (bank s)) ->
  NoDup (wa <$> (reverse todo ++ past)) -> NoDup (ra <$> (reverse todo ++ past)) ->
  port_loop dfg target mapping m st todo = Ok [].
Proof using Hctx Hreg Hrf Htyped.
  revert st past. induction todo as [|s todo IH]; intros st past Hst Hsub Hdone Hpv Hw Hr; [done|].
  assert (Hs : s ∈ segments) by (apply Hsub; left).
  rewrite reverse_cons, <- app_assoc in Hw, Hr. simpl in Hw, Hr.
  assert (Hw' := Hw). assert (Hr' := Hr).
  rewrite fmap_app, fmap_cons in Hw', Hr'.
  apply NoDup_app in Hw' as (_ & _ & Hw'). apply NoDup_app in Hr' as (_ & _ & Hr').
  assert (Hin : forall x, x ∈ s :: past -> x ∈ segments).
  { intros x Hx. apply elem_of_cons in Hx as [->|Hx]; auto. }
  destruct (port_step_accepts st past s Hst (Hpv s Hs)) as (st' & Hstep & Hst').
  - by apply NoDup_cons in Hw' as [? _].
  - by apply NoDup_cons in Hr' as [? _].
  - etransitivity; [apply (keyed_count wa (s :: past) _ (rf_writePorts (bank s)) Hw')|].
    + intros x Hx Ek. apply Hin in Hx. destruct (Hpv x Hx) as (_ & Hlt & _). destruct (Htyped x Hx).
      rewrite <- (same_bank x s Hx Hs); [done|by injection Ek|by injection Ek].
    + destruct (Hpv s Hs) as (_ & Hlt & _). destruct (Htyped s Hs). lia.
  - etransitivity; [apply (keyed_count ra (s :: past) _ (rf_readPorts (bank s)) Hr')|].
    + intros x Hx Ek. apply Hin in Hx. destruct (Hpv x Hx) as (Hlt & _). destruct (Htyped x Hx).
      rewrite <- (same_bank x s Hx Hs); [done|by injection Ek|by injection Ek].
    + destruct (Hpv s Hs) as (Hlt & _). destruct (Htyped s Hs). lia.
  - simpl. rewrite Hctx by done. simpl. rewrite Hstep. simpl.
    rewrite (IH st' (s :: past)); [done|done| |exact Hin|done|done|done].
    intros x Hx. apply Hsub. by right.
Qed.
(** ** Registers over time *)

Let ii := rq_ii (ra_requirements mapping).
Let policy (s : StorageSegment) := rf_sameAddressReadWritePolicy (bank s).

Lemma context_alloc s : s ∈ segments -> m !! sg_id s = Some (alloc s).
Proof using Hctx.
  intros Hs. specialize (Hctx s Hs). unfold segment_context in Hctx. inv_ok. congruence.
Qed.

Definition pair_ok (lhs rhs : StorageSegment) : Prop :=
  sl_reg (alloc lhs) = sl_reg (alloc rhs) ->
  periodicLifetimesConflict lhs rhs ii (policy lhs) = false.

Lemma pair_row_nil lhs todo : lhs ∈ segments -> todo ⊆ segments ->
  pair_row target mapping m lhs (alloc lhs) todo = Ok [] <-> Forall (pair_ok lhs) todo.
Proof using Hctx.
  intros Hl. induction todo as [|rhs todo IH]; intros Hsub; simpl; [done|].
  rewrite (context_alloc rhs) by (apply Hsub; left). simpl.
  rewrite Forall_cons, <- IH by (intros x Hx; apply Hsub; by right). unfold pair_ok at 1.
  case_bool_decide as E.
  - rewrite (context_bank lhs Hl). simpl. fold (policy lhs).
    destruct (pair_row target mapping m lhs (alloc lhs) todo) as [rest|]; simpl.
    + destruct (periodicLifetimesConflict lhs rhs _ _) eqn:Ec; simpl; split.
      * done.
      * intros [Hc _]. specialize (Hc E). congruence.
      * intros [= ->]. done.
      * by intros [_ [= ->]].
    + split; [done|by intros [_ ?]].
  - simpl. destruct (pair_row target mapping m lhs (alloc lhs) todo) as [rest|]; simpl;
      [|split; [done|by intros [_ ?]]].
    split; [intros [= ->]; done|by intros [_ [= ->]]].
Qed.

Lemma pair_diags_nil todo : todo ⊆ segments ->
  pair_diags target mapping m todo = Ok [] <-> StronglySorted pair_ok todo.
Proof using Hctx.
  induction todo as [|lhs todo IH]; intros Hsub; simpl; [split; [constructor|done]|].
  assert (Hl : lhs ∈ segments) by (apply Hsub; left).
  assert (Hrest : todo ⊆ segments) by (intros x Hx; apply Hsub; by right).
  rewrite (context_alloc lhs Hl). simpl. specialize (IH Hrest).
  pose proof (pair_row_nil lhs todo Hl Hrest) as Hrow.
  rewrite StronglySorted_cons, <- IH, <- Hrow.
  destruct (pair_row target mapping m lhs (alloc lhs) todo) as [here|]; simpl;
    [|split; [done|by intros [? _]]].
  destruct (pair_diags target mapping m todo) as [rest|]; simpl; [|split; [done|by intros [_ ?]]].
  split; [intros [= H]; apply app_nil in H as [-> ->]; done|by intros [[= ->] [= ->]]].
Qed.

(** No two copies in one register ever meet. *)
Definition exclusive : Prop := forall s s' k k', s ∈ segments -> s' ∈ segments ->
  sl_reg (alloc s) = sl_reg (alloc s') -> 0 <= k -> 0 <= k' -> (s, k) <> (s', k') ->
  ~ copies_meet (policy s) ii s s' k k'.

Lemma same_register_bank s s' : s ∈ segments -> s' ∈ segments ->
  sl_reg (alloc s) = sl_reg (alloc s') -> bank s = bank s'.
Proof using Hctx Hreg Hrf.
  intros Hs Hs' E. apply same_bank; [done|done| |by rewrite E].
  destruct (Hreg s Hs) as (<- & _). destruct (Hreg s' Hs') as (<- & _). by rewrite E.
Qed.

Lemma exclusive_iff : 0 < ii ->
  (forall s, s ∈ segments -> sg_writeTime s < sg_readTime s) -> NoDup segments ->
  (exclusive <-> (forall s, s ∈ segments -> fixedRegisterSelfOverlaps s ii (policy s) = false) /\
                 StronglySorted pair_ok segments).
Proof using Hctx Hreg Hrf.
  intros Hii Hpos Hnd. split.
  - intros Hex. split.
    + intros s Hs. apply not_true_is_false. rewrite self_overlap_exact by done.
      intros [Hle|(k & k' & Hk & Hk' & Hne & Hm)]; [specialize (Hpos s Hs); lia|].
      apply (Hex s s k k'); congruence.
    + revert Hex Hnd Hpos Hctx Hreg. clear Htyped. unfold exclusive.
      intros Hex Hnd Hpos _ _. assert (Hsub : segments ⊆ segments) by done. revert Hsub Hnd.
      generalize segments at 1 3 4. intros todo.
      induction todo as [|s todo IH]; intros Hsub Hnd; [constructor|].
      apply NoDup_cons in Hnd as [Hn Hnd].
      constructor; [apply IH; [intros x Hx; apply Hsub; by right|done]|].
      apply Forall_forall. intros s' Hs' E. apply not_true_is_false.
      assert (s ∈ segments) by (apply Hsub; left).
      assert (s' ∈ segments) by (apply Hsub; by right).
      rewrite periodic_conflict_exact by done.
      intros [Hle|[Hle|(k & k' & Hk & Hk' & Hm)]];
        [specialize (Hpos s ltac:(done)); lia|specialize (Hpos s' ltac:(done)); lia|].
      apply (Hex s s' k k'); try done. congruence.
  - intros [Hself Hpair] s s' k k' Hs Hs' E Hk Hk' Hne Hm.
    destruct (decide (s = s')) as [<-|Hss].
    { specialize (Hself s Hs). apply not_true_iff_false in Hself. apply Hself.
      apply self_overlap_exact; [done|]. right. exists k, k'. split_and!; try done. congruence. }
    apply list_elem_of_lookup in Hs as Hi. destruct Hi as [i Hi].
    apply list_elem_of_lookup in Hs' as Hj. destruct Hj as [j Hj].
    assert (Hord : forall x y a b i j, (i < j)%nat -> segments !! i = Some x -> segments !! j = Some y ->
      sl_reg (alloc x) = sl_reg (alloc y) -> 0 <= a -> 0 <= b -> policy x = policy s ->
      ~ copies_meet (policy s) ii x y a b).
    { intros x y a b i' j' Hlt Hx Hy Exy Ha Hb Ep Hmeet.
      assert (Hxy : pair_ok x y) by exact (sorted_lookup _ _ _ _ _ _ Hpair Hlt Hx Hy).
      specialize (Hxy Exy). apply not_true_iff_false in Hxy. apply Hxy.
      apply periodic_conflict_exact; [done|]. right. right. exists a, b. by rewrite Ep. }
    destruct (Nat.lt_trichotomy i j) as [Hlt|[->|Hlt]].
    + by apply (Hord s s' k k' i j).
    + congruence.
    + apply copies_meet_comm in Hm. revert Hm. apply (Hord s' s k' k j i); try done.
      unfold policy. by rewrite (same_register_bank s s').
Qed.

(** ** Same-cycle accesses of one register *)

Definition write_event (s : StorageSegment) : PhysicalRegister * Z :=
  (sl_reg (alloc s), wrap32 (sg_writeTime s mod ii)).
Definition read_event (s : StorageSegment) : PhysicalRegister * Z :=
  (sl_reg (alloc s), wrap32 (sg_readTime s mod ii)).

Lemma counted_insert (counts : gmap (PhysicalRegister * Z) Z) x key :
  counted key (<[x := counted x counts + 1]> counts) =
  counted key counts + (if decide (x = key) then 1 else 0).
Proof using Type.
  clear. unfold counted at 1. rewrite lookup_insert. repeat case_decide; subst; simpl; try done.
  unfold counted. lia.
Qed.

Lemma register_events_spec todo reads writes : todo ⊆ segments ->
  exists reads' writes', register_events mapping m todo reads writes = Ok (reads', writes') /\
    (forall key, counted key reads' = counted key reads +
       Z.of_nat (length (filter (fun s => read_event s = key) todo))) /\
    (forall key, counted key writes' = counted key writes +
       Z.of_nat (length (filter (fun s => write_event s = key) todo))).
Proof using Hctx.
  revert reads writes. induction todo as [|s todo IH]; intros reads writes Hsub; simpl.
  { exists reads, writes. split; [done|]. split; intros; lia. }
  rewrite (context_alloc s) by (apply Hsub; left). simpl.
  destruct (IH (<[read_event s := counted (read_event s) reads + 1]> reads)
    (<[write_event s := counted (write_event s) writes + 1]> writes)) as (r & w & Heq & Hr & Hw).
  { intros x Hx. apply Hsub. by right. }
  exists r, w. split; [exact Heq|].
  split; intros key; [rewrite Hr|rewrite Hw]; rewrite counted_insert, filter_cons;
    repeat case_decide; simpl; lia.
Qed.

Lemma register_bank_eq s : s ∈ segments -> register_bank target (sl_reg (alloc s)) = Some (bank s).
Proof using Hctx Hreg Hrf.
  intros Hs. pose proof (context_bank s Hs) as B. destruct (Hreg s Hs) as (Et & Eb & _).
  destruct Hrf as [Hne _]. unfold register_bank. rewrite Et, Eb. rewrite <- B. unfold segment_bank.
  f_equal. unfold segment_bank, registerBank in B.
  destruct (String.eqb_spec (rf_id (bank s)) (rf_id (tm_predicateRF target)));
    destruct (sg_domain s); try done; case_match; simplify_eq; congruence.
Qed.

Lemma event_meets s s' x : 0 < ii -> sg_writeTime s <= x ->
  (if boundaryReuseAllowed (policy s) then x < sg_readTime s else x <= sg_readTime s) ->
  sg_writeTime s' < sg_readTime s' -> x mod ii = sg_writeTime s' mod ii ->
  exists k k', 0 <= k /\ 0 <= k' /\ k' - k = (x - sg_writeTime s') / ii /\
    copies_meet (policy s) ii s s' k k'.
Proof using Type.
  clear Hctx Hreg Hrf Htyped. intros Hii Hw Hr Hpos Hmod.
  apply copies_meet_relative.
  assert (Hx : sg_writeTime s' + (x - sg_writeTime s') / ii * ii = x).
  { pose proof (Z.div_mod x ii ltac:(lia)). pose proof (Z.div_mod (sg_writeTime s') ii ltac:(lia)).
    replace (x - sg_writeTime s') with ((x / ii - sg_writeTime s' / ii) * ii) by lia.
    rewrite Z.div_mul by lia. lia. }
  unfold lives_meet. exists x. split; [done|]. split; [lia|].
  destruct (boundaryReuseAllowed (policy s)); lia.
Qed.

Lemma event_diags_complete reads writes :
  is_u32 ii -> 0 < ii -> (forall s, s ∈ segments -> sg_writeTime s < sg_readTime s) ->
  NoDup segments -> exclusive ->
  (forall key, counted key reads = Z.of_nat (length (filter (fun s => read_event s = key) segments))) ->
  (forall key, counted key writes = Z.of_nat (length (filter (fun s => write_event s = key) segments))) ->
  event_diags target reads writes = [].
Proof using Hctx Hreg Hrf.
  clear Htyped. intros Hu Hii Hpos Hnd Hex Hr Hw. unfold event_diags. apply flat_map_nil_iff.
  intros key _. rewrite app_nil, !when_cons_nil, Z.ltb_ge. rewrite Hw, Hr.
  assert (Hslot : forall x, wrap32 (x mod ii) = x mod ii).
  { intros x. apply wrap32_id. pose proof (Z.mod_pos_bound x ii Hii). unfold is_u32 in *. lia. }
  split.
  - destruct (filter (fun s => write_event s = key) segments) as [|s [|s' l]] eqn:E; simpl; try lia.
    exfalso. assert (Hnd' : NoDup (s :: s' :: l)) by (rewrite <- E; by apply NoDup_filter).
    assert (Hin : forall y, y ∈ s :: s' :: l -> write_event y = key /\ y ∈ segments).
    { intros y. rewrite <- E, list_elem_of_filter. done. }
    destruct (Hin s ltac:(set_solver)) as [Es Hs]. destruct (Hin s' ltac:(set_solver)) as [Es' Hs'].
    unfold write_event in Es, Es'. rewrite Hslot in Es, Es'.
    pose proof (Hpos s Hs). pose proof (Hpos s' Hs').
    destruct (event_meets s s' (sg_writeTime s)) as (k & k' & Hk & Hk' & _ & Hm); try done; try lia.
    + destruct (boundaryReuseAllowed (policy s)); lia.
    + congruence.
    + revert Hm. apply Hex; try done; [congruence|].
      apply NoDup_cons in Hnd' as [Hn _]. intros [= -> _]. apply Hn. left.
  - destruct (filter (fun s => read_event s = key) segments) as [|s l] eqn:E; [done|].
    destruct (filter (fun s => write_event s = key) segments) as [|s' l'] eqn:E'; [done|].
    simpl. assert (Hs : s ∈ s :: l) by left. rewrite <- E in Hs. clear E.
    assert (Hs' : s' ∈ s' :: l') by left. rewrite <- E' in Hs'. clear E'.
    apply list_elem_of_filter in Hs as [Es Hs]. apply list_elem_of_filter in Hs' as [Es' Hs'].
    unfold read_event in Es. unfold write_event in Es'. rewrite Hslot in Es, Es'.
    assert (key.1 = sl_reg (alloc s)) as -> by (by rewrite <- Es).
    rewrite register_bank_eq by done. fold (policy s).
    destruct (boundaryReuseAllowed (policy s)) eqn:Eb; [done|]. exfalso.
    pose proof (Hpos s Hs). pose proof (Hpos s' Hs').
    destruct (event_meets s s' (sg_readTime s)) as (k & k' & Hk & Hk' & Ed & Hm); try done; try lia.
    + rewrite Eb. lia.
    + congruence.
    + revert Hm. apply Hex; try done; [congruence|]. intros [= -> ->].
      rewrite Z.sub_diag in Ed. pose proof (Z.div_mod (sg_readTime s' - sg_writeTime s') ii ltac:(lia)).
      assert (Hmod : (sg_readTime s' - sg_writeTime s') mod ii = 0).
      { assert (sg_readTime s' mod ii = sg_writeTime s' mod ii) as Emod by congruence.
        rewrite Zminus_mod, Emod, Z.sub_diag. apply Z.mod_0_l. lia. }
      lia.
Qed.
End Ports.

(** ** The verifier is exact *)

Lemma NoDup_fmap_inj_in {A B} (f : A -> B) l x y :
  NoDup (f <$> l) -> x ∈ l -> y ∈ l -> f x = f y -> x = y.
Proof.
  intros Hnd Hx Hy E. apply list_elem_of_lookup in Hx as [i Hi]. apply list_elem_of_lookup in Hy as [j Hj].
  assert (i = j) as ->; [|congruence]. apply (NoDup_lookup _ _ _ (f x) Hnd).
  - by rewrite list_lookup_fmap, Hi.
  - by rewrite list_lookup_fmap, Hj, E.
Qed.

Section Exact.
Context (dfg : TargetDFG) (target : TargetModel) (mapping : RFAllocatedMapping).

Let q := ra_requirements mapping.
Let segments := rq_segments q.
Let ii := rq_ii q.

Context (Hii : 0 < ii) (Hu : is_u32 ii) (Hids : NoDup (sg_id <$> segments)).
Context (Hpos : forall s, s ∈ segments -> sg_writeTime s < sg_readTime s).
Context (Hbanks : forall s, s ∈ segments -> is_Some (segment_bank target s)).
Context (Hrf : register_files_wf target) (Hty : typed_allocations mapping).

Definition alloc (s : StorageSegment) : StorageAllocation :=
  default (mkAllocation 0 (mkRegister (mkTile 0 0) "" 0) 0 0 None) (allocation_of mapping s).
Definition bank (s : StorageSegment) : RegisterFileDesc :=
  default (tm_dataRF target) (segment_bank target s).

(** Every allocation is for a segment, and every segment has one. *)
Definition covering : Prop :=
  (forall a, a ∈ ra_allocations mapping -> sl_segment a ∈ sg_id <$> segments) /\
  NoDup (sl_segment <$> ra_allocations mapping) /\
  forall s, s ∈ segments -> is_Some (allocation_of mapping s).

Lemma serves_iff s a b : covering ->
  serves target mapping s a b <-> s ∈ segments /\ a = alloc s /\ b = bank s.
Proof using Hbanks.
  intros (_ & _ & Ha). unfold serves, alloc, bank. fold segments. split.
  - intros (Hs & -> & ->). done.
  - intros (Hs & -> & ->). destruct (Ha s Hs) as [a' ->]. destruct (Hbanks s Hs) as [b' ->]. done.
Qed.

Lemma collect_covering :
  (exists m, collect_allocations mapping (ra_allocations mapping) ∅ [] = (m, []) /\
     unallocated_diags mapping m = []) <-> covering.
Proof using Type.
  clear Hu Hii. split.
  - intros (m & Hc & Hun). apply collect_clean in Hc as (Hall & Hnd & Hm). split_and!; [|done|].
    + intros a Ha. by destruct (Hall a Ha).
    + intros s Hs. unfold allocation_of. apply (unallocated_nil mapping m) with (s := s) in Hun; [|done].
      rewrite Hm in Hun. destruct (find_if _ _); [by eexists|]. by rewrite lookup_empty in Hun.
  - intros (Hk & Hnd & Ha). destruct (collect_complete mapping (ra_allocations mapping) ∅) as [m Hc].
    + intros a Hin. split; [by apply Hk|apply lookup_empty].
    + done.
    + exists m. split; [done|]. apply unallocated_nil. intros s Hs.
      apply collect_clean in Hc as (_ & _ & ->). destruct (Ha s Hs) as [a E].
      unfold allocation_of in E. rewrite E. by eexists.
Qed.

Section Covered.
Context (Hcov : covering) (m : gmap Z StorageAllocation).
Context (Hm : collect_allocations mapping (ra_allocations mapping) ∅ [] = (m, [])).

Lemma covered_context s : s ∈ segments -> segment_context target m s = Ok (alloc s, bank s).
Proof using Hcov Hm Hbanks.
  intros Hs. destruct Hcov as (_ & _ & Ha). apply collect_clean in Hm as (_ & _ & Hm').
  destruct (Ha s Hs) as [a E]. destruct (Hbanks s Hs) as [b Eb].
  unfold segment_context, alloc, bank. rewrite Hm', E, Eb. unfold allocation_of in E. by rewrite E.
Qed.

Lemma covered_typed s : s ∈ segments -> 0 <= sl_readPort (alloc s) /\ 0 <= sl_writePort (alloc s).
Proof using Hcov Hty.
  intros Hs. destruct Hcov as (_ & _ & Ha). unfold alloc. destruct (Ha s Hs) as [a E]. rewrite E.
  apply Hty. unfold allocation_of in E. by apply find_if_elem in E.
Qed.

Lemma register_report_nil :
  flat_map (fun s => match m !! sg_id s with Some a => register_diags target mapping s a | None => [] end)
    segments = [] <->
  forall s, s ∈ segments -> register_valid s (alloc s) (bank s) /\
    fixedRegisterSelfOverlaps s ii (rf_sameAddressReadWritePolicy (bank s)) = false.
Proof using Hcov Hm Hbanks Hrf.
  rewrite flat_map_nil_iff.
  assert (Heq : forall s, s ∈ segments ->
    match m !! sg_id s with Some a => register_diags target mapping s a | None => [] end = [] <->
    register_valid s (alloc s) (bank s) /\
    fixedRegisterSelfOverlaps s ii (rf_sameAddressReadWritePolicy (bank s)) = false).
  2: { split; intros H s Hs; apply Heq; auto. }
  intros s Hs. pose proof (covered_context s Hs) as Hctx.
  rewrite (context_alloc target mapping m alloc bank covered_context s Hs).
  pose proof (context_bank target mapping m alloc bank covered_context s Hs) as Hb.
  unfold register_diags, register_valid. rewrite Hb. fold ii.
  assert (Hdom : rf_domain (bank s) = sg_domain s).
  { destruct Hrf as (_ & H1 & H2). unfold segment_bank, registerBank in Hb.
    destruct (sg_domain s); case_match; congruence. }
  unfold allocates. rewrite !app_nil, !when_cons_nil, !orb_false_iff, !negb_false_iff, !bool_decide_eq_true.
  rewrite String.eqb_eq. tauto.
Qed.

(** The checks that remain once every segment has its allocation. *)
Lemma access_checks_exact :
  (forall s, s ∈ segments -> register_valid s (alloc s) (bank s)) ->
  (port_loop dfg target mapping m no_ports segments = Ok [] <->
   (forall s, s ∈ segments -> ports_valid dfg target mapping s (alloc s) (bank s)) /\
   NoDup (wa mapping alloc <$> segments) /\ NoDup (ra mapping alloc <$> segments)).
Proof using Hcov Hm Hbanks Hrf Hty.
  intros Hreg.
  assert (Hrev : forall f : StorageSegment -> PortKey * Z,
    NoDup (f <$> (reverse segments ++ [])) <-> NoDup (f <$> segments)).
  { intros f. by rewrite app_nil_r, reverse_Permutation. }
  rewrite <- !Hrev. split.
  - intros H. apply (port_loop_sound dfg target mapping m alloc bank covered_context no_ports []);
      [apply ports_of_nil|intros x Hx; exact Hx|exact H|apply NoDup_nil_2..].
  - intros (Hpv & Hw & Hr).
    apply (port_loop_complete dfg target mapping m alloc bank covered_context Hreg Hrf covered_typed
      no_ports []); [apply ports_of_nil|intros x Hx; exact Hx| |done|done|done].
    intros s Hs. by apply not_elem_of_nil in Hs.
Qed.

Definition checks_pass : Prop :=
  covering /\
  (forall s, s ∈ segments -> register_valid s (alloc s) (bank s)) /\
  (forall s, s ∈ segments -> ports_valid dfg target mapping s (alloc s) (bank s)) /\
  NoDup (wa mapping alloc <$> segments) /\ NoDup (ra mapping alloc <$> segments) /\
  exclusive mapping alloc bank.

(** The last block of the verifier: ports, same-cycle events, pairs. *)
Lemma access_block_exact :
  (forall s, s ∈ segments -> register_valid s (alloc s) (bank s)) ->
  (forall s, s ∈ segments ->
     fixedRegisterSelfOverlaps s ii (rf_sameAddressReadWritePolicy (bank s)) = false) ->
  (ports ← port_loop dfg target mapping m no_ports segments;
   '(reads, writes) ← register_events mapping m segments ∅ ∅;
   pairs ← pair_diags target mapping m segments;
   Ok (ports ++ event_diags target reads writes ++ pairs)) = Ok [] <->
  (forall s, s ∈ segments -> ports_valid dfg target mapping s (alloc s) (bank s)) /\
  NoDup (wa mapping alloc <$> segments) /\ NoDup (ra mapping alloc <$> segments) /\
  exclusive mapping alloc bank.
Proof using All.
  intros Hreg Hself. pose proof (access_checks_exact Hreg) as Hports.
  assert (Hnd : NoDup segments) by (by eapply NoDup_of_key).
  pose proof (pair_diags_nil target mapping m alloc bank covered_context segments ltac:(done)) as Hpairs.
  pose proof (exclusive_iff target mapping m alloc bank covered_context Hreg Hrf Hii Hpos Hnd) as Hexcl.
  destruct (register_events_spec target mapping m alloc bank covered_context segments ∅ ∅ ltac:(done))
    as (reads & writes & Hev & Hr & Hw).
  rewrite Hev. split.
  - destruct (port_loop _ _ _ _ _ _) as [ports|] eqn:Ep; [|done]. simpl.
    destruct (pair_diags _ _ _ _) as [pairs|] eqn:Epr; [|done]. simpl. intros [= H].
    apply app_nil in H as [-> H]. apply app_nil in H as [_ ->].
    destruct (proj1 Hports eq_refl) as (? & ? & ?). pose proof (proj1 Hpairs eq_refl).
    split_and!; [done..|]. apply Hexcl. split; [exact Hself|done].
  - intros (Hpv & Hwp & Hrp & Hex). rewrite (proj2 Hports) by done. simpl.
    rewrite (proj2 Hpairs) by (by apply Hexcl). simpl.
    rewrite (event_diags_complete target mapping m alloc bank covered_context Hreg Hrf); try done.
Qed.
End Covered.

(** What the verifier computes once the requirements are confirmed. *)
Definition allocation_report : result (list RFAllocationVerificationDiagnostic) :=
  let '(allocations, diags) := collect_allocations mapping (ra_allocations mapping) ∅ [] in
  match diags ++ unallocated_diags mapping allocations with
  | (_ :: _) as diags => Ok diags
  | [] =>
      let register_report := flat_map (fun s =>
        match allocations !! sg_id s with
        | Some a => register_diags target mapping s a
        | None => []
        end) segments in
      match register_report with
      | _ :: _ => Ok register_report
      | [] =>
          ports ← port_loop dfg target mapping allocations no_ports segments;
          '(reads, writes) ← register_events mapping allocations segments ∅ ∅;
          pairs ← pair_diags target mapping allocations segments;
          Ok (ports ++ event_diags target reads writes ++ pairs)
      end
  end.

Lemma allocation_report_exact : allocation_report = Ok [] <-> checks_pass.
Proof using All.
  assert (Hnd : NoDup segments) by (by eapply NoDup_of_key).
  unfold allocation_report, checks_pass.
  destruct (collect_allocations mapping (ra_allocations mapping) ∅ []) as [m ds] eqn:Hm.
  destruct (decide (ds = [] /\ unallocated_diags mapping m = [])) as [[-> Hun]|Hne].
  - assert (Hcov : covering) by (apply collect_covering; by exists m).
    rewrite Hun. simpl. pose proof (register_report_nil Hcov m Hm) as Hreport.
    destruct (flat_map _ segments) as [|d l] eqn:El.
    + pose proof (proj1 Hreport eq_refl) as Hboth.
      assert (Hreg : forall s, s ∈ segments -> register_valid s (alloc s) (bank s))
        by (intros s Hs; by apply Hboth).
      etransitivity; [apply (access_block_exact Hcov m Hm Hreg)|]; [intros s Hs; by apply Hboth|].
      tauto.
    + split; [done|]. intros (_ & Hreg & _ & _ & _ & Hex). exfalso.
      assert (d :: l = []); [|done]. apply Hreport. intros s Hs. split; [by apply Hreg|].
      apply (exclusive_iff target mapping m alloc bank (covered_context Hcov m Hm) Hreg Hrf Hii Hpos Hnd);
        done.
  - split.
    + intros H. exfalso. apply Hne.
      destruct (ds ++ unallocated_diags mapping m) as [|d l] eqn:E; [by apply app_nil in E|].
      injection H as H. done.
    + intros [Hcov _]. exfalso. apply collect_covering in Hcov as (m' & Hm' & Hun).
      apply Hne. rewrite Hm in Hm'. injection Hm' as -> ->. done.
Qed.

Lemma checks_pass_valid :
  sav_verify dfg target (ra_staged mapping) = Ok [] ->
  (exists r, storage_analyze dfg target (ra_staged mapping) = Ok r /\ rr_ok r = Some q) ->
  checks_pass <-> valid_allocation dfg target mapping.
Proof using Hbanks Hids.
  intros Hsav Hq. assert (Hnd : NoDup segments) by (by eapply NoDup_of_key). split.
  - intros (Hcov & Hreg & Hpv & Hw & Hr & Hex). pose proof (fun s a b => serves_iff s a b Hcov) as Hsv.
    split; try done; try (by apply Hcov).
    + intros s Hs. exists (alloc s), (bank s). split; [by apply Hsv|]. auto.
    + intros s s' a a' b b' H1 H2 E. apply Hsv in H1 as (H1 & -> & _). apply Hsv in H2 as (H2 & -> & _).
      by apply (NoDup_fmap_inj_in _ _ _ _ Hw).
    + intros s s' a a' b b' H1 H2 E. apply Hsv in H1 as (H1 & -> & _). apply Hsv in H2 as (H2 & -> & _).
      by apply (NoDup_fmap_inj_in _ _ _ _ Hr).
    + intros s s' a a' b b' k k' H1 H2. apply Hsv in H1 as (H1 & -> & ->).
      apply Hsv in H2 as (H2 & -> & _). by apply Hex.
  - intros [_ _ Hk Hu' Hea Hwp Hrp Hl].
    assert (Hcov : covering).
    { split_and!; [done|done|]. intros s Hs. destruct (Hea s Hs) as (a & b & (_ & E & _) & _).
      by exists a. }
    pose proof (fun s a b => serves_iff s a b Hcov) as Hsv.
    assert (Hself : forall s, s ∈ segments -> serves target mapping s (alloc s) (bank s))
      by (intros s Hs; by apply Hsv).
    assert (Hboth : forall s, s ∈ segments -> register_valid s (alloc s) (bank s) /\
      ports_valid dfg target mapping s (alloc s) (bank s)).
    { intros s Hs. destruct (Hea s Hs) as (a & b & Hs' & ? & ?).
      by apply Hsv in Hs' as (_ & -> & ->). }
    split_and!; try (intros s Hs; by apply Hboth); [done| | |].
    + apply NoDup_fmap_2_strong; [|done]. intros s s' Hs Hs' E.
      by apply (Hwp s s' (alloc s) (alloc s') (bank s) (bank s')); auto.
    + apply NoDup_fmap_2_strong; [|done]. intros s s' Hs Hs' E.
      by apply (Hrp s s' (alloc s) (alloc s') (bank s) (bank s')); auto.
    + intros s s' k k' Hs Hs'. by apply (Hl s s' (alloc s) (alloc s') (bank s) (bank s')); auto.
Qed.
End Exact.

(** ** What the storage analysis guarantees to the allocation *)

Lemma dense_ids_NoDup segments :
  dense_ids segments -> Z.of_nat (length segments) <= u32_max + 1 -> NoDup (sg_id <$> segments).
Proof.
  intros Hd Hlen. apply NoDup_alt. intros i j id Hi Hj.
  rewrite list_lookup_fmap in Hi, Hj.
  apply fmap_Some in Hi as (s & Hs & E). apply fmap_Some in Hj as (s' & Hs' & E').
  pose proof (Hd i s Hs). pose proof (Hd j s' Hs').
  apply lookup_lt_Some in Hs, Hs'. rewrite wrap32_id in * by (unfold is_u32; lia). lia.
Qed.

Section Facts.
Context (dfg : TargetDFG) (target : TargetModel) (mapping : RFAllocatedMapping).
Context (Hinv : TargetDFG_inv dfg) (Htwf : TargetModel_wf target) (Htyped : typed_graph dfg).
Context (Hst : typed_staged (ra_staged mapping)).
Context (Hu : universe_fits target (mm_ii (sm_modulo (ra_staged mapping)))).
Context (Hsav : sav_verify dfg target (ra_staged mapping) = Ok []).
Context (Hq : exists r, storage_analyze dfg target (ra_staged mapping) = Ok r /\
  rr_ok r = Some (ra_requirements mapping)).

Let segments := rq_segments (ra_requirements mapping).

Lemma requirements_confirmed :
  requirements_exact dfg target (ra_staged mapping) (ra_requirements mapping).
Proof using All.
  destruct Hq as (r & Hr & Hok).
  destruct (storage_analyze_clean dfg target (ra_staged mapping) Hinv Htwf Htyped Hst Hu Hsav)
    as (r' & Hr' & Hex).
  assert (r' = r) as -> by congruence. unfold storage_exact in Hex. unfold rr_ok in Hok.
  destruct (rr_status r); try done. destruct Hex as (_ & q & Eq & Hex). congruence.
Qed.

Lemma requirements_ii : 0 < rq_ii (ra_requirements mapping) /\ is_u32 (rq_ii (ra_requirements mapping)).
Proof using All.
  destruct requirements_confirmed as (-> & _).
  destruct (sav_verify_clean dfg target _ Hinv Htwf Htyped Hst Hu Hsav) as [Hvm _].
  pose proof (vm_ii _ _ _ Hvm). destruct Hst as [[Hii _] _]. unfold is_u32 in *. lia.
Qed.

Lemma segment_times s : s ∈ segments -> 0 <= sg_writeTime s < sg_readTime s.
Proof using All.
  intros Hs. destruct requirements_confirmed as (_ & _ & Hedge & Hstore & _).
  destruct (Hedge s Hs) as (edge & He & Hk & Eid).
  destruct (Hstore edge He Hk) as (T & HT & Hes).
  destruct (es_attributes _ _ _ _ Hes s) as (_ & _ & Hw & _);
    [by apply list_elem_of_filter|].
  destruct (sav_verify_clean dfg target _ Hinv Htwf Htyped Hst Hu Hsav) as [Hvm _].
  unfold edge_timing in HT. inv_ok. subst T. simpl in Hw.
  apply logicalIssueTime_range in Hv1; [|done].
  pose proof (ready_offset_nonneg dfg target _ Hinv Htwf Hvm _ _ _ Hv4 Hv5). lia.
Qed.

Lemma segment_has_bank s : s ∈ segments -> is_Some (segment_bank target s).
Proof using All.
  intros Hs. destruct requirements_confirmed as (_ & _ & _ & _ & Hb).
  destruct (Hb s Hs) as (b & E & _). by exists b.
Qed.

Lemma segment_ids : segments_fit mapping -> NoDup (sg_id <$> segments).
Proof using All.
  intros Hfit. destruct requirements_confirmed as (_ & Hd & _). by apply dense_ids_NoDup.
Qed.
End Facts.

Lemma rf_verify_report dfg target mapping :
  rf_verify dfg target mapping = Ok [] <->
  sav_verify dfg target (ra_staged mapping) = Ok [] /\
  (exists r, storage_analyze dfg target (ra_staged mapping) = Ok r /\
     rr_ok r = Some (ra_requirements mapping)) /\
  allocation_report dfg target mapping = Ok [].
Proof.
  unfold rf_verify. split.
  - intros H. inv_ok. case_bool_decide; [|done]. simpl in H. inv_ok.
    case_bool_decide; [|done]. simpl in H. inv_ok. destruct (rr_ok v1) as [q|] eqn:Eq; [|done].
    case_bool_decide; [|done]. simpl in H. subst. split; [done|]. split; [by exists v1|exact H].
  - intros (Hsav & (r & Hr & Hok) & H).
    assert (Ht : tdfg_verify dfg target None = Ok []).
    { pose proof Hsav as H'. unfold sav_verify in H'. inv_ok. case_bool_decide; [by subst|done]. }
    rewrite Ht. simpl. rewrite Hsav. simpl. rewrite Hr. simpl. rewrite Hok.
    rewrite bool_decide_eq_true_2 by done. exact H.
Qed.

Lemma rf_verify_valid (dfg : TargetDFG) (target : TargetModel) (mapping : RFAllocatedMapping) :
  TargetDFG_inv dfg -> TargetModel_wf target -> register_files_wf target -> typed_graph dfg ->
  typed_staged (ra_staged mapping) -> typed_allocations mapping -> segments_fit mapping ->
  universe_fits target (mm_ii (sm_modulo (ra_staged mapping))) ->
  rf_verify dfg target mapping = Ok [] <-> valid_allocation dfg target mapping.
Proof.
  intros Hinv Htwf Hrf Htyped Hst Hty Hfit Hu. rewrite rf_verify_report.
  assert (Hmid : sav_verify dfg target (ra_staged mapping) = Ok [] ->
    (exists r, storage_analyze dfg target (ra_staged mapping) = Ok r /\
       rr_ok r = Some (ra_requirements mapping)) ->
    allocation_report dfg target mapping = Ok [] <-> valid_allocation dfg target mapping).
  { intros Hsav Hq.
    destruct (requirements_ii dfg target mapping Hinv Htwf Htyped Hst Hu Hsav Hq) as [Hii Hii'].
    pose proof (segment_ids dfg target mapping Hinv Htwf Htyped Hst Hu Hsav Hq Hfit) as Hids.
    pose proof (segment_has_bank dfg target mapping Hinv Htwf Htyped Hst Hu Hsav Hq) as Hbanks.
    rewrite allocation_report_exact; [apply checks_pass_valid|..]; try done.
    intros s Hs. pose proof (segment_times dfg target mapping Hinv Htwf Htyped Hst Hu Hsav Hq s Hs). lia. }
  split.
  - intros (Hsav & Hq & H). by apply Hmid.
  - intros Hv. pose proof (va_staged _ _ _ Hv). pose proof (va_requirements _ _ _ Hv).
    split_and!; [done|done|]. by apply Hmid.
Qed.

(** ** The register file never loses a value *)

Lemma omap_at_most_one {A B} (f : A -> option B) l :
  NoDup l -> (forall x y, x ∈ l -> y ∈ l -> is_Some (f x) -> is_Some (f y) -> x = y) ->
  (length (omap f l) <= 1)%nat.
Proof.
  induction 1 as [|x l Hx Hnd IH]; csimpl; intros Hone; [lia|].
  destruct (f x) eqn:E; [|apply IH; intros y z Hy Hz; apply Hone; by right].
  destruct (omap f l) as [|b0 k] eqn:Ek; [simpl; lia|]. exfalso.
  assert (Hb : b0 ∈ omap f l) by (rewrite Ek; left). apply list_elem_of_omap in Hb as (y & Hy & Ey).
  assert (x = y) as -> by (apply Hone; [left|by right|by eexists|by eexists]). done.
Qed.

Section RegisterFile.
Context (dfg : TargetDFG) (target : TargetModel) (mapping : RFAllocatedMapping).
Context (Hv : valid_allocation dfg target mapping).

Let segments := rq_segments (ra_requirements mapping).
Let ii := rq_ii (ra_requirements mapping).

Context (Hii : 0 < ii) (Hids : NoDup (sg_id <$> segments)).
Context (Htimes : forall s, s ∈ segments -> 0 <= sg_writeTime s < sg_readTime s).

Lemma write_at_Some reg t s id k : s ∈ segments ->
  write_at mapping reg t s = Some (id, k) <->
  exists a bank, serves target mapping s a bank /\ sl_reg a = reg /\ sg_id s = id /\ 0 <= k /\
    t = sg_writeTime s + k * ii.
Proof using Hv Hii.
  intros Hs. unfold write_at. fold ii. split.
  - intros E. destruct (va_each _ _ _ Hv s Hs) as (a & bk & Hsv & _).
    pose proof Hsv as (_ & Ea & _). rewrite Ea in E. destruct (_ && _ && _)%bool eqn:Eb; [|done].
    injection E as <- <-. bool_hyps. exists a, bk. split_and!; try done.
    + apply Z.div_pos; [lia|done].
    + pose proof (Z.div_mod (t - sg_writeTime s) ii ltac:(lia)). lia.
  - intros (a & bk & (_ & Ea & _) & Er & <- & Hk & ->). rewrite Ea.
    replace (sg_writeTime s + k * ii - sg_writeTime s) with (k * ii) by lia.
    rewrite Z.mod_mul, Z.div_mul by lia. rewrite bool_decide_eq_true_2 by done.
    replace (sg_writeTime s <=? sg_writeTime s + k * ii) with true by nia. done.
Qed.

Lemma elem_of_writers reg t id k : (id, k) ∈ writers mapping reg t <->
  exists s a bank, serves target mapping s a bank /\ sl_reg a = reg /\ sg_id s = id /\ 0 <= k /\
    t = sg_writeTime s + k * ii.
Proof using Hv Hii.
  unfold writers. rewrite list_elem_of_omap. split.
  - intros (s & Hs & E). apply write_at_Some in E as (a & bk & E); [|done]. by exists s, a, bk.
  - intros (s & a & bk & Hs & E). exists s. split; [apply Hs|].
    apply write_at_Some; [apply Hs|]. by exists a, bk.
Qed.

Lemma writers_meet s a bank k s' a' bank' k' t :
  serves target mapping s a bank -> serves target mapping s' a' bank' -> sl_reg a = sl_reg a' ->
  0 <= k -> 0 <= k' -> t = sg_writeTime s' + k' * ii ->
  sg_writeTime s + k * ii <= t ->
  (if boundaryReuseAllowed (rf_sameAddressReadWritePolicy bank) then t < sg_readTime s + k * ii
   else t <= sg_readTime s + k * ii) -> (s, k) = (s', k').
Proof using Hv Htimes.
  intros Hs Hs' Er Hk Hk' Ht Hw Hr. destruct (decide ((s, k) = (s', k'))) as [|Hne]; [done|].
  exfalso. apply (va_lives _ _ _ Hv s s' a a' bank bank' k k'); try done.
  destruct Hs' as (Hin & _). specialize (Htimes s' Hin). fold ii.
  unfold copies_meet, lives_meet. exists t. split; [done|]. split; [lia|].
  destruct (boundaryReuseAllowed _); lia.
Qed.

Lemma one_writer reg t : (length (writers mapping reg t) <= 1)%nat.
Proof using Hv Hii Hids Htimes.
  apply omap_at_most_one; [by eapply NoDup_of_key|]. intros s s' Hs Hs' [[id k] E] [[id' k'] E'].
  apply write_at_Some in E as (a & bk & Hsv & Er & _ & Hk & Et); [|done].
  apply write_at_Some in E' as (a' & bk' & Hsv' & Er' & _ & Hk' & Et'); [|done].
  assert ((s, k) = (s', k')) as [= -> _]; [|done].
  apply (writers_meet s a bk k s' a' bk' k' t); try done; [congruence|lia|].
  specialize (Htimes s Hs). destruct (boundaryReuseAllowed _); lia.
Qed.

Lemma contents_kept reg copy (w : Z) (t : nat) :
  0 <= w -> writers mapping reg w = [copy] -> w < Z.of_nat t ->
  (forall t', w < t' < Z.of_nat t -> writers mapping reg t' = []) ->
  contents mapping reg t = Some copy.
Proof using Type.
  clear. intros Hw0 Hw. induction t as [|t IH]; intros Hlt Hquiet; [lia|]. simpl.
  destruct (decide (Z.of_nat t = w)) as [->|Hne]; [by rewrite Hw|].
  rewrite Hquiet by lia. apply IH; [lia|]. intros t' Ht'. apply Hquiet. lia.
Qed.

(** From its write to its read, a register holds the copy it was written with. *)
Lemma copy_read s a bank k : serves target mapping s a bank -> 0 <= k ->
  value_read mapping (rf_sameAddressReadWritePolicy bank) (sl_reg a)
    (Z.to_nat (sg_readTime s + k * ii)) = Some (sg_id s, k).
Proof using Hv Hii Hids Htimes.
  intros Hs Hk. pose proof Hs as (Hin & _). specialize (Htimes s Hin) as Ht.
  set (w := sg_writeTime s + k * ii). set (r := sg_readTime s + k * ii).
  assert (Hwr : 0 <= w < r) by (unfold w, r; nia).
  assert (Hone : writers mapping (sl_reg a) w = [(sg_id s, k)]).
  { assert (Hel : (sg_id s, k) ∈ writers mapping (sl_reg a) w)
      by (apply elem_of_writers; exists s, a, bank; split_and!; done).
    pose proof (one_writer (sl_reg a) w) as Hlen.
    destruct (writers mapping (sl_reg a) w) as [|c [|c' l]]; simpl in Hlen; [|  |lia].
    - by apply not_elem_of_nil in Hel.
    - apply list_elem_of_singleton in Hel. by subst. }
  assert (Hquiet : forall t, w < t ->
    (if boundaryReuseAllowed (rf_sameAddressReadWritePolicy bank) then t < r else t <= r) ->
    writers mapping (sl_reg a) t = []).
  { intros t Hwt Htr. destruct (writers mapping (sl_reg a) t) as [|[id' k'] l] eqn:E; [done|].
    exfalso. assert (Hel : (id', k') ∈ writers mapping (sl_reg a) t) by (rewrite E; left).
    apply elem_of_writers in Hel as (s' & a' & bank' & Hs' & Er' & _ & Hk' & Et).
    assert ((s, k) = (s', k')) as [= <- <-].
    { apply (writers_meet s a bank k s' a' bank' k' t); try done; unfold w, r in *; lia. }
    unfold w in Hwt. lia. }
  assert (Hkept : contents mapping (sl_reg a) (Z.to_nat r) = Some (sg_id s, k)).
  { apply (contents_kept _ _ w); [lia|done|lia|]. intros t' Ht'. apply Hquiet; [lia|].
    destruct (boundaryReuseAllowed _); lia. }
  unfold value_read. destruct (rf_sameAddressReadWritePolicy bank); [|done|].
  - rewrite Z2Nat.id by lia. rewrite Hquiet; [done|lia|simpl; lia].
  - simpl. rewrite Z2Nat.id by lia. rewrite Hquiet; [done|lia|simpl; lia].
Qed.
End RegisterFile.

(** ** Properties *)

(** C12: the allocation verifier is exact.  For a well-formed contract and graph
    and no more segments than identifiers, verification reports nothing exactly
    when the stored requirements are the reconstructed ones, every segment has
    exactly one allocation, its register exists at its tile in its bank and is
    allocatable, its ports exist, accept the source that writes it (and the
    constant that seeds it, if any) and are used by no other segment in the same
    modulo cycle, and no two copies in one register, of any two iterations, are
    needed at the same time. *)
Theorem rf_verify_exact (dfg : TargetDFG) (target : TargetModel) (mapping : RFAllocatedMapping) :
  TargetDFG_inv dfg -> TargetModel_wf target -> register_files_wf target -> typed_graph dfg ->
  typed_staged (ra_staged mapping) -> typed_allocations mapping -> segments_fit mapping ->
  universe_fits target (mm_ii (sm_modulo (ra_staged mapping))) ->
  rf_verify dfg target mapping = Ok [] <-> valid_allocation dfg target mapping.
Proof. intros. by apply rf_verify_valid. Qed.

Lemma cgra_v2_register_files : register_files_wf cgra_v2.
Proof. by split. Qed.

Lemma v2_allocation_typed : typed_allocations v2_allocation.
Proof.
  assert (H : forallb (fun a => (0 <=? sl_readPort a) && (0 <=? sl_writePort a))
    (ra_allocations v2_allocation) = true) by (vm_compute; reflexivity).
  intros a Ha. rewrite forallb_forall in H. apply list_elem_of_In in Ha. specialize (H a Ha). lia.
Qed.

Lemma rf_verify_exact_witness :
  rf_verify v2_accumulate cgra_v2 v2_allocation = Ok [] <->
  valid_allocation v2_accumulate cgra_v2 v2_allocation.
Proof.
  apply (rf_verify_exact v2_accumulate cgra_v2 v2_allocation).
  - exact v2_accumulate_inv.
  - exact cgra_v2_wf.
  - exact cgra_v2_register_files.
  - exact v2_accumulate_typed.
  - exact v2_staged_typed.
  - exact v2_allocation_typed.
  - vm_compute. congruence.
  - vm_compute. congruence.
Defined.

(** No register is written twice in a cycle, and every read finds its copy. *)
Definition keeps_values (target : TargetModel) (mapping : RFAllocatedMapping) : Prop :=
  (forall reg t, (length (writers mapping reg t) <= 1)%nat) /\
  forall s, s ∈ rq_segments (ra_requirements mapping) -> exists a bank,
    serves target mapping s a bank /\
    forall k, 0 <= k ->
      value_read mapping (rf_sameAddressReadWritePolicy bank) (sl_reg a)
        (Z.to_nat (sg_readTime s + k * rq_ii (ra_requirements mapping))) = Some (sg_id s, k).

Lemma rf_verify_keeps (dfg : TargetDFG) (target : TargetModel) (mapping : RFAllocatedMapping) :
  TargetDFG_inv dfg -> TargetModel_wf target -> register_files_wf target -> typed_graph dfg ->
  typed_staged (ra_staged mapping) -> typed_allocations mapping -> segments_fit mapping ->
  universe_fits target (mm_ii (sm_modulo (ra_staged mapping))) ->
  rf_verify dfg target mapping = Ok [] ->
  keeps_values target mapping.
Proof.
  intros Hinv Htwf Hrf Htyped Hst Hty Hfit Hu H.
  pose proof (proj1 (rf_verify_report dfg target mapping) H) as (Hsav & Hq & _).
  apply rf_verify_valid in H as Hv; try done.
  destruct (requirements_ii dfg target mapping Hinv Htwf Htyped Hst Hu Hsav Hq) as [Hii _].
  pose proof (segment_ids dfg target mapping Hinv Htwf Htyped Hst Hu Hsav Hq Hfit) as Hids.
  pose proof (segment_times dfg target mapping Hinv Htwf Htyped Hst Hu Hsav Hq) as Htimes.
  split; [intros reg t; by eapply one_writer|].
  intros s Hs. destruct (va_each _ _ _ Hv s Hs) as (a & bk & Hsv & _).
  exists a, bk. split; [done|]. intros k Hk. by eapply copy_read.
Qed.

(** C11: a verified allocation never loses a value.  Let the loop run for ever,
    with iterations II cycles apart and every segment writing its register once
    per iteration; then no register is ever written twice in one cycle, and every
    read, in the cycle the storage analysis computed and under the bank's policy
    for same-cycle accesses, returns the value that the same iteration wrote. *)
Theorem verified_allocation_keeps_values (dfg : TargetDFG) (target : TargetModel)
    (mapping : RFAllocatedMapping) :
  TargetDFG_inv dfg -> TargetModel_wf target -> register_files_wf target -> typed_graph dfg ->
  typed_staged (ra_staged mapping) -> typed_allocations mapping -> segments_fit mapping ->
  universe_fits target (mm_ii (sm_modulo (ra_staged mapping))) ->
  rf_verify dfg target mapping = Ok [] ->
  (forall reg t, (length (writers mapping reg t) <= 1)%nat) /\
  forall s, s ∈ rq_segments (ra_requirements mapping) -> exists a bank,
    serves target mapping s a bank /\
    forall k, 0 <= k ->
      value_read mapping (rf_sameAddressReadWritePolicy bank) (sl_reg a)
        (Z.to_nat (sg_readTime s + k * rq_ii (ra_requirements mapping))) = Some (sg_id s, k).
Proof. apply rf_verify_keeps. Qed.

Lemma verified_allocation_keeps_values_witness :
  (forall reg t, (length (writers v2_allocation reg t) <= 1)%nat) /\
  forall s, s ∈ rq_segments (ra_requirements v2_allocation) -> exists a bank,
    serves cgra_v2 v2_allocation s a bank /\
    forall k, 0 <= k ->
      value_read v2_allocation (rf_sameAddressReadWritePolicy bank) (sl_reg a)
        (Z.to_nat (sg_readTime s + k * rq_ii (ra_requirements v2_allocation))) = Some (sg_id s, k).
Proof.
  apply (verified_allocation_keeps_values v2_accumulate cgra_v2 v2_allocation).
  - exact v2_accumulate_inv.
  - exact cgra_v2_wf.
  - exact cgra_v2_register_files.
  - exact v2_accumulate_typed.
  - exact v2_staged_typed.
  - exact v2_allocation_typed.
  - vm_compute. congruence.
  - vm_compute. congruence.
  - vm_compute. reflexivity.
Defined.
