(* ===== verification/PortMatching.v ===== *)
(** * Assigning access ports by augmenting paths

    Models the bipartite matching inside [RFAllocator::allocate]
    ([compiler/lib/RegisterAllocation/RFAllocator.cpp], the [augment] closures of
    the periodic and of the boundary accesses): each segment of one bank and one
    modulo slot gets its own port, among the ports that accept its source.  The
    search either matches them all or there is no such assignment. *)
From stdpp Require Import base numbers list gmap fin_sets.
From S2P Require Import Prelude.

(** [matched] maps a port to its segment; [visited] is one search's scratch set. *)
Record MatchState := mkMatch {
  mt_matched : gmap Z Z;
  mt_visited : gset Z
}.

Section Augment.
Context (portCount : Z) (candidate : Z -> Z -> result bool).

Definition visit (port : Z) (st : MatchState) : MatchState :=
  mkMatch (mt_matched st) ({[ port ]} ∪ mt_visited st).

Definition assign (port segment : Z) (st : MatchState) : MatchState :=
  mkMatch (<[port := segment]> (mt_matched st)) (mt_visited st).

(** The port loop of one [augment] call, over its recursive calls. *)
Fixpoint try_ports (recurse : Z -> MatchState -> result (bool * MatchState)) (segment : Z)
    (ports : list Z) (st : MatchState) : result (bool * MatchState) :=
  match ports with
  | [] => Ok (false, st)
  | port :: ports =>
      if bool_decide (port ∈ mt_visited st) then try_ports recurse segment ports st
      else
        fits ← candidate segment port;
        if negb fits then try_ports recurse segment ports st
        else
          let st := visit port st in
          match mt_matched st !! port with
          | None => Ok (true, assign port segment st)
          | Some other =>
              '(found, st) ← recurse other st;
              if (found : bool) then Ok (true, assign port segment st)
              else try_ports recurse segment ports st
          end
  end.

(** Each nested call marks a port, so a depth of [portCount] is never exceeded. *)
Fixpoint augment (fuel : nat) (segment : Z) (st : MatchState) : result (bool * MatchState) :=
  match fuel with
  | O => Throw LogicError
  | S fuel => try_ports (augment fuel) segment (range portCount) st
  end.

(** Match the segments in order; [inl] names the first that cannot be matched. *)
Fixpoint match_all (order : list Z) (matched : gmap Z Z) : result (Z + gmap Z Z) :=
  match order with
  | [] => Ok (inr matched)
  | segment :: order =>
      '(found, st) ← augment (S (nat_of portCount)) segment (mkMatch matched ∅);
      if (found : bool) then match_all order (mt_matched st) else Ok (inl segment)
  end.
End Augment.

(** ** Specification *)

(** A port for each segment: accepting, and no port twice. *)
Definition port_assignment (portCount : Z) (accepts : Z -> Z -> bool) (segments : list Z)
    (port_of : Z -> Z) : Prop :=
  (forall s, s ∈ segments -> 0 <= port_of s < portCount /\ accepts s (port_of s) = true) /\
  forall s s', s ∈ segments -> s' ∈ segments -> port_of s = port_of s' -> s = s'.

Section Unvisited.
Context (portCount : Z).

Definition unvisited (V : gset Z) : nat := length (filter (fun p => p ∉ V) (range portCount)).

Lemma unvisited_visit V p : 0 <= p < portCount -> p ∉ V ->
  (unvisited ({[ p ]} ∪ V) < unvisited V)%nat.
Proof.
  intros Hp Hn. unfold unvisited.
  assert (Hin : p ∈ range portCount) by (by apply elem_of_range).
  revert Hin. induction (range portCount) as [|q l IH]; intros Hin; [by apply not_elem_of_nil in Hin|].
  assert (Hle : forall k, (length (filter (fun p0 : Z => p0 ∉ {[p]} ∪ V) k) <=
    length (filter (fun p0 : Z => p0 ∉ V) k))%nat).
  { induction k as [|x k IHk]; [done|]. rewrite !filter_cons.
    repeat case_decide; simpl; try lia. set_solver. }
  rewrite !filter_cons. destruct (decide (q = p)) as [->|Hq].
  - rewrite decide_False by set_solver. rewrite decide_True by done. simpl. specialize (Hle l). lia.
  - apply elem_of_cons in Hin as [?|Hin]; [congruence|]. specialize (IH Hin).
    repeat case_decide; simpl; try lia; set_solver.
Qed.

Lemma unvisited_mono V V' : V ⊆ V' -> (unvisited V' <= unvisited V)%nat.
Proof.
  intros Hsub. unfold unvisited. induction (range portCount) as [|q l IH]; [done|].
  rewrite !filter_cons. repeat case_decide; simpl; try lia. set_solver.
Qed.
End Unvisited.

Section Correct.
Context (portCount : Z) (accepts : Z -> Z -> bool) (universe : list Z).

(** A sound partial matching of segments of the universe. *)
Record matching (M : gmap Z Z) : Prop := {
  mg_range : forall p s, M !! p = Some s -> 0 <= p < portCount /\ s ∈ universe /\ accepts s p = true;
  mg_injective : forall p p' s, M !! p = Some s -> M !! p' = Some s -> p = p'
}.

(** [s] sits at a port outside [V]. *)
Definition sits (M : gmap Z Z) (V : gset Z) (s : Z) : Prop := exists p, p ∉ V /\ M !! p = Some s.

(** A search for [s] that leaves the ports of [V] alone and succeeds. *)
Record augmented (M : gmap Z Z) (V : gset Z) (s : Z) (M' : gmap Z Z) : Prop := {
  au_kept : forall p, p ∈ V -> M' !! p = M !! p;
  au_sits : forall x, sits M' V x <-> x = s \/ sits M V x;
  au_range : forall p x, p ∉ V -> M' !! p = Some x ->
    0 <= p < portCount /\ x ∈ universe /\ accepts x p = true;
  au_injective : forall p p' x, p ∉ V -> p' ∉ V -> M' !! p = Some x -> M' !! p' = Some x -> p = p'
}.

(** Every port that [x] accepts has been visited. *)
Definition exhausted (V : gset Z) (x : Z) : Prop :=
  forall p, 0 <= p < portCount -> accepts x p = true -> p ∈ V.

(** A failed search: each port visited on the way is taken, by a segment whose
    own ports have all been visited too. *)
Record blocked (M : gmap Z Z) (V V' : gset Z) : Prop := {
  bl_grows : V ⊆ V';
  bl_taken : forall p, p ∈ V' -> p ∉ V -> 0 <= p < portCount /\
    exists x, M !! p = Some x /\ exhausted V' x
}.

(** What one search establishes. *)
Definition search_spec (recurse : Z -> MatchState -> result (bool * MatchState))
    (n : nat) : Prop :=
  forall M V s, matching M -> s ∈ universe -> ~ sits M V s -> (unvisited portCount V < n)%nat ->
  exists found M' V', recurse s (mkMatch M V) = Ok (found, mkMatch M' V') /\
    if (found : bool) then augmented M V s M'
    else M' = M /\ blocked M V V' /\ exhausted V' s.

(** The port freed by moving [other] away goes to [s]. *)
Lemma reassign_augmented M V V1 s port other M' :
  matching M -> s ∈ universe -> ~ sits M V s -> V ⊆ V1 -> port ∉ V1 -> 0 <= port < portCount ->
  accepts s port = true -> M !! port = Some other -> augmented M ({[ port ]} ∪ V1) other M' ->
  augmented M V s (<[port := s]> M').
Proof using Type.
  intros HM Hs Hsit Hsub Hvis Hport Eacc Eport [Hk Hsits Hr Hinj].
  assert (HpV : port ∉ V) by set_solver.
  split.
  * intros p Hp. rewrite lookup_insert_ne by set_solver. apply Hk.
    apply elem_of_union_r. by apply Hsub.
  * intros x. split.
    -- intros (p & Hp & Ex). destruct (decide (p = port)) as [->|Hne].
       { rewrite lookup_insert_eq in Ex. left. congruence. }
       rewrite lookup_insert_ne in Ex by done. right.
       destruct (decide (p ∈ {[port]} ∪ V1)) as [Hin|Hout].
       { rewrite Hk in Ex by done. by exists p. }
       destruct (proj1 (Hsits x) (ex_intro _ p (conj Hout Ex))) as [->|(p' & Hp' & Ex')];
         [exists port|exists p']; (split; [|done]); [done|].
       intros Hin. apply Hp'. apply elem_of_union_r. by apply Hsub.
    -- intros [->|(p & Hp & Ex)].
       { exists port. by rewrite lookup_insert_eq. }
       destruct (decide (p = port)) as [->|Hne].
       { destruct (proj2 (Hsits other) (or_introl eq_refl)) as (p' & Hp' & Ex').
         exists p'. assert (x = other) as -> by congruence.
         rewrite lookup_insert_ne by set_solver. split; [|done].
         intros Hin. apply Hp'. apply elem_of_union_r. by apply Hsub. }
       destruct (decide (p ∈ V1)) as [Hin|Hout].
       { exists p. split; [done|]. rewrite lookup_insert_ne by done. rewrite Hk by set_solver. done. }
       destruct (proj2 (Hsits x)) as (p' & Hp' & Ex'); [right; exists p; set_solver|].
       exists p'. rewrite lookup_insert_ne by set_solver. split; [|done].
       intros Hin. apply Hp'. apply elem_of_union_r. by apply Hsub.
  * intros p x Hp Ex. destruct (decide (p = port)) as [->|Hne].
    { rewrite lookup_insert_eq in Ex. injection Ex as <-. done. }
    rewrite lookup_insert_ne in Ex by done. destruct (decide (p ∈ V1)) as [Hin|Hout].
    { rewrite Hk in Ex by set_solver. by apply (mg_range _ HM). }
    apply Hr; [set_solver|done].
  * assert (Hs1 : forall p, p ∉ V -> p <> port -> M' !! p = Some s -> False).
    { intros p Hp Hne Ep. apply Hsit. destruct (decide (p ∈ V1)) as [Hin|Hout].
      { rewrite Hk in Ep by set_solver. by exists p. }
      destruct (proj1 (Hsits s)) as [->|(q & Hq & Eq)]; [exists p; set_solver|by exists port|].
      exists q. split; [|done]. intros Hin. apply Hq, elem_of_union_r. by apply Hsub. }
    assert (Hmix : forall p p' x, p ∈ V1 -> p' ∉ V1 -> p <> port -> p' <> port ->
      M' !! p = Some x -> M' !! p' = Some x -> False).
    { intros p p' x Hin Hout Hne Hne' Ep Ep'. rewrite Hk in Ep by set_solver.
      destruct (proj1 (Hsits x)) as [->|(q & Hq & Eq)]; [exists p'; set_solver| |].
      - apply Hne. by apply (mg_injective _ HM p port other).
      - rewrite (mg_injective _ HM p q x Ep Eq) in Hin. set_solver. }
    intros p p' x Hp Hp' Ep Ep'.
    destruct (decide (p = port)) as [->|Hne]; destruct (decide (p' = port)) as [->|Hne']; try done.
    { rewrite lookup_insert_eq in Ep. injection Ep as <-.
      rewrite lookup_insert_ne in Ep' by done. by destruct (Hs1 p'). }
    { rewrite lookup_insert_eq in Ep'. injection Ep' as <-.
      rewrite lookup_insert_ne in Ep by done. by destruct (Hs1 p). }
    rewrite lookup_insert_ne in Ep, Ep' by done.
    destruct (decide (p ∈ V1)) as [Hi|Ho]; destruct (decide (p' ∈ V1)) as [Hi'|Ho'].
    { rewrite Hk in Ep, Ep' by set_solver. by apply (mg_injective _ HM p p' x). }
    { by destruct (Hmix p p' x). }
    { by destruct (Hmix p' p x). }
    apply (Hinj p p' x); [set_solver..|done|done].
Qed.

(** A free port is simply taken. *)
Lemma assign_augmented M V s port :
  matching M -> s ∈ universe -> ~ sits M V s -> port ∉ V -> 0 <= port < portCount ->
  accepts s port = true -> M !! port = None -> augmented M V s (<[port := s]> M).
Proof using Type.
  intros HM Hs Hsit HpV Hport Eacc Eport. split.
  + intros p Hp. rewrite lookup_insert_ne; [done|]. intros ->. done.
  + intros x. split.
    * intros (p & Hp & Ex). destruct (decide (p = port)) as [->|Hne].
      { rewrite lookup_insert_eq in Ex. left. congruence. }
      rewrite lookup_insert_ne in Ex by done. right. by exists p.
    * intros [->|(p & Hp & Ex)]; [exists port; by rewrite lookup_insert_eq|].
      exists p. split; [done|]. rewrite lookup_insert_ne; [done|]. intros ->. congruence.
  + intros p x Hp Ex. destruct (decide (p = port)) as [->|Hne].
    { rewrite lookup_insert_eq in Ex. injection Ex as <-. done. }
    rewrite lookup_insert_ne in Ex by done. by apply (mg_range _ HM).
  + intros p p' x Hp Hp' Ep Ep'.
    destruct (decide (p = port)) as [->|Hne]; destruct (decide (p' = port)) as [->|Hne']; try done.
    { rewrite lookup_insert_eq in Ep. injection Ep as <-.
      rewrite lookup_insert_ne in Ep' by done. exfalso. apply Hsit. by exists p'. }
    { rewrite lookup_insert_eq in Ep'. injection Ep' as <-.
      rewrite lookup_insert_ne in Ep by done. exfalso. apply Hsit. by exists p. }
    rewrite lookup_insert_ne in Ep, Ep' by done. by apply (mg_injective _ HM p p' x).
Qed.

Lemma blocked_step M V V1 port other V' :
  blocked M V V1 -> 0 <= port < portCount -> M !! port = Some other ->
  blocked M ({[ port ]} ∪ V1) V' -> exhausted V' other -> blocked M V V'.
Proof using Type.
  intros Hb Hport Eport Hb' Hex.
  assert (Hsub : V1 ⊆ V') by (pose proof (bl_grows _ _ _ Hb'); set_solver).
  split; [pose proof (bl_grows _ _ _ Hb); set_solver|]. intros p Hp HnV.
  destruct (decide (p ∈ V1)) as [Hi|Ho].
  { destruct (bl_taken _ _ _ Hb p Hi HnV) as (? & x & ? & Hx). split; [done|].
    exists x. split; [done|]. intros q Hq Ha. apply Hsub. by apply Hx. }
  destruct (decide (p = port)) as [->|Hne]; [split; [done|]; by exists other|].
  apply (bl_taken _ _ _ Hb' p Hp). set_solver.
Qed.

(** The segments placed so far. *)
Definition places (M : gmap Z Z) (placed : list Z) : Prop :=
  forall x, sits M ∅ x <-> x ∈ placed.

Lemma augmented_matching M s M' : augmented M ∅ s M' -> matching M'.
Proof using Type.
  intros [_ _ Hr Hinj]. split.
  - intros p x. apply Hr. apply not_elem_of_empty.
  - intros p p' x. apply Hinj; apply not_elem_of_empty.
Qed.

Lemma augmented_places M placed s M' :
  places M placed -> augmented M ∅ s M' -> places M' (s :: placed).
Proof using Type.
  intros Hpl [_ Hsits _ _] x. rewrite Hsits, (Hpl x), elem_of_cons. done.
Qed.

(** A blocked search refutes every assignment: the segments at the visited ports
    and [s] accept only visited ports, and there is one port too few. *)
Lemma blocked_no_assignment M placed s V' :
  matching M -> places M placed -> s ∉ placed -> blocked M ∅ V' -> exhausted V' s ->
  forall port_of, ~ port_assignment portCount accepts (s :: placed) port_of.
Proof using Type.
  intros HM Hpl Hs Hb Hex port_of [Hok Hinj].
  assert (Htaken : forall p, p ∈ V' -> exists x, M !! p = Some x /\ exhausted V' x).
  { intros p Hp. by destruct (bl_taken _ _ _ Hb p Hp (not_elem_of_empty p)) as [_ ?]. }
  set (seg p := default 0 (M !! p)). set (needed := s :: (seg <$> elements V')).
  assert (Hneeded : forall x, x ∈ needed -> x ∈ s :: placed /\ exhausted V' x).
  { intros x Hx. apply elem_of_cons in Hx as [->|Hx]; [split; [left|done]|].
    apply list_elem_of_fmap in Hx as (p & -> & Hp). apply elem_of_elements in Hp.
    destruct (Htaken p Hp) as (x & Ex & Hx). unfold seg. rewrite Ex. simpl.
    split; [|done]. right. apply Hpl. exists p. split; [apply not_elem_of_empty|done]. }
  assert (Hnd : NoDup needed).
  { apply NoDup_cons. split.
    - intros Hin. apply list_elem_of_fmap in Hin as (p & E & Hp). apply elem_of_elements in Hp.
      destruct (Htaken p Hp) as (x & Ex & _). apply Hs, Hpl. exists p.
      split; [apply not_elem_of_empty|]. unfold seg in E. rewrite Ex in E. simpl in E. congruence.
    - apply NoDup_fmap_2_strong; [|apply NoDup_elements]. intros p p' Hp Hp' E.
      apply elem_of_elements in Hp, Hp'. destruct (Htaken p Hp) as (x & Ex & _).
      destruct (Htaken p' Hp') as (x' & Ex' & _). unfold seg in E. rewrite Ex, Ex' in E.
      simpl in E. subst. by apply (mg_injective _ HM p p' x'). }
  assert (Hsub : port_of <$> needed ⊆+ elements V').
  { apply NoDup_submseteq.
    - apply NoDup_fmap_2_strong; [|done]. intros x y Hx Hy. apply Hinj; by apply Hneeded.
    - intros p Hp. apply list_elem_of_fmap in Hp as (x & -> & Hx). apply elem_of_elements.
      destruct (Hneeded x Hx) as [Hin Hx']. destruct (Hok x Hin). by apply Hx'. }
  apply submseteq_length in Hsub. unfold needed in Hsub. simpl in Hsub. rewrite !length_fmap in Hsub. lia.
Qed.

Context (candidate : Z -> Z -> result bool).
Context (Hcand : forall s p, s ∈ universe -> 0 <= p < portCount -> candidate s p = Ok (accepts s p)).

(** The loop invariant: the visited set has grown by blocked ports, and holds
    every accepted port already tried. *)
Lemma try_ports_spec recurse n M V s :
  matching M -> s ∈ universe -> ~ sits M V s -> search_spec recurse n -> (unvisited portCount V < S n)%nat ->
  forall tried todo V1, range portCount = tried ++ todo -> blocked M V V1 ->
  (forall p, p ∈ tried -> accepts s p = true -> p ∈ V1) ->
  exists found M' V', try_ports candidate recurse s todo (mkMatch M V1) = Ok (found, mkMatch M' V') /\
    if (found : bool) then augmented M V s M'
    else M' = M /\ blocked M V V' /\ exhausted V' s.
Proof using Hcand.
  intros HM Hs Hsit Hrec Hn tried todo. revert tried.
  induction todo as [|port todo IH]; intros tried V1 Hsplit Hb Htried; simpl.
  { exists false, M, V1. split; [done|]. split; [done|]. split; [done|].
    intros p Hp Ha. apply Htried; [|done]. rewrite app_nil_r in Hsplit. rewrite <- Hsplit.
    by apply elem_of_range. }
  assert (Hport : 0 <= port < portCount).
  { apply elem_of_range. rewrite Hsplit. set_solver. }
  assert (Hnext : range portCount = (tried ++ [port]) ++ todo) by (by rewrite <- app_assoc).
  case_bool_decide as Hvis.
  { apply (IH (tried ++ [port])); [done|done|]. intros p Hp Ha.
    apply elem_of_app in Hp as [Hp|Hp]; [auto|]. apply list_elem_of_singleton in Hp. by subst. }
  rewrite Hcand by done. unfold visit. simpl.
  destruct (accepts s port) eqn:Eacc; simpl.
  2: { apply (IH (tried ++ [port])); [done|done|]. intros p Hp Ha.
       apply elem_of_app in Hp as [Hp|Hp]; [auto|]. apply list_elem_of_singleton in Hp. congruence. }
  assert (HpV : port ∉ V) by (intros Hin; apply Hvis; by apply (bl_grows _ _ _ Hb)).
  destruct (M !! port) as [other|] eqn:Eport.
  - assert (Hother : other ∈ universe) by (by destruct (mg_range _ HM port other Eport) as (_ & ? & _)).
    destruct (Hrec M ({[port]} ∪ V1) other HM Hother) as (found & M' & V' & -> & Hpost).
    { intros (p & Hp & Ep). apply Hp. rewrite (mg_injective _ HM p port other Ep Eport). set_solver. }
    { pose proof (unvisited_visit portCount V1 port Hport Hvis). pose proof (unvisited_mono portCount V V1 (bl_grows _ _ _ Hb)). lia. }
    simpl. destruct found.
    + eexists true, _, _. split; [done|]. simpl.
      apply (reassign_augmented M V V1 s port other); try done. apply (bl_grows _ _ _ Hb).
    + destruct Hpost as (-> & Hb' & Hex).
      apply (IH (tried ++ [port])); [done|by eapply blocked_step|].
      pose proof (bl_grows _ _ _ Hb'). intros p Hp Ha. apply elem_of_app in Hp as [Hp|Hp].
      * specialize (Htried p Hp Ha). set_solver.
      * apply list_elem_of_singleton in Hp as ->. set_solver.
  - eexists true, _, _. split; [done|]. simpl. by apply assign_augmented.
Qed.

Lemma augment_spec n : search_spec (augment portCount candidate n) n.
Proof using Hcand.
  induction n as [|n IH]; intros M V s HM Hs Hsit Hn; [lia|]. simpl.
  apply (try_ports_spec (augment portCount candidate n) n M V s HM Hs Hsit IH Hn [] _ V); [done| |].
  - split; [done|]. intros p Hp HnV. done.
  - intros p Hp. by apply not_elem_of_nil in Hp.
Qed.

Lemma unvisited_empty : (unvisited portCount ∅ <= nat_of portCount)%nat.
Proof using Type.
  unfold unvisited. etransitivity; [apply length_filter|]. unfold range. rewrite length_seqZ. lia.
Qed.

(** Matching a whole group: every segment gets a port of its own, or none of the
    assignments of ports to the group is good. *)
Lemma match_all_spec order : forall placed M,
  matching M -> places M placed -> NoDup (reverse order ++ placed) ->
  (forall s, s ∈ order -> s ∈ universe) ->
  exists r, match_all portCount candidate order M = Ok r /\
    match r with
    | inr M' => matching M' /\ places M' (reverse order ++ placed)
    | inl s => s ∈ order /\
        forall port_of, ~ port_assignment portCount accepts (reverse order ++ placed) port_of
    end.
Proof using Hcand.
  induction order as [|s order IH]; intros placed M HM Hpl Hnd Hu; simpl.
  { exists (inr M). done. }
  rewrite reverse_cons, <- app_assoc in Hnd |- *. simpl in Hnd |- *.
  assert (Hs : s ∉ placed).
  { apply NoDup_app in Hnd as (_ & _ & Hnd). by apply NoDup_cons in Hnd as [? _]. }
  destruct (augment_spec (S (nat_of portCount)) M ∅ s HM) as (found & M' & V' & E & Hpost).
  { apply Hu. left. }
  { intros Hsit. by apply Hs, Hpl. }
  { pose proof unvisited_empty. lia. }
  change (try_ports candidate (augment portCount candidate (nat_of portCount)) s (range portCount)
    (mkMatch M ∅)) with (augment portCount candidate (S (nat_of portCount)) s (mkMatch M ∅)).
  rewrite E. simpl. destruct found.
  - destruct (IH (s :: placed) M') as (r & -> & Hr).
    + by eapply augmented_matching.
    + by eapply augmented_places.
    + done.
    + intros x Hx. apply Hu. by right.
    + exists r. split; [done|]. destruct r as [x|M'']; [|done]. destruct Hr. split; [by right|done].
  - destruct Hpost as (-> & Hb & Hex). exists (inl s). split; [done|]. split; [left|].
    intros port_of [Hok Hinj]. eapply (blocked_no_assignment M placed s V'); try done.
    split.
    + intros x Hx. apply Hok. set_solver.
    + intros x y Hx Hy. apply Hinj; set_solver.
Qed.
End Correct.

(** The matching of a whole group of distinct segments, from no ports taken. *)
Lemma match_group_exact portCount candidate accepts order :
  NoDup order ->
  (forall s p, s ∈ order -> 0 <= p < portCount -> candidate s p = Ok (accepts s p)) ->
  exists r, match_all portCount candidate order ∅ = Ok r /\
    match r with
    | inr M => exists port_of, port_assignment portCount accepts order port_of /\
        forall p s, M !! p = Some s <-> s ∈ order /\ port_of s = p
    | inl s => s ∈ order /\ forall port_of, ~ port_assignment portCount accepts order port_of
    end.
Proof.
  intros Hnd Hcand.
  destruct (match_all_spec portCount accepts order candidate Hcand order [] ∅) as (r & Hr & Hpost).
  - split; intros *; rewrite lookup_empty; done.
  - intros x. unfold sits. setoid_rewrite lookup_empty. set_solver.
  - rewrite app_nil_r. by rewrite reverse_Permutation.
  - done.
  - exists r. split; [done|]. rewrite app_nil_r in Hpost. destruct r as [s|M].
    + destruct Hpost as [Hs Hno]. split; [done|]. intros port_of [Hok Hinj]. apply (Hno port_of).
      split; [intros x Hx; apply Hok|intros x y Hx Hy; apply Hinj];
        by apply elem_of_reverse.
    + destruct Hpost as [HM Hpl].
      assert (Hsit : forall s, s ∈ order -> exists p, M !! p = Some s).
      { intros s Hs. destruct (proj2 (Hpl s)) as (p & _ & Hp); [by apply elem_of_reverse|]. by exists p. }
      set (port_of s := default 0 (fst <$> find_if (fun kv => kv.2 =? s) (map_to_list M))).
      assert (Hport : forall s, s ∈ order -> M !! port_of s = Some s).
      { intros s Hs. destruct (Hsit s Hs) as [p Hp]. unfold port_of.
        destruct (find_if_is_Some (fun kv => kv.2 =? s) (map_to_list M)) as [[q x] Eq].
        { exists (p, s). split; [by apply elem_of_map_to_list|]. simpl. lia. }
        rewrite Eq. simpl. apply find_if_Some in Eq as [Hin Ex]. apply elem_of_map_to_list in Hin.
        simpl in Ex. apply Z.eqb_eq in Ex. by subst. }
      exists port_of. split; [split|].
      * intros s Hs. destruct (mg_range _ _ _ _ HM _ _ (Hport s Hs)) as (? & _ & ?). done.
      * intros s s' Hs Hs' E. pose proof (Hport s Hs) as H1. pose proof (Hport s' Hs'). congruence.
      * intros p s. split.
        -- intros Hp. assert (Hs : s ∈ order).
           { apply elem_of_reverse, Hpl. exists p. split; [apply not_elem_of_empty|done]. }
           split; [done|]. by apply (mg_injective _ _ _ _ HM _ _ s); [apply Hport|].
        -- intros [Hs <-]. by apply Hport.
Qed.

(** ** Properties *)

(** C34: augmenting paths decide port assignment.  For distinct segments and any
    table of accepted ports the search returns; it gives every segment its own
    accepting port, one segment per port, or it names a segment and then no
    assignment of ports to the segments exists at all. *)
Theorem port_matching_exact portCount candidate accepts order :
  NoDup order ->
  (forall s p, s ∈ order -> 0 <= p < portCount -> candidate s p = Ok (accepts s p)) ->
  exists r, match_all portCount candidate order ∅ = Ok r /\
    match r with
    | inr M => exists port_of, port_assignment portCount accepts order port_of /\
        forall p s, M !! p = Some s <-> s ∈ order /\ port_of s = p
    | inl s => s ∈ order /\ forall port_of, ~ port_assignment portCount accepts order port_of
    end.
Proof. apply match_group_exact. Qed.

(** Three segments, two ports; segment 1 takes either port, 0 and 2 only port 0. *)
Lemma port_matching_exact_witness :
  let accepts s p := (s =? 1) || (p =? 0) in
  exists r, match_all 2 (fun s p => Ok (accepts s p)) [1; 0; 2] ∅ = Ok r /\
    match r with
    | inr M => exists port_of, port_assignment 2 accepts [1; 0; 2] port_of /\
        forall p s, M !! p = Some s <-> s ∈ [1; 0; 2] /\ port_of s = p
    | inl s => s ∈ [1; 0; 2] /\ forall port_of, ~ port_assignment 2 accepts [1; 0; 2] port_of
    end.
Proof.
  intros accepts. apply (port_matching_exact 2 (fun s p => Ok (accepts s p)) accepts).
  - apply (bool_decide_unpack _). vm_compute. exact I.
  - done.
Defined.
