(* ===== verification/Coloring.v ===== *)
(** * Colouring a register conflict graph within a budget

    Models the register choice of [RFAllocator]
    ([compiler/lib/RegisterAllocation/RFAllocator.cpp]: [colorExact] and the
    greedy pass of [allocate]) for the segments of one bank: first fit in segment
    order, then a backtracking search that always extends the most constrained
    segment. *)
From stdpp Require Import base numbers list gmap.
From S2P Require Import Prelude.

Record RFAllocationBudget := mkBudget {
  bg_maxColoringDecisions : Z;
  bg_maxColoringBacktracks : Z
}.

(** The colour vector, the two budget counters and [BudgetState::exceeded]. *)
Record ColorState := mkColors {
  co_colors : gmap Z Z;
  co_decisions : Z;
  co_backtracks : Z;
  co_exceeded : bool
}.

(** Colouring a vertex shortens the list of the uncoloured ones. *)
Lemma uncolored_insert (vertices : list Z) (colors : gmap Z Z) v color :
  v ∈ vertices -> colors !! v = None ->
  (length (filter (fun x => <[v := color]> colors !! x = None) vertices) <
   length (filter (fun x => colors !! x = None) vertices))%nat.
Proof.
  intros Hv Hn.
  assert (Hle : forall l : list Z, (length (filter (fun x => <[v := color]> colors !! x = None) l) <=
    length (filter (fun x => colors !! x = None) l))%nat).
  { induction l as [|x l IH]; [done|]. rewrite !filter_cons.
    destruct (decide (x = v)) as [->|Hne].
    - rewrite lookup_insert_eq, Hn. repeat case_decide; simpl; try done; lia.
    - rewrite (lookup_insert_ne colors v x color) by done. repeat case_decide; simpl; lia. }
  induction vertices as [|x l IH]; [by apply not_elem_of_nil in Hv|].
  rewrite !filter_cons. specialize (Hle l). destruct (decide (x = v)) as [->|Hne].
  - rewrite lookup_insert_eq, Hn. repeat case_decide; simpl; try done; lia.
  - rewrite (lookup_insert_ne colors v x color) by done.
    apply elem_of_cons in Hv as [?|Hv]; [congruence|].
    specialize (IH Hv). repeat case_decide; simpl; lia.
Qed.

Lemma lookup_foldr_delete (l : list Z) (colors : gmap Z Z) v :
  foldr delete colors l !! v = if decide (v ∈ l) then None else colors !! v.
Proof.
  induction l as [|x l IH].
  { destruct (decide (v ∈ [])) as [H|H]; [by apply not_elem_of_nil in H|done]. }
  change (foldr delete colors (x :: l)) with (delete x (foldr delete colors l)).
  destruct (decide (v = x)) as [->|Hne].
  - rewrite lookup_delete_eq, decide_True by (by left). done.
  - rewrite lookup_delete_ne by done. rewrite IH.
    destruct (decide (v ∈ l)), (decide (v ∈ x :: l)); set_solver.
Qed.

Section Coloring.
Context (vertices : list Z) (graph : Z -> Z -> bool) (palette : list Z).
Context (budget : RFAllocationBudget).

Definition neighbor_colors (colors : gmap Z Z) (vertex : Z) : list Z :=
  omap (fun n => if graph vertex n then colors !! n else None) vertices.

Definition saturation (colors : gmap Z Z) (vertex : Z) : Z :=
  Z.of_nat (size (list_to_set (neighbor_colors colors vertex) : gset Z)).

Definition degree (vertex : Z) : Z := Z.of_nat (length (List.filter (graph vertex) vertices)).

(** Replace the best candidate so far: vertex, saturation, degree. *)
Definition consider (colors : gmap Z Z) (best : option (Z * Z * Z)) (vertex : Z)
  : option (Z * Z * Z) :=
  match colors !! vertex with
  | Some _ => best
  | None =>
      let s := saturation colors vertex in
      let d := degree vertex in
      match best with
      | None => Some (vertex, s, d)
      | Some (bestVertex, bestSaturation, bestDegree) =>
          if (bestSaturation <? s) ||
             ((s =? bestSaturation) &&
              ((bestDegree <? d) || ((d =? bestDegree) && (vertex <? bestVertex))))
          then Some (vertex, s, d) else best
      end
  end.

Definition select (colors : gmap Z Z) : option Z :=
  option_map (fun best => best.1.1) (foldl (consider colors) None vertices).

Definition available (colors : gmap Z Z) (vertex color : Z) : bool :=
  forallb (fun n => negb (graph vertex n && bool_decide (colors !! n = Some color))) vertices.

Definition set_color (vertex color : Z) (st : ColorState) : ColorState :=
  mkColors (<[vertex := color]> (co_colors st)) (co_decisions st + 1) (co_backtracks st)
    (co_exceeded st).

Definition reset_color (vertex : Z) (st : ColorState) : ColorState :=
  mkColors (delete vertex (co_colors st)) (co_decisions st) (co_backtracks st) (co_exceeded st).

Definition exceed (st : ColorState) : ColorState :=
  mkColors (co_colors st) (co_decisions st) (co_backtracks st) true.

Definition backtrack (st : ColorState) : ColorState :=
  mkColors (co_colors st) (co_decisions st) (co_backtracks st + 1) (co_exceeded st).

(** The colour loop of one [colorExact] call, over its recursive calls. *)
Fixpoint try_colors (recurse : ColorState -> result (bool * ColorState)) (selected : Z)
    (colors : list Z) (st : ColorState) : result (bool * ColorState) :=
  match colors with
  | [] => Ok (false, st)
  | color :: colors =>
      if negb (available (co_colors st) selected color) then try_colors recurse selected colors st
      else if bg_maxColoringDecisions budget <=? co_decisions st then Ok (false, exceed st)
      else
        '(found, st) ← recurse (set_color selected color st);
        if (found : bool) then Ok (true, st)
        else
          let st := reset_color selected st in
          if co_exceeded st then Ok (false, st)
          else if bg_maxColoringBacktracks budget <=? co_backtracks st then Ok (false, exceed st)
          else try_colors recurse selected colors (backtrack st)
  end.

(** Every call colours one more vertex: the vertex count bounds the depth. *)
Fixpoint colorExact (fuel : nat) (st : ColorState) : result (bool * ColorState) :=
  match select (co_colors st) with
  | None => Ok (true, st)
  | Some selected =>
      match fuel with
      | O => Throw LogicError
      | S fuel => try_colors (colorExact fuel) selected palette st
      end
  end.

(** ** The greedy pass *)

Inductive greedy_outcome :=
  | GreedyDone (st : ColorState)
  | GreedyFailed (st : ColorState)
  | GreedyBudget (vertex : Z) (st : ColorState).

Fixpoint first_fit (vertex : Z) (colors : list Z) (st : ColorState) : greedy_outcome :=
  match colors with
  | [] => GreedyFailed st
  | color :: colors =>
      if bg_maxColoringDecisions budget <=? co_decisions st then GreedyBudget vertex st
      else if negb (available (co_colors st) vertex color) then first_fit vertex colors st
      else GreedyDone (set_color vertex color st)
  end.

Fixpoint greedy (todo : list Z) (st : ColorState) : greedy_outcome :=
  match todo with
  | [] => GreedyDone st
  | vertex :: todo =>
      match first_fit vertex palette st with
      | GreedyDone st => greedy todo st
      | stopped => stopped
      end
  end.

Inductive coloring_outcome :=
  | Colored (st : ColorState)
  | BudgetExhausted (vertex : option Z) (st : ColorState)
  | Infeasible (st : ColorState).

(** One group: greedy, and the exact search from scratch when greedy fails. *)
Definition color_group (st : ColorState) : result coloring_outcome :=
  match greedy vertices st with
  | GreedyDone st => Ok (Colored st)
  | GreedyBudget vertex st => Ok (BudgetExhausted (Some vertex) st)
  | GreedyFailed st =>
      let st := mkColors (foldr delete (co_colors st) vertices) (co_decisions st)
                  (co_backtracks st) false in
      '(found, st) ← colorExact (length vertices) st;
      Ok (if (found : bool) then Colored st
          else if co_exceeded st then BudgetExhausted None st else Infeasible st)
  end.

(** ** Specification *)

(** A proper colouring of the vertices from the palette. *)
Definition coloring (c : Z -> Z) : Prop :=
  (forall v, v ∈ vertices -> c v ∈ palette) /\
  forall v n, v ∈ vertices -> n ∈ vertices -> graph v n = true -> c v <> c n.

(** The colours given so far are legal. *)
Record partial (colors : gmap Z Z) : Prop := {
  pt_palette : forall v col, v ∈ vertices -> colors !! v = Some col -> col ∈ palette;
  pt_proper : forall v n col, v ∈ vertices -> n ∈ vertices -> graph v n = true ->
    colors !! v = Some col -> colors !! n = Some col -> False
}.

Definition complete (colors : gmap Z Z) : Prop := forall v, v ∈ vertices -> is_Some (colors !! v).

Definition agrees (colors : gmap Z Z) (c : Z -> Z) : Prop :=
  forall v col, v ∈ vertices -> colors !! v = Some col -> c v = col.

Definition over_budget (st : ColorState) : Prop :=
  bg_maxColoringDecisions budget <= co_decisions st \/
  bg_maxColoringBacktracks budget <= co_backtracks st.

(** [colors'] differs from [colors] only on uncoloured vertices of the group. *)
Definition extends_coloring (colors colors' : gmap Z Z) : Prop :=
  (forall v col, colors !! v = Some col -> colors' !! v = Some col) /\
  forall v, v ∉ vertices -> colors' !! v = colors !! v.

(** What a search from [st] that returns [found] and [st'] has established. *)
Definition search_result (st : ColorState) (found : bool) (st' : ColorState) : Prop :=
  if found then
    partial (co_colors st') /\ complete (co_colors st') /\
    extends_coloring (co_colors st) (co_colors st')
  else
    co_colors st' = co_colors st /\
    if co_exceeded st' then over_budget st'
    else forall c, coloring c -> ~ agrees (co_colors st) c.

Definition search_total (recurse : ColorState -> result (bool * ColorState)) (n : nat) : Prop :=
  forall st, partial (co_colors st) -> co_exceeded st = false ->
  (length (filter (fun v => co_colors st !! v = None) vertices) < n)%nat ->
  exists found st', recurse st = Ok (found, st') /\ search_result st found st'.

(** ** Selection *)

Lemma consider_spec colors seen best v :
  (match best with
   | Some b => b.1.1 ∈ vertices /\ colors !! b.1.1 = None
   | None => forall x, x ∈ seen -> is_Some (colors !! x) end) ->
  v ∈ vertices ->
  match consider colors best v with
  | Some b => b.1.1 ∈ vertices /\ colors !! b.1.1 = None
  | None => forall x, x ∈ seen ++ [v] -> is_Some (colors !! x) end.
Proof using Type.
  intros Hb Hv. unfold consider. destruct (colors !! v) as [col|] eqn:E.
  - destruct best as [b|]; [done|]. intros x Hx.
    apply elem_of_app in Hx as [Hx|Hx]; [auto|]. apply list_elem_of_singleton in Hx as ->. by exists col.
  - destruct best as [[[bv bs] bd]|]; [|done]. destruct (_ || _)%bool; done.
Qed.

Lemma select_spec colors :
  match select colors with
  | Some v => v ∈ vertices /\ colors !! v = None
  | None => complete colors
  end.
Proof using Type.
  unfold select.
  assert (H : forall todo seen best, seen ++ todo ⊆ vertices ->
    (match best with
     | Some b => b.1.1 ∈ vertices /\ colors !! b.1.1 = None
     | None => forall x, x ∈ seen -> is_Some (colors !! x) end) ->
    match foldl (consider colors) best todo with
    | Some b => b.1.1 ∈ vertices /\ colors !! b.1.1 = None
    | None => forall x, x ∈ seen ++ todo -> is_Some (colors !! x) end).
  { induction todo as [|v todo IH]; intros seen best Hsub Hb; simpl; [by rewrite app_nil_r|].
    specialize (IH (seen ++ [v]) (consider colors best v)). rewrite <- app_assoc in IH. apply IH; [done|].
    apply consider_spec; [done|]. apply Hsub. set_solver. }
  specialize (H vertices [] None). simpl in H.
  destruct (foldl (consider colors) None vertices) as [b|]; simpl.
  - apply H; [done|]. intros x Hx. by apply not_elem_of_nil in Hx.
  - intros v Hv. apply H; [done| |done]. intros x Hx. by apply not_elem_of_nil in Hx.
Qed.

Lemma available_true colors v color :
  available colors v color = true <->
  forall n, n ∈ vertices -> graph v n = true -> colors !! n <> Some color.
Proof using Type.
  unfold available. rewrite forallb_forall. setoid_rewrite <- list_elem_of_In.
  setoid_rewrite negb_true_iff. setoid_rewrite andb_false_iff.
  setoid_rewrite bool_decide_eq_false. split.
  - intros H n Hn Hg. destruct (H n Hn) as [?|?]; [congruence|done].
  - intros H n Hn. destruct (graph v n) eqn:E; [right; auto|by left].
Qed.

(** ** Extending a partial colouring *)

Context (Hsym : forall v n, graph v n = graph n v) (Hirr : forall v, graph v v = false).

Lemma partial_insert colors v color :
  partial colors -> v ∈ vertices -> color ∈ palette -> colors !! v = None ->
  available colors v color = true -> partial (<[v := color]> colors).
Proof using Hsym Hirr.
  intros [Hp Hpr] Hv Hc Hn Hav. rewrite available_true in Hav. split.
  - intros x col Hx E. destruct (decide (x = v)) as [->|Hne].
    + rewrite lookup_insert_eq in E. by injection E as <-.
    + rewrite lookup_insert_ne in E by done. by apply (Hp x).
  - intros x n col Hx Hn' Hg E E'.
    destruct (decide (x = v)) as [->|Hne]; destruct (decide (n = v)) as [->|Hne'].
    + by rewrite Hirr in Hg.
    + rewrite lookup_insert_eq in E. injection E as <-. rewrite lookup_insert_ne in E' by done.
      by apply (Hav n).
    + rewrite lookup_insert_eq in E'. injection E' as <-. rewrite lookup_insert_ne in E by done.
      rewrite Hsym in Hg. by apply (Hav x).
    + rewrite lookup_insert_ne in E, E' by done. by apply (Hpr x n col).
Qed.

Lemma extends_insert colors colors' v color : v ∈ vertices -> colors !! v = None ->
  extends_coloring (<[v := color]> colors) colors' -> extends_coloring colors colors'.
Proof using Type.
  clear Hsym Hirr. intros Hv Hn [H1 H2]. split.
  - intros x col E. apply H1. rewrite lookup_insert_ne; [done|]. intros ->. congruence.
  - intros x Hx. rewrite H2 by done. rewrite lookup_insert_ne; [done|]. intros ->. done.
Qed.

Lemma agrees_insert colors v color c :
  agrees colors c -> c v = color -> agrees (<[v := color]> colors) c.
Proof using Type.
  clear Hsym Hirr. intros Ha Hc x col Hx E. destruct (decide (x = v)) as [->|Hne].
  - rewrite lookup_insert_eq in E. congruence.
  - rewrite lookup_insert_ne in E by done. by apply Ha.
Qed.

Lemma unavailable_refuted colors v color c :
  v ∈ vertices -> coloring c -> agrees colors c -> available colors v color = false -> c v <> color.
Proof using Type.
  clear Hsym Hirr. intros Hv [_ Hc] Ha Hav E. apply not_true_iff_false in Hav. apply Hav, available_true.
  intros n Hn Hg En. apply (Hc v n Hv Hn Hg). rewrite (Ha n color Hn En). done.
Qed.

Lemma try_colors_spec recurse n selected : search_total recurse n -> selected ∈ vertices ->
  forall todo tried st, palette = tried ++ todo -> partial (co_colors st) -> co_exceeded st = false ->
  co_colors st !! selected = None ->
  (length (filter (fun v => co_colors st !! v = None) vertices) < S n)%nat ->
  (forall c, coloring c -> agrees (co_colors st) c -> c selected ∉ tried) ->
  exists found st', try_colors recurse selected todo st = Ok (found, st') /\
    search_result st found st'.
Proof using Hsym Hirr.
  intros Hrec Hsel todo. induction todo as [|color todo IH];
    intros tried st Hpal Hpt Hex Hnone Hn Htried; simpl.
  { exists false, st. split; [done|]. split; [done|]. rewrite Hex. intros c Hc Ha.
    apply (Htried c Hc Ha). rewrite app_nil_r in Hpal. rewrite <- Hpal. by apply Hc. }
  assert (Hnext : palette = (tried ++ [color]) ++ todo) by (by rewrite <- app_assoc).
  assert (Hcol : color ∈ palette) by (rewrite Hpal; set_solver).
  destruct (available (co_colors st) selected color) eqn:Eav; simpl.
  2: { apply (IH (tried ++ [color])); try done. intros c Hc Ha Hin.
       apply elem_of_app in Hin as [Hin|Hin]; [by apply (Htried c)|].
       apply list_elem_of_singleton in Hin. by apply (unavailable_refuted _ _ _ c Hsel Hc Ha Eav). }
  destruct (Z.leb_spec (bg_maxColoringDecisions budget) (co_decisions st)) as [Hmax|Hmax].
  { exists false, (exceed st). split; [done|]. split; [done|]. by left. }
  destruct (Hrec (set_color selected color st)) as (found & st1 & -> & Hres).
  { by apply partial_insert. }
  { done. }
  { simpl. pose proof (uncolored_insert vertices (co_colors st) selected color Hsel Hnone). lia. }
  simpl. destruct found.
  { exists true, st1. split; [done|]. destruct Hres as (? & ? & ?). split_and!; try done.
    by apply (extends_insert _ _ selected color). }
  destruct Hres as [Hsame Hres].
  assert (Hback : co_colors (reset_color selected st1) = co_colors st).
  { simpl. rewrite Hsame. simpl. by rewrite delete_insert_id. }
  destruct (co_exceeded st1) eqn:Ex1.
  { exists false, (reset_color selected st1). split; [done|]. split; [done|].
    simpl. by rewrite Ex1. }
  destruct (Z.leb_spec (bg_maxColoringBacktracks budget) (co_backtracks st1)) as [Hmb|Hmb].
  { exists false, (exceed (reset_color selected st1)). split; [done|]. split; [done|]. by right. }
  destruct (IH (tried ++ [color]) (backtrack (reset_color selected st1))) as (found & st' & -> & Hfin);
    try done; try (change (co_colors (backtrack (reset_color selected st1)))
      with (co_colors (reset_color selected st1)); rewrite Hback; done).
  - change (co_colors (backtrack (reset_color selected st1)))
      with (co_colors (reset_color selected st1)). rewrite Hback. intros c Hc Ha Hin.
    apply elem_of_app in Hin as [Hin|Hin]; [by apply (Htried c)|].
    apply list_elem_of_singleton in Hin. apply (Hres c Hc). by apply agrees_insert.
  - exists found, st'. split; [done|]. unfold search_result in Hfin |- *.
    change (co_colors (backtrack (reset_color selected st1)))
      with (co_colors (reset_color selected st1)) in Hfin. by rewrite Hback in Hfin.
Qed.

Lemma colorExact_spec fuel : search_total (colorExact fuel) (S fuel).
Proof using Hsym Hirr.
  induction fuel as [|fuel IH]; intros st Hpt Hex Hn; simpl;
    pose proof (select_spec (co_colors st)) as Hsel; destruct (select (co_colors st)) as [v|].
  - destruct Hsel as [Hv Hnone]. exfalso.
    assert (v ∈ filter (fun v => co_colors st !! v = None) vertices) as Hin
      by (by apply list_elem_of_filter).
    destruct (filter _ vertices); [by apply not_elem_of_nil in Hin|simpl in Hn; lia].
  - exists true, st. split; [done|]. split_and!; try done.
  - destruct Hsel as [Hv Hnone].
    apply (try_colors_spec (colorExact fuel) (S fuel) v IH Hv palette []); try done.
    intros c _ _ Hin. by apply not_elem_of_nil in Hin.
  - exists true, st. split; [done|]. split_and!; try done.
Qed.

(** ** The greedy pass *)

Lemma first_fit_spec v colors st : colors ⊆ palette ->
  match first_fit v colors st with
  | GreedyDone st' => exists color, color ∈ palette /\ available (co_colors st) v color = true /\
      st' = set_color v color st
  | GreedyFailed st' => st' = st
  | GreedyBudget v' st' => v' = v /\ over_budget st'
  end.
Proof using Type.
  induction colors as [|color colors IH]; intros Hsub; simpl; [done|].
  destruct (Z.leb_spec (bg_maxColoringDecisions budget) (co_decisions st)) as [H|H];
    [split; [done|by left]|].
  destruct (available (co_colors st) v color) eqn:E; simpl.
  - exists color. split_and!; [apply Hsub; by left|done|done].
  - apply IH. intros x Hx. apply Hsub. by right.
Qed.

Lemma greedy_spec todo : forall st, NoDup todo -> todo ⊆ vertices -> partial (co_colors st) ->
  (forall v, v ∈ todo -> co_colors st !! v = None) ->
  match greedy todo st with
  | GreedyDone st' => partial (co_colors st') /\ (forall v, v ∈ todo -> is_Some (co_colors st' !! v)) /\
      extends_coloring (co_colors st) (co_colors st')
  | GreedyFailed st' => extends_coloring (co_colors st) (co_colors st')
  | GreedyBudget v' st' => v' ∈ vertices /\ over_budget st'
  end.
Proof using Hsym Hirr.
  induction todo as [|v todo IH]; intros st Hnd Hsub Hpt Hnone; simpl.
  { split_and!; try done. intros v Hv. by apply not_elem_of_nil in Hv. }
  apply NoDup_cons in Hnd as [Hv Hnd].
  pose proof (first_fit_spec v palette st (fun x Hx => Hx)) as Hff.
  assert (Hvin : v ∈ vertices) by (apply Hsub; by left).
  assert (Hvn : co_colors st !! v = None) by (apply Hnone; by left).
  destruct (first_fit v palette st) as [st1|st1|v1 st1]; [|by subst st1|by destruct Hff as [-> ?]].
  destruct Hff as (color & Hc & Hav & ->).
  specialize (IH (set_color v color st) Hnd).
  assert (Htail : forall x, x ∈ todo -> co_colors (set_color v color st) !! x = None).
  { intros x Hx. simpl. rewrite lookup_insert_ne; [apply Hnone; by right|]. intros ->. done. }
  specialize (IH (fun x Hx => Hsub x (list_elem_of_further x v todo Hx))
                (partial_insert _ v color Hpt Hvin Hc Hvn Hav) Htail).
  destruct (greedy todo (set_color v color st)) as [st2|st2|v2 st2]; [|by apply (extends_insert _ _ v color)|done].
  destruct IH as (H1 & H2 & H3). split_and!; [done| |by apply (extends_insert _ _ v color)].
  intros x Hx. apply elem_of_cons in Hx as [->|Hx]; [|by apply H2].
  exists color. apply H3. simpl. by rewrite lookup_insert_eq.
Qed.

Lemma partial_uncolored colors : (forall v, v ∈ vertices -> colors !! v = None) -> partial colors.
Proof using Type.
  clear Hsym Hirr. intros H. split.
  - intros v col Hv E. rewrite (H v Hv) in E. done.
  - intros v n col Hv _ _ E. rewrite (H v Hv) in E. done.
Qed.

(** Within its budget the search decides whether a proper colouring exists. *)
Lemma color_group_exact st : NoDup vertices -> (forall v, v ∈ vertices -> co_colors st !! v = None) ->
  exists outcome, color_group st = Ok outcome /\
  match outcome with
  | Colored st' => partial (co_colors st') /\ complete (co_colors st') /\
      forall v, v ∉ vertices -> co_colors st' !! v = co_colors st !! v
  | BudgetExhausted v st' => over_budget st' /\ forall x, v = Some x -> x ∈ vertices
  | Infeasible _ => forall c, ~ coloring c
  end.
Proof using Hsym Hirr.
  intros Hnd Hnone. unfold color_group.
  pose proof (greedy_spec vertices st Hnd (fun x Hx => Hx) (partial_uncolored _ Hnone) Hnone) as Hg.
  destruct (greedy vertices st) as [st1|st1|v st1].
  - eexists. split; [done|]. destruct Hg as (H1 & H2 & [_ H3]). split_and!; done.
  - set (st2 := mkColors (foldr delete (co_colors st1) vertices) (co_decisions st1)
      (co_backtracks st1) false).
    assert (Hun : forall x, x ∈ vertices -> co_colors st2 !! x = None).
    { intros x Hx. simpl. by rewrite lookup_foldr_delete, decide_True. }
    destruct (colorExact_spec (length vertices) st2 (partial_uncolored _ Hun) eq_refl)
      as (found & st' & -> & Hres).
    { pose proof (length_filter (fun v => co_colors st2 !! v = None) vertices). lia. }
    simpl. destruct found; [|destruct Hres as [_ Hres]; destruct (co_exceeded st')].
    + eexists. split; [done|]. destruct Hres as (H1 & H2 & [_ H3]). split_and!; try done.
      intros x Hx. rewrite H3 by done. simpl. rewrite lookup_foldr_delete, decide_False by done. by apply Hg.
    + eexists. split; [done|]. done.
    + eexists. split; [done|]. intros c Hc. apply (Hres c Hc). intros x col Hx E. by rewrite Hun in E.
  - eexists. split; [done|]. destruct Hg as [Hv Hg]. split; [done|]. by intros x [= <-].
Qed.
End Coloring.

(** ** Properties *)

(** C33: the register search terminates with the truth.  On the distinct, still
    uncoloured vertices of any symmetric irreflexive graph it returns, with a
    recursion no deeper than the number of vertices: a proper colouring from the
    palette that touches nothing else, a spent budget, or the verdict that no
    proper colouring exists. *)
Theorem color_group_decides (vertices : list Z) (graph : Z -> Z -> bool) (palette : list Z)
    (budget : RFAllocationBudget) (st : ColorState) :
  (forall v n, graph v n = graph n v) -> (forall v, graph v v = false) ->
  NoDup vertices -> (forall v, v ∈ vertices -> co_colors st !! v = None) ->
  exists outcome, color_group vertices graph palette budget st = Ok outcome /\
  match outcome with
  | Colored st' => partial vertices graph palette (co_colors st') /\ complete vertices (co_colors st') /\
      forall v, v ∉ vertices -> co_colors st' !! v = co_colors st !! v
  | BudgetExhausted _ st' => over_budget budget st'
  | Infeasible _ => forall c, ~ coloring vertices graph palette c
  end.
Proof.
  intros Hsym Hirr Hnd Hnone.
  destruct (color_group_exact vertices graph palette budget Hsym Hirr st Hnd Hnone) as (outcome & Heq & H).
  exists outcome. split; [exact Heq|]. by destruct outcome as [|v|]; [|destruct H|].
Qed.

(** A path of four vertices with two colours, where first fit gets stuck. *)
Definition path_graph (v n : Z) : bool :=
  existsb (fun e => ((v =? e.1) && (n =? e.2)) || ((v =? e.2) && (n =? e.1))) [(0, 2); (2, 3); (3, 1)].

Example path_colored :
  (outcome ← color_group [0; 1; 2; 3] path_graph [7; 9] (mkBudget 100 100) (mkColors ∅ 0 0 false);
   match outcome with
   | Colored st => Ok ((fun v => co_colors st !! v) <$> [0; 1; 2; 3])
   | _ => Throw LogicError
   end) = Ok [Some 9; Some 7; Some 7; Some 9].
Proof. vm_compute. reflexivity. Qed.

Lemma color_group_decides_witness :
  exists outcome,
  color_group [0; 1; 2; 3] path_graph [7; 9] (mkBudget 100 100) (mkColors ∅ 0 0 false) = Ok outcome /\
  match outcome with
  | Colored st' => partial [0; 1; 2; 3] path_graph [7; 9] (co_colors st') /\
      complete [0; 1; 2; 3] (co_colors st') /\
      forall v, v ∉ [0; 1; 2; 3] -> co_colors st' !! v = (∅ : gmap Z Z) !! v
  | BudgetExhausted _ st' => over_budget (mkBudget 100 100) st'
  | Infeasible _ => forall c, ~ coloring [0; 1; 2; 3] path_graph [7; 9] c
  end.
Proof.
  apply (color_group_decides [0; 1; 2; 3] path_graph [7; 9] (mkBudget 100 100) (mkColors ∅ 0 0 false)).
  - intros v n. unfold path_graph. simpl. lia.
  - intros v. unfold path_graph. simpl. lia.
  - apply (bool_decide_unpack _). vm_compute. exact I.
  - intros v _. apply lookup_empty.
Defined.
