(* ===== verification/RFAllocator.v ===== *)
(** * The register allocator

    Models [RFAllocator::allocate]
    ([compiler/{include/cgra,lib}/RegisterAllocation/RFAllocat{ionResult,or}.{h,cpp}]):
    storage segments are grouped by bank, coloured with registers and matched with
    read, write and boundary ports; the finished allocation goes through the
    verifier. *)
From stdpp Require Import base numbers list gmap sorting strings.
From S2P Require Import Prelude.
From S2P Require Import IR.
From S2P Require Import TargetModel.
From S2P Require Import CgraV2.
From S2P Require Import TargetDFG.
From S2P Require Import TargetDFGVerifier.
From S2P Require Import ModuloResources.
From S2P Require Import ModuloMapping.
From S2P Require Import MappingVerifier.
From S2P Require Import MIIAnalyzer.
From S2P Require Import StageScheduler.
From S2P Require Import StorageRequirements.
From S2P Require Import PeriodicLifetime.
From S2P Require Import RFAllocation.
From S2P Require Import PortMatching.
From S2P Require Import Coloring.
From S2P Require Import OrderedMap.

(** ** Results (RFAllocationResult.h) *)

Inductive RFAllocationStatus :=
  | AllocSuccess
  | AllocInvalidTargetDFG
  | AllocInvalidStagedMapping
  | AllocTargetRFContractError
  | FixedRegisterSelfOverlap
  | ReadPortConflict
  | WritePortConflict
  | SameAddressRWConflict
  | RegisterDepthInfeasible
  | BudgetExceeded
  | VerificationFailure
  | AllocArithmeticOverflow
  | AllocInternalError.

Inductive RFAllocationDiagnosticCode :=
  | RFA_INVALID_TARGET_DFG
  | RFA_INVALID_STAGED_MAPPING
  | RFA_TARGET_BANK_MISSING
  | RFA_TARGET_RF_CONTRACT_INVALID
  | RFA_STORAGE_TIMING_INVALID
  | RFA_STORAGE_ARITHMETIC_OVERFLOW
  | RFA_FIXED_REGISTER_SELF_OVERLAP
  | RFA_READ_PORT_CONFLICT
  | RFA_WRITE_PORT_CONFLICT
  | RFA_SAME_ADDRESS_RW_CONFLICT
  | RFA_REGISTER_DEPTH_INFEASIBLE
  | RFA_COLORING_BUDGET_EXCEEDED
  | RFA_UNKNOWN_STORAGE_SEGMENT
  | RFA_DUPLICATE_STORAGE_ALLOCATION
  | RFA_UNALLOCATED_STORAGE_SEGMENT
  | RFA_INVALID_REGISTER_INDEX
  | RFA_BANK_DOMAIN_MISMATCH
  | RFA_FINAL_VERIFICATION_FAILED
  | RFA_INTERNAL_ERROR.

Record RFAllocationDiagnostic := mkRFA {
  rd_code : RFAllocationDiagnosticCode;
  rd_edge : option Z;
  rd_segment : option Z;
  rd_tile : option TileCoord;
  rd_bank : option string;
  rd_reg : option Z
}.

Record RFAllocationStats := mkRFAStats {
  as_storage : StorageRequirementStats;     (* the six counters copied from the analysis *)
  as_conflictEdges : Z;
  as_coloringDecisions : Z;
  as_coloringBacktracks : Z;
  as_maxRegistersUsedOnAnyBank : Z;
  as_maxReadPortsUsed : Z;
  as_maxWritePortsUsed : Z
}.

Record RFAllocationResult := mkRFAResult {
  al_status : RFAllocationStatus;
  al_mapping : option RFAllocatedMapping;
  al_stats : RFAllocationStats;
  al_diagnostics : list RFAllocationDiagnostic
}.

(** An early [return result] with its status and diagnostic. *)
Record Stop := mkStop { stop_status : RFAllocationStatus; stop_diagnostic : RFAllocationDiagnostic }.

Definition stop_segment (status : RFAllocationStatus) (code : RFAllocationDiagnosticCode)
    (s : StorageSegment) (bank : option string) : Stop :=
  mkStop status (mkRFA code (Some (sg_edge s)) (Some (sg_id s)) (Some (sg_tile s)) bank None).

Abbreviation BankKey := (TileCoord * string)%type.

Definition storage_status (status : StorageRequirementStatus) : RFAllocationStatus :=
  match status with
  | StorageInvalidTargetDFG => AllocInvalidTargetDFG
  | StorageInvalidStagedMapping => AllocInvalidStagedMapping
  | StorageTargetRFContractError => AllocTargetRFContractError
  | StorageArithmeticOverflow => AllocArithmeticOverflow
  | StorageSuccess | StorageInternalError => AllocInternalError
  end.

Definition storage_diagnostic (d : StorageRequirementDiagnostic) : RFAllocationDiagnostic :=
  mkRFA match sq_code d with
        | SRA_TARGET_BANK_MISSING => RFA_TARGET_BANK_MISSING
        | SRA_TARGET_RF_CONTRACT_INVALID => RFA_TARGET_RF_CONTRACT_INVALID
        | SRA_STORAGE_ARITHMETIC_OVERFLOW => RFA_STORAGE_ARITHMETIC_OVERFLOW
        | SRA_STORAGE_TIMING_INVALID => RFA_STORAGE_TIMING_INVALID
        | SRA_INVALID_TARGET_DFG => RFA_INVALID_TARGET_DFG
        | SRA_INVALID_STAGED_MAPPING | SRA_INTERNAL_ERROR => RFA_INVALID_STAGED_MAPPING
        end (sq_edge d) (sq_segment d) None None None.

#[export] Instance register_key : KeyOrder PhysicalRegister := fun x y =>
  key_ltb (pr_tile x, pr_bank x, pr_index x) (pr_tile y, pr_bank y, pr_index y).

(** The order in which a [std::map] lists its keys. *)
Definition not_after {K} `{KeyOrder K} (x y : K) : Prop := key_ltb y x = false.

#[export] Instance not_after_dec {K} `{KeyOrder K} : RelDecision not_after.
Proof. intros x y. unfold not_after. apply _. Defined.

(** ** The phases of [allocate] *)

Section Phases.
Context (dfg : TargetDFG) (target : TargetModel) (mapping : StagedMapping).
Context (requirements : StorageRequirements) (budget : RFAllocationBudget).

Let segments := rq_segments requirements.
Let ii := rq_ii requirements.

Definition slot (time : Z) : Z := wrap32 (time mod ii).

(** Banks by segment, and the segments of each bank in identifier order. *)
Fixpoint group_segments (todo : list StorageSegment) (banks : gmap Z RegisterFileDesc)
    (groups : list (BankKey * list Z)) : Stop + (gmap Z RegisterFileDesc * list (BankKey * list Z)) :=
  match todo with
  | [] => inr (banks, groups)
  | s :: todo =>
      match segment_bank target s with
      | None => inl (stop_segment AllocTargetRFContractError RFA_TARGET_BANK_MISSING s None)
      | Some bank =>
          if bool_decide (rf_allocatableIndices bank = [])
          then inl (stop_segment AllocTargetRFContractError RFA_TARGET_RF_CONTRACT_INVALID s
                      (Some (rf_id bank)))
          else if fixedRegisterSelfOverlaps s ii (rf_sameAddressReadWritePolicy bank)
          then inl (stop_segment FixedRegisterSelfOverlap RFA_FIXED_REGISTER_SELF_OVERLAP s
                      (Some (rf_id bank)))
          else group_segments todo (<[sg_id s := bank]> banks)
                 (om_push (fun s => (sg_tile s, rf_id bank)) sg_id s groups)
      end
  end.

(** [banks[id]], dereferenced. *)
Definition bank_at (banks : gmap Z RegisterFileDesc) (id : Z) : result RegisterFileDesc :=
  of_option LogicError (banks !! id).

Definition port_key (s : StorageSegment) (bank : RegisterFileDesc) (time : Z) : PortKey :=
  (sg_tile s, rf_id bank, slot time).

(** Ports demanded per bank and modulo slot, against the port counts. *)
Fixpoint port_demand (banks : gmap Z RegisterFileDesc) (todo : list StorageSegment)
    (reads writes : gmap PortKey Z) (maxReads maxWrites : Z) : result (Z * Z * option Stop) :=
  match todo with
  | [] => Ok (maxReads, maxWrites, None)
  | s :: todo =>
      bank ← bank_at banks (sg_id s);
      let write := port_key s bank (sg_writeTime s) in
      let read := port_key s bank (sg_readTime s) in
      let writes := <[write := counted write writes + 1]> writes in
      let reads := <[read := counted read reads + 1]> reads in
      let maxReads := Z.max maxReads (counted read reads) in
      let maxWrites := Z.max maxWrites (counted write writes) in
      if rf_writePorts bank <? counted write writes
      then Ok (maxReads, maxWrites,
             Some (stop_segment WritePortConflict RFA_WRITE_PORT_CONFLICT s (Some (rf_id bank))))
      else if rf_readPorts bank <? counted read reads
      then Ok (maxReads, maxWrites,
             Some (stop_segment ReadPortConflict RFA_READ_PORT_CONFLICT s (Some (rf_id bank))))
      else port_demand banks todo reads writes maxReads maxWrites
  end.

(** One segment against the later ones of its bank. *)
Fixpoint conflict_row (policy : SameAddressReadWritePolicy) (lhs : Z) (todo : list Z)
    (graph : gset (Z * Z)) (edges : Z) : result (gset (Z * Z) * Z) :=
  match todo with
  | [] => Ok (graph, edges)
  | rhs :: todo =>
      l ← rq_segment requirements lhs;
      r ← rq_segment requirements rhs;
      if periodicLifetimesConflict l r ii policy
      then conflict_row policy lhs todo ({[ (lhs, rhs); (rhs, lhs) ]} ∪ graph) (edges + 1)
      else conflict_row policy lhs todo graph edges
  end.

Fixpoint conflict_graph (policy : SameAddressReadWritePolicy) (vertices : list Z)
    (graph : gset (Z * Z)) (edges : Z) : result (gset (Z * Z) * Z) :=
  match vertices with
  | [] => Ok (graph, edges)
  | lhs :: vertices =>
      '(graph, edges) ← conflict_row policy lhs vertices graph edges;
      conflict_graph policy vertices graph edges
  end.

Definition linked (graph : gset (Z * Z)) (v n : Z) : bool := bool_decide ((v, n) ∈ graph).

Definition color_of (st : ColorState) (v : Z) : result Z :=
  of_option BadOptionalAccess (co_colors st !! v).

(** Colouring state, conflict edges, largest number of registers used. *)
Abbreviation ColoringTotals := (ColorState * Z * Z)%type.

(** Bank after bank. *)
Fixpoint color_groups (banks : gmap Z RegisterFileDesc) (groups : list (BankKey * list Z))
    (totals : ColoringTotals) : result (ColoringTotals * option Stop) :=
  match groups with
  | [] => Ok (totals, None)
  | (key, vertices) :: groups =>
      let '(st, edges, maxRegisters) := totals in
      front ← of_option LogicError (head vertices);
      bank ← bank_at banks front;
      '(graph, edges) ← conflict_graph (rf_sameAddressReadWritePolicy bank) vertices ∅ edges;
      outcome ← color_group vertices (linked graph) (rf_allocatableIndices bank) budget st;
      match outcome with
      | Colored st =>
          used ← mapM (color_of st) vertices;
          color_groups banks groups
            (st, edges, Z.max maxRegisters (Z.of_nat (size (list_to_set used : gset Z))))
      | BudgetExhausted (Some vertex) st =>
          s ← rq_segment requirements vertex;
          Ok (st, edges, maxRegisters, Some (mkStop BudgetExceeded
            (mkRFA RFA_COLORING_BUDGET_EXCEEDED (Some (sg_edge s)) (Some vertex) (Some key.1)
               (Some key.2) None)))
      | BudgetExhausted None st =>
          Ok (st, edges, maxRegisters, Some (mkStop BudgetExceeded
            (mkRFA RFA_COLORING_BUDGET_EXCEEDED None None (Some key.1) (Some key.2) None)))
      | Infeasible st =>
          Ok (st, edges, maxRegisters, Some (mkStop RegisterDepthInfeasible
            (mkRFA RFA_REGISTER_DEPTH_INFEASIBLE None None (Some key.1) (Some key.2) None)))
      end
  end.

Definition initial_allocation (banks : gmap Z RegisterFileDesc) (st : ColorState)
    (s : StorageSegment) : result StorageAllocation :=
  bank ← bank_at banks (sg_id s);
  color ← color_of st (sg_id s);
  Ok (mkAllocation (sg_id s) (mkRegister (sg_tile s) (rf_id bank) color) 0 0 None).

(** *** Ports *)

(** The segments with an access, by bank and slot; [access] is its time, if any. *)
Fixpoint port_events (banks : gmap Z RegisterFileDesc)
    (access : StorageSegment -> result (option Z)) (todo : list StorageSegment)
    (events : list (PortKey * list Z)) : result (list (PortKey * list Z)) :=
  match todo with
  | [] => Ok events
  | s :: todo =>
      time ← access s;
      match time with
      | None => port_events banks access todo events
      | Some time =>
          bank ← bank_at banks (sg_id s);
          port_events banks access todo (om_push (fun s => port_key s bank time) sg_id s events)
      end
  end.

(** What distinguishes the three matchings: the port count, the candidate ports,
    the field the port goes to, the status of a failure. *)
Record PortKind := mkPortKind {
  pk_count : RegisterFileDesc -> Z;
  pk_candidate : RegisterFileDesc -> StorageSegment -> Z -> result bool;
  pk_store : Z -> StorageAllocation -> StorageAllocation;
  pk_status : RFAllocationStatus;
  pk_code : RFAllocationDiagnosticCode
}.

Definition set_readPort (port : Z) (a : StorageAllocation) : StorageAllocation :=
  mkAllocation (sl_segment a) (sl_reg a) port (sl_writePort a) (sl_boundaryWritePort a).
Definition set_writePort (port : Z) (a : StorageAllocation) : StorageAllocation :=
  mkAllocation (sl_segment a) (sl_reg a) (sl_readPort a) port (sl_boundaryWritePort a).
Definition set_boundaryWritePort (port : Z) (a : StorageAllocation) : StorageAllocation :=
  mkAllocation (sl_segment a) (sl_reg a) (sl_readPort a) (sl_writePort a) (Some port).

Definition source_candidate (source : StorageSegment -> result string) (bank : RegisterFileDesc)
    (s : StorageSegment) (port : Z) : result bool :=
  source ← source s; Ok (port_accepts bank port source).

Definition read_ports : PortKind :=
  mkPortKind rf_readPorts (fun _ _ _ => Ok true) set_readPort ReadPortConflict
    RFA_READ_PORT_CONFLICT.
Definition write_ports : PortKind :=
  mkPortKind rf_writePorts (source_candidate (storageWriteSource dfg target mapping)) set_writePort
    WritePortConflict RFA_WRITE_PORT_CONFLICT.
Definition boundary_ports : PortKind :=
  mkPortKind rf_writePorts (source_candidate (boundaryWriteSource dfg)) set_boundaryWritePort
    WritePortConflict RFA_WRITE_PORT_CONFLICT.

(** [allocations[matched[port]].field = port] for every matched port. *)
Definition store_ports (kind : PortKind) (portCount : Z) (matched : gmap Z Z)
    (allocations : list StorageAllocation) : list StorageAllocation :=
  foldl (fun allocations port =>
    match matched !! port with
    | Some id => alter (pk_store kind port) (nat_of id) allocations
    | None => allocations
    end) allocations (range portCount).

Fixpoint assign_ports (kind : PortKind) (banks : gmap Z RegisterFileDesc)
    (events : list (PortKey * list Z)) (allocations : list StorageAllocation)
  : result (list StorageAllocation * option Stop) :=
  match events with
  | [] => Ok (allocations, None)
  | (key, ids) :: events =>
      front ← of_option LogicError (head ids);
      bank ← bank_at banks front;
      matching ← match_all (pk_count kind bank)
        (fun id port => s ← rq_segment requirements id; pk_candidate kind bank s port)
        (sort_by id ids) ∅;
      match matching with
      | inl id =>
          s ← rq_segment requirements id;
          Ok (allocations, Some (mkStop (pk_status kind)
            (mkRFA (pk_code kind) (Some (sg_edge s)) (Some id) (Some key.1.1) (Some key.1.2) None)))
      | inr matched =>
          assign_ports kind banks events (store_ports kind (pk_count kind bank) matched allocations)
      end
  end.

(** The prologue write of a seeded segment, when it has one. *)
Definition boundary_time (s : StorageSegment) : Z :=
  if ii <=? sg_writeTime s then sg_writeTime s - ii else sg_writeTime s.

Definition boundary_access (s : StorageSegment) : result (option Z) :=
  source ← boundaryWriteSource dfg s;
  Ok (if String.eqb source "" then None else Some (boundary_time s)).

(** *** The accesses of each register *)

Fixpoint allocator_events (allocations : list StorageAllocation) (todo : list StorageSegment)
    (reads writes : gmap (PhysicalRegister * Z) Z)
  : result (gmap (PhysicalRegister * Z) Z * gmap (PhysicalRegister * Z) Z) :=
  match todo with
  | [] => Ok (reads, writes)
  | s :: todo =>
      a ← of_option LogicError (allocations !! nat_of (sg_id s));
      let write := (sl_reg a, slot (sg_writeTime s)) in
      let read := (sl_reg a, slot (sg_readTime s)) in
      allocator_events allocations todo (<[read := counted read reads + 1]> reads)
        (<[write := counted write writes + 1]> writes)
  end.

(** The first register, in map order, whose accesses of one cycle collide. *)
Definition event_failure (reads writes : gmap (PhysicalRegister * Z) Z) : option Stop :=
  let fails key :=
    (1 <? counted key writes) ||
    (negb (counted key reads =? 0) && negb (counted key writes =? 0) &&
     match register_bank target key.1 with
     | Some bank => negb (bool_decide (rf_sameAddressReadWritePolicy bank = ReadOldThenWriteNew))
     | None => false
     end) in
  let conflict key := mkStop SameAddressRWConflict
    (mkRFA RFA_SAME_ADDRESS_RW_CONFLICT None None (Some (pr_tile key.1)) (Some (pr_bank key.1))
       (Some (pr_index key.1))) in
  option_map conflict
    (find_if fails (merge_sort not_after (elements (dom reads ∪ dom writes)))).

(** Ports, register events and the verifier, once every segment has a register. *)
Definition finish (banks : gmap Z RegisterFileDesc) (allocations : list StorageAllocation)
  : result (Stop + RFAllocatedMapping) :=
  readEvents ← port_events banks (fun s => Ok (Some (sg_readTime s))) segments [];
  writeEvents ← port_events banks (fun s => Ok (Some (sg_writeTime s))) segments [];
  '(allocations, stop) ← assign_ports read_ports banks readEvents allocations;
  match stop with
  | Some stop => Ok (inl stop)
  | None =>
      '(allocations, stop) ← assign_ports write_ports banks writeEvents allocations;
      match stop with
      | Some stop => Ok (inl stop)
      | None =>
          boundaryEvents ← port_events banks boundary_access segments [];
          '(allocations, stop) ← assign_ports boundary_ports banks boundaryEvents allocations;
          match stop with
          | Some stop => Ok (inl stop)
          | None =>
              '(reads, writes) ← allocator_events allocations segments ∅ ∅;
              match event_failure reads writes with
              | Some stop => Ok (inl stop)
              | None =>
                  let failed status code := mkStop status (mkRFA code None None None None None) in
                  match (allocated ← RFAllocatedMapping_new mapping requirements allocations;
                         report ← rf_verify dfg target allocated; Ok (allocated, report)) with
                  | Ok (allocated, []) => Ok (inr allocated)
                  | Ok (_, _) => Ok (inl (failed VerificationFailure RFA_FINAL_VERIFICATION_FAILED))
                  | Throw _ => Ok (inl (failed AllocInternalError RFA_INTERNAL_ERROR))
                  end
              end
          end
      end
  end.
End Phases.

(** ** [RFAllocator::allocate] *)

Definition no_stats : RFAllocationStats := mkRFAStats (mkStorageStats 0 0 0 0 0 0) 0 0 0 0 0 0.

Definition stopped (stats : RFAllocationStats) (stop : Stop) : RFAllocationResult :=
  mkRFAResult (stop_status stop) None stats [stop_diagnostic stop].

(** The phases in order, for requirements the analysis returned with [counts]. *)
Definition allocate_requirements (dfg : TargetDFG) (target : TargetModel) (mapping : StagedMapping)
    (requirements : StorageRequirements) (counts : StorageRequirementStats)
    (budget : RFAllocationBudget) : result RFAllocationResult :=
  let segments := rq_segments requirements in
  match group_segments target requirements segments ∅ [] with
  | inl stop => Ok (stopped (mkRFAStats counts 0 0 0 0 0 0) stop)
  | inr (banks, groups) =>
      '(maxReads, maxWrites, stop) ← port_demand requirements banks segments ∅ ∅ 0 0;
      match stop with
      | Some stop => Ok (stopped (mkRFAStats counts 0 0 0 0 maxReads maxWrites) stop)
      | None =>
          '(totals, stop) ← color_groups requirements budget banks groups
                              (mkColors ∅ 0 0 false, 0, 0);
          let '(st, edges, maxRegisters) := totals in
          let stats := mkRFAStats counts edges (co_decisions st) (co_backtracks st) maxRegisters
                         maxReads maxWrites in
          match stop with
          | Some stop => Ok (stopped stats stop)
          | None =>
              allocations ← mapM (initial_allocation banks st) segments;
              finished ← finish dfg target mapping requirements banks allocations;
              Ok match finished with
                 | inl stop => stopped stats stop
                 | inr allocated => mkRFAResult AllocSuccess (Some allocated) stats []
                 end
          end
      end
  end.

Definition allocate (dfg : TargetDFG) (target : TargetModel) (mapping : StagedMapping)
    (budget : RFAllocationBudget) : result RFAllocationResult :=
  targetReport ← tdfg_verify dfg target None;
  if negb (bool_decide (targetReport = []))
  then Ok (mkRFAResult AllocInvalidTargetDFG None no_stats
             [mkRFA RFA_INVALID_TARGET_DFG None None None None None])
  else
    requirementsResult ← storage_analyze dfg target mapping;
    match rr_ok requirementsResult with
    | None => Ok (mkRFAResult (storage_status (rr_status requirementsResult)) None no_stats
                    (storage_diagnostic <$> rr_diagnostics requirementsResult))
    | Some requirements =>
        allocate_requirements dfg target mapping requirements (rr_stats requirementsResult) budget
    end.

Definition v2_budget : RFAllocationBudget := mkBudget 1000 1000.

Example v2_allocate :
  (r ← allocate v2_accumulate cgra_v2 v2_staged v2_budget; Ok (al_status r, al_stats r,
     ra_allocations <$> al_mapping r)) =
  Ok (AllocSuccess, mkRFAStats (mkStorageStats 2 2 0 1 1 0) 0 2 0 1 1 1, Some [
    mkAllocation 0 (mkRegister (mkTile 0 2) "data_rf" 0) 0 1 (Some 1);
    mkAllocation 1 (mkRegister (mkTile 0 1) "data_rf" 0) 0 1 (Some 1)]).
Proof. vm_compute. reflexivity. Qed.
