(* ===== verification/RFAllocatorExact.v ===== *)
(** * The register allocator decides allocation

    What the phases of [RFAllocator.allocate] compute, and the exactness of the
    whole: within its budget it finds an allocation the verifier accepts, or none
    exists. *)
From stdpp Require Import base numbers list gmap sorting strings.
From S2P Require Import Prelude.
From S2P Require Import IR.
From S2P Require Import TargetModel.
From S2P Require Import CgraV2.
From S2P Require Import TargetDFG.
From S2P Require Import TargetDFGVerifier.
From S2P Require Import ModuloResources.
From S2P Require Import ModuloMapping.
From S2P Require Import MappingVerifier.
From S2P Require Import MIIAnalyzer.
From S2P Require Import StageScheduler.
From S2P Require Import StorageRequirements.
From S2P Require Import PeriodicLifetime.
From S2P Require Import RFAllocation.
From S2P Require Import PortMatching.
From S2P Require Import Coloring.
From S2P Require Import OrderedMap.
From S2P Require Import RFAllocator.

Lemma mapM_map {A B} (f : A -> result B) (g : A -> B) (l : list A) :
  (forall x, x ∈ l -> f x = Ok (g x)) -> mapM f l = Ok (g <$> l).
Proof.
  induction l as [|x l IH]; intros H; [done|].
  change (mapM f (x :: l)) with (y ← f x; k ← mapM f l; Ok (y :: k)).
  rewrite (H x) by left. rewrite IH; [done|]. intros y Hy. apply H. by right.
Qed.

Lemma mapM_total {A B} (f : A -> result B) (l : list A) :
  (forall x, x ∈ l -> exists y, f x = Ok y) -> exists k, mapM f l = Ok k.
Proof.
  induction l as [|x l IH]; intros H; [by eexists|].
  change (mapM f (x :: l)) with (y ← f x; k ← mapM f l; Ok (y :: k)).
  destruct (H x ltac:(left)) as [y ->].
  destruct IH as [k ->]; [intros z Hz; apply H; by right|]. by eexists.
Qed.

(** Storing the ports of a matching, position by position. *)
Section StorePorts.
Context (kind : PortKind) (matched : gmap Z Z).
Context (Hnat : forall p id, matched !! p = Some id -> 0 <= id).

Let store (ports : list Z) (allocations : list StorageAllocation) := foldl (fun allocations port =>
  match matched !! port with
  | Some id => alter (pk_store kind port) (nat_of id) allocations
  | None => allocations
  end) allocations ports.

Lemma store_other ports allocations id : 0 <= id -> (forall p, p ∈ ports -> matched !! p <> Some id) ->
  store ports allocations !! nat_of id = allocations !! nat_of id.
Proof using Hnat.
  intros Hid. revert allocations. induction ports as [|p ports IH]; intros allocations Hn; [done|].
  change (store (p :: ports) allocations) with (store ports
    (match matched !! p with Some id => alter (pk_store kind p) (nat_of id) allocations
     | None => allocations end)).
  rewrite IH by (intros p' Hp'; apply Hn; by right).
  destruct (matched !! p) as [id'|] eqn:E; [|done]. rewrite list_lookup_alter_ne; [done|].
  intros Eid. apply (Hn p ltac:(left)). rewrite E. f_equal. specialize (Hnat p id' E). lia.
Qed.

Lemma store_own ports allocations id port : NoDup ports -> port ∈ ports -> 0 <= id ->
  matched !! port = Some id -> (forall p, matched !! p = Some id -> p = port) ->
  store ports allocations !! nat_of id = pk_store kind port <$> (allocations !! nat_of id).
Proof using Hnat.
  intros Hnd Hin Hid Hm Hone. revert allocations.
  induction Hnd as [|p ports Hp Hnd IH]; intros allocations; [by apply not_elem_of_nil in Hin|].
  change (store (p :: ports) allocations) with (store ports
    (match matched !! p with Some id => alter (pk_store kind p) (nat_of id) allocations
     | None => allocations end)).
  destruct (decide (p = port)) as [->|Hne].
  - rewrite Hm, store_other; [by rewrite list_lookup_alter_eq|done|].
    intros p' Hp' E. apply Hone in E. by subst.
  - apply elem_of_cons in Hin as [->|Hin]; [done|]. rewrite (IH Hin). f_equal.
    destruct (matched !! p) as [id'|] eqn:E; [|done]. apply list_lookup_alter_ne.
    intros Eid. apply Hne, Hone. rewrite E. f_equal. specialize (Hnat p id' E). lia.
Qed.
End StorePorts.

(** ** What the phases look for *)

Section Solutions.
Context (target : TargetModel) (q : StorageRequirements).

Let segments := rq_segments q.
Let ii := rq_ii q.

Definition bank_key (s : StorageSegment) : BankKey := (sg_tile s, rf_id (bank target s)).

(** Registers, by segment identifier, for the segments of the banks in [keys]. *)
Record color_solution (keys : list BankKey) (c : Z -> Z) : Prop := {
  cs_palette : forall s, s ∈ segments -> bank_key s ∈ keys ->
    c (sg_id s) ∈ rf_allocatableIndices (bank target s);
  cs_proper : forall s s', s ∈ segments -> s' ∈ segments -> s <> s' -> bank_key s ∈ keys ->
    bank_key s = bank_key s' ->
    periodicLifetimesConflict s s' ii (rf_sameAddressReadWritePolicy (bank target s)) = true ->
    c (sg_id s) <> c (sg_id s')
}.

(** Where segment [s] needs a port, when it has an access. *)
Definition access_at (access : StorageSegment -> option Z) (s : StorageSegment) : option PortKey :=
  port_key q s (bank target s) <$> access s.

(** Ports, by segment identifier, for the accesses with a key in [keys]. *)
Record port_solution (count : RegisterFileDesc -> Z) (accepts : StorageSegment -> Z -> bool)
    (access : StorageSegment -> option Z) (keys : list PortKey) (port : Z -> Z) : Prop := {
  ps_port : forall s key, s ∈ segments -> access_at access s = Some key -> key ∈ keys ->
    0 <= port (sg_id s) < count (bank target s) /\ accepts s (port (sg_id s)) = true;
  ps_exclusive : forall s s' key, s ∈ segments -> s' ∈ segments ->
    access_at access s = Some key -> access_at access s' = Some key -> key ∈ keys ->
    port (sg_id s) = port (sg_id s') -> s = s'
}.

(** ** Segments and banks *)

Context (Hids : NoDup (sg_id <$> segments)).
Context (Hindex : forall i s, segments !! i = Some s -> sg_id s = Z.of_nat i).
Context (Hbanks : forall s, s ∈ segments -> is_Some (segment_bank target s)).
Context (Hrf : register_files_wf target).

Lemma segments_NoDup : NoDup segments.
Proof using Hids. by eapply NoDup_of_key. Qed.

Lemma same_id s s' : s ∈ segments -> s' ∈ segments -> sg_id s = sg_id s' -> s = s'.
Proof using Hids. apply NoDup_fmap_inj_in, Hids. Qed.

Lemma segment_of_id s : s ∈ segments -> rq_segment q (sg_id s) = Ok s.
Proof using Hids. intros Hs. unfold rq_segment. by rewrite (find_if_unique sg_id (sg_id s) _ s). Qed.

Lemma segment_at s : s ∈ segments -> segments !! nat_of (sg_id s) = Some s.
Proof using Hindex.
  intros Hs. apply list_elem_of_lookup in Hs as [i Hi]. by rewrite (Hindex i s Hi), Nat2Z.id.
Qed.

Lemma bank_Some s : s ∈ segments -> segment_bank target s = Some (bank target s).
Proof using Hbanks. intros Hs. unfold bank. by destruct (Hbanks s Hs) as [b ->]. Qed.

Lemma bank_of_key s s' : s ∈ segments -> s' ∈ segments -> sg_tile s = sg_tile s' ->
  rf_id (bank target s) = rf_id (bank target s') -> bank target s = bank target s'.
Proof using Hbanks Hrf.
  intros Hs Hs' Et Ei. pose proof (bank_Some s Hs) as B. pose proof (bank_Some s' Hs') as B'.
  destruct Hrf as [Hne _]. unfold segment_bank, registerBank in B, B'. rewrite Et in B.
  destruct (sg_domain s), (sg_domain s'); repeat case_match; simplify_eq; congruence.
Qed.

(** A function of segments, read through their identifiers. *)
Definition by_id (f : StorageSegment -> Z) (id : Z) : Z :=
  default 0 (f <$> find_if (fun s => sg_id s =? id) segments).

Lemma by_id_eq f s : s ∈ segments -> by_id f (sg_id s) = f s.
Proof using Hids. intros Hs. unfold by_id. by rewrite (find_if_unique sg_id (sg_id s) _ s). Qed.

(** ** Grouping *)

(** The bank table that [group_segments] leaves behind. *)
Definition bank_table (banks : gmap Z RegisterFileDesc) : Prop :=
  forall s, s ∈ segments -> banks !! sg_id s = Some (bank target s).

Lemma group_segments_spec todo : forall past banks groups,
  segments = past ++ todo -> (forall s, s ∈ past -> banks !! sg_id s = Some (bank target s)) ->
  grouped bank_key sg_id past groups ->
  (forall s, s ∈ past ->
     fixedRegisterSelfOverlaps s ii (rf_sameAddressReadWritePolicy (bank target s)) = false) ->
  (forall s, s ∈ segments -> rf_allocatableIndices (bank target s) <> []) ->
  match group_segments target q todo banks groups with
  | inl stop => stop_status stop = FixedRegisterSelfOverlap /\ exists s, s ∈ segments /\
      fixedRegisterSelfOverlaps s ii (rf_sameAddressReadWritePolicy (bank target s)) = true
  | inr (banks, groups) => bank_table banks /\ grouped bank_key sg_id segments groups /\
      forall s, s ∈ segments ->
        fixedRegisterSelfOverlaps s ii (rf_sameAddressReadWritePolicy (bank target s)) = false
  end.
Proof using Hids Hbanks.
  clear Hindex Hrf. induction todo as [|s todo IH]; intros past banks groups Hall Hb Hg Hself Huse; simpl.
  { rewrite app_nil_r in Hall. unfold bank_table. by rewrite Hall. }
  assert (Hs : s ∈ segments) by (rewrite Hall; set_solver).
  rewrite (bank_Some s Hs). rewrite bool_decide_eq_false_2 by (by apply Huse). fold ii.
  destruct (fixedRegisterSelfOverlaps s ii _) eqn:E; [split; [done|]; by exists s|].
  apply (IH (past ++ [s])); [by rewrite <- app_assoc| | |  |done].
  - intros x Hx. destruct (decide (sg_id x = sg_id s)) as [Ex|Hne].
    + rewrite Ex, lookup_insert_eq. assert (x = s) as ->; [|done].
      apply same_id; [|done|done]. rewrite Hall. set_solver.
    + rewrite lookup_insert_ne by done. apply Hb. apply elem_of_app in Hx as [Hx|Hx]; [done|].
      apply list_elem_of_singleton in Hx. by subst.
  - change (om_push (fun s0 => (sg_tile s0, rf_id (bank target s))) sg_id s groups)
      with (om_push bank_key sg_id s groups). by apply grouped_push.
  - intros x Hx. apply elem_of_app in Hx as [Hx|Hx]; [by apply Hself|].
    apply list_elem_of_singleton in Hx. by subst.
Qed.

(** ** Conflict graphs *)

Context (Hii : 0 < ii) (Hpos : forall s, s ∈ segments -> sg_writeTime s < sg_readTime s).

(** The segments of [l] conflict pairwise along the edges from [v] to [n]. *)
Definition conflict_edge (policy : SameAddressReadWritePolicy) (l : list StorageSegment)
    (v n : Z) : Prop :=
  exists s s', s ∈ l /\ s' ∈ l /\ s <> s' /\ sg_id s = v /\ sg_id s' = n /\
    periodicLifetimesConflict s s' ii policy = true.

Lemma conflict_row_spec policy s l : s ∈ segments -> l ⊆ segments ->
  forall graph edges, exists graph' edges',
    conflict_row q policy (sg_id s) (sg_id <$> l) graph edges = Ok (graph', edges') /\
    forall v n, (v, n) ∈ graph' <-> (v, n) ∈ graph \/
      exists s', s' ∈ l /\ periodicLifetimesConflict s s' ii policy = true /\
        ((v, n) = (sg_id s, sg_id s') \/ (v, n) = (sg_id s', sg_id s)).
Proof using Hids.
  clear Hindex Hrf Hbanks Hii Hpos. intros Hs.
  induction l as [|s' l IH]; intros Hsub graph edges; csimpl.
  { exists graph, edges. split; [done|]. set_solver. }
  rewrite (segment_of_id s Hs). csimpl. rewrite (segment_of_id s') by (apply Hsub; left). csimpl.
  assert (Hl : l ⊆ segments) by set_solver. fold ii.
  destruct (periodicLifetimesConflict s s' ii policy) eqn:E.
  - destruct (IH Hl ({[(sg_id s, sg_id s'); (sg_id s', sg_id s)]} ∪ graph) (edges + 1))
      as (g & e & -> & Hg). exists g, e. split; [done|]. intros v n. rewrite Hg. set_solver.
  - destruct (IH Hl graph edges) as (g & e & -> & Hg). exists g, e. split; [done|].
    intros v n. rewrite Hg. setoid_rewrite elem_of_cons. naive_solver congruence.
Qed.

Lemma conflict_graph_spec policy l : l ⊆ segments -> NoDup l ->
  forall graph edges, exists graph' edges',
    conflict_graph q policy (sg_id <$> l) graph edges = Ok (graph', edges') /\
    forall v n, (v, n) ∈ graph' <-> (v, n) ∈ graph \/ conflict_edge policy l v n.
Proof using Hids Hii.
  intros Hsub Hnd. revert Hsub.
  induction Hnd as [|s l Hn Hnd IH]; intros Hsub graph edges; csimpl.
  { exists graph, edges. split; [done|]. unfold conflict_edge. clear. set_solver. }
  assert (Hs : s ∈ segments) by (apply Hsub; left).
  assert (Hl : l ⊆ segments) by (intros x Hx; apply Hsub; by right).
  destruct (conflict_row_spec policy s l Hs Hl graph edges) as (g1 & e1 & -> & Hg1). csimpl.
  destruct (IH Hl g1 e1) as (g2 & e2 & -> & Hg2). exists g2, e2. split; [done|].
  intros v n. rewrite Hg2, Hg1. unfold conflict_edge. split.
  - intros [[H|(s' & Hs' & Hc & [[= -> ->]|[= -> ->]])]|(x & y & Hx & Hy & H)].
    + by left.
    + right. exists s, s'. split_and!; try done; [left|by right|congruence].
    + right. exists s', s. rewrite periodic_conflict_comm by done. split_and!; try done; [by right|left|congruence].
    + right. exists x, y. split_and!; try (by right); apply H.
  - intros [H|(x & y & Hx & Hy & Hne & <- & <- & Hc)]; [by left; left|].
    apply elem_of_cons in Hx as [->|Hx]; apply elem_of_cons in Hy as [->|Hy]; [done| | |].
    + left. right. exists y. split_and!; [done|done|by left].
    + left. right. exists x. rewrite periodic_conflict_comm by done. split_and!; [done|done|by right].
    + right. exists x, y. done.
Qed.

(** ** Colouring *)

Definition bank_segments (key : BankKey) : list StorageSegment :=
  filter (fun s => bank_key s = key) segments.

Definition colors_of (st : ColorState) (id : Z) : Z := default 0 (co_colors st !! id).

Lemma elem_of_bank_segments key s : s ∈ bank_segments key <-> bank_key s = key /\ s ∈ segments.
Proof using Type. unfold bank_segments. by rewrite list_elem_of_filter. Qed.

Lemma bank_segments_ids key : NoDup (sg_id <$> bank_segments key).
Proof using Hids.
  apply NoDup_fmap_2_strong; [|apply NoDup_filter, segments_NoDup].
  intros s s' Hs Hs'. apply elem_of_bank_segments in Hs as [_ Hs], Hs' as [_ Hs']. by apply same_id.
Qed.

Lemma same_group_bank s s' : s ∈ segments -> s' ∈ segments -> bank_key s = bank_key s' ->
  bank target s = bank target s'.
Proof using Hbanks Hrf. intros Hs Hs' [= Et Ei]. by apply bank_of_key. Qed.

(** The graph of one bank describes what its registers must satisfy. *)
Lemma coloring_solution key s graph c : s ∈ bank_segments key ->
  (forall v n, (v, n) ∈ graph <->
     conflict_edge (rf_sameAddressReadWritePolicy (bank target s)) (bank_segments key) v n) ->
  coloring (sg_id <$> bank_segments key) (linked graph) (rf_allocatableIndices (bank target s)) c <->
  color_solution [key] c.
Proof using Hbanks Hrf Hids.
  intros Hs Hg. apply elem_of_bank_segments in Hs as [Hk Hs].
  assert (Hbank : forall x, x ∈ segments -> bank_key x = key -> bank target x = bank target s).
  { intros x Hx Hkx. apply same_group_bank; congruence. }
  unfold linked. split.
  - intros [Hpal Hprop]. split.
    + intros x Hx Hkx. apply list_elem_of_singleton in Hkx. rewrite (Hbank x Hx Hkx). apply Hpal.
      apply list_elem_of_fmap_2, elem_of_bank_segments. done.
    + intros x y Hx Hy Hne Hkx Hkxy Hc. apply list_elem_of_singleton in Hkx.
      assert (x ∈ bank_segments key) by (by apply elem_of_bank_segments).
      assert (y ∈ bank_segments key) by (apply elem_of_bank_segments; split; congruence).
      apply Hprop; [by apply list_elem_of_fmap_2..|]. apply bool_decide_eq_true, Hg.
      rewrite (Hbank x Hx Hkx) in Hc. by exists x, y.
  - intros [Hpal Hprop]. split.
    + intros v Hv. apply list_elem_of_fmap in Hv as (x & -> & Hx).
      apply elem_of_bank_segments in Hx as [Hkx Hx]. rewrite <- (Hbank x Hx Hkx).
      apply Hpal; [done|]. by apply list_elem_of_singleton.
    + intros v n _ _ Hl. apply bool_decide_eq_true, Hg in Hl as (x & y & Hx & Hy & Hne & <- & <- & Hc).
      apply elem_of_bank_segments in Hx as [Hkx Hx], Hy as [Hky Hy].
      apply Hprop; [done|done|done|by apply list_elem_of_singleton|congruence|].
      by rewrite (Hbank x Hx Hkx).
Qed.

Lemma color_solution_cons key keys c :
  color_solution (key :: keys) c <-> color_solution [key] c /\ color_solution keys c.
Proof using Type.
  clear. split.
  - intros [H1 H2]. split; (split; [intros s Hs Hk; apply H1|intros s s' Hs Hs' Hne Hk; apply H2];
      try done; set_solver).
  - intros [[H1 H2] [H3 H4]]. split.
    + intros s Hs Hk. apply elem_of_cons in Hk as [E|Hk]; [apply H1|apply H3]; set_solver.
    + intros s s' Hs Hs' Hne Hk. apply elem_of_cons in Hk as [E|Hk]; [apply H2|apply H4]; set_solver.
Qed.

Lemma color_solution_ext keys c c' :
  (forall s, s ∈ segments -> bank_key s ∈ keys -> c (sg_id s) = c' (sg_id s)) ->
  color_solution keys c -> color_solution keys c'.
Proof using Type.
  clear. intros He [H1 H2]. split.
  - intros s Hs Hk. rewrite <- He by done. by apply H1.
  - intros s s' Hs Hs' Hne Hk Ekk Hc. rewrite <- !He by congruence. by apply H2.
Qed.

Lemma color_groups_spec budget banks groups : bank_table banks -> NoDup groups.*1 ->
  (forall key vs, (key, vs) ∈ groups -> vs = sg_id <$> bank_segments key /\ vs <> []) ->
  forall st edges maxRegisters,
  (forall s, s ∈ segments -> bank_key s ∈ groups.*1 -> co_colors st !! sg_id s = None) ->
  exists st' edges' maxRegisters' stop,
    color_groups q budget banks groups (st, edges, maxRegisters) =
      Ok (st', edges', maxRegisters', stop) /\
    match stop with
    | None => color_solution groups.*1 (colors_of st') /\
        (forall s, s ∈ segments -> bank_key s ∈ groups.*1 -> is_Some (co_colors st' !! sg_id s)) /\
        forall s, s ∈ segments -> bank_key s ∉ groups.*1 ->
          co_colors st' !! sg_id s = co_colors st !! sg_id s
    | Some stop =>
        (stop_status stop = BudgetExceeded /\ over_budget budget st') \/
        (stop_status stop = RegisterDepthInfeasible /\ forall c, ~ color_solution groups.*1 c)
    end.
Proof using Hids Hbanks Hrf Hii.
  clear Hindex Hpos. intros Hb. induction groups as [|[key vs] groups IH]; intros Hnd Hg st edges maxRegisters Hfresh.
  { exists st, edges, maxRegisters, None. split; [done|].
    split_and!; [split|..]; intros; try done; by set_solver. }
  rewrite fmap_cons in *. csimpl in *. apply NoDup_cons in Hnd as [Hkey Hnd].
  destruct (Hg key vs ltac:(left)) as [-> Hne].
  destruct (bank_segments key) as [|front rest] eqn:El; [done|]. rewrite <- El in *.
  assert (Hfront : front ∈ bank_segments key) by (rewrite El; left).
  assert (Hhead : head (sg_id <$> bank_segments key) = Some (sg_id front)) by (by rewrite El).
  rewrite Hhead. csimpl. clear El Hhead Hne.
  pose proof (proj1 (elem_of_bank_segments _ _) Hfront) as [Hkf Hsf].
  unfold bank_at. rewrite (Hb front Hsf). csimpl.
  destruct (conflict_graph_spec (rf_sameAddressReadWritePolicy (bank target front))
    (bank_segments key)) with (graph := ∅ : gset (Z * Z)) (edges := edges) as (graph & e1 & -> & Hgr).
  { intros x Hx. by apply elem_of_bank_segments in Hx as [_ Hx]. }
  { apply NoDup_filter, segments_NoDup. }
  csimpl.
  assert (Hgr' : forall v n, (v, n) ∈ graph <-> conflict_edge
    (rf_sameAddressReadWritePolicy (bank target front)) (bank_segments key) v n).
  { intros v n. rewrite Hgr. split; [by intros [?%not_elem_of_empty|?]|by right]. }
  destruct (color_group_exact (sg_id <$> bank_segments key) (linked graph)
    (rf_allocatableIndices (bank target front)) budget) with (st := st) as (outcome & -> & Hout).
  { intros v n. unfold linked. apply bool_decide_ext. rewrite !Hgr'. unfold conflict_edge.
    split; intros (x & y & Hx & Hy & Hxy & E1 & E2 & Hc); exists y, x;
      rewrite periodic_conflict_comm by done; split_and!; done. }
  { intros v. unfold linked. apply bool_decide_eq_false. rewrite Hgr'.
    intros (x & y & Hx & Hy & Hxy & E1 & E2 & Hc). apply elem_of_bank_segments in Hx as [_ Hx], Hy as [_ Hy].
    apply Hxy, same_id; congruence. }
  { apply bank_segments_ids. }
  { intros v Hv. apply list_elem_of_fmap in Hv as (x & -> & Hx).
    apply elem_of_bank_segments in Hx as [Hkx Hx]. apply Hfresh; [done|]. rewrite Hkx. left. }
  assert (Hother : forall s, s ∈ segments -> bank_key s <> key ->
    sg_id s ∉ sg_id <$> bank_segments key).
  { intros s Hs Hne Hin. apply list_elem_of_fmap in Hin as (x & Ex & Hx).
    apply elem_of_bank_segments in Hx as [Hkx Hx]. apply Hne. by rewrite (same_id s x Hs Hx Ex). }
  csimpl. destruct outcome as [st1|[v|] st1|st1].
  - destruct Hout as (Hpart & Hcomp & Hkept).
    change (@mapM result (@mbind result result_bind)) with (@mapM result result_bind).
    destruct (mapM_total (color_of st1) (sg_id <$> bank_segments key)) as [used ->].
    { intros v Hv. unfold color_of. destruct (Hcomp v Hv) as [c ->]. by exists c. }
    destruct (IH Hnd (fun k vs H => Hg k vs (list_elem_of_further _ _ _ H)) st1 e1
      (Z.max maxRegisters (Z.of_nat (size (list_to_set used : gset Z)))))
      as (st2 & e2 & m2 & stop & Heq & Hres).
    { intros s Hs Hk. rewrite Hkept; [apply Hfresh; [done|by right]|]. apply Hother; [done|].
      intros E. by rewrite E in Hk. }
    exists st2, e2, m2, stop. split; [exact Heq|]. destruct stop as [stop|].
    + destruct Hres as [Hres|[Hs Hno]]; [by left|right]. split; [done|]. intros c Hc.
      apply color_solution_cons in Hc as [_ Hc]. by apply (Hno c).
    + destruct Hres as (Hsol & Hsome & Hun).
      assert (Hsame : forall s, s ∈ segments -> bank_key s = key ->
        co_colors st2 !! sg_id s = co_colors st1 !! sg_id s).
      { intros s Hs Ek. apply Hun; [done|]. by rewrite Ek. }
      assert (Hin : forall s, s ∈ segments -> bank_key s = key -> sg_id s ∈ sg_id <$> bank_segments key).
      { intros s Hs Ek. by apply list_elem_of_fmap_2, elem_of_bank_segments. }
      split_and!.
      * apply color_solution_cons. split; [|done].
        apply (color_solution_ext _ (colors_of st1)).
        { intros s Hs Ek. apply list_elem_of_singleton in Ek. unfold colors_of. by rewrite Hsame. }
        apply (coloring_solution key front graph); [done|exact Hgr'|]. unfold colors_of. split.
        -- intros v Hv. destruct (Hcomp v Hv) as [c Ec]. rewrite Ec. by apply (pt_palette _ _ _ _ Hpart v).
        -- intros v n Hv Hn Hl. destruct (Hcomp v Hv) as [c Ec], (Hcomp n Hn) as [c' Ec'].
           rewrite Ec, Ec'. simpl. intros ->. by apply (pt_proper _ _ _ _ Hpart v n c').
      * intros s Hs Hk. apply elem_of_cons in Hk as [Ek|Hk]; [|by apply Hsome].
        rewrite Hsame by done. by apply Hcomp, Hin.
      * intros s Hs Hk. apply not_elem_of_cons in Hk as [Hk1 Hk2].
        rewrite Hun by done. by apply Hkept, Hother.
  - destruct Hout as [Hout Hv]. specialize (Hv v eq_refl).
    apply list_elem_of_fmap in Hv as (x & -> & Hx). apply elem_of_bank_segments in Hx as [_ Hx].
    rewrite (segment_of_id x Hx). csimpl. do 4 eexists. split; [done|]. by left.
  - do 4 eexists. split; [done|]. left. by destruct Hout.
  - do 4 eexists. split; [done|]. right. split; [done|]. intros c Hc.
    apply color_solution_cons in Hc as [Hc _]. apply (Hout c).
    by apply (coloring_solution key front graph).
Qed.

(** ** Ports *)

Definition access_segments (access : StorageSegment -> option Z) (key : PortKey)
  : list StorageSegment :=
  filter (fun s => access_at access s = Some key) segments.

Lemma elem_of_access_segments access key s :
  s ∈ access_segments access key <-> access_at access s = Some key /\ s ∈ segments.
Proof using Type. unfold access_segments. by rewrite list_elem_of_filter. Qed.

Lemma access_segments_ids access key : NoDup (sg_id <$> access_segments access key).
Proof using Hids.
  apply NoDup_fmap_2_strong; [|apply NoDup_filter, segments_NoDup].
  intros s s' Hs Hs'. apply elem_of_access_segments in Hs as [_ Hs], Hs' as [_ Hs']. by apply same_id.
Qed.

Lemma access_bank access key s s' :
  s ∈ access_segments access key -> s' ∈ access_segments access key -> bank target s = bank target s'.
Proof using Hbanks Hrf.
  intros Hs Hs'. apply elem_of_access_segments in Hs as [Ek Hs], Hs' as [Ek' Hs'].
  unfold access_at in Ek, Ek'. apply fmap_Some in Ek as (t & _ & ->).
  apply fmap_Some in Ek' as (t' & _ & [= Et Ei _]). by apply bank_of_key.
Qed.

(** An entry per occurring key, with the segments of that key. *)
Record events_of (access : StorageSegment -> option Z) (events : list (PortKey * list Z)) : Prop := {
  ev_keys : NoDup events.*1;
  ev_ids : forall key ids, (key, ids) ∈ events ->
    ids = sg_id <$> access_segments access key /\ ids <> [];
  ev_all : forall s key, s ∈ segments -> access_at access s = Some key -> key ∈ events.*1
}.

(** The grouping key of a segment with an access. *)
Definition event_key (access : StorageSegment -> option Z) (s : StorageSegment) : PortKey :=
  default (sg_tile s, ""%string, 0) (access_at access s).

Lemma port_events_grouped banks access acc : bank_table banks ->
  (forall s, s ∈ segments -> access s = Ok (acc s)) ->
  forall todo past events, todo ⊆ segments ->
  grouped (event_key acc) sg_id (filter (fun s => is_Some (acc s)) past) events ->
  exists events', port_events q banks access todo events = Ok events' /\
    grouped (event_key acc) sg_id (filter (fun s => is_Some (acc s)) (past ++ todo)) events'.
Proof using Type.
  clear Hids Hindex Hbanks Hrf Hii Hpos. intros Hb Hacc todo.
  induction todo as [|s todo IH]; intros past events Hsub Hg; simpl.
  { exists events. by rewrite app_nil_r. }
  assert (Hs : s ∈ segments) by (apply Hsub; left).
  assert (Hrest : todo ⊆ segments) by (intros x Hx; apply Hsub; by right).
  rewrite (Hacc s Hs). rewrite cons_middle, app_assoc. csimpl. destruct (acc s) as [t|] eqn:Et.
  - unfold bank_at. rewrite (Hb s Hs). csimpl. apply IH; [done|]. rewrite filter_app.
    rewrite filter_cons_True by (by rewrite Et). rewrite filter_nil.
    assert (Hk : port_key q s (bank target s) t = event_key acc s)
      by (unfold event_key, access_at; by rewrite Et).
    replace (om_push (fun s0 => port_key q s0 (bank target s) t) sg_id s events)
      with (om_push (event_key acc) sg_id s events) by (unfold om_push; by rewrite Hk).
    by apply grouped_push.
  - apply IH; [done|]. rewrite filter_app. rewrite filter_cons_False by (rewrite Et; by intros []).
    by rewrite filter_nil, app_nil_r.
Qed.

Lemma port_events_spec banks access acc : bank_table banks ->
  (forall s, s ∈ segments -> access s = Ok (acc s)) ->
  exists events, port_events q banks access segments [] = Ok events /\ events_of acc events.
Proof using Type.
  clear Hids Hindex Hbanks Hrf Hii Hpos. intros Hb Hacc.
  destruct (port_events_grouped banks access acc Hb Hacc segments [] []) as (events & Heq & Hg).
  { done. }
  { apply grouped_nil. }
  exists events. split; [done|]. simpl in Hg.
  assert (Hkey : forall s key, access_at acc s = Some key <-> is_Some (acc s) /\ event_key acc s = key).
  { intros s key. unfold event_key, access_at. destruct (acc s); simpl; [|by split; [|intros [[] _]]].
    split; [intros [= <-]; by split; [eexists|]|by intros [_ <-]]. }
  split.
  - by apply (grouped_keys _ _ _ _ Hg).
  - intros key ids Hin. apply Hg in Hin as [-> Hne]. split; [|done]. f_equal.
    unfold access_segments. rewrite list_filter_filter. apply list_filter_ext_in. intros s _.
    rewrite Hkey. tauto.
  - intros s key Hs Hk. apply Hkey in Hk as [Hsome <-]. apply (grouped_key (event_key acc) sg_id _ _ s Hg).
    by apply list_elem_of_filter.
Qed.

Definition accepts_id (accepts : StorageSegment -> Z -> bool) (id port : Z) : bool :=
  match rq_segment q id with Ok s => accepts s port | Throw _ => false end.

(** The ports of one access key are a matching of its segments. *)
Lemma matching_solution count accepts access key s port : s ∈ access_segments access key ->
  port_assignment (count (bank target s)) (accepts_id accepts)
    (sg_id <$> access_segments access key) port <->
  port_solution count accepts access [key] port.
Proof using Hids Hbanks Hrf.
  clear Hindex Hii Hpos. intros Hs. split.
  - intros [H1 H2]. split.
    + intros x k Hx Hk Hin. apply list_elem_of_singleton in Hin as ->.
      assert (Hx' : x ∈ access_segments access key) by (by apply elem_of_access_segments).
      rewrite <- (access_bank access key s x Hs Hx').
      destruct (H1 (sg_id x)) as [Hr Ha]; [by apply list_elem_of_fmap_2|]. split; [done|].
      unfold accepts_id in Ha. by rewrite segment_of_id in Ha.
    + intros x y k Hx Hy Hkx Hky Hin Ep. apply list_elem_of_singleton in Hin as ->.
      apply same_id; [done|done|].
      apply H2; [by apply list_elem_of_fmap_2, elem_of_access_segments..|done].
  - intros [H1 H2]. split.
    + intros id Hid. apply list_elem_of_fmap in Hid as (x & -> & Hx).
      rewrite (access_bank access key s x Hs Hx). apply elem_of_access_segments in Hx as [Hk Hx].
      destruct (H1 x key Hx Hk ltac:(left)) as [Hr Ha]. split; [done|].
      unfold accepts_id. by rewrite segment_of_id.
    + intros id id' Hid Hid' Ep. apply list_elem_of_fmap in Hid as (x & -> & Hx).
      apply list_elem_of_fmap in Hid' as (y & -> & Hy).
      apply elem_of_access_segments in Hx as [Hk Hx], Hy as [Hk' Hy].
      by rewrite (H2 x y key Hx Hy Hk Hk' ltac:(left) Ep).
Qed.

Lemma port_solution_cons count accepts access key keys port :
  port_solution count accepts access (key :: keys) port <->
  port_solution count accepts access [key] port /\ port_solution count accepts access keys port.
Proof using Type.
  clear. split.
  - intros [H1 H2]. split; (split; [intros s k Hs Hk Hin|intros s s' k Hs Hs' Hk Hk' Hin]);
      try (apply H1 with k); try (apply H2 with k); try done; set_solver.
  - intros [[H1 H2] [H3 H4]]. split.
    + intros s k Hs Hk Hin. apply elem_of_cons in Hin as [->|Hin]; [apply (H1 s key)|apply (H3 s k)];
        try done. left.
    + intros s s' k Hs Hs' Hk Hk' Hin. apply elem_of_cons in Hin as [->|Hin];
        [apply (H2 s s' key)|apply (H4 s s' k)]; try done. left.
Qed.

Lemma port_solution_ext count accepts access keys port port' :
  (forall s key, s ∈ segments -> access_at access s = Some key -> key ∈ keys ->
     port (sg_id s) = port' (sg_id s)) ->
  port_solution count accepts access keys port -> port_solution count accepts access keys port'.
Proof using Type.
  clear. intros He [H1 H2]. split.
  - intros s k Hs Hk Hin. rewrite <- (He s k) by done. by apply (H1 s k).
  - intros s s' k Hs Hs' Hk Hk' Hin. rewrite <- (He s k), <- (He s' k) by done.
    by apply (H2 s s' k).
Qed.

(** The allocation of [s] after the ports for [keys] have been stored. *)
Definition placed (kind : PortKind) (access : StorageSegment -> option Z) (keys : list PortKey)
    (port : Z -> Z) (A : StorageSegment -> StorageAllocation) (s : StorageSegment)
  : StorageAllocation :=
  match access_at access s with
  | Some key => if decide (key ∈ keys) then pk_store kind (port (sg_id s)) (A s) else A s
  | None => A s
  end.

Lemma store_ports_placed kind access key count matched port A :
  (forall p id, matched !! p = Some id <->
     id ∈ sg_id <$> access_segments access key /\ port id = p) ->
  (forall s, s ∈ access_segments access key -> 0 <= port (sg_id s) < count) ->
  store_ports kind count matched (A <$> segments) = placed kind access [key] port A <$> segments.
Proof using Hindex Hids.
  intros Hm Hr.
  assert (Hnat : forall p id, matched !! p = Some id -> 0 <= id).
  { intros p id E. apply Hm in E as [Hin _]. apply list_elem_of_fmap in Hin as (x & -> & Hx).
    apply elem_of_access_segments in Hx as [_ Hx]. apply list_elem_of_lookup in Hx as [i Hi].
    rewrite (Hindex i x Hi). lia. }
  assert (Hid : forall i s, segments !! i = Some s -> s ∈ segments /\ nat_of (sg_id s) = i).
  { intros i s Hi. rewrite (Hindex i s Hi), Nat2Z.id. split; [|done]. by eapply list_elem_of_lookup_2. }
  apply list_eq. intros i. rewrite list_lookup_fmap. unfold store_ports.
  destruct (segments !! i) as [s|] eqn:Ei; simpl.
  - destruct (Hid i s Ei) as [Hs <-]. assert (Hpos0 : 0 <= sg_id s) by (rewrite (Hindex _ _ Ei); lia).
    unfold placed. destruct (decide (access_at access s = Some key)) as [Ek|Ek].
    + rewrite Ek, decide_True by (by left).
      assert (Hin : s ∈ access_segments access key) by (by apply elem_of_access_segments).
      rewrite (store_own kind matched Hnat) with (port := port (sg_id s)).
      * by rewrite list_lookup_fmap, Ei.
      * apply NoDup_range.
      * apply elem_of_range. by apply Hr.
      * done.
      * apply Hm. split; [by apply list_elem_of_fmap_2|done].
      * intros p Hp. by apply Hm in Hp as [_ <-].
    + rewrite (store_other kind matched Hnat) by (try done; intros p _ E; apply Hm in E as [Hin _];
        apply list_elem_of_fmap in Hin as (x & Ex & Hx); apply elem_of_access_segments in Hx as [Hk Hx];
        by rewrite (same_id s x Hs Hx Ex) in Ek).
      rewrite list_lookup_fmap, Ei. simpl. f_equal. destruct (access_at access s) as [k|]; [|done].
      rewrite decide_False; [done|]. intros Hin. apply list_elem_of_singleton in Hin. congruence.
  - rewrite <- (Nat2Z.id i). rewrite (store_other kind matched Hnat); [|lia|].
    + by rewrite list_lookup_fmap, Nat2Z.id, Ei.
    + intros p _ E. apply Hm in E as [Hin _]. apply list_elem_of_fmap in Hin as (x & Ex & Hx).
      apply elem_of_access_segments in Hx as [_ Hx]. apply list_elem_of_lookup in Hx as [j Hj].
      rewrite (Hindex j x Hj) in Ex. apply Nat2Z.inj in Ex. subst j. congruence.
Qed.

Lemma placed_cons kind access key keys port port1 A : key ∉ keys ->
  (forall s, s ∈ access_segments access key -> port (sg_id s) = port1 (sg_id s)) ->
  forall s, s ∈ segments ->
  placed kind access keys port (placed kind access [key] port1 A) s =
  placed kind access (key :: keys) port A s.
Proof using Type.
  intros Hn He s Hs. unfold placed. destruct (access_at access s) as [k|] eqn:Ek; [|done].
  destruct (decide (k = key)) as [->|Hne].
  - rewrite (decide_False (P := key ∈ keys)) by done. rewrite !decide_True by (by left).
    rewrite He; [done|]. by apply elem_of_access_segments.
  - rewrite (decide_False (P := k ∈ [key])) by (intros Hin; by apply list_elem_of_singleton in Hin).
    apply decide_ext. rewrite elem_of_cons. tauto.
Qed.

Section Assign.
Context (kind : PortKind) (access : StorageSegment -> option Z).
Context (accepts : StorageSegment -> Z -> bool).
Context (Hcand : forall s, s ∈ segments -> is_Some (access s) -> forall port,
  pk_candidate kind (bank target s) s port = Ok (accepts s port)).

(** One call of the matching, for the segments of one key. *)
Lemma match_key_spec key front : front ∈ access_segments access key ->
  exists r, match_all (pk_count kind (bank target front))
    (fun id port => s ← rq_segment q id; pk_candidate kind (bank target front) s port)
    (sort_by id (sg_id <$> access_segments access key)) ∅ = Ok r /\
  match r with
  | inl id => (exists s, s ∈ segments /\ id = sg_id s) /\
      forall port, ~ port_solution (pk_count kind) accepts access [key] port
  | inr matched => exists port, port_solution (pk_count kind) accepts access [key] port /\
      forall A, store_ports kind (pk_count kind (bank target front)) matched (A <$> segments) =
        placed kind access [key] port A <$> segments
  end.
Proof using Hids Hindex Hbanks Hrf Hcand.
  clear Hpos Hii. intros Hfront. pose proof (elem_of_sort_by id (sg_id <$> access_segments access key)) as Hmem.
  destruct (match_group_exact (pk_count kind (bank target front))
    (fun id port => s ← rq_segment q id; pk_candidate kind (bank target front) s port)
    (accepts_id accepts) (sort_by id (sg_id <$> access_segments access key))) as (r & Hr & Hpost).
  { rewrite (sort_by_perm id). apply access_segments_ids. }
  { intros id p Hid _. apply Hmem, list_elem_of_fmap in Hid as (x & -> & Hx).
    rewrite (access_bank access key front x Hfront Hx).
    apply elem_of_access_segments in Hx as [Hkx Hx]. unfold accepts_id.
    rewrite (segment_of_id x Hx). csimpl. apply Hcand; [done|].
    unfold access_at in Hkx. apply fmap_Some in Hkx as (t & -> & _). by eexists. }
  assert (Hperm : forall port, port_assignment (pk_count kind (bank target front)) (accepts_id accepts)
    (sort_by id (sg_id <$> access_segments access key)) port <->
    port_solution (pk_count kind) accepts access [key] port).
  { intros port. rewrite <- (matching_solution _ _ _ _ _ _ Hfront). unfold port_assignment.
    by setoid_rewrite Hmem. }
  exists r. split; [exact Hr|]. destruct r as [id|matched].
  - destruct Hpost as [Hid Hno]. apply Hmem, list_elem_of_fmap in Hid as (x & -> & Hx).
    apply elem_of_access_segments in Hx as [_ Hx]. split; [by exists x|].
    intros port Hp. by apply (Hno port), Hperm.
  - destruct Hpost as (port & Hsol & Hm). apply Hperm in Hsol. exists port. split; [done|]. intros A.
    apply store_ports_placed; [intros p id; by rewrite Hm, Hmem|].
    intros s Hs. rewrite (access_bank access key front s Hfront Hs).
    apply elem_of_access_segments in Hs as [Hk Hs]. by apply (ps_port _ _ _ _ _ Hsol s key); [..|left].
Qed.

(** Solutions for one key and for others fit together. *)
Lemma port_solutions_merge key keys port1 port2 : key ∉ keys ->
  port_solution (pk_count kind) accepts access [key] port1 ->
  port_solution (pk_count kind) accepts access keys port2 ->
  exists port, port_solution (pk_count kind) accepts access (key :: keys) port /\
    forall A, placed kind access keys port2 (placed kind access [key] port1 A) <$> segments =
      placed kind access (key :: keys) port A <$> segments.
Proof using Hids.
  clear Hindex Hbanks Hrf Hii Hpos Hcand. intros Hkey Hsol1 Hsol2.
  set (port := fun id => if decide (id ∈ sg_id <$> access_segments access key)
                         then port1 id else port2 id).
  assert (E1 : forall s, s ∈ access_segments access key -> port (sg_id s) = port1 (sg_id s)).
  { intros s Hs. unfold port. by rewrite decide_True by (by apply list_elem_of_fmap_2). }
  assert (E2 : forall s k, s ∈ segments -> access_at access s = Some k -> k ∈ keys ->
    port (sg_id s) = port2 (sg_id s)).
  { intros s k Hs Hk Hin. unfold port. rewrite decide_False; [done|]. intros Hid.
    apply list_elem_of_fmap in Hid as (x & Ex & Hx).
    apply elem_of_access_segments in Hx as [Hkx Hx]. rewrite (same_id s x Hs Hx Ex) in Hk. congruence. }
  exists port. split.
  - apply port_solution_cons. split.
    + apply (port_solution_ext _ _ _ _ port1); [|done]. intros s k Hs Hk Hin.
      apply list_elem_of_singleton in Hin as ->. symmetry. by apply E1, elem_of_access_segments.
    + apply (port_solution_ext _ _ _ _ port2); [|done]. intros s k Hs Hk Hin. symmetry. by apply (E2 s k).
  - intros A. apply list_fmap_ext. intros i s Hi. apply list_elem_of_lookup_2 in Hi as Hs.
    rewrite <- (placed_cons kind access key keys port port1 A Hkey E1 s Hs).
    unfold placed at 1 3. destruct (access_at access s) as [k|] eqn:Ek; [|done].
    destruct (decide (k ∈ keys)) as [Hin|]; [|done]. by rewrite (E2 s k).
Qed.

Lemma assign_ports_spec banks events : bank_table banks -> NoDup events.*1 ->
  (forall key ids, (key, ids) ∈ events -> ids = sg_id <$> access_segments access key /\ ids <> []) ->
  forall A, exists allocations stop,
    assign_ports q kind banks events (A <$> segments) = Ok (allocations, stop) /\
    match stop with
    | None => exists port, port_solution (pk_count kind) accepts access events.*1 port /\
        allocations = placed kind access events.*1 port A <$> segments
    | Some stop => stop_status stop = pk_status kind /\
        forall port, ~ port_solution (pk_count kind) accepts access events.*1 port
    end.
Proof using Hids Hindex Hbanks Hrf Hcand.
  clear Hpos Hii. intros Hb. induction events as [|[key ids] events IH]; intros Hnd Hev A.
  { exists (A <$> segments), None. split; [done|]. exists (fun _ => 0). split.
    - split; intros; exfalso; by eapply not_elem_of_nil.
    - apply list_fmap_ext. intros i s _. unfold placed. by destruct (access_at access s). }
  rewrite fmap_cons in *. csimpl in *. apply NoDup_cons in Hnd as [Hkey Hnd].
  destruct (Hev key ids ltac:(left)) as [-> Hne].
  destruct (access_segments access key) as [|front rest] eqn:El; [done|]. rewrite <- El in *.
  assert (Hfront : front ∈ access_segments access key) by (rewrite El; left).
  assert (Hhead : head (sg_id <$> access_segments access key) = Some (sg_id front)) by (by rewrite El).
  rewrite Hhead. csimpl. clear El Hhead Hne.
  pose proof (proj1 (elem_of_access_segments _ _ _) Hfront) as [_ Hsf].
  unfold bank_at. rewrite (Hb front Hsf). csimpl.
  destruct (match_key_spec key front Hfront) as (r & Hr & Hpost). rewrite Hr. csimpl.
  destruct r as [id|matched].
  - destruct Hpost as [(x & Hx & ->) Hno]. rewrite (segment_of_id x Hx). csimpl.
    do 2 eexists. split; [done|]. split; [done|]. intros port Hp.
    apply port_solution_cons in Hp as [Hp _]. by apply (Hno port).
  - destruct Hpost as (port1 & Hsol1 & Hst). rewrite Hst.
    destruct (IH Hnd (fun k vs H => Hev k vs (list_elem_of_further _ _ _ H))
      (placed kind access [key] port1 A)) as (allocations & stop & -> & Hres).
    do 2 eexists. split; [done|]. destruct stop as [stop|].
    + destruct Hres as [Hs Hno]. split; [done|]. intros port Hp.
      apply port_solution_cons in Hp as [_ Hp]. by apply (Hno port).
    + destruct Hres as (port2 & Hsol2 & ->).
      destruct (port_solutions_merge key events.*1 port1 port2 Hkey Hsol1 Hsol2) as (port & Hsol & Heq).
      exists port. split; [done|]. apply Heq.
Qed.
End Assign.

(** ** Port demand *)

Definition write_time (s : StorageSegment) : option Z := Some (sg_writeTime s).
Definition read_time (s : StorageSegment) : option Z := Some (sg_readTime s).

Lemma demand_bounded count accepts access key s port : s ∈ access_segments access key ->
  port_solution count accepts access [key] port ->
  Z.of_nat (length (access_segments access key)) <= count (bank target s).
Proof using Hids Hbanks Hrf.
  clear Hindex Hii Hpos. intros Hs Hsol.
  assert (Hone : forall x, x ∈ access_segments access key -> 0 <= port (sg_id x) < count (bank target s)).
  { intros x Hx. rewrite (access_bank access key s x Hs Hx).
    apply elem_of_access_segments in Hx as [Hk Hx]. by apply (ps_port _ _ _ _ _ Hsol x key); [..|left]. }
  rewrite <- (length_fmap (fun x => port (sg_id x))).
  etransitivity; [apply (pigeonhole_range _ (count (bank target s)))|].
  - apply NoDup_fmap_2_strong; [|apply NoDup_filter, segments_NoDup]. intros x y Hx Hy E.
    apply elem_of_access_segments in Hx as [Hkx Hx], Hy as [Hky Hy].
    by apply (ps_exclusive _ _ _ _ _ Hsol x y key); [..|left|].
  - intros z Hz. apply list_elem_of_fmap in Hz as (x & -> & Hx). by apply Hone.
  - specialize (Hone s Hs). lia.
Qed.

(** [counts] holds, per key, how many segments of [past] access it. *)
Definition counts_accesses (access : StorageSegment -> option Z) (past : list StorageSegment)
    (counts : gmap PortKey Z) : Prop :=
  forall key, counted key counts =
    Z.of_nat (length (filter (fun s => access_at access s = Some key) past)).

Lemma counts_accesses_step access past counts s key : counts_accesses access past counts ->
  access_at access s = Some key ->
  counts_accesses access (past ++ [s]) (<[key := counted key counts + 1]> counts).
Proof using Type.
  clear. intros Hc Hk key'. unfold counted at 1. rewrite filter_app, filter_cons, filter_nil, length_app.
  rewrite Hk. destruct (decide (key = key')) as [->|Hne].
  - rewrite lookup_insert_eq, decide_True by done. simpl. rewrite Hc. lia.
  - rewrite lookup_insert_ne, decide_False by congruence. simpl. fold (counted key' counts).
    rewrite Hc. lia.
Qed.

Lemma counts_within access past todo counts key : segments = past ++ todo ->
  counts_accesses access past counts ->
  counted key counts <= Z.of_nat (length (access_segments access key)).
Proof using Type.
  clear. intros Hall Hc. rewrite Hc. unfold access_segments. rewrite Hall, filter_app, length_app. lia.
Qed.

Lemma port_demand_spec banks : bank_table banks ->
  forall todo past reads writes maxReads maxWrites, segments = past ++ todo ->
  counts_accesses read_time past reads -> counts_accesses write_time past writes ->
  exists maxReads' maxWrites' stop,
    port_demand q banks todo reads writes maxReads maxWrites = Ok (maxReads', maxWrites', stop) /\
    match stop with
    | None => True
    | Some stop => exists key,
        (stop_status stop = WritePortConflict /\
           forall accepts port, ~ port_solution rf_writePorts accepts write_time [key] port) \/
        (stop_status stop = ReadPortConflict /\
           forall accepts port, ~ port_solution rf_readPorts accepts read_time [key] port)
    end.
Proof using Hids Hbanks Hrf.
  clear Hindex Hii Hpos. intros Hb todo.
  induction todo as [|s todo IH]; intros past reads writes mr mw Hall Hr Hw; simpl; [by do 3 eexists|].
  assert (Hs : s ∈ segments) by (rewrite Hall; apply elem_of_app; right; left).
  assert (Hall' : segments = (past ++ [s]) ++ todo) by (by rewrite <- app_assoc).
  unfold bank_at. rewrite (Hb s Hs). csimpl.
  pose proof (counts_accesses_step _ _ _ s (port_key q s (bank target s) (sg_readTime s)) Hr eq_refl) as Hr'.
  pose proof (counts_accesses_step _ _ _ s (port_key q s (bank target s) (sg_writeTime s)) Hw eq_refl) as Hw'.
  assert (Hover : forall access counts key count accepts port,
    counts_accesses access (past ++ [s]) counts -> access_at access s = Some key ->
    count (bank target s) < counted key counts -> ~ port_solution count accepts access [key] port).
  { intros access counts key count accepts port Hc Hk Hlt Hsol.
    pose proof (counts_within access _ _ counts key Hall' Hc).
    assert (Hin : s ∈ access_segments access key) by (by apply elem_of_access_segments).
    pose proof (demand_bounded count accepts access key s port Hin Hsol). lia. }
  destruct (Z.ltb_spec (rf_writePorts (bank target s)) (counted
    (port_key q s (bank target s) (sg_writeTime s)) (<[port_key q s (bank target s) (sg_writeTime s) :=
      counted (port_key q s (bank target s) (sg_writeTime s)) writes + 1]> writes))) as [Hlt|_].
  { do 3 eexists. split; [done|]. eexists. left. split; [done|]. intros accepts port.
    by apply (Hover _ _ _ _ _ _ Hw' eq_refl). }
  destruct (Z.ltb_spec (rf_readPorts (bank target s)) (counted
    (port_key q s (bank target s) (sg_readTime s)) (<[port_key q s (bank target s) (sg_readTime s) :=
      counted (port_key q s (bank target s) (sg_readTime s)) reads + 1]> reads))) as [Hlt|_].
  { do 3 eexists. split; [done|]. eexists. right. split; [done|]. intros accepts port.
    by apply (Hover _ _ _ _ _ _ Hr' eq_refl). }
  by apply (IH (past ++ [s])).
Qed.
End Solutions.

(** ** Complete allocations *)

(** An allocation of [staged] that passes the verifier and whose prologue writes
    do not share a port in a cycle either. *)
Record complete_allocation (dfg : TargetDFG) (target : TargetModel) (staged : StagedMapping)
    (m : RFAllocatedMapping) : Prop := {
  ca_staged : ra_staged m = staged;
  ca_typed : typed_allocations m;
  ca_boundary_typed : forall a port, a ∈ ra_allocations m -> sl_boundaryWritePort a = Some port ->
    0 <= port;
  ca_valid : valid_allocation dfg target m;
  ca_boundary_ports : forall s s' a a' bank bank' port,
    serves target m s a bank -> serves target m s' a' bank' ->
    sl_boundaryWritePort a = Some port -> sl_boundaryWritePort a' = Some port ->
    access_key m s a (boundary_time (ra_requirements m) s) =
      access_key m s' a' (boundary_time (ra_requirements m) s') -> s = s'
}.

Section Complete.
Context (dfg : TargetDFG) (target : TargetModel) (staged : StagedMapping) (q : StorageRequirements).

Let segments := rq_segments q.
Let ii := rq_ii q.

Context (Hids : NoDup (sg_id <$> segments)).
Context (Hbanks : forall s, s ∈ segments -> is_Some (segment_bank target s)).
Context (Hrf : register_files_wf target).
Context (Hii : 0 < ii).
Context (Hpos : forall s, s ∈ segments -> sg_writeTime s < sg_readTime s).
Context (wsrc bsrc : StorageSegment -> string).
Context (Hwsrc : forall s, s ∈ segments -> storageWriteSource dfg target staged s = Ok (wsrc s)).
Context (Hbsrc : forall s, s ∈ segments -> boundaryWriteSource dfg s = Ok (bsrc s)).

Definition boundary_write_time (s : StorageSegment) : option Z :=
  if String.eqb (bsrc s) "" then None else Some (boundary_time q s).

Definition accepts_read (_ : StorageSegment) (_ : Z) : bool := true.
Definition accepts_write (s : StorageSegment) (port : Z) : bool :=
  port_accepts (bank target s) port (wsrc s).
Definition accepts_boundary (s : StorageSegment) (port : Z) : bool :=
  port_accepts (bank target s) port (bsrc s).

(** Registers and ports for every segment. *)
Record solution (c rp wp bp : Z -> Z) : Prop := {
  so_colors : forall keys, color_solution target q keys c;
  so_alone : forall s, s ∈ segments ->
    fixedRegisterSelfOverlaps s ii (rf_sameAddressReadWritePolicy (bank target s)) = false;
  so_reads : forall keys, port_solution target q rf_readPorts accepts_read read_time keys rp;
  so_writes : forall keys, port_solution target q rf_writePorts accepts_write write_time keys wp;
  so_boundaries : forall keys,
    port_solution target q rf_writePorts accepts_boundary boundary_write_time keys bp
}.

(** *** From an allocation to a solution *)

Section Project.
Context (m : RFAllocatedMapping) (Hm : complete_allocation dfg target staged m).
Context (Hmq : ra_requirements m = q).

Lemma complete_serves s : s ∈ segments -> serves target m s (alloc m s) (bank target s) /\
  register_valid s (alloc m s) (bank target s) /\
  ports_valid dfg target m s (alloc m s) (bank target s).
Proof using Hm Hmq.
  intros Hs. unfold segments in Hs. rewrite <- Hmq in Hs.
  destruct (va_each _ _ _ (ca_valid _ _ _ _ Hm) s Hs) as (a & b & Hsv & Hreg & Hpv).
  pose proof Hsv as (_ & Ea & Eb).
  assert (alloc m s = a) as -> by (unfold alloc; by rewrite Ea).
  assert (bank target s = b) as -> by (unfold bank; by rewrite Eb). done.
Qed.

Lemma complete_allocated s : s ∈ segments -> alloc m s ∈ ra_allocations m.
Proof using Hm Hmq.
  intros Hs. destruct (complete_serves s Hs) as ((_ & Ea & _) & _).
  unfold allocation_of in Ea. by apply find_if_elem in Ea.
Qed.

Lemma complete_key s time : s ∈ segments ->
  access_key m s (alloc m s) time = port_key q s (bank target s) time.
Proof using Hm Hmq.
  intros Hs. destruct (complete_serves s Hs) as (_ & (_ & Eb & _) & _).
  unfold access_key, port_key, slot. by rewrite Eb, Hmq.
Qed.

Lemma complete_apart s s' k k' : s ∈ segments -> s' ∈ segments ->
  sl_reg (alloc m s) = sl_reg (alloc m s') -> 0 <= k -> 0 <= k' -> (s, k) <> (s', k') ->
  ~ copies_meet (rf_sameAddressReadWritePolicy (bank target s)) ii s s' k k'.
Proof using Hm Hmq.
  intros Hs Hs' Er Hk Hk' Hne. destruct (complete_serves s Hs) as (Hsv & _).
  destruct (complete_serves s' Hs') as (Hsv' & _). unfold ii. rewrite <- Hmq.
  by apply (va_lives _ _ _ (ca_valid _ _ _ _ Hm) s s' _ _ _ _ k k' Hsv Hsv').
Qed.

Lemma complete_colors keys :
  color_solution target q keys (by_id q (fun s => pr_index (sl_reg (alloc m s)))).
Proof using Hids Hm Hmq Hii Hpos.
  split.
  - intros s Hs _. rewrite by_id_eq by done. by destruct (complete_serves s Hs) as (_ & (_ & _ & H) & _).
  - intros s s' Hs Hs' Hne _ [= Et Ei] Hc Ec. rewrite !by_id_eq in Ec by done.
    destruct (complete_serves s Hs) as (_ & (Ht & Hb & _) & _).
    destruct (complete_serves s' Hs') as (_ & (Ht' & Hb' & _) & _).
    assert (Er : sl_reg (alloc m s) = sl_reg (alloc m s')).
    { destruct (sl_reg (alloc m s)), (sl_reg (alloc m s')). simpl in *. congruence. }
    apply periodic_conflict_exact in Hc; [|done].
    destruct Hc as [Hc|[Hc|(k & k' & Hk & Hk' & Hc)]];
      [specialize (Hpos s Hs); lia|specialize (Hpos s' Hs'); lia|].
    apply (complete_apart s s' k k'); try done. congruence.
Qed.

Lemma complete_alone s : s ∈ segments ->
  fixedRegisterSelfOverlaps s ii (rf_sameAddressReadWritePolicy (bank target s)) = false.
Proof using Hm Hmq Hii Hpos.
  intros Hs. apply not_true_is_false. rewrite self_overlap_exact by done.
  intros [Hle|(k & k' & Hk & Hk' & Hne & Hc)]; [specialize (Hpos s Hs); lia|].
  apply (complete_apart s s k k'); try done. congruence.
Qed.

(** A port field whose uses are exclusive is a port solution. *)
Lemma complete_ports (count : RegisterFileDesc -> Z) accepts access (field : StorageAllocation -> Z) keys :
  (forall s time, s ∈ segments -> access s = Some time ->
     0 <= field (alloc m s) < count (bank target s) /\ accepts s (field (alloc m s)) = true) ->
  (forall s s' time time', s ∈ segments -> s' ∈ segments -> access s = Some time ->
     access s' = Some time' -> field (alloc m s) = field (alloc m s') ->
     access_key m s (alloc m s) time = access_key m s' (alloc m s') time' -> s = s') ->
  port_solution target q count accepts access keys (by_id q (fun s => field (alloc m s))).
Proof using Hids Hm Hmq.
  intros Hport Hex. split.
  - intros s key Hs Hk _. rewrite by_id_eq by done. apply fmap_Some in Hk as (t & Ht & _).
    by apply (Hport s t).
  - intros s s' key Hs Hs' Hk Hk' _ Ef. rewrite !by_id_eq in Ef by done.
    apply fmap_Some in Hk as (t & Ht & ->). apply fmap_Some in Hk' as (t' & Ht' & Ek).
    apply (Hex s s' t t'); try done. by rewrite !complete_key.
Qed.

Lemma complete_solution : exists c rp wp bp, solution c rp wp bp.
Proof using Hids Hm Hmq Hii Hpos Hwsrc Hbsrc.
  pose proof (ca_valid _ _ _ _ Hm) as Hv.
  exists (by_id q (fun s => pr_index (sl_reg (alloc m s)))), (by_id q (fun s => sl_readPort (alloc m s))),
    (by_id q (fun s => sl_writePort (alloc m s))),
    (by_id q (fun s => default 0 (sl_boundaryWritePort (alloc m s)))).
  assert (Hboundary : forall s time, s ∈ segments -> boundary_write_time s = Some time ->
    time = boundary_time q s /\ exists port, sl_boundaryWritePort (alloc m s) = Some port /\
    0 <= port < rf_writePorts (bank target s) /\ accepts_boundary s port = true).
  { intros s time Hs Et. unfold boundary_write_time in Et.
    destruct (String.eqb_spec (bsrc s) ""); [done|]. injection Et as <-. split; [done|].
    destruct (complete_serves s Hs) as (_ & _ & _ & _ & _ & seed & Es & _ & Hp).
    rewrite (Hbsrc s Hs) in Es. injection Es as <-.
    destruct (Hp ltac:(done)) as (port & Ep & Hlt & Hacc). exists port. split; [done|].
    split; [|done]. split; [|done]. by apply (ca_boundary_typed _ _ _ _ Hm _ _ (complete_allocated s Hs)). }
  split.
  - apply complete_colors.
  - apply complete_alone.
  - intros keys. apply complete_ports.
    + intros s t Hs _. destruct (complete_serves s Hs) as (_ & _ & Hr & _).
      destruct (ca_typed _ _ _ _ Hm _ (complete_allocated s Hs)). done.
    + intros s s' t t' Hs Hs' [= <-] [= <-] Ep Ek.
      apply (va_read_ports _ _ _ Hv s s' _ _ _ _ (proj1 (complete_serves s Hs)) (proj1 (complete_serves s' Hs'))).
      unfold read_access. by rewrite Ek, Ep.
  - intros keys. apply complete_ports.
    + intros s t Hs _. destruct (complete_serves s Hs) as (_ & _ & _ & Hw & (source & Es & Hacc) & _).
      destruct (ca_typed _ _ _ _ Hm _ (complete_allocated s Hs)). split; [done|].
      unfold accepts_write. rewrite (ca_staged _ _ _ _ Hm), (Hwsrc s Hs) in Es. by injection Es as ->.
    + intros s s' t t' Hs Hs' [= <-] [= <-] Ep Ek.
      apply (va_write_ports _ _ _ Hv s s' _ _ _ _ (proj1 (complete_serves s Hs)) (proj1 (complete_serves s' Hs'))).
      unfold write_access. by rewrite Ek, Ep.
  - intros keys. apply (complete_ports _ _ _ (fun a => default 0 (sl_boundaryWritePort a))).
    + intros s t Hs Ht. destruct (Hboundary s t Hs Ht) as (_ & port & -> & Hp). done.
    + intros s s' t t' Hs Hs' Ht Ht' Ep Ek.
      destruct (Hboundary s t Hs Ht) as (-> & port & E & _).
      destruct (Hboundary s' t' Hs' Ht') as (-> & port' & E' & _). rewrite E, E' in Ep. simpl in Ep. subst.
      apply (ca_boundary_ports _ _ _ _ Hm s s' _ _ _ _ port' (proj1 (complete_serves s Hs))
        (proj1 (complete_serves s' Hs')) E E'). by rewrite Hmq.
Qed.
End Project.

(** *** From a solution to an allocation *)

Definition allocation_for (c rp wp bp : Z -> Z) (s : StorageSegment) : StorageAllocation :=
  mkAllocation (sg_id s) (mkRegister (sg_tile s) (rf_id (bank target s)) (c (sg_id s)))
    (rp (sg_id s)) (wp (sg_id s))
    (if String.eqb (bsrc s) "" then None else Some (bp (sg_id s))).

Section Build.
Context (c rp wp bp : Z -> Z) (Hsol : solution c rp wp bp).
Context (m : RFAllocatedMapping) (Hstaged : ra_staged m = staged) (Hmq : ra_requirements m = q).

Let F := allocation_for c rp wp bp.

Context (Hperm : ra_allocations m ≡ₚ F <$> segments).

Lemma built_segments : sl_segment <$> ra_allocations m ≡ₚ sg_id <$> segments.
Proof using Hperm. rewrite Hperm, <- list_fmap_compose. done. Qed.

Lemma built_elem a : a ∈ ra_allocations m <-> exists s, s ∈ segments /\ a = F s.
Proof using Hperm.
  rewrite Hperm, list_elem_of_fmap. split; intros (s & H1 & H2); by exists s.
Qed.

Lemma built_serves s a b : serves target m s a b <-> s ∈ segments /\ a = F s /\ b = bank target s.
Proof using Hperm Hmq Hids Hbanks.
  assert (Hall : forall x, x ∈ segments -> allocation_of m x = Some (F x)).
  { intros x Hx. apply find_if_unique; [by rewrite built_segments|by apply built_elem; exists x|done]. }
  unfold serves. rewrite Hmq. fold segments. split.
  - intros (Hs & Ea & Eb). rewrite Hall in Ea by done. injection Ea as <-.
    unfold bank. by rewrite Eb.
  - intros (Hs & -> & ->). split_and!; [done|by apply Hall|]. unfold bank.
    by destruct (Hbanks s Hs) as [b' ->].
Qed.

Lemma built_apart s s' k k' : s ∈ segments -> s' ∈ segments -> sl_reg (F s) = sl_reg (F s') ->
  0 <= k -> 0 <= k' -> (s, k) <> (s', k') ->
  ~ copies_meet (rf_sameAddressReadWritePolicy (bank target s)) ii s s' k k'.
Proof using Hsol Hii.
  clear Hperm Hmq. intros Hs Hs' [= Et Eb Ec] Hk Hk' Hne Hm. destruct (decide (s = s')) as [<-|Hss].
  - pose proof (so_alone _ _ _ _ Hsol s Hs) as Ha. apply not_true_iff_false in Ha. apply Ha.
    apply self_overlap_exact; [done|]. right. exists k, k'. split_and!; try done. congruence.
  - apply (cs_proper _ _ _ _ (so_colors _ _ _ _ Hsol [bank_key target s]) s s'); try done; [left| |].
    + unfold bank_key. by rewrite Et, Eb.
    + apply periodic_conflict_exact; [done|]. right. right. by exists k, k'.
Qed.

Lemma built_key s time : access_key m s (F s) time = port_key q s (bank target s) time.
Proof using Hmq. unfold access_key, port_key, slot. by rewrite Hmq. Qed.

(** Two accesses with equal keys and ports belong to one segment. *)
Lemma built_exclusive count accepts access (port : Z -> Z) s s' t t' :
  (forall keys, port_solution target q count accepts access keys port) ->
  s ∈ segments -> s' ∈ segments -> access s = Some t -> access s' = Some t' ->
  access_key m s (F s) t = access_key m s' (F s') t' -> port (sg_id s) = port (sg_id s') -> s = s'.
Proof using Hmq.
  intros Hp Hs Hs' Ht Ht' Ek Ep. rewrite !built_key in Ek.
  apply (ps_exclusive _ _ _ _ _ _ _ (Hp [port_key q s' (bank target s') t']) s s'
    (port_key q s' (bank target s') t')); try done; [| |left];
    unfold access_at; [by rewrite Ht, <- Ek|by rewrite Ht'].
Qed.

Lemma built_port count accepts access (port : Z -> Z) s t :
  (forall keys, port_solution target q count accepts access keys port) ->
  s ∈ segments -> access s = Some t ->
  0 <= port (sg_id s) < count (bank target s) /\ accepts s (port (sg_id s)) = true.
Proof using Type.
  intros Hp Hs Ht. apply (ps_port _ _ _ _ _ _ _ (Hp [port_key q s (bank target s) t]) s
    (port_key q s (bank target s) t)); [done|unfold access_at; by rewrite Ht|left].
Qed.

Lemma built_boundary s : s ∈ segments ->
  (bsrc s = ""%string -> sl_boundaryWritePort (F s) = None) /\
  (bsrc s <> ""%string -> boundary_write_time s = Some (boundary_time q s) /\
     sl_boundaryWritePort (F s) = Some (bp (sg_id s)) /\
     0 <= bp (sg_id s) < rf_writePorts (bank target s) /\ accepts_boundary s (bp (sg_id s)) = true).
Proof using Hsol.
  intros Hs. unfold boundary_write_time at 1. unfold F, allocation_for. simpl.
  destruct (String.eqb_spec (bsrc s) "") as [E|E]; split; intros Hc; try done.
  split; [done|]. split; [done|]. apply (built_port _ _ _ _ s (boundary_time q s) (so_boundaries _ _ _ _ Hsol)); [done|].
  unfold boundary_write_time. by destruct (String.eqb_spec (bsrc s) "").
Qed.

Lemma built_valid :
  sav_verify dfg target staged = Ok [] ->
  (exists r, storage_analyze dfg target staged = Ok r /\ rr_ok r = Some q) ->
  valid_allocation dfg target m.
Proof using All.
  intros Hsav Hq.
  split; try (by rewrite Hstaged); try (by rewrite Hstaged, Hmq).
  - intros a Ha. rewrite Hmq. apply built_elem in Ha as (s & Hs & ->).
    by apply (list_elem_of_fmap_2 sg_id).
  - by rewrite built_segments.
  - intros s Hs. rewrite Hmq in Hs. exists (F s), (bank target s). split; [by apply built_serves|]. split.
    + split_and!; [done|done|]. by apply (cs_palette _ _ _ _ (so_colors _ _ _ _ Hsol [bank_key target s])); [|left].
    + destruct (built_port _ _ _ _ s (sg_readTime s) (so_reads _ _ _ _ Hsol) Hs eq_refl) as [Hr _].
      destruct (built_port _ _ _ _ s (sg_writeTime s) (so_writes _ _ _ _ Hsol) Hs eq_refl) as [Hw Ha].
      split_and!; [apply Hr|apply Hw|exists (wsrc s); rewrite Hstaged; split; [by apply Hwsrc|done]|].
      exists (bsrc s). destruct (built_boundary s Hs) as [B1 B2]. split_and!; [by apply Hbsrc|done|].
      intros E. destruct (B2 E) as (_ & Ep & Hb & Hacc). exists (bp (sg_id s)). split_and!; [done|apply Hb|done].
  - intros s s' a a' b b' H1 H2 E. apply built_serves in H1 as (Hs & -> & _), H2 as (Hs' & -> & _).
    exact (built_exclusive _ _ _ _ s s' _ _ (so_writes _ _ _ _ Hsol) Hs Hs' eq_refl eq_refl (f_equal fst E) (f_equal snd E)).
  - intros s s' a a' b b' H1 H2 E. apply built_serves in H1 as (Hs & -> & _), H2 as (Hs' & -> & _).
    exact (built_exclusive _ _ _ _ s s' _ _ (so_reads _ _ _ _ Hsol) Hs Hs' eq_refl eq_refl (f_equal fst E) (f_equal snd E)).
  - intros s s' a a' b b' k k' H1 H2. apply built_serves in H1 as (Hs & -> & ->), H2 as (Hs' & -> & _).
    rewrite Hmq. by apply built_apart.
Qed.

Lemma built_complete :
  sav_verify dfg target staged = Ok [] ->
  (exists r, storage_analyze dfg target staged = Ok r /\ rr_ok r = Some q) ->
  complete_allocation dfg target staged m.
Proof using All.
  intros Hsav Hq. split; [done| | | |].
  - intros a Ha. apply built_elem in Ha as (s & Hs & ->). simpl. split.
    + by apply (built_port _ _ _ _ s (sg_readTime s) (so_reads _ _ _ _ Hsol)).
    + by apply (built_port _ _ _ _ s (sg_writeTime s) (so_writes _ _ _ _ Hsol)).
  - intros a port Ha Ep. apply built_elem in Ha as (s & Hs & ->).
    destruct (built_boundary s Hs) as [B1 B2]. destruct (decide (bsrc s = ""%string)) as [E|E].
    + rewrite (B1 E) in Ep. done.
    + destruct (B2 E) as (_ & E' & Hr & _). rewrite E' in Ep. injection Ep as <-. lia.
  - by apply built_valid.
  - intros s s' a a' b b' port H1 H2 Ep Ep' Ek. apply built_serves in H1 as (Hs & -> & _), H2 as (Hs' & -> & _).
    rewrite Hmq in Ek. destruct (built_boundary s Hs) as [B1 B2], (built_boundary s' Hs') as [B1' B2'].
    destruct (decide (bsrc s = ""%string)) as [E|E]; [by rewrite (B1 E) in Ep|].
    destruct (decide (bsrc s' = ""%string)) as [E'|E']; [by rewrite (B1' E') in Ep'|].
    destruct (B2 E) as (Ht & Eb & _), (B2' E') as (Ht' & Eb' & _).
    apply (built_exclusive _ _ _ _ s s' _ _ (so_boundaries _ _ _ _ Hsol) Hs Hs' Ht Ht' Ek). congruence.
Qed.
End Build.

(** *** The last phases *)

Context (Hindex : forall i s, segments !! i = Some s -> sg_id s = Z.of_nat i) (Hu : is_u32 ii).

Lemma adjacent_segments_false l : NoDup (sl_segment <$> l) -> adjacent_segments l = false.
Proof using Type.
  clear. induction l as [|a [|b l] IH]; [done|done|]. intros Hnd. rewrite fmap_cons in Hnd.
  apply NoDup_cons in Hnd as [Hn Hnd]. simpl. apply orb_false_iff. split; [|by apply IH].
  apply Z.eqb_neq. intros E. apply Hn. rewrite E. by left.
Qed.

Lemma all_keys count accepts access events port : events_of target q access events ->
  port_solution target q count accepts access events.*1 port ->
  forall keys, port_solution target q count accepts access keys port.
Proof using Type.
  clear. intros [_ _ Hall] [H1 H2] keys. split.
  - intros s key Hs Hk _. apply (H1 s key Hs Hk). by apply (Hall s).
  - intros s s' key Hs Hs' Hk Hk' _. apply (H2 s s' key Hs Hs' Hk Hk'). by apply (Hall s).
Qed.

Lemma placed_all kind access events port A s : events_of target q access events -> s ∈ segments ->
  placed target q kind access events.*1 port A s =
  match access s with Some _ => pk_store kind (port (sg_id s)) (A s) | None => A s end.
Proof using Type.
  clear. intros [_ _ Hall] Hs. unfold placed. specialize (Hall s).
  unfold access_at in *. destruct (access s); simpl; [|done]. by rewrite decide_True by (by apply Hall).
Qed.

(** The last event check repeats what the colouring already guarantees. *)
Section Events.
Context (c rp wp bp : Z -> Z) (Hsol : solution c rp wp bp) (m : RFAllocatedMapping).
Context (Hmq : ra_requirements m = q).

Let F := allocation_for c rp wp bp.
Let table : gmap Z StorageAllocation := list_to_map ((fun s => (sg_id s, F s)) <$> segments).

Lemma events_table s : s ∈ segments -> table !! sg_id s = Some (F s).
Proof using Hids.
  clear -Hids. intros Hs. apply elem_of_list_to_map_1.
  - by rewrite <- list_fmap_compose.
  - by apply (list_elem_of_fmap_2 (fun s => (sg_id s, F s))).
Qed.

Lemma allocator_events_eq todo reads writes : todo ⊆ segments ->
  allocator_events q (F <$> segments) todo reads writes = register_events m table todo reads writes.
Proof using Hids Hindex Hmq.
  revert reads writes.
  induction todo as [|s todo IH]; intros reads writes Hsub; [done|].
  assert (Hs : s ∈ segments) by (apply Hsub; left).
  assert (Hrest : todo ⊆ segments) by (intros x Hx; apply Hsub; by right).
  pose proof (segment_at q Hindex s Hs) as Hat. fold segments in Hat.
  csimpl. rewrite list_lookup_fmap, Hat, (events_table s Hs). csimpl. unfold slot.
  rewrite Hmq. by apply IH.
Qed.

Lemma no_event_failure : exists reads writes,
  allocator_events q (F <$> segments) segments ∅ ∅ = Ok (reads, writes) /\
  event_failure target reads writes = None.
Proof using All.
  assert (Hsegs : rq_segments (ra_requirements m) = segments) by (by rewrite Hmq).
  assert (Hctx : forall s, s ∈ rq_segments (ra_requirements m) ->
    segment_context target table s = Ok (F s, bank target s)).
  { rewrite Hsegs. intros s Hs. unfold segment_context. rewrite (events_table s Hs).
    csimpl. unfold bank. by destruct (Hbanks s Hs) as [b ->]. }
  assert (Hreg : forall s, s ∈ rq_segments (ra_requirements m) -> register_valid s (F s) (bank target s)).
  { rewrite Hsegs. intros s Hs. split_and!; [done|done|].
    by apply (cs_palette _ _ _ _ (so_colors _ _ _ _ Hsol [bank_key target s])); [|left]. }
  destruct (register_events_spec target m table F (bank target) Hctx segments ∅ ∅)
    as (reads & writes & Heq & Hr & Hw); [by rewrite Hsegs|].
  exists reads, writes. split; [by rewrite allocator_events_eq|].
  assert (Hnil : event_diags target reads writes = []).
  { apply (event_diags_complete target m table F (bank target) Hctx Hreg Hrf); rewrite ?Hmq; try done.
    - by apply (segments_NoDup q).
    - intros s s' k k'. rewrite Hmq. by apply (built_apart c rp wp bp Hsol). }
  unfold event_failure. rewrite (proj2 (find_if_None _ _)); [done|].
  intros key Hkey. rewrite merge_sort_Permutation in Hkey. unfold event_diags in Hnil.
  rewrite flat_map_nil_iff in Hnil. specialize (Hnil key Hkey).
  rewrite app_nil, !when_cons_nil in Hnil. unfold boundaryReuseAllowed in Hnil.
  destruct Hnil as [-> Hn]. exact Hn.
Qed.
End Events.

Context (Hsav : sav_verify dfg target staged = Ok []).
Context (Hq : exists r, storage_analyze dfg target staged = Ok r /\ rr_ok r = Some q).
Context (Hverify : forall m, complete_allocation dfg target staged m -> ra_requirements m = q ->
  rf_verify dfg target m = Ok []).

(** Registers only, as [initial_allocation] leaves them. *)
Definition initial (c : Z -> Z) (s : StorageSegment) : StorageAllocation :=
  mkAllocation (sg_id s) (mkRegister (sg_tile s) (rf_id (bank target s)) (c (sg_id s))) 0 0 None.

Lemma verified_finish c rp wp bp : solution c rp wp bp ->
  exists m, (allocated ← RFAllocatedMapping_new staged q (allocation_for c rp wp bp <$> segments);
             report ← rf_verify dfg target allocated; Ok (allocated, report)) = Ok (m, []) /\
    complete_allocation dfg target staged m.
Proof using All.
  intros Hsol. set (m := mkAllocated staged q (sort_by sl_segment (allocation_for c rp wp bp <$> segments))).
  assert (Hm : complete_allocation dfg target staged m).
  { apply (built_complete c rp wp bp Hsol); try done. apply sort_by_perm. }
  exists m. split; [|done]. unfold RFAllocatedMapping_new. rewrite adjacent_segments_false.
  - fold m. simpl. by rewrite (Hverify m Hm).
  - apply sort_by_NoDup. by rewrite <- list_fmap_compose.
Qed.

(** Grouping the accesses of one kind and matching them with ports. *)
Lemma assign_phase kind banks access acc accepts : bank_table target q banks ->
  (forall s, s ∈ segments -> access s = Ok (acc s)) ->
  (forall s, s ∈ segments -> forall port, pk_candidate kind (bank target s) s port = Ok (accepts s port)) ->
  exists events, port_events q banks access segments [] = Ok events /\
  forall A, exists allocations stop,
    assign_ports q kind banks events (A <$> segments) = Ok (allocations, stop) /\
    match stop with
    | Some stop => stop_status stop = pk_status kind /\
        forall port, ~ forall keys, port_solution target q (pk_count kind) accepts acc keys port
    | None => exists port,
        (forall keys, port_solution target q (pk_count kind) accepts acc keys port) /\
        allocations = (fun s => match acc s with Some _ => pk_store kind (port (sg_id s)) (A s)
                                | None => A s end) <$> segments
    end.
Proof using Hids Hindex Hbanks Hrf.
  intros Hb Hacc Hcand.
  destruct (port_events_spec target q banks access acc Hb Hacc) as (events & Heq & Hev).
  exists events. split; [exact Heq|]. intros A.
  destruct (assign_ports_spec target q Hids Hindex Hbanks Hrf kind acc accepts (fun s Hs _ => Hcand s Hs)
    banks events Hb (ev_keys _ _ _ _ Hev) (ev_ids _ _ _ _ Hev) A) as (l & stop & Hl & Hres).
  exists l, stop. split; [exact Hl|]. destruct stop as [stop|].
  - destruct Hres as [Hs Hno]. split; [done|]. intros port Hp. by apply (Hno port).
  - destruct Hres as (port & Hp & ->). exists port. split; [by eapply all_keys|].
    apply list_fmap_ext. intros i s Hi. apply list_elem_of_lookup_2 in Hi as Hs. by rewrite placed_all.
Qed.

Lemma finish_spec banks c : bank_table target q banks ->
  (forall keys, color_solution target q keys c) ->
  (forall s, s ∈ segments ->
    fixedRegisterSelfOverlaps s ii (rf_sameAddressReadWritePolicy (bank target s)) = false) ->
  exists r, finish dfg target staged q banks (initial c <$> segments) = Ok r /\
    match r with
    | inl stop => (stop_status stop = ReadPortConflict \/ stop_status stop = WritePortConflict) /\
        forall c rp wp bp, ~ solution c rp wp bp
    | inr m => complete_allocation dfg target staged m
    end.
Proof using All.
  intros Hb Hc Ha. unfold finish. fold segments.
  destruct (assign_phase read_ports banks (fun s => Ok (Some (sg_readTime s))) read_time accepts_read Hb)
    as (re & Hre & H1); [done|done|]. rewrite Hre. csimpl.
  destruct (assign_phase (write_ports dfg target staged) banks (fun s => Ok (Some (sg_writeTime s)))
    write_time accepts_write Hb) as (we & Hwe & H2); [done| |].
  { intros s Hs port. simpl. unfold source_candidate. by rewrite (Hwsrc s Hs). }
  rewrite Hwe. csimpl.
  destruct (assign_phase (boundary_ports dfg) banks (boundary_access dfg q) boundary_write_time
    accepts_boundary Hb) as (be & Hbe & H3).
  { intros s Hs. unfold boundary_access, boundary_write_time. by rewrite (Hbsrc s Hs). }
  { intros s Hs port. simpl. unfold source_candidate. by rewrite (Hbsrc s Hs). }
  destruct (H1 (initial c)) as (l1 & [stop1|] & Hl1 & Hr1); rewrite Hl1; csimpl.
  { destruct Hr1 as [Hs Hno]. eexists. split; [done|]. split; [by left|]. intros c' rp wp bp Hsol.
    by apply (Hno rp), (so_reads _ _ _ _ Hsol). }
  destruct Hr1 as (rp & Hrp & ->).
  match goal with |- context [assign_ports q _ banks we (?A <$> segments)] =>
    destruct (H2 A) as (l2 & [stop2|] & Hl2 & Hr2) end; rewrite Hl2; csimpl.
  { destruct Hr2 as [Hs Hno]. eexists. split; [done|]. split; [by right|]. intros c' rp' wp bp Hsol.
    by apply (Hno wp), (so_writes _ _ _ _ Hsol). }
  destruct Hr2 as (wp & Hwp & ->). rewrite Hbe. csimpl.
  match goal with |- context [assign_ports q _ banks be (?A <$> segments)] =>
    destruct (H3 A) as (l3 & [stop3|] & Hl3 & Hr3) end; rewrite Hl3; csimpl.
  { destruct Hr3 as [Hs Hno]. eexists. split; [done|]. split; [by right|]. intros c' rp' wp' bp Hsol.
    by apply (Hno bp), (so_boundaries _ _ _ _ Hsol). }
  destruct Hr3 as (bp & Hbp & ->).
  assert (Hsol : solution c rp wp bp) by (split; done).
  match goal with |- context [allocator_events q ?l] =>
    replace l with (allocation_for c rp wp bp <$> segments) end.
  2: { apply list_fmap_ext. intros i s _. unfold boundary_write_time, allocation_for.
       by destruct (String.eqb (bsrc s) ""). }
  destruct (verified_finish c rp wp bp Hsol) as (m & Hm & Hcomplete).
  destruct (no_event_failure c rp wp bp Hsol (mkAllocated staged q []) eq_refl) as (reads & writes & Hev & Hno).
  rewrite Hev. csimpl. rewrite Hno, Hm. by eexists.
Qed.
End Complete.

(** ** What the earlier stages guarantee *)

Section Sources.
Context (dfg : TargetDFG) (target : TargetModel) (staged : StagedMapping) (q : StorageRequirements).
Context (Hinv : TargetDFG_inv dfg) (Hgraph : TargetDFG_valid dfg target None).
Context (Hreq : requirements_exact dfg target staged q).

(** The edge of a segment, with its timing. *)
Lemma segment_edge s : s ∈ rq_segments q -> exists edge T, td_edge dfg (sg_edge s) = Ok edge /\
  TargetEdge_kind edge <> EKMemory /\ edge_timing dfg staged edge = Ok T.
Proof using Hinv Hreq.
  intros Hs. destruct Hreq as (_ & _ & Hedge & Hstore & _).
  destruct (Hedge s Hs) as (edge & He & Hk & Eid). destruct (Hstore edge He Hk) as (T & HT & _).
  exists edge, T. split_and!; [by apply td_edge_Ok|done|done].
Qed.

Lemma storageWriteSource_total s : s ∈ rq_segments q ->
  exists source, storageWriteSource dfg target staged s = Ok source.
Proof using Hinv Hgraph Hreq.
  intros Hs. destruct (segment_edge s Hs) as (edge & T & He & _ & HT).
  unfold edge_timing in HT. apply bind_Ok in HT as (d & Hd & HT). apply bind_Ok in HT as (plan & Hplan & HT).
  do 3 (apply bind_Ok in HT as (? & _ & HT)). apply bind_Ok in HT as (producer & Hp & _).
  unfold storageWriteSource. rewrite He. csimpl. rewrite Hd. csimpl.
  destruct (md_transport d) as [transport|]; [|by eexists].
  destruct (find_if _ _ ≫= so_transportActionIndex) as [index|].
  - destruct (link_before _ _); [by eexists|]. rewrite Hp. csimpl.
    apply td_node_Ok in Hp as [Hn _]; [|done].
    destruct (tv_nodes _ _ _ Hgraph producer Hn) as (op & Hop & _).
    unfold operation. rewrite Hop. by eexists.
  - destruct (last _) as [[]|]; by eexists.
Qed.

Lemma boundaryWriteSource_total s : s ∈ rq_segments q ->
  exists source, boundaryWriteSource dfg s = Ok source.
Proof using Hinv Hreq.
  intros Hs. destruct (segment_edge s Hs) as (edge & T & He & Hk & _).
  unfold boundaryWriteSource. rewrite He. csimpl. unfold TargetEdge_kind in Hk.
  repeat case_match; simplify_eq; try done; by eexists.
Qed.
End Sources.

(** ** Properties *)

(** No more segments than 32-bit identifiers. *)
Definition few_segments (dfg : TargetDFG) (target : TargetModel) (staged : StagedMapping) : Prop :=
  forall r q, storage_analyze dfg target staged = Ok r -> rr_ok r = Some q ->
    Z.of_nat (length (rq_segments q)) <= u32_max + 1.

(** What each status of the allocator means. *)
Definition allocation_exact (dfg : TargetDFG) (target : TargetModel) (staged : StagedMapping)
    (budget : RFAllocationBudget) (r : RFAllocationResult) : Prop :=
  match al_status r with
  | AllocSuccess => exists m, al_mapping r = Some m /\ complete_allocation dfg target staged m
  | FixedRegisterSelfOverlap | ReadPortConflict | WritePortConflict | RegisterDepthInfeasible =>
      forall m, ~ complete_allocation dfg target staged m
  | BudgetExceeded =>
      bg_maxColoringDecisions budget <= as_coloringDecisions (al_stats r) \/
      bg_maxColoringBacktracks budget <= as_coloringBacktracks (al_stats r)
  | AllocInvalidTargetDFG => ~ TargetDFG_valid dfg target None
  | AllocInvalidStagedMapping => sav_verify dfg target staged <> Ok []
  | AllocTargetRFContractError => value_without_bank dfg target staged
  | SameAddressRWConflict | VerificationFailure | AllocArithmeticOverflow | AllocInternalError => False
  end.

Section Allocate.
Context (dfg : TargetDFG) (target : TargetModel) (staged : StagedMapping).
Context (q : StorageRequirements) (budget : RFAllocationBudget) (counts : StorageRequirementStats).
Context (Hinv : TargetDFG_inv dfg) (Htwf : TargetModel_wf target) (Hrf : register_files_wf target).
Context (Htyped : typed_graph dfg) (Hst : typed_staged staged).
Context (Hu : universe_fits target (mm_ii (sm_modulo staged))).
Context (Hsav : sav_verify dfg target staged = Ok []).
Context (Hq : exists r, storage_analyze dfg target staged = Ok r /\ rr_ok r = Some q).
Context (Hfew : Z.of_nat (length (rq_segments q)) <= u32_max + 1).

Let m0 := mkAllocated staged q [].
Let confirmed := requirements_confirmed dfg target m0 Hinv Htwf Htyped Hst Hu Hsav Hq.
Let positive := proj1 (requirements_ii dfg target m0 Hinv Htwf Htyped Hst Hu Hsav Hq).
Let narrow := proj2 (requirements_ii dfg target m0 Hinv Htwf Htyped Hst Hu Hsav Hq).
Let ids := segment_ids dfg target m0 Hinv Htwf Htyped Hst Hu Hsav Hq Hfew.
Let banked := segment_has_bank dfg target m0 Hinv Htwf Htyped Hst Hu Hsav Hq.

Definition write_source (s : StorageSegment) : string :=
  match storageWriteSource dfg target staged s with Ok source => source | Throw _ => "" end.
Definition seed_source (s : StorageSegment) : string :=
  match boundaryWriteSource dfg s with Ok source => source | Throw _ => "" end.

Lemma graph_valid : TargetDFG_valid dfg target None.
Proof using Hinv Htwf Htyped Hst Hu Hsav.
  destruct (sav_verify_clean dfg target staged Hinv Htwf Htyped Hst Hu Hsav) as [Hvm _].
  apply (vm_graph _ _ _ Hvm).
Qed.

Lemma write_source_eq s : s ∈ rq_segments q -> storageWriteSource dfg target staged s = Ok (write_source s).
Proof using All.
  intros Hs. unfold write_source.
  by destruct (storageWriteSource_total dfg target staged q Hinv graph_valid confirmed s Hs) as [x ->].
Qed.

Lemma seed_source_eq s : s ∈ rq_segments q -> boundaryWriteSource dfg s = Ok (seed_source s).
Proof using All.
  intros Hs. unfold seed_source.
  by destruct (boundaryWriteSource_total dfg target staged q Hinv confirmed s Hs) as [x ->].
Qed.

Lemma segment_lives s : s ∈ rq_segments q -> sg_writeTime s < sg_readTime s.
Proof using All.
  intros Hs. pose proof (segment_times dfg target m0 Hinv Htwf Htyped Hst Hu Hsav Hq s Hs). lia.
Qed.

Lemma segment_position i s : rq_segments q !! i = Some s -> sg_id s = Z.of_nat i.
Proof using All.
  intros Hi. destruct confirmed as (_ & Hd & _). rewrite (Hd i s Hi). apply wrap32_id.
  apply lookup_lt_Some in Hi. unfold is_u32. lia.
Qed.

Lemma segment_palette s : s ∈ rq_segments q -> rf_allocatableIndices (bank target s) <> [].
Proof using All.
  intros Hs. destruct confirmed as (_ & _ & _ & _ & Hb). destruct (Hb s Hs) as (b & Eb & Hne & _).
  unfold bank, segment_bank. by rewrite Eb.
Qed.

Abbreviation solved := (solution target q write_source seed_source).

Lemma complete_solved m : complete_allocation dfg target staged m -> exists c rp wp bp, solved c rp wp bp.
Proof using All.
  intros Hm. apply (complete_solution dfg target staged q ids positive segment_lives write_source
    seed_source write_source_eq seed_source_eq m Hm).
  destruct (va_requirements _ _ _ (ca_valid _ _ _ _ Hm)) as (r & Hr & Hok). rewrite (ca_staged _ _ _ _ Hm) in Hr.
  destruct Hq as (r' & Hr' & Hok'). congruence.
Qed.

Lemma complete_verified m : complete_allocation dfg target staged m -> ra_requirements m = q ->
  rf_verify dfg target m = Ok [].
Proof using All.
  intros Hm Hmq. apply rf_verify_valid; rewrite ?(ca_staged _ _ _ _ Hm); try done.
  - apply Hm.
  - unfold segments_fit. by rewrite Hmq.
  - apply Hm.
Qed.

Lemma allocate_requirements_exact :
  exists r, allocate_requirements dfg target staged q counts budget = Ok r /\
    allocation_exact dfg target staged budget r.
Proof using All.
  assert (Hnone : (forall c rp wp bp, ~ solved c rp wp bp) ->
    forall m, ~ complete_allocation dfg target staged m).
  { intros Hno m Hm. destruct (complete_solved m Hm) as (c & rp & wp & bp & Hs). by apply (Hno c rp wp bp). }
  unfold allocate_requirements.
  pose proof (group_segments_spec target q ids banked (rq_segments q) [] ∅ [] eq_refl) as Hgroup.
  destruct (group_segments target q (rq_segments q) ∅ []) as [stop|[banks groups]].
  { destruct Hgroup as (Hs & s & Hin & Hself); [|apply grouped_nil| |apply segment_palette|].
    1, 2: intros s Hs; by apply not_elem_of_nil in Hs.
    eexists. split; [done|]. unfold allocation_exact. simpl. rewrite Hs. apply Hnone.
    intros c rp wp bp Hsol. rewrite (so_alone _ _ _ _ _ _ _ _ Hsol s Hin) in Hself. done. }
  destruct Hgroup as (Hb & Hg & Halone); [|apply grouped_nil| |apply segment_palette|].
  1, 2: intros s Hs; by apply not_elem_of_nil in Hs.
  destruct (port_demand_spec target q ids banked Hrf banks Hb (rq_segments q) [] ∅ ∅ 0 0 eq_refl)
    as (mr & mw & stop & -> & Hdemand); [done|done|]. csimpl.
  destruct stop as [stop|].
  { eexists. split; [done|]. unfold allocation_exact. simpl.
    destruct Hdemand as (key & [[-> Hno]|[-> Hno]]); apply Hnone; intros c rp wp bp Hsol.
    - exact (Hno _ wp (so_writes _ _ _ _ _ _ _ _ Hsol _)).
    - exact (Hno _ rp (so_reads _ _ _ _ _ _ _ _ Hsol _)). }
  destruct (color_groups_spec target q ids banked Hrf positive budget banks groups Hb (grouped_keys _ _ _ _ Hg))
    with (st := mkColors ∅ 0 0 false) (edges := 0) (maxRegisters := 0)
    as (st & edges & maxRegisters & stop & -> & Hcolor).
  { intros key vs Hin. by apply Hg in Hin as [-> Hne]. }
  { intros s _ _. apply lookup_empty. }
  csimpl. destruct stop as [stop|].
  { eexists. split; [done|]. unfold allocation_exact. simpl.
    destruct Hcolor as [[-> Hover]|[-> Hno]]; [exact Hover|]. apply Hnone. intros c rp wp bp Hsol.
    apply (Hno c), (so_colors _ _ _ _ _ _ _ _ Hsol). }
  destruct Hcolor as (Hc & Hsome & _).
  assert (Hkeys : forall s, s ∈ rq_segments q -> bank_key target s ∈ groups.*1).
  { intros s Hs. by apply (grouped_key _ _ _ _ _ Hg). }
  change (@mapM result (@mbind result result_bind)) with (@mapM result result_bind).
  rewrite (mapM_map _ (initial target (colors_of st))).
  2: { intros s Hs. unfold initial_allocation, initial, bank_at, color_of, colors_of.
       rewrite (Hb s Hs). csimpl. by destruct (Hsome s Hs (Hkeys s Hs)) as [col ->]. }
  csimpl.
  destruct (finish_spec dfg target staged q ids banked Hrf positive segment_lives write_source seed_source
    write_source_eq seed_source_eq segment_position narrow Hsav Hq complete_verified banks (colors_of st))
    as (r & -> & Hr); [done| |done|].
  { intros keys. destruct Hc as [Hc1 Hc2]. split.
    - intros s Hs _. by apply Hc1, Hkeys.
    - intros s s' Hs Hs' Hne _. apply Hc2; try done. by apply Hkeys. }
  eexists. split; [done|]. destruct r as [stop|m]; unfold allocation_exact; simpl; [|by exists m].
  destruct Hr as [[-> | ->] Hno]; by apply Hnone.
Qed.
End Allocate.

Lemma allocate_spec (dfg : TargetDFG) (target : TargetModel) (staged : StagedMapping)
    (budget : RFAllocationBudget) report :
  TargetDFG_inv dfg -> TargetModel_wf target -> register_files_wf target -> typed_graph dfg ->
  typed_staged staged -> universe_fits target (mm_ii (sm_modulo staged)) ->
  few_segments dfg target staged -> sav_verify dfg target staged = Ok report ->
  exists r, allocate dfg target staged budget = Ok r /\ allocation_exact dfg target staged budget r.
Proof.
  intros Hinv Htwf Hrf Htyped Hst Hu Hfew Hsav.
  pose proof (tdfg_verify_clean dfg target None Hinv) as Hclean.
  pose proof (tdfg_verify_eq dfg target None Hinv) as Ht.
  match type of Ht with _ = Ok ?r => set (treport := r) in Ht end.
  rewrite Ht in Hclean. clearbody treport. unfold allocate. rewrite Ht. csimpl.
  destruct (decide (treport = [])) as [->|Htne]; csimpl.
  2: { rewrite bool_decide_eq_false_2 by done. eexists. split; [done|].
       unfold allocation_exact. simpl. intros Hv. apply Hclean in Hv. by injection Hv. }
  destruct (storage_analyze_report dfg target staged report Hinv Htwf Htyped Hst Hu Hsav) as (r & Hr & Hex).
  rewrite Hr. csimpl. unfold storage_exact in Hex. destruct (rr_ok r) as [q|] eqn:Eq.
  - apply allocate_requirements_exact; try done.
    + unfold rr_ok in Eq. destruct (rr_status r); try done. apply Hex.
    + by exists r.
    + by apply (Hfew r q).
  - eexists. split; [done|]. unfold allocation_exact. simpl. unfold rr_ok in Eq.
    destruct (rr_status r); simpl; try done; [|apply Hex].
    destruct Hex as (_ & q & Eq' & _). by rewrite Eq' in Eq.
Qed.


