(* ===== verification/MaterializedSchedule.v ===== *)
(** * Materialized schedules

    Models [compiler/{include/cgra,lib}/Schedule/MaterializedEvent.{h,cpp}],
    [MaterializedSchedule.h], [ScheduleMaterializationResult.{h,cpp}] and the
    report types of [MaterializedScheduleVerifier.h]: a finite schedule as a
    prologue, a repeated kernel and an epilogue of cycles with their events, and
    the checked 64-bit arithmetic the materializer and its verifier share. *)
From stdpp Require Import base numbers list strings.
From S2P Require Import Prelude.
From S2P Require Import IR.
From S2P Require Import TargetDFG.
From S2P Require Import ModuloResources.
From S2P Require Import ModuloMapping.
From S2P Require Import OrderedMap.
From S2P Require Import StageScheduler.
From S2P Require Import RFAllocation.

(** ** Events *)

Inductive MaterializedEventKind :=
  | BoundaryValueInject
  | RFRead
  | NodeIssue
  | LinkLaunch
  | RFWrite
  | LiveOutBoundaryUse.

#[export] Instance MaterializedEventKind_eq_dec : EqDecision MaterializedEventKind.
Proof. solve_decision. Defined.

Definition MaterializedEventKind_toString (kind : MaterializedEventKind) : string :=
  match kind with
  | BoundaryValueInject => "boundary_value_inject"
  | RFRead => "rf_read"
  | NodeIssue => "node_issue"
  | LinkLaunch => "link_launch"
  | RFWrite => "rf_write"
  | LiveOutBoundaryUse => "live_out_boundary_use"
  end.

Definition materializedEventKindFromString (value : string) : result MaterializedEventKind :=
  if String.eqb value "boundary_value_inject" then Ok BoundaryValueInject
  else if String.eqb value "rf_read" then Ok RFRead
  else if String.eqb value "node_issue" then Ok NodeIssue
  else if String.eqb value "link_launch" then Ok LinkLaunch
  else if String.eqb value "rf_write" then Ok RFWrite
  else if String.eqb value "live_out_boundary_use" then Ok LiveOutBoundaryUse
  else Throw InvalidArgument.

Record MaterializedEvent := mkEvent {
  ev_kind : MaterializedEventKind;
  ev_logicalIteration : Z;
  ev_node : option Z;
  ev_edge : option Z;
  ev_segment : option Z;
  ev_liveOut : option Z;
  ev_transportActionIndex : option Z;
  ev_consumerIterationOffset : option Z;
  ev_boundaryValue : option ExternalOperandBinding;
  ev_domain : option NetworkDomain;
  ev_tile : option TileCoord;
  ev_direction : option Direction;
  ev_physicalRegister : option PhysicalRegister
}.

#[export] Instance MaterializedEvent_eq_dec : EqDecision MaterializedEvent.
Proof. solve_decision. Defined.

(** Assigning [logicalIteration]. *)
Definition at_iteration (event : MaterializedEvent) (iteration : Z) : MaterializedEvent :=
  mkEvent (ev_kind event) iteration (ev_node event) (ev_edge event) (ev_segment event)
    (ev_liveOut event) (ev_transportActionIndex event) (ev_consumerIterationOffset event)
    (ev_boundaryValue event) (ev_domain event) (ev_tile event) (ev_direction event)
    (ev_physicalRegister event).

(** ** Schedules: a cycle is its vector of events *)

Abbreviation CycleBundle := (list MaterializedEvent).
Abbreviation SchedulePhase := (list CycleBundle).

Record RepeatingKernel := mkKernel {
  rk_body : list CycleBundle;
  rk_repeatCount : Z
}.

Record MaterializedSchedule := mkSchedule {
  sch_ii : Z;
  sch_tripCount : Z;
  sch_timeOriginShift : Z;
  sch_totalLogicalCycles : Z;
  sch_prologue : SchedulePhase;
  sch_kernel : RepeatingKernel;
  sch_epilogue : SchedulePhase
}.

(** ** Results *)

Inductive ScheduleMaterializationStatus :=
  | MatSuccess
  | MatInvalidTargetDFG
  | MatInvalidRFAllocatedMapping
  | MatInvalidTripCount
  | MatMissingRecurrenceBoundaryValue
  | MatBoundaryTypeMismatch
  | MatArithmeticOverflow
  | MatBudgetExceeded
  | MatPhaseFactorizationError
  | MatVerificationFailure
  | MatInternalError.

#[export] Instance ScheduleMaterializationStatus_eq_dec : EqDecision ScheduleMaterializationStatus.
Proof. solve_decision. Defined.

Definition ScheduleMaterializationStatus_toString (status : ScheduleMaterializationStatus) : string :=
  match status with
  | MatSuccess => "success"
  | MatInvalidTargetDFG => "invalid_target_dfg"
  | MatInvalidRFAllocatedMapping => "invalid_rf_allocated_mapping"
  | MatInvalidTripCount => "invalid_trip_count"
  | MatMissingRecurrenceBoundaryValue => "missing_recurrence_boundary_value"
  | MatBoundaryTypeMismatch => "boundary_type_mismatch"
  | MatArithmeticOverflow => "arithmetic_overflow"
  | MatBudgetExceeded => "materialization_budget_exceeded"
  | MatPhaseFactorizationError => "phase_factorization_error"
  | MatVerificationFailure => "verification_failure"
  | MatInternalError => "internal_error"
  end.

Inductive ScheduleMaterializationDiagnosticCode :=
  | MAT_INVALID_TARGET_DFG
  | MAT_INVALID_RF_MAPPING
  | MAT_INVALID_TRIP_COUNT
  | MAT_BOUNDARY_VALUE_MISSING
  | MAT_BOUNDARY_VALUE_TYPE_MISMATCH
  | MAT_TIME_ARITHMETIC_OVERFLOW
  | MAT_EXPLICIT_BOUNDARY_BUDGET_EXCEEDED
  | MAT_PHASE_FACTORIZATION_FAILED
  | MAT_DUPLICATE_EVENT
  | MAT_MISSING_EVENT
  | MAT_INVALID_EVENT_PROVENANCE
  | MAT_FINAL_VERIFICATION_FAILED
  | MAT_INTERNAL_ERROR.

#[export] Instance ScheduleMaterializationDiagnosticCode_eq_dec :
  EqDecision ScheduleMaterializationDiagnosticCode.
Proof. solve_decision. Defined.

Definition ScheduleMaterializationDiagnosticCode_toString
    (code : ScheduleMaterializationDiagnosticCode) : string :=
  match code with
  | MAT_INVALID_TARGET_DFG => "MAT_INVALID_TARGET_DFG"
  | MAT_INVALID_RF_MAPPING => "MAT_INVALID_RF_MAPPING"
  | MAT_INVALID_TRIP_COUNT => "MAT_INVALID_TRIP_COUNT"
  | MAT_BOUNDARY_VALUE_MISSING => "MAT_BOUNDARY_VALUE_MISSING"
  | MAT_BOUNDARY_VALUE_TYPE_MISMATCH => "MAT_BOUNDARY_VALUE_TYPE_MISMATCH"
  | MAT_TIME_ARITHMETIC_OVERFLOW => "MAT_TIME_ARITHMETIC_OVERFLOW"
  | MAT_EXPLICIT_BOUNDARY_BUDGET_EXCEEDED => "MAT_EXPLICIT_BOUNDARY_BUDGET_EXCEEDED"
  | MAT_PHASE_FACTORIZATION_FAILED => "MAT_PHASE_FACTORIZATION_FAILED"
  | MAT_DUPLICATE_EVENT => "MAT_DUPLICATE_EVENT"
  | MAT_MISSING_EVENT => "MAT_MISSING_EVENT"
  | MAT_INVALID_EVENT_PROVENANCE => "MAT_INVALID_EVENT_PROVENANCE"
  | MAT_FINAL_VERIFICATION_FAILED => "MAT_FINAL_VERIFICATION_FAILED"
  | MAT_INTERNAL_ERROR => "MAT_INTERNAL_ERROR"
  end.

Record ScheduleMaterializationBudget := mkMatBudget {
  mab_maxExplicitBoundaryCycles : Z;
  mab_maxExplicitBoundaryEvents : Z
}.

(** The default member initializers. *)
Definition default_materialization_budget : ScheduleMaterializationBudget :=
  mkMatBudget 1000000 1000000.

Record ScheduleMaterializationRequest := mkMatRequest {
  mrq_tripCount : Z;
  mrq_budget : ScheduleMaterializationBudget
}.

Record ScheduleMaterializationDiagnostic := mkMatDiag {
  mtd_code : ScheduleMaterializationDiagnosticCode;
  mtd_edge : option Z;
  mtd_logicalIteration : option Z
}.

Record ScheduleMaterializationStats := mkMatStats {
  mts_tripCount : Z;
  mts_periodicStreams : Z;
  mts_oneShotEvents : Z;
  mts_explicitPrologueCycles : Z;
  mts_explicitEpilogueCycles : Z;
  mts_kernelRepeatCount : Z;
  mts_explicitEvents : Z;
  mts_boundarySeedEvents : Z;
  mts_liveOutEvents : Z;
  mts_timeOriginShift : Z;
  mts_totalLogicalCycles : Z
}.

Record ScheduleMaterializationResult := mkMatResult {
  mtr_status : ScheduleMaterializationStatus;
  mtr_schedule : option MaterializedSchedule;
  mtr_stats : ScheduleMaterializationStats;
  mtr_diagnostics : list ScheduleMaterializationDiagnostic
}.

Inductive MaterializedScheduleVerificationCode :=
  | MSV_INVALID_TARGET_DFG
  | MSV_INVALID_RF_MAPPING
  | MSV_INVALID_TRIP_COUNT
  | MSV_UNKNOWN_EVENT
  | MSV_DUPLICATE_EVENT
  | MSV_MISSING_EVENT
  | MSV_WRONG_EVENT_TIME
  | MSV_WRONG_EVENT_PROVENANCE
  | MSV_MEMORY_TRANSPORT_EVENT
  | MSV_KERNEL_SHAPE_INVALID
  | MSV_OUTPUT_OVERFLOW.

#[export] Instance MaterializedScheduleVerificationCode_eq_dec :
  EqDecision MaterializedScheduleVerificationCode.
Proof. solve_decision. Defined.

Record MaterializedScheduleVerificationDiagnostic := mkMSV {
  msv_code : MaterializedScheduleVerificationCode;
  msv_node : option Z;
  msv_edge : option Z;
  msv_segment : option Z
}.

(** ** Checked arithmetic

    Both translation units carry the same helpers; a [false] return is [None]. *)

Definition addSigned (lhs rhs : Z) : option Z :=
  if ((0 <? rhs) && (i64_max - rhs <? lhs)) || ((rhs <? 0) && (lhs <? i64_min - rhs))
  then None else Some (lhs + rhs).

Definition subtractSigned (lhs rhs : Z) : option Z :=
  if rhs =? i64_min then None else addSigned lhs (- rhs).

Definition mulSigned (lhs rhs : Z) : option Z :=
  if (lhs =? 0) || (rhs =? 0) then Some 0
  else if (lhs =? -1) && (rhs =? i64_min) then None
  else if (rhs =? -1) && (lhs =? i64_min) then None
  else if (0 <? lhs) && (0 <? rhs) && (Z.quot i64_max rhs <? lhs) then None
  else if (lhs <? 0) && (rhs <? 0) && (lhs <? Z.quot i64_max rhs) then None
  else if (0 <? lhs) && (rhs <? 0) && (rhs <? Z.quot i64_min lhs) then None
  else if (lhs <? 0) && (0 <? rhs) && (lhs <? Z.quot i64_min rhs) then None
  else Some (lhs * rhs).

Definition addUnsigned (lhs rhs : Z) : option Z :=
  if u64_max - rhs <? lhs then None else Some (lhs + rhs).

Definition mulUnsigned (lhs rhs : Z) : option Z :=
  if negb (lhs =? 0) && (Z.quot u64_max lhs <? rhs) then None else Some (lhs * rhs).

Definition toSigned (value : Z) : option Z := if i64_max <? value then None else Some value.

(** They compute the mathematical result exactly when it fits. *)
Lemma addSigned_Some lhs rhs x :
  is_i64 lhs -> is_i64 rhs -> addSigned lhs rhs = Some x <-> x = lhs + rhs /\ is_i64 x.
Proof.
  unfold is_i64, addSigned. intros Hl Hr. destruct (_ || _)%bool eqn:E.
  - split; [done|]. intros [-> Hx]. unfold i64_max, i64_min in *. lia.
  - split; [intros [= <-]|intros [-> _]; done]. unfold i64_max, i64_min in *. lia.
Qed.

Lemma subtractSigned_Some lhs rhs x :
  is_i64 lhs -> is_i64 rhs -> rhs <> i64_min ->
  subtractSigned lhs rhs = Some x <-> x = lhs - rhs /\ is_i64 x.
Proof.
  intros Hl Hr Hne. unfold subtractSigned. rewrite (proj2 (Z.eqb_neq _ _)) by done.
  rewrite addSigned_Some; [done|done|]. unfold is_i64, i64_max, i64_min in *. lia.
Qed.

Lemma toSigned_Some value x : toSigned value = Some x <-> x = value /\ value <= i64_max.
Proof.
  unfold toSigned. destruct (Z.ltb_spec i64_max value).
  - split; [done|]. intros [_ ?]. lia.
  - split; [intros [= <-]; done|]. by intros [-> _].
Qed.
