(* ===== verification/MaterializedVerifier.v ===== *)
(** * The materialized-schedule verifier

    Models [compiler/lib/Schedule/MaterializedScheduleVerifier.cpp]: it derives
    the expected time origin and length, checks every event of a schedule against
    the mapping, collects the iteration ranges of every periodic stream and
    compares them with the expected ones.  Message texts are left out. *)
From stdpp Require Import base numbers list gmap strings.
From S2P Require Import Prelude.
From S2P Require Import IR.
From S2P Require Import TargetModel.
From S2P Require Import TargetDFG.
From S2P Require Import TargetDFGVerifier.
From S2P Require Import ModuloResources.
From S2P Require Import ModuloMapping.
From S2P Require Import OrderedMap.
From S2P Require Import StageScheduler.
From S2P Require Import StorageRequirements.
From S2P Require Import RFAllocation.
From S2P Require Import MaterializedSchedule.

(** ** Keys and ranges *)

Definition kind_ordinal (kind : MaterializedEventKind) : Z :=
  match kind with
  | BoundaryValueInject => 0
  | RFRead => 1
  | NodeIssue => 2
  | LinkLaunch => 3
  | RFWrite => 4
  | LiveOutBoundaryUse => 5
  end.

(** [PeriodicKey] with its lexicographic [operator<]. *)
Record PeriodicKey := mkKey {
  pk_kind : MaterializedEventKind;
  pk_first : Z;
  pk_second : Z
}.

#[export] Instance PeriodicKey_eq_dec : EqDecision PeriodicKey.
Proof. solve_decision. Defined.

Definition key_tuple (k : PeriodicKey) : Z * Z * Z :=
  (kind_ordinal (pk_kind k), pk_first k, pk_second k).

#[export] Instance PeriodicKey_key : KeyOrder PeriodicKey := fun x y =>
  key_ltb (key_tuple x) (key_tuple y).

Abbreviation Ranges := (list (PeriodicKey * list (Z * Z))).

Definition addRange (ranges : Ranges) (key : PeriodicKey) (first last : Z) : Ranges :=
  om_update key [] (fun l => l ++ [(first, last)]) ranges.

(** The loop over the sorted ranges; [last] is [end]. *)
Fixpoint ranges_contiguous (last expectedLast : Z) (ranges : list (Z * Z)) : bool :=
  match ranges with
  | [] => last =? expectedLast
  | (lo, hi) :: ranges =>
      if lo <=? last then false
      else if (last =? i64_max) || negb (lo =? last + 1) then false
      else ranges_contiguous hi expectedLast ranges
  end.

Definition rangesCoverExactly (input : list (Z * Z)) (expectedFirst expectedLast : Z) : bool :=
  match sort_by_pair id input with
  | [] => false
  | (lo, hi) :: ranges =>
      if negb (lo =? expectedFirst) then false else ranges_contiguous hi expectedLast ranges
  end.

Record VerifyState := mkVerifyState {
  vs_report : list MaterializedScheduleVerificationDiagnostic;
  vs_ranges : Ranges;
  vs_boundaryEvents : gset (Z * Z);
  vs_liveOutEvents : gset Z
}.

Definition report_if (b : bool) (d : MaterializedScheduleVerificationDiagnostic)
    (st : VerifyState) : VerifyState :=
  if b then mkVerifyState (vs_report st ++ [d]) (vs_ranges st) (vs_boundaryEvents st)
              (vs_liveOutEvents st)
  else st.

Definition record_range (record : bool) (key : PeriodicKey) (first last : Z) (st : VerifyState)
  : VerifyState :=
  if record then mkVerifyState (vs_report st) (addRange (vs_ranges st) key first last)
                   (vs_boundaryEvents st) (vs_liveOutEvents st)
  else st.

(** A report without other effects. *)
Abbreviation reject code node edge segment := (report_if true (mkMSV code node edge segment)).

Definition edge_domain (kind : EdgeKind) : NetworkDomain :=
  match kind with EKPredicate => NetPredicate | _ => NetData end.

Definition segment_domain (domain : RegisterBankDomain) : NetworkDomain :=
  match domain with BankPredicate => NetPredicate | BankData => NetData end.

Definition edge_boundary (info : EdgeInfo) : option RecurrenceBoundary :=
  match info with
  | DataEdgeInfo _ boundary | PredicateEdgeInfo _ boundary => boundary
  | MemoryEdgeInfo _ => None
  end.

Section VerifySchedule.
Context (dfg : TargetDFG) (target : TargetModel) (mapping : RFAllocatedMapping).
Context (request : ScheduleMaterializationRequest) (schedule : MaterializedSchedule).

Let staged := ra_staged mapping.
Let ii := sch_ii schedule.
Let trip := mrq_tripCount request.

(** ** The expected times *)

Definition expectedCycle (node iteration shift : Z) : result (option Z) :=
  issue ← logicalIssueTime staged node;
  Ok (base ← toSigned issue;
      signedShift ← toSigned shift;
      delta ← mulSigned iteration ii;
      res ← addSigned base delta;
      res ← addSigned res signedShift;
      if res <? 0 then None else Some res).

Definition expectedCycleForEdge (edge : TargetEdge) (elapsed producerIteration shift : Z)
  : result (option Z) :=
  cycle ← expectedCycle (te_src edge) producerIteration shift;
  Ok (cycle ← cycle;
      value ← addSigned cycle elapsed;
      if value <? 0 then None else Some value).

(** [expectedMinLogical], [expectedMaxLogical] and [expectedTimeValid]. *)
Record ExpectedTimes := mkTimes {
  et_min : Z;
  et_max : Z;
  et_valid : bool
}.

Definition invalid_time (t : ExpectedTimes) : ExpectedTimes := mkTimes (et_min t) (et_max t) false.

Definition accountOneExpected (t : ExpectedTimes) (time : Z) : ExpectedTimes :=
  mkTimes (Z.min (et_min t) time) (Z.max (et_max t) time) (et_valid t).

(** [None] is the [false] result. *)
Definition accountExpected (t : ExpectedTimes) (first count : Z) : option ExpectedTimes :=
  if (count =? 0) || (i64_max <? count - 1) then None
  else
    span ← mulSigned (count - 1) ii;
    last ← addSigned first span;
    Some (mkTimes (Z.min (et_min t) first) (Z.max (et_max t) last) (et_valid t)).

(** Account for a stream whose first time may fail to exist. *)
Definition account_stream (t : ExpectedTimes) (first : option Z) : ExpectedTimes :=
  default (invalid_time t) (first ← first; accountExpected t first trip).

Definition account_once (t : ExpectedTimes) (time : option Z) : ExpectedTimes :=
  match time with Some time => accountOneExpected t time | None => invalid_time t end.

Fixpoint expected_nodes (nodes : list TargetNode) (t : ExpectedTimes) : result ExpectedTimes :=
  match nodes with
  | [] => Ok t
  | node :: nodes =>
      issue ← logicalIssueTime staged (tn_id node);
      expected_nodes nodes (account_stream t (toSigned issue))
  end.

Definition expected_links (firstBase : Z) (actions : list TransportAction) (t : ExpectedTimes)
  : ExpectedTimes :=
  foldl (fun t action =>
    match action with
    | LinkStep _ _ _ elapsed => account_stream t (addSigned firstBase elapsed)
    | VirtualHold _ _ _ _ => t
    end) t actions.

Definition injection_time (edge : TargetEdge) (sourceTime ready offset : Z) : option Z :=
  negativeIteration ← mulSigned (-1) (wrap32 (te_distance edge - offset));
  iterationTime ← mulSigned negativeIteration ii;
  time ← addSigned sourceTime iterationTime;
  addSigned time ready.

Definition boundary_count (edge : TargetEdge) : Z := Z.min trip (te_distance edge).

Fixpoint expected_boundaries (edge : TargetEdge) (sourceTime : Z) (offsets : list Z)
    (t : ExpectedTimes) : result ExpectedTimes :=
  match offsets with
  | [] => Ok t
  | offset :: offsets =>
      source ← td_node dfg (te_src edge);
      let ready := default 0 (tn_producerOutputReadyOffset source) in
      expected_boundaries edge sourceTime offsets
        (account_once t (injection_time edge sourceTime ready offset))
  end.

Definition expected_edge_times (edge : TargetEdge) (t : ExpectedTimes) : result ExpectedTimes :=
  if bool_decide (TargetEdge_kind edge = EKMemory) then Ok t
  else
    d ← dependence (sm_modulo staged) (te_id edge);
    match md_transport d with
    | None => Ok (invalid_time t)
    | Some transport =>
        issue ← logicalIssueTime staged (te_src edge);
        let base := (sourceTime ← toSigned issue;
                     distanceTime ← mulSigned (te_distance edge) ii;
                     firstBase ← subtractSigned sourceTime distanceTime;
                     Some (sourceTime, firstBase)) in
        match base with
        | None => Ok (invalid_time t)
        | Some (sourceTime, firstBase) =>
            expected_boundaries edge sourceTime (range (boundary_count edge))
              (expected_links firstBase (tp_actions transport) t)
        end
    end.

Fixpoint expected_edges_times (edges : list TargetEdge) (t : ExpectedTimes) : result ExpectedTimes :=
  match edges with
  | [] => Ok t
  | edge :: edges => t ← expected_edge_times edge t; expected_edges_times edges t
  end.

(** The two accounts of a segment; a distance that was not computed is zero. *)
Definition expected_segment (s : StorageSegment) (t : ExpectedTimes) : result ExpectedTimes :=
  distanceTime ← (match toSigned (sg_writeTime s) with
                  | None => Ok None
                  | Some _ => edge ← td_edge dfg (sg_edge s); Ok (mulSigned (te_distance edge) ii)
                  end);
  let t := account_stream t (base ← toSigned (sg_writeTime s);
                             distance ← distanceTime; subtractSigned base distance) in
  Ok (account_stream t (base ← toSigned (sg_readTime s);
                        subtractSigned base (default 0 distanceTime))).

Fixpoint expected_segments (segments : list StorageSegment) (t : ExpectedTimes)
  : result ExpectedTimes :=
  match segments with
  | [] => Ok t
  | s :: segments => t ← expected_segment s t; expected_segments segments t
  end.

Definition live_out_time (issue latency : Z) : option Z :=
  sourceTime ← toSigned issue;
  iterationTime ← mulSigned (trip - 1) ii;
  time ← addSigned sourceTime iterationTime;
  addSigned time latency.

Fixpoint expected_liveOuts (liveOuts : list TargetLiveOut) (t : ExpectedTimes)
  : result ExpectedTimes :=
  match liveOuts with
  | [] => Ok t
  | liveOut :: liveOuts =>
      node ← td_node dfg (tlo_source liveOut);
      time ← (match tn_resultLatency node with
              | None => Ok None
              | Some latency =>
                  issue ← logicalIssueTime staged (tlo_source liveOut);
                  Ok (live_out_time issue latency)
              end);
      expected_liveOuts liveOuts (account_once t time)
  end.

Definition expected_times : result ExpectedTimes :=
  t ← expected_nodes (td_nodes dfg) (mkTimes i64_max i64_min true);
  t ← expected_edges_times (td_edges dfg) t;
  t ← expected_segments (rq_segments (ra_requirements mapping)) t;
  expected_liveOuts (td_liveOuts dfg) t.

(** ** Periodic events *)

Definition shift : Z := sch_timeOriginShift schedule.

Definition verify_node_issue (event : MaterializedEvent) (cycle : Z) (record : bool)
    (st : VerifyState) : result VerifyState :=
  match ev_node event with
  | Some node =>
      if negb (containsNode dfg node) || (ev_logicalIteration event <? 0) ||
         (trip <=? ev_logicalIteration event)
      then Ok (reject MSV_WRONG_EVENT_PROVENANCE (ev_node event) None None st)
      else
        expected ← expectedCycle node (ev_logicalIteration event) shift;
        Ok (record_range record (mkKey NodeIssue node 0) (ev_logicalIteration event)
              (ev_logicalIteration event)
              (report_if (negb (bool_decide (expected = Some cycle)))
                 (mkMSV MSV_WRONG_EVENT_TIME (ev_node event) None None) st))
  | None => Ok (reject MSV_WRONG_EVENT_PROVENANCE (ev_node event) None None st)
  end.

(** The producer iterations of an edge in the finite loop. *)
Definition first_iteration (edge : TargetEdge) : Z := - te_distance edge.
Definition last_iteration (edge : TargetEdge) : Z := trip - 1 - te_distance edge.
Definition outside_loop (edge : TargetEdge) (iteration : Z) : bool :=
  (iteration <? first_iteration edge) || (last_iteration edge <? iteration).

Definition verify_link_launch (event : MaterializedEvent) (cycle : Z) (record : bool)
    (st : VerifyState) : result VerifyState :=
  let wrong := mkMSV MSV_WRONG_EVENT_PROVENANCE None (ev_edge event) None in
  match ev_edge event, ev_transportActionIndex event with
  | Some id, Some index =>
      if negb (containsEdge dfg id) then Ok (report_if true wrong st)
      else
        edge ← td_edge dfg id;
        if bool_decide (TargetEdge_kind edge = EKMemory)
        then Ok (reject MSV_MEMORY_TRANSPORT_EVENT None (ev_edge event) None st)
        else
          d ← dependence (sm_modulo staged) (te_id edge);
          match md_transport d ≫= fun transport => tp_actions transport !! nat_of index with
          | Some (LinkStep domain source direction elapsed) =>
              expected ← expectedCycleForEdge edge elapsed (ev_logicalIteration event) shift;
              Ok (record_range record (mkKey LinkLaunch (te_id edge) index)
                    (ev_logicalIteration event) (ev_logicalIteration event)
                    (report_if (outside_loop edge (ev_logicalIteration event)) wrong
                    (report_if (negb (bool_decide (expected = Some cycle)))
                       (mkMSV MSV_WRONG_EVENT_TIME None (ev_edge event) None)
                    (report_if (negb (bool_decide (ev_domain event = Some domain /\
                         ev_tile event = Some source /\ ev_direction event = Some direction)))
                       wrong st))))
          | _ => Ok (report_if true wrong st)
          end
  | _, _ => Ok (report_if true wrong st)
  end.

Definition unknown_segment (event : MaterializedEvent) : VerifyState -> VerifyState :=
  reject MSV_WRONG_EVENT_PROVENANCE None (ev_edge event) (ev_segment event).

(** Does the register of the event disagree with the allocation? *)
Definition wrong_register (event : MaterializedEvent) (s : StorageSegment) : result bool :=
  match ev_physicalRegister event with
  | None => Ok true
  | Some reg => allocated ← registerFor mapping (sg_id s); Ok (negb (bool_decide (reg = allocated)))
  end.

Definition rf_expected (base iteration : Z) : option (option Z) :=
  signedBase ← toSigned base;
  signedShift ← toSigned shift;
  Some (delta ← mulSigned iteration ii;
        expected ← addSigned signedBase delta;
        expected ← addSigned expected signedShift;
        if expected <? 0 then None else Some expected).

Definition verify_rf_event (event : MaterializedEvent) (cycle : Z) (record : bool) (id : Z)
    (st : VerifyState) : result VerifyState :=
  match rq_segment (ra_requirements mapping) id with
  | Throw _ => Ok (unknown_segment event st)
  | Ok s =>
      let report code := report_if true (mkMSV code None (Some (sg_edge s)) (Some (sg_id s))) in
      let report_when (b : bool) code :=
        report_if b (mkMSV code None (Some (sg_edge s)) (Some (sg_id s))) in
      let st := report_if (negb (bool_decide (ev_edge event = Some (sg_edge s))))
                  (mkMSV MSV_WRONG_EVENT_PROVENANCE None (ev_edge event) (Some (sg_id s))) st in
      let st := report_when (negb (bool_decide (ev_domain event = Some (segment_domain (sg_domain s)) /\
                  ev_tile event = Some (sg_tile s)))) MSV_WRONG_EVENT_PROVENANCE st in
      match wrong_register event s with
      | Throw _ => Ok (unknown_segment event st)
      | Ok wrong =>
          let st := report_when wrong MSV_WRONG_EVENT_PROVENANCE st in
          match td_edge dfg (sg_edge s) with
          | Throw _ => Ok (unknown_segment event st)
          | Ok edge =>
              let st := report_when (outside_loop edge (ev_logicalIteration event))
                          MSV_WRONG_EVENT_PROVENANCE st in
              let base := if bool_decide (ev_kind event = RFWrite) then sg_writeTime s
                          else sg_readTime s in
              match rf_expected base (ev_logicalIteration event) with
              | None => Ok (report MSV_OUTPUT_OVERFLOW st)
              | Some expected =>
                  Ok (record_range record (mkKey (ev_kind event) (sg_id s) 0)
                        (ev_logicalIteration event) (ev_logicalIteration event)
                        (report_when (negb (bool_decide (expected = Some cycle)))
                           MSV_WRONG_EVENT_TIME st))
              end
          end
      end
  end.

Definition verifyPeriodic (event : MaterializedEvent) (cycle : Z) (record : bool)
    (st : VerifyState) : result VerifyState :=
  match ev_kind event with
  | NodeIssue => verify_node_issue event cycle record st
  | LinkLaunch | RFRead | RFWrite =>
      if bool_decide (ev_edge event = None) && bool_decide (ev_segment event = None)
      then Ok (reject MSV_WRONG_EVENT_PROVENANCE None None None st)
      else if bool_decide (ev_kind event = LinkLaunch) then verify_link_launch event cycle record st
      else match ev_segment event with
           | None => Ok (reject MSV_WRONG_EVENT_PROVENANCE None None None st)
           | Some id => verify_rf_event event cycle record id st
           end
  | BoundaryValueInject | LiveOutBoundaryUse => Ok (reject MSV_UNKNOWN_EVENT None None None st)
  end.

(** ** One-shot events *)

Definition insert_boundary (key : Z * Z) (st : VerifyState) : VerifyState :=
  mkVerifyState (vs_report st) (vs_ranges st) ({[key]} ∪ vs_boundaryEvents st)
    (vs_liveOutEvents st).
Definition insert_liveOut (id : Z) (st : VerifyState) : VerifyState :=
  mkVerifyState (vs_report st) (vs_ranges st) (vs_boundaryEvents st)
    ({[id]} ∪ vs_liveOutEvents st).

(** A cycle a given number of cycles after an expected one, in 64 bits. *)
Definition after_cycle (expected : option Z) (delay : Z) : option Z :=
  expected ← expected; if u64_max - delay <? expected then None else Some (expected + delay).

Definition verify_boundary (event : MaterializedEvent) (cycle : Z) (st : VerifyState)
  : result VerifyState :=
  let report code := reject code None (ev_edge event) None in
  let report_when (b : bool) code := report_if b (mkMSV code None (ev_edge event) None) in
  match ev_edge event, ev_consumerIterationOffset event, ev_boundaryValue event with
  | Some id, Some offset, Some boundaryValue =>
      if negb (containsEdge dfg id) then Ok (report MSV_WRONG_EVENT_PROVENANCE st)
      else
        edge ← td_edge dfg id;
        if bool_decide (TargetEdge_kind edge = EKMemory)
        then Ok (report MSV_MEMORY_TRANSPORT_EVENT st)
        else if (boundary_count edge <=? offset) ||
                negb (ev_logicalIteration event =? offset - te_distance edge)
        then Ok (report MSV_WRONG_EVENT_PROVENANCE st)
        else match edge_boundary (te_info edge) with
        | None => Ok (report MSV_MISSING_EVENT st)
        | Some boundary =>
            let found := find_if (fun value => rbv_iterationOffset value =? offset) boundary in
            let st := report_when (negb (bool_decide (rbv_value <$> found = Some boundaryValue)))
                        MSV_WRONG_EVENT_PROVENANCE st in
            p ← placement (sm_modulo staged) (te_src edge);
            let st := report_when (negb (bool_decide (
                          ev_domain event = Some (edge_domain (TargetEdge_kind edge)) /\
                          ev_tile event = Some (np_tile p)))) MSV_WRONG_EVENT_PROVENANCE st in
            source ← td_node dfg (te_src edge);
            expected ← expectedCycle (te_src edge) (ev_logicalIteration event) shift;
            let ready := default 0 (tn_producerOutputReadyOffset source) in
            let st := report_when (negb (bool_decide (after_cycle expected ready = Some cycle)))
                        MSV_WRONG_EVENT_TIME st in
            let seen := bool_decide ((te_id edge, offset) ∈ vs_boundaryEvents st) in
            Ok (report_when seen MSV_DUPLICATE_EVENT (insert_boundary (te_id edge, offset) st))
        end
  | _, _, _ => Ok (report MSV_WRONG_EVENT_PROVENANCE st)
  end.

Definition verify_liveOut (event : MaterializedEvent) (cycle : Z) (st : VerifyState)
  : result VerifyState :=
  let found := id ← ev_liveOut event; find_if (fun liveOut => tlo_id liveOut =? id) (td_liveOuts dfg) in
  match found, ev_node event with
  | Some liveOut, Some _ =>
      node ← td_node dfg (tlo_source liveOut);
      timed ← (match tn_resultLatency node with
               | None => Ok false
               | Some latency =>
                   expected ← expectedCycle (tlo_source liveOut) (trip - 1) shift;
                   Ok (bool_decide (after_cycle expected latency = Some cycle))
               end);
      let right := timed && bool_decide (ev_node event = Some (tlo_source liveOut)) &&
                   (ev_logicalIteration event =? trip - 1) in
      let at_source code := mkMSV code (Some (tlo_source liveOut)) None None in
      let st := report_if (negb right) (at_source MSV_WRONG_EVENT_TIME) st in
      let seen := bool_decide (tlo_id liveOut ∈ vs_liveOutEvents st) in
      Ok (report_if seen (at_source MSV_DUPLICATE_EVENT) (insert_liveOut (tlo_id liveOut) st))
  | _, _ => Ok (reject MSV_WRONG_EVENT_PROVENANCE (ev_node event) None None st)
  end.

Definition verifyOneShot (event : MaterializedEvent) (cycle : Z) (inKernel : bool)
    (st : VerifyState) : result VerifyState :=
  if inKernel
  then Ok (reject MSV_KERNEL_SHAPE_INVALID (ev_node event) (ev_edge event) (ev_segment event) st)
  else match ev_kind event with
       | BoundaryValueInject => verify_boundary event cycle st
       | LiveOutBoundaryUse => verify_liveOut event cycle st
       | _ => Ok (reject MSV_UNKNOWN_EVENT None None None st)
       end.

(** ** Scanning the phases *)

Definition is_one_shot (kind : MaterializedEventKind) : bool :=
  match kind with BoundaryValueInject | LiveOutBoundaryUse => true | _ => false end.

Fixpoint scan_events (events : list MaterializedEvent) (cycle : Z) (st : VerifyState)
  : result VerifyState :=
  match events with
  | [] => Ok st
  | event :: events =>
      st ← (if is_one_shot (ev_kind event) then verifyOneShot event cycle false st
            else verifyPeriodic event cycle true st);
      scan_events events cycle st
  end.

(** [base + offset] cannot wrap: the test is on [offset]. *)
Fixpoint scanPhase (cycles : list CycleBundle) (offset base : Z) (st : VerifyState)
  : result VerifyState :=
  match cycles with
  | [] => Ok st
  | events :: cycles =>
      if u64_max - base <? offset then Ok (reject MSV_OUTPUT_OVERFLOW None None None st)
      else st ← scan_events events (base + offset) st; scanPhase cycles (offset + 1) base st
  end.

Definition kernel_key (event : MaterializedEvent) : PeriodicKey :=
  match ev_kind event with
  | NodeIssue => mkKey NodeIssue (default 0 (ev_node event)) 0
  | LinkLaunch => mkKey LinkLaunch (default 0 (ev_edge event))
                    (default 0 (ev_transportActionIndex event))
  | kind => mkKey kind (default 0 (ev_segment event)) 0
  end.

Definition repeatCount : Z := rk_repeatCount (sch_kernel schedule).

Fixpoint scan_kernel_events (events : list MaterializedEvent) (cycle : Z) (st : VerifyState)
  : result VerifyState :=
  match events with
  | [] => Ok st
  | event :: events =>
      st ← (if is_one_shot (ev_kind event) then verifyOneShot event cycle true st
            else
              st ← verifyPeriodic event cycle false st;
              if 0 <? repeatCount then
                match (repeatDelta ← toSigned (repeatCount - 1);
                       addSigned (ev_logicalIteration event) repeatDelta) with
                | None => Ok (reject MSV_OUTPUT_OVERFLOW None None None st)
                | Some rangeEnd =>
                    Ok (record_range true (kernel_key event) (ev_logicalIteration event) rangeEnd st)
                end
              else Ok st);
      scan_kernel_events events cycle st
  end.

Fixpoint scan_kernel (cycles : list CycleBundle) (offset base : Z) (st : VerifyState)
  : result VerifyState :=
  match cycles with
  | [] => Ok st
  | events :: cycles =>
      if u64_max - base <? offset then Ok (reject MSV_OUTPUT_OVERFLOW None None None st)
      else st ← scan_kernel_events events (base + offset) st; scan_kernel cycles (offset + 1) base st
  end.

(** ** Coverage *)

Definition expect (key : PeriodicKey) (first last : Z) (m : list (PeriodicKey * (Z * Z)))
  : list (PeriodicKey * (Z * Z)) :=
  om_update key (0, 0) (fun _ => (first, last)) m.

Definition expected_node_ranges (m : list (PeriodicKey * (Z * Z))) : list (PeriodicKey * (Z * Z)) :=
  foldl (fun m node => expect (mkKey NodeIssue (tn_id node) 0) 0 (trip - 1) m) m (td_nodes dfg).

Definition is_link (action : TransportAction) : bool :=
  match action with LinkStep _ _ _ _ => true | VirtualHold _ _ _ _ => false end.

Fixpoint expected_edge_ranges (edges : list TargetEdge) (m : list (PeriodicKey * (Z * Z)))
  : result (list (PeriodicKey * (Z * Z))) :=
  match edges with
  | [] => Ok m
  | edge :: edges =>
      if bool_decide (TargetEdge_kind edge = EKMemory) then expected_edge_ranges edges m
      else
        d ← dependence (sm_modulo staged) (te_id edge);
        expected_edge_ranges edges
          match md_transport d with
          | None => m
          | Some transport =>
              foldl (fun m '(index, action) =>
                if is_link action
                then expect (mkKey LinkLaunch (te_id edge) index) (first_iteration edge)
                       (last_iteration edge) m
                else m) m (enumerate (tp_actions transport))
          end
  end.

Fixpoint expected_segment_ranges (segments : list StorageSegment)
    (m : list (PeriodicKey * (Z * Z))) : result (list (PeriodicKey * (Z * Z))) :=
  match segments with
  | [] => Ok m
  | s :: segments =>
      edge ← td_edge dfg (sg_edge s);
      let m := expect (mkKey RFWrite (sg_id s) 0) (first_iteration edge) (last_iteration edge) m in
      expected_segment_ranges segments
        (expect (mkKey RFRead (sg_id s) 0) (first_iteration edge) (last_iteration edge) m)
  end.

Definition expected_ranges : result (list (PeriodicKey * (Z * Z))) :=
  m ← expected_edge_ranges (td_edges dfg) (expected_node_ranges []);
  expected_segment_ranges (rq_segments (ra_requirements mapping)) m.

Definition missing_stream (ranges : Ranges) (entry : PeriodicKey * (Z * Z))
  : list MaterializedScheduleVerificationDiagnostic :=
  let '(key, (first, last)) := entry in
  when (negb (match om_lookup key ranges with
              | None => false
              | Some found => rangesCoverExactly found first last
              end))
    [mkMSV MSV_MISSING_EVENT None
       (if bool_decide (pk_kind key = LinkLaunch) then Some (wrap32 (pk_first key)) else None)
       (match pk_kind key with RFRead | RFWrite => Some (pk_first key) | _ => None end)].

Definition coverage_report (expected : list (PeriodicKey * (Z * Z))) (st : VerifyState)
  : list MaterializedScheduleVerificationDiagnostic :=
  flat_map (missing_stream (vs_ranges st)) expected ++
  flat_map (fun entry =>
    when (negb (bool_decide (is_Some (om_lookup entry.1 expected))))
      [mkMSV MSV_DUPLICATE_EVENT None None None]) (vs_ranges st) ++
  flat_map (fun edge =>
    if bool_decide (TargetEdge_kind edge = EKMemory) then []
    else flat_map (fun offset =>
      when (negb (bool_decide ((te_id edge, offset) ∈ vs_boundaryEvents st)))
        [mkMSV MSV_MISSING_EVENT None (Some (te_id edge)) None]) (range (boundary_count edge)))
    (td_edges dfg) ++
  flat_map (fun liveOut =>
    when (negb (bool_decide (tlo_id liveOut ∈ vs_liveOutEvents st)))
      [mkMSV MSV_MISSING_EVENT (Some (tlo_source liveOut)) None None]) (td_liveOuts dfg).

(** ** The verifier *)

Definition msv_fail (code : MaterializedScheduleVerificationCode)
  : result (list MaterializedScheduleVerificationDiagnostic) := Ok [mkMSV code None None None].

Definition prologue_length : Z := Z.of_nat (length (sch_prologue schedule)).
Definition kernel_cycles : Z := repeatCount * ii.

(** The scans and the coverage, once the shape of the schedule is right. *)
Definition verify_events : result (list MaterializedScheduleVerificationDiagnostic) :=
  let st := mkVerifyState [] [] ∅ ∅ in
  st ← scanPhase (sch_prologue schedule) 0 0 st;
  st ← scan_kernel (rk_body (sch_kernel schedule)) 0 prologue_length st;
  st ← scanPhase (sch_epilogue schedule) 0 (prologue_length + kernel_cycles) st;
  expected ← expected_ranges;
  Ok (vs_report st ++ coverage_report expected st).

(** The comparison with the expected origin, length and phases. *)
Definition verify_shape (t : ExpectedTimes)
  : result (list MaterializedScheduleVerificationDiagnostic) :=
  if negb (et_valid t) || (et_min t =? i64_max) || (et_max t =? i64_min) || (et_min t =? i64_min)
  then msv_fail MSV_OUTPUT_OVERFLOW
  else
    let expectedShift := if et_min t <? 0 then - et_min t else 0 in
    if (i64_max - expectedShift <? et_max t) || (wrap64 (et_max t + expectedShift) =? u64_max)
    then msv_fail MSV_OUTPUT_OVERFLOW
    else if negb (sch_timeOriginShift schedule =? expectedShift) ||
            negb (sch_totalLogicalCycles schedule =? wrap64 (et_max t + expectedShift) + 1)
    then msv_fail MSV_KERNEL_SHAPE_INVALID
    else if negb (repeatCount =? 0) && (u64_max / repeatCount <? ii)
    then msv_fail MSV_OUTPUT_OVERFLOW
    else
      let total := sch_totalLogicalCycles schedule in
      if (total <? prologue_length) || (total - prologue_length <? kernel_cycles) ||
         negb (Z.of_nat (length (sch_epilogue schedule)) =? total - prologue_length - kernel_cycles)
      then msv_fail MSV_KERNEL_SHAPE_INVALID
      else verify_events.

(** [MaterializedScheduleVerifier::verify]. *)
Definition msv_verify : result (list MaterializedScheduleVerificationDiagnostic) :=
  if trip =? 0 then msv_fail MSV_INVALID_TRIP_COUNT
  else if i64_max <? trip then msv_fail MSV_OUTPUT_OVERFLOW
  else
    targetReport ← tdfg_verify dfg target None;
    if negb (bool_decide (targetReport = [])) then msv_fail MSV_INVALID_TARGET_DFG
    else
      rfReport ← rf_verify dfg target mapping;
      if negb (bool_decide (rfReport = [])) then msv_fail MSV_INVALID_RF_MAPPING
      else if negb (sch_tripCount schedule =? trip) || negb (ii =? mm_ii (sm_modulo staged))
      then msv_fail MSV_INVALID_TRIP_COUNT
      else if ((repeatCount =? 0) && negb (bool_decide (rk_body (sch_kernel schedule) = []))) ||
              (negb (repeatCount =? 0) &&
               negb (Z.of_nat (length (rk_body (sch_kernel schedule))) =? ii))
      then msv_fail MSV_KERNEL_SHAPE_INVALID
      else if sch_totalLogicalCycles schedule =? 0 then msv_fail MSV_KERNEL_SHAPE_INVALID
      else t ← expected_times; verify_shape t.
End VerifySchedule.
