(* ===== verification/ScheduleMaterializer.v ===== *)
(** * The schedule materializer

    Models [compiler/lib/Schedule/ScheduleMaterializer.cpp]: the periodic streams
    and one-shot events of a register-allocated mapping, the common time origin,
    the choice of the repeated periods, and the placement of every event in the
    prologue, the kernel or the epilogue, followed by the independent verifier.
    Message texts, and the failure of an allocation of too many cycles, are left
    out. *)
From stdpp Require Import base numbers list strings.
From S2P Require Import Prelude.
From S2P Require Import IR.
From S2P Require Import TargetModel.
From S2P Require Import TargetDFG.
From S2P Require Import TargetDFGVerifier.
From S2P Require Import ModuloResources.
From S2P Require Import ModuloMapping.
From S2P Require Import OrderedMap.
From S2P Require Import StageScheduler.
From S2P Require Import StorageRequirements.
From S2P Require Import RFAllocation.
From S2P Require Import MaterializedSchedule.
From S2P Require Import MaterializedVerifier.

Abbreviation Event := MaterializedEvent.

Record PeriodicStream := mkStream {
  ps_event : Event;
  ps_firstLogicalTime : Z;
  ps_count : Z;
  ps_period : Z
}.

Record OneShot := mkShot {
  os_event : Event;
  os_logicalTime : Z
}.

(** ** Stopping early

    The body of the [try] block throws or returns a result; [NoFuel] says that a
    loop of the model ran out of fuel. *)
Inductive mat_stop :=
  | Thrown (e : exn)
  | Returned (status : ScheduleMaterializationStatus) (diag : ScheduleMaterializationDiagnostic)
  | NoFuel.

Inductive mat (A : Type) :=
  | Go (a : A)
  | Stop (s : mat_stop).
Arguments Go {A} a.
Arguments Stop {A} s.

#[export] Instance mat_ret : MRet mat := fun A a => Go a.
#[export] Instance mat_bind : MBind mat :=
  fun A B f m => match m with Go a => f a | Stop s => Stop s end.

Definition lift {A} (r : result A) : mat A :=
  match r with Ok a => Go a | Throw e => Stop (Thrown e) end.

(** A checked operation whose failure throws [std::overflow_error]. *)
Definition checked {A} (o : option A) : mat A :=
  match o with Some a => Go a | None => Stop (Thrown OverflowError) end.

(** [ScheduleMaterializationResult::ok]. *)
Definition mtr_ok (r : ScheduleMaterializationResult) : bool :=
  bool_decide (mtr_status r = MatSuccess) && bool_decide (is_Some (mtr_schedule r)).

(** ** Event order *)

Definition eventOrder (kind : MaterializedEventKind) : Z :=
  match kind with
  | BoundaryValueInject => 0
  | RFRead => 1
  | NodeIssue => 2
  | LinkLaunch => 3
  | RFWrite => 4
  | LiveOutBoundaryUse => 5
  end.

Definition order_key (e : Event) : Z * Z * Z * Z * Z * Z :=
  (eventOrder (ev_kind e), default u32_max (ev_edge e), default u32_max (ev_node e),
   default u32_max (ev_segment e), default u32_max (ev_transportActionIndex e),
   ev_logicalIteration e).

Definition eventLess (lhs rhs : Event) : bool := key_ltb (order_key lhs) (order_key rhs).

(** [std::stable_sort]: equal elements keep their order. *)
Fixpoint insert_event (e : Event) (l : list Event) : list Event :=
  match l with
  | [] => [e]
  | e' :: l => if eventLess e' e then e' :: insert_event e l else e :: e' :: l
  end.

Definition stable_sort (l : list Event) : list Event := foldr insert_event [] l.

Definition sortBundles (phase : SchedulePhase) : SchedulePhase := stable_sort <$> phase.

(** ** Collecting the events *)

Record Collected := mkCollected {
  cl_streams : list PeriodicStream;
  cl_oneShots : list OneShot;
  cl_minLogical : Z;
  cl_maxLogical : Z
}.

Definition blank_event (kind : MaterializedEventKind) (iteration : Z) : Event :=
  mkEvent kind iteration None None None None None None None None None None None.

Definition node_event (node : Z) : Event :=
  mkEvent NodeIssue 0 (Some node) None None None None None None None None None None.

Definition link_event (edge index distance : Z) (domain : NetworkDomain) (source : TileCoord)
    (direction : Direction) : Event :=
  mkEvent LinkLaunch (- distance) None (Some edge) None None (Some index) None None (Some domain)
    (Some source) (Some direction) None.

Definition inject_event (edge offset iteration : Z) (value : ExternalOperandBinding)
    (domain : NetworkDomain) (tile : TileCoord) : Event :=
  mkEvent BoundaryValueInject iteration None (Some edge) None None None (Some offset) (Some value)
    (Some domain) (Some tile) None None.

Definition rf_event (kind : MaterializedEventKind) (s : StorageSegment) (distance : Z)
    (reg : PhysicalRegister) : Event :=
  mkEvent kind (- distance) None (Some (sg_edge s)) (Some (sg_id s)) None None None None
    (Some (segment_domain (sg_domain s))) (Some (sg_tile s)) None (Some reg).

Definition live_out_event (liveOut : TargetLiveOut) (iteration : Z) : Event :=
  mkEvent LiveOutBoundaryUse iteration (Some (tlo_source liveOut)) None None (Some (tlo_id liveOut))
    None None None None None None None.

(** The lambda [account]. *)
Definition account (c : Collected) (first count period : Z) : result Collected :=
  if (count =? 0) || (period <=? 0) then Throw InvalidArgument
  else match (span ← mulSigned (count - 1) period; addSigned first span) with
       | None => Throw OverflowError
       | Some tail =>
           Ok (mkCollected (cl_streams c) (cl_oneShots c) (Z.min (cl_minLogical c) first)
                 (Z.max (cl_maxLogical c) tail))
       end.

Definition push_stream (c : Collected) (event : Event) (first count ii : Z) : mat Collected :=
  lift (account (mkCollected (cl_streams c ++ [mkStream event first count ii]) (cl_oneShots c)
                   (cl_minLogical c) (cl_maxLogical c)) first count ii).

Definition addOneShot (c : Collected) (shot : OneShot) : Collected :=
  mkCollected (cl_streams c) (cl_oneShots c ++ [shot]) (Z.min (cl_minLogical c) (os_logicalTime shot))
    (Z.max (cl_maxLogical c) (os_logicalTime shot)).

Definition boundaryValue (edge : TargetEdge) (offset : Z) : option ExternalOperandBinding :=
  boundary ← edge_boundary (te_info edge);
  rbv_value <$> find_if (fun value => rbv_iterationOffset value =? offset) boundary.

Section Materialize.
Context (dfg : TargetDFG) (target : TargetModel) (mapping : RFAllocatedMapping).
Context (request : ScheduleMaterializationRequest).

Let staged := ra_staged mapping.
Let ii := mm_ii (sm_modulo staged).
Let trip := mrq_tripCount request.

Definition signedTime (node : Z) : mat Z :=
  issue ← lift (logicalIssueTime staged node); checked (toSigned issue).

Fixpoint collect_nodes (nodes : list TargetNode) (c : Collected) : mat Collected :=
  match nodes with
  | [] => Go c
  | node :: nodes =>
      first ← signedTime (tn_id node);
      c ← push_stream c (node_event (tn_id node)) first trip ii;
      collect_nodes nodes c
  end.

Fixpoint collect_links (edge : TargetEdge) (firstBase : Z) (actions : list (Z * TransportAction))
    (c : Collected) : mat Collected :=
  match actions with
  | [] => Go c
  | (index, LinkStep domain source direction elapsed) :: actions =>
      first ← checked (addSigned firstBase elapsed);
      c ← push_stream c (link_event (te_id edge) index (te_distance edge) domain source direction)
            first trip ii;
      collect_links edge firstBase actions c
  | (_, VirtualHold _ _ _ _) :: actions => collect_links edge firstBase actions c
  end.

Definition missing_boundary (edge offset : Z) : mat_stop :=
  Returned MatMissingRecurrenceBoundaryValue
    (mkMatDiag MAT_BOUNDARY_VALUE_MISSING (Some edge) (Some offset)).

(** One round of the boundary loop of [edge]. *)
Definition collect_boundary (edge : TargetEdge) (offset : Z) (c : Collected) : mat Collected :=
  match boundaryValue edge offset with
  | None => Stop (missing_boundary (te_id edge) offset)
  | Some value =>
      source ← lift (td_node dfg (te_src edge));
      producer ← signedTime (te_src edge);
      negativeIteration ← checked (mulSigned (-1) (wrap32 (te_distance edge - offset)));
      iterationTime ← checked (mulSigned negativeIteration ii);
      readyOffset ← checked (toSigned (default 0 (tn_producerOutputReadyOffset source)));
      ready ← checked (addSigned producer iterationTime);
      ready ← checked (addSigned ready readyOffset);
      p ← lift (placement (sm_modulo staged) (te_src edge));
      Go (addOneShot c (mkShot (inject_event (te_id edge) offset negativeIteration value
                                  (edge_domain (TargetEdge_kind edge)) (np_tile p)) ready))
  end.

Fixpoint collect_boundaries (edge : TargetEdge) (offsets : list Z) (c : Collected) : mat Collected :=
  match offsets with
  | [] => Go c
  | offset :: offsets => c ← collect_boundary edge offset c; collect_boundaries edge offsets c
  end.

Fixpoint collect_edges (edges : list TargetEdge) (c : Collected) : mat Collected :=
  match edges with
  | [] => Go c
  | edge :: edges =>
      if bool_decide (TargetEdge_kind edge = EKMemory) then collect_edges edges c
      else
        d ← lift (dependence (sm_modulo staged) (te_id edge));
        transport ← lift (of_option InvalidArgument (md_transport d));
        sourceTime ← signedTime (te_src edge);
        distanceTime ← checked (mulSigned (te_distance edge) ii);
        firstBase ← checked (subtractSigned sourceTime distanceTime);
        c ← collect_links edge firstBase (enumerate (tp_actions transport)) c;
        c ← collect_boundaries edge (range (Z.min trip (te_distance edge))) c;
        collect_edges edges c
  end.

(** One round of the loop over write and read. *)
Definition collect_access (s : StorageSegment) (distance distanceTime : Z) (write : bool)
    (c : Collected) : mat Collected :=
  baseTime ← checked (toSigned (if write then sg_writeTime s else sg_readTime s));
  baseTime ← checked (subtractSigned baseTime distanceTime);
  reg ← lift (registerFor mapping (sg_id s));
  push_stream c (rf_event (if write then RFWrite else RFRead) s distance reg) baseTime trip ii.

Fixpoint collect_segments (segments : list StorageSegment) (c : Collected) : mat Collected :=
  match segments with
  | [] => Go c
  | s :: segments =>
      edge ← lift (td_edge dfg (sg_edge s));
      if bool_decide (TargetEdge_kind edge = EKMemory) then Stop (Thrown InvalidArgument)
      else
        distanceTime ← checked (mulSigned (te_distance edge) ii);
        c ← collect_access s (te_distance edge) distanceTime true c;
        c ← collect_access s (te_distance edge) distanceTime false c;
        collect_segments segments c
  end.

Fixpoint collect_liveOuts (liveOuts : list TargetLiveOut) (c : Collected) : mat Collected :=
  match liveOuts with
  | [] => Go c
  | liveOut :: liveOuts =>
      node ← lift (td_node dfg (tlo_source liveOut));
      latency ← lift (of_option InvalidArgument (tn_resultLatency node));
      sourceTime ← signedTime (tlo_source liveOut);
      iterationTime ← checked (mulSigned (trip - 1) ii);
      time ← checked (addSigned sourceTime iterationTime);
      time ← checked (addSigned time latency);
      collect_liveOuts liveOuts (addOneShot c (mkShot (live_out_event liveOut (trip - 1)) time))
  end.

Definition collect : mat Collected :=
  c ← collect_nodes (td_nodes dfg) (mkCollected [] [] i64_max i64_min);
  c ← collect_edges (td_edges dfg) c;
  c ← collect_segments (rq_segments (ra_requirements mapping)) c;
  collect_liveOuts (td_liveOuts dfg) c.

(** ** The time origin *)

Definition shifted (shiftSigned logical : Z) : mat Z :=
  value ← checked (addSigned logical shiftSigned);
  if value <? 0 then Stop (Thrown OverflowError) else Go value.

Fixpoint shift_streams (shiftSigned : Z) (streams : list PeriodicStream) : mat (list PeriodicStream) :=
  match streams with
  | [] => Go []
  | s :: streams =>
      time ← shifted shiftSigned (ps_firstLogicalTime s);
      time ← checked (toSigned time);
      streams ← shift_streams shiftSigned streams;
      Go (mkStream (ps_event s) time (ps_count s) (ps_period s) :: streams)
  end.

Fixpoint shift_shots (shiftSigned : Z) (shots : list OneShot) : mat (list OneShot) :=
  match shots with
  | [] => Go []
  | s :: shots =>
      time ← shifted shiftSigned (os_logicalTime s);
      time ← checked (toSigned time);
      shots ← shift_shots shiftSigned shots;
      Go (mkShot (os_event s) time :: shots)
  end.

(** ** The repeated periods *)

Fixpoint common_periods (streams : list PeriodicStream) (begin end_ : Z) : mat (Z * Z) :=
  match streams with
  | [] => Go (begin, end_)
  | s :: streams =>
      let firstPeriod := ps_firstLogicalTime s / ii in
      lastPeriod ← checked (addUnsigned firstPeriod (ps_count s - 1));
      common_periods streams (Z.max begin firstPeriod) (Z.min end_ lastPeriod)
  end.

Definition hasOneShotInPeriod (shots : list OneShot) (period : Z) : bool :=
  existsb (fun shot => os_logicalTime shot / ii =? period) shots.

(** The two trimming loops; every round passes a period of some one-shot event,
    so one round more than there are events is enough. *)
Fixpoint trim_begin (fuel : nat) (shots : list OneShot) (begin end_ : Z) : option (Z * Z) :=
  match fuel with
  | O => None
  | S fuel =>
      if (begin <=? end_) && hasOneShotInPeriod shots begin then
        if begin =? u64_max then Some (0, 0) else trim_begin fuel shots (begin + 1) end_
      else Some (begin, end_)
  end.

Fixpoint trim_end (fuel : nat) (shots : list OneShot) (begin end_ : Z) : option (Z * Z) :=
  match fuel with
  | O => None
  | S fuel =>
      if (begin <=? end_) && hasOneShotInPeriod shots end_ then
        if end_ =? 0 then Some (1, 0) else trim_end fuel shots begin (end_ - 1)
      else Some (begin, end_)
  end.

Definition trim (shots : list OneShot) (begin end_ : Z) : option (Z * Z) :=
  let fuel := S (length shots) in
  '(begin, end_) ← trim_begin fuel shots begin end_;
  trim_end fuel shots begin end_.

(** ** Placing the events *)

(** The kernel's periods and cycles; the begin and end cycles are zero without
    a kernel. *)
Record Factorization := mkFactorization {
  fz_begin : Z;
  fz_end : Z;
  fz_hasKernel : bool;
  fz_kernelStartCycle : Z;
  fz_kernelEndCycle : Z;
  fz_maxCycle : Z
}.

Record Phases := mkPhases {
  ph_prologue : SchedulePhase;
  ph_kernel : list CycleBundle;
  ph_epilogue : SchedulePhase;
  ph_explicitEvents : Z;
  ph_plannedExplicitEvents : Z
}.

(** [cycles[index].events.push_back(event)]. *)
Definition push_event (cycles : list CycleBundle) (index : Z) (event : Event) : list CycleBundle :=
  alter (fun events => events ++ [event]) (nat_of index) cycles.

Definition appendExplicit (f : Factorization) (event : Event) (cycle : Z) (ph : Phases)
  : mat Phases :=
  if cycle <? (if fz_hasKernel f then fz_kernelStartCycle f else fz_maxCycle f)
  then Go (mkPhases (push_event (ph_prologue ph) cycle event) (ph_kernel ph) (ph_epilogue ph)
             (ph_explicitEvents ph + 1) (ph_plannedExplicitEvents ph))
  else
    let index := wrap64 (cycle - fz_kernelEndCycle f) in
    if Z.of_nat (length (ph_epilogue ph)) <=? index then Stop (Thrown LogicError)
    else Go (mkPhases (ph_prologue ph) (ph_kernel ph) (push_event (ph_epilogue ph) index event)
               (ph_explicitEvents ph + 1) (ph_plannedExplicitEvents ph)).

Definition appendStreamInstance (f : Factorization) (s : PeriodicStream) (index : Z) (ph : Phases)
  : mat Phases :=
  logical ← checked (addSigned (ev_logicalIteration (ps_event s)) index);
  let event := at_iteration (ps_event s) logical in
  span ← checked (mulSigned index ii);
  cycle ← checked (addSigned (ps_firstLogicalTime s) span);
  if cycle <? 0 then Stop (Thrown OverflowError)
  else if negb (fz_hasKernel f) || (cycle <? fz_kernelStartCycle f) || (fz_kernelEndCycle f <=? cycle)
  then appendExplicit f event cycle ph
  else Go ph.

Fixpoint append_instances (f : Factorization) (s : PeriodicStream) (indices : list Z) (ph : Phases)
  : mat Phases :=
  match indices with
  | [] => Go ph
  | index :: indices =>
      ph ← appendStreamInstance f s index ph; append_instances f s indices ph
  end.

(** The kernel instance of a stream. *)
Definition append_kernel (f : Factorization) (s : PeriodicStream) (ph : Phases) : mat Phases :=
  let kernelIndex := wrap64 (fz_begin f - ps_firstLogicalTime s / ii) in
  if ps_count s <=? kernelIndex then Stop (Thrown LogicError)
  else
    let event := at_iteration (ps_event s) (ev_logicalIteration (ps_event s) + kernelIndex) in
    cycleOffset ← checked (mulUnsigned kernelIndex ii);
    cycle ← checked (addUnsigned (ps_firstLogicalTime s) cycleOffset);
    Go (mkPhases (ph_prologue ph) (push_event (ph_kernel ph) (cycle mod ii) event) (ph_epilogue ph)
          (ph_explicitEvents ph) (ph_plannedExplicitEvents ph)).

(** How many instances of a stream come after the kernel. *)
Definition instances_after (f : Factorization) (s : PeriodicStream) : mat Z :=
  if fz_hasKernel f then
    streamEndExclusive ← checked (addUnsigned (ps_firstLogicalTime s / ii) (ps_count s));
    kernelEndExclusive ← checked (addUnsigned (fz_end f) 1);
    Go (if kernelEndExclusive <? streamEndExclusive
        then streamEndExclusive - kernelEndExclusive else 0)
  else Go 0.

Definition place_stream (f : Factorization) (s : PeriodicStream) (ph : Phases) : mat Phases :=
  ph ← (if fz_hasKernel f then append_kernel f s ph else Go ph);
  let before := if fz_hasKernel f then wrap64 (fz_begin f - ps_firstLogicalTime s / ii)
                else ps_count s in
  after ← instances_after f s;
  match (boundaryEvents ← addUnsigned before after;
         addUnsigned (ph_plannedExplicitEvents ph) boundaryEvents) with
  | None => Stop (Thrown LengthError)
  | Some planned =>
      if mab_maxExplicitBoundaryEvents (mrq_budget request) <? planned
      then Stop (Thrown LengthError)
      else
        let ph := mkPhases (ph_prologue ph) (ph_kernel ph) (ph_epilogue ph) (ph_explicitEvents ph)
                    planned in
        ph ← append_instances f s (range before) ph;
        if fz_hasKernel f
        then append_instances f s (seqZ (ps_count s - after) after) ph
        else Go ph
  end.

Fixpoint place_streams (f : Factorization) (streams : list PeriodicStream) (ph : Phases) : mat Phases :=
  match streams with
  | [] => Go ph
  | s :: streams => ph ← place_stream f s ph; place_streams f streams ph
  end.

Fixpoint place_shots (f : Factorization) (shots : list OneShot) (ph : Phases) : mat Phases :=
  match shots with
  | [] => Go ph
  | shot :: shots =>
      ph ← appendExplicit f (os_event shot) (os_logicalTime shot) ph; place_shots f shots ph
  end.

(** The kernel's periods, and how often its body repeats. *)
Definition factorize (streams : list PeriodicStream) (shots : list OneShot) (maxCycle : Z)
  : mat (Factorization * Z) :=
  '(begin, end_) ← common_periods streams 0 (match streams with [] => 0 | _ => u64_max end);
  match trim shots begin end_ with
  | None => Stop NoFuel
  | Some (begin, end_) =>
      if (begin <=? end_) &&
         existsb (fun shot => let period := os_logicalTime shot / ii in
                    (begin <=? period) && (period <=? end_)) shots
      then Stop (Returned MatPhaseFactorizationError
                   (mkMatDiag MAT_PHASE_FACTORIZATION_FAILED None None))
      else if bool_decide (streams <> []) && (begin <=? end_) then
        kernelRepeatCount ← checked (addUnsigned (end_ - begin) 1);
        kernelStartCycle ← checked (mulUnsigned begin ii);
        endPlusOne ← checked (addUnsigned end_ 1);
        kernelEndCycle ← checked (mulUnsigned endPlusOne ii);
        Go (mkFactorization begin end_ true kernelStartCycle kernelEndCycle maxCycle,
            kernelRepeatCount)
      else Go (mkFactorization begin end_ false 0 0 maxCycle, 0)
  end.

Definition prologue_cycles (f : Factorization) : Z :=
  if fz_hasKernel f then fz_kernelStartCycle f else fz_maxCycle f.
Definition epilogue_cycles (f : Factorization) : Z :=
  if fz_hasKernel f then wrap64 (fz_maxCycle f - fz_kernelEndCycle f) else 0.

Definition over_budget : mat_stop :=
  Returned MatBudgetExceeded (mkMatDiag MAT_EXPLICIT_BOUNDARY_BUDGET_EXCEEDED None None).

(** The empty phases. *)
Definition no_events (f : Factorization) (shots : list OneShot) : Phases :=
  mkPhases (replicate (nat_of (prologue_cycles f)) [])
    (replicate (nat_of (if fz_hasKernel f then ii else 0)) [])
    (replicate (nat_of (epilogue_cycles f)) []) 0 (Z.of_nat (length shots)).

Definition build_phases (f : Factorization) (streams : list PeriodicStream) (shots : list OneShot)
  : mat Phases :=
  let maxCycles := mab_maxExplicitBoundaryCycles (mrq_budget request) in
  if (maxCycles <? prologue_cycles f) || (maxCycles <? epilogue_cycles f)
  then Stop over_budget
  else
    ph ← place_streams f streams (no_events f shots);
    ph ← place_shots f shots ph;
    Go (mkPhases (sortBundles (ph_prologue ph)) (sortBundles (ph_kernel ph))
          (sortBundles (ph_epilogue ph)) (ph_explicitEvents ph) (ph_plannedExplicitEvents ph)).

(** ** The statistics as they fill up *)

Definition initial_stats : ScheduleMaterializationStats := mkMatStats trip 0 0 0 0 0 0 0 0 0 0.

Definition count_shots (kind : MaterializedEventKind) (shots : list OneShot) : Z :=
  Z.of_nat (length (filter (fun shot => ev_kind (os_event shot) = kind) shots)).

Definition collected_stats (c : Collected) (shift total : Z) : ScheduleMaterializationStats :=
  mkMatStats trip (Z.of_nat (length (cl_streams c))) (Z.of_nat (length (cl_oneShots c))) 0 0 0 0
    (count_shots BoundaryValueInject (cl_oneShots c))
    (count_shots LiveOutBoundaryUse (cl_oneShots c)) shift total.

Definition final_stats (c : Collected) (shift total : Z) (ph : Phases) (repeatCount : Z)
  : ScheduleMaterializationStats :=
  mkMatStats trip (Z.of_nat (length (cl_streams c))) (Z.of_nat (length (cl_oneShots c)))
    (Z.of_nat (length (ph_prologue ph))) (Z.of_nat (length (ph_epilogue ph))) repeatCount
    (ph_explicitEvents ph) (count_shots BoundaryValueInject (cl_oneShots c))
    (count_shots LiveOutBoundaryUse (cl_oneShots c)) shift total.

(** The exception handlers. *)
Definition thrown_status (e : exn)
  : ScheduleMaterializationStatus * ScheduleMaterializationDiagnosticCode :=
  match e with
  | LengthError => (MatBudgetExceeded, MAT_EXPLICIT_BOUNDARY_BUDGET_EXCEEDED)
  | OverflowError => (MatArithmeticOverflow, MAT_TIME_ARITHMETIC_OVERFLOW)
  | _ => (MatInternalError, MAT_INTERNAL_ERROR)
  end.

Definition stopped_result (s : mat_stop) (stats : ScheduleMaterializationStats)
  : option ScheduleMaterializationResult :=
  match s with
  | Thrown e =>
      let '(status, code) := thrown_status e in
      Some (mkMatResult status None stats [mkMatDiag code None None])
  | Returned status diag => Some (mkMatResult status None stats [diag])
  | NoFuel => None
  end.

(** From the phases to the verified schedule. *)
Definition finish_schedule (c : Collected) (shift total : Z) (ph : Phases) (repeatCount : Z)
  : option ScheduleMaterializationResult :=
  let stats := final_stats c shift total ph repeatCount in
  let schedule := mkSchedule ii trip shift total (ph_prologue ph)
                    (mkKernel (ph_kernel ph) repeatCount) (ph_epilogue ph) in
  match msv_verify dfg target mapping request schedule with
  | Throw e =>
      let '(status, code) := thrown_status e in
      Some (mkMatResult status (Some schedule) stats [mkMatDiag code None None])
  | Ok [] => Some (mkMatResult MatSuccess (Some schedule) stats [])
  | Ok _ => Some (mkMatResult MatVerificationFailure None stats
                    [mkMatDiag MAT_FINAL_VERIFICATION_FAILED None None])
  end.

(** The [try] block after the events are collected. *)
Definition materialize_events (c : Collected) : option ScheduleMaterializationResult :=
  let stats := collected_stats c 0 0 in
  if mab_maxExplicitBoundaryEvents (mrq_budget request) <? Z.of_nat (length (cl_oneShots c))
  then stopped_result over_budget stats
  else if (cl_minLogical c =? i64_max) || (cl_maxLogical c =? i64_min)
  then stopped_result (Thrown InvalidArgument) stats
  else if cl_minLogical c =? i64_min then stopped_result (Thrown OverflowError) stats
  else
    let shift := if cl_minLogical c <? 0 then - cl_minLogical c else 0 in
    match shifted shift (cl_maxLogical c) with
    | Stop s => stopped_result s (collected_stats c shift 0)
    | Go maxCycle =>
        if maxCycle =? u64_max then stopped_result (Thrown OverflowError) (collected_stats c shift 0)
        else
          let total := maxCycle + 1 in
          match (streams ← shift_streams shift (cl_streams c);
                 shots ← shift_shots shift (cl_oneShots c);
                 '(f, repeatCount) ← factorize streams shots total;
                 ph ← build_phases f streams shots;
                 Go (ph, repeatCount)) with
          | Stop s => stopped_result s (collected_stats c shift total)
          | Go (ph, repeatCount) => finish_schedule c shift total ph repeatCount
          end
    end.

Definition mat_fail (status : ScheduleMaterializationStatus)
    (code : ScheduleMaterializationDiagnosticCode) : option ScheduleMaterializationResult :=
  Some (mkMatResult status None initial_stats [mkMatDiag code None None]).

(** [ScheduleMaterializer::materialize]. *)
Definition schedule_materialize : result (option ScheduleMaterializationResult) :=
  if trip =? 0 then Ok (mat_fail MatInvalidTripCount MAT_INVALID_TRIP_COUNT)
  else if i64_max <? trip then Ok (mat_fail MatArithmeticOverflow MAT_TIME_ARITHMETIC_OVERFLOW)
  else
    targetReport ← tdfg_verify dfg target None;
    if negb (bool_decide (targetReport = [])) then Ok (mat_fail MatInvalidTargetDFG MAT_INVALID_TARGET_DFG)
    else
      rfReport ← rf_verify dfg target mapping;
      if negb (bool_decide (rfReport = []))
      then Ok (mat_fail MatInvalidRFAllocatedMapping MAT_INVALID_RF_MAPPING)
      else if ii =? 0 then Ok (mat_fail MatInvalidRFAllocatedMapping MAT_INVALID_RF_MAPPING)
      else match collect with
           | Stop s => Ok (stopped_result s initial_stats)
           | Go c => Ok (materialize_events c)
           end.
End Materialize.
