(* ===== verification/MaterializeSpec.v ===== *)
(** * What a materialized schedule must contain

    The finite execution of a register-allocated mapping, independent of how the
    materializer arranges it: the periodic streams and one-shot events, their
    occurrences in absolute cycles, the unrolling of a schedule, and what
    allocation verification guarantees about the times involved. *)
From stdpp Require Import base numbers list gmap sorting strings.
From S2P Require Import Prelude.
From S2P Require Import IR.
From S2P Require Import TargetModel.
From S2P Require Import TargetDFG.
From S2P Require Import TargetDFGVerifier.
From S2P Require Import ModuloResources.
From S2P Require Import ModuloMapping.
From S2P Require Import MappingVerifier.
From S2P Require Import MIIAnalyzer.
From S2P Require Import StageScheduler.
From S2P Require Import StorageRequirements.
From S2P Require Import RFAllocation.
From S2P Require Import MaterializedSchedule.
From S2P Require Import MaterializedVerifier.
From S2P Require Import ScheduleMaterializer.

(** ** The execution of [trip] iterations *)

Section Execution.
Context (dfg : TargetDFG) (mapping : RFAllocatedMapping) (trip : Z).

Let staged := ra_staged mapping.
Let ii := mm_ii (sm_modulo staged).

Definition issue_of (node : Z) : Z :=
  match logicalIssueTime staged node with Ok t => t | Throw _ => 0 end.
Definition tile_of_node (node : Z) : TileCoord :=
  match placement (sm_modulo staged) node with Ok p => np_tile p | Throw _ => mkTile 0 0 end.
Definition ready_of (node : Z) : Z :=
  match td_node dfg node with Ok n => default 0 (tn_producerOutputReadyOffset n) | Throw _ => 0 end.
Definition latency_of (node : Z) : Z :=
  match td_node dfg node with Ok n => default 0 (tn_resultLatency n) | Throw _ => 0 end.
Definition plan_of (edge : TargetEdge) : list TransportAction :=
  match dependence (sm_modulo staged) (te_id edge) with
  | Ok d => match md_transport d with Some plan => tp_actions plan | None => [] end
  | Throw _ => []
  end.
Definition distance_of (edge : Z) : Z :=
  match td_edge dfg edge with Ok e => te_distance e | Throw _ => 0 end.
Definition register_of (s : StorageSegment) : PhysicalRegister :=
  match registerFor mapping (sg_id s) with Ok r => r | Throw _ => mkRegister (mkTile 0 0) "" 0 end.

Definition value_edges (edges : list TargetEdge) : list TargetEdge :=
  filter (fun edge => TargetEdge_kind edge <> EKMemory) edges.

(** A stream is its first event with the cycle of it, relative to the issue of
    iteration 0; its other events follow every [ii] cycles. *)
Definition node_stream (node : TargetNode) : Event * Z :=
  (node_event (tn_id node), issue_of (tn_id node)).

(** The issue of the producer of the first value an edge carries. *)
Definition first_base (edge : TargetEdge) : Z := issue_of (te_src edge) - te_distance edge * ii.

Definition link_stream (edge : TargetEdge) (action : Z * TransportAction) : option (Event * Z) :=
  match action with
  | (index, LinkStep domain source direction elapsed) =>
      Some (link_event (te_id edge) index (te_distance edge) domain source direction,
            first_base edge + elapsed)
  | (_, VirtualHold _ _ _ _) => None
  end.

Definition edge_streams (edge : TargetEdge) : list (Event * Z) :=
  omap (link_stream edge) (enumerate (plan_of edge)).

Definition segment_streams (s : StorageSegment) : list (Event * Z) :=
  let distance := distance_of (sg_edge s) in
  [(rf_event RFWrite s distance (register_of s), sg_writeTime s - distance * ii);
   (rf_event RFRead s distance (register_of s), sg_readTime s - distance * ii)].

Definition periodic_streams : list (Event * Z) :=
  (node_stream <$> td_nodes dfg) ++ flat_map edge_streams (value_edges (td_edges dfg)) ++
  flat_map segment_streams (rq_segments (ra_requirements mapping)).

(** The seeds of the values that no iteration of the loop produces. *)
Definition injection (edge : TargetEdge) (offset : Z) : option (Event * Z) :=
  (fun value => (inject_event (te_id edge) offset (offset - te_distance edge) value
                   (edge_domain (TargetEdge_kind edge)) (tile_of_node (te_src edge)),
                 issue_of (te_src edge) + (offset - te_distance edge) * ii + ready_of (te_src edge)))
  <$> boundaryValue edge offset.

Definition edge_injections (edge : TargetEdge) : list (Event * Z) :=
  omap (injection edge) (range (Z.min trip (te_distance edge))).

Definition live_out_use (liveOut : TargetLiveOut) : Event * Z :=
  (live_out_event liveOut (trip - 1),
   issue_of (tlo_source liveOut) + (trip - 1) * ii + latency_of (tlo_source liveOut)).

Definition one_shots : list (Event * Z) :=
  flat_map edge_injections (value_edges (td_edges dfg)) ++ (live_out_use <$> td_liveOuts dfg).

(** *** Absolute cycles *)

Definition last_time (stream : Event * Z) : Z := stream.2 + (trip - 1) * ii.

Definition lowest (l : list Z) : Z := foldr Z.min i64_max l.
Definition highest (l : list Z) : Z := foldr Z.max i64_min l.

Definition first_times : list Z := periodic_streams.*2 ++ one_shots.*2.
Definition last_times : list Z := (last_time <$> periodic_streams) ++ one_shots.*2.

(** Cycle 0 is the earliest event, or the issue origin when nothing precedes it. *)
Definition time_origin : Z := if lowest first_times <? 0 then - lowest first_times else 0.
Definition total_cycles : Z := highest last_times + time_origin + 1.

Definition advance_event (k : Z) (event : Event) : Event :=
  at_iteration event (ev_logicalIteration event + k).

(** The [k]-th event of a stream with its cycle. *)
Definition occurrence (origin : Z) (stream : Event * Z) (k : Z) : Z * Event :=
  (stream.2 + k * ii + origin, advance_event k stream.1).

Definition shot_cell (origin : Z) (shot : Event * Z) : Z * Event := (shot.2 + origin, shot.1).

(** Every event of the execution with its cycle, from a time origin on. *)
Definition events_from (origin : Z) : list (Z * Event) :=
  flat_map (fun stream => occurrence origin stream <$> range trip) periodic_streams ++
  (shot_cell origin <$> one_shots).

Definition expected_events : list (Z * Event) := events_from time_origin.
End Execution.

(** ** The events of a schedule *)

(** The events of consecutive cycles from [base] on. *)
Definition cells (base : Z) (cycles : list CycleBundle) : list (Z * Event) :=
  flat_map (fun '(offset, events) => (fun event => (base + offset, event)) <$> events)
    (enumerate cycles).

(** The kernel's [k]-th repetition. *)
Definition repetition (ii k : Z) (cell : Z * Event) : Z * Event :=
  (cell.1 + k * ii, advance_event k cell.2).

Definition unroll (s : MaterializedSchedule) : list (Z * Event) :=
  let kernelStart := Z.of_nat (length (sch_prologue s)) in
  let kernel := sch_kernel s in
  cells 0 (sch_prologue s) ++
  flat_map (fun k => repetition (sch_ii s) k <$> cells kernelStart (rk_body kernel))
    (range (rk_repeatCount kernel)) ++
  cells (kernelStart + rk_repeatCount kernel * sch_ii s) (sch_epilogue s).

(** The fields of an event that mean something for its kind. *)
Definition meaning (e : Event) : Event :=
  match ev_kind e with
  | NodeIssue => mkEvent NodeIssue (ev_logicalIteration e) (ev_node e) None None None None None None
                   None None None None
  | LinkLaunch => mkEvent LinkLaunch (ev_logicalIteration e) None (ev_edge e) None None
                    (ev_transportActionIndex e) None None (ev_domain e) (ev_tile e) (ev_direction e)
                    None
  | RFRead | RFWrite =>
      mkEvent (ev_kind e) (ev_logicalIteration e) None (ev_edge e) (ev_segment e) None None None None
        (ev_domain e) (ev_tile e) None (ev_physicalRegister e)
  | BoundaryValueInject =>
      mkEvent BoundaryValueInject (ev_logicalIteration e) None (ev_edge e) None None None
        (ev_consumerIterationOffset e) (ev_boundaryValue e) (ev_domain e) (ev_tile e) None None
  | LiveOutBoundaryUse =>
      mkEvent LiveOutBoundaryUse (ev_logicalIteration e) (ev_node e) None None (ev_liveOut e) None
        None None None None None None
  end.

Definition meant (cell : Z * Event) : Z * Event := (cell.1, meaning cell.2).

(** A schedule of exactly the execution: the phases cover the cycles from the
    origin to the last event, one-shot events stay out of the kernel, and
    unrolling yields every event of the execution once, in its cycle. *)
Record schedule_exact (dfg : TargetDFG) (mapping : RFAllocatedMapping) (trip : Z)
    (s : MaterializedSchedule) : Prop := {
  se_ii : sch_ii s = mm_ii (sm_modulo (ra_staged mapping));
  se_trip : sch_tripCount s = trip;
  se_origin : sch_timeOriginShift s = time_origin dfg mapping trip;
  se_total : sch_totalLogicalCycles s = total_cycles dfg mapping trip;
  se_kernel : Z.of_nat (length (rk_body (sch_kernel s))) =
    if rk_repeatCount (sch_kernel s) =? 0 then 0 else sch_ii s;
  se_cycles : Z.of_nat (length (sch_prologue s)) + rk_repeatCount (sch_kernel s) * sch_ii s +
    Z.of_nat (length (sch_epilogue s)) = sch_totalLogicalCycles s;
  se_periodic : forall events e, events ∈ rk_body (sch_kernel s) -> e ∈ events ->
    is_one_shot (ev_kind e) = false;
  se_events : meant <$> unroll s ≡ₚ expected_events dfg mapping trip
}.

(** ** What allocation verification guarantees *)

(** The constructor of an allocated mapping sorts its allocations. *)
Definition sorted_allocations (mapping : RFAllocatedMapping) : Prop :=
  StronglySorted (by_key sl_segment) (ra_allocations mapping).

Lemma RFAllocatedMapping_new_sorted staged requirements allocations mapping :
  RFAllocatedMapping_new staged requirements allocations = Ok mapping -> sorted_allocations mapping.
Proof.
  unfold RFAllocatedMapping_new. case_match; [done|]. intros [= <-]. apply sort_by_sorted.
Qed.

(** [std::lower_bound] finds an element by its key in a sorted vector. *)
Lemma lower_bound_find {A} (key : A -> Z) l x :
  StronglySorted (by_key key) l -> find_if (fun y => key y =? key x) l = Some x ->
  find_if (fun y => key x <=? key y) l = Some x.
Proof.
  induction 1 as [|y l Hs IH Hall]; intros H; [done|]. simpl in *.
  destruct (Z.eqb_spec (key y) (key x)) as [E|E].
  - injection H as ->. by rewrite Z.leb_refl.
  - assert (Hin : x ∈ l) by by apply find_if_Some in H as [? _].
    rewrite Forall_forall in Hall. specialize (Hall x Hin). unfold by_key in Hall.
    rewrite (proj2 (Z.leb_gt _ _)) by lia. by apply IH.
Qed.

Lemma logical_times_total staged nodes times diags times' :
  logical_times staged nodes times diags = Ok (times', []) ->
  diags = [] /\ forall node, node ∈ nodes -> exists t, logicalIssueTime staged (tn_id node) = Ok t.
Proof.
  revert times diags. induction nodes as [|n nodes IH]; intros times diags; simpl.
  { intros [= _ ->]. split; [done|]. intros node Hin. by apply not_elem_of_nil in Hin. }
  destruct (logicalIssueTime staged (tn_id n)) as [t|[]] eqn:E; try done; intros H;
    apply IH in H as [Hd Hall].
  - split; [done|]. intros node [->|Hin]%elem_of_cons; [by exists t|by apply Hall].
  - by apply app_nil in Hd as [_ ?].
  - by apply app_nil in Hd as [_ ?].
Qed.

Lemma sav_verify_nodes dfg target staged :
  sav_verify dfg target staged = Ok [] ->
  forall node, node ∈ td_nodes dfg -> exists t, logicalIssueTime staged (tn_id node) = Ok t.
Proof.
  unfold sav_verify. intros H. inv_ok. case_bool_decide; [|done]. simpl in H.
  destruct (negb _); [done|]. inv_ok. case_bool_decide; [|done]. simpl in H.
  destruct (stage_coverage_diags dfg staged); [|done]. inv_ok. destruct v1 as [times [|]]; [|done].
  by apply (logical_times_total staged (td_nodes dfg) ∅ [] times).
Qed.

(** The links of a route leave within its separation. *)
Lemma route_link_between target hop domain tile elapsed actions tile' elapsed' :
  0 < hop -> route target hop domain tile elapsed actions tile' elapsed' ->
  elapsed <= elapsed' /\ forall domain source direction t,
    LinkStep domain source direction t ∈ actions -> elapsed <= t < elapsed'.
Proof.
  intros Hhop. induction 1 as [|tile elapsed direction next actions tile' elapsed' _ _ [IH1 IH2]
    |tile elapsed release actions tile' elapsed' Hlt _ [IH1 IH2]].
  - split; [lia|]. intros ???? Hin. by apply not_elem_of_nil in Hin.
  - split; [lia|]. intros d s r t [E|Hin]%elem_of_cons.
    + injection E as -> -> -> ->. lia.
    + apply IH2 in Hin. lia.
  - split; [lia|]. intros d s r t [E|Hin]%elem_of_cons; [done|]. apply IH2 in Hin. lia.
Qed.

(** Tile coordinates are unsigned numbers. *)
Definition unsigned_coord (tile : TileCoord) : Prop := 0 <= tile_row tile /\ 0 <= tile_col tile.

Lemma neighbor_unsigned target tile direction next :
  unsigned_coord tile -> neighbor_in target tile direction = Some next -> unsigned_coord next.
Proof.
  unfold neighbor_in, neighbor, unsigned_coord. intros [? ?].
  assert (Hw : forall x, 0 <= wrap32 x) by (intros x; apply Z.mod_pos_bound; lia).
  repeat case_match; try done; intros [= <-]; simpl; split; try done; lia.
Qed.

(** A route stays on tiles with unsigned coordinates. *)
Lemma route_unsigned target hop domain tile elapsed actions tile' elapsed' :
  route target hop domain tile elapsed actions tile' elapsed' -> unsigned_coord tile ->
  (forall domain source direction t, LinkStep domain source direction t ∈ actions -> unsigned_coord source) /\
  (forall domain at_ t t', VirtualHold domain at_ t t' ∈ actions -> unsigned_coord at_) /\
  unsigned_coord tile'.
Proof.
  induction 1 as [|tile elapsed direction next actions tile' elapsed' [_ Hn] _ IH
    |tile elapsed release actions tile' elapsed' _ _ IH]; intros Ht.
  - split_and!; [intros ???? H%not_elem_of_nil; done|intros ???? H%not_elem_of_nil; done|done].
  - destruct IH as (H1 & H2 & H3); [by eapply neighbor_unsigned|]. split_and!; [| |done].
    + intros d s r t [[= -> -> -> ->]|Hin]%elem_of_cons; [done|by eapply H1].
    + intros d a t t' [E|Hin]%elem_of_cons; [done|by eapply H2].
  - destruct IH as (H1 & H2 & H3); [done|]. split_and!; [| |done].
    + intros d s r t [E|Hin]%elem_of_cons; [done|by eapply H1].
    + intros d a t t' [[= -> -> -> ->]|Hin]%elem_of_cons; [done|by eapply H2].
Qed.

Section Facts.
Context (dfg : TargetDFG) (target : TargetModel) (mapping : RFAllocatedMapping).

Abbreviation staged := (ra_staged mapping).
Abbreviation ii := (mm_ii (sm_modulo (ra_staged mapping))).
Abbreviation segments := (rq_segments (ra_requirements mapping)).

Record execution_facts : Prop := {
  xf_ii : 0 < ii <= u32_max;
  xf_nodes : NoDup (tn_id <$> td_nodes dfg);
  xf_edges : NoDup (te_id <$> td_edges dfg);
  xf_liveOuts : NoDup (tlo_id <$> td_liveOuts dfg);
  xf_segments : NoDup (sg_id <$> segments);
  xf_node : forall node, node ∈ td_nodes dfg ->
    td_node dfg (tn_id node) = Ok node /\
    logicalIssueTime staged (tn_id node) = Ok (issue_of mapping (tn_id node)) /\
    0 <= issue_of mapping (tn_id node) /\
    (exists p, placement (sm_modulo staged) (tn_id node) = Ok p) /\
    is_u32 (ready_of dfg (tn_id node)) /\ is_u32 (latency_of dfg (tn_id node));
  xf_edge : forall edge, edge ∈ td_edges dfg ->
    td_edge dfg (te_id edge) = Ok edge /\ is_u32 (te_distance edge) /\
    exists src, src ∈ td_nodes dfg /\ tn_id src = te_src edge;
  xf_plan : forall edge, edge ∈ td_edges dfg -> TargetEdge_kind edge <> EKMemory ->
    exists d plan, dependence (sm_modulo staged) (te_id edge) = Ok d /\
      md_transport d = Some plan /\ plan_of mapping edge = tp_actions plan;
  xf_link : forall edge domain source direction elapsed,
    edge ∈ td_edges dfg -> TargetEdge_kind edge <> EKMemory ->
    LinkStep domain source direction elapsed ∈ plan_of mapping edge ->
    is_u32 elapsed /\ unsigned_coord source;
  xf_segment : forall s, s ∈ segments ->
    exists edge, edge ∈ td_edges dfg /\ te_id edge = sg_edge s /\ TargetEdge_kind edge <> EKMemory /\
      registerFor mapping (sg_id s) = Ok (register_of mapping s) /\
      0 <= sg_writeTime s < sg_readTime s /\ unsigned_coord (sg_tile s);
  xf_placement : forall node p, placement (sm_modulo staged) node = Ok p -> unsigned_coord (np_tile p);
  xf_liveOut : forall liveOut, liveOut ∈ td_liveOuts dfg ->
    exists node, node ∈ td_nodes dfg /\ tn_id node = tlo_source liveOut
}.

Context (Hinv : TargetDFG_inv dfg) (Htwf : TargetModel_wf target) (Htyped : typed_graph dfg).
Context (Hrf : register_files_wf target).
Context (Hst : typed_staged staged) (Hal : typed_allocations mapping) (Hfit : segments_fit mapping).
Context (Hsorted : sorted_allocations mapping) (Hu : universe_fits target ii).
Context (Hverified : rf_verify dfg target mapping = Ok []).

Lemma node_times node :
  TargetDFG_valid dfg target None -> node ∈ td_nodes dfg ->
  td_node dfg (tn_id node) = Ok node /\
  is_u32 (ready_of dfg (tn_id node)) /\ is_u32 (latency_of dfg (tn_id node)).
Proof using Hinv Htwf.
  intros Hvalid Hn. assert (Htd : td_node dfg (tn_id node) = Ok node) by by apply td_node_Ok.
  split; [done|]. unfold ready_of, latency_of. rewrite Htd.
  destruct (tv_nodes _ _ _ Hvalid node Hn) as (op & Hop & _ & _ & _ & El & Er & _).
  pose proof (wf_timing target Htwf op (findOperation_elem target _ _ Hop)) as Ht.
  rewrite <- El, <- Er. unfold is_u32.
  destruct (op_resultRole op); [| |destruct Ht as [-> ->]; simpl; unfold u32_max; lia];
    destruct Ht as [(l & -> & ?) (r & -> & ?)]; simpl; lia.
Qed.

Lemma placement_unsigned node p : placement (sm_modulo staged) node = Ok p -> unsigned_coord (np_tile p).
Proof using Hst.
  intros Hp. apply of_option_Ok, find_if_Some in Hp as [Hp _].
  destruct Hst as [[_ Hpl] _]. by destruct (Hpl p Hp) as (? & ? & _).
Qed.

(** A segment lies at a hold of its edge's route or at the consumer. *)
Lemma segment_unsigned s : s ∈ segments -> unsigned_coord (sg_tile s).
Proof using Hinv Htwf Htyped Hst Hu Hverified.
  intros Hs. pose proof Hverified as (Hsav & Hq & _)%rf_verify_report.
  destruct (sav_verify_clean dfg target _ Hinv Htwf Htyped Hst Hu Hsav) as [Hvm Htimes].
  destruct (requirements_confirmed dfg target mapping Hinv Htwf Htyped Hst Hu Hsav Hq)
    as (_ & _ & Hedge & Hstore & _).
  destruct (Hedge s Hs) as (edge & He & Hk & Eid). destruct (Hstore edge He Hk) as (T & HT & Hes).
  assert (Hin : s ∈ filter (fun s => sg_edge s = te_id edge) segments) by (by apply list_elem_of_filter).
  destruct (value_edge_timing dfg target staged Hinv Htwf Hvm Htimes edge He Hk)
    as (issue & consumer & d & plan & p & ready & src & _ & _ & Hsrc & _ & _ & ET & Hroute).
  rewrite ET in HT. injection HT as <-.
  apply route_unsigned in Hroute as (_ & Hholds & Hdst).
  - destruct (es_attributes _ _ _ _ Hes s Hin) as (_ & _ & Hw & _).
    destruct (proj1 (es_stored _ _ _ _ Hes (sg_tile s) (sg_writeTime s)))
      as [(domain & capture & release & Hhold & _)|[-> _]]; [|by eapply Hholds|done].
    exists s. split_and!; [done..|lia|lia].
  - by eapply placement_unsigned.
Qed.

Lemma verified_facts : execution_facts.
Proof using All.
  pose proof Hverified as (Hsav & Hq & _)%rf_verify_report.
  pose proof Hverified as Hva. apply rf_verify_valid in Hva; try done.
  destruct (sav_verify_clean dfg target _ Hinv Htwf Htyped Hst Hu Hsav) as [Hvm Htimes].
  pose proof (vm_ii _ _ _ Hvm) as Hii0. pose proof (vm_graph _ _ _ Hvm) as Hvalid.
  pose proof Hst as [[[Hii1 Hii2] _] _].
  pose proof placement_unsigned as Hplaces.
  assert (Hvalue : forall edge, edge ∈ td_edges dfg -> TargetEdge_kind edge <> EKMemory ->
    exists d plan, dependence (sm_modulo staged) (te_id edge) = Ok d /\
      md_transport d = Some plan /\ plan_of mapping edge = tp_actions plan /\
      forall domain source direction elapsed,
        LinkStep domain source direction elapsed ∈ tp_actions plan ->
        is_u32 elapsed /\ unsigned_coord source).
  { intros edge He Hk. destruct (value_edge_timing dfg target staged Hinv Htwf Hvm Htimes edge He Hk)
      as (issue & consumer & d & plan & p & ready & src & Htd & Hp & Hsrc & _ & Hready & _ & Hroute).
    destruct Htd as (_ & _ & Hd & _). exists d, plan. unfold plan_of. rewrite Hd, Hp.
    split_and!; try done. intros domain source direction elapsed Hin.
    split; [|destruct (route_unsigned _ _ _ _ _ _ _ _ Hroute (Hplaces _ _ Hsrc)) as [Hl _]; by eapply Hl].
    apply route_link_between in Hroute as [_ Hb]; [|by destruct (wf_hopLatency target Htwf)].
    apply Hb in Hin. destruct Hst as (_ & Hdep & _). unfold dependence in Hd.
    apply of_option_Ok, find_if_Some in Hd as [Hd _]. specialize (Hdep d Hd).
    unfold is_u32 in *. lia. }
  split.
  - lia.
  - by apply td_nodes_NoDup.
  - by apply td_edges_NoDup.
  - apply Hvalid.
  - by apply (segment_ids dfg target mapping Hinv Htwf Htyped Hst Hu Hsav Hq).
  - intros node Hn. destruct (node_times node Hvalid Hn) as (Htd & Hready & Hlat).
    destruct (sav_verify_nodes _ _ _ Hsav node Hn) as [t Ht].
    pose proof (logicalIssueTime_range _ _ _ Hst Ht). unfold issue_of. rewrite Ht.
    destruct (vm_nodes _ _ _ Hvm node Hn) as (p & Hp%placed_placement & _).
    split_and!; try done; [lia|by exists p].
  - intros edge He. split; [by apply td_edge_Ok|]. split; [by apply Htyped|].
    destruct (inv_endpoints dfg Hinv edge He) as [Hs _].
    apply (indexed_contains tn_id _ _ _ (inv_nodes dfg Hinv)) in Hs as (n & Hn & En). by exists n.
  - intros edge He Hk. destruct (Hvalue edge He Hk) as (d & plan & ? & ? & ? & _). by exists d, plan.
  - intros edge domain source direction elapsed He Hk Hin.
    destruct (Hvalue edge He Hk) as (d & plan & _ & _ & E & Hb). rewrite E in Hin. by eapply Hb.
  - intros s Hs.
    destruct (requirements_confirmed dfg target mapping Hinv Htwf Htyped Hst Hu Hsav Hq)
      as (_ & _ & Hedge & _).
    destruct (Hedge s Hs) as (edge & He & Hk & Eid). exists edge. split_and!; try done.
    + destruct (va_each _ _ _ Hva s Hs) as (a & bank & (_ & Ha & _) & _).
      unfold register_of, registerFor, allocationFor. unfold allocation_of in Ha.
      pose proof Ha as [_ Ea]%find_if_Some. apply Z.eqb_eq in Ea. rewrite <- Ea in Ha.
      rewrite <- Ea. rewrite (lower_bound_find _ _ _ Hsorted Ha). by rewrite Z.eqb_refl.
    + by apply (segment_times dfg target mapping Hinv Htwf Htyped Hst Hu Hsav Hq).
    + by apply (segment_times dfg target mapping Hinv Htwf Htyped Hst Hu Hsav Hq).
    + by apply segment_unsigned.
  - done.
  - intros lo Hlo. destruct (tv_liveOuts _ _ _ Hvalid lo Hlo) as (_ & node & Hn & _).
    apply find_if_Some in Hn as [Hn En]. exists node. split; [done|lia].
Qed.
End Facts.
