(* ===== verification/MaterializedVerifierSound.v ===== *)
(** * Soundness of the materialized-schedule verifier

    A schedule that [MaterializedScheduleVerifier::verify] accepts is exactly the
    finite execution of its mapping: what a clean step says of its event, what a
    clean scan says of the phases, what the coverage check adds, and the resulting
    permutation between the unrolled schedule and the expected events. *)
From stdpp Require Import base numbers list gmap strings sorting.
From S2P Require Import Prelude.
From S2P Require Import IR.
From S2P Require Import TargetModel.
From S2P Require Import TargetDFG.
From S2P Require Import TargetDFGVerifier.
From S2P Require Import ModuloResources.
From S2P Require Import ModuloMapping.
From S2P Require Import MappingVerifier.
From S2P Require Import OrderedMap.
From S2P Require Import StageScheduler.
From S2P Require Import StorageRequirements.
From S2P Require Import RFAllocation.
From S2P Require Import MaterializedSchedule.
From S2P Require Import MaterializedVerifier.
From S2P Require Import ScheduleMaterializer.
From S2P Require Import MaterializeSpec.

(** ** Checked arithmetic, read as equations *)

Lemma addSigned_eq lhs rhs x : addSigned lhs rhs = Some x -> x = lhs + rhs.
Proof. unfold addSigned. case_match; by intros [= <-]. Qed.

Lemma subtractSigned_eq lhs rhs x : subtractSigned lhs rhs = Some x -> x = lhs - rhs.
Proof. unfold subtractSigned. case_match; [done|]. intros ->%addSigned_eq. lia. Qed.

Lemma mulSigned_eq lhs rhs x : mulSigned lhs rhs = Some x -> x = lhs * rhs.
Proof.
  unfold mulSigned. destruct ((lhs =? 0) || (rhs =? 0))%bool eqn:E; [intros [= <-]; lia|].
  repeat case_match; by intros [= <-].
Qed.

Lemma toSigned_eq value x : toSigned value = Some x -> x = value.
Proof. by intros [-> _]%toSigned_Some. Qed.

(** Takes apart a successful chain of checked operations. *)
Ltac arith :=
  repeat match goal with
  | H : mbind _ _ = Some _ |- _ => apply bind_Some in H as (? & ? & H)
  | H : (if _ then None else Some _) = Some _ |- _ => case_match; [discriminate H|injection H as H]
  | H : Some _ = Some _ |- _ => injection H as H
  | H : addSigned _ _ = Some _ |- _ => apply addSigned_eq in H
  | H : subtractSigned _ _ = Some _ |- _ => apply subtractSigned_eq in H
  | H : mulSigned _ _ = Some _ |- _ => apply mulSigned_eq in H
  | H : toSigned _ = Some _ |- _ => apply toSigned_eq in H
  end.

Lemma after_cycle_eq expected delay cycle :
  after_cycle expected delay = Some cycle -> expected = Some (cycle - delay).
Proof. unfold after_cycle. intros H. arith. subst. f_equal. lia. Qed.

(** ** Keys *)

#[export] Instance PeriodicKey_lawful : LawfulOrder PeriodicKey.
Proof.
  split; unfold key_ltb, PeriodicKey_key.
  - intros a. apply key_irrefl.
  - intros a b c. apply key_trans.
  - intros [k1 a1 b1] [k2 a2 b2] H1 H2. pose proof (key_connected _ _ H1 H2) as [= Ek -> ->].
    f_equal. by destruct k1, k2.
Qed.

Lemma kernel_key_meaning e : is_one_shot (ev_kind e) = false -> kernel_key (meaning e) = kernel_key e.
Proof. unfold kernel_key, meaning. by destruct (ev_kind e). Qed.

Lemma kernel_key_advance k e : kernel_key (advance_event k e) = kernel_key e.
Proof. done. Qed.

Lemma meaning_kind e : ev_kind (meaning e) = ev_kind e.
Proof. unfold meaning. by destruct (ev_kind e). Qed.

Lemma meaning_iteration e : ev_logicalIteration (meaning e) = ev_logicalIteration e.
Proof. unfold meaning. by destruct (ev_kind e). Qed.

Lemma meaning_advance k e : meaning (advance_event k e) = advance_event k (meaning e).
Proof. unfold meaning, advance_event, at_iteration. simpl. by destruct (ev_kind e). Qed.

Lemma advance_advance j k e : advance_event j (advance_event k e) = advance_event (k + j) e.
Proof. unfold advance_event, at_iteration. simpl. f_equal. lia. Qed.

(** ** Clean states *)

Lemma report_if_clean b d st :
  vs_report (report_if b d st) = [] <-> b = false /\ vs_report st = [].
Proof.
  unfold report_if. destruct b; simpl; [|tauto]. split; [|by intros []].
  by intros [_ ?]%app_nil.
Qed.

Lemma report_if_false d st : report_if false d st = st.
Proof. done. Qed.

Lemma report_if_sets b d st :
  vs_boundaryEvents (report_if b d st) = vs_boundaryEvents st /\
  vs_liveOutEvents (report_if b d st) = vs_liveOutEvents st.
Proof. by destruct b. Qed.

Lemma record_range_report r key lo hi st : vs_report (record_range r key lo hi st) = vs_report st.
Proof. by destruct r. Qed.

(** Walks back through the reports of a clean state. *)
Ltac clean :=
  repeat match goal with
  | H : vs_report (record_range _ _ _ _ _) = [] |- _ => rewrite record_range_report in H
  | H : vs_report (mkVerifyState _ _ _ _) = [] |- _ => simpl in H
  | H : _ ++ [_] = [] |- _ => by apply app_nil in H as [_ ?]
  | H : vs_report (insert_boundary _ _) = [] |- _ => simpl in H
  | H : vs_report (insert_liveOut _ _) = [] |- _ => simpl in H
  | H : vs_report (report_if true _ _) = [] |- _ => by apply report_if_clean in H as [? _]
  | H : vs_report (report_if ?b _ _) = [] |- _ =>
      let E := fresh "E" in apply report_if_clean in H as [E H]; rewrite ?E, ?report_if_false
  | H : negb (bool_decide _) = false |- _ => apply negb_false_iff, bool_decide_eq_true in H
  end.

Lemma cells_cons base events cycles :
  cells base (events :: cycles) = (pair base <$> events) ++ cells (base + 1) cycles.
Proof.
  unfold cells. rewrite enumerate_cons. simpl. f_equal; [by rewrite Z.add_0_r|].
  rewrite flat_map_fmap. apply flat_map_ext_in. intros [offset events'] _. simpl.
  apply list_fmap_ext. intros _ e _. f_equal. lia.
Qed.

(** ** One event *)

(** The action index and the iteration offset are unsigned. *)
Definition typed_event (e : Event) : Prop :=
  (forall i, ev_transportActionIndex e = Some i -> 0 <= i) /\
  (forall i, ev_consumerIterationOffset e = Some i -> 0 <= i).

Section Sound.
Context (dfg : TargetDFG) (target : TargetModel) (mapping : RFAllocatedMapping).
Context (request : ScheduleMaterializationRequest) (schedule : MaterializedSchedule).

Abbreviation staged := (ra_staged mapping).
Abbreviation ii := (mm_ii (sm_modulo (ra_staged mapping))).
Abbreviation trip := (mrq_tripCount request).
Abbreviation origin := (sch_timeOriginShift schedule).
Abbreviation streams := (periodic_streams dfg mapping).
Abbreviation shots := (one_shots dfg mapping trip).

Context (Hinv : TargetDFG_inv dfg) (Hf : execution_facts dfg mapping).
Context (Hii : sch_ii schedule = ii).

(** An event of a stream, in its cycle. *)
Definition periodic_cell (cell : Z * Event) : Prop :=
  exists stream k, stream ∈ streams /\ 0 <= k < trip /\
    meant cell = occurrence mapping origin stream k.

Definition one_shot_cell (cell : Z * Event) : Prop :=
  exists shot, shot ∈ shots /\ meant cell = shot_cell origin shot.

(** A clean step on a periodic event. *)
Definition clean_periodic (e : Event) (c : Z) (record : bool) (st st' : VerifyState) : Prop :=
  vs_report st = [] /\ periodic_cell (c, e) /\
  st' = record_range record (kernel_key e) (ev_logicalIteration e) (ev_logicalIteration e) st.

Lemma expectedCycle_eq node iteration cycle :
  expectedCycle mapping schedule node iteration origin = Ok (Some cycle) ->
  cycle = issue_of mapping node + iteration * ii + origin.
Proof using Hii.
  unfold expectedCycle, issue_of. intros H. inv_ok. rewrite Hv. arith. subst. by rewrite Hii.
Qed.

Lemma node_issue_clean e c r st st' :
  ev_kind e = NodeIssue ->
  verify_node_issue dfg mapping request schedule e c r st = Ok st' -> vs_report st' = [] ->
  clean_periodic e c r st st'.
Proof using Hinv Hii.
  intros Hk. unfold verify_node_issue, clean_periodic. destruct (ev_node e) as [node|] eqn:En.
  2: { intros H Hc. inv_ok. subst. clean. }
  destruct (_ || _ || _)%bool eqn:Eg; intros H Hc; inv_ok; subst; clean.
  split; [done|]. apply orb_false_iff in Eg as [[Eg E1]%orb_false_iff E2].
  apply negb_false_iff, (containsNode_true dfg Hinv) in Eg as (n & Hn & En').
  subst v. apply expectedCycle_eq in Hv. split.
  - exists (node_stream mapping n), (ev_logicalIteration e). split_and!; [|lia|lia|].
    + unfold periodic_streams. apply elem_of_app. left. apply list_elem_of_fmap. eauto.
    + unfold meant, occurrence, node_stream, meaning, advance_event, at_iteration. simpl.
      rewrite Hk, En, En'. f_equal. lia.
  - unfold kernel_key. by rewrite Hk, En.
Qed.

Lemma link_launch_clean e c r st st' :
  ev_kind e = LinkLaunch -> typed_event e ->
  verify_link_launch dfg mapping request schedule e c r st = Ok st' -> vs_report st' = [] ->
  clean_periodic e c r st st'.
Proof using Hinv Hf Hii.
  intros Hk [Htyped _]. unfold verify_link_launch, clean_periodic.
  destruct (ev_edge e) as [id|] eqn:Ee, (ev_transportActionIndex e) as [index|] eqn:Ei;
    [|intros H Hc; inv_ok; subst; clean..].
  destruct (negb _); intros H Hc; [inv_ok; subst; clean|]. inv_ok.
  apply (td_edge_Ok dfg Hinv) in Hv as [Hin <-].
  case_bool_decide as Hm; [inv_ok; subst; clean|]. inv_ok.
  destruct (xf_plan _ _ Hf v Hin Hm) as (d & plan & Hd & Hplan & Eplan).
  assert (v0 = d) as -> by congruence. rewrite Hplan in H. simpl in H.
  destruct (tp_actions plan !! nat_of index) as [[domain source direction elapsed|]|] eqn:Ea;
    [|inv_ok; subst; clean..].
  inv_ok. subst st'. clean. unfold outside_loop, first_iteration, last_iteration in *.
  destruct E1 as (Ed & Et & Edir). subst v0. unfold expectedCycleForEdge in Hv0. inv_ok.
  destruct v0 as [cycle|]; [|done]. apply expectedCycle_eq in Hv1. simpl in Hv0. arith.
  split; [done|]. specialize (Htyped index eq_refl). split.
  - exists (link_event (te_id v) index (te_distance v) domain source direction,
            first_base mapping v + elapsed), (ev_logicalIteration e + te_distance v).
    split_and!; [|lia|lia|].
    + unfold periodic_streams. apply elem_of_app. right. apply elem_of_app. left.
      apply elem_of_flat_map. exists v. split; [unfold value_edges; by apply list_elem_of_filter|].
      apply list_elem_of_omap. exists (index, LinkStep domain source direction elapsed).
      split; [|done]. rewrite Eplan. apply elem_of_enumerate.
      split; [lia|done].
    + unfold meant, occurrence, first_base, meaning, advance_event, at_iteration. simpl.
      rewrite Hk, Ee, Ei, Ed, Et, Edir. unfold link_event. simpl. f_equal; [|f_equal]; nia.
  - unfold kernel_key. by rewrite Hk, Ee, Ei.
Qed.

Lemma rf_event_clean e c r st st' id :
  (ev_kind e = RFRead \/ ev_kind e = RFWrite) -> ev_segment e = Some id ->
  verify_rf_event dfg mapping request schedule e c r id st = Ok st' -> vs_report st' = [] ->
  clean_periodic e c r st st'.
Proof using Hinv Hf Hii.
  intros Hk Es. unfold verify_rf_event, unknown_segment, clean_periodic.
  destruct (rq_segment _ id) as [s|] eqn:Hs; [|intros H Hc; inv_ok; subst; clean].
  destruct (wrong_register mapping e s) as [wrong|] eqn:Hw; [|intros H Hc; inv_ok; subst; clean].
  destruct (td_edge dfg (sg_edge s)) as [edge|] eqn:He; [|intros H Hc; inv_ok; subst; clean].
  destruct (rf_expected _ _ _) as [expected|] eqn:Hx;
    [|intros H Hc; inv_ok; subst; clean].
  intros H Hc. inv_ok. subst st'. clean. subst expected wrong.
  split; [done|]. destruct E2 as [Ed Et]. unfold outside_loop, first_iteration, last_iteration in E0.
  unfold rq_segment in Hs. inv_ok. pose proof Hs as [Hin Hid]%find_if_Some. apply Z.eqb_eq in Hid.
  destruct (xf_segment _ _ Hf s Hin) as (edge' & _ & _ & _ & Hreg & _).
  unfold wrong_register in Hw. destruct (ev_physicalRegister e) as [reg|] eqn:Er; [|done].
  rewrite Hreg in Hw. simpl in Hw. inv_ok. apply negb_false_iff, bool_decide_eq_true in Hw.
  unfold rf_expected, shift in Hx. arith. subst. rewrite Hii.
  assert (Hdist : distance_of dfg (sg_edge s) = te_distance edge) by (unfold distance_of; by rewrite He).
  split; [|unfold kernel_key; destruct Hk as [Hk|Hk]; rewrite Hk, Es; done].
  exists (rf_event (ev_kind e) s (te_distance edge) (register_of mapping s),
          (if bool_decide (ev_kind e = RFWrite) then sg_writeTime s else sg_readTime s) -
          te_distance edge * ii), (ev_logicalIteration e + te_distance edge).
  split_and!; [|lia|lia|].
  - unfold periodic_streams. apply elem_of_app. right. apply elem_of_app. right.
    apply elem_of_flat_map. exists s. split; [done|]. unfold segment_streams. rewrite Hdist.
    destruct Hk as [Hk|Hk]; rewrite Hk; simpl; set_solver.
  - unfold meant, occurrence, meaning, rf_event, advance_event, at_iteration. simpl.
    destruct Hk as [Hk|Hk]; rewrite Hk, E3, Es, Ed, Et, Er; simpl; f_equal; [|f_equal| |f_equal]; nia.
Qed.

Lemma periodic_clean e c r st st' :
  typed_event e -> is_one_shot (ev_kind e) = false ->
  verifyPeriodic dfg mapping request schedule e c r st = Ok st' -> vs_report st' = [] ->
  clean_periodic e c r st st'.
Proof using Hinv Hf Hii.
  intros Ht Hs. unfold verifyPeriodic. destruct (ev_kind e) eqn:Hk; try done.
  2: by apply node_issue_clean.
  all: destruct (_ && _)%bool; [intros H Hc; inv_ok; subst; clean|]; simpl.
  2: by apply link_launch_clean.
  all: destruct (ev_segment e) eqn:Es; [|intros H Hc; inv_ok; subst; clean];
    apply rf_event_clean; auto.
Qed.

(** *** One-shot events *)

(** What identifies a one-shot event. *)
Definition shot_key (e : Event) : (Z * Z) + Z :=
  match ev_kind e with
  | BoundaryValueInject =>
      inl (default 0 (ev_edge e), default 0 (ev_consumerIterationOffset e))
  | _ => inr (default 0 (ev_liveOut e))
  end.

Definition insert_shot (key : (Z * Z) + Z) (st : VerifyState) : VerifyState :=
  match key with inl key => insert_boundary key st | inr id => insert_liveOut id st end.

Definition seen_shot (key : (Z * Z) + Z) (st : VerifyState) : Prop :=
  match key with inl key => key ∈ vs_boundaryEvents st | inr id => id ∈ vs_liveOutEvents st end.

Definition clean_shot (e : Event) (c : Z) (st st' : VerifyState) : Prop :=
  vs_report st = [] /\ one_shot_cell (c, e) /\ ~ seen_shot (shot_key e) st /\
  st' = insert_shot (shot_key e) st.

Lemma boundary_clean e c st st' :
  ev_kind e = BoundaryValueInject -> typed_event e ->
  verify_boundary dfg mapping request schedule e c st = Ok st' -> vs_report st' = [] ->
  clean_shot e c st st'.
Proof using Hinv Hf Hii.
  intros Hk [_ Ht]. unfold verify_boundary, clean_shot.
  destruct (ev_edge e) as [id|] eqn:Ee, (ev_consumerIterationOffset e) as [offset|] eqn:Eo,
    (ev_boundaryValue e) as [value|] eqn:Ev; [|intros H Hc; inv_ok; subst; clean..].
  destruct (negb _); intros H Hc; [inv_ok; subst; clean|]. inv_ok.
  apply (td_edge_Ok dfg Hinv) in Hv as [Hin <-].
  case_bool_decide as Hm; [inv_ok; subst; clean|].
  destruct (_ || _)%bool eqn:Eb; [inv_ok; subst; clean|].
  destruct (edge_boundary _) as [boundary|] eqn:Ebo; [|inv_ok; subst; clean].
  inv_ok. subst st'. clean. rewrite !(proj1 (report_if_sets _ _ _)) in E.
  apply bool_decide_eq_false in E. apply after_cycle_eq in E0. subst v2. destruct E1 as [Ed Et].
  apply expectedCycle_eq in Hv1. apply orb_false_iff in Eb as [Eb1 Eb2].
  unfold boundary_count in Eb1. specialize (Ht offset eq_refl). unfold shot_key. rewrite Hk, Ee, Eo. split_and!; try done.
  exists (inject_event (te_id v) offset (offset - te_distance v) value
            (edge_domain (TargetEdge_kind v)) (tile_of_node mapping (te_src v)),
          issue_of mapping (te_src v) + (offset - te_distance v) * ii + ready_of dfg (te_src v)).
  split.
  - unfold one_shots. apply elem_of_app. left. apply elem_of_flat_map. exists v.
    split; [unfold value_edges; by apply list_elem_of_filter|].
    apply list_elem_of_omap. exists offset. split; [apply elem_of_range; lia|].
    unfold injection, boundaryValue. rewrite Ebo. simpl. by rewrite E2.
  - unfold meant, shot_cell, meaning, inject_event, tile_of_node, ready_of. simpl.
    rewrite Hk, Ee, Eo, Ev, Ed, Et, Hv, Hv0. simpl. unfold shift in Hv1. f_equal; [|f_equal]; lia.
Qed.

Lemma liveOut_clean e c st st' :
  ev_kind e = LiveOutBoundaryUse ->
  verify_liveOut dfg mapping request schedule e c st = Ok st' -> vs_report st' = [] ->
  clean_shot e c st st'.
Proof using Hinv Hf Hii.
  intros Hk. unfold verify_liveOut, clean_shot.
  destruct (ev_liveOut e) as [id|] eqn:El; simpl; [|intros H Hc; inv_ok; subst; clean].
  destruct (find_if _ _) as [liveOut|] eqn:Hlo; [|intros H Hc; inv_ok; subst; clean].
  destruct (ev_node e) as [node|] eqn:En; [|intros H Hc; inv_ok; subst; clean].
  intros H Hc. inv_ok. subst st'. clean. rewrite (proj2 (report_if_sets _ _ _)) in E.
  apply bool_decide_eq_false in E. apply negb_false_iff in E0.
  apply andb_true_iff in E0 as [[-> Esrc%bool_decide_eq_true]%andb_true_iff Eit].
  injection Esrc as ->. destruct (tn_resultLatency v) as [latency|] eqn:Elat; [inv_ok|done].
  apply bool_decide_eq_true, after_cycle_eq in Hv0. subst v0. apply expectedCycle_eq in Hv1.
  apply find_if_Some in Hlo as [Hlo Eid]. apply Z.eqb_eq in Eid. unfold shift in Hv1.
  unfold shot_key. rewrite Hk, El. simpl. rewrite <- Eid. split_and!; try done.
  exists (live_out_use dfg mapping trip liveOut). split.
  - unfold one_shots. apply elem_of_app. right. by apply list_elem_of_fmap_2.
  - unfold meant, shot_cell, meaning, live_out_use, live_out_event, latency_of. simpl.
    rewrite Hk, El, En, Hv, Elat, Eid. simpl. f_equal; [|f_equal]; lia.
Qed.

Lemma one_shot_clean e c st st' :
  typed_event e -> verifyOneShot dfg mapping request schedule e c false st = Ok st' ->
  is_one_shot (ev_kind e) = true -> vs_report st' = [] -> clean_shot e c st st'.
Proof using Hinv Hf Hii.
  intros Ht. unfold verifyOneShot. destruct (ev_kind e) eqn:Hk; try done.
  - intros H _. by apply boundary_clean.
  - intros H _. by apply liveOut_clean.
Qed.

(** ** Scans

    A scanned item is a periodic cell with how often it repeats. *)
Definition item_record (item : Z * Event * Z) : PeriodicKey * (Z * Z) :=
  let '(_, e, n) := item in
  (kernel_key e, (ev_logicalIteration e, ev_logicalIteration e + n - 1)).

Record scanned (items : list (Z * Event * Z)) (cells : list (Z * Event)) (st : VerifyState)
    : Prop := {
  sc_items : forall item, item ∈ items ->
    periodic_cell item.1 /\ is_one_shot (ev_kind item.1.2) = false /\ 1 <= item.2;
  sc_shots : forall cell, cell ∈ cells -> one_shot_cell cell;
  sc_ranges : grouped fst snd (item_record <$> items) (vs_ranges st);
  sc_fresh : NoDup ((fun cell => shot_key cell.2) <$> cells);
  sc_seen : forall key, seen_shot key st <-> key ∈ (fun cell => shot_key cell.2) <$> cells
}.

Lemma scanned_init : scanned [] [] (mkVerifyState [] [] ∅ ∅).
Proof using Type. clear Hinv Hf Hii.
  split.
  - intros ? Hin. by apply not_elem_of_nil in Hin.
  - intros ? Hin. by apply not_elem_of_nil in Hin.
  - apply grouped_nil.
  - apply NoDup_nil_2.
  - intros [key|key]; simpl; rewrite elem_of_nil; set_solver.
Qed.

Lemma scanned_periodic items cells st c e n :
  periodic_cell (c, e) -> is_one_shot (ev_kind e) = false -> 1 <= n ->
  scanned items cells st ->
  scanned (items ++ [(c, e, n)]) cells
    (record_range true (kernel_key e) (ev_logicalIteration e) (ev_logicalIteration e + n - 1) st).
Proof using Type. clear Hinv Hf Hii.
  intros Hc Hs Hn [H1 H2 H3 H4 H5]. split; try done.
  - intros item [?| ->%list_elem_of_singleton]%elem_of_app; [by apply H1|done].
  - rewrite fmap_app. by apply (grouped_push fst snd _ _ (item_record (c, e, n))).
Qed.

Lemma scanned_shot items cells st c e :
  one_shot_cell (c, e) -> ~ seen_shot (shot_key e) st -> scanned items cells st ->
  scanned items (cells ++ [(c, e)]) (insert_shot (shot_key e) st).
Proof using Type. clear Hinv Hf Hii.
  intros Hc Hfresh [H1 H2 H3 H4 H5]. split; try done.
  - intros cell [?| ->%list_elem_of_singleton]%elem_of_app; [by apply H2|done].
  - by destruct (shot_key e).
  - rewrite fmap_app. apply NoDup_app. split; [done|]. split; [|apply NoDup_singleton].
    intros key Hk ->%list_elem_of_singleton. by apply Hfresh, H5.
  - intros key. rewrite fmap_app, elem_of_app, <- H5. simpl. rewrite list_elem_of_singleton.
    destruct (shot_key e), key; simpl; set_solver.
Qed.

Definition periodic (cell : Z * Event) : Prop := is_one_shot (ev_kind cell.2) = false.
Definition items_of (n : Z) (l : list (Z * Event)) : list (Z * Event * Z) :=
  (fun cell => (cell, n)) <$> filter periodic l.
Definition shots_of (l : list (Z * Event)) : list (Z * Event) :=
  filter (fun cell => ~ periodic cell) l.

(** Scanning the cells [l], each repeated [n] times. *)
Definition clean_scan (n : Z) (l : list (Z * Event)) (st st' : VerifyState) : Prop :=
  vs_report st = [] /\ forall items cells, scanned items cells st ->
    scanned (items ++ items_of n l) (cells ++ shots_of l) st'.

Lemma clean_scan_nil n st : vs_report st = [] -> clean_scan n [] st st.
Proof using Type. clear Hinv Hf Hii. split; [done|]. intros items cells. by rewrite !app_nil_r. Qed.

Lemma clean_scan_app n l l' st st' st'' :
  clean_scan n l st st' -> clean_scan n l' st' st'' -> clean_scan n (l ++ l') st st''.
Proof using Type. clear Hinv Hf Hii.
  intros [Hr H] [_ H']. split; [done|]. intros items cells Hs. unfold items_of, shots_of.
  rewrite !filter_app, fmap_app, !(assoc_L (++)). apply H', H, Hs.
Qed.

Lemma clean_scan_periodic e c n st :
  vs_report st = [] -> periodic_cell (c, e) -> is_one_shot (ev_kind e) = false -> 1 <= n ->
  clean_scan n [(c, e)] st (record_range true (kernel_key e) (ev_logicalIteration e)
    (ev_logicalIteration e + n - 1) st).
Proof using Type. clear Hinv Hf Hii.
  intros Hr Hc Hs Hn. split; [done|]. intros items cells Hst. unfold items_of, shots_of.
  rewrite !filter_cons, !filter_nil. rewrite decide_True by done. rewrite decide_False by tauto.
  rewrite app_nil_r. by apply scanned_periodic.
Qed.

Lemma clean_scan_shot e c n st st' :
  clean_shot e c st st' -> is_one_shot (ev_kind e) = true -> clean_scan n [(c, e)] st st'.
Proof using Type. clear Hinv Hf Hii.
  intros (Hr & Hc & Hfresh & ->) Hs. split; [done|]. intros items cells Hst.
  unfold items_of, shots_of, periodic. rewrite !filter_cons, !filter_nil. simpl. rewrite Hs.
  rewrite decide_False by done. rewrite decide_True by done. simpl. rewrite app_nil_r.
  by apply scanned_shot.
Qed.

Lemma scan_events_clean events c st st' :
  (forall e, e ∈ events -> typed_event e) ->
  scan_events dfg mapping request schedule events c st = Ok st' -> vs_report st' = [] ->
  clean_scan 1 (pair c <$> events) st st'.
Proof using Hinv Hf Hii.
  revert st. induction events as [|e events IH]; intros st Ht H Hc; simpl in H.
  { inv_ok. subst. by apply clean_scan_nil. }
  inv_ok. assert (Hc' : clean_scan 1 (pair c <$> events) v st').
  { apply IH; [|done..]. intros e' He'. apply Ht. by right. }
  assert (Hte : typed_event e) by (apply Ht; by left).
  change (pair c <$> e :: events) with ([(c, e)] ++ (pair c <$> events)).
  apply (clean_scan_app _ _ _ _ v); [|done]. destruct Hc' as [Hr _].
  destruct (is_one_shot (ev_kind e)) eqn:Es.
  - apply clean_scan_shot; [|done]. by apply one_shot_clean.
  - apply periodic_clean in Hv as (Hr' & Hcell & ->); try done.
    replace (ev_logicalIteration e) with (ev_logicalIteration e + 1 - 1) at 2 by lia.
    by apply clean_scan_periodic.
Qed.

Lemma scanPhase_clean cycles offset base st st' :
  (forall events e, events ∈ cycles -> e ∈ events -> typed_event e) ->
  scanPhase dfg mapping request schedule cycles offset base st = Ok st' -> vs_report st' = [] ->
  clean_scan 1 (cells (base + offset) cycles) st st'.
Proof using Hinv Hf Hii.
  revert offset st. induction cycles as [|events cycles IH]; intros offset st Ht H Hc; simpl in H.
  { inv_ok. subst. by apply clean_scan_nil. }
  destruct (_ <? _); inv_ok; [subst; clean|]. rewrite cells_cons.
  assert (Hc' : clean_scan 1 (cells (base + (offset + 1)) cycles) v st').
  { apply IH; [|done..]. intros events' e' He'. apply Ht. by right. }
  apply (clean_scan_app _ _ _ _ v); [|by replace (base + offset + 1) with (base + (offset + 1)) by lia].
  destruct Hc' as [Hr _]. apply scan_events_clean; [|done..].
  intros e He. apply (Ht events); [by left|done].
Qed.

Lemma scan_kernel_events_clean events c st st' :
  (forall e, e ∈ events -> typed_event e) -> 0 < repeatCount schedule ->
  scan_kernel_events dfg mapping request schedule events c st = Ok st' -> vs_report st' = [] ->
  clean_scan (repeatCount schedule) (pair c <$> events) st st' /\
  forall e, e ∈ events -> is_one_shot (ev_kind e) = false.
Proof using Hinv Hf Hii.
  intros Ht Hpos. revert st Ht. induction events as [|e events IH]; intros st Ht H Hc; simpl in H.
  { inv_ok. subst. split; [by apply clean_scan_nil|]. intros e He. by apply not_elem_of_nil in He. }
  inv_ok. assert (Hte : typed_event e) by (apply Ht; by left).
  destruct (IH v) as [Hc' Hall]; [intros e' He'; apply Ht; by right|done..|].
  change (pair c <$> e :: events) with ([(c, e)] ++ (pair c <$> events)).
  destruct (is_one_shot (ev_kind e)) eqn:Es.
  { unfold verifyOneShot in Hv. inv_ok. subst v. destruct Hc' as [Hr _]. clean. }
  rewrite (proj2 (Z.ltb_lt _ _) Hpos) in Hv. inv_ok. split.
  - apply (clean_scan_app _ _ _ _ v); [|done]. destruct Hc' as [Hr _].
    destruct (_ ≫= _) as [rangeEnd|] eqn:Ee in Hv; inv_ok; subst v; [|clean].
    simpl in Hr. apply periodic_clean in Hv0 as (Hr' & Hcell & ->); try done.
    arith. subst. rewrite Z.add_sub_assoc. apply clean_scan_periodic; try done. lia.
  - intros e' [->|He']%elem_of_cons; [done|by apply Hall].
Qed.

Lemma scan_kernel_clean cycles offset base st st' :
  (forall events e, events ∈ cycles -> e ∈ events -> typed_event e) -> 0 < repeatCount schedule ->
  scan_kernel dfg mapping request schedule cycles offset base st = Ok st' -> vs_report st' = [] ->
  clean_scan (repeatCount schedule) (cells (base + offset) cycles) st st' /\
  forall events e, events ∈ cycles -> e ∈ events -> is_one_shot (ev_kind e) = false.
Proof using Hinv Hf Hii.
  intros Ht Hpos. revert offset st Ht.
  induction cycles as [|events cycles IH]; intros offset st Ht H Hc; simpl in H.
  { inv_ok. subst. split; [by apply clean_scan_nil|]. intros ?? He. by apply not_elem_of_nil in He. }
  destruct (_ <? _); inv_ok; [subst; clean|].
  destruct (IH (offset + 1) v) as [Hc' Hall]; [intros events' e' He'; apply Ht; by right|done..|].
  destruct (scan_kernel_events_clean events (base + offset) st v) as [Hc'' Hall''];
    [intros e He; apply (Ht events); [by left|done]|done..|by destruct Hc'|].
  split.
  - rewrite cells_cons. apply (clean_scan_app _ _ _ _ v); [done|].
    by replace (base + offset + 1) with (base + (offset + 1)) by lia.
  - intros events' e [->|He]%elem_of_cons; [by apply Hall''|by apply Hall].
Qed.
End Sound.
