(* ===== verification/MaterializedExact.v ===== *)
(** * Coverage of a materialized schedule

    What the coverage check of [MaterializedScheduleVerifier::verify] adds to
    clean scans: the accepted cells are, up to order, the expected events, and the
    accepted time origin and length are those of the execution. *)
From stdpp Require Import base numbers list gmap strings sorting.
From S2P Require Import Prelude.
From S2P Require Import IR.
From S2P Require Import TargetModel.
From S2P Require Import CgraV2.
From S2P Require Import TargetDFG.
From S2P Require Import TargetDFGVerifier.
From S2P Require Import ModuloResources.
From S2P Require Import ModuloMapping.
From S2P Require Import MappingVerifier.
From S2P Require Import OrderedMap.
From S2P Require Import MIIAnalyzer.
From S2P Require Import StageScheduler.
From S2P Require Import StorageRequirements.
From S2P Require Import RFAllocation.
From S2P Require Import MaterializedSchedule.
From S2P Require Import MaterializedVerifier.
From S2P Require Import ScheduleMaterializer.
From S2P Require Import MaterializeSpec.

From S2P Require Import MaterializedVerifierSound.

Section Cover.
Context (dfg : TargetDFG) (target : TargetModel) (mapping : RFAllocatedMapping).
Context (request : ScheduleMaterializationRequest) (schedule : MaterializedSchedule).

Abbreviation staged := (ra_staged mapping).
Abbreviation ii := (mm_ii (sm_modulo (ra_staged mapping))).
Abbreviation trip := (mrq_tripCount request).
Abbreviation origin := (sch_timeOriginShift schedule).
Abbreviation streams := (periodic_streams dfg mapping).
Abbreviation shots := (one_shots dfg mapping trip).
Abbreviation segments := (rq_segments (ra_requirements mapping)).

Context (Hinv : TargetDFG_inv dfg) (Hf : execution_facts dfg mapping).

(** ** The expected ranges *)

Definition expect_entry (m : list (PeriodicKey * (Z * Z))) (entry : PeriodicKey * (Z * Z)) :=
  expect entry.1 entry.2.1 entry.2.2 m.

Lemma expect_entries entries m : StronglySorted om_before m ->
  StronglySorted om_before (foldl expect_entry m entries) /\
  (NoDup entries.*1 -> forall entry, entry ∈ entries \/ (entry ∈ m /\ entry.1 ∉ entries.*1) ->
     entry ∈ foldl expect_entry m entries).
Proof.
  revert m. induction entries as [|[key [lo hi]] entries IH]; intros m Hs; simpl.
  { split; [done|]. intros _ entry [Hin|[Hin _]]; [by apply not_elem_of_nil in Hin|done]. }
  destruct (om_update_elem key (0, 0) (fun _ => (lo, hi)) m Hs) as [Hs' He].
  destruct (IH (expect key lo hi m)) as [IH1 IH2]; [done|]. split; [done|].
  intros [Hk Hnd]%NoDup_cons [k v] Hin. apply IH2; [done|]. unfold expect_entry in *. simpl in *.
  destruct Hin as [[E|Hin]%elem_of_cons|[Hin [Hne Hnot]%not_elem_of_cons]].
  - injection E as -> ->. right. split; [apply He; by right|done].
  - by left.
  - right. split; [apply He; by left|done].
Qed.

Definition stream_entry (stream : Event * Z) : PeriodicKey * (Z * Z) :=
  let first := ev_logicalIteration stream.1 in (kernel_key stream.1, (first, first + trip - 1)).

Lemma expected_edge_ranges_eq edges m :
  (forall edge, edge ∈ edges -> edge ∈ td_edges dfg) ->
  expected_edge_ranges mapping request edges m =
  Ok (foldl expect_entry m (stream_entry <$> flat_map (edge_streams mapping) (value_edges edges))).
Proof using Hf.
  revert m. induction edges as [|edge edges IH]; intros m Hin; simpl; [done|].
  assert (IH' : forall m', expected_edge_ranges mapping request edges m' =
    Ok (foldl expect_entry m' (stream_entry <$> flat_map (edge_streams mapping) (value_edges edges)))).
  { intros m'. apply IH. intros edge' He. apply Hin. by right. }
  unfold value_edges. rewrite filter_cons. case_bool_decide as Hm.
  { rewrite decide_False by tauto. apply IH'. }
  rewrite decide_True by done.
  destruct (xf_plan _ _ Hf edge (Hin edge ltac:(left)) Hm) as (d & plan & Hd & Hp & E).
  rewrite Hd. simpl. rewrite IH', Hp, fmap_app, foldl_app. f_equal. f_equal.
  unfold edge_streams. rewrite E. clear. revert m. induction (enumerate (tp_actions plan))
    as [|[index [domain source direction elapsed|]] actions IH]; intros m; simpl; [done| |apply IH].
  rewrite IH. f_equal. unfold expect_entry, stream_entry, first_iteration, last_iteration. simpl.
  f_equal. lia.
Qed.

Lemma expected_segment_ranges_eq l m :
  (forall s, s ∈ l -> s ∈ rq_segments (ra_requirements mapping)) ->
  expected_segment_ranges dfg request l m =
  Ok (foldl expect_entry m (stream_entry <$> flat_map (segment_streams dfg mapping) l)).
Proof using Hinv Hf.
  revert m. induction l as [|s l IH]; intros m Hin; simpl; [done|].
  destruct (xf_segment _ _ Hf s (Hin s ltac:(left))) as (edge & He & Eid & _).
  assert (Htd : td_edge dfg (sg_edge s) = Ok edge) by (by apply td_edge_Ok).
  rewrite Htd. simpl. rewrite IH by (intros s' Hs'; apply Hin; by right).
  unfold distance_of. rewrite Htd. f_equal. f_equal.
  unfold expect_entry, stream_entry, first_iteration, last_iteration. simpl.
  f_equal; [|f_equal]; lia.
Qed.

Lemma expected_ranges_eq :
  expected_ranges dfg mapping request = Ok (foldl expect_entry [] (stream_entry <$> streams)).
Proof using Hinv Hf.
  unfold expected_ranges. rewrite expected_edge_ranges_eq by done. simpl.
  rewrite expected_segment_ranges_eq by done. unfold periodic_streams.
  rewrite !fmap_app, !foldl_app. f_equal. f_equal. f_equal. unfold expected_node_ranges. clear.
  generalize (@nil (PeriodicKey * (Z * Z))). induction (td_nodes dfg) as [|node nodes IH]; intros m; simpl; [done|].
  by rewrite IH.
Qed.

Lemma link_keys_NoDup edge actions :
  NoDup actions.*1 ->
  NoDup ((fun stream => kernel_key stream.1) <$> omap (link_stream mapping edge) actions).
Proof.
  induction actions as [|[index action] actions IH]; intros Hnd; [apply NoDup_nil_2|].
  rewrite fmap_cons in Hnd. apply NoDup_cons in Hnd as [Hne Hnd].
  destruct action as [domain source direction elapsed|]; csimpl; [|by apply IH].
  apply NoDup_cons. split; [|by apply IH]. intros Hin. apply Hne. simpl.
  apply list_elem_of_fmap in Hin as (stream & E & Hin).
  apply list_elem_of_omap in Hin as ([index' [d' s' dir' t'|]] & Hin & [= <-]).
  apply list_elem_of_fmap. exists (index', LinkStep d' s' dir' t'). split; [|done].
  unfold kernel_key in E. simpl in *. by injection E.
Qed.

Lemma edge_stream_key edge stream :
  stream ∈ edge_streams mapping edge ->
  exists index, kernel_key stream.1 = mkKey LinkLaunch (te_id edge) index.
Proof.
  intros ([index [domain source direction elapsed|]] & _ & [= <-])%list_elem_of_omap. by exists index.
Qed.

Lemma stream_keys_NoDup : NoDup ((fun stream => kernel_key stream.1) <$> streams).
Proof using Hf.
  unfold periodic_streams. rewrite !fmap_app, !fmap_flat_map.
  assert (Hsub : NoDup (value_edges (td_edges dfg))).
  { apply NoDup_filter. eapply NoDup_of_key, (xf_edges _ _ Hf). }
  apply NoDup_app. split; [|split; [|apply NoDup_app; split; [|split]]].
  - rewrite <- list_fmap_compose. unfold compose, node_stream. simpl.
    change (NoDup ((fun node => (fun id => mkKey NodeIssue id 0) (tn_id node)) <$> td_nodes dfg)).
    rewrite (list_fmap_compose tn_id (fun id => mkKey NodeIssue id 0)).
    apply NoDup_fmap_2, (xf_nodes _ _ Hf). intros i j E. by injection E.
  - intros key (stream & -> & (node & -> & _)%list_elem_of_fmap)%list_elem_of_fmap Hin.
    apply elem_of_app in Hin as [(edge & _ & Hin)%elem_of_flat_map|(s & _ & Hin)%elem_of_flat_map].
    + apply list_elem_of_fmap in Hin as (stream & E & Hin).
      apply edge_stream_key in Hin as [index Hin]. rewrite Hin in E. done.
    + apply elem_of_cons in Hin as [E|E%list_elem_of_singleton]; done.
  - apply NoDup_flat_map_disjoint; [done|intros edge _; apply link_keys_NoDup, NoDup_enumerate|].
    intros edge edge' key He He' (stream & -> & Hs)%list_elem_of_fmap (stream' & E & Hs')%list_elem_of_fmap.
    apply edge_stream_key in Hs as [index Hs], Hs' as [index' Hs']. rewrite Hs, Hs' in E.
    apply list_elem_of_filter in He as [_ He], He' as [_ He'].
    apply (NoDup_key_eq te_id (td_edges dfg)); [apply (xf_edges _ _ Hf)|done..|by injection E].
  - intros key (edge & _ & Hin)%elem_of_flat_map (s & _ & Hin')%elem_of_flat_map.
    apply list_elem_of_fmap in Hin as (stream & -> & [index Hk]%edge_stream_key). rewrite Hk in Hin'.
    apply elem_of_cons in Hin' as [E|E%list_elem_of_singleton]; done.
  - apply NoDup_flat_map_disjoint.
    + eapply NoDup_of_key, (xf_segments _ _ Hf).
    + intros s _. apply NoDup_cons. split; [|apply NoDup_singleton].
      intros E%list_elem_of_singleton. done.
    + intros s s' key Hs Hs' Hk Hk'. apply (NoDup_key_eq sg_id segments); [apply (xf_segments _ _ Hf)|done..|].
      apply elem_of_cons in Hk as [->| ->%list_elem_of_singleton];
        apply elem_of_cons in Hk' as [E|E%list_elem_of_singleton]; by injection E.
Qed.

(** ** Covering ranges *)

Definition interval (r : Z * Z) : list Z := seqZ r.1 (r.2 - r.1 + 1).

Lemma ranges_contiguous_interval ranges last expected :
  (forall r, r ∈ ranges -> r.1 <= r.2) -> ranges_contiguous last expected ranges = true ->
  last <= expected /\ flat_map interval ranges = interval (last + 1, expected).
Proof.
  revert last. induction ranges as [|[lo hi] ranges IH]; intros last Hle; simpl.
  { intros ->%Z.eqb_eq. split; [lia|]. unfold interval. simpl. by rewrite seqZ_nil by lia. }
  destruct (Z.leb_spec lo last); [done|]. destruct (_ || _)%bool eqn:E; [done|].
  assert (lo = last + 1) as -> by lia. intros H'.
  specialize (Hle (last + 1, hi) ltac:(left)) as Hlh. simpl in Hlh.
  destruct (IH hi) as [H1 H2]; [intros r Hr; apply Hle; by right|done|]. split; [lia|].
  rewrite H2. unfold interval. simpl.
  replace (expected - (last + 1) + 1) with ((hi - (last + 1) + 1) + (expected - (hi + 1) + 1)) by lia.
  rewrite (seqZ_app (last + 1) (hi - (last + 1) + 1)) by lia.
  by replace (last + 1 + (hi - (last + 1) + 1)) with (hi + 1) by lia.
Qed.

Lemma ranges_cover l first last :
  (forall r, r ∈ l -> r.1 <= r.2) -> rangesCoverExactly l first last = true ->
  flat_map interval l ≡ₚ interval (first, last).
Proof.
  intros Hle. unfold rangesCoverExactly. pose proof (sort_by_pair_perm id l) as Hp.
  rewrite <- (flat_map_perm interval interval _ _ (fun _ _ => reflexivity _) Hp).
  assert (Hle' : forall r, r ∈ sort_by_pair id l -> r.1 <= r.2).
  { intros r Hr. apply Hle. by rewrite <- Hp. }
  destruct (sort_by_pair id l) as [|[lo hi] ranges]; [done|].
  destruct (Z.eqb_spec lo first) as [->|]; [|done]. simpl. intros H.
  specialize (Hle' (first, hi) ltac:(left)) as Hlh. simpl in Hlh.
  apply ranges_contiguous_interval in H as [H1 H2]; [|intros r Hr; apply Hle'; by right].
  rewrite H2. unfold interval. simpl.
  replace (last - first + 1) with ((hi - first + 1) + (last - (hi + 1) + 1)) by lia.
  rewrite (seqZ_app first (hi - first + 1)) by lia. f_equiv. by replace (first + (hi - first + 1)) with (hi + 1) by lia.
Qed.

(** ** The periodic cells *)

Definition item_cells (item : Z * Event * Z) : list (Z * Event) :=
  (fun k => repetition ii k item.1) <$> range item.2.

Definition item_key (item : Z * Event * Z) : PeriodicKey := kernel_key item.1.2.

Lemma meant_repetition k cell : meant (repetition ii k cell) = repetition ii k (meant cell).
Proof. unfold meant, repetition. simpl. by rewrite meaning_advance. Qed.

(** What a scanned item unrolls to. *)
Lemma item_cells_meant item stream :
  periodic_cell dfg mapping request schedule item.1 -> is_one_shot (ev_kind item.1.2) = false ->
  stream ∈ streams -> item_key item = kernel_key stream.1 ->
  meant <$> item_cells item =
  (fun i => occurrence mapping origin stream (i - ev_logicalIteration stream.1)) <$>
    interval (item_record item).2.
Proof using Hf.
  destruct item as [[c e] n]. intros (stream' & k & Hin & Hk & E) Hs Hin' Ekey. simpl in *.
  assert (Hkey : kernel_key e = kernel_key stream'.1).
  { rewrite <- (kernel_key_meaning e Hs). change (meaning e) with (meant (c, e)).2. by rewrite E. }
  assert (stream' = stream) as ->.
  { apply (NoDup_key_eq (fun stream => kernel_key stream.1) streams _ _ stream_keys_NoDup); try done.
    by rewrite <- Hkey. }
  assert (Eit : ev_logicalIteration e = ev_logicalIteration stream.1 + k).
  { rewrite <- (meaning_iteration e). change (meaning e) with (meant (c, e)).2. by rewrite E. }
  unfold item_cells, interval, range. simpl. rewrite <- list_fmap_compose.
  replace (ev_logicalIteration e + n - 1 - ev_logicalIteration e + 1) with n by lia.
  replace (ev_logicalIteration e) with (Z.add (ev_logicalIteration e) 0) by lia.
  rewrite <- (fmap_add_seqZ (ev_logicalIteration e)), <- list_fmap_compose.
  apply list_fmap_ext. intros _ j _. unfold compose. rewrite meant_repetition, E, Eit.
  unfold occurrence, repetition. simpl. rewrite advance_advance. f_equal; [lia|]. f_equal. lia.
Qed.

Lemma item_record_key item : (item_record item).1 = item_key item.
Proof. by destruct item as [[c e] n]. Qed.

(** The ranges of a stream cover its iterations. *)
Lemma stream_covered items cells st stream :
  scanned dfg mapping request schedule items cells st ->
  flat_map (missing_stream (vs_ranges st)) (foldl expect_entry [] (stream_entry <$> streams)) = [] ->
  stream ∈ streams ->
  flat_map (fun item => interval (item_record item).2)
    (filter (fun item => item_key item = kernel_key stream.1) items) ≡ₚ
  seqZ (ev_logicalIteration stream.1) trip.
Proof using Hf.
  intros [Hitems _ [Hsorted Hranges] _ _] Hmiss Hin.
  assert (He : stream_entry stream ∈ foldl expect_entry [] (stream_entry <$> streams)).
  { apply expect_entries; [constructor| |left; by apply list_elem_of_fmap_2].
    rewrite <- list_fmap_compose. apply stream_keys_NoDup. }
  rewrite flat_map_nil_iff in Hmiss. apply Hmiss in He. unfold stream_entry, missing_stream in He.
  apply when_cons_nil, negb_false_iff in He.
  destruct (om_lookup _ _) as [vs|] eqn:Hvs; [|done].
  assert (Hvs' : vs = snd <$> filter (fun r => r.1 = kernel_key stream.1) (item_record <$> items)).
  { apply om_lookup_Some in Hvs; [|done]. by apply Hranges in Hvs as [-> _]. }
  rewrite filter_fmap in Hvs'. rewrite <- list_fmap_compose in Hvs'.
  rewrite (list_filter_ext_in _ (fun item => item_key item = kernel_key stream.1)) in Hvs'
    by (intros item _; by rewrite item_record_key).
  apply ranges_cover in He.
  - rewrite Hvs' in He. unfold compose in He. rewrite flat_map_fmap in He. rewrite He.
    unfold interval. simpl.
    by replace (ev_logicalIteration stream.1 + trip - 1 - ev_logicalIteration stream.1 + 1)
      with trip by lia.
  - intros r Hr. rewrite Hvs' in Hr. apply list_elem_of_fmap in Hr as ([[c e] n] & -> & Hr).
    apply list_elem_of_filter in Hr as [_ Hr]. apply Hitems in Hr as (_ & _ & Hn). simpl in *. lia.
Qed.

Lemma periodic_cells items cells st :
  scanned dfg mapping request schedule items cells st ->
  flat_map (missing_stream (vs_ranges st)) (foldl expect_entry [] (stream_entry <$> streams)) = [] ->
  meant <$> flat_map item_cells items ≡ₚ
  flat_map (fun stream => occurrence mapping origin stream <$> range trip) streams.
Proof using Hf.
  intros Hst Hmiss. pose proof Hst as [Hitems _ _ _ _]. rewrite fmap_flat_map.
  assert (Hgroup : flat_map (fun stream => filter (fun item => item_key item = kernel_key stream.1) items)
    streams ≡ₚ items).
  { apply (group_perm item_key (fun stream => kernel_key stream.1)); [apply stream_keys_NoDup|].
    intros item Hitem. destruct (Hitems item Hitem) as (Hcell & Hs & _).
    destruct item as [[c e] n], Hcell as (stream & k & Hin & _ & E). simpl in *.
    apply list_elem_of_fmap. exists stream. split; [|done]. unfold item_key. simpl.
    rewrite <- (kernel_key_meaning e Hs). change (meaning e) with (meant (c, e)).2. by rewrite E. }
  rewrite <- (flat_map_perm (fun item => meant <$> item_cells item) _ _ _ (fun _ _ => reflexivity _) Hgroup).
  rewrite flat_map_flat_map. apply flat_map_perm; [|done]. intros stream Hin.
  rewrite (flat_map_ext_in _ (fun item => (fun i => occurrence mapping origin stream
    (i - ev_logicalIteration stream.1)) <$> interval (item_record item).2)).
  - rewrite <- fmap_flat_map, (stream_covered items cells st stream Hst Hmiss Hin). unfold range.
    replace (seqZ (ev_logicalIteration stream.1) trip)
      with (Z.add (ev_logicalIteration stream.1) <$> seqZ 0 trip)
      by (rewrite fmap_add_seqZ; by rewrite Z.add_0_r).
    rewrite <- list_fmap_compose. apply Permutation_refl', list_fmap_ext. intros _ k _. unfold compose. f_equal. lia.
  - intros item [Hkey Hitem]%list_elem_of_filter.
    destruct (Hitems item Hitem) as (Hcell & Hs & _). by apply item_cells_meant.
Qed.

(** ** The one-shot cells *)

Lemma shot_key_meaning e : is_one_shot (ev_kind e) = true -> shot_key (meaning e) = shot_key e.
Proof. unfold shot_key, meaning. by destruct (ev_kind e). Qed.

Lemma injection_Some edge offset shot :
  injection dfg mapping edge offset = Some shot ->
  is_Some (boundaryValue edge offset) /\ shot_key shot.1 = inl (te_id edge, offset) /\
  is_one_shot (ev_kind shot.1) = true.
Proof.
  unfold injection. destruct (boundaryValue edge offset) as [value|] eqn:E; [|done].
  intros [= <-]. done.
Qed.

(** Where a one-shot event comes from. *)
Lemma one_shots_cases shot :
  shot ∈ shots <->
  (exists edge offset, edge ∈ td_edges dfg /\ TargetEdge_kind edge <> EKMemory /\
     0 <= offset < Z.min trip (te_distance edge) /\ injection dfg mapping edge offset = Some shot) \/
  (exists liveOut, liveOut ∈ td_liveOuts dfg /\ shot = live_out_use dfg mapping trip liveOut).
Proof.
  unfold one_shots. rewrite elem_of_app, elem_of_flat_map, list_elem_of_fmap. f_equiv; [|naive_solver].
  unfold edge_injections. setoid_rewrite list_elem_of_omap. unfold value_edges.
  setoid_rewrite list_elem_of_filter. setoid_rewrite elem_of_range. naive_solver.
Qed.

Lemma one_shots_kind shot : shot ∈ shots -> is_one_shot (ev_kind shot.1) = true.
Proof. intros [(edge & offset & _ & _ & _ & H%injection_Some)|(lo & _ & ->)]%one_shots_cases; [tauto|done]. Qed.

Lemma shot_keys_inj shot shot' :
  shot ∈ shots -> shot' ∈ shots -> shot_key shot.1 = shot_key shot'.1 -> shot = shot'.
Proof using Hf.
  rewrite !one_shots_cases.
  intros [(edge & offset & He & _ & _ & H)|(lo & Hlo & ->)]
    [(edge' & offset' & He' & _ & _ & H')|(lo' & Hlo' & ->)] E.
  - pose proof (injection_Some _ _ _ H) as (_ & K & _).
    pose proof (injection_Some _ _ _ H') as (_ & K' & _).
    rewrite K, K' in E. injection E as Eid ->.
    assert (edge = edge') as <-; [|congruence].
    by apply (NoDup_key_eq te_id (td_edges dfg)); [apply (xf_edges _ _ Hf)|..].
  - apply injection_Some in H as (_ & K & _). by rewrite K in E.
  - apply injection_Some in H' as (_ & K & _). by rewrite K in E.
  - injection E as E. f_equal.
    by apply (NoDup_key_eq tlo_id (td_liveOuts dfg)); [apply (xf_liveOuts _ _ Hf)|..].
Qed.

Lemma one_shots_NoDup : NoDup shots.
Proof using Hf.
  unfold one_shots. apply NoDup_app. split; [|split].
  - apply NoDup_flat_map_disjoint.
    + unfold value_edges. apply NoDup_filter. eapply NoDup_of_key, (xf_edges _ _ Hf).
    + intros edge _. unfold edge_injections. pose proof (NoDup_range (Z.min trip (te_distance edge))) as Hr.
      induction Hr as [|offset l Hn _ IH]; csimpl; [apply NoDup_nil_2|].
      destruct (injection dfg mapping edge offset) as [shot|] eqn:E; [|done]. apply NoDup_cons.
      split; [|done]. intros (offset' & Hin & E')%list_elem_of_omap.
      apply injection_Some in E as (_ & K & _), E' as (_ & K' & _). rewrite K in K'.
      by injection K' as ->.
    + intros edge edge' shot [_ He]%list_elem_of_filter [_ He']%list_elem_of_filter
        (o & _ & H)%list_elem_of_omap (o' & _ & H')%list_elem_of_omap.
      apply injection_Some in H as (_ & K & _), H' as (_ & K' & _). rewrite K in K'.
      injection K' as Eid _. by apply (NoDup_key_eq te_id (td_edges dfg)); [apply (xf_edges _ _ Hf)|..].
  - intros shot (edge & _ & (o & _ & H)%list_elem_of_omap)%elem_of_flat_map
      (lo & -> & _)%list_elem_of_fmap. by apply injection_Some in H as (_ & K & _).
  - eapply (NoDup_fmap_1 (fun shot => ev_liveOut shot.1)). rewrite <- list_fmap_compose.
    unfold compose. simpl. rewrite (list_fmap_compose tlo_id Some).
    apply NoDup_fmap_2, (xf_liveOuts _ _ Hf). intros i j E. by injection E.
Qed.

(** Every value from before the loop that the execution uses is given. *)
Definition boundaries_given : Prop :=
  forall edge offset, edge ∈ td_edges dfg -> TargetEdge_kind edge <> EKMemory ->
    0 <= offset < Z.min trip (te_distance edge) -> is_Some (boundaryValue edge offset).

(** The last two loops of the verifier find nothing missing. *)
Definition shots_seen (st : VerifyState) : Prop :=
  (forall edge offset, edge ∈ td_edges dfg -> TargetEdge_kind edge <> EKMemory ->
     0 <= offset < Z.min trip (te_distance edge) -> seen_shot (inl (te_id edge, offset)) st) /\
  (forall liveOut, liveOut ∈ td_liveOuts dfg -> seen_shot (inr (tlo_id liveOut)) st).

Lemma seen_cell items cells st key :
  scanned dfg mapping request schedule items cells st -> seen_shot key st ->
  exists cell shot, cell ∈ cells /\ shot ∈ shots /\ shot_key shot.1 = key /\
    meant cell = shot_cell origin shot.
Proof.
  intros [_ Hshots _ _ Hseen] H. apply Hseen in H.
  apply list_elem_of_fmap in H as (cell & -> & Hin).
  destruct (Hshots cell Hin) as (shot & Hs & E). exists cell, shot. split_and!; try done.
  destruct cell as [c e]. unfold meant, shot_cell in E.
  assert (Ee : meaning e = shot.1) by exact (f_equal snd E). simpl. rewrite <- Ee.
  apply shot_key_meaning. rewrite <- meaning_kind, Ee. by apply one_shots_kind.
Qed.

Lemma seen_boundaries items cells st :
  scanned dfg mapping request schedule items cells st -> shots_seen st -> boundaries_given.
Proof using Hf.
  intros Hst [Hseen _] edge offset He Hk Ho.
  destruct (seen_cell _ _ _ _ Hst (Hseen edge offset He Hk Ho)) as (cell & shot & _ & Hs & Ekey & _).
  apply one_shots_cases in Hs as [(edge' & offset' & He' & _ & _ & H)|(lo & _ & ->)]; [|done].
  apply injection_Some in H as (Hv & K & _). rewrite K in Ekey. injection Ekey as Eid ->.
  assert (edge' = edge) as <-; [|done].
  by apply (NoDup_key_eq te_id (td_edges dfg)); [apply (xf_edges _ _ Hf)|..].
Qed.

Lemma shot_cells items cells st :
  scanned dfg mapping request schedule items cells st -> shots_seen st ->
  meant <$> cells ≡ₚ shot_cell origin <$> shots.
Proof using Hf.
  intros Hst [Hedges Hlive]. pose proof Hst as [_ Hshots _ Hfresh _].
  assert (Hkind : forall cell, cell ∈ cells -> is_one_shot (ev_kind cell.2) = true).
  { intros [c e] Hin. destruct (Hshots _ Hin) as (shot & Hs & E). simpl.
    rewrite <- meaning_kind. change (meaning e) with (meant (c, e)).2. rewrite E.
    by apply one_shots_kind. }
  apply NoDup_Permutation.
  - eapply (NoDup_fmap_1 (fun cell => shot_key cell.2)). rewrite <- list_fmap_compose.
    erewrite list_fmap_ext; [exact Hfresh|]. intros i cell Hi%list_elem_of_lookup_2.
    apply shot_key_meaning. by apply Hkind.
  - apply NoDup_fmap_2_strong, one_shots_NoDup. intros shot shot' Hs Hs' E.
    apply shot_keys_inj; try done. by rewrite (f_equal snd E : shot.1 = shot'.1).
  - intros x. rewrite !list_elem_of_fmap. split.
    + intros (cell & -> & Hin). destruct (Hshots _ Hin) as (shot & Hs & E). by exists shot.
    + intros (shot & -> & Hs). assert (Hseen : seen_shot (shot_key shot.1) st).
      { apply one_shots_cases in Hs as [(edge & offset & He & Hk & Ho & H)|(lo & Hlo & ->)];
          [|by apply Hlive]. apply injection_Some in H as (_ & -> & _). by apply Hedges. }
      destruct (seen_cell _ _ _ _ Hst Hseen) as (cell & shot' & Hc & Hs' & Ekey & E).
      apply shot_keys_inj in Ekey as ->; [|done..]. by exists cell.
Qed.

(** ** The expected times *)

Definition span_of (stream : Event * Z) : Z * Z := (stream.2, last_time mapping trip stream).
Definition shot_span (shot : Event * Z) : Z * Z := (shot.2, shot.2).

(** If the times are still valid, the first and last cycles [spans] have been
    accounted for. *)
Definition accounts (spans : list (Z * Z)) (t t' : ExpectedTimes) : Prop :=
  et_valid t' = true ->
  et_valid t = true /\ et_min t' = foldr Z.min (et_min t) spans.*1 /\
  et_max t' = foldr Z.max (et_max t) spans.*2.

Lemma foldr_min_perm b l k : l ≡ₚ k -> foldr Z.min b l = foldr Z.min b k.
Proof. intros Hp. induction Hp; simpl; try congruence. lia. Qed.

Lemma foldr_max_perm b l k : l ≡ₚ k -> foldr Z.max b l = foldr Z.max b k.
Proof. intros Hp. induction Hp; simpl; try congruence. lia. Qed.

Lemma accounts_nil t : accounts [] t t.
Proof. done. Qed.

Lemma accounts_app spans spans' t t' t'' :
  accounts spans t t' -> accounts spans' t' t'' -> accounts (spans ++ spans') t t''.
Proof.
  intros H H' Hv. destruct (H' Hv) as (Hv' & -> & ->). destruct (H Hv') as (? & -> & ->).
  split; [done|]. rewrite !fmap_app, <- !foldr_app. split.
  - apply foldr_min_perm, Permutation_app_comm.
  - apply foldr_max_perm, Permutation_app_comm.
Qed.

Lemma accounts_perm spans spans' t t' : spans ≡ₚ spans' -> accounts spans t t' -> accounts spans' t t'.
Proof.
  intros Hp H Hv. destruct (H Hv) as (? & -> & ->). split_and!; [done|..].
  - apply foldr_min_perm. by rewrite Hp.
  - apply foldr_max_perm. by rewrite Hp.
Qed.

Lemma accounts_invalid spans t t' : et_valid t' = false -> accounts spans t t'.
Proof. intros E Hv. congruence. Qed.

Context (Hii : sch_ii schedule = ii).

Lemma account_stream_accounts t first stream :
  (forall x, first = Some x -> x = stream.2) ->
  accounts [span_of stream] t (account_stream request schedule t first).
Proof using Hii.
  intros Hx. unfold account_stream. destruct first as [x|]; simpl; [|by apply accounts_invalid].
  rewrite (Hx x eq_refl). unfold accountExpected. case_match; [by apply accounts_invalid|].
  destruct (mulSigned _ _) as [span|] eqn:Es; simpl; [|by apply accounts_invalid].
  destruct (addSigned _ _) as [last|] eqn:El; simpl; [|by apply accounts_invalid].
  arith. subst. rewrite Hii. intros Hv. simpl in *. split_and!; [done|lia|]. unfold last_time. lia.
Qed.

Lemma account_once_accounts t time v :
  (forall x, time = Some x -> x = v) -> accounts [(v, v)] t (account_once t time).
Proof.
  intros Hx. unfold account_once. destruct time as [x|]; [|by apply accounts_invalid].
  rewrite (Hx x eq_refl). intros Hv. simpl in *. split_and!; [done|lia|lia].
Qed.

Lemma expected_nodes_accounts nodes t t' :
  expected_nodes mapping request schedule nodes t = Ok t' ->
  accounts (span_of <$> (node_stream mapping <$> nodes)) t t'.
Proof using Hii.
  revert t. induction nodes as [|node nodes IH]; intros t H; simpl in H.
  { inv_ok. subst. apply accounts_nil. }
  inv_ok. apply IH in H. rewrite !fmap_cons. change (?x :: ?l) with ([x] ++ l).
  eapply accounts_app; [|exact H]. apply account_stream_accounts. intros x ->%toSigned_eq.
  simpl. unfold issue_of. by rewrite Hv.
Qed.

Lemma expected_links_accounts edge actions t :
  accounts (span_of <$> omap (link_stream mapping edge) actions) t
    (expected_links request schedule (first_base mapping edge) (actions.*2) t).
Proof using Hii.
  revert t. induction actions as [|[index [domain source direction elapsed|]] actions IH]; intros t; csimpl.
  - apply accounts_nil.
  - change (?x :: ?l) with ([x] ++ l). eapply accounts_app; [|apply IH].
    apply account_stream_accounts. by intros x ->%addSigned_eq.
  - apply IH.
Qed.

Lemma expected_boundaries_accounts edge offsets t t' :
  edge ∈ td_edges dfg ->
  (forall offset, offset ∈ offsets -> 0 <= offset < te_distance edge) ->
  (forall offset, offset ∈ offsets -> is_Some (boundaryValue edge offset)) ->
  expected_boundaries dfg schedule edge (issue_of mapping (te_src edge)) offsets t = Ok t' ->
  accounts (shot_span <$> omap (injection dfg mapping edge) offsets) t t'.
Proof using Hf Hii.
  intros He. revert t. induction offsets as [|offset offsets IH]; intros t Hr Hg H; simpl in H.
  { inv_ok. subst. apply accounts_nil. }
  inv_ok. assert (Hr' := Hr offset ltac:(left)). destruct (Hg offset ltac:(left)) as [value Hvalue].
  apply IH in H; [|intros o Ho; apply Hr; by right|intros o Ho; apply Hg; by right].
  csimpl. unfold injection at 1. rewrite Hvalue. simpl. csimpl.
  change (?x :: ?l) with ([x] ++ l). eapply accounts_app; [|exact H].
  apply account_once_accounts. intros x Hx. unfold injection_time in Hx.
  destruct (xf_edge _ _ Hf edge He) as (_ & Hd & _).
  rewrite wrap32_id in Hx by (unfold is_u32 in *; lia). arith. subst. rewrite Hii.
  unfold ready_of. rewrite Hv. simpl. lia.
Qed.

Definition edge_spans (edge : TargetEdge) : list (Z * Z) :=
  (span_of <$> edge_streams mapping edge) ++
  (shot_span <$> edge_injections dfg mapping trip edge).

Lemma expected_edge_accounts edge t t' :
  boundaries_given -> edge ∈ td_edges dfg -> TargetEdge_kind edge <> EKMemory ->
  expected_edge_times dfg mapping request schedule edge t = Ok t' -> accounts (edge_spans edge) t t'.
Proof using Hf Hii.
  intros Hg He Hk. unfold expected_edge_times. rewrite bool_decide_eq_false_2 by done.
  destruct (xf_plan _ _ Hf edge He Hk) as (d & plan & Hd & Hp & Eplan). rewrite Hd. cbn [mbind result_bind].
  rewrite Hp. intros H. inv_ok. destruct (_ ≫= _) as [[sourceTime firstBase]|] eqn:Eb in H.
  2: { inv_ok. subst. by apply accounts_invalid. }
  arith. assert (Es : sourceTime = issue_of mapping (te_src edge)).
  { unfold issue_of. rewrite Hv. congruence. }
  assert (Efb : firstBase = first_base mapping edge).
  { unfold first_base. rewrite <- Es, <- Hii. lia. }
  rewrite Es, Efb in H. apply expected_boundaries_accounts in H; [|done|..].
  - unfold edge_spans, edge_streams. rewrite Eplan. eapply accounts_app; [|exact H].
    rewrite <- (enumerate_snd (tp_actions plan)) at 2. apply expected_links_accounts.
  - intros offset Ho%elem_of_range. unfold boundary_count in Ho. lia.
  - intros offset Ho%elem_of_range. by apply Hg.
Qed.

Lemma expected_edges_accounts edges t t' :
  boundaries_given -> (forall edge, edge ∈ edges -> edge ∈ td_edges dfg) ->
  expected_edges_times dfg mapping request schedule edges t = Ok t' ->
  accounts (flat_map edge_spans (value_edges edges)) t t'.
Proof using Hf Hii.
  intros Hg. revert t. induction edges as [|edge edges IH]; intros t Hin H; simpl in H.
  { inv_ok. subst. apply accounts_nil. }
  inv_ok. apply IH in H; [|intros edge' He; apply Hin; by right].
  unfold value_edges in *. rewrite filter_cons. case_decide as Hk.
  - simpl. eapply accounts_app; [|exact H]. by apply expected_edge_accounts; [|apply Hin; left|..].
  - unfold expected_edge_times in Hv. rewrite (bool_decide_eq_true_2 _ Hk) in Hv. inv_ok. by subst.
Qed.

Lemma account_stream_valid t first :
  et_valid (account_stream request schedule t first) = true -> et_valid t = true.
Proof.
  unfold account_stream. destruct first as [x|]; simpl; [|done]. unfold accountExpected.
  case_match; [done|]. destruct (mulSigned _ _); simpl; [|done]. by destruct (addSigned _ _).
Qed.

Lemma expected_segment_accounts s t t' :
  expected_segment dfg request schedule s t = Ok t' ->
  accounts (span_of <$> segment_streams dfg mapping s) t t'.
Proof using Hii.
  unfold expected_segment. intros H. inv_ok. subst t'.
  change (span_of <$> segment_streams dfg mapping s) with
    ([span_of (rf_event RFWrite s (distance_of dfg (sg_edge s)) (register_of mapping s),
               sg_writeTime s - distance_of dfg (sg_edge s) * ii)] ++
     [span_of (rf_event RFRead s (distance_of dfg (sg_edge s)) (register_of mapping s),
               sg_readTime s - distance_of dfg (sg_edge s) * ii)]).
  destruct v as [distance|].
  - destruct (toSigned (sg_writeTime s)) as [base|] eqn:Ew; inv_ok; [|done].
    assert (Hd : distance = distance_of dfg (sg_edge s) * ii).
    { unfold distance_of. rewrite Hv0. arith. by rewrite <- Hii. }
    eapply accounts_app; apply account_stream_accounts; intros x Hx; simpl in *; arith; subst; lia.
  - apply accounts_invalid. apply not_true_iff_false. intros Hv'%account_stream_valid.
    revert Hv'. by destruct (toSigned (sg_writeTime s)).
Qed.

Lemma expected_segments_accounts l t t' :
  expected_segments dfg request schedule l t = Ok t' ->
  accounts (span_of <$> flat_map (segment_streams dfg mapping) l) t t'.
Proof using Hii.
  revert t. induction l as [|s l IH]; intros t H; simpl in H.
  { inv_ok. subst. apply accounts_nil. }
  inv_ok. apply IH in H. cbn [flat_map]. rewrite fmap_app. eapply accounts_app; [|exact H].
  by apply expected_segment_accounts.
Qed.

Lemma expected_liveOuts_accounts liveOuts t t' :
  expected_liveOuts dfg mapping request schedule liveOuts t = Ok t' ->
  accounts (shot_span <$> (live_out_use dfg mapping trip <$> liveOuts)) t t'.
Proof using Hii.
  revert t. induction liveOuts as [|lo liveOuts IH]; intros t H; simpl in H.
  { inv_ok. subst. apply accounts_nil. }
  inv_ok. apply IH in H. rewrite !fmap_cons. change (?x :: ?l) with ([x] ++ l).
  eapply accounts_app; [|exact H]. apply account_once_accounts. intros x ->.
  destruct (tn_resultLatency v) as [latency|] eqn:El; inv_ok; [|done].
  unfold live_out_time in Hv0. arith. unfold live_out_use, issue_of, latency_of.
  rewrite Hv, El, Hv1. subst. simpl. by rewrite Hii.
Qed.

Lemma expected_times_accounts t :
  boundaries_given -> expected_times dfg mapping request schedule = Ok t -> et_valid t = true ->
  et_min t = lowest (first_times dfg mapping trip) /\
  et_max t = highest (last_times dfg mapping trip).
Proof using Hf Hii.
  intros Hg H Hvalid. unfold expected_times in H. inv_ok.
  apply expected_nodes_accounts in Hv. apply expected_edges_accounts in Hv0; [|done..].
  apply expected_segments_accounts in Hv1. apply expected_liveOuts_accounts in H.
  pose proof (accounts_app _ _ _ _ _ (accounts_app _ _ _ _ _ (accounts_app _ _ _ _ _ Hv Hv0) Hv1) H) as Ha.
  apply (accounts_perm _ ((span_of <$> streams) ++ (shot_span <$> shots))) in Ha.
  - apply Ha in Hvalid as (_ & E1 & E2). rewrite fmap_app, <- !list_fmap_compose in E1, E2.
    simpl in E1, E2. split; [exact E1|exact E2].
  - unfold periodic_streams, one_shots. rewrite !fmap_app, !fmap_flat_map. unfold edge_spans.
    rewrite flat_map_app_perm. solve_Permutation.
Qed.

Lemma lowest_le_highest :
  0 < trip -> lowest (first_times dfg mapping trip) <> i64_max ->
  lowest (first_times dfg mapping trip) <= highest (last_times dfg mapping trip).
Proof using Hf.
  intros Htrip. pose proof (xf_ii _ _ Hf) as Hpos.
  set (spans := (span_of <$> streams) ++ (shot_span <$> shots)).
  assert (E1 : first_times dfg mapping trip = spans.*1).
  { unfold spans. rewrite fmap_app, <- !list_fmap_compose. done. }
  assert (E2 : last_times dfg mapping trip = spans.*2).
  { unfold spans. rewrite fmap_app, <- !list_fmap_compose. done. }
  rewrite E1, E2. assert (Hle : forall p, p ∈ spans -> p.1 <= p.2).
  { intros p [(s & -> & _)%list_elem_of_fmap|(s & -> & _)%list_elem_of_fmap]%elem_of_app; simpl; [|lia].
    unfold last_time. nia. }
  destruct spans as [|p spans]; [done|]. intros _. specialize (Hle p ltac:(left)).
  unfold lowest, highest. simpl. lia.
Qed.
End Cover.

(** ** Unrolling *)

Lemma repetition_0 ii cell : repetition ii 0 cell = cell.
Proof.
  destruct cell as [c e]. unfold repetition, advance_event, at_iteration. simpl. destruct e; simpl.
  f_equal; [lia|]. f_equal. lia.
Qed.

Lemma items_once mapping l : flat_map (item_cells mapping) (items_of 1 l) = filter periodic l.
Proof.
  unfold items_of. rewrite flat_map_fmap. induction (filter periodic l) as [|cell k IH]; [done|].
  simpl in *. rewrite IH. f_equal. apply repetition_0.
Qed.

Lemma items_repeated mapping n l : (forall cell, cell ∈ l -> periodic cell) ->
  flat_map (item_cells mapping) (items_of n l) ≡ₚ
  flat_map (fun k => repetition (mm_ii (sm_modulo (ra_staged mapping))) k <$> l) (range n).
Proof.
  intros Hl. unfold items_of. rewrite flat_map_fmap, list_filter_all by done.
  unfold item_cells. simpl.
  rewrite (flat_map_ext_in _ (fun cell => flat_map (fun k =>
    [repetition (mm_ii (sm_modulo (ra_staged mapping))) k cell]) (range n)))
    by (intros cell _; by rewrite flat_map_singleton).
  rewrite flat_map_swap. apply flat_map_perm; [|done]. intros k _. by rewrite flat_map_singleton.
Qed.

(** ** The verifier *)

(** The unsigned fields of a schedule. *)
Definition typed_schedule (s : MaterializedSchedule) : Prop :=
  is_u64 (rk_repeatCount (sch_kernel s)) /\
  forall events e, events ∈ sch_prologue s ++ rk_body (sch_kernel s) ++ sch_epilogue s -> e ∈ events ->
    typed_event e.

Section Accepted.
Context (dfg : TargetDFG) (target : TargetModel) (mapping : RFAllocatedMapping).
Context (request : ScheduleMaterializationRequest) (schedule : MaterializedSchedule).

Abbreviation staged := (ra_staged mapping).
Abbreviation ii := (mm_ii (sm_modulo (ra_staged mapping))).
Abbreviation trip := (mrq_tripCount request).
Abbreviation origin := (sch_timeOriginShift schedule).
Abbreviation kernel := (sch_kernel schedule).
Abbreviation kernel_start := (Z.of_nat (length (sch_prologue schedule))).
Abbreviation epilogue_start := (kernel_start + rk_repeatCount kernel * sch_ii schedule).

Context (Hinv : TargetDFG_inv dfg) (Hf : execution_facts dfg mapping).
Context (Htyped : typed_schedule schedule).

(** The shape of the kernel the verifier insists on. *)
Definition kernel_shape : Prop :=
  Z.of_nat (length (rk_body kernel)) = if rk_repeatCount kernel =? 0 then 0 else sch_ii schedule.

(** The cells of the phases as the scans see them. *)
Definition all_items : list (Z * Event * Z) :=
  items_of 1 (cells 0 (sch_prologue schedule)) ++
  items_of (rk_repeatCount kernel) (cells kernel_start (rk_body kernel)) ++
  items_of 1 (cells epilogue_start (sch_epilogue schedule)).
Definition all_shots : list (Z * Event) :=
  shots_of (cells 0 (sch_prologue schedule)) ++
  shots_of (cells epilogue_start (sch_epilogue schedule)).

Definition kernel_periodic : Prop :=
  forall events e, events ∈ rk_body kernel -> e ∈ events -> is_one_shot (ev_kind e) = false.

Lemma kernel_cells_periodic cell :
  kernel_periodic -> cell ∈ cells kernel_start (rk_body kernel) -> periodic cell.
Proof.
  intros Hk ([offset events] & Hin & (e & -> & He)%list_elem_of_fmap)%elem_of_flat_map.
  apply elem_of_enumerate in Hin as [_ Hin%list_elem_of_lookup_2]. by apply (Hk events).
Qed.

Lemma unroll_items :
  sch_ii schedule = ii -> kernel_periodic ->
  unroll schedule ≡ₚ flat_map (item_cells mapping) all_items ++ all_shots.
Proof.
  intros Hii Hk. unfold unroll, all_items, all_shots. rewrite !flat_map_app, !items_once.
  rewrite items_repeated by (intros cell; by apply kernel_cells_periodic). rewrite Hii.
  set (p := cells 0 _). set (k := flat_map _ (range _)). set (q := cells (_ + _) _).
  unfold shots_of. rewrite <- (filter_app_complement periodic p) at 1.
  rewrite <- (filter_app_complement periodic q) at 1. solve_Permutation.
Qed.

Lemma scans_clean st1 st2 st3 :
  sch_ii schedule = ii -> kernel_shape ->
  scanPhase dfg mapping request schedule (sch_prologue schedule) 0 0 (mkVerifyState [] [] ∅ ∅) = Ok st1 ->
  scan_kernel dfg mapping request schedule (rk_body kernel) 0 kernel_start st1 = Ok st2 ->
  scanPhase dfg mapping request schedule (sch_epilogue schedule) 0 epilogue_start st2 = Ok st3 ->
  vs_report st3 = [] ->
  scanned dfg mapping request schedule all_items all_shots st3 /\ kernel_periodic.
Proof using Hinv Hf Htyped.
  intros Hii Hshape H1 H2 H3 Hclean. destruct Htyped as [Hu64 Hev].
  apply scanPhase_clean in H3 as [Hc3 Hs3]; try done;
    [|intros events e He; apply Hev; rewrite !elem_of_app; auto].
  assert (Hk : clean_scan dfg mapping request schedule (rk_repeatCount kernel)
    (cells (kernel_start + 0) (rk_body kernel)) st1 st2 /\ kernel_periodic).
  { unfold kernel_shape in Hshape. destruct (Z.eqb_spec (rk_repeatCount kernel) 0) as [E|E].
    - assert (Hnil : rk_body kernel = []) by (apply nil_length_inv; lia). rewrite Hnil in *.
      simpl in H2. inv_ok. subst st2. split; [by apply clean_scan_nil|].
      intros events e He. rewrite Hnil in He. by apply not_elem_of_nil in He.
    - apply scan_kernel_clean with (st' := st2); try done.
      + intros events e He. apply Hev. rewrite !elem_of_app. auto.
      + unfold repeatCount, is_u64 in *. lia. }
  destruct Hk as [[Hc2 Hs2] Hper]. split; [|done].
  apply scanPhase_clean in H1 as [_ Hs1]; try done;
    [|intros events e He; apply Hev; rewrite !elem_of_app; auto].
  specialize (Hs1 [] [] ltac:(apply scanned_init)). apply Hs2, Hs3 in Hs1. rewrite !Z.add_0_r in Hs1.
  assert (Hno : shots_of (cells kernel_start (rk_body kernel)) = []).
  { unfold shots_of. apply list_nil_filter_iff. intros cell Hc Hn. apply Hn.
    by apply kernel_cells_periodic. }
  rewrite Hno in Hs1. unfold all_items, all_shots. simpl in Hs1. rewrite app_nil_r in Hs1.
  by rewrite (assoc_L (++)).
Qed.

Lemma coverage_clean expected st :
  coverage_report dfg request expected st = [] ->
  flat_map (missing_stream (vs_ranges st)) expected = [] /\ shots_seen dfg request st.
Proof.
  unfold coverage_report. autorewrite with report. intros (Hm & _ & Hb & Hl). split; [done|]. split.
  - intros edge offset He Hk Ho. specialize (Hb edge He). rewrite bool_decide_eq_false_2 in Hb by done.
    rewrite flat_map_nil_iff in Hb. specialize (Hb offset).
    rewrite elem_of_range, when_cons_nil, negb_false_iff, bool_decide_eq_true in Hb. by apply Hb.
  - intros lo Hlo. specialize (Hl lo Hlo).
    by rewrite when_cons_nil, negb_false_iff, bool_decide_eq_true in Hl.
Qed.

(** Clean events cover the execution, from whatever origin they start. *)
Lemma verify_events_sound :
  sch_ii schedule = ii -> kernel_shape ->
  verify_events dfg mapping request schedule = Ok [] ->
  kernel_periodic /\ boundaries_given dfg request /\
  meant <$> unroll schedule ≡ₚ events_from dfg mapping trip origin.
Proof using Hinv Hf Htyped.
  intros Hii Hshape H. unfold verify_events in H. inv_ok.
  apply app_nil in H as [Hclean Hcov].
  destruct (scans_clean v v0 v1) as [Hs Hper]; try done.
  rewrite expected_ranges_eq in Hv2 by done. inv_ok. subst v2.
  apply coverage_clean in Hcov as [Hmiss Hseen].
  split; [done|]. split; [by eapply seen_boundaries|].
  rewrite (unroll_items Hii Hper), fmap_app. unfold events_from. f_equiv.
  - by eapply periodic_cells.
  - by eapply shot_cells.
Qed.

(** The comparison of the times, once the values before the loop are given. *)
Lemma shape_sound t :
  sch_ii schedule = ii -> 0 < trip -> boundaries_given dfg request ->
  expected_times dfg mapping request schedule = Ok t ->
  verify_shape dfg mapping request schedule t = Ok [] ->
  origin = time_origin dfg mapping trip /\
  sch_totalLogicalCycles schedule = total_cycles dfg mapping trip.
Proof using Hf.
  intros Hii Htrip Hg Ht. unfold verify_shape. destruct (_ || _ || _ || _)%bool eqn:E; [done|].
  apply orb_false_iff in E as [[[E1 E2]%orb_false_iff E3]%orb_false_iff E4].
  apply negb_false_iff in E1. apply expected_times_accounts in Ht as [Emin Emax]; try done.
  pose proof (lowest_le_highest dfg mapping request Hf Htrip) as Hle. rewrite <- Emin, <- Emax in Hle.
  apply Z.eqb_neq in E2. specialize (Hle E2).
  destruct (_ || _)%bool eqn:Eo; [done|]. apply orb_false_iff in Eo as [Eo1 Eo2].
  destruct (_ || _)%bool eqn:Es; [done|]. apply orb_false_iff in Es as [Es1 Es2]. intros _.
  apply negb_false_iff, Z.eqb_eq in Es1, Es2.
  assert (Hw : wrap64 (et_max t + (if et_min t <? 0 then - et_min t else 0)) =
    et_max t + (if et_min t <? 0 then - et_min t else 0)).
  { apply wrap64_id. unfold is_u64, u64_max, i64_max in *. destruct (Z.ltb_spec (et_min t) 0); lia. }
  rewrite Hw in Es2. unfold time_origin, total_cycles, time_origin. rewrite <- Emin, <- Emax. lia.
Qed.
End Accepted.

(** ** The theorem *)

Section Theorem_.
Context (dfg : TargetDFG) (target : TargetModel) (mapping : RFAllocatedMapping).
Context (Hinv : TargetDFG_inv dfg) (Htwf : TargetModel_wf target) (Hrf : register_files_wf target).
Context (Htyped : typed_graph dfg) (Hst : typed_staged (ra_staged mapping)).
Context (Hal : typed_allocations mapping) (Hsorted : sorted_allocations mapping).
Context (Hfit : segments_fit mapping).
Context (Hu : universe_fits target (mm_ii (sm_modulo (ra_staged mapping)))).

Lemma accepted_exact request schedule :
  is_u64 (mrq_tripCount request) -> typed_schedule schedule ->
  msv_verify dfg target mapping request schedule = Ok [] ->
  0 < mrq_tripCount request /\ boundaries_given dfg request /\
  schedule_exact dfg mapping (mrq_tripCount request) schedule.
Proof using All.
  intros Htrip Hsch. unfold msv_verify. destruct (Z.eqb_spec (mrq_tripCount request) 0); [done|].
  destruct (_ <? _); [done|]. intros H. inv_ok. case_bool_decide; [|done]. simpl in H. inv_ok.
  case_bool_decide; [|done]. simpl in H. subst v0. destruct (_ || _)%bool eqn:E1; [done|].
  apply orb_false_iff in E1 as [E1%negb_false_iff%Z.eqb_eq E2%negb_false_iff%Z.eqb_eq].
  destruct (_ || _)%bool eqn:E3; [done|]. destruct (sch_totalLogicalCycles schedule =? 0); [done|]. inv_ok.
  assert (Hf : execution_facts dfg mapping) by (by apply (verified_facts dfg target mapping)).
  assert (Hpos : 0 < mrq_tripCount request) by (unfold is_u64 in *; lia).
  assert (Hshape : kernel_shape schedule).
  { unfold kernel_shape, repeatCount in *.
    destruct (Z.eqb_spec (rk_repeatCount (sch_kernel schedule)) 0); simpl in E3; [|lia].
    rewrite orb_false_r in E3. apply negb_false_iff, bool_decide_eq_true in E3. by rewrite E3. }
  assert (Hev : verify_events dfg mapping request schedule = Ok [] /\
    Z.of_nat (length (sch_prologue schedule)) + rk_repeatCount (sch_kernel schedule) * sch_ii schedule +
      Z.of_nat (length (sch_epilogue schedule)) = sch_totalLogicalCycles schedule).
  { clear -H. unfold verify_shape in H. destruct (_ || _ || _ || _)%bool; [done|].
    destruct (_ || _)%bool; [done|]. destruct (_ || _)%bool; [done|]. destruct (_ && _)%bool; [done|].
    destruct (_ || _)%bool eqn:E; [done|]. split; [done|].
    unfold prologue_length, kernel_cycles, repeatCount in E. lia. }
  destruct Hev as [Hev Hcycles].
  destruct (verify_events_sound dfg mapping request schedule Hinv Hf Hsch E2 Hshape Hev)
    as (Hper & Hg & Hperm).
  match type of H with verify_shape _ _ _ _ ?t = _ =>
    destruct (shape_sound dfg mapping request schedule Hf t E2 Hpos Hg) as [Ho Htotal]; [done..|]
  end.
  split; [done|]. split; [done|]. split; try done. unfold expected_events. by rewrite <- Ho.
Qed.
End Theorem_.

(** C14: the materialized-schedule verifier is sound.  A schedule it accepts is
    exactly the finite execution of its mapping: its cycles run from the time
    origin to the last event, its kernel repeats periodic events only, and
    unrolling the prologue, the repetitions of the kernel and the epilogue yields
    every node issue, link launch, register access, recurrence seed and live-out
    use of every iteration once, in its cycle, and nothing else. *)
Theorem materialized_verifier_sound (dfg : TargetDFG) (target : TargetModel)
    (mapping : RFAllocatedMapping) (request : ScheduleMaterializationRequest)
    (schedule : MaterializedSchedule) :
  TargetDFG_inv dfg -> TargetModel_wf target -> register_files_wf target -> typed_graph dfg ->
  typed_staged (ra_staged mapping) -> typed_allocations mapping -> sorted_allocations mapping ->
  segments_fit mapping -> universe_fits target (mm_ii (sm_modulo (ra_staged mapping))) ->
  is_u64 (mrq_tripCount request) -> typed_schedule schedule ->
  msv_verify dfg target mapping request schedule = Ok [] ->
  boundaries_given dfg request /\ schedule_exact dfg mapping (mrq_tripCount request) schedule.
Proof. intros. eapply accepted_exact; done. Qed.

(** Six iterations of the accumulation: five cycles of prologue, the kernel five
    times, three cycles of epilogue. *)
Definition v2_loop : ScheduleMaterializationRequest := mkMatRequest 6 default_materialization_budget.

Definition v2_schedule : MaterializedSchedule :=
  match schedule_materialize v2_accumulate cgra_v2 v2_allocation v2_loop with
  | Ok (Some r) => default (mkSchedule 0 0 0 0 [] (mkKernel [] 0) []) (mtr_schedule r)
  | _ => mkSchedule 0 0 0 0 [] (mkKernel [] 0) []
  end.

Example v2_schedule_shape :
  (length (sch_prologue v2_schedule), rk_repeatCount (sch_kernel v2_schedule),
   length (sch_epilogue v2_schedule), sch_totalLogicalCycles v2_schedule) = (5%nat, 5, 3%nat, 33).
Proof. vm_compute. reflexivity. Qed.

(** Decides [typed_schedule]. *)
Definition unsigned_fields (s : MaterializedSchedule) : bool :=
  (0 <=? rk_repeatCount (sch_kernel s)) && (rk_repeatCount (sch_kernel s) <=? u64_max) &&
  forallb (forallb (fun e => (0 <=? default 0 (ev_transportActionIndex e)) &&
                             (0 <=? default 0 (ev_consumerIterationOffset e))))
    (sch_prologue s ++ rk_body (sch_kernel s) ++ sch_epilogue s).

Lemma unsigned_fields_typed s : unsigned_fields s = true -> typed_schedule s.
Proof.
  unfold unsigned_fields, typed_schedule, is_u64. rewrite !andb_true_iff, forallb_forall.
  intros [? H]. split; [lia|]. intros events e Hev%list_elem_of_In He%list_elem_of_In.
  specialize (H events Hev). rewrite forallb_forall in H. specialize (H e He).
  split; intros i Ei; rewrite Ei in H; simpl in H; lia.
Qed.

Lemma v2_allocation_sorted : sorted_allocations v2_allocation.
Proof. unfold sorted_allocations. repeat constructor; vm_compute; congruence. Qed.

Lemma materialized_verifier_sound_witness :
  msv_verify v2_accumulate cgra_v2 v2_allocation v2_loop v2_schedule = Ok [] /\
  boundaries_given v2_accumulate v2_loop /\ schedule_exact v2_accumulate v2_allocation 6 v2_schedule.
Proof.
  split; [vm_compute; reflexivity|].
  apply (materialized_verifier_sound v2_accumulate cgra_v2 v2_allocation v2_loop v2_schedule).
  - exact v2_accumulate_inv.
  - exact cgra_v2_wf.
  - exact cgra_v2_register_files.
  - exact v2_accumulate_typed.
  - exact v2_staged_typed.
  - exact v2_allocation_typed.
  - exact v2_allocation_sorted.
  - vm_compute. congruence.
  - vm_compute. congruence.
  - vm_compute. split; congruence.
  - apply unsigned_fields_typed. vm_compute. reflexivity.
  - vm_compute. reflexivity.
Defined.
