(* ===== verification/MaterializerSound.v ===== *)
(** * The schedule materializer's outcome

    [ScheduleMaterializer::materialize] always returns a result: its trimming
    loops end within the fuel given to them.  A success carries a schedule that is
    exactly the execution, and a missing boundary value is reported only when one
    is missing.  [MaterializerGaps] holds the two ways it refuses an execution that
    exists. *)
From stdpp Require Import base numbers list gmap strings sorting.
From S2P Require Import Prelude.
From S2P Require Import IR.
From S2P Require Import TargetModel.
From S2P Require Import CgraV2.
From S2P Require Import TargetDFG.
From S2P Require Import TargetDFGVerifier.
From S2P Require Import ModuloResources.
From S2P Require Import ModuloMapping.
From S2P Require Import MappingVerifier.
From S2P Require Import OrderedMap.
From S2P Require Import MIIAnalyzer.
From S2P Require Import StageScheduler.
From S2P Require Import StorageRequirements.
From S2P Require Import RFAllocation.
From S2P Require Import MaterializedSchedule.
From S2P Require Import MaterializedVerifier.
From S2P Require Import ScheduleMaterializer.
From S2P Require Import MaterializeSpec.

From S2P Require Import MaterializedVerifierSound.
From S2P Require Import MaterializedExact.

(** ** A weakest precondition for [mat]

    A computation does not run out of fuel, what it returns satisfies [Q], and it
    stops for a missing boundary value only if [missing]. *)
Section Wp.
Context (missing : Prop).

Definition allowed_stop (s : mat_stop) : Prop :=
  match s with
  | NoFuel => False
  | Returned MatMissingRecurrenceBoundaryValue _ => missing
  | Returned status _ => status = MatBudgetExceeded \/ status = MatPhaseFactorizationError
  | Thrown _ => True
  end.

Definition wp {A} (m : mat A) (Q : A -> Prop) : Prop :=
  match m with Go a => Q a | Stop s => allowed_stop s end.

Lemma wp_bind {A B} (m : mat A) (f : A -> mat B) Q :
  wp m (fun a => wp (f a) Q) -> wp (m ≫= f) Q.
Proof. by destruct m. Qed.

Lemma wp_mono {A} (m : mat A) (P Q : A -> Prop) : (forall a, P a -> Q a) -> wp m P -> wp m Q.
Proof. intros H. destruct m; simpl; auto. Qed.

Lemma wp_lift {A} (r : result A) Q : (forall a, r = Ok a -> Q a) -> wp (lift r) Q.
Proof. destruct r; simpl; auto. Qed.

Lemma wp_checked {A} (o : option A) Q : (forall a, o = Some a -> Q a) -> wp (checked o) Q.
Proof. destruct o; simpl; auto. Qed.
End Wp.

Ltac wp_step :=
  match goal with
  | |- wp _ (Go _) _ => simpl
  | |- wp _ (Stop _) _ => solve [simpl; auto]
  | |- wp _ (mbind _ _) _ => apply wp_bind
  | |- wp _ (lift _) _ => apply wp_lift; intros
  | |- wp _ (checked _) _ => apply wp_checked; intros
  | |- wp _ (if ?b then _ else _) _ => destruct b eqn:?
  | |- wp _ (match ?o with Some _ => _ | None => _ end) _ => destruct o eqn:?
  end.
Ltac wp_steps := repeat wp_step.

(** ** Trimming ends *)

Lemma length_filter_lt {A} (P Q : A -> Prop) `{!forall x, Decision (P x)} `{!forall x, Decision (Q x)}
    (l : list A) x :
  (forall y, P y -> Q y) -> x ∈ l -> Q x -> ~ P x -> (length (filter P l) < length (filter Q l))%nat.
Proof.
  intros HPQ Hin Hq Hp. induction l as [|y l IH]; [by apply not_elem_of_nil in Hin|].
  assert (Hle : (length (filter P l) <= length (filter Q l))%nat).
  { clear IH Hin. induction l as [|z l IH]; [done|]. rewrite !filter_cons.
    destruct (decide (P z)) as [Hz|]; [rewrite decide_True by auto; simpl; lia|].
    destruct (decide (Q z)); simpl; lia. }
  rewrite !filter_cons. apply elem_of_cons in Hin as [->|Hin].
  - rewrite decide_False, decide_True by done. simpl. lia.
  - apply IH in Hin. destruct (decide (P y)) as [Hy|]; [rewrite decide_True by auto; simpl; lia|].
    destruct (decide (Q y)); simpl; lia.
Qed.

Section Trim.
Context (mapping : RFAllocatedMapping) (shots : list OneShot).

Abbreviation ii := (mm_ii (sm_modulo (ra_staged mapping))).
Abbreviation period := (fun shot => os_logicalTime shot / ii).

Lemma hasOneShotInPeriod_true p :
  hasOneShotInPeriod mapping shots p = true -> exists shot, shot ∈ shots /\ period shot = p.
Proof.
  unfold hasOneShotInPeriod. intros (shot & Hin%list_elem_of_In & E%Z.eqb_eq)%existsb_exists. by exists shot.
Qed.

(** Every round leaves the events of one period behind. *)
Lemma trim_begin_total n (begin end_ : Z) :
  (length (filter (fun shot => (begin <= period shot)%Z) shots) < n)%nat ->
  is_Some (trim_begin mapping n shots begin end_).
Proof.
  revert begin. induction n as [|n IH]; intros begin Hn; [lia|]. simpl.
  destruct (_ && _)%bool eqn:E; [|done]. destruct (_ =? _); [done|]. apply IH.
  apply andb_true_iff in E as [_ (shot & Hin & Ep)%hasOneShotInPeriod_true].
  apply (Nat.lt_le_trans _ (length (filter (fun shot => (begin <= period shot)%Z) shots))); [|lia].
  apply (length_filter_lt _ _ _ shot); [|done|lia|lia]. intros y Hy. lia.
Qed.

Lemma trim_end_total n (begin end_ : Z) :
  (length (filter (fun shot => (period shot <= end_)%Z) shots) < n)%nat ->
  is_Some (trim_end mapping n shots begin end_).
Proof.
  revert end_. induction n as [|n IH]; intros end_ Hn; [lia|]. simpl.
  destruct (_ && _)%bool eqn:E; [|done]. destruct (_ =? _); [done|]. apply IH.
  apply andb_true_iff in E as [_ (shot & Hin & Ep)%hasOneShotInPeriod_true].
  apply (Nat.lt_le_trans _ (length (filter (fun shot => (period shot <= end_)%Z) shots))); [|lia].
  apply (length_filter_lt _ _ _ shot); [|done|lia|lia]. intros y Hy. lia.
Qed.

Lemma trim_total begin end_ : is_Some (trim mapping shots begin end_).
Proof.
  unfold trim. destruct (trim_begin_total (S (length shots)) begin end_) as [[b e] ->].
  { apply Nat.lt_succ_r, length_filter. }
  simpl. apply (trim_end_total (S (length shots))). apply Nat.lt_succ_r, length_filter.
Qed.
End Trim.

(** ** Collecting *)

(** An event the materializer makes: its numbers are unsigned, and an issue names
    no tile. *)
Definition made_event (e : Event) : Prop :=
  typed_event e /\ (ev_kind e = NodeIssue -> ev_tile e = None) /\
  forall tile, ev_tile e = Some tile -> unsigned_coord tile.

Definition typed_collected (c : Collected) : Prop :=
  (forall s, s ∈ cl_streams c -> made_event (ps_event s)) /\
  (forall s, s ∈ cl_oneShots c -> made_event (os_event s)).

Lemma made_events_no_fields e :
  ev_transportActionIndex e = None -> ev_consumerIterationOffset e = None ->
  (ev_kind e = NodeIssue -> ev_tile e = None) ->
  (forall tile, ev_tile e = Some tile -> unsigned_coord tile) -> made_event e.
Proof. intros H1 H2 H3 H4. split; [|done]. split; intros i; by rewrite ?H1, ?H2. Qed.

Section Collect.
Context (missing : Prop) (dfg : TargetDFG) (mapping : RFAllocatedMapping) (request : ScheduleMaterializationRequest).
Context (Hf : execution_facts dfg mapping).

Abbreviation ii := (mm_ii (sm_modulo (ra_staged mapping))).
Abbreviation trip := (mrq_tripCount request).

Lemma push_stream_wp c event first count period :
  typed_collected c -> made_event event -> wp missing (push_stream c event first count period) typed_collected.
Proof.
  intros [H1 H2] He. unfold push_stream. apply wp_lift. intros c'. unfold account.
  repeat case_match; intros [= <-]. split; [|done]. simpl.
  intros s [?| ->%list_elem_of_singleton]%elem_of_app; [by apply H1|done].
Qed.

Lemma signedTime_wp node Q : (forall t, Q t) -> wp missing (signedTime mapping node) Q.
Proof. intros HQ. unfold signedTime. wp_steps. apply HQ. Qed.

Lemma collect_nodes_wp nodes c :
  typed_collected c -> wp missing (collect_nodes mapping request nodes c) typed_collected.
Proof.
  revert c. induction nodes as [|node nodes IH]; intros c Hc; simpl; [done|].
  apply wp_bind, signedTime_wp. intros t. apply wp_bind.
  eapply wp_mono, push_stream_wp; [intros c' Hc'; by apply IH|done|by apply made_events_no_fields].
Qed.

Lemma collect_links_wp edge base actions c :
  (forall index action, (index, action) ∈ actions -> 0 <= index /\
     forall domain source direction elapsed, action = LinkStep domain source direction elapsed ->
       unsigned_coord source) ->
  typed_collected c -> wp missing (collect_links mapping request edge base actions c) typed_collected.
Proof.
  revert c. induction actions as [|[index [domain source direction elapsed|]] actions IH];
    intros c Hi Hc; simpl; [done| |].
  - wp_step. wp_step. wp_step. eapply wp_mono, push_stream_wp; [|done|].
    + intros c' Hc'. apply IH; [|done]. intros i a' Hin. apply (Hi i a'). by right.
    + destruct (Hi index _ ltac:(by left)) as [Hindex Hsource].
      split; [split; simpl; [by intros i [= <-]|done]|]. split; [done|].
      intros tile [= <-]. by eapply Hsource.
  - apply IH; [|done]. intros i a Hin. apply (Hi i a). by right.
Qed.

Lemma collect_boundaries_wp edge offsets c :
  (forall offset, offset ∈ offsets -> 0 <= offset /\ (boundaryValue edge offset = None -> missing)) ->
  typed_collected c -> wp missing (collect_boundaries dfg mapping edge offsets c) typed_collected.
Proof.
  revert c. induction offsets as [|offset offsets IH]; intros c Ho Hc; simpl; [done|].
  destruct (Ho offset ltac:(left)) as [Ho' Hm].
  apply wp_bind. unfold collect_boundary. destruct (boundaryValue edge offset); [|by apply Hm].
  wp_step. wp_step. wp_step. apply signedTime_wp. intros t. wp_steps.
  apply IH; [intros o Hin; apply Ho; by right|]. destruct Hc as [Hs1 Hs2]. split; [done|]. simpl.
  intros s [?| ->%list_elem_of_singleton]%elem_of_app; [by apply Hs2|].
  split; [split; simpl; [done|by intros i [= <-]]|]. split; [done|].
  intros tile [= <-]. by eapply (xf_placement _ _ Hf).
Qed.

(** Some value from before the loop is not given. *)
Definition boundary_missing : Prop :=
  exists edge offset, edge ∈ td_edges dfg /\ TargetEdge_kind edge <> EKMemory /\
    0 <= offset < Z.min trip (te_distance edge) /\ boundaryValue edge offset = None.

Context (Hmissing : boundary_missing -> missing).

Lemma link_unsigned edge domain source direction elapsed :
  edge ∈ td_edges dfg -> TargetEdge_kind edge <> EKMemory ->
  LinkStep domain source direction elapsed ∈ plan_of mapping edge -> unsigned_coord source.
Proof using Hf. intros ? ? Hin. by eapply (xf_link _ _ Hf) in Hin as [_ ?]. Qed.

Lemma collect_edges_wp edges c :
  (forall edge, edge ∈ edges -> edge ∈ td_edges dfg) ->
  typed_collected c -> wp missing (collect_edges dfg mapping request edges c) typed_collected.
Proof.
  revert c. induction edges as [|edge edges IH]; intros c Hin Hc; simpl; [done|].
  assert (Hin' : forall edge', edge' ∈ edges -> edge' ∈ td_edges dfg) by (intros e He; apply Hin; by right).
  case_bool_decide as Hk; [by apply IH|]. wp_step. wp_step. wp_step. wp_step. wp_step.
  apply signedTime_wp. intros t. wp_step. wp_step. wp_step. wp_step. wp_step.
  eapply wp_mono, collect_links_wp; [| |done].
  2: { intros index action [Hi Hl]%elem_of_enumerate. split; [done|].
    intros domain source direction elapsed ->. apply (link_unsigned edge domain source direction elapsed).
    - apply Hin. by left.
    - done.
    - unfold plan_of. match goal with H : dependence _ _ = Ok _ |- _ => rewrite H end.
      match goal with H : of_option _ _ = Ok _ |- _ => apply of_option_Ok in H as -> end.
      by eapply list_elem_of_lookup_2. }
  intros c' Hc'. apply wp_bind. eapply wp_mono, collect_boundaries_wp; [| |done].
  - intros c'' Hc''. by apply IH.
  - intros o Ho%elem_of_range. split; [lia|]. intros Hn. apply Hmissing.
    exists edge, o. split_and!; try done; [apply Hin; by left|lia..].
Qed.

Lemma collect_access_wp s distance distanceTime write c :
  s ∈ rq_segments (ra_requirements mapping) -> typed_collected c ->
  wp missing (collect_access mapping request s distance distanceTime write c) typed_collected.
Proof using Hf.
  intros Hs Hc. unfold collect_access. wp_steps. apply push_stream_wp; [done|].
  apply made_events_no_fields; [done|done| |]; simpl; [by destruct write|].
  intros tile [= <-]. by destruct (xf_segment _ _ Hf s Hs) as (? & _ & _ & _ & _ & _ & ?).
Qed.

Lemma collect_segments_wp l c :
  (forall s, s ∈ l -> s ∈ rq_segments (ra_requirements mapping)) ->
  typed_collected c -> wp missing (collect_segments dfg mapping request l c) typed_collected.
Proof.
  revert c. induction l as [|s l IH]; intros c Hl Hc; simpl; [done|].
  assert (Hs : s ∈ rq_segments (ra_requirements mapping)) by (apply Hl; by left).
  wp_step. wp_step. case_bool_decide; [done|]. wp_step. wp_step. wp_step.
  eapply wp_mono, collect_access_wp; [|done..]. intros c' Hc'. wp_step.
  eapply wp_mono, collect_access_wp; [|done..]. intros c'' Hc''.
  apply IH; [|done]. intros s' Hs'. apply Hl. by right.
Qed.

Lemma collect_liveOuts_wp liveOuts c :
  typed_collected c -> wp missing (collect_liveOuts dfg mapping request liveOuts c) typed_collected.
Proof.
  revert c. induction liveOuts as [|lo liveOuts IH]; intros c Hc; simpl; [done|].
  wp_step. wp_step. wp_step. wp_step. wp_step. apply signedTime_wp. intros t. wp_steps.
  apply IH. destruct Hc as [Hs1 Hs2]. split; [done|]. simpl.
  intros s [?| ->%list_elem_of_singleton]%elem_of_app; [by apply Hs2|]. by apply made_events_no_fields.
Qed.

Lemma collect_wp : wp missing (collect dfg mapping request) typed_collected.
Proof.
  unfold collect. wp_step. eapply wp_mono, collect_nodes_wp.
  2: { split; intros s Hs; by apply not_elem_of_nil in Hs. }
  intros c Hc. wp_step. eapply wp_mono, collect_edges_wp; [|done|done]. intros c' Hc'. wp_step.
  eapply wp_mono, collect_segments_wp; [|done..]. intros c'' Hc''. by apply collect_liveOuts_wp.
Qed.
End Collect.

(** ** Placing *)

Definition typed_cycles (cycles : list CycleBundle) : Prop :=
  forall events e, events ∈ cycles -> e ∈ events -> made_event e.

Definition typed_phases (tail : nat) (ph : Phases) : Prop :=
  typed_cycles (ph_prologue ph) /\ typed_cycles (ph_kernel ph) /\
  typed_cycles (ph_epilogue ph) /\ length (ph_epilogue ph) = tail.

Lemma push_event_typed cycles index e :
  typed_cycles cycles -> made_event e -> typed_cycles (push_event cycles index e).
Proof.
  intros Hc He events e' [i Hi]%list_elem_of_lookup Hin. unfold push_event in Hi.
  destruct (decide (i = nat_of index)) as [->|Hne].
  - rewrite list_lookup_alter_eq in Hi. apply fmap_Some in Hi as (old & Ho & ->).
    apply elem_of_app in Hin as [Hin| ->%list_elem_of_singleton]; [|done].
    by apply (Hc old); [eapply list_elem_of_lookup_2|].
  - rewrite list_lookup_alter_ne in Hi by done. by apply (Hc events); [eapply list_elem_of_lookup_2|].
Qed.

Lemma length_push_event cycles index e : length (push_event cycles index e) = length cycles.
Proof. apply length_alter. Qed.

Lemma stable_sort_elem l e : e ∈ stable_sort l <-> e ∈ l.
Proof.
  assert (Hi : forall x k, e ∈ insert_event x k <-> e = x \/ e ∈ k).
  { intros x k. induction k as [|y k IH]; simpl; [set_solver|].
    destruct (eventLess y x); [|set_solver]. rewrite !elem_of_cons, IH. set_solver. }
  unfold stable_sort. induction l as [|x l IH]; simpl; [done|]. by rewrite Hi, IH, elem_of_cons.
Qed.

Lemma sortBundles_typed cycles : typed_cycles cycles -> typed_cycles (sortBundles cycles).
Proof.
  intros Hc events e (old & -> & Ho)%list_elem_of_fmap He. rewrite stable_sort_elem in He.
  by apply (Hc old).
Qed.

Lemma typed_at_iteration e k : made_event e -> made_event (at_iteration e k).
Proof. done. Qed.

Section Place.
Context (missing : Prop) (mapping : RFAllocatedMapping) (request : ScheduleMaterializationRequest).
Context (tail : nat).
Local Abbreviation phases_ok := (typed_phases tail).

Lemma appendExplicit_wp f e cycle ph :
  phases_ok ph -> made_event e -> wp missing (appendExplicit f e cycle ph) phases_ok.
Proof.
  intros (H1 & H2 & H3 & H4) He. unfold appendExplicit.
  wp_steps; (split_and!; try done); try (by apply push_event_typed). simpl. by rewrite length_push_event.
Qed.

Lemma append_instances_wp f s indices ph :
  phases_ok ph -> made_event (ps_event s) ->
  wp missing (append_instances mapping f s indices ph) phases_ok.
Proof.
  intros Hph He. revert ph Hph. induction indices as [|index indices IH]; intros ph Hph; simpl; [done|].
  wp_step. eapply wp_mono; [intros ph' H; by apply IH|]. unfold appendStreamInstance.
  wp_steps; [by apply appendExplicit_wp|done].
Qed.

Lemma place_stream_wp f s ph :
  phases_ok ph -> made_event (ps_event s) -> wp missing (place_stream mapping request f s ph) phases_ok.
Proof.
  intros Hph He. unfold place_stream. wp_step.
  assert (Hk : wp missing (if fz_hasKernel f then append_kernel mapping f s ph else Go ph) phases_ok).
  { destruct (fz_hasKernel f); [|done]. unfold append_kernel. destruct Hph as (H1 & H2 & H3).
    wp_steps. split; [done|]. split; [|done]. by apply push_event_typed. }
  eapply wp_mono, Hk. intros ph' (H1 & H2 & H3). wp_step. unfold instances_after.
  assert (Hrest : forall after, wp missing (match (boundaryEvents ← addUnsigned
      (if fz_hasKernel f then wrap64 (fz_begin f - ps_firstLogicalTime s / mm_ii (sm_modulo (ra_staged mapping)))
       else ps_count s) after; addUnsigned (ph_plannedExplicitEvents ph') boundaryEvents) with
    | None => Stop (Thrown LengthError)
    | Some planned => if mab_maxExplicitBoundaryEvents (mrq_budget request) <? planned
        then Stop (Thrown LengthError)
        else ph ← append_instances mapping f s (range (if fz_hasKernel f then
               wrap64 (fz_begin f - ps_firstLogicalTime s / mm_ii (sm_modulo (ra_staged mapping)))
               else ps_count s)) (mkPhases (ph_prologue ph') (ph_kernel ph') (ph_epilogue ph')
               (ph_explicitEvents ph') planned);
             if fz_hasKernel f then append_instances mapping f s (seqZ (ps_count s - after) after) ph
             else Go ph
    end) phases_ok).
  { intros after. destruct (_ ≫= _) as [planned|]; [|done]. destruct (_ <? _); [done|]. wp_step.
    eapply wp_mono, append_instances_wp; [|done|done]. intros ph'' H''.
    destruct (fz_hasKernel f); [by apply append_instances_wp|done]. }
  destruct (fz_hasKernel f); [|apply Hrest]. wp_step. wp_step. wp_step. wp_step. wp_step. apply Hrest.
Qed.

Lemma place_streams_wp f streams ph :
  phases_ok ph -> (forall s, s ∈ streams -> made_event (ps_event s)) ->
  wp missing (place_streams mapping request f streams ph) phases_ok.
Proof.
  revert ph. induction streams as [|s streams IH]; intros ph Hph Hs; simpl; [done|].
  wp_step. eapply wp_mono, place_stream_wp; [|done|apply Hs; by left].
  intros ph' H. apply IH; [done|]. intros s' Hs'. apply Hs. by right.
Qed.

Lemma place_shots_wp f shots ph :
  phases_ok ph -> (forall s, s ∈ shots -> made_event (os_event s)) -> wp missing (place_shots f shots ph) phases_ok.
Proof.
  revert ph. induction shots as [|s shots IH]; intros ph Hph Hs; simpl; [done|].
  wp_step. eapply wp_mono, appendExplicit_wp; [|done|apply Hs; by left].
  intros ph' H. apply IH; [done|]. intros s' Hs'. apply Hs. by right.
Qed.

Lemma build_phases_wp f streams shots :
  tail = nat_of (epilogue_cycles f) ->
  (forall s, s ∈ streams -> made_event (ps_event s)) -> (forall s, s ∈ shots -> made_event (os_event s)) ->
  wp missing (build_phases mapping request f streams shots) phases_ok.
Proof.
  intros Htail Hs Ho. unfold build_phases. destruct (_ || _)%bool; [by left|]. wp_step.
  assert (Hempty : forall n, typed_cycles (replicate n [])).
  { intros n events e [-> _]%elem_of_replicate He. by apply not_elem_of_nil in He. }
  eapply wp_mono, place_streams_wp; [| |done].
  2: { split_and!; [apply Hempty..|]. simpl. by rewrite length_replicate. }
  intros ph H. wp_step. eapply wp_mono, place_shots_wp; [|done|done]. intros ph' (H1 & H2 & H3 & H4). simpl.
  split_and!; [by apply sortBundles_typed..|]. simpl. unfold sortBundles. by rewrite length_fmap.
Qed.

(** The chosen periods, and how often the kernel repeats. *)
Lemma common_periods_wp streams begin end_ :
  wp missing (common_periods mapping streams begin end_) (fun _ => True).
Proof.
  revert begin end_. induction streams as [|s streams IH]; intros begin end_; simpl; [done|].
  wp_step. wp_step. apply IH.
Qed.

Lemma factorize_wp streams shots maxCycle :
  wp missing (factorize mapping streams shots maxCycle)
    (fun p => is_u64 p.2 /\ (p.2 = 0 -> epilogue_cycles p.1 = 0)).
Proof.
  unfold factorize. wp_step. eapply wp_mono, common_periods_wp. intros [begin end_] _.
  destruct (trim_total mapping shots begin end_) as [[b e] ->].
  destruct (_ && existsb _ _)%bool; [by right|].
  destruct (_ && _)%bool eqn:E; [|simpl; split; [unfold is_u64, u64_max; lia|done]].
  wp_steps. unfold is_u64. simpl. unfold addUnsigned in *. apply andb_true_iff in E as [_ E].
  destruct (u64_max - 1 <? e - b) eqn:Eu; [done|]. repeat match goal with H : Some _ = Some _ |- _ => injection H as <- end.
  split; [lia|]. intros. lia.
Qed.
End Place.

(** ** The outcome *)

Section Outcome.
Context (dfg : TargetDFG) (target : TargetModel) (mapping : RFAllocatedMapping).
Context (request : ScheduleMaterializationRequest).

Abbreviation trip := (mrq_tripCount request).
Abbreviation missing := (boundary_missing dfg request).

(** Issues take their tile from the placement. *)
Definition issues_unplaced (s : MaterializedSchedule) : Prop :=
  forall events e, events ∈ sch_prologue s ++ rk_body (sch_kernel s) ++ sch_epilogue s -> e ∈ events ->
    ev_kind e = NodeIssue -> ev_tile e = None.

(** No event names a tile with a wrapped coordinate. *)
Definition tiles_unsigned (s : MaterializedSchedule) : Prop :=
  forall events e tile, events ∈ sch_prologue s ++ rk_body (sch_kernel s) ++ sch_epilogue s -> e ∈ events ->
    ev_tile e = Some tile -> unsigned_coord tile.

(** Without a kernel everything is in the prologue. *)
Definition tight_phases (s : MaterializedSchedule) : Prop :=
  rk_repeatCount (sch_kernel s) = 0 -> sch_epilogue s = [].

(** What a result says.  A success carries a verified schedule. *)
Record outcome (r : ScheduleMaterializationResult) : Prop := {
  oc_success : mtr_status r = MatSuccess -> exists s, mtr_schedule r = Some s /\
    typed_schedule s /\ issues_unplaced s /\ tiles_unsigned s /\ tight_phases s /\
    msv_verify dfg target mapping request s = Ok [];
  oc_missing : mtr_status r = MatMissingRecurrenceBoundaryValue -> missing;
  oc_status : mtr_status r ∈ [MatSuccess; MatMissingRecurrenceBoundaryValue; MatArithmeticOverflow;
    MatBudgetExceeded; MatPhaseFactorizationError; MatVerificationFailure; MatInternalError]
}.

Lemma thrown_outcome e stats schedule :
  outcome (mkMatResult (thrown_status e).1 schedule stats [mkMatDiag (thrown_status e).2 None None]).
Proof. split; simpl; [by destruct e..|]. destruct e; simpl; set_solver. Qed.

Lemma stopped_outcome s stats :
  allowed_stop missing s -> exists r, stopped_result s stats = Some r /\ outcome r.
Proof.
  destruct s as [e|status diag|]; simpl; [| |done]; intros Hs.
  - pose proof (thrown_outcome e stats None) as H. destruct (thrown_status e). by eexists.
  - eexists. split; [done|]. split; simpl.
    + intros ->. by destruct Hs.
    + by intros ->.
    + destruct status; try (by destruct Hs); set_solver.
Qed.

Lemma finish_outcome tail c shift total ph repeatCount :
  typed_phases tail ph -> is_u64 repeatCount -> (repeatCount = 0 -> tail = 0%nat) ->
  exists r, finish_schedule dfg target mapping request c shift total ph repeatCount = Some r /\ outcome r.
Proof.
  intros (H1 & H2 & H3 & H4) Hr Hz. unfold finish_schedule. set (s := mkSchedule _ _ _ _ _ _ _).
  assert (Hmade : forall events e, events ∈ sch_prologue s ++ rk_body (sch_kernel s) ++ sch_epilogue s ->
    e ∈ events -> made_event e).
  { intros events e. simpl. rewrite !elem_of_app. intros [?|[?|?]];
      [by apply H1|by apply H2|by apply H3]. }
  assert (Hs : typed_schedule s) by (split; [done|]; intros; by eapply Hmade).
  assert (Hissues : issues_unplaced s) by (intros events e He Hin; by eapply Hmade).
  assert (Htight : tight_phases s) by (intros E; apply nil_length_inv; simpl; rewrite H4; by apply Hz).
  assert (Htiles : tiles_unsigned s) by (intros events e tile He Hin; by eapply Hmade).
  destruct (msv_verify _ _ _ _ s) as [[|d report]|e] eqn:Hv.
  - eexists. split; [done|]. split; simpl; [|done|set_solver]. intros _. by exists s.
  - eexists. split; [done|]. split; simpl; [done|done|set_solver].
  - pose proof (thrown_outcome e (final_stats request c shift total ph repeatCount) (Some s)) as H.
    destruct (thrown_status e). by eexists.
Qed.

Lemma shift_streams_wp shift streams :
  (forall s, s ∈ streams -> made_event (ps_event s)) ->
  wp missing (shift_streams shift streams) (fun l => forall s, s ∈ l -> made_event (ps_event s)).
Proof.
  induction streams as [|s streams IH]; intros Hs; simpl.
  { intros s Hs'. by apply not_elem_of_nil in Hs'. }
  wp_step. unfold shifted. wp_step. wp_step. wp_step; [wp_step|]. simpl. wp_step. wp_step. wp_step.
  eapply wp_mono, IH; [|intros s' Hs'; apply Hs; by right]. intros l Hl s' [->|Hs']%elem_of_cons.
  - apply (Hs s). by left.
  - by apply Hl.
Qed.

Lemma shift_shots_wp shift shots :
  (forall s, s ∈ shots -> made_event (os_event s)) ->
  wp missing (shift_shots shift shots) (fun l => forall s, s ∈ l -> made_event (os_event s)).
Proof.
  induction shots as [|s shots IH]; intros Hs; simpl.
  { intros s Hs'. by apply not_elem_of_nil in Hs'. }
  wp_step. unfold shifted. wp_step. wp_step. wp_step; [wp_step|]. simpl. wp_step. wp_step. wp_step.
  eapply wp_mono, IH; [|intros s' Hs'; apply Hs; by right]. intros l Hl s' [->|Hs']%elem_of_cons.
  - apply (Hs s). by left.
  - by apply Hl.
Qed.

Lemma materialize_events_outcome c :
  typed_collected c -> exists r, materialize_events dfg target mapping request c = Some r /\ outcome r.
Proof.
  intros [Hs Ho]. unfold materialize_events.
  destruct (_ <? _); [apply stopped_outcome; by left|].
  destruct (_ || _)%bool; [by apply stopped_outcome|]. destruct (_ =? i64_min); [by apply stopped_outcome|].
  set (shift := if _ <? 0 then _ else _).
  assert (Hsh : wp missing (shifted shift (cl_maxLogical c)) (fun _ => True)).
  { unfold shifted. wp_steps. done. }
  destruct (shifted shift (cl_maxLogical c)) as [maxCycle|s]; [|by apply stopped_outcome].
  destruct (maxCycle =? u64_max); [by apply stopped_outcome|].
  match goal with |- context [match ?m with Go _ => _ | Stop _ => _ end] =>
    assert (Hm : wp missing m (fun p => exists tail, typed_phases tail p.1 /\ is_u64 p.2 /\ (p.2 = 0 -> tail = 0%nat))) end.
  { wp_step. eapply wp_mono, shift_streams_wp; [|done]. intros streams Hstreams.
    wp_step. eapply wp_mono, shift_shots_wp; [|done]. intros shots Hshots.
    wp_step. eapply wp_mono, factorize_wp. intros [f repeatCount] [Hr Hz].
    wp_step. eapply wp_mono, build_phases_wp; [|reflexivity|done|done]. intros ph Hph.
    eexists. split_and!; [exact Hph|done|]. simpl in *. intros E. by rewrite Hz. }
  match goal with |- context [match ?m with Go _ => _ | Stop _ => _ end] =>
    destruct m as [[ph repeatCount]|s] end.
  - destruct Hm as (tail & H1 & H2 & H3). by apply (finish_outcome tail).
  - by apply stopped_outcome.
Qed.

Lemma schedule_materialize_outcome :
  execution_facts dfg mapping ->
  rf_verify dfg target mapping = Ok [] -> tdfg_verify dfg target None = Ok [] ->
  trip <> 0 -> mm_ii (sm_modulo (ra_staged mapping)) <> 0 ->
  exists r, schedule_materialize dfg target mapping request = Ok (Some r) /\ outcome r.
Proof.
  intros Hf Hrf Htd Ht Hii. unfold schedule_materialize. rewrite (proj2 (Z.eqb_neq _ _) Ht).
  destruct (_ <? _).
  { eexists. split; [done|]. split; simpl; [done|done|set_solver]. }
  rewrite Htd, Hrf. simpl. rewrite (proj2 (Z.eqb_neq _ _) Hii).
  pose proof (collect_wp missing dfg mapping request Hf (fun H => H)) as Hc.
  destruct (collect dfg mapping request) as [c|s].
  - destruct (materialize_events_outcome c Hc) as (r & -> & Hr). by exists r.
  - destruct (stopped_outcome s (initial_stats request) Hc) as (r & -> & Hr). by exists r.
Qed.
End Outcome.

(** What the theorem below says, with the facts that the later phases need. *)
Lemma materialize_stages_spec (dfg : TargetDFG) (target : TargetModel)
    (mapping : RFAllocatedMapping) (request : ScheduleMaterializationRequest) :
  TargetDFG_inv dfg -> TargetModel_wf target -> register_files_wf target -> typed_graph dfg ->
  typed_staged (ra_staged mapping) -> typed_allocations mapping -> sorted_allocations mapping ->
  segments_fit mapping -> universe_fits target (mm_ii (sm_modulo (ra_staged mapping))) ->
  is_u64 (mrq_tripCount request) -> mrq_tripCount request <> 0 ->
  rf_verify dfg target mapping = Ok [] ->
  exists r, schedule_materialize dfg target mapping request = Ok (Some r) /\
    (mtr_status r = MatSuccess -> exists s, mtr_schedule r = Some s /\
       typed_schedule s /\ issues_unplaced s /\ tiles_unsigned s /\ tight_phases s /\
       msv_verify dfg target mapping request s = Ok [] /\
       boundaries_given dfg request /\ schedule_exact dfg mapping (mrq_tripCount request) s) /\
    (mtr_status r = MatMissingRecurrenceBoundaryValue -> boundary_missing dfg request) /\
    mtr_status r ∈ [MatSuccess; MatMissingRecurrenceBoundaryValue; MatArithmeticOverflow;
      MatBudgetExceeded; MatPhaseFactorizationError; MatVerificationFailure; MatInternalError].
Proof.
  intros Hinv Htwf Hrf Htyped Hst Hal Hsorted Hfit Hu Htrip Hpos Hverified.
  pose proof (verified_facts dfg target mapping Hinv Htwf Htyped Hrf Hst Hal Hfit Hsorted Hu Hverified) as Hf.
  assert (Hvalid : TargetDFG_valid dfg target None).
  { pose proof Hverified as (Hsav & _)%rf_verify_report.
    destruct (sav_verify_clean dfg target _ Hinv Htwf Htyped Hst Hu Hsav) as [Hvm _]. apply Hvm. }
  pose proof (xf_ii _ _ Hf) as Hii. apply tdfg_verify_clean in Hvalid; [|done].
  destruct (schedule_materialize_outcome dfg target mapping request) as (r & Hr & [H1 H2 H3]); try done; [lia|].
  exists r. split_and!; [done| |done|done]. intros Hs. destruct (H1 Hs) as (s & Hsched & Hts & Hun & Htiles & Htight & Hv).
  exists s. split_and!; try done; by apply (accepted_exact dfg target mapping) in Hv as (_ & ? & ?).
Qed.

(** C15: the materializer's outcome.  On an allocation that verifies it always
    returns a result, so its loops end; a success carries a schedule that is
    exactly the execution of the requested iterations; a missing boundary value is
    reported only if one that the execution uses is not given; and it blames
    neither the graph, the allocation nor the types of boundary values. *)
Theorem materialize_outcome_sound (dfg : TargetDFG) (target : TargetModel)
    (mapping : RFAllocatedMapping) (request : ScheduleMaterializationRequest) :
  TargetDFG_inv dfg -> TargetModel_wf target -> register_files_wf target -> typed_graph dfg ->
  typed_staged (ra_staged mapping) -> typed_allocations mapping -> sorted_allocations mapping ->
  segments_fit mapping -> universe_fits target (mm_ii (sm_modulo (ra_staged mapping))) ->
  is_u64 (mrq_tripCount request) -> mrq_tripCount request <> 0 ->
  rf_verify dfg target mapping = Ok [] ->
  exists r, schedule_materialize dfg target mapping request = Ok (Some r) /\
    (mtr_status r = MatSuccess -> exists s, mtr_schedule r = Some s /\
       boundaries_given dfg request /\ schedule_exact dfg mapping (mrq_tripCount request) s) /\
    (mtr_status r = MatMissingRecurrenceBoundaryValue -> boundary_missing dfg request) /\
    mtr_status r ∈ [MatSuccess; MatMissingRecurrenceBoundaryValue; MatArithmeticOverflow;
      MatBudgetExceeded; MatPhaseFactorizationError; MatVerificationFailure; MatInternalError].
Proof.
  intros H1 H2 H3 H4 H5 H6 H7 H8 H9 H10 H11 H12.
  destruct (materialize_stages_spec dfg target mapping request H1 H2 H3 H4 H5 H6 H7 H8 H9 H10 H11 H12)
    as (r & Hr & Hs & ? & ?).
  exists r. split_and!; try done. intros Hok. destruct (Hs Hok) as (s & ? & _ & _ & _ & _ & _ & ? & ?). by exists s.
Qed.

Lemma materialize_outcome_sound_witness :
  exists r, schedule_materialize v2_accumulate cgra_v2 v2_allocation v2_loop = Ok (Some r) /\
    (mtr_status r = MatSuccess -> exists s, mtr_schedule r = Some s /\
       boundaries_given v2_accumulate v2_loop /\ schedule_exact v2_accumulate v2_allocation 6 s) /\
    (mtr_status r = MatMissingRecurrenceBoundaryValue -> boundary_missing v2_accumulate v2_loop) /\
    mtr_status r ∈ [MatSuccess; MatMissingRecurrenceBoundaryValue; MatArithmeticOverflow;
      MatBudgetExceeded; MatPhaseFactorizationError; MatVerificationFailure; MatInternalError].
Proof.
  apply (materialize_outcome_sound v2_accumulate cgra_v2 v2_allocation v2_loop).
  - exact v2_accumulate_inv.
  - exact cgra_v2_wf.
  - exact cgra_v2_register_files.
  - exact v2_accumulate_typed.
  - exact v2_staged_typed.
  - exact v2_allocation_typed.
  - exact v2_allocation_sorted.
  - vm_compute. congruence.
  - vm_compute. congruence.
  - vm_compute. split; congruence.
  - vm_compute. congruence.
  - vm_compute. reflexivity.
Defined.

Example v2_materialize_success :
  (o ← schedule_materialize v2_accumulate cgra_v2 v2_allocation v2_loop;
   Ok (match o with Some r => mtr_ok r | None => false end)) = Ok true.
Proof. vm_compute. reflexivity. Qed.
