(* ===== verification/MaterializerGaps.v ===== *)
(** * Executions the materializer refuses

    Two verified allocations whose execution fits every bound, and which
    [ScheduleMaterializer::materialize] does not materialize: a kernel whose last
    period ends after the last event, and a verifier that asks for the issue cycle
    of a producer before the origin. *)
From stdpp Require Import base numbers list gmap strings sorting.
From S2P Require Import Prelude.
From S2P Require Import IR.
From S2P Require Import TargetModel.
From S2P Require Import CgraV2.
From S2P Require Import TargetDFG.
From S2P Require Import ModuloResources.
From S2P Require Import ModuloMapping.
From S2P Require Import MappingVerifier.
From S2P Require Import StageScheduler.
From S2P Require Import StorageRequirements.
From S2P Require Import RFAllocation.
From S2P Require Import RFAllocator.
From S2P Require Import MaterializedSchedule.
From S2P Require Import MaterializedVerifier.
From S2P Require Import ScheduleMaterializer.
From S2P Require Import MaterializeSpec.
From S2P Require Import MaterializedVerifierSound.
From S2P Require Import MaterializedExact.

(** ** A schedule without a kernel

    All events of the execution in one long prologue. *)
Definition explicit_schedule (dfg : TargetDFG) (mapping : RFAllocatedMapping) (trip : Z)
  : MaterializedSchedule :=
  mkSchedule (mm_ii (sm_modulo (ra_staged mapping))) trip (time_origin dfg mapping trip)
    (total_cycles dfg mapping trip)
    ((fun c => snd <$> filter (fun cell => cell.1 = c) (expected_events dfg mapping trip)) <$>
       range (total_cycles dfg mapping trip))
    (mkKernel [] 0) [].

Lemma enumerate_range {A} (f : Z -> A) n : enumerate (f <$> range n) = (fun i => (i, f i)) <$> range n.
Proof.
  unfold enumerate, range. apply list_eq. intros i.
  rewrite list_lookup_imap, !list_lookup_fmap.
  destruct (seqZ 0 n !! i) as [x|] eqn:E; simpl; [|done].
  apply lookup_seqZ in E as [-> _]. done.
Qed.

Lemma explicit_schedule_exact dfg mapping trip :
  0 <= total_cycles dfg mapping trip ->
  (forall cell, cell ∈ expected_events dfg mapping trip ->
     0 <= cell.1 < total_cycles dfg mapping trip /\ meant cell = cell) ->
  schedule_exact dfg mapping trip (explicit_schedule dfg mapping trip).
Proof.
  intros Htotal Hin. split; try done.
  - simpl. rewrite length_fmap. unfold range. rewrite length_seqZ. lia.
  - intros events e He. by apply not_elem_of_nil in He.
  - unfold unroll. simpl. rewrite !app_nil_r. unfold cells. rewrite enumerate_range, flat_map_fmap.
    assert (Hg : flat_map (fun c => filter (fun cell => cell.1 = c) (expected_events dfg mapping trip))
      (range (total_cycles dfg mapping trip)) ≡ₚ expected_events dfg mapping trip).
    { apply (group_perm fst id).
      - rewrite list_fmap_id. apply NoDup_range.
      - intros cell Hc. rewrite list_fmap_id. apply elem_of_range. by apply Hin. }
    rewrite (flat_map_ext_in _ (fun c => filter (fun cell => cell.1 = c) (expected_events dfg mapping trip))).
    + rewrite Hg. rewrite (list_fmap_ext _ id); [by rewrite list_fmap_id|].
      intros _ cell Hc%list_elem_of_lookup_2. by apply Hin.
    + intros c _. rewrite <- list_fmap_compose. rewrite (list_fmap_ext _ id); [by rewrite list_fmap_id|].
      intros _ [c' e] [Hc _]%list_elem_of_lookup_2%list_elem_of_filter. simpl in *. by subst.
Qed.

(** ** Running the back end *)

Definition allocated (dfg : TargetDFG) (ii : Z) (calls : list MappingCall) : result RFAllocatedMapping :=
  m ← build_mapping dfg ii calls;
  staged ← schedule dfg cgra_v2 m;
  staged ← of_option LogicError (sr_mapping staged);
  r ← allocate dfg cgra_v2 staged v2_budget;
  of_option LogicError (al_mapping r).

Definition built_graph (name : string) (calls : list BuilderCall) : TargetDFG :=
  match builder_run (TargetDFG_empty name "cgra_v2_shared4p") calls with
  | Ok g => g
  | Throw _ => TargetDFG_empty name "cgra_v2_shared4p"
  end.

Definition status_of (dfg : TargetDFG) (mapping : RFAllocatedMapping) (trip : Z)
  : result (option ScheduleMaterializationStatus) :=
  o ← schedule_materialize dfg cgra_v2 mapping (mkMatRequest trip default_materialization_budget);
  Ok (match o with Some r => Some (mtr_status r) | None => None end).

Definition empty_allocation : RFAllocatedMapping :=
  mkAllocated (mkStagedMapping (mkMapping "" 1 [] []) [] 0) (mkRequirements 0 []) [].

Definition copy_calls : list BuilderCall := [
  AddExternal (mkExternalValue 0 vt_i32 "source");
  AddExternal (mkExternalValue 1 vt_i32 "destination");
  AddNode (mkTargetNode 0 "LOAD" LSU vt_i32 [vt_i32] 1 (Some 2) [10] (Some 2) (Some 32));
  AddNode (mkTargetNode 1 "STORE" LSU voidTy [vt_i32; vt_i32] 1 None [11] None (Some 32));
  AddBinding (mkTargetOperandBinding 0 0 (ExternalValueRef 0));
  AddBinding (mkTargetOperandBinding 1 0 (ExternalValueRef 1));
  AddEdge (mkTargetEdge 0 0 1 0 (DataEdgeInfo 1 None))].
Definition copy_loop : TargetDFG := built_graph "copy" copy_calls.

(** A load and, three cycles later, the store of its value; a new iteration every
    eight cycles, so five iterations take 36 cycles. *)
Definition copy_mapping_calls : list MappingCall := [
  Place 0 (mkTile 0 0) 0; Place 1 (mkTile 0 0) 3;
  SetTransport 0 (mkPlan 0 NetData [VirtualHold NetData (mkTile 0 0) 2 3] 3)].
Definition copy_allocation : RFAllocatedMapping :=
  match allocated copy_loop 8 copy_mapping_calls with Ok m => m | Throw _ => empty_allocation end.

(** The one-phase schedule of these 36 cycles is valid, and the materializer,
    whose repeated periods end in cycle 40, reports an exceeded budget. *)
Example copy_refused :
  rf_verify copy_loop cgra_v2 copy_allocation = Ok [] /\
  msv_verify copy_loop cgra_v2 copy_allocation (mkMatRequest 5 default_materialization_budget)
    (explicit_schedule copy_loop copy_allocation 5) = Ok [] /\
  sch_totalLogicalCycles (explicit_schedule copy_loop copy_allocation 5) = 36 /\
  status_of copy_loop copy_allocation 5 = Ok (Some MatBudgetExceeded).
Proof. split_and!; vm_compute; reflexivity. Qed.

(** The store of the value loaded one iteration before, the first one a constant. *)
Definition delay_calls : list BuilderCall := [
  AddExternal (mkExternalValue 0 vt_i32 "source");
  AddExternal (mkExternalValue 1 vt_i32 "destination");
  AddConstant (mkConstantValue 0 vt_i32 0);
  AddNode (mkTargetNode 0 "LOAD" LSU vt_i32 [vt_i32] 1 (Some 2) [10] (Some 2) (Some 32));
  AddNode (mkTargetNode 1 "STORE" LSU voidTy [vt_i32; vt_i32] 1 None [11] None (Some 32));
  AddBinding (mkTargetOperandBinding 0 0 (ExternalValueRef 0));
  AddBinding (mkTargetOperandBinding 1 0 (ExternalValueRef 1));
  AddEdge (mkTargetEdge 0 0 1 1
    (DataEdgeInfo 1 (Some [mkRecurrenceBoundaryValue 0 (ConstantRef 0)])))].
Definition delay_loop : TargetDFG := built_graph "delay" delay_calls.

Definition delay_mapping_calls : list MappingCall := [
  Place 0 (mkTile 0 0) 2; Place 1 (mkTile 0 0) 3;
  SetTransport 0 (mkPlan 0 NetData [VirtualHold NetData (mkTile 0 0) 2 5] 5)].
Definition delay_allocation : RFAllocatedMapping :=
  match allocated delay_loop 4 delay_mapping_calls with Ok m => m | Throw _ => empty_allocation end.

(** The constant enters in cycle 0, where the value loaded by iteration -1 would
    have been ready, two cycles after an issue the verifier finds in cycle -2. *)
Lemma delay_schedule_exact :
  schedule_exact delay_loop delay_allocation 5 (explicit_schedule delay_loop delay_allocation 5).
Proof.
  apply explicit_schedule_exact; [vm_compute; congruence|].
  assert (H : forallb (fun cell => (0 <=? cell.1) && (cell.1 <? total_cycles delay_loop delay_allocation 5) &&
    bool_decide (meant cell = cell)) (expected_events delay_loop delay_allocation 5) = true)
    by (vm_compute; reflexivity).
  intros cell Hin%list_elem_of_In. rewrite forallb_forall in H. apply H in Hin.
  apply andb_true_iff in Hin as [Hc Hm%bool_decide_eq_true]. split; [lia|done].
Qed.

(** The verifier rejects a schedule that is exactly the execution, and the
    materializer fails with it. *)
Theorem exact_schedule_rejected :
  rf_verify delay_loop cgra_v2 delay_allocation = Ok [] /\
  schedule_exact delay_loop delay_allocation 5 (explicit_schedule delay_loop delay_allocation 5) /\
  msv_verify delay_loop cgra_v2 delay_allocation (mkMatRequest 5 default_materialization_budget)
    (explicit_schedule delay_loop delay_allocation 5) =
    Ok [mkMSV MSV_WRONG_EVENT_TIME None (Some 0) None] /\
  status_of delay_loop delay_allocation 5 = Ok (Some MatVerificationFailure).
Proof.
  split; [vm_compute; reflexivity|]. split; [exact delay_schedule_exact|].
  split; vm_compute; reflexivity.
Qed.
