(* ===== verification/ControlLayout.v ===== *)
(** * Control words

    Models [compiler/{include/cgra,lib}/Target/ControlLayout.{h,cpp}]: a tile's
    control settings are packed into a 128-bit word, four 32-bit chunks, field by
    field as the target contract lays them out, and unpacked again. *)
From stdpp Require Import base numbers list gmap strings.
From S2P Require Import Prelude.
From S2P Require Import TargetModel.
From S2P Require Import CgraV2.

(** ** The settings of a tile *)

Record RouteControl := mkRoute {
  rt_enabled : bool;
  rt_source : string
}.

(** [std::array<RouteControl, 4>], in the order of [Directions]. *)
Record RouteArray := mkRoutes {
  ro_north : RouteControl;
  ro_south : RouteControl;
  ro_east : RouteControl;
  ro_west : RouteControl
}.

Record TileControl := mkTileControl {
  tc_op : string;
  tc_srcA : string;
  tc_srcB : string;
  tc_srcP0 : string;
  tc_srcP1 : string;
  tc_dataRfReadAddrA : Z;
  tc_dataRfReadAddrB : Z;
  tc_predicateRfReadAddrA : Z;
  tc_predicateRfReadAddrB : Z;
  tc_dataWrite0Enable : bool;
  tc_dataWrite0Addr : Z;
  tc_dataWrite1Enable : bool;
  tc_dataWrite1Addr : Z;
  tc_dataWrite1Source : string;
  tc_predicateWrite0Enable : bool;
  tc_predicateWrite0Addr : Z;
  tc_predicateWrite1Enable : bool;
  tc_predicateWrite1Addr : Z;
  tc_predicateWrite1Source : string;
  tc_dataRoutes : RouteArray;
  tc_predicateRoutes : RouteArray;
  tc_constantAddr : Z;
  tc_lsuOp : string;
  tc_lsuAddrSource : string;
  tc_lsuStoreDataSource : string;
  tc_lsuCommitPredicateEnable : bool;
  tc_lsuCommitPredicateInvert : bool;
  tc_lsuCommitPredicateSource : string
}.

Definition no_route : RouteControl := mkRoute false "NONE".
Definition no_routes : RouteArray := mkRoutes no_route no_route no_route no_route.

(** A default-constructed [TileControl]. *)
Definition default_control : TileControl :=
  mkTileControl "NOP" "ZERO" "ZERO" "CONST_FALSE" "CONST_FALSE" 0 0 0 0 false 0 false 0 "ZERO"
    false 0 false 0 "CONST_FALSE" no_routes no_routes 0 "NONE" "ZERO" "ZERO" false false "CONST_FALSE".

(** Assignments to single members. *)
Definition set_op (v : string) (c : TileControl) : TileControl :=
  mkTileControl v (tc_srcA c) (tc_srcB c) (tc_srcP0 c) (tc_srcP1 c) (tc_dataRfReadAddrA c)
    (tc_dataRfReadAddrB c) (tc_predicateRfReadAddrA c) (tc_predicateRfReadAddrB c)
    (tc_dataWrite0Enable c) (tc_dataWrite0Addr c) (tc_dataWrite1Enable c) (tc_dataWrite1Addr
    c) (tc_dataWrite1Source c) (tc_predicateWrite0Enable c) (tc_predicateWrite0Addr c)
    (tc_predicateWrite1Enable c) (tc_predicateWrite1Addr c) (tc_predicateWrite1Source c)
    (tc_dataRoutes c) (tc_predicateRoutes c) (tc_constantAddr c) (tc_lsuOp c)
    (tc_lsuAddrSource c) (tc_lsuStoreDataSource c) (tc_lsuCommitPredicateEnable c)
    (tc_lsuCommitPredicateInvert c) (tc_lsuCommitPredicateSource c).
Definition set_srcA (v : string) (c : TileControl) : TileControl :=
  mkTileControl (tc_op c) v (tc_srcB c) (tc_srcP0 c) (tc_srcP1 c) (tc_dataRfReadAddrA c)
    (tc_dataRfReadAddrB c) (tc_predicateRfReadAddrA c) (tc_predicateRfReadAddrB c)
    (tc_dataWrite0Enable c) (tc_dataWrite0Addr c) (tc_dataWrite1Enable c) (tc_dataWrite1Addr
    c) (tc_dataWrite1Source c) (tc_predicateWrite0Enable c) (tc_predicateWrite0Addr c)
    (tc_predicateWrite1Enable c) (tc_predicateWrite1Addr c) (tc_predicateWrite1Source c)
    (tc_dataRoutes c) (tc_predicateRoutes c) (tc_constantAddr c) (tc_lsuOp c)
    (tc_lsuAddrSource c) (tc_lsuStoreDataSource c) (tc_lsuCommitPredicateEnable c)
    (tc_lsuCommitPredicateInvert c) (tc_lsuCommitPredicateSource c).
Definition set_srcB (v : string) (c : TileControl) : TileControl :=
  mkTileControl (tc_op c) (tc_srcA c) v (tc_srcP0 c) (tc_srcP1 c) (tc_dataRfReadAddrA c)
    (tc_dataRfReadAddrB c) (tc_predicateRfReadAddrA c) (tc_predicateRfReadAddrB c)
    (tc_dataWrite0Enable c) (tc_dataWrite0Addr c) (tc_dataWrite1Enable c) (tc_dataWrite1Addr
    c) (tc_dataWrite1Source c) (tc_predicateWrite0Enable c) (tc_predicateWrite0Addr c)
    (tc_predicateWrite1Enable c) (tc_predicateWrite1Addr c) (tc_predicateWrite1Source c)
    (tc_dataRoutes c) (tc_predicateRoutes c) (tc_constantAddr c) (tc_lsuOp c)
    (tc_lsuAddrSource c) (tc_lsuStoreDataSource c) (tc_lsuCommitPredicateEnable c)
    (tc_lsuCommitPredicateInvert c) (tc_lsuCommitPredicateSource c).
Definition set_srcP0 (v : string) (c : TileControl) : TileControl :=
  mkTileControl (tc_op c) (tc_srcA c) (tc_srcB c) v (tc_srcP1 c) (tc_dataRfReadAddrA c)
    (tc_dataRfReadAddrB c) (tc_predicateRfReadAddrA c) (tc_predicateRfReadAddrB c)
    (tc_dataWrite0Enable c) (tc_dataWrite0Addr c) (tc_dataWrite1Enable c) (tc_dataWrite1Addr
    c) (tc_dataWrite1Source c) (tc_predicateWrite0Enable c) (tc_predicateWrite0Addr c)
    (tc_predicateWrite1Enable c) (tc_predicateWrite1Addr c) (tc_predicateWrite1Source c)
    (tc_dataRoutes c) (tc_predicateRoutes c) (tc_constantAddr c) (tc_lsuOp c)
    (tc_lsuAddrSource c) (tc_lsuStoreDataSource c) (tc_lsuCommitPredicateEnable c)
    (tc_lsuCommitPredicateInvert c) (tc_lsuCommitPredicateSource c).
Definition set_srcP1 (v : string) (c : TileControl) : TileControl :=
  mkTileControl (tc_op c) (tc_srcA c) (tc_srcB c) (tc_srcP0 c) v (tc_dataRfReadAddrA c)
    (tc_dataRfReadAddrB c) (tc_predicateRfReadAddrA c) (tc_predicateRfReadAddrB c)
    (tc_dataWrite0Enable c) (tc_dataWrite0Addr c) (tc_dataWrite1Enable c) (tc_dataWrite1Addr
    c) (tc_dataWrite1Source c) (tc_predicateWrite0Enable c) (tc_predicateWrite0Addr c)
    (tc_predicateWrite1Enable c) (tc_predicateWrite1Addr c) (tc_predicateWrite1Source c)
    (tc_dataRoutes c) (tc_predicateRoutes c) (tc_constantAddr c) (tc_lsuOp c)
    (tc_lsuAddrSource c) (tc_lsuStoreDataSource c) (tc_lsuCommitPredicateEnable c)
    (tc_lsuCommitPredicateInvert c) (tc_lsuCommitPredicateSource c).
Definition set_dataRfReadAddrA (v : Z) (c : TileControl) : TileControl :=
  mkTileControl (tc_op c) (tc_srcA c) (tc_srcB c) (tc_srcP0 c) (tc_srcP1 c) v
    (tc_dataRfReadAddrB c) (tc_predicateRfReadAddrA c) (tc_predicateRfReadAddrB c)
    (tc_dataWrite0Enable c) (tc_dataWrite0Addr c) (tc_dataWrite1Enable c) (tc_dataWrite1Addr
    c) (tc_dataWrite1Source c) (tc_predicateWrite0Enable c) (tc_predicateWrite0Addr c)
    (tc_predicateWrite1Enable c) (tc_predicateWrite1Addr c) (tc_predicateWrite1Source c)
    (tc_dataRoutes c) (tc_predicateRoutes c) (tc_constantAddr c) (tc_lsuOp c)
    (tc_lsuAddrSource c) (tc_lsuStoreDataSource c) (tc_lsuCommitPredicateEnable c)
    (tc_lsuCommitPredicateInvert c) (tc_lsuCommitPredicateSource c).
Definition set_dataRfReadAddrB (v : Z) (c : TileControl) : TileControl :=
  mkTileControl (tc_op c) (tc_srcA c) (tc_srcB c) (tc_srcP0 c) (tc_srcP1 c)
    (tc_dataRfReadAddrA c) v (tc_predicateRfReadAddrA c) (tc_predicateRfReadAddrB c)
    (tc_dataWrite0Enable c) (tc_dataWrite0Addr c) (tc_dataWrite1Enable c) (tc_dataWrite1Addr
    c) (tc_dataWrite1Source c) (tc_predicateWrite0Enable c) (tc_predicateWrite0Addr c)
    (tc_predicateWrite1Enable c) (tc_predicateWrite1Addr c) (tc_predicateWrite1Source c)
    (tc_dataRoutes c) (tc_predicateRoutes c) (tc_constantAddr c) (tc_lsuOp c)
    (tc_lsuAddrSource c) (tc_lsuStoreDataSource c) (tc_lsuCommitPredicateEnable c)
    (tc_lsuCommitPredicateInvert c) (tc_lsuCommitPredicateSource c).
Definition set_predicateRfReadAddrA (v : Z) (c : TileControl) : TileControl :=
  mkTileControl (tc_op c) (tc_srcA c) (tc_srcB c) (tc_srcP0 c) (tc_srcP1 c)
    (tc_dataRfReadAddrA c) (tc_dataRfReadAddrB c) v (tc_predicateRfReadAddrB c)
    (tc_dataWrite0Enable c) (tc_dataWrite0Addr c) (tc_dataWrite1Enable c) (tc_dataWrite1Addr
    c) (tc_dataWrite1Source c) (tc_predicateWrite0Enable c) (tc_predicateWrite0Addr c)
    (tc_predicateWrite1Enable c) (tc_predicateWrite1Addr c) (tc_predicateWrite1Source c)
    (tc_dataRoutes c) (tc_predicateRoutes c) (tc_constantAddr c) (tc_lsuOp c)
    (tc_lsuAddrSource c) (tc_lsuStoreDataSource c) (tc_lsuCommitPredicateEnable c)
    (tc_lsuCommitPredicateInvert c) (tc_lsuCommitPredicateSource c).
Definition set_predicateRfReadAddrB (v : Z) (c : TileControl) : TileControl :=
  mkTileControl (tc_op c) (tc_srcA c) (tc_srcB c) (tc_srcP0 c) (tc_srcP1 c)
    (tc_dataRfReadAddrA c) (tc_dataRfReadAddrB c) (tc_predicateRfReadAddrA c) v
    (tc_dataWrite0Enable c) (tc_dataWrite0Addr c) (tc_dataWrite1Enable c) (tc_dataWrite1Addr
    c) (tc_dataWrite1Source c) (tc_predicateWrite0Enable c) (tc_predicateWrite0Addr c)
    (tc_predicateWrite1Enable c) (tc_predicateWrite1Addr c) (tc_predicateWrite1Source c)
    (tc_dataRoutes c) (tc_predicateRoutes c) (tc_constantAddr c) (tc_lsuOp c)
    (tc_lsuAddrSource c) (tc_lsuStoreDataSource c) (tc_lsuCommitPredicateEnable c)
    (tc_lsuCommitPredicateInvert c) (tc_lsuCommitPredicateSource c).
Definition set_dataWrite0Enable (v : bool) (c : TileControl) : TileControl :=
  mkTileControl (tc_op c) (tc_srcA c) (tc_srcB c) (tc_srcP0 c) (tc_srcP1 c)
    (tc_dataRfReadAddrA c) (tc_dataRfReadAddrB c) (tc_predicateRfReadAddrA c)
    (tc_predicateRfReadAddrB c) v (tc_dataWrite0Addr c) (tc_dataWrite1Enable c)
    (tc_dataWrite1Addr c) (tc_dataWrite1Source c) (tc_predicateWrite0Enable c)
    (tc_predicateWrite0Addr c) (tc_predicateWrite1Enable c) (tc_predicateWrite1Addr c)
    (tc_predicateWrite1Source c) (tc_dataRoutes c) (tc_predicateRoutes c) (tc_constantAddr
    c) (tc_lsuOp c) (tc_lsuAddrSource c) (tc_lsuStoreDataSource c)
    (tc_lsuCommitPredicateEnable c) (tc_lsuCommitPredicateInvert c)
    (tc_lsuCommitPredicateSource c).
Definition set_dataWrite0Addr (v : Z) (c : TileControl) : TileControl :=
  mkTileControl (tc_op c) (tc_srcA c) (tc_srcB c) (tc_srcP0 c) (tc_srcP1 c)
    (tc_dataRfReadAddrA c) (tc_dataRfReadAddrB c) (tc_predicateRfReadAddrA c)
    (tc_predicateRfReadAddrB c) (tc_dataWrite0Enable c) v (tc_dataWrite1Enable c)
    (tc_dataWrite1Addr c) (tc_dataWrite1Source c) (tc_predicateWrite0Enable c)
    (tc_predicateWrite0Addr c) (tc_predicateWrite1Enable c) (tc_predicateWrite1Addr c)
    (tc_predicateWrite1Source c) (tc_dataRoutes c) (tc_predicateRoutes c) (tc_constantAddr
    c) (tc_lsuOp c) (tc_lsuAddrSource c) (tc_lsuStoreDataSource c)
    (tc_lsuCommitPredicateEnable c) (tc_lsuCommitPredicateInvert c)
    (tc_lsuCommitPredicateSource c).
Definition set_dataWrite1Enable (v : bool) (c : TileControl) : TileControl :=
  mkTileControl (tc_op c) (tc_srcA c) (tc_srcB c) (tc_srcP0 c) (tc_srcP1 c)
    (tc_dataRfReadAddrA c) (tc_dataRfReadAddrB c) (tc_predicateRfReadAddrA c)
    (tc_predicateRfReadAddrB c) (tc_dataWrite0Enable c) (tc_dataWrite0Addr c) v
    (tc_dataWrite1Addr c) (tc_dataWrite1Source c) (tc_predicateWrite0Enable c)
    (tc_predicateWrite0Addr c) (tc_predicateWrite1Enable c) (tc_predicateWrite1Addr c)
    (tc_predicateWrite1Source c) (tc_dataRoutes c) (tc_predicateRoutes c) (tc_constantAddr
    c) (tc_lsuOp c) (tc_lsuAddrSource c) (tc_lsuStoreDataSource c)
    (tc_lsuCommitPredicateEnable c) (tc_lsuCommitPredicateInvert c)
    (tc_lsuCommitPredicateSource c).
Definition set_dataWrite1Addr (v : Z) (c : TileControl) : TileControl :=
  mkTileControl (tc_op c) (tc_srcA c) (tc_srcB c) (tc_srcP0 c) (tc_srcP1 c)
    (tc_dataRfReadAddrA c) (tc_dataRfReadAddrB c) (tc_predicateRfReadAddrA c)
    (tc_predicateRfReadAddrB c) (tc_dataWrite0Enable c) (tc_dataWrite0Addr c)
    (tc_dataWrite1Enable c) v (tc_dataWrite1Source c) (tc_predicateWrite0Enable c)
    (tc_predicateWrite0Addr c) (tc_predicateWrite1Enable c) (tc_predicateWrite1Addr c)
    (tc_predicateWrite1Source c) (tc_dataRoutes c) (tc_predicateRoutes c) (tc_constantAddr
    c) (tc_lsuOp c) (tc_lsuAddrSource c) (tc_lsuStoreDataSource c)
    (tc_lsuCommitPredicateEnable c) (tc_lsuCommitPredicateInvert c)
    (tc_lsuCommitPredicateSource c).
Definition set_dataWrite1Source (v : string) (c : TileControl) : TileControl :=
  mkTileControl (tc_op c) (tc_srcA c) (tc_srcB c) (tc_srcP0 c) (tc_srcP1 c)
    (tc_dataRfReadAddrA c) (tc_dataRfReadAddrB c) (tc_predicateRfReadAddrA c)
    (tc_predicateRfReadAddrB c) (tc_dataWrite0Enable c) (tc_dataWrite0Addr c)
    (tc_dataWrite1Enable c) (tc_dataWrite1Addr c) v (tc_predicateWrite0Enable c)
    (tc_predicateWrite0Addr c) (tc_predicateWrite1Enable c) (tc_predicateWrite1Addr c)
    (tc_predicateWrite1Source c) (tc_dataRoutes c) (tc_predicateRoutes c) (tc_constantAddr
    c) (tc_lsuOp c) (tc_lsuAddrSource c) (tc_lsuStoreDataSource c)
    (tc_lsuCommitPredicateEnable c) (tc_lsuCommitPredicateInvert c)
    (tc_lsuCommitPredicateSource c).
Definition set_predicateWrite0Enable (v : bool) (c : TileControl) : TileControl :=
  mkTileControl (tc_op c) (tc_srcA c) (tc_srcB c) (tc_srcP0 c) (tc_srcP1 c)
    (tc_dataRfReadAddrA c) (tc_dataRfReadAddrB c) (tc_predicateRfReadAddrA c)
    (tc_predicateRfReadAddrB c) (tc_dataWrite0Enable c) (tc_dataWrite0Addr c)
    (tc_dataWrite1Enable c) (tc_dataWrite1Addr c) (tc_dataWrite1Source c) v
    (tc_predicateWrite0Addr c) (tc_predicateWrite1Enable c) (tc_predicateWrite1Addr c)
    (tc_predicateWrite1Source c) (tc_dataRoutes c) (tc_predicateRoutes c) (tc_constantAddr
    c) (tc_lsuOp c) (tc_lsuAddrSource c) (tc_lsuStoreDataSource c)
    (tc_lsuCommitPredicateEnable c) (tc_lsuCommitPredicateInvert c)
    (tc_lsuCommitPredicateSource c).
Definition set_predicateWrite0Addr (v : Z) (c : TileControl) : TileControl :=
  mkTileControl (tc_op c) (tc_srcA c) (tc_srcB c) (tc_srcP0 c) (tc_srcP1 c)
    (tc_dataRfReadAddrA c) (tc_dataRfReadAddrB c) (tc_predicateRfReadAddrA c)
    (tc_predicateRfReadAddrB c) (tc_dataWrite0Enable c) (tc_dataWrite0Addr c)
    (tc_dataWrite1Enable c) (tc_dataWrite1Addr c) (tc_dataWrite1Source c)
    (tc_predicateWrite0Enable c) v (tc_predicateWrite1Enable c) (tc_predicateWrite1Addr c)
    (tc_predicateWrite1Source c) (tc_dataRoutes c) (tc_predicateRoutes c) (tc_constantAddr
    c) (tc_lsuOp c) (tc_lsuAddrSource c) (tc_lsuStoreDataSource c)
    (tc_lsuCommitPredicateEnable c) (tc_lsuCommitPredicateInvert c)
    (tc_lsuCommitPredicateSource c).
Definition set_predicateWrite1Enable (v : bool) (c : TileControl) : TileControl :=
  mkTileControl (tc_op c) (tc_srcA c) (tc_srcB c) (tc_srcP0 c) (tc_srcP1 c)
    (tc_dataRfReadAddrA c) (tc_dataRfReadAddrB c) (tc_predicateRfReadAddrA c)
    (tc_predicateRfReadAddrB c) (tc_dataWrite0Enable c) (tc_dataWrite0Addr c)
    (tc_dataWrite1Enable c) (tc_dataWrite1Addr c) (tc_dataWrite1Source c)
    (tc_predicateWrite0Enable c) (tc_predicateWrite0Addr c) v (tc_predicateWrite1Addr c)
    (tc_predicateWrite1Source c) (tc_dataRoutes c) (tc_predicateRoutes c) (tc_constantAddr
    c) (tc_lsuOp c) (tc_lsuAddrSource c) (tc_lsuStoreDataSource c)
    (tc_lsuCommitPredicateEnable c) (tc_lsuCommitPredicateInvert c)
    (tc_lsuCommitPredicateSource c).
Definition set_predicateWrite1Addr (v : Z) (c : TileControl) : TileControl :=
  mkTileControl (tc_op c) (tc_srcA c) (tc_srcB c) (tc_srcP0 c) (tc_srcP1 c)
    (tc_dataRfReadAddrA c) (tc_dataRfReadAddrB c) (tc_predicateRfReadAddrA c)
    (tc_predicateRfReadAddrB c) (tc_dataWrite0Enable c) (tc_dataWrite0Addr c)
    (tc_dataWrite1Enable c) (tc_dataWrite1Addr c) (tc_dataWrite1Source c)
    (tc_predicateWrite0Enable c) (tc_predicateWrite0Addr c) (tc_predicateWrite1Enable c) v
    (tc_predicateWrite1Source c) (tc_dataRoutes c) (tc_predicateRoutes c) (tc_constantAddr
    c) (tc_lsuOp c) (tc_lsuAddrSource c) (tc_lsuStoreDataSource c)
    (tc_lsuCommitPredicateEnable c) (tc_lsuCommitPredicateInvert c)
    (tc_lsuCommitPredicateSource c).
Definition set_predicateWrite1Source (v : string) (c : TileControl) : TileControl :=
  mkTileControl (tc_op c) (tc_srcA c) (tc_srcB c) (tc_srcP0 c) (tc_srcP1 c)
    (tc_dataRfReadAddrA c) (tc_dataRfReadAddrB c) (tc_predicateRfReadAddrA c)
    (tc_predicateRfReadAddrB c) (tc_dataWrite0Enable c) (tc_dataWrite0Addr c)
    (tc_dataWrite1Enable c) (tc_dataWrite1Addr c) (tc_dataWrite1Source c)
    (tc_predicateWrite0Enable c) (tc_predicateWrite0Addr c) (tc_predicateWrite1Enable c)
    (tc_predicateWrite1Addr c) v (tc_dataRoutes c) (tc_predicateRoutes c) (tc_constantAddr
    c) (tc_lsuOp c) (tc_lsuAddrSource c) (tc_lsuStoreDataSource c)
    (tc_lsuCommitPredicateEnable c) (tc_lsuCommitPredicateInvert c)
    (tc_lsuCommitPredicateSource c).
Definition set_dataRoutes (v : RouteArray) (c : TileControl) : TileControl :=
  mkTileControl (tc_op c) (tc_srcA c) (tc_srcB c) (tc_srcP0 c) (tc_srcP1 c)
    (tc_dataRfReadAddrA c) (tc_dataRfReadAddrB c) (tc_predicateRfReadAddrA c)
    (tc_predicateRfReadAddrB c) (tc_dataWrite0Enable c) (tc_dataWrite0Addr c)
    (tc_dataWrite1Enable c) (tc_dataWrite1Addr c) (tc_dataWrite1Source c)
    (tc_predicateWrite0Enable c) (tc_predicateWrite0Addr c) (tc_predicateWrite1Enable c)
    (tc_predicateWrite1Addr c) (tc_predicateWrite1Source c) v (tc_predicateRoutes c)
    (tc_constantAddr c) (tc_lsuOp c) (tc_lsuAddrSource c) (tc_lsuStoreDataSource c)
    (tc_lsuCommitPredicateEnable c) (tc_lsuCommitPredicateInvert c)
    (tc_lsuCommitPredicateSource c).
Definition set_predicateRoutes (v : RouteArray) (c : TileControl) : TileControl :=
  mkTileControl (tc_op c) (tc_srcA c) (tc_srcB c) (tc_srcP0 c) (tc_srcP1 c)
    (tc_dataRfReadAddrA c) (tc_dataRfReadAddrB c) (tc_predicateRfReadAddrA c)
    (tc_predicateRfReadAddrB c) (tc_dataWrite0Enable c) (tc_dataWrite0Addr c)
    (tc_dataWrite1Enable c) (tc_dataWrite1Addr c) (tc_dataWrite1Source c)
    (tc_predicateWrite0Enable c) (tc_predicateWrite0Addr c) (tc_predicateWrite1Enable c)
    (tc_predicateWrite1Addr c) (tc_predicateWrite1Source c) (tc_dataRoutes c) v
    (tc_constantAddr c) (tc_lsuOp c) (tc_lsuAddrSource c) (tc_lsuStoreDataSource c)
    (tc_lsuCommitPredicateEnable c) (tc_lsuCommitPredicateInvert c)
    (tc_lsuCommitPredicateSource c).
Definition set_constantAddr (v : Z) (c : TileControl) : TileControl :=
  mkTileControl (tc_op c) (tc_srcA c) (tc_srcB c) (tc_srcP0 c) (tc_srcP1 c)
    (tc_dataRfReadAddrA c) (tc_dataRfReadAddrB c) (tc_predicateRfReadAddrA c)
    (tc_predicateRfReadAddrB c) (tc_dataWrite0Enable c) (tc_dataWrite0Addr c)
    (tc_dataWrite1Enable c) (tc_dataWrite1Addr c) (tc_dataWrite1Source c)
    (tc_predicateWrite0Enable c) (tc_predicateWrite0Addr c) (tc_predicateWrite1Enable c)
    (tc_predicateWrite1Addr c) (tc_predicateWrite1Source c) (tc_dataRoutes c)
    (tc_predicateRoutes c) v (tc_lsuOp c) (tc_lsuAddrSource c) (tc_lsuStoreDataSource c)
    (tc_lsuCommitPredicateEnable c) (tc_lsuCommitPredicateInvert c)
    (tc_lsuCommitPredicateSource c).
Definition set_lsuOp (v : string) (c : TileControl) : TileControl :=
  mkTileControl (tc_op c) (tc_srcA c) (tc_srcB c) (tc_srcP0 c) (tc_srcP1 c)
    (tc_dataRfReadAddrA c) (tc_dataRfReadAddrB c) (tc_predicateRfReadAddrA c)
    (tc_predicateRfReadAddrB c) (tc_dataWrite0Enable c) (tc_dataWrite0Addr c)
    (tc_dataWrite1Enable c) (tc_dataWrite1Addr c) (tc_dataWrite1Source c)
    (tc_predicateWrite0Enable c) (tc_predicateWrite0Addr c) (tc_predicateWrite1Enable c)
    (tc_predicateWrite1Addr c) (tc_predicateWrite1Source c) (tc_dataRoutes c)
    (tc_predicateRoutes c) (tc_constantAddr c) v (tc_lsuAddrSource c) (tc_lsuStoreDataSource
    c) (tc_lsuCommitPredicateEnable c) (tc_lsuCommitPredicateInvert c)
    (tc_lsuCommitPredicateSource c).
Definition set_lsuAddrSource (v : string) (c : TileControl) : TileControl :=
  mkTileControl (tc_op c) (tc_srcA c) (tc_srcB c) (tc_srcP0 c) (tc_srcP1 c)
    (tc_dataRfReadAddrA c) (tc_dataRfReadAddrB c) (tc_predicateRfReadAddrA c)
    (tc_predicateRfReadAddrB c) (tc_dataWrite0Enable c) (tc_dataWrite0Addr c)
    (tc_dataWrite1Enable c) (tc_dataWrite1Addr c) (tc_dataWrite1Source c)
    (tc_predicateWrite0Enable c) (tc_predicateWrite0Addr c) (tc_predicateWrite1Enable c)
    (tc_predicateWrite1Addr c) (tc_predicateWrite1Source c) (tc_dataRoutes c)
    (tc_predicateRoutes c) (tc_constantAddr c) (tc_lsuOp c) v (tc_lsuStoreDataSource c)
    (tc_lsuCommitPredicateEnable c) (tc_lsuCommitPredicateInvert c)
    (tc_lsuCommitPredicateSource c).
Definition set_lsuStoreDataSource (v : string) (c : TileControl) : TileControl :=
  mkTileControl (tc_op c) (tc_srcA c) (tc_srcB c) (tc_srcP0 c) (tc_srcP1 c)
    (tc_dataRfReadAddrA c) (tc_dataRfReadAddrB c) (tc_predicateRfReadAddrA c)
    (tc_predicateRfReadAddrB c) (tc_dataWrite0Enable c) (tc_dataWrite0Addr c)
    (tc_dataWrite1Enable c) (tc_dataWrite1Addr c) (tc_dataWrite1Source c)
    (tc_predicateWrite0Enable c) (tc_predicateWrite0Addr c) (tc_predicateWrite1Enable c)
    (tc_predicateWrite1Addr c) (tc_predicateWrite1Source c) (tc_dataRoutes c)
    (tc_predicateRoutes c) (tc_constantAddr c) (tc_lsuOp c) (tc_lsuAddrSource c) v
    (tc_lsuCommitPredicateEnable c) (tc_lsuCommitPredicateInvert c)
    (tc_lsuCommitPredicateSource c).
Definition set_lsuCommitPredicateEnable (v : bool) (c : TileControl) : TileControl :=
  mkTileControl (tc_op c) (tc_srcA c) (tc_srcB c) (tc_srcP0 c) (tc_srcP1 c)
    (tc_dataRfReadAddrA c) (tc_dataRfReadAddrB c) (tc_predicateRfReadAddrA c)
    (tc_predicateRfReadAddrB c) (tc_dataWrite0Enable c) (tc_dataWrite0Addr c)
    (tc_dataWrite1Enable c) (tc_dataWrite1Addr c) (tc_dataWrite1Source c)
    (tc_predicateWrite0Enable c) (tc_predicateWrite0Addr c) (tc_predicateWrite1Enable c)
    (tc_predicateWrite1Addr c) (tc_predicateWrite1Source c) (tc_dataRoutes c)
    (tc_predicateRoutes c) (tc_constantAddr c) (tc_lsuOp c) (tc_lsuAddrSource c)
    (tc_lsuStoreDataSource c) v (tc_lsuCommitPredicateInvert c) (tc_lsuCommitPredicateSource
    c).
Definition set_lsuCommitPredicateInvert (v : bool) (c : TileControl) : TileControl :=
  mkTileControl (tc_op c) (tc_srcA c) (tc_srcB c) (tc_srcP0 c) (tc_srcP1 c)
    (tc_dataRfReadAddrA c) (tc_dataRfReadAddrB c) (tc_predicateRfReadAddrA c)
    (tc_predicateRfReadAddrB c) (tc_dataWrite0Enable c) (tc_dataWrite0Addr c)
    (tc_dataWrite1Enable c) (tc_dataWrite1Addr c) (tc_dataWrite1Source c)
    (tc_predicateWrite0Enable c) (tc_predicateWrite0Addr c) (tc_predicateWrite1Enable c)
    (tc_predicateWrite1Addr c) (tc_predicateWrite1Source c) (tc_dataRoutes c)
    (tc_predicateRoutes c) (tc_constantAddr c) (tc_lsuOp c) (tc_lsuAddrSource c)
    (tc_lsuStoreDataSource c) (tc_lsuCommitPredicateEnable c) v (tc_lsuCommitPredicateSource
    c).
Definition set_lsuCommitPredicateSource (v : string) (c : TileControl) : TileControl :=
  mkTileControl (tc_op c) (tc_srcA c) (tc_srcB c) (tc_srcP0 c) (tc_srcP1 c)
    (tc_dataRfReadAddrA c) (tc_dataRfReadAddrB c) (tc_predicateRfReadAddrA c)
    (tc_predicateRfReadAddrB c) (tc_dataWrite0Enable c) (tc_dataWrite0Addr c)
    (tc_dataWrite1Enable c) (tc_dataWrite1Addr c) (tc_dataWrite1Source c)
    (tc_predicateWrite0Enable c) (tc_predicateWrite0Addr c) (tc_predicateWrite1Enable c)
    (tc_predicateWrite1Addr c) (tc_predicateWrite1Source c) (tc_dataRoutes c)
    (tc_predicateRoutes c) (tc_constantAddr c) (tc_lsuOp c) (tc_lsuAddrSource c)
    (tc_lsuStoreDataSource c) (tc_lsuCommitPredicateEnable c) (tc_lsuCommitPredicateInvert
    c) v.

(** *** Routes by direction *)

Inductive RouteIndex := RouteNorth | RouteSouth | RouteEast | RouteWest.

Definition Directions : list (RouteIndex * string) :=
  [(RouteNorth, "north"); (RouteSouth, "south"); (RouteEast, "east"); (RouteWest, "west")].

Definition route_at (routes : RouteArray) (i : RouteIndex) : RouteControl :=
  match i with
  | RouteNorth => ro_north routes | RouteSouth => ro_south routes
  | RouteEast => ro_east routes | RouteWest => ro_west routes
  end.

Definition set_route (i : RouteIndex) (r : RouteControl) (routes : RouteArray) : RouteArray :=
  match i with
  | RouteNorth => mkRoutes r (ro_south routes) (ro_east routes) (ro_west routes)
  | RouteSouth => mkRoutes (ro_north routes) r (ro_east routes) (ro_west routes)
  | RouteEast => mkRoutes (ro_north routes) (ro_south routes) r (ro_west routes)
  | RouteWest => mkRoutes (ro_north routes) (ro_south routes) (ro_east routes) r
  end.

Definition set_enabled (i : RouteIndex) (enabled : bool) (routes : RouteArray) : RouteArray :=
  set_route i (mkRoute enabled (rt_source (route_at routes i))) routes.
Definition set_source (i : RouteIndex) (source : string) (routes : RouteArray) : RouteArray :=
  set_route i (mkRoute (rt_enabled (route_at routes i)) source) routes.

(** ** Fields by name

    The chains of [if (field == ...)] of the four accessors, as tables searched in
    order; the loops over [Directions] come last. *)

Definition route_field (network direction suffix : string) : string :=
  String.append network (String.append "_route_" (String.append direction suffix)).

Definition integer_readers : list (string * (TileControl -> Z)) := [
  ("data_rf_raddr_a", tc_dataRfReadAddrA);
  ("data_rf_raddr_b", tc_dataRfReadAddrB);
  ("pred_rf_raddr_a", tc_predicateRfReadAddrA);
  ("pred_rf_raddr_b", tc_predicateRfReadAddrB);
  ("data_w0_we", fun c => Z.b2z (tc_dataWrite0Enable c));
  ("data_w0_addr", tc_dataWrite0Addr);
  ("data_w1_we", fun c => Z.b2z (tc_dataWrite1Enable c));
  ("data_w1_addr", tc_dataWrite1Addr);
  ("pred_w0_we", fun c => Z.b2z (tc_predicateWrite0Enable c));
  ("pred_w0_addr", tc_predicateWrite0Addr);
  ("pred_w1_we", fun c => Z.b2z (tc_predicateWrite1Enable c));
  ("pred_w1_addr", tc_predicateWrite1Addr);
  ("const_addr", tc_constantAddr);
  ("lsu_commit_pred_enable", fun c => Z.b2z (tc_lsuCommitPredicateEnable c));
  ("lsu_commit_pred_invert", fun c => Z.b2z (tc_lsuCommitPredicateInvert c))] ++
  flat_map (fun d => [
    (route_field "data" d.2 "_we", fun c => Z.b2z (rt_enabled (route_at (tc_dataRoutes c) d.1)));
    (route_field "pred" d.2 "_we", fun c => Z.b2z (rt_enabled (route_at (tc_predicateRoutes c) d.1)))])
    Directions.

Definition encoding_readers : list (string * (TileControl -> string)) := [
  ("op", tc_op);
  ("src_a", tc_srcA);
  ("src_b", tc_srcB);
  ("src_p0", tc_srcP0);
  ("src_p1", tc_srcP1);
  ("data_w1_src", tc_dataWrite1Source);
  ("pred_w1_src", tc_predicateWrite1Source);
  ("lsu_op", tc_lsuOp);
  ("lsu_addr_src", tc_lsuAddrSource);
  ("lsu_store_data_src", tc_lsuStoreDataSource);
  ("lsu_commit_pred_src", tc_lsuCommitPredicateSource)] ++
  flat_map (fun d => [
    (route_field "data" d.2 "_src", fun c => rt_source (route_at (tc_dataRoutes c) d.1));
    (route_field "pred" d.2 "_src", fun c => rt_source (route_at (tc_predicateRoutes c) d.1))])
    Directions.

(** A value stored in an [unsigned] is cut to 32 bits, in a [bool] compared with 0. *)
Definition as_bool (v : Z) : bool := negb (v =? 0).

Definition integer_writers : list (string * (Z -> TileControl -> TileControl)) := [
  ("data_rf_raddr_a", fun v => set_dataRfReadAddrA (wrap32 v));
  ("data_rf_raddr_b", fun v => set_dataRfReadAddrB (wrap32 v));
  ("pred_rf_raddr_a", fun v => set_predicateRfReadAddrA (wrap32 v));
  ("pred_rf_raddr_b", fun v => set_predicateRfReadAddrB (wrap32 v));
  ("data_w0_we", fun v => set_dataWrite0Enable (as_bool v));
  ("data_w0_addr", fun v => set_dataWrite0Addr (wrap32 v));
  ("data_w1_we", fun v => set_dataWrite1Enable (as_bool v));
  ("data_w1_addr", fun v => set_dataWrite1Addr (wrap32 v));
  ("pred_w0_we", fun v => set_predicateWrite0Enable (as_bool v));
  ("pred_w0_addr", fun v => set_predicateWrite0Addr (wrap32 v));
  ("pred_w1_we", fun v => set_predicateWrite1Enable (as_bool v));
  ("pred_w1_addr", fun v => set_predicateWrite1Addr (wrap32 v));
  ("const_addr", fun v => set_constantAddr (wrap32 v));
  ("lsu_commit_pred_enable", fun v => set_lsuCommitPredicateEnable (as_bool v));
  ("lsu_commit_pred_invert", fun v => set_lsuCommitPredicateInvert (as_bool v))] ++
  flat_map (fun d => [
    (route_field "data" d.2 "_we",
       fun v c => set_dataRoutes (set_enabled d.1 (as_bool v) (tc_dataRoutes c)) c);
    (route_field "pred" d.2 "_we",
       fun v c => set_predicateRoutes (set_enabled d.1 (as_bool v) (tc_predicateRoutes c)) c)])
    Directions.

Definition encoding_writers : list (string * (string -> TileControl -> TileControl)) := [
  ("op", set_op);
  ("src_a", set_srcA);
  ("src_b", set_srcB);
  ("src_p0", set_srcP0);
  ("src_p1", set_srcP1);
  ("data_w1_src", set_dataWrite1Source);
  ("pred_w1_src", set_predicateWrite1Source);
  ("lsu_op", set_lsuOp);
  ("lsu_addr_src", set_lsuAddrSource);
  ("lsu_store_data_src", set_lsuStoreDataSource);
  ("lsu_commit_pred_src", set_lsuCommitPredicateSource)] ++
  flat_map (fun d => [
    (route_field "data" d.2 "_src",
       fun v c => set_dataRoutes (set_source d.1 v (tc_dataRoutes c)) c);
    (route_field "pred" d.2 "_src",
       fun v c => set_predicateRoutes (set_source d.1 v (tc_predicateRoutes c)) c)])
    Directions.

(** The first entry with the name. *)
Definition entry {A} (table : list (string * A)) (field : string) : result A :=
  of_option RuntimeError (snd <$> find_if (fun e => String.eqb e.1 field) table).

Definition semanticInteger (control : TileControl) (field : string) : result Z :=
  read ← entry integer_readers field; Ok (read control).

Definition semanticEncoding (control : TileControl) (field : string) : result string :=
  read ← entry encoding_readers field; Ok (read control).

Definition setSemanticInteger (control : TileControl) (field : string) (value : Z)
  : result TileControl :=
  write ← entry integer_writers field; Ok (write value control).

Definition setSemanticEncoding (control : TileControl) (field value : string)
  : result TileControl :=
  write ← entry encoding_writers field; Ok (write value control).

(** ** Words *)

(** [EncodedControl]: the four chunks. *)
Definition no_chunks : list Z := [0; 0; 0; 0].

Definition fieldLimit (width : Z) : Z :=
  if width =? 64 then u64_max else wrap64 (Z.shiftl 1 width) - 1.

(** Set or read physical bit [i]: bit [i mod 32] of chunk [i / 32]. *)
Definition set_bit (chunks : list Z) (i : Z) : result (list Z) :=
  chunk ← of_option OutOfRange (chunks !! nat_of (i / 32));
  Ok (<[nat_of (i / 32) := Z.lor chunk (Z.shiftl 1 (i mod 32))]> chunks).

Definition get_bit (chunks : list Z) (i : Z) : result Z :=
  chunk ← of_option OutOfRange (chunks !! nat_of (i / 32));
  Ok (Z.land (Z.shiftr chunk (i mod 32)) 1).

Fixpoint insert_loop (lsb value : Z) (bits : list Z) (chunks : list Z) : result (list Z) :=
  match bits with
  | [] => Ok chunks
  | bit :: bits =>
      chunks ← (if Z.land (Z.shiftr value bit) 1 =? 0 then Ok chunks else set_bit chunks (lsb + bit));
      insert_loop lsb value bits chunks
  end.

Definition insertBits (chunks : list Z) (lsb width value : Z) : result (list Z) :=
  if fieldLimit width <? value then Throw RuntimeError
  else insert_loop lsb value (range width) chunks.

Fixpoint extract_loop (chunks : list Z) (lsb : Z) (bits : list Z) (value : Z) : result Z :=
  match bits with
  | [] => Ok value
  | bit :: bits =>
      b ← get_bit chunks (lsb + bit);
      extract_loop chunks lsb bits (Z.lor value (wrap64 (Z.shiftl b bit)))
  end.

Definition extractBits (chunks : list Z) (lsb width : Z) : result Z :=
  extract_loop chunks lsb (range width) 0.

Definition layout_field (layout : ControlLayout) (name : string) : result ControlField :=
  index ← of_option RuntimeError (cl_fieldIndices layout !! name);
  of_option OutOfRange (cl_fields layout !! index).

(** ** Encoding and decoding *)

Section Codec.
Context (target : TargetModel).

Let layout := tm_controlLayout target.

Definition field_value (control : TileControl) (field : ControlField) : result Z :=
  match cf_encoding field with
  | Some domain =>
      name ← semanticEncoding control (cf_name field); encodingValue target domain name
  | None => semanticInteger control (cf_name field)
  end.

Fixpoint encode_fields (control : TileControl) (fields : list ControlField) (chunks : list Z)
  : result (list Z) :=
  match fields with
  | [] => Ok chunks
  | field :: fields =>
      value ← field_value control field;
      chunks ← insertBits chunks (cf_lsb field) (cf_width field) value;
      encode_fields control fields chunks
  end.

Definition encode (control : TileControl) : result (list Z) :=
  chunks ← encode_fields control (cl_fields layout) no_chunks;
  padding ← extractBits chunks (cl_paddingLsb layout) (cl_paddingWidth layout);
  if negb (padding =? 0) then Throw RuntimeError else Ok chunks.

Definition store_field (chunks : list Z) (field : ControlField) (control : TileControl)
  : result TileControl :=
  value ← extractBits chunks (cf_lsb field) (cf_width field);
  match cf_encoding field with
  | Some domain =>
      name ← encodingName target domain (wrap32 value);
      setSemanticEncoding control (cf_name field) name
  | None => setSemanticInteger control (cf_name field) value
  end.

Fixpoint decode_fields (chunks : list Z) (fields : list ControlField) (control : TileControl)
  : result TileControl :=
  match fields with
  | [] => Ok control
  | field :: fields =>
      control ← store_field chunks field control;
      decode_fields chunks fields control
  end.

Definition decode (chunks : list Z) : result TileControl :=
  padding ← extractBits chunks (cl_paddingLsb layout) (cl_paddingWidth layout);
  if negb (padding =? cl_paddingValue layout) then Throw RuntimeError
  else decode_fields chunks (cl_fields layout) default_control.
End Codec.

(** A control setting that exercises both networks, and its word. *)
Definition v2_control : TileControl :=
  set_constantAddr 5 (set_op "ADD" (set_srcB "CONST_DATA" (set_dataWrite0Enable true
    (set_dataRoutes (set_route RouteEast (mkRoute true "FU_DATA_RESULT") no_routes) default_control)))).

Example v2_encode :
  encode cgra_v2 v2_control = Ok [1956354; 3221749824; 45057; 478680064] /\
  decode cgra_v2 [1956354; 3221749824; 45057; 478680064] = Ok v2_control /\
  decode cgra_v2 [1956354; 3221749824; 45057; 2147483648] = Throw RuntimeError.
Proof. vm_compute. done. Qed.

(** ** The accessors of a member fit together *)

Definition integer_names : list string := integer_readers.*1.
Definition encoding_names : list string := encoding_readers.*1.

(** The members of type [bool]. *)
Definition bool_names : list string :=
  ["data_w0_we"; "data_w1_we"; "pred_w0_we"; "pred_w1_we"; "lsu_commit_pred_enable";
   "lsu_commit_pred_invert"] ++
  flat_map (fun d => [route_field "data" d.2 "_we"; route_field "pred" d.2 "_we"]) Directions.

(** What an integer member holds after [v] is assigned to it. *)
Definition stored (name : string) (v : Z) : Z :=
  if bool_decide (name ∈ bool_names) then Z.b2z (as_bool v) else wrap32 v.

Lemma entry_Ok {A} (table : list (string * A)) name x : NoDup table.*1 ->
  entry table name = Ok x <-> (name, x) ∈ table.
Proof.
  intros Hnd. unfold entry. rewrite of_option_Ok, fmap_Some. split.
  - intros ([n y] & Hf & ->). apply find_if_Some in Hf as [Hin E].
    apply String.eqb_eq in E. simpl in E. by subst.
  - intros Hin. destruct (find_if (fun e => String.eqb e.1 name) table) as [[n y]|] eqn:E.
    + apply find_if_Some in E as [Hin' E]. apply String.eqb_eq in E. simpl in E. subst n.
      exists (name, y). split; [done|]. simpl.
      apply list_elem_of_lookup in Hin as [i Hi], Hin' as [j Hj].
      assert (i = j) as ->; [|congruence]. apply (NoDup_lookup _ _ _ name Hnd);
        by rewrite list_lookup_fmap, ?Hi, ?Hj.
    + rewrite find_if_None in E. specialize (E _ Hin). simpl in E. by rewrite String.eqb_refl in E.
Qed.

Lemma integer_readers_NoDup : NoDup integer_readers.*1.
Proof. apply (bool_decide_unpack _). vm_compute. exact I. Qed.
Lemma encoding_readers_NoDup : NoDup encoding_readers.*1.
Proof. apply (bool_decide_unpack _). vm_compute. exact I. Qed.
Lemma integer_writers_names : integer_writers.*1 = integer_names.
Proof. reflexivity. Qed.
Lemma encoding_writers_names : encoding_writers.*1 = encoding_names.
Proof. reflexivity. Qed.

Lemma integer_after_integer : Forall (fun r => Forall (fun w => forall v c,
  r.2 (w.2 v c) = if String.eqb r.1 w.1 then stored w.1 v else r.2 c) integer_writers) integer_readers.
Proof. repeat constructor. Qed.

Lemma encoding_after_encoding : Forall (fun r => Forall (fun w => forall v c,
  r.2 (w.2 v c) = if String.eqb r.1 w.1 then v else r.2 c) encoding_writers) encoding_readers.
Proof. repeat constructor. Qed.

Lemma encoding_after_integer : Forall (fun r => Forall (fun w => forall v c,
  r.2 (w.2 v c) = r.2 c) integer_writers) encoding_readers.
Proof. repeat constructor. Qed.

Lemma integer_after_encoding : Forall (fun r => Forall (fun w => forall v c,
  r.2 (w.2 v c) = r.2 c) encoding_writers) integer_readers.
Proof. repeat constructor. Qed.

Lemma setSemanticInteger_spec c name v c' : setSemanticInteger c name v = Ok c' ->
  name ∈ integer_names /\
  (forall n x, semanticInteger c n = Ok x ->
     semanticInteger c' n = Ok (if String.eqb n name then stored name v else x)) /\
  forall n, semanticEncoding c' n = semanticEncoding c n.
Proof.
  unfold setSemanticInteger. intros H. apply bind_Ok in H as (w & Hw & H). injection H as <-.
  apply entry_Ok in Hw; [|rewrite integer_writers_names; apply integer_readers_NoDup].
  split_and!.
  - rewrite <- integer_writers_names. by apply (list_elem_of_fmap_2 fst _ (name, w)).
  - unfold semanticInteger. intros n x Hx. apply bind_Ok in Hx as (r & Hr & Hx).
    rewrite Hr. simpl. injection Hx as <-. f_equal.
    apply entry_Ok in Hr; [|apply integer_readers_NoDup].
    pose proof integer_after_integer as Hall. rewrite Forall_forall in Hall.
    specialize (Hall _ Hr). rewrite Forall_forall in Hall. exact (Hall _ Hw v c).
  - unfold semanticEncoding. intros n. destruct (entry encoding_readers n) as [r|] eqn:Hr; [|done].
    simpl. f_equal. apply entry_Ok in Hr; [|apply encoding_readers_NoDup].
    pose proof encoding_after_integer as Hall. rewrite Forall_forall in Hall.
    specialize (Hall _ Hr). rewrite Forall_forall in Hall. exact (Hall _ Hw v c).
Qed.

Lemma setSemanticEncoding_spec c name v c' : setSemanticEncoding c name v = Ok c' ->
  name ∈ encoding_names /\
  (forall n x, semanticEncoding c n = Ok x ->
     semanticEncoding c' n = Ok (if String.eqb n name then v else x)) /\
  forall n, semanticInteger c' n = semanticInteger c n.
Proof.
  unfold setSemanticEncoding. intros H. apply bind_Ok in H as (w & Hw & H). injection H as <-.
  apply entry_Ok in Hw; [|rewrite encoding_writers_names; apply encoding_readers_NoDup].
  split_and!.
  - rewrite <- encoding_writers_names. by apply (list_elem_of_fmap_2 fst _ (name, w)).
  - unfold semanticEncoding. intros n x Hx. apply bind_Ok in Hx as (r & Hr & Hx).
    rewrite Hr. simpl. injection Hx as <-. f_equal.
    apply entry_Ok in Hr; [|apply encoding_readers_NoDup].
    pose proof encoding_after_encoding as Hall. rewrite Forall_forall in Hall.
    specialize (Hall _ Hr). rewrite Forall_forall in Hall. exact (Hall _ Hw v c).
  - unfold semanticInteger. intros n. destruct (entry integer_readers n) as [r|] eqn:Hr; [|done].
    simpl. f_equal. apply entry_Ok in Hr; [|apply integer_readers_NoDup].
    pose proof integer_after_encoding as Hall. rewrite Forall_forall in Hall.
    specialize (Hall _ Hr). rewrite Forall_forall in Hall. exact (Hall _ Hw v c).
Qed.

Lemma entry_known {A} (table : list (string * A)) name : NoDup table.*1 ->
  name ∈ table.*1 <-> exists x, entry table name = Ok x.
Proof.
  intros Hnd. setoid_rewrite entry_Ok; [|done]. rewrite list_elem_of_fmap. split.
  - intros ([n x] & -> & Hin). by exists x.
  - intros [x Hx]. by exists (name, x).
Qed.

Lemma semanticInteger_known c name : name ∈ integer_names <-> exists x, semanticInteger c name = Ok x.
Proof.
  unfold integer_names. rewrite (entry_known _ _ integer_readers_NoDup). unfold semanticInteger.
  split; [intros [r ->]; by eexists|]. intros [x Hx]. apply bind_Ok in Hx as (r & Hr & _). by exists r.
Qed.

Lemma semanticEncoding_known c name : name ∈ encoding_names <-> exists x, semanticEncoding c name = Ok x.
Proof.
  unfold encoding_names. rewrite (entry_known _ _ encoding_readers_NoDup). unfold semanticEncoding.
  split; [intros [r ->]; by eexists|]. intros [x Hx]. apply bind_Ok in Hx as (r & Hr & _). by exists r.
Qed.

Lemma setSemanticInteger_known c name v : name ∈ integer_names ->
  exists c', setSemanticInteger c name v = Ok c'.
Proof.
  intros Hn. unfold setSemanticInteger. rewrite <- integer_writers_names in Hn.
  apply entry_known in Hn as [w ->]; [by eexists|].
  rewrite integer_writers_names. apply integer_readers_NoDup.
Qed.

Lemma setSemanticEncoding_known c name v : name ∈ encoding_names ->
  exists c', setSemanticEncoding c name v = Ok c'.
Proof.
  intros Hn. unfold setSemanticEncoding. rewrite <- encoding_writers_names in Hn.
  apply entry_known in Hn as [w ->]; [by eexists|].
  rewrite encoding_writers_names. apply encoding_readers_NoDup.
Qed.

(** The members determine the setting. *)
Lemma control_ext c c' :
  (forall n, n ∈ integer_names -> semanticInteger c n = semanticInteger c' n) ->
  (forall n, n ∈ encoding_names -> semanticEncoding c n = semanticEncoding c' n) -> c = c'.
Proof.
  intros Hi He.
  assert (Hi' : Forall (fun r => r.2 c = r.2 c') integer_readers).
  { apply Forall_forall. intros [n r] Hin. specialize (Hi n (list_elem_of_fmap_2 fst _ _ Hin)).
    apply entry_Ok in Hin; [|apply integer_readers_NoDup].
    unfold semanticInteger in Hi. rewrite Hin in Hi. by injection Hi. }
  assert (He' : Forall (fun r => r.2 c = r.2 c') encoding_readers).
  { apply Forall_forall. intros [n r] Hin. specialize (He n (list_elem_of_fmap_2 fst _ _ Hin)).
    apply entry_Ok in Hin; [|apply encoding_readers_NoDup].
    unfold semanticEncoding in He. rewrite Hin in He. by injection He. }
  clear Hi He. cbn in Hi', He'. repeat match goal with
  | H : Forall _ (_ :: _) |- _ => apply Forall_cons in H as [? H]
  end. clear Hi' He'.
  repeat match goal with
  | c : TileControl |- _ => destruct c as [? ? ? ? ? ? ? ? ? ? ? ? ? ? ? ? ? ? ?
      [[] [] [] []] [[] [] [] []] ? ? ? ? ? ? ?]
  end.
  simpl in *. repeat match goal with H : Z.b2z _ = Z.b2z _ |- _ => apply Z.b2z_inj in H end.
  by subst.
Qed.

(** ** Words as bits *)

Definition typed_word (w : list Z) : Prop := length w = 4%nat /\ forall x, x ∈ w -> is_u32 x.

Definition word_bit (w : list Z) (i : Z) : bool :=
  Z.testbit (default 0 (w !! nat_of (i / 32))) (i mod 32).

Lemma chunk_index i : 0 <= i < 128 -> (nat_of (i / 32) < 4)%nat /\ 0 <= i mod 32 < 32.
Proof. intros H. pose proof (Z.mod_pos_bound i 32 ltac:(lia)). split; [|done]. Z.to_euclidean_division_equations. lia. Qed.

Lemma chunk_at w i : typed_word w -> 0 <= i < 128 -> exists x, w !! nat_of (i / 32) = Some x /\ is_u32 x.
Proof.
  intros [Hl Hw] Hi. destruct (chunk_index i Hi) as [Hc _].
  destruct (lookup_lt_is_Some_2 w (nat_of (i / 32))) as [x Hx]; [lia|].
  exists x. split; [done|]. apply Hw. by eapply list_elem_of_lookup_2.
Qed.

Lemma u32_lor x b : is_u32 x -> 0 <= b < 32 -> is_u32 (Z.lor x (Z.shiftl 1 b)).
Proof.
  unfold is_u32, u32_max. intros Hx Hb.
  assert (H : Z.lor x (Z.shiftl 1 b) = Z.lor x (Z.shiftl 1 b) mod 2 ^ 32).
  { apply Z.bits_inj'. intros n Hn. destruct (Z.ltb_spec n 32).
    - by rewrite Z.mod_pow2_bits_low by lia.
    - rewrite Z.mod_pow2_bits_high by lia. rewrite Z.lor_spec, Z.shiftl_1_l, Z.pow2_bits_eqb by lia.
      rewrite (Z.bits_above_log2 x n); [simpl; apply Z.eqb_neq; lia|lia|].
      destruct (decide (x = 0)) as [->|]; [simpl; lia|].
      apply Z.log2_lt_pow2; [lia|]. apply Z.lt_le_trans with (2 ^ 32); [lia|].
      apply Z.pow_le_mono_r; lia. }
  rewrite H. pose proof (Z.mod_pos_bound (Z.lor x (Z.shiftl 1 b)) (2 ^ 32) ltac:(lia)). lia.
Qed.

Lemma set_bit_spec w i : typed_word w -> 0 <= i < 128 ->
  exists w', set_bit w i = Ok w' /\ typed_word w' /\
    forall j, 0 <= j < 128 -> word_bit w' j = word_bit w j || (j =? i).
Proof.
  intros Hw Hi. destruct (chunk_at w i Hw Hi) as (x & Hx & Hu). destruct (chunk_index i Hi) as [Hc Hb].
  unfold set_bit. rewrite Hx. simpl. eexists. split; [done|]. destruct Hw as [Hl Hall]. split.
  - split; [by rewrite length_insert|]. intros y Hy. apply list_elem_of_lookup in Hy as [k Hk].
    apply list_lookup_insert_Some in Hk as [(_ & <- & _)|[_ Hk]]; [by apply u32_lor|].
    apply Hall. by eapply list_elem_of_lookup_2.
  - intros j Hj. unfold word_bit. destruct (chunk_index j Hj) as [Hcj Hbj].
    destruct (decide (nat_of (j / 32) = nat_of (i / 32))) as [E|Hne].
    + rewrite E, list_lookup_insert_eq by lia. rewrite Hx. simpl.
      rewrite Z.lor_spec, Z.shiftl_1_l, Z.pow2_bits_eqb by lia. f_equal.
      assert (j / 32 = i / 32) by (apply Z2Nat.inj in E; try apply Z.div_pos; lia).
      apply eq_true_iff_eq. rewrite !Z.eqb_eq. Z.to_euclidean_division_equations. lia.
    + rewrite list_lookup_insert_ne by congruence. rewrite (proj2 (Z.eqb_neq j i)) by congruence.
      by rewrite orb_false_r.
Qed.

Lemma bit_of_shift x b : 0 <= b -> Z.land (Z.shiftr x b) 1 = Z.b2z (Z.testbit x b).
Proof.
  intros Hb. change 1 with (Z.ones 1). rewrite Z.land_ones by lia. change (2 ^ 1) with 2.
  rewrite Z.testbit_spec' by done. by rewrite Z.shiftr_div_pow2.
Qed.

Lemma get_bit_spec w i : typed_word w -> 0 <= i < 128 -> get_bit w i = Ok (Z.b2z (word_bit w i)).
Proof.
  intros Hw Hi. destruct (chunk_at w i Hw Hi) as (x & Hx & Hu). destruct (chunk_index i Hi) as [_ Hb].
  unfold get_bit, word_bit. rewrite Hx. simpl. f_equal. apply bit_of_shift. lia.
Qed.

Lemma insert_loop_spec lsb value bits : forall w, typed_word w ->
  (forall b, b ∈ bits -> 0 <= b /\ 0 <= lsb + b < 128) ->
  exists w', insert_loop lsb value bits w = Ok w' /\ typed_word w' /\
    forall j, 0 <= j < 128 ->
      word_bit w' j = word_bit w j || (bool_decide (j - lsb ∈ bits) && Z.testbit value (j - lsb)).
Proof.
  induction bits as [|b bits IH]; intros w Hw Hbits; simpl.
  { exists w. split; [done|]. split; [done|]. intros j _.
    by rewrite orb_false_r. }
  destruct (Hbits b ltac:(left)) as [Hb0 Hb].
  assert (Hrest : forall b, b ∈ bits -> 0 <= b /\ 0 <= lsb + b < 128)
    by (intros x Hx; apply Hbits; by right).
  rewrite bit_of_shift by done.
  assert (Hin : forall j, bool_decide (j - lsb ∈ b :: bits) = (j =? lsb + b) || bool_decide (j - lsb ∈ bits)).
  { intros j. destruct (Z.eqb_spec j (lsb + b)) as [->|Hne]; simpl.
    - apply bool_decide_eq_true_2. replace (lsb + b - lsb) with b by lia. left.
    - apply bool_decide_ext. rewrite elem_of_cons. split; [intros [?|?]; [lia|done]|by right]. }
  setoid_rewrite Hin. destruct (Z.testbit value b) eqn:Et; simpl.
  - destruct (set_bit_spec w (lsb + b) Hw Hb) as (w1 & -> & Hw1 & Hbit). simpl.
    destruct (IH w1 Hw1 Hrest) as (w2 & -> & Hw2 & Hbit2). exists w2. split; [done|]. split; [done|].
    intros j Hj. rewrite Hbit2, Hbit by done. destruct (Z.eqb_spec j (lsb + b)) as [->|]; simpl.
    + replace (lsb + b - lsb) with b by lia. rewrite Et. by rewrite !orb_true_r.
    + by rewrite orb_false_r.
  - destruct (IH w Hw Hrest) as (w2 & -> & Hw2 & Hbit2). exists w2. split; [done|]. split; [done|].
    intros j Hj. rewrite Hbit2 by done. f_equal. destruct (Z.eqb_spec j (lsb + b)) as [->|]; simpl; [|done].
    replace (lsb + b - lsb) with b by lia. rewrite Et. by rewrite andb_false_r.
Qed.

Lemma fieldLimit_spec width : 0 <= width <= 64 -> fieldLimit width = 2 ^ width - 1.
Proof.
  intros H. unfold fieldLimit. destruct (Z.eqb_spec width 64) as [->|Hne]; [done|].
  rewrite Z.shiftl_1_l. unfold wrap64. rewrite Z.mod_small; [done|].
  split; [apply Z.pow_nonneg; lia|]. apply (Z.pow_lt_mono_r 2 width 64); lia.
Qed.

(** [insertBits] checks the value and ors it in place. *)
Lemma insertBits_spec w lsb width value : typed_word w -> 0 <= lsb -> 0 <= width <= 64 ->
  lsb + width <= 128 -> value < 2 ^ width ->
  exists w', insertBits w lsb width value = Ok w' /\ typed_word w' /\
    forall j, 0 <= j < 128 -> word_bit w' j =
      word_bit w j || ((lsb <=? j) && (j <? lsb + width) && Z.testbit value (j - lsb)).
Proof.
  intros Hw Hlsb Hwidth Hfit Hv. unfold insertBits. rewrite fieldLimit_spec by done.
  rewrite (proj2 (Z.ltb_ge _ _)) by lia.
  destruct (insert_loop_spec lsb value (range width) w Hw) as (w' & -> & Hw' & Hbit).
  { intros b Hb. apply elem_of_range in Hb. lia. }
  exists w'. split; [done|]. split; [done|]. intros j Hj. rewrite Hbit by done. do 2 f_equal.
  apply eq_true_iff_eq. rewrite bool_decide_eq_true, elem_of_range. lia.
Qed.

Lemma insertBits_fits w lsb width value w' : 0 <= width <= 64 ->
  insertBits w lsb width value = Ok w' -> value < 2 ^ width.
Proof.
  intros Hwidth. unfold insertBits. rewrite fieldLimit_spec by done.
  destruct (Z.ltb_spec (2 ^ width - 1) value); [done|lia].
Qed.

Lemma extract_loop_spec w lsb bits : typed_word w ->
  (forall b, b ∈ bits -> 0 <= b < 64 /\ 0 <= lsb + b < 128) -> forall value,
  exists v, extract_loop w lsb bits value = Ok v /\
    forall k, 0 <= k -> Z.testbit v k = Z.testbit value k || (bool_decide (k ∈ bits) && word_bit w (lsb + k)).
Proof.
  intros Hw. induction bits as [|b bits IH]; intros Hbits value; simpl.
  { exists value. split; [done|]. intros k _.
    by rewrite orb_false_r. }
  destruct (Hbits b ltac:(left)) as [Hb0 Hb]. rewrite get_bit_spec by done. simpl.
  destruct (IH (fun x Hx => Hbits x (list_elem_of_further _ _ _ Hx))
    (Z.lor value (wrap64 (Z.shiftl (Z.b2z (word_bit w (lsb + b))) b)))) as (v & -> & Hv).
  exists v. split; [done|]. intros k Hk. rewrite Hv, Z.lor_spec by done. rewrite <- orb_assoc. f_equal.
  assert (Hbit : Z.testbit (wrap64 (Z.shiftl (Z.b2z (word_bit w (lsb + b))) b)) k =
    (k =? b) && word_bit w (lsb + b)).
  { unfold wrap64. change 18446744073709551616 with (2 ^ 64). destruct (word_bit w (lsb + b)); simpl.
    - rewrite Z.shiftl_1_l, Z.mod_small, Z.pow2_bits_eqb, andb_true_r by
        (try (split; [apply Z.pow_nonneg; lia|apply Z.pow_lt_mono_r; lia]); lia). apply Z.eqb_sym.
    - rewrite Z.shiftl_0_l. by rewrite Z.mod_0_l, Z.testbit_0_l, andb_false_r by lia. }
  rewrite Hbit. destruct (Z.eqb_spec k b) as [->|Hne]; simpl.
  - rewrite (bool_decide_eq_true_2 (b ∈ b :: bits)) by left. simpl.
    destruct (word_bit w (lsb + b)); simpl; [done|by rewrite andb_false_r].
  - f_equal. apply bool_decide_ext. rewrite elem_of_cons. tauto.
Qed.

(** [extractBits] reads a slice of the word. *)
Lemma extractBits_spec w lsb width : typed_word w -> 0 <= lsb -> 0 <= width <= 64 ->
  lsb + width <= 128 -> exists v, extractBits w lsb width = Ok v /\ 0 <= v < 2 ^ width /\
    forall k, 0 <= k -> Z.testbit v k = (k <? width) && word_bit w (lsb + k).
Proof.
  intros Hw Hlsb Hwidth Hfit. unfold extractBits.
  destruct (extract_loop_spec w lsb (range width) Hw) with (value := 0) as (v & -> & Hv).
  { intros b Hb. apply elem_of_range in Hb. lia. }
  assert (Hbits : forall k, 0 <= k -> Z.testbit v k = (k <? width) && word_bit w (lsb + k)).
  { intros k Hk. rewrite Hv by done. rewrite Z.testbit_0_l. simpl. f_equal.
    apply eq_true_iff_eq. rewrite bool_decide_eq_true, elem_of_range. lia. }
  exists v. split; [done|]. split; [|done].
  assert (E : v = v mod 2 ^ width).
  { apply Z.bits_inj'. intros k Hk. destruct (Z.ltb_spec k width) as [Hlt|Hge].
    - by rewrite Z.mod_pow2_bits_low by lia.
    - rewrite Z.mod_pow2_bits_high by lia. rewrite Hbits by done. by rewrite (proj2 (Z.ltb_ge _ _)). }
  rewrite E. apply Z.mod_pos_bound. apply Z.pow_pos_nonneg; lia.
Qed.

(** A word is determined by its bits. *)
Lemma word_ext w w' : typed_word w -> typed_word w' ->
  (forall i, 0 <= i < 128 -> word_bit w i = word_bit w' i) -> w = w'.
Proof.
  intros Hw Hw' Hbit. apply list_eq. intros i. destruct Hw as [Hl Hu], Hw' as [Hl' Hu'].
  destruct (decide (i < 4)%nat) as [Hi|Hi].
  2: { rewrite !lookup_ge_None_2 by lia. done. }
  destruct (lookup_lt_is_Some_2 w i) as [x Hx]; [lia|]. destruct (lookup_lt_is_Some_2 w' i) as [y Hy]; [lia|].
  rewrite Hx, Hy. f_equal.
  assert (Hxu : is_u32 x) by (apply Hu; by eapply list_elem_of_lookup_2).
  assert (Hyu : is_u32 y) by (apply Hu'; by eapply list_elem_of_lookup_2).
  assert (Hmod : forall z, is_u32 z -> z = z mod 2 ^ 32)
    by (intros z Hz; unfold is_u32, u32_max in Hz; rewrite Z.mod_small; lia).
  rewrite (Hmod x Hxu), (Hmod y Hyu). apply Z.bits_inj'. intros k Hk.
  destruct (Z.ltb_spec k 32) as [Hlt|Hge].
  - rewrite !Z.mod_pow2_bits_low by lia. specialize (Hbit (32 * Z.of_nat i + k) ltac:(lia)).
    unfold word_bit in Hbit. replace ((32 * Z.of_nat i + k) / 32) with (Z.of_nat i) in Hbit
      by (Z.to_euclidean_division_equations; lia).
    replace ((32 * Z.of_nat i + k) mod 32) with k in Hbit by (Z.to_euclidean_division_equations; lia).
    rewrite Nat2Z.id, Hx, Hy in Hbit. exact Hbit.
  - by rewrite !Z.mod_pow2_bits_high by lia.
Qed.

(** ** Well-formed layouts

    The loader checks names, ranges, overlap, cover and padding, and that codes
    fit and are distinct; that every field drives a member, every member has a
    field and no field is wider than its member is a fact of the contract. *)

Definition member_width (name : string) : Z := if bool_decide (name ∈ bool_names) then 1 else 32.

Definition field_covers (field : ControlField) (i : Z) : bool :=
  (cf_lsb field <=? i) && (i <? cf_lsb field + cf_width field).

Definition encoding_bijective (target : TargetModel) (domain : string) (width : Z) : Prop :=
  forall name v, encodingValue target domain name = Ok v <->
    encodingName target domain v = Ok name /\ 0 <= v < 2 ^ width.

Record ControlLayout_wf (target : TargetModel) : Prop := {
  cw_names : NoDup (cf_name <$> cl_fields (tm_controlLayout target));
  cw_range : forall f, f ∈ cl_fields (tm_controlLayout target) ->
    0 <= cf_lsb f /\ 0 < cf_width f <= 32 /\
    cf_lsb f + cf_width f <= cl_paddingLsb (tm_controlLayout target);
  cw_disjoint : forall f g i, f ∈ cl_fields (tm_controlLayout target) ->
    g ∈ cl_fields (tm_controlLayout target) -> field_covers f i = true -> field_covers g i = true ->
    f = g;
  cw_cover : forall i, 0 <= i < cl_paddingLsb (tm_controlLayout target) ->
    exists f, f ∈ cl_fields (tm_controlLayout target) /\ field_covers f i = true;
  cw_padding : 0 <= cl_paddingLsb (tm_controlLayout target) /\
    0 <= cl_paddingWidth (tm_controlLayout target) <= 64 /\
    cl_paddingLsb (tm_controlLayout target) + cl_paddingWidth (tm_controlLayout target) = 128 /\
    cl_paddingValue (tm_controlLayout target) = 0;
  cw_members : forall f, f ∈ cl_fields (tm_controlLayout target) ->
    match cf_encoding f with
    | Some domain => cf_name f ∈ encoding_names /\ encoding_bijective target domain (cf_width f)
    | None => cf_name f ∈ integer_names /\ cf_width f <= member_width (cf_name f)
    end;
  cw_integers : forall name, name ∈ integer_names -> exists f,
    f ∈ cl_fields (tm_controlLayout target) /\ cf_name f = name /\ cf_encoding f = None;
  cw_encodings : forall name, name ∈ encoding_names -> exists f domain,
    f ∈ cl_fields (tm_controlLayout target) /\ cf_name f = name /\ cf_encoding f = Some domain
}.

(** Members of type [unsigned] hold 32-bit values. *)
Definition typed_control (c : TileControl) : Prop :=
  forall name x, semanticInteger c name = Ok x -> is_u32 x.

Section Codec.
Context (target : TargetModel) (Hwf : ControlLayout_wf target).

Let layout := tm_controlLayout target.
Let fields := cl_fields layout.

(** Every member has a code that fits its field. *)
Definition control_fits (c : TileControl) : Prop :=
  forall f, f ∈ fields -> exists v, field_value target c f = Ok v /\ v < 2 ^ cf_width f.

Lemma field_bounds f : f ∈ fields -> 0 <= cf_lsb f /\ 0 < cf_width f <= 32 /\
  cf_lsb f + cf_width f <= cl_paddingLsb layout /\ cl_paddingLsb layout <= 128.
Proof using Hwf.
  intros Hf. pose proof (cw_range _ Hwf f Hf). pose proof (cw_padding _ Hwf). unfold layout. lia.
Qed.

Lemma field_value_nonneg c f v : typed_control c -> f ∈ fields -> field_value target c f = Ok v -> 0 <= v.
Proof using Hwf.
  intros Hc Hf Hv. pose proof (cw_members _ Hwf f Hf) as Hm. unfold field_value in Hv.
  destruct (cf_encoding f) as [d|].
  - apply bind_Ok in Hv as (name & _ & Hv). apply Hm in Hv. lia.
  - apply Hc in Hv. unfold is_u32 in Hv. lia.
Qed.

(** *** Encoding *)

Definition value_of (c : TileControl) (f : ControlField) : Z :=
  match field_value target c f with Ok v => v | Throw _ => 0 end.

(** Bit [i] of the word of [c], from the fields in [l]. *)
Definition encoded_bit (c : TileControl) (l : list ControlField) (i : Z) : bool :=
  existsb (fun f => field_covers f i && Z.testbit (value_of c f) (i - cf_lsb f)) l.

Lemma encode_fields_total c l : l ⊆ fields ->
  (forall f, f ∈ l -> exists v, field_value target c f = Ok v /\ v < 2 ^ cf_width f) ->
  forall w, typed_word w -> exists w', encode_fields target c l w = Ok w' /\ typed_word w' /\
    forall i, 0 <= i < 128 -> word_bit w' i = word_bit w i || encoded_bit c l i.
Proof using Hwf.
  induction l as [|f l IH]; intros Hsub Hfit w Hw; simpl.
  { exists w. split; [done|]. split; [done|]. intros i _. by rewrite orb_false_r. }
  destruct (Hfit f ltac:(left)) as (v & Hv & Hlt). rewrite Hv. simpl.
  pose proof (field_bounds f (Hsub f ltac:(left))).
  destruct (insertBits_spec w (cf_lsb f) (cf_width f) v Hw) as (w1 & -> & Hw1 & Hbit1); try lia. simpl.
  destruct (IH (fun x Hx => Hsub x (list_elem_of_further _ _ _ Hx))
    (fun x Hx => Hfit x (list_elem_of_further _ _ _ Hx)) w1 Hw1) as (w2 & -> & Hw2 & Hbit2).
  exists w2. split; [done|]. split; [done|]. intros i Hi. rewrite Hbit2, Hbit1 by done.
  unfold encoded_bit at 2. simpl. unfold value_of at 1. rewrite Hv. unfold field_covers at 1.
  by rewrite <- orb_assoc.
Qed.

Lemma encode_fields_fits c l : l ⊆ fields -> forall w w', encode_fields target c l w = Ok w' ->
  forall f, f ∈ l -> exists v, field_value target c f = Ok v /\ v < 2 ^ cf_width f.
Proof using Hwf.
  induction l as [|g l IH]; intros Hsub w w' H f Hf; [by apply not_elem_of_nil in Hf|]. simpl in H.
  apply bind_Ok in H as (v & Hv & H). apply bind_Ok in H as (w1 & Hw1 & H).
  pose proof (field_bounds g (Hsub g ltac:(left))).
  apply elem_of_cons in Hf as [->|Hf].
  - exists v. split; [done|]. apply insertBits_fits in Hw1; [done|lia].
  - apply (IH (fun x Hx => Hsub x (list_elem_of_further _ _ _ Hx)) w1 w' H f Hf).
Qed.

Lemma no_chunks_typed : typed_word no_chunks.
Proof using Type.
  clear. split; [done|]. intros x Hx. assert (x = 0) as ->; [|word_lia].
  unfold no_chunks in Hx. repeat (apply elem_of_cons in Hx as [->|Hx]; [done|]). by apply not_elem_of_nil in Hx.
Qed.

Lemma no_chunks_bit i : word_bit no_chunks i = false.
Proof using Type.
  clear. unfold word_bit, no_chunks. destruct (nat_of (i / 32)) as [|[|[|[|n]]]]; simpl; apply Z.testbit_0_l.
Qed.

(** The bits of the word of [c]: each field's value in place, padding zero. *)
Lemma encoded_slice c f k : f ∈ fields -> 0 <= k < cf_width f ->
  encoded_bit c fields (cf_lsb f + k) = Z.testbit (value_of c f) k.
Proof using Hwf.
  intros Hf Hk. assert (Hcov : field_covers f (cf_lsb f + k) = true) by (unfold field_covers; lia).
  apply eq_true_iff_eq. unfold encoded_bit. rewrite existsb_exists. split.
  - intros (g & Hg & H). apply list_elem_of_In in Hg. apply andb_prop in H as [Hc Hb].
    assert (g = f) as -> by (by apply (cw_disjoint _ Hwf g f (cf_lsb f + k))).
    by replace (cf_lsb f + k - cf_lsb f) with k in Hb by lia.
  - intros Hb. exists f. split; [by apply list_elem_of_In|]. rewrite Hcov.
    by replace (cf_lsb f + k - cf_lsb f) with k by lia.
Qed.

Lemma encoded_padding c i : cl_paddingLsb layout <= i -> encoded_bit c fields i = false.
Proof using Hwf.
  intros Hi. apply not_true_iff_false. unfold encoded_bit. rewrite existsb_exists.
  intros (f & Hf & H). apply list_elem_of_In in Hf. pose proof (field_bounds f Hf).
  apply andb_prop in H as [Hc _]. unfold field_covers in Hc. lia.
Qed.

Lemma padding_zero w : typed_word w ->
  (forall i, cl_paddingLsb layout <= i < 128 -> word_bit w i = false) <->
  extractBits w (cl_paddingLsb layout) (cl_paddingWidth layout) = Ok 0.
Proof using Hwf.
  intros Hw. pose proof (cw_padding _ Hwf) as (H1 & H2 & H3 & _). fold layout in H1, H2, H3.
  destruct (extractBits_spec w (cl_paddingLsb layout) (cl_paddingWidth layout) Hw) as (v & Hv & Hr & Hbit);
    try lia. rewrite Hv. split.
  - intros H. f_equal. apply Z.bits_inj'. intros k Hk. rewrite Hbit, Z.testbit_0_l by done.
    destruct (Z.ltb_spec k (cl_paddingWidth layout)); [|done]. simpl. apply H. lia.
  - intros [= ->] i Hi. specialize (Hbit (i - cl_paddingLsb layout) ltac:(lia)).
    rewrite Z.testbit_0_l in Hbit. rewrite (proj2 (Z.ltb_lt _ _)) in Hbit by lia.
    simpl in Hbit. by replace (cl_paddingLsb layout + (i - cl_paddingLsb layout)) with i in Hbit by lia.
Qed.

Lemma encode_total c : control_fits c -> exists w, encode target c = Ok w /\ typed_word w /\
  forall i, 0 <= i < 128 -> word_bit w i = encoded_bit c fields i.
Proof using Hwf.
  intros Hfit. unfold encode.
  destruct (encode_fields_total c fields ltac:(done) Hfit no_chunks no_chunks_typed) as (w & Hw & Ht & Hbit).
  setoid_rewrite no_chunks_bit in Hbit. simpl in Hbit. fold layout fields. rewrite Hw. simpl.
  rewrite (proj1 (padding_zero w Ht)); [by exists w|].
  intros i Hi. pose proof (cw_padding _ Hwf). rewrite Hbit by (unfold layout in *; lia).
  apply encoded_padding. lia.
Qed.

Lemma encode_fits c w : encode target c = Ok w -> control_fits c.
Proof using Hwf.
  unfold encode. intros H. apply bind_Ok in H as (w1 & H1 & _). intros f Hf.
  by apply (encode_fields_fits c fields ltac:(done) no_chunks w1 H1 f).
Qed.

(** *** Decoding *)

Definition slice (w : list Z) (f : ControlField) : Z :=
  match extractBits w (cf_lsb f) (cf_width f) with Ok v => v | Throw _ => 0 end.

Lemma slice_spec w f : typed_word w -> f ∈ fields ->
  extractBits w (cf_lsb f) (cf_width f) = Ok (slice w f) /\ 0 <= slice w f < 2 ^ cf_width f /\
  forall k, 0 <= k -> Z.testbit (slice w f) k = (k <? cf_width f) && word_bit w (cf_lsb f + k).
Proof using Hwf.
  intros Hw Hf. pose proof (field_bounds f Hf).
  destruct (extractBits_spec w (cf_lsb f) (cf_width f) Hw) as (v & Hv & H1 & H2); try lia.
  unfold slice. by rewrite Hv.
Qed.

(** The slice of the field is a code, if the field is encoded. *)
Definition decodable (w : list Z) (f : ControlField) : Prop :=
  forall domain, cf_encoding f = Some domain ->
    exists name, encodingName target domain (slice w f) = Ok name.

Lemma stored_small name v : 0 <= v < 2 ^ member_width name -> stored name v = v.
Proof using Type.
  clear. unfold stored, member_width. case_bool_decide; intros Hv.
  - assert (v = 0 \/ v = 1) as [-> | ->] by lia; done.
  - apply wrap32_id. unfold is_u32, u32_max. lia.
Qed.

Lemma slice_small w f : typed_word w -> f ∈ fields -> is_u32 (slice w f).
Proof using Hwf.
  intros Hw Hf. pose proof (field_bounds f Hf) as (_ & Hwd & _).
  destruct (slice_spec w f Hw Hf) as (_ & Hr & _).
  assert (2 ^ cf_width f <= 2 ^ 32) by (apply Z.pow_le_mono_r; lia). unfold is_u32, u32_max. lia.
Qed.

(** Storing a field makes the member read back as the slice, and only it. *)
Lemma store_field_spec w f c : typed_word w -> f ∈ fields -> decodable w f ->
  exists c', store_field target w f c = Ok c' /\ field_value target c' f = Ok (slice w f) /\
    forall n, n <> cf_name f -> semanticInteger c' n = semanticInteger c n /\
      semanticEncoding c' n = semanticEncoding c n.
Proof using Hwf.
  intros Hw Hf Hdec. destruct (slice_spec w f Hw Hf) as (Hex & Hr & _).
  pose proof (slice_small w f Hw Hf) as Hsmall. pose proof (cw_members _ Hwf f Hf) as Hm.
  unfold store_field, field_value. rewrite Hex. simpl. unfold decodable in Hdec.
  destruct (cf_encoding f) as [d|].
  - destruct Hm as [Hname Hbij]. destruct (Hdec d eq_refl) as [name En].
    rewrite wrap32_id by done. rewrite En. simpl.
    destruct (setSemanticEncoding_known c (cf_name f) name Hname) as [c' Hc']. rewrite Hc'.
    apply setSemanticEncoding_spec in Hc' as (_ & Hget & Hint). exists c'. split; [done|].
    destruct (proj1 (semanticEncoding_known c (cf_name f)) Hname) as [x Hx]. split.
    + rewrite (Hget _ x Hx), String.eqb_refl. simpl. by apply Hbij.
    + intros n Hn. split; [by rewrite Hint|]. destruct (semanticEncoding c n) as [y|e] eqn:Ey.
      * rewrite (Hget n y Ey). by rewrite (proj2 (String.eqb_neq _ _) Hn).
      * unfold semanticEncoding in *. destruct (entry encoding_readers n); [done|]. exact Ey.
  - destruct Hm as [Hname Hwidth].
    destruct (setSemanticInteger_known c (cf_name f) (slice w f) Hname) as [c' Hc']. rewrite Hc'.
    apply setSemanticInteger_spec in Hc' as (_ & Hget & Henc). exists c'. split; [done|].
    destruct (proj1 (semanticInteger_known c (cf_name f)) Hname) as [x Hx]. split.
    + rewrite (Hget _ x Hx), String.eqb_refl. f_equal. apply stored_small. split; [lia|].
      eapply Z.lt_le_trans; [apply Hr|]. apply Z.pow_le_mono_r; lia.
    + intros n Hn. split; [|by rewrite Henc]. destruct (semanticInteger c n) as [y|e] eqn:Ey.
      * rewrite (Hget n y Ey). by rewrite (proj2 (String.eqb_neq _ _) Hn).
      * unfold semanticInteger in *. destruct (entry integer_readers n); [done|]. exact Ey.
Qed.

Lemma field_value_frame c c' f : semanticInteger c' (cf_name f) = semanticInteger c (cf_name f) ->
  semanticEncoding c' (cf_name f) = semanticEncoding c (cf_name f) ->
  field_value target c' f = field_value target c f.
Proof using Type. clear. intros H1 H2. unfold field_value. by rewrite H1, H2. Qed.

Lemma decode_fields_total w l : typed_word w -> l ⊆ fields -> NoDup (cf_name <$> l) ->
  (forall f, f ∈ l -> decodable w f) -> forall c,
  exists c', decode_fields target w l c = Ok c' /\
    (forall f, f ∈ l -> field_value target c' f = Ok (slice w f)) /\
    forall n, n ∉ cf_name <$> l -> semanticInteger c' n = semanticInteger c n /\
      semanticEncoding c' n = semanticEncoding c n.
Proof using Hwf.
  intros Hw. induction l as [|f l IH]; intros Hsub Hnd Hdec c; simpl.
  { exists c. split; [done|]. split; [|done]. intros f Hf. by apply not_elem_of_nil in Hf. }
  rewrite fmap_cons in Hnd. apply NoDup_cons in Hnd as [Hn Hnd].
  destruct (store_field_spec w f c Hw (Hsub f ltac:(left)) (Hdec f ltac:(left))) as (c1 & -> & Hf1 & Hk1).
  simpl. destruct (IH (fun x Hx => Hsub x (list_elem_of_further _ _ _ Hx)) Hnd
    (fun x Hx => Hdec x (list_elem_of_further _ _ _ Hx)) c1) as (c2 & -> & Hf2 & Hk2).
  exists c2. split; [done|]. split.
  - intros g Hg. apply elem_of_cons in Hg as [->|Hg]; [|by apply Hf2].
    destruct (Hk2 (cf_name f) Hn) as [E1 E2]. rewrite <- Hf1. by apply field_value_frame.
  - intros n Hnn. apply not_elem_of_cons in Hnn as [H1 H2].
    destruct (Hk2 n H2) as [-> ->]. by apply Hk1.
Qed.

Lemma decode_fields_decodable w l : typed_word w -> l ⊆ fields -> forall c c',
  decode_fields target w l c = Ok c' -> forall f, f ∈ l -> decodable w f.
Proof using Hwf.
  intros Hw. induction l as [|g l IH]; intros Hsub c c' H f Hf; [by apply not_elem_of_nil in Hf|].
  simpl in H. apply bind_Ok in H as (c1 & H1 & H).
  apply elem_of_cons in Hf as [->|Hf].
  2: { apply (IH (fun x Hx => Hsub x (list_elem_of_further _ _ _ Hx)) c1 c' H f Hf). }
  intros d Ed. unfold store_field in H1. destruct (slice_spec w g Hw (Hsub g ltac:(left))) as (Hex & _).
  rewrite Hex in H1. simpl in H1. rewrite Ed in H1. apply bind_Ok in H1 as (name & Hname & _).
  exists name. by rewrite wrap32_id in Hname by (by apply slice_small; [|apply Hsub; left]).
Qed.

Lemma decode_total w : typed_word w ->
  extractBits w (cl_paddingLsb layout) (cl_paddingWidth layout) = Ok 0 ->
  (forall f, f ∈ fields -> decodable w f) ->
  exists c, decode target w = Ok c /\ forall f, f ∈ fields -> field_value target c f = Ok (slice w f).
Proof using Hwf.
  intros Hw Hpad Hdec. unfold decode. fold layout fields. rewrite Hpad. simpl.
  pose proof (cw_padding _ Hwf) as (_ & _ & _ & Hz). fold layout in Hz. rewrite Hz. simpl.
  destruct (decode_fields_total w fields Hw ltac:(done) (cw_names _ Hwf) Hdec default_control)
    as (c & -> & Hc & _). by exists c.
Qed.

Lemma decode_Ok w c : typed_word w -> decode target w = Ok c ->
  extractBits w (cl_paddingLsb layout) (cl_paddingWidth layout) = Ok 0 /\
  (forall f, f ∈ fields -> decodable w f) /\
  forall f, f ∈ fields -> field_value target c f = Ok (slice w f).
Proof using Hwf.
  intros Hw H. pose proof H as H'. unfold decode in H. fold layout fields in H.
  apply bind_Ok in H as (padding & Hp & H).
  pose proof (cw_padding _ Hwf) as (_ & _ & _ & Hz). fold layout in Hz. rewrite Hz in H.
  destruct (Z.eqb_spec padding 0) as [->|]; [|done]. simpl in H.
  assert (Hdec : forall f, f ∈ fields -> decodable w f)
    by (by apply (decode_fields_decodable w fields Hw ltac:(done) _ _ H)).
  split_and!; [done|done|].
  destruct (decode_total w Hw Hp Hdec) as (c' & Hc' & Hv). by assert (c' = c) as <- by congruence.
Qed.

(** *** Both directions *)

Lemma encode_decode c w : typed_control c -> encode target c = Ok w -> decode target w = Ok c.
Proof using Hwf.
  intros Hc Henc. pose proof (encode_fits c w Henc) as Hfit.
  destruct (encode_total c Hfit) as (w' & Henc' & Hw & Hbit). assert (w' = w) as -> by congruence.
  assert (Hslice : forall f, f ∈ fields -> field_value target c f = Ok (slice w f)).
  { intros f Hf. destruct (Hfit f Hf) as (v & Hv & Hlt). rewrite Hv. f_equal.
    pose proof (field_value_nonneg c f v Hc Hf Hv) as H0. pose proof (field_bounds f Hf).
    destruct (slice_spec w f Hw Hf) as (_ & Hr & Hs). apply Z.bits_inj'. intros k Hk. rewrite Hs by done.
    destruct (Z.ltb_spec k (cf_width f)) as [Hlt'|Hge]; simpl.
    - rewrite Hbit by lia. rewrite (encoded_slice c f k Hf) by lia. unfold value_of. by rewrite Hv.
    - rewrite <- (Z.mod_small v (2 ^ cf_width f)) by lia. by rewrite Z.mod_pow2_bits_high by lia. }
  assert (Hdec : forall f, f ∈ fields -> decodable w f).
  { intros f Hf d Ed. specialize (Hslice f Hf). unfold field_value in Hslice. rewrite Ed in Hslice.
    apply bind_Ok in Hslice as (name & _ & Hv). exists name.
    pose proof (cw_members _ Hwf f Hf) as Hm. rewrite Ed in Hm. by apply Hm in Hv as [? _]. }
  destruct (decode_total w Hw) as (c' & Hc' & Hv); [|done|].
  { apply padding_zero; [done|]. intros i Hi. pose proof (cw_padding _ Hwf) as (? & _).
    rewrite Hbit by (unfold layout in *; lia). apply encoded_padding. lia. }
  rewrite Hc'. f_equal. apply control_ext.
  - intros n Hn. destruct (cw_integers _ Hwf n Hn) as (f & Hf & <- & Ef).
    specialize (Hv f Hf). specialize (Hslice f Hf). unfold field_value in Hv, Hslice.
    rewrite Ef in Hv, Hslice. congruence.
  - intros n Hn. destruct (cw_encodings _ Hwf n Hn) as (f & d & Hf & <- & Ef).
    specialize (Hv f Hf). specialize (Hslice f Hf). unfold field_value in Hv, Hslice.
    rewrite Ef in Hv, Hslice. apply bind_Ok in Hv as (x & Hx & Hv). apply bind_Ok in Hslice as (y & Hy & Hs).
    pose proof (cw_members _ Hwf f Hf) as Hm. rewrite Ef in Hm. destruct Hm as [_ Hbij].
    apply Hbij in Hv as [Hv _], Hs as [Hs _]. congruence.
Qed.

Lemma decode_encode c w : typed_word w -> decode target w = Ok c -> encode target c = Ok w.
Proof using Hwf.
  intros Hw Hdec. destruct (decode_Ok w c Hw Hdec) as (Hpad & _ & Hv).
  assert (Hfit : control_fits c).
  { intros f Hf. exists (slice w f). split; [by apply Hv|].
    destruct (slice_spec w f Hw Hf) as (_ & Hr & _). apply Hr. }
  destruct (encode_total c Hfit) as (w' & -> & Hw' & Hbit). f_equal. apply word_ext; [done|done|].
  intros i Hi. rewrite Hbit by done. destruct (decide (i < cl_paddingLsb layout)) as [Hlt|Hge].
  - destruct (cw_cover _ Hwf i) as (f & Hf & Hcov); [unfold layout in *; lia|].
    assert (Hk : 0 <= i - cf_lsb f < cf_width f) by (unfold field_covers in Hcov; lia).
    replace i with (cf_lsb f + (i - cf_lsb f)) by lia. rewrite (encoded_slice c f) by done.
    unfold value_of. rewrite (Hv f Hf). destruct (slice_spec w f Hw Hf) as (_ & _ & Hs).
    rewrite Hs by lia. by rewrite (proj2 (Z.ltb_lt _ _)) by lia.
  - rewrite encoded_padding by lia. symmetry. apply (proj2 (padding_zero w Hw) Hpad). lia.
Qed.
End Codec.

(** ** Properties *)

(** C40: encoding and decoding are inverse to each other.  For a well-formed
    layout, a typed setting and a typed word: the setting encodes to the word
    exactly when the word decodes to the setting, so decoding never invents or
    forgets a member and encoding is injective; and a setting can be encoded
    exactly when every member has a code that fits its field. *)
Theorem control_codec (target : TargetModel) (c : TileControl) (w : list Z) :
  ControlLayout_wf target -> typed_control c -> typed_word w ->
  (encode target c = Ok w <-> decode target w = Ok c) /\
  (control_fits target c <-> exists w', encode target c = Ok w').
Proof.
  intros Hwf Hc Hw. split; split.
  - by apply encode_decode.
  - by apply decode_encode.
  - intros Hfit. destruct (encode_total target Hwf c Hfit) as (w' & Hw' & _). by exists w'.
  - intros (w' & Hw'). by apply (encode_fits target Hwf c w').
Qed.

(** *** The checked-in contract *)

Lemma encoding_bijective_maps target domain width values names :
  tm_encodings target !! domain = Some values -> tm_reverseEncodings target !! domain = Some names ->
  map_Forall (fun name v => names !! v = Some name /\ 0 <= v < 2 ^ width) values ->
  map_Forall (fun v name => values !! name = Some v) names ->
  encoding_bijective target domain width.
Proof.
  intros Hv Hn H1 H2 name v. unfold encodingValue, encodingName. rewrite Hv, Hn. simpl.
  rewrite !of_option_Ok. split; [by apply H1|]. intros [H _]. by apply H2 in H.
Qed.

Definition v2_member_ok (f : ControlField) : bool :=
  match cf_encoding f with
  | Some domain =>
      bool_decide (cf_name f ∈ encoding_names) &&
      match tm_encodings cgra_v2 !! domain, tm_reverseEncodings cgra_v2 !! domain with
      | Some values, Some names =>
          bool_decide (map_Forall (fun name v => names !! v = Some name /\ 0 <= v < 2 ^ cf_width f) values) &&
          bool_decide (map_Forall (fun v name => values !! name = Some v) names)
      | _, _ => false
      end
  | None => bool_decide (cf_name f ∈ integer_names) && (cf_width f <=? member_width (cf_name f))
  end.

Lemma v2_members : forallb v2_member_ok v2_fields = true.
Proof. vm_compute. reflexivity. Qed.

Lemma cgra_v2_layout : ControlLayout_wf cgra_v2.
Proof.
  split.
  - apply (bool_decide_unpack _). vm_compute. exact I.
  - apply Forall_forall. repeat constructor; vm_compute; congruence.
  - assert (H : forallb (fun i => length (List.filter (fun f => field_covers f i) v2_fields) =? 1)%nat
      (range 126) = true) by (vm_compute; reflexivity).
    intros f g i Hf Hg Hfi Hgi. rewrite forallb_forall in H.
    assert (Hi : 0 <= i < 126).
    { assert (Hr : Forall (fun f => 0 <= cf_lsb f /\ cf_lsb f + cf_width f <= 126) v2_fields)
        by (repeat constructor; vm_compute; congruence).
      rewrite Forall_forall in Hr. specialize (Hr f Hf). unfold field_covers in Hfi. lia. }
    specialize (H i (proj1 (list_elem_of_In _ _) (proj2 (elem_of_range 126 i) Hi))).
    apply Nat.eqb_eq in H. destruct (List.filter _ v2_fields) as [|x [|y l]] eqn:E; try done.
    assert (Hone : forall z, z ∈ v2_fields -> field_covers z i = true -> z = x).
    { intros z Hz Hzi. assert (Hin : In z (List.filter (fun f => field_covers f i) v2_fields))
        by (apply filter_In; split; [by apply list_elem_of_In|done]).
      rewrite E in Hin. by destruct Hin as [->|[]]. }
    by rewrite (Hone f), (Hone g).
  - intros i Hi. assert (H : forallb (fun i => existsb (fun f => field_covers f i) v2_fields) (range 126) = true)
      by (vm_compute; reflexivity).
    rewrite forallb_forall in H. specialize (H i (proj1 (list_elem_of_In _ _) (proj2 (elem_of_range 126 i) Hi))).
    apply existsb_exists in H as (f & Hf & Hc). exists f. split; [by apply list_elem_of_In|done].
  - vm_compute. repeat split; congruence.
  - intros f Hf. pose proof v2_members as H. rewrite forallb_forall in H.
    specialize (H f (proj1 (list_elem_of_In _ _) Hf)). unfold v2_member_ok in H.
    destruct (cf_encoding f) as [d|].
    + apply andb_prop in H as [H1 H2]. apply bool_decide_eq_true in H1. split; [done|].
      destruct (tm_encodings cgra_v2 !! d) eqn:E1; [|done].
      destruct (tm_reverseEncodings cgra_v2 !! d) eqn:E2; [|done].
      apply andb_prop in H2 as [H2 H3]. apply bool_decide_eq_true in H2, H3.
      by apply (encoding_bijective_maps _ _ _ _ _ E1 E2).
    + apply andb_prop in H as [H1 H2]. apply bool_decide_eq_true in H1. split; [done|lia].
  - intros n Hn. assert (H : forallb (fun n => existsb (fun f => String.eqb (cf_name f) n &&
      bool_decide (cf_encoding f = None)) v2_fields) integer_names = true) by (vm_compute; reflexivity).
    rewrite forallb_forall in H. specialize (H n (proj1 (list_elem_of_In _ _) Hn)).
    apply existsb_exists in H as (f & Hf & Hc). apply andb_prop in Hc as [H1 H2].
    exists f. split_and!; [by apply list_elem_of_In|by apply String.eqb_eq|by apply bool_decide_eq_true in H2].
  - intros n Hn. assert (H : forallb (fun n => existsb (fun f => String.eqb (cf_name f) n &&
      bool_decide (is_Some (cf_encoding f))) v2_fields) encoding_names = true) by (vm_compute; reflexivity).
    rewrite forallb_forall in H. specialize (H n (proj1 (list_elem_of_In _ _) Hn)).
    apply existsb_exists in H as (f & Hf & Hc). apply andb_prop in Hc as [H1 H2].
    apply bool_decide_eq_true in H2 as [d Ed]. exists f, d.
    split_and!; [by apply list_elem_of_In|by apply String.eqb_eq|done].
Qed.

Lemma v2_control_typed : typed_control v2_control.
Proof.
  intros name x Hx. unfold semanticInteger in Hx. apply bind_Ok in Hx as (r & Hr & Hx). injection Hx as <-.
  apply entry_Ok in Hr; [|apply integer_readers_NoDup].
  assert (H : Forall (fun r => is_u32 (r.2 v2_control)) integer_readers)
    by (repeat constructor; vm_compute; congruence).
  rewrite Forall_forall in H. exact (H _ Hr).
Qed.

Lemma control_codec_witness :
  let w := [1956354; 3221749824; 45057; 478680064] in
  (encode cgra_v2 v2_control = Ok w <-> decode cgra_v2 w = Ok v2_control) /\
  (control_fits cgra_v2 v2_control <-> exists w', encode cgra_v2 v2_control = Ok w').
Proof.
  apply (control_codec cgra_v2).
  - exact cgra_v2_layout.
  - exact v2_control_typed.
  - split; [reflexivity|]. apply Forall_forall. repeat constructor; vm_compute; congruence.
Defined.
