(* ===== verification/TargetLoader.v ===== *)
(** * The contract loader

    [TargetModel::loadFromFile] of [compiler/lib/Target/TargetModel.cpp]: from the JSON
    value of a target contract to a [TargetModel].

    The JSON library is third-party code: a [Json] class has the operations the loader
    calls, and every definition takes an instance.  Every rejection throws a
    [runtime_error]; its text is left out.  A set that holds just the elements of a list
    is that list, and the vector of covered bits the set of those that are. *)
From stdpp Require Import base numbers list gmap strings.
From S2P Require Import Prelude.
From S2P Require Import IR.
From S2P Require Import TargetModel.
From S2P Require Import ControlLayout.

(** ** The JSON library *)

(** [contains] is false and [elements] and [items] are empty on values of other kinds;
    objects iterate in the order of their keys.  The conversions [get] throw on values of
    a wrong type, and [at] on a missing key. *)
Class Json (json : Type) := {
  js_contains : json -> string -> bool;
  js_at : json -> string -> result json;
  js_is_object : json -> bool;
  js_is_array : json -> bool;
  js_is_string : json -> bool;
  js_is_number_unsigned : json -> bool;
  js_is_number_integer : json -> bool;
  js_elements : json -> list json;
  js_items : json -> list (string * json);
  js_get_bool : json -> result bool;
  js_get_string : json -> result string;
  js_get_strings : json -> result (list string);
  js_get_u32 : json -> result Z;
  js_get_u64 : json -> result Z;
  js_get_i64 : json -> result Z
}.

(** [fail]. *)
Definition fail {A} : result A := Throw RuntimeError.

Definition unless {A} (bad : bool) (k : result A) : result A := if bad then fail else k.

(** A [catch] that fails. *)
Definition caught_fail {A} (r : result A) : result A := match r with Ok a => Ok a | Throw _ => fail end.

(** A loop that stops at the first rejection. *)
Fixpoint fold_result {A S} (f : S -> A -> result S) (s : S) (l : list A) : result S :=
  match l with
  | [] => Ok s
  | x :: l => s ← f s x; fold_result f s l
  end.

(** [unordered_map::emplace] keeps what is there. *)
Definition map_emplace {V} (key : string) (value : V) (m : gmap string V) : gmap string V :=
  match m !! key with Some _ => m | None => <[key := value]> m end.
Definition map_emplace_Z {V} (key : Z) (value : V) (m : gmap Z V) : gmap Z V :=
  match m !! key with Some _ => m | None => <[key := value]> m end.

Section Loader.
Context {json : Type} `{Json json}.

(** ** Members *)

Definition requiredObject (parent : json) (key : string) : result json :=
  unless (negb (js_contains parent key)) (
    value ← js_at parent key;
    unless (negb (js_is_object value)) (Ok value)).

Definition requiredArray (parent : json) (key : string) : result (list json) :=
  unless (negb (js_contains parent key)) (
    value ← js_at parent key;
    unless (negb (js_is_array value)) (Ok (js_elements value))).

Definition required {A} (get : json -> result A) (parent : json) (key : string) : result A :=
  unless (negb (js_contains parent key)) (caught_fail (value ← js_at parent key; get value)).

Definition positiveUnsigned (parent : json) (key : string) : result Z :=
  value ← required js_get_u64 parent key;
  unless (value =? 0) (unless (u32_max <? value) (Ok value)).

(** A member that may be absent. *)
Definition optional {A} (get : json -> string -> result A) (parent : json) (key : string) : result (option A) :=
  if js_contains parent key then value ← get parent key; Ok (Some value) else Ok None.

(** ** Register files *)

Definition parseReadWritePolicy (value : string) : result SameAddressReadWritePolicy :=
  if String.eqb value "illegal" then Ok Forbidden
  else if String.eqb value "read_old_then_write_new" then Ok ReadOldThenWriteNew
  else if String.eqb value "write_new_then_read" then Ok WriteNewThenRead
  else fail.

Definition index_step (depth : Z) (indices : list Z) (value : json) : result (list Z) :=
  index ← js_get_u32 value;
  unless (depth <=? index) (unless (bool_decide (index ∈ indices)) (Ok (indices ++ [index]))).

Definition parse_indices (file : json) (depth : Z) : result (list Z) :=
  if js_contains file "allocatable_indices" then
    indices ← js_at file "allocatable_indices";
    unless (negb (js_is_array indices) || bool_decide (js_elements indices = []))
      (fold_result (index_step depth) [] (js_elements indices))
  else Ok (range depth).

Definition tile_step (rows cols : Z) (tiles : list (Z * Z)) (tile : json) : result (list (Z * Z)) :=
  if negb (js_is_array tile) then fail
  else
    match js_elements tile with
    | [first; second] =>
        row ← js_get_u32 first;
        col ← js_get_u32 second;
        unless ((rows <=? row) || (cols <=? col))
          (unless (bool_decide ((row, col) ∈ tiles)) (Ok (tiles ++ [(row, col)])))
    | _ => fail
    end.

Definition parse_tiles (file : json) (rows cols : Z) : result (list (Z * Z)) :=
  if js_contains file "applicable_tiles" then
    tiles ← js_at file "applicable_tiles";
    unless (negb (js_is_array tiles) || bool_decide (js_elements tiles = []))
      (tiles ← fold_result (tile_step rows cols) [] (js_elements tiles); Ok (sort_by_pair id tiles))
  else Ok [].

Definition source_step (sources : list string) (source : json) : result (list string) :=
  unless (negb (js_is_string source)) (name ← js_get_string source; Ok (sources ++ [name])).

Definition write_port_step (ports : gmap string (list string)) (item : string * json)
  : result (gmap string (list string)) :=
  let '(port, sources) := item in
  if negb (js_is_object sources) || negb (js_contains sources "sources") then fail
  else
    array ← js_at sources "sources";
    unless (negb (js_is_array array) || bool_decide (js_elements array = []))
      (names ← fold_result source_step (default [] (ports !! port)) (js_elements array);
       Ok (<[port := names]> ports)).

Definition parseRegisterFile (root : json) (key : string) (domain : RegisterBankDomain) (rows cols : Z)
  : result RegisterFileDesc :=
  file ← requiredObject root key;
  depth ← positiveUnsigned file "depth";
  readPorts ← positiveUnsigned file "read_ports";
  writePorts ← positiveUnsigned file "write_ports";
  readWrite ← required js_get_string file "same_cycle_read_write_same_address";
  multiwrite ← required js_get_string file "same_cycle_multiwrite_same_address";
  policy ← parseReadWritePolicy readWrite;
  unless (negb (String.eqb multiwrite "illegal")) (
    indices ← parse_indices file depth;
    tiles ← parse_tiles file rows cols;
    ports ← requiredObject file "write_ports_detail";
    portSources ← fold_result write_port_step ∅ (js_items ports);
    unless (negb (Z.of_nat (size portSources) =? writePorts))
      (Ok (mkRegisterFileDesc key domain depth readPorts writePorts readWrite multiwrite policy
             indices tiles portSources))).

Definition requireEqual (lhs rhs : Z) : result unit := unless (negb (lhs =? rhs)) (Ok tt).

Definition validateWritePortNames (desc : RegisterFileDesc) : result unit :=
  unless (negb (Z.of_nat (size (rf_writePortSources desc)) =? rf_writePorts desc))
    (fold_result (fun _ index =>
       unless (bool_decide (rf_writePortSources desc !! ("W" ++ to_string index)%string = None)) (Ok tt))
       tt (range (rf_writePorts desc))).

Definition write_source_step (symbols : gmap string Z) (seen : list string) (source : string)
  : result (list string) :=
  unless (bool_decide (source ∈ seen))
    (unless (bool_decide (symbols !! source = None)) (Ok (seen ++ [source]))).

Definition validateWritePortSource (desc : RegisterFileDesc) (port sourceDomain : string)
    (encodings : gmap string (gmap string Z)) : result unit :=
  symbols ← of_option RuntimeError (encodings !! sourceDomain);
  sources ← of_option OutOfRange (rf_writePortSources desc !! port);
  _ ← fold_result (write_source_step symbols) [] sources;
  Ok tt.

(** ** Array, interconnect, memory *)

Definition parse_array (root : json) : result ArrayDesc :=
  array ← requiredObject root "array";
  rows ← positiveUnsigned array "rows";
  cols ← positiveUnsigned array "cols";
  dataWidth ← positiveUnsigned array "data_width";
  predicateWidth ← positiveUnsigned array "predicate_width";
  hardwareBranch ← required js_get_bool array "hardware_branch";
  Ok (mkArrayDesc rows cols dataWidth predicateWidth hardwareBranch).

Definition parse_constant_depth (root : json) : result Z :=
  if js_contains root "parameters" then
    parameters ← js_at root "parameters";
    if js_is_object parameters && js_contains parameters "const_mem_depth"
    then positiveUnsigned parameters "const_mem_depth"
    else Ok 0
  else Ok 0.

Definition parseNetworkDomain (network : json) (key : string) (desc : InterconnectDesc) : result InterconnectDesc :=
  domain ← requiredObject network key;
  separate ← required js_get_bool domain "separate_resource_domain";
  channels ← positiveUnsigned domain "channels_per_direction_per_link";
  unless (negb separate) (unless (negb (channels =? 1))
    (Ok (mkInterconnectDesc (net_topology desc) (net_registeredLinks desc) (net_hopLatency desc)
           (net_inputBuffering desc) (net_runtimeArbitration desc) (net_compilerRouted desc) separate channels))).

Definition parse_interconnect (root : json) : result InterconnectDesc :=
  network ← requiredObject root "interconnect";
  topology ← required js_get_string network "topology";
  registered ← required js_get_bool network "registered_links";
  hop ← positiveUnsigned network "hop_latency";
  buffering ← required js_get_bool network "input_buffering";
  arbitration ← required js_get_bool network "runtime_arbitration";
  routed ← required js_get_bool network "compiler_routed";
  unless (negb (String.eqb topology "mesh_2d") && negb (String.eqb topology "disconnected")) (
    unless (negb registered || buffering || arbitration || negb routed) (
      data ← parseNetworkDomain network "data_network"
               (mkInterconnectDesc topology registered hop buffering arbitration routed false 0);
      predicate ← parseNetworkDomain network "predicate_network" data;
      unless (negb (Bool.eqb (net_separateResourceDomain predicate) (net_separateResourceDomain data)) ||
              negb (net_channelsPerDirectionPerLink predicate =? net_channelsPerDirectionPerLink data)) (Ok data))).

Definition parse_memory (root : json) : result MemoryDesc :=
  memory ← requiredObject root "memory";
  model ← required js_get_string memory "model";
  unit ← required js_get_string memory "address_unit";
  depth ← positiveUnsigned memory "depth";
  width ← positiveUnsigned memory "width_bits";
  ports ← positiveUnsigned memory "ports";
  latency ← positiveUnsigned memory "load_latency";
  perLsu ← positiveUnsigned memory "max_issue_per_lsu_per_cycle";
  perPort ← positiveUnsigned memory "max_issue_per_port_per_cycle";
  separation ← requiredObject memory "dependence_separation";
  raw ← positiveUnsigned separation "RAW";
  war ← positiveUnsigned separation "WAR";
  waw ← positiveUnsigned separation "WAW";
  policy ← required js_get_string memory "same_address_policy";
  stall ← required js_get_bool memory "runtime_stall";
  arbitration ← required js_get_bool memory "runtime_arbitration";
  unless (negb (String.eqb model "shared_multiport_scratchpad")) (
    unless (negb (String.eqb unit "word")) (
      unless (negb (String.eqb policy "multi_load_only")) (
        unless (stall || arbitration)
          (Ok (mkMemoryDesc model unit depth width ports latency perLsu perPort raw war waw policy stall arbitration))))).

(** ** The legacy views *)

Definition legacy_name_step (latencies : json) (_ : unit) (item : json) : result unit :=
  unless (negb (js_is_string item)) (
    name ← js_get_string item;
    unless (negb (js_contains latencies name)) (Ok tt)).

(** The latencies of the legacy operations, for the check at the end. *)
Definition check_legacy (root : json) : result json :=
  latencies ← requiredObject root "latencies";
  fuLatencies ← requiredObject latencies "fu_ops";
  offsets ← requiredObject latencies "producer_output_ready_offsets";
  occupancies ← requiredObject latencies "issue_occupancy";
  _ ← required js_get_u32 offsets "fu";
  _ ← required js_get_u32 offsets "load";
  _ ← positiveUnsigned occupancies "fu";
  _ ← positiveUnsigned occupancies "load";
  _ ← positiveUnsigned occupancies "store";
  ops ← requiredObject root "ops";
  _ ← fold_result (fun _ key => names ← requiredArray ops key; fold_result (legacy_name_step fuLatencies) tt names)
        tt ["data"; "compare"; "predicate"];
  compatibility ← requiredObject root "operation_compatibility";
  status ← required js_get_string compatibility "status";
  unless (negb (String.eqb status "legacy_compatibility_view")) (
    section ← required js_get_string compatibility "authoritative_section";
    unless (negb (String.eqb section "operations")) (Ok fuLatencies)).

Definition latency_step (_ : unit) (item : string * json) : result unit :=
  unless (negb (js_is_number_unsigned item.2) && negb (js_is_number_integer item.2)) (
    value ← js_get_i64 item.2;
    unless (value <? 0) (Ok tt)).

(** ** Operations *)

Definition operand_step (st : list TargetOperandDesc * bool) (operand : json)
  : result (list TargetOperandDesc * bool) :=
  let '(operands, optionalSeen) := st in
  unless (negb (js_is_object operand)) (
    role ← caught_fail (name ← required js_get_string operand "role"; targetOperandRoleFromString name);
    may_miss ← (if js_contains operand "optional" then required js_get_bool operand "optional" else Ok false);
    if (may_miss : bool) then Ok (operands ++ [mkTargetOperandDesc role true], true)
    else unless optionalSeen (Ok (operands ++ [mkTargetOperandDesc role false], optionalSeen))).

Definition sink_step (sinks : list (Z * TargetControlSink)) (item : json)
  : result (list (Z * TargetControlSink)) :=
  unless (negb (js_is_string item)) (
    sink ← caught_fail (name ← js_get_string item; targetControlSinkFromString name);
    unless (bool_decide (sink ∈ sinks.*2)) (Ok (sinks ++ [(wrap32 (Z.of_nat (length sinks)), sink)]))).

(** The sink of a legacy operand, and the counters after it. *)
Definition legacy_sink (class : TargetExecutionClass) (role : TargetOperandRole) (dataIndex predicateIndex : Z)
  : TargetControlSink * Z * Z :=
  match role, class with
  | RoleData, LSU => (LsuStoreData, dataIndex, predicateIndex)
  | RoleData, FU => (if dataIndex =? 0 then FuDataA else FuDataB, wrap32 (dataIndex + 1), predicateIndex)
  | RolePredicate, LSU => (LsuCommitPredicate, dataIndex, predicateIndex)
  | RolePredicate, FU =>
      (if predicateIndex =? 0 then FuPredicate0 else FuPredicate1, dataIndex, wrap32 (predicateIndex + 1))
  | RoleAddress, _ => (LsuAddress, dataIndex, predicateIndex)
  end.

Fixpoint legacy_sinks (class : TargetExecutionClass) (dataIndex predicateIndex : Z)
    (sinks : list (Z * TargetControlSink)) (operands : list TargetOperandDesc) : list (Z * TargetControlSink) :=
  match operands with
  | [] => sinks
  | operand :: operands =>
      let '(sink, dataIndex, predicateIndex) := legacy_sink class (od_role operand) dataIndex predicateIndex in
      legacy_sinks class dataIndex predicateIndex (sinks ++ [(wrap32 (Z.of_nat (length sinks)), sink)]) operands
  end.

Definition legacy_source (class : TargetExecutionClass) (role : TargetResultRole) : TargetResultSource :=
  match role, class with
  | ResData, LSU => LsuLoadData
  | ResData, FU => FuDataResult
  | ResPredicate, _ => FuPredicateResult
  | ResVoid, _ => SrcNone
  end.

Definition parse_lowering (explicit : bool) (descriptor : json) (class : TargetExecutionClass)
    (role : TargetResultRole) (operands : list TargetOperandDesc)
  : result (list (Z * TargetControlSink) * TargetResultSource) :=
  if js_contains descriptor "lowering" then
    lowering ← requiredObject descriptor "lowering";
    sinks ← requiredArray lowering "operand_sinks";
    unless (negb (length sinks =? length operands)%nat) (
      sinks ← fold_result sink_step [] sinks;
      source ← caught_fail (name ← required js_get_string lowering "result_source"; targetResultSourceFromString name);
      Ok (sinks, source))
  else unless explicit (Ok (legacy_sinks class 0 0 [] operands, legacy_source class role)).

Definition sink_of_role (role : TargetOperandRole) (sink : TargetControlSink) : bool :=
  match role with
  | RoleData => bool_decide (sink ∈ [FuDataA; FuDataB; LsuStoreData])
  | RolePredicate => bool_decide (sink ∈ [FuPredicate0; FuPredicate1; LsuCommitPredicate])
  | RoleAddress => bool_decide (sink = LsuAddress)
  end.
Definition lsu_sink (sink : TargetControlSink) : bool :=
  bool_decide (sink ∈ [LsuAddress; LsuStoreData; LsuCommitPredicate]).

(** The index is that of an operand, so the read never fails. *)
Definition sink_check (class : TargetExecutionClass) (operands : list TargetOperandDesc) (_ : unit)
    (item : Z * TargetControlSink) : result unit :=
  operand ← of_option OutOfRange (operands !! nat_of item.1);
  unless (negb (sink_of_role (od_role operand) item.2))
    (unless (negb (Bool.eqb (bool_decide (class = LSU)) (lsu_sink item.2))) (Ok tt)).

Definition valid_source (class : TargetExecutionClass) (role : TargetResultRole) (source : TargetResultSource) : bool :=
  match role, class, source with
  | ResVoid, _, SrcNone => true
  | ResData, FU, FuDataResult => true
  | ResPredicate, FU, FuPredicateResult => true
  | ResData, LSU, LsuLoadData => true
  | _, _, _ => false
  end.

(** The timing of a result: both members or, for operations without one, neither. *)
Definition timing_rejected (role : TargetResultRole) (latency offset : option Z) : bool :=
  if bool_decide (role = ResVoid) then bool_decide (is_Some latency) || bool_decide (is_Some offset)
  else bool_decide (latency = None) || bool_decide (offset = None).

Definition result_type (dataWidth : Z) (role : TargetResultRole) : ValueType :=
  match role with
  | ResData => vt_integer (wrap16 dataWidth)
  | ResPredicate => vt_predicate
  | ResVoid => voidTy
  end.

Definition parse_operation (explicit : bool) (dataWidth : Z) (name : string) (descriptor : json)
  : result TargetOperationDesc :=
  class ← caught_fail (text ← required js_get_string descriptor "execution_class"; targetExecutionClassFromString text);
  operandJson ← requiredArray descriptor "operands";
  '(operands, _) ← fold_result operand_step ([], false) operandJson;
  encodingJson ← requiredObject descriptor "encoding";
  domain ← required js_get_string encodingJson "domain";
  symbol ← required js_get_string encodingJson "symbol";
  unless (String.eqb domain "" || String.eqb symbol "") (
    resultJson ← requiredObject descriptor "result";
    role ← caught_fail (text ← required js_get_string resultJson "role"; targetResultRoleFromString text);
    '(sinks, source) ← parse_lowering explicit descriptor class role operands;
    occupancy ← positiveUnsigned descriptor "issue_occupancy";
    latency ← optional positiveUnsigned descriptor "result_latency";
    offset ← optional (required js_get_u32) descriptor "producer_output_ready_offset";
    width ← optional positiveUnsigned descriptor "memory_access_width_bits";
    unless (timing_rejected role latency offset) (
      unless (negb (Bool.eqb (bool_decide (class = LSU)) (bool_decide (is_Some width)))) (
        _ ← fold_result (sink_check class operands) tt sinks;
        unless (negb (valid_source class role source))
          (Ok (mkTargetOperationDesc name class operands role (result_type dataWidth role) occupancy latency
                 offset width (Some (mkTargetEncodingRef domain symbol)) sinks source))))).

Definition operation_step (explicit : bool) (dataWidth : Z) (st : list TargetOperationDesc * gmap string nat)
    (item : string * json) : result (list TargetOperationDesc * gmap string nat) :=
  let '(operations, indices) := st in
  let '(name, descriptor) := item in
  unless (String.eqb name "") (
    unless (negb (js_is_object descriptor)) (
      operation ← parse_operation explicit dataWidth name descriptor;
      Ok (operations ++ [operation], map_emplace name (length operations) indices))).

Definition parse_operations (explicit : bool) (dataWidth : Z) (root : json)
  : result (list TargetOperationDesc * gmap string nat) :=
  operationJson ← requiredObject root "operations";
  unless (bool_decide (js_items operationJson = []))
    (fold_result (operation_step explicit dataWidth) ([], ∅) (js_items operationJson)).

(** [findOperation] while the model is being built. *)
Definition find_operation (operations : list TargetOperationDesc) (indices : gmap string nat) (name : string)
  : option TargetOperationDesc :=
  index ← indices !! name; operations !! index.

(** ** Tile capabilities *)

(** A name is added to a set of functional-unit operations. *)
Definition capability_step (operations : list TargetOperationDesc) (indices : gmap string nat)
    (supported : gset string) (item : json) : result (gset string) :=
  unless (negb (js_is_string item)) (
    name ← js_get_string item;
    match find_operation operations indices name with
    | Some operation =>
        unless (negb (bool_decide (op_executionClass operation = FU)))
          (unless (bool_decide (name ∈ supported)) (Ok ({[name]} ∪ supported)))
    | None => fail
    end).

Definition override_step (operations : list TargetOperationDesc) (indices : gmap string nat) (rows cols : Z)
    (overrides : gmap Z (gset string)) (item : json) : result (gmap Z (gset string)) :=
  unless (negb (js_is_object item)) (
    row ← required js_get_u32 item "row";
    col ← required js_get_u32 item "col";
    unless ((rows <=? row) || (cols <=? col)) (
      unless (bool_decide (is_Some (overrides !! tileKey row col))) (
        operationJson ← requiredArray item "operations";
        supported ← fold_result (capability_step operations indices) ∅ operationJson;
        Ok (<[tileKey row col := supported]> overrides)))).

(** Every functional-unit operation by default, without overrides. *)
Definition default_capabilities (operations : list TargetOperationDesc) : gset string :=
  list_to_set (op_id <$> filter (fun op => op_executionClass op = FU) operations).

Definition parse_capabilities (root : json) (operations : list TargetOperationDesc) (indices : gmap string nat)
    (rows cols : Z) : result (gset string * gmap Z (gset string)) :=
  if js_contains root "tile_capabilities" then
    capabilities ← requiredObject root "tile_capabilities";
    defaults ← requiredArray capabilities "default_fu_operations";
    supported ← fold_result (capability_step operations indices) ∅ defaults;
    items ← requiredArray capabilities "overrides";
    overrides ← fold_result (override_step operations indices rows cols) ∅ items;
    Ok (supported, overrides)
  else Ok (default_capabilities operations, ∅).

(** [LOAD] and [STORE] have to be there with the memory's width. *)
Definition check_memory_operation (operations : list TargetOperationDesc) (indices : gmap string nat)
    (width : Z) (name : string) (type : ValueType) : result unit :=
  match find_operation operations indices name with
  | None => fail
  | Some operation =>
      unless (negb (bool_decide (op_executionClass operation = LSU)) ||
              negb (bool_decide (op_resultType operation = type)) ||
              negb (bool_decide (op_accessWidthBits operation = Some width))) (Ok tt)
  end.

(** ** Loop execution *)

Definition parse_loop (root : json) : result LoopExecutionDesc :=
  loop ← requiredObject root "loop_execution";
  supported ← required js_get_bool loop "supported";
  model ← required js_get_string loop "model";
  phases ← required js_get_strings loop "control_phases";
  rotating ← required js_get_bool loop "rotating_registers";
  counter ← required js_get_bool loop "loop_counter_operand";
  recurrence ← required js_get_bool loop "same_address_rf_read_write_recurrence";
  unless (negb supported || negb (String.eqb model "finite_modulo_replay")) (
    unless (negb (bool_decide (phases = ["prologue"; "kernel"; "epilogue"]))) (
      unless (rotating || counter || recurrence)
        (Ok (mkLoopExecutionDesc supported model phases rotating counter recurrence)))).

(** ** Encodings *)

Definition symbol_step (st : gmap string Z * gmap Z string) (item : string * json)
  : result (gmap string Z * gmap Z string) :=
  let '(values, names) := st in
  unless (negb (js_is_number_unsigned item.2) && negb (js_is_number_integer item.2)) (
    value ← js_get_i64 item.2;
    unless ((value <? 0) || (u32_max <? value)) (
      unless (bool_decide (is_Some (names !! value)))
        (Ok (map_emplace item.1 value values, map_emplace_Z value item.1 names)))).

Definition domain_step (st : gmap string (gmap string Z) * gmap string (gmap Z string)) (item : string * json)
  : result (gmap string (gmap string Z) * gmap string (gmap Z string)) :=
  let '(encodings, reverse) := st in
  let '(domain, entries) := item in
  unless (negb (js_is_object entries) || bool_decide (js_items entries = [])) (
    '(values, names) ← fold_result symbol_step (∅, ∅) (js_items entries);
    Ok (<[domain := values]> encodings, <[domain := names]> reverse)).

Definition parse_encodings (root : json)
  : result (gmap string (gmap string Z) * gmap string (gmap Z string)) :=
  encodings ← requiredObject root "encodings";
  fold_result domain_step (∅, ∅) (js_items encodings).

Definition encoding_check (encodings : gmap string (gmap string Z)) (_ : unit) (operation : TargetOperationDesc)
  : result unit :=
  binding ← of_option RuntimeError (op_encoding operation);
  symbols ← of_option RuntimeError (encodings !! enc_domain binding);
  unless (bool_decide (symbols !! enc_symbol binding = None)) (
    unless (negb (Bool.eqb (bool_decide (op_executionClass operation = LSU))
                           (String.eqb (enc_domain binding) "lsu_op"))) (Ok tt)).

Definition check_write_ports (data predicate : RegisterFileDesc) (encodings : gmap string (gmap string Z))
  : result unit :=
  _ ← validateWritePortNames data;
  _ ← validateWritePortNames predicate;
  _ ← validateWritePortSource data "W0" "route_data_source" encodings;
  _ ← (if 1 <? rf_writePorts data then validateWritePortSource data "W1" "data_source" encodings else Ok tt);
  _ ← validateWritePortSource predicate "W0" "route_predicate_source" encodings;
  if 1 <? rf_writePorts predicate then validateWritePortSource predicate "W1" "predicate_source" encodings
  else Ok tt.

(** ** The control layout *)

Definition cover_step (covered : gset Z) (bit : Z) : result (gset Z) :=
  unless (bool_decide (bit ∈ covered)) (Ok ({[bit]} ∪ covered)).

(** The encoding of a field; every value of its domain fits the field. *)
Definition parse_field_encoding (encodings : gmap string (gmap string Z)) (fieldJson : json) (width : Z)
  : result (option string) :=
  if js_contains fieldJson "encoding" then
    domain ← required js_get_string fieldJson "encoding";
    symbols ← of_option RuntimeError (encodings !! domain);
    let limit := if 64 <=? width then u64_max else Z.shiftl 1 width - 1 in
    unless (existsb (fun item => (width <? 64) && (limit <? item.2)) (map_to_list symbols)) (Ok (Some domain))
  else Ok None.

Record FieldState := mkFieldState {
  fs_covered : gset Z;
  fs_fields : list ControlField;
  fs_indices : gmap string nat
}.

Definition field_step (encodings : gmap string (gmap string Z)) (rawWidth : Z) (st : FieldState) (fieldJson : json)
  : result FieldState :=
  unless (negb (js_is_object fieldJson)) (
    name ← required js_get_string fieldJson "name";
    lsb ← required js_get_u32 fieldJson "lsb";
    width ← positiveUnsigned fieldJson "width";
    unless (String.eqb name "") (
      unless ((rawWidth <? lsb) || (rawWidth - lsb <? width)) (
        unless (bool_decide (is_Some (fs_indices st !! name))) (
          covered ← fold_result cover_step (fs_covered st) (seqZ lsb width);
          encoding ← parse_field_encoding encodings fieldJson width;
          Ok (mkFieldState covered (fs_fields st ++ [mkControlField name lsb width encoding])
                (map_emplace name (length (fs_fields st)) (fs_indices st))))))).

Definition parse_layout (root : json) (encodings : gmap string (gmap string Z)) : result ControlLayout :=
  layout ← requiredObject root "control_layout";
  rawWidth ← positiveUnsigned layout "raw_width";
  physicalWidth ← positiveUnsigned layout "physical_width";
  chunks ← positiveUnsigned layout "chunks";
  chunkBits ← positiveUnsigned layout "chunk_bits";
  chunkOrder ← required js_get_string layout "chunk_order";
  unless (physicalWidth <? rawWidth) (
    unless (negb (chunks =? 4) || negb (chunkBits =? 32)) (
      unless (negb (wrap32 (chunks * chunkBits) =? physicalWidth)) (
        unless (negb (String.eqb chunkOrder "little_word")) (
          padding ← requiredObject layout "padding";
          paddingLsb ← required js_get_u32 padding "lsb";
          paddingWidth ← required js_get_u32 padding "width";
          paddingValue ← required js_get_u64 padding "value";
          unless (negb (paddingLsb =? rawWidth) || negb (paddingWidth =? physicalWidth - rawWidth)) (
            unless (negb (paddingValue =? 0)) (
              fields ← requiredArray layout "fields";
              unless (bool_decide (fields = [])) (
                st ← fold_result (field_step encodings rawWidth) (mkFieldState ∅ [] ∅) fields;
                unless (existsb (fun bit => negb (bool_decide (bit ∈ fs_covered st))) (range rawWidth))
                  (Ok (mkControlLayout rawWidth physicalWidth chunks chunkBits chunkOrder paddingLsb
                         paddingWidth paddingValue (fs_fields st) (fs_indices st)))))))))).

(** The depth of the constant memory when the contract does not give it: [1U << width],
    undefined for a width of 32 or more. *)
Definition constant_depth (depth : Z) (layout : ControlLayout) : outcome Z :=
  if negb (depth =? 0) then Done depth
  else
    field ← run_call (layout_field layout "constantAddr");
    if 32 <=? cf_width field then Undefined else Done (Z.shiftl 1 (cf_width field)).

(** ** Load/store units *)

Definition lsu_step (rows cols ports : Z) (tiles : list LsuTileDesc) (item : json) : result (list LsuTileDesc) :=
  unless (negb (js_is_object item)) (
    row ← required js_get_u32 item "row";
    col ← required js_get_u32 item "col";
    port ← required js_get_u32 item "port_id";
    unless ((rows <=? row) || (cols <=? col)) (
      unless (ports <=? port) (
        unless (bool_decide ((row, col) ∈ (fun tile => (lsu_row tile, lsu_col tile)) <$> tiles)) (
          unless (bool_decide (port ∈ lsu_portId <$> tiles))
            (Ok (tiles ++ [mkLsuTileDesc row col port])))))).

Definition parse_lsu (root : json) (rows cols ports : Z) : result (list LsuTileDesc) :=
  lsu ← requiredObject root "lsu";
  assignment ← required js_get_string lsu "port_assignment";
  unless (negb (String.eqb assignment "enabled_tile_row_major_rank")) (
    enabled ← requiredArray lsu "enabled_tiles";
    unless (ports <? Z.of_nat (length enabled)) (
      tiles ← fold_result (lsu_step rows cols ports) [] enabled;
      let tiles := sort_by_pair (fun tile => (lsu_row tile, lsu_col tile)) tiles in
      unless (existsb (fun item => negb (lsu_portId item.2 =? item.1)) (enumerate tiles)) (Ok tiles))).

(** ** The whole contract *)

Definition equal_member (members : json) (item : Z * string) : result unit :=
  value ← positiveUnsigned members item.2;
  requireEqual item.1 value.

Definition check_duplicates (root : json) (array : ArrayDesc) (data predicate : RegisterFileDesc)
    (memory : MemoryDesc) (network : InterconnectDesc) (layout : ControlLayout) : result unit :=
  params ← requiredObject root "parameters";
  _ ← fold_result (fun _ item => equal_member params item) tt [
    (arr_rows array, "array_rows"); (arr_cols array, "array_cols"); (arr_dataWidth array, "data_width");
    (arr_predicateWidth array, "pred_width"); (rf_depth data, "data_rf_depth");
    (rf_depth predicate, "pred_rf_depth"); (mem_depth memory, "scratchpad_depth");
    (mem_widthBits memory, "data_width"); (mem_ports memory, "shared_mem_ports");
    (mem_loadLatency memory, "load_latency"); (net_hopLatency network, "mesh_hop_latency");
    (cl_rawWidth layout, "raw_control_word_width_bits");
    (cl_physicalWidth layout, "physical_control_word_width_bits");
    (cl_chunks layout, "control_word_chunks")];
  schema ← requiredObject root "control_schema";
  encoding ← required js_get_string schema "encoding";
  unless (negb (String.eqb encoding "lsb_first_fixed_field_order"))
    (fold_result (fun _ item => equal_member schema item) tt [
      (cl_chunkBits layout, "alignment_bits"); (cl_rawWidth layout, "raw_width_bits");
      (cl_physicalWidth layout, "physical_width_bits"); (cl_chunks layout, "chunks")]).

(** The schema, the version and the name. *)
Definition parse_header (root : json) : result (bool * Z * string) :=
  unless (negb (js_is_object root)) (
    schema ← required js_get_string root "schema";
    unless (negb (String.eqb schema "cgra.target.v2") && negb (String.eqb schema "cgra.target.v3")) (
      let explicit := String.eqb schema "cgra.target.v3" in
      version ← positiveUnsigned root "target_contract_version";
      unless (negb (version =? (if explicit then 3 else 2))) (
        name ← required js_get_string root "name";
        unless (String.eqb name "") (Ok (explicit, version, name))))).

Definition parse_contract (root : json) : outcome TargetModel :=
  '(explicit, version, name) ← run_call (parse_header root);
  array ← run_call (parse_array root);
  depth ← run_call (parse_constant_depth root);
  data ← run_call (parseRegisterFile root "data_rf" BankData (arr_rows array) (arr_cols array));
  predicate ← run_call (parseRegisterFile root "predicate_rf" BankPredicate (arr_rows array) (arr_cols array));
  network ← run_call (parse_interconnect root);
  memory ← run_call (parse_memory root);
  latencies ← run_call (check_legacy root);
  '(operations, indices) ← run_call (parse_operations explicit (arr_dataWidth array) root);
  '(defaults, overrides) ← run_call (parse_capabilities root operations indices (arr_rows array) (arr_cols array));
  _ ← run_call (check_memory_operation operations indices (mem_widthBits memory) "LOAD"
                  (vt_integer (wrap16 (mem_widthBits memory))));
  _ ← run_call (check_memory_operation operations indices (mem_widthBits memory) "STORE" voidTy);
  _ ← run_call (fold_result latency_step tt (js_items latencies));
  loop ← run_call (parse_loop root);
  '(encodings, reverse) ← run_call (parse_encodings root);
  _ ← run_call (fold_result (encoding_check encodings) tt operations);
  _ ← run_call (check_write_ports data predicate encodings);
  layout ← run_call (parse_layout root encodings);
  depth ← constant_depth depth layout;
  lsuTiles ← run_call (parse_lsu root (arr_rows array) (arr_cols array) (mem_ports memory));
  _ ← run_call (check_duplicates root array data predicate memory network layout);
  Done (mkTargetModel name version array data predicate network memory loop layout depth lsuTiles encodings
          reverse operations indices defaults overrides).

(** [loadFromFile]: [None] is a file that cannot be opened, [Throw] a text that is no JSON. *)
Definition loadFromFile (file : option (result json)) : outcome TargetModel :=
  match file with
  | Some (Ok root) => parse_contract root
  | _ => Raise RuntimeError
  end.
End Loader.
