(* ===== verification/CgraV2Json.v ===== *)
(** * The contract [target/cgra_v2.json] as a JSON value

    A concrete instance of the JSON library, with the values the contracts use (integers,
    no other numbers), and the checked-in contract written out member by member, the keys
    of every object in order.  Loading it gives [CgraV2.cgra_v2]. *)
From stdpp Require Import base numbers list gmap strings.
From S2P Require Import Prelude.
From S2P Require Import TargetModel.
From S2P Require Import CgraV2.
From S2P Require Import TargetLoader.

Inductive Value :=
  | VBool (b : bool)
  | VNumber (n : Z)
  | VString (s : string)
  | VArray (elements : list Value)
  | VObject (members : list (string * Value)).

Definition members (v : Value) : list (string * Value) := match v with VObject l => l | _ => [] end.
Definition elements (v : Value) : list Value := match v with VArray l => l | _ => [] end.

Fixpoint find_member (key : string) (l : list (string * Value)) : option Value :=
  match l with
  | [] => None
  | (k, v) :: l => if String.eqb k key then Some v else find_member key l
  end.

(** The members an object iterates over, every key once. *)
Fixpoint distinct_members (seen : list string) (l : list (string * Value)) : list (string * Value) :=
  match l with
  | [] => []
  | (k, v) :: l => if bool_decide (k ∈ seen) then distinct_members seen l else (k, v) :: distinct_members (k :: seen) l
  end.

Definition is_number (v : Value) : bool := match v with VNumber _ => true | _ => false end.
Definition number (v : Value) : result Z := match v with VNumber n => Ok n | _ => Throw LogicError end.
Definition text (v : Value) : result string := match v with VString s => Ok s | _ => Throw LogicError end.

Fixpoint texts (l : list Value) : result (list string) :=
  match l with
  | [] => Ok []
  | v :: l => s ← text v; rest ← texts l; Ok (s :: rest)
  end.

(** Conversions of numbers to narrower types truncate. *)
#[export] Instance Value_json : Json Value := {
  js_contains v key := bool_decide (is_Some (find_member key (members v)));
  js_at v key := of_option OutOfRange (find_member key (members v));
  js_is_object v := match v with VObject _ => true | _ => false end;
  js_is_array v := match v with VArray _ => true | _ => false end;
  js_is_string v := match v with VString _ => true | _ => false end;
  js_is_number_unsigned v := match v with VNumber n => 0 <=? n | _ => false end;
  js_is_number_integer v := is_number v;
  js_elements := elements;
  js_items v := distinct_members [] (members v);
  js_get_bool v := match v with VBool b => Ok b | _ => Throw LogicError end;
  js_get_string := text;
  js_get_strings v := match v with VArray l => texts l | _ => Throw LogicError end;
  js_get_u32 v := n ← number v; Ok (wrap32 n);
  js_get_u64 v := n ← number v; Ok (wrap64 n);
  js_get_i64 v := n ← number v; Ok (n)
}.

Definition cgra_v2_json : Value := VObject [
  ("array", VObject [
    ("cols", VNumber 4);
    ("data_width", VNumber 32);
    ("hardware_branch", VBool false);
    ("predicate_width", VNumber 1);
    ("rows", VNumber 4)]);
  ("authority", VObject [
    ("mode", VString "compiler_source_of_truth");
    ("notes", VString "The compiler consumes this contract without parsing RTL or Python. RTL and verification code remain independent implementations checked against this contract by regression tests.")]);
  ("control_layout", VObject [
    ("chunk_bits", VNumber 32);
    ("chunk_order", VString "little_word");
    ("chunks", VNumber 4);
    ("fields", VArray [
      VObject [("encoding", VString "op"); ("lsb", VNumber 0); ("name", VString "op"); ("width", VNumber 6)];
      VObject [
        ("encoding", VString "data_source");
        ("lsb", VNumber 6);
        ("name", VString "src_a");
        ("width", VNumber 4)];
      VObject [
        ("encoding", VString "data_source");
        ("lsb", VNumber 10);
        ("name", VString "src_b");
        ("width", VNumber 4)];
      VObject [
        ("encoding", VString "predicate_source");
        ("lsb", VNumber 14);
        ("name", VString "src_p0");
        ("width", VNumber 4)];
      VObject [
        ("encoding", VString "predicate_source");
        ("lsb", VNumber 18);
        ("name", VString "src_p1");
        ("width", VNumber 4)];
      VObject [("lsb", VNumber 22); ("name", VString "data_rf_raddr_a"); ("width", VNumber 4)];
      VObject [("lsb", VNumber 26); ("name", VString "data_rf_raddr_b"); ("width", VNumber 4)];
      VObject [("lsb", VNumber 30); ("name", VString "pred_rf_raddr_a"); ("width", VNumber 4)];
      VObject [("lsb", VNumber 34); ("name", VString "pred_rf_raddr_b"); ("width", VNumber 4)];
      VObject [("lsb", VNumber 38); ("name", VString "data_w0_we"); ("width", VNumber 1)];
      VObject [("lsb", VNumber 39); ("name", VString "data_w0_addr"); ("width", VNumber 4)];
      VObject [("lsb", VNumber 43); ("name", VString "data_w1_we"); ("width", VNumber 1)];
      VObject [("lsb", VNumber 44); ("name", VString "data_w1_addr"); ("width", VNumber 4)];
      VObject [
        ("encoding", VString "data_source");
        ("lsb", VNumber 48);
        ("name", VString "data_w1_src");
        ("width", VNumber 4)];
      VObject [("lsb", VNumber 52); ("name", VString "pred_w0_we"); ("width", VNumber 1)];
      VObject [("lsb", VNumber 53); ("name", VString "pred_w0_addr"); ("width", VNumber 4)];
      VObject [("lsb", VNumber 57); ("name", VString "pred_w1_we"); ("width", VNumber 1)];
      VObject [("lsb", VNumber 58); ("name", VString "pred_w1_addr"); ("width", VNumber 4)];
      VObject [
        ("encoding", VString "predicate_source");
        ("lsb", VNumber 62);
        ("name", VString "pred_w1_src");
        ("width", VNumber 4)];
      VObject [("lsb", VNumber 66); ("name", VString "data_route_north_we"); ("width", VNumber 1)];
      VObject [
        ("encoding", VString "route_data_source");
        ("lsb", VNumber 67);
        ("name", VString "data_route_north_src");
        ("width", VNumber 4)];
      VObject [("lsb", VNumber 71); ("name", VString "data_route_south_we"); ("width", VNumber 1)];
      VObject [
        ("encoding", VString "route_data_source");
        ("lsb", VNumber 72);
        ("name", VString "data_route_south_src");
        ("width", VNumber 4)];
      VObject [("lsb", VNumber 76); ("name", VString "data_route_east_we"); ("width", VNumber 1)];
      VObject [
        ("encoding", VString "route_data_source");
        ("lsb", VNumber 77);
        ("name", VString "data_route_east_src");
        ("width", VNumber 4)];
      VObject [("lsb", VNumber 81); ("name", VString "data_route_west_we"); ("width", VNumber 1)];
      VObject [
        ("encoding", VString "route_data_source");
        ("lsb", VNumber 82);
        ("name", VString "data_route_west_src");
        ("width", VNumber 4)];
      VObject [("lsb", VNumber 86); ("name", VString "pred_route_north_we"); ("width", VNumber 1)];
      VObject [
        ("encoding", VString "route_predicate_source");
        ("lsb", VNumber 87);
        ("name", VString "pred_route_north_src");
        ("width", VNumber 4)];
      VObject [("lsb", VNumber 91); ("name", VString "pred_route_south_we"); ("width", VNumber 1)];
      VObject [
        ("encoding", VString "route_predicate_source");
        ("lsb", VNumber 92);
        ("name", VString "pred_route_south_src");
        ("width", VNumber 4)];
      VObject [("lsb", VNumber 96); ("name", VString "pred_route_east_we"); ("width", VNumber 1)];
      VObject [
        ("encoding", VString "route_predicate_source");
        ("lsb", VNumber 97);
        ("name", VString "pred_route_east_src");
        ("width", VNumber 4)];
      VObject [("lsb", VNumber 101); ("name", VString "pred_route_west_we"); ("width", VNumber 1)];
      VObject [
        ("encoding", VString "route_predicate_source");
        ("lsb", VNumber 102);
        ("name", VString "pred_route_west_src");
        ("width", VNumber 4)];
      VObject [("lsb", VNumber 106); ("name", VString "const_addr"); ("width", VNumber 4)];
      VObject [
        ("encoding", VString "lsu_op");
        ("lsb", VNumber 110);
        ("name", VString "lsu_op");
        ("width", VNumber 2)];
      VObject [
        ("encoding", VString "data_source");
        ("lsb", VNumber 112);
        ("name", VString "lsu_addr_src");
        ("width", VNumber 4)];
      VObject [
        ("encoding", VString "data_source");
        ("lsb", VNumber 116);
        ("name", VString "lsu_store_data_src");
        ("width", VNumber 4)];
      VObject [("lsb", VNumber 120); ("name", VString "lsu_commit_pred_enable"); ("width", VNumber 1)];
      VObject [("lsb", VNumber 121); ("name", VString "lsu_commit_pred_invert"); ("width", VNumber 1)];
      VObject [
        ("encoding", VString "predicate_source");
        ("lsb", VNumber 122);
        ("name", VString "lsu_commit_pred_src");
        ("width", VNumber 4)]]);
    ("padding", VObject [("lsb", VNumber 126); ("value", VNumber 0); ("width", VNumber 2)]);
    ("physical_width", VNumber 128);
    ("raw_width", VNumber 126)]);
  ("control_schema", VObject [
    ("alignment_bits", VNumber 32);
    ("chunks", VNumber 4);
    ("encoding", VString "lsb_first_fixed_field_order");
    ("physical_width_bits", VNumber 128);
    ("raw_width_bits", VNumber 126)]);
  ("data_rf", VObject [
    ("depth", VNumber 16);
    ("read_ports", VNumber 2);
    ("same_cycle_multiwrite_same_address", VString "illegal");
    ("same_cycle_read_write_same_address", VString "illegal");
    ("write_ports", VNumber 2);
    ("write_ports_detail", VObject [
      ("W0", VObject [("sources", VArray [VString "FU_DATA_RESULT"])]);
      ("W1", VObject [
        ("sources", VArray [
          VString "RF_A";
          VString "RF_B";
          VString "NORTH_DATA_IN";
          VString "SOUTH_DATA_IN";
          VString "EAST_DATA_IN";
          VString "WEST_DATA_IN";
          VString "CONST_DATA";
          VString "LSU_LOAD_DATA";
          VString "ZERO"])])])]);
  ("derived_widths", VObject [
    ("cfg_word_idx_width_current_rtl", VNumber 2);
    ("const_addr_width", VNumber 4);
    ("ctrl_pc_width", VNumber 8);
    ("data_rf_addr_width", VNumber 4);
    ("pred_rf_addr_width", VNumber 4);
    ("scratchpad_addr_width", VNumber 12)]);
  ("encodings", VObject [
    ("data_source", VObject [
      ("CONST_DATA", VNumber 6);
      ("EAST_DATA_IN", VNumber 4);
      ("LSU_LOAD_DATA", VNumber 7);
      ("NORTH_DATA_IN", VNumber 2);
      ("RF_A", VNumber 0);
      ("RF_B", VNumber 1);
      ("SOUTH_DATA_IN", VNumber 3);
      ("WEST_DATA_IN", VNumber 5);
      ("ZERO", VNumber 8)]);
    ("lsu_op", VObject [("LOAD", VNumber 1); ("NONE", VNumber 0); ("RESERVED", VNumber 3); ("STORE", VNumber 2)]);
    ("op", VObject [
      ("ADD", VNumber 2);
      ("AND", VNumber 5);
      ("CMP_EQ", VNumber 16);
      ("CMP_NE", VNumber 17);
      ("CMP_ULE", VNumber 19);
      ("CMP_ULT", VNumber 18);
      ("LSHR", VNumber 9);
      ("MUL", VNumber 4);
      ("NOP", VNumber 0);
      ("OR", VNumber 6);
      ("PAND", VNumber 34);
      ("PASS", VNumber 1);
      ("PNOT", VNumber 33);
      ("POR", VNumber 35);
      ("PPASS", VNumber 32);
      ("SELECT", VNumber 10);
      ("SHL", VNumber 8);
      ("SUB", VNumber 3);
      ("XOR", VNumber 7)]);
    ("predicate_source", VObject [
      ("CONST_FALSE", VNumber 7);
      ("CONST_TRUE", VNumber 6);
      ("EAST_PRED_IN", VNumber 4);
      ("NORTH_PRED_IN", VNumber 2);
      ("RF_A", VNumber 0);
      ("RF_B", VNumber 1);
      ("SOUTH_PRED_IN", VNumber 3);
      ("WEST_PRED_IN", VNumber 5)]);
    ("route_data_source", VObject [
      ("CONST_DATA", VNumber 8);
      ("EAST_DATA_IN", VNumber 3);
      ("FU_DATA_RESULT", VNumber 5);
      ("LSU_LOAD_DATA", VNumber 9);
      ("NONE", VNumber 0);
      ("NORTH_DATA_IN", VNumber 1);
      ("RF_A", VNumber 6);
      ("RF_B", VNumber 7);
      ("SOUTH_DATA_IN", VNumber 2);
      ("WEST_DATA_IN", VNumber 4);
      ("ZERO", VNumber 10)]);
    ("route_predicate_source", VObject [
      ("CONST_FALSE", VNumber 9);
      ("CONST_TRUE", VNumber 8);
      ("EAST_PRED_IN", VNumber 3);
      ("FU_PRED_RESULT", VNumber 5);
      ("NONE", VNumber 0);
      ("NORTH_PRED_IN", VNumber 1);
      ("RF_A", VNumber 6);
      ("RF_B", VNumber 7);
      ("SOUTH_PRED_IN", VNumber 2);
      ("WEST_PRED_IN", VNumber 4)])]);
  ("enum_compatibility", VObject [("authoritative_section", VString "encodings"); ("status", VString "legacy_compatibility_view")]);
  ("enums", VObject [
    ("data_route_sources", VArray [
      VString "NONE";
      VString "NORTH_DATA_IN";
      VString "SOUTH_DATA_IN";
      VString "EAST_DATA_IN";
      VString "WEST_DATA_IN";
      VString "FU_DATA_RESULT";
      VString "DATA_RF_A";
      VString "DATA_RF_B";
      VString "CONST_DATA";
      VString "LSU_LOAD_DATA";
      VString "ZERO"]);
    ("data_sources", VArray [
      VString "ZERO";
      VString "DATA_RF_A";
      VString "DATA_RF_B";
      VString "NORTH_DATA_IN";
      VString "SOUTH_DATA_IN";
      VString "EAST_DATA_IN";
      VString "WEST_DATA_IN";
      VString "CONST_DATA";
      VString "LSU_LOAD_DATA"]);
    ("lsu_ops", VArray [VString "NONE"; VString "LOAD"; VString "STORE"]);
    ("predicate_route_sources", VArray [
      VString "NONE";
      VString "NORTH_PRED_IN";
      VString "SOUTH_PRED_IN";
      VString "EAST_PRED_IN";
      VString "WEST_PRED_IN";
      VString "FU_PRED_RESULT";
      VString "PRED_RF_A";
      VString "PRED_RF_B";
      VString "CONST_TRUE";
      VString "CONST_FALSE"]);
    ("predicate_sources", VArray [
      VString "CONST_FALSE";
      VString "CONST_TRUE";
      VString "PRED_RF_A";
      VString "PRED_RF_B";
      VString "NORTH_PRED_IN";
      VString "SOUTH_PRED_IN";
      VString "EAST_PRED_IN";
      VString "WEST_PRED_IN"])]);
  ("interconnect", VObject [
    ("compiler_routed", VBool true);
    ("data_network", VObject [("channels_per_direction_per_link", VNumber 1); ("separate_resource_domain", VBool true)]);
    ("hop_latency", VNumber 1);
    ("input_buffering", VBool false);
    ("predicate_network", VObject [("channels_per_direction_per_link", VNumber 1); ("separate_resource_domain", VBool true)]);
    ("registered_links", VBool true);
    ("runtime_arbitration", VBool false);
    ("topology", VString "mesh_2d")]);
  ("latencies", VObject [
    ("fu_ops", VObject [
      ("ADD", VNumber 1);
      ("AND", VNumber 1);
      ("CMP_EQ", VNumber 1);
      ("CMP_NE", VNumber 1);
      ("CMP_ULE", VNumber 1);
      ("CMP_ULT", VNumber 1);
      ("LSHR", VNumber 1);
      ("MUL", VNumber 1);
      ("NOP", VNumber 1);
      ("OR", VNumber 1);
      ("PAND", VNumber 1);
      ("PASS", VNumber 1);
      ("PNOT", VNumber 1);
      ("POR", VNumber 1);
      ("PPASS", VNumber 1);
      ("SELECT", VNumber 1);
      ("SHL", VNumber 1);
      ("SUB", VNumber 1);
      ("XOR", VNumber 1)]);
    ("issue_occupancy", VObject [("fu", VNumber 1); ("load", VNumber 1); ("store", VNumber 1)]);
    ("load_response", VNumber 2);
    ("mesh_hop", VNumber 1);
    ("producer_output_ready_offsets", VObject [("fu", VNumber 0); ("load", VNumber 2)])]);
  ("loop_execution", VObject [
    ("control_phases", VArray [VString "prologue"; VString "kernel"; VString "epilogue"]);
    ("loop_counter_operand", VBool false);
    ("model", VString "finite_modulo_replay");
    ("rotating_registers", VBool false);
    ("same_address_rf_read_write_recurrence", VBool false);
    ("supported", VBool true)]);
  ("lsu", VObject [
    ("default_enable_policy", VString "left_column");
    ("enabled_tiles", VArray [
      VObject [("col", VNumber 0); ("port_id", VNumber 0); ("row", VNumber 0)];
      VObject [("col", VNumber 0); ("port_id", VNumber 1); ("row", VNumber 1)];
      VObject [("col", VNumber 0); ("port_id", VNumber 2); ("row", VNumber 2)];
      VObject [("col", VNumber 0); ("port_id", VNumber 3); ("row", VNumber 3)]]);
    ("port_assignment", VString "enabled_tile_row_major_rank")]);
  ("memory", VObject [
    ("address_unit", VString "word");
    ("configuration_scope", VString "global_tile_0_0");
    ("dependence_separation", VObject [("RAW", VNumber 1); ("WAR", VNumber 1); ("WAW", VNumber 1)]);
    ("depth", VNumber 4096);
    ("load_latency", VNumber 2);
    ("max_issue_per_lsu_per_cycle", VNumber 1);
    ("max_issue_per_port_per_cycle", VNumber 1);
    ("model", VString "shared_multiport_scratchpad");
    ("ports", VNumber 4);
    ("runtime_arbitration", VBool false);
    ("runtime_stall", VBool false);
    ("same_address_policy", VString "multi_load_only");
    ("width_bits", VNumber 32)]);
  ("name", VString "cgra_v2_shared4p");
  ("operation_compatibility", VObject [("authoritative_section", VString "operations"); ("status", VString "legacy_compatibility_view")]);
  ("operations", VObject [
    ("ADD", VObject [
      ("encoding", VObject [("domain", VString "op"); ("symbol", VString "ADD")]);
      ("execution_class", VString "FU");
      ("issue_occupancy", VNumber 1);
      ("lowering", VObject [
        ("operand_sinks", VArray [VString "fu_data_a"; VString "fu_data_b"]);
        ("result_source", VString "fu_data_result")]);
      ("operands", VArray [VObject [("role", VString "data")]; VObject [("role", VString "data")]]);
      ("producer_output_ready_offset", VNumber 0);
      ("result", VObject [("role", VString "data")]);
      ("result_latency", VNumber 1)]);
    ("AND", VObject [
      ("encoding", VObject [("domain", VString "op"); ("symbol", VString "AND")]);
      ("execution_class", VString "FU");
      ("issue_occupancy", VNumber 1);
      ("lowering", VObject [
        ("operand_sinks", VArray [VString "fu_data_a"; VString "fu_data_b"]);
        ("result_source", VString "fu_data_result")]);
      ("operands", VArray [VObject [("role", VString "data")]; VObject [("role", VString "data")]]);
      ("producer_output_ready_offset", VNumber 0);
      ("result", VObject [("role", VString "data")]);
      ("result_latency", VNumber 1)]);
    ("CMP_EQ", VObject [
      ("encoding", VObject [("domain", VString "op"); ("symbol", VString "CMP_EQ")]);
      ("execution_class", VString "FU");
      ("issue_occupancy", VNumber 1);
      ("lowering", VObject [
        ("operand_sinks", VArray [VString "fu_data_a"; VString "fu_data_b"]);
        ("result_source", VString "fu_pred_result")]);
      ("operands", VArray [VObject [("role", VString "data")]; VObject [("role", VString "data")]]);
      ("producer_output_ready_offset", VNumber 0);
      ("result", VObject [("role", VString "predicate")]);
      ("result_latency", VNumber 1)]);
    ("CMP_NE", VObject [
      ("encoding", VObject [("domain", VString "op"); ("symbol", VString "CMP_NE")]);
      ("execution_class", VString "FU");
      ("issue_occupancy", VNumber 1);
      ("lowering", VObject [
        ("operand_sinks", VArray [VString "fu_data_a"; VString "fu_data_b"]);
        ("result_source", VString "fu_pred_result")]);
      ("operands", VArray [VObject [("role", VString "data")]; VObject [("role", VString "data")]]);
      ("producer_output_ready_offset", VNumber 0);
      ("result", VObject [("role", VString "predicate")]);
      ("result_latency", VNumber 1)]);
    ("CMP_ULE", VObject [
      ("encoding", VObject [("domain", VString "op"); ("symbol", VString "CMP_ULE")]);
      ("execution_class", VString "FU");
      ("issue_occupancy", VNumber 1);
      ("lowering", VObject [
        ("operand_sinks", VArray [VString "fu_data_a"; VString "fu_data_b"]);
        ("result_source", VString "fu_pred_result")]);
      ("operands", VArray [VObject [("role", VString "data")]; VObject [("role", VString "data")]]);
      ("producer_output_ready_offset", VNumber 0);
      ("result", VObject [("role", VString "predicate")]);
      ("result_latency", VNumber 1)]);
    ("CMP_ULT", VObject [
      ("encoding", VObject [("domain", VString "op"); ("symbol", VString "CMP_ULT")]);
      ("execution_class", VString "FU");
      ("issue_occupancy", VNumber 1);
      ("lowering", VObject [
        ("operand_sinks", VArray [VString "fu_data_a"; VString "fu_data_b"]);
        ("result_source", VString "fu_pred_result")]);
      ("operands", VArray [VObject [("role", VString "data")]; VObject [("role", VString "data")]]);
      ("producer_output_ready_offset", VNumber 0);
      ("result", VObject [("role", VString "predicate")]);
      ("result_latency", VNumber 1)]);
    ("LOAD", VObject [
      ("encoding", VObject [("domain", VString "lsu_op"); ("symbol", VString "LOAD")]);
      ("execution_class", VString "LSU");
      ("issue_occupancy", VNumber 1);
      ("lowering", VObject [("operand_sinks", VArray [VString "lsu_address"]); ("result_source", VString "lsu_load_data")]);
      ("memory_access_width_bits", VNumber 32);
      ("operands", VArray [VObject [("role", VString "address")]]);
      ("producer_output_ready_offset", VNumber 2);
      ("result", VObject [("role", VString "data")]);
      ("result_latency", VNumber 2)]);
    ("LSHR", VObject [
      ("encoding", VObject [("domain", VString "op"); ("symbol", VString "LSHR")]);
      ("execution_class", VString "FU");
      ("issue_occupancy", VNumber 1);
      ("lowering", VObject [
        ("operand_sinks", VArray [VString "fu_data_a"; VString "fu_data_b"]);
        ("result_source", VString "fu_data_result")]);
      ("operands", VArray [VObject [("role", VString "data")]; VObject [("role", VString "data")]]);
      ("producer_output_ready_offset", VNumber 0);
      ("result", VObject [("role", VString "data")]);
      ("result_latency", VNumber 1)]);
    ("MUL", VObject [
      ("encoding", VObject [("domain", VString "op"); ("symbol", VString "MUL")]);
      ("execution_class", VString "FU");
      ("issue_occupancy", VNumber 1);
      ("lowering", VObject [
        ("operand_sinks", VArray [VString "fu_data_a"; VString "fu_data_b"]);
        ("result_source", VString "fu_data_result")]);
      ("operands", VArray [VObject [("role", VString "data")]; VObject [("role", VString "data")]]);
      ("producer_output_ready_offset", VNumber 0);
      ("result", VObject [("role", VString "data")]);
      ("result_latency", VNumber 1)]);
    ("NOP", VObject [
      ("encoding", VObject [("domain", VString "op"); ("symbol", VString "NOP")]);
      ("execution_class", VString "FU");
      ("issue_occupancy", VNumber 1);
      ("lowering", VObject [("operand_sinks", VArray []); ("result_source", VString "fu_data_result")]);
      ("operands", VArray []);
      ("producer_output_ready_offset", VNumber 0);
      ("result", VObject [("role", VString "data")]);
      ("result_latency", VNumber 1)]);
    ("OR", VObject [
      ("encoding", VObject [("domain", VString "op"); ("symbol", VString "OR")]);
      ("execution_class", VString "FU");
      ("issue_occupancy", VNumber 1);
      ("lowering", VObject [
        ("operand_sinks", VArray [VString "fu_data_a"; VString "fu_data_b"]);
        ("result_source", VString "fu_data_result")]);
      ("operands", VArray [VObject [("role", VString "data")]; VObject [("role", VString "data")]]);
      ("producer_output_ready_offset", VNumber 0);
      ("result", VObject [("role", VString "data")]);
      ("result_latency", VNumber 1)]);
    ("PAND", VObject [
      ("encoding", VObject [("domain", VString "op"); ("symbol", VString "PAND")]);
      ("execution_class", VString "FU");
      ("issue_occupancy", VNumber 1);
      ("lowering", VObject [
        ("operand_sinks", VArray [VString "fu_pred_0"; VString "fu_pred_1"]);
        ("result_source", VString "fu_pred_result")]);
      ("operands", VArray [VObject [("role", VString "predicate")]; VObject [("role", VString "predicate")]]);
      ("producer_output_ready_offset", VNumber 0);
      ("result", VObject [("role", VString "predicate")]);
      ("result_latency", VNumber 1)]);
    ("PASS", VObject [
      ("encoding", VObject [("domain", VString "op"); ("symbol", VString "PASS")]);
      ("execution_class", VString "FU");
      ("issue_occupancy", VNumber 1);
      ("lowering", VObject [("operand_sinks", VArray [VString "fu_data_a"]); ("result_source", VString "fu_data_result")]);
      ("operands", VArray [VObject [("role", VString "data")]]);
      ("producer_output_ready_offset", VNumber 0);
      ("result", VObject [("role", VString "data")]);
      ("result_latency", VNumber 1)]);
    ("PNOT", VObject [
      ("encoding", VObject [("domain", VString "op"); ("symbol", VString "PNOT")]);
      ("execution_class", VString "FU");
      ("issue_occupancy", VNumber 1);
      ("lowering", VObject [("operand_sinks", VArray [VString "fu_pred_0"]); ("result_source", VString "fu_pred_result")]);
      ("operands", VArray [VObject [("role", VString "predicate")]]);
      ("producer_output_ready_offset", VNumber 0);
      ("result", VObject [("role", VString "predicate")]);
      ("result_latency", VNumber 1)]);
    ("POR", VObject [
      ("encoding", VObject [("domain", VString "op"); ("symbol", VString "POR")]);
      ("execution_class", VString "FU");
      ("issue_occupancy", VNumber 1);
      ("lowering", VObject [
        ("operand_sinks", VArray [VString "fu_pred_0"; VString "fu_pred_1"]);
        ("result_source", VString "fu_pred_result")]);
      ("operands", VArray [VObject [("role", VString "predicate")]; VObject [("role", VString "predicate")]]);
      ("producer_output_ready_offset", VNumber 0);
      ("result", VObject [("role", VString "predicate")]);
      ("result_latency", VNumber 1)]);
    ("PPASS", VObject [
      ("encoding", VObject [("domain", VString "op"); ("symbol", VString "PPASS")]);
      ("execution_class", VString "FU");
      ("issue_occupancy", VNumber 1);
      ("lowering", VObject [("operand_sinks", VArray [VString "fu_pred_0"]); ("result_source", VString "fu_pred_result")]);
      ("operands", VArray [VObject [("role", VString "predicate")]]);
      ("producer_output_ready_offset", VNumber 0);
      ("result", VObject [("role", VString "predicate")]);
      ("result_latency", VNumber 1)]);
    ("SELECT", VObject [
      ("encoding", VObject [("domain", VString "op"); ("symbol", VString "SELECT")]);
      ("execution_class", VString "FU");
      ("issue_occupancy", VNumber 1);
      ("lowering", VObject [
        ("operand_sinks", VArray [VString "fu_pred_0"; VString "fu_data_a"; VString "fu_data_b"]);
        ("result_source", VString "fu_data_result")]);
      ("operands", VArray [
        VObject [("role", VString "predicate")];
        VObject [("role", VString "data")];
        VObject [("role", VString "data")]]);
      ("producer_output_ready_offset", VNumber 0);
      ("result", VObject [("role", VString "data")]);
      ("result_latency", VNumber 1)]);
    ("SHL", VObject [
      ("encoding", VObject [("domain", VString "op"); ("symbol", VString "SHL")]);
      ("execution_class", VString "FU");
      ("issue_occupancy", VNumber 1);
      ("lowering", VObject [
        ("operand_sinks", VArray [VString "fu_data_a"; VString "fu_data_b"]);
        ("result_source", VString "fu_data_result")]);
      ("operands", VArray [VObject [("role", VString "data")]; VObject [("role", VString "data")]]);
      ("producer_output_ready_offset", VNumber 0);
      ("result", VObject [("role", VString "data")]);
      ("result_latency", VNumber 1)]);
    ("STORE", VObject [
      ("encoding", VObject [("domain", VString "lsu_op"); ("symbol", VString "STORE")]);
      ("execution_class", VString "LSU");
      ("issue_occupancy", VNumber 1);
      ("lowering", VObject [
        ("operand_sinks", VArray [VString "lsu_address"; VString "lsu_store_data"; VString "lsu_commit_predicate"]);
        ("result_source", VString "none")]);
      ("memory_access_width_bits", VNumber 32);
      ("operands", VArray [
        VObject [("role", VString "address")];
        VObject [("role", VString "data")];
        VObject [("optional", VBool true); ("role", VString "predicate")]]);
      ("result", VObject [("role", VString "void")])]);
    ("SUB", VObject [
      ("encoding", VObject [("domain", VString "op"); ("symbol", VString "SUB")]);
      ("execution_class", VString "FU");
      ("issue_occupancy", VNumber 1);
      ("lowering", VObject [
        ("operand_sinks", VArray [VString "fu_data_a"; VString "fu_data_b"]);
        ("result_source", VString "fu_data_result")]);
      ("operands", VArray [VObject [("role", VString "data")]; VObject [("role", VString "data")]]);
      ("producer_output_ready_offset", VNumber 0);
      ("result", VObject [("role", VString "data")]);
      ("result_latency", VNumber 1)]);
    ("XOR", VObject [
      ("encoding", VObject [("domain", VString "op"); ("symbol", VString "XOR")]);
      ("execution_class", VString "FU");
      ("issue_occupancy", VNumber 1);
      ("lowering", VObject [
        ("operand_sinks", VArray [VString "fu_data_a"; VString "fu_data_b"]);
        ("result_source", VString "fu_data_result")]);
      ("operands", VArray [VObject [("role", VString "data")]; VObject [("role", VString "data")]]);
      ("producer_output_ready_offset", VNumber 0);
      ("result", VObject [("role", VString "data")]);
      ("result_latency", VNumber 1)])]);
  ("ops", VObject [
    ("compare", VArray [VString "CMP_EQ"; VString "CMP_NE"; VString "CMP_ULT"; VString "CMP_ULE"]);
    ("data", VArray [
      VString "NOP";
      VString "PASS";
      VString "ADD";
      VString "SUB";
      VString "MUL";
      VString "AND";
      VString "OR";
      VString "XOR";
      VString "SHL";
      VString "LSHR";
      VString "SELECT"]);
    ("predicate", VArray [VString "PPASS"; VString "PNOT"; VString "PAND"; VString "POR"])]);
  ("parameters", VObject [
    ("array_cols", VNumber 4);
    ("array_rows", VNumber 4);
    ("const_mem_depth", VNumber 16);
    ("control_word_align_bits", VNumber 32);
    ("control_word_chunks", VNumber 4);
    ("ctrl_mem_depth", VNumber 256);
    ("data_rf_depth", VNumber 16);
    ("data_width", VNumber 32);
    ("load_latency", VNumber 2);
    ("mesh_hop_latency", VNumber 1);
    ("physical_control_word_width_bits", VNumber 128);
    ("pred_rf_depth", VNumber 16);
    ("pred_width", VNumber 1);
    ("raw_control_word_width_bits", VNumber 126);
    ("scratchpad_addr_width", VNumber 12);
    ("scratchpad_depth", VNumber 4096);
    ("shared_mem_ports", VNumber 4)]);
  ("predicate_rf", VObject [
    ("depth", VNumber 16);
    ("read_ports", VNumber 2);
    ("same_cycle_multiwrite_same_address", VString "illegal");
    ("same_cycle_read_write_same_address", VString "illegal");
    ("write_ports", VNumber 2);
    ("write_ports_detail", VObject [
      ("W0", VObject [("sources", VArray [VString "FU_PRED_RESULT"])]);
      ("W1", VObject [
        ("sources", VArray [
          VString "RF_A";
          VString "RF_B";
          VString "NORTH_PRED_IN";
          VString "SOUTH_PRED_IN";
          VString "EAST_PRED_IN";
          VString "WEST_PRED_IN";
          VString "CONST_TRUE";
          VString "CONST_FALSE"])])])]);
  ("role", VString "compiler_facing_target_contract");
  ("schema", VString "cgra.target.v2");
  ("target_contract_version", VNumber 2);
  ("tile_capabilities", VObject [
    ("default_fu_operations", VArray [
      VString "NOP";
      VString "PASS";
      VString "ADD";
      VString "SUB";
      VString "MUL";
      VString "AND";
      VString "OR";
      VString "XOR";
      VString "SHL";
      VString "LSHR";
      VString "SELECT";
      VString "CMP_EQ";
      VString "CMP_NE";
      VString "CMP_ULT";
      VString "CMP_ULE";
      VString "PPASS";
      VString "PNOT";
      VString "PAND";
      VString "POR"]);
    ("overrides", VArray [])]);
  ("version", VNumber 2)].

(** The checked-in contract loads, and is the machine of the witnesses. *)
Example cgra_v2_loads : loadFromFile (Some (Ok cgra_v2_json)) = Done cgra_v2.
Proof. vm_compute. reflexivity. Qed.
