(* ===== verification/TargetLoaded.v ===== *)
(** * What the loader guarantees

    Every contract that [TargetLoader.loadFromFile] accepts describes a machine the other
    components can rely on: [loaded]. *)
From Stdlib Require Import Sorted.
From stdpp Require Import base numbers list gmap strings sorting.
From S2P Require Import Prelude.
From S2P Require Import IR.
From S2P Require Import TargetModel.
From S2P Require Import ControlLayout.
From S2P Require Import CgraV2.
From S2P Require Import RFAllocation.
From S2P Require Import TargetLoader.
From S2P Require Import CgraV2Json.

(** The documented behaviour of the JSON library that the loader relies on: conversions
    give values of their type, and the keys of an object are distinct. *)
Class JsonLaws (json : Type) `{Json json} : Prop := {
  js_u32_range : forall v n, js_get_u32 v = Ok n -> is_u32 n;
  js_u64_range : forall v n, js_get_u64 v = Ok n -> is_u64 n;
  js_keys : forall v, NoDup (js_items v).*1
}.

(** ** Rejections and loops *)

Lemma unless_Ok {A} bad (k : result A) a : unless bad k = Ok a <-> bad = false /\ k = Ok a.
Proof. destruct bad; simpl; [split; [done|by intros [? _]]|tauto]. Qed.

Lemma caught_fail_Ok {A} (r : result A) a : caught_fail r = Ok a <-> r = Ok a.
Proof. by destruct r. Qed.

(** Inverts a call that was accepted. *)
Ltac accepted H :=
  repeat (first
    [ let b := fresh "Hb" in apply unless_Ok in H as [b H]
    | let a := fresh "a" in let e := fresh "E" in apply bind_Ok in H as (a & e & H)
    | match type of H with (match ?x with (_, _) => _ end) = _ => destruct x as [? ?] end ]).

Section Fold.
Context {A S : Type} (f : S -> A -> result S).

Lemma fold_result_prefix (P : list A -> S -> Prop) s0 :
  P [] s0 -> (forall l x s s', P l s -> f s x = Ok s' -> P (l ++ [x]) s') ->
  forall l s, fold_result f s0 l = Ok s -> P l s.
Proof.
  intros H0 Hstep. assert (H : forall l before s1 s, P before s1 -> fold_result f s1 l = Ok s -> P (before ++ l) s).
  { induction l as [|x l IH]; intros before s1 s Hp Hf; simpl in Hf.
    - injection Hf as <-. by rewrite app_nil_r.
    - apply bind_Ok in Hf as (s2 & Hs2 & Hf). replace (before ++ x :: l) with ((before ++ [x]) ++ l) by (by rewrite <- app_assoc).
      eapply IH; [by eapply Hstep|done]. }
  intros l s Hf. by apply (H l [] s0).
Qed.

(** For loops over distinct keys. *)
Lemma fold_result_keys {K} (key : A -> K) (P : list A -> S -> Prop) s0 :
  P [] s0 ->
  (forall l x s s', P l s -> NoDup (key <$> l) -> key x ∉ key <$> l -> f s x = Ok s' -> P (l ++ [x]) s') ->
  forall l s, NoDup (key <$> l) -> fold_result f s0 l = Ok s -> P l s.
Proof.
  intros H0 Hstep l s Hnd Hf.
  refine (fold_result_prefix (fun l s => NoDup (key <$> l) -> P l s) s0 _ _ l s Hf Hnd); [done|].
  intros l' x s1 s2 Hp Hx Hnd'. rewrite fmap_app in Hnd'. apply NoDup_app in Hnd' as (Hl & Hd & _).
  apply (Hstep l' x s1 s2); [by apply Hp|done| |done]. intros Hin. apply (Hd _ Hin). simpl. by apply list_elem_of_singleton.
Qed.
End Fold.

Lemma fold_check {A} (f : unit -> A -> result unit) l u : fold_result f tt l = Ok u ->
  forall x, x ∈ l -> f tt x = Ok tt.
Proof.
  intros H. refine (fold_result_prefix f (fun l _ => forall x, x ∈ l -> f tt x = Ok tt) tt _ _ l u H).
  - by intros x ?%not_elem_of_nil.
  - intros l' x [] [] Hl Hx y Hy. apply elem_of_app in Hy as [Hy| ->%list_elem_of_singleton]; auto.
Qed.

Lemma map_emplace_new {V} key (v : V) m : m !! key = None -> map_emplace key v m = <[key := v]> m.
Proof. intros H. unfold map_emplace. by rewrite H. Qed.

#[local] Instance by_pair_transitive {A} (key : A -> Z * Z) : Transitive (by_pair key).
Proof. intros x y z. unfold by_pair. lia. Qed.

#[local] Instance by_pair_total {A} (key : A -> Z * Z) : Total (by_pair key).
Proof. intros x y. unfold by_pair. lia. Qed.

(** ** Accepted parts *)

(** A register file that can be used: registers that exist, at tiles that exist, and
    write ports [W0], [W1], ... with sources. *)
Record register_file_ok (rows cols : Z) (bank : RegisterFileDesc) : Prop := {
  rk_depth : 0 < rf_depth bank <= u32_max;
  rk_ports : 0 < rf_readPorts bank <= u32_max /\ 0 < rf_writePorts bank <= u32_max;
  rk_indices : rf_allocatableIndices bank <> [] /\ NoDup (rf_allocatableIndices bank) /\
    forall i, i ∈ rf_allocatableIndices bank -> 0 <= i < rf_depth bank;
  rk_tiles : NoDup (rf_applicableTiles bank) /\
    forall row col, (row, col) ∈ rf_applicableTiles bank -> 0 <= row < rows /\ 0 <= col < cols;
  rk_sources : forall port names, rf_writePortSources bank !! port = Some names -> names <> [];
  rk_count : Z.of_nat (size (rf_writePortSources bank)) = rf_writePorts bank
}.

Section Loaded.
Context {json : Type} {library : Json json} {laws : JsonLaws json}.

Lemma required_Ok {A} (get : json -> result A) parent key a : required get parent key = Ok a ->
  exists v, js_at parent key = Ok v /\ get v = Ok a.
Proof. unfold required. intros [_ [v Hv]%caught_fail_Ok%bind_Ok]%unless_Ok. eauto. Qed.

Lemma required_u32 (parent : json) key n : required js_get_u32 parent key = Ok n -> is_u32 n.
Proof. intros (v & _ & Hv)%required_Ok. by eapply js_u32_range. Qed.

Lemma positiveUnsigned_range (parent : json) key n : positiveUnsigned parent key = Ok n -> 0 < n <= u32_max.
Proof.
  unfold positiveUnsigned. intros H'. accepted H'. injection H' as ->.
  apply required_Ok in E as (v & _ & Hv). apply js_u64_range in Hv as [? _]. lia.
Qed.

Lemma optional_Ok {A} (get : json -> string -> result A) parent key o : optional get parent key = Ok o ->
  o = None \/ exists a, o = Some a /\ get parent key = Ok a.
Proof.
  unfold optional. destruct (js_contains parent key); intros H'; [|injection H' as <-; by left].
  accepted H'. injection H' as <-. right. eauto.
Qed.

Lemma parse_array_ok root array : parse_array root = Ok array ->
  0 < arr_rows array <= u32_max /\ 0 < arr_cols array <= u32_max.
Proof.
  unfold parse_array. intros H'. accepted H'. injection H' as <-. simpl.
  split; by eapply positiveUnsigned_range.
Qed.

Lemma parse_indices_ok file depth indices : 0 < depth -> parse_indices file depth = Ok indices ->
  indices <> [] /\ NoDup indices /\ forall i, i ∈ indices -> 0 <= i < depth.
Proof.
  intros Hd. unfold parse_indices. destruct (js_contains file _); intros H'.
  - accepted H'. apply orb_false_iff in Hb as [_ Hne%bool_decide_eq_false].
    apply (fold_result_prefix (index_step depth) (fun l s => length s = length l /\ NoDup s /\ forall i, i ∈ s -> 0 <= i < depth) [])
      in H' as (Hlen & Hnd & Hi).
    + split; [|done]. intros ->. by destruct (js_elements a).
    + split; [done|]. split; [apply NoDup_nil_2|]. by intros i ?%not_elem_of_nil.
    + intros l x s s' (Hlen & Hnd & Hi) Hx. unfold index_step in Hx. accepted Hx. injection Hx as <-.
      apply bool_decide_eq_false in Hb0. apply js_u32_range in E0 as [H0 _]. split_and!.
      * rewrite !length_app. simpl. lia.
      * apply NoDup_app. split_and!; [done| |apply NoDup_singleton]. intros y Hy ->%list_elem_of_singleton. done.
      * intros i [Hin| ->%list_elem_of_singleton]%elem_of_app; [auto|lia].
  - injection H' as <-. split_and!; [|apply NoDup_range|by intros i ?%elem_of_range].
    intros Hr. assert (Hin : 0 ∈ range depth) by (apply elem_of_range; lia). rewrite Hr in Hin. by apply not_elem_of_nil in Hin.
Qed.

Lemma parse_tiles_ok file rows cols tiles : parse_tiles file rows cols = Ok tiles ->
  NoDup tiles /\ forall row col, (row, col) ∈ tiles -> 0 <= row < rows /\ 0 <= col < cols.
Proof.
  unfold parse_tiles. destruct (js_contains file _); intros H'.
  - accepted H'. injection H' as <-.
    apply (fold_result_prefix (tile_step rows cols)
      (fun _ s => NoDup s /\ forall row col, (row, col) ∈ s -> 0 <= row < rows /\ 0 <= col < cols) []) in E0 as (Hnd & Hi).
    + rewrite (sort_by_pair_perm id). split; [done|]. intros row col Hin. apply Hi. by rewrite (sort_by_pair_perm id) in Hin.
    + split; [apply NoDup_nil_2|]. by intros row col ?%not_elem_of_nil.
    + intros l x s s' (Hnd & Hi) Hx. unfold tile_step in Hx. destruct (negb (js_is_array x)); [done|].
      destruct (js_elements x) as [|v1 [|v2 [|]]]; try done. accepted Hx. injection Hx as <-.
      apply js_u32_range in E1 as [? _], E2 as [? _]. apply orb_false_iff in Hb0 as [? ?]. apply bool_decide_eq_false in Hb1. split.
      * apply NoDup_app. split_and!; [done| |apply NoDup_singleton]. intros y Hy ->%list_elem_of_singleton. done.
      * intros row col [Hin|[= -> ->]%list_elem_of_singleton]%elem_of_app; [auto|lia].
  - injection H' as <-. split; [apply NoDup_nil_2|]. by intros row col ?%not_elem_of_nil.
Qed.

Lemma parse_ports_ok (ports : json) sources : fold_result write_port_step ∅ (js_items ports) = Ok sources ->
  forall port names, sources !! port = Some names -> names <> [].
Proof.
  intros H'. refine (fold_result_prefix write_port_step (fun _ m => forall port names, m !! port = Some names -> names <> []) ∅ _ _ _ _ H').
  - intros port names Hp. by rewrite lookup_empty in Hp.
  - intros l [key value] m m' Hm Hx. unfold write_port_step in Hx. destruct (_ || _); [done|]. accepted Hx. injection Hx as <-.
    apply orb_false_iff in Hb as [_ Hne%bool_decide_eq_false].
    intros port names [[_ <-]|[_ Hp]]%lookup_insert_Some; [|by eapply Hm].
    apply (fold_result_prefix source_step (fun l s => (length l <= length s)%nat) (default [] (m !! key))) in E0.
    + intros ->. destruct (js_elements a); simpl in E0; [done|lia].
    + simpl. lia.
    + intros l' y s s' Hlen Hy. unfold source_step in Hy. accepted Hy. injection Hy as <-. rewrite !length_app. simpl. lia.
Qed.

Lemma parseRegisterFile_ok root key domain rows cols bank : parseRegisterFile root key domain rows cols = Ok bank ->
  register_file_ok rows cols bank /\ rf_id bank = key /\ rf_domain bank = domain.
Proof.
  unfold parseRegisterFile. intros H'. accepted H'. injection H' as <-. split; [|done].
  apply positiveUnsigned_range in E0, E1, E2. split; simpl.
  - done.
  - done.
  - eapply parse_indices_ok; [|done]. lia.
  - by eapply parse_tiles_ok.
  - by eapply parse_ports_ok.
  - apply negb_false_iff, Z.eqb_eq in Hb0. done.
Qed.

(** A mesh, or no links at all, without buffers, arbiters or further channels. *)
Definition network_ok (network : InterconnectDesc) : Prop :=
  net_topology network ∈ ["mesh_2d"; "disconnected"] /\ net_registeredLinks network = true /\
  0 < net_hopLatency network <= u32_max /\ net_inputBuffering network = false /\
  net_runtimeArbitration network = false /\ net_compilerRouted network = true /\
  net_separateResourceDomain network = true /\ net_channelsPerDirectionPerLink network = 1.

Lemma parse_interconnect_ok root network : parse_interconnect root = Ok network -> network_ok network.
Proof.
  unfold parse_interconnect. intros H'. accepted H'. injection H' as <-.
  unfold parseNetworkDomain in E6. accepted E6. injection E6 as <-. simpl.
  apply positiveUnsigned_range in E2. rewrite !orb_false_iff, !negb_false_iff in *. destruct Hb0 as [[[-> ->] ->] ->].
  unfold network_ok; simpl. split_and!; try done; try lia.
  apply andb_false_iff in Hb as [Hb|Hb]; apply negb_false_iff, String.eqb_eq in Hb as ->; set_solver.
Qed.

(** A shared scratchpad of words with positive sizes and latencies. *)
Definition memory_ok (memory : MemoryDesc) : Prop :=
  mem_model memory = "shared_multiport_scratchpad" /\ mem_addressUnit memory = "word" /\
  0 < mem_depth memory <= u32_max /\ 0 < mem_widthBits memory <= u32_max /\ 0 < mem_ports memory <= u32_max /\
  0 < mem_loadLatency memory <= u32_max /\ 0 < mem_rawDependenceSeparation memory <= u32_max /\
  0 < mem_warDependenceSeparation memory <= u32_max /\ 0 < mem_wawDependenceSeparation memory <= u32_max /\
  mem_sameAddressPolicy memory = "multi_load_only" /\ mem_runtimeStall memory = false /\
  mem_runtimeArbitration memory = false.

Lemma parse_memory_ok root memory : parse_memory root = Ok memory -> memory_ok memory.
Proof.
  unfold parse_memory. intros H'. accepted H'. injection H' as <-.
  repeat match goal with E : positiveUnsigned _ _ = Ok _ |- _ => apply positiveUnsigned_range in E end.
  rewrite !negb_false_iff, orb_false_iff, !String.eqb_eq in *. destruct Hb2 as [-> ->]. subst. unfold memory_ok. simpl. split_and!; try done; lia.
Qed.

(** *** Operations *)

(** The description of an operation is consistent: the type and the timing of its
    result, one sink of the right kind per operand, a source for its result, a memory
    width for loads and stores only, and an encoding. *)
Record operation_ok (dataWidth : Z) (op : TargetOperationDesc) : Prop := {
  ok_occupancy : 0 < op_issueOccupancy op <= u32_max;
  ok_type : op_resultType op = result_type dataWidth (op_resultRole op);
  ok_timing : match op_resultRole op with
    | ResVoid => op_resultLatency op = None /\ op_producerOutputReadyOffset op = None
    | _ => (exists l, op_resultLatency op = Some l /\ 0 < l <= u32_max) /\
           (exists r, op_producerOutputReadyOffset op = Some r /\ 0 <= r <= u32_max)
    end;
  ok_width : op_executionClass op = LSU <-> exists w, op_accessWidthBits op = Some w /\ 0 < w <= u32_max;
  ok_optional : forall i o, op_operands op !! i = Some o -> od_optional o = true ->
    forall j o', (i < j)%nat -> op_operands op !! j = Some o' -> od_optional o' = true;
  ok_sinks : (op_operandSinks op).*1 = (fun i => wrap32 (Z.of_nat i)) <$> seq 0 (length (op_operands op));
  ok_sink : forall i sink, (i, sink) ∈ op_operandSinks op -> exists o, op_operands op !! nat_of i = Some o /\
    sink_of_role (od_role o) sink = true /\ (op_executionClass op = LSU <-> lsu_sink sink = true);
  ok_source : valid_source (op_executionClass op) (op_resultRole op) (op_resultSource op) = true
}.

Lemma operands_ok operandJson operands flag : fold_result operand_step ([], false) operandJson = Ok (operands, flag) ->
  forall i o, operands !! i = Some o -> od_optional o = true ->
    forall j o', (i < j)%nat -> operands !! j = Some o' -> od_optional o' = true.
Proof.
  intros H'. set (good := fun l : list TargetOperandDesc => forall i o, l !! i = Some o -> od_optional o = true ->
    forall j o', (i < j)%nat -> l !! j = Some o' -> od_optional o' = true).
  assert (Hgood : good operands /\ (flag = false -> forall o, o ∈ operands -> od_optional o = false)); [|apply Hgood].
  refine (fold_result_prefix operand_step (fun _ st => good st.1 /\ (st.2 = false -> forall o, o ∈ st.1 -> od_optional o = false))
    ([], false) _ _ _ _ H').
  - split; [by intros i o Hi|]. by intros _ o ?%not_elem_of_nil.
  - intros l x [ops seen] [ops' seen'] [Hg Hs] Hx. unfold operand_step in Hx. accepted Hx. simpl in Hg, Hs |- *.
    assert (Hnew : (seen = true -> a0 = true) /\ ops' = ops ++ [mkTargetOperandDesc a a0] /\ seen' = (seen || a0)).
    { destruct a0; [injection Hx as <- <-; by rewrite orb_true_r|]. apply unless_Ok in Hx as [-> Hx]. by injection Hx as <- <-. }
    destruct Hnew as (Hopt & -> & ->). split.
    + intros i o Hi Ho j o' Hij Hj. apply lookup_app_Some in Hj as [Hj|[Hlen Hj]].
      * apply lookup_app_Some in Hi as [Hi|[Hlen _]]; [exact (Hg i o Hi Ho j o' Hij Hj)|]. apply lookup_lt_Some in Hj. lia.
      * assert (o' = mkTargetOperandDesc a a0) as -> by (destruct (j - length ops)%nat; [by injection Hj|done]). simpl.
        apply lookup_app_Some in Hi as [Hi|[Hlen' Hi]].
        -- apply Hopt. destruct seen; [done|]. apply list_elem_of_lookup_2 in Hi. rewrite Hs in Ho; done.
        -- destruct (i - length ops)%nat eqn:Ei; [|done]. injection Hi as <-. done.
    + intros [-> ->]%orb_false_iff o [Ho| ->%list_elem_of_singleton]%elem_of_app; [by apply Hs|done].
Qed.

Lemma parse_lowering_ok explicit descriptor class role operands sinks source :
  parse_lowering explicit descriptor class role operands = Ok (sinks, source) ->
  sinks.*1 = (fun i => wrap32 (Z.of_nat i)) <$> seq 0 (length operands).
Proof.
  assert (Hsnoc : forall (l : list (Z * TargetControlSink)) n sink,
    l.*1 = (fun i => wrap32 (Z.of_nat i)) <$> seq 0 n -> length l = n ->
    (l ++ [(wrap32 (Z.of_nat (length l)), sink)]).*1 = (fun i => wrap32 (Z.of_nat i)) <$> seq 0 (S n)).
  { intros l n sink Hl <-. by rewrite seq_S, !fmap_app, Hl. }
  unfold parse_lowering. destruct (js_contains descriptor "lowering"); intros H'.
  - accepted H'. injection H' as <- <-. apply negb_false_iff, Nat.eqb_eq in Hb.
    apply (fold_result_prefix sink_step (fun l s => length s = length l /\ s.*1 = (fun i => wrap32 (Z.of_nat i)) <$> seq 0 (length l)) [])
      in E1 as [_ ->]; [by rewrite Hb|done|].
    intros l x s s' [Hlen Hs] Hx. unfold sink_step in Hx. accepted Hx. injection Hx as <-. rewrite length_app, length_app. simpl.
    split; [lia|]. rewrite Nat.add_1_r. by apply Hsnoc.
  - accepted H'. injection H' as <- <-.
    assert (Hgen : forall ops d p l, l.*1 = (fun i => wrap32 (Z.of_nat i)) <$> seq 0 (length l) ->
      (legacy_sinks class d p l ops).*1 = (fun i => wrap32 (Z.of_nat i)) <$> seq 0 (length l + length ops)).
    { induction ops as [|o ops IH]; intros d p l Hl; simpl; [by rewrite Nat.add_0_r|].
      destruct (legacy_sink class (od_role o) d p) as [[sink d'] p']. rewrite IH.
      - rewrite length_app. simpl. do 2 f_equal. lia.
      - rewrite length_app, Nat.add_1_r. by apply Hsnoc. }
    apply (Hgen operands 0 0 []). done.
Qed.

Lemma parse_operation_ok explicit dataWidth name descriptor op :
  parse_operation explicit dataWidth name descriptor = Ok op -> operation_ok dataWidth op /\ op_id op = name.
Proof.
  unfold parse_operation. intros H'. accepted H'. injection H' as <-. split; [|done].
  apply negb_false_iff in Hb1, Hb2. apply Bool.eqb_prop in Hb1.
  split; simpl.
  - by eapply positiveUnsigned_range.
  - done.
  - unfold timing_rejected in Hb0. apply optional_Ok in E9 as [->|(lat & -> & Hlat%positiveUnsigned_range)];
      apply optional_Ok in E10 as [->|(rdy & -> & Hrdy%required_u32)]; destruct a5; simpl in Hb0 |- *;
      try done; split; eauto.
  - transitivity (bool_decide (a = LSU) = true); [by rewrite bool_decide_eq_true|]. rewrite Hb1, bool_decide_eq_true.
    apply optional_Ok in E11 as [->|(w & -> & Hw%positiveUnsigned_range)]; split; [by intros [? ?]|by intros (? & ? & _)| |by eexists].
    intros _. eauto.
  - by eapply operands_ok.
  - by eapply parse_lowering_ok.
  - intros i sink Hin. pose proof (fold_check _ _ _ E12 _ Hin) as Hc. unfold sink_check in Hc. accepted Hc. simpl in *.
    apply of_option_Ok in E13. apply negb_false_iff in Hb3, Hb4. apply Bool.eqb_prop in Hb4.
    exists a11. split_and!; [done|done|].
    transitivity (bool_decide (a = LSU) = true); [by rewrite bool_decide_eq_true|by rewrite Hb4].
  - done.
Qed.

(** The operations have the names of the object's members, in its order, and the index
    finds every one of them. *)
Lemma parse_operations_ok explicit dataWidth root operations indices :
  parse_operations explicit dataWidth root = Ok (operations, indices) ->
  (forall op, op ∈ operations -> operation_ok dataWidth op) /\ NoDup (op_id <$> operations) /\
  (forall op, op ∈ operations -> op_id op <> "") /\
  forall name index, indices !! name = Some index <-> exists op, operations !! index = Some op /\ op_id op = name.
Proof.
  unfold parse_operations. intros H'. accepted H'.
  refine ((fun G : op_id <$> operations = (js_items a).*1 /\ (forall op, op ∈ operations -> operation_ok dataWidth op) /\
    (forall op, op ∈ operations -> op_id op <> "") /\
    forall name index, indices !! name = Some index <-> exists op, operations !! index = Some op /\ op_id op = name =>
    _) _).
  { destruct G as (En & Hok & Hne & Hidx). split_and!; try done. rewrite En. apply js_keys. }
  refine (fold_result_keys (operation_step explicit dataWidth) fst (fun l st => op_id <$> st.1 = l.*1 /\
    (forall op, op ∈ st.1 -> operation_ok dataWidth op) /\ (forall op, op ∈ st.1 -> op_id op <> "") /\
    forall name index, st.2 !! name = Some index <-> exists op, st.1 !! index = Some op /\ op_id op = name)
    ([], ∅) _ _ _ _ (js_keys a) H').
  - split_and!; [done|by intros op ?%not_elem_of_nil..|]. intros name index. simpl. rewrite lookup_empty, lookup_nil.
    split; [done|]. by intros (? & ? & _).
  - intros l [name descriptor] [ops idx] [ops' idx'] (En & Hok & Hne & Hidx) _ Hnew Hx. simpl in *.
    accepted Hx. injection Hx as <- <-. apply parse_operation_ok in E0 as [Hop Eid].
    assert (Hnone : idx !! name = None).
    { destruct (idx !! name) as [i|] eqn:Ei; [|done]. apply Hidx in Ei as (op & Hi & E1). exfalso. apply Hnew.
      rewrite <- En, <- E1. apply list_elem_of_fmap_2. by eapply list_elem_of_lookup_2. }
    rewrite map_emplace_new by done. split_and!.
    + rewrite !fmap_app, En. simpl. by rewrite Eid.
    + intros op [Hin| ->%list_elem_of_singleton]%elem_of_app; auto.
    + intros op [Hin| ->%list_elem_of_singleton]%elem_of_app; [auto|]. rewrite Eid. by apply String.eqb_neq.
    + intros name' index. rewrite lookup_insert_Some, Hidx. split.
      * intros [[<- <-]|[Hn (op & Hi & E1)]].
        -- exists a0. split; [|done]. by rewrite lookup_app_r, Nat.sub_diag by lia.
        -- exists op. split; [|done]. by apply lookup_app_l_Some.
      * intros (op & [Hi|[Hlen Hi]]%lookup_app_Some & E1).
        -- right. split; [|eauto]. intros ->. rewrite (proj2 (Hidx name' index)) in Hnone; [done|eauto].
        -- left. destruct (index - length ops)%nat eqn:Ei; [|done]. injection Hi as <-. split; [congruence|lia].
Qed.

Lemma find_operation_Some operations indices name op :
  find_operation operations indices name = Some op -> op ∈ operations.
Proof. unfold find_operation. intros (i & _ & Hi)%bind_Some. by eapply list_elem_of_lookup_2. Qed.

(** *** Capabilities *)

(** Only functional-unit operations of the contract. *)
Definition fu_names (operations : list TargetOperationDesc) (indices : gmap string nat) (names : gset string) : Prop :=
  forall name, name ∈ names -> exists op, find_operation operations indices name = Some op /\ op_executionClass op = FU.

Lemma capability_fold_ok operations indices items names :
  fold_result (capability_step operations indices) ∅ items = Ok names -> fu_names operations indices names.
Proof.
  intros H'. refine (fold_result_prefix (capability_step operations indices) (fun _ s => fu_names operations indices s) ∅ _ _ _ _ H').
  - intros name. set_solver.
  - intros l x s s' Hs Hx. unfold capability_step in Hx. accepted Hx.
    destruct (find_operation _ _ _) as [op|] eqn:Eo; [|done]. accepted Hx. injection Hx as <-.
    apply negb_false_iff, bool_decide_eq_true in Hb0.
    intros name [->%elem_of_singleton|Hn]%elem_of_union; [eauto|by apply Hs].
Qed.

Lemma parse_capabilities_ok root operations indices rows cols defaults overrides :
  (forall op, op ∈ operations -> find_operation operations indices (op_id op) = Some op) ->
  parse_capabilities root operations indices rows cols = Ok (defaults, overrides) ->
  fu_names operations indices defaults /\
  forall key names, overrides !! key = Some names -> fu_names operations indices names /\
    exists row col, 0 <= row < rows /\ 0 <= col < cols /\ key = tileKey row col.
Proof.
  intros Hfind. unfold parse_capabilities. destruct (js_contains root _); intros H'.
  - accepted H'. injection H' as <- <-. split; [by eapply capability_fold_ok|].
    refine (fold_result_prefix (override_step operations indices rows cols) (fun _ m => forall key names, m !! key = Some names ->
      fu_names operations indices names /\ exists row col, 0 <= row < rows /\ 0 <= col < cols /\ key = tileKey row col) ∅ _ _ _ _ E3).
    + intros key names Hk. by rewrite lookup_empty in Hk.
    + intros l x m m' Hm Hx. unfold override_step in Hx. accepted Hx. injection Hx as <-.
      intros key names [[<- <-]|[_ Hk]]%lookup_insert_Some; [|by apply Hm].
      split; [by eapply capability_fold_ok|]. apply required_u32 in E4, E5. apply orb_false_iff in Hb0 as [? ?].
      exists a4, a5. unfold is_u32 in *. split_and!; [lia..|done].
  - injection H' as <- <-. split; [|intros key names Hk; by rewrite lookup_empty in Hk].
    intros name Hn. unfold default_capabilities in Hn. apply elem_of_list_to_set, list_elem_of_fmap in Hn as (op & -> & Hop).
    apply list_elem_of_filter in Hop as [Hc Hop]. eauto.
Qed.

Lemma check_memory_operation_ok operations indices width name type u :
  check_memory_operation operations indices width name type = Ok u -> exists op,
  find_operation operations indices name = Some op /\ op_executionClass op = LSU /\ op_resultType op = type /\
  op_accessWidthBits op = Some width.
Proof.
  unfold check_memory_operation. destruct (find_operation _ _ _) as [op|]; [|done]. intros H'. accepted H'.
  rewrite !orb_false_iff, !negb_false_iff, !bool_decide_eq_true in Hb. exists op. tauto.
Qed.

(** *** Encodings *)

(** The values of a domain are distinct 32-bit numbers, and its two maps are inverse. *)
Definition inverse_maps (values : gmap string Z) (names : gmap Z string) : Prop :=
  (forall name value, values !! name = Some value <-> names !! value = Some name) /\
  forall name value, values !! name = Some value -> is_u32 value.

Lemma symbols_ok (entries : json) values names :
  fold_result symbol_step (∅, ∅) (js_items entries) = Ok (values, names) -> inverse_maps values names.
Proof.
  intros H'. refine ((fun G : inverse_maps values names /\ _ => proj1 G) _).
  refine (fold_result_keys symbol_step fst (fun l st => inverse_maps st.1 st.2 /\
    forall name value, st.1 !! name = Some value -> name ∈ l.*1) (∅, ∅) _ _ _ _ (js_keys entries) H').
  - unfold inverse_maps. simpl. split; [split|]; intros name value; [|intros E; by rewrite lookup_empty in E..].
    rewrite !lookup_empty. done.
  - intros l [name entry] [vs ns] [vs' ns'] [[Hinv Hu] Hdom] _ Hnew Hx. simpl in *. accepted Hx. injection Hx as <- <-.
    apply orb_false_iff in Hb0 as [? ?]. apply bool_decide_eq_false in Hb1.
    assert (Hv : vs !! name = None) by (destruct (vs !! name) eqn:Ev; [exfalso; apply Hnew; eauto|done]).
    assert (Hn : ns !! a = None) by (by destruct (ns !! a) eqn:En; [exfalso; apply Hb1|]).
    rewrite map_emplace_new by done. unfold map_emplace_Z. rewrite Hn. simpl. split; [split|].
    + intros n v. rewrite !lookup_insert_Some, Hinv. split.
      * intros [[<- <-]|[Hne Hl]]; [by left|]. right. split; [|done]. intros <-. congruence.
      * intros [[<- <-]|[Hne Hl]]; [by left|]. right. split; [|done]. intros <-. apply Hinv in Hl. congruence.
    + intros n v [[<- <-]|[_ Hl]]%lookup_insert_Some; [unfold is_u32; lia|by eapply Hu].
    + intros n v [[<- <-]|[_ Hl]]%lookup_insert_Some; rewrite fmap_app; apply elem_of_app; [right; simpl; by apply list_elem_of_singleton|].
      left. eauto.
Qed.

Definition encodings_ok (encodings : gmap string (gmap string Z)) (reverse : gmap string (gmap Z string)) : Prop :=
  forall domain, match encodings !! domain, reverse !! domain with
  | Some values, Some names => inverse_maps values names
  | None, None => True
  | _, _ => False
  end.

Lemma parse_encodings_ok root encodings reverse :
  parse_encodings root = Ok (encodings, reverse) -> encodings_ok encodings reverse.
Proof.
  unfold parse_encodings. intros H'. accepted H'.
  refine (fold_result_prefix domain_step (fun _ st => encodings_ok st.1 st.2) (∅, ∅) _ _ _ _ H').
  - intros domain. simpl. by rewrite !lookup_empty.
  - intros l [domain entries] [es rs] [es' rs'] Hok Hx. simpl in *. accepted Hx. injection Hx as <- <-.
    apply symbols_ok in E0. intros d. specialize (Hok d). rewrite !lookup_insert. case_decide; [done|exact Hok].
Qed.

(** The encoding of an operation names a symbol, of [lsu_op] for loads and stores only. *)
Definition encoded (encodings : gmap string (gmap string Z)) (op : TargetOperationDesc) : Prop :=
  exists binding symbols value, op_encoding op = Some binding /\ encodings !! enc_domain binding = Some symbols /\
    symbols !! enc_symbol binding = Some value /\ (op_executionClass op = LSU <-> enc_domain binding = "lsu_op").

Lemma encoding_check_ok encodings op u : encoding_check encodings u op = Ok tt -> encoded encodings op.
Proof.
  unfold encoding_check. intros H'. accepted H'. apply of_option_Ok in E, E0. apply negb_false_iff, Bool.eqb_prop in Hb0.
  apply bool_decide_eq_false in Hb. destruct (a0 !! enc_symbol a) as [value|] eqn:Ev; [|done].
  exists a, a0, value. split_and!; [done..|].
  transitivity (bool_decide (op_executionClass op = LSU) = true); [by rewrite bool_decide_eq_true|].
  by rewrite Hb0, String.eqb_eq.
Qed.

(** *** The control layout *)

(** The fields have distinct names and widths, divide the raw bits among them without
    overlap or gap, and their encodings fit them; the rest of the 128 bits is zero. *)
Record layout_ok (encodings : gmap string (gmap string Z)) (layout : ControlLayout) : Prop := {
  lk_words : 0 < cl_rawWidth layout <= 128 /\ cl_physicalWidth layout = 128 /\ cl_chunks layout = 4 /\
    cl_chunkBits layout = 32 /\ cl_chunkOrder layout = "little_word";
  lk_padding : cl_paddingLsb layout = cl_rawWidth layout /\ cl_paddingWidth layout = 128 - cl_rawWidth layout /\
    cl_paddingValue layout = 0;
  lk_names : NoDup (cf_name <$> cl_fields layout);
  lk_index : forall name index, cl_fieldIndices layout !! name = Some index <->
    exists field, cl_fields layout !! index = Some field /\ cf_name field = name;
  lk_range : forall field, field ∈ cl_fields layout ->
    0 <= cf_lsb field /\ 0 < cf_width field /\ cf_lsb field + cf_width field <= cl_rawWidth layout;
  lk_disjoint : forall f g i, f ∈ cl_fields layout -> g ∈ cl_fields layout ->
    field_covers f i = true -> field_covers g i = true -> f = g;
  lk_cover : forall i, 0 <= i < cl_rawWidth layout -> exists f, f ∈ cl_fields layout /\ field_covers f i = true;
  lk_encodings : forall field domain, field ∈ cl_fields layout -> cf_encoding field = Some domain ->
    exists symbols, encodings !! domain = Some symbols /\
    forall name value, symbols !! name = Some value -> cf_width field < 64 -> value < 2 ^ cf_width field
}.

Lemma cover_ok bits covered covered' : fold_result cover_step covered bits = Ok covered' ->
  (forall bit, bit ∈ covered' <-> bit ∈ bits \/ bit ∈ covered) /\ forall bit, bit ∈ bits -> bit ∉ covered.
Proof.
  intros H'. refine (fold_result_prefix cover_step (fun l s => (forall bit, bit ∈ s <-> bit ∈ l \/ bit ∈ covered) /\
    forall bit, bit ∈ l -> bit ∉ covered) covered _ _ _ _ H').
  - split; [|by intros bit ?%not_elem_of_nil]. intros bit. split; [by right|]. by intros [?%not_elem_of_nil|].
  - intros l x s s' [Hs Hd] Hx. unfold cover_step in Hx. accepted Hx. injection Hx as <-. apply bool_decide_eq_false in Hb.
    rewrite Hs in Hb. split.
    + intros bit. rewrite elem_of_union, elem_of_singleton, elem_of_app, list_elem_of_singleton, Hs. tauto.
    + intros bit [Hin| ->%list_elem_of_singleton]%elem_of_app; [by apply Hd|tauto].
Qed.

Lemma parse_field_encoding_ok encodings (field : json) width encoding : 0 < width ->
  parse_field_encoding encodings field width = Ok encoding -> forall domain, encoding = Some domain ->
  exists symbols, encodings !! domain = Some symbols /\
    forall name value, symbols !! name = Some value -> width < 64 -> value < 2 ^ width.
Proof.
  intros Hw. unfold parse_field_encoding. destruct (js_contains field _); intros H'; [|by injection H' as <-].
  accepted H'. injection H' as <-. intros ? [= <-]. apply of_option_Ok in E0. exists a0. split; [done|].
  intros name value Hv Hlt. apply not_true_iff_false in Hb. destruct (Z.lt_ge_cases value (2 ^ width)) as [|Hge]; [done|].
  exfalso. apply Hb, existsb_exists. exists (name, value). split; [by apply list_elem_of_In, elem_of_map_to_list|].
  rewrite (proj2 (Z.leb_gt _ _)), Z.shiftl_1_l by lia. simpl. apply andb_true_iff. split; [lia|]. apply Z.ltb_lt. lia.
Qed.

(** What the loop over the fields keeps. *)
Record fields_ok (encodings : gmap string (gmap string Z)) (rawWidth : Z) (st : FieldState) : Prop := {
  fk_names : NoDup (cf_name <$> fs_fields st);
  fk_index : forall name index, fs_indices st !! name = Some index <->
    exists field, fs_fields st !! index = Some field /\ cf_name field = name;
  fk_range : forall field, field ∈ fs_fields st ->
    0 <= cf_lsb field /\ 0 < cf_width field /\ cf_lsb field + cf_width field <= rawWidth;
  fk_disjoint : forall f g i, f ∈ fs_fields st -> g ∈ fs_fields st ->
    field_covers f i = true -> field_covers g i = true -> f = g;
  fk_covered : forall i, i ∈ fs_covered st <-> exists f, f ∈ fs_fields st /\ field_covers f i = true;
  fk_encodings : forall field domain, field ∈ fs_fields st -> cf_encoding field = Some domain ->
    exists symbols, encodings !! domain = Some symbols /\
    forall name value, symbols !! name = Some value -> cf_width field < 64 -> value < 2 ^ cf_width field
}.

(** An index that follows its list, with one element more. *)
Lemma index_snoc {A} (key : A -> string) (l : list A) (indices : gmap string nat) x :
  (forall name i, indices !! name = Some i <-> exists y, l !! i = Some y /\ key y = name) ->
  indices !! key x = None ->
  key x ∉ key <$> l /\
  forall name i, map_emplace (key x) (length l) indices !! name = Some i <->
    exists y, (l ++ [x]) !! i = Some y /\ key y = name.
Proof.
  intros Hidx Hnone. assert (Hnew : key x ∉ key <$> l).
  { intros (y & E & [i Hi]%list_elem_of_lookup_1)%list_elem_of_fmap.
    rewrite (proj2 (Hidx (key x) i)) in Hnone; [done|eauto]. }
  split; [done|]. intros name i. rewrite map_emplace_new, lookup_insert_Some, Hidx by done. split.
  - intros [[<- <-]|[_ (y & Hi & E)]].
    + exists x. split; [|done]. by rewrite lookup_app_r, Nat.sub_diag by lia.
    + exists y. split; [|done]. by apply lookup_app_l_Some.
  - intros (y & [Hi|[Hlen Hi]]%lookup_app_Some & E).
    + right. split; [|eauto]. intros <-. apply Hnew, list_elem_of_fmap. exists y. split; [done|]. by eapply list_elem_of_lookup_2.
    + left. destruct (i - length l)%nat eqn:Ei; [|done]. injection Hi as <-. split; [congruence|lia].
Qed.

Lemma field_step_ok encodings rawWidth st (field : json) st' : fields_ok encodings rawWidth st ->
  field_step encodings rawWidth st field = Ok st' -> fields_ok encodings rawWidth st'.
Proof.
  intros [Hn Hi Hr Hd Hc He]. unfold field_step. intros H'. accepted H'. injection H' as <-.
  apply required_u32 in E0. apply positiveUnsigned_range in E1. apply orb_false_iff in Hb1 as [? ?].
  apply bool_decide_eq_false, eq_None_not_Some in Hb2. apply cover_ok in E2 as [Hin Hout].
  pose proof (parse_field_encoding_ok _ _ _ _ (proj1 E1) E3) as Henc.
  set (f := mkControlField a a0 a1 a3). destruct (index_snoc cf_name (fs_fields st) _ f Hi Hb2) as [Hnew Hidx].
  assert (Hcov : forall i, field_covers f i = true <-> i ∈ seqZ a0 a1).
  { intros i. rewrite elem_of_seqZ. unfold field_covers. simpl. lia. }
  assert (Hold : forall g i, g ∈ fs_fields st -> field_covers g i = true -> field_covers f i = true -> False).
  { intros g i Hg Hgi Hfi. apply Hcov in Hfi. apply (Hout _ Hfi), Hc. eauto. }
  split; simpl.
  - rewrite fmap_app. apply NoDup_app. split_and!; [done| |apply NoDup_singleton].
    by intros y Hy ->%list_elem_of_singleton.
  - done.
  - intros g [Hg| ->%list_elem_of_singleton]%elem_of_app; [by apply Hr|]. unfold is_u32 in *. simpl. lia.
  - intros g h i [Hg| ->%list_elem_of_singleton]%elem_of_app [Hh| ->%list_elem_of_singleton]%elem_of_app Hgi Hhi.
    + by eapply Hd.
    + by destruct (Hold g i).
    + by destruct (Hold h i).
    + done.
  - intros i. rewrite Hin, Hc, <- Hcov. split.
    + intros [Hfi|(g & Hg & Hgi)]; [exists f|exists g]; (split; [|done]); apply elem_of_app; [right|by left].
      by apply list_elem_of_singleton.
    + intros (g & [Hg| ->%list_elem_of_singleton]%elem_of_app & Hgi); eauto.
  - intros g domain [Hg| ->%list_elem_of_singleton]%elem_of_app; [by apply He|exact (Henc domain)].
Qed.

Lemma parse_layout_ok root encodings layout :
  parse_layout root encodings = Ok layout -> layout_ok encodings layout.
Proof.
  unfold parse_layout. intros H'. accepted H'. injection H' as <-.
  rewrite !orb_false_iff, !negb_false_iff, ?Z.eqb_eq, ?String.eqb_eq in *.
  apply positiveUnsigned_range in E0. destruct Hb0 as [-> ->], Hb3 as [-> ->].
  change (wrap32 (4 * 32)) with 128 in Hb1. subst.
  assert (Hok : fields_ok encodings a0 a10).
  { refine (fold_result_prefix (field_step encodings a0) (fun _ st => fields_ok encodings a0 st) _ _ _ _ _ E10).
    - split; simpl; try (intros; by match goal with H : _ ∈ [] |- _ => apply not_elem_of_nil in H end).
      + apply NoDup_nil_2.
      + intros name index. rewrite lookup_empty, lookup_nil. split; [done|]. by intros (? & ? & _).
      + intros i. split; [set_solver|]. intros (f & Hf & _). by apply not_elem_of_nil in Hf.
    - intros _ x st st' Hst Hx. by eapply field_step_ok. }
  destruct Hok as [Hn Hi Hr Hd Hc He]. split; simpl; try done; [split_and!; try done; lia|].
  intros i Hin. apply Hc. apply not_true_iff_false in Hb6. apply dec_stable. intros Hnot. apply Hb6.
  apply existsb_exists. exists i. split; [by apply list_elem_of_In, elem_of_range|]. by rewrite bool_decide_eq_false_2.
Qed.

(** The addresses of the constant memory are 32-bit numbers. *)
Lemma constant_depth_ok root given encodings layout depth : parse_constant_depth root = Ok given ->
  layout_ok encodings layout -> constant_depth given layout = Done depth -> 0 < depth <= u32_max.
Proof.
  intros Hg Hl Hd. assert (Hgiven : given = 0 \/ 0 < given <= u32_max).
  { unfold parse_constant_depth in Hg. destruct (js_contains root _); [|injection Hg as <-; by left].
    accepted Hg. destruct (_ && _); [right; by eapply positiveUnsigned_range|injection Hg as <-; by left]. }
  unfold constant_depth in Hd. destruct (Z.eqb_spec given 0); simpl in Hd; [|injection Hd as <-; lia].
  apply outcome_bind_Done in Hd as (field & Hf%run_call_Done & Hd). destruct (Z.leb_spec 32 (cf_width field)); [done|].
  injection Hd as <-. unfold layout_field in Hf. apply bind_Ok in Hf as (index & _ & Hf%of_option_Ok).
  apply list_elem_of_lookup_2, (lk_range _ _ Hl) in Hf as (_ & Hw & _). rewrite Z.shiftl_1_l.
  assert (2 ^ cf_width field <= 2 ^ 31) by (apply Z.pow_le_mono_r; lia). unfold u32_max. lia.
Qed.

(** *** Load/store units and write ports *)

(** Distinct tiles of the array in row-major order, each with its rank as its port. *)
Record lsu_ok (rows cols ports : Z) (tiles : list LsuTileDesc) : Prop := {
  uk_in_array : forall tile, tile ∈ tiles -> 0 <= lsu_row tile < rows /\ 0 <= lsu_col tile < cols;
  uk_distinct : NoDup ((fun tile => (lsu_row tile, lsu_col tile)) <$> tiles);
  uk_order : StronglySorted (by_pair (fun tile => (lsu_row tile, lsu_col tile))) tiles;
  uk_ports : forall i tile, tiles !! i = Some tile -> lsu_portId tile = Z.of_nat i /\ lsu_portId tile < ports
}.

Lemma parse_lsu_ok root rows cols ports tiles :
  parse_lsu root rows cols ports = Ok tiles -> lsu_ok rows cols ports tiles.
Proof.
  unfold parse_lsu. intros H'. accepted H'. injection H' as <-.
  set (key := fun tile => (lsu_row tile, lsu_col tile)) in *. set (sorted := sort_by_pair key a2) in *.
  assert (Hp : sorted ≡ₚ a2) by apply sort_by_pair_perm.
  assert (Hok : NoDup (key <$> a2) /\ forall tile, tile ∈ a2 ->
    0 <= lsu_row tile < rows /\ 0 <= lsu_col tile < cols /\ lsu_portId tile < ports).
  { refine (fold_result_prefix (lsu_step rows cols ports) (fun _ s => NoDup (key <$> s) /\ forall tile, tile ∈ s ->
      0 <= lsu_row tile < rows /\ 0 <= lsu_col tile < cols /\ lsu_portId tile < ports) [] _ _ _ _ E2).
    - split; [apply NoDup_nil_2|]. by intros tile ?%not_elem_of_nil.
    - intros _ x s s' [Hn Hs] Hx. unfold lsu_step in Hx. accepted Hx. injection Hx as <-.
      apply required_u32 in E3, E4. apply orb_false_iff in Hb3 as [? ?]. apply bool_decide_eq_false in Hb5. split.
      + rewrite fmap_app. apply NoDup_app. split_and!; [done| |apply NoDup_singleton].
        by intros y Hy ->%list_elem_of_singleton.
      + intros tile [Hin| ->%list_elem_of_singleton]%elem_of_app; [by apply Hs|]. unfold is_u32 in *. simpl. lia. }
  destruct Hok as [Hn Hs]. split.
  - intros tile Hin. rewrite Hp in Hin. apply Hs in Hin. tauto.
  - by rewrite Hp.
  - apply StronglySorted_merge_sort; apply _.
  - intros i tile Hi. split; [|apply Hs; rewrite <- Hp; by eapply list_elem_of_lookup_2].
    apply not_true_iff_false in Hb1. apply dec_stable. intros Hne. apply Hb1, existsb_exists. exists (Z.of_nat i, tile). split.
    + apply list_elem_of_In, elem_of_enumerate. split; [lia|]. by rewrite Nat2Z.id.
    + simpl. apply negb_true_iff, Z.eqb_neq. lia.
Qed.

(** The write ports are [W0], [W1], ..., and the sources of the first two are distinct
    symbols of the control field that selects among them. *)
Definition sources_encoded (encodings : gmap string (gmap string Z)) (bank : RegisterFileDesc) (port domain : string)
  : Prop :=
  exists symbols sources, encodings !! domain = Some symbols /\ rf_writePortSources bank !! port = Some sources /\
    NoDup sources /\ forall source, source ∈ sources -> is_Some (symbols !! source).

Record write_ports_ok (encodings : gmap string (gmap string Z)) (bank : RegisterFileDesc) (w0 w1 : string) : Prop := {
  pk_names : forall i, 0 <= i < rf_writePorts bank -> is_Some (rf_writePortSources bank !! ("W" ++ to_string i)%string);
  pk_W0 : sources_encoded encodings bank "W0" w0;
  pk_W1 : 1 < rf_writePorts bank -> sources_encoded encodings bank "W1" w1
}.

Lemma validateWritePortNames_ok bank u : validateWritePortNames bank = Ok u ->
  forall i, 0 <= i < rf_writePorts bank -> is_Some (rf_writePortSources bank !! ("W" ++ to_string i)%string).
Proof.
  unfold validateWritePortNames. intros H' i Hi. accepted H'. apply not_eq_None_Some.
  assert (Hin : i ∈ range (rf_writePorts bank)) by (by apply elem_of_range).
  pose proof (fold_check _ _ _ H' _ Hin) as Hc. simpl in Hc. accepted Hc. by apply bool_decide_eq_false in Hb0.
Qed.

Lemma validateWritePortSource_ok bank port domain encodings u :
  validateWritePortSource bank port domain encodings = Ok u -> sources_encoded encodings bank port domain.
Proof.
  unfold validateWritePortSource. intros H'. accepted H'. apply of_option_Ok in E, E0.
  destruct (fold_result_prefix (write_source_step a) (fun l s => s = l /\ NoDup l /\ forall x, x ∈ l -> is_Some (a !! x)) []) with (l := a0) (s := a1)
    as (_ & Hn & Hs); [| |done|by exists a, a0].
  - split_and!; [done|apply NoDup_nil_2|]. by intros x ?%not_elem_of_nil.
  - intros l x s s' (-> & Hn & Hs) Hx. unfold write_source_step in Hx. accepted Hx. injection Hx as <-.
    apply bool_decide_eq_false in Hb, Hb0. split_and!; [done| |].
    + apply NoDup_app. split_and!; [done| |apply NoDup_singleton]. by intros y Hy ->%list_elem_of_singleton.
    + intros y [Hy| ->%list_elem_of_singleton]%elem_of_app; [by apply Hs|by apply not_eq_None_Some].
Qed.

Lemma check_write_ports_ok data predicate encodings u : check_write_ports data predicate encodings = Ok u ->
  write_ports_ok encodings data "route_data_source" "data_source" /\
  write_ports_ok encodings predicate "route_predicate_source" "predicate_source".
Proof.
  unfold check_write_ports. intros H'. accepted H'. split; split.
  - by eapply validateWritePortNames_ok.
  - by eapply validateWritePortSource_ok.
  - intros Hlt%Z.ltb_lt. rewrite Hlt in E2. by eapply validateWritePortSource_ok.
  - by eapply validateWritePortNames_ok.
  - by eapply validateWritePortSource_ok.
  - intros Hlt%Z.ltb_lt. rewrite Hlt in H'. by eapply validateWritePortSource_ok.
Qed.

(** ** Accepted contracts *)

Lemma parse_header_ok root explicit version name : parse_header root = Ok (explicit, version, name) ->
  version ∈ [2; 3] /\ name <> "".
Proof.
  unfold parse_header. intros H'. accepted H'. injection H' as <- <- <-.
  apply negb_false_iff, Z.eqb_eq in Hb1 as ->. apply String.eqb_neq in Hb2. split; [|done].
  destruct (String.eqb a "cgra.target.v3"); set_solver.
Qed.

Lemma parse_loop_ok root loop : parse_loop root = Ok loop ->
  loop = mkLoopExecutionDesc true "finite_modulo_replay" ["prologue"; "kernel"; "epilogue"] false false false.
Proof.
  unfold parse_loop. intros H'. accepted H'. injection H' as <-.
  rewrite !orb_false_iff, !negb_false_iff, String.eqb_eq, bool_decide_eq_true in *.
  by destruct Hb as [-> ->], Hb1 as [[-> ->] ->], Hb0.
Qed.
End Loaded.

(** Encoding and naming are inverse on every domain. *)
Definition encodings_inverse (t : TargetModel) : Prop := forall domain name value,
  encodingValue t domain name = Ok value <-> encodingName t domain value = Ok name.

(** The fields are those of the members that [ControlWord.cpp] reads and writes, at
    their widths: what the loader does not check of a layout before the codec uses it. *)
Definition drives_control (t : TargetModel) : bool :=
  let fields := cl_fields (tm_controlLayout t) in
  let drives encoded name f := String.eqb (cf_name f) name && Bool.eqb (bool_decide (is_Some (cf_encoding f))) encoded in
  (64 <=? cl_rawWidth (tm_controlLayout t)) &&
  forallb (fun f => cf_width f <=? 32) fields &&
  forallb (fun f => match cf_encoding f with
    | Some _ => bool_decide (cf_name f ∈ encoding_names)
    | None => bool_decide (cf_name f ∈ integer_names) && (cf_width f <=? member_width (cf_name f))
    end) fields &&
  forallb (fun name => existsb (drives false name) fields) integer_names &&
  forallb (fun name => existsb (drives true name) fields) encoding_names.

(** A machine that the loader accepts. *)
Record loaded (t : TargetModel) : Prop := {
  ld_header : tm_contractVersion t ∈ [2; 3] /\ tm_name t <> "";
  ld_model : TargetModel_wf t;
  ld_banks : register_files_wf t;
  ld_data : register_file_ok (arr_rows (tm_array t)) (arr_cols (tm_array t)) (tm_dataRF t);
  ld_predicate : register_file_ok (arr_rows (tm_array t)) (arr_cols (tm_array t)) (tm_predicateRF t);
  ld_write_ports : write_ports_ok (tm_encodings t) (tm_dataRF t) "route_data_source" "data_source" /\
    write_ports_ok (tm_encodings t) (tm_predicateRF t) "route_predicate_source" "predicate_source";
  ld_network : network_ok (tm_interconnect t);
  ld_memory : memory_ok (tm_memory t);
  ld_loop : tm_loopExecution t =
    mkLoopExecutionDesc true "finite_modulo_replay" ["prologue"; "kernel"; "epilogue"] false false false;
  ld_operations : forall op, op ∈ tm_operations t ->
    operation_ok (arr_dataWidth (tm_array t)) op /\ encoded (tm_encodings t) op /\ op_id op <> "" /\
    findOperation t (op_id op) = Some op;
  ld_load : exists op, findOperation t "LOAD" = Some op /\ op_executionClass op = LSU /\
    op_resultType op = vt_integer (wrap16 (mem_widthBits (tm_memory t))) /\
    op_accessWidthBits op = Some (mem_widthBits (tm_memory t));
  ld_store : exists op, findOperation t "STORE" = Some op /\ op_executionClass op = LSU /\
    op_resultType op = voidTy /\ op_accessWidthBits op = Some (mem_widthBits (tm_memory t));
  ld_capabilities : fu_names (tm_operations t) (tm_operationIndices t) (tm_defaultFuOperations t) /\
    forall key names, tm_tileOperationOverrides t !! key = Some names ->
      fu_names (tm_operations t) (tm_operationIndices t) names /\
      exists row col, 0 <= row < arr_rows (tm_array t) /\ 0 <= col < arr_cols (tm_array t) /\ key = tileKey row col;
  ld_encodings : encodings_inverse t /\
    forall domain name value, encodingValue t domain name = Ok value -> is_u32 value;
  ld_layout : layout_ok (tm_encodings t) (tm_controlLayout t);
  ld_codec : drives_control t = true -> ControlLayout_wf t;
  ld_constants : 0 < tm_constantMemoryDepth t <= u32_max;
  ld_lsu : lsu_ok (arr_rows (tm_array t)) (arr_cols (tm_array t)) (mem_ports (tm_memory t)) (tm_lsuTiles t)
}.

Lemma encodings_ok_inverse t : encodings_ok (tm_encodings t) (tm_reverseEncodings t) ->
  encodings_inverse t /\ forall domain name value, encodingValue t domain name = Ok value -> is_u32 value.
Proof.
  intros Hok. unfold encodings_inverse, encodingValue, encodingName. split.
  - intros domain name value. specialize (Hok domain).
    destruct (tm_encodings t !! domain) as [values|], (tm_reverseEncodings t !! domain) as [names|]; try done; simpl.
    rewrite !of_option_Ok. apply Hok.
  - intros domain name value. specialize (Hok domain).
    destruct (tm_encodings t !! domain) as [values|], (tm_reverseEncodings t !! domain) as [names|]; try done; simpl.
    rewrite of_option_Ok. apply Hok.
Qed.

Lemma layout_codec t : encodings_inverse t ->
  (forall domain name value, encodingValue t domain name = Ok value -> is_u32 value) ->
  layout_ok (tm_encodings t) (tm_controlLayout t) -> drives_control t = true -> ControlLayout_wf t.
Proof.
  intros Hinv Hu [Hwords Hpad Hn Hi Hr Hd Hc He] Hdrives. unfold drives_control in Hdrives.
  rewrite !andb_true_iff, !forallb_forall in Hdrives. setoid_rewrite <- list_elem_of_In in Hdrives.
  destruct Hdrives as [[[[H64 Hw] Hm] Hints] Hencs]. destruct Hpad as (Elsb & Ewidth & Evalue).
  split; rewrite ?Elsb, ?Ewidth, ?Evalue; try done; try lia.
  - intros f Hf. specialize (Hr f Hf). specialize (Hw f Hf). lia.
  - intros f Hf. specialize (Hm f Hf). specialize (Hw f Hf). simpl in Hm, Hw. destruct (cf_encoding f) as [domain|] eqn:Ee.
    + apply bool_decide_eq_true in Hm. split; [done|]. intros name v. rewrite <- (Hinv domain name v). split; [|by intros [? _]].
      intros Hv. split; [done|]. destruct (He f domain Hf Ee) as (symbols & Es & Hlt). pose proof (Hu _ _ _ Hv) as [? _].
      split; [done|]. unfold encodingValue in Hv. rewrite Es in Hv. apply of_option_Ok in Hv. apply (Hlt name); [done|lia].
    + apply andb_true_iff in Hm as [Hm%bool_decide_eq_true Hle%Z.leb_le]. done.
  - intros name Hname. specialize (Hints name Hname). simpl in Hints. apply existsb_exists in Hints as (f & Hf & Hx).
    apply andb_true_iff in Hx as [E%String.eqb_eq Ee%Bool.eqb_prop]. apply bool_decide_eq_false, eq_None_not_Some in Ee.
    exists f. split_and!; [by apply list_elem_of_In|done|done].
  - intros name Hname. specialize (Hencs name Hname). simpl in Hencs. apply existsb_exists in Hencs as (f & Hf & Hx).
    apply andb_true_iff in Hx as [E%String.eqb_eq Ee%Bool.eqb_prop]. apply bool_decide_eq_true in Ee as [domain Ee].
    exists f, domain. split_and!; [by apply list_elem_of_In|done|done].
Qed.

(** Every operation is found by its name. *)
Lemma find_operation_self (operations : list TargetOperationDesc) indices op :
  (forall name index, indices !! name = Some index <-> exists op, operations !! index = Some op /\ op_id op = name) ->
  op ∈ operations -> find_operation operations indices (op_id op) = Some op.
Proof.
  intros Hidx [i Hi]%list_elem_of_lookup_1. unfold find_operation. rewrite (proj2 (Hidx (op_id op) i)); [done|eauto].
Qed.


(** ** The checked-in contract *)

Lemma distinct_members_NoDup l : forall seen,
  NoDup (distinct_members seen l).*1 /\ forall key, key ∈ seen -> key ∉ (distinct_members seen l).*1.
Proof.
  induction l as [|[k v] l IH]; intros seen; simpl; [split; [apply NoDup_nil_2|by intros key _ ?%not_elem_of_nil]|].
  case_bool_decide as Hk; [apply IH|]. destruct (IH (k :: seen)) as [Hn Hs]. split; simpl.
  - apply NoDup_cons. split; [apply Hs; by left|done].
  - intros key Hkey [->|Hin]%elem_of_cons; [done|]. apply (Hs key); [by right|done].
Qed.

#[export] Instance Value_laws : JsonLaws Value.
Proof.
  split; simpl.
  - intros v n H. apply bind_Ok in H as (m & _ & [= <-]). apply wrap32_range.
  - intros v n H. apply bind_Ok in H as (m & _ & [= <-]). word_lia.
  - intros v. apply distinct_members_NoDup.
Qed.


(** Its fields drive the control members. *)
Example cgra_v2_drives_control : drives_control cgra_v2 = true.
Proof. vm_compute. reflexivity. Qed.
