(* ===== verification/ConstantAllocator.v ===== *)
(** * Constant memory addresses

    Models [compiler/{include/cgra,lib}/Lowering/ConstantAllocator.{h,cpp}]: the
    constants of a target graph share one memory image of 32-bit words; constants
    with the same low word share an address, addresses are given in the order of
    first appearance, and the memory's depth bounds them. *)
From stdpp Require Import base numbers list gmap sorting strings.
From S2P Require Import Prelude.
From S2P Require Import IR.
From S2P Require Import TargetModel.
From S2P Require Import CgraV2.
From S2P Require Import TargetDFG.
From S2P Require Import TargetDFGVerifier.

Record ConstantAllocation := mkConstantAllocation {
  ca_constant : Z;
  ca_address : Z;
  ca_bits : Z
}.

#[export] Instance ConstantAllocation_eq_dec : EqDecision ConstantAllocation.
Proof. solve_decision. Defined.

(** [ConstantImage]: the vector of entries. *)
Abbreviation ConstantImage := (list ConstantAllocation).

Definition constant_location (image : ConstantImage) (id : Z) : option Z :=
  ca_address <$> find_if (fun entry => ca_constant entry =? id) image.

Definition constant_address (image : ConstantImage) (id : Z) : result Z :=
  of_option OutOfRange (constant_location image id).

(** The loop over the constants; [addresses] is the map from low words. *)
Fixpoint allocate_constants (depth : Z) (constants : list ConstantValue) (addresses : gmap Z Z)
    (entries : list ConstantAllocation) : result (list ConstantAllocation) :=
  match constants with
  | [] => Ok entries
  | constant :: constants =>
      let key := wrap32 (const_bits constant) in
      match addresses !! key with
      | Some address =>
          allocate_constants depth constants addresses
            (entries ++ [mkConstantAllocation (const_id constant) address (const_bits constant)])
      | None =>
          let address := wrap32 (Z.of_nat (size addresses)) in
          if depth <=? address then Throw RuntimeError
          else allocate_constants depth constants (<[key := address]> addresses)
                 (entries ++ [mkConstantAllocation (const_id constant) address (const_bits constant)])
      end
  end.

(** [ConstantAllocator::allocate]. *)
Definition constants_allocate (dfg : TargetDFG) (target : TargetModel) : result ConstantImage :=
  entries ← allocate_constants (tm_constantMemoryDepth target) (td_constants dfg) ∅ [];
  Ok (sort_by ca_constant entries).

Definition const_word (c : ConstantValue) : Z := wrap32 (const_bits c).

(** Two constants with one low word share an address. *)
Example shared_address :
  allocate_constants 2 [mkConstantValue 7 vt_i32 5; mkConstantValue 3 vt_i32 9;
    mkConstantValue 4 vt_i32 4294967301] ∅ [] =
  Ok [mkConstantAllocation 7 0 5; mkConstantAllocation 3 1 9; mkConstantAllocation 4 0 4294967301] /\
  allocate_constants 1 [mkConstantValue 7 vt_i32 5; mkConstantValue 3 vt_i32 9] ∅ [] = Throw RuntimeError.
Proof. vm_compute. done. Qed.

(** ** What the image contains *)

(** The low words in use. *)
Definition words (constants : list ConstantValue) : gset Z := list_to_set (const_word <$> constants).

(** A numbering gives its keys the addresses below its size, one each. *)
Record numbering (m : gmap Z Z) : Prop := {
  nb_bound : forall key a, m !! key = Some a -> 0 <= a < Z.of_nat (size m);
  nb_inj : forall key key' a, m !! key = Some a -> m !! key' = Some a -> key = key';
  nb_dense : forall a, 0 <= a < Z.of_nat (size m) -> exists key, m !! key = Some a
}.

Lemma numbering_empty : numbering ∅.
Proof. split; [done..|]. rewrite map_size_empty. lia. Qed.

Lemma numbering_insert m key : numbering m -> m !! key = None ->
  numbering (<[key := Z.of_nat (size m)]> m).
Proof.
  intros [Hb Hi Hd] Hn.
  assert (Hs : size (<[key := Z.of_nat (size m)]> m) = S (size m)) by by apply map_size_insert_None.
  split; rewrite ?Hs.
  - intros k a [[<- <-]|[_ H%Hb]]%lookup_insert_Some; lia.
  - intros k k' a [[<- <-]|[Hk H]]%lookup_insert_Some [[<- E]|[Hk' H']]%lookup_insert_Some; [done|..].
    + apply Hb in H'. lia.
    + apply Hb in H. lia.
    + by eapply Hi.
  - intros a Ha. destruct (decide (a = Z.of_nat (size m))) as [->|Hne].
    + exists key. by rewrite lookup_insert_eq.
    + destruct (Hd a) as [k Hk]; [lia|]. exists k. by rewrite lookup_insert_ne by congruence.
Qed.

(** The entry of a constant under the final numbering. *)
Definition entry_under (m : gmap Z Z) (c : ConstantValue) : ConstantAllocation :=
  mkConstantAllocation (const_id c) (default 0 (m !! const_word c)) (const_bits c).

Lemma allocate_constants_spec depth constants m entries :
  0 <= depth <= u32_max -> numbering m -> Z.of_nat (size m) <= depth ->
  match allocate_constants depth constants m entries with
  | Ok image => exists m', m ⊆ m' /\ numbering m' /\ dom m' = dom m ∪ words constants /\
      Z.of_nat (size m') <= depth /\ image = entries ++ (entry_under m' <$> constants)
  | Throw e => e = RuntimeError /\ depth < Z.of_nat (size (dom m ∪ words constants))
  end.
Proof.
  intros Hdepth. revert m entries. induction constants as [|c constants IH]; intros m entries Hm Hsize; simpl.
  { exists m. rewrite app_nil_r. split_and!; [done..| |done|done]. unfold words. simpl. set_solver. }
  assert (Hw : words (c :: constants) = {[const_word c]} ∪ words constants) by (unfold words; set_solver).
  rewrite Hw. change (wrap32 (const_bits c)) with (const_word c).
  destruct (m !! const_word c) as [a|] eqn:Ha.
  - assert (Hin : dom m ∪ ({[const_word c]} ∪ words constants) = dom m ∪ words constants).
    { apply elem_of_dom_2 in Ha. set_solver. }
    rewrite Hin. specialize (IH m (entries ++ [mkConstantAllocation (const_id c) a (const_bits c)]) Hm Hsize).
    destruct (allocate_constants _ _ _ _); [|done]. destruct IH as (m' & Hsub & Hn & Hd & Hs & ->).
    exists m'. split_and!; [done..|]. rewrite <- (assoc_L app). simpl. do 2 f_equal.
    unfold entry_under. by rewrite (lookup_weaken _ _ _ _ Ha Hsub).
  - rewrite wrap32_id by (unfold is_u32, u32_max in *; lia).
    assert (Hs : size (<[const_word c := Z.of_nat (size m)]> m) = S (size m)) by by apply map_size_insert_None.
    destruct (Z.leb_spec depth (Z.of_nat (size m))).
    + split; [done|]. assert (Hnot : const_word c ∉ dom m) by (by apply not_elem_of_dom).
      assert (S (size m) <= size (dom m ∪ ({[const_word c]} ∪ words constants)))%nat; [|lia].
      transitivity (size ({[const_word c]} ∪ dom m)).
      * rewrite size_union, size_singleton, size_dom by set_solver. lia.
      * apply subseteq_size. set_solver.
    + specialize (IH (<[const_word c := Z.of_nat (size m)]> m)
        (entries ++ [mkConstantAllocation (const_id c) (Z.of_nat (size m)) (const_bits c)])
        (numbering_insert m _ Hm Ha)).
      rewrite Hs in IH. specialize (IH ltac:(lia)). rewrite dom_insert_L in IH.
      replace ({[const_word c]} ∪ dom m ∪ words constants)
        with (dom m ∪ ({[const_word c]} ∪ words constants)) in IH by set_solver.
      destruct (allocate_constants _ _ _ _); [|done]. destruct IH as (m' & Hsub & Hn & Hd & Hs' & ->).
      assert (Hc : m' !! const_word c = Some (Z.of_nat (size m))).
      { eapply lookup_weaken; [|done]. by rewrite lookup_insert_eq. }
      exists m'. split_and!; [|done..|].
      * etrans; [|done]. by apply insert_subseteq.
      * rewrite <- (assoc_L app). simpl. do 2 f_equal. unfold entry_under. by rewrite Hc.
Qed.

Section Allocate.
Context (dfg : TargetDFG) (target : TargetModel).
Context (Hids : NoDup (const_id <$> td_constants dfg)) (Hdepth : is_u32 (tm_constantMemoryDepth target)).

Let constants := td_constants dfg.

Lemma constants_allocate_spec :
  match constants_allocate dfg target with
  | Ok image => exists m, numbering m /\ dom m = words constants /\
      Z.of_nat (size m) <= tm_constantMemoryDepth target /\
      image = sort_by ca_constant (entry_under m <$> constants)
  | Throw e => e = RuntimeError /\ tm_constantMemoryDepth target < Z.of_nat (size (words constants))
  end.
Proof using Hdepth.
  unfold constants_allocate.
  pose proof (allocate_constants_spec (tm_constantMemoryDepth target) (td_constants dfg) ∅ []
    Hdepth numbering_empty) as H.
  rewrite map_size_empty in H. specialize (H ltac:(unfold is_u32 in Hdepth; lia)).
  rewrite dom_empty_L, union_empty_l_L in H.
  destruct (allocate_constants _ _ _ _); simpl; [|done].
  destruct H as (m & _ & Hn & Hd & Hs & ->). by exists m.
Qed.

Lemma constant_address_entry m c : c ∈ constants ->
  constant_address (sort_by ca_constant (entry_under m <$> constants)) (const_id c) =
  Ok (default 0 (m !! const_word c)).
Proof using Hids.
  intros Hc. unfold constant_address, constant_location.
  rewrite (find_if_unique ca_constant (const_id c) _ (entry_under m c)); [done|..|done].
  - assert (Hp : ca_constant <$> sort_by ca_constant (entry_under m <$> constants) ≡ₚ
      const_id <$> constants) by (rewrite sort_by_perm, <- list_fmap_compose; done).
    by rewrite Hp.
  - rewrite elem_of_sort_by. by apply list_elem_of_fmap_2.
Qed.

(** The address of a constant: one below the number of distinct low words, its
    own unless the low words agree. *)
Lemma allocated_addresses image : constants_allocate dfg target = Ok image ->
  (fun e => (ca_constant e, ca_bits e)) <$> image ≡ₚ (fun c => (const_id c, const_bits c)) <$> constants /\
  (forall c, c ∈ constants -> exists a, constant_address image (const_id c) = Ok a /\
     0 <= a < Z.of_nat (size (words constants)) /\ a < tm_constantMemoryDepth target) /\
  (forall c c' a a', c ∈ constants -> c' ∈ constants ->
     constant_address image (const_id c) = Ok a -> constant_address image (const_id c') = Ok a' ->
     (a = a' <-> const_word c = const_word c')) /\
  forall a, 0 <= a < Z.of_nat (size (words constants)) ->
    exists c, c ∈ constants /\ constant_address image (const_id c) = Ok a.
Proof using All.
  intros Himage. pose proof constants_allocate_spec as H. rewrite Himage in H.
  destruct H as (m & Hn & Hd & Hs & ->).
  assert (Hsize : size (words constants) = size m) by by rewrite <- Hd, size_dom.
  assert (Hlook : forall c, c ∈ constants -> exists a, m !! const_word c = Some a).
  { intros c Hc. apply elem_of_dom. rewrite Hd. apply elem_of_list_to_set. by apply list_elem_of_fmap_2. }
  split_and!.
  - rewrite sort_by_perm, <- list_fmap_compose. done.
  - intros c Hc. rewrite (constant_address_entry m c Hc). destruct (Hlook c Hc) as [a Ha]. rewrite Ha.
    apply (nb_bound _ Hn) in Ha. exists a. simpl. split; [done|]. lia.
  - intros c c' a a' Hc Hc'. rewrite !(constant_address_entry m) by done.
    destruct (Hlook c Hc) as [b Hb], (Hlook c' Hc') as [b' Hb']. rewrite Hb, Hb'. simpl.
    intros [= <-] [= <-]. split; [intros <-; by eapply nb_inj|congruence].
  - intros a. rewrite Hsize. intros Ha. destruct (nb_dense _ Hn a Ha) as [key Hk].
    assert (Hin : key ∈ words constants) by (rewrite <- Hd; by apply elem_of_dom_2 in Hk).
    apply elem_of_list_to_set, list_elem_of_fmap in Hin as (c & -> & Hc).
    exists c. rewrite (constant_address_entry m c Hc), Hk. done.
Qed.
End Allocate.

(** C19: constant allocation is exact.  It succeeds exactly when the distinct low
    words fit in the constant memory.  Then every constant has an address within
    the memory, the addresses in use are the first ones without a gap, two
    constants share an address exactly when their low words agree, and the image
    lists every constant with its bits once.  Otherwise it throws
    [std::runtime_error]. *)
Theorem constants_allocate_exact (dfg : TargetDFG) (target : TargetModel) :
  NoDup (const_id <$> td_constants dfg) -> is_u32 (tm_constantMemoryDepth target) ->
  let constants := td_constants dfg in
  let count := Z.of_nat (size (words constants)) in
  match constants_allocate dfg target with
  | Ok image =>
      count <= tm_constantMemoryDepth target /\
      (fun e => (ca_constant e, ca_bits e)) <$> image ≡ₚ (fun c => (const_id c, const_bits c)) <$> constants /\
      (forall a, 0 <= a < count <->
         exists c, c ∈ constants /\ constant_address image (const_id c) = Ok a) /\
      (forall c c', c ∈ constants -> c' ∈ constants ->
         (constant_address image (const_id c) = constant_address image (const_id c') <->
          const_word c = const_word c'))
  | Throw e => e = RuntimeError /\ tm_constantMemoryDepth target < count
  end.
Proof.
  intros Hids Hdepth constants count. pose proof (constants_allocate_spec dfg target Hdepth) as Hspec.
  destruct (constants_allocate dfg target) as [image|e] eqn:E; [|done].
  destruct Hspec as (m & _ & Hd & Hs & _).
  destruct (allocated_addresses dfg target Hids Hdepth image E) as (Hperm & Haddr & Hsame & Hdense).
  split_and!.
  - unfold count, constants. by rewrite <- Hd, size_dom.
  - done.
  - intros a. split; [apply Hdense|]. intros (c & Hc & Ha).
    destruct (Haddr c Hc) as (a' & Ha' & Hb & _). rewrite Ha in Ha'. by injection Ha' as <-.
  - intros c c' Hc Hc'. destruct (Haddr c Hc) as (a & Ha & _), (Haddr c' Hc') as (a' & Ha' & _).
    rewrite Ha, Ha'. rewrite <- (Hsame c c' a a') by done. split; congruence.
Qed.

Lemma constants_allocate_exact_witness :
  match constants_allocate v2_accumulate cgra_v2 with
  | Ok image => constant_address image 0 = Ok 0 /\
      forall c c', c ∈ td_constants v2_accumulate -> c' ∈ td_constants v2_accumulate ->
        (constant_address image (const_id c) = constant_address image (const_id c') <->
         const_word c = const_word c')
  | Throw _ => False
  end.
Proof.
  assert (E : exists image, constants_allocate v2_accumulate cgra_v2 = Ok image /\
    constant_address image 0 = Ok 0) by (eexists; split; vm_compute; reflexivity).
  destruct E as (image & E & Ha).
  pose proof (constants_allocate_exact v2_accumulate cgra_v2) as H. cbv zeta in H. rewrite E in H |- *.
  split; [exact Ha|]. apply H.
  - apply (bool_decide_unpack _). vm_compute. exact I.
  - vm_compute. split; congruence.
Defined.
