(* ===== verification/TargetLowering.v ===== *)
(** * Lowering a materialized schedule to control words

    Models [compiler/{include/cgra,lib}/Lowering/TargetLowering.{h,cpp}] with the
    program and result types of its headers: each cycle of the schedule becomes one
    control setting per tile, on which the events of the cycle assign the fields they
    need and must not disagree; the program is checked against the schedule, encoded,
    and described by a manifest.  Message texts and the JSON layout are left out.

    A standard exception that escapes is caught at the end of [TargetLowering::lower]
    and becomes [InternalError]; the calls whose exceptions are caught earlier keep
    the [result] type.  [LowUndefined] marks reads the language leaves undefined: an
    empty optional or an index past the end of a vector. *)
From stdpp Require Import base numbers list gmap sorting strings.
From S2P Require Import Prelude.
From S2P Require Import IR.
From S2P Require Import TargetModel.
From S2P Require Import TargetDFG.
From S2P Require Import TargetDFGVerifier.
From S2P Require Import ModuloResources.
From S2P Require Import ModuloMapping.
From S2P Require Import StageScheduler.
From S2P Require Import StorageRequirements.
From S2P Require Import RFAllocation.
From S2P Require Import MaterializedSchedule.
From S2P Require Import MaterializedVerifier.
From S2P Require Import ControlLayout.
From S2P Require Import ConstantAllocator.

(** ** Programs and results *)

(** A cycle is its vector of tile controls, in row-major order. *)
Abbreviation TargetControlCycle := (list TileControl).
Abbreviation TargetControlPhase := (list TargetControlCycle).

Record RepeatingTargetKernel := mkTargetKernel {
  tk_body : list TargetControlCycle;
  tk_repeatCount : Z
}.

Record TargetControlProgram := mkProgram {
  tcp_ii : Z;
  tcp_tripCount : Z;
  tcp_prologue : TargetControlPhase;
  tcp_kernel : RepeatingTargetKernel;
  tcp_epilogue : TargetControlPhase
}.

(** Each control as its word, four 32-bit chunks. *)
Abbreviation EncodedTargetCycle := (list (list Z)).
Abbreviation EncodedTargetPhase := (list EncodedTargetCycle).

Record EncodedRepeatingKernel := mkEncodedKernel {
  ek_body : list EncodedTargetCycle;
  ek_repeatCount : Z
}.

Record EncodedTargetProgram := mkEncoded {
  ep_prologue : EncodedTargetPhase;
  ep_kernel : EncodedRepeatingKernel;
  ep_epilogue : EncodedTargetPhase
}.

Inductive TargetLoweringStatus :=
  | TLSuccess
  | TLInvalidTargetDFG
  | TLInvalidRFAllocatedMapping
  | TLInvalidMaterializedSchedule
  | TLUnsupportedOperationLowering
  | TLUnsupportedValueSource
  | TLUnsupportedBoundaryProvider
  | TLUnsupportedExternalProvider
  | TLConstantCapacityExceeded
  | TLControlFieldConflict
  | TLSourceConnectivityViolation
  | TLRFAccessPortViolation
  | TLControlEncodingFailure
  | TLManifestBuildFailure
  | TLManifestValidationFailure
  | TLVerificationFailure
  | TLArithmeticOverflow
  | TLInternalError.

#[export] Instance TargetLoweringStatus_eq_dec : EqDecision TargetLoweringStatus.
Proof. solve_decision. Defined.

Record TargetLoweringStats := mkLoweringStats {
  ts_semanticCycles : Z;
  ts_activeTileCycles : Z;
  ts_nodeIssues : Z;
  ts_linkLaunches : Z;
  ts_rfReads : Z;
  ts_rfWrites : Z;
  ts_encodedControls : Z;
  ts_idempotentMerges : Z
}.

Definition no_lowering_stats : TargetLoweringStats := mkLoweringStats 0 0 0 0 0 0 0 0.

(** Increments of single counters. *)
Definition count_merge (s : TargetLoweringStats) : TargetLoweringStats :=
  mkLoweringStats (ts_semanticCycles s) (ts_activeTileCycles s) (ts_nodeIssues s) (ts_linkLaunches s)
    (ts_rfReads s) (ts_rfWrites s) (ts_encodedControls s) (ts_idempotentMerges s + 1).
Definition count_issue (s : TargetLoweringStats) : TargetLoweringStats :=
  mkLoweringStats (ts_semanticCycles s) (ts_activeTileCycles s) (ts_nodeIssues s + 1) (ts_linkLaunches s)
    (ts_rfReads s) (ts_rfWrites s) (ts_encodedControls s) (ts_idempotentMerges s).
Definition count_launch (s : TargetLoweringStats) : TargetLoweringStats :=
  mkLoweringStats (ts_semanticCycles s) (ts_activeTileCycles s) (ts_nodeIssues s) (ts_linkLaunches s + 1)
    (ts_rfReads s) (ts_rfWrites s) (ts_encodedControls s) (ts_idempotentMerges s).
Definition count_read (s : TargetLoweringStats) : TargetLoweringStats :=
  mkLoweringStats (ts_semanticCycles s) (ts_activeTileCycles s) (ts_nodeIssues s) (ts_linkLaunches s)
    (ts_rfReads s + 1) (ts_rfWrites s) (ts_encodedControls s) (ts_idempotentMerges s).
Definition count_write (s : TargetLoweringStats) : TargetLoweringStats :=
  mkLoweringStats (ts_semanticCycles s) (ts_activeTileCycles s) (ts_nodeIssues s) (ts_linkLaunches s)
    (ts_rfReads s) (ts_rfWrites s + 1) (ts_encodedControls s) (ts_idempotentMerges s).
Definition count_encoded (s : TargetLoweringStats) : TargetLoweringStats :=
  mkLoweringStats (ts_semanticCycles s) (ts_activeTileCycles s) (ts_nodeIssues s) (ts_linkLaunches s)
    (ts_rfReads s) (ts_rfWrites s) (ts_encodedControls s + 1) (ts_idempotentMerges s).
Definition set_semanticCycles (n : Z) (s : TargetLoweringStats) : TargetLoweringStats :=
  mkLoweringStats n (ts_activeTileCycles s) (ts_nodeIssues s) (ts_linkLaunches s)
    (ts_rfReads s) (ts_rfWrites s) (ts_encodedControls s) (ts_idempotentMerges s).

(** The options that reach the lowered program or its manifest. *)
Record TargetLoweringOptions := mkLoweringOptions {
  opt_programName : string;
  opt_targetPath : string;
  opt_observation : string;
  opt_scratchpadPreload : list (Z * Z);
  opt_constantImage : ConstantImage
}.

(** ** Lowering steps that may fail *)

Inductive low (A : Type) :=
  | LowOk (a : A)
  | LowFail (status : TargetLoweringStatus)
  | LowUndefined.
Arguments LowOk {A} a.
Arguments LowFail {A} status.
Arguments LowUndefined {A}.

#[export] Instance low_ret : MRet low := fun A a => LowOk a.
#[export] Instance low_bind : MBind low := fun A B f m =>
  match m with LowOk a => f a | LowFail status => LowFail status | LowUndefined => LowUndefined end.

(** A call whose exception ends lowering as [InternalError]. *)
Definition lift {A} (r : result A) : low A :=
  match r with Ok a => LowOk a | Throw _ => LowFail TLInternalError end.

(** [*o] and [v[i]]. *)
Definition deref {A} (o : option A) : low A :=
  match o with Some a => LowOk a | None => LowUndefined end.

(** [throw LoweringError] when the optional is empty. *)
Definition require {A} (status : TargetLoweringStatus) (o : option A) : low A :=
  match o with Some a => LowOk a | None => LowFail status end.

(** ** Names of tiles, ports and sources *)

(** Tile coordinates are unsigned. *)
Definition tileIndex (tile : TileCoord) (target : TargetModel) : low Z :=
  if (arr_rows (tm_array target) <=? tile_row tile) || (arr_cols (tm_array target) <=? tile_col tile)
  then LowFail TLSourceConnectivityViolation
  else LowOk (tile_row tile * arr_cols (tm_array target) + tile_col tile).

Definition directionIndex (direction : Direction) : Z :=
  match direction with North => 0 | South => 1 | East => 2 | West => 3 end.

(** The route at that index. *)
Definition routeOf (direction : Direction) : RouteIndex :=
  match direction with
  | North => RouteNorth | South => RouteSouth | East => RouteEast | West => RouteWest
  end.

Definition dataInput (direction : Direction) : string :=
  match opposite direction with
  | North => "NORTH_DATA_IN" | South => "SOUTH_DATA_IN"
  | East => "EAST_DATA_IN" | West => "WEST_DATA_IN"
  end.

Definition predicateInput (direction : Direction) : string :=
  match opposite direction with
  | North => "NORTH_PRED_IN" | South => "SOUTH_PRED_IN"
  | East => "EAST_PRED_IN" | West => "WEST_PRED_IN"
  end.

Definition rfSource (domain : RegisterBankDomain) (second : bool) : string :=
  match domain with
  | BankData => if second then "RF_B" else "RF_A"
  | BankPredicate => if second then "RF_B" else "RF_A"
  end.

(** [resultSource] of this file, which refuses an operation without a result. *)
Definition loweredResult (source : TargetResultSource) : low string :=
  match source with
  | FuDataResult => LowOk "FU_DATA_RESULT"%string
  | FuPredicateResult => LowOk "FU_PRED_RESULT"%string
  | LsuLoadData => LowOk "LSU_LOAD_DATA"%string
  | SrcNone => LowFail TLUnsupportedOperationLowering
  end.

(** What a link delivers, for an edge of the kind. *)
Definition linkInput (kind : EdgeKind) (direction : Direction) : string :=
  match kind with EKPredicate => predicateInput direction | _ => dataInput direction end.

(** ** The control setting of a tile under construction *)

Record TileBuilder := mkTileBuilder {
  tb_control : TileControl;
  tb_owned : gset string;
  tb_tile : TileCoord
}.

(** A builder with the counters it points to. *)
Abbreviation BuilderState := (TileBuilder * TargetLoweringStats)%type.

(** The assignment every merge ends in: the first one to a field stores the value,
    a later one must repeat it. *)
Definition merge_with {A} `{EqDecision A} (field : string) (get : TileControl -> A)
    (set : A -> TileControl -> TileControl) (value : A) (st : BuilderState) : low BuilderState :=
  let '(b, stats) := st in
  if bool_decide (field ∈ tb_owned b) then
    if bool_decide (get (tb_control b) = value) then LowOk (b, count_merge stats)
    else LowFail TLControlFieldConflict
  else LowOk (mkTileBuilder (set value (tb_control b)) ({[field]} ∪ tb_owned b) (tb_tile b), stats).

(** The members [merge] knows by name. *)
Definition string_members :
    list (string * ((TileControl -> string) * (string -> TileControl -> TileControl))) := [
  ("op", (tc_op, set_op));
  ("srcA", (tc_srcA, set_srcA));
  ("srcB", (tc_srcB, set_srcB));
  ("srcP0", (tc_srcP0, set_srcP0));
  ("srcP1", (tc_srcP1, set_srcP1));
  ("lsuOp", (tc_lsuOp, set_lsuOp));
  ("lsuAddrSource", (tc_lsuAddrSource, set_lsuAddrSource));
  ("lsuStoreDataSource", (tc_lsuStoreDataSource, set_lsuStoreDataSource));
  ("lsuCommitPredicateSource", (tc_lsuCommitPredicateSource, set_lsuCommitPredicateSource));
  ("dataWrite1Source", (tc_dataWrite1Source, set_dataWrite1Source));
  ("predicateWrite1Source", (tc_predicateWrite1Source, set_predicateWrite1Source))].

Definition merge (field value : string) (st : BuilderState) : low BuilderState :=
  match find_if (fun m => String.eqb m.1 field) string_members with
  | Some (_, (get, set)) => merge_with field get set value st
  | None => LowOk st
  end.

Definition mergeBool (field : string) (get : TileControl -> bool)
    (set : bool -> TileControl -> TileControl) (value : bool) : BuilderState -> low BuilderState :=
  merge_with field get set value.

Definition mergeUnsigned (field : string) (get : TileControl -> Z)
    (set : Z -> TileControl -> TileControl) (value : Z) : BuilderState -> low BuilderState :=
  merge_with field get set value.

Definition source (sink : TargetControlSink) (value : string) : BuilderState -> low BuilderState :=
  match sink with
  | FuDataA => merge "srcA" value
  | FuDataB => merge "srcB" value
  | FuPredicate0 => merge "srcP0" value
  | FuPredicate1 => merge "srcP1" value
  | LsuAddress => merge "lsuAddrSource" value
  | LsuStoreData => merge "lsuStoreDataSource" value
  | LsuCommitPredicate => fun st =>
      st ← merge "lsuCommitPredicateSource" value st;
      mergeBool "lsuCommitPredicateEnable" tc_lsuCommitPredicateEnable set_lsuCommitPredicateEnable true st
  end.

(** The routes of a network. *)
Definition get_routes (domain : NetworkDomain) : TileControl -> RouteArray :=
  match domain with NetData => tc_dataRoutes | NetPredicate => tc_predicateRoutes end.
Definition set_routes (domain : NetworkDomain) : RouteArray -> TileControl -> TileControl :=
  match domain with NetData => set_dataRoutes | NetPredicate => set_predicateRoutes end.
Definition route_prefix (domain : NetworkDomain) (direction : Direction) : string :=
  String.append match domain with NetData => "dataRoute" | NetPredicate => "predicateRoute" end
    (to_string (directionIndex direction)).

Definition route (domain : NetworkDomain) (direction : Direction) (value : string)
    (st : BuilderState) : low BuilderState :=
  let index := routeOf direction in
  st ← mergeBool (route_prefix domain direction)
         (fun c => rt_enabled (route_at (get_routes domain c) index))
         (fun v c => set_routes domain (set_enabled index v (get_routes domain c)) c) true st;
  merge_with (String.append (route_prefix domain direction) "Source")
    (fun c => rt_source (route_at (get_routes domain c) index))
    (fun v c => set_routes domain (set_source index v (get_routes domain c)) c) value st.

(** The register bank must take the value at the port. *)
Definition check_write (target : TargetModel) (domain : RegisterBankDomain) (tile : TileCoord)
    (port : Z) (value : string) : low unit :=
  match registerBank target domain (tile_row tile) (tile_col tile) with
  | None => LowFail TLRFAccessPortViolation
  | Some bank => if port_accepts bank port value then LowOk () else LowFail TLRFAccessPortViolation
  end.

Definition dataWrite (target : TargetModel) (port address : Z) (value : string) (st : BuilderState)
  : low BuilderState :=
  _ ← check_write target BankData (tb_tile st.1) port value;
  if port =? 0 then
    st ← mergeBool "dataWrite0Enable" tc_dataWrite0Enable set_dataWrite0Enable true st;
    st ← mergeUnsigned "dataWrite0Addr" tc_dataWrite0Addr set_dataWrite0Addr address st;
    if String.eqb value "FU_DATA_RESULT" then LowOk st else LowFail TLRFAccessPortViolation
  else
    st ← mergeBool "dataWrite1Enable" tc_dataWrite1Enable set_dataWrite1Enable true st;
    st ← mergeUnsigned "dataWrite1Addr" tc_dataWrite1Addr set_dataWrite1Addr address st;
    merge "dataWrite1Source" value st.

Definition predicateWrite (target : TargetModel) (port address : Z) (value : string)
    (st : BuilderState) : low BuilderState :=
  _ ← check_write target BankPredicate (tb_tile st.1) port value;
  if port =? 0 then
    st ← mergeBool "predicateWrite0Enable" tc_predicateWrite0Enable set_predicateWrite0Enable true st;
    st ← mergeUnsigned "predicateWrite0Addr" tc_predicateWrite0Addr set_predicateWrite0Addr address st;
    if String.eqb value "FU_PRED_RESULT" then LowOk st else LowFail TLRFAccessPortViolation
  else
    st ← mergeBool "predicateWrite1Enable" tc_predicateWrite1Enable set_predicateWrite1Enable true st;
    st ← mergeUnsigned "predicateWrite1Addr" tc_predicateWrite1Addr set_predicateWrite1Addr address st;
    merge "predicateWrite1Source" value st.

(** The write of the segment's domain. *)
Definition port_write (target : TargetModel) (domain : RegisterBankDomain)
  : Z -> Z -> string -> BuilderState -> low BuilderState :=
  match domain with BankData => dataWrite target | BankPredicate => predicateWrite target end.

Definition constant (address : Z) : BuilderState -> low BuilderState :=
  mergeUnsigned "constantAddr" tc_constantAddr set_constantAddr address.

(** ** Where operand values come from *)

Definition operand_of (info : EdgeInfo) : option Z :=
  match info with
  | DataEdgeInfo operand _ | PredicateEdgeInfo operand _ => Some operand
  | MemoryEdgeInfo _ => None
  end.

(** The first incoming value edge of the operand. *)
Fixpoint edge_with_operand (dfg : TargetDFG) (edges : list Z) (operand : Z)
  : result (option TargetEdge) :=
  match edges with
  | [] => Ok None
  | id :: edges =>
      edge ← td_edge dfg id;
      if bool_decide (operand_of (te_info edge) = Some operand) then Ok (Some edge)
      else edge_with_operand dfg edges operand
  end.

Definition edgeForOperand (dfg : TargetDFG) (node operand : Z) : result (option TargetEdge) :=
  edges ← incoming dfg node; edge_with_operand dfg edges operand.

Definition bindingForOperand (dfg : TargetDFG) (node operand : Z) : option TargetOperandBinding :=
  find_if (fun b => (tb_node b =? node) && (tb_operand b =? operand)) (td_bindings dfg).

Definition constantFor (dfg : TargetDFG) (id : Z) : option ConstantValue :=
  find_if (fun c => const_id c =? id) (td_constants dfg).

(** The constant an iteration before the first takes from the recurrence boundary,
    by its position in the vector of boundary values. *)
Definition boundaryConstantFor (edge : TargetEdge) (producerIteration : Z) : low (option Z) :=
  if (0 <=? producerIteration) || (te_distance edge =? 0) then LowOk None
  else
    let offset := producerIteration + te_distance edge in
    if (offset <? 0) || (te_distance edge <=? offset) then LowFail TLInvalidMaterializedSchedule
    else
      match te_info edge with
      | MemoryEdgeInfo _ => LowFail TLInternalError
      | DataEdgeInfo _ None | PredicateEdgeInfo _ None => LowFail TLUnsupportedBoundaryProvider
      | DataEdgeInfo _ (Some values) | PredicateEdgeInfo _ (Some values) =>
          match values !! nat_of offset with
          | None => LowFail TLUnsupportedBoundaryProvider
          | Some value =>
              match rbv_value value with
              | ExternalValueRef _ => LowFail TLUnsupportedExternalProvider
              | ConstantRef id => LowOk (Some id)
              end
          end
      end.

Definition constant_symbol (c : ConstantValue) : string :=
  if const_bits c =? 0 then "CONST_FALSE" else "CONST_TRUE".

Definition boundarySource (dfg : TargetDFG) (edge : TargetEdge) (producerIteration : Z) : low string :=
  id ← boundaryConstantFor edge producerIteration;
  match id with
  | None => LowOk ""%string
  | Some id =>
      value ← require TLUnsupportedBoundaryProvider (constantFor dfg id);
      LowOk match TargetEdge_kind edge with EKPredicate => constant_symbol value | _ => "CONST_DATA"%string end
  end.

Definition segmentForEdgeAtTile (mapping : RFAllocatedMapping) (edge : Z) (tile : TileCoord)
  : option StorageSegment :=
  find_if (fun s => (sg_edge s =? edge) && bool_decide (sg_tile s = tile))
    (rq_segments (ra_requirements mapping)).

Definition mappedEdge (mapping : RFAllocatedMapping) (edge : Z) : result MappedDependence :=
  dependence (sm_modulo (ra_staged mapping)) edge.

(** ** Events *)

Section Lowerer.
Context (dfg : TargetDFG) (target : TargetModel) (mapping : RFAllocatedMapping).
Context (image : ConstantImage).

(** [builder.constant(options.constantImage.address(id))]. *)
Definition load_constant (id : Z) (st : BuilderState) : low BuilderState :=
  address ← lift (constant_address image id); constant address st.

Definition producer_result (edge : TargetEdge) : low string :=
  node ← lift (td_node dfg (te_src edge));
  op ← lift (operation target (tn_operation node));
  loweredResult (op_resultSource op).

(** A [BoundaryValueInject]. *)
Definition event_boundary (event : MaterializedEvent) (st : BuilderState) : low BuilderState :=
  edge ← require TLInvalidMaterializedSchedule (ev_edge event);
  _ ← require TLInvalidMaterializedSchedule (ev_boundaryValue event);
  if ev_logicalIteration event =? 0 then LowFail TLInvalidMaterializedSchedule
  else
    edge ← lift (td_edge dfg edge);
    id ← boundaryConstantFor edge (ev_logicalIteration event);
    id ← require TLUnsupportedBoundaryProvider id;
    load_constant id st.

(** The sinks that take a predicate. *)
Definition predicate_sink (sink : TargetControlSink) : bool :=
  match sink with FuPredicate0 | FuPredicate1 | LsuCommitPredicate => true | _ => false end.

(** An operand bound to a constant. *)
Definition bound_source (binding : ExternalOperandBinding) (sink : TargetControlSink)
    (st : BuilderState) : low (string * BuilderState) :=
  match binding with
  | ExternalValueRef _ => LowFail TLUnsupportedExternalProvider
  | ConstantRef id =>
      value ← require TLUnsupportedValueSource (constantFor dfg id);
      st ← load_constant id st;
      LowOk (if predicate_sink sink then constant_symbol value else "CONST_DATA"%string, st)
  end.

(** The read address of a port, and the control member it sets. *)
Definition read_address (domain : RegisterBankDomain) (port index : Z) : BuilderState -> low BuilderState :=
  match domain with
  | BankData =>
      if port =? 0 then mergeUnsigned "dataRfReadAddrA" tc_dataRfReadAddrA set_dataRfReadAddrA index
      else mergeUnsigned "dataRfReadAddrB" tc_dataRfReadAddrB set_dataRfReadAddrB index
  | BankPredicate =>
      if port =? 0 then
        mergeUnsigned "predicateRfReadAddrA" tc_predicateRfReadAddrA set_predicateRfReadAddrA index
      else mergeUnsigned "predicateRfReadAddrB" tc_predicateRfReadAddrB set_predicateRfReadAddrB index
  end.

(** An operand an edge delivers: from a register of the tile, or off its last link. *)
Definition edge_source (event : MaterializedEvent) (edge : TargetEdge) (st : BuilderState)
  : low (string * BuilderState) :=
  match TargetEdge_kind edge with
  | EKMemory => LowFail TLUnsupportedValueSource
  | kind =>
      tile ← deref (ev_tile event);
      match segmentForEdgeAtTile mapping (te_id edge) tile with
      | Some segment =>
          allocation ← lift (allocationFor mapping (sg_id segment));
          let reg := sl_reg allocation in
          bank ← require TLRFAccessPortViolation
            (registerBank target (sg_domain segment) (tile_row (pr_tile reg)) (tile_col (pr_tile reg)));
          if rf_readPorts bank <=? sl_readPort allocation then LowFail TLRFAccessPortViolation
          else
            st ← read_address (sg_domain segment) (sl_readPort allocation) (pr_index reg) st;
            LowOk (rfSource (sg_domain segment) (sl_readPort allocation =? 1), st)
      | None =>
          d ← lift (mappedEdge mapping (te_id edge));
          match last (default [] (tp_actions <$> md_transport d)) with
          | Some (LinkStep _ _ direction _) => LowOk (linkInput kind direction, st)
          | _ => LowFail TLUnsupportedValueSource
          end
      end
  end.

(** The source of an operand; [None] when an optional operand has none. *)
Definition operand_source (event : MaterializedEvent) (node : TargetNode) (op : TargetOperationDesc)
    (index : Z) (sink : TargetControlSink) (st : BuilderState) : low (option string * BuilderState) :=
  edge ← lift (edgeForOperand dfg (tn_id node) index);
  match bindingForOperand dfg (tn_id node) index, edge with
  | Some binding, _ =>
      '(value, st) ← bound_source (tb_source binding) sink st; LowOk (Some value, st)
  | None, Some edge =>
      '(value, st) ← edge_source event edge st; LowOk (Some value, st)
  | None, None =>
      match op_operands op !! nat_of index with
      | Some operand => if od_optional operand then LowOk (None, st) else LowFail TLUnsupportedValueSource
      | None => LowFail TLUnsupportedValueSource
      end
  end.

Fixpoint lower_operands (event : MaterializedEvent) (node : TargetNode) (op : TargetOperationDesc)
    (sinks : list (Z * TargetControlSink)) (st : BuilderState) : low BuilderState :=
  match sinks with
  | [] => LowOk st
  | (index, sink) :: sinks =>
      '(value, st) ← operand_source event node op index sink st;
      st ← match value with Some value => source sink value st | None => LowOk st end;
      lower_operands event node op sinks st
  end.

(** A [NodeIssue]. *)
Definition event_node_issue (event : MaterializedEvent) (st : BuilderState) : low BuilderState :=
  node ← require TLInvalidMaterializedSchedule (ev_node event);
  node ← lift (td_node dfg node);
  op ← lift (operation target (tn_operation node));
  encoding ← require TLUnsupportedOperationLowering (op_encoding op);
  '(b, stats) ← merge match op_executionClass op with FU => "op" | LSU => "lsuOp" end
                  (enc_symbol encoding) st;
  lower_operands event node op (op_operandSinks op) (b, count_issue stats).

(** [actions[i]], where the code does not check the index. *)
Definition action_at (actions : list TransportAction) (i : Z) : low TransportAction :=
  if i <? 0 then LowUndefined else deref (actions !! nat_of i).

(** What a link carries: the register of the hold before it, the link before it, a
    recurrence boundary, or the producer's result. *)
Definition link_source (event : MaterializedEvent) (edge : TargetEdge) (actions : list TransportAction)
    (index : Z) (st : BuilderState) : low (string * BuilderState) :=
  let start :=
    boundary ← boundaryConstantFor edge (ev_logicalIteration event);
    match boundary with
    | Some id =>
        st ← load_constant id st;
        value ← boundarySource dfg edge (ev_logicalIteration event);
        LowOk (value, st)
    | None => value ← producer_result edge; LowOk (value, st)
    end in
  if 0 <? index then
    prior ← action_at actions (index - 1);
    match prior with
    | VirtualHold _ tile _ _ =>
        segment ← require TLUnsupportedValueSource (segmentForEdgeAtTile mapping (te_id edge) tile);
        allocation ← lift (allocationFor mapping (sg_id segment));
        LowOk (rfSource (sg_domain segment) (sl_readPort allocation =? 1), st)
    | LinkStep _ _ direction _ => LowOk (linkInput (TargetEdge_kind edge) direction, st)
    end
  else start.

(** A [LinkLaunch]. *)
Definition event_link_launch (event : MaterializedEvent) (st : BuilderState) : low BuilderState :=
  edge ← require TLInvalidMaterializedSchedule (ev_edge event);
  direction ← require TLInvalidMaterializedSchedule (ev_direction event);
  domain ← require TLInvalidMaterializedSchedule (ev_domain event);
  index ← require TLInvalidMaterializedSchedule (ev_transportActionIndex event);
  e ← lift (td_edge dfg edge);
  match TargetEdge_kind e with
  | EKMemory => LowFail TLUnsupportedValueSource
  | _ =>
      d ← lift (mappedEdge mapping edge);
      plan ← require TLInvalidMaterializedSchedule (md_transport d);
      if Z.of_nat (length (tp_actions plan)) <=? index then LowFail TLInvalidMaterializedSchedule
      else
        '(value, st) ← link_source event e (tp_actions plan) index st;
        '(b, stats) ← route domain direction value st;
        LowOk (b, count_launch stats)
  end.

(** What a register written from a transport stores: the link before the hold, the
    last link before terminal slack, or the producer's result. *)
Definition hold_source (edge : TargetEdge) (index : Z) : low string :=
  d ← lift (mappedEdge mapping (te_id edge));
  plan ← deref (md_transport d);
  if 0 <? index then
    prior ← action_at (tp_actions plan) (index - 1);
    match prior with
    | LinkStep _ _ direction _ => LowOk (linkInput (TargetEdge_kind edge) direction)
    | VirtualHold _ _ _ _ => producer_result edge
    end
  else producer_result edge.

Definition terminal_source (edge : TargetEdge) : low string :=
  d ← lift (mappedEdge mapping (te_id edge));
  plan ← deref (md_transport d);
  match last (tp_actions plan) with
  | Some (LinkStep _ _ direction _) => LowOk (linkInput (TargetEdge_kind edge) direction)
  | _ => producer_result edge
  end.

(** The transport index of the first hold among the origins. *)
Definition hold_origin (origins : list StorageOrigin) : option Z :=
  find_if (fun o => bool_decide (so_kind o = ExplicitVirtualHold) &&
                    bool_decide (is_Some (so_transportActionIndex o))) origins
    ≫= so_transportActionIndex.

Definition write_source (event : MaterializedEvent) (edge : TargetEdge) (segment : StorageSegment)
    (st : BuilderState) : low (string * BuilderState) :=
  boundary ← boundaryConstantFor edge (ev_logicalIteration event);
  '(value, st) ← match boundary with
                 | Some id =>
                     st ← load_constant id st;
                     value ← boundarySource dfg edge (ev_logicalIteration event);
                     LowOk (value, st)
                 | None => LowOk (""%string, st)
                 end;
  if negb (String.eqb value "") then LowOk (value, st)
  else
    value ← match hold_origin (sg_origins segment) with
            | Some index => hold_source edge index
            | None => LowOk ""%string
            end;
    if negb (String.eqb value "") then LowOk (value, st)
    else value ← terminal_source edge; LowOk (value, st).

(** An [RFWrite]. *)
Definition event_rf_write (event : MaterializedEvent) (st : BuilderState) : low BuilderState :=
  segment ← require TLInvalidMaterializedSchedule (ev_segment event);
  reg ← require TLInvalidMaterializedSchedule (ev_physicalRegister event);
  edge ← require TLInvalidMaterializedSchedule (ev_edge event);
  segment ← lift (rq_segment (ra_requirements mapping) segment);
  edge ← lift (td_edge dfg edge);
  '(value, st) ← write_source event edge segment st;
  allocation ← lift (allocationFor mapping (sg_id segment));
  boundary ← boundaryConstantFor edge (ev_logicalIteration event);
  let port := match boundary, sl_boundaryWritePort allocation with
              | Some _, Some port => port
              | _, _ => sl_writePort allocation
              end in
  '(b, stats) ← port_write target (sg_domain segment) port (pr_index reg) value st;
  LowOk (b, count_write stats).

(** [Lowerer::event]. *)
Definition lower_event (event : MaterializedEvent) (st : BuilderState) : low BuilderState :=
  match ev_kind event with
  | BoundaryValueInject => event_boundary event st
  | LiveOutBoundaryUse => LowOk st
  | NodeIssue => event_node_issue event st
  | LinkLaunch => _ ← require TLInvalidMaterializedSchedule (ev_tile event); event_link_launch event st
  | RFWrite => _ ← require TLInvalidMaterializedSchedule (ev_tile event); event_rf_write event st
  | RFRead =>
      _ ← require TLInvalidMaterializedSchedule (ev_tile event); LowOk (st.1, count_read st.2)
  end.

(** ** Cycles *)

Definition tile_count : Z := arr_rows (tm_array target) * arr_cols (tm_array target).

Definition new_builder (index : Z) : TileBuilder :=
  mkTileBuilder default_control ∅
    (mkTile (index / arr_cols (tm_array target)) (index mod arr_cols (tm_array target))).

(** Assigning [tile]. *)
Definition on_tile (event : MaterializedEvent) (tile : TileCoord) : MaterializedEvent :=
  mkEvent (ev_kind event) (ev_logicalIteration event) (ev_node event) (ev_edge event)
    (ev_segment event) (ev_liveOut event) (ev_transportActionIndex event)
    (ev_consumerIterationOffset event) (ev_boundaryValue event) (ev_domain event) (Some tile)
    (ev_direction event) (ev_physicalRegister event).

(** The event with its tile; a node issue without one happens where its node is placed. *)
Definition resolve_tile (event : MaterializedEvent) : low (MaterializedEvent * TileCoord) :=
  match ev_tile event, ev_kind event, ev_node event with
  | Some tile, _, _ => LowOk (event, tile)
  | None, NodeIssue, Some node =>
      p ← lift (placement (sm_modulo (ra_staged mapping)) node);
      LowOk (on_tile event (np_tile p), np_tile p)
  | None, _, _ => LowFail TLInvalidMaterializedSchedule
  end.

(** One event on the builder of its tile; [builders.at] checks its index. *)
Definition cycle_step (event : MaterializedEvent) (st : list TileBuilder * TargetLoweringStats)
  : low (list TileBuilder * TargetLoweringStats) :=
  if bool_decide (ev_kind event = LiveOutBoundaryUse) then LowOk st
  else
    '(event, tile) ← resolve_tile event;
    index ← tileIndex tile target;
    b ← lift (of_option OutOfRange (st.1 !! nat_of index));
    '(b, stats) ← lower_event event (b, st.2);
    LowOk (<[nat_of index := b]> st.1, stats).

Fixpoint cycle_loop (events : list MaterializedEvent) (st : list TileBuilder * TargetLoweringStats)
  : low (list TileBuilder * TargetLoweringStats) :=
  match events with
  | [] => LowOk st
  | event :: events => st ← cycle_step event st; cycle_loop events st
  end.

Definition lowerCycle (bundle : CycleBundle) (stats : TargetLoweringStats)
  : low (TargetControlCycle * TargetLoweringStats) :=
  '(builders, stats) ← cycle_loop bundle (new_builder <$> range tile_count, stats);
  LowOk (fmap (M:=list) tb_control builders, stats).

Fixpoint lower_cycles (bundles : list CycleBundle) (stats : TargetLoweringStats)
  : low (TargetControlPhase * TargetLoweringStats) :=
  match bundles with
  | [] => LowOk ([], stats)
  | bundle :: bundles =>
      '(cycle, stats) ← lowerCycle bundle stats;
      '(cycles, stats) ← lower_cycles bundles stats;
      LowOk (cycle :: cycles, stats)
  end.

(** The bundles of one kernel iteration: missing ones are empty, surplus ones ignored. *)
Definition kernel_bundles (schedule : MaterializedSchedule) : list CycleBundle :=
  (fun cycle => default [] (rk_body (sch_kernel schedule) !! nat_of cycle)) <$> range (sch_ii schedule).

(** [Lowerer::run]. *)
Definition lower_run (schedule : MaterializedSchedule)
  : low (TargetControlProgram * TargetLoweringStats) :=
  if sch_ii schedule =? 0 then LowFail TLInvalidMaterializedSchedule
  else
    '(prologue, stats) ← lower_cycles (sch_prologue schedule) no_lowering_stats;
    '(body, stats) ← lower_cycles (kernel_bundles schedule) stats;
    '(epilogue, stats) ← lower_cycles (sch_epilogue schedule) stats;
    let cycles := Z.of_nat (length prologue) + Z.of_nat (length body) + Z.of_nat (length epilogue) in
    LowOk (mkProgram (sch_ii schedule) (sch_tripCount schedule) prologue
             (mkTargetKernel body (rk_repeatCount (sch_kernel schedule))) epilogue,
           set_semanticCycles cycles stats).
End Lowerer.

(** ** Encoding *)

(** One control, with the check that its word decodes to a control of the same word. *)
Definition encode_control (target : TargetModel) (control : TileControl) : low (list Z) :=
  bits ← lift (encode target control);
  decoded ← lift (decode target bits);
  again ← lift (encode target decoded);
  if bool_decide (again = bits) then LowOk bits else LowFail TLControlEncodingFailure.

Fixpoint encode_cycle (target : TargetModel) (tiles : TargetControlCycle) (stats : TargetLoweringStats)
  : low (EncodedTargetCycle * TargetLoweringStats) :=
  match tiles with
  | [] => LowOk ([], stats)
  | control :: tiles =>
      bits ← encode_control target control;
      '(words, stats) ← encode_cycle target tiles (count_encoded stats);
      LowOk (bits :: words, stats)
  end.

Fixpoint encode_phase (target : TargetModel) (cycles : TargetControlPhase) (stats : TargetLoweringStats)
  : low (EncodedTargetPhase * TargetLoweringStats) :=
  match cycles with
  | [] => LowOk ([], stats)
  | tiles :: cycles =>
      '(cycle, stats) ← encode_cycle target tiles stats;
      '(phase, stats) ← encode_phase target cycles stats;
      LowOk (cycle :: phase, stats)
  end.

Definition encodeProgram (program : TargetControlProgram) (target : TargetModel)
    (stats : TargetLoweringStats) : low (EncodedTargetProgram * TargetLoweringStats) :=
  '(prologue, stats) ← encode_phase target (tcp_prologue program) stats;
  '(body, stats) ← encode_phase target (tk_body (tcp_kernel program)) stats;
  '(epilogue, stats) ← encode_phase target (tcp_epilogue program) stats;
  LowOk (mkEncoded prologue (mkEncodedKernel body (tk_repeatCount (tcp_kernel program))) epilogue, stats).

(** ** The manifest *)

(** What the JSON document says: the length of a run, the loop descriptor, and per
    tile in row-major order its control words with their program counters, the
    constant memory and the scratchpad. *)
Record TileImage := mkTileImage {
  ti_row : Z;
  ti_col : Z;
  ti_control : list (Z * list Z);
  ti_constants : list (Z * Z);
  ti_scratchpad : list (Z * Z)
}.

Record ProgramManifest := mkManifest {
  pm_name : string;
  pm_target : string * string;
  pm_contractVersion : Z;
  pm_observation : string;
  pm_runCycles : Z;
  pm_prologueCycles : Z;
  pm_ii : Z;
  pm_tripCount : Z;
  pm_epilogueCycles : Z;
  pm_tiles : list TileImage
}.

(** The column of words of one tile, numbered from [pc] on; [tiles.at] checks the index. *)
Fixpoint tile_words (index : nat) (pc : Z) (cycles : list EncodedTargetCycle)
  : low (list (Z * list Z)) :=
  match cycles with
  | [] => LowOk []
  | cycle :: cycles =>
      chunks ← lift (of_option OutOfRange (cycle !! index));
      rest ← tile_words index (pc + 1) cycles;
      LowOk ((pc, chunks) :: rest)
  end.

(** The first constant of each address. *)
Fixpoint constant_memory (emitted : gset Z) (image : ConstantImage) : list (Z * Z) :=
  match image with
  | [] => []
  | allocation :: image =>
      if bool_decide (ca_address allocation ∈ emitted) then constant_memory emitted image
      else (ca_address allocation, wrap32 (ca_bits allocation)) ::
           constant_memory ({[ca_address allocation]} ∪ emitted) image
  end.

Definition all_cycles (encoded : EncodedTargetProgram) : list EncodedTargetCycle :=
  ep_prologue encoded ++ ek_body (ep_kernel encoded) ++ ep_epilogue encoded.

Fixpoint tile_images (target : TargetModel) (encoded : EncodedTargetProgram)
    (options : TargetLoweringOptions) (tiles : list (Z * Z)) : low (list TileImage) :=
  match tiles with
  | [] => LowOk []
  | (row, col) :: tiles =>
      control ← tile_words (nat_of (row * arr_cols (tm_array target) + col)) 0 (all_cycles encoded);
      rest ← tile_images target encoded options tiles;
      LowOk (mkTileImage row col control (constant_memory ∅ (opt_constantImage options))
               (if (row =? 0) && (col =? 0) then opt_scratchpadPreload options else []) :: rest)
  end.

(** A kernel that never repeats is replayed once. *)
Definition replay_count (encoded : EncodedTargetProgram) : Z :=
  let repeats := ek_repeatCount (ep_kernel encoded) in if repeats =? 0 then 1 else repeats.

(** [ProgramManifestBuilder::build]; the run length is an unsigned 64-bit sum. *)
Definition build_manifest (target : TargetModel) (program : TargetControlProgram)
    (encoded : EncodedTargetProgram) (options : TargetLoweringOptions) : low ProgramManifest :=
  let prologue := Z.of_nat (length (ep_prologue encoded)) in
  let epilogue := Z.of_nat (length (ep_epilogue encoded)) in
  let replay := replay_count encoded in
  images ← tile_images target encoded options (tiles target);
  LowOk (mkManifest (opt_programName options) (tm_name target, opt_targetPath options)
           (tm_contractVersion target) (opt_observation options)
           (wrap64 (prologue + replay * tcp_ii program + epilogue))
           prologue (tcp_ii program) replay epilogue images).

(** ** The program verifier *)

Section ProgramVerifier.
Context (dfg : TargetDFG) (target : TargetModel) (mapping : RFAllocatedMapping).

Definition phase_shaped (cycles : TargetControlPhase) : bool :=
  forallb (fun tiles => Z.of_nat (length tiles) =? tile_count target) cycles.

Definition encodable (cycles : TargetControlPhase) : bool :=
  forallb (forallb (fun control => is_Ok (encode target control))) cycles.

Definition issue_represented (event : MaterializedEvent) (control : TileControl) : low bool :=
  match ev_node event with
  | None => LowOk false
  | Some node =>
      node ← lift (td_node dfg node);
      op ← lift (operation target (tn_operation node));
      LowOk match op_encoding op with
            | None => false
            | Some encoding =>
                match op_executionClass op with
                | FU => String.eqb (tc_op control) (enc_symbol encoding)
                | LSU => String.eqb (tc_lsuOp control) (enc_symbol encoding)
                end
            end
  end.

Definition link_represented (event : MaterializedEvent) (control : TileControl) : bool :=
  match ev_direction event, ev_domain event with
  | Some direction, Some domain =>
      let route := route_at (get_routes domain control) (routeOf direction) in
      rt_enabled route && negb (String.eqb (rt_source route) "NONE")
  | _, _ => false
  end.

(** Some port is enabled, and not both are enabled for other registers. *)
Definition writes_register (enable0 : bool) (address0 : Z) (enable1 : bool) (address1 index : Z) : bool :=
  (enable0 || enable1) &&
  negb ((enable0 && negb (address0 =? index)) && (enable1 && negb (address1 =? index))).

Definition write_represented (event : MaterializedEvent) (control : TileControl) : low bool :=
  match ev_physicalRegister event, ev_segment event with
  | Some reg, Some segment =>
      segment ← lift (rq_segment (ra_requirements mapping) segment);
      LowOk match registerBank target (sg_domain segment) (tile_row (pr_tile reg)) (tile_col (pr_tile reg)) with
            | None => false
            | Some bank =>
                bool_decide (pr_tile reg = sg_tile segment) && (pr_index reg <? rf_depth bank) &&
                allocates bank (pr_index reg) &&
                match sg_domain segment with
                | BankData => writes_register (tc_dataWrite0Enable control) (tc_dataWrite0Addr control)
                    (tc_dataWrite1Enable control) (tc_dataWrite1Addr control) (pr_index reg)
                | BankPredicate => writes_register (tc_predicateWrite0Enable control)
                    (tc_predicateWrite0Addr control) (tc_predicateWrite1Enable control)
                    (tc_predicateWrite1Addr control) (pr_index reg)
                end
            end
  | _, _ => LowOk false
  end.

Definition read_represented (event : MaterializedEvent) (control : TileControl) : low bool :=
  match ev_physicalRegister event, ev_segment event with
  | Some reg, Some segment =>
      segment ← lift (rq_segment (ra_requirements mapping) segment);
      LowOk (bool_decide (pr_tile reg = sg_tile segment) &&
             match sg_domain segment with
             | BankData => (tc_dataRfReadAddrA control =? pr_index reg) ||
                           (tc_dataRfReadAddrB control =? pr_index reg)
             | BankPredicate => (tc_predicateRfReadAddrA control =? pr_index reg) ||
                                (tc_predicateRfReadAddrB control =? pr_index reg)
             end)
  | _, _ => LowOk false
  end.

(** The tile of an event for the verifier. *)
Definition verified_tile (event : MaterializedEvent) : low (option TileCoord) :=
  match ev_tile event, ev_kind event, ev_node event with
  | Some tile, _, _ => LowOk (Some tile)
  | None, NodeIssue, Some node =>
      p ← lift (placement (sm_modulo (ra_staged mapping)) node); LowOk (Some (np_tile p))
  | None, _, _ => LowOk None
  end.

Definition event_represented (event : MaterializedEvent) (tiles : TargetControlCycle) : low bool :=
  match ev_kind event with
  | LiveOutBoundaryUse => LowOk true
  | kind =>
      tile ← verified_tile event;
      match tile with
      | None => LowOk false
      | Some tile =>
          index ← tileIndex tile target;
          control ← lift (of_option OutOfRange (tiles !! nat_of index));
          match kind with
          | NodeIssue => issue_represented event control
          | LinkLaunch => LowOk (link_represented event control)
          | RFWrite => write_represented event control
          | RFRead => read_represented event control
          | _ => LowOk true
          end
      end
  end.

(** [verifyBundle]. *)
Fixpoint bundle_represented (events : CycleBundle) (tiles : TargetControlCycle) : low bool :=
  match events with
  | [] => LowOk true
  | event :: events =>
      b ← event_represented event tiles;
      if negb b then LowOk false else bundle_represented events tiles
  end.

(** The loop over the cycles of a phase, indexing the program by the schedule's cycles. *)
Fixpoint bundles_represented (bundles : list CycleBundle) (cycle : nat) (program : TargetControlPhase)
  : low bool :=
  match bundles with
  | [] => LowOk true
  | bundle :: bundles =>
      tiles ← deref (program !! cycle);
      b ← bundle_represented bundle tiles;
      if negb b then LowOk false else bundles_represented bundles (S cycle) program
  end.

(** [TargetControlProgramVerifier::verify]. *)
Definition program_verify (schedule : MaterializedSchedule) (program : TargetControlProgram) : low bool :=
  let body := tk_body (tcp_kernel program) in
  if negb (tcp_ii program =? sch_ii schedule) || negb (tcp_tripCount program =? sch_tripCount schedule)
  then LowOk false
  else if negb (phase_shaped (tcp_prologue program)) || negb (phase_shaped (tcp_epilogue program)) ||
          negb (Z.of_nat (length body) =? tcp_ii program) || negb (phase_shaped body)
  then LowOk false
  else if negb (encodable (tcp_prologue program) && encodable body && encodable (tcp_epilogue program))
  then LowOk false
  else
    b ← bundles_represented (sch_prologue schedule) 0 (tcp_prologue program);
    if negb b then LowOk false
    else
      b ← bundles_represented (rk_body (sch_kernel schedule)) 0 body;
      if negb b then LowOk false
      else bundles_represented (sch_epilogue schedule) 0 (tcp_epilogue program).
End ProgramVerifier.

(** ** Lowering *)

Record TargetLoweringResult := mkLoweringResult {
  tlr_status : TargetLoweringStatus;
  tlr_controls : option TargetControlProgram;
  tlr_encoded : option EncodedTargetProgram;
  tlr_manifest : option ProgramManifest;
  tlr_stats : TargetLoweringStats;
  tlr_diagnostics : list TargetLoweringStatus;
  tlr_constantImage : ConstantImage
}.

Definition lowering_ok (r : TargetLoweringResult) : bool := bool_decide (tlr_status r = TLSuccess).

Definition with_image (options : TargetLoweringOptions) (image : ConstantImage) : TargetLoweringOptions :=
  mkLoweringOptions (opt_programName options) (opt_targetPath options) (opt_observation options)
    (opt_scratchpadPreload options) image.

(** A report that must be clean. *)
Definition must_pass {A} (status : TargetLoweringStatus) (report : result (list A)) : low unit :=
  report ← lift report; match report with [] => LowOk () | _ => LowFail status end.

(** What is set before an exception: once the program is encoded the status is
    [Success] and the images are stored, and then the manifest is built. *)
Definition lower_program (dfg : TargetDFG) (target : TargetModel) (mapping : RFAllocatedMapping)
    (schedule : MaterializedSchedule) (options : TargetLoweringOptions)
  : low (TargetControlProgram * EncodedTargetProgram * TargetLoweringStats * TargetLoweringOptions) :=
  _ ← must_pass TLInvalidTargetDFG (tdfg_verify dfg target None);
  _ ← must_pass TLInvalidRFAllocatedMapping (rf_verify dfg target mapping);
  _ ← must_pass TLInvalidMaterializedSchedule
        (msv_verify dfg target mapping (mkMatRequest (sch_tripCount schedule) default_materialization_budget)
           schedule);
  image ← match constants_allocate dfg target with
          | Ok image => LowOk image
          | Throw _ => LowFail TLConstantCapacityExceeded
          end;
  '(controls, stats) ← lower_run dfg target mapping image schedule;
  verified ← program_verify dfg target mapping schedule controls;
  if negb verified then LowFail TLVerificationFailure
  else
    '(encoded, stats) ← encodeProgram controls target stats;
    LowOk (controls, encoded, stats, with_image options image).

(** [TargetLowering::lower]; [None] when the run is undefined. *)
Definition target_lower (dfg : TargetDFG) (target : TargetModel) (mapping : RFAllocatedMapping)
    (schedule : MaterializedSchedule) (options : TargetLoweringOptions) : option TargetLoweringResult :=
  let failed controls encoded status :=
    Some (mkLoweringResult status controls encoded None no_lowering_stats [status] []) in
  match lower_program dfg target mapping schedule options with
  | LowUndefined => None
  | LowFail status => failed None None status
  | LowOk (controls, encoded, stats, options) =>
      match build_manifest target controls encoded options with
      | LowUndefined => None
      | LowFail status => failed (Some controls) (Some encoded) status
      | LowOk manifest =>
          Some (mkLoweringResult TLSuccess (Some controls) (Some encoded) (Some manifest) stats []
                  (opt_constantImage options))
      end
  end.
