(* ===== verification/ControlOverlay.v ===== *)
(** * Control settings as overlays

    The members of a tile's control setting by name, the default setting overlaid
    with values that members need to hold ([overlay]), and the proof that the
    builder's merging records exactly the needs it is given, or finds that they
    disagree ([records], [adds]). *)
From stdpp Require Import base numbers list gmap sorting strings.
From S2P Require Import Prelude.
From S2P Require Import IR.
From S2P Require Import TargetModel.
From S2P Require Import TargetDFG.
From S2P Require Import TargetDFGVerifier.
From S2P Require Import ModuloResources.
From S2P Require Import ModuloMapping.
From S2P Require Import StageScheduler.
From S2P Require Import StorageRequirements.
From S2P Require Import RFAllocation.
From S2P Require Import MaterializedSchedule.
From S2P Require Import MaterializedVerifier.
From S2P Require Import ControlLayout.
From S2P Require Import ConstantAllocator.
From S2P Require Import TargetLowering.

(** ** Members of a setting *)

Inductive FieldValue := FString (s : string) | FBool (b : bool) | FNumber (n : Z).

#[export] Instance FieldValue_eq_dec : EqDecision FieldValue.
Proof. solve_decision. Defined.

(** The members lowering assigns, by the names the builder keeps: all but
    [lsuCommitPredicateInvert]. *)
Definition members : list (string * (TileControl -> FieldValue)) :=
  ((fun m => (m.1, fun c => FString (m.2.1 c))) <$> string_members) ++ [
  ("lsuCommitPredicateEnable", fun c => FBool (tc_lsuCommitPredicateEnable c));
  ("dataWrite0Enable", fun c => FBool (tc_dataWrite0Enable c));
  ("dataWrite1Enable", fun c => FBool (tc_dataWrite1Enable c));
  ("predicateWrite0Enable", fun c => FBool (tc_predicateWrite0Enable c));
  ("predicateWrite1Enable", fun c => FBool (tc_predicateWrite1Enable c));
  ("dataWrite0Addr", fun c => FNumber (tc_dataWrite0Addr c));
  ("dataWrite1Addr", fun c => FNumber (tc_dataWrite1Addr c));
  ("predicateWrite0Addr", fun c => FNumber (tc_predicateWrite0Addr c));
  ("predicateWrite1Addr", fun c => FNumber (tc_predicateWrite1Addr c));
  ("dataRfReadAddrA", fun c => FNumber (tc_dataRfReadAddrA c));
  ("dataRfReadAddrB", fun c => FNumber (tc_dataRfReadAddrB c));
  ("predicateRfReadAddrA", fun c => FNumber (tc_predicateRfReadAddrA c));
  ("predicateRfReadAddrB", fun c => FNumber (tc_predicateRfReadAddrB c));
  ("constantAddr", fun c => FNumber (tc_constantAddr c));
  ("dataRoute0", fun c => FBool (rt_enabled (route_at (tc_dataRoutes c) RouteNorth)));
  ("dataRoute0Source", fun c => FString (rt_source (route_at (tc_dataRoutes c) RouteNorth)));
  ("dataRoute1", fun c => FBool (rt_enabled (route_at (tc_dataRoutes c) RouteSouth)));
  ("dataRoute1Source", fun c => FString (rt_source (route_at (tc_dataRoutes c) RouteSouth)));
  ("dataRoute2", fun c => FBool (rt_enabled (route_at (tc_dataRoutes c) RouteEast)));
  ("dataRoute2Source", fun c => FString (rt_source (route_at (tc_dataRoutes c) RouteEast)));
  ("dataRoute3", fun c => FBool (rt_enabled (route_at (tc_dataRoutes c) RouteWest)));
  ("dataRoute3Source", fun c => FString (rt_source (route_at (tc_dataRoutes c) RouteWest)));
  ("predicateRoute0", fun c => FBool (rt_enabled (route_at (tc_predicateRoutes c) RouteNorth)));
  ("predicateRoute0Source", fun c => FString (rt_source (route_at (tc_predicateRoutes c) RouteNorth)));
  ("predicateRoute1", fun c => FBool (rt_enabled (route_at (tc_predicateRoutes c) RouteSouth)));
  ("predicateRoute1Source", fun c => FString (rt_source (route_at (tc_predicateRoutes c) RouteSouth)));
  ("predicateRoute2", fun c => FBool (rt_enabled (route_at (tc_predicateRoutes c) RouteEast)));
  ("predicateRoute2Source", fun c => FString (rt_source (route_at (tc_predicateRoutes c) RouteEast)));
  ("predicateRoute3", fun c => FBool (rt_enabled (route_at (tc_predicateRoutes c) RouteWest)));
  ("predicateRoute3Source", fun c => FString (rt_source (route_at (tc_predicateRoutes c) RouteWest)))].

Definition member_value (c : TileControl) (field : string) : option FieldValue :=
  match entry members field with Ok read => Some (read c) | Throw _ => None end.

Lemma members_NoDup : NoDup members.*1.
Proof. apply (bool_decide_unpack _). vm_compute. exact I. Qed.

Lemma member_value_Some c field v :
  member_value c field = Some v <-> exists read, (field, read) ∈ members /\ v = read c.
Proof.
  unfold member_value. setoid_rewrite <- (entry_Ok members field); [|apply members_NoDup..].
  destruct (entry members field) as [read|]; naive_solver.
Qed.

(** A member and its value. *)
Abbreviation need := (string * FieldValue)%type.

(** The default setting, changed exactly as the needs say. *)
Record overlay (needs : list need) (c : TileControl) : Prop := {
  ov_needed : forall field v, (field, v) ∈ needs -> member_value c field = Some v;
  ov_default : forall field, field ∉ needs.*1 -> member_value c field = member_value default_control field;
  ov_invert : tc_lsuCommitPredicateInvert c = false
}.

Definition agree (needs : list need) : Prop :=
  forall field v v', (field, v) ∈ needs -> (field, v') ∈ needs -> v = v'.

Lemma overlay_agree needs c : overlay needs c -> agree needs.
Proof. intros [H _ _] field v v' Hv Hv'. apply H in Hv, Hv'. congruence. Qed.

(** A setting is determined by its members. *)
Lemma member_ext c c' : (forall field, member_value c field = member_value c' field) ->
  tc_lsuCommitPredicateInvert c = tc_lsuCommitPredicateInvert c' -> c = c'.
Proof.
  intros H Hinv.
  assert (Hall : Forall (fun m => m.2 c = m.2 c') members).
  { apply Forall_forall. intros [field read] Hin. specialize (H field).
    assert (E : member_value c field = Some (read c)) by (apply member_value_Some; by exists read).
    rewrite E in H. symmetry in H. apply member_value_Some in H as (read' & Hin' & H).
    apply entry_Ok in Hin, Hin'; [|apply members_NoDup..]. rewrite Hin in Hin'. by injection Hin' as <-. }
  clear H. cbn in Hall.
  repeat match goal with H : Forall _ (_ :: _) |- _ => apply Forall_cons in H as [? H] end.
  clear Hall. repeat match goal with
  | c : TileControl |- _ => destruct c as [? ? ? ? ? ? ? ? ? ? ? ? ? ? ? ? ? ? ?
      [[] [] [] []] [[] [] [] []] ? ? ? ? ? ? ?]
  end.
  simpl in *. repeat match goal with
  | H : FString _ = FString _ |- _ => injection H; clear H; intros ->
  | H : FBool _ = FBool _ |- _ => injection H; clear H; intros ->
  | H : FNumber _ = FNumber _ |- _ => injection H; clear H; intros ->
  end. by subst.
Qed.

Lemma overlay_unique needs c c' : overlay needs c -> overlay needs c' -> c = c'.
Proof.
  intros [H1 H2 H3] [H1' H2' H3']. apply member_ext; [|congruence]. intros field.
  destruct (decide (field ∈ needs.*1)) as [Hin|Hout].
  - apply list_elem_of_fmap in Hin as ([f v] & -> & Hin). simpl. by rewrite (H1 f v), (H1' f v).
  - by rewrite H2, H2'.
Qed.

(** ** Merging *)

(** How a value of a member's type appears among the needs. *)
Class AsField (A : Type) := as_field : A -> FieldValue.
#[export] Instance string_field : AsField string := FString.
#[export] Instance bool_field : AsField bool := FBool.
#[export] Instance number_field : AsField Z := FNumber.

(** Reader and writer of one member. *)
Record lens {A} `{AsField A} (field : string) (get : TileControl -> A)
    (set : A -> TileControl -> TileControl) : Prop := {
  lens_member : (field, fun c => as_field (get c)) ∈ members;
  lens_set : forall c v, get (set v c) = v;
  lens_other : forall field' read, (field', read) ∈ members -> field' <> field ->
    forall c v, read (set v c) = read c;
  lens_invert : forall c v, tc_lsuCommitPredicateInvert (set v c) = tc_lsuCommitPredicateInvert c;
  lens_inj : forall x y : A, as_field x = as_field y -> x = y
}.

Lemma make_lens {A} `{AsField A} field (get : TileControl -> A) set :
  (field, fun c => as_field (get c)) ∈ members ->
  (forall x y : A, as_field x = as_field y -> x = y) ->
  (forall c v, get (set v c) = v) ->
  (forall c v, tc_lsuCommitPredicateInvert (set v c) = tc_lsuCommitPredicateInvert c) ->
  Forall (fun m => m.1 <> field -> forall c v, m.2 (set v c) = m.2 c) members -> lens field get set.
Proof.
  intros Hm Hi Hs Hv Hall. split; [done|done| |done|done].
  intros field' read Hin Hne. rewrite Forall_forall in Hall. exact (Hall _ Hin Hne).
Qed.

Ltac prove_lens :=
  apply make_lens;
  [ apply entry_Ok; [apply members_NoDup | reflexivity]
  | by intros ?? [=]
  | reflexivity
  | reflexivity
  | repeat (apply Forall_cons; split; [intros Hne c v; first [reflexivity | by destruct Hne] |]);
    apply Forall_nil_2 ].

Lemma string_lenses : Forall (fun m => lens m.1 m.2.1 m.2.2) string_members.
Proof. repeat (apply Forall_cons; split; [cbn [fst snd]; prove_lens|]). apply Forall_nil_2. Qed.

(** The lenses of the members assigned directly. *)
Lemma lens_commit : lens "lsuCommitPredicateEnable" tc_lsuCommitPredicateEnable set_lsuCommitPredicateEnable.
Proof. prove_lens. Qed.
Lemma lens_data0 : lens "dataWrite0Enable" tc_dataWrite0Enable set_dataWrite0Enable.
Proof. prove_lens. Qed.
Lemma lens_data1 : lens "dataWrite1Enable" tc_dataWrite1Enable set_dataWrite1Enable.
Proof. prove_lens. Qed.
Lemma lens_predicate0 : lens "predicateWrite0Enable" tc_predicateWrite0Enable set_predicateWrite0Enable.
Proof. prove_lens. Qed.
Lemma lens_predicate1 : lens "predicateWrite1Enable" tc_predicateWrite1Enable set_predicateWrite1Enable.
Proof. prove_lens. Qed.
Lemma lens_data0_addr : lens "dataWrite0Addr" tc_dataWrite0Addr set_dataWrite0Addr.
Proof. prove_lens. Qed.
Lemma lens_data1_addr : lens "dataWrite1Addr" tc_dataWrite1Addr set_dataWrite1Addr.
Proof. prove_lens. Qed.
Lemma lens_predicate0_addr : lens "predicateWrite0Addr" tc_predicateWrite0Addr set_predicateWrite0Addr.
Proof. prove_lens. Qed.
Lemma lens_predicate1_addr : lens "predicateWrite1Addr" tc_predicateWrite1Addr set_predicateWrite1Addr.
Proof. prove_lens. Qed.
Lemma lens_dataA : lens "dataRfReadAddrA" tc_dataRfReadAddrA set_dataRfReadAddrA.
Proof. prove_lens. Qed.
Lemma lens_dataB : lens "dataRfReadAddrB" tc_dataRfReadAddrB set_dataRfReadAddrB.
Proof. prove_lens. Qed.
Lemma lens_predicateA : lens "predicateRfReadAddrA" tc_predicateRfReadAddrA set_predicateRfReadAddrA.
Proof. prove_lens. Qed.
Lemma lens_predicateB : lens "predicateRfReadAddrB" tc_predicateRfReadAddrB set_predicateRfReadAddrB.
Proof. prove_lens. Qed.
Lemma lens_constant : lens "constantAddr" tc_constantAddr set_constantAddr.
Proof. prove_lens. Qed.

Lemma lens_route_enabled domain direction :
  lens (route_prefix domain direction)
    (fun c => rt_enabled (route_at (get_routes domain c) (routeOf direction)))
    (fun v c => set_routes domain (set_enabled (routeOf direction) v (get_routes domain c)) c).
Proof.
  destruct domain, direction;
    match goal with |- lens ?f _ _ => let g := eval vm_compute in f in change f with g end; prove_lens.
Qed.

Lemma lens_route_source domain direction :
  lens (String.append (route_prefix domain direction) "Source")
    (fun c => rt_source (route_at (get_routes domain c) (routeOf direction)))
    (fun v c => set_routes domain (set_source (routeOf direction) v (get_routes domain c)) c).
Proof.
  destruct domain, direction;
    match goal with |- lens ?f _ _ => let g := eval vm_compute in f in change f with g end; prove_lens.
Qed.

#[export] Hint Resolve lens_commit lens_data0 lens_data1 lens_predicate0 lens_predicate1 lens_data0_addr
  lens_data1_addr lens_predicate0_addr lens_predicate1_addr lens_dataA lens_dataB lens_predicateA
  lens_predicateB lens_constant lens_route_enabled lens_route_source : lenses.

(** A builder whose owned fields are the needed ones, with their values. *)
Record records (needs : list need) (b : TileBuilder) : Prop := {
  rc_owned : forall field, field ∈ tb_owned b <-> field ∈ needs.*1;
  rc_overlay : overlay needs (tb_control b)
}.

(** A step that adds needs to a builder: it succeeds unless they disagree. *)
Definition adds (f : BuilderState -> low BuilderState) (needs : list need) : Prop :=
  forall past b stats, records past b ->
    match f (b, stats) with
    | LowOk (b', _) => records (past ++ needs) b' /\ tb_tile b' = tb_tile b
    | LowFail status => status = TLControlFieldConflict /\ ~ agree (past ++ needs)
    | LowUndefined => False
    end.

Lemma adds_ret needs f : needs = [] -> (forall b stats, exists stats', f (b, stats) = LowOk (b, stats')) ->
  adds f needs.
Proof. intros -> Hf past b stats Hb. destruct (Hf b stats) as [s ->]. by rewrite app_nil_r. Qed.

Lemma not_agree_app past needs : ~ agree past -> ~ agree (past ++ needs).
Proof. intros H Ha. apply H. intros f v v' Hv Hv'. apply (Ha f); set_solver. Qed.

Lemma adds_bind f g needs needs' : adds f needs -> adds g needs' ->
  adds (fun st => st ← f st; g st) (needs ++ needs').
Proof.
  intros Hf Hg past b stats Hb. specialize (Hf past b stats Hb).
  destruct (f (b, stats)) as [[b' stats']|status|]; cbn [mbind low_bind]; [|split|done].
  - destruct Hf as [Hb' Ht]. specialize (Hg _ b' stats' Hb'). rewrite (assoc_L app), <- Ht. exact Hg.
  - apply Hf.
  - rewrite (assoc_L app). apply not_agree_app, Hf.
Qed.

Lemma adds_merge_with {A} `{EqDecision A} `{AsField A} field (get : TileControl -> A) set v :
  lens field get set -> adds (merge_with field get set v) [(field, as_field v)].
Proof.
  intros [Hm Hset Hother Hinv Hinj] past b stats [Howned [Hn Hd Hi]]. simpl.
  assert (Hget : forall c, member_value c field = Some (as_field (get c)))
    by (intros c; apply member_value_Some; by eexists).
  case_bool_decide as Ho.
  - apply Howned in Ho. pose proof Ho as Hin. apply list_elem_of_fmap in Hin as ([f w] & -> & Hin).
    simpl in *. pose proof (Hn _ _ Hin) as Hw. rewrite Hget in Hw. injection Hw as Hw.
    case_bool_decide as Hv.
    + split; [|done]. split.
      * intros f'. rewrite Howned, fmap_app, elem_of_app. simpl. rewrite list_elem_of_singleton.
        split; [by left|]. by intros [?| ->].
      * split; [|intros f'; rewrite fmap_app, not_elem_of_app; intros [? _]; by apply Hd|done].
        intros f' v'. rewrite elem_of_app, list_elem_of_singleton. intros [?|[= -> ->]]; [by apply Hn|].
        by rewrite Hget, Hv.
    + split; [done|]. intros Ha. apply Hv, Hinj.
      apply (Ha f); rewrite elem_of_app, list_elem_of_singleton; [left|by right]. by rewrite Hw.
  - assert (Hnot : field ∉ past.*1) by (intros Hin; apply Ho, Howned, Hin).
    assert (Hkeep : forall f, f <> field ->
      member_value (set v (tb_control b)) f = member_value (tb_control b) f).
    { intros f Hne. destruct (member_value (tb_control b) f) as [w|] eqn:E.
      - apply member_value_Some in E as (read & Hin & ->). apply member_value_Some.
        exists read. split; [done|]. symmetry. by apply (Hother f).
      - apply eq_None_not_Some. intros [w E']. apply member_value_Some in E' as (read & Hin & ->).
        assert (E2 : member_value (tb_control b) f = Some (read (tb_control b)))
          by (apply member_value_Some; by exists read). congruence. }
    split; [|done]. split.
    + intros f'. simpl. rewrite elem_of_union, elem_of_singleton, Howned, fmap_app, elem_of_app.
      simpl. rewrite list_elem_of_singleton. naive_solver.
    + split; simpl.
      * intros f' v'. rewrite elem_of_app, list_elem_of_singleton. intros [Hin|[= -> ->]].
        -- rewrite Hkeep; [by apply Hn|]. intros ->. by apply Hnot, (list_elem_of_fmap_2 fst _ _ Hin).
        -- by rewrite Hget, Hset.
      * intros f'. rewrite fmap_app, not_elem_of_app. simpl. rewrite list_elem_of_singleton.
        intros [Hf Hne].
        rewrite Hkeep by done. by apply Hd.
      * by rewrite Hinv.
Qed.
