(* ===== verification/TargetLoweringSpec.v ===== *)
(** * What an event needs of its tile's control setting

    A reference for the lowering of a cycle, without builders and merging: every
    event needs certain members of its tile's setting to hold certain values
    ([event_needs]); the setting of a tile is the default one overlaid with the needs
    of the tile's events, which exists when the needs agree.  Lowering a cycle
    computes exactly that ([lowerCycle_spec]). *)
From stdpp Require Import base numbers list gmap sorting strings.
From S2P Require Import Prelude.
From S2P Require Import IR.
From S2P Require Import TargetModel.
From S2P Require Import TargetDFG.
From S2P Require Import TargetDFGVerifier.
From S2P Require Import ModuloResources.
From S2P Require Import ModuloMapping.
From S2P Require Import StageScheduler.
From S2P Require Import StorageRequirements.
From S2P Require Import RFAllocation.
From S2P Require Import MaterializedSchedule.
From S2P Require Import MaterializedVerifier.
From S2P Require Import ControlLayout.
From S2P Require Import ConstantAllocator.
From S2P Require Import TargetLowering.
From S2P Require Import ControlOverlay.

(** ** The needs of an event *)

Section Needs.
Context (dfg : TargetDFG) (target : TargetModel) (mapping : RFAllocatedMapping).
Context (image : ConstantImage).

Definition constant_needs (id : Z) : low (list need) :=
  address ← lift (constant_address image id); LowOk [("constantAddr"%string, FNumber address)].

Definition sink_needs (sink : TargetControlSink) (value : string) : list need :=
  match sink with
  | FuDataA => [("srcA", FString value)]
  | FuDataB => [("srcB", FString value)]
  | FuPredicate0 => [("srcP0", FString value)]
  | FuPredicate1 => [("srcP1", FString value)]
  | LsuAddress => [("lsuAddrSource", FString value)]
  | LsuStoreData => [("lsuStoreDataSource", FString value)]
  | LsuCommitPredicate =>
      [("lsuCommitPredicateSource", FString value); ("lsuCommitPredicateEnable", FBool true)]
  end%string.

Definition read_field (domain : RegisterBankDomain) (port : Z) : string :=
  match domain with
  | BankData => if port =? 0 then "dataRfReadAddrA" else "dataRfReadAddrB"
  | BankPredicate => if port =? 0 then "predicateRfReadAddrA" else "predicateRfReadAddrB"
  end.

(** An operand bound to a constant. *)
Definition bound_value (binding : ExternalOperandBinding) (sink : TargetControlSink)
  : low (string * list need) :=
  match binding with
  | ExternalValueRef _ => LowFail TLUnsupportedExternalProvider
  | ConstantRef id =>
      value ← require TLUnsupportedValueSource (constantFor dfg id);
      needs ← constant_needs id;
      LowOk (if predicate_sink sink then constant_symbol value else "CONST_DATA"%string, needs)
  end.

(** An operand an edge delivers on a tile: from the register that holds the value
    there, or off the last link. *)
Definition edge_value (tile : TileCoord) (edge : TargetEdge) : low (string * list need) :=
  match TargetEdge_kind edge, segmentForEdgeAtTile mapping (te_id edge) tile with
  | EKMemory, _ => LowFail TLUnsupportedValueSource
  | _, Some segment =>
      allocation ← lift (allocationFor mapping (sg_id segment));
      let reg := sl_reg allocation in
      let port := sl_readPort allocation in
      bank ← require TLRFAccessPortViolation
        (registerBank target (sg_domain segment) (tile_row (pr_tile reg)) (tile_col (pr_tile reg)));
      if rf_readPorts bank <=? port then LowFail TLRFAccessPortViolation
      else LowOk (rfSource (sg_domain segment) (port =? 1),
                  [(read_field (sg_domain segment) port, FNumber (pr_index reg))])
  | kind, None =>
      d ← lift (mappedEdge mapping (te_id edge));
      match last (default [] (tp_actions <$> md_transport d)) with
      | Some (LinkStep _ _ direction _) => LowOk (linkInput kind direction, [])
      | _ => LowFail TLUnsupportedValueSource
      end
  end.

(** The value of an operand; an optional one may have none. *)
Definition operand_value (tile : TileCoord) (node : TargetNode) (op : TargetOperationDesc)
    (index : Z) (sink : TargetControlSink) : low (option string * list need) :=
  edge ← lift (edgeForOperand dfg (tn_id node) index);
  match bindingForOperand dfg (tn_id node) index, edge with
  | Some binding, _ => '(v, needs) ← bound_value (tb_source binding) sink; LowOk (Some v, needs)
  | None, Some edge => '(v, needs) ← edge_value tile edge; LowOk (Some v, needs)
  | None, None =>
      match op_operands op !! nat_of index with
      | Some operand => if od_optional operand then LowOk (None, []) else LowFail TLUnsupportedValueSource
      | None => LowFail TLUnsupportedValueSource
      end
  end.

Fixpoint operands_needs (tile : TileCoord) (node : TargetNode) (op : TargetOperationDesc)
    (operands : list (Z * TargetControlSink)) : low (list need) :=
  match operands with
  | [] => LowOk []
  | (index, sink) :: operands =>
      '(v, needs) ← operand_value tile node op index sink;
      rest ← operands_needs tile node op operands;
      LowOk (needs ++ match v with Some v => sink_needs sink v | None => [] end ++ rest)
  end.

Definition issue_needs (tile : TileCoord) (event : MaterializedEvent) : low (list need) :=
  node ← require TLInvalidMaterializedSchedule (ev_node event);
  node ← lift (td_node dfg node);
  op ← lift (operation target (tn_operation node));
  encoding ← require TLUnsupportedOperationLowering (op_encoding op);
  needs ← operands_needs tile node op (op_operandSinks op);
  LowOk ((match op_executionClass op with FU => "op" | LSU => "lsuOp" end%string,
          FString (enc_symbol encoding)) :: needs).

Definition boundary_needs (event : MaterializedEvent) : low (list need) :=
  edge ← require TLInvalidMaterializedSchedule (ev_edge event);
  _ ← require TLInvalidMaterializedSchedule (ev_boundaryValue event);
  if ev_logicalIteration event =? 0 then LowFail TLInvalidMaterializedSchedule
  else
    edge ← lift (td_edge dfg edge);
    id ← boundaryConstantFor edge (ev_logicalIteration event);
    id ← require TLUnsupportedBoundaryProvider id;
    constant_needs id.

(** The value at the start of a route or in a register written at its producer: the
    recurrence's constant, when the iteration precedes the loop. *)
Definition boundary_value (edge : TargetEdge) (iteration : Z) : low (option string * list need) :=
  boundary ← boundaryConstantFor edge iteration;
  match boundary with
  | None => LowOk (None, [])
  | Some id =>
      needs ← constant_needs id;
      value ← boundarySource dfg edge iteration;
      LowOk (Some value, needs)
  end.

Definition link_value (event : MaterializedEvent) (edge : TargetEdge) (actions : list TransportAction)
    (index : Z) : low (string * list need) :=
  if 0 <? index then
    prior ← action_at actions (index - 1);
    match prior with
    | VirtualHold _ tile _ _ =>
        segment ← require TLUnsupportedValueSource (segmentForEdgeAtTile mapping (te_id edge) tile);
        allocation ← lift (allocationFor mapping (sg_id segment));
        LowOk (rfSource (sg_domain segment) (sl_readPort allocation =? 1), [])
    | LinkStep _ _ direction _ => LowOk (linkInput (TargetEdge_kind edge) direction, [])
    end
  else
    '(value, needs) ← boundary_value edge (ev_logicalIteration event);
    match value with
    | Some value => LowOk (value, needs)
    | None => value ← producer_result dfg target edge; LowOk (value, needs)
    end.

Definition route_needs (domain : NetworkDomain) (direction : Direction) (value : string) : list need :=
  [(route_prefix domain direction, FBool true);
   (String.append (route_prefix domain direction) "Source", FString value)].

Definition link_needs (event : MaterializedEvent) : low (list need) :=
  edge ← require TLInvalidMaterializedSchedule (ev_edge event);
  direction ← require TLInvalidMaterializedSchedule (ev_direction event);
  domain ← require TLInvalidMaterializedSchedule (ev_domain event);
  index ← require TLInvalidMaterializedSchedule (ev_transportActionIndex event);
  e ← lift (td_edge dfg edge);
  if bool_decide (TargetEdge_kind e = EKMemory) then LowFail TLUnsupportedValueSource
  else
    d ← lift (mappedEdge mapping edge);
    plan ← require TLInvalidMaterializedSchedule (md_transport d);
    if Z.of_nat (length (tp_actions plan)) <=? index then LowFail TLInvalidMaterializedSchedule
    else
      '(value, needs) ← link_value event e (tp_actions plan) index;
      LowOk (needs ++ route_needs domain direction value).

(** What a register of an edge stores in the steady state. *)
Definition stored_value (edge : TargetEdge) (segment : StorageSegment) : low string :=
  match hold_origin (sg_origins segment) with
  | Some index => hold_source dfg target mapping edge index
  | None => terminal_source dfg target mapping edge
  end.

Definition write_value (event : MaterializedEvent) (edge : TargetEdge) (segment : StorageSegment)
  : low (string * list need) :=
  '(value, needs) ← boundary_value edge (ev_logicalIteration event);
  match value with
  | Some value => LowOk (value, needs)
  | None => value ← stored_value edge segment; LowOk (value, needs)
  end.

(** The members that write a register through a port: the result port 0, or the
    selectable port. *)
Definition port_needs (domain : RegisterBankDomain) (port address : Z) (value : string) : low (list need) :=
  match domain with
  | BankData =>
      if port =? 0 then
        if String.eqb value "FU_DATA_RESULT"
        then LowOk [("dataWrite0Enable"%string, FBool true); ("dataWrite0Addr"%string, FNumber address)]
        else LowFail TLRFAccessPortViolation
      else LowOk [("dataWrite1Enable"%string, FBool true); ("dataWrite1Addr"%string, FNumber address);
                  ("dataWrite1Source"%string, FString value)]
  | BankPredicate =>
      if port =? 0 then
        if String.eqb value "FU_PRED_RESULT"
        then LowOk [("predicateWrite0Enable"%string, FBool true); ("predicateWrite0Addr"%string, FNumber address)]
        else LowFail TLRFAccessPortViolation
      else LowOk [("predicateWrite1Enable"%string, FBool true); ("predicateWrite1Addr"%string, FNumber address);
                  ("predicateWrite1Source"%string, FString value)]
  end.

Definition write_needs (tile : TileCoord) (event : MaterializedEvent) : low (list need) :=
  segment ← require TLInvalidMaterializedSchedule (ev_segment event);
  reg ← require TLInvalidMaterializedSchedule (ev_physicalRegister event);
  edge ← require TLInvalidMaterializedSchedule (ev_edge event);
  segment ← lift (rq_segment (ra_requirements mapping) segment);
  edge ← lift (td_edge dfg edge);
  '(value, needs) ← write_value event edge segment;
  allocation ← lift (allocationFor mapping (sg_id segment));
  boundary ← boundaryConstantFor edge (ev_logicalIteration event);
  let port := match boundary, sl_boundaryWritePort allocation with
              | Some _, Some port => port
              | _, _ => sl_writePort allocation
              end in
  _ ← check_write target (sg_domain segment) tile port value;
  writes ← port_needs (sg_domain segment) port (pr_index reg) value;
  LowOk (needs ++ writes).

(** What an event on a tile needs of the tile's setting; a register read needs
    nothing, since the instruction or link that uses the register names it. *)
Definition event_needs (tile : TileCoord) (event : MaterializedEvent) : low (list need) :=
  match ev_kind event with
  | BoundaryValueInject => boundary_needs event
  | LiveOutBoundaryUse | RFRead => LowOk []
  | NodeIssue => issue_needs tile event
  | LinkLaunch => link_needs event
  | RFWrite => write_needs tile event
  end.
End Needs.

(** ** Lowering an event realises its needs *)

(** A step that computes a value and adds needs, on the builder of a tile.  A
    conflict is the one failure that may come before the failure of the reference. *)
Definition computes {A} (tile : TileCoord) (f : BuilderState -> low (A * BuilderState))
    (expected : low (A * list need)) : Prop :=
  forall past b stats, records past b -> tb_tile b = tile ->
    match expected, f (b, stats) with
    | LowOk (a, needs), LowOk (a', (b', _)) => a' = a /\ records (past ++ needs) b' /\ tb_tile b' = tile
    | LowOk (_, needs), LowFail s => s = TLControlFieldConflict /\ ~ agree (past ++ needs)
    | LowFail s, LowFail s' => s' = s \/ s' = TLControlFieldConflict
    | LowUndefined, LowUndefined => True
    | LowUndefined, LowFail s => s = TLControlFieldConflict
    | _, _ => False
    end.

Definition does (tile : TileCoord) (f : BuilderState -> low BuilderState) (expected : low (list need))
  : Prop :=
  forall past b stats, records past b -> tb_tile b = tile ->
    match expected, f (b, stats) with
    | LowOk needs, LowOk (b', _) => records (past ++ needs) b' /\ tb_tile b' = tile
    | LowOk needs, LowFail s => s = TLControlFieldConflict /\ ~ agree (past ++ needs)
    | LowFail s, LowFail s' => s' = s \/ s' = TLControlFieldConflict
    | LowUndefined, LowUndefined => True
    | LowUndefined, LowFail s => s = TLControlFieldConflict
    | _, _ => False
    end.

Section Steps.
Context (tile : TileCoord).

Lemma does_adds f needs : adds f needs -> does tile f (LowOk needs).
Proof using Type.
  intros Hf past b stats Hb Ht. specialize (Hf past b stats Hb).
  destruct (f (b, stats)) as [[b' s]| |]; [|done..]. rewrite <- Ht. exact Hf.
Qed.

(** A stateless part that both sides share. *)
Lemma does_pre {B} (m : low B) f expected :
  (forall x, m = LowOk x -> does tile (f x) (expected x)) ->
  does tile (fun st => x ← m; f x st) (x ← m; expected x).
Proof using Type.
  intros Hf past b stats Hb Ht. destruct m as [x| |]; cbn [mbind low_bind]; [|by left|done].
  by apply Hf.
Qed.

Lemma computes_pre {A B} (m : low B) (f : B -> BuilderState -> low (A * BuilderState)) expected :
  (forall x, m = LowOk x -> computes tile (f x) (expected x)) ->
  computes tile (fun st => x ← m; f x st) (x ← m; expected x).
Proof using Type.
  intros Hf past b stats Hb Ht. destruct m as [x| |]; cbn [mbind low_bind]; [|by left|done].
  by apply Hf.
Qed.

Lemma computes_ret {A} (a : A) : computes tile (fun st => LowOk (a, st)) (LowOk (a, [])).
Proof using Type. intros past b stats Hb Ht. by rewrite app_nil_r. Qed.

Lemma does_fail f s : (forall st, f st = LowFail s) -> does tile f (LowFail s).
Proof using Type. intros Hf past b stats _ _. rewrite Hf. by left. Qed.

Lemma computes_fail {A} (f : BuilderState -> low (A * BuilderState)) s :
  (forall st, f st = LowFail s) -> computes tile f (LowFail s).
Proof using Type. intros Hf past b stats _ _. rewrite Hf. by left. Qed.

Lemma does_bind f g expected expected' : does tile f expected -> does tile g expected' ->
  does tile (fun st => st ← f st; g st) (needs ← expected; needs' ← expected'; LowOk (needs ++ needs')).
Proof using Type.
  intros Hf Hg past b stats Hb Ht. specialize (Hf past b stats Hb Ht).
  destruct expected as [needs|s|]; cbn [mbind low_bind];
    destruct (f (b, stats)) as [[b' stats']|s'|]; cbn [mbind low_bind]; try done.
  - destruct Hf as [Hb' Ht']. specialize (Hg _ b' stats' Hb' Ht').
    destruct expected' as [needs'| |]; cbn [mbind low_bind]; [|done..].
    rewrite (assoc_L app). exact Hg.
  - destruct Hf as [-> Hna]. destruct expected' as [needs'|s|]; cbn [mbind low_bind]; [|by right|done].
    split; [done|]. rewrite (assoc_L app). by apply not_agree_app.
Qed.

Lemma computes_bind {A} f (g : A -> BuilderState -> low BuilderState) expected expected' :
  computes tile f expected -> (forall a, does tile (g a) (expected' a)) ->
  does tile (fun st => '(a, st) ← f st; g a st)
    ('(a, needs) ← expected; needs' ← expected' a; LowOk (needs ++ needs')).
Proof using Type.
  intros Hf Hg past b stats Hb Ht. specialize (Hf past b stats Hb Ht).
  destruct expected as [[a needs]|s|]; cbn [mbind low_bind];
    destruct (f (b, stats)) as [[a' [b' stats']]|s'|]; cbn [mbind low_bind]; try done.
  - destruct Hf as (-> & Hb' & Ht'). specialize (Hg a _ b' stats' Hb' Ht').
    destruct (expected' a) as [needs'| |]; cbn [mbind low_bind]; [|done..].
    rewrite (assoc_L app). exact Hg.
  - destruct Hf as [-> Hna]. destruct (expected' a) as [needs'|s|]; cbn [mbind low_bind]; [|by right|done].
    split; [done|]. rewrite (assoc_L app). by apply not_agree_app.
Qed.

(** Counters do not matter. *)
Lemma does_count f expected (count : TargetLoweringStats -> TargetLoweringStats) :
  does tile f expected -> does tile (fun st => '(b, stats) ← f st; LowOk (b, count stats)) expected.
Proof using Type.
  intros Hf past b stats Hb Ht. specialize (Hf past b stats Hb Ht).
  destruct (f (b, stats)) as [[b' s']| |]; [exact Hf..].
Qed.

Lemma does_counted f expected (count : TargetLoweringStats -> TargetLoweringStats) :
  does tile f expected -> does tile (fun st => f (st.1, count st.2)) expected.
Proof using Type. intros Hf past b stats Hb Ht. exact (Hf past b (count stats) Hb Ht). Qed.

Lemma does_ext f f' expected expected' :
  (forall st, f st = f' st) -> expected = expected' -> does tile f' expected' -> does tile f expected.
Proof using Type. intros Hf -> H past b stats Hb Ht. rewrite Hf. by apply H. Qed.
End Steps.

(** ** The steps of the builder *)

Lemma adds_merge field v get set :
  entry string_members field = Ok (get, set) -> adds (merge field v) [(field, FString v)].
Proof.
  intros E. pose proof E as Hin. apply entry_Ok in Hin; [|apply (bool_decide_unpack _); vm_compute; exact I].
  unfold entry in E. apply of_option_Ok, fmap_Some in E as ([f [g' s']] & E & [= -> ->]).
  pose proof E as Hf. apply find_if_Some in Hf as [_ Hf]. apply String.eqb_eq in Hf. simpl in Hf. subst f.
  pose proof string_lenses as Hall. rewrite Forall_forall in Hall. specialize (Hall _ Hin).
  intros past b stats Hb. unfold merge. rewrite E. exact (adds_merge_with _ _ _ _ Hall past b stats Hb).
Qed.

#[export] Hint Extern 1 (adds (merge _ _) _) => (eapply adds_merge; reflexivity) : lenses.
#[export] Hint Extern 1 (adds (mergeBool _ _ _ _) _) => (apply (adds_merge_with (A := bool)); auto with lenses) : lenses.
#[export] Hint Extern 1 (adds (mergeUnsigned _ _ _ _) _) => (apply (adds_merge_with (A := Z)); auto with lenses) : lenses.

Lemma adds_source sink v : adds (source sink v) (sink_needs sink v).
Proof.
  destruct sink; cbn [source sink_needs]; auto with lenses.
  apply (adds_bind _ _ [_] [_]); auto with lenses.
Qed.

Lemma adds_constant address : adds (constant address) [("constantAddr"%string, FNumber address)].
Proof. unfold constant. auto with lenses. Qed.

Lemma adds_read_address domain port index :
  adds (read_address domain port index) [(read_field domain port, FNumber index)].
Proof. unfold read_address, read_field. destruct domain, (port =? 0); auto with lenses. Qed.

Lemma adds_route domain direction v :
  adds (TargetLowering.route domain direction v) (route_needs domain direction v).
Proof.
  unfold TargetLowering.route. apply (adds_bind _ _ [_] [_]); [auto with lenses|].
  apply (adds_merge_with (A := string)). apply lens_route_source.
Qed.

(** A last check on a value that was merged. *)
Lemma does_checked tile f needs (b : bool) s : adds f needs ->
  does tile (fun st => st ← f st; if b then LowOk st else LowFail s) (if b then LowOk needs else LowFail s).
Proof.
  intros Hf past b0 stats Hb Ht. specialize (Hf past b0 stats Hb).
  destruct b, (f (b0, stats)) as [[b' s']| |]; cbn [mbind low_bind]; try done.
  - by rewrite <- Ht.
  - by left.
  - destruct Hf as [-> _]. by right.
Qed.

(** The writes of a port: the bank's check, then the members. *)
Lemma does_write target tile domain port address v :
  does tile (port_write target domain port address v)
    (_ ← check_write target domain tile port v; port_needs domain port address v).
Proof.
  assert (Htile : forall f expected, does tile f expected ->
    does tile (fun st => _ ← check_write target domain (tb_tile st.1) port v; f st)
      (_ ← check_write target domain tile port v; expected)).
  { intros f expected Hf past b stats Hb Ht. simpl. rewrite Ht.
    destruct (check_write _ _ _ _ _); cbn [mbind low_bind]; [by apply Hf|by left|done]. }
  assert (Hthree : forall f g h n n' n'', adds f [n] -> adds g [n'] -> adds h [n''] ->
    does tile (fun st => st ← f st; st ← g st; h st) (LowOk [n; n'; n''])).
  { intros f g h n n' n'' Hf Hg Hh. apply does_adds, (adds_bind _ _ [_] [_; _]); [done|].
    by apply (adds_bind _ _ [_] [_]). }
  assert (Htwo : forall f g n n' (b : bool) s, adds f [n] -> adds g [n'] ->
    does tile (fun st => st ← f st; st ← g st; if b then LowOk st else LowFail s)
      (if b then LowOk [n; n'] else LowFail s)).
  { intros f g n n' b s Hf Hg. eapply does_ext; [|done|apply (does_checked _ (fun st => st ← f st; g st))].
    - intros st. simpl. by destruct (f st).
    - by apply (adds_bind _ _ [_] [_]). }
  destruct domain; cbn [port_write port_needs]; unfold dataWrite, predicateWrite; apply Htile;
    destruct (port =? 0); [apply Htwo|apply Hthree|apply Htwo|apply Hthree]; auto with lenses.
Qed.

(** ** Events *)

Section Events.
Context (dfg : TargetDFG) (target : TargetModel) (mapping : RFAllocatedMapping).
Context (image : ConstantImage) (tile : TileCoord).

Lemma does_load_constant id :
  does tile (load_constant image id) (constant_needs image id).
Proof using Type.
  unfold load_constant, constant_needs. apply does_pre. intros address _.
  apply does_adds, adds_constant.
Qed.

(** A value that comes with needs. *)
Lemma computes_value {A} f expected (g : low A) : does tile f expected ->
  computes tile (fun st => st ← f st; v ← g; LowOk (v, st)) (needs ← expected; v ← g; LowOk (v, needs)).
Proof using Type.
  intros Hf past b stats Hb Ht. specialize (Hf past b stats Hb Ht).
  destruct expected as [needs| |], (f (b, stats)) as [[b' s']| |]; cbn [mbind low_bind]; try done;
    destruct g; cbn [mbind low_bind]; try done; [by left|destruct Hf; by right|by destruct Hf].
Qed.

Lemma computes_fmap {A B} (g : A -> B) f expected : computes tile f expected ->
  computes tile (fun st => '(v, st) ← f st; LowOk (g v, st)) ('(v, needs) ← expected; LowOk (g v, needs)).
Proof using Type.
  intros Hf past b stats Hb Ht. specialize (Hf past b stats Hb Ht).
  destruct expected as [[v needs]| |], (f (b, stats)) as [[v' [b' s']]| |]; cbn [mbind low_bind]; try done.
  by destruct Hf as [-> ?].
Qed.

Lemma computes_bound binding sink :
  computes tile (bound_source dfg image binding sink) (bound_value dfg image binding sink).
Proof using Type.
  destruct binding as [|id]; simpl; [by apply computes_fail|].
  apply computes_pre. intros value _. apply (computes_value _ _ (LowOk _)), does_load_constant.
Qed.

Lemma computes_edge event edge : ev_tile event = Some tile ->
  computes tile (edge_source target mapping event edge) (edge_value target mapping tile edge).
Proof using Type.
  intros Htile. unfold edge_source, edge_value. rewrite Htile. simpl.
  destruct (TargetEdge_kind edge); [| |by apply computes_fail];
    (destruct (segmentForEdgeAtTile _ _ _) as [segment|]; apply computes_pre; intros x _;
     [ apply computes_pre; intros bank _; destruct (_ <=? _); [by apply computes_fail|];
       apply (computes_value _ (LowOk _) (LowOk _)), does_adds, adds_read_address
     | destruct (last _) as [[]|]; [apply computes_ret|by apply computes_fail..] ]).
Qed.

Lemma computes_operand event node op index sink : ev_tile event = Some tile ->
  computes tile (operand_source dfg target mapping image event node op index sink)
    (operand_value dfg target mapping image tile node op index sink).
Proof using Type.
  intros Htile. unfold operand_source, operand_value. apply computes_pre. intros edge _.
  destruct (bindingForOperand _ _ _) as [binding|].
  - apply computes_fmap, computes_bound.
  - destruct edge as [edge|]; [by apply computes_fmap, computes_edge|].
    destruct (_ !! _) as [operand|]; [|by apply computes_fail].
    destruct (od_optional operand); [apply computes_ret|by apply computes_fail].
Qed.

Lemma does_operands event node op sinks : ev_tile event = Some tile ->
  does tile (lower_operands dfg target mapping image event node op sinks)
    (operands_needs dfg target mapping image tile node op sinks).
Proof using Type.
  intros Htile. induction sinks as [|[index sink] sinks IH]; simpl.
  { apply (does_adds _ _ []), adds_ret; [done|]. intros b s. by exists s. }
  eapply does_ext; [reflexivity| |eapply (computes_bind _ _ (fun v st =>
      st ← match v with Some v => source sink v st | None => LowOk st end;
      lower_operands dfg target mapping image event node op sinks st) _
    (fun v => needs' ← LowOk match v with Some v => sink_needs sink v | None => [] end;
      rest ← operands_needs dfg target mapping image tile node op sinks; LowOk (needs' ++ rest)));
      [by apply computes_operand|]].
  - destruct (operand_value _ _ _ _ _ _ _ _ _) as [[v needs]| |]; simpl; [|done..].
    by destruct (operands_needs _ _ _ _ _ _ _ _).
  - intros v. apply (does_bind _ (fun st => match v with Some v => source sink v st | None => LowOk st end)
      _ (LowOk _)); [|done]. apply does_adds. destruct v; [apply adds_source|].
    apply adds_ret; [done|]. intros b s. by exists s.
Qed.

Lemma does_issue event : ev_tile event = Some tile ->
  does tile (event_node_issue dfg target mapping image event)
    (issue_needs dfg target mapping image tile event).
Proof using Type.
  intros Htile. unfold event_node_issue, issue_needs. do 2 (apply does_pre; intros ? _).
  apply does_pre. intros op _. apply does_pre. intros encoding _.
  set (field := match op_executionClass op with FU => "op" | LSU => "lsuOp" end%string).
  assert (Hm : adds (merge field (enc_symbol encoding)) [(field, FString (enc_symbol encoding))])
    by (destruct (op_executionClass op); eapply adds_merge; reflexivity).
  eapply does_ext; [|reflexivity|eapply (does_bind _ _ _ (LowOk _) _ (does_adds _ _ _ Hm));
    apply does_counted, (does_operands event); done].
  intros st. simpl. by destruct (merge _ _ st) as [[b s]| |].
Qed.

Lemma does_boundary event :
  does tile (event_boundary dfg image event) (boundary_needs dfg image event).
Proof using Type.
  unfold event_boundary, boundary_needs. do 2 (apply does_pre; intros ? _).
  destruct (_ =? 0); [by apply does_fail|]. do 3 (apply does_pre; intros ? _). apply does_load_constant.
Qed.

(** The start of a value: the constant of the boundary, or [other]. *)
Lemma computes_start edge iteration (other : low string) :
  computes tile (fun st => boundary ← boundaryConstantFor edge iteration;
    match boundary with
    | Some id => st ← load_constant image id st; v ← boundarySource dfg edge iteration; LowOk (v, st)
    | None => v ← other; LowOk (v, st)
    end)
    ('(v, needs) ← boundary_value dfg image edge iteration;
     match v with Some v => LowOk (v, needs) | None => v ← other; LowOk (v, needs) end).
Proof using Type.
  intros past b stats Hb Ht. unfold boundary_value.
  destruct (boundaryConstantFor edge iteration) as [[id|]| |]; cbn [mbind low_bind]; [|..|done].
  - pose proof (does_load_constant id past b stats Hb Ht) as H.
    destruct (constant_needs image id) as [needs| |], (load_constant image id (b, stats)) as [[b' s']| |];
      cbn [mbind low_bind]; try done;
      destruct (boundarySource dfg edge iteration); cbn [mbind low_bind]; try done;
      first [by left | by destruct H; right | by destruct H].
  - destruct other; cbn [mbind low_bind]; [by rewrite app_nil_r|by left|done].
  - by left.
Qed.

Lemma computes_link event edge actions index :
  computes tile (link_source dfg target mapping image event edge actions index)
    (link_value dfg target mapping image event edge actions index).
Proof using Type.
  unfold link_source, link_value. destruct (0 <? index); [|apply computes_start].
  apply computes_pre. intros [] _; [apply computes_ret|].
  do 2 (apply computes_pre; intros ? _). apply computes_ret.
Qed.

Lemma does_link event :
  does tile (event_link_launch dfg target mapping image event)
    (link_needs dfg target mapping image event).
Proof using Type.
  unfold event_link_launch, link_needs. do 4 (apply does_pre; intros ? _).
  apply does_pre. intros e _. destruct (decide (TargetEdge_kind e = EKMemory)) as [Hk|Hk].
  { rewrite bool_decide_true by done. rewrite Hk. by apply does_fail. }
  rewrite bool_decide_false by done. destruct (TargetEdge_kind e); [..|done];
    (apply does_pre; intros d _; apply does_pre; intros plan _; destruct (_ <=? _); [by apply does_fail|];
     eapply does_ext; [|reflexivity|];
     [|apply (computes_bind _ _ (fun v st => '(b, stats) ← TargetLowering.route x1 x0 v st; LowOk (b, count_launch stats))
         _ (fun v => LowOk (route_needs x1 x0 v)) (computes_link event e (tp_actions plan) x2));
       intros v; apply does_count, does_adds, adds_route]; reflexivity).
Qed.

Lemma linkInput_nonempty kind direction : linkInput kind direction <> ""%string.
Proof using Type. by destruct kind, direction. Qed.

Lemma producer_result_nonempty edge v : producer_result dfg target edge = LowOk v -> v <> ""%string.
Proof using Type.
  unfold producer_result. destruct (lift (td_node _ _)) as [node| |]; [|done..]. simpl.
  destruct (lift (operation _ _)) as [op| |]; [|done..]. simpl. by destruct (op_resultSource op); intros [= <-].
Qed.

Lemma hold_source_nonempty edge index v : hold_source dfg target mapping edge index = LowOk v -> v <> ""%string.
Proof using Type.
  unfold hold_source. destruct (lift (mappedEdge _ _)) as [d| |]; [|done..]. simpl.
  destruct (deref _) as [plan| |]; [|done..]. simpl. destruct (0 <? index); [|apply producer_result_nonempty].
  destruct (action_at _ _) as [[]| |]; [|apply producer_result_nonempty|done..]. simpl.
  intros [= <-]. apply linkInput_nonempty.
Qed.

Lemma boundarySource_nonempty edge iteration id v :
  boundaryConstantFor edge iteration = LowOk (Some id) -> boundarySource dfg edge iteration = LowOk v ->
  v <> ""%string.
Proof using Type.
  unfold boundarySource. intros ->. simpl. destruct (require _ _) as [c| |]; [|done..]. simpl.
  intros [= <-]. unfold constant_symbol. by destruct (TargetEdge_kind edge), (const_bits c =? 0).
Qed.

(** The strings stay empty exactly where the reference has no value yet. *)
Lemma computes_write event edge segment :
  computes tile (write_source dfg target mapping image event edge segment)
    (write_value dfg target mapping image event edge segment).
Proof using Type.
  intros past b stats Hb Ht.
  pose proof (computes_start edge (ev_logicalIteration event) (stored_value dfg target mapping edge segment)
    past b stats Hb Ht) as H. fold (write_value dfg target mapping image event edge segment) in H.
  enough (E : write_source dfg target mapping image event edge segment (b, stats) =
    (boundary ← boundaryConstantFor edge (ev_logicalIteration event);
     match boundary with
     | Some id => st ← load_constant image id (b, stats);
                  v ← boundarySource dfg edge (ev_logicalIteration event); LowOk (v, st)
     | None => v ← stored_value dfg target mapping edge segment; LowOk (v, (b, stats))
     end)) by by rewrite E.
  clear H. unfold write_source.
  destruct (boundaryConstantFor edge (ev_logicalIteration event)) as [[id|]| |] eqn:Eb; cbn [mbind low_bind];
    [| |done..].
  - destruct (load_constant image id (b, stats)) as [st| |]; cbn [mbind low_bind]; [|done..].
    destruct (boundarySource dfg edge (ev_logicalIteration event)) as [v| |] eqn:Ev; cbn [mbind low_bind]; [|done..].
    apply (boundarySource_nonempty _ _ id) in Ev; [|done]. by destruct (String.eqb_spec v "").
  - unfold stored_value. simpl. destruct (hold_origin _) as [index|]; simpl; [|done].
    destruct (hold_source _ _ _ _ _) as [v| |] eqn:Ev; simpl; [|done..].
    apply hold_source_nonempty in Ev. by destruct (String.eqb_spec v "").
Qed.

Lemma does_rf_write event :
  does tile (event_rf_write dfg target mapping image event)
    (write_needs dfg target mapping image tile event).
Proof using Type.
  unfold event_rf_write, write_needs. do 3 (apply does_pre; intros ? _).
  apply does_pre. intros segment _. apply does_pre. intros edge _.
  set (port a boundary := match boundary : option Z, sl_boundaryWritePort a with
    Some _, Some port => port | _, _ => sl_writePort a end).
  eapply does_ext; [reflexivity| |apply (computes_bind _ _ (fun v st =>
      allocation ← lift (allocationFor mapping (sg_id segment));
      boundary ← boundaryConstantFor edge (ev_logicalIteration event);
      '(b, stats) ← port_write target (sg_domain segment) (port allocation boundary) (pr_index x0) v st;
      LowOk (b, count_write stats)) _
    (fun v => allocation ← lift (allocationFor mapping (sg_id segment));
      boundary ← boundaryConstantFor edge (ev_logicalIteration event);
      _ ← check_write target (sg_domain segment) tile (port allocation boundary) v;
      port_needs (sg_domain segment) (port allocation boundary) (pr_index x0) v)
    (computes_write event edge segment))].
  - destruct (write_value _ _ _ _ _ _ _) as [[v needs]| |]; simpl; [|done..].
    destruct (lift _) as [a| |]; simpl; [|done..]. destruct (boundaryConstantFor _ _); simpl; [|done..].
    by destruct (check_write _ _ _ _ _).
  - intros v. apply does_pre. intros allocation _. apply does_pre. intros boundary _.
    apply does_count, does_write.
Qed.

(** Every event realises its needs. *)
Lemma does_event event : ev_tile event = Some tile ->
  does tile (lower_event dfg target mapping image event)
    (event_needs dfg target mapping image tile event).
Proof using Type.
  intros Htile. unfold lower_event, event_needs. rewrite Htile. simpl. destruct (ev_kind event).
  - apply does_boundary.
  - apply (does_adds _ _ []), adds_ret; [done|]. intros b s. by eexists.
  - by apply does_issue.
  - apply does_link.
  - apply does_rf_write.
  - apply (does_adds _ _ []), adds_ret; [done|]. intros b s. by eexists.
Qed.
End Events.

(** ** Lowering a cycle *)

Section Cycle.
Context (dfg : TargetDFG) (target : TargetModel) (mapping : RFAllocatedMapping).
Context (image : ConstantImage).

Abbreviation cols := (arr_cols (tm_array target)).

(** The tile of an event in the array, with its needs. *)
Definition event_site (event : MaterializedEvent) : low (TileCoord * list need) :=
  '(event, tile) ← resolve_tile mapping event;
  _ ← tileIndex tile target;
  needs ← event_needs dfg target mapping image tile event;
  LowOk (tile, needs).

Definition is_use (event : MaterializedEvent) : bool := bool_decide (ev_kind event = LiveOutBoundaryUse).

(** The sites of a cycle; uses after the loop are not lowered. *)
Fixpoint cycle_sites (events : list MaterializedEvent) : low (list (TileCoord * list need)) :=
  match events with
  | [] => LowOk []
  | event :: events =>
      if is_use event then cycle_sites events
      else site ← event_site event; rest ← cycle_sites events; LowOk (site :: rest)
  end.

Definition needs_on (tile : TileCoord) (sites : list (TileCoord * list need)) : list need :=
  flat_map snd (filter (fun site => site.1 = tile) sites).

Definition in_array (tile : TileCoord) : Prop :=
  0 <= tile_row tile < arr_rows (tm_array target) /\ 0 <= tile_col tile < cols.

(** Row-major position. *)
Definition position (tile : TileCoord) : Z := tile_row tile * cols + tile_col tile.

(** Tile coordinates are unsigned. *)
Definition unsigned_tile (event : MaterializedEvent) : Prop := forall event' tile,
  resolve_tile mapping event = LowOk (event', tile) -> 0 <= tile_row tile /\ 0 <= tile_col tile.

Lemma position_bound tile : in_array tile -> 0 <= position tile < tile_count target.
Proof using Type. unfold in_array, position, tile_count. intros [? ?]. nia. Qed.

Lemma tile_position_inj tile tile' : in_array tile -> in_array tile' -> position tile = position tile' -> tile = tile'.
Proof using Type.
  destruct tile as [r c], tile' as [r' c']. unfold in_array, position. simpl. intros [? ?] [? ?] E.
  assert (r = r') by nia. subst r'. f_equal. lia.
Qed.

Lemma needs_on_app tile sites sites' :
  needs_on tile (sites ++ sites') = needs_on tile sites ++ needs_on tile sites'.
Proof using Type. unfold needs_on. by rewrite filter_app, flat_map_app. Qed.

Lemma needs_on_one tile site : needs_on tile [site] = if decide (site.1 = tile) then site.2 else [].
Proof using Type.
  unfold needs_on. destruct (decide _).
  - rewrite filter_cons_True by done. simpl. by rewrite app_nil_r.
  - by rewrite filter_cons_False by done.
Qed.

(** The builders record the sites seen so far. *)
Definition builders_record (past : list (TileCoord * list need)) (builders : list TileBuilder) : Prop :=
  Z.of_nat (length builders) = tile_count target /\
  forall tile b, in_array tile -> builders !! nat_of (position tile) = Some b ->
    records (needs_on tile past) b /\ tb_tile b = tile.

Lemma resolve_tile_event event event' tile : resolve_tile mapping event = LowOk (event', tile) ->
  ev_tile event' = Some tile.
Proof using Type.
  unfold resolve_tile. destruct (ev_tile event) as [t|] eqn:E.
  - by intros [= <- <-].
  - destruct (ev_kind event), (ev_node event); try done.
    destruct (placement _ _) as [p|]; simpl; [|done]. by intros [= <- <-].
Qed.

Lemma cycle_step_spec event past builders stats :
  unsigned_tile event -> is_use event = false -> builders_record past builders ->
  match event_site event, cycle_step dfg target mapping image event (builders, stats) with
  | LowOk site, LowOk (builders', _) => builders_record (past ++ [site]) builders'
  | LowOk site, LowFail s =>
      s = TLControlFieldConflict /\ exists tile, in_array tile /\ ~ agree (needs_on tile (past ++ [site]))
  | LowFail s, LowFail s' => s' = s \/ s' = TLControlFieldConflict
  | LowUndefined, LowUndefined => True
  | LowUndefined, LowFail s => s = TLControlFieldConflict
  | _, _ => False
  end.
Proof using Type.
  intros Htile Huse [Hlen Hb]. unfold event_site, cycle_step. unfold is_use in Huse. rewrite Huse.
  destruct (resolve_tile mapping event) as [[event' tile]| |] eqn:Er; cbn [mbind low_bind]; [|by left|done].
  specialize (Htile _ _ Er). unfold tileIndex.
  destruct (_ || _) eqn:Ei; cbn [mbind low_bind]; [by left|].
  assert (Hin : in_array tile) by (unfold in_array; lia). fold (position tile). clear Ei.
  pose proof (position_bound tile Hin) as Hpos.
  destruct (lookup_lt_is_Some_2 builders (nat_of (position tile))) as [b Eb]; [lia|].
  cbn [fst snd]. rewrite Eb. simpl. destruct (Hb tile b Hin Eb) as [Hrec Ht].
  pose proof (does_event dfg target mapping image tile event' (resolve_tile_event _ _ _ Er) _ b stats Hrec Ht) as H.
  destruct (event_needs _ _ _ _ tile event') as [needs|s|] eqn:En,
    (lower_event dfg target mapping image event' (b, stats)) as [[b' stats']|s'|]; simpl; try done.
  - destruct H as [Hrec' Ht']. split; [by rewrite length_insert|]. intros tile' b'' Hin' Hb''.
    rewrite needs_on_app, needs_on_one. simpl. destruct (decide (tile = tile')) as [<-|Hne].
    + rewrite list_lookup_insert_eq in Hb'' by (by eapply lookup_lt_Some). injection Hb'' as <-. done.
    + rewrite app_nil_r, list_lookup_insert_ne in *; [by apply Hb|].
      intros E. apply Hne, tile_position_inj; [done..|]. pose proof (position_bound tile' Hin'). lia.
  - destruct H as [-> H]. split; [done|]. exists tile. split; [done|].
    rewrite needs_on_app, needs_on_one. simpl. by rewrite decide_True.
Qed.

Lemma cycle_loop_spec events past builders stats :
  Forall unsigned_tile events -> builders_record past builders ->
  match cycle_sites events, cycle_loop dfg target mapping image events (builders, stats) with
  | LowOk sites, LowOk (builders', _) => builders_record (past ++ sites) builders'
  | LowOk sites, LowFail s =>
      s = TLControlFieldConflict /\ exists tile, in_array tile /\ ~ agree (needs_on tile (past ++ sites))
  | LowFail s, LowFail s' => s' = s \/ s' = TLControlFieldConflict
  | LowUndefined, LowUndefined => True
  | LowUndefined, LowFail s => s = TLControlFieldConflict
  | _, _ => False
  end.
Proof using Type.
  intros Hall. revert past builders stats.
  induction Hall as [|event events Htile _ IH]; intros past builders stats Hb; simpl; [by rewrite app_nil_r|].
  destruct (is_use event) eqn:Euse.
  - unfold cycle_step. unfold is_use in Euse. rewrite Euse. simpl. by apply IH.
  - pose proof (cycle_step_spec event past builders stats Htile Euse Hb) as H.
    destruct (event_site event) as [site|s|],
      (cycle_step dfg target mapping image event (builders, stats)) as [[builders' stats']|s'|]; simpl; try done.
    + specialize (IH _ _ stats' H). destruct (cycle_sites events) as [sites| |]; simpl; [|done..].
      by rewrite <- (assoc_L app) in IH.
    + destruct H as [-> (tile & Hin & Hna)].
      destruct (cycle_sites events) as [sites| |]; simpl; [|by right|done].
      split; [done|]. exists tile. split; [done|].
      change (site :: sites) with ([site] ++ sites). rewrite (assoc_L app), needs_on_app. by apply not_agree_app.
Qed.

Lemma new_builders_record : 0 <= tile_count target ->
  builders_record [] (new_builder target <$> range (tile_count target)).
Proof using Type.
  intros Hcount. split; [rewrite length_fmap; unfold range; rewrite length_seqZ; lia|].
  intros tile b Hin Hb. pose proof (position_bound tile Hin) as Hpos.
  rewrite list_lookup_fmap, fmap_Some in Hb. destruct Hb as (i & Hi & ->).
  unfold range in Hi. rewrite lookup_seqZ_lt in Hi by lia. injection Hi as <-.
  replace (0 + Z.of_nat (nat_of (position tile))) with (position tile) by lia. split.
  - split; [intros field; simpl; set_solver|]. split; [intros ?? H; by apply not_elem_of_nil in H|done..].
  - simpl. unfold position, in_array in *. destruct tile as [r c]. simpl in *. f_equal.
    + rewrite Z.div_add_l, Z.div_small by lia. lia.
    + rewrite Z.add_comm, Z.mod_add, Z.mod_small by lia. lia.
Qed.

(** The setting of every tile of a lowered cycle. *)
Definition cycle_overlay (sites : list (TileCoord * list need)) (tiles : TargetControlCycle) : Prop :=
  Z.of_nat (length tiles) = tile_count target /\
  forall tile c, in_array tile -> tiles !! nat_of (position tile) = Some c -> overlay (needs_on tile sites) c.

Lemma lowerCycle_spec events stats :
  0 <= tile_count target -> Forall unsigned_tile events ->
  match cycle_sites events, lowerCycle dfg target mapping image events stats with
  | LowOk sites, LowOk (tiles, _) => cycle_overlay sites tiles
  | LowOk sites, LowFail s =>
      s = TLControlFieldConflict /\ exists tile, in_array tile /\ ~ agree (needs_on tile sites)
  | LowFail s, LowFail s' => s' = s \/ s' = TLControlFieldConflict
  | LowUndefined, LowUndefined => True
  | LowUndefined, LowFail s => s = TLControlFieldConflict
  | _, _ => False
  end.
Proof using Type.
  intros Hcount Hall.
  pose proof (cycle_loop_spec events [] _ stats Hall (new_builders_record Hcount)) as H. unfold lowerCycle.
  destruct (cycle_sites events) as [sites| |],
    (cycle_loop dfg target mapping image events _) as [[builders s']| |]; simpl; try done.
  destruct H as [Hlen Hb]. split; [by rewrite length_fmap|]. intros tile c Hin Hc.
  rewrite list_lookup_fmap, fmap_Some in Hc. destruct Hc as (b & Eb & ->).
  by apply (rc_overlay _ _ (proj1 (Hb tile b Hin Eb))).
Qed.
End Cycle.

(** C17: lowering a cycle is exact.  When it succeeds, the setting of every tile of
    the array is the default one with exactly the changes that the tile's events of
    the cycle need; it succeeds exactly when every event's needs can be determined
    and no two events need different values of one member of one tile's setting; and
    it fails either with such a conflict or with the failure of an event. *)
Theorem cycle_lowering_exact (dfg : TargetDFG) (target : TargetModel) (mapping : RFAllocatedMapping)
    (image : ConstantImage) (bundle : CycleBundle) (stats : TargetLoweringStats) :
  0 <= tile_count target -> Forall (unsigned_tile mapping) bundle ->
  (forall tiles stats', lowerCycle dfg target mapping image bundle stats = LowOk (tiles, stats') ->
     exists sites, cycle_sites dfg target mapping image bundle = LowOk sites /\
       cycle_overlay target sites tiles) /\
  ((exists r, lowerCycle dfg target mapping image bundle stats = LowOk r) <->
   exists sites, cycle_sites dfg target mapping image bundle = LowOk sites /\
     forall tile, in_array target tile -> agree (needs_on tile sites)) /\
  forall s, lowerCycle dfg target mapping image bundle stats = LowFail s ->
    s = TLControlFieldConflict \/ cycle_sites dfg target mapping image bundle = LowFail s.
Proof.
  intros Hcount Hall. pose proof (lowerCycle_spec dfg target mapping image bundle stats Hcount Hall) as H.
  destruct (cycle_sites dfg target mapping image bundle) as [sites|s|],
    (lowerCycle dfg target mapping image bundle stats) as [[tiles stats']|s'|]; try done.
  - split_and!; [intros ?? [= <- <-]; by exists sites| |done]. split; [|by eexists].
    intros _. exists sites. split; [done|]. intros tile Hin. destruct H as [Hlen H].
    pose proof (position_bound target tile Hin).
    destruct (lookup_lt_is_Some_2 tiles (nat_of (position target tile))) as [c Hc]; [lia|].
    apply (overlay_agree _ c). by apply H.
  - destruct H as [-> (tile & Hin & Hna)]. split_and!; [done| |intros ? [= <-]; by left].
    split; [by intros [? [=]]|]. intros (sites' & [= <-] & Ha). by destruct Hna; apply Ha.
  - split_and!; [done| |intros ? [= <-]; naive_solver]. split; [by intros [? [=]]|by intros (? & [=] & _)].
  - split_and!; [done| |intros ? [= <-]; by left]. split; [by intros [? [=]]|by intros (? & [=] & _)].
  - split_and!; [done| |done]. split; [by intros [? [=]]|by intros (? & [=] & _)].
Qed.
