(* ===== verification/TargetLoweringExact.v ===== *)
(** * The lowered program runs the execution

    Lowering as a whole: the control program of a schedule follows it cycle by
    cycle, the words of the manifest decode to it, and replaying the manifest from
    its loop descriptor gives every tile, in every cycle, the setting that exactly
    the events of the mapped loop's execution in that cycle need. *)
From stdpp Require Import base numbers list gmap sorting strings.
From S2P Require Import Prelude.
From S2P Require Import IR.
From S2P Require Import TargetModel.
From S2P Require Import CgraV2.
From S2P Require Import TargetDFG.
From S2P Require Import TargetDFGVerifier.
From S2P Require Import ModuloResources.
From S2P Require Import ModuloMapping.
From S2P Require Import MappingVerifier.
From S2P Require Import MIIAnalyzer.
From S2P Require Import StageScheduler.
From S2P Require Import StorageRequirements.
From S2P Require Import RFAllocation.
From S2P Require Import MaterializedSchedule.
From S2P Require Import MaterializedVerifier.
From S2P Require Import ScheduleMaterializer.
From S2P Require Import MaterializeSpec.
From S2P Require Import MaterializedExact.
From S2P Require Import ControlLayout.
From S2P Require Import ConstantAllocator.
From S2P Require Import TargetLowering.
From S2P Require Import ControlOverlay.
From S2P Require Import TargetLoweringSpec.

(** ** Inversion of lowering steps *)

Lemma low_bind_Ok {A B} (m : low A) (f : A -> low B) b :
  mbind f m = LowOk b <-> exists a, m = LowOk a /\ f a = LowOk b.
Proof. destruct m; simpl; naive_solver. Qed.

Lemma lift_Ok {A} (r : result A) a : lift r = LowOk a <-> r = Ok a.
Proof. destruct r; simpl; naive_solver. Qed.

Lemma must_pass_Ok {A} status (r : result (list A)) u : must_pass status r = LowOk u -> r = Ok [].
Proof. unfold must_pass. destruct r as [[|]|]; simpl; congruence. Qed.

(** [low_ok] takes apart every hypothesis of the form [... = LowOk _]. *)
Ltac low_ok :=
  repeat match goal with
  | H : LowOk _ = LowOk _ |- _ => injection H; clear H; intros; subst
  | H : LowFail _ = LowOk _ |- _ => discriminate H
  | H : LowUndefined = LowOk _ |- _ => discriminate H
  | H : mbind _ _ = LowOk _ |- _ => apply low_bind_Ok in H as (? & ? & H)
  | H : lift _ = LowOk _ |- _ => apply lift_Ok in H
  | H : must_pass _ _ = LowOk _ |- _ => apply must_pass_Ok in H
  | H : (let '(_, _) := ?p in _) = LowOk _ |- _ => destruct p
  end.

(** ** Programs cycle by cycle *)

Section Program.
Context (dfg : TargetDFG) (target : TargetModel) (mapping : RFAllocatedMapping).
Context (image : ConstantImage).
Context (Hcount : 0 <= tile_count target).

(** The settings of a cycle are what its bundle needs. *)
Definition lowered (bundle : CycleBundle) (tiles : TargetControlCycle) : Prop :=
  exists sites, cycle_sites dfg target mapping image bundle = LowOk sites /\ cycle_overlay target sites tiles.

Lemma lower_cycles_lowered bundles stats cycles stats' :
  Forall (Forall (unsigned_tile mapping)) bundles ->
  lower_cycles dfg target mapping image bundles stats = LowOk (cycles, stats') ->
  Forall2 lowered bundles cycles.
Proof using Hcount.
  intros Hall. revert stats cycles stats'. induction Hall as [|bundle bundles Hb _ IH];
    intros stats cycles stats' H; simpl in H; low_ok; [constructor|].
  match goal with H : lowerCycle _ _ _ _ _ _ = LowOk (?tiles, _) |- _ =>
    pose proof (lowerCycle_spec dfg target mapping image bundle stats Hcount Hb) as Hs; rewrite H in Hs end.
  constructor; [|by eapply IH].
  destruct (cycle_sites dfg target mapping image bundle) as [sites| |] eqn:E; [|done..].
  by exists sites.
Qed.

Lemma lower_run_lowered schedule program stats :
  Forall (Forall (unsigned_tile mapping)) (sch_prologue schedule ++ rk_body (sch_kernel schedule) ++
    sch_epilogue schedule) ->
  lower_run dfg target mapping image schedule = LowOk (program, stats) ->
  tcp_ii program = sch_ii schedule /\ tcp_tripCount program = sch_tripCount schedule /\
  tk_repeatCount (tcp_kernel program) = rk_repeatCount (sch_kernel schedule) /\
  Forall2 lowered (sch_prologue schedule) (tcp_prologue program) /\
  Forall2 lowered (kernel_bundles schedule) (tk_body (tcp_kernel program)) /\
  Forall2 lowered (sch_epilogue schedule) (tcp_epilogue program).
Proof using Hcount.
  rewrite !Forall_app. intros (Hp & Hk & He) H. unfold lower_run in H.
  destruct (_ =? 0); [done|]. low_ok. simpl. split_and!; [done..| | |].
  - by eapply lower_cycles_lowered.
  - eapply lower_cycles_lowered; [|done]. unfold kernel_bundles. apply Forall_fmap, Forall_forall.
    intros cycle _. simpl. destruct (_ !! _) as [bundle|] eqn:E; simpl; [|constructor].
    rewrite Forall_forall in Hk. apply Hk. by apply list_elem_of_lookup_2 in E.
  - by eapply lower_cycles_lowered.
Qed.
End Program.

(** ** Words *)

Lemma encode_cycle_words target tiles stats words stats' :
  encode_cycle target tiles stats = LowOk (words, stats') ->
  Forall2 (fun c w => encode target c = Ok w) tiles words.
Proof.
  revert stats words stats'. induction tiles as [|c tiles IH]; intros stats words stats' H; simpl in H;
    low_ok; [constructor|]. constructor; [|by eapply IH].
  match goal with H : encode_control _ _ = _ |- _ => unfold encode_control in H; low_ok end.
  case_bool_decide; low_ok. done.
Qed.

Lemma encode_phase_words target cycles stats words stats' :
  encode_phase target cycles stats = LowOk (words, stats') ->
  Forall2 (Forall2 (fun c w => encode target c = Ok w)) cycles words.
Proof.
  revert stats words stats'. induction cycles as [|tiles cycles IH]; intros stats words stats' H; simpl in H;
    low_ok; [constructor|]. constructor; [by eapply encode_cycle_words|by eapply IH].
Qed.

(** The cycles of a program in the order of the program counter. *)
Definition program_cycles (program : TargetControlProgram) : list TargetControlCycle :=
  tcp_prologue program ++ tk_body (tcp_kernel program) ++ tcp_epilogue program.

Lemma encodeProgram_words target program stats encoded stats' :
  encodeProgram program target stats = LowOk (encoded, stats') ->
  Forall2 (Forall2 (fun c w => encode target c = Ok w)) (program_cycles program) (all_cycles encoded) /\
  length (ep_prologue encoded) = length (tcp_prologue program) /\
  length (ep_epilogue encoded) = length (tcp_epilogue program) /\
  ek_repeatCount (ep_kernel encoded) = tk_repeatCount (tcp_kernel program).
Proof.
  unfold encodeProgram. intros H. low_ok. unfold program_cycles, all_cycles. simpl.
  repeat match goal with H : encode_phase _ _ _ = LowOk _ |- _ => apply encode_phase_words in H end.
  split_and!; [repeat apply Forall2_app; done|symmetry; by eapply Forall2_length..|done].
Qed.

(** The words of a tile are those of its column, numbered from the start. *)
Lemma tile_words_lookup index pc cycles control :
  tile_words index pc cycles = LowOk control ->
  length control = length cycles /\
  forall i w, control !! i = Some w <->
    exists cycle chunks, cycles !! i = Some cycle /\ cycle !! index = Some chunks /\
      w = (pc + Z.of_nat i, chunks).
Proof.
  revert pc control. induction cycles as [|cycle cycles IH]; intros pc control H; simpl in H; low_ok.
  { split; [done|]. intros i w. split; [done|]. by intros (? & ? & ? & _). }
  match goal with H : of_option _ _ = Ok _ |- _ => apply of_option_Ok in H end.
  match goal with H : tile_words _ _ _ = LowOk _ |- _ => apply IH in H as [Hlen Hlook] end.
  split; [by simpl; rewrite Hlen|]. intros [|i] w; simpl.
  - split.
    + intros [= <-]. eexists _, _. split_and!; [done..|]. f_equal. lia.
    + intros (? & ? & [= <-] & Hx & ->). f_equal. f_equal; [lia|congruence].
  - rewrite Hlook. split; intros (c & w' & ? & ? & ->); exists c, w'; split_and!; try done; f_equal; lia.
Qed.

(** The image of a tile. *)
Definition image_of (m : ProgramManifest) (tile : TileCoord) : option TileImage :=
  find_if (fun i => (ti_row i =? tile_row tile) && (ti_col i =? tile_col tile)) (pm_tiles m).

Lemma tile_images_lookup target encoded options cells images row col :
  tile_images target encoded options cells = LowOk images -> (row, col) ∈ cells ->
  exists i, find_if (fun i => (ti_row i =? row) && (ti_col i =? col)) images = Some i /\
    tile_words (nat_of (row * arr_cols (tm_array target) + col)) 0 (all_cycles encoded) = LowOk (ti_control i) /\
    ti_constants i = constant_memory ∅ (opt_constantImage options).
Proof.
  revert images. induction cells as [|[r c] cells IH]; intros images H Hin; simpl in H; low_ok.
  { by apply not_elem_of_nil in Hin. }
  simpl. destruct ((r =? row) && (c =? col)) eqn:E.
  - apply andb_prop in E as [->%Z.eqb_eq ->%Z.eqb_eq]. eexists. split; [done|]. done.
  - apply elem_of_cons in Hin as [[= -> ->]|Hin]; [by rewrite !Z.eqb_refl in E|]. by apply IH.
Qed.

(** ** Replay *)

(** The program counter of cycle [t] of a run, as the loop descriptor says: the
    prologue, the kernel's body [tripCount] times, the epilogue. *)
Definition replay_pc (m : ProgramManifest) (t : Z) : Z :=
  if t <? pm_prologueCycles m then t
  else if t <? pm_prologueCycles m + pm_tripCount m * pm_ii m
  then pm_prologueCycles m + (t - pm_prologueCycles m) mod pm_ii m
  else t - (pm_tripCount m - 1) * pm_ii m.

(** The word the control memory of a tile gives in that cycle. *)
Definition replayed (m : ProgramManifest) (tile : TileCoord) (t : Z) : option (list Z) :=
  i ← image_of m tile; snd <$> find_if (fun entry => entry.1 =? replay_pc m t) (ti_control i).

(** The bundle that cycle [t] of a schedule repeats, and how often it was repeated before. *)
Definition bundle_at (s : MaterializedSchedule) (t : Z) : option (CycleBundle * Z) :=
  let start := Z.of_nat (length (sch_prologue s)) in
  let span := rk_repeatCount (sch_kernel s) * sch_ii s in
  if t <? start then (fun b => (b, 0)) <$> sch_prologue s !! nat_of t
  else if t <? start + span
  then (fun b => (b, (t - start) / sch_ii s)) <$> rk_body (sch_kernel s) !! nat_of ((t - start) mod sch_ii s)
  else (fun b => (b, 0)) <$> sch_epilogue s !! nat_of (t - start - span).

Lemma elem_of_cells base cycles t e :
  (t, e) ∈ cells base cycles <-> exists bundle, base <= t /\ cycles !! nat_of (t - base) = Some bundle /\ e ∈ bundle.
Proof.
  unfold cells. rewrite elem_of_flat_map. split.
  - intros ([offset events] & Hin & H). apply elem_of_enumerate in Hin as [H0 Hin].
    apply list_elem_of_fmap in H as (e' & [= -> ->] & He). exists events.
    replace (base + offset - base) with offset by lia. split_and!; [lia|done|done].
  - intros (bundle & H0 & Hb & He). exists (t - base, bundle). split; [apply elem_of_enumerate; split; [lia|done]|].
    apply list_elem_of_fmap. exists e. split; [f_equal; lia|done].
Qed.

Section Replay.
Context (s : MaterializedSchedule).

Abbreviation start := (Z.of_nat (length (sch_prologue s))).
Abbreviation repeats := (rk_repeatCount (sch_kernel s)).
Abbreviation ii := (sch_ii s).
Abbreviation stop := (start + repeats * ii).

Context (Hii : 0 < ii) (Hrepeats : 0 <= repeats).
Context (Hbody : Z.of_nat (length (rk_body (sch_kernel s))) = if repeats =? 0 then 0 else ii).

(** What the unrolled schedule holds in a cycle. *)
Lemma unroll_cycle t e : 0 <= t ->
  (t, e) ∈ unroll s <-> exists bundle k e0, bundle_at s t = Some (bundle, k) /\ e0 ∈ bundle /\
    e = if (start <=? t) && (t <? stop) then advance_event k e0 else e0.
Proof using Hii Hrepeats Hbody.
  intros Ht. unfold unroll, bundle_at. rewrite !elem_of_app, !elem_of_cells, elem_of_flat_map.
  assert (Hspan : 0 <= repeats * ii) by nia.
  split.
  - intros [(b & _ & Hb & He)|[(k & Hk & Hin)|(b & Hb0 & Hb & He)]].
    + assert (Hlt : t < start) by (apply lookup_lt_Some in Hb; rewrite Z.sub_0_r in Hb; lia).
      rewrite Z.sub_0_r in Hb. rewrite (proj2 (Z.ltb_lt _ _) Hlt), Hb. exists b, 0, e.
      rewrite (proj2 (Z.leb_gt _ _)) by lia. done.
    + apply list_elem_of_fmap in Hin as ([c e0] & Ec & Hc).
      apply elem_of_range in Hk. apply elem_of_cells in Hc as (b & Hc0 & Hb & He).
      unfold repetition in Ec. simpl in Ec. injection Ec as -> ->.
      pose proof (lookup_lt_Some _ _ _ Hb) as Hlt. destruct (Z.eqb_spec repeats 0); [lia|].
      assert (Hr : 0 <= c - start < ii) by lia.
      rewrite (proj2 (Z.ltb_ge _ _)) by nia. rewrite (proj2 (Z.ltb_lt _ _)) by nia.
      replace (c + k * ii - start) with (c - start + k * ii) by lia.
      rewrite Z.mod_add, Z.mod_small, Z.div_add, Z.div_small by lia. rewrite Hb. simpl.
      exists b, (0 + k), e0. split_and!; [done..|].
      rewrite (proj2 (Z.leb_le _ _)) by nia. done.
    + rewrite (proj2 (Z.ltb_ge _ _)) by lia. rewrite (proj2 (Z.ltb_ge _ _)) by lia.
      replace (t - start - repeats * ii) with (t - stop) by lia. rewrite Hb. exists b, 0, e.
      split_and!; [done..|]. by rewrite andb_false_r.
  - intros (b & k & e0 & Hb & He & ->). destruct (Z.ltb_spec t start) as [Hlt|Hge].
    + rewrite (proj2 (Z.leb_gt _ _)) by lia. simpl. apply fmap_Some in Hb as (b' & Hb & [= -> ->]).
      left. exists b'. rewrite Z.sub_0_r. done.
    + rewrite (proj2 (Z.leb_le _ _)) by lia. destruct (Z.ltb_spec t stop) as [Hlt'|Hge'].
      * right; left. apply fmap_Some in Hb as (b' & Hb & [= -> ->]). simpl.
        exists ((t - start) / ii). pose proof (Z.mod_pos_bound (t - start) ii Hii).
        pose proof (Z.div_mod (t - start) ii ltac:(lia)).
        split; [apply elem_of_range; split; [apply Z.div_pos; lia|apply Z.div_lt_upper_bound; lia]|].
        apply list_elem_of_fmap. exists (start + (t - start) mod ii, e0). split; [unfold repetition; simpl; f_equal; lia|].
        apply elem_of_cells. exists b'. replace (start + (t - start) mod ii - start) with ((t - start) mod ii) by lia.
        split_and!; [lia|done|done].
      * right; right. apply fmap_Some in Hb as (b' & Hb & [= -> ->]). exists b'.
        replace (t - stop) with (t - start - repeats * ii) by lia. split_and!; [lia|done|done].
Qed.

(** The program counter of a cycle leads to its bundle. *)
Definition bundles : list CycleBundle := sch_prologue s ++ kernel_bundles s ++ sch_epilogue s.

Lemma bundle_at_pc m t b k :
  pm_prologueCycles m = start -> pm_ii m = ii -> pm_tripCount m = (if repeats =? 0 then 1 else repeats) ->
  (repeats = 0 -> sch_epilogue s = []) -> 0 <= t -> bundle_at s t = Some (b, k) ->
  0 <= replay_pc m t /\ bundles !! nat_of (replay_pc m t) = Some b.
Proof using Hii Hrepeats Hbody.
  intros Hp Hi Htrip Hepi Ht Hb. unfold bundle_at, replay_pc, bundles in *. rewrite Hp, Hi, Htrip.
  assert (Hkernel : length (kernel_bundles s) = nat_of ii)
    by (unfold kernel_bundles; rewrite length_fmap; unfold range; by rewrite length_seqZ).
  destruct (Z.ltb_spec t start) as [Hlt|Hge].
  { apply fmap_Some in Hb as (b' & Hb & [= -> ->]). split; [done|]. by apply lookup_app_l_Some. }
  destruct (Z.ltb_spec t stop) as [Hlt'|Hge'].
  - destruct (Z.eqb_spec repeats 0); [lia|]. rewrite (proj2 (Z.ltb_lt _ _)) by done.
    apply fmap_Some in Hb as (b' & Hb & [= -> ->]). pose proof (Z.mod_pos_bound (t - start) ii Hii).
    split; [lia|]. rewrite lookup_app_r by lia.
    replace (nat_of (start + (t - start) mod ii) - length (sch_prologue s))%nat
      with (nat_of ((t - start) mod ii)) by lia.
    apply lookup_app_l_Some. unfold kernel_bundles. rewrite list_lookup_fmap.
    unfold range. rewrite lookup_seqZ_lt by lia. simpl.
    replace (0 + Z.of_nat (nat_of ((t - start) mod ii))) with ((t - start) mod ii) by lia. by rewrite Hb.
  - destruct (Z.eqb_spec repeats 0) as [E|Hne]; [by rewrite Hepi in Hb|].
    rewrite (proj2 (Z.ltb_ge _ _)) by done. apply fmap_Some in Hb as (b' & Hb & [= -> ->]).
    split; [nia|]. rewrite lookup_app_r by nia. rewrite lookup_app_r by nia.
    replace (nat_of (t - (repeats - 1) * ii) - length (sch_prologue s) - length (kernel_bundles s))%nat
      with (nat_of (t - start - repeats * ii)) by nia. done.
Qed.

(** Every cycle of the schedule has a bundle. *)
Lemma bundle_at_total t : (repeats = 0 -> sch_epilogue s = []) ->
  0 <= t < stop + Z.of_nat (length (sch_epilogue s)) -> exists b k, bundle_at s t = Some (b, k).
Proof using Hii Hrepeats Hbody.
  intros Hepi Ht. unfold bundle_at. destruct (Z.ltb_spec t start).
  - destruct (lookup_lt_is_Some_2 (sch_prologue s) (nat_of t)) as [b ->]; [lia|]. by eexists _, _.
  - destruct (Z.ltb_spec t stop).
    + destruct (Z.eqb_spec repeats 0); [lia|]. pose proof (Z.mod_pos_bound (t - start) ii Hii).
      destruct (lookup_lt_is_Some_2 (rk_body (sch_kernel s)) (nat_of ((t - start) mod ii))) as [b ->]; [lia|].
      by eexists _, _.
    + destruct (lookup_lt_is_Some_2 (sch_epilogue s) (nat_of (t - start - repeats * ii))) as [b ->]; [lia|].
      by eexists _, _.
Qed.
End Replay.

(** ** Events up to their meaning *)

Section Meaning.
Context (dfg : TargetDFG) (target : TargetModel) (mapping : RFAllocatedMapping).
Context (image : ConstantImage).

Abbreviation site := (event_site dfg target mapping image).

(** A node issue names its node's tile, or no tile. *)
Definition placed_issue (e : MaterializedEvent) : Prop :=
  ev_kind e = NodeIssue -> ev_tile e = None \/
    exists node p, ev_node e = Some node /\ placement (sm_modulo (ra_staged mapping)) node = Ok p /\
      ev_tile e = Some (np_tile p).

Lemma is_use_meaning e : is_use (meaning e) = is_use e.
Proof using Type. by destruct e as [[] ?????? ?????]. Qed.

Lemma is_use_advance k e : is_use (advance_event k e) = is_use e.
Proof using Type. done. Qed.

Lemma event_site_meaning e : placed_issue e -> is_use e = false -> site (meaning e) = site e.
Proof using Type.
  intros Hp Hu. destruct e as [kind it node edge segment liveOut index offset value domain tile direction reg].
  unfold event_site, meaning, resolve_tile. unfold placed_issue in Hp. simpl in *.
  destruct kind; simpl; try (by destruct tile).
  destruct (Hp eq_refl) as [->|(n & p & -> & Hpl & ->)]; [|by rewrite Hpl].
  destruct node; [by destruct (placement _ _)|done].
Qed.

Lemma boundaryConstantFor_later edge it k : 0 <= it -> 0 <= k ->
  boundaryConstantFor edge (it + k) = boundaryConstantFor edge it.
Proof using Type.
  intros. unfold boundaryConstantFor. rewrite (proj2 (Z.leb_le 0 (it + k))) by lia.
  by rewrite (proj2 (Z.leb_le 0 it)) by lia.
Qed.

Lemma boundary_value_later edge it k : 0 <= it -> 0 <= k ->
  boundary_value dfg image edge (it + k) = boundary_value dfg image edge it.
Proof using Type.
  intros. unfold boundary_value, boundarySource. by rewrite !boundaryConstantFor_later.
Qed.

Lemma link_needs_later e k : 0 <= ev_logicalIteration e -> 0 <= k ->
  link_needs dfg target mapping image (advance_event k e) = link_needs dfg target mapping image e.
Proof using Type.
  intros Hit Hk. unfold link_needs. simpl.
  destruct (ev_edge e) as [id|]; simpl; [|done]. destruct (ev_direction e); simpl; [|done].
  destruct (ev_domain e); simpl; [|done]. destruct (ev_transportActionIndex e) as [index|]; simpl; [|done].
  destruct (lift (td_edge dfg id)) as [edge| |]; simpl; [|done..]. destruct (bool_decide _); [done|].
  destruct (lift _) as [dep| |]; simpl; [|done..]. destruct (require _ _) as [plan| |]; simpl; [|done..].
  destruct (_ <=? _); [done|]. unfold link_value. simpl. by rewrite boundary_value_later.
Qed.

Lemma write_needs_later tile e k : 0 <= ev_logicalIteration e -> 0 <= k ->
  write_needs dfg target mapping image tile (advance_event k e) =
  write_needs dfg target mapping image tile e.
Proof using Type.
  intros Hit Hk. unfold write_needs. simpl.
  destruct (ev_segment e) as [id|]; simpl; [|done]. destruct (ev_physicalRegister e); simpl; [|done].
  destruct (ev_edge e); simpl; [|done]. destruct (lift (rq_segment _ _)) as [segment| |]; simpl; [|done..].
  destruct (lift (td_edge _ _)) as [edge| |]; simpl; [|done..].
  unfold write_value. simpl. by rewrite boundary_value_later, boundaryConstantFor_later.
Qed.

(** The needs of a periodic event do not change from iteration to iteration, once
    the iteration belongs to the loop. *)
Lemma event_site_advance k e : 0 <= k -> is_one_shot (ev_kind e) = false ->
  (ev_kind e = LinkLaunch \/ ev_kind e = RFWrite -> 0 <= ev_logicalIteration e) ->
  site (advance_event k e) = site e.
Proof using Type.
  intros Hk Hs Hit. unfold event_site, resolve_tile.
  change (ev_tile (advance_event k e)) with (ev_tile e). change (ev_kind (advance_event k e)) with (ev_kind e).
  change (ev_node (advance_event k e)) with (ev_node e).
  destruct (ev_tile e) as [tile|]; simpl.
  - destruct (tileIndex tile target); simpl; [|done..]. unfold event_needs. simpl.
    destruct (ev_kind e); try done; [rewrite link_needs_later|rewrite write_needs_later]; auto.
  - destruct (ev_kind e) eqn:Ek; try done. destruct (ev_node e) as [node|] eqn:En; [|done].
    destruct (lift _) as [p| |]; simpl; [|done..]. destruct (tileIndex _ _); simpl; [|done..].
    unfold event_needs. simpl. by rewrite Ek.
Qed.

Lemma elem_of_needs_on tile sites n :
  n ∈ needs_on tile sites <-> exists needs, (tile, needs) ∈ sites /\ n ∈ needs.
Proof using Type.
  unfold needs_on. rewrite elem_of_flat_map. setoid_rewrite list_elem_of_filter. split.
  - intros ([t needs] & [<- Hin] & Hn). by exists needs.
  - intros (needs & Hin & Hn). by exists (tile, needs).
Qed.

Lemma cycle_sites_elem events sites : cycle_sites dfg target mapping image events = LowOk sites ->
  forall s, s ∈ sites <-> exists e, e ∈ events /\ is_use e = false /\ site e = LowOk s.
Proof using Type.
  revert sites. induction events as [|e events IH]; intros sites H s; simpl in H.
  { low_ok. split; [intros Hs; by apply not_elem_of_nil in Hs|intros (e & He & _); by apply not_elem_of_nil in He]. }
  destruct (is_use e) eqn:Eu.
  - rewrite (IH _ H). setoid_rewrite elem_of_cons. split.
    + intros (e' & ? & ?). exists e'. naive_solver.
    + intros (e' & [->|?] & ? & ?); [congruence|]. by exists e'.
  - low_ok. match goal with H : cycle_sites _ _ _ _ _ = LowOk _ |- _ => specialize (IH _ H s) end.
    rewrite elem_of_cons, IH. setoid_rewrite elem_of_cons. split.
    + intros [->|(e' & ? & ?)]; [exists e; naive_solver|exists e'; naive_solver].
    + intros (e' & [->|?] & ? & ?); [left; congruence|right; by exists e'].
Qed.

(** What the execution needs of a tile's setting in a cycle. *)
Definition execution_needs (trip t : Z) (tile : TileCoord) : list need :=
  flat_map (fun cell => match site cell.2 with
                        | LowOk (tile', needs) => if decide (tile' = tile) then needs else []
                        | _ => []
                        end)
    (filter (fun cell => cell.1 = t /\ is_use cell.2 = false) (expected_events dfg mapping trip)).

Lemma elem_of_execution_needs trip t tile n :
  n ∈ execution_needs trip t tile <-> exists e needs, (t, e) ∈ expected_events dfg mapping trip /\
    is_use e = false /\ site e = LowOk (tile, needs) /\ n ∈ needs.
Proof using Type.
  unfold execution_needs. rewrite elem_of_flat_map. setoid_rewrite list_elem_of_filter. split.
  - intros ([t' e] & [[E Hu] Hin] & Hn). simpl in *. subst t'.
    destruct (site e) as [[tile' needs]| |] eqn:Es; [|by apply not_elem_of_nil in Hn..].
    destruct (decide (tile' = tile)) as [->|]; [|by apply not_elem_of_nil in Hn]. by exists e, needs.
  - intros (e & needs & Hin & Hu & Es & Hn). exists (t, e). simpl. split; [done|].
    rewrite Es. by rewrite decide_True.
Qed.

Lemma overlay_same needs needs' c : (forall n, n ∈ needs <-> n ∈ needs') -> overlay needs c -> overlay needs' c.
Proof using Type.
  intros H [H1 H2 H3]. split; [intros f v Hv; by apply H1, H| |done].
  intros f Hf. apply H2. intros Hin. apply Hf. apply list_elem_of_fmap in Hin as ([f' v] & -> & Hin).
  apply (list_elem_of_fmap_2 fst _ (f', v)). by apply H.
Qed.
End Meaning.

(** ** Schedules that lower cycle by cycle *)

(** The node issues' tiles are their nodes'; links and register writes in a repeated
    kernel belong to iterations of the loop; without a kernel there is no epilogue. *)
Record lowerable (mapping : RFAllocatedMapping) (s : MaterializedSchedule) : Prop := {
  lw_issues : Forall (Forall (placed_issue mapping))
    (sch_prologue s ++ rk_body (sch_kernel s) ++ sch_epilogue s);
  lw_steady : Forall (Forall (fun e => ev_kind e = LinkLaunch \/ ev_kind e = RFWrite ->
      0 <= ev_logicalIteration e \/ rk_repeatCount (sch_kernel s) <= 1)) (rk_body (sch_kernel s));
  lw_phases : rk_repeatCount (sch_kernel s) = 0 -> sch_epilogue s = []
}.

Section Execution.
Context (dfg : TargetDFG) (target : TargetModel) (mapping : RFAllocatedMapping).
Context (image : ConstantImage) (trip : Z) (s : MaterializedSchedule).
Context (Hlow : lowerable mapping s) (Hexact : schedule_exact dfg mapping trip s).
Context (Hii : 0 < sch_ii s) (Hrepeats : 0 <= rk_repeatCount (sch_kernel s)).

Lemma bundle_at_elem t b k : 0 <= t -> bundle_at s t = Some (b, k) ->
  b ∈ sch_prologue s ++ rk_body (sch_kernel s) ++ sch_epilogue s /\ 0 <= k /\
  (((Z.of_nat (length (sch_prologue s)) <=? t) &&
    (t <? Z.of_nat (length (sch_prologue s)) + rk_repeatCount (sch_kernel s) * sch_ii s))%Z = true ->
   b ∈ rk_body (sch_kernel s) /\ k < rk_repeatCount (sch_kernel s)).
Proof using Hii.
  intros Ht. unfold bundle_at. destruct (Z.ltb_spec t (Z.of_nat (length (sch_prologue s)))).
  { intros (b' & Hb & [= -> ->])%fmap_Some. apply list_elem_of_lookup_2 in Hb. rewrite !elem_of_app.
    split_and!; [by left|done|]. rewrite (proj2 (Z.leb_gt _ _)) by lia. done. }
  destruct (Z.ltb_spec t (Z.of_nat (length (sch_prologue s)) + rk_repeatCount (sch_kernel s) * sch_ii s));
    intros (b' & Hb & [= -> ->])%fmap_Some; apply list_elem_of_lookup_2 in Hb; rewrite !elem_of_app.
  - split_and!; [by right; left|by apply Z.div_pos; lia|]. intros _. split; [done|].
    apply Z.div_lt_upper_bound; lia.
  - split_and!; [by right; right|done|]. rewrite andb_false_r. done.
Qed.

(** The events of the execution in a cycle are those of the cycle's bundle, up to
    changes that their sites do not see. *)
Lemma bundle_expected t b k : 0 <= t -> bundle_at s t = Some (b, k) ->
  exists shown : MaterializedEvent -> MaterializedEvent,
    (forall m, (t, m) ∈ expected_events dfg mapping trip <-> exists e, e ∈ b /\ m = shown e) /\
    forall e, e ∈ b -> is_use (shown e) = is_use e /\
      (is_use e = false -> event_site dfg target mapping image (shown e) = event_site dfg target mapping image e).
Proof using All.
  intros Ht Hb. destruct (bundle_at_elem t b k Ht Hb) as (Hall & Hk & Hkernel).
  set (shifted e := if (Z.of_nat (length (sch_prologue s)) <=? t) &&
    (t <? Z.of_nat (length (sch_prologue s)) + rk_repeatCount (sch_kernel s) * sch_ii s)
    then advance_event k e else e).
  exists (fun e => meaning (shifted e)). split.
  - intros m. rewrite <- (se_events _ _ _ _ Hexact), list_elem_of_fmap. split.
    + intros ([t' e] & E & Hin). injection E as -> ->.
      apply unroll_cycle in Hin as (b' & k' & e0 & Hb' & He0 & ->); [|done..|apply (se_kernel _ _ _ _ Hexact)|done].
      rewrite Hb in Hb'. injection Hb' as <- <-. by exists e0.
    + intros (e & He & ->). exists (t, shifted e). split; [done|].
      apply unroll_cycle; [done..|apply (se_kernel _ _ _ _ Hexact)|done|]. by exists b, k, e.
  - intros e He. split; [rewrite is_use_meaning; unfold shifted; by destruct (_ && _)|]. intros Hu.
    pose proof (lw_issues _ _ Hlow) as Hp. rewrite Forall_forall in Hp. specialize (Hp b Hall).
    rewrite Forall_forall in Hp. specialize (Hp e He). unfold shifted.
    destruct (_ && _) eqn:E; [|by apply event_site_meaning].
    destruct (Hkernel eq_refl) as [Hbody Hlt]. rewrite event_site_meaning by done.
    pose proof (lw_steady _ _ Hlow) as Hst. rewrite Forall_forall in Hst. specialize (Hst b Hbody).
    rewrite Forall_forall in Hst. specialize (Hst e He).
    destruct (decide (k = 0)) as [->|Hne].
    + f_equal. destruct e. unfold advance_event, at_iteration. simpl. by rewrite Z.add_0_r.
    + apply event_site_advance; [done|by eapply (se_periodic _ _ _ _ Hexact)|].
      intros Hkind. destruct (Hst Hkind); [done|lia].
Qed.

(** The sites of a cycle's bundle are those of the execution in that cycle. *)
Lemma bundle_needs t b k sites tile n :
  0 <= t -> bundle_at s t = Some (b, k) -> cycle_sites dfg target mapping image b = LowOk sites ->
  n ∈ needs_on tile sites <-> n ∈ execution_needs dfg target mapping image trip t tile.
Proof using All.
  intros Ht Hb Hsites. destruct (bundle_expected t b k Ht Hb) as (shown & Hexp & Hshown).
  rewrite elem_of_needs_on, elem_of_execution_needs. setoid_rewrite (cycle_sites_elem _ _ _ _ _ _ Hsites).
  split.
  - intros (needs & (e & He & Hu & Es) & Hn). destruct (Hshown e He) as [Hu' Hs'].
    exists (shown e), needs. rewrite Hu', Hs' by done. split_and!; [apply Hexp; by exists e|done..].
  - intros (m & needs & Hm & Hu & Es & Hn). apply Hexp in Hm as (e & He & ->).
    destruct (Hshown e He) as [Hu' Hs']. rewrite Hu' in Hu. rewrite Hs' in Es by done.
    exists needs. split; [by exists e|done].
Qed.

(** Every event of the execution lies in a bundle. *)
Lemma expected_bundle t m : (t, m) ∈ expected_events dfg mapping trip ->
  0 <= t /\ exists b k, bundle_at s t = Some (b, k).
Proof using Hexact Hii Hrepeats.
  rewrite <- (se_events _ _ _ _ Hexact), list_elem_of_fmap. intros ([t' e] & E & Hin). injection E as -> ->.
  assert (Ht : 0 <= t').
  { unfold unroll in Hin. rewrite !elem_of_app, !elem_of_cells, elem_of_flat_map in Hin.
    destruct Hin as [(? & ? & _)|[(k & Hk & Hin)|(? & ? & _)]]; [done| |nia].
    apply list_elem_of_fmap in Hin as ([c e0] & Ec & Hc). apply elem_of_cells in Hc as (? & ? & _).
    apply elem_of_range in Hk. unfold repetition in Ec. simpl in Ec. injection Ec as -> _. nia. }
  split; [done|]. apply unroll_cycle in Hin as (b & k & _ & Hb & _); [|done..|apply (se_kernel _ _ _ _ Hexact)|done].
  by exists b, k.
Qed.
End Execution.

(** ** Settings hold machine words *)

Definition numbers_fit (needs : list need) : Prop :=
  forall field n, (field, FNumber n) ∈ needs -> is_u32 n.

Lemma overlay_number needs c field get : (field, fun c => FNumber (get c)) ∈ members ->
  is_u32 (get default_control) -> numbers_fit needs -> overlay needs c -> is_u32 (get c).
Proof.
  intros Hm H0 Hfit [Hn Hd _].
  assert (Hv : forall c, member_value c field = Some (FNumber (get c)))
    by (intros c'; apply member_value_Some; by eexists).
  destruct (decide (field ∈ needs.*1)) as [Hin|Hout].
  - apply list_elem_of_fmap in Hin as ([f v] & -> & Hin). simpl in *.
    pose proof (Hn f v Hin) as E. rewrite Hv in E. injection E as <-. by apply (Hfit f).
  - specialize (Hd field Hout). rewrite !Hv in Hd. injection Hd as ->. done.
Qed.

Lemma b2z_u32 b : is_u32 (Z.b2z b).
Proof. destruct b; vm_compute; split; congruence. Qed.

(** The member a number is read from. *)
Ltac number_of field get :=
  match goal with H : overlay ?needs ?c |- _ =>
    apply (overlay_number needs c field get);
      [apply entry_Ok; [apply members_NoDup | reflexivity] | vm_compute; split; congruence | done | done]
  end.
Ltac number_member := first [
    number_of "dataRfReadAddrA"%string tc_dataRfReadAddrA
  | number_of "dataRfReadAddrB"%string tc_dataRfReadAddrB
  | number_of "predicateRfReadAddrA"%string tc_predicateRfReadAddrA
  | number_of "predicateRfReadAddrB"%string tc_predicateRfReadAddrB
  | number_of "dataWrite0Addr"%string tc_dataWrite0Addr
  | number_of "dataWrite1Addr"%string tc_dataWrite1Addr
  | number_of "predicateWrite0Addr"%string tc_predicateWrite0Addr
  | number_of "predicateWrite1Addr"%string tc_predicateWrite1Addr
  | number_of "constantAddr"%string tc_constantAddr ].

Lemma overlay_typed needs c : numbers_fit needs -> overlay needs c -> typed_control c.
Proof.
  intros Hfit Hov name x Hx. unfold semanticInteger in Hx. apply bind_Ok in Hx as (r & Hr & Hx).
  injection Hx as <-. apply entry_Ok in Hr; [|apply integer_readers_NoDup].
  assert (H : Forall (fun r => is_u32 (r.2 c)) integer_readers); [|by apply Forall_forall with (x := (name, r)) in H].
  unfold integer_readers. simpl. repeat (apply Forall_cons; split);
    first [apply Forall_nil_2 | apply b2z_u32 | number_member].
Qed.

Lemma numbers_fit_app needs needs' : numbers_fit needs -> numbers_fit needs' -> numbers_fit (needs ++ needs').
Proof. intros H H' f n [Hin|Hin]%elem_of_app; [by apply (H f)|by apply (H' f)]. Qed.

Lemma numbers_fit_nil : numbers_fit [].
Proof. intros f n Hin. by apply not_elem_of_nil in Hin. Qed.

Lemma numbers_fit_cons field v needs :
  (forall n, v = FNumber n -> is_u32 n) -> numbers_fit needs -> numbers_fit ((field, v) :: needs).
Proof. intros Hv H f n [[= -> <-]|Hin]%elem_of_cons; [by apply Hv|by apply (H f)]. Qed.

Create HintDb fits.
#[export] Hint Resolve numbers_fit_app numbers_fit_nil numbers_fit_cons : fits.

Lemma sink_needs_fit sink v : numbers_fit (sink_needs sink v).
Proof. destruct sink; simpl; repeat (apply numbers_fit_cons; [done|]); apply numbers_fit_nil. Qed.

Lemma route_needs_fit domain direction v : numbers_fit (route_needs domain direction v).
Proof. repeat (apply numbers_fit_cons; [done|]); apply numbers_fit_nil. Qed.

Lemma number_fit field n : is_u32 n -> numbers_fit [(field, FNumber n)].
Proof. intros H. apply numbers_fit_cons; [by intros ? [= <-]|apply numbers_fit_nil]. Qed.

#[export] Hint Resolve sink_needs_fit route_needs_fit number_fit : fits.

Section Numbers.
Context (dfg : TargetDFG) (target : TargetModel) (mapping : RFAllocatedMapping).
Context (image : ConstantImage).
Context (Himage : forall id a, constant_address image id = Ok a -> is_u32 a).
Context (Hregisters : forall a, a ∈ ra_allocations mapping -> is_u32 (pr_index (sl_reg a))).

Lemma allocationFor_elem id a : allocationFor mapping id = Ok a -> a ∈ ra_allocations mapping.
Proof using Type.
  unfold allocationFor. destruct (find_if _ _) as [found|] eqn:E; [|done].
  apply find_if_Some in E as [Hin _]. destruct (_ =? _); [|done]. by intros [= <-].
Qed.

Lemma constant_needs_fit id needs : constant_needs image id = LowOk needs -> numbers_fit needs.
Proof using Himage. unfold constant_needs. intros H. low_ok. eauto with fits. Qed.

Lemma boundary_value_fit edge it v needs : boundary_value dfg image edge it = LowOk (v, needs) -> numbers_fit needs.
Proof using Himage.
  unfold boundary_value. intros H. low_ok. destruct x as [id|]; low_ok; [|apply numbers_fit_nil].
  by eapply constant_needs_fit.
Qed.

Lemma link_value_fit e edge actions index v needs :
  link_value dfg target mapping image e edge actions index = LowOk (v, needs) -> numbers_fit needs.
Proof using Himage.
  unfold link_value. intros H. destruct (0 <? index).
  - low_ok. destruct x; low_ok; apply numbers_fit_nil.
  - low_ok. destruct o; low_ok; by eapply boundary_value_fit.
Qed.

Lemma write_value_fit e edge segment v needs :
  write_value dfg target mapping image e edge segment = LowOk (v, needs) -> numbers_fit needs.
Proof using Himage.
  unfold write_value. intros H. low_ok. destruct o; low_ok; by eapply boundary_value_fit.
Qed.

Lemma port_needs_fit domain port address v needs :
  is_u32 address -> port_needs domain port address v = LowOk needs -> numbers_fit needs.
Proof using Type.
  unfold port_needs. intros Ha H. destruct domain, (port =? 0); try (destruct (String.eqb _ _)); low_ok;
    repeat (apply numbers_fit_cons; [by intros ? [= <-]|]); apply numbers_fit_nil.
Qed.

Lemma operand_value_fit tile node op index sink v needs :
  operand_value dfg target mapping image tile node op index sink = LowOk (v, needs) -> numbers_fit needs.
Proof using Himage Hregisters.
  unfold operand_value. intros H. low_ok. destruct (bindingForOperand _ _ _) as [binding|].
  - low_ok. unfold bound_value in *. destruct (tb_source binding); low_ok. by eapply constant_needs_fit.
  - destruct x as [edge|].
    + low_ok. unfold edge_value in *. destruct (TargetEdge_kind edge), (segmentForEdgeAtTile mapping (te_id edge) tile); low_ok;
        try (match goal with H : (if ?b then _ else _) = _ |- _ => destruct b end; low_ok;
             apply number_fit, Hregisters; by eapply allocationFor_elem);
        (destruct (last _) as [[]|]; low_ok; apply numbers_fit_nil).
    + destruct (_ !! _) as [o|]; [|done]. destruct (od_optional o); low_ok. apply numbers_fit_nil.
Qed.

Lemma operands_needs_fit tile node op operands needs :
  operands_needs dfg target mapping image tile node op operands = LowOk needs -> numbers_fit needs.
Proof using Himage Hregisters.
  revert needs. induction operands as [|[index sink] operands IH]; intros needs H; simpl in H; low_ok;
    [apply numbers_fit_nil|].
  apply numbers_fit_app; [by eapply operand_value_fit|]. apply numbers_fit_app; [|by apply IH].
  destruct o; auto with fits.
Qed.

Lemma event_needs_fit tile e needs :
  (ev_kind e = RFWrite -> forall reg, ev_physicalRegister e = Some reg -> is_u32 (pr_index reg)) ->
  event_needs dfg target mapping image tile e = LowOk needs -> numbers_fit needs.
Proof using Himage Hregisters.
  intros Hreg H. unfold event_needs in H. destruct (ev_kind e).
  - unfold boundary_needs in H. low_ok. destruct (_ =? 0); low_ok. by eapply constant_needs_fit.
  - low_ok. apply numbers_fit_nil.
  - unfold issue_needs in H. low_ok. apply numbers_fit_cons; [done|]. by eapply operands_needs_fit.
  - unfold link_needs in H. low_ok. destruct (bool_decide _); low_ok. destruct (_ <=? _); low_ok.
    apply numbers_fit_app; [by eapply link_value_fit|apply route_needs_fit].
  - unfold write_needs in H. low_ok. apply numbers_fit_app; [by eapply write_value_fit|].
    destruct (ev_physicalRegister e) as [reg|]; simpl in *; low_ok. eapply port_needs_fit; [|done]. by apply Hreg.
  - low_ok. apply numbers_fit_nil.
Qed.
End Numbers.

(** ** Register writes of the execution *)

Lemma expected_write dfg mapping trip t m :
  (t, m) ∈ expected_events dfg mapping trip -> ev_kind m = RFWrite ->
  exists s, s ∈ rq_segments (ra_requirements mapping) /\ ev_segment m = Some (sg_id s) /\
    ev_edge m = Some (sg_edge s) /\ ev_physicalRegister m = Some (register_of mapping s).
Proof.
  unfold expected_events, events_from. rewrite elem_of_app, elem_of_flat_map. intros [(stream & Hs & Hin)|Hin] Hk.
  - apply list_elem_of_fmap in Hin as (k & [= -> ->] & _). unfold periodic_streams in Hs.
    rewrite !elem_of_app, !elem_of_flat_map in Hs. destruct Hs as [Hs|[(edge & _ & Hs)|(s & Hin & Hs)]].
    + apply list_elem_of_fmap in Hs as (node & -> & _). done.
    + apply list_elem_of_omap in Hs as ([index []] & _ & [= <-]). done.
    + exists s. split; [done|]. unfold segment_streams in Hs.
      apply elem_of_cons in Hs as [->|Hs]; [done|]. apply list_elem_of_singleton in Hs as ->. done.
  - apply list_elem_of_fmap in Hin as (shot & [= -> ->] & Hs).
    pose proof (one_shots_kind dfg mapping (mkMatRequest trip default_materialization_budget) shot Hs) as H.
    simpl in Hk. by rewrite Hk in H.
Qed.

(** ** The constant memory *)

Lemma constant_memory_lookup image emitted address bits :
  (address, bits) ∈ constant_memory emitted image <->
  address ∉ emitted /\ exists e, find_if (fun e => ca_address e =? address) image = Some e /\ bits = wrap32 (ca_bits e).
Proof.
  revert emitted. induction image as [|e image IH]; intros emitted; simpl.
  { split; [intros H; by apply not_elem_of_nil in H|by intros (_ & ? & ? & _)]. }
  destruct (Z.eqb_spec (ca_address e) address) as [<-|Hne]; case_bool_decide as Hin.
  - rewrite IH. naive_solver.
  - rewrite elem_of_cons, IH. split.
    + intros [[= ->]|[Hn _]]; [by split; [|exists e]|set_solver].
    + intros [_ (e' & [= <-] & ->)]. by left.
  - rewrite IH. naive_solver.
  - rewrite elem_of_cons, IH. split.
    + intros [[= E _]|[Hn He]]; [by destruct Hne|]. split; [set_solver|done].
    + intros [Hn He]. right. split; [set_solver|done].
Qed.

Lemma constant_memory_NoDup image emitted : NoDup (constant_memory emitted image).*1.
Proof.
  revert emitted. induction image as [|e image IH]; intros emitted; simpl; [constructor|].
  case_bool_decide; [done|]. simpl. constructor; [|done].
  intros ([a b] & E & Hin)%list_elem_of_fmap. simpl in E. subst a.
  apply constant_memory_lookup in Hin as [Hin _]. set_solver.
Qed.

(** The memory holds the low word of every constant at its address. *)
Lemma constant_memory_holds dfg target image c :
  NoDup (const_id <$> td_constants dfg) -> is_u32 (tm_constantMemoryDepth target) ->
  constants_allocate dfg target = Ok image -> c ∈ td_constants dfg ->
  exists a, constant_address image (const_id c) = Ok a /\ (a, const_word c) ∈ constant_memory ∅ image.
Proof.
  intros Hids Hdepth Himage Hc.
  pose proof (constants_allocate_spec dfg target Hdepth) as H. rewrite Himage in H.
  destruct H as (m & Hn & Hd & _ & ->). rewrite (constant_address_entry dfg Hids m c Hc).
  eexists. split; [done|]. apply constant_memory_lookup. split; [set_solver|].
  assert (Hword : forall c, c ∈ td_constants dfg -> exists a, m !! const_word c = Some a).
  { intros c' Hc'. apply elem_of_dom. rewrite Hd. apply elem_of_list_to_set. by apply list_elem_of_fmap_2. }
  destruct (Hword c Hc) as [a Ha]. rewrite Ha. simpl.
  destruct (find_if (fun e => ca_address e =? a) (sort_by ca_constant (entry_under m <$> td_constants dfg)))
    as [e|] eqn:E.
  - exists e. split; [done|]. apply find_if_Some in E as [Hin Eq]. apply Z.eqb_eq in Eq.
    apply elem_of_sort_by, list_elem_of_fmap in Hin as (c' & -> & Hc'). simpl in *.
    destruct (Hword c' Hc') as [a' Ha']. rewrite Ha' in Eq. simpl in Eq. subst a'.
    symmetry. by apply (nb_inj _ Hn _ _ a).
  - exfalso. rewrite find_if_None in E. specialize (E (entry_under m c)).
    rewrite elem_of_sort_by in E. specialize (E (list_elem_of_fmap_2 _ _ _ Hc)).
    simpl in E. rewrite Ha, Z.eqb_refl in E. done.
Qed.

Lemma image_addresses_fit dfg target image id a :
  is_u32 (tm_constantMemoryDepth target) -> constants_allocate dfg target = Ok image ->
  constant_address image id = Ok a -> is_u32 a.
Proof.
  intros Hdepth Himage Ha. pose proof (constants_allocate_spec dfg target Hdepth) as H. rewrite Himage in H.
  destruct H as (m & Hn & _ & Hs & ->). unfold constant_address, constant_location in Ha.
  apply of_option_Ok, fmap_Some in Ha as (e & He & ->). apply find_if_Some in He as [He _].
  apply elem_of_sort_by, list_elem_of_fmap in He as (c & -> & _). simpl.
  destruct (m !! const_word c) as [a|] eqn:E; simpl; [|vm_compute; split; congruence].
  apply (nb_bound _ Hn) in E. unfold is_u32 in *. lia.
Qed.

(** ** Lowering *)

Lemma Forall2_chain {A B C} (P : A -> B -> Prop) (Q : B -> C -> Prop) l k m :
  Forall2 P l k -> Forall2 Q k m -> Forall2 (fun a c => exists b, P a b /\ Q b c) l m.
Proof.
  intros H. revert m. induction H as [|a b l k Hab _ IH]; intros m Hm; inversion Hm; subst; constructor.
  - by exists b.
  - by apply IH.
Qed.

Lemma resolve_tile_fields mapping e e' tile : resolve_tile mapping e = LowOk (e', tile) ->
  ev_kind e' = ev_kind e /\ ev_physicalRegister e' = ev_physicalRegister e.
Proof.
  unfold resolve_tile. destruct (ev_tile e); [by intros [= <- <-]|].
  destruct (ev_kind e) eqn:E, (ev_node e); try done. intros H. low_ok. by simpl.
Qed.

(** What lowering's input satisfies beyond what it verifies: the invariants of the
    graph and the target, the ranges of unsigned fields, and a schedule that lowers
    cycle by cycle. *)
Record lowering_input (dfg : TargetDFG) (target : TargetModel) (mapping : RFAllocatedMapping)
    (schedule : MaterializedSchedule) : Prop := {
  li_graph : TargetDFG_inv dfg;
  li_target : TargetModel_wf target;
  li_registers : register_files_wf target;
  li_layout : ControlLayout_wf target;
  li_constants : is_u32 (tm_constantMemoryDepth target);
  li_typed : typed_graph dfg;
  li_staged : typed_staged (ra_staged mapping);
  li_allocations : typed_allocations mapping;
  li_indices : forall a, a ∈ ra_allocations mapping -> is_u32 (pr_index (sl_reg a));
  li_sorted : sorted_allocations mapping;
  li_segments : segments_fit mapping;
  li_universe : universe_fits target (mm_ii (sm_modulo (ra_staged mapping)));
  li_trip : is_u64 (sch_tripCount schedule);
  li_schedule : typed_schedule schedule;
  li_tiles : Forall (Forall (unsigned_tile mapping))
    (sch_prologue schedule ++ rk_body (sch_kernel schedule) ++ sch_epilogue schedule)
}.

Section Lower.
Context (dfg : TargetDFG) (target : TargetModel) (mapping : RFAllocatedMapping).
Context (schedule : MaterializedSchedule) (options : TargetLoweringOptions).
Context (Hinput : lowering_input dfg target mapping schedule).

Let trip := sch_tripCount schedule.

(** The verified facts behind a lowered program. *)
Lemma lowering_facts :
  rf_verify dfg target mapping = Ok [] ->
  msv_verify dfg target mapping (mkMatRequest (sch_tripCount schedule) default_materialization_budget)
    schedule = Ok [] ->
  execution_facts dfg mapping /\ schedule_exact dfg mapping trip schedule /\ 0 < sch_ii schedule /\
  0 <= rk_repeatCount (sch_kernel schedule) /\ NoDup (const_id <$> td_constants dfg).
Proof using Hinput.
  intros Hrf Hmsv. destruct Hinput.
  assert (Hf : execution_facts dfg mapping) by (by apply (verified_facts dfg target mapping)).
  destruct (accepted_exact dfg target mapping li_graph0 li_target0 li_registers0 li_typed0 li_staged0
    li_allocations0 li_sorted0 li_segments0 li_universe0
    (mkMatRequest (sch_tripCount schedule) default_materialization_budget) schedule li_trip0 li_schedule0 Hmsv)
    as (_ & _ & Hex).
  split_and!; [done|done| | |].
  - rewrite (se_ii _ _ _ _ Hex). apply (xf_ii _ _ Hf).
  - destruct li_schedule0 as [[? _] _]. done.
  - unfold rf_verify in Hrf. apply bind_Ok in Hrf as (report & Htd & Hrf).
    case_bool_decide as Hr; [|done]. subst report. apply tdfg_verify_clean in Htd; [|done].
    apply (tv_constants_distinct _ _ _ Htd).
Qed.

(** A lowered program, taken apart. *)
Lemma lower_program_parts controls encoded stats options' :
  lower_program dfg target mapping schedule options = LowOk (controls, encoded, stats, options') ->
  execution_facts dfg mapping /\ schedule_exact dfg mapping trip schedule /\ 0 < sch_ii schedule /\
  0 <= rk_repeatCount (sch_kernel schedule) /\ NoDup (const_id <$> td_constants dfg) /\
  exists image, constants_allocate dfg target = Ok image /\ options' = with_image options image /\
    tcp_ii controls = sch_ii schedule /\
    ek_repeatCount (ep_kernel encoded) = rk_repeatCount (sch_kernel schedule) /\
    length (ep_prologue encoded) = length (sch_prologue schedule) /\
    length (ep_epilogue encoded) = length (sch_epilogue schedule) /\
    Forall2 (fun bundle words => exists tiles, lowered dfg target mapping image bundle tiles /\
        Forall2 (fun c w => encode target c = Ok w) tiles words)
      (bundles schedule) (all_cycles encoded).
Proof using Hinput.
  intros H. unfold lower_program in H.
  apply low_bind_Ok in H as (? & _ & H). apply low_bind_Ok in H as (? & Hrf%must_pass_Ok & H).
  apply low_bind_Ok in H as (? & Hmsv%must_pass_Ok & H).
  destruct (lowering_facts Hrf Hmsv) as (Hf & Hex & Hii & Hrep & Hids). split_and!; [done..|].
  destruct (constants_allocate dfg target) as [image|]; [|done]. exists image. split; [done|].
  apply low_bind_Ok in H as (? & [= <-] & H). apply low_bind_Ok in H as ([program st] & Hrun & H).
  apply low_bind_Ok in H as (verified & _ & H). destruct (negb verified); [done|].
  apply low_bind_Ok in H as ([words st'] & Henc & H). low_ok.
  destruct (encodeProgram_words _ _ _ _ _ Henc) as (Hwords & Hp & He & Hr).
  assert (Hcount : 0 <= tile_count target).
  { destruct (wf_rows _ (li_target _ _ _ _ Hinput)), (wf_cols _ (li_target _ _ _ _ Hinput)).
    unfold tile_count. nia. }
  destruct (lower_run_lowered dfg target mapping image Hcount schedule controls st
    (li_tiles _ _ _ _ Hinput) Hrun) as (Ei & _ & Er & H1 & H2 & H3).
  split_and!; [done|done|congruence| | |].
  - rewrite Hp. symmetry. by eapply Forall2_length.
  - rewrite He. symmetry. by eapply Forall2_length.
  - apply (Forall2_chain _ _ _ (program_cycles controls)); [|done].
    unfold bundles, program_cycles. by repeat apply Forall2_app.
Qed.

Lemma tiles_elem tile : in_array target tile -> (tile_row tile, tile_col tile) ∈ tiles target.
Proof using Type.
  intros [Hr Hc]. unfold tiles. apply elem_of_flat_map. exists (tile_row tile).
  rewrite elem_of_range. split; [done|]. apply list_elem_of_fmap. exists (tile_col tile).
  split; [done|]. by apply elem_of_range.
Qed.

(** The numbers an executed event needs fit. *)
Lemma cycle_numbers image t b k sites tile :
  lowerable mapping schedule -> execution_facts dfg mapping -> schedule_exact dfg mapping trip schedule -> 0 < sch_ii schedule ->
  0 <= rk_repeatCount (sch_kernel schedule) -> constants_allocate dfg target = Ok image ->
  0 <= t -> bundle_at schedule t = Some (b, k) -> cycle_sites dfg target mapping image b = LowOk sites ->
  numbers_fit (needs_on tile sites).
Proof using Hinput.
  intros Hlow Hf Hex Hii Hrep Himage Ht Hb Hsites f n Hin.
  apply (bundle_needs dfg target mapping image trip schedule Hlow Hex Hii Hrep t b k)
    in Hin; [|done..].
  apply elem_of_execution_needs in Hin as (e & needs & He & _ & Hs & Hn).
  unfold event_site in Hs. apply low_bind_Ok in Hs as ([e' tile'] & Hres & Hs). low_ok.
  refine (event_needs_fit dfg target mapping image _ (li_indices _ _ _ _ Hinput) tile e' needs _ _ f n Hn); [| |done].
  - intros id a Ha. by eapply image_addresses_fit; [apply (li_constants _ _ _ _ Hinput)|..].
  - apply resolve_tile_fields in Hres as [-> ->]. intros Hk reg Hreg.
    destruct (expected_write dfg mapping trip t e He Hk) as (s & Hs' & _ & _ & Hr).
    rewrite Hreg in Hr. injection Hr as ->. destruct (xf_segment _ _ Hf s Hs') as (edge & _ & _ & _ & Hreg' & _).
    unfold registerFor in Hreg'. apply bind_Ok in Hreg' as (a & Ha & [= <-]).
    apply (li_indices _ _ _ _ Hinput). by eapply allocationFor_elem.
Qed.
End Lower.

Section Replayed.
Context (dfg : TargetDFG) (target : TargetModel) (mapping : RFAllocatedMapping).
Context (schedule : MaterializedSchedule) (options : TargetLoweringOptions).
Context (Hinput : lowering_input dfg target mapping schedule).
Context (Hlow : lowerable mapping schedule).
Context (controls : TargetControlProgram) (encoded : EncodedTargetProgram).
Context (stats : TargetLoweringStats) (options' : TargetLoweringOptions) (manifest : ProgramManifest).
Context (Hprogram : lower_program dfg target mapping schedule options =
  LowOk (controls, encoded, stats, options')).
Context (Hmanifest : build_manifest target controls encoded options' = LowOk manifest).

Let trip := sch_tripCount schedule.
Let image := opt_constantImage options'.

Lemma manifest_loop :
  pm_prologueCycles manifest = Z.of_nat (length (sch_prologue schedule)) /\
  pm_ii manifest = sch_ii schedule /\
  pm_tripCount manifest = (if rk_repeatCount (sch_kernel schedule) =? 0 then 1
                           else rk_repeatCount (sch_kernel schedule)) /\
  pm_epilogueCycles manifest = Z.of_nat (length (sch_epilogue schedule)) /\
  pm_runCycles manifest = wrap64 (total_cycles dfg mapping trip +
    if rk_repeatCount (sch_kernel schedule) =? 0 then sch_ii schedule else 0).
Proof using Hinput Hprogram Hmanifest.
  destruct (lower_program_parts dfg target mapping schedule options Hinput _ _ _ _ Hprogram)
    as (_ & Hex & _ & _ & _ & im & _ & _ & Ei & Er & Ep & Ee & _).
  unfold build_manifest in Hmanifest. apply low_bind_Ok in Hmanifest as (images & _ & Hm). low_ok.
  simpl. unfold replay_count. rewrite Er, Ep, Ee, Ei. split_and!; try done. f_equal. unfold trip.
  rewrite <- (se_total _ _ _ _ Hex), <- (se_cycles _ _ _ _ Hex). destruct (_ =? _) eqn:E; lia.
Qed.

(** The word of a tile in a cycle decodes to the setting the cycle's bundle needs. *)
Lemma replayed_word t tile : 0 <= t < total_cycles dfg mapping trip -> in_array target tile ->
  exists word c, replayed manifest tile t = Some word /\ decode target word = Ok c /\
    overlay (execution_needs dfg target mapping image trip t tile) c.
Proof using All.
  intros Ht Htile. destruct manifest_loop as (Hp & Hi & Htrip & _ & _).
  destruct (lower_program_parts dfg target mapping schedule options Hinput _ _ _ _ Hprogram)
    as (Hf & Hex & Hii & Hrep & _ & im & Him & Eo & _ & _ & _ & _ & Hall).
  pose proof (lw_phases _ _ Hlow) as Hphases.
  pose proof (se_kernel _ _ _ _ Hex) as Hbody.
  assert (Him' : image = im) by (unfold image; by rewrite Eo).
  destruct (bundle_at_total schedule Hii Hrep Hbody t Hphases) as (b & k & Hb).
  { unfold trip in Ht. rewrite <- (se_total _ _ _ _ Hex), <- (se_cycles _ _ _ _ Hex) in Ht. lia. }
  destruct (bundle_at_pc schedule Hii Hrep Hbody manifest t b k Hp Hi Htrip Hphases (proj1 Ht) Hb) as [Hpc0 Hpc].
  destruct (Forall2_lookup_l _ _ _ _ _ Hall Hpc) as (words & Hwords & tiles & (sites & Hsites & Hlen & Hov) & Henc).
  pose proof (position_bound target tile Htile) as Hpos.
  destruct (lookup_lt_is_Some_2 tiles (nat_of (position target tile))) as [c Hc]; [lia|].
  destruct (Forall2_lookup_l _ _ _ _ _ Henc Hc) as (word & Hword & Hcode).
  unfold build_manifest in Hmanifest. apply low_bind_Ok in Hmanifest as (images & Himages & Hm).
  destruct (tile_images_lookup _ _ _ _ _ _ _ Himages (tiles_elem target tile Htile)) as (ti & Hti & Hcontrol & _).
  destruct (tile_words_lookup _ _ _ _ Hcontrol) as [_ Hlook].
  exists word, c. split_and!.
  - unfold replayed, image_of. injection Hm as Hm. rewrite <- Hm at 1. simpl. rewrite Hti. simpl.
    assert (Hentry : ti_control ti !! nat_of (replay_pc manifest t) = Some (replay_pc manifest t, word)).
    { apply Hlook. exists words, word. split_and!; [done|done|]. f_equal. lia. }
    rewrite (find_if_unique fst (replay_pc manifest t) _ (replay_pc manifest t, word)); [done| | |done].
    + apply NoDup_alt. intros i j x Hx Hy. rewrite list_lookup_fmap, fmap_Some in Hx, Hy.
      destruct Hx as (w & Hw & ->), Hy as (w' & Hw' & E). apply Hlook in Hw as (? & ? & _ & _ & ->).
      apply Hlook in Hw' as (? & ? & _ & _ & ->). simpl in E. lia.
    + by eapply list_elem_of_lookup_2.
  - apply encode_decode; [apply (li_layout _ _ _ _ Hinput)| |done].
    apply (overlay_typed (needs_on tile sites)); [|by apply Hov].
    apply (cycle_numbers dfg target mapping schedule Hinput im t b k sites tile); try done. lia.
  - eapply overlay_same; [|by apply Hov]. intros n. rewrite Him'.
    apply (bundle_needs dfg target mapping im trip schedule Hlow Hex Hii Hrep t b k);
      [lia|done..].
Qed.
End Replayed.
