(* ===== verification/TargetLoweringSafe.v ===== *)
(** * Lowering is defined

    The reads that the lowering does without a check (the transport of a stored
    value, the action before a hold, the program's cycle for a schedule's cycle) stay
    in range on verified input, so lowering always ends with a result, and a failed
    one never carries the status of a success. *)
From stdpp Require Import base numbers list gmap sorting strings.
From S2P Require Import Prelude.
From S2P Require Import IR.
From S2P Require Import TargetModel.
From S2P Require Import CgraV2.
From S2P Require Import TargetDFG.
From S2P Require Import TargetDFGVerifier.
From S2P Require Import ModuloResources.
From S2P Require Import ModuloMapping.
From S2P Require Import MappingVerifier.
From S2P Require Import MIIAnalyzer.
From S2P Require Import StageScheduler.
From S2P Require Import StorageRequirements.
From S2P Require Import RFAllocation.
From S2P Require Import MaterializedSchedule.
From S2P Require Import MaterializedVerifier.
From S2P Require Import ScheduleMaterializer.
From S2P Require Import MaterializeSpec.
From S2P Require Import MaterializedExact.
From S2P Require Import ControlLayout.
From S2P Require Import ConstantAllocator.
From S2P Require Import TargetLowering.
From S2P Require Import ControlOverlay.
From S2P Require Import TargetLoweringSpec.
From S2P Require Import TargetLoweringExact.

(** ** The origins of a segment lie in its edge's transport *)

Section Origins.
Context (dfg : TargetDFG) (target : TargetModel) (staged : StagedMapping).

Definition origin_in_plan (edge : Z) (o : StorageOrigin) : Prop :=
  forall i, so_transportActionIndex o = Some i -> exists d plan,
    dependence (sm_modulo staged) edge = Ok d /\ md_transport d = Some plan /\
    0 <= i < Z.of_nat (length (tp_actions plan)).

Definition origins_in_plan (st : SegmentState) : Prop :=
  forall s, s ∈ ss_segments st -> forall o, o ∈ sg_origins s -> origin_in_plan (sg_edge s) o.

Lemma appendSegment_origins st edge tile domain writeTime readTime origin coalesce :
  origins_in_plan st -> origin_in_plan edge origin ->
  origins_in_plan (appendSegment st edge tile domain writeTime readTime origin coalesce).
Proof using Type.
  intros Hst Ho. unfold appendSegment.
  assert (Hfresh : origins_in_plan (mkSegments (ss_segments st ++
    [mkSegment (wrap32 (Z.of_nat (length (ss_segments st)))) edge tile (bankDomain domain) writeTime readTime
       [origin]]) (ss_merged st))).
  { intros s [Hs|Hs]%elem_of_app; [by apply Hst|]. apply list_elem_of_singleton in Hs as ->.
    simpl. intros o ->%list_elem_of_singleton. done. }
  destruct coalesce; [|done]. destruct (last (ss_segments st)) as [previous|] eqn:El; [|done].
  destruct (extends_segment _ _ _ _ _) eqn:Ee; [|done]. unfold extends_segment in Ee.
  assert (Hedge : sg_edge previous = edge) by (destruct (Z.eqb_spec (sg_edge previous) edge); [done|by rewrite !andb_false_l in Ee]).
  intros s Hs. simpl in Hs. apply list_elem_of_lookup in Hs as [i Hi].
  apply list_lookup_insert_Some in Hi as [(_ & <- & _)|[_ Hi]]; [|apply list_elem_of_lookup_2 in Hi; by apply Hst].
  simpl. intros o [Hin| ->%list_elem_of_singleton]%elem_of_app; [|by rewrite Hedge].
  apply (Hst previous); [|done]. by apply last_Some_elem_of.
Qed.

Lemma hold_loop_origins edge producerTime domain plan actions flag st st' stop :
  (exists d, dependence (sm_modulo staged) edge = Ok d /\ md_transport d = Some plan) ->
  (forall i a, (i, a) ∈ actions -> 0 <= i < Z.of_nat (length (tp_actions plan))) ->
  origins_in_plan st -> hold_loop edge producerTime domain actions flag st = (st', stop) -> origins_in_plan st'.
Proof using Type.
  intros (d & Hd & Hplan). revert flag st. induction actions as [|[index action] actions IH];
    intros flag st Hin Hst H; simpl in H; [by injection H as <- _|].
  destruct action as [|dom tile capture release].
  - eapply IH; [|done|done]. intros i a Ha. apply (Hin i a). by right.
  - destruct (checkedAdd _ _) as [w|]; [|by injection H as <- _].
    destruct (checkedAdd _ _) as [u|]; [|by injection H as <- _]. destruct (_ <=? _); [by injection H as <- _|].
    eapply IH; [|apply appendSegment_origins; [done|]|done]; [intros i a Ha; apply (Hin i a); by right|].
    intros i [= <-]. exists d, plan. split_and!; [done|done|word_lia|].
    destruct (Hin index (VirtualHold dom tile capture release)) as [H0 H1]; [left|].
    assert (wrap32 index <= index) by (unfold wrap32; apply Z.mod_le; lia). lia.
Qed.

Lemma edge_segments_origins edge st st' stop :
  origins_in_plan st -> edge_segments staged edge st = (st', stop) -> origins_in_plan st'.
Proof using Type.
  intros Hst H. unfold edge_segments in H. destruct (TargetEdge_kind edge); [| |by injection H as <- _];
    (destruct (dependence _ _) as [d|] eqn:Ed; [|by injection H as <- _];
     destruct (md_transport d) as [plan|] eqn:Ep; [|by injection H as <- _];
     destruct (logicalIssueTime _ _); [|by injection H as <- _];
     destruct (logicalIssueTime _ _); [|by injection H as <- _];
     destruct (hold_loop _ _ _ _ _ _) as [st1 stop1] eqn:Eh;
     assert (Hst1 : origins_in_plan st1) by
       (eapply hold_loop_origins; [by exists d| |exact Hst|exact Eh];
        intros ? ? Hin; apply elem_of_enumerate in Hin as [? Hin]; apply lookup_lt_Some in Hin; lia);
     destruct stop1; [|by injection H as <- _]; unfold terminal_segment in H;
     repeat match goal with H : (match ?x with _ => _ end) = _ |- _ => destruct x end;
     injection H as <- _; try done; apply appendSegment_origins; [done|by intros i [=]]).
Qed.

Lemma analyzed_origins r q : storage_analyze dfg target staged = Ok r -> rr_ok r = Some q ->
  forall s, s ∈ rq_segments q -> forall o, o ∈ sg_origins s -> origin_in_plan (sg_edge s) o.
Proof using Type.
  assert (Hall : forall edges st st' stop, origins_in_plan st ->
    all_edge_segments staged edges st = (st', stop) -> origins_in_plan st').
  { induction edges as [|edge edges IH]; intros st st' stop Hst H; simpl in H; [by injection H as <- _|].
    destruct (edge_segments staged edge st) as [st1 [|]] eqn:E; apply edge_segments_origins in E; [|done| |done].
    - by injection H as <- _.
    - by eapply IH. }
  unfold storage_analyze. intros H Hq. apply bind_Ok in H as (targetReport & _ & H).
  destruct (negb _); [by injection H as <-|]. apply bind_Ok in H as (stageReport & _ & H).
  destruct (negb _); [by injection H as <-|]. destruct (_ =? 0); [by injection H as <-|].
  destruct (all_edge_segments _ _ _) as [st [[]|]] eqn:E; [injection H as <-; by destruct status|done|].
  apply Hall in E; [|intros s Hs; by apply not_elem_of_nil in Hs].
  destruct (bank_failure target _) as [[]|]; injection H as <-; [done|]. simpl in Hq. injection Hq as <-. exact E.
Qed.
End Origins.

(** ** Computations that end properly *)

(** Not undefined, and no failure with the status of a success. *)
Definition proper {A} (m : low A) : Prop :=
  match m with LowOk _ => True | LowFail s => s <> TLSuccess | LowUndefined => False end.

Lemma proper_bind {A B} (m : low A) (f : A -> low B) :
  proper m -> (forall a, m = LowOk a -> proper (f a)) -> proper (mbind f m).
Proof. destruct m; simpl; auto. Qed.

Lemma proper_lift {A} (r : result A) : proper (lift r).
Proof. by destruct r. Qed.

Lemma proper_require {A} status (o : option A) : status <> TLSuccess -> proper (require status o).
Proof. by destruct o. Qed.

Lemma proper_must_pass {A} status (r : result (list A)) : status <> TLSuccess -> proper (must_pass status r).
Proof. unfold must_pass. by destruct r as [[]|]. Qed.

Create HintDb proper.
#[export] Hint Resolve proper_lift : proper.

(** [proper] follows a computation to its ends. *)
Ltac proper :=
  repeat lazymatch goal with
  | |- proper (LowOk _) => exact I
  | |- proper (LowFail _) => discriminate
  | |- proper (mbind _ _) => apply proper_bind; [|intros ? ?]
  | |- proper (lift _) => apply proper_lift
  | |- proper (require _ _) => apply proper_require; discriminate
  | |- proper (must_pass _ _) => apply proper_must_pass; discriminate
  | |- proper (match ?x with _ => _ end) => destruct x eqn:?
  | |- proper _ => solve [eauto with proper]
  end.

Section Needs.
Context (dfg : TargetDFG) (target : TargetModel) (mapping : RFAllocatedMapping).
Context (image : ConstantImage).

Lemma boundaryConstantFor_proper edge it : proper (boundaryConstantFor edge it).
Proof using Type. unfold boundaryConstantFor. proper. Qed.
Hint Resolve boundaryConstantFor_proper : proper.

Lemma boundarySource_proper edge it : proper (boundarySource dfg edge it).
Proof using Type. unfold boundarySource. proper. Qed.
Hint Resolve boundarySource_proper : proper.

Lemma constant_needs_proper id : proper (constant_needs image id).
Proof using Type. unfold constant_needs. proper. Qed.
Hint Resolve constant_needs_proper : proper.

Lemma boundary_value_proper edge it : proper (boundary_value dfg image edge it).
Proof using Type. unfold boundary_value. proper. Qed.
Hint Resolve boundary_value_proper : proper.

Lemma producer_result_proper edge : proper (producer_result dfg target edge).
Proof using Type. unfold producer_result. proper. unfold loweredResult. proper. Qed.
Hint Resolve producer_result_proper : proper.

Lemma operand_value_proper tile node op index sink :
  proper (operand_value dfg target mapping image tile node op index sink).
Proof using Type.
  unfold operand_value. proper; [unfold bound_value; proper|unfold edge_value].
  destruct (TargetEdge_kind _); proper.
Qed.
Hint Resolve operand_value_proper : proper.

Lemma operands_needs_proper tile node op operands :
  proper (operands_needs dfg target mapping image tile node op operands).
Proof using Type. induction operands as [|[] operands IH]; cbn [operands_needs]; proper. Qed.
Hint Resolve operands_needs_proper : proper.

(** The action before a launched link is in the plan. *)
Lemma action_at_proper actions i : 0 <= i < Z.of_nat (length actions) -> proper (action_at actions i).
Proof using Type.
  intros Hi. unfold action_at. rewrite (proj2 (Z.ltb_ge i 0)) by lia.
  destruct (lookup_lt_is_Some_2 actions (nat_of i)) as [a ->]; [lia|done].
Qed.

Lemma link_needs_proper e : proper (link_needs dfg target mapping image e).
Proof using Type.
  unfold link_needs. proper. unfold link_value. destruct (0 <? _) eqn:E; [|proper].
  apply proper_bind; [apply action_at_proper; lia|]. intros prior _. proper.
Qed.

(** A stored value has a transport, and its hold is in it. *)
Definition stored_in_plan (edge : TargetEdge) (segment : StorageSegment) : Prop :=
  exists d plan, mappedEdge mapping (te_id edge) = Ok d /\ md_transport d = Some plan /\
    forall i, hold_origin (sg_origins segment) = Some i -> i < Z.of_nat (length (tp_actions plan)).

Lemma stored_value_proper edge segment : stored_in_plan edge segment ->
  proper (stored_value dfg target mapping edge segment).
Proof using Type.
  intros (d & plan & Hd & Hplan & Hi). unfold stored_value, hold_source, terminal_source. rewrite Hd. simpl.
  rewrite Hplan. simpl. destruct (hold_origin _) as [i|]; [specialize (Hi i eq_refl)|proper].
  destruct (0 <? i) eqn:E; [|proper]. apply proper_bind; [apply action_at_proper; lia|]. intros prior _. proper.
Qed.

Lemma write_needs_proper tile e :
  (forall id s edge_id edge, ev_segment e = Some id -> rq_segment (ra_requirements mapping) id = Ok s ->
     ev_edge e = Some edge_id -> td_edge dfg edge_id = Ok edge -> stored_in_plan edge s) ->
  proper (write_needs dfg target mapping image tile e).
Proof using Type.
  intros Hstored. unfold write_needs.
  destruct (ev_segment e) as [id|]; [|done]. destruct (ev_physicalRegister e) as [reg|]; [|done].
  destruct (ev_edge e) as [edge_id|]; [|done]. cbn [require mbind low_bind].
  apply proper_bind; [apply proper_lift|]. intros s Hs%lift_Ok.
  apply proper_bind; [apply proper_lift|]. intros edge He%lift_Ok.
  specialize (Hstored id s edge_id edge eq_refl Hs eq_refl He).
  apply proper_bind.
  { unfold write_value. apply proper_bind; [auto with proper|]. intros [[v|] needs] _; [done|].
    apply proper_bind; [by apply stored_value_proper|]. intros ? _. done. }
  intros [v needs] _. apply proper_bind; [apply proper_lift|]. intros a _.
  apply proper_bind; [auto with proper|]. intros boundary _.
  apply proper_bind; [unfold check_write; proper|]. intros ? _.
  apply proper_bind; [unfold port_needs; proper|]. intros ? _. done.
Qed.

Lemma event_site_proper e :
  (ev_kind e = RFWrite -> forall id s edge_id edge,
     ev_segment e = Some id -> rq_segment (ra_requirements mapping) id = Ok s ->
     ev_edge e = Some edge_id -> td_edge dfg edge_id = Ok edge -> stored_in_plan edge s) ->
  proper (event_site dfg target mapping image e).
Proof using Type.
  intros Hstored. unfold event_site. apply proper_bind; [unfold resolve_tile; proper|]. intros [e' tile] Hres.
  apply proper_bind; [unfold tileIndex; proper|]. intros index _.
  apply proper_bind; [|by intros ? _]. unfold event_needs.
  assert (Hfields : ev_kind e' = ev_kind e /\ ev_segment e' = ev_segment e /\ ev_edge e' = ev_edge e).
  { unfold resolve_tile in Hres. destruct (ev_tile e); [by injection Hres as <- <-|].
    destruct (ev_kind e) eqn:E, (ev_node e); try done. low_ok. by simpl. }
  destruct Hfields as (Ek & Es & Ee). rewrite Ek. destruct (ev_kind e); try done.
  - unfold boundary_needs. proper.
  - unfold issue_needs. proper.
  - apply link_needs_proper.
  - apply write_needs_proper. rewrite Es, Ee. by apply Hstored.
Qed.
End Needs.

(** ** Programs *)

Section Program.
Context (dfg : TargetDFG) (target : TargetModel) (mapping : RFAllocatedMapping).
Context (image : ConstantImage).

Lemma cycle_sites_proper events :
  (forall e, e ∈ events -> proper (event_site dfg target mapping image e)) ->
  proper (cycle_sites dfg target mapping image events).
Proof using Type.
  induction events as [|e events IH]; intros Hall; cbn [cycle_sites]; [done|].
  assert (Hrest : proper (cycle_sites dfg target mapping image events))
    by (apply IH; intros; apply Hall; by right).
  destruct (is_use e); [done|]. apply proper_bind; [apply Hall; left|]. intros site _.
  apply proper_bind; [done|]. by intros ? _.
Qed.

Lemma lowerCycle_proper events stats : 0 <= tile_count target -> Forall (unsigned_tile mapping) events ->
  proper (cycle_sites dfg target mapping image events) ->
  proper (lowerCycle dfg target mapping image events stats).
Proof using Type.
  intros Hcount Htiles Hs. pose proof (lowerCycle_spec dfg target mapping image events stats Hcount Htiles) as H.
  destruct (cycle_sites dfg target mapping image events), (lowerCycle dfg target mapping image events stats);
    simpl in *; try done; naive_solver.
Qed.

Lemma lower_cycles_proper bundles stats : 0 <= tile_count target ->
  Forall (Forall (unsigned_tile mapping)) bundles ->
  Forall (fun b => proper (cycle_sites dfg target mapping image b)) bundles ->
  proper (lower_cycles dfg target mapping image bundles stats).
Proof using Type.
  intros Hcount Htiles Hs. revert stats. induction Hs as [|b bundles Hb _ IH]; intros stats;
    cbn [lower_cycles]; [done|]. apply Forall_cons in Htiles as [Htile Htiles].
  apply proper_bind; [by apply lowerCycle_proper|]. intros [cycle stats1] _.
  apply proper_bind; [by apply IH|]. by intros [] _.
Qed.

Lemma event_represented_proper e tiles : proper (event_represented dfg target mapping e tiles).
Proof using Type.
  unfold event_represented. destruct (ev_kind e) eqn:E;
    (try done); (apply proper_bind; [unfold verified_tile; proper|]; intros [tile|] _; [|done];
    apply proper_bind; [unfold tileIndex; proper|]; intros index _;
    apply proper_bind; [apply proper_lift|]; intros control _; try done).
  - unfold read_represented. proper.
  - unfold issue_represented. proper.
  - unfold write_represented. proper.
Qed.

Lemma bundles_represented_proper bundles n program :
  (n + length bundles <= length program)%nat -> proper (bundles_represented dfg target mapping bundles n program).
Proof using Type.
  revert n. induction bundles as [|b bundles IH]; intros n Hn; cbn [bundles_represented]; [done|].
  simpl in Hn. destruct (lookup_lt_is_Some_2 program n) as [tiles ->]; [lia|]. cbn [deref mbind low_bind].
  apply proper_bind.
  - clear Hn. induction b as [|e b IHb]; cbn [bundle_represented]; [done|].
    apply proper_bind; [apply event_represented_proper|]. intros [] _; [done|exact I].
  - intros [] _; [|exact I]. apply IH. lia.
Qed.

Lemma encode_phase_proper cycles stats : proper (encode_phase target cycles stats).
Proof using Type.
  revert stats. induction cycles as [|tiles cycles IH]; intros stats; cbn [encode_phase]; [done|].
  apply proper_bind.
  - clear IH. revert stats. induction tiles as [|c tiles IH]; intros stats; cbn [encode_cycle]; [done|].
    apply proper_bind; [unfold encode_control; proper|]. intros bits _.
    apply proper_bind; [apply IH|]. by intros [] _.
  - intros [cycle stats1] _. apply proper_bind; [apply IH|]. by intros [] _.
Qed.

Lemma build_manifest_proper program encoded options : proper (build_manifest target program encoded options).
Proof using Type.
  unfold build_manifest. apply proper_bind; [|by intros ? _].
  induction (tiles target) as [|[row col] cells IH]; cbn [tile_images]; [done|].
  apply proper_bind; [|intros control _; apply proper_bind; [done|by intros ? _]].
  generalize (nat_of (row * arr_cols (tm_array target) + col)) as index, 0 as pc.
  intros index. induction (all_cycles encoded) as [|cycle cycles IHc]; intros pc; cbn [tile_words]; [done|].
  apply proper_bind; [apply proper_lift|]. intros ? _. apply proper_bind; [apply IHc|by intros ? _].
Qed.
End Program.

Section Lowering.
Context (dfg : TargetDFG) (target : TargetModel) (mapping : RFAllocatedMapping).
Context (schedule : MaterializedSchedule) (options : TargetLoweringOptions).
Context (Hinput : lowering_input dfg target mapping schedule).

(** Every event of a schedule is one of the execution. *)
Lemma event_expected b e :
  schedule_exact dfg mapping (sch_tripCount schedule) schedule -> 0 < sch_ii schedule ->
  0 <= rk_repeatCount (sch_kernel schedule) ->
  b ∈ sch_prologue schedule ++ rk_body (sch_kernel schedule) ++ sch_epilogue schedule -> e ∈ b ->
  exists t, (t, meaning e) ∈ expected_events dfg mapping (sch_tripCount schedule).
Proof using Type.
  intros Hex Hii Hrep Hb He.
  setoid_rewrite <- (se_events _ _ _ _ Hex). setoid_rewrite list_elem_of_fmap.
    enough (exists t, (t, e) ∈ unroll schedule) as [t Ht] by (exists t, (t, e); done).
    unfold unroll. setoid_rewrite elem_of_app. setoid_rewrite elem_of_app. setoid_rewrite elem_of_cells.
    rewrite !elem_of_app in Hb. destruct Hb as [Hb|[Hb|Hb]]; apply list_elem_of_lookup in Hb as [i Hi].
    - exists (Z.of_nat i). left. exists b. replace (nat_of (Z.of_nat i - 0)) with i by lia. split_and!; [lia|done..].
    - pose proof (se_kernel _ _ _ _ Hex) as Hbody. pose proof (lookup_lt_Some _ _ _ Hi).
      destruct (Z.eqb_spec (rk_repeatCount (sch_kernel schedule)) 0); [lia|].
      exists (Z.of_nat (length (sch_prologue schedule)) + Z.of_nat i). right; left.
      apply elem_of_flat_map. exists 0. split; [apply elem_of_range; lia|]. apply list_elem_of_fmap.
      exists (Z.of_nat (length (sch_prologue schedule)) + Z.of_nat i, e).
      split; [unfold repetition, advance_event, at_iteration; simpl; f_equal; [lia|destruct e; simpl; by rewrite Z.add_0_r]|].
      apply elem_of_cells. exists b. replace (nat_of (_ + Z.of_nat i - _)) with i by lia. split_and!; [lia|done..].
    - exists (Z.of_nat (length (sch_prologue schedule)) + rk_repeatCount (sch_kernel schedule) * sch_ii schedule +
        Z.of_nat i). right; right. exists b. replace (nat_of (_ + Z.of_nat i - _)) with i by lia. split_and!; [lia|done..].
Qed.

(** The register writes of a schedule store transported values. *)
Lemma schedule_writes_stored b e id s edge_id edge :
  rf_verify dfg target mapping = Ok [] -> execution_facts dfg mapping ->
  schedule_exact dfg mapping (sch_tripCount schedule) schedule -> 0 < sch_ii schedule ->
  0 <= rk_repeatCount (sch_kernel schedule) ->
  b ∈ sch_prologue schedule ++ rk_body (sch_kernel schedule) ++ sch_epilogue schedule -> e ∈ b ->
  ev_kind e = RFWrite -> ev_segment e = Some id -> rq_segment (ra_requirements mapping) id = Ok s ->
  ev_edge e = Some edge_id -> td_edge dfg edge_id = Ok edge -> stored_in_plan mapping edge s.
Proof using Hinput.
  intros Hrf Hf Hex Hii Hrep Hb He Hk Hid Hs Hedge Htd.
  destruct (event_expected b e Hex Hii Hrep Hb He) as [t Ht].
  assert (Hkm : ev_kind (meaning e) = RFWrite /\ ev_segment (meaning e) = Some id /\ ev_edge (meaning e) = Some edge_id)
    by (unfold meaning; rewrite Hk; simpl; by rewrite Hid, Hedge).
  destruct Hkm as (Hkm & Hidm & Hem).
  destruct (expected_write dfg mapping _ t _ Ht Hkm) as (s' & Hs' & Eid & Eedge & _).
  rewrite Hidm in Eid. rewrite Hem in Eedge. injection Eid as ->. injection Eedge as ->.
  assert (s' = s) as ->.
  { unfold rq_segment in Hs. rewrite (find_if_unique sg_id (sg_id s') _ s') in Hs; [by injection Hs|..|done].
    - apply (xf_segments _ _ Hf).
    - done. }
  destruct (xf_segment _ _ Hf s Hs') as (edge' & Hin' & Eid' & Hvalue & _).
  destruct (xf_edge _ _ Hf edge' Hin') as [Htd' _]. rewrite Eid', Htd in Htd'. injection Htd' as <-.
  destruct (xf_plan _ _ Hf edge Hin' Hvalue) as (d & plan & Hd & Hplan & _).
  exists d, plan. split_and!; [done|done|]. intros i Hi. unfold hold_origin in Hi.
  apply bind_Some in Hi as (o & Ho & Hi). apply find_if_Some in Ho as [Ho _].
  apply rf_verify_report in Hrf as (_ & (r & Hr & Hq) & _).
  destruct (analyzed_origins dfg target (ra_staged mapping) r _ Hr Hq s Hs' o Ho i Hi)
    as (d' & plan' & Hd' & Hplan' & Hlt).
  rewrite <- Eid', Hd in Hd'. injection Hd' as <-. rewrite Hplan in Hplan'. injection Hplan' as <-. lia.
Qed.

Lemma lower_program_proper : proper (lower_program dfg target mapping schedule options).
Proof using Hinput.
  unfold lower_program. apply proper_bind; [proper|]. intros ? _.
  apply proper_bind; [proper|]. intros ? Hrf%must_pass_Ok.
  apply proper_bind; [proper|]. intros ? Hmsv%must_pass_Ok.
  destruct (lowering_facts dfg target mapping schedule Hinput Hrf Hmsv) as (Hf & Hex & Hii & Hrep & _).
  apply proper_bind; [by destruct (constants_allocate dfg target)|]. intros image _.
  assert (Hcount : 0 <= tile_count target).
  { destruct (wf_rows _ (li_target _ _ _ _ Hinput)), (wf_cols _ (li_target _ _ _ _ Hinput)).
    unfold tile_count. nia. }
  pose proof (li_tiles _ _ _ _ Hinput) as Htiles.
  set (all := sch_prologue schedule ++ rk_body (sch_kernel schedule) ++ sch_epilogue schedule) in *.
  assert (Hsites : Forall (fun b => proper (cycle_sites dfg target mapping image b)) all).
  { apply Forall_forall. intros b Hb. apply cycle_sites_proper. intros e He. apply event_site_proper.
    intros Hk id s edge_id edge ????. by eapply (schedule_writes_stored b e). }
  assert (Hkernel : Forall (Forall (unsigned_tile mapping)) (kernel_bundles schedule) /\
    Forall (fun b => proper (cycle_sites dfg target mapping image b)) (kernel_bundles schedule)).
  { rewrite <- Forall_and. unfold kernel_bundles. apply Forall_fmap, Forall_forall. intros cycle _. simpl.
    destruct (_ !! _) as [b|] eqn:E; simpl; [|split; [constructor|done]]. apply list_elem_of_lookup_2 in E.
    assert (Hin : b ∈ all) by (unfold all; rewrite !elem_of_app; auto).
    rewrite Forall_forall in Htiles, Hsites. split; [by apply Htiles|by apply Hsites]. }
  unfold all in Htiles, Hsites. rewrite !Forall_app in Htiles, Hsites.
  destruct Htiles as (Ht1 & Ht2 & Ht3), Hsites as (Hs1 & Hs2 & Hs3), Hkernel as [Hk1 Hk2].
  apply proper_bind.
  { unfold lower_run. destruct (_ =? 0); [done|].
    apply proper_bind; [by apply lower_cycles_proper|]. intros [prologue st1] _.
    apply proper_bind; [by apply lower_cycles_proper|]. intros [body st2] _.
    apply proper_bind; [by apply lower_cycles_proper|]. by intros [epilogue st3] _. }
  intros [controls stats] Hrun.
  destruct (lower_run_lowered dfg target mapping image Hcount schedule controls stats
    (li_tiles _ _ _ _ Hinput) Hrun) as (_ & _ & _ & H1 & H2 & H3).
  apply Forall2_length in H1, H2, H3.
  apply proper_bind.
  { unfold program_verify. repeat (destruct (_ || _); [done|]). destruct (negb _); [done|].
    apply proper_bind; [apply bundles_represented_proper; lia|]. intros [] _; [|done]. cbn [negb].
    apply proper_bind; [|intros [] _; [apply bundles_represented_proper; lia|done]].
    apply bundles_represented_proper. rewrite <- H2. unfold kernel_bundles. rewrite length_fmap.
    unfold range. rewrite length_seqZ. pose proof (se_kernel _ _ _ _ Hex) as Hbody.
    destruct (Z.eqb_spec (rk_repeatCount (sch_kernel schedule)) 0); lia. }
  intros verified _. destruct (negb verified); [done|].
  apply proper_bind; [|by intros [] _]. unfold encodeProgram.
  apply proper_bind; [apply encode_phase_proper|]. intros [] _.
  apply proper_bind; [apply encode_phase_proper|]. intros [] _.
  apply proper_bind; [apply encode_phase_proper|]. by intros [] _.
Qed.
End Lowering.

Lemma target_lower_ends (dfg : TargetDFG) (target : TargetModel) (mapping : RFAllocatedMapping)
    (schedule : MaterializedSchedule) (options : TargetLoweringOptions) :
  lowering_input dfg target mapping schedule ->
  exists r, target_lower dfg target mapping schedule options = Some r /\
    (lowering_ok r = true <-> is_Some (tlr_controls r) /\ is_Some (tlr_encoded r) /\ is_Some (tlr_manifest r)) /\
    (lowering_ok r = false -> tlr_diagnostics r = [tlr_status r] /\ tlr_constantImage r = []).
Proof.
  intros Hinput. pose proof (lower_program_proper dfg target mapping schedule options Hinput) as H.
  unfold target_lower, lowering_ok.
  destruct (lower_program dfg target mapping schedule options) as [[[[controls encoded] stats] options']|s|];
    [|eexists; split; [done|]; simpl in *; rewrite bool_decide_false by done; naive_solver|done].
  pose proof (build_manifest_proper target controls encoded options') as Hm.
  destruct (build_manifest target controls encoded options') as [manifest|s|];
    [| |done]; (eexists; split; [done|]; simpl in *).
  - split; [|done]. split; [|done]. intros _. repeat split; by eexists.
  - rewrite bool_decide_false by done. split; [|done]. split; [done|]. intros (_ & _ & [? [=]]).
Qed.

(** C18: lowering always ends with a result.  On input that satisfies the invariants
    of its types no unchecked read is out of range; the result is a success exactly
    when the control program, its words and the manifest are all there; and a failure
    reports its one diagnostic with its status. *)
Theorem lowering_ends (dfg : TargetDFG) (target : TargetModel) (mapping : RFAllocatedMapping)
    (schedule : MaterializedSchedule) (options : TargetLoweringOptions) :
  lowering_input dfg target mapping schedule ->
  exists r, target_lower dfg target mapping schedule options = Some r /\
    (lowering_ok r = true <-> is_Some (tlr_controls r) /\ is_Some (tlr_encoded r) /\ is_Some (tlr_manifest r)) /\
    (lowering_ok r = false -> tlr_diagnostics r = [tlr_status r] /\ tlr_constantImage r = []).
Proof. apply target_lower_ends. Qed.

Lemma lowered_runs (dfg : TargetDFG) (target : TargetModel)
    (mapping : RFAllocatedMapping) (schedule : MaterializedSchedule) (options : TargetLoweringOptions)
    (r : TargetLoweringResult) :
  lowering_input dfg target mapping schedule -> lowerable mapping schedule ->
  target_lower dfg target mapping schedule options = Some r -> lowering_ok r = true ->
  let trip := sch_tripCount schedule in
  let image := tlr_constantImage r in
  (forall t e, (t, e) ∈ expected_events dfg mapping trip -> is_use e = false ->
     exists site, event_site dfg target mapping image e = LowOk site) /\
  exists manifest, tlr_manifest r = Some manifest /\
    pm_runCycles manifest = wrap64 (total_cycles dfg mapping trip +
      if rk_repeatCount (sch_kernel schedule) =? 0 then sch_ii schedule else 0) /\
    forall tile, in_array target tile ->
      (forall t, 0 <= t < total_cycles dfg mapping trip ->
         exists word c, replayed manifest tile t = Some word /\ decode target word = Ok c /\
           overlay (execution_needs dfg target mapping image trip t tile) c) /\
      exists i, image_of manifest tile = Some i /\ NoDup (ti_constants i).*1 /\
        forall c, c ∈ td_constants dfg -> exists a, constant_address image (const_id c) = Ok a /\
          (a, const_word c) ∈ ti_constants i.
Proof.
  intros Hinput Hlow Hrun Hok.
  pose proof (lower_program_proper dfg target mapping schedule options Hinput) as Hproper.
  unfold target_lower in Hrun.
  destruct (lower_program dfg target mapping schedule options) as [[[[controls encoded] stats] options']|s|]
    eqn:Hprogram; [|by injection Hrun as <-; apply bool_decide_eq_true in Hok|done].
  pose proof (build_manifest_proper target controls encoded options') as Hmproper.
  destruct (build_manifest target controls encoded options') as [manifest|s|] eqn:Hmanifest;
    [|by injection Hrun as <-; apply bool_decide_eq_true in Hok|done].
  injection Hrun as <-. cbn [tlr_constantImage tlr_manifest].
  destruct (lower_program_parts dfg target mapping schedule options Hinput _ _ _ _ Hprogram)
    as (Hf & Hex & Hii & Hrep & Hids & im & Him & Eo & _ & _ & _ & _ & Hall).
  assert (Him' : opt_constantImage options' = im) by by rewrite Eo.
  destruct (manifest_loop dfg target mapping schedule options Hinput _ _ _ _ manifest Hprogram Hmanifest)
    as (Hp & Hi & Htrip & _ & Hcycles).
  split.
  - intros t e He Hu.
    destruct (expected_bundle dfg mapping (sch_tripCount schedule) schedule Hex Hii Hrep t e He)
      as (Ht & b & k & Hb).
    destruct (bundle_expected dfg target mapping im (sch_tripCount schedule) schedule
      Hlow Hex Hii Hrep t b k Ht Hb) as (shown & Hexp & Hshown).
    apply Hexp in He as (e0 & He0 & ->). destruct (Hshown e0 He0) as [Hu' Hs']. rewrite Hu' in Hu.
    rewrite Him', Hs' by done.
    destruct (bundle_at_pc schedule Hii Hrep (se_kernel _ _ _ _ Hex) manifest t b k Hp Hi Htrip
      (lw_phases _ _ Hlow) Ht Hb) as [_ Hpc].
    destruct (Forall2_lookup_l _ _ _ _ _ Hall Hpc) as (words & _ & tiles & (sites & Hsites & _) & _).
    clear -Hsites He0 Hu. revert sites Hsites. induction b as [|e b IH]; intros sites Hsites;
      [by apply not_elem_of_nil in He0|].
    cbn [cycle_sites] in Hsites. apply elem_of_cons in He0 as [<-|He0].
    + rewrite Hu in Hsites. apply low_bind_Ok in Hsites as (site & Hsite & _). by exists site.
    + destruct (is_use e); [by eapply IH|]. apply low_bind_Ok in Hsites as (site & _ & Hsites).
      apply low_bind_Ok in Hsites as (rest & Hrest & _). by eapply IH.
  - exists manifest. split; [done|]. split; [done|]. intros tile Htile. split.
    + intros t Ht. by eapply (replayed_word dfg target mapping schedule options Hinput).
    + unfold build_manifest in Hmanifest. apply low_bind_Ok in Hmanifest as (images & Himages & Hm).
      destruct (tile_images_lookup _ _ _ _ _ _ _ Himages (tiles_elem target tile Htile)) as (ti & Hti & _ & Hc).
      exists ti. injection Hm as <-. split; [done|]. rewrite Hc, Him'. split; [apply constant_memory_NoDup|].
      intros c Hin. by apply (constant_memory_holds dfg target im c Hids (li_constants _ _ _ _ Hinput) Him).
Qed.


(** ** A lowered loop

    The accumulation with constant addresses, mapped, scheduled and allocated as
    before, for six iterations. *)
Definition bound_calls : list BuilderCall := [
  AddConstant (mkConstantValue 0 vt_i32 0);
  AddConstant (mkConstantValue 1 vt_i32 16);
  AddNode (mkTargetNode 0 "LOAD" LSU vt_i32 [vt_i32] 1 (Some 2) [10] (Some 2) (Some 32));
  AddNode (mkTargetNode 1 "ADD" FU vt_i32 [vt_i32; vt_i32] 1 (Some 1) [11] (Some 0) None);
  AddNode (mkTargetNode 2 "STORE" LSU voidTy [vt_i32; vt_i32] 1 None [12] None (Some 32));
  AddBinding (mkTargetOperandBinding 0 0 (ConstantRef 1));
  AddBinding (mkTargetOperandBinding 2 0 (ConstantRef 1));
  AddEdge (mkTargetEdge 0 0 1 0 (DataEdgeInfo 0 None));
  AddEdge (mkTargetEdge 1 1 1 1
    (DataEdgeInfo 1 (Some [mkRecurrenceBoundaryValue 0 (ConstantRef 0)])));
  AddEdge (mkTargetEdge 2 1 2 0 (DataEdgeInfo 1 None));
  AddEdge (mkTargetEdge 3 0 2 0 (MemoryEdgeInfo WAR));
  AddEdge (mkTargetEdge 4 2 0 1 (MemoryEdgeInfo RAW));
  AddLiveOut (mkTargetLiveOut 0 vt_i32 "sum" 1)].

Definition bound_loop : TargetDFG :=
  match builder_run (TargetDFG_empty "accumulate" "cgra_v2_shared4p") bound_calls with
  | Ok g => g
  | Throw _ => TargetDFG_empty "accumulate" "cgra_v2_shared4p"
  end.

Definition materialized (dfg : TargetDFG) (mapping : RFAllocatedMapping) (trip : Z) : MaterializedSchedule :=
  match schedule_materialize dfg cgra_v2 mapping (mkMatRequest trip default_materialization_budget) with
  | Ok (Some r) => default (mkSchedule 0 0 0 0 [] (mkKernel [] 0) []) (mtr_schedule r)
  | _ => mkSchedule 0 0 0 0 [] (mkKernel [] 0) []
  end.

Definition bound_schedule : MaterializedSchedule := materialized bound_loop v2_allocation 6.

Definition plain_options : TargetLoweringOptions :=
  mkLoweringOptions "accumulate" "cgra_v2.json" "semantic schedule" [] [].

Lemma bound_loop_inv : TargetDFG_inv bound_loop.
Proof.
  unfold bound_loop. destruct (builder_run _ _) eqn:E; [|apply TargetDFG_empty_inv].
  eapply builder_run_inv; [apply TargetDFG_empty_inv|exact E].
Qed.

Lemma bound_loop_typed : typed_graph bound_loop.
Proof.
  intros edge Hedge. vm_compute in Hedge.
  repeat (apply elem_of_cons in Hedge as [->|Hedge]; [vm_compute; split; discriminate|]).
  by apply not_elem_of_nil in Hedge.
Qed.

(** Checks that imply that the tiles are unsigned and that a schedule is [lowerable]. *)
Definition unsigned_tiles_b (mapping : RFAllocatedMapping) (s : MaterializedSchedule) : bool :=
  forallb (forallb (fun e =>
      match resolve_tile mapping e with
      | LowOk (_, tile) => (0 <=? tile_row tile) && (0 <=? tile_col tile)
      | _ => true
      end))
    (sch_prologue s ++ rk_body (sch_kernel s) ++ sch_epilogue s).

Definition lowerable_b (s : MaterializedSchedule) : bool :=
  forallb (forallb (fun e => bool_decide (ev_kind e = NodeIssue -> ev_tile e = None)))
    (sch_prologue s ++ rk_body (sch_kernel s) ++ sch_epilogue s) &&
  forallb (forallb (fun e => bool_decide (ev_kind e = LinkLaunch \/ ev_kind e = RFWrite ->
      0 <= ev_logicalIteration e))) (rk_body (sch_kernel s)) &&
  negb (rk_repeatCount (sch_kernel s) =? 0).

Lemma forallb_Forall_2 {A} (p : A -> bool) (P : A -> Prop) (ls : list (list A)) :
  (forall x, p x = true -> P x) -> forallb (forallb p) ls = true -> Forall (Forall P) ls.
Proof.
  intros Hp H. rewrite forallb_forall in H. apply Forall_forall. intros l Hl%list_elem_of_In.
  specialize (H l Hl). rewrite forallb_forall in H. apply Forall_forall. intros x Hx%list_elem_of_In. auto.
Qed.

Lemma unsigned_tiles_b_sound mapping s : unsigned_tiles_b mapping s = true ->
  Forall (Forall (unsigned_tile mapping)) (sch_prologue s ++ rk_body (sch_kernel s) ++ sch_epilogue s).
Proof.
  apply forallb_Forall_2. intros e He e' tile Hres. rewrite Hres in He. lia.
Qed.

Lemma lowerable_b_sound mapping s : lowerable_b s = true -> lowerable mapping s.
Proof.
  unfold lowerable_b. rewrite !andb_true_iff. intros [[H1 H2] H3]. split.
  - revert H1. apply forallb_Forall_2. intros e He%bool_decide_eq_true Hk. left. auto.
  - revert H2. apply forallb_Forall_2. intros e He%bool_decide_eq_true Hk. left. auto.
  - intros E. by rewrite E in H3.
Qed.

Lemma bound_input : lowering_input bound_loop cgra_v2 v2_allocation bound_schedule.
Proof.
  split.
  - exact bound_loop_inv.
  - exact cgra_v2_wf.
  - exact cgra_v2_register_files.
  - exact cgra_v2_layout.
  - vm_compute. split; congruence.
  - exact bound_loop_typed.
  - exact v2_staged_typed.
  - exact v2_allocation_typed.
  - apply Forall_forall. repeat constructor; vm_compute; congruence.
  - exact v2_allocation_sorted.
  - vm_compute. congruence.
  - vm_compute. congruence.
  - vm_compute. split; congruence.
  - apply unsigned_fields_typed. vm_compute. reflexivity.
  - apply unsigned_tiles_b_sound. vm_compute. reflexivity.
Qed.

Lemma bound_lowerable : lowerable v2_allocation bound_schedule.
Proof. apply lowerable_b_sound. vm_compute. reflexivity. Qed.

Example bound_lowering :
  (fun r => (tlr_status r, pm_runCycles <$> tlr_manifest r, length (td_constants bound_loop),
             constant_address (tlr_constantImage r) 1)) <$>
    target_lower bound_loop cgra_v2 v2_allocation bound_schedule plain_options =
  Some (TLSuccess, Some 33, 2%nat, Ok 1).
Proof. vm_compute. reflexivity. Qed.

Definition bound_image : ConstantImage :=
  match constants_allocate bound_loop cgra_v2 with Ok image => image | Throw _ => [] end.

(** The events of the third cycle of the loop's kernel. *)
Definition bound_bundle : CycleBundle := nth 2 (rk_body (sch_kernel bound_schedule)) [].

Lemma cycle_lowering_exact_witness :
  exists sites tiles stats,
    lowerCycle bound_loop cgra_v2 v2_allocation bound_image bound_bundle no_lowering_stats = LowOk (tiles, stats) /\
    cycle_sites bound_loop cgra_v2 v2_allocation bound_image bound_bundle = LowOk sites /\
    cycle_overlay cgra_v2 sites tiles.
Proof.
  assert (E : exists tiles stats,
    lowerCycle bound_loop cgra_v2 v2_allocation bound_image bound_bundle no_lowering_stats = LowOk (tiles, stats))
    by (eexists _, _; vm_compute; reflexivity).
  destruct E as (tiles & stats & E).
  destruct (cycle_lowering_exact bound_loop cgra_v2 v2_allocation bound_image bound_bundle no_lowering_stats)
    as (H & _ & _).
  - vm_compute. congruence.
  - assert (Hin : bound_bundle ∈ sch_prologue bound_schedule ++ rk_body (sch_kernel bound_schedule) ++
      sch_epilogue bound_schedule).
    { apply elem_of_app. right. apply elem_of_app. left.
      apply (list_elem_of_lookup_2 _ 2%nat). vm_compute. reflexivity. }
    pose proof (li_tiles _ _ _ _ bound_input) as Hall.
    rewrite Forall_forall in Hall. by apply Hall.
  - destruct (H tiles stats E) as (sites & Hs & Ho). exists sites, tiles, stats. exact (conj E (conj Hs Ho)).
Defined.

Lemma lowering_ends_witness :
  exists r, target_lower bound_loop cgra_v2 v2_allocation bound_schedule plain_options = Some r /\
    (lowering_ok r = true <-> is_Some (tlr_controls r) /\ is_Some (tlr_encoded r) /\ is_Some (tlr_manifest r)).
Proof.
  destruct (lowering_ends bound_loop cgra_v2 v2_allocation bound_schedule plain_options bound_input)
    as (r & Hr & Hok & _). exists r. split; [exact Hr|exact Hok].
Defined.

