(* ===== verification/TargetLoweringGaps.v ===== *)
(** * A kernel that repeats its seed

    Three gaps between the materialized schedule and the lowered program.  The first
    is a verified materialization whose lowering succeeds and whose program is wrong:
    an accumulator enters its register through a write whose kernel instance belongs to
    iteration -1, where the lowering writes the boundary constant; the kernel word
    repeats, so every iteration overwrites the accumulator with its seed.  The second is
    a valid allocation that lowering refuses, the third a reading of the recurrence
    boundary by position where the materializer reads it by offset. *)
From stdpp Require Import base numbers list gmap strings sorting.
From S2P Require Import Prelude.
From S2P Require Import IR.
From S2P Require Import TargetModel.
From S2P Require Import CgraV2.
From S2P Require Import TargetDFG.
From S2P Require Import ModuloResources.
From S2P Require Import ModuloMapping.
From S2P Require Import MappingVerifier.
From S2P Require Import StageScheduler.
From S2P Require Import StorageRequirements.
From S2P Require Import RFAllocation.
From S2P Require Import MaterializedSchedule.
From S2P Require Import MaterializedVerifier.
From S2P Require Import ScheduleMaterializer.
From S2P Require Import MaterializeSpec.
From S2P Require Import MaterializedExact.
From S2P Require Import MaterializerGaps.
From S2P Require Import ControlLayout.
From S2P Require Import ConstantAllocator.
From S2P Require Import TargetLowering.
From S2P Require Import ControlOverlay.
From S2P Require Import TargetLoweringSpec.
From S2P Require Import TargetLoweringExact.
From S2P Require Import TargetLoweringSafe.

Definition seed_calls : list MappingCall := [
  Place 0 (mkTile 1 0) 5; Place 1 (mkTile 0 1) 3; Place 2 (mkTile 0 0) 4;
  SetTransport 0 (mkPlan 0 NetData
    [LinkStep NetData (mkTile 1 0) North 2; LinkStep NetData (mkTile 0 0) East 3] 4);
  SetTransport 1 (mkPlan 1 NetData
    [LinkStep NetData (mkTile 0 1) East 0; VirtualHold NetData (mkTile 0 2) 1 2;
     LinkStep NetData (mkTile 0 2) West 2] 3);
  SetTransport 2 (mkPlan 2 NetData [LinkStep NetData (mkTile 0 1) West 0] 1);
  SetMemorySeparation 3 1; SetMemorySeparation 4 1].

Definition seed_allocation : RFAllocatedMapping :=
  match allocated bound_loop 6 seed_calls with Ok m => m | Throw _ => empty_allocation end.

Definition seed_schedule : MaterializedSchedule := materialized bound_loop seed_allocation 6.
Definition seed_run : option TargetLoweringResult :=
  target_lower bound_loop cgra_v2 seed_allocation seed_schedule plain_options.

(** The setting a word of the lowered program puts on a tile in a cycle. *)
Definition replayed_control (r : TargetLoweringResult) (tile : TileCoord) (t : Z) : option TileControl :=
  manifest ← tlr_manifest r;
  word ← replayed manifest tile t;
  match decode cgra_v2 word with Ok c => Some c | Throw _ => None end.

Definition lowered_setting {A} (get : TileControl -> A) (tile : TileCoord) (t : Z) : option A :=
  r ← seed_run; get <$> replayed_control r tile t.

(** What the execution of the loop needs of a member of a tile's setting. *)
Definition needed_of (dfg : TargetDFG) (mapping : RFAllocatedMapping) (trip t : Z) (tile : TileCoord)
    (member : string) : list FieldValue :=
  snd <$> filter (fun n => n.1 = member) (execution_needs dfg cgra_v2 mapping bound_image trip t tile).

(** The lowered program of a verified schedule may repeat its seed.  The
    allocation and its materialization pass their verifiers and lowering succeeds with
    a manifest, but in cycle 12 the execution writes the accumulator from the east
    link, and the replayed word writes the boundary constant of iteration -1 again. *)
Theorem kernel_repeats_seed :
  rf_verify bound_loop cgra_v2 seed_allocation = Ok [] /\
  msv_verify bound_loop cgra_v2 seed_allocation (mkMatRequest 6 default_materialization_budget) seed_schedule = Ok [] /\
  (r ← seed_run; Some (tlr_status r, tlr_constantImage r)) = Some (TLSuccess, bound_image) /\
  lowered_setting (fun c => (tc_dataWrite1Enable c, tc_dataWrite1Source c)) (mkTile 0 1) 12 =
    Some (true, "CONST_DATA"%string) /\
  needed_of bound_loop seed_allocation 6 12 (mkTile 0 1) "dataWrite1Source" = [FString "EAST_DATA_IN"].
Proof. split_and!; vm_compute; reflexivity. Qed.

(** The needs of that cycle are therefore not what the word gives. *)
Lemma seed_not_overlay :
  forall r c, seed_run = Some r -> replayed_control r (mkTile 0 1) 12 = Some c ->
    ~ overlay (execution_needs bound_loop cgra_v2 seed_allocation bound_image 6 12 (mkTile 0 1)) c.
Proof.
  intros r c Hr Hc [Hn _ _].
  assert (E : lowered_setting tc_dataWrite1Source (mkTile 0 1) 12 = Some "CONST_DATA"%string)
    by (vm_compute; reflexivity).
  unfold lowered_setting in E. rewrite Hr in E. cbn [mbind option_bind] in E. rewrite Hc in E.
  injection E as E.
  assert (Hin : ("dataWrite1Source", FString "EAST_DATA_IN"%string) ∈
    execution_needs bound_loop cgra_v2 seed_allocation bound_image 6 12 (mkTile 0 1)).
  { assert (Hl : needed_of bound_loop seed_allocation 6 12 (mkTile 0 1) "dataWrite1Source" =
      [FString "EAST_DATA_IN"]) by (vm_compute; reflexivity).
    assert (Hv : FString "EAST_DATA_IN" ∈ needed_of bound_loop seed_allocation 6 12 (mkTile 0 1) "dataWrite1Source")
      by (rewrite Hl; apply list_elem_of_singleton; reflexivity).
    unfold needed_of in Hv. apply list_elem_of_fmap in Hv as ([f v] & Ev & Hin).
    apply list_elem_of_filter in Hin as [Ef Hin]. simpl in Ef, Ev. by subst f v. }
  apply Hn in Hin.
  cbn in Hin. rewrite E in Hin. discriminate.
Qed.

(** ** A held value is read from register zero only

    The launch after a hold routes the register file's output and leaves its read
    address at the default, so a value held in another register than the first is
    refused by the program verifier, however valid its allocation is. *)
Definition held_allocation : RFAllocatedMapping := mkAllocated v2_staged v2_requirements [
  mkAllocation 0 (mkRegister (mkTile 0 2) "data_rf" 1) 0 1 (Some 1);
  mkAllocation 1 (mkRegister (mkTile 0 1) "data_rf" 3) 1 1 (Some 1)].

Theorem held_value_needs_register_zero :
  rf_verify bound_loop cgra_v2 held_allocation = Ok [] /\
  msv_verify bound_loop cgra_v2 held_allocation (mkMatRequest 6 default_materialization_budget)
    (materialized bound_loop held_allocation 6) = Ok [] /\
  tlr_status <$> target_lower bound_loop cgra_v2 held_allocation (materialized bound_loop held_allocation 6)
    plain_options = Some TLVerificationFailure /\
  tlr_status <$> target_lower bound_loop cgra_v2 v2_allocation bound_schedule plain_options = Some TLSuccess.
Proof. split_and!; vm_compute; reflexivity. Qed.

(** ** Boundary values are read by position *)

(** When the values are listed in the order of their offsets, the lowering reads the
    one the materializer injects. *)
Lemma boundary_in_order edge values it id :
  edge_boundary (te_info edge) = Some values ->
  (forall i value, values !! i = Some value -> rbv_iterationOffset value = Z.of_nat i) ->
  - te_distance edge <= it < 0 ->
  boundaryConstantFor edge it = LowOk (Some id) <->
  boundaryValue edge (it + te_distance edge) = Some (ConstantRef id).
Proof.
  intros Hb Horder Hit. unfold boundaryConstantFor, boundaryValue. rewrite Hb. cbn [mbind option_bind].
  replace (_ || _) with false by lia. replace (_ || _) with false by lia.
  assert (E : find_if (fun value => rbv_iterationOffset value =? it + te_distance edge) values =
    values !! nat_of (it + te_distance edge)).
  { destruct (find_if _ values) as [v|] eqn:Ef.
    - apply find_if_Some in Ef as [Hin Hv]. apply list_elem_of_lookup in Hin as [i Hi].
      pose proof (Horder i v Hi) as Ho. replace (nat_of (it + te_distance edge)) with i by lia. done.
    - symmetry. destruct (values !! _) as [v|] eqn:El; [|done].
      pose proof (Horder _ v El) as Ho. apply list_elem_of_lookup_2 in El.
      rewrite find_if_None in Ef. apply Ef in El. lia. }
  rewrite E. unfold edge_boundary in Hb.
  destruct (te_info edge) as [? [l|]|? [l|]|?]; try done; injection Hb as ->;
    destruct (values !! _) as [v|]; simpl; try done; destruct (rbv_value v); simpl; naive_solver.
Qed.

(** Any other order is accepted by the graph verifiers and read differently. *)
Definition turned_edge : TargetEdge := mkTargetEdge 0 0 1 2
  (DataEdgeInfo 1 (Some [mkRecurrenceBoundaryValue 1 (ConstantRef 11); mkRecurrenceBoundaryValue 0 (ConstantRef 10)])).

Example turned_boundary :
  boundaryConstantFor turned_edge (-2) = LowOk (Some 11) /\
  boundaryValue turned_edge (-2 + te_distance turned_edge) = Some (ConstantRef 10).
Proof. split; vm_compute; reflexivity. Qed.
