(* ===== verification/Pipeline.v ===== *)
(** * The compilation pipeline

    [BackendFeasibilityChecker.cpp]: the check of a complete mapping that the mapper
    runs, [backend_check].  [CompileDFG.cpp]: the driver [compileGenericDFG], a chain of
    the phases with an independent verifier after each.

    A run threads the result under construction and may go on, return from the
    function, or throw; the [catch] around the chain turns an exception into a result.
    The texts of artifacts and messages are left out: an artifact is its file name, and
    the file system and the rendering of texts are an [Environment] that says which of
    their operations succeed. *)
From stdpp Require Import base numbers list gmap strings.
From S2P Require Import Prelude.
From S2P Require Import IR.
From S2P Require Import DFG.
From S2P Require Import DFGVerifier.
From S2P Require Import TargetModel.
From S2P Require Import TargetDFG.
From S2P Require Import TargetDFGVerifier.
From S2P Require Import TargetLegalizer.
From S2P Require Import ModuloMapping.
From S2P Require Import MappingVerifier.
From S2P Require Import MIIAnalyzer.
From S2P Require Import ModuloMapper.
From S2P Require Import StageScheduler.
From S2P Require Import StorageRequirements.
From S2P Require Import RFAllocation.
From S2P Require Import Coloring.
From S2P Require Import RFAllocator.
From S2P Require Import MaterializedSchedule.
From S2P Require Import MaterializedVerifier.
From S2P Require Import ScheduleMaterializer.
From S2P Require Import ConstantAllocator.
From S2P Require Import TargetLowering.

(** ** The [ok] of the phases' results *)

Definition mii_ok (r : MIIResult) : bool := bool_decide (mr_status r = MIISuccess).

(** The staged or allocated mapping of a result that is ok. *)
Definition staged_of (r : StageSchedulingResult) : option StagedMapping :=
  match sr_status r with StageSuccess => sr_mapping r | _ => None end.
Definition allocated_of (r : RFAllocationResult) : option RFAllocatedMapping :=
  match al_status r with AllocSuccess => al_mapping r | _ => None end.

(** ** BackendFeasibilityChecker *)

Definition decided (decision : CompleteMappingDecision) (reason : string)
  : result CompleteMappingCheckResult := Ok (mkCheckResult decision reason).

(** What an allocation means for the mapping; [None]: it is verified next. *)
Definition allocation_decision (status : RFAllocationStatus) : option CompleteMappingCheckResult :=
  match status with
  | FixedRegisterSelfOverlap | ReadPortConflict | WritePortConflict | SameAddressRWConflict
  | RegisterDepthInfeasible => Some (mkCheckResult Reject "rf_infeasible")
  | BudgetExceeded => Some (mkCheckResult Abort "budget_rf")
  | AllocSuccess => None
  | _ => Some (mkCheckResult Abort "verification_rf_failure")
  end.

(** [BackendFeasibilityChecker::check]. *)
Definition backend_check (budget : RFAllocationBudget) (dfg : TargetDFG) (target : TargetModel)
    (mapping : ModuloMapping) : result CompleteMappingCheckResult :=
  stage ← schedule dfg target mapping;
  match staged_of stage with
  | None =>
      match sr_status stage with
      | StageInfeasibleStageConstraints => decided Reject "stage_infeasible"
      | _ => decided Abort "verification_stage_failure"
      end
  | Some staged =>
      stageReport ← sav_verify dfg target staged;
      if negb (bool_decide (stageReport = [])) then decided Abort "verification_stage_failure"
      else
        rf ← allocate dfg target staged budget;
        match allocation_decision (al_status rf) with
        | Some decision => Ok decision
        | None =>
            allocated ← of_option LogicError (al_mapping rf);
            rfReport ← rf_verify dfg target allocated;
            if negb (bool_decide (rfReport = [])) then decided Abort "verification_rf_failure"
            else decided Accept ""
        end
  end.

(** ** CompileDFG: options and results *)

Inductive CompileDFGStatus :=
  | CSuccess
  | CGenericDFGVerificationFailure
  | CTargetLegalizationFailure
  | CTargetDFGVerificationFailure
  | CMIIAnalysisFailure
  | CMappingFailure
  | CModuloMappingVerificationFailure
  | CStageSchedulingFailure
  | CStageVerificationFailure
  | CRFAllocationFailure
  | CRFVerificationFailure
  | CMaterializationFailure
  | CMaterializedScheduleVerificationFailure
  | CTargetLoweringFailure
  | CTargetControlVerificationFailure
  | CManifestValidationFailure
  | CArtifactFailure
  | CInternalError.

#[export] Instance CompileDFGStatus_eq_dec : EqDecision CompileDFGStatus.
Proof. solve_decision. Defined.

Definition CompileDFGStatus_toString (status : CompileDFGStatus) : string :=
  match status with
  | CSuccess => "success"
  | CGenericDFGVerificationFailure => "generic_dfg_verification_failure"
  | CTargetLegalizationFailure => "target_legalization_failure"
  | CTargetDFGVerificationFailure => "target_dfg_verification_failure"
  | CMIIAnalysisFailure => "mii_analysis_failure"
  | CMappingFailure => "mapping_failure"
  | CModuloMappingVerificationFailure => "modulo_mapping_verification_failure"
  | CStageSchedulingFailure => "stage_scheduling_failure"
  | CStageVerificationFailure => "stage_verification_failure"
  | CRFAllocationFailure => "rf_allocation_failure"
  | CRFVerificationFailure => "rf_verification_failure"
  | CMaterializationFailure => "materialization_failure"
  | CMaterializedScheduleVerificationFailure => "materialized_schedule_verification_failure"
  | CTargetLoweringFailure => "target_lowering_failure"
  | CTargetControlVerificationFailure => "target_control_verification_failure"
  | CManifestValidationFailure => "manifest_validation_failure"
  | CArtifactFailure => "artifact_failure"
  | CInternalError => "internal_error"
  end.

(** The artifact directory is part of the [Environment]. *)
Record CompileDFGOptions := mkCompileOptions {
  co_tripCount : Z;
  co_targetPath : string;
  co_mapper : ModuloMapperOptions;
  co_rfAllocation : RFAllocationBudget;
  co_materializationBudget : ScheduleMaterializationBudget;
  co_scratchpadPreload : list (Z * Z);
  co_programName : string
}.

Record CompileDFGStats := mkCompileStats {
  cs_tripCount : Z;
  cs_mii : Z;
  cs_mappedII : Z;
  cs_nodeCandidateAttempts : Z;
  cs_routeStateExpansions : Z;
  cs_completedModuloMappings : Z;
  cs_postMappingRejected : Z;
  cs_stageRejected : Z;
  cs_rfRejected : Z;
  cs_postMappingAbort : Z;
  cs_maxStage : Z;
  cs_storageSegments : Z;
  cs_prologueCycles : Z;
  cs_kernelRepeats : Z;
  cs_epilogueCycles : Z
}.

Record CompileDFGResult := mkCompileResult {
  cr_status : CompileDFGStatus;
  cr_manifest : option ProgramManifest;
  cr_stats : CompileDFGStats;
  cr_artifacts : list string
}.

Definition compile_ok (r : CompileDFGResult) : bool :=
  bool_decide (cr_status r = CSuccess) && bool_decide (is_Some (cr_manifest r)).

(** A default-constructed result. *)
Definition no_compile_stats : CompileDFGStats := mkCompileStats 0 0 0 0 0 0 0 0 0 0 0 0 0 0 0.
Definition initial_result : CompileDFGResult := mkCompileResult CInternalError None no_compile_stats [].

Definition set_tripCount (n : Z) (s : CompileDFGStats) : CompileDFGStats :=
  mkCompileStats n (cs_mii s) (cs_mappedII s) (cs_nodeCandidateAttempts s) (cs_routeStateExpansions s)
    (cs_completedModuloMappings s) (cs_postMappingRejected s) (cs_stageRejected s) (cs_rfRejected s)
    (cs_postMappingAbort s) (cs_maxStage s) (cs_storageSegments s) (cs_prologueCycles s)
    (cs_kernelRepeats s) (cs_epilogueCycles s).
Definition set_mii (n : Z) (s : CompileDFGStats) : CompileDFGStats :=
  mkCompileStats (cs_tripCount s) n (cs_mappedII s) (cs_nodeCandidateAttempts s) (cs_routeStateExpansions s)
    (cs_completedModuloMappings s) (cs_postMappingRejected s) (cs_stageRejected s) (cs_rfRejected s)
    (cs_postMappingAbort s) (cs_maxStage s) (cs_storageSegments s) (cs_prologueCycles s)
    (cs_kernelRepeats s) (cs_epilogueCycles s).
Definition set_mapper_stats (m : ModuloMapperStats) (s : CompileDFGStats) : CompileDFGStats :=
  mkCompileStats (cs_tripCount s) (cs_mii s) (cs_mappedII s) (ms_nodeCandidateAttempts m)
    (ms_totalRouteStateExpansions m) (ms_completedModuloMappings m) (ms_postMappingRejected m)
    (ms_stageRejected m) (ms_rfRejected m) (ms_postMappingAbort m) (cs_maxStage s)
    (cs_storageSegments s) (cs_prologueCycles s) (cs_kernelRepeats s) (cs_epilogueCycles s).
Definition set_mappedII (n : Z) (s : CompileDFGStats) : CompileDFGStats :=
  mkCompileStats (cs_tripCount s) (cs_mii s) n (cs_nodeCandidateAttempts s) (cs_routeStateExpansions s)
    (cs_completedModuloMappings s) (cs_postMappingRejected s) (cs_stageRejected s) (cs_rfRejected s)
    (cs_postMappingAbort s) (cs_maxStage s) (cs_storageSegments s) (cs_prologueCycles s)
    (cs_kernelRepeats s) (cs_epilogueCycles s).
Definition set_maxStage (n : Z) (s : CompileDFGStats) : CompileDFGStats :=
  mkCompileStats (cs_tripCount s) (cs_mii s) (cs_mappedII s) (cs_nodeCandidateAttempts s)
    (cs_routeStateExpansions s) (cs_completedModuloMappings s) (cs_postMappingRejected s)
    (cs_stageRejected s) (cs_rfRejected s) (cs_postMappingAbort s) n (cs_storageSegments s)
    (cs_prologueCycles s) (cs_kernelRepeats s) (cs_epilogueCycles s).
Definition set_storageSegments (n : Z) (s : CompileDFGStats) : CompileDFGStats :=
  mkCompileStats (cs_tripCount s) (cs_mii s) (cs_mappedII s) (cs_nodeCandidateAttempts s)
    (cs_routeStateExpansions s) (cs_completedModuloMappings s) (cs_postMappingRejected s)
    (cs_stageRejected s) (cs_rfRejected s) (cs_postMappingAbort s) (cs_maxStage s) n
    (cs_prologueCycles s) (cs_kernelRepeats s) (cs_epilogueCycles s).
Definition set_phase_stats (schedule : MaterializedSchedule) (s : CompileDFGStats) : CompileDFGStats :=
  mkCompileStats (cs_tripCount s) (cs_mii s) (cs_mappedII s) (cs_nodeCandidateAttempts s)
    (cs_routeStateExpansions s) (cs_completedModuloMappings s) (cs_postMappingRejected s)
    (cs_stageRejected s) (cs_rfRejected s) (cs_postMappingAbort s) (cs_maxStage s) (cs_storageSegments s)
    (Z.of_nat (length (sch_prologue schedule))) (rk_repeatCount (sch_kernel schedule))
    (Z.of_nat (length (sch_epilogue schedule))).

(** ** Runs *)

(** [env_directory]: an artifact directory is named.  [env_create n]: its [n]-th
    creation succeeds.  [env_render name]: the text of the artifact can be rendered.
    [env_store n name]: the [n]-th writing of a file succeeds, with its renaming. *)
Record Environment := mkEnvironment {
  env_directory : bool;
  env_create : nat -> bool;
  env_render : string -> bool;
  env_store : nat -> string -> bool
}.

(** The result under construction and the number of files written so far. *)
Record PipeState := mkPipeState {
  run_result : CompileDFGResult;
  run_writes : nat
}.

(** A step goes on with a value, returns from the function, throws, or reaches code
    whose behaviour is undefined or does not end. *)
Inductive pipe_outcome (A : Type) :=
  | PDone (a : A) (st : PipeState)
  | PReturned (st : PipeState)
  | PRaised (st : PipeState)
  | PUndefined.
Arguments PDone {A} a st.
Arguments PReturned {A} st.
Arguments PRaised {A} st.
Arguments PUndefined {A}.

Definition pipe (A : Type) : Type := PipeState -> pipe_outcome A.

#[export] Instance pipe_ret : MRet pipe := fun A a st => PDone a st.
#[export] Instance pipe_bind : MBind pipe := fun A B f m st =>
  match m st with
  | PDone a st => f a st
  | PReturned st => PReturned st
  | PRaised st => PRaised st
  | PUndefined => PUndefined
  end.

(** A phase that may throw, one that may also not end, and the program verifier. *)
Definition phase {A} (r : result A) : pipe A := fun st =>
  match r with Ok a => PDone a st | Throw _ => PRaised st end.
Definition phase_ends {A} (r : result (option A)) : pipe A := fun st =>
  match r with Ok (Some a) => PDone a st | Ok None => PUndefined | Throw _ => PRaised st end.
Definition phase_low {A} (r : low A) : pipe A := fun st =>
  match r with LowOk a => PDone a st | LowFail _ => PRaised st | LowUndefined => PUndefined end.
Definition defined {A} (o : option A) : pipe A := fun st =>
  match o with Some a => PDone a st | None => PUndefined end.

Definition update_result (f : CompileDFGResult -> CompileDFGResult) : pipe unit := fun st =>
  PDone tt (mkPipeState (f (run_result st)) (run_writes st)).
Definition set_status (status : CompileDFGStatus) (r : CompileDFGResult) : CompileDFGResult :=
  mkCompileResult status (cr_manifest r) (cr_stats r) (cr_artifacts r).
Definition count_stats (f : CompileDFGStats -> CompileDFGStats) : pipe unit :=
  update_result (fun r => mkCompileResult (cr_status r) (cr_manifest r) (f (cr_stats r)) (cr_artifacts r)).
Definition push_artifact (name : string) (r : CompileDFGResult) : CompileDFGResult :=
  mkCompileResult (cr_status r) (cr_manifest r) (cr_stats r) (cr_artifacts r ++ [name]).

Section Driver.
Context (env : Environment).

(** [ArtifactWriter::ArtifactWriter]; [n] numbers the constructions. *)
Definition open_artifacts (n : nat) : pipe unit := fun st =>
  if negb (env_directory env) || env_create env n then PDone tt st else PRaised st.

(** [ArtifactWriter::write] with the rendering of its argument. *)
Definition write (name : string) : pipe unit := fun st =>
  if negb (env_render env name) then PRaised st
  else if negb (env_directory env) then PDone tt st
  else
    let tried result := mkPipeState result (S (run_writes st)) in
    if env_store env (run_writes st) name
    then PDone tt (tried (push_artifact name (run_result st)))
    else PRaised (tried (run_result st)).

Definition report_name : string := "compiler_pipeline_report.json".

(** [return failure(result, status, message, artifacts)]. *)
Definition failure {A} (status : CompileDFGStatus) : pipe A := fun st =>
  match (update_result (set_status status) ≫= fun _ => write report_name) st with
  | PDone _ st => PReturned st
  | PReturned st => PReturned st
  | PRaised st => PRaised st
  | PUndefined => PUndefined
  end.

(** [if (!report.ok()) return failure(...)], and the same with the value of an ok result. *)
Definition check (ok : bool) (status : CompileDFGStatus) : pipe unit :=
  if ok then mret tt else failure status.
Definition check_value {A} (value : option A) (status : CompileDFGStatus) : pipe A :=
  match value with Some a => mret a | None => failure status end.

Definition clean {A} (report : list A) : bool := match report with [] => true | _ => false end.

Context (dfg : DFG) (target : TargetModel) (options : CompileDFGOptions).

(** [mapperOptions]: the checker of the options is replaced by the back end's. *)
Definition mapper_options : ModuloMapperOptions :=
  let o := co_mapper options in
  mkMapperOptions (mo_maxII o) (mo_minII o) (mo_budget o) (mo_routeOptions o)
    (Some (backend_check (co_rfAllocation options))).

Definition lowering_options : TargetLoweringOptions :=
  mkLoweringOptions (co_programName options) (co_targetPath options) "compiler E2E scratchpad stores"
    (co_scratchpadPreload options) [].

(** From the generic graph to the verified target graph. *)
Definition front_phases : pipe TargetDFG :=
  _ ← open_artifacts 0;
  _ ← count_stats (set_tripCount (co_tripCount options));
  _ ← write "00_input.generic_dfg.json";
  let genericReport := dfg_verify dfg in
  _ ← write "01_generic_dfg_verification.json";
  _ ← check (report_ok genericReport) CGenericDFGVerificationFailure;
  legalization ← phase (legalize dfg target);
  _ ← write "02_legalization.json";
  _ ← check (tlr_ok legalization) CTargetLegalizationFailure;
  targetDFG ← defined (tlr_dfg legalization);
  _ ← write "03_target_dfg.json";
  targetReport ← phase (tdfg_verify targetDFG target (Some dfg));
  _ ← write "04_target_dfg_verification.json";
  _ ← check (clean targetReport) CTargetDFGVerificationFailure;
  mret targetDFG.

(** Analysis and mapping. *)
Definition mapping_phases (targetDFG : TargetDFG) : pipe ModuloMapping :=
  mii ← phase (analyze targetDFG target);
  _ ← write "05_mii.json";
  _ ← check (mii_ok mii) CMIIAnalysisFailure;
  _ ← count_stats (set_mii (mr_mii mii));
  mapped ← phase_ends (map targetDFG target mapper_options);
  _ ← write "06_mapper_report.json";
  _ ← count_stats (set_mapper_stats (mpr_stats mapped));
  mapping ← check_value (if mapper_ok mapped then mpr_mapping mapped else None) CMappingFailure;
  _ ← count_stats (set_mappedII (mm_ii mapping));
  _ ← write "07_modulo_mapping.json";
  mappingReport ← phase (mmv_verify targetDFG target mapping);
  _ ← write "08_modulo_mapping_verification.json";
  _ ← check (clean mappingReport) CModuloMappingVerificationFailure;
  mret mapping.

(** Stages and registers. *)
Definition storage_phases (targetDFG : TargetDFG) (mapping : ModuloMapping) : pipe RFAllocatedMapping :=
  stageResult ← phase (schedule targetDFG target mapping);
  _ ← write "09_stage_report.json";
  staged ← check_value (staged_of stageResult) CStageSchedulingFailure;
  _ ← count_stats (set_maxStage (sm_maxStage staged));
  _ ← write "10_staged_mapping.json";
  stageReport ← phase (sav_verify targetDFG target staged);
  _ ← write "11_stage_verification.json";
  _ ← check (clean stageReport) CStageVerificationFailure;
  rf ← phase (allocate targetDFG target staged (co_rfAllocation options));
  _ ← write "12_rf_report.json";
  allocated ← check_value (allocated_of rf) CRFAllocationFailure;
  _ ← count_stats (set_storageSegments (Z.of_nat (length (rq_segments (ra_requirements allocated)))));
  _ ← write "13_rf_allocated_mapping.json";
  rfReport ← phase (rf_verify targetDFG target allocated);
  _ ← write "14_rf_verification.json";
  _ ← check (clean rfReport) CRFVerificationFailure;
  mret allocated.

Definition materialization_request : ScheduleMaterializationRequest :=
  mkMatRequest (co_tripCount options) (co_materializationBudget options).

(** The finite schedule. *)
Definition schedule_phases (targetDFG : TargetDFG) (allocated : RFAllocatedMapping)
  : pipe MaterializedSchedule :=
  materialized ← phase_ends (schedule_materialize targetDFG target allocated materialization_request);
  _ ← write "15_materialization_report.json";
  schedule ← check_value (if mtr_ok materialized then mtr_schedule materialized else None)
               CMaterializationFailure;
  _ ← count_stats (set_phase_stats schedule);
  _ ← write "16_materialized_schedule.json";
  materializedReport ← phase (msv_verify targetDFG target allocated materialization_request schedule);
  _ ← write "17_materialization_verification.json";
  _ ← check (clean materializedReport) CMaterializedScheduleVerificationFailure;
  mret schedule.

(** The control program. *)
Definition lowering_phases (targetDFG : TargetDFG) (allocated : RFAllocatedMapping)
    (schedule : MaterializedSchedule) : pipe TargetLoweringResult :=
  lowered ← defined (target_lower targetDFG target allocated schedule lowering_options);
  _ ← check (lowering_ok lowered) CTargetLoweringFailure;
  controls ← defined (tlr_controls lowered);
  controlVerification ← phase_low (program_verify targetDFG target allocated schedule controls);
  _ ← write "18_target_controls.json";
  _ ← write "19_target_control_verification.json";
  _ ← check controlVerification CTargetControlVerificationFailure;
  _ ← defined (tlr_manifest lowered);
  _ ← write "20_program_manifest.json";
  _ ← write "21_lowering_report.json";
  mret lowered.

Definition succeeded (manifest : option ProgramManifest) (r : CompileDFGResult) : CompileDFGResult :=
  mkCompileResult CSuccess manifest (cr_stats r) (cr_artifacts r).

(** The body of the [try] block. *)
Definition compile_phases : pipe unit :=
  targetDFG ← front_phases;
  mapping ← mapping_phases targetDFG;
  allocated ← storage_phases targetDFG mapping;
  schedule ← schedule_phases targetDFG allocated;
  lowered ← lowering_phases targetDFG allocated schedule;
  _ ← update_result (succeeded (tlr_manifest lowered));
  write report_name.

(** The [catch] block. *)
Definition recover (st : PipeState) : CompileDFGResult :=
  match (update_result (set_status CInternalError) ≫= fun _ =>
         open_artifacts 1 ≫= fun _ => write report_name) st with
  | PDone _ st | PReturned st => run_result st
  | PRaised st => set_status CArtifactFailure (run_result st)
  | PUndefined => set_status CArtifactFailure (run_result st)
  end.

Definition compileGenericDFG : option CompileDFGResult :=
  match compile_phases (mkPipeState initial_result 0) with
  | PDone _ st | PReturned st => Some (run_result st)
  | PRaised st => Some (recover st)
  | PUndefined => None
  end.
End Driver.
