(* ===== verification/BackendFeasibility.v ===== *)
(** * The back end's check of a complete mapping

    What [backend_check], the completion checker that the pipeline gives to the
    mapper, answers: for a mapping the mapper completes it always answers; it accepts
    exactly when stages and registers exist within the allocator's budget, its
    rejections are impossibilities, and the one abort is that budget. *)
From stdpp Require Import base numbers list gmap sorting strings.
From S2P Require Import Prelude.
From S2P Require Import IR.
From S2P Require Import TargetModel.
From S2P Require Import CgraV2.
From S2P Require Import TargetDFG.
From S2P Require Import TargetDFGVerifier.
From S2P Require Import ModuloResources.
From S2P Require Import ModuloMapping.
From S2P Require Import MappingVerifier.
From S2P Require Import MIIAnalyzer.
From S2P Require Import ModuloMapper.
From S2P Require Import ModuloMapperCorrect.
From S2P Require Import StageScheduler.
From S2P Require Import StorageRequirements.
From S2P Require Import RFAllocation.
From S2P Require Import Coloring.
From S2P Require Import RFAllocator.
From S2P Require Import RFAllocatorExact.
From S2P Require Import MaterializeSpec.
From S2P Require Import Pipeline.

(** ** How many segments a mapping can need *)

Lemma StronglySorted_either {A} (R : A -> A -> Prop) l x y :
  StronglySorted R l -> x ∈ l -> y ∈ l -> x = y \/ R x y \/ R y x.
Proof.
  induction 1 as [|z l _ IH Hall]; [by intros ?%not_elem_of_nil|]. rewrite Forall_forall in Hall.
  intros [->|Hx]%elem_of_cons [->|Hy]%elem_of_cons; auto.
Qed.

(** Elements whose keys come from [ids], at most [n] for each. *)
Lemma length_by_key {A} (key : A -> Z) (l : list A) ids n :
  (forall x, x ∈ l -> key x ∈ ids) ->
  (forall id, id ∈ ids -> (length (filter (fun x => key x = id) l) <= n)%nat) ->
  (length l <= length ids * n)%nat.
Proof.
  revert l. induction ids as [|id ids IH]; intros l Hin Hn.
  { destruct l as [|x l]; [simpl; lia|]. specialize (Hin x ltac:(left)). by apply not_elem_of_nil in Hin. }
  assert (Hsplit : length l = (length (filter (fun x => key x = id) l) +
    length (filter (fun x => key x <> id) l))%nat).
  { clear. induction l as [|x l IH]; [done|]. rewrite !filter_cons.
    destruct (decide (key x = id)); [rewrite decide_False by auto|rewrite decide_True by auto]; simpl; lia. }
  pose proof (Hn id ltac:(left)) as Hid.
  assert (Hrest : (length (filter (fun x => key x <> id) l) <= length ids * n)%nat).
  { apply IH.
    - intros x [Hne Hx]%list_elem_of_filter. apply Hin in Hx as [E|?]%elem_of_cons; done.
    - intros id' Hid'. etrans; [|apply (Hn id'); by right]. rewrite list_filter_filter.
      clear. induction l as [|x l IH]; [done|]. rewrite !filter_cons.
      destruct (decide (key x = id' /\ key x <> id)) as [[? ?]|]; [rewrite decide_True by done; simpl; lia|].
      destruct (decide (key x = id')); simpl; lia. }
  simpl. lia.
Qed.

Section Segments.
Context (hop edge : Z) (T : EdgeTiming) (segments : list StorageSegment).
Context (Hst : edge_storage hop edge T segments).

(** Only the last segment of an edge can begin after its transport. *)
Lemma before_arrival s s' : s ∈ segments -> s' ∈ segments -> before s s' -> sg_writeTime s < et_arrival T.
Proof using Hst.
  intros Hs Hs' Hb. unfold before in Hb.
  destruct (es_attributes _ _ _ _ Hst s Hs) as (_ & _ & Hw & _).
  destruct (es_attributes _ _ _ _ Hst s' Hs') as (_ & _ & Hw' & Hr').
  destruct (Z.lt_ge_cases (sg_writeTime s) (et_arrival T)) as [|Hge]; [done|exfalso].
  destruct (proj2 (es_stored _ _ _ _ Hst (et_destination T) (sg_readTime s))) as (c & Hc & _ & Hin).
  { right. split; [done|lia]. }
  destruct (es_attributes _ _ _ _ Hst c Hc) as (_ & _ & Hwc & _).
  destruct (StronglySorted_either before segments s c (es_sorted _ _ _ _ Hst) Hs Hc)
    as [->|[?|?]]; unfold before in *; lia.
Qed.

Lemma edge_segment_count : et_ready T <= et_arrival T ->
  Z.of_nat (length segments) <= et_arrival T - et_ready T + 1.
Proof using Hst.
  intros Hle. pose proof (es_sorted _ _ _ _ Hst) as Hsorted.
  assert (Hlow : forall s, s ∈ segments -> et_ready T <= sg_writeTime s < sg_readTime s).
  { intros s Hs. by destruct (es_attributes _ _ _ _ Hst s Hs) as (_ & _ & ? & _). }
  assert (Hlast : forall s s', s ∈ segments -> s' ∈ segments -> before s s' -> sg_writeTime s < et_arrival T)
    by apply before_arrival.
  revert Hle Hlow Hlast. generalize (et_ready T) (et_arrival T). clear Hst. intros lo hi. revert lo.
  induction Hsorted as [|s l _ IH Hall]; intros lo Hle Hlow Hlast; simpl; [lia|].
  destruct l as [|s' l]; [simpl; lia|]. rewrite Forall_forall in Hall.
  pose proof (Hlast s s' ltac:(by left) ltac:(right; left) (Hall s' ltac:(left))).
  pose proof (Hlow s ltac:(left)).
  assert (Z.of_nat (length (s' :: l)) <= hi - (sg_writeTime s + 1) + 1); [|simpl in *; lia].
  apply IH; [lia| |].
  - intros x Hx. pose proof (Hall x Hx) as Hb. unfold before in Hb.
    pose proof (Hlow x ltac:(by right)). lia.
  - intros x y Hx Hy. apply Hlast; by right.
Qed.
End Segments.

(** ** The answers of the check *)

(** A mapping completed at [ii] has few enough segments for 32-bit identifiers, and
    its stages stay representable. *)
Record back_end_fits (dfg : TargetDFG) (target : TargetModel) (ii : Z) : Prop := {
  bf_stages : ii <= 2147483648 /\
    Z.of_nat (1 + length (td_nodes dfg)) * Z.of_nat (length (td_edges dfg)) <= 268435456;
  bf_segments : Z.of_nat (length (td_edges dfg)) * (longest_transport target ii + 1) <= u32_max + 1
}.

(** Every tile has usable register files of both domains. *)
Definition banks_everywhere (target : TargetModel) : Prop := forall domain tile,
  tile_inside (arr_rows (tm_array target)) (arr_cols (tm_array target)) tile ->
  bank_usable target domain tile.

(** A route from the array stays in it. *)
Lemma route_inside target (Htwf : TargetModel_wf target) hop domain tile elapsed actions tile' elapsed' :
  let inside := tile_inside (arr_rows (tm_array target)) (arr_cols (tm_array target)) in
  route target hop domain tile elapsed actions tile' elapsed' -> inside tile ->
  (forall domain at_ t t', VirtualHold domain at_ t t' ∈ actions -> inside at_) /\ inside tile'.
Proof.
  intros inside. induction 1 as [|tile elapsed direction next actions tile' elapsed' [_ Hn] _ IH
    |tile elapsed release actions tile' elapsed' _ _ IH]; intros Ht.
  - split; [|done]. by intros ???? ?%not_elem_of_nil.
  - apply neighbor_Some in Hn as [-> Hn]; [|apply Htwf..|done]. destruct (IH Hn) as [H1 H2].
    split; [|done]. intros d a t t' [E|Hin]%elem_of_cons; [done|by eapply H1].
  - destruct (IH Ht) as [H1 H2]. split; [|done].
    intros d a t t' [[= -> -> -> ->]|Hin]%elem_of_cons; [done|by eapply H1].
Qed.

Section Check.
Context (dfg : TargetDFG) (target : TargetModel) (budget : RFAllocationBudget).
Context (Hinv : TargetDFG_inv dfg) (Htwf : TargetModel_wf target) (Htyped : typed_graph dfg).
Context (Hrf : register_files_wf target).
Context (m : ModuloMapping) (Hm : completed_mapping dfg target m).
Context (Hfits : back_end_fits dfg target (mm_ii m)).

Lemma completed_valid_mapping : valid_mapping dfg target m.
Proof using Hinv Htwf Hm. destruct Hm. by apply mmv_verify_sound. Qed.

Section Staged.
Context (staged : StagedMapping) (Hmodulo : sm_modulo staged = m) (Hst : typed_staged staged).
Context (Hsav : sav_verify dfg target staged = Ok []).

Lemma completed_few_segments : few_segments dfg target staged.
Proof using All.
  intros r q Hr Hq.
  assert (Hu : universe_fits target (mm_ii (sm_modulo staged))) by (rewrite Hmodulo; apply Hm).
  destruct (storage_analyze_clean dfg target staged Hinv Htwf Htyped Hst Hu Hsav) as (r' & Hr' & Hex).
  rewrite Hr in Hr'. injection Hr' as <-. unfold storage_exact, rr_ok in *.
  destruct (rr_status r); try done. destruct Hex as (_ & q' & Hq' & Hreq). rewrite Hq in Hq'. injection Hq' as <-.
  destruct Hreq as (_ & _ & Hedge & Hstore & _).
  destruct (sav_verify_clean dfg target staged Hinv Htwf Htyped Hst Hu Hsav) as [Hvm Htimes].
  set (n := nat_of (longest_transport target (mm_ii m) + 1)).
  assert (Hcount : (length (rq_segments q) <= length (te_id <$> td_edges dfg) * n)%nat).
  { apply (length_by_key sg_edge).
    - intros s Hs. destruct (Hedge s Hs) as (edge & He & _ & ->). by apply list_elem_of_fmap_2.
    - intros id (edge & -> & He)%list_elem_of_fmap.
      destruct (decide (TargetEdge_kind edge = EKMemory)) as [Hk|Hk].
      { destruct (filter _ (rq_segments q)) as [|s l] eqn:Ef; [simpl; lia|]. exfalso.
        assert (Hs : s ∈ filter (fun s => sg_edge s = te_id edge) (rq_segments q)) by (rewrite Ef; left).
        apply list_elem_of_filter in Hs as [Es Hs]. destruct (Hedge s Hs) as (edge' & He' & Hk' & Es').
        by assert (edge' = edge) as -> by (apply (edge_unique dfg Hinv); congruence). }
      destruct (Hstore edge He Hk) as (T & HT & Hes).
      destruct (value_edge_timing dfg target staged Hinv Htwf Hvm Htimes edge He Hk)
        as (issue & consumer & d & plan & p & ready & src & Htd & _ & _ & _ & Hready & ET & Hroute).
      apply (route_time target _ ltac:(by destruct (wf_hopLatency target Htwf))) in Hroute.
      rewrite ET in HT. injection HT as <-. cbn [et_ready et_arrival] in *.
      pose proof (edge_segment_count _ _ _ _ Hes) as Hc. cbn [et_ready et_arrival] in Hc.
      destruct Htd as (_ & _ & Hd & _). rewrite Hmodulo in *.
      unfold edge_timing in ET. inv_ok. subst.
      pose proof (cm_short _ _ _ Hm edge d v4 v5 He Hk Hd Hv4 Hv5) as Hshort. lia. }
  rewrite length_fmap in Hcount. pose proof (bf_segments _ _ _ Hfits) as Hb. unfold n in Hcount.
  assert (0 <= longest_transport target (mm_ii m)).
  { unfold longest_transport. pose proof (wf_rows target Htwf). pose proof (wf_cols target Htwf).
    pose proof (wf_hopLatency target Htwf). pose proof (proj1 (cm_typed _ _ _ Hm)) as [Hii _].
    apply Z.mul_nonneg_nonneg; [|lia]. apply Z.add_nonneg_nonneg; [|done].
    apply Z.mul_nonneg_nonneg; [nia|done]. }
  apply Nat2Z.inj_le in Hcount. rewrite Nat2Z.inj_mul, Z2Nat.id in Hcount by lia. lia.
Qed.

End Staged.

(** What a successful allocation comes with. *)
Lemma allocate_success staged r allocated :
  allocate dfg target staged budget = Ok r -> al_mapping r = Some allocated ->
  exists q allocations, RFAllocatedMapping_new staged q allocations = Ok allocated /\
    rf_verify dfg target allocated = Ok [].
Proof using Type.
  unfold allocate. intros H Hs. inv_ok. destruct (negb _); [by injection H as <-|].
  inv_ok. destruct (rr_ok v0) as [q|] eqn:Eq; [|by injection H as <-].
  unfold allocate_requirements in H. destruct (group_segments _ _ _ _ _) as [stop|[banks groups]];
    [by injection H as <-|]. inv_ok. destruct v1 as [[maxReads maxWrites] [stop|]]; [by simplify_eq|].
  inv_ok. destruct v1 as [[[st edges] maxRegisters] [stop|]]; [by simplify_eq|]. inv_ok.
  subst. destruct v2 as [stop|allocated']; [done|]. simpl in Hs. injection Hs as ->.
  unfold finish in Hv4.
  apply bind_Ok in Hv4 as (readEvents & _ & Hv4). apply bind_Ok in Hv4 as (writeEvents & _ & Hv4).
  apply bind_Ok in Hv4 as ([l [stop|]] & _ & Hv4); [done|].
  apply bind_Ok in Hv4 as ([l' [stop|]] & _ & Hv4); [done|].
  apply bind_Ok in Hv4 as (boundaryEvents & _ & Hv4).
  apply bind_Ok in Hv4 as ([l'' [stop|]] & _ & Hv4); [done|].
  apply bind_Ok in Hv4 as ([reads writes] & _ & Hv4).
  destruct (event_failure _ _ _); [done|].
  destruct (RFAllocatedMapping_new staged q l'') as [built|] eqn:Eb; simpl in Hv4; [|done].
  destruct (rf_verify dfg target built) as [[|]|] eqn:Ev; simpl in Hv4; try done.
  injection Hv4 as ->. by exists q, l''.
Qed.

(** *** Stages *)

(** The stages the scheduler gives [m]: the least ones, verified. *)
Record staged_exactly (staged : StagedMapping) : Prop := {
  sx_modulo : sm_modulo staged = m;
  sx_typed : typed_staged staged;
  sx_verified : sav_verify dfg target staged = Ok [];
  sx_least : exists stage_of, least_stages dfg m stage_of /\
    forall node, node ∈ td_nodes dfg -> stage staged (tn_id node) = Ok (stage_of (tn_id node))
}.

Lemma schedule_staged : exists r, schedule dfg target m = Ok r /\
  match staged_of r with
  | Some staged => staged_exactly staged
  | None => sr_status r = StageInfeasibleStageConstraints /\ forall stage_of, ~ stages_meet dfg m stage_of
  end.
Proof using Hinv Htwf Htyped Hm Hfits.
  pose proof completed_valid_mapping as Hvm. destruct Hm as [Hmt Hmd _ _ Hmu Hmv].
  pose proof (bf_stages _ _ _ Hfits) as Hsize.
  destruct (schedule_valid_exact dfg target m) as (r & -> & Hr); try done. exists r. split; [done|]. unfold scheduling_exact, staged_of in *.
  destruct (sr_status r); try done.
  - destruct Hr as (_ & staged & stage_of & -> & E & Hleast & Hstage & Hsav & Hnn). split; try done.
    + rewrite <- E in Hmt, Hmd. done.
    + exists stage_of. split; [done|]. intros node Hn. by apply Hstage.
  - destruct Hr. split; apply Hvm.
  - by destruct Hr as [_ Hr].
Qed.

(** *** Registers *)

Context (Hbanks : banks_everywhere target).

(** An allocation of [staged] that its verifier accepts. *)
Record allocated_exactly (staged : StagedMapping) (allocated : RFAllocatedMapping) : Prop := {
  ax_complete : complete_allocation dfg target staged allocated;
  ax_sorted : sorted_allocations allocated;
  ax_fit : segments_fit allocated;
  ax_verified : rf_verify dfg target allocated = Ok []
}.

(** No value waits where no register file could take it. *)
Lemma waits_at_bank staged : sm_modulo staged = m -> typed_staged staged ->
  sav_verify dfg target staged = Ok [] -> ~ value_without_bank dfg target staged.
Proof using Hinv Htwf Htyped Hm Hbanks.
  intros E Hst Hsav (edge & T & tile & t & He & Hk & HT & Hw & Hno).
  assert (Hu : universe_fits target (mm_ii (sm_modulo staged))) by (rewrite E; apply Hm).
  destruct (sav_verify_clean dfg target staged Hinv Htwf Htyped Hst Hu Hsav) as [Hvm Htimes].
  destruct (value_edge_timing dfg target staged Hinv Htwf Hvm Htimes edge He Hk)
    as (issue & consumer & d & plan & p & ready & src & _ & _ & Hsrc & _ & _ & ET & Hroute).
  rewrite ET in HT. injection HT as <-.
  assert (Hins : tile_inside (arr_rows (tm_array target)) (arr_cols (tm_array target)) (np_tile src)).
  { destruct (inv_endpoints dfg Hinv edge He) as [Hs _].
    apply (indexed_contains tn_id _ _ _ (inv_nodes dfg Hinv)) in Hs as (n & Hn & En).
    destruct (vm_nodes _ _ _ Hvm n Hn) as (q & Hq%placed_placement & Hv & _).
    rewrite En, Hsrc in Hq. by injection Hq as <-. }
  destruct (route_inside target Htwf _ _ _ _ _ _ _ Hroute Hins) as [Hholds Hdst].
  apply Hno, Hbanks. destruct Hw as [(domain & capture & release & Hin & _)|[-> _]]; [|done].
  by eapply Hholds.
Qed.

Lemma allocate_allocated staged : staged_exactly staged ->
  exists r, allocate dfg target staged budget = Ok r /\
  match allocated_of r with
  | Some allocated => allocated_exactly staged allocated /\ allocation_decision (al_status r) = None
  | None =>
      (allocation_decision (al_status r) = Some (mkCheckResult Reject "rf_infeasible") /\
       forall allocated, ~ complete_allocation dfg target staged allocated) \/
      (allocation_decision (al_status r) = Some (mkCheckResult Abort "budget_rf") /\
       (bg_maxColoringDecisions budget <= as_coloringDecisions (al_stats r) \/
        bg_maxColoringBacktracks budget <= as_coloringBacktracks (al_stats r)))
  end.
Proof using All.
  intros [E Hst Hsav _].
  assert (Hu : universe_fits target (mm_ii (sm_modulo staged))) by (rewrite E; apply Hm).
  pose proof (completed_few_segments staged E Hst Hsav) as Hfew.
  destruct (allocate_spec dfg target staged budget [] Hinv Htwf Hrf Htyped Hst Hu Hfew Hsav) as (r & Hr & Hex).
  exists r. split; [done|]. unfold allocation_exact, allocated_of in *.
  destruct (al_status r); simpl; try done; try by left.
  - destruct Hex as (allocated & Ea & Hc). rewrite Ea.
    destruct (allocate_success staged r allocated Hr Ea) as (q & allocations & Hnew & Hv).
    split; [|done]. split; [done|by eapply RFAllocatedMapping_new_sorted| |done].
    apply rf_verify_report in Hv as (_ & (rq & Hrq & Hq) & _).
    rewrite (ca_staged _ _ _ _ Hc) in Hrq. by apply (Hfew rq).
  - destruct Hex. eapply (tdfg_verify_clean dfg target None Hinv).
    pose proof Hsav as H'. unfold sav_verify in H'. inv_ok. by case_bool_decide; [subst|].
  - by destruct (waits_at_bank staged E Hst Hsav).
  - right. done.
Qed.

(** *** The check *)

(** What the answer [r] says of the mapping. *)
Definition back_end_answer (r : CompleteMappingCheckResult) : Prop :=
  match cc_decision r with
  | Accept => exists sr staged ar allocated,
      schedule dfg target m = Ok sr /\ staged_of sr = Some staged /\ staged_exactly staged /\
      allocate dfg target staged budget = Ok ar /\ allocated_of ar = Some allocated /\
      allocated_exactly staged allocated
  | Reject =>
      (cc_reasonCode r = "stage_infeasible"%string /\ forall stage_of, ~ stages_meet dfg m stage_of) \/
      (cc_reasonCode r = "rf_infeasible"%string /\ exists staged, staged_exactly staged /\
         forall allocated, ~ complete_allocation dfg target staged allocated)
  | Abort => cc_reasonCode r = "budget_rf"%string /\ exists staged ar, staged_exactly staged /\
      allocate dfg target staged budget = Ok ar /\
      (bg_maxColoringDecisions budget <= as_coloringDecisions (al_stats ar) \/
       bg_maxColoringBacktracks budget <= as_coloringBacktracks (al_stats ar))
  end.

Lemma backend_check_spec : exists r, backend_check budget dfg target m = Ok r /\ back_end_answer r.
Proof using All.
  unfold backend_check. destruct schedule_staged as (sr & Hsr & Hs). rewrite Hsr. cbn [mbind result_bind].
  destruct (staged_of sr) as [staged|] eqn:Es.
  2: { destruct Hs as [-> Hs]. eexists. split; [done|]. left. done. }
  rewrite (sx_verified _ Hs). cbn [mbind result_bind]. rewrite bool_decide_eq_true_2 by done. cbn [negb].
  destruct (allocate_allocated staged Hs) as (ar & Har & Ha). rewrite Har. cbn [mbind result_bind].
  destruct (allocated_of ar) as [allocated|] eqn:Ea.
  - destruct Ha as [Ha Hd]. rewrite Hd.
    assert (Em : al_mapping ar = Some allocated).
    { unfold allocated_of in Ea. by destruct (al_status ar). }
    rewrite Em. cbn [of_option mbind result_bind]. rewrite (ax_verified _ _ Ha). cbn [mbind result_bind].
    rewrite bool_decide_eq_true_2 by done. eexists. split; [done|]. by exists sr, staged, ar, allocated.
  - destruct Ha as [[-> Ha]|[-> Ha]]; eexists; (split; [done|]).
    + right. split; [done|]. by exists staged.
    + split; [done|]. by exists staged, ar.
Qed.
End Check.


(** *** The accumulation kernel *)

Lemma cgra_v2_banks : banks_everywhere cgra_v2.
Proof.
  assert (H : Forall (fun domain => Forall (fun row => Forall (fun col =>
      match registerBank cgra_v2 domain row col with
      | Some bank => negb (bool_decide (rf_allocatableIndices bank = [])) && negb (rf_depth bank =? 0) &&
          negb (rf_readPorts bank =? 0) && negb (rf_writePorts bank =? 0) = true
      | None => False
      end) (range (arr_cols (tm_array cgra_v2)))) (range (arr_rows (tm_array cgra_v2))))
    [BankData; BankPredicate]).
  { vm_compute. repeat constructor. }
  intros domain [row col] [Hr Hc]. rewrite Forall_forall in H. cbn [tile_row tile_col] in *.
  specialize (H domain). rewrite Forall_forall in H.
  specialize (H ltac:(destruct domain; set_solver) row ltac:(by apply elem_of_range)).
  rewrite Forall_forall in H. specialize (H col ltac:(by apply elem_of_range)).
  unfold bank_usable. cbn [tile_row tile_col].
  destruct (registerBank cgra_v2 domain row col) as [bank|]; [|done]. exists bank. bool_hyps.
  split; [done|]. split_and!; [intros E; by rewrite E in *|lia..].
Qed.

(** Whether the transports of [m] are short. *)
Definition short_transports_b (dfg : TargetDFG) (target : TargetModel) (m : ModuloMapping) : bool :=
  forallb (fun edge =>
    match dependence m (te_id edge), td_node dfg (te_src edge) with
    | Ok d, Ok producer =>
        match tn_producerOutputReadyOffset producer with
        | Some ready => md_requiredSeparationCycles d <=? ready + longest_transport target (mm_ii m)
        | None => true
        end
    | _, _ => true
    end) (td_edges dfg).

Lemma short_transports_b_sound dfg target m :
  short_transports_b dfg target m = true -> short_transports dfg target m.
Proof.
  intros H edge d producer ready He _ Hd Hp Hr. unfold short_transports_b in H.
  rewrite forallb_forall in H. specialize (H edge (proj1 (list_elem_of_In _ _) He)).
  rewrite Hd, Hp, Hr in H. lia.
Qed.

Lemma v2_staged_mapping_completed : completed_mapping v2_accumulate cgra_v2 v2_staged_mapping.
Proof.
  split.
  - exact v2_staged_mapping_typed.
  - exact v2_staged_mapping_dependences.
  - apply short_transports_b_sound. vm_compute. reflexivity.
  - apply (build_mapping_spec v2_accumulate 5 v2_staged_mapping_calls). vm_compute. reflexivity.
  - vm_compute. congruence.
  - vm_compute. reflexivity.
Qed.


(** The running sum waits a whole interval at its tile, where no register can keep it;
    sent around the neighbour it fits. *)
Example v2_backend_rejects :
  backend_check v2_budget v2_accumulate cgra_v2 v2_staged_mapping = Ok (mkCheckResult Reject "rf_infeasible").
Proof. vm_compute. reflexivity. Qed.

Example v2_backend_accepts :
  backend_check v2_budget v2_accumulate cgra_v2 v2_routed_mapping = Ok (mkCheckResult Accept "").
Proof. vm_compute. reflexivity. Qed.

Example v2_backend_gives_up :
  backend_check (mkBudget 0 0) v2_accumulate cgra_v2 v2_routed_mapping = Ok (mkCheckResult Abort "budget_rf").
Proof. vm_compute. reflexivity. Qed.

Example v2_backend_no_stages :
  backend_check v2_budget v2_accumulate cgra_v2 v2_accumulate_mapping = Ok (mkCheckResult Reject "stage_infeasible").
Proof. vm_compute. reflexivity. Qed.
