(* ===== verification/PipelineCorrect.v ===== *)
(** * The pipeline is correct

    Every run of [compileGenericDFG] ends with a result; what each status means; and
    what a successful compilation has produced, from the source graph to the words in
    the control memories. *)
From stdpp Require Import base numbers list gmap sorting strings.
From S2P Require Import Prelude.
From S2P Require Import IR.
From S2P Require Import DFG.
From S2P Require Import DFGVerifier.
From S2P Require Import TargetModel.
From S2P Require Import CgraV2.
From S2P Require Import TargetDFG.
From S2P Require Import TargetDFGVerifier.
From S2P Require Import TargetLegalizer.
From S2P Require Import ModuloResources.
From S2P Require Import ModuloMapping.
From S2P Require Import MappingVerifier.
From S2P Require Import MIIAnalyzer.
From S2P Require Import RouteSearch.
From S2P Require Import ModuloMapper.
From S2P Require Import ModuloMapperCorrect.
From S2P Require Import ModuloMapperSound.
From S2P Require Import StageScheduler.
From S2P Require Import StorageRequirements.
From S2P Require Import RFAllocation.
From S2P Require Import Coloring.
From S2P Require Import RFAllocator.
From S2P Require Import RFAllocatorExact.
From S2P Require Import MaterializedSchedule.
From S2P Require Import MaterializedVerifier.
From S2P Require Import ScheduleMaterializer.
From S2P Require Import MaterializeSpec.
From S2P Require Import MaterializedVerifierSound.
From S2P Require Import MaterializedExact.
From S2P Require Import MaterializerSound.
From S2P Require Import ControlLayout.
From S2P Require Import ConstantAllocator.
From S2P Require Import TargetLowering.
From S2P Require Import ControlOverlay.
From S2P Require Import TargetLoweringSpec.
From S2P Require Import TargetLoweringExact.
From S2P Require Import TargetLoweringSafe.
From S2P Require Import Pipeline.
From S2P Require Import BackendFeasibility.

(** ** Runs that end

    A run from a result ends: it goes on with a value and a result that satisfy [Q],
    returns one that satisfies [R], or throws because the environment failed. *)

(** No operation of the environment fails. *)
Definition reliable (env : Environment) : Prop :=
  (forall name, env_render env name = true) /\
  (env_directory env = true -> (forall n, env_create env n = true) /\
     forall n name, env_store env n name = true).

Section Ends.
Context (env : Environment).

Definition ends {A} (m : pipe A) (Q : A -> CompileDFGResult -> Prop) (R : CompileDFGResult -> Prop)
    (r : CompileDFGResult) : Prop :=
  forall n, match m (mkPipeState r n) with
            | PDone a st => Q a (run_result st)
            | PReturned st => R (run_result st)
            | PRaised _ => ~ reliable env
            | PUndefined => False
            end.

(** A result after the file [name] was written, and after a phase failed. *)
Definition wrote (name : string) (r : CompileDFGResult) : CompileDFGResult :=
  if env_directory env then push_artifact name r else r.
Definition failed (status : CompileDFGStatus) (r : CompileDFGResult) : CompileDFGResult :=
  wrote report_name (set_status status r).

Lemma ends_bind {A B} (m : pipe A) (f : A -> pipe B) Q R r :
  ends m (fun a r => ends (f a) Q R r) R r -> ends (m ≫= f) Q R r.
Proof.
  intros H n. specialize (H n). unfold mbind, pipe_bind. destruct (m _) as [a [r' n']|st|st|]; try done. apply H.
Qed.

Lemma ends_mono {A} (m : pipe A) (Q Q' : A -> CompileDFGResult -> Prop) (R R' : CompileDFGResult -> Prop) r :
  (forall a r, Q a r -> Q' a r) -> (forall r, R r -> R' r) -> ends m Q R r -> ends m Q' R' r.
Proof. intros HQ HR H n. specialize (H n). destruct (m _); auto. Qed.

Lemma ends_ret {A} (a : A) Q R r : Q a r -> ends (mret a) Q R r.
Proof. by intros H n. Qed.

Lemma ends_update f Q R r : Q tt (f r) -> ends (update_result f) Q R r.
Proof. by intros H n. Qed.

Lemma ends_open k Q R r : Q tt r -> ends (open_artifacts env k) Q R r.
Proof.
  intros H n. unfold open_artifacts. destruct (env_directory env) eqn:Ed; simpl; [|done].
  destruct (env_create env k) eqn:Ec; [done|]. intros [_ Hr]. destruct (Hr Ed) as [Hc _].
  by rewrite Hc in Ec.
Qed.

Lemma ends_write name Q R r : Q tt (wrote name r) -> ends (write env name) Q R r.
Proof.
  intros H n. unfold write, wrote in *. destruct (env_render env name) eqn:Er; simpl.
  2: { intros [Hr _]. by rewrite Hr in Er. }
  destruct (env_directory env) eqn:Ed; simpl; [|done].
  destruct (env_store env n name) eqn:Es; [done|]. intros [_ Hr]. destruct (Hr Ed) as [_ Hs].
  by rewrite Hs in Es.
Qed.

Lemma ends_failure {A} status (Q : A -> CompileDFGResult -> Prop) R r : R (failed status r) -> ends (failure env status) Q R r.
Proof.
  intros H n. unfold failure.
  pose proof (ends_bind (update_result (set_status status)) (fun _ => write env report_name)
    (fun _ r => R r) R r) as Hb. specialize (Hb ltac:(by apply ends_update, ends_write) n).
  match type of Hb with match ?x with _ => _ end => by destruct x end.
Qed.

Lemma ends_check ok status Q R r :
  (ok = true -> Q tt r) -> (ok = false -> R (failed status r)) -> ends (check env ok status) Q R r.
Proof. intros H1 H2. destruct ok; [by apply ends_ret, H1|by apply ends_failure, H2]. Qed.

Lemma ends_check_value {A} (o : option A) status Q R r :
  (forall a, o = Some a -> Q a r) -> (o = None -> R (failed status r)) -> ends (check_value env o status) Q R r.
Proof. intros H1 H2. destruct o; [by apply ends_ret, H1|by apply ends_failure, H2]. Qed.

Lemma ends_phase {A} (x : result A) a Q R r : x = Ok a -> Q a r -> ends (phase x) Q R r.
Proof. by intros -> H n. Qed.

Lemma ends_phase_ends {A} (x : result (option A)) a Q R r : x = Ok (Some a) -> Q a r -> ends (phase_ends x) Q R r.
Proof. by intros -> H n. Qed.

Lemma ends_phase_low {A} (x : low A) a Q R r : x = LowOk a -> Q a r -> ends (phase_low x) Q R r.
Proof. by intros -> H n. Qed.

Lemma ends_defined {A} (o : option A) a Q R r : o = Some a -> Q a r -> ends (defined o) Q R r.
Proof. by intros -> H n. Qed.
End Ends.

(** ** What a compilation takes and produces *)

(** The files of a compilation, in order. *)
Definition artifact_names : list string := [
  "00_input.generic_dfg.json"; "01_generic_dfg_verification.json"; "02_legalization.json";
  "03_target_dfg.json"; "04_target_dfg_verification.json"; "05_mii.json"; "06_mapper_report.json";
  "07_modulo_mapping.json"; "08_modulo_mapping_verification.json"; "09_stage_report.json";
  "10_staged_mapping.json"; "11_stage_verification.json"; "12_rf_report.json";
  "13_rf_allocated_mapping.json"; "14_rf_verification.json"; "15_materialization_report.json";
  "16_materialized_schedule.json"; "17_materialization_verification.json"; "18_target_controls.json";
  "19_target_control_verification.json"; "20_program_manifest.json"; "21_lowering_report.json"].

(** Sizes of the target graph that keep every 32- and 64-bit quantity in range. *)
Definition graph_fits (t : TargetDFG) (target : TargetModel) (options : CompileDFGOptions) : Prop :=
  window_fits t target (mapper_options options) /\
  forall r ii, analyze t target = Ok r ->
    first_ii (mapper_options options) (mr_mii r) <= ii <= last_ii (mapper_options options) (mr_mii r) ->
    back_end_fits t target ii.

(** A loaded target, typed options and a graph of acceptable size. *)
Record compile_input (generic : DFG) (target : TargetModel) (options : CompileDFGOptions) : Prop := {
  ci_target : TargetModel_wf target;
  ci_memory : memory_contract target = true;
  ci_registers : register_files_wf target;
  ci_banks : banks_everywhere target;
  ci_indices : forall domain row col bank i, registerBank target domain row col = Some bank ->
    i ∈ rf_allocatableIndices bank -> is_u32 i;
  ci_layout : ControlLayout_wf target;
  ci_constants : is_u32 (tm_constantMemoryDepth target);
  ci_options : typed_options (mapper_options options);
  ci_trip : is_u64 (co_tripCount options);
  ci_size : legal_size generic;
  ci_distances : forall edge, edge ∈ d_edges generic -> is_u32 (edge_distance edge);
  ci_fits : forall res t, legalize generic target = Ok res -> tlr_dfg res = Some t ->
    graph_fits t target options
}.

(** The rules for the graph alone do not need the source. *)
Lemma valid_alone t target generic :
  TargetDFG_valid t target (Some generic) -> TargetDFG_valid t target None.
Proof.
  intros []. split; try done. intros node Hn.
  destruct (tv_nodes node Hn) as (op & ? & ? & ? & ? & ? & ? & ? & ? & ? & ? & ? & ? & ? & ? & _).
  exists op. repeat (split; [done|]). done.
Qed.

Section Compile.
Context (env : Environment) (generic : DFG) (target : TargetModel) (options : CompileDFGOptions).
Context (Hin : compile_input generic target options).

Abbreviation budget := (co_rfAllocation options).
Abbreviation request := (materialization_request options).

(** The target graph: the source with its operations chosen and its parts renumbered. *)
Record target_graph (t : TargetDFG) : Prop := {
  tg_typed_source : DFG_coherent generic /\ DFG_typed generic;
  tg_inv : TargetDFG_inv t;
  tg_verified : tdfg_verify t target (Some generic) = Ok [];
  tg_renamed : exists ops, Forall2 (legal_op target) (d_nodes generic) ops /\ renamed generic target ops t;
  tg_typed : typed_graph t;
  tg_fits : graph_fits t target options
}.

(** The mapping: verified, at an interval of the mapper's window, and feasible. *)
Record mapped_graph (t : TargetDFG) (m : ModuloMapping) : Prop := {
  mg_interval : exists r, analyze t target = Ok r /\ analysis_exact t target r /\ mr_status r = MIISuccess /\
    first_ii (mapper_options options) (mr_mii r) <= mm_ii m <= last_ii (mapper_options options) (mr_mii r);
  mg_completed : completed_mapping t target m;
  mg_feasible : exists r, backend_check budget t target m = Ok r /\ cc_decision r = Accept
}.

Record stored_mapping (t : TargetDFG) (m : ModuloMapping) (allocated : RFAllocatedMapping) : Prop := {
  sd_staged : staged_exactly t target m (ra_staged allocated);
  sd_allocated : allocated_exactly t target (ra_staged allocated) allocated
}.

Record finite_schedule (t : TargetDFG) (allocated : RFAllocatedMapping) (s : MaterializedSchedule) : Prop := {
  fs_trip : 0 < co_tripCount options;
  fs_typed : typed_schedule s;
  fs_issues : issues_unplaced s;
  fs_tiles : tiles_unsigned s;
  fs_tight : tight_phases s;
  fs_verified : msv_verify t target allocated request s = Ok [];
  fs_given : boundaries_given t request;
  fs_exact : schedule_exact t allocated (co_tripCount options) s
}.

Record control_program (t : TargetDFG) (allocated : RFAllocatedMapping) (s : MaterializedSchedule)
    (r : TargetLoweringResult) : Prop := {
  cl_lowered : target_lower t target allocated s (lowering_options options) = Some r;
  cl_ok : lowering_ok r = true;
  cl_verified : exists controls, tlr_controls r = Some controls /\
    program_verify t target allocated s controls = LowOk true;
  cl_manifest : is_Some (tlr_manifest r)
}.

(** Everything between the source and [manifest]. *)
Definition compiled (manifest : ProgramManifest) : Prop := exists t m allocated s r,
  target_graph t /\ mapped_graph t m /\ stored_mapping t m allocated /\ finite_schedule t allocated s /\
  control_program t allocated s r /\ tlr_manifest r = Some manifest.

(** Why a compilation stopped. *)
Definition explained (status : CompileDFGStatus) : Prop :=
  match status with
  | CSuccess => True
  | CGenericDFGVerificationFailure => ~ (DFG_coherent generic /\ DFG_typed generic)
  | CTargetLegalizationFailure => ~ mappable generic target
  | CMIIAnalysisFailure => exists t, target_graph t /\
      ((forall ii, ~ recurrence_feasible t target ii) \/ analysis_overflow t target)
  | CMappingFailure => exists t res, target_graph t /\ map t target (mapper_options options) = Ok (Some res) /\
      mpr_mapping res = None /\ mpr_status res ∈ [MapNoMappingWithinIILimit; MapRouteBudgetExceeded;
        MapBudgetExceeded; MapMIIAnalysisFailure]
  | CMaterializationFailure => co_tripCount options = 0 \/
      exists t m allocated res, target_graph t /\ mapped_graph t m /\ stored_mapping t m allocated /\
        schedule_materialize t target allocated request = Ok (Some res) /\
        (mtr_status res = MatMissingRecurrenceBoundaryValue -> boundary_missing t request) /\
        mtr_status res ∈ [MatMissingRecurrenceBoundaryValue; MatArithmeticOverflow; MatBudgetExceeded;
          MatPhaseFactorizationError; MatVerificationFailure; MatInternalError]
  | CTargetLoweringFailure => exists t m allocated s r, target_graph t /\ mapped_graph t m /\
      stored_mapping t m allocated /\ finite_schedule t allocated s /\
      target_lower t target allocated s (lowering_options options) = Some r /\ lowering_ok r = false
  | CInternalError | CArtifactFailure => ~ reliable env
  | CTargetDFGVerificationFailure | CModuloMappingVerificationFailure | CStageSchedulingFailure
  | CStageVerificationFailure | CRFAllocationFailure | CRFVerificationFailure
  | CMaterializedScheduleVerificationFailure | CTargetControlVerificationFailure
  | CManifestValidationFailure => False
  end.

(** The first [k] files are there, when a directory is named. *)
Definition logged (k : nat) (r : CompileDFGResult) : Prop :=
  cr_artifacts r = if env_directory env then take k artifact_names else [].

(** A failed result: its status, no manifest, and the files up to it with the report. *)
Definition stopped_result (r : CompileDFGResult) : Prop :=
  cr_status r <> CSuccess /\ cr_status r <> CInternalError /\ cr_status r <> CArtifactFailure /\
  explained (cr_status r) /\ cr_manifest r = None /\ exists k,
  cr_artifacts r = if env_directory env then take k artifact_names ++ [report_name] else [].

Definition under_construction (k : nat) (r : CompileDFGResult) : Prop :=
  cr_manifest r = None /\ logged k r.

(** *** Steps *)

Local Abbreviation uc := under_construction.

Lemma log_step {B} k name (f : unit -> pipe B) Q r :
  uc k r -> artifact_names !! k = Some name ->
  (forall r', uc (S k) r' -> ends env (f tt) Q stopped_result r') ->
  ends env (write env name ≫= f) Q stopped_result r.
Proof.
  intros [Hm Hl] Hk H. apply ends_bind, ends_write, H. unfold wrote, under_construction, logged in *.
  destruct (env_directory env); [|done].
  split; [done|]. cbn [push_artifact cr_artifacts]. by rewrite Hl, (take_S_r _ _ _ Hk).
Qed.

Lemma count_step {B} k g (f : unit -> pipe B) Q r :
  uc k r -> (forall r', uc k r' -> ends env (f tt) Q stopped_result r') ->
  ends env (count_stats g ≫= f) Q stopped_result r.
Proof. intros Hr H. by apply ends_bind, ends_update, H. Qed.

Definition is_stop (status : CompileDFGStatus) : Prop :=
  status <> CSuccess /\ status <> CInternalError /\ status <> CArtifactFailure.

Lemma failed_stopped k status r :
  uc k r -> is_stop status -> explained status -> stopped_result (failed env status r).
Proof.
  intros [Hm Hl] (H1 & H2 & H3) He. unfold failed, wrote, stopped_result, under_construction, logged in *.
  destruct (env_directory env); simpl; rewrite Hl; split_and!; try done; exists k; done.
Qed.

Lemma check_step {B} k ok status (f : unit -> pipe B) Q r :
  uc k r -> is_stop status -> (ok = false -> explained status) ->
  (ok = true -> ends env (f tt) Q stopped_result r) ->
  ends env (check env ok status ≫= f) Q stopped_result r.
Proof. intros Hr Hs Hf H. apply ends_bind, ends_check; [done|]. intros E. eapply failed_stopped; eauto. Qed.

Lemma value_step {A B} k (o : option A) status (f : A -> pipe B) Q r :
  uc k r -> is_stop status -> (o = None -> explained status) ->
  (forall a, o = Some a -> ends env (f a) Q stopped_result r) ->
  ends env (check_value env o status ≫= f) Q stopped_result r.
Proof. intros Hr Hs Hf H. apply ends_bind, ends_check_value; [done|]. intros E. eapply failed_stopped; eauto. Qed.
#[local] Ltac pipe_log := eapply log_step; [eassumption|reflexivity|]; let r' := fresh "r" in let H := fresh "Hr" in intros r' H.
#[local] Ltac pipe_count := eapply count_step; [eassumption|]; let r' := fresh "r" in let H := fresh "Hr" in intros r' H.
#[local] Ltac pipe_phase x := eapply ends_bind, ends_phase; [exact x|].
#[local] Ltac pipe_phase_ends x := eapply ends_bind, ends_phase_ends; [exact x|].
#[local] Ltac pipe_defined x := eapply ends_bind, ends_defined; [exact x|].
#[local] Ltac pipe_check := eapply check_step; [eassumption|done| |].
#[local] Ltac pipe_value := eapply value_step; [eassumption|done| |].

(** *** The phases *)

Lemma renamed_distances ops t : renamed generic target ops t -> typed_graph t.
Proof using Hin.
  intros Hren edge He. rewrite (rn_edges _ _ _ _ Hren) in He.
  apply elem_of_lookup_imap in He as (i & e & -> & He). cbn [target_edge te_distance].
  apply (ci_distances _ _ _ Hin). by eapply list_elem_of_lookup_2.
Qed.

Lemma front_ends r : uc 0 r ->
  ends env (front_phases env generic target options)
    (fun t r => target_graph t /\ uc 5 r) stopped_result r.
Proof using Hin.
  intros Hr. unfold front_phases.
  apply ends_bind, ends_open. pipe_count. pipe_log. cbv zeta. pipe_log.
  assert (Hverify : report_ok (dfg_verify generic) = true <-> DFG_coherent generic /\ DFG_typed generic)
    by (by rewrite dfg_verify_ok, dfg_diagnostics_nil).
  pipe_check; [intros E; cbn; rewrite <- Hverify, E; done|]. intros Hgeneric%Hverify.
  destruct (legalize_spec generic target (ci_target _ _ _ Hin) (ci_memory _ _ _ Hin) (ci_size _ _ _ Hin))
    as (res & Hres & Hok & Hbad & Hall).
  pipe_phase Hres. pipe_log.
  pipe_check; [intros E; cbn; intros Hmap; by rewrite (proj2 Hok) in E|]. intros Ht.
  unfold tlr_ok in Ht. apply andb_prop in Ht as [[t Ht]%bool_decide_eq_true _].
  destruct (Hall t Ht) as (Hinv & Hv & _ & ops & Hops & Hren).
  pipe_defined Ht. pipe_log. pipe_phase Hv. pipe_log. pipe_check; [done|]. intros _.
  apply ends_ret. split; [|done]. split; try done.
  - by exists ops.
  - by eapply renamed_distances.
  - by eapply (ci_fits _ _ _ Hin).
Qed.

Lemma target_graph_valid t : target_graph t -> TargetDFG_valid t target None /\ td_targetName t = tm_name target.
Proof using Type.
  intros [_ Hinv Hv (ops & _ & Hren) _ _]. split; [|by apply (rn_target _ _ _ _ Hren)].
  apply (valid_alone t target generic). by apply tdfg_verify_clean.
Qed.

(** The check answers for every mapping of the window, and never blames the pipeline. *)
Lemma backend_answers t r : target_graph t -> analyze t target = Ok r -> forall m,
  completed_mapping t target m ->
  first_ii (mapper_options options) (mr_mii r) <= mm_ii m <= last_ii (mapper_options options) (mr_mii r) ->
  exists a, backend_check budget t target m = Ok a /\ back_end_answer t target budget m a.
Proof using Hin.
  intros Ht Hr m Hm Hii. apply backend_check_spec; [apply Ht|apply Hin|apply Ht|apply Hin|done| |apply Hin].
  by eapply (tg_fits _ Ht).
Qed.

Lemma never_blamed t r outcome : target_graph t -> analyze t target = Ok r ->
  outcome = OutVerificationFailure \/ outcome = OutInternalError ->
  forall ii, first_ii (mapper_options options) (mr_mii r) <= ii <= last_ii (mapper_options options) (mr_mii r) ->
  ~ checker_aborts t target (mapper_options options) ii outcome.
Proof using Hin.
  intros Ht Hr Ho ii Hii (checker & m & a & [= <-] & <- & Hm & Ha & Hd & Hout).
  destruct (backend_answers t r Ht Hr m Hm Hii) as (a' & Ha' & Hans). rewrite Ha in Ha'. injection Ha' as <-.
  unfold back_end_answer in Hans. rewrite Hd in Hans. destruct Hans as [E _].
  rewrite E in Hout. vm_compute in Hout. destruct Ho; congruence.
Qed.

(** A mapping, or none for a reason that is no failure of the back end. *)
Lemma mapper_cases t mii res : target_graph t -> analyze t target = Ok mii -> mr_status mii = MIISuccess ->
  mapper_outcome t target (mapper_options options) mii res ->
  (exists m, mapper_ok res = true /\ mpr_mapping res = Some m /\ mapped_graph t m) \/
  mpr_mapping res = None /\ mpr_status res ∈ [MapNoMappingWithinIILimit; MapRouteBudgetExceeded;
    MapBudgetExceeded; MapMIIAnalysisFailure].
Proof using Hin.
  intros Ht Hmii Hok Hout. unfold mapper_outcome, mapper_ok in *.
  destruct (analyze_spec t target (tg_inv _ Ht) (ci_target _ _ _ Hin) (tg_typed _ Ht)) as (mii' & E & Hexact).
  rewrite Hmii in E. injection E as <-.
  unfold loop_outcome in Hout. destruct (mpr_status res) eqn:Es.
  - left. destruct Hout as (_ & m & Hm & Hii & _ & _ & Hc & Hacc). exists m. rewrite Hm.
    split; [by rewrite !bool_decide_eq_true_2 by done|]. split; [done|].
    split; [by exists mii|done|exact Hacc].
  - destruct Hout. congruence.
  - right. split; [apply Hout|]. set_solver.
  - right. split; [apply Hout|]. set_solver.
  - right. split; [apply Hout|]. set_solver.
  - right. split; [apply Hout|]. set_solver.
  - destruct Hout as (_ & _ & ii & Hii & Habort).
    by destruct (never_blamed t mii _ Ht Hmii (or_introl eq_refl) ii Hii).
  - done.
  - destruct Hout as (_ & _ & ii & Hii & Habort).
    by destruct (never_blamed t mii _ Ht Hmii (or_intror eq_refl) ii Hii).
Qed.

Lemma mapping_ends t r : target_graph t -> uc 5 r ->
  ends env (mapping_phases env target options t) (fun m r => mapped_graph t m /\ uc 9 r) stopped_result r.
Proof using Hin.
  intros Ht Hr. unfold mapping_phases. pose proof Ht as [_ Hinv Hv _ Htyped [Hwindow _]].
  destruct (map_spec t target (mapper_options options) Hinv (ci_target _ _ _ Hin) Htyped (ci_options _ _ _ Hin))
    as (mii & res & Hmii & Hres & Hout & _); [|done|].
  { intros mii ii Hmii Hii checker m [= <-] Em Hm. subst ii.
    destruct (backend_answers t mii Ht Hmii m Hm Hii) as (a & Ha & _). by exists a. }
  destruct (analyze_spec t target Hinv (ci_target _ _ _ Hin) Htyped) as (mii' & Hmii' & Hexact).
  rewrite Hmii in Hmii'. injection Hmii' as <-.
  pipe_phase Hmii. pipe_log. pipe_check.
  { intros E. exists t. split; [done|]. unfold mii_ok, analysis_exact in *.
    assert (Hvalid : TargetDFG_valid t target None /\ td_targetName t = tm_name target) by (by apply target_graph_valid).
    apply bool_decide_eq_false in E. destruct (mr_status mii); try done; [by left|by right]. }
  intros Hok. unfold mii_ok in Hok. apply bool_decide_eq_true in Hok. pipe_count.
  pipe_phase_ends Hres. pipe_log. pipe_count.
  destruct (mapper_cases t mii res Ht Hmii Hok Hout) as [(m & Hmok & Hm & Hmapped)|[Hnone Hstatus]].
  - rewrite Hmok, Hm. pipe_value; [done|]. intros ? [= <-]. pipe_count. pipe_log.
    pipe_phase (cm_verified _ _ _ (mg_completed _ _ Hmapped)). pipe_log. pipe_check; [done|]. intros _.
    by apply ends_ret.
  - pipe_value; rewrite Hnone; [|by destruct (mapper_ok res)].
    intros _. exists t, res. done.
Qed.

(** The scheduler and the allocator repeat what they gave the check. *)
Lemma storage_ends t m r : target_graph t -> mapped_graph t m -> uc 9 r ->
  ends env (storage_phases env target options t m)
    (fun allocated r => stored_mapping t m allocated /\ uc 15 r) stopped_result r.
Proof using Hin.
  intros Ht Hm Hr. unfold storage_phases.
  destruct (mg_interval _ _ Hm) as (mii & Hmii & _ & _ & Hii).
  destruct (backend_answers t mii Ht Hmii m (mg_completed _ _ Hm) Hii) as (a & Ha & Hans).
  destruct (mg_feasible _ _ Hm) as (a' & Ha' & Hd). rewrite Ha in Ha'. injection Ha' as <-.
  unfold back_end_answer in Hans. rewrite Hd in Hans.
  destruct Hans as (sr & staged & ar & allocated & Hsr & Es & Hs & Har & Ea & Hall).
  pipe_phase Hsr. pipe_log. rewrite Es. pipe_value; [done|]. intros ? [= <-]. pipe_count. pipe_log.
  pipe_phase (sx_verified _ _ _ _ Hs). pipe_log. pipe_check; [done|]. intros _.
  pipe_phase Har. pipe_log. rewrite Ea. pipe_value; [done|]. intros ? [= <-]. pipe_count. pipe_log.
  pipe_phase (ax_verified _ _ _ _ Hall). pipe_log. pipe_check; [done|]. intros _.
  apply ends_ret. split; [|done]. pose proof (ca_staged _ _ _ _ (ax_complete _ _ _ _ Hall)) as E.
  by split; rewrite E.
Qed.

(** *** The schedule *)

Lemma stored_universe t m allocated : mapped_graph t m -> stored_mapping t m allocated ->
  universe_fits target (mm_ii (sm_modulo (ra_staged allocated))).
Proof using Type.
  intros Hm Hs. rewrite (sx_modulo _ _ _ _ (sd_staged _ _ _ Hs)). apply (mg_completed _ _ Hm).
Qed.

Lemma schedule_ends t m allocated r :
  target_graph t -> mapped_graph t m -> stored_mapping t m allocated -> uc 15 r ->
  ends env (schedule_phases env target options t allocated)
    (fun s r => finite_schedule t allocated s /\ uc 18 r) stopped_result r.
Proof using Hin.
  intros Ht Hm Hs Hr. unfold schedule_phases. destruct (decide (co_tripCount options = 0)) as [Hz|Hz].
  { assert (Hmat : exists res, schedule_materialize t target allocated request = Ok (Some res) /\ mtr_ok res = false).
    { unfold schedule_materialize, materialization_request. cbn [mrq_tripCount]. rewrite Hz. cbn. by eexists. }
    destruct Hmat as (res & Hres & Hbad). pipe_phase_ends Hres. pipe_log. rewrite Hbad.
    pipe_value; [|done]. intros _. by left. }
  destruct (materialize_stages_spec t target allocated request) as (res & Hres & Hok & Hmissing & Hstatus);
    try done; try apply Hin; try apply Ht; try apply Hs; [by eapply stored_universe|].
  pipe_phase_ends Hres. pipe_log. destruct (decide (mtr_status res = MatSuccess)) as [Es|Es].
  - destruct (Hok Es) as (s & Hsched & Hts & Hissues & Htiles & Htight & Hv & Hgiven & Hexact).
    unfold mtr_ok. rewrite Es, Hsched. rewrite !bool_decide_eq_true_2 by done.
    pipe_value; [done|]. intros ? [= <-]. pipe_count. pipe_log. pipe_phase Hv. pipe_log.
    pipe_check; [done|]. intros _. apply ends_ret. split; [|done]. split; try done.
    pose proof (ci_trip _ _ _ Hin) as [? _]. lia.
  - unfold mtr_ok. rewrite bool_decide_eq_false_2 by done. pipe_value; [|done].
    intros _. right. exists t, m, allocated, res. split_and!; try done. set_solver.
Qed.

(** *** The control program *)

(** The registers of an allocation are registers of the target. *)
Lemma allocated_indices t staged allocated a : allocated_exactly t target staged allocated ->
  a ∈ ra_allocations allocated -> is_u32 (pr_index (sl_reg a)).
Proof using Hin.
  intros Hall Ha. pose proof (ca_valid _ _ _ _ (ax_complete _ _ _ _ Hall)) as Hv.
  pose proof (va_known _ _ _ Hv a Ha) as (s & Es & Hs)%list_elem_of_fmap.
  destruct (va_each _ _ _ Hv s Hs) as (a' & bank & (_ & Ha' & Hbank) & (_ & _ & Hi) & _).
  unfold allocation_of in Ha'. apply find_if_Some in Ha' as [Hin' E%Z.eqb_eq].
  assert (a' = a) as ->.
  { apply (NoDup_key_eq sl_segment (ra_allocations allocated)); [apply Hv|done..|congruence]. }
  by eapply (ci_indices _ _ _ Hin).
Qed.

Lemma schedule_tiles t m allocated s : stored_mapping t m allocated -> finite_schedule t allocated s ->
  Forall (Forall (unsigned_tile allocated)) (sch_prologue s ++ rk_body (sch_kernel s) ++ sch_epilogue s).
Proof using Type.
  intros Hs Hf. apply Forall_forall. intros events Hevents. apply Forall_forall. intros e He e' tile Hres.
  unfold resolve_tile in Hres. destruct (ev_tile e) as [x|] eqn:Etile.
  - injection Hres as _ <-. by apply (fs_tiles _ _ _ Hf events e).
  - destruct (ev_kind e), (ev_node e) as [node|]; try done.
    destruct (placement _ node) as [p|] eqn:Ep; simpl in Hres; [|done]. injection Hres as _ <-.
    by eapply placement_unsigned; [apply (sx_typed _ _ _ _ (sd_staged _ _ _ Hs))|].
Qed.

Lemma schedule_input t m allocated s : target_graph t -> mapped_graph t m -> stored_mapping t m allocated ->
  finite_schedule t allocated s -> lowering_input t target allocated s.
Proof using Hin.
  intros Ht Hm Hs Hf. pose proof (se_trip _ _ _ _ (fs_exact _ _ _ Hf)) as Etrip. split.
  - apply Ht.
  - apply Hin.
  - apply Hin.
  - apply Hin.
  - apply Hin.
  - apply Ht.
  - apply Hs.
  - apply Hs.
  - intros a. apply (allocated_indices t (ra_staged allocated)). apply Hs.
  - apply Hs.
  - apply Hs.
  - by eapply stored_universe.
  - rewrite Etrip. apply Hin.
  - apply Hf.
  - by eapply schedule_tiles.
Qed.

(** The program of a successful lowering has passed its verifier. *)
Lemma lowered_verified t allocated s o r :
  target_lower t target allocated s o = Some r -> is_Some (tlr_manifest r) ->
  exists controls, tlr_controls r = Some controls /\
    program_verify t target allocated s controls = LowOk true.
Proof using Type.
  unfold target_lower.
  destruct (lower_program t target allocated s o) as [[[[controls encoded] stats] o']|st|] eqn:Ep; [| |done].
  2: { intros [= <-]. by intros [? [=]]. }
  destruct (build_manifest target controls encoded o') as [manifest|st|] eqn:Em; [| |done]; intros [= <-].
  2: { by intros [? [=]]. }
  intros _. exists controls. split; [done|]. unfold lower_program in Ep.
  low_ok. destruct x3; cbn [negb] in Ep; low_ok. done.
Qed.

Lemma lowering_phase_ends t m allocated s r :
  target_graph t -> mapped_graph t m -> stored_mapping t m allocated -> finite_schedule t allocated s ->
  uc 18 r ->
  ends env (lowering_phases env target options t allocated s)
    (fun l r => control_program t allocated s l /\ uc 22 r) stopped_result r.
Proof using Hin.
  intros Ht Hm Hs Hf Hr. unfold lowering_phases.
  destruct (target_lower_ends t target allocated s (lowering_options options))
    as (l & Hl & Hok & _); [by eapply schedule_input|].
  pipe_defined Hl. pipe_check; [intros E; by exists t, m, allocated, s, l|]. intros El.
  destruct (proj1 Hok El) as (_ & _ & Hmanifest).
  destruct (lowered_verified t allocated s (lowering_options options) l Hl Hmanifest) as (controls & Hc & Hv).
  pipe_defined Hc. eapply ends_bind, ends_phase_low; [exact Hv|]. pipe_log. pipe_log.
  pipe_check; [done|]. intros _. pose proof Hmanifest as [manifest Em]. pipe_defined Em. pipe_log. pipe_log.
  apply ends_ret. split; [|done]. split; try done. by exists controls.
Qed.

(** *** The whole run *)

Definition succeeded_result (r : CompileDFGResult) : Prop :=
  cr_status r = CSuccess /\
  (exists manifest, cr_manifest r = Some manifest /\ compiled manifest) /\
  cr_artifacts r = if env_directory env then artifact_names ++ [report_name] else [].

Lemma phases_end :
  ends env (compile_phases env generic target options)
    (fun _ r => succeeded_result r) stopped_result initial_result.
Proof using Hin.
  unfold compile_phases. apply ends_bind.
  eapply ends_mono; [|done|apply front_ends].
  2: { split; [done|]. unfold logged. by destruct (env_directory env). }
  intros t r [Ht Hr]. apply ends_bind.
  eapply ends_mono; [|done|by apply (mapping_ends t)]. intros m r1 [Hm Hr1]. apply ends_bind.
  eapply ends_mono; [|done|by apply (storage_ends t m)]. intros allocated r2 [Hs Hr2]. apply ends_bind.
  eapply ends_mono; [|done|by apply (schedule_ends t m)]. intros s r3 [Hf Hr3]. apply ends_bind.
  eapply ends_mono; [|done|by apply (lowering_phase_ends t m)]. intros l r4 [Hl [Hr4 Hlog]]. apply ends_bind.
  apply ends_update, ends_write. destruct (cl_manifest _ _ _ _ Hl) as [manifest Em].
  unfold succeeded_result, wrote, logged in *.
  assert (Hc : compiled manifest) by (exists t, m, allocated, s, l; by split_and!).
  destruct (env_directory env); simpl; rewrite Em, Hlog; (split_and!; [done|by exists manifest|done]).
Qed.
End Compile.

Lemma recover_status env st :
  cr_status (recover env st) = CInternalError \/ cr_status (recover env st) = CArtifactFailure.
Proof.
  unfold recover, open_artifacts, write, update_result, mbind, pipe_bind.
  repeat (case_match; simplify_eq/=; auto).
Qed.

(** The result of a compilation. *)
Lemma compile_ends (env : Environment) (generic : DFG) (target : TargetModel) (options : CompileDFGOptions) :
  compile_input generic target options ->
  exists r, compileGenericDFG env generic target options = Some r /\
    explained env generic target options (cr_status r) /\
    (cr_status r = CSuccess <-> succeeded_result env generic target options r) /\
    (cr_status r = CSuccess \/ cr_status r = CInternalError \/ cr_status r = CArtifactFailure \/
     stopped_result env generic target options r).
Proof.
  intros Hin. pose proof (phases_end env generic target options Hin 0%nat) as H. unfold compileGenericDFG.
  destruct (compile_phases env generic target options (mkPipeState initial_result 0)) as [u st|st|st|].
  - exists (run_result st). pose proof H as (E & _ & _). rewrite E. split_and!; [done|done|done|by left].
  - exists (run_result st). pose proof H as (E & _ & _ & He & _). split_and!; [done|done| |by do 3 right].
    split; [done|]. by intros [? _].
  - exists (recover env st). split; [done|].
    destruct (recover_status env st) as [E|E]; unfold succeeded_result; rewrite E; (split_and!; [done| |auto]);
      (split; [done|]; by intros [? _]).
  - done.
Qed.


(** ** The compiled program *)

Section Program.
Context (t : TargetDFG) (target : TargetModel) (mapping : RFAllocatedMapping).
Context (schedule : MaterializedSchedule) (image : ConstantImage) (manifest : ProgramManifest).

Abbreviation trip := (sch_tripCount schedule).

(** The words in the control memories give every tile, in every cycle, what the
    events of the execution need there, and the constants they read are in place. *)
Definition runs_execution : Prop :=
  (forall cycle e, (cycle, e) ∈ expected_events t mapping trip -> is_use e = false ->
     exists site, event_site t target mapping image e = LowOk site) /\
  forall tile, in_array target tile ->
    (forall cycle, 0 <= cycle < total_cycles t mapping trip ->
       exists word c, replayed manifest tile cycle = Some word /\ decode target word = Ok c /\
         overlay (execution_needs t target mapping image trip cycle tile) c) /\
    exists i, image_of manifest tile = Some i /\ NoDup (ti_constants i).*1 /\
      forall c, c ∈ td_constants t -> exists a, constant_address image (const_id c) = Ok a /\
        (a, const_word c) ∈ ti_constants i.
End Program.

(** No value crosses iterations. *)
Definition no_carried_values (generic : DFG) : Prop := forall edge, edge ∈ d_edges generic ->
  Edge_kind edge <> EKMemory -> edge_distance edge = 0.

Section Straight.
Context (t : TargetDFG) (mapping : RFAllocatedMapping) (trip : Z).
Context (Hf : execution_facts t mapping).
Context (Hzero : forall edge, edge ∈ td_edges t -> TargetEdge_kind edge <> EKMemory -> te_distance edge = 0).

Lemma expected_from_zero cycle e : (cycle, e) ∈ expected_events t mapping trip ->
  is_one_shot (ev_kind e) = false -> 0 <= ev_logicalIteration e.
Proof using Hf Hzero.
  unfold expected_events, events_from. intros [Hin|Hin]%elem_of_app Hk.
  - apply elem_of_flat_map in Hin as (stream & Hs & Hin).
    apply list_elem_of_fmap in Hin as (k & E & Hrange%elem_of_range). injection E as _ ->.
    assert (H : 0 <= ev_logicalIteration stream.1); [|cbn; lia].
    unfold periodic_streams in Hs. rewrite !elem_of_app in Hs. destruct Hs as [Hs|[Hs|Hs]].
    + by apply list_elem_of_fmap in Hs as (node & -> & _).
    + apply elem_of_flat_map in Hs as (edge & [Hkind He]%list_elem_of_filter & Hs).
      apply list_elem_of_omap in Hs as ([i [domain source direction elapsed|]] & _ & [=<-]).
      cbn. by rewrite Hzero.
    + apply elem_of_flat_map in Hs as (s & Hseg & Hs).
      destruct (xf_segment _ _ Hf s Hseg) as (edge & He & Eid & Hkind & _).
      destruct (xf_edge _ _ Hf edge He) as [Htd _].
      assert (Hd : distance_of t (sg_edge s) = 0) by (unfold distance_of; rewrite <- Eid, Htd; by apply Hzero).
      unfold segment_streams in Hs. cbv zeta in Hs. rewrite Hd in Hs. by apply elem_of_cons in Hs as [->| ->%list_elem_of_singleton].
  - apply list_elem_of_fmap in Hin as (shot & E & Hs). injection E as _ ->.
    unfold one_shots in Hs. apply elem_of_app in Hs as [Hs|Hs].
    + apply elem_of_flat_map in Hs as (edge & _ & Hs). apply list_elem_of_omap in Hs as (o & _ & Hs).
      unfold injection in Hs. apply fmap_Some in Hs as (v & _ & ->). done.
    + by apply list_elem_of_fmap in Hs as (lo & -> & _).
Qed.
End Straight.

(** Then the schedule has neither shape that the lowering gets wrong. *)
Lemma straight_lowerable generic target options t m mapping s :
  compile_input generic target options -> no_carried_values generic ->
  target_graph generic target options t -> mapped_graph target options t m ->
  stored_mapping target t m mapping -> finite_schedule target options t mapping s -> lowerable mapping s.
Proof.
  intros Hin Hstraight Ht Hm Hs Hf.
  pose proof (schedule_input generic target options Hin t m mapping s Ht Hm Hs Hf) as Hinput.
  assert (Hfacts : execution_facts t mapping).
  { apply (verified_facts t target mapping); try apply Hinput. apply Hs. }
  pose proof (fs_exact _ _ _ _ _ Hf) as Hex. rewrite <- (se_trip _ _ _ _ Hex) in Hex.
  assert (Hzero : forall edge, edge ∈ td_edges t -> TargetEdge_kind edge <> EKMemory -> te_distance edge = 0).
  { destruct (tg_renamed _ _ _ _ Ht) as (ops & _ & Hren). intros edge He Hk. rewrite (rn_edges _ _ _ _ Hren) in He.
    apply elem_of_lookup_imap in He as (i & e & -> & He). apply Hstraight; [by eapply list_elem_of_lookup_2|done]. }
  split.
  - apply Forall_forall. intros b Hb. apply Forall_forall. intros e He Hk. left. by apply (fs_issues _ _ _ _ _ Hf b).
  - apply Forall_forall. intros b Hb. apply Forall_forall. intros e He Hk. left.
    destruct (event_expected t mapping s b e Hex) as [cycle Hcycle]; [| | |done|].
    + rewrite (se_ii _ _ _ _ Hex). apply (xf_ii _ _ Hfacts).
    + apply (fs_typed _ _ _ _ _ Hf).
    + rewrite !elem_of_app. auto.
    + apply (expected_from_zero t mapping _ Hfacts Hzero) in Hcycle.
      * by destruct e, Hk as [Hk|Hk]; simpl in Hk; subst.
      * by destruct e, Hk as [Hk|Hk]; simpl in Hk; subst.
  - apply (fs_tight _ _ _ _ _ Hf).
Qed.

(** What a manifest does for a graph. *)
Definition program_for (generic : DFG) (target : TargetModel) (options : CompileDFGOptions) (manifest : ProgramManifest) : Prop :=
  exists t ops mapping schedule image,
    let m := sm_modulo (ra_staged mapping) in
    Forall2 (legal_op target) (d_nodes generic) ops /\ renamed generic target ops t /\
    (exists mii, analyze t target = Ok mii /\ analysis_exact t target mii /\ mr_mii mii <= mm_ii m) /\
    (forall stage iterations,
       NoDup (flat_map (fun k => occurrences t target m (issue_cycle m stage k)) (range iterations))) /\
    keeps_values target mapping /\
    schedule_exact t mapping (co_tripCount options) schedule /\
    (lowerable mapping schedule \/ no_carried_values generic -> runs_execution t target mapping schedule image manifest).

Lemma compiled_program generic target options manifest :
  compile_input generic target options -> compiled generic target options manifest ->
  program_for generic target options manifest.
Proof.
  intros Hin (t & m & mapping & s & l & Ht & Hm & Hs & Hf & Hl & Elm).
  pose proof (schedule_input generic target options Hin t m mapping s Ht Hm Hs Hf) as Hinput.
  pose proof (sx_modulo _ _ _ _ (sd_staged _ _ _ _ Hs)) as E.
  destruct (tg_renamed _ _ _ _ Ht) as (ops & Hops & Hren).
  exists t, ops, mapping, s, (tlr_constantImage l). cbv zeta. rewrite E.
  split_and!; [done..| | | | |].
  - destruct (mg_interval _ _ _ _ Hm) as (mii & Hmii & Hexact & _ & Hii). exists mii.
    unfold first_ii in Hii. split_and!; [done..|lia].
  - intros stage iterations.
    pose proof (completed_valid_mapping t target (tg_inv _ _ _ _ Ht) (ci_target _ _ _ Hin) m (mg_completed _ _ _ _ Hm)) as Hvm.
    apply steady_state_NoDup; apply Hvm.
  - apply (rf_verify_keeps t); try apply Hinput. apply Hs.
  - apply Hf.
  - intros Hshape. assert (Hlow : lowerable mapping s).
    { destruct Hshape; [done|by eapply straight_lowerable]. }
    destruct (lowered_runs t target mapping s (lowering_options options) l Hinput Hlow
      (cl_lowered _ _ _ _ _ _ Hl) (cl_ok _ _ _ _ _ _ Hl)) as (Hsites & manifest' & Em' & _ & Hrun).
    rewrite Elm in Em'. injection Em' as <-. by split.
Qed.


(** ** A compiled kernel

    [z = x + (x + 4)] with [x] loaded from one address and [z] stored to another, for
    six iterations two cycles apart.  The loaded value is used twice, so it waits in a
    register. *)
Definition reuse_requests : list BuilderRequest := [
  ReqAddConstant vt_i32 0;
  ReqAddConstant vt_i32 4;
  ReqAddNode OpLoad [vt_i32] vt_i32 None (Some (mkMemoryOpInfo 32 false)) None;
  ReqAddNode OpAdd [vt_i32; vt_i32] vt_i32 None None None;
  ReqAddNode OpAdd [vt_i32; vt_i32] vt_i32 None None None;
  ReqAddNode OpStore [vt_i32; vt_i32] voidTy None (Some (mkMemoryOpInfo 32 false)) None;
  ReqBindConstant 0 0 0;
  ReqAddDataEdge 0 1 0 0 None; ReqBindConstant 1 1 1;
  ReqAddDataEdge 0 2 0 0 None; ReqAddDataEdge 1 2 1 0 None;
  ReqBindConstant 3 0 1; ReqAddDataEdge 2 3 1 0 None].

Definition reuse : DFG := b_dfg (requests (DFGBuilder_new "reuse") reuse_requests).

Definition reuse_options : CompileDFGOptions :=
  mkCompileOptions 6 "cgra_v2.json"
    (mkMapperOptions 2 2 default_mapper_budget (mkRouteOptions default_route_budget true) None)
    (mkBudget 1000 1000) default_materialization_budget [] "reuse".

(** No directory is named, and every text can be rendered. *)
Definition no_files : Environment :=
  mkEnvironment false (fun _ => false) (fun _ => true) (fun _ _ => false).

Lemma cgra_v2_indices domain row col bank i :
  registerBank cgra_v2 domain row col = Some bank -> i ∈ rf_allocatableIndices bank -> is_u32 i.
Proof.
  unfold registerBank. case_match; [|done]. intros [= <-] Hi.
  assert (Hall : forallb (fun i => (0 <=? i) && (i <=? u32_max)) (rf_allocatableIndices (tm_dataRF cgra_v2) ++
    rf_allocatableIndices (tm_predicateRF cgra_v2)) = true) by (vm_compute; reflexivity).
  rewrite forallb_forall in Hall. specialize (Hall i). rewrite <- list_elem_of_In, elem_of_app in Hall.
  unfold is_u32. assert (((0 <=? i) && (i <=? u32_max))%bool = true); [|lia]. destruct domain; auto.
Qed.

(** A graph whose mapping is tried at an interval of two cycles only fits [cgra_v2]. *)
Definition v2_graph_ok (options : CompileDFGOptions) (t : TargetDFG) : bool :=
  let edges := Z.of_nat (length (td_edges t)) in
  match analyze t cgra_v2 with
  | Ok r => (2 <=? first_ii (mapper_options options) (mr_mii r)) && (last_ii (mapper_options options) (mr_mii r) <=? 2)
  | Throw _ => true
  end &&
  forallb (fun node => match tn_producerOutputReadyOffset node with
    Some r => (0 <=? r) && (r <=? 10) | None => true end) (td_nodes t) &&
  (Z.of_nat (1 + length (td_nodes t)) * edges <=? 268435456) &&
  (edges * (longest_transport cgra_v2 2 + 1) <=? u32_max + 1).

Lemma v2_graph_fits options t : v2_graph_ok options t = true -> graph_fits t cgra_v2 options.
Proof.
  unfold v2_graph_ok. cbv zeta. rewrite !andb_true_iff, forallb_forall, !Z.leb_le. intros [[[Hii Hnodes] Hstages] Hsegments].
  assert (Hwindow : forall r ii, analyze t cgra_v2 = Ok r ->
    first_ii (mapper_options options) (mr_mii r) <= ii <= last_ii (mapper_options options) (mr_mii r) -> ii = 2).
  { intros r ii Hr H. rewrite Hr in Hii. lia. }
  split.
  - intros r ii Hr H. rewrite (Hwindow r ii Hr H). split; [by vm_compute|]. split; [by vm_compute|]. intros node ready Hn Er.
    apply list_elem_of_In, Hnodes in Hn. rewrite Er in Hn.
    assert (E : (arr_rows (tm_array cgra_v2) * arr_cols (tm_array cgra_v2) * 2 + 1) *
      net_hopLatency (tm_interconnect cgra_v2) = 33) by (vm_compute; reflexivity).
    rewrite E. unfold u32_max. lia.
  - intros r ii Hr H. rewrite (Hwindow r ii Hr H). split; [|done]. split; [lia|done].
Qed.

Definition v2_input_ok (options : CompileDFGOptions) (generic : DFG) : bool :=
  let o := mapper_options options in
  (0 <=? co_tripCount options) && (co_tripCount options <=? u64_max) &&
  (0 <=? mo_minII o) && (0 <=? mo_maxII o) && (0 <=? mbu_maxNodeCandidateAttempts (mo_budget o)) &&
  (0 <=? mbu_maxBacktracks (mo_budget o)) && (0 <=? mbu_maxRouteSearchCalls (mo_budget o)) &&
  (Z.of_nat (length (d_nodes generic)) <=? u32_max + 1) && (Z.of_nat (length (d_edges generic)) <=? u32_max + 1) &&
  forallb (fun e => (0 <=? edge_distance e) && (edge_distance e <=? u32_max)) (d_edges generic) &&
  match legalize generic cgra_v2 with
  | Ok res => match tlr_dfg res with Some t => v2_graph_ok options t | None => true end
  | Throw _ => true
  end.

Lemma v2_compile_input options generic : v2_input_ok options generic = true -> compile_input generic cgra_v2 options.
Proof.
  unfold v2_input_ok. cbv zeta. rewrite !andb_true_iff, forallb_forall, !Z.leb_le.
  intros [[[[[[[[[[H1 H2] H3] H4] H5] H6] H7] H8] H9] H10] H11]. split.
  - exact cgra_v2_wf.
  - reflexivity.
  - exact cgra_v2_register_files.
  - exact cgra_v2_banks.
  - exact cgra_v2_indices.
  - exact cgra_v2_layout.
  - vm_compute. split; congruence.
  - done.
  - done.
  - done.
  - intros edge He%list_elem_of_In%H10. unfold is_u32. lia.
  - intros res t Hres Ht. rewrite Hres, Ht in H11. by apply v2_graph_fits.
Qed.

Lemma reuse_input : compile_input reuse cgra_v2 reuse_options.
Proof. apply v2_compile_input. vm_compute. reflexivity. Qed.


Definition reuse_result : CompileDFGResult :=
  default initial_result (compileGenericDFG no_files reuse cgra_v2 reuse_options).

Lemma reuse_compiled :
  compileGenericDFG no_files reuse cgra_v2 reuse_options = Some reuse_result /\
  cr_status reuse_result = CSuccess.
Proof.
  assert (H : (fun r => cr_status r) <$> compileGenericDFG no_files reuse cgra_v2 reuse_options = Some CSuccess)
    by (vm_compute; reflexivity).
  unfold reuse_result. destruct (compileGenericDFG no_files reuse cgra_v2 reuse_options) as [r|]; [|done].
  by injection H as H.
Qed.

