(* ===== verification/KernelABI.v ===== *)
(** * Kernel arguments

    [compiler/{include/cgra,lib}/ABI]: the signature of a kernel, its invocation, the
    binder that turns scalar inputs into constants and live-outs into stores to a
    reserved region of the scratchpad, the verifier of its results, and the driver
    [compileKernel] in front of the pipeline.

    [std::map<ExternalValueId, ConstantId>] is a [gmap]; its iteration is [map_items].
    Messages are left out: a failed validation is its code, a failed verification the
    list of checks that failed.  The verifier may follow a null pointer on layouts the
    binder does not make; [abi_verify] is then [Undefined]. *)
From stdpp Require Import base numbers list gmap strings.
From S2P Require Import Prelude.
From S2P Require Import IR.
From S2P Require Import DFG.
From S2P Require Import DFGVerifier.
From S2P Require Import TargetModel.
From S2P Require Import ModuloMapper.
From S2P Require Import Pipeline.

#[export] Instance ExternalValue_eq_dec : EqDecision ExternalValue.
Proof. solve_decision. Defined.
#[export] Instance ConstantValue_eq_dec : EqDecision ConstantValue.
Proof. solve_decision. Defined.
#[export] Instance LiveOut_eq_dec : EqDecision LiveOut.
Proof. solve_decision. Defined.
#[export] Instance OperandBinding_eq_dec : EqDecision OperandBinding.
Proof. solve_decision. Defined.

(** ** KernelSignature *)

Record KernelInputDesc := mkInputDesc {
  kid_id : Z;
  kid_name : string;
  kid_type : ValueType
}.

Record KernelOutputDesc := mkOutputDesc {
  kod_id : Z;
  kod_name : string;
  kod_type : ValueType;
  kod_source : Z
}.

Record KernelSignature := mkSignature {
  ks_kernelName : string;
  ks_scalarInputs : list KernelInputDesc;
  ks_scalarOutputs : list KernelOutputDesc;
  ks_requiresTripCount : bool
}.

#[export] Instance KernelInputDesc_eq_dec : EqDecision KernelInputDesc.
Proof. solve_decision. Defined.
#[export] Instance KernelOutputDesc_eq_dec : EqDecision KernelOutputDesc.
Proof. solve_decision. Defined.
#[export] Instance KernelSignature_eq_dec : EqDecision KernelSignature.
Proof. solve_decision. Defined.

Definition inferSignature (dfg : DFG) : KernelSignature :=
  mkSignature (d_name dfg)
    ((fun value => mkInputDesc (ext_id value) (ext_name value) (ext_type value)) <$> d_externalValues dfg)
    ((fun value => mkOutputDesc (lo_id value) (lo_name value) (lo_type value) (lo_source value)) <$>
       d_liveOuts dfg)
    true.

Definition with_kernelName (name : string) (signature : KernelSignature) : KernelSignature :=
  mkSignature name (ks_scalarInputs signature) (ks_scalarOutputs signature) (ks_requiresTripCount signature).

(** ** KernelInvocation *)

Record KernelScalarInputValue := mkScalarInput {
  ksv_id : Z;
  ksv_bits : Z
}.

#[export] Instance KernelScalarInputValue_eq_dec : EqDecision KernelScalarInputValue.
Proof. solve_decision. Defined.

Record KernelInvocation := mkInvocation {
  ki_tripCount : Z;
  ki_scalarInputs : list KernelScalarInputValue;
  ki_scratchpadPreload : list (Z * Z)
}.

(** The codes the messages of [validateInvocation] start with. *)
Inductive InvocationError :=
  | ABI_INVALID_TRIP_COUNT
  | ABI_DUPLICATE_INPUT
  | ABI_UNKNOWN_INPUT
  | ABI_INPUT_TYPE_MISMATCH
  | ABI_UNSUPPORTED_INPUT_TYPE
  | ABI_MISSING_INPUT
  | ABI_SCRATCHPAD_ADDRESS_OUT_OF_RANGE
  | ABI_DUPLICATE_PRELOAD.

#[export] Instance InvocationError_eq_dec : EqDecision InvocationError.
Proof. solve_decision. Defined.

(** One scalar input against its description. *)
Definition input_error (scalarWidthBits : Z) (type : ValueType) (bits : Z) : option InvocationError :=
  if (vt_bitWidth type <? 64) && negb (Z.shiftr bits (vt_bitWidth type) =? 0) then Some ABI_INPUT_TYPE_MISMATCH
  else if bool_decide (vt_kind type <> KInteger) && bool_decide (vt_kind type <> KPredicate)
  then Some ABI_UNSUPPORTED_INPUT_TYPE
  else if bool_decide (vt_kind type = KInteger) && negb (vt_bitWidth type =? scalarWidthBits)
  then Some ABI_UNSUPPORTED_INPUT_TYPE
  else if bool_decide (vt_kind type = KPredicate) && (1 <? bits) then Some ABI_INPUT_TYPE_MISMATCH
  else None.

(** The loop over the scalar inputs, with the identifiers seen so far. *)
Fixpoint inputs_error (signature : KernelSignature) (scalarWidthBits : Z) (seen : gset Z)
    (inputs : list KernelScalarInputValue) : option InvocationError :=
  match inputs with
  | [] =>
      if Z.of_nat (size seen) =? Z.of_nat (length (ks_scalarInputs signature)) then None
      else Some ABI_MISSING_INPUT
  | input :: inputs =>
      if bool_decide (ksv_id input ∈ seen) then Some ABI_DUPLICATE_INPUT
      else
        match find_if (fun desc => kid_id desc =? ksv_id input) (ks_scalarInputs signature) with
        | None => Some ABI_UNKNOWN_INPUT
        | Some desc =>
            match input_error scalarWidthBits (kid_type desc) (ksv_bits input) with
            | Some error => Some error
            | None => inputs_error signature scalarWidthBits ({[ksv_id input]} ∪ seen) inputs
            end
        end
  end.

(** The loop over the preloaded words, with the addresses seen so far. *)
Fixpoint preload_error (preload : list (Z * Z)) (scratchpadDepth : Z) (addresses : gset Z)
    (items : list (Z * Z)) : option InvocationError :=
  match items with
  | [] => None
  | (address, value) :: items =>
      if scratchpadDepth <=? address then Some ABI_SCRATCHPAD_ADDRESS_OUT_OF_RANGE
      else if bool_decide (address ∈ addresses) &&
              bool_decide (is_Some (find_if (fun item => (item.1 =? address) && negb (item.2 =? value)) preload))
      then Some ABI_DUPLICATE_PRELOAD
      else preload_error preload scratchpadDepth ({[address]} ∪ addresses) items
  end.

(** [None]: the invocation is valid. *)
Definition validateInvocation (signature : KernelSignature) (invocation : KernelInvocation)
    (scratchpadDepth scalarWidthBits : Z) : option InvocationError :=
  if ki_tripCount invocation =? 0 then Some ABI_INVALID_TRIP_COUNT
  else
    match inputs_error signature scalarWidthBits ∅ (ki_scalarInputs invocation) with
    | Some error => Some error
    | None => preload_error (ki_scratchpadPreload invocation) scratchpadDepth ∅ (ki_scratchpadPreload invocation)
    end.

(** The target's word width as the 16-bit argument of [validateInvocation]. *)
Definition scalar_width (target : TargetModel) : Z := wrap16 (mem_widthBits (tm_memory target)).

(** ** KernelABILayout *)

Record KernelInputBinding := mkInputBinding {
  kib_input : Z;
  kib_specializedConstant : Z
}.

Record KernelOutputBinding := mkOutputBinding {
  kob_output : Z;
  kob_scratchpadAddress : Z;
  kob_abiStoreNode : Z;
  kob_addressConstant : Z
}.

Record KernelABILayout := mkLayout {
  kl_scratchpadDepth : Z;
  kl_userScratchpadLimit : Z;
  kl_outputRegionBase : Z;
  kl_inputs : list KernelInputBinding;
  kl_outputs : list KernelOutputBinding
}.

Record ABIBoundKernel := mkBoundKernel {
  bk_dfg : DFG;
  bk_signature : KernelSignature;
  bk_invocation : KernelInvocation;
  bk_layout : KernelABILayout
}.

(** The label the binder gives its stores, and the test for it. *)
Definition store_label_prefix : string := "abi.liveout.".
Definition store_label (output : Z) : string := (store_label_prefix ++ to_string output)%string.
Definition isABIOutputStore (node : Node) : bool :=
  match node_source node with
  | Some label => String.prefix store_label_prefix label
  | None => false
  end.

(** The constant of a memory access's address operand, when it has one: the first
    binding of that operand. *)
Definition address_constant (dfg : DFG) (node : Node) : option Z :=
  if negb (bool_decide (node_opcode node = OpLoad) || bool_decide (node_opcode node = OpStore)) ||
     bool_decide (node_memoryInfo node = None) || isABIOutputStore node then None
  else
    match find_if (fun item => (ob_node item =? node_id node) && (ob_operand item =? 0)) (d_bindings dfg) with
    | Some binding => match ob_source binding with ConstantRef value => Some value | _ => None end
    | None => None
    end.

(** ** Loops that report *)

(** A loop whose body reports diagnostics. *)
Fixpoint abi_each {A D} (f : A -> outcome (list D)) (l : list A) : outcome (list D) :=
  match l with
  | [] => mret []
  | x :: l => here ← f x; rest ← abi_each f l; mret (here ++ rest)
  end.

(** ** KernelABIVerifier *)

(** The failures, one constructor per message. *)
Inductive ABIDiagnostic :=
  | SourceInvalid
  | BoundInvalid
  | SignatureMismatch
  | InvocationInvalid (error : InvocationError)
  | TripCountDiffers
  | ScalarInputsDiffer
  | PreloadDiffers
  | NameChanged
  | TooManyLiveOuts
  | DepthMismatch
  | RegionMismatch
  | NodeChanged
  | ExternalChanged
  | ConstantChanged
  | LiveOutChanged
  | DuplicateInputBinding
  | SpecializedMissing
  | UnknownSourceExternal
  | SpecializedWrongType
  | SpecializedWrongValue
  | ExternalUnbound
  | ConstantUseChanged
  | UseHasNoBinding
  | UseNotRewritten
  | EdgeRemoved
  | EdgeTopologyChanged
  | DataEdgeChanged
  | PredicateEdgeChanged
  | MemoryEdgeChanged
  | OutputCountMismatch
  | OutputDuplicateOrUnknown
  | OutputsUnsorted
  | OutputAddressOrdinal
  | StoreShared
  | StoreUnbound
  | StoreCountMismatch
  | LiveOutUnbound
  | OutputAddressInvalid
  | StoreMissing
  | StoreNotMarked
  | AddressConstantMissing
  | AddressConstantWrong
  | StoreOperandsWrong
  | PreloadCollides
  | ReservedRegionAccess.

Definition inputBinding (layout : KernelABILayout) (id : Z) : option KernelInputBinding :=
  find_if (fun item => kib_input item =? id) (kl_inputs layout).
Definition outputBinding (layout : KernelABILayout) (id : Z) : option KernelOutputBinding :=
  find_if (fun item => kob_output item =? id) (kl_outputs layout).

(** A boundary source as the bound graph has to name it. *)
Definition specialize_source (specialized : gmap Z Z) (source : ExternalOperandBinding)
  : option ExternalOperandBinding :=
  match source with
  | ExternalValueRef external => ConstantRef <$> specialized !! external
  | ConstantRef constant => Some (ConstantRef constant)
  end.

Fixpoint same_values (lhs rhs : list RecurrenceBoundaryValue) (specialized : gmap Z Z) : bool :=
  match lhs, rhs with
  | [], [] => true
  | l :: lhs, r :: rhs =>
      match specialize_source specialized (rbv_value l) with
      | None => false
      | Some expected =>
          (rbv_iterationOffset l =? rbv_iterationOffset r) && bool_decide (expected = rbv_value r) &&
          same_values lhs rhs specialized
      end
  | _, _ => false
  end.

Definition sameBoundary (lhs rhs : option RecurrenceBoundary) (specialized : gmap Z Z) : bool :=
  match lhs, rhs with
  | None, None => true
  | Some lhs, Some rhs => (length lhs =? length rhs)%nat && same_values lhs rhs specialized
  | _, _ => false
  end.

Section Verify.
Context (source : DFG) (target : TargetModel) (invocation : KernelInvocation) (bound : ABIBoundKernel).

Let bdfg : DFG := bk_dfg bound.
Let layout : KernelABILayout := bk_layout bound.
Let depth : Z := mem_depth (tm_memory target).
Let liveOutCount : Z := Z.of_nat (length (d_liveOuts source)).

Definition abi_header : list ABIDiagnostic :=
  when (negb (report_ok (dfg_verify source))) [SourceInvalid] ++
  when (negb (report_ok (dfg_verify bdfg))) [BoundInvalid] ++
  when (bool_decide (bk_signature bound <>
          with_kernelName (ks_kernelName (bk_signature bound)) (inferSignature source))) [SignatureMismatch] ++
  match validateInvocation (bk_signature bound) invocation depth (scalar_width target) with
  | Some error => [InvocationInvalid error]
  | None => []
  end ++
  when (negb (ki_tripCount (bk_invocation bound) =? ki_tripCount invocation)) [TripCountDiffers] ++
  when (bool_decide (ki_scalarInputs (bk_invocation bound) <> ki_scalarInputs invocation))
    [ScalarInputsDiffer] ++
  when (bool_decide (ki_scratchpadPreload (bk_invocation bound) <> ki_scratchpadPreload invocation))
    [PreloadDiffers] ++
  when (negb (String.eqb (d_name bdfg) (d_name source))) [NameChanged] ++
  when (depth <? liveOutCount) [TooManyLiveOuts] ++
  let expectedOutputBase := if depth <? liveOutCount then 0 else depth - liveOutCount in
  when (negb (kl_scratchpadDepth layout =? depth)) [DepthMismatch] ++
  when (negb (kl_userScratchpadLimit layout =? expectedOutputBase) ||
        negb (kl_outputRegionBase layout =? expectedOutputBase)) [RegionMismatch].

(** [!contains(id) || read(id) != value]. *)
Definition unless_same {A} `{EqDecision A} (contains : bool) (actual : result A) (expected : A)
    (d : ABIDiagnostic) : outcome (list ABIDiagnostic) :=
  if contains then
    found ← run_call actual;
    mret (when (bool_decide (found <> expected)) [d])
  else mret [d].

Definition abi_originals : outcome (list ABIDiagnostic) :=
  nodes ← abi_each (fun node => unless_same (d_containsNode bdfg (node_id node))
    (d_node bdfg (node_id node)) node NodeChanged) (d_nodes source);
  externals ← abi_each (fun value => unless_same (d_containsExternal bdfg (ext_id value))
    (d_externalValue bdfg (ext_id value)) value ExternalChanged) (d_externalValues source);
  constants ← abi_each (fun value => unless_same (d_containsConstant bdfg (const_id value))
    (d_constant bdfg (const_id value)) value ConstantChanged) (d_constants source);
  liveOuts ← abi_each (fun value => unless_same (d_containsLiveOut bdfg (lo_id value))
    (d_liveOut bdfg (lo_id value)) value LiveOutChanged) (d_liveOuts source);
  mret (nodes ++ externals ++ constants ++ liveOuts).

Definition input_diags (input : KernelInputBinding) : outcome (list ABIDiagnostic) :=
  if negb (d_containsConstant bdfg (kib_specializedConstant input)) then mret [SpecializedMissing]
  else if negb (d_containsExternal source (kib_input input)) then mret [UnknownSourceExternal]
  else
    external ← run_call (d_externalValue source (kib_input input));
    specialized ← run_call (d_constant bdfg (kib_specializedConstant input));
    mret (when (bool_decide (const_type specialized <> ext_type external)) [SpecializedWrongType] ++
          match find_if (fun item => ksv_id item =? kib_input input) (ki_scalarInputs invocation) with
          | None => [SpecializedWrongValue]
          | Some value => when (negb (const_bits specialized =? ksv_bits value)) [SpecializedWrongValue]
          end).

(** The loop over the input bindings also fills the map [inputs]. *)
Fixpoint abi_inputs (inputs : gmap Z Z) (items : list KernelInputBinding)
  : outcome (list ABIDiagnostic * gmap Z Z) :=
  match items with
  | [] => mret ([], inputs)
  | input :: items =>
      let duplicate := when (bool_decide (is_Some (inputs !! kib_input input))) [DuplicateInputBinding] in
      here ← input_diags input;
      rest ← abi_inputs (<[kib_input input := kib_specializedConstant input]> inputs) items;
      mret (duplicate ++ here ++ rest.1, rest.2)
  end.

Definition abi_input_ids (inputs : gmap Z Z) : list ABIDiagnostic :=
  let sourceInputIds : gset Z := list_to_set (ext_id <$> d_externalValues source) in
  when (negb (size inputs =? size sourceInputIds)%nat) [ExternalUnbound] ++
  flat_map (fun item => when (negb (bool_decide (item.1 ∈ sourceInputIds))) [UnknownSourceExternal])
    (map_items inputs).

(** A use of a constant is kept; a use of an external value becomes one of its constant.
    A use without a binding is reported, and its null pointer then followed. *)
Definition abi_use (binding : OperandBinding) : outcome (list ABIDiagnostic) :=
  match ob_source binding with
  | ConstantRef _ =>
      mret (when (bool_decide (find_if (fun candidate => bool_decide (candidate = binding))
                    (d_bindings bdfg) = None)) [ConstantUseChanged])
  | ExternalValueRef external =>
      let found := inputBinding layout external in
      let unbound := when (bool_decide (found = None)) [UseHasNoBinding] in
      match find_if (fun candidate => (ob_node candidate =? ob_node binding) &&
                       (ob_operand candidate =? ob_operand binding)) (d_bindings bdfg) with
      | None => mret (unbound ++ [UseNotRewritten])
      | Some it =>
          match ob_source it with
          | ExternalValueRef _ => mret (unbound ++ [UseNotRewritten])
          | ConstantRef value =>
              found ← deref found;
              mret (unbound ++ when (negb (value =? kib_specializedConstant found)) [UseNotRewritten])
          end
      end
  end.

(** An edge of another kind is reported, and its information then read as the kind of
    the source edge. *)
Definition abi_edge (inputs : gmap Z Z) (edge : Edge) : outcome (list ABIDiagnostic) :=
  if negb (d_containsEdge bdfg (edge_id edge)) then mret [EdgeRemoved]
  else
    actual ← run_call (d_edge bdfg (edge_id edge));
    let topology := when (negb (edge_src actual =? edge_src edge) || negb (edge_dst actual =? edge_dst edge) ||
                          negb (edge_distance actual =? edge_distance edge) ||
                          bool_decide (Edge_kind actual <> Edge_kind edge)) [EdgeTopologyChanged] in
    match edge_info edge, edge_info actual with
    | DataEdgeInfo operand boundary, DataEdgeInfo operand' boundary' =>
        mret (topology ++ when (negb (operand =? operand') || negb (sameBoundary boundary boundary' inputs))
                [DataEdgeChanged])
    | PredicateEdgeInfo operand boundary, PredicateEdgeInfo operand' boundary' =>
        mret (topology ++ when (negb (operand =? operand') || negb (sameBoundary boundary boundary' inputs))
                [PredicateEdgeChanged])
    | MemoryEdgeInfo dependence, MemoryEdgeInfo dependence' =>
        mret (topology ++ when (bool_decide (dependence <> dependence')) [MemoryEdgeChanged])
    | _, _ => Raise BadVariantAccess
    end.

(** The loop over the output bindings, with the binding before and the identifiers seen. *)
Fixpoint abi_outputs (ordinal : Z) (previous : option Z) (seen : gset Z) (items : list KernelOutputBinding)
  : list ABIDiagnostic :=
  match items with
  | [] => []
  | item :: items =>
      when (bool_decide (kob_output item ∈ seen) || negb (d_containsLiveOut source (kob_output item)))
        [OutputDuplicateOrUnknown] ++
      match previous with
      | Some previous => when (kob_output item <=? previous) [OutputsUnsorted]
      | None => []
      end ++
      when (negb (kob_scratchpadAddress item =? kl_outputRegionBase layout + ordinal)) [OutputAddressOrdinal] ++
      abi_outputs (ordinal + 1) (Some (kob_output item)) ({[kob_output item]} ∪ seen) items
  end.

Definition abi_stores : list ABIDiagnostic :=
  let abiStoreNodes := kob_abiStoreNode <$> kl_outputs layout in
  let discovered := filter (fun node => isABIOutputStore node = true) (d_nodes bdfg) in
  let discoveredABIStores : gset Z := list_to_set (node_id <$> discovered) in
  ((fun _ => StoreShared) <$> duplicates id [] abiStoreNodes) ++
  flat_map (fun node => when (negb (bool_decide (node_id node ∈ abiStoreNodes))) [StoreUnbound]) discovered ++
  when (negb (size discoveredABIStores =? length (kl_outputs layout))%nat) [StoreCountMismatch].

(** The store of one live-out. *)
Definition address_constant_diags (binding : KernelOutputBinding) : outcome (list ABIDiagnostic) :=
  if negb (d_containsConstant bdfg (kob_addressConstant binding)) then mret [AddressConstantMissing]
  else
    constant ← run_call (d_constant bdfg (kob_addressConstant binding));
    mret (when (bool_decide (const_type constant <> vt_i32) ||
                negb (const_bits constant =? kob_scratchpadAddress binding)) [AddressConstantWrong]).

Definition is_address_binding (store constant : Z) (item : OperandBinding) : bool :=
  (ob_node item =? store) && (ob_operand item =? 0) && bool_decide (ob_source item = ConstantRef constant).
Definition is_value_edge (output : LiveOut) (edge : Edge) : bool :=
  match edge_info edge with
  | DataEdgeInfo operand _ => (edge_src edge =? lo_source output) && (operand =? 1)
  | _ => false
  end.
Definition is_self_waw (store : Z) (edge : Edge) : bool :=
  bool_decide (edge_info edge = MemoryEdgeInfo WAW) && (edge_src edge =? store) && (edge_dst edge =? store) &&
  (edge_distance edge =? 1).

(** Whether one of the edges with the given identifiers satisfies [p]; every one is read. *)
Fixpoint any_edge (p : Edge -> bool) (edges : list Z) : outcome bool :=
  match edges with
  | [] => mret false
  | id :: edges => edge ← run_call (d_edge bdfg id); rest ← any_edge p edges; mret (p edge || rest)
  end.

Definition store_diags (output : LiveOut) (binding : KernelOutputBinding) : outcome (list ABIDiagnostic) :=
  if negb (d_containsNode bdfg (kob_abiStoreNode binding)) then mret [StoreMissing]
  else
    store ← run_call (d_node bdfg (kob_abiStoreNode binding));
    let unmarked := when (bool_decide (node_opcode store <> OpStore) ||
      bool_decide (node_source store <> Some (store_label (lo_id output)))) [StoreNotMarked] in
    address ← address_constant_diags binding;
    let addressOk := existsb (is_address_binding (node_id store) (kob_addressConstant binding)) (d_bindings bdfg) in
    incoming ← run_call (d_incomingOf bdfg (node_id store));
    dataOk ← any_edge (is_value_edge output) incoming;
    outgoing ← run_call (d_outgoingOf bdfg (node_id store));
    wawOk ← any_edge (is_self_waw (node_id store)) outgoing;
    mret (unmarked ++ address ++ when (negb addressOk || negb dataOk || negb wawOk) [StoreOperandsWrong]).

(** The loop over the live-outs, with the addresses seen. *)
Fixpoint abi_liveOuts (addresses : gset Z) (outputs : list LiveOut) : outcome (list ABIDiagnostic) :=
  match outputs with
  | [] => mret []
  | output :: outputs =>
      match outputBinding layout (lo_id output) with
      | None => rest ← abi_liveOuts addresses outputs; mret (LiveOutUnbound :: rest)
      | Some binding =>
          let address := kob_scratchpadAddress binding in
          let region := when (bool_decide (address ∈ addresses) || (kl_scratchpadDepth layout <=? address) ||
                              (address <? kl_outputRegionBase layout)) [OutputAddressInvalid] in
          here ← store_diags output binding;
          rest ← abi_liveOuts ({[address]} ∪ addresses) outputs;
          mret (region ++ here ++ rest)
      end
  end.

Definition no_outputs : bool := bool_decide (kl_outputs layout = []).

Definition abi_preload : list ABIDiagnostic :=
  flat_map (fun item => when ((kl_outputRegionBase layout <=? item.1) && negb no_outputs) [PreloadCollides])
    (ki_scratchpadPreload invocation).

Definition abi_access (node : Node) : outcome (list ABIDiagnostic) :=
  match address_constant bdfg node with
  | None => mret []
  | Some value =>
      constant ← run_call (d_constant bdfg value);
      mret (when (negb no_outputs && (kl_outputRegionBase layout <=? const_bits constant) &&
                  (const_bits constant <? kl_scratchpadDepth layout)) [ReservedRegionAccess])
  end.

(** [KernelABIVerifier::verify]. *)
Definition abi_verify : outcome (list ABIDiagnostic) :=
  originals ← abi_originals;
  bindings ← abi_inputs ∅ (kl_inputs layout);
  let inputs := bindings.2 in
  uses ← abi_each abi_use (d_bindings source);
  edges ← abi_each (abi_edge inputs) (d_edges source);
  let counts := when (negb (length (kl_outputs layout) =? length (d_liveOuts source))%nat) [OutputCountMismatch] in
  liveOuts ← abi_liveOuts ∅ (d_liveOuts source);
  accesses ← abi_each abi_access (d_nodes bdfg);
  mret (abi_header ++ originals ++ bindings.1 ++ abi_input_ids inputs ++ uses ++ edges ++ counts ++
        abi_outputs 0 None ∅ (kl_outputs layout) ++ abi_stores ++ liveOuts ++ abi_preload ++ accesses).
End Verify.

(** ** KernelABIBinder *)

Inductive KernelABIBindingStatus :=
  | KBSuccess
  | KBInvalidSourceDFG
  | KBInvalidInvocation
  | KBUnsupportedInputType
  | KBUnsupportedLiveOutType
  | KBScratchpadABIRegionConflict
  | KBScratchpadABICapacityExceeded
  | KBBindingFailure
  | KBVerificationFailure.

#[export] Instance KernelABIBindingStatus_eq_dec : EqDecision KernelABIBindingStatus.
Proof. solve_decision. Defined.

Definition KernelABIBindingStatus_toString (status : KernelABIBindingStatus) : string :=
  match status with
  | KBSuccess => "success"
  | KBInvalidSourceDFG => "invalid_source_dfg"
  | KBInvalidInvocation => "invalid_invocation"
  | KBUnsupportedInputType => "unsupported_input_type"
  | KBUnsupportedLiveOutType => "unsupported_liveout_type"
  | KBScratchpadABIRegionConflict => "scratchpad_abi_region_conflict"
  | KBScratchpadABICapacityExceeded => "scratchpad_abi_capacity_exceeded"
  | KBBindingFailure => "binding_failure"
  | KBVerificationFailure => "verification_failure"
  end.

(** The diagnostics are their codes. *)
Record KernelABIBindingResult := mkBindingResult {
  kr_status : KernelABIBindingStatus;
  kr_bound : option ABIBoundKernel;
  kr_diagnostics : list string
}.

Definition binding_ok (r : KernelABIBindingResult) : bool :=
  bool_decide (kr_status r = KBSuccess) && bool_decide (is_Some (kr_bound r)).

Definition refused (status : KernelABIBindingStatus) (code : string) : KernelABIBindingResult :=
  mkBindingResult status None [code].

(** [false]: a constant address lies in the output region. *)
Fixpoint checkReservedMemoryAddresses (dfg : DFG) (outputBase scratchpadDepth : Z) (nodes : list Node)
  : result bool :=
  match nodes with
  | [] => Ok true
  | node :: nodes =>
      match address_constant dfg node with
      | None => checkReservedMemoryAddresses dfg outputBase scratchpadDepth nodes
      | Some value =>
          constant ← d_constant dfg value;
          if (outputBase <=? const_bits constant) && (const_bits constant <? scratchpadDepth) then Ok false
          else checkReservedMemoryAddresses dfg outputBase scratchpadDepth nodes
      end
  end.

(** [nextId] and [nextNodeId]: they differ in the element type. *)
Fixpoint next_id (next : Z) (ids : list Z) : result Z :=
  match ids with
  | [] => Ok next
  | id :: ids => if id =? u32_max then Throw OverflowError else next_id (Z.max next (id + 1)) ids
  end.
Definition nextId (values : list ConstantValue) : result Z := next_id 0 (const_id <$> values).
Definition nextNodeId (values : list Node) : result Z := next_id 0 (node_id <$> values).

(** A builder call, and a loop of calls. *)
Definition build_call (call : DFGBuilder * result Z) : result DFGBuilder :=
  match call with (b, Ok _) => Ok b | (_, Throw e) => Throw e end.
Fixpoint build_each {A} (f : DFGBuilder -> A -> DFGBuilder * result Z) (l : list A) (b : DFGBuilder)
  : result DFGBuilder :=
  match l with
  | [] => Ok b
  | x :: l => b ← build_call (f b x); build_each f l b
  end.

(** The parts of the source that are taken over as they are. *)
Definition import_source (source : DFG) : result DFGBuilder :=
  b ← build_each importExternal (d_externalValues source) (DFGBuilder_new (d_name source));
  b ← build_each importConstant (d_constants source) b;
  b ← build_each importNode (d_nodes source) b;
  build_each importLiveOut (d_liveOuts source) b.

(** One constant for every scalar input, with the bits of the invocation. *)
Fixpoint specialize_inputs (inputs : list KernelScalarInputValue) (constantStart : Z)
    (descs : list KernelInputDesc) (specialized : gmap Z Z) (b : DFGBuilder)
  : result (gmap Z Z * DFGBuilder) :=
  match descs with
  | [] => Ok (specialized, b)
  | desc :: descs =>
      input ← of_option InvalidArgument (find_if (fun value => ksv_id value =? kid_id desc) inputs);
      let id := wrap32 (constantStart + Z.of_nat (size specialized)) in
      b ← build_call (importConstant b (mkConstantValue id (kid_type desc) (ksv_bits input)));
      let specialized :=
        if bool_decide (is_Some (specialized !! kid_id desc)) then specialized
        else <[kid_id desc := id]> specialized in
      specialize_inputs inputs constantStart descs specialized b
  end.

Fixpoint rewrite_values (specialized : gmap Z Z) (values : list RecurrenceBoundaryValue)
  : result (list RecurrenceBoundaryValue) :=
  match values with
  | [] => Ok []
  | item :: values =>
      value ← of_option InvalidArgument (specialize_source specialized (rbv_value item));
      rest ← rewrite_values specialized values;
      Ok (mkRecurrenceBoundaryValue (rbv_iterationOffset item) value :: rest)
  end.

Definition rewriteBoundary (specialized : gmap Z Z) (boundary : option RecurrenceBoundary)
  : result (option RecurrenceBoundary) :=
  match boundary with
  | None => Ok None
  | Some values => values ← rewrite_values specialized values; Ok (Some values)
  end.

Definition rewrite_edge (specialized : gmap Z Z) (edge : Edge) : result Edge :=
  info ← match edge_info edge with
         | DataEdgeInfo operand boundary =>
             boundary ← rewriteBoundary specialized boundary; Ok (DataEdgeInfo operand boundary)
         | PredicateEdgeInfo operand boundary =>
             boundary ← rewriteBoundary specialized boundary; Ok (PredicateEdgeInfo operand boundary)
         | MemoryEdgeInfo dependence => Ok (MemoryEdgeInfo dependence)
         end;
  Ok (mkEdge (edge_id edge) (edge_src edge) (edge_dst edge) (edge_distance edge) info).

Fixpoint import_edges (specialized : gmap Z Z) (edges : list Edge) (b : DFGBuilder) : result DFGBuilder :=
  match edges with
  | [] => Ok b
  | edge :: edges =>
      copy ← rewrite_edge specialized edge;
      b ← build_call (importEdge b copy);
      import_edges specialized edges b
  end.

Fixpoint import_bindings (specialized : gmap Z Z) (bindings : list OperandBinding) (b : DFGBuilder)
  : result DFGBuilder :=
  match bindings with
  | [] => Ok b
  | binding :: bindings =>
      constant ← match ob_source binding with
                 | ExternalValueRef external => of_option OutOfRange (specialized !! external)
                 | ConstantRef value => Ok value
                 end;
      b ← build_call (bindConstant b (ob_node binding) (ob_operand binding) constant);
      import_bindings specialized bindings b
  end.

Section Bind.
Context (source : DFG) (target : TargetModel) (invocation : KernelInvocation).

Let depth : Z := mem_depth (tm_memory target).
Let widthBits : Z := mem_widthBits (tm_memory target).

(** The store of a live-out, its address constant, its value edge and the edge that
    orders it after its previous execution. *)
Definition bind_output (b : DFGBuilder) (output : LiveOut) (address addressConstant storeNode : Z)
  : result DFGBuilder :=
  b ← build_call (importConstant b (mkConstantValue addressConstant vt_i32 address));
  b ← build_call (importNode b (mkNode storeNode OpStore voidTy [vt_i32; lo_type output] None
                                  (Some (mkMemoryOpInfo widthBits false)) (Some (store_label (lo_id output)))));
  b ← build_call (bindConstant b storeNode 0 addressConstant);
  b ← build_call (addDataEdge b (lo_source output) storeNode 1 0 None);
  build_call (addMemoryEdge b storeNode storeNode WAW 1).

(** The loop over the live-outs; [None]: one has another type than the machine's word. *)
Fixpoint bind_outputs (outputBase nextNode nextConstant : Z) (outputs : list LiveOut)
    (bindings : list KernelOutputBinding) (b : DFGBuilder)
  : result (option (list KernelOutputBinding * DFGBuilder)) :=
  match outputs with
  | [] => Ok (Some (bindings, b))
  | output :: outputs =>
      if bool_decide (vt_kind (lo_type output) <> KInteger) || negb (vt_bitWidth (lo_type output) =? widthBits)
      then Ok None
      else
        let address := wrap32 (outputBase + Z.of_nat (length bindings)) in
        b ← bind_output b output address nextConstant nextNode;
        bind_outputs outputBase (wrap32 (nextNode + 1)) (wrap32 (nextConstant + 1)) outputs
          (bindings ++ [mkOutputBinding (lo_id output) address nextNode nextConstant]) b
  end.

(** The graph and the layout the [try] block builds. *)
Definition bind_graph (signature : KernelSignature) (outputBase : Z) : result (option ABIBoundKernel) :=
  b ← import_source source;
  constantStart ← nextId (d_constants source);
  '(specialized, b) ← specialize_inputs (ki_scalarInputs invocation) constantStart
                        (ks_scalarInputs signature) ∅ b;
  b ← import_edges specialized (d_edges source) b;
  b ← import_bindings specialized (d_bindings source) b;
  nextNode ← nextNodeId (d_nodes source);
  let nextConstant := wrap32 (constantStart + Z.of_nat (size specialized)) in
  outputs ← bind_outputs outputBase nextNode nextConstant (sort_by lo_id (d_liveOuts source)) [] b;
  match outputs with
  | None => Ok None
  | Some (bindings, b) =>
      let inputs := (fun item => mkInputBinding item.1 item.2) <$> map_items specialized in
      Ok (Some (mkBoundKernel (b_dfg b) signature invocation
                  (mkLayout depth outputBase outputBase inputs bindings)))
  end.

(** The whole [try] block. *)
Definition bind_body (signature : KernelSignature) (outputBase : Z) : outcome KernelABIBindingResult :=
  graph ← run_call (bind_graph signature outputBase);
  match graph with
  | None => mret (refused KBUnsupportedLiveOutType "ABI_UNSUPPORTED_LIVEOUT_TYPE")
  | Some bound =>
      free ← run_call (checkReservedMemoryAddresses (bk_dfg bound) outputBase depth (d_nodes (bk_dfg bound)));
      if negb free then mret (refused KBScratchpadABIRegionConflict "ABI_RESERVED_OUTPUT_REGION_ACCESS")
      else
        verification ← abi_verify source target invocation bound;
        match verification with
        | [] => mret (mkBindingResult KBSuccess (Some bound) [])
        | _ => mret (refused KBVerificationFailure "ABI_FINAL_VERIFICATION_FAILED")
        end
  end.

(** [KernelABIBinder::bind]; [None]: the verifier's behaviour is undefined. *)
Definition bind (kernelName : string) : option KernelABIBindingResult :=
  if negb (report_ok (dfg_verify source)) then Some (refused KBInvalidSourceDFG "ABI_INVALID_SOURCE_DFG")
  else
    let signature := inferSignature source in
    let signature := if String.eqb kernelName "" then signature else with_kernelName kernelName signature in
    if negb (bool_decide (NoDup (kid_name <$> ks_scalarInputs signature)))
    then Some (refused KBInvalidSourceDFG "ABI_AMBIGUOUS_INPUT_NAME")
    else if bool_decide (is_Some (validateInvocation signature invocation depth (scalar_width target)))
    then Some (refused KBInvalidInvocation "ABI_INVALID_INVOCATION")
    else
      let outputCount := Z.of_nat (length (d_liveOuts source)) in
      if depth <? outputCount
      then Some (refused KBScratchpadABICapacityExceeded "ABI_OUTPUT_REGION_TOO_SMALL")
      else
        let outputBase := depth - outputCount in
        if existsb (fun item => (outputBase <=? item.1) && negb (outputCount =? 0)) (ki_scratchpadPreload invocation)
        then Some (refused KBScratchpadABIRegionConflict "ABI_SCRATCHPAD_PRELOAD_COLLISION")
        else
          match bind_body signature outputBase with
          | Done r => Some r
          | Raise _ => Some (refused KBBindingFailure "ABI_BINDING_FAILED")
          | Undefined => None
          end.
End Bind.

(** ** CompileKernel *)

Inductive KernelCompileStatus :=
  | KSuccess
  | KInvalidSourceDFG
  | KInvalidInvocation
  | KABIBindingFailure
  | KABIVerificationFailure
  | KBackendCompilationFailure
  | KInternalError.

#[export] Instance KernelCompileStatus_eq_dec : EqDecision KernelCompileStatus.
Proof. solve_decision. Defined.

Definition KernelCompileStatus_toString (status : KernelCompileStatus) : string :=
  match status with
  | KSuccess => "success"
  | KInvalidSourceDFG => "invalid_source_dfg"
  | KInvalidInvocation => "invalid_invocation"
  | KABIBindingFailure => "abi_binding_failure"
  | KABIVerificationFailure => "abi_verification_failure"
  | KBackendCompilationFailure => "backend_compilation_failure"
  | KInternalError => "internal_error"
  end.

Record CompileKernelOptions := mkKernelOptions {
  kc_invocation : KernelInvocation;
  kc_kernelName : string;
  kc_backend : CompileDFGOptions
}.

Record CompileKernelResult := mkKernelResult {
  kcr_status : KernelCompileStatus;
  kcr_signature : option KernelSignature;
  kcr_abiLayout : option KernelABILayout;
  kcr_bound : option ABIBoundKernel;
  kcr_backend : option CompileDFGResult;
  kcr_artifacts : list string
}.

Definition kernel_ok (r : CompileKernelResult) : bool :=
  bool_decide (kcr_status r = KSuccess) &&
  match kcr_backend r with Some backend => compile_ok backend | None => false end.

(** The files written before the backend runs. *)
Definition kernel_artifacts : list string :=
  ["00_source.generic_dfg.json"; "01_kernel_signature.json"; "02_kernel_invocation.json";
   "03_abi_bound.generic_dfg.json"; "04_kernel_abi_layout.json"; "05_abi_verification.json"].

(** What the backend sees, whether the directory it names can be made, and which files can
    be rendered and written there. *)
Record KernelEnvironment := mkKernelEnvironment {
  ke_create : bool;
  ke_store : string -> bool;
  ke_backend : Environment
}.

Definition ke_directory (env : KernelEnvironment) : bool := env_directory (ke_backend env).

Definition write_kernel (env : KernelEnvironment) (names : list string) : result unit :=
  if negb (ke_directory env) then Ok tt
  else if forallb (ke_store env) names then Ok tt else Throw RuntimeError.

Definition binding_failure_status (status : KernelABIBindingStatus) : KernelCompileStatus :=
  match status with
  | KBInvalidSourceDFG => KInvalidSourceDFG
  | KBInvalidInvocation => KInvalidInvocation
  | _ => KABIBindingFailure
  end.

(** The options the backend runs with: the invocation decides the trip count and the
    preloaded words, and the kernel names a nameless program. *)
Definition kernel_backend_options (signature : KernelSignature) (options : CompileKernelOptions)
  : CompileDFGOptions :=
  let o := kc_backend options in
  mkCompileOptions (ki_tripCount (kc_invocation options)) (co_targetPath o) (co_mapper o) (co_rfAllocation o)
    (co_materializationBudget o) (ki_scratchpadPreload (kc_invocation options))
    (if String.eqb (co_programName o) "" then ks_kernelName signature else co_programName o).

(** [compileKernel]; a failing file system makes it throw. *)
Definition compileKernel (env : KernelEnvironment) (source : DFG) (target : TargetModel)
    (options : CompileKernelOptions) : outcome CompileKernelResult :=
  let signature := inferSignature source in
  let signature := if String.eqb (kc_kernelName options) "" then signature
                   else with_kernelName (kc_kernelName options) signature in
  bound ← deref (bind source target (kc_invocation options) (ks_kernelName signature));
  match (if binding_ok bound then kr_bound bound else None) with
  | None => mret (mkKernelResult (binding_failure_status (kr_status bound)) (Some signature) None None None [])
  | Some kernel =>
      let layout := Some (bk_layout kernel) in
      verification ← abi_verify source target (kc_invocation options) kernel;
      if negb (bool_decide (verification = []))
      then mret (mkKernelResult KABIVerificationFailure (Some signature) layout (Some kernel) None [])
      else
        _ ← run_call (if ke_directory env && negb (ke_create env) then Throw RuntimeError
                      else write_kernel env kernel_artifacts);
        let artifacts := if ke_directory env then kernel_artifacts else [] in
        backend ← deref (compileGenericDFG (ke_backend env) (bk_dfg kernel) target
                               (kernel_backend_options signature options));
        _ ← run_call (write_kernel env ["kernel_compile_result.json"]);
        mret (if compile_ok backend
              then mkKernelResult KSuccess (Some signature) layout (Some kernel) (Some backend)
                     (artifacts ++ cr_artifacts backend)
              else mkKernelResult KBackendCompilationFailure (Some signature) layout (Some kernel)
                     (Some backend) artifacts)
  end.
