(* ===== verification/KernelABIVerified.v ===== *)
(** * What a verified kernel binding is

    The rules of a valid invocation and of a bound kernel, and the proofs that
    [validateInvocation] and [abi_verify] of [KernelABI] decide them. *)
From Stdlib Require Import Sorted.
From stdpp Require Import base numbers list gmap strings sorting.
From S2P Require Import Prelude.
From S2P Require Import IR.
From S2P Require Import DFG.
From S2P Require Import DFGVerifier.
From S2P Require Import TargetModel.
From S2P Require Import CgraV2.
From S2P Require Import KernelABI.

(** ** Invocations *)

(** A bit pattern of a type that kernels may take. *)
Definition scalar_fits (width : Z) (type : ValueType) (bits : Z) : Prop :=
  (vt_kind type = KInteger /\ vt_bitWidth type = width \/ vt_kind type = KPredicate /\ bits <= 1) /\
  (vt_bitWidth type < 64 -> bits < 2 ^ vt_bitWidth type).

Definition supported_input (width : Z) (type : ValueType) : Prop :=
  vt_kind type = KInteger /\ vt_bitWidth type = width \/ vt_kind type = KPredicate.

(** Bit patterns and widths are unsigned. *)
Definition typed_invocation (signature : KernelSignature) (invocation : KernelInvocation) : Prop :=
  (forall input, input ∈ ki_scalarInputs invocation -> 0 <= ksv_bits input) /\
  (forall desc, desc ∈ ks_scalarInputs signature -> 0 <= vt_bitWidth (kid_type desc)).

Section Invocation.
Context (signature : KernelSignature) (invocation : KernelInvocation) (depth width : Z).

(** A positive trip count, one value of its type for every scalar input, and a preload
    that says one thing about each address of the scratchpad. *)
Record invocation_valid : Prop := {
  iv_trip : ki_tripCount invocation <> 0;
  iv_once : NoDup (ksv_id <$> ki_scalarInputs invocation);
  iv_fits : forall input, input ∈ ki_scalarInputs invocation -> exists desc,
    desc ∈ ks_scalarInputs signature /\ kid_id desc = ksv_id input /\
    scalar_fits width (kid_type desc) (ksv_bits input);
  iv_all : forall desc, desc ∈ ks_scalarInputs signature ->
    kid_id desc ∈ ksv_id <$> ki_scalarInputs invocation;
  iv_addresses : forall address value, (address, value) ∈ ki_scratchpadPreload invocation -> address < depth;
  iv_consistent : forall address v w, (address, v) ∈ ki_scratchpadPreload invocation ->
    (address, w) ∈ ki_scratchpadPreload invocation -> v = w
}.

(** What each code says. *)
Definition invocation_error (error : InvocationError) : Prop :=
  match error with
  | ABI_INVALID_TRIP_COUNT => ki_tripCount invocation = 0
  | ABI_DUPLICATE_INPUT => ~ NoDup (ksv_id <$> ki_scalarInputs invocation)
  | ABI_UNKNOWN_INPUT => exists input, input ∈ ki_scalarInputs invocation /\
      ksv_id input ∉ kid_id <$> ks_scalarInputs signature
  | ABI_INPUT_TYPE_MISMATCH => exists input desc, input ∈ ki_scalarInputs invocation /\
      desc ∈ ks_scalarInputs signature /\ kid_id desc = ksv_id input /\
      ~ scalar_fits width (kid_type desc) (ksv_bits input)
  | ABI_UNSUPPORTED_INPUT_TYPE => exists desc, desc ∈ ks_scalarInputs signature /\
      ~ supported_input width (kid_type desc)
  | ABI_MISSING_INPUT => exists desc, desc ∈ ks_scalarInputs signature /\
      kid_id desc ∉ ksv_id <$> ki_scalarInputs invocation
  | ABI_SCRATCHPAD_ADDRESS_OUT_OF_RANGE => exists address value,
      (address, value) ∈ ki_scratchpadPreload invocation /\ depth <= address
  | ABI_DUPLICATE_PRELOAD => exists address v w, (address, v) ∈ ki_scratchpadPreload invocation /\
      (address, w) ∈ ki_scratchpadPreload invocation /\ v <> w
  end.

Lemma shiftr_fits bits w : 0 <= bits -> 0 <= w -> Z.shiftr bits w = 0 <-> bits < 2 ^ w.
Proof using Type.
  intros Hb Hw. rewrite Z.shiftr_div_pow2 by done. split.
  - intros H. apply Z.div_small_iff in H; [|lia]. lia.
  - intros H. apply Z.div_small. lia.
Qed.

Lemma input_error_exact type bits : 0 <= bits -> 0 <= vt_bitWidth type ->
  match input_error width type bits with
  | None => scalar_fits width type bits
  | Some ABI_INPUT_TYPE_MISMATCH => ~ scalar_fits width type bits
  | Some ABI_UNSUPPORTED_INPUT_TYPE => ~ supported_input width type
  | Some _ => False
  end.
Proof using Type.
  intros Hb Hw. unfold input_error, scalar_fits, supported_input.
  destruct (Z.ltb_spec (vt_bitWidth type) 64) as [H64|H64]; simpl.
  - destruct (Z.eqb_spec (Z.shiftr bits (vt_bitWidth type)) 0) as [E|E]; simpl.
    2: { rewrite shiftr_fits in E by done. naive_solver. }
    rewrite shiftr_fits in E by done. destruct (vt_kind type); simpl; try (intros [[]|]; congruence);
      try (destruct (Z.eqb_spec (vt_bitWidth type) width); simpl); try (destruct (Z.ltb_spec 1 bits)); naive_solver lia.
  - destruct (vt_kind type); simpl; try (intros [[]|]; congruence);
      try (destruct (Z.eqb_spec (vt_bitWidth type) width); simpl); try (destruct (Z.ltb_spec 1 bits)); naive_solver lia.
Qed.

Lemma preload_error_exact before items :
  ki_scratchpadPreload invocation = before ++ items ->
  (forall address value, (address, value) ∈ before -> address < depth) ->
  (forall address v w, (address, v) ∈ before -> (address, w) ∈ before -> v = w) ->
  match preload_error (ki_scratchpadPreload invocation) depth (list_to_set before.*1) items with
  | Some error => invocation_error error
  | None => (forall address value, (address, value) ∈ ki_scratchpadPreload invocation -> address < depth) /\
      (forall address v w, (address, v) ∈ ki_scratchpadPreload invocation ->
         (address, w) ∈ ki_scratchpadPreload invocation -> v = w)
  end.
Proof using Type.
  revert before. induction items as [|[address value] items IH]; intros before E Hlt Hone; simpl.
  - rewrite app_nil_r in E. by rewrite E.
  - assert (Hin : (address, value) ∈ ki_scratchpadPreload invocation) by (rewrite E; set_solver).
    destruct (Z.leb_spec depth address) as [H|H]; [by exists address, value|].
    destruct (bool_decide (address ∈ list_to_set before.*1) && _) eqn:Ed.
    + apply andb_true_iff in Ed as [_ Hf]. apply bool_decide_eq_true in Hf as [[a w] Hf].
      apply find_if_Some in Hf as [Hi Hc]. simpl in Hc. apply andb_true_iff in Hc as [Ea%Z.eqb_eq Ew].
      subst a. exists address, w, value. split_and!; [done|done|].
      intros ->. by rewrite Z.eqb_refl in Ew.
    + replace ({[address]} ∪ list_to_set before.*1 : gset Z)
        with (list_to_set (before ++ [(address, value)]).*1 : gset Z) by (rewrite fmap_app; set_solver).
      assert (Hnew : forall w, (address, w) ∈ before -> w = value).
      { intros w Hw. apply andb_false_iff in Ed as [Ed|Ed]; apply bool_decide_eq_false in Ed.
        - exfalso. apply Ed, elem_of_list_to_set. by apply (list_elem_of_fmap_2 fst) in Hw.
        - destruct (decide (w = value)) as [|Hne]; [done|]. exfalso. apply Ed, find_if_is_Some.
          exists (address, w). split; [rewrite E; set_solver|]. simpl. rewrite Z.eqb_refl. simpl.
          by apply negb_true_iff, Z.eqb_neq. }
      apply IH; [by rewrite <- app_assoc| |].
      * intros a v Hv. apply elem_of_app in Hv as [Hv|[= -> ->]%list_elem_of_singleton]; eauto.
      * assert (Hcase : forall a v, (a, v) ∈ before ++ [(address, value)] ->
          (a, v) ∈ before \/ a = address /\ v = value) by (intros a v; set_solver).
        intros a v w [Hv|[-> ->]]%Hcase [Hw|[Ea Ew]]%Hcase; subst; eauto. symmetry. eauto.
Qed.

Context (Htyped : typed_invocation signature invocation).
Context (Hids : NoDup (kid_id <$> ks_scalarInputs signature)).

(** The inputs checked so far are distinct and fit. *)
Lemma inputs_error_exact before inputs :
  ki_scalarInputs invocation = before ++ inputs -> NoDup (ksv_id <$> before) ->
  (forall input, input ∈ before -> exists desc, desc ∈ ks_scalarInputs signature /\
     kid_id desc = ksv_id input /\ scalar_fits width (kid_type desc) (ksv_bits input)) ->
  match inputs_error signature width (list_to_set (ksv_id <$> before)) inputs with
  | Some error => invocation_error error
  | None => NoDup (ksv_id <$> ki_scalarInputs invocation) /\
      (forall input, input ∈ ki_scalarInputs invocation -> exists desc, desc ∈ ks_scalarInputs signature /\
         kid_id desc = ksv_id input /\ scalar_fits width (kid_type desc) (ksv_bits input)) /\
      forall desc, desc ∈ ks_scalarInputs signature -> kid_id desc ∈ ksv_id <$> ki_scalarInputs invocation
  end.
Proof using Htyped Hids.
  revert before. induction inputs as [|input inputs IH]; intros before E Hnd Hfits; simpl.
  - rewrite app_nil_r in E. rewrite E in *.
    assert (Hsub : ksv_id <$> before ⊆ kid_id <$> ks_scalarInputs signature).
    { intros x (input & -> & Hi)%list_elem_of_fmap. destruct (Hfits _ Hi) as (desc & Hd & <- & _).
      by apply list_elem_of_fmap_2. }
    rewrite size_list_to_set, length_fmap by done.
    destruct (Z.eqb_spec (Z.of_nat (length before)) (Z.of_nat (length (ks_scalarInputs signature)))) as [El|El].
    + split_and!; [done|done|]. intros desc Hd.
      assert (Hp : ksv_id <$> before ≡ₚ kid_id <$> ks_scalarInputs signature).
      { apply submseteq_length_Permutation; [by apply NoDup_submseteq|]. rewrite !length_fmap. lia. }
      rewrite Hp. by apply list_elem_of_fmap_2.
    + simpl. rewrite E. destruct (decide (Forall (fun desc => kid_id desc ∈ ksv_id <$> before)
        (ks_scalarInputs signature))) as [Hall|Hex].
      * exfalso. apply El. f_equal. rewrite <- (length_fmap ksv_id), <- (length_fmap kid_id).
        apply Nat.le_antisymm; apply submseteq_length, NoDup_submseteq; try done.
        intros x (desc & -> & Hd)%list_elem_of_fmap. rewrite Forall_forall in Hall. auto.
      * apply not_Forall_Exists, Exists_exists in Hex; [|apply _]. naive_solver.
  - assert (Hin : input ∈ ki_scalarInputs invocation) by (rewrite E; set_solver).
    case_bool_decide as Hseen.
    { simpl. rewrite E, fmap_app, fmap_cons, NoDup_app. intros (_ & Hdis & _).
      apply (Hdis (ksv_id input)); [set_solver|left]. }
    destruct (find_if _ _) as [desc|] eqn:Ef.
    2: { exists input. split; [done|]. intros (desc & Ed & Hd)%list_elem_of_fmap.
         apply (proj1 (find_if_None _ _)) with (x := desc) in Ef; [|done]. lia. }
    apply find_if_Some in Ef as [Hd Ed]. apply Z.eqb_eq in Ed.
    pose proof (input_error_exact (kid_type desc) (ksv_bits input)
      (proj1 Htyped _ Hin) (proj2 Htyped _ Hd)) as Herr.
    destruct (input_error width _ _) as [[]|]; try done; simpl; eauto 10.
    replace ({[ksv_id input]} ∪ list_to_set (ksv_id <$> before) : gset Z)
      with (list_to_set (ksv_id <$> before ++ [input]) : gset Z) by (rewrite fmap_app; set_solver).
    apply IH; [by rewrite <- app_assoc| |].
    + rewrite fmap_app, NoDup_app. simpl. split_and!; [done|set_solver|apply NoDup_singleton].
    + intros x Hx. split_snoc Hx; eauto.
Qed.

Lemma invocation_error_invalid error : invocation_error error -> ~ invocation_valid \/ error = ABI_UNSUPPORTED_INPUT_TYPE.
Proof using Hids.
  destruct error; simpl; intros H; try (by right); left; intros [].
  - done.
  - done.
  - destruct H as (input & Hi & Hn). destruct (iv_fits0 _ Hi) as (desc & Hd & E & _). apply Hn. rewrite <- E.
    by apply list_elem_of_fmap_2.
  - destruct H as (input & desc & Hi & Hd & E & Hn). destruct (iv_fits0 _ Hi) as (desc' & Hd' & E' & Hf).
    assert (desc = desc') as -> by (eapply (NoDup_key_eq kid_id); eauto; congruence). done.
  - destruct H as (desc & Hd & Hn). auto.
  - destruct H as (address & value & Hin & Hle). specialize (iv_addresses0 _ _ Hin). lia.
  - destruct H as (address & v & w & Hv & Hw & Hne). eauto.
Qed.

(** [validateInvocation] decides validity, and its code is right. *)
Lemma validateInvocation_spec :
  match validateInvocation signature invocation depth width with
  | None => invocation_valid
  | Some error => invocation_error error /\ ~ invocation_valid
  end.
Proof using Htyped Hids.
  assert (Hinv : forall error, invocation_error error -> invocation_error error /\ ~ invocation_valid).
  { intros error He. split; [done|]. destruct (invocation_error_invalid error He) as [H|E]; [done|subst error].
    destruct He as (desc & Hd & Hn). intros [_ _ Hf Ha _ _].
    apply Ha in Hd as Hi. apply list_elem_of_fmap in Hi as (input & E & Hi).
    destruct (Hf _ Hi) as (desc' & Hd' & E' & [H _]).
    assert (desc = desc') as -> by (eapply (NoDup_key_eq kid_id); eauto; congruence).
    apply Hn. unfold supported_input. tauto. }
  unfold validateInvocation. destruct (Z.eqb_spec (ki_tripCount invocation) 0) as [E|E]; [by apply Hinv|].
  pose proof (inputs_error_exact [] (ki_scalarInputs invocation) eq_refl ltac:(constructor)
    ltac:(set_solver)) as Hi. change (list_to_set (ksv_id <$> [])) with (∅ : gset Z) in Hi.
  destruct (inputs_error _ _ _ _); [by apply Hinv|].
  pose proof (preload_error_exact [] (ki_scratchpadPreload invocation) eq_refl
    ltac:(set_solver) ltac:(set_solver)) as Hp. change (list_to_set [].*1) with (∅ : gset Z) in Hp.
  destruct (preload_error _ _ _ _); [by apply Hinv|]. destruct Hi as (? & ? & ?), Hp. by split.
Qed.
End Invocation.

(** ** Bound kernels *)

(** The constants of the external values, as the loop over the layout collects them. *)
Definition layout_inputs (items : list KernelInputBinding) : gmap Z Z :=
  foldl (fun m item => <[kib_input item := kib_specializedConstant item]> m) ∅ items.

(** The store of a live-out: a marked store whose address is the constant of the
    layout, whose value is the live-out's, and which is ordered after itself. *)
Record stored (g : DFG) (output : LiveOut) (binding : KernelOutputBinding) : Prop := {
  so_node : exists node, node ∈ d_nodes g /\ node_id node = kob_abiStoreNode binding /\
    node_opcode node = OpStore /\ node_source node = Some (store_label (lo_id output));
  so_constant : exists c, c ∈ d_constants g /\ const_id c = kob_addressConstant binding /\
    const_type c = vt_i32 /\ const_bits c = kob_scratchpadAddress binding;
  so_address : mkOperandBinding (kob_abiStoreNode binding) 0 (ConstantRef (kob_addressConstant binding)) ∈ d_bindings g;
  so_value : exists edge boundary, edge ∈ d_edges g /\ edge_src edge = lo_source output /\
    edge_dst edge = kob_abiStoreNode binding /\ edge_info edge = DataEdgeInfo 1 boundary;
  so_order : exists edge, edge ∈ d_edges g /\ edge_src edge = kob_abiStoreNode binding /\
    edge_dst edge = kob_abiStoreNode binding /\ edge_distance edge = 1 /\ edge_info edge = MemoryEdgeInfo WAW
}.

(** A load or store, other than the marked ones, at the constant address [c]. *)
Record known_access (g : DFG) (node : Node) (c : ConstantValue) : Prop := {
  ka_node : node ∈ d_nodes g;
  ka_opcode : node_opcode node = OpLoad \/ node_opcode node = OpStore;
  ka_memory : node_memoryInfo node <> None;
  ka_unmarked : isABIOutputStore node = false;
  ka_constant : c ∈ d_constants g;
  ka_address : mkOperandBinding (node_id node) 0 (ConstantRef (const_id c)) ∈ d_bindings g
}.

Section Bound.
Context (source : DFG) (target : TargetModel) (invocation : KernelInvocation) (bound : ABIBoundKernel).

Abbreviation g := (bk_dfg bound).
Abbreviation layout := (bk_layout bound).
Abbreviation depth := (mem_depth (tm_memory target)).
Abbreviation count := (Z.of_nat (length (d_liveOuts source))).
Abbreviation inputs := (layout_inputs (kl_inputs layout)).

(** The rules of a bound kernel: the source is there as it was, but for its external
    values, each of which has become one constant with the bits of the invocation;
    every live-out has its store; and nothing else reaches the words they write. *)
Record kernel_rules : Prop := {
  kb_source : DFG_coherent source /\ DFG_typed source;
  kb_graph : DFG_coherent g /\ DFG_typed g;
  kb_name : d_name g = d_name source;
  kb_signature : bk_signature bound = with_kernelName (ks_kernelName (bk_signature bound)) (inferSignature source);
  kb_valid : invocation_valid (bk_signature bound) invocation depth (scalar_width target);
  kb_invocation : bk_invocation bound = invocation;
  kb_fits : count <= depth;
  kb_layout : kl_scratchpadDepth layout = depth /\ kl_userScratchpadLimit layout = depth - count /\
    kl_outputRegionBase layout = depth - count;
  kb_nodes : d_nodes source ⊆ d_nodes g;
  kb_externals : d_externalValues source ⊆ d_externalValues g;
  kb_constants : d_constants source ⊆ d_constants g;
  kb_liveOuts : d_liveOuts source ⊆ d_liveOuts g;
  kb_inputs : kib_input <$> kl_inputs layout ≡ₚ ext_id <$> d_externalValues source;
  kb_specialized : forall input, input ∈ kl_inputs layout -> exists external c value,
    external ∈ d_externalValues source /\ ext_id external = kib_input input /\
    c ∈ d_constants g /\ const_id c = kib_specializedConstant input /\ const_type c = ext_type external /\
    value ∈ ki_scalarInputs invocation /\ ksv_id value = kib_input input /\ const_bits c = ksv_bits value;
  kb_bindings : forall binding, binding ∈ d_bindings source -> exists s,
    specialize_source inputs (ob_source binding) = Some s /\
    mkOperandBinding (ob_node binding) (ob_operand binding) s ∈ d_bindings g;
  kb_edges : forall edge, edge ∈ d_edges source -> exists edge',
    rewrite_edge inputs edge = Ok edge' /\ edge' ∈ d_edges g;
  kb_outputs : kob_output <$> kl_outputs layout = lo_id <$> sort_by lo_id (d_liveOuts source);
  kb_addresses : kob_scratchpadAddress <$> kl_outputs layout = seqZ (depth - count) count;
  kb_stored : forall output binding, output ∈ d_liveOuts source -> binding ∈ kl_outputs layout ->
    kob_output binding = lo_id output -> stored g output binding;
  kb_preload : count <> 0 -> forall address value, (address, value) ∈ ki_scratchpadPreload invocation ->
    address < depth - count;
  kb_accesses : forall node c, known_access g node c -> ~ (depth - count <= const_bits c < depth)
}.

(** The marked stores are those of the layout. *)
Definition marked_stores : Prop :=
  node_id <$> filter (fun node => isABIOutputStore node = true) (d_nodes g) ≡ₚ
  kob_abiStoreNode <$> kl_outputs layout.

Definition kernel_bound : Prop := kernel_rules /\ marked_stores.
End Bound.

(** ** The verifier decides the rules *)

Lemma find_operand_binding (l : list OperandBinding) node operand binding : NoDup (binding_key <$> l) ->
  find_if (fun item => (ob_node item =? node) && (ob_operand item =? operand)) l = Some binding <->
  binding ∈ l /\ ob_node binding = node /\ ob_operand binding = operand.
Proof.
  intros Hnd. split.
  - intros [H1 [H2%Z.eqb_eq H3%Z.eqb_eq]%andb_true_iff]%find_if_Some. done.
  - intros (Hin & En & Eo). destruct (find_if_is_Some (fun item => (ob_node item =? node) && (ob_operand item =? operand)) l) as [x Hx].
    + exists binding. split; [done|]. by rewrite En, Eo, !Z.eqb_refl.
    + rewrite Hx. f_equal. apply find_if_Some in Hx as [Hx [E1%Z.eqb_eq E2%Z.eqb_eq]%andb_true_iff].
      apply (NoDup_key_eq binding_key l); try done. unfold binding_key. congruence.
Qed.

Lemma known_access_address g node c : DFG_inv g ->
  known_access g node c <-> node ∈ d_nodes g /\ c ∈ d_constants g /\ address_constant g node = Some (const_id c).
Proof.
  intros Hg. pose proof (find_operand_binding (d_bindings g) (node_id node) 0) as Hfind. unfold address_constant. split.
  - intros [Hn Ho Hm Hu Hc Ha]. split_and!; [done..|].
    rewrite bool_decide_eq_false_2 with (P := node_memoryInfo node = None), Hu, !orb_false_r by done.
    replace (bool_decide _ || bool_decide _) with true by (symmetry; apply orb_true_iff; rewrite !bool_decide_eq_true; tauto).
    rewrite (proj2 (Hfind _ (dinv_bindings g Hg)) (conj Ha (conj eq_refl eq_refl))). done.
  - intros (Hn & Hc & Ha). destruct (_ || isABIOutputStore node) eqn:E; [done|].
    apply orb_false_iff in E as [[Ho%negb_false_iff%orb_true_iff Hm%bool_decide_eq_false]%orb_false_iff Hu].
    rewrite !bool_decide_eq_true in Ho. clear Hfind. destruct (find_if _ _) as [[n o src]|] eqn:Ef; [|done].
    apply (proj1 (find_operand_binding _ _ _ _ (dinv_bindings g Hg))) in Ef as (Hin & En & Eo). simpl in *. subst n o.
    destruct src as [|v]; [done|]. by injection Ha as ->.
Qed.

Lemma is_value_edge_true output edge : is_value_edge output edge = true <->
  edge_src edge = lo_source output /\ exists boundary, edge_info edge = DataEdgeInfo 1 boundary.
Proof.
  unfold is_value_edge. destruct (edge_info edge) as [operand boundary| |]; [|split; [done|]; by intros (_ & ? & ?)..].
  rewrite andb_true_iff, !Z.eqb_eq. split; [intros [-> ->]; eauto|]. intros [-> [? [=]]]. done.
Qed.

Lemma is_self_waw_true store edge : is_self_waw store edge = true <->
  edge_src edge = store /\ edge_dst edge = store /\ edge_distance edge = 1 /\ edge_info edge = MemoryEdgeInfo WAW.
Proof. unfold is_self_waw. rewrite !andb_true_iff, !Z.eqb_eq, bool_decide_eq_true. tauto. Qed.

Lemma abi_each_nil {A D} (f : A -> outcome (list D)) l :
  abi_each f l = Done [] <-> forall x, x ∈ l -> f x = Done [].
Proof.
  induction l as [|x l IH]; simpl; [set_solver|]. rewrite outcome_bind_Done. split.
  - intros (here & Hx & H). apply outcome_bind_Done in H as (rest & Hr & [= [-> ->]%app_nil]).
    intros y [->|Hy]%elem_of_cons; [done|]. by apply IH.
  - intros H. exists []. split; [apply H; left|]. rewrite (proj2 IH) by (intros y Hy; apply H; by right). done.
Qed.

Section Readers.
Context (g : DFG) (Hinv : DFG_inv g).

Lemma d_externalValue_Ok id x : d_externalValue g id = Ok x <-> x ∈ d_externalValues g /\ ext_id x = id.
Proof using Hinv.
  unfold d_externalValue. rewrite <- (index_find_Some ext_id _ _ _ _ (dinv_externals g Hinv)).
  unfold index_find. destruct (d_externalIndices g !! id); simpl; [apply of_option_Ok|done].
Qed.

Lemma d_constant_Ok id x : d_constant g id = Ok x <-> x ∈ d_constants g /\ const_id x = id.
Proof using Hinv.
  unfold d_constant. rewrite <- (index_find_Some const_id _ _ _ _ (dinv_constants g Hinv)).
  unfold index_find. destruct (d_constantIndices g !! id); simpl; [apply of_option_Ok|done].
Qed.

Lemma d_liveOut_Ok id x : d_liveOut g id = Ok x <-> x ∈ d_liveOuts g /\ lo_id x = id.
Proof using Hinv.
  unfold d_liveOut. rewrite <- (index_find_Some lo_id _ _ _ _ (dinv_liveOuts g Hinv)).
  unfold index_find. destruct (d_liveOutIndices g !! id); simpl; [apply of_option_Ok|done].
Qed.

Lemma d_containsNode_true id : d_containsNode g id = true <-> exists x, x ∈ d_nodes g /\ node_id x = id.
Proof using Hinv. unfold d_containsNode. rewrite bool_decide_eq_true. apply indexed_contains, dinv_nodes, Hinv. Qed.

Lemma d_containsEdge_true id : d_containsEdge g id = true <-> exists x, x ∈ d_edges g /\ edge_id x = id.
Proof using Hinv. unfold d_containsEdge. rewrite bool_decide_eq_true. apply indexed_contains, dinv_edges, Hinv. Qed.

Lemma d_containsLiveOut_true id : d_containsLiveOut g id = true <-> exists x, x ∈ d_liveOuts g /\ lo_id x = id.
Proof using Hinv. unfold d_containsLiveOut. rewrite bool_decide_eq_true. apply indexed_contains, dinv_liveOuts, Hinv. Qed.
End Readers.

(** One of the original elements is still there. *)
Lemma unless_same_nil {A} `{EqDecision A} (key : A -> Z) (l : list A) contains actual (x : A) d :
  (contains = true <-> exists y, y ∈ l /\ key y = key x) ->
  (forall y, actual = Ok y <-> y ∈ l /\ key y = key x) ->
  unless_same contains actual x d = Done [] <-> x ∈ l.
Proof.
  intros Hc Hr. unfold unless_same. destruct contains.
  - rewrite outcome_bind_Done. split.
    + intros (y & Hy%run_call_Done%Hr & [= H%when_cons_nil]). apply bool_decide_eq_false, dec_stable in H.
      subst. by destruct Hy.
    + intros Hx. exists x. split; [by apply run_call_Done, Hr|]. by rewrite bool_decide_eq_false_2 by auto.
  - split; [done|]. intros Hx. enough (false = true) by done. apply Hc. eauto.
Qed.

(** *** The layout's maps *)

Lemma layout_inputs_snoc items item :
  layout_inputs (items ++ [item]) = <[kib_input item := kib_specializedConstant item]> (layout_inputs items).
Proof. unfold layout_inputs. by rewrite foldl_app. Qed.

Lemma layout_inputs_lookup items x c : NoDup (kib_input <$> items) ->
  layout_inputs items !! x = Some c <-> mkInputBinding x c ∈ items.
Proof.
  induction items as [|item items IH] using rev_ind; intros Hnd; [set_solver|].
  rewrite fmap_app, NoDup_app in Hnd. destruct Hnd as (Hnd & Hnew & _). rewrite layout_inputs_snoc.
  destruct item as [y d]. simpl in *. destruct (decide (y = x)) as [->|Hne].
  - rewrite lookup_insert_eq. split.
    + intros [= ->]. set_solver.
    + intros Hc. apply elem_of_app in Hc as [Hc|[= ->]%list_elem_of_singleton]; [|done].
      exfalso. apply (Hnew x); [|left].
      by apply (list_elem_of_fmap_2 kib_input) in Hc.
  - rewrite lookup_insert_ne, IH by done. split; [set_solver|].
    intros Hc. apply elem_of_app in Hc as [|[= <- _]%list_elem_of_singleton]; done.
Qed.

Lemma layout_inputs_dom items : dom (layout_inputs items) = list_to_set (kib_input <$> items).
Proof.
  induction items as [|item items IH] using rev_ind; [done|].
  rewrite layout_inputs_snoc, dom_insert_L, IH, fmap_app. set_solver.
Qed.

Lemma find_by_key {A} (key : A -> Z) (l : list A) k x : NoDup (key <$> l) ->
  find_if (fun y => key y =? k) l = Some x <-> x ∈ l /\ key x = k.
Proof.
  intros Hnd. split.
  - intros [H1 H2%Z.eqb_eq]%find_if_Some. done.
  - intros [H1 H2]. by apply find_if_unique.
Qed.

(** Two lists without repetitions that name the same things. *)
Lemma subset_perm {A} `{EqDecision A} (l k : list A) :
  NoDup l -> NoDup k -> l ⊆ k -> (length k <= length l)%nat -> l ≡ₚ k.
Proof. intros Hl Hk Hs Hle. by apply submseteq_length_Permutation; [apply NoDup_submseteq|]. Qed.

Section Exact.
Context (source : DFG) (target : TargetModel) (invocation : KernelInvocation) (bound : ABIBoundKernel).

Abbreviation g := (bk_dfg bound).
Abbreviation layout := (bk_layout bound).
Abbreviation depth := (mem_depth (tm_memory target)).
Abbreviation width := (scalar_width target).
Abbreviation count := (Z.of_nat (length (d_liveOuts source))).
Abbreviation inputs := (layout_inputs (kl_inputs layout)).

Context (Hsrc : DFG_inv source) (Hg : DFG_inv g).

Lemma abi_originals_nil : abi_originals source bound = Done [] <->
  d_nodes source ⊆ d_nodes g /\ d_externalValues source ⊆ d_externalValues g /\
  d_constants source ⊆ d_constants g /\ d_liveOuts source ⊆ d_liveOuts g.
Proof using Hg.
  unfold abi_originals.
  assert (Hn : forall node, unless_same (d_containsNode g (node_id node)) (d_node g (node_id node)) node NodeChanged
    = Done [] <-> node ∈ d_nodes g) by (intros; apply (unless_same_nil node_id); [by apply d_containsNode_true|by intros; apply d_node_Ok]).
  assert (Hx : forall x, unless_same (d_containsExternal g (ext_id x)) (d_externalValue g (ext_id x)) x ExternalChanged
    = Done [] <-> x ∈ d_externalValues g) by (intros; apply (unless_same_nil ext_id); [by apply d_containsExternal_true|by intros; apply d_externalValue_Ok]).
  assert (Hc : forall x, unless_same (d_containsConstant g (const_id x)) (d_constant g (const_id x)) x ConstantChanged
    = Done [] <-> x ∈ d_constants g) by (intros; apply (unless_same_nil const_id); [by apply d_containsConstant_true|by intros; apply d_constant_Ok]).
  assert (Hl : forall x, unless_same (d_containsLiveOut g (lo_id x)) (d_liveOut g (lo_id x)) x LiveOutChanged
    = Done [] <-> x ∈ d_liveOuts g) by (intros; apply (unless_same_nil lo_id); [by apply d_containsLiveOut_true|by intros; apply d_liveOut_Ok]).
  rewrite outcome_bind_Done. setoid_rewrite outcome_bind_Done. setoid_rewrite outcome_bind_Done. setoid_rewrite outcome_bind_Done.
  split.
  - intros (a & Ha & b & Hb & c & Hc' & d & Hd & [= (-> & (-> & (-> & ->)%app_nil)%app_nil)%app_nil]).
    pose proof (proj1 (abi_each_nil _ _) Ha). pose proof (proj1 (abi_each_nil _ _) Hb).
    pose proof (proj1 (abi_each_nil _ _) Hc'). pose proof (proj1 (abi_each_nil _ _) Hd). split_and!; intros x ?; [apply Hn|apply Hx|apply Hc|apply Hl]; auto.
  - intros (H1 & H2 & H3 & H4).
    exists []. split; [by apply abi_each_nil; intros x ?; apply Hn, H1|].
    exists []. split; [by apply abi_each_nil; intros x ?; apply Hx, H2|].
    exists []. split; [by apply abi_each_nil; intros x ?; apply Hc, H3|].
    exists []. split; [by apply abi_each_nil; intros x ?; apply Hl, H4|done].
Qed.

Definition specialized_input (input : KernelInputBinding) : Prop := exists external c value,
  external ∈ d_externalValues source /\ ext_id external = kib_input input /\
  c ∈ d_constants g /\ const_id c = kib_specializedConstant input /\ const_type c = ext_type external /\
  value ∈ ki_scalarInputs invocation /\ ksv_id value = kib_input input /\ const_bits c = ksv_bits value.

Lemma input_diags_nil input : NoDup (ksv_id <$> ki_scalarInputs invocation) ->
  input_diags source invocation bound input = Done [] <-> specialized_input input.
Proof using Hsrc Hg.
  intros Hnd. unfold input_diags, specialized_input. split.
  - intros H. destruct (d_containsConstant _ _) eqn:Ec; [|done]. destruct (d_containsExternal _ _) eqn:Ex; [|done].
    simpl in H. apply outcome_bind_Done in H as (external & He%run_call_Done & H).
    apply outcome_bind_Done in H as (c & Hc%run_call_Done & [= [Ht Hv]%app_nil]).
    apply d_externalValue_Ok in He as [He Ee]; [|done]. apply d_constant_Ok in Hc as [Hc Ec']; [|done].
    apply when_cons_nil, bool_decide_eq_false, dec_stable in Ht.
    destruct (find_if _ _) as [value|] eqn:Ef; [|done]. apply find_by_key in Ef as [Hi Ei]; [|done].
    apply when_cons_nil, negb_false_iff, Z.eqb_eq in Hv. by exists external, c, value.
  - intros (external & c & value & He & Ee & Hc & Ec & Ht & Hv & Ev & Eb).
    rewrite (proj2 (d_containsConstant_true g Hg _)) by eauto.
    rewrite (proj2 (d_containsExternal_true source Hsrc _)) by eauto. simpl.
    rewrite (proj2 (d_externalValue_Ok source Hsrc _ external)) by done.
    rewrite (proj2 (d_constant_Ok g Hg _ c)) by done. simpl.
    rewrite (proj2 (find_by_key ksv_id _ _ value Hnd)) by done.
    by rewrite Ht, Eb, bool_decide_eq_false_2, Z.eqb_refl by auto.
Qed.

Lemma abi_inputs_nil before items m : NoDup (ksv_id <$> ki_scalarInputs invocation) ->
  abi_inputs source invocation bound (layout_inputs before) items = Done ([], m) <->
  m = layout_inputs (before ++ items) /\ (forall input, input ∈ items -> specialized_input input) /\
  NoDup (kib_input <$> items) /\ forall input, input ∈ items -> kib_input input ∉ kib_input <$> before.
Proof using Hsrc Hg.
  intros Hnd. revert before m. induction items as [|item items IH]; intros before m; simpl.
  - rewrite app_nil_r. split; [intros [= <-]; split_and!; [done|..]; [|constructor|]; intros ? []%not_elem_of_nil|].
    by intros (-> & _).
  - rewrite outcome_bind_Done. setoid_rewrite outcome_bind_Done. rewrite <- layout_inputs_snoc.
    assert (Hdup : bool_decide (is_Some (layout_inputs before !! kib_input item)) = false <->
      kib_input item ∉ kib_input <$> before).
    { rewrite bool_decide_eq_false, <- elem_of_dom, layout_inputs_dom. set_solver. }
    split.
    + intros (here & Hh & [ds m'] & Hr & [= [Hd [-> ->]%app_nil]%app_nil <-]). apply when_cons_nil, Hdup in Hd.
      apply input_diags_nil in Hh; [|done]. apply IH in Hr as (-> & Hs & Hn & Hnew).
      rewrite <- app_assoc. split_and!; [done| | |].
      * by intros input [->|Hi]%elem_of_cons; auto.
      * apply NoDup_cons. split; [|done]. intros (x & E & Hx)%list_elem_of_fmap.
        apply (Hnew x Hx). rewrite fmap_app, <- E. set_solver.
      * intros input [->|Hi]%elem_of_cons; [done|]. specialize (Hnew _ Hi). rewrite fmap_app in Hnew. set_solver.
    + intros (-> & Hs & [Hn1 Hn2]%NoDup_cons & Hnew). exists []. split; [apply input_diags_nil; [done|]; apply Hs; left|].
      exists ([], layout_inputs (before ++ item :: items)). split.
      * apply IH. rewrite <- app_assoc. split_and!; [done|intros x Hx; apply Hs; by right|done|].
        intros x Hx. rewrite fmap_app, not_elem_of_app. split; [apply Hnew; by right|].
        intros E%list_elem_of_singleton. apply Hn1. simpl in E. rewrite <- E. by apply list_elem_of_fmap_2.
      * rewrite (proj2 Hdup) by (apply Hnew; left). done.
Qed.

Lemma abi_input_ids_nil items : NoDup (kib_input <$> items) ->
  abi_input_ids source (layout_inputs items) = [] <-> kib_input <$> items ≡ₚ ext_id <$> d_externalValues source.
Proof using Hsrc.
  clear Hg. intros Hnd. pose proof (indexed_NoDup _ _ _ (dinv_externals source Hsrc)) as Hx.
  assert (Hsize : size (layout_inputs items) = length items).
  { by rewrite <- (size_dom (D := gset Z)), layout_inputs_dom, size_list_to_set, length_fmap. }
  assert (Hkeys : forall x, (exists c, layout_inputs items !! x = Some c) <-> x ∈ kib_input <$> items).
  { intros x. transitivity (x ∈ dom (layout_inputs items)); [by rewrite elem_of_dom|]. rewrite layout_inputs_dom. set_solver. }
  unfold abi_input_ids. cbv zeta. rewrite size_list_to_set, length_fmap, Hsize by done. split.
  - intros [H1 H2]%app_nil. apply when_cons_nil, negb_false_iff, Nat.eqb_eq in H1.
    apply subset_perm; try done; [|rewrite !length_fmap; lia]. intros x Hx'.
    apply Hkeys in Hx' as (c & Hc). pose proof (proj1 (flat_map_nil_iff _ _) H2 (x, c)) as H3.
    rewrite elem_of_map_items in H3. specialize (H3 Hc). simpl in H3.
    apply when_cons_nil, negb_false_iff, bool_decide_eq_true in H3. by apply elem_of_list_to_set in H3.
  - intros Hp. apply app_nil. split.
    + apply when_cons_nil, negb_false_iff, Nat.eqb_eq. apply Permutation_length in Hp. by rewrite !length_fmap in Hp.
    + apply flat_map_nil_iff. intros [x c] Hxc. apply when_cons_nil, negb_false_iff, bool_decide_eq_true. simpl.
      apply elem_of_list_to_set. rewrite <- Hp. apply Hkeys. exists c. by apply elem_of_map_items in Hxc.
Qed.

Lemma abi_use_nil binding : NoDup (kib_input <$> kl_inputs layout) ->
  abi_use bound binding = Done [] <-> exists s, specialize_source inputs (ob_source binding) = Some s /\
    mkOperandBinding (ob_node binding) (ob_operand binding) s ∈ d_bindings g.
Proof using Hg.
  intros Hnd. pose proof (dinv_bindings g Hg) as Hkeys. unfold abi_use.
  destruct binding as [node operand [external|constant]]; simpl.
  2: { split.
       - intros [= H%when_cons_nil]. apply bool_decide_eq_false in H. exists (ConstantRef constant). split; [done|].
         destruct (find_if _ _) as [c|] eqn:Ef; [|done]. apply find_if_Some in Ef as [Hc E].
         apply bool_decide_eq_true in E as ->. done.
       - intros (s & [= <-] & Hin). rewrite bool_decide_eq_false_2; [done|].
         destruct (find_if_is_Some (fun candidate => bool_decide (candidate = mkOperandBinding node operand (ConstantRef constant))) (d_bindings g)) as [c Hc].
         + exists (mkOperandBinding node operand (ConstantRef constant)). by rewrite bool_decide_eq_true.
         + by rewrite Hc. }
  assert (Hfind : forall s, find_if (fun candidate => (ob_node candidate =? node) && (ob_operand candidate =? operand))
      (d_bindings g) = Some (mkOperandBinding node operand s) <-> mkOperandBinding node operand s ∈ d_bindings g).
  { intros s. split; [by intros [? _]%find_if_Some|]. intros Hin.
    destruct (find_if_is_Some (fun candidate => (ob_node candidate =? node) && (ob_operand candidate =? operand)) (d_bindings g)) as [c Hc].
    { eexists. split; [done|]. simpl. by rewrite !Z.eqb_refl. }
    rewrite Hc. f_equal. apply find_if_Some in Hc as [Hc [E1%Z.eqb_eq E2%Z.eqb_eq]%andb_true_iff].
    eapply (NoDup_key_eq binding_key); [done..|]. unfold binding_key. simpl. congruence. }
  assert (Hmap : forall c, inputs !! external = Some c <-> exists found, inputBinding layout external = Some found /\
      kib_specializedConstant found = c).
  { intros c. rewrite layout_inputs_lookup by done. split.
    - intros Hin. exists (mkInputBinding external c). split; [|done]. by apply (find_by_key kib_input).
    - intros ([x d] & [Hin E]%find_by_key & <-); [|done]. simpl in *. by rewrite <- E. }
  split.
  - destruct (find_if _ _) as [[n o s]|] eqn:Ef; [|by intros [= []%app_nil]].
    clear Hfind. apply find_if_Some in Ef as [Ef [E1%Z.eqb_eq E2%Z.eqb_eq]%andb_true_iff].
    simpl in E1, E2. subst n o. simpl. destruct s as [|value]; [by intros [= []%app_nil]|].
    destruct (inputBinding layout external) as [found|] eqn:Eb; [|done]. simpl.
    intros [= H%when_cons_nil]. apply negb_false_iff, Z.eqb_eq in H.
    exists (ConstantRef value). split; [|done]. rewrite (proj2 (Hmap value)); [done|]. exists found. by rewrite H.
  - intros (s & Hs & Hin). apply fmap_Some in Hs as (c & Hc & ->). apply Hfind in Hin. rewrite Hin. simpl.
    apply Hmap in Hc as (found & Hf & <-). rewrite Hf. simpl. by rewrite Z.eqb_refl.
Qed.

Lemma same_values_rewrite specialized lhs rhs :
  same_values lhs rhs specialized = true <-> rewrite_values specialized lhs = Ok rhs.
Proof using Type.
  revert rhs. induction lhs as [|l lhs IH]; intros [|r rhs]; simpl; try done.
  - by destruct (specialize_source _ _); [simpl; destruct (rewrite_values _ _)|].
  - destruct (specialize_source specialized (rbv_value l)) as [s|]; simpl; [|done].
    rewrite !andb_true_iff, IH, Z.eqb_eq, bool_decide_eq_true, bind_Ok. destruct r as [o v]. simpl. split.
    + intros [[-> ->] H]. by exists rhs.
    + intros (a & Ha & [= -> -> ->]). done.
Qed.

Lemma rewrite_values_length specialized lhs rhs : rewrite_values specialized lhs = Ok rhs -> length lhs = length rhs.
Proof using Type.
  revert rhs. induction lhs as [|l lhs IH]; intros rhs; simpl; [by intros [= <-]|].
  intros H. inv_ok. subst rhs. simpl. f_equal. by apply IH.
Qed.

Lemma sameBoundary_rewrite specialized lhs rhs :
  sameBoundary lhs rhs specialized = true <-> rewriteBoundary specialized lhs = Ok rhs.
Proof using Type.
  destruct lhs as [lhs|], rhs as [rhs|]; simpl; try done.
  - rewrite bind_Ok, andb_true_iff, Nat.eqb_eq, same_values_rewrite. split.
    + intros [_ H]. by exists rhs.
    + intros (a & Ha & [= ->]). split; [by eapply rewrite_values_length|done].
  - rewrite bind_Ok. split; [done|]. by intros (a & _ & ?).
Qed.

Lemma abi_edge_nil specialized edge :
  abi_edge bound specialized edge = Done [] <->
  exists edge', rewrite_edge specialized edge = Ok edge' /\ edge' ∈ d_edges g.
Proof using Hg.
  unfold abi_edge, rewrite_edge. split.
  - destruct (d_containsEdge _ _); [|done]. simpl. rewrite outcome_bind_Done.
    intros ([i s d w info] & Ha & H). apply run_call_Done, (d_edge_Ok g Hg) in Ha as [Ha Ei]. simpl in *.
    exists (mkEdge i s d w info). split; [|done]. unfold Edge_kind in H. simpl in H.
    assert (Htop : forall rest, when (negb (s =? edge_src edge) || negb (d =? edge_dst edge) ||
        negb (w =? edge_distance edge) || bool_decide (EdgeInfo_kind info <> EdgeInfo_kind (edge_info edge)))
        [EdgeTopologyChanged] ++ rest = [] -> s = edge_src edge /\ d = edge_dst edge /\ w = edge_distance edge /\ rest = []).
    { intros rest [Hw ->]%app_nil. apply when_cons_nil in Hw. bool_hyps. split_and!; try done; lia. }
    destruct (edge_info edge) as [o b|o b|k], info as [o' b'|o' b'|k']; try done; injection H as H;
      apply Htop in H as (-> & -> & -> & Hr); apply when_cons_nil in Hr.
    1,2: apply orb_false_iff in Hr as [Ho Hb]; apply negb_false_iff in Ho, Hb; apply Z.eqb_eq in Ho as ->;
      apply sameBoundary_rewrite in Hb; rewrite Hb; simpl; by rewrite Ei.
    apply bool_decide_eq_false, dec_stable in Hr as ->. simpl. by rewrite Ei.
  - intros (edge' & H & Hin). inv_ok. subst edge'.
    rewrite (proj2 (d_containsEdge_true g Hg _)) by (eexists; split; [exact Hin|done]). simpl.
    rewrite (proj2 (d_edge_Ok g Hg _ _)) by (split; [exact Hin|done]). simpl.
    rewrite !Z.eqb_refl. unfold Edge_kind. simpl.
    destruct (edge_info edge) as [o b|o b|k]; simpl in Hv; inv_ok; subst; simpl.
    1,2: rewrite Z.eqb_refl, (proj2 (sameBoundary_rewrite _ _ _)) by done; done.
    rewrite !bool_decide_eq_false_2 by auto. done.
Qed.

(** *** Outputs *)

Definition outputs_ordered (ordinal : Z) (previous : option Z) (items : list KernelOutputBinding) : Prop :=
  StronglySorted Z.lt (option_list previous ++ (kob_output <$> items)) /\
  (forall item, item ∈ items -> exists output, output ∈ d_liveOuts source /\ lo_id output = kob_output item) /\
  kob_scratchpadAddress <$> items = seqZ (kl_outputRegionBase layout + ordinal) (Z.of_nat (length items)).

Lemma outputs_ordered_cons ordinal previous item items :
  outputs_ordered ordinal previous (item :: items) <->
  (forall p, previous = Some p -> p < kob_output item) /\
  (exists output, output ∈ d_liveOuts source /\ lo_id output = kob_output item) /\
  kob_scratchpadAddress item = kl_outputRegionBase layout + ordinal /\
  outputs_ordered (ordinal + 1) (Some (kob_output item)) items.
Proof using Type.
  unfold outputs_ordered. rewrite !fmap_cons. simpl length. rewrite seqZ_cons by lia.
  replace (Z.pred (Z.of_nat (S (length items)))) with (Z.of_nat (length items)) by lia.
  replace (Z.succ (kl_outputRegionBase layout + ordinal)) with (kl_outputRegionBase layout + (ordinal + 1)) by lia.
  simpl option_list. simpl app. split.
  - intros (Hs & Hin & [= E Er]). assert (Hs' : StronglySorted Z.lt (kob_output item :: (kob_output <$> items))).
    { destruct previous; [by apply StronglySorted_inv in Hs as [? _]|done]. }
    split_and!; try done.
    + intros p ->. apply StronglySorted_inv in Hs as [_ Hf]. by apply Forall_cons in Hf as [? _].
    + apply Hin. left.
    + intros x Hx. apply Hin. by right.
  - intros (Hp & Ho & E & Hs & Hin & Er). split_and!.
    + destruct previous as [p|]; [|done]. simpl. constructor; [done|]. specialize (Hp p eq_refl).
      apply Forall_cons. split; [done|]. apply StronglySorted_inv in Hs as [_ Hf].
      eapply Forall_impl; [exact Hf|]. simpl. intros. lia.
    + by intros x [->|Hx]%elem_of_cons; auto.
    + by rewrite E, Er.
Qed.

Lemma abi_outputs_sound ordinal previous seen items :
  abi_outputs source bound ordinal previous seen items = [] -> outputs_ordered ordinal previous items.
Proof using Hsrc.
  clear Hg. revert ordinal previous seen. induction items as [|item items IH]; intros ordinal previous seen; simpl.
  { intros _. unfold outputs_ordered. simpl. rewrite app_nil_r. split_and!; [|intros ? []%not_elem_of_nil|done].
    destruct previous; repeat constructor. }
  intros [H1 [H2 [H3 H4]%app_nil]%app_nil]%app_nil. apply outputs_ordered_cons.
  apply when_cons_nil, orb_false_iff in H1 as [_ H1]. apply negb_false_iff, d_containsLiveOut_true in H1; [|done].
  apply when_cons_nil, negb_false_iff, Z.eqb_eq in H3. apply IH in H4. split_and!; try done.
  intros p ->. apply when_cons_nil in H2. lia.
Qed.

Lemma abi_outputs_complete ordinal previous seen items :
  (forall x, x ∈ seen -> exists p, previous = Some p /\ x <= p) -> outputs_ordered ordinal previous items ->
  abi_outputs source bound ordinal previous seen items = [].
Proof using Hsrc.
  clear Hg. revert ordinal previous seen. induction items as [|item items IH]; intros ordinal previous seen Hseen H; [done|].
  apply outputs_ordered_cons in H as (Hp & Ho & E & H). simpl. rewrite E, Z.eqb_refl.
  rewrite (proj2 (d_containsLiveOut_true source Hsrc _)) by done.
  assert (Hnew : kob_output item ∉ seen) by (intros (p & -> & Hle)%Hseen; specialize (Hp p eq_refl); lia).
  rewrite bool_decide_eq_false_2 by done. simpl. rewrite IH; [| |done].
  - destruct previous as [p|]; [|done]. specialize (Hp p eq_refl). by rewrite (proj2 (Z.leb_gt _ _)).
  - intros x [->%elem_of_singleton|Hx]%elem_of_union; [exists (kob_output item); split; [done|lia]|].
    apply Hseen in Hx as (p & -> & Hle). specialize (Hp p eq_refl). exists (kob_output item). split; [done|lia].
Qed.

(** The layout's outputs are the live-outs in the order of their identifiers, at
    consecutive addresses. *)
Lemma outputs_ordered_exact : NoDup (lo_id <$> d_liveOuts source) ->
  length (kl_outputs layout) = length (d_liveOuts source) /\ outputs_ordered 0 None (kl_outputs layout) <->
  kob_output <$> kl_outputs layout = lo_id <$> sort_by lo_id (d_liveOuts source) /\
  kob_scratchpadAddress <$> kl_outputs layout = seqZ (kl_outputRegionBase layout) count.
Proof using Type.
  intros Hnd. unfold outputs_ordered. simpl. rewrite Z.add_0_r.
  assert (Hsorted : StronglySorted Z.lt (lo_id <$> sort_by lo_id (d_liveOuts source))).
  { pose proof (sort_by_sorted lo_id (d_liveOuts source)) as Hs.
    apply sort_by_NoDup in Hnd. induction Hs as [|x l Hs IH Hf]; [constructor|].
    rewrite fmap_cons in Hnd |- *. apply NoDup_cons in Hnd as [Hx Hnd]. constructor; [by apply IH|].
    apply Forall_fmap, Forall_forall. intros y Hy. rewrite Forall_forall in Hf. pose proof (Hf _ Hy) as Hle.
    unfold by_key in Hle. simpl. assert (lo_id x <> lo_id y); [|lia]. intros E. apply Hx. rewrite E.
    by apply list_elem_of_fmap_2. }
  split.
  - intros (El & Hs & Hin & Ha). rewrite El in Ha. split; [|done].
    assert (Hlt : forall l, StronglySorted Z.lt l -> StronglySorted Z.le l /\ NoDup l).
    { clear. intros l. induction 1 as [|x l Hs [IH1 IH2] Hf]; [split; constructor|]. split.
      - constructor; [done|]. eapply Forall_impl; [exact Hf|]. simpl. lia.
      - apply NoDup_cons. split; [|done]. intros Hx. rewrite Forall_forall in Hf. specialize (Hf _ Hx). lia. }
    apply (StronglySorted_unique Z.le); [by apply Hlt|by apply Hlt|]. rewrite sort_by_perm.
    apply subset_perm; [by apply Hlt|done| |rewrite !length_fmap; lia].
    intros x (item & -> & Hi)%list_elem_of_fmap. destruct (Hin _ Hi) as (output & Ho & <-).
    by apply list_elem_of_fmap_2.
  - intros (Eo & Ha). assert (El : length (kl_outputs layout) = length (d_liveOuts source)).
    { rewrite <- (length_fmap kob_output), Eo, length_fmap. apply sort_by_length. }
    rewrite El, Eo. split_and!; try done. intros item Hi.
    assert (Hin : kob_output item ∈ lo_id <$> sort_by lo_id (d_liveOuts source))
      by (rewrite <- Eo; by apply list_elem_of_fmap_2).
    apply list_elem_of_fmap in Hin as (output & E & Ho). rewrite elem_of_sort_by in Ho. eauto.
Qed.

Lemma abi_stores_nil :
  abi_stores bound = [] <-> marked_stores bound.
Proof using Hg.
  unfold abi_stores, marked_stores. cbv zeta.
  set (discovered := filter (fun node => isABIOutputStore node = true) (d_nodes g)).
  assert (Hd : NoDup (node_id <$> discovered)).
  { pose proof (indexed_NoDup _ _ _ (dinv_nodes g Hg)) as Hn. unfold discovered. revert Hn. clear.
    induction (d_nodes g) as [|x l IH]; [done|]. rewrite fmap_cons. intros [Hx Hl]%NoDup_cons. rewrite filter_cons.
    case_decide; [|by apply IH]. rewrite fmap_cons. apply NoDup_cons. split; [|by apply IH].
    intros (y & E & Hy)%list_elem_of_fmap. apply Hx. rewrite E. apply list_elem_of_fmap_2.
    by apply list_elem_of_filter in Hy as [_ ?]. }
  rewrite size_list_to_set, !app_nil, fmap_nil_iff, duplicates_nil, list_fmap_id, when_cons_nil, negb_false_iff,
    Nat.eqb_eq, length_fmap by done. split.
  - intros (Hnd & Hsub & El). apply subset_perm; [done|done| |rewrite !length_fmap; lia].
    intros x (node & -> & Hn)%list_elem_of_fmap. pose proof (proj1 (flat_map_nil_iff _ _) Hsub node Hn) as H.
    by apply when_cons_nil, negb_false_iff, bool_decide_eq_true in H.
  - intros Hp. split_and!; [by rewrite <- Hp| |apply Permutation_length in Hp; by rewrite !length_fmap in Hp].
    apply flat_map_nil_iff. intros node Hn. apply when_cons_nil, negb_false_iff, bool_decide_eq_true.
    rewrite <- Hp. by apply list_elem_of_fmap_2.
Qed.

Lemma any_edge_read p edges : edges ⊆ d_edges g ->
  any_edge bound p (edge_id <$> edges) = Done (existsb p edges).
Proof using Hg.
  induction edges as [|edge edges IH]; intros Hs; [done|]. rewrite fmap_cons. simpl.
  rewrite (proj2 (d_edge_Ok g Hg _ edge)) by (split; [apply Hs; left|done]). simpl.
  by rewrite IH by (intros x Hx; apply Hs; by right).
Qed.

Lemma existsb_elem {A} (p : A -> bool) (l : list A) : existsb p l = true <-> exists x, x ∈ l /\ p x = true.
Proof using Type. rewrite existsb_exists. by setoid_rewrite <- list_elem_of_In. Qed.

Lemma read_edges (endpoint : Edge -> Z) p id :
  any_edge bound p (edges_at edge_id endpoint (d_edges g) id) =
  Done (existsb p (filter (fun edge => endpoint edge = id) (d_edges g))).
Proof using Hg. unfold edges_at. apply any_edge_read. intros x Hx. by apply list_elem_of_filter in Hx as [_ ?]. Qed.

Lemma address_constant_diags_nil binding :
  address_constant_diags bound binding = Done [] <->
  exists c, c ∈ d_constants g /\ const_id c = kob_addressConstant binding /\ const_type c = vt_i32 /\
    const_bits c = kob_scratchpadAddress binding.
Proof using Hg.
  unfold address_constant_diags. split.
  - destruct (d_containsConstant _ _); [|done]. simpl. rewrite outcome_bind_Done.
    intros (c & Hc & [= H]). apply run_call_Done, (d_constant_Ok g Hg) in Hc as [Hc Ec].
    apply when_cons_nil, orb_false_iff in H as [H1 H2]. apply bool_decide_eq_false, dec_stable in H1.
    apply negb_false_iff, Z.eqb_eq in H2. by exists c.
  - intros (c & Hc & Ec & Et & Eb). rewrite (proj2 (d_containsConstant_true g Hg _)) by eauto. simpl.
    rewrite (proj2 (d_constant_Ok g Hg _ c)) by done. simpl.
    by rewrite Et, Eb, Z.eqb_refl, bool_decide_eq_false_2 by auto.
Qed.

Lemma is_address_binding_true store constant : existsb (is_address_binding store constant) (d_bindings g) = true <->
  mkOperandBinding store 0 (ConstantRef constant) ∈ d_bindings g.
Proof using Type.
  rewrite existsb_elem. unfold is_address_binding. split.
  - intros ([n o s] & Hin & H). simpl in H. bool_hyps. subst s.
    by replace store with n by lia; replace 0 with o by lia.
  - intros Hin. eexists. split; [exact Hin|]. simpl. by rewrite Z.eqb_refl, bool_decide_eq_true_2.
Qed.

Lemma store_diags_nil output binding : store_diags bound output binding = Done [] <-> stored g output binding.
Proof using Hg.
  pose proof (DFG_inv_coherent g Hg) as Hco. unfold store_diags. split.
  - destruct (d_containsNode _ _); [|done]. simpl. rewrite outcome_bind_Done.
    intros (store & Hs & H). apply run_call_Done, (d_node_Ok g Hg) in Hs as [Hs Es].
    apply outcome_bind_Done in H as (address & Ha & H).
    rewrite (dc_incoming g Hco), (dc_outgoing g Hco) in H by done. simpl in H. rewrite !read_edges in H. simpl in H.
    injection H as [H1 [-> H2]%app_nil]%app_nil.
    apply when_cons_nil, orb_false_iff in H1 as [Ho%bool_decide_eq_false%dec_stable Hl%bool_decide_eq_false%dec_stable].
    apply when_cons_nil, orb_false_iff in H2 as [[Hb Hv]%orb_false_iff Hw]. apply negb_false_iff in Hb, Hv, Hw.
    rewrite is_address_binding_true in Hb. apply existsb_elem in Hv as (e & [Ee He]%list_elem_of_filter & Hv).
    apply existsb_elem in Hw as (e' & [Ee' He']%list_elem_of_filter & Hw). rewrite Es in *.
    apply is_value_edge_true in Hv as (Hsrc' & boundary & Hv). apply is_self_waw_true in Hw.
    split; [by exists store|by apply address_constant_diags_nil|done|by exists e, boundary|by exists e'].
  - intros [(store & Hs & Es & Ho & Hl) Hc Hb (e & boundary & He & Esrc & Ee & Hv) (e' & He' & Hw)].
    rewrite (proj2 (d_containsNode_true g Hg _)) by eauto. simpl.
    rewrite (proj2 (d_node_Ok g Hg _ store)) by done. simpl.
    rewrite (proj2 (address_constant_diags_nil binding) Hc). simpl.
    rewrite (dc_incoming g Hco), (dc_outgoing g Hco) by done. simpl. rewrite !read_edges. simpl. rewrite Es.
    rewrite (proj2 (is_address_binding_true _ _)) by done.
    rewrite (proj2 (existsb_elem (is_value_edge output) _)).
    2: { exists e. split; [by apply list_elem_of_filter|apply is_value_edge_true; eauto]. }
    rewrite (proj2 (existsb_elem (is_self_waw _) _)).
    2: { exists e'. split; [|by apply is_self_waw_true]. apply list_elem_of_filter; split; [apply Hw|done]. }
    by rewrite !bool_decide_eq_false_2 by auto.
Qed.

Lemma abi_liveOuts_sound addresses outputs : abi_liveOuts bound addresses outputs = Done [] ->
  forall output, output ∈ outputs -> exists binding, outputBinding layout (lo_id output) = Some binding /\
    stored g output binding.
Proof using Hg.
  revert addresses. induction outputs as [|o outputs IH]; intros addresses H output; [by intros ?%not_elem_of_nil|].
  simpl in H. destruct (outputBinding layout (lo_id o)) as [binding|] eqn:Eb.
  - apply outcome_bind_Done in H as (here & Hh & H). apply outcome_bind_Done in H as (rest & Hr & [= [_ [-> ->]%app_nil]%app_nil]).
    intros [->|Ho]%elem_of_cons; [|by eapply IH]. exists binding. by rewrite <- store_diags_nil.
  - by apply outcome_bind_Done in H as (rest & _ & ?).
Qed.

Lemma abi_liveOuts_complete addresses outputs :
  NoDup (lo_id <$> outputs) ->
  (forall output, output ∈ outputs -> exists binding, binding ∈ kl_outputs layout /\
    outputBinding layout (lo_id output) = Some binding /\ stored g output binding) ->
  (forall binding, binding ∈ kl_outputs layout ->
     kl_outputRegionBase layout <= kob_scratchpadAddress binding < kl_scratchpadDepth layout) ->
  NoDup (kob_scratchpadAddress <$> kl_outputs layout) ->
  (forall a, a ∈ addresses -> exists binding, binding ∈ kl_outputs layout /\ kob_scratchpadAddress binding = a /\
     kob_output binding ∉ lo_id <$> outputs) ->
  abi_liveOuts bound addresses outputs = Done [].
Proof using Hg.
  intros Hnd Ho Hr Ha. revert Hnd Ho addresses. induction outputs as [|o outputs IH]; intros Hnd Ho addresses Hseen; [done|].
  rewrite fmap_cons in Hnd, Hseen. apply NoDup_cons in Hnd as [Hn Hnd]. simpl.
  destruct (Ho o ltac:(left)) as (binding & Hin & Hb & Hs). rewrite Hb, (proj2 (store_diags_nil _ _) Hs). simpl.
  assert (Eb : kob_output binding = lo_id o) by (apply find_if_Some in Hb as [_ ?]; lia).
  specialize (Hr _ Hin). rewrite (proj2 (Z.leb_gt _ _)), (proj2 (Z.ltb_ge _ _)) by lia.
  rewrite bool_decide_eq_false_2.
  2: { intros (b & Hb' & E & Hnot)%Hseen. assert (b = binding) as -> by (by eapply (NoDup_key_eq kob_scratchpadAddress)).
       apply Hnot. rewrite Eb. left. }
  rewrite IH; [done|done|intros x Hx; apply Ho; by right|].
  intros a [->%elem_of_singleton|Hx]%elem_of_union.
  - exists binding. rewrite Eb. done.
  - destruct (Hseen _ Hx) as (b & Hb' & E & Hnot). exists b. split_and!; [done|done|]. intros H. apply Hnot. by right.
Qed.

(** *** The rest *)

Lemma no_outputs_count : length (kl_outputs layout) = length (d_liveOuts source) ->
  no_outputs bound = bool_decide (count = 0).
Proof using Type.
  intros E. unfold no_outputs. apply bool_decide_ext. rewrite <- E. destruct (kl_outputs layout); simpl; split; (done || lia).
Qed.

Lemma abi_preload_nil : length (kl_outputs layout) = length (d_liveOuts source) ->
  abi_preload invocation bound = [] <-> (count <> 0 -> forall address value,
    (address, value) ∈ ki_scratchpadPreload invocation -> address < kl_outputRegionBase layout).
Proof using Type.
  intros E. unfold abi_preload. rewrite flat_map_nil_iff, no_outputs_count by done. split.
  - intros H Hc address value Hin. specialize (H _ Hin). apply when_cons_nil in H.
    rewrite (bool_decide_eq_false_2 (count = 0)) in H by done. simpl in H. lia.
  - intros H [address value] Hin. apply when_cons_nil, andb_false_iff. simpl.
    destruct (decide (count = 0)) as [|Hc]; [right; by rewrite bool_decide_eq_true_2|left].
    specialize (H Hc _ _ Hin). lia.
Qed.

(** The constant a node's address names is in the graph. *)
Lemma address_constant_known node id : DFG_typed g -> node ∈ d_nodes g -> address_constant g node = Some id ->
  exists c, c ∈ d_constants g /\ const_id c = id.
Proof using Type.
  intros Ht Hn. unfold address_constant. destruct (_ || _); [done|].
  destruct (find_if _ _) as [b|] eqn:Ef; [|done]. apply find_if_Some in Ef as [Hb _].
  destruct (ob_source b) as [|v] eqn:Es; [done|]. intros [= ->].
  destruct (dt_bindings g Ht _ Hb) as (type & _ & Hs). rewrite Es in Hs. simpl in Hs.
  destruct (d_find_constant g id) as [c|] eqn:Ec; [|done]. apply find_if_Some in Ec as [Hc E].
  exists c. split; [done|lia].
Qed.

Lemma abi_accesses_nil : DFG_typed g -> length (kl_outputs layout) = length (d_liveOuts source) ->
  kl_scratchpadDepth layout = kl_outputRegionBase layout + count ->
  abi_each (abi_access bound) (d_nodes g) = Done [] <->
  forall node c, known_access g node c -> ~ (kl_outputRegionBase layout <= const_bits c < kl_scratchpadDepth layout).
Proof using Hg.
  intros Ht E El. rewrite abi_each_nil. unfold abi_access. rewrite no_outputs_count by done. split.
  - intros H node c Hka Hr. apply (known_access_address g node c Hg) in Hka as (Hn & Hc & Ha). specialize (H _ Hn).
    rewrite Ha, (proj2 (d_constant_Ok g Hg _ c)) in H by done. simpl in H. injection H as H%when_cons_nil.
    assert (count <> 0) by lia. rewrite bool_decide_eq_false_2 in H by done. simpl in H. bool_hyps. lia.
  - intros H node Hn. destruct (address_constant g node) as [id|] eqn:Ha; [|done].
    destruct (address_constant_known _ _ Ht Hn Ha) as (c & Hc & Ec).
    rewrite (proj2 (d_constant_Ok g Hg _ c)) by done. simpl. f_equal. apply when_cons_nil.
    subst id. pose proof (H _ _ (proj2 (known_access_address g node c Hg) (conj Hn (conj Hc Ha)))). destruct (negb _); simpl; [lia|done].
Qed.

Lemma signature_inputs_NoDup name : DFG_coherent source ->
  NoDup (kid_id <$> ks_scalarInputs (with_kernelName name (inferSignature source))).
Proof using Type. intros Hc. simpl. rewrite <- list_fmap_compose. apply (dc_externals source Hc). Qed.

Lemma abi_header_nil : NoDup (kid_id <$> ks_scalarInputs (bk_signature bound)) ->
  typed_invocation (bk_signature bound) invocation ->
  abi_header source target invocation bound = [] <->
  (DFG_coherent source /\ DFG_typed source) /\ (DFG_coherent g /\ DFG_typed g) /\
  bk_signature bound = with_kernelName (ks_kernelName (bk_signature bound)) (inferSignature source) /\
  invocation_valid (bk_signature bound) invocation depth width /\ bk_invocation bound = invocation /\
  d_name g = d_name source /\ count <= depth /\
  kl_scratchpadDepth layout = depth /\ kl_userScratchpadLimit layout = depth - count /\
  kl_outputRegionBase layout = depth - count.
Proof using Type.
  clear Hg. intros Hids Htyped. unfold abi_header. cbv zeta.
  pose proof (validateInvocation_spec (bk_signature bound) invocation depth width Htyped Hids) as Hv.
  destruct bound as [dfg signature inv [d l b ins outs]]. simpl in *.
  rewrite !app_nil, !when_cons_nil, !negb_false_iff, !orb_false_iff, !negb_false_iff, !bool_decide_eq_false,
    !Z.eqb_eq, String.eqb_eq, Z.ltb_ge, !dfg_verify_ok, !dfg_diagnostics_nil. split.
  - intros (Hs & Hb & Hsig%dec_stable & Hval & Ht & Hi%dec_stable & Hp%dec_stable & Hn & Hle & Hd & Hl & Hr).
    rewrite (proj2 (Z.ltb_ge _ _) Hle) in Hl, Hr.
    destruct (validateInvocation _ _ _ _); [done|]. split_and!; try done; try apply Hs; try apply Hb.
    destruct inv, invocation; simpl in *; congruence.
  - intros (Hs & Hb & Hsig & Hval & -> & Hn & Hle & -> & -> & ->). rewrite (proj2 (Z.ltb_ge _ _) Hle).
    destruct (validateInvocation _ _ _ _); [by destruct Hv|]. split_and!; try done; try apply Hs; try apply Hb; intros H; by apply H.
Qed.

Context (Htyped : typed_invocation (inferSignature source) invocation).

Lemma abi_verify_sound :
  abi_verify source target invocation bound = Done [] -> kernel_bound source target invocation bound.
Proof using Hsrc Hg Htyped.
  unfold abi_verify. intros H. apply outcome_bind_Done in H as (originals & Ho & H). apply outcome_bind_Done in H as ([ds m] & Hi & H).
  apply outcome_bind_Done in H as (uses & Hu & H). apply outcome_bind_Done in H as (edges & He & H).
  apply outcome_bind_Done in H as (liveOuts & Hl & H). apply outcome_bind_Done in H as (accesses & Ha & H).
  injection H as H. cbn [fst snd] in *. rewrite !app_nil in H.
  destruct H as (Hh & -> & -> & Hids & -> & -> & Hc & Hout & Hst & -> & Hp & ->).
  assert (Hsig : bk_signature bound = with_kernelName (ks_kernelName (bk_signature bound)) (inferSignature source)).
  { unfold abi_header in Hh. rewrite !app_nil in Hh. destruct Hh as (_ & _ & Hs & _).
    by apply when_cons_nil, bool_decide_eq_false, dec_stable in Hs. }
  assert (Hco : DFG_coherent source).
  { unfold abi_header in Hh. rewrite !app_nil in Hh. destruct Hh as (Hs & _).
    by apply when_cons_nil, negb_false_iff, dfg_verify_ok, dfg_diagnostics_nil in Hs as [? _]. }
  apply abi_header_nil in Hh as (Hs & Hb & _ & Hval & Einv & En & Hle & Ed & Ell & Er).
  2: { rewrite Hsig. by apply signature_inputs_NoDup. }
  2: { rewrite Hsig. exact Htyped. }
  apply abi_originals_nil in Ho as (H1 & H2 & H3 & H4).
  change ∅ with (layout_inputs []) in Hi.
  apply abi_inputs_nil in Hi as (-> & Hspec & Hnd & _); [|by apply Hval]. rewrite app_nil_l in *.
  apply abi_input_ids_nil in Hids; [|done]. apply when_cons_nil, negb_false_iff, Nat.eqb_eq in Hc.
  pose proof (abi_outputs_sound _ _ _ _ Hout) as Hord.
  destruct (proj1 (outputs_ordered_exact (dc_liveOuts source Hco)) (conj Hc Hord)) as [Eo Ea].
  rewrite Er in Ea.
  split; [|by apply abi_stores_nil]. split; try done.
  - intros b Hb'. by apply abi_use_nil, (proj1 (abi_each_nil _ _) Hu).
  - intros e He'. by apply abi_edge_nil, (proj1 (abi_each_nil _ _) He).
  - intros output binding Hoo Hbb E. destruct (abi_liveOuts_sound _ _ Hl _ Hoo) as (b & Hb' & Hstored).
    assert (b = binding) as ->; [|done]. apply find_if_Some in Hb' as [Hb' Eb].
    apply (NoDup_key_eq kob_output (kl_outputs layout)); try done; [|lia].
    rewrite Eo. by apply sort_by_NoDup, dc_liveOuts.
  - intros Hcnt a v Hav. rewrite <- Er. by eapply (proj1 (abi_preload_nil Hc)).
  - intros node c Hka. rewrite <- Er at 1. rewrite <- Ed.
    eapply (proj1 (abi_accesses_nil (proj2 Hb) Hc ltac:(lia)) Ha); done.
Qed.

(** Only the marks of the stores can make the verifier refuse a kernel that obeys the
    other rules. *)
Lemma abi_verify_rules :
  kernel_rules source target invocation bound -> abi_verify source target invocation bound = Done (abi_stores bound).
Proof using Hsrc Hg Htyped.
  unfold abi_verify. intros [Hs Hb En Hsig Hval Einv Hle (Ed & Ell & Er) H1 H2 H3 H4 Hin Hspec Hbind Hedge Eo Ea Hstored Hp Hacc].
  assert (Hnd : NoDup (kib_input <$> kl_inputs layout)).
  { rewrite Hin. eapply indexed_NoDup, (dinv_externals source Hsrc). }
  assert (Hc : length (kl_outputs layout) = length (d_liveOuts source)).
  { rewrite <- (length_fmap kob_output), Eo, length_fmap. apply sort_by_length. }
  assert (Hlo : NoDup (lo_id <$> d_liveOuts source)) by apply Hs.
  rewrite <- Er in Ea. destruct (proj2 (outputs_ordered_exact Hlo) (conj Eo Ea)) as [_ Hord].
  rewrite (proj2 abi_originals_nil) by done. simpl.
  change (abi_inputs source invocation bound ∅ (kl_inputs layout)) with
    (abi_inputs source invocation bound (layout_inputs []) (kl_inputs layout)).
  rewrite (proj2 (abi_inputs_nil [] (kl_inputs layout) inputs (iv_once _ _ _ _ Hval))).
  2: { split_and!; [done|done|done|]. intros ? _. apply not_elem_of_nil. }
  simpl. rewrite (proj2 (abi_each_nil (abi_use bound) _)) by (intros x Hx; by apply abi_use_nil, Hbind). simpl.
  rewrite (proj2 (abi_each_nil (abi_edge bound inputs) _)) by (intros x Hx; by apply abi_edge_nil, Hedge). simpl.
  rewrite abi_liveOuts_complete; try done.
  - simpl. rewrite (proj2 (abi_accesses_nil (proj2 Hb) Hc ltac:(lia))).
    2: { intros node c. rewrite Er, Ed. apply Hacc. }
    assert (Hids : NoDup (kid_id <$> ks_scalarInputs (bk_signature bound)))
      by (rewrite Hsig; by apply signature_inputs_NoDup, Hs).
    assert (Hty : typed_invocation (bk_signature bound) invocation) by (by rewrite Hsig).
    assert (Hpre : abi_preload invocation bound = []) by (apply abi_preload_nil; [done|by rewrite Er]).
    simpl. f_equal. rewrite (proj2 (abi_header_nil Hids Hty)), (proj2 (abi_input_ids_nil _ Hnd)), abi_outputs_complete,
      Hpre, Hc, Nat.eqb_refl; try done.
    simpl. by rewrite app_nil_r.
  - intros output Ho.
    assert (Hid : lo_id output ∈ kob_output <$> kl_outputs layout).
    { rewrite Eo, sort_by_perm. by apply list_elem_of_fmap_2. }
    apply list_elem_of_fmap in Hid as (binding & E & Hbb). exists binding. split_and!; [done| |by apply Hstored].
    apply (find_by_key kob_output); [|done]. rewrite Eo. by apply sort_by_NoDup.
  - intros binding Hbb. assert (Hbase : kob_scratchpadAddress binding ∈ seqZ (kl_outputRegionBase layout) count).
    { rewrite <- Ea. by apply list_elem_of_fmap_2. }
    apply elem_of_seqZ in Hbase. lia.
  - rewrite Ea. apply NoDup_seqZ.
Qed.

(** [abi_verify] decides the rules. *)
Lemma abi_verify_spec :
  abi_verify source target invocation bound = Done [] <-> kernel_bound source target invocation bound.
Proof using Hsrc Hg Htyped.
  split; [apply abi_verify_sound|]. intros [Hr Hm]. by rewrite abi_verify_rules, (proj2 abi_stores_nil).
Qed.
End Exact.

(** C8: the validator of invocations decides which of them fit a signature.  It accepts
    exactly when the loop runs at all, every input of the signature is given once, as a
    bit pattern of its type, and nothing else is given, and the preloaded words lie in the
    scratchpad without contradicting each other; otherwise its code says what is wrong. *)
Theorem validateInvocation_exact (signature : KernelSignature) (invocation : KernelInvocation) (depth width : Z) :
  typed_invocation signature invocation -> NoDup (kid_id <$> ks_scalarInputs signature) ->
  match validateInvocation signature invocation depth width with
  | None => invocation_valid signature invocation depth width
  | Some error => invocation_error signature invocation depth width error /\
      ~ invocation_valid signature invocation depth width
  end.
Proof. apply validateInvocation_spec. Qed.


(** ** A bound kernel

    [y = a[0] + x] for six iterations with [x = 3], and the graph it is bound to. *)
Definition shift_requests : list BuilderRequest := [
  ReqAddExternal "x" vt_i32; ReqAddConstant vt_i32 0;
  ReqAddNode OpLoad [vt_i32] vt_i32 None (Some (mkMemoryOpInfo 32 false)) None;
  ReqAddNode OpAdd [vt_i32; vt_i32] vt_i32 None None None;
  ReqAddLiveOut "y" vt_i32 1; ReqAddDataEdge 0 1 0 0 None;
  ReqBindConstant 0 0 0].

Definition shift : DFG :=
  b_dfg (requests (DFGBuilder_new "shift") (shift_requests ++ [ReqBindExternal 1 1 0])).

Definition shift_invocation : KernelInvocation := mkInvocation 6 [mkScalarInput 0 3] [(7, 7)].

Definition shift_bound : ABIBoundKernel :=
  mkBoundKernel (b_dfg (requests (DFGBuilder_new "shift") (shift_requests ++ [
      ReqAddConstant vt_i32 3; ReqBindConstant 1 1 1; ReqAddConstant vt_i32 4095;
      ReqAddNode OpStore [vt_i32; vt_i32] voidTy None (Some (mkMemoryOpInfo 32 false)) (Some "abi.liveout.0");
      ReqBindConstant 2 0 2; ReqAddDataEdge 1 2 1 0 None; ReqAddMemoryEdge 2 2 WAW 1])))
    (inferSignature shift) shift_invocation
    (mkLayout 4096 4095 4095 [mkInputBinding 0 1] [mkOutputBinding 0 4095 2 2]).

Example shift_verified : abi_verify shift cgra_v2 shift_invocation shift_bound = Done [].
Proof. vm_compute. reflexivity. Qed.

(** *** What the verifier does not see

    Bound kernels made by hand, of the same source. *)
Definition shift_made (rs : list BuilderRequest) (inputs : list KernelInputBinding) : ABIBoundKernel :=
  mkBoundKernel (b_dfg (requests (DFGBuilder_new "shift") rs)) (inferSignature shift) shift_invocation
    (mkLayout 4096 4095 4095 inputs [mkOutputBinding 0 4095 2 2]).

(** A store that receives the live-out of the iteration before is accepted. *)
Example delayed_store_accepted : abi_verify shift cgra_v2 shift_invocation
  (shift_made (shift_requests ++ [
      ReqAddConstant vt_i32 3; ReqBindConstant 1 1 1; ReqAddConstant vt_i32 4095;
      ReqAddNode OpStore [vt_i32; vt_i32] voidTy None (Some (mkMemoryOpInfo 32 false)) (Some "abi.liveout.0");
      ReqBindConstant 2 0 2; ReqAddDataEdge 1 2 1 1 (Some [mkRecurrenceBoundaryValue 0 (ConstantRef 0)]);
      ReqAddMemoryEdge 2 2 WAW 1]) [mkInputBinding 0 1]) = Done [].
Proof. vm_compute. reflexivity. Qed.

(** A layout without the binding of an input that is used: a null pointer is followed. *)
Example missing_binding_undefined : abi_verify shift cgra_v2 shift_invocation
  (shift_made (shift_requests ++ [ReqAddConstant vt_i32 3; ReqBindConstant 1 1 1]) []) = Undefined.
Proof. vm_compute. reflexivity. Qed.

(** An edge of another kind ends the report with an exception. *)
Example changed_kind_throws : abi_verify shift cgra_v2 shift_invocation
  (shift_made [ReqAddExternal "x" vt_i32; ReqAddConstant vt_i32 0;
    ReqAddNode OpLoad [vt_i32] vt_i32 None (Some (mkMemoryOpInfo 32 false)) None;
    ReqAddNode OpAdd [vt_i32; vt_i32] vt_i32 None None None;
    ReqAddLiveOut "y" vt_i32 1; ReqAddPredicateEdge 0 1 0 0 None; ReqBindConstant 0 0 0;
    ReqAddConstant vt_i32 3; ReqBindConstant 1 1 1] [mkInputBinding 0 1]) = Raise BadVariantAccess.
Proof. vm_compute. reflexivity. Qed.

Lemma requests_inv name rs : forallb (fun r => negb (is_import_edge r)) rs = true ->
  DFG_inv (b_dfg (requests (DFGBuilder_new name) rs)).
Proof.
  intros H. apply built_inv, requests_built; [|apply DFG_empty_built]. intros r Hr.
  by apply negb_true_iff, (proj1 (forallb_forall _ _) H), list_elem_of_In.
Qed.

Lemma shift_typed : typed_invocation (inferSignature shift) shift_invocation.
Proof. split; intros x; vm_compute; intros Hx; apply list_elem_of_singleton in Hx; subst; vm_compute; discriminate. Qed.

Lemma validateInvocation_exact_witness :
  match validateInvocation (inferSignature shift) shift_invocation 4096 32 with
  | None => invocation_valid (inferSignature shift) shift_invocation 4096 32
  | Some error => invocation_error (inferSignature shift) shift_invocation 4096 32 error /\
      ~ invocation_valid (inferSignature shift) shift_invocation 4096 32
  end.
Proof. apply validateInvocation_exact; [exact shift_typed|]. apply (bool_decide_eq_true_1 _). vm_compute. reflexivity. Defined.

