(* ===== verification/KernelABIBinding.v ===== *)
(** * The kernel binder

    What the builder calls of [bind_graph] add up to, and the theorem that [bind]
    succeeds exactly on the kernels that can be bound. *)
From Stdlib Require Import Sorted.
From stdpp Require Import base numbers list gmap strings sorting.
From S2P Require Import Prelude.
From S2P Require Import IR.
From S2P Require Import DFG.
From S2P Require Import DFGVerifier.
From S2P Require Import TargetModel.
From S2P Require Import CgraV2.
From S2P Require Import KernelABI.
From S2P Require Import KernelABIVerified.

(** ** Builders and what they hold *)

Record Contents := mkContents {
  ct_name : string;
  ct_nodes : list Node;
  ct_edges : list Edge;
  ct_externals : list ExternalValue;
  ct_constants : list ConstantValue;
  ct_liveOuts : list LiveOut;
  ct_bindings : list OperandBinding
}.

(** The container agrees with [c], up to the order of the bindings, and the next edge
    identifier is above all that are used. *)
Record holds (b : DFGBuilder) (c : Contents) : Prop := {
  ho_inv : DFG_inv (b_dfg b);
  ho_name : d_name (b_dfg b) = ct_name c;
  ho_nodes : d_nodes (b_dfg b) = ct_nodes c;
  ho_edges : d_edges (b_dfg b) = ct_edges c;
  ho_externals : d_externalValues (b_dfg b) = ct_externals c;
  ho_constants : d_constants (b_dfg b) = ct_constants c;
  ho_liveOuts : d_liveOuts (b_dfg b) = ct_liveOuts c;
  ho_bindings : d_bindings (b_dfg b) ≡ₚ ct_bindings c;
  ho_next : is_u32 (b_nextEdgeId b) /\ forall edge, edge ∈ ct_edges c -> edge_id edge < b_nextEdgeId b
}.

Definition add_nodes (c : Contents) (l : list Node) : Contents :=
  mkContents (ct_name c) (ct_nodes c ++ l) (ct_edges c) (ct_externals c) (ct_constants c) (ct_liveOuts c) (ct_bindings c).
Definition add_edges (c : Contents) (l : list Edge) : Contents :=
  mkContents (ct_name c) (ct_nodes c) (ct_edges c ++ l) (ct_externals c) (ct_constants c) (ct_liveOuts c) (ct_bindings c).
Definition add_externals (c : Contents) (l : list ExternalValue) : Contents :=
  mkContents (ct_name c) (ct_nodes c) (ct_edges c) (ct_externals c ++ l) (ct_constants c) (ct_liveOuts c) (ct_bindings c).
Definition add_constants (c : Contents) (l : list ConstantValue) : Contents :=
  mkContents (ct_name c) (ct_nodes c) (ct_edges c) (ct_externals c) (ct_constants c ++ l) (ct_liveOuts c) (ct_bindings c).
Definition add_liveOuts (c : Contents) (l : list LiveOut) : Contents :=
  mkContents (ct_name c) (ct_nodes c) (ct_edges c) (ct_externals c) (ct_constants c) (ct_liveOuts c ++ l) (ct_bindings c).
Definition add_bindings (c : Contents) (l : list OperandBinding) : Contents :=
  mkContents (ct_name c) (ct_nodes c) (ct_edges c) (ct_externals c) (ct_constants c) (ct_liveOuts c) (ct_bindings c ++ l).

(** A call that succeeds and leaves the builder with [c]. *)
Definition builds (r : result DFGBuilder) (c : Contents) (next : Z) : Prop :=
  exists b, r = Ok b /\ holds b c /\ b_nextEdgeId b = next.

Lemma builds_bind (r : result DFGBuilder) (k : DFGBuilder -> result DFGBuilder) c next c' next' :
  builds r c next -> (forall b, holds b c -> b_nextEdgeId b = next -> builds (k b) c' next') ->
  builds (mbind k r) c' next'.
Proof. intros (b & -> & Hb & E) H. by apply H. Qed.

Lemma not_contained {A} (key : A -> Z) (l : list A) m k : indexed key l m -> k ∉ key <$> l ->
  bool_decide (is_Some (m !! k)) = false.
Proof.
  intros Hix Hk. apply bool_decide_eq_false. rewrite (indexed_contains key _ _ _ Hix).
  intros (x & Hx & <-). apply Hk. by apply list_elem_of_fmap_2.
Qed.

Lemma contained {A} (key : A -> Z) (l : list A) m k : indexed key l m -> k ∈ key <$> l ->
  bool_decide (is_Some (m !! k)) = true.
Proof.
  intros Hix (x & -> & Hx)%list_elem_of_fmap. apply bool_decide_eq_true. rewrite (indexed_contains key _ _ _ Hix). eauto.
Qed.

Section Calls.
Context (b : DFGBuilder) (c : Contents) (Hb : holds b c).

#[local] Ltac grown H := split; [simpl; exact H|simpl; destruct Hb; simpl in *; try congruence; try done..].

Lemma import_node node : node_id node ∉ node_id <$> ct_nodes c ->
  builds (build_call (importNode b node)) (add_nodes c [node]) (b_nextEdgeId b).
Proof using Hb.
  intros Hn. unfold importNode, commit. destruct (d_appendNode _ _) as [g|e] eqn:E.
  - eexists. split; [done|]. split; [|done]. pose proof (d_appendNode_inv _ (ho_inv _ _ Hb) _ _ E) as Hinv.
    unfold d_appendNode in E. simpl in E. destruct (d_containsNode _ _); [done|]. injection E as <-. grown Hinv.
  - exfalso. unfold d_appendNode, d_containsNode in E. simpl in E. rewrite <- (ho_nodes _ _ Hb) in Hn.
    by rewrite (not_contained _ _ _ _ (dinv_nodes _ (ho_inv _ _ Hb)) Hn) in E.
Qed.

Lemma import_external value : ext_id value ∉ ext_id <$> ct_externals c ->
  builds (build_call (importExternal b value)) (add_externals c [value]) (b_nextEdgeId b).
Proof using Hb.
  intros Hn. unfold importExternal, commit. destruct (d_appendExternal _ _) as [g|e] eqn:E.
  - eexists. split; [done|]. split; [|done]. pose proof (d_appendExternal_inv _ (ho_inv _ _ Hb) _ _ E) as Hinv.
    unfold d_appendExternal in E. simpl in E. destruct (d_containsExternal _ _); [done|]. injection E as <-. grown Hinv.
  - exfalso. unfold d_appendExternal, d_containsExternal in E. simpl in E. rewrite <- (ho_externals _ _ Hb) in Hn.
    by rewrite (not_contained _ _ _ _ (dinv_externals _ (ho_inv _ _ Hb)) Hn) in E.
Qed.

Lemma import_constant value : const_id value ∉ const_id <$> ct_constants c ->
  builds (build_call (importConstant b value)) (add_constants c [value]) (b_nextEdgeId b).
Proof using Hb.
  intros Hn. unfold importConstant, commit. destruct (d_appendConstant _ _) as [g|e] eqn:E.
  - eexists. split; [done|]. split; [|done]. pose proof (d_appendConstant_inv _ (ho_inv _ _ Hb) _ _ E) as Hinv.
    unfold d_appendConstant in E. simpl in E. destruct (d_containsConstant _ _); [done|]. injection E as <-. grown Hinv.
  - exfalso. unfold d_appendConstant, d_containsConstant in E. simpl in E. rewrite <- (ho_constants _ _ Hb) in Hn.
    by rewrite (not_contained _ _ _ _ (dinv_constants _ (ho_inv _ _ Hb)) Hn) in E.
Qed.

Lemma import_liveOut value : lo_id value ∉ lo_id <$> ct_liveOuts c -> lo_source value ∈ node_id <$> ct_nodes c ->
  builds (build_call (importLiveOut b value)) (add_liveOuts c [value]) (b_nextEdgeId b).
Proof using Hb.
  intros Hn Hs. unfold importLiveOut, commit. destruct (d_appendLiveOut _ _) as [g|e] eqn:E.
  - eexists. split; [done|]. split; [|done]. pose proof (d_appendLiveOut_inv _ (ho_inv _ _ Hb) _ _ E) as Hinv.
    unfold d_appendLiveOut in E. simpl in E. destruct (d_containsLiveOut _ _); [done|].
    destruct (negb _); [done|]. injection E as <-. grown Hinv.
  - exfalso. unfold d_appendLiveOut, d_containsLiveOut, d_containsNode in E. simpl in E.
    rewrite <- (ho_liveOuts _ _ Hb) in Hn. rewrite <- (ho_nodes _ _ Hb) in Hs.
    rewrite (not_contained _ _ _ _ (dinv_liveOuts _ (ho_inv _ _ Hb)) Hn) in E.
    by rewrite (contained _ _ _ _ (dinv_nodes _ (ho_inv _ _ Hb)) Hs) in E.
Qed.

Lemma import_edge edge : edge_id edge ∉ edge_id <$> ct_edges c ->
  edge_src edge ∈ node_id <$> ct_nodes c -> edge_dst edge ∈ node_id <$> ct_nodes c ->
  0 <= edge_id edge < u32_max ->
  builds (build_call (importEdge b edge)) (add_edges c [edge]) (Z.max (b_nextEdgeId b) (edge_id edge + 1)).
Proof using Hb.
  intros Hn Hs Hd Hid. pose proof (ho_inv _ _ Hb) as Hinv.
  assert (Htotal : is_Ok (d_appendEdge (b_dfg b) edge) = true).
  { apply d_appendEdge_total; [done|]. unfold d_containsEdge, d_containsNode.
    rewrite <- (ho_edges _ _ Hb) in Hn. rewrite <- (ho_nodes _ _ Hb) in Hs, Hd.
    split_and!; [by apply (not_contained _ _ _ _ (dinv_edges _ Hinv))|by apply (contained _ _ _ _ (dinv_nodes _ Hinv))..]. }
  unfold importEdge, commit. simpl. destruct (d_appendEdge (b_dfg b) edge) as [g|] eqn:E; [|done].
  assert (Enext : bump_next (b_nextEdgeId b) (edge_id edge) = Z.max (b_nextEdgeId b) (edge_id edge + 1)).
  { unfold bump_next. rewrite wrap32_id; [done|]. unfold_words. lia. }
  eexists. split; [done|]. split; [|done]. pose proof (d_appendEdge_inv _ Hinv _ _ E) as Hinv'.
  unfold d_appendEdge in E. destruct (d_containsEdge _ _); [done|]. destruct (_ || _)%bool; [done|].
  inv_ok. subst g. grown Hinv'. rewrite Enext. destruct ho_next0 as [Hu Hlt]. split; [unfold_words; lia|].
  intros e He. split_snoc He; [specialize (Hlt _ He); lia|lia].
Qed.

(** An operand without a provider is available. *)
Lemma operand_available node operand : node ∈ ct_nodes c -> operand < Z.of_nat (length (node_operandTypes node)) ->
  (node_id node, operand) ∉ providers (ct_edges c) (ct_bindings c) ->
  checkProviderAvailable (b_dfg b) (node_id node) operand = Ok tt.
Proof using Hb.
  intros Hn Ho Hp. pose proof (ho_inv _ _ Hb) as Hinv. rewrite <- (ho_nodes _ _ Hb) in Hn.
  assert (Hnode : d_node (b_dfg b) (node_id node) = Ok node) by (by apply d_node_Ok).
  assert (Hprov : (node_id node, operand) ∉ providers (d_edges (b_dfg b)) (d_bindings (b_dfg b))).
  { rewrite (ho_edges _ _ Hb). intros H. apply Hp. unfold providers in *. by rewrite (ho_bindings _ _ Hb) in H. }
  clear Hp. unfold checkProviderAvailable, checkOperand, checkNode. rewrite Hnode. simpl.
  rewrite (proj2 (Z.leb_gt _ _)) by done. simpl.
  rewrite (dc_incoming _ (DFG_inv_coherent _ Hinv)) by done. simpl.
  assert (Hcheck : check_incoming (b_dfg b) operand (d_in_edges (d_edges (b_dfg b)) (node_id node)) = Ok tt).
  { unfold edges_at. assert (Hall : forall e, e ∈ filter (fun e => edge_dst e = node_id node) (d_edges (b_dfg b)) ->
      e ∈ d_edges (b_dfg b) /\ edge_dst e = node_id node) by (intros e He; apply list_elem_of_filter in He; tauto).
    induction (filter _ _) as [|e es IH]; [done|]. rewrite fmap_cons. simpl. destruct (Hall e ltac:(left)) as [He Ed].
    rewrite (proj2 (d_edge_Ok _ Hinv _ e)) by done. simpl. rewrite bool_decide_eq_false_2.
    - apply IH. intros x Hx. apply Hall. by right.
    - intros Eo. apply Hprov, elem_of_app. left. apply list_elem_of_omap. exists e. split; [done|].
      unfold edge_provider. by rewrite Eo, <- Ed. }
  rewrite Hcheck. simpl. destruct (existsb _ _) eqn:E; [|done]. exfalso. apply existsb_exists in E as (x & Hx & E).
  apply Hprov, elem_of_app. right. apply list_elem_of_fmap. exists x. split; [unfold binding_key; f_equal; lia|].
  by apply list_elem_of_In.
Qed.

Lemma bind_constant node operand value : node ∈ ct_nodes c -> operand < Z.of_nat (length (node_operandTypes node)) ->
  (node_id node, operand) ∉ providers (ct_edges c) (ct_bindings c) -> value ∈ const_id <$> ct_constants c ->
  builds (build_call (bindConstant b (node_id node) operand value))
    (add_bindings c [mkOperandBinding (node_id node) operand (ConstantRef value)]) (b_nextEdgeId b).
Proof using Hb.
  intros Hn Ho Hp Hv. pose proof (ho_inv _ _ Hb) as Hinv. unfold bindConstant. rewrite operand_available by done. simpl.
  rewrite <- (ho_constants _ _ Hb) in Hv.
  unfold d_containsConstant. rewrite (contained _ _ _ _ (dinv_constants _ Hinv) Hv). simpl.
  destruct (d_appendBinding _ _) as [g|e] eqn:E.
  - eexists. split; [done|]. split; [|done]. pose proof (d_appendBinding_inv _ Hinv _ _ E) as Hinv'.
    pose proof (d_appendBinding_Ok _ _ _ E) as (_ & _ & _ & _ & _ & _ & Hperm).
    unfold d_appendBinding in E. destruct (negb _); [done|]. destruct (existsb _ _); [done|]. injection E as <-.
    grown Hinv'. rewrite Hperm. by f_equiv.
  - exfalso. unfold d_appendBinding, d_containsNode in E. simpl in E.
    rewrite (contained _ _ _ _ (dinv_nodes _ Hinv)) in E
      by (rewrite (ho_nodes _ _ Hb); by apply list_elem_of_fmap_2). simpl in E.
    destruct (existsb _ _) eqn:Ex; [|done]. apply existsb_exists in Ex as (x & Hx & Ex).
    apply Hp, elem_of_app. right. rewrite <- (ho_bindings _ _ Hb). apply list_elem_of_fmap. exists x.
    split; [unfold binding_key; f_equal; lia|]. by apply list_elem_of_In.
Qed.

End Calls.

Section NewEdges.
Context (b : DFGBuilder) (c : Contents) (Hb : holds b c).

(** The identifier counter was bumped before the import. *)
Lemma import_fresh_edge src dst distance info : src ∈ node_id <$> ct_nodes c -> dst ∈ node_id <$> ct_nodes c ->
  b_nextEdgeId b < u32_max ->
  builds (build_call (importEdge (with_nextEdge b (wrap32 (b_nextEdgeId b + 1)))
    (mkEdge (b_nextEdgeId b) src dst distance info)))
    (add_edges c [mkEdge (b_nextEdgeId b) src dst distance info]) (b_nextEdgeId b + 1).
Proof using Hb.
  intros Hs Hd Hlt. destruct (ho_next _ _ Hb) as [Hu Hids].
  assert (E : wrap32 (b_nextEdgeId b + 1) = b_nextEdgeId b + 1) by (apply wrap32_id; unfold_words; lia).
  assert (Hb' : holds (with_nextEdge b (wrap32 (b_nextEdgeId b + 1))) c).
  { destruct Hb. split; try done. simpl. rewrite E. split; [unfold_words; lia|]. intros e He. specialize (Hids _ He). lia. }
  pose proof (import_edge _ _ Hb' (mkEdge (b_nextEdgeId b) src dst distance info)) as H.
  simpl in H. rewrite E, Z.max_id in H. rewrite E. apply H; try done; [|unfold_words; lia].
  intros (e & Ee & He)%list_elem_of_fmap. specialize (Hids _ He). lia.
Qed.

Lemma add_data_edge src node operand distance boundary : src ∈ node_id <$> ct_nodes c -> node ∈ ct_nodes c ->
  operand < Z.of_nat (length (node_operandTypes node)) ->
  (node_id node, operand) ∉ providers (ct_edges c) (ct_bindings c) -> b_nextEdgeId b < u32_max ->
  builds (build_call (addDataEdge b src (node_id node) operand distance boundary))
    (add_edges c [mkEdge (b_nextEdgeId b) src (node_id node) distance (DataEdgeInfo operand boundary)]) (b_nextEdgeId b + 1).
Proof using Hb.
  intros Hs Hn Ho Hp Hlt. unfold addDataEdge, addValueEdge. rewrite (operand_available b c Hb) by done.
  apply import_fresh_edge; try done. by apply list_elem_of_fmap_2.
Qed.

Lemma add_memory_edge src dst dependence distance : src ∈ node_id <$> ct_nodes c -> dst ∈ node_id <$> ct_nodes c ->
  b_nextEdgeId b < u32_max ->
  builds (build_call (addMemoryEdge b src dst dependence distance))
    (add_edges c [mkEdge (b_nextEdgeId b) src dst distance (MemoryEdgeInfo dependence)]) (b_nextEdgeId b + 1).
Proof using Hb.
  intros Hs Hd Hlt. unfold addMemoryEdge, checkNode. pose proof (ho_inv _ _ Hb) as Hinv.
  assert (Hread : forall id, id ∈ node_id <$> ct_nodes c -> is_Some (match d_node (b_dfg b) id with Ok n => Some n | _ => None end)).
  { intros id (n & -> & Hn)%list_elem_of_fmap. rewrite <- (ho_nodes _ _ Hb) in Hn.
    rewrite (proj2 (d_node_Ok _ Hinv _ n)) by done. eauto. }
  destruct (Hread _ Hs) as [n1 H1]. destruct (Hread _ Hd) as [n2 H2].
  destruct (d_node (b_dfg b) src); [|done]. destruct (d_node (b_dfg b) dst); [|done]. simpl.
  by apply import_fresh_edge.
Qed.
End NewEdges.

(** ** Loops of calls *)

Lemma add_nodes_nil c : add_nodes c [] = c.
Proof. destruct c. unfold add_nodes. simpl. by rewrite app_nil_r. Qed.
Lemma add_nodes_app c l k : add_nodes (add_nodes c l) k = add_nodes c (l ++ k).
Proof. unfold add_nodes. simpl. by rewrite app_assoc. Qed.
Lemma add_edges_nil c : add_edges c [] = c.
Proof. destruct c. unfold add_edges. simpl. by rewrite app_nil_r. Qed.
Lemma add_edges_app c l k : add_edges (add_edges c l) k = add_edges c (l ++ k).
Proof. unfold add_edges. simpl. by rewrite app_assoc. Qed.
Lemma add_externals_nil c : add_externals c [] = c.
Proof. destruct c. unfold add_externals. simpl. by rewrite app_nil_r. Qed.
Lemma add_externals_app c l k : add_externals (add_externals c l) k = add_externals c (l ++ k).
Proof. unfold add_externals. simpl. by rewrite app_assoc. Qed.
Lemma add_constants_nil c : add_constants c [] = c.
Proof. destruct c. unfold add_constants. simpl. by rewrite app_nil_r. Qed.
Lemma add_constants_app c l k : add_constants (add_constants c l) k = add_constants c (l ++ k).
Proof. unfold add_constants. simpl. by rewrite app_assoc. Qed.
Lemma add_liveOuts_nil c : add_liveOuts c [] = c.
Proof. destruct c. unfold add_liveOuts. simpl. by rewrite app_nil_r. Qed.
Lemma add_liveOuts_app c l k : add_liveOuts (add_liveOuts c l) k = add_liveOuts c (l ++ k).
Proof. unfold add_liveOuts. simpl. by rewrite app_assoc. Qed.
Lemma add_bindings_nil c : add_bindings c [] = c.
Proof. destruct c. unfold add_bindings. simpl. by rewrite app_nil_r. Qed.
Lemma add_bindings_app c l k : add_bindings (add_bindings c l) k = add_bindings c (l ++ k).
Proof. unfold add_bindings. simpl. by rewrite app_assoc. Qed.

Lemma build_each_builds {A} (f : DFGBuilder -> A -> DFGBuilder * result Z) (step : list A -> Contents) l next :
  (forall l1 x l2 b, l = l1 ++ x :: l2 -> holds b (step l1) -> b_nextEdgeId b = next ->
     builds (build_call (f b x)) (step (l1 ++ [x])) next) ->
  forall b, holds b (step []) -> b_nextEdgeId b = next -> builds (build_each f l b) (step l) next.
Proof.
  intros Hstep. enough (H : forall l2 l1 b, l = l1 ++ l2 -> holds b (step l1) -> b_nextEdgeId b = next ->
    builds (build_each f l2 b) (step l) next) by (intros b; by apply (H l [])).
  induction l2 as [|x l2 IH]; intros l1 b E Hb En; simpl.
  - exists b. rewrite app_nil_r in E. by subst l1.
  - eapply builds_bind; [by eapply Hstep|]. intros b' Hb' En'. apply (IH (l1 ++ [x])); try done.
    by rewrite <- app_assoc.
Qed.

(** A prefix of a list without repeated keys does not have the next key. *)
Lemma NoDup_next {A} (key : A -> Z) l l1 x l2 : NoDup (key <$> l) -> l = l1 ++ x :: l2 -> key x ∉ key <$> l1.
Proof.
  intros Hnd ->. rewrite fmap_app, fmap_cons, NoDup_app in Hnd. destruct Hnd as (_ & Hd & _).
  intros Hx. apply (Hd _ Hx). left.
Qed.

Lemma empty_holds name : holds (DFGBuilder_new name) (mkContents name [] [] [] [] [] []).
Proof.
  split; try done; [apply DFG_empty_inv|]. split; [unfold_words; simpl; lia|]. by intros edge ?%not_elem_of_nil.
Qed.

Lemma import_source_builds source : DFG_coherent source -> DFG_typed source ->
  builds (import_source source) (mkContents (d_name source) (d_nodes source) [] (d_externalValues source)
    (d_constants source) (d_liveOuts source) []) 0.
Proof.
  intros [Hn _ Hx Hc Hl _ _ _ _] Ht. unfold import_source.
  set (c0 := mkContents (d_name source) [] [] [] [] [] []).
  eapply builds_bind.
  { apply (build_each_builds _ (add_externals c0)); [|apply empty_holds|done].
    intros l1 x l2 b E Hb <-. rewrite <- add_externals_app. apply import_external; [done|]. by eapply NoDup_next. }
  intros b1 Hb1 E1. eapply builds_bind.
  { apply (build_each_builds _ (add_constants (add_externals c0 (d_externalValues source)))); [|by rewrite add_constants_nil|done].
    intros l1 x l2 b E Hb <-. rewrite <- add_constants_app. apply import_constant; [done|]. by eapply NoDup_next. }
  intros b2 Hb2 E2. eapply builds_bind.
  { apply (build_each_builds _ (add_nodes (add_constants (add_externals c0 (d_externalValues source)) (d_constants source))));
      [|by rewrite add_nodes_nil|done].
    intros l1 x l2 b E Hb <-. rewrite <- add_nodes_app. apply import_node; [done|]. by eapply NoDup_next. }
  intros b3 Hb3 E3.
  apply (build_each_builds _ (add_liveOuts (add_nodes (add_constants (add_externals c0 (d_externalValues source))
    (d_constants source)) (d_nodes source)))); [|by rewrite add_liveOuts_nil|done].
  intros l1 x l2 b E Hb <-. rewrite <- add_liveOuts_app. apply import_liveOut; [done|by eapply NoDup_next|]. simpl.
  assert (Hin : x ∈ d_liveOuts source) by (rewrite E; set_solver).
  destruct (dt_liveOuts source Ht _ Hin) as (_ & node & Hf & _). apply find_if_Some in Hf as [Hin' Ei].
  apply list_elem_of_fmap. exists node. split; [lia|done].
Qed.

(** ** Specialized values *)

Definition specialized_source (m : gmap Z Z) (s : ExternalOperandBinding) : ExternalOperandBinding :=
  default s (specialize_source m s).
Definition specialized_values (m : gmap Z Z) (values : list RecurrenceBoundaryValue) : list RecurrenceBoundaryValue :=
  (fun v => mkRecurrenceBoundaryValue (rbv_iterationOffset v) (specialized_source m (rbv_value v))) <$> values.
Definition specialized_info (m : gmap Z Z) (info : EdgeInfo) : EdgeInfo :=
  match info with
  | DataEdgeInfo operand boundary => DataEdgeInfo operand (specialized_values m <$> boundary)
  | PredicateEdgeInfo operand boundary => PredicateEdgeInfo operand (specialized_values m <$> boundary)
  | MemoryEdgeInfo dependence => MemoryEdgeInfo dependence
  end.
Definition specialized_edge (m : gmap Z Z) (edge : Edge) : Edge :=
  mkEdge (edge_id edge) (edge_src edge) (edge_dst edge) (edge_distance edge) (specialized_info m (edge_info edge)).
Definition specialized_binding (m : gmap Z Z) (binding : OperandBinding) : OperandBinding :=
  mkOperandBinding (ob_node binding) (ob_operand binding) (specialized_source m (ob_source binding)).

Definition known_source (m : gmap Z Z) (s : ExternalOperandBinding) : Prop := is_Some (specialize_source m s).

Definition info_boundary (info : EdgeInfo) : list RecurrenceBoundaryValue :=
  match info with
  | DataEdgeInfo _ (Some values) | PredicateEdgeInfo _ (Some values) => values
  | _ => []
  end.

Lemma specialized_known m s : known_source m s -> specialize_source m s = Some (specialized_source m s).
Proof. unfold known_source, specialized_source. by intros [x ->]. Qed.

Lemma rewrite_values_known m values : (forall v, v ∈ values -> known_source m (rbv_value v)) ->
  rewrite_values m values = Ok (specialized_values m values).
Proof.
  induction values as [|v values IH]; intros H; [done|]. simpl. rewrite specialized_known by (apply H; left). simpl.
  by rewrite IH by (intros x Hx; apply H; by right).
Qed.

Lemma rewrite_edge_known m edge : (forall v, v ∈ info_boundary (edge_info edge) -> known_source m (rbv_value v)) ->
  rewrite_edge m edge = Ok (specialized_edge m edge).
Proof.
  intros H. unfold rewrite_edge, specialized_edge.
  destruct (edge_info edge) as [o [values|]|o [values|]|k]; simpl in *; try done; by rewrite rewrite_values_known.
Qed.

Lemma specialized_edge_provider m edge : edge_provider (specialized_edge m edge) = edge_provider edge.
Proof. unfold edge_provider. by destruct edge as [i s d w []]. Qed.

Lemma specialized_providers m edges bindings :
  providers (specialized_edge m <$> edges) (specialized_binding m <$> bindings) = providers edges bindings.
Proof.
  unfold providers. rewrite <- list_fmap_compose. f_equal.
  induction edges as [|edge edges IH]; [done|]. rewrite fmap_cons. csimpl. rewrite specialized_edge_provider, IH. done.
Qed.

(** ** The phases of [bind_graph] *)

Section Phases.
Context (source : DFG) (target : TargetModel) (invocation : KernelInvocation).
Context (Hco : DFG_coherent source) (Ht : DFG_typed source).

Abbreviation X := (d_externalValues source).
Abbreviation depth := (mem_depth (tm_memory target)).
Abbreviation count := (Z.of_nat (length (d_liveOuts source))).
Abbreviation base := (depth - count).

(** Every constant, node and edge has an identifier that leaves room for what the
    binder adds, and operands are unsigned. *)
Record bind_room : Prop := {
  br_constants : forall c, c ∈ d_constants source ->
    0 <= const_id c /\ const_id c + Z.of_nat (length X) + count < u32_max;
  br_values : Z.of_nat (length X) + count < u32_max;
  br_nodes : forall node, node ∈ d_nodes source -> 0 <= node_id node /\ node_id node + count < u32_max;
  br_edges : forall edge, edge ∈ d_edges source -> 0 <= edge_id edge /\ edge_id edge + 2 * count < u32_max;
  br_liveOuts : 2 * count < u32_max;
  br_operands : unsigned_operands source
}.
Context (Hroom : bind_room).

(** *** New identifiers *)

Lemma next_id_spec next ids bound : 0 <= next <= bound -> bound <= u32_max ->
  (forall id, id ∈ ids -> 0 <= id < bound) ->
  exists m, next_id next ids = Ok m /\ next <= m <= bound /\ forall id, id ∈ ids -> id < m.
Proof using Type.
  revert next. induction ids as [|id ids IH]; intros next Hn Hb Hids; simpl.
  - exists next. split_and!; [done|lia|lia|]. by intros ? ?%not_elem_of_nil.
  - pose proof (Hids id ltac:(left)) as Hid. rewrite (proj2 (Z.eqb_neq _ _)) by lia.
    destruct (IH (Z.max next (id + 1))) as (m & E & Hm & Hlt); [lia|done|intros x Hx; apply Hids; by right|].
    exists m. split_and!; [done|lia|lia|]. intros x [->|Hx]%elem_of_cons; [lia|auto].
Qed.

Definition constant_start : Z := match nextId (d_constants source) with Ok m => m | _ => 0 end.
Definition node_start : Z := match nextNodeId (d_nodes source) with Ok m => m | _ => 0 end.

Lemma nextId_ok : nextId (d_constants source) = Ok constant_start /\
  0 <= constant_start <= u32_max - (Z.of_nat (length X) + count) /\
  forall c, c ∈ d_constants source -> const_id c < constant_start.
Proof using Hroom.
  unfold constant_start, nextId. destruct (next_id_spec 0 (const_id <$> d_constants source)
    (u32_max - (Z.of_nat (length X) + count))) as (m & E & Hm & Hlt).
  - pose proof (br_values Hroom). lia.
  - lia.
  - intros id (c & -> & Hc)%list_elem_of_fmap. pose proof (br_constants Hroom c Hc). lia.
  - rewrite E. split_and!; [done|lia|lia|]. intros c Hc. apply Hlt. by apply list_elem_of_fmap_2.
Qed.

Lemma nextNodeId_ok : nextNodeId (d_nodes source) = Ok node_start /\ 0 <= node_start <= u32_max - count /\
  forall node, node ∈ d_nodes source -> node_id node < node_start.
Proof using Hroom.
  unfold node_start, nextNodeId. destruct (next_id_spec 0 (node_id <$> d_nodes source) (u32_max - count)) as (m & E & Hm & Hlt).
  - pose proof (br_liveOuts Hroom). lia.
  - lia.
  - intros id (c & -> & Hc)%list_elem_of_fmap. pose proof (br_nodes Hroom c Hc). lia.
  - rewrite E. split_and!; [done|lia|lia|]. intros c Hc. apply Hlt. by apply list_elem_of_fmap_2.
Qed.

(** *** Scalar inputs *)

Definition input_bits (id : Z) : Z :=
  default 0 (ksv_bits <$> find_if (fun value => ksv_id value =? id) (ki_scalarInputs invocation)).
Definition specialized_constant (i : nat) (x : ExternalValue) : ConstantValue :=
  mkConstantValue (constant_start + Z.of_nat i) (ext_type x) (input_bits (ext_id x)).
Definition specialized_constants : list ConstantValue := imap specialized_constant X.
Definition specialized_pairs (l : list ExternalValue) : list (Z * Z) :=
  imap (fun i x => (ext_id x, constant_start + Z.of_nat i)) l.
Definition specialized : gmap Z Z := list_to_map (specialized_pairs X).

Lemma specialized_pairs_fst l : (specialized_pairs l).*1 = ext_id <$> l.
Proof using Type. unfold specialized_pairs. rewrite fmap_imap. apply list_eq. intros i. rewrite list_lookup_imap, list_lookup_fmap. done. Qed.

Lemma specialized_lookup x k : specialized !! x = Some k <-> exists i v, X !! i = Some v /\ ext_id v = x /\
  k = constant_start + Z.of_nat i.
Proof using Hco.
  unfold specialized. rewrite <- elem_of_list_to_map.
  - unfold specialized_pairs. rewrite list_elem_of_lookup. setoid_rewrite list_lookup_imap_Some. split.
    + intros (i & v & Hv & [= -> ->]). eauto.
    + intros (i & v & Hv & <- & ->). eauto.
  - rewrite specialized_pairs_fst. apply Hco.
Qed.

Lemma specialized_is_Some x : is_Some (specialized !! x) <-> x ∈ ext_id <$> X.
Proof using Hco.
  split.
  - intros [k (i & v & Hv & <- & _)%specialized_lookup]. apply list_elem_of_fmap_2. by eapply list_elem_of_lookup_2.
  - intros (v & -> & [i Hi]%list_elem_of_lookup)%list_elem_of_fmap. eexists. apply specialized_lookup. eauto.
Qed.

Lemma specialized_size : Z.of_nat (size specialized) = Z.of_nat (length X).
Proof using Hco.
  unfold specialized. rewrite <- (size_dom (D := gset Z)), dom_list_to_map_L, size_list_to_set by (rewrite specialized_pairs_fst; apply Hco).
  by rewrite specialized_pairs_fst, length_fmap.
Qed.

Lemma specialize_inputs_builds c next :
  (forall x, x ∈ X -> ext_id x ∈ ksv_id <$> ki_scalarInputs invocation) -> ct_constants c = d_constants source ->
  forall b, holds b c -> b_nextEdgeId b = next ->
  exists b', specialize_inputs (ki_scalarInputs invocation) constant_start (ks_scalarInputs (inferSignature source)) ∅ b =
    Ok (specialized, b') /\ holds b' (add_constants c specialized_constants) /\ b_nextEdgeId b' = next.
Proof using Hco Hroom.
  clear Ht. intros Hall Ec. destruct nextId_ok as (_ & Hstart & Hlt).
  enough (H : forall l2 l1 b, X = l1 ++ l2 -> holds b (add_constants c (imap specialized_constant l1)) -> b_nextEdgeId b = next ->
    exists b', specialize_inputs (ki_scalarInputs invocation) constant_start
      ((fun value => mkInputDesc (ext_id value) (ext_name value) (ext_type value)) <$> l2) (list_to_map (specialized_pairs l1)) b =
      Ok (specialized, b') /\ holds b' (add_constants c specialized_constants) /\ b_nextEdgeId b' = next).
  { intros b Hb En. apply (H X []); [done| |done]. simpl. by rewrite add_constants_nil. }
  induction l2 as [|x l2 IH]; intros l1 b E Hb En.
  { exists b. rewrite app_nil_r in E. unfold specialized, specialized_constants. rewrite E. done. }
  rewrite fmap_cons. simpl. destruct (find_if (fun value => ksv_id value =? ext_id x) _) as [input|] eqn:Ef.
  2: { exfalso. assert (Hx : x ∈ X) by (rewrite E; set_solver). apply Hall, list_elem_of_fmap in Hx as (i & Ei & Hi).
       apply (proj1 (find_if_None _ _)) with (x := i) in Ef; [|done]. lia. }
  simpl. assert (Hfresh : ext_id x ∉ (specialized_pairs l1).*1).
  { rewrite specialized_pairs_fst. eapply NoDup_next; [apply (dc_externals source Hco)|exact E]. }
  assert (Hlen : (length l1 < length X)%nat) by (rewrite E, length_app; simpl; lia).
  assert (Hsize : wrap32 (constant_start + Z.of_nat (size (list_to_map (specialized_pairs l1) : gmap Z Z))) =
    constant_start + Z.of_nat (length l1)).
  { assert (Hnd : NoDup (specialized_pairs l1).*1).
    { rewrite specialized_pairs_fst. pose proof (dc_externals source Hco) as Hnd. rewrite E, fmap_app in Hnd. by apply NoDup_app in Hnd as [? _]. }
    rewrite <- (size_dom (D := gset Z)), dom_list_to_map_L, size_list_to_set by done.
    rewrite specialized_pairs_fst, length_fmap. apply wrap32_id. unfold_words. lia. }
  rewrite Hsize. assert (Hnew : specialized_constant (length l1) x = mkConstantValue (constant_start + Z.of_nat (length l1)) (ext_type x) (ksv_bits input)).
  { unfold specialized_constant, input_bits. by rewrite Ef. }
  rewrite <- Hnew. destruct (import_constant b _ Hb (specialized_constant (length l1) x)) as (b' & Eb & Hb' & En').
  { simpl. rewrite Ec, fmap_app. intros [(k & Ek & Hk)%list_elem_of_fmap|Hin]%elem_of_app.
    - specialize (Hlt _ Hk). lia.
    - rewrite fmap_imap in Hin. apply list_elem_of_lookup in Hin as [i Hi]. apply list_lookup_imap_Some in Hi as (y & Hy & Ey).
      apply lookup_lt_Some in Hy. simpl in Ey. lia. }
  rewrite Eb. simpl. rewrite bool_decide_eq_false_2.
  2: { rewrite <- elem_of_dom, dom_list_to_map_L. by rewrite elem_of_list_to_set. }
  assert (Epairs : <[ext_id x := constant_start + Z.of_nat (length l1)]> (list_to_map (specialized_pairs l1) : gmap Z Z) =
    list_to_map (specialized_pairs (l1 ++ [x]))).
  { unfold specialized_pairs at 2. rewrite imap_app. simpl. rewrite Nat.add_0_r. symmetry. by apply list_to_map_snoc. }
  rewrite Epairs. apply (IH (l1 ++ [x])); [by rewrite <- app_assoc| |by rewrite En'].
  rewrite add_constants_app in Hb'. rewrite imap_app. simpl. by rewrite Nat.add_0_r.
Qed.

(** *** Edges and uses *)

Lemma source_known s type : source_type source s = Some type -> known_source specialized s.
Proof using Hco.
  destruct s as [x|k]; intros H; [|by eexists]. unfold known_source. simpl in *.
  destruct (d_find_external source x) as [v|] eqn:Ef; [|done]. apply find_if_Some in Ef as [Hv E].
  destruct (proj2 (specialized_is_Some x)) as [k ->]; [|by eexists].
  apply list_elem_of_fmap. exists v. split; [lia|done].
Qed.

Lemma binding_known binding : binding ∈ d_bindings source -> known_source specialized (ob_source binding).
Proof using Hco Ht. intros Hb. destruct (dt_bindings source Ht _ Hb) as (type & _ & Hs). by eapply source_known. Qed.

Lemma edge_known edge v : edge ∈ d_edges source -> v ∈ info_boundary (edge_info edge) ->
  known_source specialized (rbv_value v).
Proof using Hco Ht.
  intros He Hv. destruct (dt_edges source Ht _ He) as (s & d & _ & _ & H).
  destruct (edge_info edge) as [o [values|]|o [values|]|k]; simpl in Hv; try by apply not_elem_of_nil in Hv.
  all: destruct H as (_ & _ & _ & _ & _ & H); destruct (H _ Hv) as [_ Hs]; by eapply source_known.
Qed.

Lemma edge_ends edge : edge ∈ d_edges source ->
  edge_src edge ∈ node_id <$> d_nodes source /\ edge_dst edge ∈ node_id <$> d_nodes source.
Proof using Ht.
  intros He. destruct (dt_edges source Ht _ He) as (s & d & Hs & Hd & _).
  apply find_if_Some in Hs as [Hs Es], Hd as [Hd Ed].
  split; apply list_elem_of_fmap; [exists s|exists d]; (split; [lia|done]).
Qed.

Lemma import_edges_builds c : ct_nodes c = d_nodes source -> ct_edges c = [] ->
  forall b, holds b c -> b_nextEdgeId b = 0 -> exists next,
  builds (import_edges specialized (d_edges source) b) (add_edges c (specialized_edge specialized <$> d_edges source)) next /\
  0 <= next <= u32_max - 2 * count.
Proof using Hco Ht Hroom.
  intros En Ee. pose proof (br_liveOuts Hroom) as Hc2.
  enough (H : forall l2 l1 b, d_edges source = l1 ++ l2 -> holds b (add_edges c (specialized_edge specialized <$> l1)) ->
    0 <= b_nextEdgeId b <= u32_max - 2 * count -> exists next,
    builds (import_edges specialized l2 b) (add_edges c (specialized_edge specialized <$> d_edges source)) next /\
    0 <= next <= u32_max - 2 * count).
  { intros b Hb E0. apply (H (d_edges source) []); [done|by rewrite add_edges_nil|lia]. }
  clear Hc2. induction l2 as [|edge l2 IH]; intros l1 b E Hb Hnext.
  { exists (b_nextEdgeId b). split; [|done]. exists b. rewrite app_nil_r in E. by rewrite E. }
  assert (He : edge ∈ d_edges source) by (rewrite E; apply elem_of_app; right; left).
  cbn [import_edges]. rewrite rewrite_edge_known by (intros v Hv; by eapply edge_known). cbn [mbind result_bind].
  destruct (edge_ends edge He) as [Hs Hd]. pose proof (br_edges Hroom _ He) as Hid.
  destruct (import_edge b _ Hb (specialized_edge specialized edge)) as (b' & Eb & Hb' & En').
  - cbn. rewrite Ee. cbn. rewrite <- list_fmap_compose. eapply NoDup_next; [apply (dc_edges source Hco)|exact E].
  - cbn. by rewrite En.
  - cbn. by rewrite En.
  - cbn. lia.
  - rewrite Eb. cbn [mbind result_bind]. apply (IH (l1 ++ [edge])); [by rewrite <- app_assoc| |].
    + rewrite add_edges_app in Hb'. by rewrite fmap_app.
    + rewrite En'. cbn. lia.
Qed.

Lemma provided_in_range node operand : (node, operand) ∈ providers (d_edges source) (d_bindings source) ->
  exists found, found ∈ d_nodes source /\ node_id found = node /\
    0 <= operand < Z.of_nat (length (node_operandTypes found)).
Proof using Ht Hroom.
  intros Hin. pose proof (br_operands Hroom _ Hin) as H0. simpl in H0.
  assert (Hty : exists type, operand_type source node operand type).
  { apply elem_of_app in Hin as [Hin|Hin].
    - apply list_elem_of_omap in Hin as (edge & He & Hp). destruct (dt_edges source Ht _ He) as (s & d & _ & Hd & H).
      unfold edge_provider in Hp. destruct (edge_info edge) as [o bd|o bd|k]; simpl in Hp; simplify_eq.
      + exists (node_resultType s). exists d. by destruct H as (_ & H & _).
      + exists vt_predicate. exists d. by destruct H as (_ & H & _).
    - apply list_elem_of_fmap in Hin as (binding & E & Hb). unfold binding_key in E. simplify_eq.
      destruct (dt_bindings source Ht _ Hb) as (type & H & _). eauto. }
  destruct Hty as (type & found & Hf & Hl). apply find_if_Some in Hf as [Hf E]. exists found.
  apply lookup_lt_Some in Hl. split_and!; try done; lia.
Qed.

Lemma exactly_once_NoDup {A} `{EqDecision A} (l : list A) : (forall x, x ∈ l -> exactly_once x l) -> NoDup l.
Proof using Type.
  intros H. apply NoDup_alt. intros i j x Hi Hj. destruct (H x) as (l1 & l2 & -> & H1 & H2); [by eapply list_elem_of_lookup_2|].
  enough (forall k, (l1 ++ x :: l2) !! k = Some x -> k = length l1) as Hk by (by rewrite (Hk i), (Hk j)).
  intros k Hk. apply lookup_app_Some in Hk as [Hk|[Hle Hk]]; [exfalso; apply H1; by eapply list_elem_of_lookup_2|].
  destruct (k - length l1)%nat as [|n] eqn:E; [lia|]. exfalso. apply H2. by eapply list_elem_of_lookup_2.
Qed.

Lemma source_providers_NoDup : NoDup (providers (d_edges source) (d_bindings source)).
Proof using Ht Hroom.
  apply exactly_once_NoDup. intros [node operand] Hin. destruct (provided_in_range _ _ Hin) as (found & Hf & <- & Hr).
  by apply (dt_providers source Ht).
Qed.

Lemma import_bindings_builds c : ct_nodes c = d_nodes source -> ct_bindings c = [] ->
  ct_edges c = specialized_edge specialized <$> d_edges source ->
  ct_constants c = d_constants source ++ specialized_constants ->
  forall b, holds b c -> builds (import_bindings specialized (d_bindings source) b)
    (add_bindings c (specialized_binding specialized <$> d_bindings source)) (b_nextEdgeId b).
Proof using Hco Ht Hroom.
  intros En Eb Ee Ec.
  enough (H : forall l2 l1 b, d_bindings source = l1 ++ l2 -> holds b (add_bindings c (specialized_binding specialized <$> l1)) ->
    builds (import_bindings specialized l2 b) (add_bindings c (specialized_binding specialized <$> d_bindings source)) (b_nextEdgeId b)).
  { intros b Hb. apply (H (d_bindings source) []); [done|by rewrite add_bindings_nil]. }
  induction l2 as [|binding l2 IH]; intros l1 b E Hb.
  { exists b. rewrite app_nil_r in E. by rewrite E. }
  assert (Hin : binding ∈ d_bindings source) by (rewrite E; apply elem_of_app; right; left).
  pose proof (binding_known _ Hin) as Hk.
  assert (Hvalue : exists value, specialized_source specialized (ob_source binding) = ConstantRef value /\
    match ob_source binding with
    | ExternalValueRef external => of_option OutOfRange (specialized !! external)
    | ConstantRef value => Ok value
    end = Ok value /\ value ∈ const_id <$> ct_constants c).
  { rewrite Ec, fmap_app. destruct Hk as [s Hs]. unfold specialized_source. rewrite Hs. simpl.
    destruct (ob_source binding) as [x|k] eqn:Es; simpl in Hs.
    - destruct (specialized !! x) as [k|] eqn:Ek; [|done]. injection Hs as <-. exists k. split_and!; [done..|].
      apply elem_of_app. right. apply specialized_lookup in Ek as (i & v & Hv & _ & ->). unfold specialized_constants.
      rewrite fmap_imap. apply list_elem_of_lookup. exists i. rewrite list_lookup_imap, Hv. done.
    - injection Hs as <-. exists k. split_and!; [done..|]. apply elem_of_app. left.
      destruct (dt_bindings source Ht _ Hin) as (type & _ & H). rewrite Es in H. simpl in H.
      destruct (d_find_constant source k) as [c'|] eqn:Ef; [|done]. apply find_if_Some in Ef as [Hc' E'].
      apply list_elem_of_fmap. exists c'. split; [lia|done]. }
  destruct Hvalue as (value & Esv & Eval & Hvalue). cbn [import_bindings]. rewrite Eval. cbn [mbind result_bind].
  assert (Hkey : binding_key binding ∈ providers (d_edges source) (d_bindings source)).
  { apply elem_of_app. right. by apply list_elem_of_fmap_2. }
  destruct (provided_in_range _ _ Hkey) as (found & Hf & Ef & Hr). rewrite <- Ef.
  destruct (bind_constant b _ Hb found (ob_operand binding) value) as (b' & Eb' & Hb' & En').
  - cbn. by rewrite En.
  - lia.
  - unfold add_bindings. cbn [ct_edges ct_bindings]. rewrite Ee, Eb, app_nil_l, specialized_providers, Ef.
    pose proof source_providers_NoDup as Hnd. rewrite E in Hnd. unfold providers in *.
    rewrite fmap_app, fmap_cons, app_assoc in Hnd. apply NoDup_app in Hnd as (_ & Hdis & _).
    intros Hx. apply (Hdis _ Hx). left.
  - cbn. done.
  - rewrite Eb'. cbn [mbind result_bind]. rewrite <- En'. apply (IH (l1 ++ [binding])); [by rewrite <- app_assoc|].
    rewrite add_bindings_app in Hb'. rewrite fmap_app. rewrite Ef in Hb'. cbn. unfold specialized_binding at 2. by rewrite Esv.
Qed.

(** *** Live-outs *)

Definition first_address_constant : Z := constant_start + Z.of_nat (length X).
Definition out_store (i : nat) (o : LiveOut) : Node :=
  mkNode (node_start + Z.of_nat i) OpStore voidTy [vt_i32; lo_type o] None
    (Some (mkMemoryOpInfo (mem_widthBits (tm_memory target)) false)) (Some (store_label (lo_id o))).
Definition out_address (i : nat) (o : LiveOut) : ConstantValue :=
  mkConstantValue (first_address_constant + Z.of_nat i) vt_i32 (base + Z.of_nat i).
Definition out_use (i : nat) (o : LiveOut) : OperandBinding :=
  mkOperandBinding (node_start + Z.of_nat i) 0 (ConstantRef (first_address_constant + Z.of_nat i)).
Definition out_edges (next : Z) (i : nat) (o : LiveOut) : list Edge :=
  [mkEdge (next + 2 * Z.of_nat i) (lo_source o) (node_start + Z.of_nat i) 0 (DataEdgeInfo 1 None);
   mkEdge (next + 2 * Z.of_nat i + 1) (node_start + Z.of_nat i) (node_start + Z.of_nat i) 1 (MemoryEdgeInfo WAW)].
Definition out_binding (i : nat) (o : LiveOut) : KernelOutputBinding :=
  mkOutputBinding (lo_id o) (base + Z.of_nat i) (node_start + Z.of_nat i) (first_address_constant + Z.of_nat i).

Definition with_outputs (c : Contents) (next : Z) (l : list LiveOut) : Contents :=
  mkContents (ct_name c) (ct_nodes c ++ imap out_store l) (ct_edges c ++ concat (imap (out_edges next) l))
    (ct_externals c) (ct_constants c ++ imap out_address l) (ct_liveOuts c) (ct_bindings c ++ imap out_use l).

Lemma imap_snoc {A B} (f : nat -> A -> B) l x : imap f (l ++ [x]) = imap f l ++ [f (length l) x].
Proof using Type. rewrite imap_app. simpl. by rewrite Nat.add_0_r. Qed.

Lemma elem_of_imap {A B} (f : nat -> A -> B) (l : list A) y :
  y ∈ imap f l <-> exists i x, l !! i = Some x /\ y = f i x.
Proof using Type.
  rewrite list_elem_of_lookup. setoid_rewrite list_lookup_imap_Some. naive_solver.
Qed.

Lemma elem_of_out_edges next l edge : edge ∈ concat (imap (out_edges next) l) <->
  exists i o, l !! i = Some o /\ edge ∈ out_edges next i o.
Proof using Type.
  rewrite list_elem_of_In, in_concat. setoid_rewrite <- list_elem_of_In. setoid_rewrite elem_of_imap. naive_solver.
Qed.

(** The graph before the stores. *)
Record before_outputs (c : Contents) : Prop := {
  bo_nodes : ct_nodes c = d_nodes source;
  bo_edges : ct_edges c = specialized_edge specialized <$> d_edges source;
  bo_constants : ct_constants c = d_constants source ++ specialized_constants;
  bo_bindings : ct_bindings c = specialized_binding specialized <$> d_bindings source
}.

Lemma outputs_providers c next l key : before_outputs c ->
  key ∈ providers (ct_edges (with_outputs c next l)) (ct_bindings (with_outputs c next l)) ->
  key.1 < node_start + Z.of_nat (length l).
Proof using Ht Hroom.
  intros [_ He _ Hb] Hin. destruct nextNodeId_ok as (_ & _ & Hlt). unfold providers in Hin. cbn [with_outputs ct_edges ct_bindings] in Hin.
  rewrite He, Hb, omap_app, fmap_app, !elem_of_app in Hin.
  assert (Hold : key ∈ providers (d_edges source) (d_bindings source) -> key.1 < node_start + Z.of_nat (length l)).
  { destruct key as [n o]. intros (found & Hf & <- & _)%provided_in_range. specialize (Hlt _ Hf). simpl. lia. }
  rewrite <- (specialized_providers specialized) in Hold. unfold providers in Hold. rewrite elem_of_app in Hold.
  destruct Hin as [[Hin|Hin]|[Hin|Hin]]; auto.
  - apply list_elem_of_omap in Hin as (edge & (i & o & Hi & Hedge)%elem_of_out_edges & Hp). apply lookup_lt_Some in Hi.
    unfold out_edges in Hedge. set_unfold in Hedge. destruct Hedge as [->|[->|[]]]; simpl in Hp; [|done].
    injection Hp as <-. simpl. lia.
  - apply list_elem_of_fmap in Hin as (b & -> & (i & o & Hi & ->)%elem_of_imap). apply lookup_lt_Some in Hi. simpl. lia.
Qed.

Context (Hdepth : is_u32 depth) (Hfits : count <= depth).

(** The live-outs in the order of the binder. *)
Definition sorted_liveOuts : list LiveOut := sort_by lo_id (d_liveOuts source).

Lemma sorted_length : length sorted_liveOuts = length (d_liveOuts source).
Proof using Type. apply sort_by_length. Qed.

Lemma liveOut_source o : o ∈ d_liveOuts source -> lo_source o ∈ node_id <$> d_nodes source.
Proof using Ht.
  intros Ho. destruct (dt_liveOuts source Ht _ Ho) as (_ & node & Hf & _). apply find_if_Some in Hf as [Hn E].
  apply list_elem_of_fmap. exists node. split; [lia|done].
Qed.

Lemma bind_output_builds c next l1 o l2 : before_outputs c -> sorted_liveOuts = l1 ++ o :: l2 -> 0 <= next <= u32_max - 2 * count ->
  forall b, holds b (with_outputs c next l1) -> b_nextEdgeId b = next + 2 * Z.of_nat (length l1) ->
  builds (bind_output target b o (base + Z.of_nat (length l1)) (first_address_constant + Z.of_nat (length l1))
            (node_start + Z.of_nat (length l1)))
    (with_outputs c next (l1 ++ [o])) (next + 2 * Z.of_nat (length (l1 ++ [o]))).
Proof using Ht Hco Hroom.
  intros Hbo E Hnext b Hb En. pose proof Hbo as [Enodes Eedges Econst Ebind].
  assert (Hlen : (length l1 < length (d_liveOuts source))%nat) by (rewrite <- sorted_length, E, length_app; simpl; lia).
  assert (Ho : lo_source o ∈ node_id <$> d_nodes source).
  { apply liveOut_source. rewrite <- (elem_of_sort_by lo_id). fold sorted_liveOuts. rewrite E. apply elem_of_app. right. left. }
  destruct nextId_ok as (_ & Hcs & Hclt). destruct nextNodeId_ok as (_ & Hns & Hnlt).
  pose proof (fun key => outputs_providers c next l1 key Hbo) as Hprov.
  set (k := length l1) in *. set (c1 := with_outputs c next l1) in *.
  unfold bind_output. eapply builds_bind.
  { apply (import_constant b c1 Hb). unfold c1. cbn [with_outputs ct_constants const_id]. rewrite Econst, !fmap_app, !not_elem_of_app.
    unfold first_address_constant. split_and!.
    - intros (v & Ev & Hv)%list_elem_of_fmap. specialize (Hclt _ Hv). lia.
    - intros (v & Ev & (i & x & Hi & ->)%elem_of_imap)%list_elem_of_fmap. apply lookup_lt_Some in Hi. simpl in Ev. lia.
    - intros (v & Ev & (i & x & Hi & ->)%elem_of_imap)%list_elem_of_fmap. apply lookup_lt_Some in Hi. simpl in Ev.
      unfold first_address_constant in Ev. lia. }
  intros b1 Hb1 E1. eapply builds_bind.
  { apply (import_node b1 _ Hb1 (out_store k o)). unfold c1. cbn [add_constants with_outputs ct_nodes node_id out_store].
    rewrite Enodes, fmap_app, not_elem_of_app. split.
    - intros (v & Ev & Hv)%list_elem_of_fmap. specialize (Hnlt _ Hv). lia.
    - intros (v & Ev & (i & x & Hi & ->)%elem_of_imap)%list_elem_of_fmap. apply lookup_lt_Some in Hi. simpl in Ev. lia. }
  intros b2 Hb2 E2. eapply builds_bind.
  { apply (bind_constant b2 _ Hb2 (out_store k o) 0).
    - unfold c1. cbn [add_nodes ct_nodes]. apply elem_of_app. right. left.
    - simpl. lia.
    - intros H%Hprov. simpl in H. lia.
    - unfold c1. cbn [add_nodes add_constants ct_constants]. rewrite fmap_app. apply elem_of_app. right. left. }
  intros b3 Hb3 E3. eapply builds_bind.
  { apply (add_data_edge b3 _ Hb3 (lo_source o) (out_store k o) 1 0 None).
    - unfold c1. cbn [add_bindings add_nodes add_constants with_outputs ct_nodes]. rewrite Enodes, !fmap_app, !elem_of_app. auto.
    - unfold c1. cbn [add_bindings add_nodes ct_nodes]. apply elem_of_app. right. left.
    - simpl. lia.
    - unfold providers. cbn [add_bindings ct_edges ct_bindings]. rewrite fmap_app, app_assoc. intros [H|H]%elem_of_app.
      + apply Hprov in H. simpl in H. lia.
      + apply list_elem_of_singleton in H. discriminate.
    - rewrite E3, E2, E1, En. lia. }
  intros b4 Hb4 E4.
  assert (En3 : b_nextEdgeId b3 = next + 2 * Z.of_nat k) by lia. assert (En4 : b_nextEdgeId b4 = next + 2 * Z.of_nat k + 1) by lia.
  rewrite length_app. simpl length. fold k. replace (next + 2 * Z.of_nat (k + 1)) with (b_nextEdgeId b4 + 1) by lia.
  assert (Ec : with_outputs c next (l1 ++ [o]) = add_edges (add_edges (add_bindings (add_nodes (add_constants c1 [out_address k o])
    [out_store k o]) [out_use k o]) [mkEdge (b_nextEdgeId b3) (lo_source o) (node_start + Z.of_nat k) 0 (DataEdgeInfo 1 None)])
    [mkEdge (b_nextEdgeId b4) (node_start + Z.of_nat k) (node_start + Z.of_nat k) 1 (MemoryEdgeInfo WAW)]).
  { rewrite En3, En4. unfold with_outputs, c1, add_edges, add_bindings, add_nodes, add_constants. cbn.
    rewrite !imap_snoc, concat_app, <- !app_assoc. cbn. done. }
  rewrite Ec. apply (add_memory_edge b4 _ Hb4).
  - unfold c1. cbn [add_edges add_bindings add_nodes ct_nodes]. rewrite fmap_app. apply elem_of_app. right. left.
  - unfold c1. cbn [add_edges add_bindings add_nodes ct_nodes]. rewrite fmap_app. apply elem_of_app. right. left.
  - lia.
Qed.

(** The outputs the binder supports. *)
Definition supported_output (o : LiveOut) : Prop := lo_type o = vt_integer (mem_widthBits (tm_memory target)).

#[export] Instance supported_dec o : Decision (supported_output o).
Proof. unfold supported_output. apply _. Defined.

Lemma unsupported_test o :
  bool_decide (vt_kind (lo_type o) <> KInteger) || negb (vt_bitWidth (lo_type o) =? mem_widthBits (tm_memory target)) =
  negb (bool_decide (supported_output o)).
Proof using Type.
  apply eq_true_iff_eq. rewrite orb_true_iff, !negb_true_iff, bool_decide_eq_true, bool_decide_eq_false, Z.eqb_neq.
  unfold supported_output, vt_integer. destruct (lo_type o) as [k w]. simpl. split.
  - intros [H|H] [=]; congruence.
  - intros H. destruct (decide (k = KInteger)) as [->|]; [right|by left]. intros ->. by apply H.
Qed.

Lemma bind_outputs_builds c next : before_outputs c -> 0 <= next <= u32_max - 2 * count ->
  forall l2 l1 b, sorted_liveOuts = l1 ++ l2 -> holds b (with_outputs c next l1) ->
  b_nextEdgeId b = next + 2 * Z.of_nat (length l1) ->
  if bool_decide (Forall supported_output l2)
  then exists b', bind_outputs target base (node_start + Z.of_nat (length l1))
         (first_address_constant + Z.of_nat (length l1)) l2 (imap out_binding l1) b =
         Ok (Some (imap out_binding sorted_liveOuts, b')) /\ holds b' (with_outputs c next sorted_liveOuts)
  else bind_outputs target base (node_start + Z.of_nat (length l1))
         (first_address_constant + Z.of_nat (length l1)) l2 (imap out_binding l1) b = Ok None.
Proof using Ht Hco Hroom Hdepth Hfits.
  intros Hbo Hnext. induction l2 as [|o l2 IH]; intros l1 b E Hb En.
  { rewrite bool_decide_eq_true_2 by constructor. exists b. rewrite app_nil_r in E. by rewrite E. }
  assert (Hlen : (length l1 < length (d_liveOuts source))%nat) by (rewrite <- sorted_length, E, length_app; simpl; lia).
  destruct nextId_ok as (_ & Hcs & _). destruct nextNodeId_ok as (_ & Hns & _).
  cbn [bind_outputs]. rewrite unsupported_test, length_imap. destruct (decide (supported_output o)) as [Ho|Ho].
  2: { rewrite (bool_decide_eq_false_2 (supported_output o)) by done.
       rewrite bool_decide_eq_false_2; [done|]. by intros [? _]%Forall_cons. }
  rewrite (bool_decide_eq_true_2 (supported_output o)) by done. cbn [negb]. cbv zeta.
  rewrite (bool_decide_ext _ (Forall supported_output l2)) by (rewrite Forall_cons; tauto).
  rewrite !wrap32_id by (unfold first_address_constant; unfold_words; lia).
  destruct (bind_output_builds c next l1 o l2 Hbo E Hnext b Hb En) as (b' & -> & Hb' & En'). cbn [mbind result_bind].
  specialize (IH (l1 ++ [o]) b' ltac:(by rewrite <- app_assoc) Hb' En').
  rewrite imap_snoc, length_app in IH. simpl length in IH.
  replace (node_start + Z.of_nat (length l1) + 1) with (node_start + Z.of_nat (length l1 + 1)) by lia.
  replace (first_address_constant + Z.of_nat (length l1) + 1) with (first_address_constant + Z.of_nat (length l1 + 1)) by lia.
  exact IH.
Qed.

(** *** The bound graph *)

Definition bound_contents (next : Z) : Contents :=
  with_outputs (mkContents (d_name source) (d_nodes source) (specialized_edge specialized <$> d_edges source) X
    (d_constants source ++ specialized_constants) (d_liveOuts source)
    (specialized_binding specialized <$> d_bindings source)) next sorted_liveOuts.

Definition bound_layout : KernelABILayout :=
  mkLayout depth base base ((fun item => mkInputBinding item.1 item.2) <$> map_items specialized)
    (imap out_binding sorted_liveOuts).

(** The kernel the binder makes: the graph holds the specialized source and the stores. *)
Definition binds (signature : KernelSignature) (bound : ABIBoundKernel) : Prop :=
  exists b next, bound = mkBoundKernel (b_dfg b) signature invocation bound_layout /\
    holds b (bound_contents next) /\ 0 <= next <= u32_max - 2 * count /\
    forall edge, edge ∈ d_edges source -> edge_id edge < next.

Lemma bind_graph_builds signature :
  ks_scalarInputs signature = ks_scalarInputs (inferSignature source) ->
  (forall x, x ∈ X -> ext_id x ∈ ksv_id <$> ki_scalarInputs invocation) ->
  if bool_decide (Forall supported_output sorted_liveOuts)
  then exists bound, bind_graph source target invocation signature base = Ok (Some bound) /\ binds signature bound
  else bind_graph source target invocation signature base = Ok None.
Proof using Ht Hco Hroom Hdepth Hfits.
  intros Hsig Hall. unfold bind_graph. rewrite Hsig.
  destruct (import_source_builds source Hco Ht) as (b & -> & Hb & En). cbn [mbind result_bind].
  destruct nextId_ok as (-> & Hcs & _). cbn [mbind result_bind].
  match type of Hb with holds _ ?c0 => destruct (specialize_inputs_builds c0 0 Hall eq_refl b Hb En) as (b1 & -> & Hb1 & En1) end.
  cbn [mbind result_bind].
  match type of Hb1 with holds _ ?c0 =>
    destruct (import_edges_builds c0 eq_refl eq_refl b1 Hb1 En1) as (next & (b2 & -> & Hb2 & En2) & Hnext) end.
  cbn [mbind result_bind].
  match type of Hb2 with holds _ ?c0 =>
    destruct (import_bindings_builds c0 eq_refl eq_refl eq_refl eq_refl b2 Hb2) as (b3 & -> & Hb3 & En3) end.
  cbn [mbind result_bind].
  destruct nextNodeId_ok as (-> & Hns & _). cbn [mbind result_bind]. cbv zeta. fold sorted_liveOuts.
  rewrite specialized_size, wrap32_id by (unfold_words; lia).
  match type of Hb3 with holds _ ?c0 => pose proof (bind_outputs_builds c0 next ltac:(split; reflexivity) Hnext
    sorted_liveOuts [] b3 eq_refl) as H; assert (Hw : with_outputs c0 next [] = c0) end.
  { unfold with_outputs. cbn. by rewrite !app_nil_r. }
  rewrite Hw in H. simpl length in H. rewrite !Z.add_0_r in H. specialize (H Hb3 ltac:(lia)). simpl imap in H.
  unfold first_address_constant in H. case_bool_decide as Hs; [|by rewrite H].
  destruct H as (b' & -> & Hb'). cbn [mbind result_bind]. eexists. split; [done|].
  exists b', next. split_and!; [done|exact Hb'|lia|lia|].
  intros edge He. rewrite <- En2. apply (proj2 (ho_next _ _ Hb2) (specialized_edge specialized edge)). cbn.
  by apply (list_elem_of_fmap_2 (specialized_edge specialized)).
Qed.

(** ** The bound graph is typed *)

Section Graph.
Context (b : DFGBuilder) (next : Z).
Context (Hb : holds b (bound_contents next)).
Context (Hsupported : Forall supported_output sorted_liveOuts).
Context (Hwidth : 0 < mem_widthBits (tm_memory target)) (Hbytes : mem_widthBits (tm_memory target) mod 8 = 0).

Abbreviation g := (b_dfg b).

Lemma bound_coherent : DFG_coherent g.
Proof using Hb. apply DFG_inv_coherent, Hb. Qed.

Lemma bound_nodes : d_nodes g = d_nodes source ++ imap out_store sorted_liveOuts.
Proof using Hb. apply (ho_nodes _ _ Hb). Qed.
Lemma bound_edges : d_edges g = (specialized_edge specialized <$> d_edges source) ++ concat (imap (out_edges next) sorted_liveOuts).
Proof using Hb. apply (ho_edges _ _ Hb). Qed.
Lemma bound_constants : d_constants g = (d_constants source ++ specialized_constants) ++ imap out_address sorted_liveOuts.
Proof using Hb. apply (ho_constants _ _ Hb). Qed.
Lemma bound_bindings : d_bindings g ≡ₚ (specialized_binding specialized <$> d_bindings source) ++ imap out_use sorted_liveOuts.
Proof using Hb. apply (ho_bindings _ _ Hb). Qed.

Lemma find_bound_node node : node ∈ d_nodes g -> d_find_node g (node_id node) = Some node.
Proof using Hb. intros Hn. apply find_if_unique; [apply bound_coherent|done|done]. Qed.

Lemma find_source_node id node : d_find_node source id = Some node -> d_find_node g id = Some node.
Proof using Hb.
  intros H. apply find_if_Some in H as [Hn E]. replace id with (node_id node) by lia.
  apply find_bound_node. rewrite bound_nodes. apply elem_of_app. by left.
Qed.

Lemma find_bound_constant c : c ∈ d_constants g -> d_find_constant g (const_id c) = Some c.
Proof using Hb. intros Hc. apply find_if_unique; [apply bound_coherent|done|done]. Qed.

Lemma specialized_type s type : source_type source s = Some type ->
  source_type g (specialized_source specialized s) = Some type.
Proof using Hb Hco.
  intros H. pose proof (source_known s type H) as [s' Hs]. unfold specialized_source. rewrite Hs. simpl.
  destruct s as [x|k]; simpl in *.
  - destruct (specialized !! x) as [k|] eqn:Ek; [|done]. injection Hs as <-. simpl.
    apply specialized_lookup in Ek as (i & v & Hv & Ex & ->).
    destruct (d_find_external source x) as [v'|] eqn:Ef; [|done]. injection H as <-.
    apply find_if_Some in Ef as [Hv' Ex'].
    assert (v' = v) as ->.
    { apply (NoDup_key_eq ext_id X); [apply Hco|done|by eapply list_elem_of_lookup_2|lia]. }
    change (constant_start + Z.of_nat i) with (const_id (specialized_constant i v)). rewrite find_bound_constant; [done|].
    rewrite bound_constants. apply elem_of_app. left. apply elem_of_app. right. apply elem_of_imap. eauto.
  - injection Hs as <-. simpl. destruct (d_find_constant source k) as [c|] eqn:Ef; [|done].
    apply find_if_Some in Ef as [Hc E]. replace k with (const_id c) by lia. rewrite find_bound_constant; [done|].
    rewrite bound_constants. apply elem_of_app. left. apply elem_of_app. by left.
Qed.

Lemma specialized_boundary_typed distance boundary type : boundary_typed source distance boundary type ->
  boundary_typed g distance (specialized_values specialized <$> boundary) type.
Proof using Hb Hco.
  destruct boundary as [values|]; simpl; [|done]. intros (Hd & Hl & Hnd & Hv). unfold specialized_values.
  rewrite length_fmap. split_and!; [done|done| |].
  - rewrite <- list_fmap_compose. exact Hnd.
  - intros v' (v & -> & Hin)%list_elem_of_fmap. destruct (Hv _ Hin) as [Hlt Hs]. split; [done|]. by apply specialized_type.
Qed.

Lemma specialized_edge_typed edge : edge ∈ d_edges source -> edge_typed g (specialized_edge specialized edge).
Proof using Hb Hco Ht.
  intros He. destruct (dt_edges source Ht _ He) as (s & d & Hs & Hd & H). exists s, d.
  split_and!; [by apply find_source_node|by apply find_source_node|]. cbn.
  destruct (edge_info edge) as [o bd|o bd|k]; simpl in *; [| |done];
    (destruct H as (H1 & H2 & H3); split_and!; [done|done|by apply specialized_boundary_typed]).
Qed.

Lemma liveOut_node o : o ∈ d_liveOuts source -> exists node, d_find_node source (lo_source o) = Some node /\
  node_resultType node = lo_type o.
Proof using Ht. intros Ho. by destruct (dt_liveOuts source Ht _ Ho) as (_ & H). Qed.

Lemma supported_lookup i o : sorted_liveOuts !! i = Some o -> supported_output o /\ o ∈ d_liveOuts source.
Proof using Hsupported.
  intros Hi. apply list_elem_of_lookup_2 in Hi. split; [by apply (proj1 (Forall_forall _ _) Hsupported)|].
  by rewrite <- (elem_of_sort_by lo_id).
Qed.

Lemma out_store_in i o : sorted_liveOuts !! i = Some o -> out_store i o ∈ d_nodes g.
Proof using Hb. intros Hi. rewrite bound_nodes. apply elem_of_app. right. apply elem_of_imap. eauto. Qed.

Lemma out_edge_typed edge i o : sorted_liveOuts !! i = Some o -> edge ∈ out_edges next i o -> edge_typed g edge.
Proof using Hb Ht Hsupported Hwidth.
  intros Hi He. destruct (supported_lookup _ _ Hi) as [Hs Ho]. destruct (liveOut_node o Ho) as (node & Hf & Er).
  pose proof (find_bound_node _ (out_store_in _ _ Hi)) as Hst. unfold supported_output in Hs.
  unfold out_edges in He. set_unfold in He. destruct He as [->|[->|[]]].
  - exists node, (out_store i o). split_and!; [by apply find_source_node|done|]. simpl. rewrite Er, Hs. split_and!; [|done|done].
    exists (mem_widthBits (tm_memory target)). split; [lia|by left].
  - exists (out_store i o), (out_store i o). done.
Qed.

Lemma out_store_typed i o : sorted_liveOuts !! i = Some o -> node_typed (out_store i o).
Proof using Hsupported Hwidth Hbytes.
  intros Hi. destruct (supported_lookup _ _ Hi) as [Hs Ho]. unfold supported_output in Hs.
  assert (Hw : mem_widthBits (tm_memory target) <> 0) by lia.
  split; simpl.
  - rewrite Hs. apply typed_store; [by exists 32|]. split; [by apply valid_integer|done].
  - split; simpl; [by split|]. split_and!; [by right|done|]. by apply Z.mod_divide.
Qed.

(** *** Providers *)

Definition out_operands : list (Z * Z) :=
  imap (fun i _ => (node_start + Z.of_nat i, 1)) sorted_liveOuts ++
  imap (fun i _ => (node_start + Z.of_nat i, 0)) sorted_liveOuts.

Lemma out_edges_providers l : omap edge_provider (concat (imap (out_edges next) l)) =
  imap (fun i (_ : LiveOut) => (node_start + Z.of_nat i, 1)) l.
Proof using Type.
  induction l as [|o l IH] using rev_ind; [done|]. rewrite !imap_snoc, concat_app, omap_app, IH. done.
Qed.

Lemma bound_providers : providers (d_edges g) (d_bindings g) ≡ₚ
  providers (d_edges source) (d_bindings source) ++ out_operands.
Proof using Hb.
  rewrite <- (specialized_providers specialized (d_edges source)). unfold providers, out_operands.
  rewrite bound_edges, bound_bindings, omap_app, fmap_app, out_edges_providers, fmap_imap.
  rewrite <- !app_assoc. f_equiv. rewrite !app_assoc. apply Permutation_app; [apply Permutation_app_comm|].
  done.
Qed.

Lemma NoDup_imap_key {A} (f : nat -> Z * Z) (l : list A) : (forall i j, f i = f j -> i = j) ->
  NoDup (imap (fun i _ => f i) l).
Proof using Type.
  intros Hf. apply NoDup_alt. intros i j x Hi Hj. apply list_lookup_imap_Some in Hi as (? & _ & E1), Hj as (? & _ & E2).
  apply Hf. congruence.
Qed.

Lemma bound_providers_NoDup : NoDup (providers (d_edges g) (d_bindings g)).
Proof using Hb Ht Hroom.
  rewrite bound_providers. unfold out_operands. apply NoDup_app. split; [apply source_providers_NoDup|]. split.
  - intros [n o] (found & Hf & <- & _)%provided_in_range Hin. destruct nextNodeId_ok as (_ & _ & Hlt).
    specialize (Hlt _ Hf). apply elem_of_app in Hin as [Hin|Hin]; apply elem_of_imap in Hin as (i & ? & _ & [= E _]); lia.
  - apply NoDup_app. split; [apply NoDup_imap_key; intros i j [= E]; lia|]. split; [|apply NoDup_imap_key; intros i j [= E]; lia].
    intros x Hx Hy. apply elem_of_imap in Hx as (i & ? & _ & ->), Hy as (j & ? & _ & E). discriminate.
Qed.

Lemma NoDup_exactly_once {A} (l : list A) x : NoDup l -> x ∈ l -> exactly_once x l.
Proof using Type.
  intros Hnd (l1 & l2 & ->)%list_elem_of_split. exists l1, l2. apply NoDup_app in Hnd as (_ & Hd & [Hx _]%NoDup_cons).
  split_and!; [done| |done]. intros H. apply (Hd _ H). left.
Qed.

(** The bound graph obeys the typing rules. *)
Lemma bound_typed : DFG_typed g.
Proof using Hb Ht Hco Hroom Hsupported Hwidth Hbytes.
  assert (Hstores : forall node, node ∈ imap out_store sorted_liveOuts -> exists i o, sorted_liveOuts !! i = Some o /\ node = out_store i o)
    by (intros node; by rewrite elem_of_imap).
  split.
  - rewrite (ho_externals _ _ Hb). apply Ht.
  - intros c. rewrite bound_constants, !elem_of_app. intros [[Hc|Hc]|Hc].
    + by apply Ht.
    + apply elem_of_imap in Hc as (i & x & Hx & ->). simpl. apply (dt_externals source Ht). by eapply list_elem_of_lookup_2.
    + apply elem_of_imap in Hc as (i & x & Hx & ->). by apply valid_integer.
  - intros node. rewrite bound_nodes, elem_of_app. intros [Hn|(i & o & Hi & ->)%Hstores]; [by apply Ht|by apply out_store_typed].
  - intros binding. rewrite bound_bindings, elem_of_app. intros [(b' & -> & Hb')%list_elem_of_fmap|(i & o & Hi & ->)%elem_of_imap].
    + destruct (dt_bindings source Ht _ Hb') as (type & (found & Hf & Ho) & Hs). exists type.
      split; [exists found; split; [by apply find_source_node|done]|by apply specialized_type].
    + exists vt_i32. split.
      * exists (out_store i o). split; [by apply (find_bound_node (out_store i o)), out_store_in|done].
      * simpl. change (first_address_constant + Z.of_nat i) with (const_id (out_address i o)). rewrite find_bound_constant; [done|].
        rewrite bound_constants. apply elem_of_app. right. apply elem_of_imap. eauto.
  - intros edge. rewrite bound_edges, elem_of_app. intros [(e & -> & He)%list_elem_of_fmap|(i & o & Hi & He)%elem_of_out_edges].
    + by apply specialized_edge_typed.
    + by eapply out_edge_typed.
  - rewrite (ho_liveOuts _ _ Hb). intros o Ho. destruct (dt_liveOuts source Ht _ Ho) as (Hv & node & Hf & E).
    split; [done|]. exists node. split; [by apply find_source_node|done].
  - intros node operand Hn Hr. apply NoDup_exactly_once; [apply bound_providers_NoDup|]. rewrite bound_providers, elem_of_app.
    rewrite bound_nodes in Hn. apply elem_of_app in Hn as [Hn|(i & o & Hi & ->)%Hstores].
    + left. destruct (dt_providers source Ht _ _ Hn Hr) as (l1 & l2 & E & _). rewrite E. apply elem_of_app. right. left.
    + right. unfold out_operands. simpl in *. rewrite elem_of_app, !elem_of_imap.
      destruct (decide (operand = 1)) as [->|]; [left|right]; exists i, o; (split; [done|f_equal; lia]).
Qed.


(** ** The bound kernel obeys the rules *)

Lemma prefix_append (p s : string) : String.prefix p (p ++ s) = true.
Proof using Type. induction p as [|a p IH]; simpl; [by destruct s|]. by destruct (Ascii.ascii_dec a a). Qed.

Lemma store_is_marked i o : isABIOutputStore (out_store i o) = true.
Proof using Type. apply prefix_append. Qed.

Lemma invocation_valid_name name signature d w :
  invocation_valid (with_kernelName name signature) invocation d w <-> invocation_valid signature invocation d w.
Proof using Type. split; intros []; by split. Qed.

Abbreviation kernel name := (mkBoundKernel g (with_kernelName name (inferSignature source)) invocation bound_layout).

Lemma layout_inputs_specialized : layout_inputs (kl_inputs bound_layout) = specialized.
Proof using Hco.
  assert (Hids : kib_input <$> kl_inputs bound_layout = (map_items specialized).*1).
  { simpl. by rewrite <- list_fmap_compose. }
  apply map_eq. intros x. apply option_eq. intros k. rewrite layout_inputs_lookup.
  2: { rewrite Hids. apply NoDup_map_items. }
  simpl. rewrite list_elem_of_fmap. split.
  - intros ([y c] & [= -> ->] & Hin). by apply elem_of_map_items in Hin.
  - intros H. exists (x, k). split; [done|]. by apply elem_of_map_items.
Qed.

Lemma layout_inputs_perm : kib_input <$> kl_inputs bound_layout ≡ₚ ext_id <$> X.
Proof using Hco.
  simpl. rewrite <- list_fmap_compose. apply NoDup_Permutation.
  - exact (NoDup_map_items specialized).
  - apply Hco.
  - intros x. rewrite <- specialized_is_Some, list_elem_of_fmap. split.
    + intros ([y k] & -> & Hin). apply elem_of_map_items in Hin. by eexists.
    + intros [k Hk]. exists (x, k). split; [done|]. by apply elem_of_map_items.
Qed.

Lemma layout_outputs : kob_output <$> kl_outputs bound_layout = lo_id <$> sorted_liveOuts.
Proof using Type.
  simpl. rewrite fmap_imap. apply list_eq. intros i. rewrite list_lookup_imap, list_lookup_fmap. by destruct (_ !! i).
Qed.

Lemma layout_addresses : kob_scratchpadAddress <$> kl_outputs bound_layout = seqZ base count.
Proof using Type.
  simpl. rewrite fmap_imap. apply list_eq. intros i. rewrite list_lookup_imap.
  destruct (decide (i < length (d_liveOuts source))%nat) as [Hi|Hi].
  - rewrite (lookup_seqZ_lt base count) by lia. rewrite <- sorted_length in Hi. apply lookup_lt_is_Some in Hi as [o Ho].
    by rewrite Ho.
  - rewrite (lookup_seqZ_ge base count) by lia. rewrite (lookup_ge_None_2 sorted_liveOuts); [done|]. rewrite sorted_length. lia.
Qed.

Lemma layout_stored output binding : output ∈ d_liveOuts source -> binding ∈ kl_outputs bound_layout ->
  kob_output binding = lo_id output -> stored g output binding.
Proof using Hb Hco.
  intros Ho (i & o & Hi & ->)%elem_of_imap E. simpl in E.
  assert (o = output) as ->.
  { apply (NoDup_key_eq lo_id (d_liveOuts source)); [apply Hco| |done|done].
    rewrite <- (elem_of_sort_by lo_id). by eapply list_elem_of_lookup_2. }
  assert (He : forall edge, edge ∈ out_edges next i output -> edge ∈ d_edges g).
  { intros edge He. rewrite bound_edges. apply elem_of_app. right. apply elem_of_out_edges. eauto. }
  split; simpl.
  - exists (out_store i output). split_and!; [by apply out_store_in|done..].
  - exists (out_address i output). split_and!; try done. rewrite bound_constants. apply elem_of_app. right.
    apply elem_of_imap. eauto.
  - rewrite bound_bindings. apply elem_of_app. right. apply elem_of_imap. exists i, output. done.
  - eexists; exists None. split; [apply He; left|]. done.
  - eexists. split; [apply He; right; left|]. done.
Qed.

Lemma layout_specialized : (forall x, x ∈ X -> ext_id x ∈ ksv_id <$> ki_scalarInputs invocation) ->
  forall input, input ∈ kl_inputs bound_layout -> specialized_input source invocation (kernel "") input.
Proof using Hb Hco.
  intros Hall input ([x k] & -> & Hin)%list_elem_of_fmap. apply elem_of_map_items in Hin.
  apply specialized_lookup in Hin as (i & v & Hv & <- & ->). pose proof (list_elem_of_lookup_2 _ _ _ Hv) as HvX.
  unfold specialized_input. simpl.
  assert (Hfind : exists value, find_if (fun value => ksv_id value =? ext_id v) (ki_scalarInputs invocation) = Some value).
  { apply find_if_is_Some. apply Hall, list_elem_of_fmap in HvX as (value & E & Hin). exists value. split; [done|lia]. }
  destruct Hfind as [value Hf]. pose proof (find_if_Some _ _ _ Hf) as [Hin E].
  exists v, (specialized_constant i v), value. split_and!; try done; [|lia|unfold specialized_constant, input_bits; simpl; by rewrite Hf].
  rewrite bound_constants. apply elem_of_app. left. apply elem_of_app. right. apply elem_of_imap. eauto.
Qed.

Lemma marked_stores_iff name :
  marked_stores (kernel name) <-> forall node, node ∈ d_nodes source -> isABIOutputStore node = false.
Proof using Hb.
  unfold marked_stores. simpl. rewrite bound_nodes, filter_app, (list_filter_all _ (imap out_store sorted_liveOuts)).
  2: { intros node (i & o & _ & ->)%elem_of_imap. apply store_is_marked. }
  rewrite fmap_app. assert (Hids : node_id <$> imap out_store sorted_liveOuts = kob_abiStoreNode <$> imap out_binding sorted_liveOuts).
  { rewrite !fmap_imap. done. }
  rewrite Hids. split.
  - intros Hp%Permutation_length. rewrite length_app in Hp.
    assert (Hnil : filter (fun node => isABIOutputStore node = true) (d_nodes source) = []).
    { apply nil_length_inv. rewrite <- (length_fmap node_id). lia. }
    intros node Hn. apply not_true_is_false. by apply (proj1 (list_nil_filter_iff _ _) Hnil).
  - intros H. rewrite (proj2 (list_nil_filter_iff _ _)); [done|]. intros node Hn. by rewrite (H _ Hn).
Qed.


(** *** Accesses with a known address *)

(** The bits of a value outside the loop, under the invocation. *)
Definition source_bits (s : ExternalOperandBinding) : option Z :=
  match s with
  | ExternalValueRef x => ksv_bits <$> find_if (fun value => ksv_id value =? x) (ki_scalarInputs invocation)
  | ConstantRef k => const_bits <$> d_find_constant source k
  end.

(** The address of a load or store that is known before the loop runs. *)
Definition concrete_address (node : Node) : option Z :=
  if negb (bool_decide (node_opcode node = OpLoad) || bool_decide (node_opcode node = OpStore)) ||
     bool_decide (node_memoryInfo node = None) || isABIOutputStore node then None
  else
    binding ← find_if (fun item => (ob_node item =? node_id node) && (ob_operand item =? 0)) (d_bindings source);
    source_bits (ob_source binding).

Lemma source_bindings_NoDup : NoDup (binding_key <$> d_bindings source).
Proof using Ht Hroom. pose proof source_providers_NoDup as H. unfold providers in H. by apply NoDup_app in H as (_ & _ & ?). Qed.

Lemma find_bound_binding node operand : node ∈ d_nodes source ->
  find_if (fun item => (ob_node item =? node_id node) && (ob_operand item =? operand)) (d_bindings g) =
  specialized_binding specialized <$> find_if (fun item => (ob_node item =? node_id node) && (ob_operand item =? operand)) (d_bindings source).
Proof using Hb Ht Hroom.
  intros Hn. pose proof (dinv_bindings g (ho_inv _ _ Hb)) as Hnd.
  destruct (find_if _ (d_bindings source)) as [binding|] eqn:Ef; cbn [fmap option_fmap option_map].
  - apply find_operand_binding in Ef as (Hin & En & Eo); [|apply source_bindings_NoDup].
    apply find_operand_binding; [done|]. split_and!; [|done|done]. rewrite bound_bindings. apply elem_of_app. left.
    by apply list_elem_of_fmap_2.
  - apply find_if_None. intros item Hin. rewrite bound_bindings in Hin. apply elem_of_app in Hin as [Hin|Hin].
    + apply list_elem_of_fmap in Hin as (binding & -> & Hin). exact (proj1 (find_if_None _ _) Ef _ Hin).
    + apply elem_of_imap in Hin as (i & o & Hi & ->). simpl. destruct nextNodeId_ok as (_ & _ & Hlt).
      specialize (Hlt _ Hn). rewrite (proj2 (Z.eqb_neq _ _)) by lia. done.
Qed.

Context (Hall : forall x, x ∈ X -> ext_id x ∈ ksv_id <$> ki_scalarInputs invocation).

Lemma specialized_bits s : known_source specialized s -> (forall k, s = ConstantRef k -> is_Some (d_find_constant source k)) ->
  exists c, c ∈ d_constants g /\ specialized_source specialized s = ConstantRef (const_id c) /\ source_bits s = Some (const_bits c).
Proof using Hb Hco Hall.
  intros [s' Hs] Hk. unfold specialized_source. rewrite Hs. simpl. destruct s as [x|k]; simpl in *.
  - destruct (specialized !! x) as [k|] eqn:Ek; [|done]. injection Hs as <-.
    apply specialized_lookup in Ek as (i & v & Hv & Ex & ->). exists (specialized_constant i v). split_and!.
    + rewrite bound_constants. apply elem_of_app. left. apply elem_of_app. right. apply elem_of_imap. eauto.
    + done.
    + unfold specialized_constant, input_bits. simpl. rewrite Ex.
      destruct (find_if (fun value => ksv_id value =? x) (ki_scalarInputs invocation)) eqn:Ef; [done|]. exfalso.
      apply list_elem_of_lookup_2, Hall, list_elem_of_fmap in Hv as (value & E & Hin).
      apply (proj1 (find_if_None _ _)) with (x := value) in Ef; [lia|done].
  - injection Hs as <-. destruct (Hk k eq_refl) as [c Hc]. rewrite Hc. exists c.
    apply find_if_Some in Hc as [Hc E]. split_and!; [|f_equal; lia|done].
    rewrite bound_constants. apply elem_of_app. left. apply elem_of_app. by left.
Qed.

Lemma binding_bits binding : binding ∈ d_bindings source ->
  exists c, c ∈ d_constants g /\ specialized_source specialized (ob_source binding) = ConstantRef (const_id c) /\
    source_bits (ob_source binding) = Some (const_bits c).
Proof using Hb Hco Ht Hall.
  intros Hin. apply specialized_bits; [by apply binding_known|]. intros k E.
  destruct (dt_bindings source Ht _ Hin) as (type & _ & Hs). rewrite E in Hs. simpl in Hs.
  destruct (d_find_constant source k); [by eexists|done].
Qed.

(** The bound graph accesses a constant address where the source accesses a known one. *)
Lemma bound_address node bits :
  (exists id c, node ∈ d_nodes g /\ address_constant g node = Some id /\ c ∈ d_constants g /\ const_id c = id /\ const_bits c = bits) <->
  node ∈ d_nodes source /\ concrete_address node = Some bits.
Proof using Hb Hco Ht Hroom Hall.
  pose proof (dc_constants g bound_coherent) as Hnd. split.
  - intros (id & c & Hn & Ha & Hc & Ec & Eb). rewrite bound_nodes in Hn. apply elem_of_app in Hn as [Hn|Hn].
    2: { apply elem_of_imap in Hn as (i & o & _ & ->). unfold address_constant in Ha.
         rewrite store_is_marked in Ha. by rewrite orb_true_r in Ha. }
    split; [done|]. unfold address_constant in Ha. unfold concrete_address. destruct (_ || isABIOutputStore node); [done|].
    rewrite find_bound_binding in Ha by done. destruct (find_if _ (d_bindings source)) as [binding|] eqn:Ef; [|done].
    apply find_if_Some in Ef as [Hin _]. destruct (binding_bits _ Hin) as (c' & Hc' & Es & Ebits). simpl in Ha |- *.
    rewrite Es in Ha. injection Ha as <-. assert (c = c') as -> by (by apply (NoDup_key_eq const_id (d_constants g))). congruence.
  - intros [Hn Ha]. unfold concrete_address in Ha. unfold address_constant.
    destruct (_ || isABIOutputStore node) eqn:Em; [done|]. apply bind_Some in Ha as (binding & Ef & Ha).
    pose proof (find_if_Some _ _ _ Ef) as [Hin _]. destruct (binding_bits _ Hin) as (c & Hc & Es & Ebits).
    exists (const_id c), c. rewrite find_bound_binding, Ef by done. simpl. rewrite Es. split_and!; try done; [|congruence].
    rewrite bound_nodes. apply elem_of_app. by left.
Qed.

Lemma reserved_check nodes : nodes ⊆ d_nodes g ->
  exists free, checkReservedMemoryAddresses g base depth nodes = Ok free /\
  (free = false <-> exists node id c, node ∈ nodes /\ address_constant g node = Some id /\ c ∈ d_constants g /\
     const_id c = id /\ base <= const_bits c < depth).
Proof using Hb Ht Hco Hroom Hsupported Hwidth Hbytes.
  pose proof (dc_constants g bound_coherent) as Hnd.
  induction nodes as [|node nodes IH]; intros Hsub; simpl.
  { exists true. split; [done|]. split; [done|]. by intros (? & ? & ? & ?%not_elem_of_nil & _). }
  destruct IH as (free & E & IH); [intros x Hx; apply Hsub; by right|].
  destruct (address_constant g node) as [id|] eqn:Ea.
  - destruct (address_constant_known (kernel "") node id bound_typed) as (c & Hc & Ec); [apply Hsub; left|done|].
    rewrite (proj2 (d_constant_Ok g (ho_inv _ _ Hb) _ c)) by done. cbn [mbind result_bind].
    destruct (Z.leb_spec base (const_bits c)); destruct (Z.ltb_spec (const_bits c) depth); cbn [andb].
    1: { exists false. split; [done|]. split; [|done]. intros _. exists node, id, c. split_and!; try done. left. }
    all: exists free; (split; [done|]); rewrite IH; split; intros (n & i & c' & Hn & Ha & Hc' & Ec' & Hr).
    1,3,5: exists n, i, c'; (split; [by right|done]).
    all: apply elem_of_cons in Hn as [->|Hn]; [|by exists n, i, c']; exfalso; assert (c' = c) as ->
      by (apply (NoDup_key_eq const_id (d_constants g)); try done; congruence); lia.
  - exists free. split; [done|]. rewrite IH. split; intros (n & i & c' & Hn & Ha & Hr); exists n, i, c'; (split; [|done]).
    + by right.
    + apply elem_of_cons in Hn as [->|Hn]; [congruence|done].
Qed.


Lemma bound_rules name :
  invocation_valid (inferSignature source) invocation depth (scalar_width target) ->
  (count <> 0 -> forall address value, (address, value) ∈ ki_scratchpadPreload invocation -> address < base) ->
  (forall node id c, node ∈ d_nodes g -> address_constant g node = Some id -> c ∈ d_constants g -> const_id c = id ->
     ~ (base <= const_bits c < depth)) ->
  kernel_rules source target invocation (kernel name).
Proof using Hb Ht Hco Hroom Hsupported Hwidth Hbytes Hfits Hall.
  intros Hval Hpre Hfree. split; try done.
  - split; [apply bound_coherent|apply bound_typed].
  - apply (ho_name _ _ Hb).
  - by apply invocation_valid_name.
  - intros node Hn. cbn. rewrite bound_nodes. apply elem_of_app. by left.
  - cbn. by rewrite (ho_externals _ _ Hb).
  - intros c Hc. cbn. rewrite bound_constants. apply elem_of_app. left. apply elem_of_app. by left.
  - cbn. by rewrite (ho_liveOuts _ _ Hb).
  - apply layout_inputs_perm.
  - apply (layout_specialized Hall).
  - intros binding Hin. cbn [bk_layout bk_dfg]. rewrite layout_inputs_specialized.
    exists (specialized_source specialized (ob_source binding)). split; [by apply specialized_known, binding_known|].
    rewrite bound_bindings. apply elem_of_app. left. by apply (list_elem_of_fmap_2 (specialized_binding specialized)).
  - intros edge Hin. cbn [bk_layout bk_dfg]. rewrite layout_inputs_specialized. exists (specialized_edge specialized edge).
    split; [apply rewrite_edge_known; intros v Hv; by eapply edge_known|].
    rewrite bound_edges. apply elem_of_app. left. by apply list_elem_of_fmap_2.
  - apply layout_outputs.
  - apply layout_addresses.
  - apply layout_stored.
  - intros node c [Hn [Hc Ha]]%(known_access_address g node c (ho_inv _ _ Hb)). by apply (Hfree node (const_id c)).
Qed.
End Graph.
End Phases.

(** ** What can be bound *)

Section Binder.
Context (source : DFG) (target : TargetModel) (invocation : KernelInvocation).

Abbreviation depth := (mem_depth (tm_memory target)).
Abbreviation count := (Z.of_nat (length (d_liveOuts source))).
Abbreviation base := (depth - count).

(** A preloaded word in the output region. *)
Definition preload_collides : Prop := count <> 0 /\ exists address value,
  (address, value) ∈ ki_scratchpadPreload invocation /\ base <= address.

(** A load or store whose address is known to lie in the output region. *)
Definition region_accessed : Prop := exists node bits, node ∈ d_nodes source /\
  concrete_address source invocation node = Some bits /\ base <= bits < depth.

(** A valid source with names for its inputs, a valid invocation, room for the outputs,
    and words for them that nobody else writes or is known to access. *)
Record bindable : Prop := {
  bd_typed : DFG_coherent source /\ DFG_typed source;
  bd_names : NoDup (ext_name <$> d_externalValues source);
  bd_invocation : invocation_valid (inferSignature source) invocation depth (scalar_width target);
  bd_fits : count <= depth;
  bd_preload : ~ preload_collides;
  bd_types : forall o, o ∈ d_liveOuts source -> supported_output target o;
  bd_accesses : ~ region_accessed;
  bd_labels : forall node, node ∈ d_nodes source -> isABIOutputStore node = false
}.

(** What each status says; two of them cannot occur. *)
Definition binding_explained (status : KernelABIBindingStatus) : Prop :=
  match status with
  | KBSuccess => bindable
  | KBInvalidSourceDFG => ~ (DFG_coherent source /\ DFG_typed source) \/ ~ NoDup (ext_name <$> d_externalValues source)
  | KBInvalidInvocation => ~ invocation_valid (inferSignature source) invocation depth (scalar_width target)
  | KBScratchpadABICapacityExceeded => depth < count
  | KBScratchpadABIRegionConflict => preload_collides \/ region_accessed
  | KBUnsupportedLiveOutType => exists o, o ∈ d_liveOuts source /\ ~ supported_output target o
  | KBVerificationFailure => exists node, node ∈ d_nodes source /\ isABIOutputStore node = true
  | KBUnsupportedInputType | KBBindingFailure => False
  end.

(** A loaded memory and typed arguments with room for new identifiers. *)
Record bind_input : Prop := {
  bi_inv : DFG_inv source;
  bi_room : bind_room source;
  bi_typed : typed_invocation (inferSignature source) invocation;
  bi_depth : is_u32 depth;
  bi_width : 0 < mem_widthBits (tm_memory target);
  bi_bytes : mem_widthBits (tm_memory target) mod 8 = 0
}.
Context (Hin : bind_input).

(** The result of a binding: success with a kernel, or a failure that says why. *)
Definition binding_result (name : string) (r : KernelABIBindingResult) : Prop :=
  binding_explained (kr_status r) /\
  (kr_status r = KBSuccess -> exists bound, kr_bound r = Some bound /\ kernel_bound source target invocation bound /\
     binds source target invocation (with_kernelName name (inferSignature source)) bound) /\
  (kr_status r <> KBSuccess -> kr_bound r = None).

Lemma refused_result name status code : status <> KBSuccess -> binding_explained status ->
  binding_result name (refused status code).
Proof using Type. intros Hs He. by split. Qed.

Lemma bind_body_result name :
  DFG_coherent source /\ DFG_typed source -> NoDup (ext_name <$> d_externalValues source) ->
  invocation_valid (inferSignature source) invocation depth (scalar_width target) -> count <= depth -> ~ preload_collides ->
  exists r, bind_body source target invocation (with_kernelName name (inferSignature source)) base = Done r /\
    binding_result name r.
Proof using Hin.
  intros [Hco Ht] Hnames Hval Hfits Hpre. destruct Hin as [Hinv Hroom Htyped Hdepth Hwidth Hbytes].
  assert (Hall : forall x, x ∈ d_externalValues source -> ext_id x ∈ ksv_id <$> ki_scalarInputs invocation).
  { intros x Hx. apply (iv_all _ _ _ _ Hval (mkInputDesc (ext_id x) (ext_name x) (ext_type x))). simpl.
    by apply (list_elem_of_fmap_2 (fun value => mkInputDesc (ext_id value) (ext_name value) (ext_type value))). }
  unfold bind_body.
  pose proof (bind_graph_builds source target invocation Hco Ht Hroom Hdepth Hfits
    (with_kernelName name (inferSignature source)) eq_refl Hall) as Hg.
  case_bool_decide as Hsup.
  2: { rewrite Hg. simpl. eexists. split; [done|]. apply refused_result; [done|]. simpl.
       apply not_Forall_Exists, Exists_exists in Hsup; [|apply _]. destruct Hsup as (o & Ho & Hn).
       unfold sorted_liveOuts in Ho. rewrite elem_of_sort_by in Ho. eauto. }
  destruct Hg as (bound & -> & b & next & Ebound & Hb & Hnext & Hids). cbn [run_call mbind outcome_bind].
  assert (Hbinds : binds source target invocation (with_kernelName name (inferSignature source)) bound) by (by exists b, next).
  set (kern := mkBoundKernel (b_dfg b) (with_kernelName name (inferSignature source)) invocation (bound_layout source target)) in *.
  subst bound. assert (Hg : DFG_inv (bk_dfg kern)) by apply (ho_inv _ _ Hb). change (bk_dfg kern) with (b_dfg b).
  destruct (reserved_check source target invocation Hco Ht Hroom b next Hb Hsup Hwidth Hbytes (d_nodes (b_dfg b)))
    as (free & -> & Hfree); [done|]. cbn [run_call mbind outcome_bind].
  assert (Hacc : free = false <-> region_accessed).
  { rewrite Hfree. split.
    - intros (node & id & c & Hn & Ha & Hc & Ec & Hr). exists node, (const_bits c).
      destruct (proj1 (bound_address source target invocation Hco Ht Hroom b next Hb Hall node (const_bits c)))
        as [? ?]; [by exists id, c|done].
    - intros (node & bits & Hn & Ha & Hr).
      destruct (proj2 (bound_address source target invocation Hco Ht Hroom b next Hb Hall node bits) (conj Hn Ha))
        as (id & c & ? & ? & ? & ? & <-). by exists node, id, c. }
  destruct free; cbn [negb].
  2: { eexists. split; [done|]. apply refused_result; [done|]. right. by apply Hacc. }
  assert (Hno : ~ region_accessed) by (by rewrite <- Hacc).
  assert (Hrules : kernel_rules source target invocation kern).
  { apply (bound_rules source target invocation Hco Ht Hroom Hfits b next Hb Hsup Hwidth Hbytes Hall); try done.
    - intros Hc a v Hav. destruct (Z.lt_ge_cases a base) as [|Hge]; [done|]. exfalso. apply Hpre. split; [done|]. eauto.
    - intros node id c Hn Ha Hc Ec Hr. assert (true = false); [|done]. apply Hfree. by exists node, id, c. }
  rewrite (abi_verify_rules source target invocation kern Hinv Hg Htyped Hrules). cbn [mbind outcome_bind].
  pose proof (marked_stores_iff source target invocation b next Hb name) as Hmark.
  pose proof (abi_stores_nil kern Hg) as Hnil.
  destruct (abi_stores _) as [|d ds] eqn:Es.
  - eexists. split; [done|]. assert (Hm : marked_stores kern) by (by apply Hnil).
    split_and!; [|intros _; eexists; split_and!; [done|by split|done]|done].
    simpl. split; try done; [|by apply Hmark].
    intros o Ho. apply (proj1 (Forall_forall _ _) Hsup). unfold sorted_liveOuts. by apply elem_of_sort_by.
  - eexists. split; [done|]. apply refused_result; [done|]. simpl.
    destruct (decide (Forall (fun node => isABIOutputStore node = false) (d_nodes source))) as [Hf|Hf].
    + exfalso. rewrite Forall_forall in Hf. apply Hmark, Hnil in Hf. done.
    + apply not_Forall_Exists, Exists_exists in Hf as (node & Hn & Hne); [|apply _]. exists node.
      split; [done|]. by apply not_false_is_true.
Qed.

Definition bound_name (kernelName : string) : string :=
  if String.eqb kernelName "" then d_name source else kernelName.

Lemma bind_result kernelName : exists r, bind source target invocation kernelName = Some r /\
  binding_result (bound_name kernelName) r.
Proof using Hin.
  pose proof Hin as [Hinv Hroom Htyped Hdepth Hwidth Hbytes]. unfold bind.
  assert (Esig : (if String.eqb kernelName "" then inferSignature source else with_kernelName kernelName (inferSignature source)) =
    with_kernelName (bound_name kernelName) (inferSignature source)) by (unfold bound_name; by destruct (String.eqb kernelName "")).
  cbv zeta. rewrite Esig.
  destruct (report_ok (dfg_verify source)) eqn:Eok; cbn [negb].
  2: { eexists. split; [done|]. apply refused_result; [done|]. left. rewrite <- dfg_diagnostics_nil, <- dfg_verify_ok. by rewrite Eok. }
  assert (Hs : DFG_coherent source /\ DFG_typed source) by (by apply dfg_diagnostics_nil, dfg_verify_ok).
  assert (Enames : kid_name <$> ks_scalarInputs (with_kernelName (bound_name kernelName) (inferSignature source)) =
    ext_name <$> d_externalValues source) by (simpl; by rewrite <- list_fmap_compose).
  rewrite Enames. case_bool_decide as Hnames; cbn [negb].
  2: { eexists. split; [done|]. apply refused_result; [done|]. by right. }
  pose proof (validateInvocation_spec (with_kernelName (bound_name kernelName) (inferSignature source)) invocation depth
    (scalar_width target) Htyped (signature_inputs_NoDup source _ (proj1 Hs))) as Hval.
  destruct (validateInvocation _ _ _ _) as [error|].
  { rewrite bool_decide_eq_true_2 by eauto. eexists. split; [done|]. apply refused_result; [done|]. simpl.
    intros Hv. apply Hval. by apply invocation_valid_name. }
  rewrite bool_decide_eq_false_2 by (by intros [? [=]]). apply (proj1 (invocation_valid_name invocation _ _ _ _)) in Hval.
  destruct (Z.ltb_spec depth count) as [Hlt|Hfits].
  { eexists. split; [done|]. by apply refused_result. }
  destruct (existsb _ _) eqn:Epre.
  { eexists. split; [done|]. apply refused_result; [done|]. left. apply existsb_exists in Epre as ([a v] & Hav & E).
    apply andb_true_iff in E as [E1 E2]. simpl in E1. split; [lia|]. exists a, v. split; [by apply list_elem_of_In|lia]. }
  destruct (bind_body_result (bound_name kernelName) Hs Hnames Hval Hfits) as (r & -> & Hr); [|by exists r].
  intros (Hc & a & v & Hav & Hle). apply not_true_iff_false in Epre. apply Epre, existsb_exists. exists (a, v).
  split; [by apply list_elem_of_In|]. simpl. apply andb_true_iff. split; [lia|]. by apply negb_true_iff, Z.eqb_neq.
Qed.

Lemma explained_bindable status : binding_explained status -> bindable -> status = KBSuccess.
Proof using Type.
  intros He [H1 H2 H3 H4 H5 H6 H7 H8]. destruct status; try done.
  - by destruct He.
  - destruct He as (o & Ho & Hn). by destruct Hn; apply H6.
  - by destruct He.
  - simpl in He. lia.
  - destruct He as (node & Hn & E). by rewrite (H8 _ Hn) in E.
Qed.

End Binder.

(** C6: the binder decides which kernels can be bound.  For a loaded machine and typed
    arguments [bind] returns, and it succeeds exactly on a valid source graph with
    distinct input names, a valid invocation, live-outs of the machine's word type that
    fit the scratchpad, and no preloaded word, known address or marked node of the
    source in their way; every other status says which of these is missing, no exception
    is ever reported, and the final verification fails only for a marked node.  The
    kernel of a success obeys every rule of the ABI verifier. *)
Theorem bind_exact (source : DFG) (target : TargetModel) (invocation : KernelInvocation) (kernelName : string) :
  bind_input source target invocation -> exists r,
  bind source target invocation kernelName = Some r /\
  binding_explained source target invocation (kr_status r) /\
  (kr_status r = KBSuccess <-> bindable source target invocation) /\
  match kr_bound r with
  | Some bound => kr_status r = KBSuccess /\ kernel_bound source target invocation bound /\
      ks_kernelName (bk_signature bound) = bound_name source kernelName
  | None => kr_status r <> KBSuccess
  end.
Proof.
  intros Hin. destruct (bind_result source target invocation Hin kernelName) as (r & Hr & He & Hok & Hfail). exists r. split_and!; [done|done| |].
  - split; [intros E; by rewrite E in He|by apply explained_bindable].
  - destruct (decide (kr_status r = KBSuccess)) as [E|E]; [|by rewrite (Hfail E)].
    destruct (Hok E) as (bound & -> & Hb & b & next & -> & _). done.
Qed.

(** The example's kernel is the one the binder makes. *)
Example shift_binds : bind shift cgra_v2 shift_invocation "" = Some (mkBindingResult KBSuccess (Some shift_bound) []).
Proof. vm_compute. reflexivity. Qed.

Definition bind_room_ok (source : DFG) : bool :=
  let inputs := Z.of_nat (length (d_externalValues source)) in
  let count := Z.of_nat (length (d_liveOuts source)) in
  forallb (fun c => (0 <=? const_id c) && (const_id c + inputs + count <? u32_max)) (d_constants source) &&
  (inputs + count <? u32_max) &&
  forallb (fun node => (0 <=? node_id node) && (node_id node + count <? u32_max)) (d_nodes source) &&
  forallb (fun edge => (0 <=? edge_id edge) && (edge_id edge + 2 * count <? u32_max)) (d_edges source) &&
  (2 * count <? u32_max) && forallb (fun key => 0 <=? key.2) (providers (d_edges source) (d_bindings source)).

Lemma bind_room_check source : bind_room_ok source = true -> bind_room source.
Proof.
  unfold bind_room_ok. cbv zeta. rewrite !andb_true_iff, !forallb_forall, !Z.ltb_lt. intros [[[[[H1 H2] H3] H4] H5] H6].
  split; try done.
  - intros c Hc%list_elem_of_In%H1. lia.
  - intros node Hn%list_elem_of_In%H3. lia.
  - intros edge He%list_elem_of_In%H4. lia.
  - intros key Hk%list_elem_of_In%H6. lia.
Qed.

Lemma shift_input : bind_input shift cgra_v2 shift_invocation.
Proof.
  split; [by apply requests_inv|apply bind_room_check; vm_compute; reflexivity|exact shift_typed|vm_compute; split; discriminate|done|done].
Qed.

Lemma bind_exact_witness : exists r, bind shift cgra_v2 shift_invocation "" = Some r /\
  binding_explained shift cgra_v2 shift_invocation (kr_status r) /\
  (kr_status r = KBSuccess <-> bindable shift cgra_v2 shift_invocation) /\
  match kr_bound r with
  | Some bound => kr_status r = KBSuccess /\ kernel_bound shift cgra_v2 shift_invocation bound /\
      ks_kernelName (bk_signature bound) = bound_name shift ""
  | None => kr_status r <> KBSuccess
  end.
Proof. apply bind_exact. exact shift_input. Defined.
