(* ===== verification/KernelExecution.v ===== *)
(** * What a bound kernel computes

    Executions of a generic graph, for any behaviour of its operations, and the theorem
    that binding a kernel keeps them: the bound graph executes the source under the
    invocation and hands every live-out, in every iteration, to its store. *)
From Stdlib Require Import Sorted.
From stdpp Require Import base numbers list gmap strings sorting.
From S2P Require Import Prelude.
From S2P Require Import IR.
From S2P Require Import DFG.
From S2P Require Import DFGVerifier.
From S2P Require Import TargetModel.
From S2P Require Import CgraV2.
From S2P Require Import KernelABI.
From S2P Require Import KernelABIVerified.
From S2P Require Import KernelABIBinding.

(** ** Executions *)

Section Values.
Context (g : DFG) (external : Z -> option Z) (v : Z -> Z -> Z).

(** A value outside the loop. *)
Definition given (s : ExternalOperandBinding) : option Z :=
  match s with
  | ExternalValueRef x => external x
  | ConstantRef k => const_bits <$> d_find_constant g k
  end.

(** What an edge carries to iteration [i]: the value of an iteration before, or the
    boundary value of [i] when there is none. *)
Definition edge_value (edge : Edge) (i : Z) : option Z :=
  if edge_distance edge <=? i then Some (v (edge_src edge) (i - edge_distance edge))
  else
    value ← find_if (fun value => rbv_iterationOffset value =? i) (info_boundary (edge_info edge));
    given (rbv_value value).

(** What an operand receives in iteration [i], from its one provider. *)
Definition operand_value (node operand i : Z) : option Z :=
  match find_if (fun item => (ob_node item =? node) && (ob_operand item =? operand)) (d_bindings g) with
  | Some binding => given (ob_source binding)
  | None =>
      edge ← find_if (fun edge => bool_decide (edge_provider edge = Some (node, operand))) (d_edges g);
      edge_value edge i
  end.

Definition operand_values (node : Node) (i : Z) : list (option Z) :=
  (fun operand => operand_value (node_id node) operand i) <$> range (Z.of_nat (length (node_operandTypes node))).
End Values.

(** [step node i operands result]: with these operands an operation may produce
    [result] in iteration [i].  [v] gives every node a value in every iteration that its
    operation may produce. *)
Definition executes (step : Node -> Z -> list (option Z) -> Z -> Prop) (g : DFG) (external : Z -> option Z)
    (v : Z -> Z -> Z) : Prop :=
  forall node i, node ∈ d_nodes g -> 0 <= i -> step node i (operand_values g external v node i) (v (node_id node) i).

(** The external values of an invocation. *)
Definition invocation_value (invocation : KernelInvocation) (x : Z) : option Z :=
  ksv_bits <$> find_if (fun value => ksv_id value =? x) (ki_scalarInputs invocation).

(** A bound graph reads no external values. *)
Definition no_externals (x : Z) : option Z := None.

(** ** Operands of the bound graph *)

Section Bound.
Context (source : DFG) (target : TargetModel) (invocation : KernelInvocation).
Context (Hco : DFG_coherent source) (Ht : DFG_typed source) (Hroom : bind_room source).
Context (b : DFGBuilder) (next : Z) (Hb : holds b (bound_contents source target invocation next)).
Context (Hall : forall x, x ∈ d_externalValues source -> ext_id x ∈ ksv_id <$> ki_scalarInputs invocation).
Context (v : Z -> Z -> Z).

Abbreviation g := (b_dfg b).
Abbreviation m := (specialized source).
Abbreviation outputs := (sorted_liveOuts source).

Lemma given_specialized s type : source_type source s = Some type ->
  given g no_externals (specialized_source m s) = given source (invocation_value invocation) s.
Proof using Hco Hb Hall.
  intros Hs. destruct (specialized_bits source target invocation Hco b next Hb Hall s) as (c & Hc & -> & Ebits).
  - by apply (source_known source Hco s type).
  - intros k ->. simpl in Hs. destruct (d_find_constant source k); [by eexists|done].
  - cbn [given]. rewrite (find_bound_constant source target invocation b next Hb c Hc). simpl.
    rewrite <- Ebits. by destruct s.
Qed.

Lemma boundary_sources edge value : edge ∈ d_edges source -> value ∈ info_boundary (edge_info edge) ->
  exists type, source_type source (rbv_value value) = Some type.
Proof using Ht.
  intros He Hv. destruct (dt_edges source Ht _ He) as (s & d & _ & _ & H).
  destruct (edge_info edge) as [o [values|]|o [values|]|k]; simpl in Hv; try by apply not_elem_of_nil in Hv.
  all: destruct H as (_ & _ & _ & _ & _ & H); destruct (H _ Hv) as [_ Hs]; eauto.
Qed.

Lemma find_boundary i values :
  find_if (fun value => rbv_iterationOffset value =? i) (specialized_values m values) =
  (fun value => mkRecurrenceBoundaryValue (rbv_iterationOffset value) (specialized_source m (rbv_value value))) <$>
    find_if (fun value => rbv_iterationOffset value =? i) values.
Proof using Type.
  induction values as [|value values IH]; [done|]. simpl. by destruct (_ =? _).
Qed.

Lemma specialized_boundary info : info_boundary (specialized_info m info) = specialized_values m (info_boundary info).
Proof using Type. by destruct info as [o [values|]|o [values|]|k]. Qed.

Lemma edge_value_specialized edge i : edge ∈ d_edges source ->
  edge_value g no_externals v (specialized_edge m edge) i = edge_value source (invocation_value invocation) v edge i.
Proof using Hco Ht Hb Hall.
  intros He. unfold edge_value. cbn [specialized_edge edge_distance edge_src edge_info]. destruct (_ <=? i); [done|].
  rewrite specialized_boundary, find_boundary. destruct (find_if _ (info_boundary (edge_info edge))) as [value|] eqn:Ef; [|done].
  apply find_if_Some in Ef as [Hv _]. destruct (boundary_sources _ _ He Hv) as [type Hs].
  cbn. by apply (given_specialized _ type).
Qed.

Lemma find_bound_edge node operand : node ∈ d_nodes source ->
  find_if (fun edge => bool_decide (edge_provider edge = Some (node_id node, operand))) (d_edges g) =
  specialized_edge m <$> find_if (fun edge => bool_decide (edge_provider edge = Some (node_id node, operand))) (d_edges source).
Proof using Hb Hroom.
  intros Hn. rewrite (bound_edges source target invocation b next Hb).
  assert (Hout : find_if (fun edge => bool_decide (edge_provider edge = Some (node_id node, operand)))
    (concat (imap (out_edges source next) outputs)) = None).
  { apply find_if_None. intros edge (i & o & _ & He)%elem_of_out_edges. apply bool_decide_eq_false.
    destruct (nextNodeId_ok source Hroom) as (_ & _ & Hlt). specialize (Hlt _ Hn). unfold out_edges in He. set_unfold in He.
    destruct He as [->|[->|[]]]; [|done]. intros [= E _]. lia. }
  induction (d_edges source) as [|edge edges IH]; [done|]. rewrite fmap_cons. simpl. rewrite specialized_edge_provider.
  case_bool_decide; [done|apply IH].
Qed.

Lemma operand_value_source node operand i : node ∈ d_nodes source ->
  operand_value g no_externals v (node_id node) operand i =
  operand_value source (invocation_value invocation) v (node_id node) operand i.
Proof using Hco Ht Hb Hall Hroom.
  intros Hn. unfold operand_value. rewrite (find_bound_binding source target invocation Ht Hroom b next Hb node operand Hn).
  destruct (find_if _ (d_bindings source)) as [binding|] eqn:Ef; cbn [fmap option_fmap option_map].
  - apply find_if_Some in Ef as [Hin _]. destruct (dt_bindings source Ht _ Hin) as (type & _ & Hs).
    by apply (given_specialized _ type).
  - rewrite find_bound_edge by done.
    destruct (find_if (fun edge => bool_decide (edge_provider edge = _)) (d_edges source)) as [edge|] eqn:Ee; [|done].
    apply find_if_Some in Ee as [He _]. cbn. by apply edge_value_specialized.
Qed.

Lemma source_binding_below binding : binding ∈ d_bindings source -> ob_node binding < node_start source.
Proof using Ht Hroom.
  intros Hin. assert (Hkey : (ob_node binding, ob_operand binding) ∈ providers (d_edges source) (d_bindings source)).
  { apply elem_of_app. right. by apply (list_elem_of_fmap_2 binding_key). }
  apply (provided_in_range source Ht Hroom) in Hkey as (found & Hf & <- & _).
  destruct (nextNodeId_ok source Hroom) as (_ & _ & Hlt). by apply Hlt.
Qed.

Lemma source_provider_below edge node operand : edge ∈ d_edges source -> edge_provider edge = Some (node, operand) ->
  node < node_start source.
Proof using Ht Hroom.
  intros He Hp. assert (Hkey : (node, operand) ∈ providers (d_edges source) (d_bindings source)).
  { apply elem_of_app. left. apply list_elem_of_omap. eauto. }
  apply (provided_in_range source Ht Hroom) in Hkey as (found & Hf & <- & _).
  destruct (nextNodeId_ok source Hroom) as (_ & _ & Hlt). by apply Hlt.
Qed.

Lemma store_address k o i : outputs !! k = Some o ->
  operand_value g no_externals v (node_start source + Z.of_nat k) 0 i =
  Some (mem_depth (tm_memory target) - Z.of_nat (length (d_liveOuts source)) + Z.of_nat k).
Proof using Hb.
  intros Hk. unfold operand_value.
  assert (Hin : out_use source k o ∈ d_bindings g).
  { rewrite (bound_bindings source target invocation b next Hb). apply elem_of_app. right. apply elem_of_imap. eauto. }
  rewrite (proj2 (find_operand_binding (d_bindings g) _ _ (out_use source k o) (dinv_bindings g (ho_inv _ _ Hb)))) by done.
  cbn [out_use ob_source given]. change (first_address_constant source + Z.of_nat k) with (const_id (out_address source target k o)).
  rewrite (find_bound_constant source target invocation b next Hb); [done|].
  rewrite (bound_constants source target invocation b next Hb). apply elem_of_app. right. apply elem_of_imap. eauto.
Qed.

Lemma store_data k o i : outputs !! k = Some o -> 0 <= i ->
  operand_value g no_externals v (node_start source + Z.of_nat k) 1 i = Some (v (lo_source o) i).
Proof using Hb Ht Hroom.
  intros Hk Hi. unfold operand_value.
  assert (Hnone : find_if (fun item => (ob_node item =? node_start source + Z.of_nat k) && (ob_operand item =? 1)) (d_bindings g) = None).
  { apply find_if_None. intros item Hin. rewrite (bound_bindings source target invocation b next Hb) in Hin.
    apply elem_of_app in Hin as [(binding & -> & Hbi)%list_elem_of_fmap|(j & x & Hj & ->)%elem_of_imap].
    - pose proof (source_binding_below _ Hbi). simpl. rewrite (proj2 (Z.eqb_neq _ _)) by lia. done.
    - simpl. by rewrite andb_false_r. }
  rewrite Hnone. set (p := fun edge => bool_decide (edge_provider edge = Some (node_start source + Z.of_nat k, 1))).
  assert (Hin : mkEdge (next + 2 * Z.of_nat k) (lo_source o) (node_start source + Z.of_nat k) 0 (DataEdgeInfo 1 None) ∈ d_edges g).
  { rewrite (bound_edges source target invocation b next Hb). apply elem_of_app. right. apply elem_of_out_edges.
    exists k, o. split; [done|left]. }
  destruct (find_if_is_Some p (d_edges g)) as [edge Hf].
  { eexists. split; [exact Hin|]. unfold p. by apply bool_decide_eq_true. }
  rewrite Hf. apply find_if_Some in Hf as [He Hp]. unfold p in Hp. apply bool_decide_eq_true in Hp.
  rewrite (bound_edges source target invocation b next Hb) in He.
  apply elem_of_app in He as [(e & -> & He)%list_elem_of_fmap|(j & x & Hj & He)%elem_of_out_edges].
  - rewrite specialized_edge_provider in Hp. pose proof (source_provider_below _ _ _ He Hp). lia.
  - unfold out_edges in He. set_unfold in He. destruct He as [->|[->|[]]]; [|done]. injection Hp as E.
    assert (j = k) as -> by lia. rewrite Hk in Hj. injection Hj as <-. unfold edge_value. cbn.
    rewrite (proj2 (Z.leb_le _ _)) by lia. by rewrite Z.sub_0_r.
Qed.

Lemma operand_values_source node i : node ∈ d_nodes source ->
  operand_values g no_externals v node i = operand_values source (invocation_value invocation) v node i.
Proof using Hco Ht Hb Hall Hroom.
  intros Hn. unfold operand_values. apply list_fmap_ext. intros _ operand _. by apply operand_value_source.
Qed.

Lemma store_operands k o i : outputs !! k = Some o -> 0 <= i ->
  operand_values g no_externals v (out_store source target k o) i =
  [Some (mem_depth (tm_memory target) - Z.of_nat (length (d_liveOuts source)) + Z.of_nat k); Some (v (lo_source o) i)].
Proof using Hb Ht Hroom.
  intros Hk Hi. unfold operand_values. simpl length. change (range (Z.of_nat 2)) with [0; 1].
  rewrite !fmap_cons. cbn [fmap list_fmap out_store node_id]. by rewrite (store_address k o), (store_data k o).
Qed.
End Bound.

(** ** Bound kernels compute their source *)

(** The store a binding gives to a live-out does in every iteration what a store of the
    live-out's value to the address of the layout does. *)
Definition stores_liveOuts (step : Node -> Z -> list (option Z) -> Z -> Prop) (source : DFG) (bound : ABIBoundKernel)
    (v : Z -> Z -> Z) : Prop :=
  forall output binding, output ∈ d_liveOuts source -> binding ∈ kl_outputs (bk_layout bound) ->
    kob_output binding = lo_id output -> exists store, store ∈ d_nodes (bk_dfg bound) /\
    node_id store = kob_abiStoreNode binding /\ node_opcode store = OpStore /\
    forall i, 0 <= i -> step store i [Some (kob_scratchpadAddress binding); Some (v (lo_source output) i)] (v (node_id store) i).

Lemma binding_executions (source : DFG) (target : TargetModel) (invocation : KernelInvocation) (name : string)
    (bound : ABIBoundKernel) (step : Node -> Z -> list (option Z) -> Z -> Prop) (v : Z -> Z -> Z) :
  bind_input source target invocation -> kernel_bound source target invocation bound ->
  binds source target invocation (with_kernelName name (inferSignature source)) bound ->
  executes step (bk_dfg bound) no_externals v <->
  executes step source (invocation_value invocation) v /\ stores_liveOuts step source bound v.
Proof.
  intros Hin [Hrules _] (b & next & Ebound & Hb & _).
  subst bound. cbn [bk_dfg bk_layout] in *. destruct (kb_source _ _ _ _ Hrules) as [Hco Ht]. pose proof (bi_room _ _ _ Hin) as Hroom.
  assert (Hall : forall x, x ∈ d_externalValues source -> ext_id x ∈ ksv_id <$> ki_scalarInputs invocation).
  { intros x Hx. apply (iv_all _ _ _ _ (kb_valid _ _ _ _ Hrules) (mkInputDesc (ext_id x) (ext_name x) (ext_type x))). simpl.
    by apply (list_elem_of_fmap_2 (fun value => mkInputDesc (ext_id value) (ext_name value) (ext_type value))). }
  pose proof (bound_nodes source target invocation b next Hb) as Enodes.
  assert (Hsorted : forall o, o ∈ d_liveOuts source <-> o ∈ sorted_liveOuts source).
  { intros o. unfold sorted_liveOuts. by rewrite elem_of_sort_by. }
  split.
  - intros Hx. split.
    + intros node i Hn Hi. rewrite <- (operand_values_source source target invocation Hco Ht Hroom b next Hb Hall) by done.
      apply Hx; [|done]. rewrite Enodes. apply elem_of_app. by left.
    + intros output binding Ho (k & o & Hk & ->)%elem_of_imap E. simpl in E.
      assert (o = output) as ->.
      { apply (NoDup_key_eq lo_id (d_liveOuts source)); [apply Hco| |done|done]. apply Hsorted. by eapply list_elem_of_lookup_2. }
      exists (out_store source target k output). assert (Hstore : out_store source target k output ∈ d_nodes (b_dfg b)).
      { rewrite Enodes. apply elem_of_app. right. apply elem_of_imap. eauto. }
      split_and!; [done..|]. intros i Hi. cbn [out_binding kob_scratchpadAddress].
      rewrite <- (store_operands source target invocation Ht Hroom b next Hb v k output i) by done. by apply Hx.
  - intros [Hx Hst] node i Hn Hi. rewrite Enodes in Hn. apply elem_of_app in Hn as [Hn|Hn].
    + rewrite (operand_values_source source target invocation Hco Ht Hroom b next Hb Hall) by done. by apply Hx.
    + apply elem_of_imap in Hn as (k & o & Hk & ->). pose proof (list_elem_of_lookup_2 _ _ _ Hk) as Ho.
      rewrite (store_operands source target invocation Ht Hroom b next Hb v k o i) by done.
      destruct (Hst o (out_binding source target k o)) as (store & Hs & Eid & _ & Hstep); [by apply Hsorted| |done|].
      { apply elem_of_imap. eauto. }
      assert (store = out_store source target k o) as ->.
      { apply (NoDup_key_eq node_id (d_nodes (b_dfg b))); [|done| |exact Eid].
        - eapply indexed_NoDup, (dinv_nodes _ (ho_inv _ _ Hb)).
        - rewrite Enodes. apply elem_of_app. right. apply elem_of_imap. eauto. }
      by apply Hstep.
Qed.

(** C5: binding keeps what a kernel computes.  Whatever operations do (loads may return
    anything, and an operation may behave differently in different iterations), the bound
    graph, which reads no external value, has exactly the executions in which the source
    graph runs on the scalar inputs of the invocation and the store of every live-out
    receives, in every iteration, the address of the layout and the live-out's value. *)
Theorem bound_kernel_executes_source (source : DFG) (target : TargetModel) (invocation : KernelInvocation)
    (kernelName : string) (r : KernelABIBindingResult) (bound : ABIBoundKernel)
    (step : Node -> Z -> list (option Z) -> Z -> Prop) (v : Z -> Z -> Z) :
  bind_input source target invocation ->
  bind source target invocation kernelName = Some r -> kr_bound r = Some bound ->
  executes step (bk_dfg bound) no_externals v <->
  executes step source (invocation_value invocation) v /\ stores_liveOuts step source bound v.
Proof.
  intros Hin Hr Hbound. destruct (bind_result source target invocation Hin kernelName) as (r' & Hr' & He & Hok & Hfail).
  rewrite Hr in Hr'. injection Hr' as <-. destruct (decide (kr_status r = KBSuccess)) as [Es|Es]; [|by rewrite Hfail in Hbound].
  destruct (Hok Es) as (bound' & Eb & Hb & Hbinds). rewrite Hbound in Eb. injection Eb as <-.
  by apply (binding_executions source target invocation _ bound step v Hin Hb Hbinds).
Qed.

(** Loads return the iteration, additions add, and stores have no value. *)
Definition shift_step (node : Node) (i : Z) (operands : list (option Z)) (result : Z) : Prop :=
  match node_opcode node, operands with
  | OpLoad, _ => result = i
  | OpAdd, [Some x; Some y] => result = x + y
  | OpStore, [Some _; Some _] => result = 0
  | _, _ => False
  end.

Definition shift_values (node i : Z) : Z := if node =? 0 then i else if node =? 1 then i + 3 else 0.

(** The bound graph computes [i + 3]; an execution of the bound graph exists, and it is one
    of the source. *)
Lemma bound_kernel_executes_source_witness :
  executes shift_step (bk_dfg shift_bound) no_externals shift_values /\
  executes shift_step shift (invocation_value shift_invocation) shift_values /\
  stores_liveOuts shift_step shift shift_bound shift_values.
Proof.
  assert (H : executes shift_step (bk_dfg shift_bound) no_externals shift_values).
  { intros node i Hn Hi. unfold operand_values, operand_value, edge_value, given, d_find_constant.
    let l := eval vm_compute in (d_nodes (bk_dfg shift_bound)) in
      assert (En : d_nodes (bk_dfg shift_bound) = l) by (vm_compute; reflexivity).
    let l := eval vm_compute in (d_edges (bk_dfg shift_bound)) in
      assert (Ee : d_edges (bk_dfg shift_bound) = l) by (vm_compute; reflexivity).
    let l := eval vm_compute in (d_bindings (bk_dfg shift_bound)) in
      assert (Eb : d_bindings (bk_dfg shift_bound) = l) by (vm_compute; reflexivity).
    let l := eval vm_compute in (d_constants (bk_dfg shift_bound)) in
      assert (Ec : d_constants (bk_dfg shift_bound) = l) by (vm_compute; reflexivity).
    rewrite En in Hn. rewrite Ee, Eb, Ec. clear En Ee Eb Ec. set_unfold in Hn. apply Z.leb_le in Hi.
    destruct Hn as [->|[->|[->|[]]]]; cbn [node_operandTypes length node_id]; try change (range (Z.of_nat 2)) with [0; 1];
      cbn -[Z.leb Z.sub]; repeat (case_bool_decide; simplify_eq); cbn -[Z.leb Z.sub]; rewrite ?Hi; cbn -[Z.leb Z.sub];
      by rewrite ?Z.sub_0_r. }
  split; [exact H|].
  exact (proj1 (bound_kernel_executes_source shift cgra_v2 shift_invocation "" _ shift_bound shift_step shift_values
    shift_input shift_binds eq_refl) H).
Defined.
