(* ===== verification/KernelCompiled.v ===== *)
(** * Compiled kernels

    The driver [compileKernel] as a whole: how it can end, what a success gives, and a
    kernel that shows the hypotheses can hold. *)
From Stdlib Require Import Sorted.
From stdpp Require Import base numbers list gmap strings sorting.
From S2P Require Import Prelude.
From S2P Require Import IR.
From S2P Require Import DFG.
From S2P Require Import DFGVerifier.
From S2P Require Import TargetModel.
From S2P Require Import CgraV2.
From S2P Require Import ModuloMapper.
From S2P Require Import Pipeline.
From S2P Require Import BackendFeasibility.
From S2P Require Import PipelineCorrect.
From S2P Require Import KernelABI.
From S2P Require Import KernelABIVerified.
From S2P Require Import KernelABIBinding.
From S2P Require Import KernelExecution.

Section Kernel.
Context (env : KernelEnvironment) (source : DFG) (target : TargetModel) (options : CompileKernelOptions).

Abbreviation invocation := (kc_invocation options).

(** The name and the signature the driver works with. *)
Definition kernel_name : string :=
  if String.eqb (kc_kernelName options) "" then d_name source else kc_kernelName options.

Definition kernel_signature : KernelSignature := with_kernelName kernel_name (inferSignature source).

(** What the backend is asked to compile. *)
Definition backend_options : CompileDFGOptions := kernel_backend_options kernel_signature options.

(** A loaded kernel whose bound graph the backend can handle. *)
Record kernel_input : Prop := {
  kn_bind : bind_input source target invocation;
  kn_backend : forall r bound, bind source target invocation kernel_name = Some r -> kr_bound r = Some bound ->
    compile_input (bk_dfg bound) target backend_options
}.

(** Every file of the driver itself can be written. *)
Definition kernel_files : Prop := ke_directory env = true -> ke_create env = true /\
  forall name, name ∈ kernel_artifacts ++ ["kernel_compile_result.json"] -> ke_store env name = true.

(** The kernel is bound and the backend has run on it. *)
Definition reports_of (bound : ABIBoundKernel) (backend : CompileDFGResult) : Prop :=
  kernel_bound source target invocation bound /\
  binds source target invocation kernel_signature bound /\
  (exists r, bind source target invocation kernel_name = Some r /\ kr_bound r = Some bound) /\
  compileGenericDFG (ke_backend env) (bk_dfg bound) target backend_options = Some backend.

(** A result that reports both. *)
Definition reports (r : CompileKernelResult) (bound : ABIBoundKernel) (backend : CompileDFGResult) : Prop :=
  kcr_bound r = Some bound /\ kcr_abiLayout r = Some (bk_layout bound) /\ kcr_backend r = Some backend /\
  reports_of bound backend.

(** What each status says; two of them cannot occur. *)
Definition kernel_explained (r : CompileKernelResult) : Prop :=
  match kcr_status r with
  | KSuccess => bindable source target invocation /\ exists bound backend, reports r bound backend /\
      cr_status backend = CSuccess
  | KInvalidSourceDFG => binding_explained source target invocation KBInvalidSourceDFG
  | KInvalidInvocation => ~ invocation_valid (inferSignature source) invocation (mem_depth (tm_memory target)) (scalar_width target)
  | KABIBindingFailure => mem_depth (tm_memory target) < Z.of_nat (length (d_liveOuts source)) \/
      preload_collides source target invocation \/ region_accessed source target invocation \/
      (exists o, o ∈ d_liveOuts source /\ ~ supported_output target o) \/
      exists node, node ∈ d_nodes source /\ isABIOutputStore node = true
  | KBackendCompilationFailure => bindable source target invocation /\ exists bound backend, reports r bound backend /\
      cr_status backend <> CSuccess /\ explained (ke_backend env) (bk_dfg bound) target backend_options (cr_status backend)
  | KABIVerificationFailure | KInternalError => False
  end.

Context (Hin : kernel_input).

Lemma write_kernel_cases names : names ⊆ kernel_artifacts ++ ["kernel_compile_result.json"] ->
  write_kernel env names = Ok tt \/ (write_kernel env names = Throw RuntimeError /\ ~ kernel_files).
Proof using Type.
  intros Hsub. unfold write_kernel. destruct (ke_directory env) eqn:Ed; [|by left]. cbn [negb].
  destruct (forallb (ke_store env) names) eqn:Es; [by left|right]. split; [done|]. intros Hf. destruct (Hf Ed) as [_ Hs].
  apply not_true_iff_false in Es. apply Es, forallb_forall. intros name Hn. by apply Hs, Hsub, list_elem_of_In.
Qed.

(** The files a result names. *)
Definition kernel_logged (r : CompileKernelResult) : Prop :=
  kcr_artifacts r = (if ke_directory env && bool_decide (is_Some (kcr_backend r)) then kernel_artifacts else []) ++
    (if bool_decide (kcr_status r = KSuccess) then from_option cr_artifacts [] (kcr_backend r) else []).

Lemma refused_kernel status : status <> KBSuccess -> binding_explained source target invocation status ->
  kernel_explained (mkKernelResult (binding_failure_status status) (Some kernel_signature) None None None []).
Proof using Type. unfold kernel_explained. destruct status; simpl; tauto. Qed.

(** The driver behind the binder. *)
Lemma backend_ends bound : bindable source target invocation ->
  (exists r, bind source target invocation kernel_name = Some r /\ kr_bound r = Some bound) -> kernel_bound source target invocation bound ->
  binds source target invocation kernel_signature bound -> compile_input (bk_dfg bound) target backend_options ->
  exists backend, compileGenericDFG (ke_backend env) (bk_dfg bound) target backend_options = Some backend /\
  forall artifacts, let layout := Some (bk_layout bound) in
  let r := if compile_ok backend
           then mkKernelResult KSuccess (Some kernel_signature) layout (Some bound) (Some backend) (artifacts ++ cr_artifacts backend)
           else mkKernelResult KBackendCompilationFailure (Some kernel_signature) layout (Some bound) (Some backend) artifacts in
  kernel_explained r /\ (kernel_ok r = true <-> kcr_status r = KSuccess).
Proof using Type.
  intros Hbindable Hbind Hbound Hbinds Hcompile.
  destruct (compile_ends (ke_backend env) (bk_dfg bound) target backend_options Hcompile) as (backend & Hr & He & Hs & _).
  exists backend. split; [done|]. intros artifacts. cbv zeta.
  assert (Hrep : forall status arts, reports (mkKernelResult status (Some kernel_signature) (Some (bk_layout bound)) (Some bound)
    (Some backend) arts) bound backend) by (intros; by split_and!).
  destruct (compile_ok backend) eqn:Eok.
  - split.
    + split; [done|]. exists bound, backend. split; [apply Hrep|]. unfold compile_ok in Eok.
      by apply andb_true_iff in Eok as [E%bool_decide_eq_true _].
    + unfold kernel_ok. simpl. by rewrite Eok.
  - split; [|done]. split; [done|]. exists bound, backend. split_and!; [apply Hrep| |done].
    intros E. destruct (proj1 Hs E) as (_ & (manifest & Em & _) & _). unfold compile_ok in Eok.
    rewrite bool_decide_eq_true_2, Em in Eok by done. done.
Qed.

Lemma kernel_ends : match compileKernel env source target options with
  | Undefined => False
  | Raise _ => ~ kernel_files
  | Done r => kernel_explained r /\ (kernel_ok r = true <-> kcr_status r = KSuccess) /\
      kcr_signature r = Some kernel_signature /\ kernel_logged r
  end.
Proof using Hin.
  destruct Hin as [Hbind Hcompile]. unfold compileKernel. cbv zeta.
  assert (Esig : (if String.eqb (kc_kernelName options) "" then inferSignature source
    else with_kernelName (kc_kernelName options) (inferSignature source)) = kernel_signature).
  { unfold kernel_signature, kernel_name. by destruct (String.eqb _ _). }
  rewrite Esig. change (ks_kernelName kernel_signature) with kernel_name.
  destruct (bind_result source target invocation Hbind kernel_name) as (r & Hr & He & Hok & Hfail). rewrite Hr.
  cbn [deref mbind outcome_bind]. unfold binding_ok. destruct (decide (kr_status r = KBSuccess)) as [Es|Es].
  2: { rewrite (bool_decide_eq_false_2 _ Es). simpl. split_and!; [by apply refused_kernel|by destruct (kr_status r)|done|].
       unfold kernel_logged. simpl. rewrite andb_false_r. by destruct (bool_decide _). }
  destruct (Hok Es) as (bound & Eb & Hbound & Hbinds). rewrite (bool_decide_eq_true_2 _ Es), Eb.
  rewrite (bool_decide_eq_true_2 (is_Some (Some bound))) by (by eexists). cbn [andb].
  assert (Hbinds' : binds source target invocation kernel_signature bound).
  { unfold bound_name in Hbinds. destruct (String.eqb_spec kernel_name "") as [E|]; [|done]. unfold kernel_signature, kernel_name.
    unfold kernel_name in E. destruct (String.eqb_spec (kc_kernelName options) ""); [done|congruence]. }
  assert (Hbindable : bindable source target invocation) by (by rewrite Es in He).
  assert (Hg : DFG_inv (bk_dfg bound)) by (destruct Hbinds as (b & next & -> & Hb & _); apply (ho_inv _ _ Hb)).
  rewrite (proj2 (abi_verify_spec source target invocation bound (bi_inv _ _ _ Hbind) Hg (bi_typed _ _ _ Hbind))) by done.
  cbn [mbind outcome_bind]. rewrite bool_decide_eq_true_2 by done. cbn [negb].
  change (kernel_backend_options kernel_signature options) with backend_options.
  destruct (backend_ends bound) as (backend & -> & Hback); [by try exists r..|by apply (Hcompile r)|].
  cbn [deref].
  destruct (ke_directory env && negb (ke_create env)) eqn:Ecreate.
  { intros Hf. apply andb_true_iff in Ecreate as [Ed Ec%negb_true_iff]. destruct (Hf Ed) as [? _]. congruence. }
  destruct (write_kernel_cases kernel_artifacts) as [-> |[-> ?]]; [|cbn [run_call mbind outcome_bind]|done].
  { intros name Hn. apply elem_of_app. by left. }
  destruct (write_kernel_cases ["kernel_compile_result.json"]) as [-> |[-> ?]];
    [|cbn [run_call mbind outcome_bind]|done].
  { intros name Hn. apply elem_of_app. by right. }
  set (artifacts := if ke_directory env then kernel_artifacts else []). destruct (Hback artifacts) as [Hx Hk].
  cbn [mret outcome_ret]. split_and!; [exact Hx|exact Hk|by destruct (compile_ok backend)|].
  unfold kernel_logged, artifacts. destruct (compile_ok backend); simpl.
  all: rewrite andb_true_r; by rewrite ?app_nil_r.
Qed.

(** What a success hands over: the manifest of a bound graph that has the executions of
    the source. *)
Lemma kernel_computes bound backend : reports_of bound backend -> cr_status backend = CSuccess ->
  exists manifest, cr_manifest backend = Some manifest /\
    program_for (bk_dfg bound) target backend_options manifest /\
    forall step v, executes step (bk_dfg bound) no_externals v <->
      executes step source (invocation_value invocation) v /\ stores_liveOuts step source bound v.
Proof using Hin.
  destruct Hin as [Hbind Hcompile]. intros (Hbound & Hbinds & (r & Hr & Eb) & Hback) Es.
  pose proof (Hcompile r bound Hr Eb) as Hci.
  destruct (compile_ends (ke_backend env) (bk_dfg bound) target backend_options Hci) as (backend' & Hback' & _ & Hs & _).
  rewrite Hback in Hback'. injection Hback' as <-. destruct (proj1 Hs Es) as (_ & (manifest & Em & Hc) & _).
  exists manifest. split_and!; [done|by apply compiled_program|]. intros step v.
  by apply (binding_executions source target invocation kernel_name).
Qed.
End Kernel.

(** C4: how a kernel compilation ends.  For loaded inputs [compileKernel] follows no null
    pointer, throws only when one of its own files cannot be written, and otherwise
    returns a status that is explained: success on a bindable kernel that the backend
    compiles, an invalid source or invocation, a binding failure with its reason, or a
    backend failure on the bound graph, explained by the backend.  A result is good
    exactly when its status is success; the second run of the ABI verifier never fails and
    no internal error is left behind. *)
Theorem compile_kernel_exact (env : KernelEnvironment) (source : DFG) (target : TargetModel) (options : CompileKernelOptions) :
  kernel_input source target options ->
  match compileKernel env source target options with
  | Undefined => False
  | Raise _ => ~ kernel_files env
  | Done r => kernel_explained env source target options r /\ (kernel_ok r = true <-> kcr_status r = KSuccess) /\
      kcr_signature r = Some (kernel_signature source options) /\ kernel_logged env r
  end.
Proof. apply kernel_ends. Qed.


(** ** The example, compiled *)

Definition no_kernel_files : KernelEnvironment := mkKernelEnvironment false (fun _ => false) no_files.

Definition shift_options : CompileKernelOptions := mkKernelOptions shift_invocation "" reuse_options.

Lemma shift_kernel : kernel_input shift cgra_v2 shift_options.
Proof.
  split; [exact shift_input|]. intros r bound Hr Hb.
  assert (H : match bind shift cgra_v2 shift_invocation (kernel_name shift shift_options) with
    | Some r => from_option (fun bound => v2_input_ok (backend_options shift shift_options) (bk_dfg bound)) true (kr_bound r)
    | None => true end = true) by (vm_compute; reflexivity).
  apply v2_compile_input. change (kc_invocation shift_options) with shift_invocation in Hr. rewrite Hr in H. cbv beta iota in H.
  rewrite Hb in H. exact H.
Qed.

Lemma compile_kernel_exact_witness :
  match compileKernel no_kernel_files shift cgra_v2 shift_options with
  | Undefined => False
  | Raise _ => ~ kernel_files no_kernel_files
  | Done r => kernel_explained no_kernel_files shift cgra_v2 shift_options r /\
      (kernel_ok r = true <-> kcr_status r = KSuccess) /\
      kcr_signature r = Some (kernel_signature shift shift_options) /\ kernel_logged no_kernel_files r
  end.
Proof. apply compile_kernel_exact. exact shift_kernel. Defined.

Definition shift_result : CompileKernelResult :=
  match compileKernel no_kernel_files shift cgra_v2 shift_options with
  | Done r => r
  | _ => mkKernelResult KInternalError None None None None []
  end.

Lemma shift_compiled : compileKernel no_kernel_files shift cgra_v2 shift_options = Done shift_result /\
  kcr_status shift_result = KSuccess.
Proof.
  assert (H : match compileKernel no_kernel_files shift cgra_v2 shift_options with
    | Done r => bool_decide (kcr_status r = KSuccess) | _ => false end = true) by (vm_compute; reflexivity).
  unfold shift_result. destruct (compileKernel no_kernel_files shift cgra_v2 shift_options) as [r| |]; try done.
  split; [done|]. by apply bool_decide_eq_true in H.
Qed.

